(* ===== verification/_CoqProject ===== *)
-Q . S2P
Prelude.v
Lru.v
FakeIpAddr.v
FakeIpFile.v
FakeIp.v
FakeIpInv.v
FakeIpOpen.v
FakeIpWorld.v
FakeIpProps.v
H3Frame.v
H3FrameProps.v
Huffman.v
Qpack.v
QpackProps.v
Bytes.v
QuicInitial.v
QuicPieces.v
QuicHello.v
DnsWire.v
DnsWireProps.v
DnsAnswer.v
DnsCache.v
DnsFanout.v
DnsFanoutProps.v
SsAead.v
SsAeadProps.v
Glob.v
DomainIndex.v
QuicAdaptive.v
Limiter.v
Admission.v
UdpTargets.v
Auth.v
CaptureStore.v
AnyTlsPadding.v
Gecko.v
Obfs.v
IpIndex.v
RuleMatcher.v
RuleEval.v
RuleSays.v
RuleSet.v
RuleEngine.v
RuleEngineProps.v
AutoGroups.v
AutoRounds.v
F64.v
F64Bounds.v
SmartSites.v
SmartRank.v
SmartPick.v
SmartBook.v
PolicyRegistry.v
PolicyWalk.v
PolicyTotal.v
TestBook.v
GroupCycles.v
CyclesNamed.v
RouteSet.v
TlsHello.v
TlsJudge.v
TlsReads.v
Requirement.v
RequirementProps.v
Values.v
ItemFields.v
ProfileText.v
ProfileProps.v
Managed.v
ManagedProps.v
Include.v
IncludeProps.v
Redact.v
RedactTotal.v
RedactProps.v
HostText.v
Hysteria2Udp.v
Hysteria2Props.v
TuicUdp.v
TuicProps.v
