(* ===== verification/Prelude.v ===== *)
(** * Verification of rurge

    rurge is a Surge-compatible proxy: listeners and a virtual adapter take
    connections in, a rule engine names a policy for each, the policy leads to
    an outbound, and names are resolved on the way, with fake addresses in their
    place where the adapter must get the name back.  The development models the
    parts of it that decide something by themselves: a shallow embedding, one
    file or group of files per component, each definition after one function of
    the sources and under its name, and the theorems beside it.

    ** How the parts interact

    A profile is read from its text ([ProfileText], its lists by [Values]), with
    what it includes ([Include]) and, when it is managed, from the copy in effect
    ([Managed]); a line may hold on some machines only ([Requirement]), and what the
    API shows of it has its secrets replaced ([Redact]).  The
    addresses the adapter takes in follow from it ([RouteSet]).
    A packet that reaches the adapter (crates/rurge-tun) is parsed; a new
    connection needs a place ([Admission]) and a UDP session an entry
    ([UdpTargets]).  A DNS query is read ([DnsWire]) and answered from the cache
    ([DnsCache]), by several upstreams at once ([DnsFanout]) or with a fake
    address ([FakeIp], its file [FakeIpFile]), and the answer is written by
    [DnsAnswer].  A connection to a fake address gets
    its name back from the pool.  The first datagrams of a QUIC connection are
    read for the server's name ([QuicInitial]), and a host whose QUIC fails is
    remembered ([QuicAdaptive]); the first bytes of a TCP connection are judged
    ([TlsHello]).  The rule engine ([RuleEngine]) runs the rules in order
    ([RuleMatcher], [RuleEval]); a rule may look at a compiled set ([RuleSet]),
    which looks at a domain index ([DomainIndex]), an IP index ([IpIndex]) and
    patterns ([Glob]).  The policy it names is resolved by [PolicyRegistry]
    through groups: automatic groups pick by test results ([AutoGroups],
    [TestBook], in rounds: [AutoRounds]), smart groups by scores ([SmartBook],
    [SmartSites], [SmartRank]); that the groups have no cycles is checked when
    they are assembled ([GroupCycles]).  Outbounds speak protocols: AnyTLS pads
    ([AnyTlsPadding]), Hysteria 2 obfuscates ([Gecko], [Obfs]), UDP goes in fragments
    over Hysteria 2 and TUIC ([Hysteria2Udp], [TuicUdp]), Shadowsocks seals what it
    carries in chunks ([SsAead]), HTTP/3 is frames
    and QPACK ([H3Frame], [Qpack], [Huffman]).  The control plane asks for a key
    ([Auth]) and shows captured requests ([CaptureStore]).

    ** The files

    Prelude: Rust's fallible calls, saturating arithmetic, bytes and UTF-8, the
    string functions of the standard library, shared lemmas and hints.
    Bytes: byte strings by position.
    Lru: the lru crate as a class of operations and laws, with an implementation.
    F64, F64Bounds: binary64 numbers and durations; what is bounded stays bounded
    when it is rounded.

    Fake addresses, crates/rurge-dns/src/fakeip/: FakeIpAddr ([v4_of], [v6_of],
    [index_of], [normalize]), FakeIpFile (file.rs: [render], [parse]), FakeIp
    (mod.rs: [State] and the pool's calls), FakeIpInv (the invariant), FakeIpOpen
    (what opening makes of a file), FakeIpWorld (the pool among its callers),
    FakeIpProps: no call panics in any interleaving, a leased index keeps its
    name, every branch of [assign], saving and opening.

    DNS, crates/rurge-dns/src/: DnsWire, DnsWireProps, DnsAnswer
    (message.rs: rewriting in place keeps everything else; answers read back),
    DnsCache (cache.rs: the cache answers what was recorded last; one refresh at
    a time), DnsFanout, DnsFanoutProps (fanout.rs: several upstreams asked at once
    tell what a search through all they said finds).

    HTTP/3, crates/rurge-net/src/quic/h3/: H3Frame, H3FrameProps (frame.rs: the
    reader refines the frames of the stream however the bytes arrive), Huffman
    (huffman.rs: the decoder takes exactly the code), Qpack, QpackProps (qpack.rs:
    field sections read back).

    QUIC Initial packets, crates/rurge-net/src/quic/initial.rs: QuicInitial,
    QuicPieces, QuicHello: pieces in any order give the message they were cut
    from, reading never panics.

    Rules, crates/rurge-rules/src/ and rurge-config/src/: Glob (glob.rs),
    DomainIndex (domain_index.rs), IpIndex (ip_index.rs), RuleMatcher and RuleEval
    (matcher.rs, set.rs, rule.rs, session.rs), RuleSays (what a rule says, without
    caches), RuleSet (compiling a set), RuleEngine, RuleEngineProps
    (engine.rs, pre_matching.rs: the engine, asking lazily, decides as the first
    rule that does not say no).

    Policies, crates/rurge-policy/src/: AutoGroups, AutoRounds (auto.rs
    and the rounds of registry.rs), SmartSites, SmartRank, SmartPick, SmartBook
    (smart.rs), PolicyRegistry with PolicyWalk and PolicyTotal (registry.rs: where
    names lead, looks leave no trace, what a round covers, dials return whatever
    has happened before), TestBook
    (testbook.rs), GroupCycles, CyclesNamed (assemble.rs: the cycles reported are
    the cycles there are).

    Profiles, crates/rurge-config/src/: Requirement, RequirementProps
    (requirement.rs: every text is parsed, written expressions read back), Values,
    ItemFields (value.rs: where a list is cut, fields read back),
    ProfileText, ProfileProps (text/mod.rs, reach.rs and apply of requirement.rs:
    what a text becomes is well formed), Managed, ManagedProps (managed.rs,
    remote.rs: which text of a managed profile is in effect), Include,
    IncludeProps (text/include.rs: the expansion ends within its bounds and no
    download has a local file looked at), Redact, RedactTotal, RedactProps
    (redact.rs: a text is shown line by line, and what is shown does not tell the
    secrets).

    Routes, crates/rurge-platform/src/route/: RouteSet (set.rs: the
    routes cover exactly the addresses that are asked for).

    First bytes of a connection, crates/rurge-http/src/: TlsHello (tls.rs,
    sniff.rs), TlsJudge (waiting for the bytes a judge asks for is
    judging after each), TlsReads (a ClientHello over any records reads back).

    UDP over QUIC's outbounds, crates/rurge-proto-quic/src/: HostText (types.rs of
    rurge-config, tuic/addr.rs: hosts as texts and on the wire), Hysteria2Udp,
    Hysteria2Props (varint.rs, hysteria2/udp.rs, carrier.rs: a datagram arrives
    once, however its fragments come), TuicUdp, TuicProps (tuic/udp.rs: packets
    arrive whichever way their datagrams are interleaved).

    Shadowsocks, crates/rurge-proto/src/shadowsocks/: SsAead, SsAeadProps
    (cipher.rs, s2022.rs, aead.rs: what is written into a stream is read as it was,
    however both ends' layers take and deliver it; requests and answers of 2022).

    The rest: QuicAdaptive (rurge-engine/src/quic_adaptive.rs), Limiter, Admission,
    UdpTargets (rurge-tun/src/limit.rs, tcp/admission.rs, udp/targets.rs), Auth
    (rurge-api/src/auth.rs), CaptureStore (rurge-http/src/capture/), AnyTlsPadding
    (rurge-proto/src/anytls/), Gecko and Obfs (rurge-proto-quic/src/hysteria2/obfs/).

    ** How the code is modelled

    Machine integers are [Z] with wrapping, saturating or checked operations
    written out where the source has them.  Bytes are [Z] below 256, Rust strings
    ([rstr]) lists of Unicode scalar values
    whose bytes [utf8_encode] gives, [HashMap]s [gmap]s, vectors lists.  [Option] is
    [option], [Result] is [res]; a function that could panic — an index, an
    [expect], a subtraction of counts — answers an [option] with [None] for the
    panic, and that it is not reached is a theorem.  Instants are nanoseconds and
    [Instant::now()] is an argument.  State under a lock is passed from call to
    call, so that a list of calls is an interleaving of threads; where one
    operation takes a lock more than once, or counters are atomic, the steps
    between are separate ([AutoRounds], [Admission], [TestBook]).  What is not part
    of the repository (the lru and prefix-trie crates, TLS's keys, hashes,
    regular expressions, databases, the random source) is a parameter or a class
    with its laws, and each class with laws has an instance that shows they can
    hold.

    Fuel bounds the recursions that are not structural, and is shown to be
    enough: the length of the text twice over in [Glob.matches] ([matches_decides]), the number of
    names in [DomainIndex.halve], the number of edges and nodes in
    [GroupCycles.on_cycles] ([enough]) and of nodes in the walk breadth first, the
    bits left of a prefix in [RouteSet.complement], the length of the prefix in
    [TlsHello.walk], the tokens in [Requirement.parse], one more than the deepest
    level in [Include.expand], one more than the changes of address in
    [Managed.walk], the length of the text in the loops of [Redact], the 65536 turns
    the source has in [TuicUdp.join], the depth of
    16 the source itself has for policies ([PolicyRegistry.TOP]) and for sets.  The readers that wait for input are shown
    to end for every script of arrivals.

    ** Not modelled

    Whatever only moves bytes or asks the operating system: sockets, TLS, the
    HTTP engine's exchanges, the listeners, the platform crate's tools, the
    command line.  Code whose work is in crates outside the repository: hickory's
    messages, quinn, smoltcp, boringtun, hyper, rcgen, axum.  The sections of
    a profile (config.rs, spec/) but for what the rules evaluate.  Texts for
    people: messages, traces, logs.  Of the components modelled, PROJECT.json
    says what each leaves out.

    Among the parts with logic of their own, these are not modelled either:
    assembling the members of groups (the rest of assemble.rs), lists of hosts, the
    text formats of rule sets, the adapter's packets, and the frames of the
    protocols other than those named above. *)

From Stdlib Require Export ZArith Lia.
From stdpp Require Export base list gmap strings fin_maps sorting.

Declare Scope rurge_scope.
Delimit Scope rurge_scope with rurge.
Open Scope Z_scope.

(** What the components' proofs resolve by themselves: bytes are bytes, and
    lengths are what they are. *)
Create HintDb rurge discriminated.
#[export] Hint Constructors Forall : rurge.

(** ** Rust's fallible calls

    [option] is Rust's [Option]; [res] is Rust's [Result].  A computation that
    can panic is an [option] too, with [None] for the panic: such definitions
    end in [_chk] or say so in their comment. *)

Inductive res (E A : Type) : Type :=
| Ok (a : A)
| Err (e : E).
Arguments Ok {E A} a.
Arguments Err {E A} e.

Definition res_bind {E A B : Type} (m : res E A) (k : A -> res E B) : res E B :=
  match m with
  | Ok a => k a
  | Err e => Err e
  end.

Notation "'do?' x <- m ; k" := (res_bind m (fun x => k))
  (at level 100, x pattern, m at level 90, k at level 200, right associativity) : rurge_scope.
Open Scope rurge_scope.

(** [ok_or e o]: Rust's [Option::ok_or]. *)
Definition ok_or {E A : Type} (e : E) (o : option A) : res E A :=
  match o with
  | Some a => Ok a
  | None => Err e
  end.

(** A guard in the option monad: Rust's [if !b { return None }]. *)
Definition require (b : bool) : option unit := if b then Some tt else None.

(** ** Machine integers, kept as [Z] *)

Definition u8_max : Z := 255.
Definition u16_max : Z := 65535.
Definition u32_max : Z := 4294967295.
Definition u64_max : Z := 18446744073709551615.

Definition is_byte (b : Z) : Prop := 0 <= b < 256.
Definition bytes_ok (l : list Z) : Prop := Forall is_byte l.

Definition is_byteb (b : Z) : bool := (0 <=? b) && (b <? 256).
Definition bytes_okb (l : list Z) : bool := forallb is_byteb l.

(** Rust's [saturating_sub] on an unsigned integer. *)
Definition sat_sub (a b : Z) : Z := Z.max 0 (a - b).

(** Big-endian bytes of a 16- and a 32-bit number: [to_be_bytes]. *)
Definition be16 (v : Z) : list Z := [Z.shiftr v 8 mod 256; v mod 256].
Definition be32 (v : Z) : list Z :=
  [Z.shiftr v 24 mod 256; Z.shiftr v 16 mod 256; Z.shiftr v 8 mod 256; v mod 256].

(** [from_be_bytes]. *)
Definition of_be16 (a b : Z) : Z := a * 256 + b.
Definition of_be32 (a b c d : Z) : Z := ((a * 256 + b) * 256 + c) * 256 + d.

(** [bytes.get(a..a + n)]: the [n] bytes at [a], if they are all there. *)
Definition slice {A} (l : list A) (a n : nat) : option (list A) :=
  if decide (a + n <= length l)%nat then Some (take n (drop a l)) else None.

(** [l[a..a + length new].copy_from_slice(new)], for a range inside [l]. *)
Definition splice {A} (l : list A) (a : nat) (new : list A) : list A :=
  take a l ++ new ++ drop (a + length new) l.

(** ** Rust strings

    A [str] is the list of its Unicode scalar values.  [chars()] is the list
    itself; [as_bytes()] is [utf8_encode].  What the sources compare byte by
    byte they compare against ASCII characters only, for which the two views
    agree. *)

Abbreviation rstr := (list Z).

Definition chr (c : Ascii.ascii) : Z := Z.of_N (Ascii.N_of_ascii c).

Fixpoint lit (s : string) : rstr :=
  match s with
  | EmptyString => []
  | String c s => chr c :: lit s
  end.

Definition is_upper (c : Z) : bool := (65 <=? c) && (c <=? 90).
Definition is_lower (c : Z) : bool := (97 <=? c) && (c <=? 122).
Definition is_digit (c : Z) : bool := (48 <=? c) && (c <=? 57).

(** [char::to_ascii_lowercase] and [str::to_ascii_lowercase]. *)
Definition lower_char (c : Z) : Z := if is_upper c then c + 32 else c.
Definition to_ascii_lowercase (s : rstr) : rstr := map lower_char s.

(** [char::is_whitespace]: the White_Space property. *)
Definition is_whitespace (c : Z) : bool :=
  ((9 <=? c) && (c <=? 13)) || (c =? 32) || (c =? 133) || (c =? 160) || (c =? 5760)
  || ((8192 <=? c) && (c <=? 8202)) || (c =? 8232) || (c =? 8233) || (c =? 8239)
  || (c =? 8287) || (c =? 12288).

Fixpoint drop_while {A} (p : A -> bool) (l : list A) : list A :=
  match l with
  | [] => []
  | x :: l' => if p x then drop_while p l' else l
  end.

(** [trim_end_matches], [trim_matches] and [trim], by a predicate. *)
Definition trim_end_by {A} (p : A -> bool) (l : list A) : list A :=
  reverse (drop_while p (reverse l)).
Definition trim_by {A} (p : A -> bool) (l : list A) : list A :=
  trim_end_by p (drop_while p l).
Definition trim (s : rstr) : rstr := trim_by is_whitespace s.

(** [str::split(c)] for a character: always at least one piece. *)
Fixpoint split_on (c : Z) (s : rstr) : list rstr :=
  match s with
  | [] => [[]]
  | x :: s' =>
      if x =? c then [] :: split_on c s'
      else match split_on c s' with
           | [] => [[x]]
           | p :: ps => (x :: p) :: ps
           end
  end.

(** [slice::join(sep)] for a one-character separator. *)
Fixpoint join_with (c : Z) (ps : list rstr) : rstr :=
  match ps with
  | [] => []
  | [p] => p
  | p :: ps' => p ++ c :: join_with c ps'
  end.

(** [str::split_once(c)]. *)
Fixpoint split_once (c : Z) (s : rstr) : option (rstr * rstr) :=
  match s with
  | [] => None
  | x :: s' =>
      if x =? c then Some ([], s')
      else match split_once c s' with
           | Some (a, b) => Some (x :: a, b)
           | None => None
           end
  end.

(** [str::strip_suffix(c)] for a character. *)
Definition strip_suffix (c : Z) (s : rstr) : option rstr :=
  match last s with
  | Some x => if x =? c then Some (take (pred (length s)) s) else None
  | None => None
  end.

(** How many bytes a character takes in UTF-8, and a text's [len()]. *)
Definition len_utf8 (c : Z) : nat :=
  if c <? 128 then 1%nat else if c <? 2048 then 2%nat else if c <? 65536 then 3%nat else 4%nat.
Definition str_len (s : rstr) : nat := sum_list_with len_utf8 s.

(** [String::from_utf8] and [str::from_utf8]: the text a byte string holds,
    [None] when it is not UTF-8. *)
Definition is_cont (b : Z) : bool := (128 <=? b) && (b <? 192).
Definition lead3_ok (b0 b1 : Z) : bool :=
  if b0 =? 224 then (160 <=? b1) && (b1 <? 192)
  else if b0 =? 237 then (128 <=? b1) && (b1 <? 160)
  else (225 <=? b0) && (b0 <=? 239) && is_cont b1.
Definition lead4_ok (b0 b1 : Z) : bool :=
  if b0 =? 240 then (144 <=? b1) && (b1 <? 192)
  else if b0 =? 244 then (128 <=? b1) && (b1 <? 144)
  else (241 <=? b0) && (b0 <=? 243) && is_cont b1.

Fixpoint utf8_decode (bs : list Z) : option rstr :=
  match bs with
  | [] => Some []
  | b0 :: r0 =>
      if b0 <? 128 then cons b0 <$> utf8_decode r0
      else match r0 with
      | [] => None
      | b1 :: r1 =>
          if (194 <=? b0) && (b0 <=? 223) && is_cont b1
          then cons ((b0 - 192) * 64 + (b1 - 128)) <$> utf8_decode r1
          else match r1 with
          | [] => None
          | b2 :: r2 =>
              if lead3_ok b0 b1 && is_cont b2
              then cons (((b0 - 224) * 64 + (b1 - 128)) * 64 + (b2 - 128)) <$> utf8_decode r2
              else match r2 with
              | [] => None
              | b3 :: r3 =>
                  if lead4_ok b0 b1 && is_cont b2 && is_cont b3
                  then cons ((((b0 - 240) * 64 + (b1 - 128)) * 64 + (b2 - 128)) * 64
                             + (b3 - 128)) <$> utf8_decode r3
                  else None
              end
          end
      end
  end.

(** [as_bytes()]. *)
Definition utf8_char (c : Z) : list Z :=
  if c <? 128 then [c]
  else if c <? 2048 then [192 + c / 64; 128 + c mod 64]
  else if c <? 65536 then [224 + c / 4096; 128 + c / 64 mod 64; 128 + c mod 64]
  else [240 + c / 262144; 128 + c / 4096 mod 64; 128 + c / 64 mod 64; 128 + c mod 64].
Definition utf8_encode (s : rstr) : list Z := flat_map utf8_char s.

(** The decimal digits of a number, as [{}] writes it, and the number that a
    run of digits spells, as [str::parse] reads it into a [u32]. *)
Fixpoint dec_digits (fuel : nat) (n : Z) : rstr :=
  match fuel with
  | O => []
  | S fuel => if n <? 10 then [48 + n] else dec_digits fuel (n / 10) ++ [48 + n mod 10]
  end.
Definition show_u32 (n : Z) : rstr := dec_digits 10 n.

Definition digits_value (s : rstr) : Z := fold_left (fun v c => v * 10 + (c - 48)) s 0.

(** ** Arithmetic of bit fields *)

Lemma land_shiftl_low h l n : 0 <= n -> 0 <= l < 2 ^ n -> Z.land (Z.shiftl h n) l = 0.
Proof.
  intros Hn Hl. apply Z.bits_inj'. intros i Hi. rewrite Z.land_spec, Z.testbit_0_l.
  destruct (decide (i < n)).
  - rewrite Z.shiftl_spec_low by lia. done.
  - rewrite <- (Z.mod_small l (2 ^ n)) by lia. rewrite Z.mod_pow2_bits_high by lia.
    apply andb_false_r.
Qed.

(** Two fields side by side: [h << n | l] for an [l] of [n] bits. *)
Lemma lor_shiftl_add h l n : 0 <= n -> 0 <= l < 2 ^ n -> Z.lor (Z.shiftl h n) l = h * 2 ^ n + l.
Proof.
  intros Hn Hl. pose proof (Z.add_lor_land (Z.shiftl h n) l) as H.
  rewrite land_shiftl_low in H by done. rewrite <- Z.shiftl_mul_pow2 by done. lia.
Qed.

(** A statement about one byte, checked on the 256 of them. *)
Lemma byte_check (P : Z -> Prop) `{!forall b, Decision (P b)} :
  forallb (fun n => bool_decide (P (Z.of_nat n))) (seq 0 256) = true ->
  forall b, is_byte b -> P b.
Proof.
  intros Hall b Hb. rewrite forallb_forall in Hall.
  specialize (Hall (Z.to_nat b)). rewrite Z2Nat.id in Hall by (unfold is_byte in Hb; lia).
  eapply bool_decide_eq_true_1, Hall, in_seq. unfold is_byte in Hb. lia.
Qed.

Ltac by_byte_check b Hb :=
  revert b Hb; match goal with |- forall b, is_byte b -> @?P b => apply (byte_check P) end;
  vm_compute; reflexivity.

Lemma bytes_okb_spec l : bytes_okb l = true <-> bytes_ok l.
Proof.
  unfold bytes_okb, bytes_ok. rewrite forallb_forall, Forall_forall.
  split; intros H x Hx; [apply list_elem_of_In in Hx | apply list_elem_of_In in Hx as Hx'];
    specialize (H x); unfold is_byteb, is_byte in *.
  - specialize (H Hx). lia.
  - specialize (H Hx'). lia.
Qed.

(** ** The [option] monad *)

Ltac inv_option :=
  repeat match goal with
  | H : _ ≫= _ = Some _ |- _ => apply bind_Some in H; destruct H as (? & ? & ?)
  | H : _ <$> _ = Some _ |- _ => apply fmap_Some in H; destruct H as (? & ? & ?)
  | H : require ?b = Some _ |- _ => unfold require in H; destruct b eqn:?; [|discriminate H]
  | H : Some _ = Some _ |- _ => injection H as H
  | H : Ok _ = Ok _ |- _ => injection H as H
  | H : Err _ = Err _ |- _ => injection H as H
  | H : None = Some _ |- _ => discriminate H
  | H : Some _ = None |- _ => discriminate H
  | H : Ok _ = Err _ |- _ => discriminate H
  | H : Err _ = Ok _ |- _ => discriminate H
  | H : unit |- _ => destruct H
  end; try subst.

Lemma res_bind_Ok {E A B : Type} (m : res E A) (k : A -> res E B) b :
  res_bind m k = Ok b <-> exists a, m = Ok a /\ k a = Ok b.
Proof. destruct m; simpl; naive_solver. Qed.

(** ** Slices *)

Lemma slice_Some {A} (l : list A) a n s :
  slice l a n = Some s <-> (a + n <= length l)%nat /\ s = take n (drop a l).
Proof. unfold slice. case_decide; naive_solver. Qed.

Lemma slice_length {A} (l : list A) a n s : slice l a n = Some s -> length s = n.
Proof. intros [H ->]%slice_Some. rewrite length_take, length_drop. lia. Qed.

Lemma slice_app_l {A} (l l' : list A) a n :
  (a + n <= length l)%nat -> slice (l ++ l') a n = slice l a n.
Proof.
  intros H. unfold slice. rewrite length_app, !decide_True by lia.
  rewrite drop_app_le by lia. by rewrite take_app_le by (rewrite length_drop; lia).
Qed.

Lemma splice_length {A} (l : list A) a new :
  (a + length new <= length l)%nat -> length (splice l a new) = length l.
Proof. intros H. unfold splice. rewrite !length_app, length_take, length_drop. lia. Qed.

(** ** Strings *)

Lemma drop_while_nil {A} (p : A -> bool) l : Forall (fun x => p x = true) l -> drop_while p l = [].
Proof. induction 1 as [|x l Hx _ IH]; simpl; [done|]. by rewrite Hx. Qed.

Lemma drop_while_id {A} (p : A -> bool) l : Forall (fun x => p x = false) l -> drop_while p l = l.
Proof. destruct 1 as [|x l Hx _]; simpl; [done|]. by rewrite Hx. Qed.

(** What is dropped, and what is left begins with. *)
Lemma drop_while_split {A} (p : A -> bool) l : exists before, l = before ++ drop_while p l /\ Forall (fun x => p x = true) before.
Proof.
  induction l as [|x l (before & Hl & Hb)]; simpl; [by exists []|]. destruct (p x) eqn:Hp; [|by exists []].
  exists (x :: before). split; [simpl; by rewrite <- Hl|by constructor].
Qed.

Lemma drop_while_head {A} (p : A -> bool) l x : head (drop_while p l) = Some x -> p x = false.
Proof. induction l as [|y l IH]; simpl; [done|]. destruct (p y) eqn:Hp; [done|]. simpl. congruence. Qed.

(** [filter] where nothing stays, and where all does. *)
Lemma filter_none {A} (P : A -> Prop) `{!forall x, Decision (P x)} l : Forall (fun x => ~ P x) l -> filter P l = [].
Proof. induction 1; [done|]. by rewrite filter_cons, decide_False. Qed.

Lemma filter_all {A} (P : A -> Prop) `{!forall x, Decision (P x)} l : Forall P l -> filter P l = l.
Proof. induction 1; [done|]. rewrite filter_cons, decide_True by done. by f_equal. Qed.

Lemma split_on_not_nil c s : split_on c s <> [].
Proof. destruct s as [|x s]; simpl; [done|]. case_match; [done|]. by case_match. Qed.

Lemma join_with_cons c p q ps : join_with c (p :: q :: ps) = p ++ c :: join_with c (q :: ps).
Proof. done. Qed.

Lemma join_split c s : join_with c (split_on c s) = s.
Proof.
  induction s as [|x s IH]; [done|]; simpl. destruct (Z.eqb_spec x c) as [->|Hx].
  - destruct (split_on c s) eqn:E; [by apply split_on_not_nil in E|].
    rewrite join_with_cons. by rewrite IH.
  - destruct (split_on c s) as [|p ps] eqn:E; [by apply split_on_not_nil in E|].
    rewrite <- IH. destruct ps; [done|]. by rewrite !join_with_cons.
Qed.

Lemma split_on_no_sep c s : Forall (fun x => x <> c) s -> split_on c s = [s].
Proof.
  induction 1 as [|x s Hx _ IH]; [done|]; simpl. destruct (Z.eqb_spec x c); [done|]. by rewrite IH.
Qed.

Lemma split_on_app c s t :
  Forall (fun x => x <> c) s -> split_on c (s ++ c :: t) = s :: split_on c t.
Proof.
  induction 1 as [|x s Hx _ IH]; simpl.
  - by rewrite Z.eqb_refl.
  - destruct (Z.eqb_spec x c); [done|]. by rewrite IH.
Qed.

Lemma split_join c ps :
  ps <> [] -> Forall (Forall (fun x => x <> c)) ps -> split_on c (join_with c ps) = ps.
Proof.
  intros Hne Hps. induction Hps as [|p ps Hp Hps IH]; [done|].
  destruct ps as [|q ps]; [by apply split_on_no_sep|].
  rewrite join_with_cons, split_on_app by done. f_equal. by apply IH.
Qed.

Lemma split_on_pieces c s : Forall (Forall (fun x => x <> c)) (split_on c s).
Proof.
  induction s as [|x s IH]; simpl; [by repeat constructor|].
  destruct (Z.eqb_spec x c); [by constructor|].
  destruct (split_on c s) as [|p ps]; [by repeat constructor|].
  apply Forall_cons in IH as [Hp Hps]. by repeat constructor.
Qed.

Lemma split_once_app c s t :
  Forall (fun x => x <> c) s -> split_once c (s ++ c :: t) = Some (s, t).
Proof.
  induction 1 as [|x s Hx _ IH]; simpl; [by rewrite Z.eqb_refl|].
  destruct (Z.eqb_spec x c); [done|]. by rewrite IH.
Qed.

(** ASCII text is its own UTF-8. *)
Definition is_ascii (c : Z) : Prop := 0 <= c < 128.

Lemma utf8_encode_ascii s : Forall is_ascii s -> utf8_encode s = s.
Proof.
  unfold is_ascii. induction 1 as [|c s Hc _ IH]; [done|]; simpl. unfold utf8_char at 1.
  rewrite (proj2 (Z.ltb_lt c 128)) by lia. simpl. f_equal. exact IH.
Qed.

Lemma utf8_decode_ascii s : Forall is_ascii s -> utf8_decode s = Some s.
Proof.
  unfold is_ascii. induction 1 as [|c s Hc _ IH]; [done|]; simpl.
  rewrite (proj2 (Z.ltb_lt c 128)) by lia. by rewrite IH.
Qed.

Lemma lower_char_idem c : lower_char (lower_char c) = lower_char c.
Proof.
  unfold lower_char at 2 3. destruct (is_upper c) eqn:E; unfold lower_char.
  - destruct (is_upper (c + 32)) eqn:E'; [|done]. unfold is_upper in *. lia.
  - by rewrite E.
Qed.

Lemma to_ascii_lowercase_idem s : to_ascii_lowercase (to_ascii_lowercase s) = to_ascii_lowercase s.
Proof. unfold to_ascii_lowercase. rewrite map_map. apply map_ext, lower_char_idem. Qed.

(** ** Decimal numbers *)

Lemma digits_value_app s t : digits_value (s ++ t) = fold_left (fun v c => v * 10 + (c - 48)) t (digits_value s).
Proof. apply fold_left_app. Qed.

Lemma dec_digits_value fuel n :
  0 <= n < 10 ^ Z.of_nat fuel -> (0 < fuel)%nat -> digits_value (dec_digits fuel n) = n.
Proof.
  revert n. induction fuel as [|fuel IH]; intros n Hn Hf; [lia|]; simpl.
  destruct (Z.ltb_spec n 10); [unfold digits_value; simpl; lia|].
  rewrite digits_value_app. rewrite Nat2Z.inj_succ, Z.pow_succ_r in Hn by lia.
  assert (0 < fuel)%nat by (destruct fuel; simpl in *; lia).
  rewrite IH; [|Z.div_mod_to_equations; lia|done]. simpl. Z.div_mod_to_equations; lia.
Qed.

Lemma dec_digits_digit fuel n : 0 <= n -> Forall (fun c => is_digit c = true) (dec_digits fuel n).
Proof.
  revert n. induction fuel as [|fuel IH]; intros n Hn; simpl; [constructor|].
  unfold is_digit in *. destruct (Z.ltb_spec n 10).
  - repeat constructor. lia.
  - apply Forall_app. split; [apply IH; Z.div_mod_to_equations; lia|].
    repeat constructor. Z.div_mod_to_equations; lia.
Qed.

Lemma dec_digits_not_nil fuel n : (0 < fuel)%nat -> dec_digits fuel n <> [].
Proof.
  destruct fuel as [|fuel]; [lia|]; simpl. intros _. case_match; [done|].
  by intros [_ ?]%app_eq_nil.
Qed.

Lemma show_u32_value n : 0 <= n <= u32_max -> digits_value (show_u32 n) = n.
Proof. unfold u32_max. intros ?. apply dec_digits_value; lia. Qed.

(** ** Sorted lists *)

Lemma sorted_lookup {A} (R : A -> A -> Prop) l : StronglySorted R l ->
  forall i j x y, l !! i = Some x -> l !! j = Some y -> (i < j)%nat -> R x y.
Proof.
  induction 1 as [|x l Hs IH Hall]; intros i j u v Hi Hj Hij; [done|].
  destruct j as [|j]; [lia|]. destruct i as [|i]; simpl in *; simplify_eq.
  - rewrite Forall_lookup in Hall. by eapply Hall.
  - eapply IH; [done..|lia].
Qed.

(** ** The least element *)

(** [Iterator::min_by_key]: the first of the elements whose key is smallest. *)
Fixpoint min_by {A : Type} (key : A -> Z) (l : list A) : option A :=
  match l with
  | [] => None
  | p :: l =>
      match min_by key l with
      | Some q => if key q <? key p then Some q else Some p
      | None => Some p
      end
  end.

Lemma min_by_spec {A : Type} (key : A -> Z) l : match min_by key l with
  | Some p => p ∈ l /\ forall q, q ∈ l -> key p <= key q
  | None => l = []
  end.
Proof.
  induction l as [|p l IH]; simpl; [done|]. destruct (min_by key l) as [q|].
  - destruct IH as [Hq Hle]. destruct (Z.ltb_spec (key q) (key p)).
    + split; [by right|]. intros x [->|Hx]%elem_of_cons; [lia|by apply Hle].
    + split; [left|]. intros x [->|Hx]%elem_of_cons; [lia|]. specialize (Hle x Hx). lia.
  - subst. split; [left|]. intros x [->|Hx%elem_of_nil]%elem_of_cons; [lia|done].
Qed.
