(* ===== verification/Lru.v ===== *)
(** * The [lru] crate's cache, as an interface

    [lru::LruCache] is not part of the repository.  The fake-IP pool keeps its
    order of use in an unbounded one and the DNS cache keeps its entries in a
    bounded one.  What both rely on is stated here as a class of operations and
    a class of laws, in terms of what [iter] shows: the entries, the one used
    most recently first.  [ListLru] is an implementation of the interface, so
    that the definitions that use it can be evaluated. *)

From S2P Require Import Prelude.

(** The keys a client finds in the cache, most recently used first. *)
Definition keys_of {K V : Type} (l : list (K * V)) : list K := l.*1.

Definition drop_key `{EqDecision K} {V : Type} (k : K) (l : list (K * V)) : list (K * V) :=
  filter (fun p => p.1 <> k) l.

Fixpoint assoc `{EqDecision K} {V : Type} (k : K) (l : list (K * V)) : option V :=
  match l with
  | [] => None
  | (k', v) :: l' => if decide (k' = k) then Some v else assoc k l'
  end.

(** What an insertion leaves of the entries when there is a capacity. *)
Definition capped {A : Type} (cap : option nat) (l : list A) : list A :=
  match cap with
  | None => l
  | Some n => take n l
  end.

Class Lru (K V : Type) := {
  lru : Type;
  lru_unbounded : lru;
  lru_new : nat -> lru;
  lru_cap : lru -> option nat;
  lru_iter : lru -> list (K * V);
  lru_put : K -> V -> lru -> lru;
  lru_get : K -> lru -> option V * lru;
  lru_get_mut : K -> (V -> V) -> lru -> lru;
  lru_promote : K -> lru -> lru;
  lru_pop : K -> lru -> lru;
  lru_pop_lru : lru -> option ((K * V) * lru);
  lru_clear : lru -> lru;
}.
Arguments lru K V {_}.

(** What the crate documents, as far as the two clients use it. *)
Class LruLaws (K V : Type) `{EqDecision K} `{Lru K V} := {
  iter_unbounded : lru_iter lru_unbounded = [];
  cap_unbounded : lru_cap lru_unbounded = None;
  iter_new n : lru_iter (lru_new n) = [];
  cap_new n : lru_cap (lru_new n) = Some n;
  iter_put k v c :
    lru_iter (lru_put k v c) = capped (lru_cap c) ((k, v) :: drop_key k (lru_iter c));
  cap_put k v c : lru_cap (lru_put k v c) = lru_cap c;
  iter_promote k c :
    lru_iter (lru_promote k c) =
      match assoc k (lru_iter c) with
      | Some v => (k, v) :: drop_key k (lru_iter c)
      | None => lru_iter c
      end;
  cap_promote k c : lru_cap (lru_promote k c) = lru_cap c;
  get_spec k c : lru_get k c = (assoc k (lru_iter c), lru_promote k c);
  iter_get_mut k f c :
    lru_iter (lru_get_mut k f c) =
      match assoc k (lru_iter c) with
      | Some v => (k, f v) :: drop_key k (lru_iter c)
      | None => lru_iter c
      end;
  cap_get_mut k f c : lru_cap (lru_get_mut k f c) = lru_cap c;
  iter_pop k c : lru_iter (lru_pop k c) = drop_key k (lru_iter c);
  cap_pop k c : lru_cap (lru_pop k c) = lru_cap c;
  pop_lru_none c : lru_pop_lru c = None <-> lru_iter c = [];
  pop_lru_some c p c' :
    lru_pop_lru c = Some (p, c') -> lru_iter c = lru_iter c' ++ [p] /\ lru_cap c' = lru_cap c;
  iter_clear c : lru_iter (lru_clear c) = [];
  cap_clear c : lru_cap (lru_clear c) = lru_cap c;
}.

(** ** A list implementation *)

Record list_lru (K V : Type) := mkListLru {
  ll_items : list (K * V);
  ll_cap : option nat;
}.
Arguments mkListLru {K V}.
Arguments ll_items {K V}.
Arguments ll_cap {K V}.

Definition ll_touch `{EqDecision K} {V : Type} (k : K) (f : V -> V) (c : list_lru K V)
  : list_lru K V :=
  match assoc k (ll_items c) with
  | Some v => mkListLru ((k, f v) :: drop_key k (ll_items c)) (ll_cap c)
  | None => c
  end.

Definition ll_pop_lru {K V : Type} (c : list_lru K V) : option ((K * V) * list_lru K V) :=
  match last (ll_items c) with
  | Some p => Some (p, mkListLru (take (pred (length (ll_items c))) (ll_items c)) (ll_cap c))
  | None => None
  end.

#[export] Instance ListLru `{EqDecision K} (V : Type) : Lru K V := {
  lru := list_lru K V;
  lru_unbounded := mkListLru [] None;
  lru_new n := mkListLru [] (Some n);
  lru_cap := ll_cap;
  lru_iter := ll_items;
  lru_put k v c := mkListLru (capped (ll_cap c) ((k, v) :: drop_key k (ll_items c))) (ll_cap c);
  lru_get k c := (assoc k (ll_items c), ll_touch k (fun v => v) c);
  lru_get_mut k f c := ll_touch k f c;
  lru_promote k c := ll_touch k (fun v => v) c;
  lru_pop k c := mkListLru (drop_key k (ll_items c)) (ll_cap c);
  lru_pop_lru := ll_pop_lru;
  lru_clear c := mkListLru [] (ll_cap c);
}.

Lemma list_lru_pop_none {K V : Type} (c : list_lru K V) :
  ll_pop_lru c = None <-> ll_items c = [].
Proof.
  unfold ll_pop_lru. rewrite <- last_None. by destruct (last (ll_items c)).
Qed.

Lemma list_lru_pop_some {K V : Type} (c : list_lru K V) p c' :
  ll_pop_lru c = Some (p, c') -> ll_items c = ll_items c' ++ [p] /\ ll_cap c' = ll_cap c.
Proof.
  unfold ll_pop_lru. destruct (last (ll_items c)) as [q|] eqn:Hl; [|done].
  intros [= <- <-]; simpl. apply last_Some in Hl as [l Hl]. rewrite Hl.
  rewrite length_app; simpl. rewrite Nat.add_1_r; simpl. by rewrite take_app_length.
Qed.

#[export] Instance ListLruLaws `{EqDecision K} (V : Type) : LruLaws K V.
Proof.
  split; try done; simpl.
  - intros k c. unfold ll_touch. by destruct (assoc k (ll_items c)).
  - intros k c. unfold ll_touch. by destruct (assoc k (ll_items c)).
  - intros k f c. unfold ll_touch. by destruct (assoc k (ll_items c)).
  - intros k f c. unfold ll_touch. by destruct (assoc k (ll_items c)).
  - apply list_lru_pop_none.
  - apply list_lru_pop_some.
Qed.

(** ** Facts about the entries *)

Section entries.
Context `{EqDecision K} {V : Type}.
Implicit Types (k : K) (v : V) (l : list (K * V)).

Lemma elem_of_drop_key k k' l : k' ∈ keys_of (drop_key k l) <-> k' <> k /\ k' ∈ keys_of l.
Proof.
  unfold keys_of, drop_key. rewrite !list_elem_of_fmap. split.
  - intros ([a b] & -> & [Hne Hin]%list_elem_of_filter). split; [done|]. by exists (a, b).
  - intros (Hne & [a b] & -> & Hin). exists (a, b). split; [done|].
    by apply list_elem_of_filter.
Qed.

Lemma drop_key_not_in k l : k ∉ keys_of (drop_key k l).
Proof. rewrite elem_of_drop_key. by intros [? _]. Qed.

Lemma drop_key_NoDup k l : NoDup (keys_of l) -> NoDup (keys_of (drop_key k l)).
Proof.
  unfold keys_of, drop_key. induction l as [|[a b] l IH]; [done|].
  intros [Hn Hl]%NoDup_cons. rewrite filter_cons. case_decide; simpl in *; [|auto].
  constructor; [|auto]. intros Hin. apply Hn.
  fold (keys_of (drop_key k l)) in Hin. apply elem_of_drop_key in Hin. by destruct Hin.
Qed.

Lemma drop_key_id k l : k ∉ keys_of l -> drop_key k l = l.
Proof.
  unfold drop_key, keys_of. induction l as [|[a b] l IH]; [done|]; simpl.
  rewrite not_elem_of_cons. intros [Ha Hl]. rewrite filter_cons_True; [|naive_solver].
  by rewrite IH.
Qed.

Lemma assoc_None k l : assoc k l = None <-> k ∉ keys_of l.
Proof.
  unfold keys_of. induction l as [|[a b] l IH]; simpl.
  - split; [intros _; apply not_elem_of_nil|done].
  - rewrite not_elem_of_cons. destruct (decide (a = k)) as [->|Ha].
    + split; [done|]. by intros [[] _].
    + rewrite IH. split; [by split|]. by intros [_ ?].
Qed.

Lemma assoc_elem k v l : assoc k l = Some v -> (k, v) ∈ l.
Proof.
  induction l as [|[a b] l IH]; simpl; [done|]. case_decide.
  - intros [= ->]. subst. left.
  - intros ?. right. auto.
Qed.

Lemma assoc_keys k v l : assoc k l = Some v -> k ∈ keys_of l.
Proof. intros H%assoc_elem. unfold keys_of. apply list_elem_of_fmap. by exists (k, v). Qed.

Lemma assoc_drop_ne k k' l : k <> k' -> assoc k' (drop_key k l) = assoc k' l.
Proof.
  intros Hne. unfold drop_key. induction l as [|[a b] l IH]; [done|].
  rewrite filter_cons. simpl. destruct (decide (a <> k)) as [Ha|Ha]; simpl; rewrite IH; [done|].
  rewrite decide_False; [done|]. intros ->. by apply Ha.
Qed.

Lemma assoc_drop_eq k l : assoc k (drop_key k l) = None.
Proof. apply assoc_None, drop_key_not_in. Qed.

Lemma drop_key_length k l : (length (drop_key k l) <= length l)%nat.
Proof. unfold drop_key. apply length_filter. Qed.

End entries.
