(* ===== verification/FakeIpAddr.v ===== *)
(** * Fake addresses and the names they stand for

    The functions of [crates/rurge-dns/src/fakeip/mod.rs] that need no pool:
    the two addresses of an index ([v4_of], [v6_of]), the index of an address
    ([index_of]), rurge's own address space ([in_space]) and the form of a name
    the pool takes ([normalize]).  Addresses are their bits: 32 for IPv4, 128
    for IPv6. *)

From S2P Require Import Prelude.

Inductive IpAddr : Type :=
| V4 (bits : Z)
| V6 (bits : Z).

#[export] Instance IpAddr_eq_dec : EqDecision IpAddr.
Proof. solve_decision. Defined.

(** [FAKE_COUNT], and [FIRST], the address of index 0: [198.18.1.1]. *)
Definition FAKE_COUNT : Z := 130814.
Definition FIRST : Z := 3323068673.

(** The eight 16-bit segments of an IPv6 address, and back ([Ipv6Addr::new]). *)
Definition segments (bits : Z) : list Z :=
  map (fun k => Z.shiftr bits (16 * k) mod 65536) [7; 6; 5; 4; 3; 2; 1; 0].
Definition v6_new (segs : list Z) : Z := fold_left (fun acc s => acc * 65536 + s) segs 0.

(** The four octets of an IPv4 address. *)
Definition octets (bits : Z) : list Z :=
  map (fun k => Z.shiftr bits (8 * k) mod 256) [3; 2; 1; 0].

Definition v4_of (index : Z) : Z := (FIRST + index) mod 2 ^ 32.

Definition v6_of (index : Z) : Z :=
  match octets (v4_of index) with
  | [a; b; c; d] => v6_new [64768; 24914; 0; 0; 0; 0; of_be16 a b; of_be16 c d]
  | _ => 0
  end.

(** The 32 bits an address of either form carries, if it has that form. *)
Definition fake_bits (ip : IpAddr) : option Z :=
  match ip with
  | V4 v4 => Some v4
  | V6 v6 =>
      match segments v6 with
      | [s0; s1; s2; s3; s4; s5; high; low] =>
          if (s0 =? 64768) && (s1 =? 24914) && (s2 =? 0) && (s3 =? 0) && (s4 =? 0) && (s5 =? 0)
          then Some (Z.lor (Z.shiftl high 16) low)
          else None
      | _ => None
      end
  end.

Definition index_of (ip : IpAddr) : option Z :=
  v4_bits ← fake_bits ip;
  if v4_bits <? FIRST then None
  else if v4_bits - FIRST <? FAKE_COUNT then Some (v4_bits - FIRST) else None.

(** [IpAddr::to_canonical]: an IPv4-mapped address is the IPv4 one. *)
Definition to_canonical (ip : IpAddr) : IpAddr :=
  match ip with
  | V4 v4 => V4 v4
  | V6 v6 =>
      match segments v6 with
      | [s0; s1; s2; s3; s4; s5; high; low] =>
          if (s0 =? 0) && (s1 =? 0) && (s2 =? 0) && (s3 =? 0) && (s4 =? 0) && (s5 =? 65535)
          then V4 (high * 65536 + low) else V6 v6
      | _ => V6 v6
      end
  end.

Definition in_space (ip : IpAddr) : bool :=
  match to_canonical ip with
  | V4 v4 =>
      match octets v4 with
      | a :: b :: _ => (a =? 198) && ((b =? 18) || (b =? 19))
      | _ => false
      end
  | V6 v6 =>
      match segments v6 with
      | s0 :: s1 :: s2 :: s3 :: _ => (s0 =? 64768) && (s1 =? 24914) && (s2 =? 0) && (s3 =? 0)
      | _ => false
      end
  end.

(** [normalize]: one trailing dot off, ASCII lower case, labels of letters,
    digits, [-] and [_] only, at most 253 bytes. *)
Definition label_byte (b : Z) : bool := is_lower b || is_digit b || (b =? 45) || (b =? 95).

Definition a_label (label : rstr) : bool :=
  match label with
  | [] => false
  | _ => forallb label_byte label
  end.

Definition normalize (name : rstr) : option rstr :=
  let name := default name (strip_suffix 46 name) in
  if decide (253 < str_len name)%nat then None
  else
    let name := to_ascii_lowercase name in
    if forallb a_label (split_on 46 name) then Some name else None.

(** ** Addresses *)

Lemma segment_mod (bits : Z) (n : Z) : 0 <= n -> Z.shiftr bits n mod 65536 = bits / 2 ^ n mod 65536.
Proof. intros ?. by rewrite Z.shiftr_div_pow2. Qed.

Lemma v4_of_small index : 0 <= index < FAKE_COUNT -> v4_of index = FIRST + index.
Proof. unfold v4_of, FAKE_COUNT, FIRST. intros ?. apply Z.mod_small. lia. Qed.

Lemma octets_join v : 0 <= v < 2 ^ 32 ->
  exists a b c d, octets v = [a; b; c; d] /\ of_be16 a b = v / 65536 /\ of_be16 c d = v mod 65536
    /\ is_byte a /\ is_byte b /\ is_byte c /\ is_byte d.
Proof.
  intros Hv. unfold octets; simpl. rewrite !Z.shiftr_div_pow2 by lia.
  do 4 eexists. split; [reflexivity|]. unfold of_be16, is_byte.
  change (2 ^ (8 * 3)) with 16777216. change (2 ^ (8 * 2)) with 65536.
  change (2 ^ (8 * 1)) with 256. change (2 ^ (8 * 0)) with 1. rewrite Z.div_1_r.
  repeat split; Z.div_mod_to_equations; lia.
Qed.

Lemma segments_new s0 s1 s2 s3 s4 s5 s6 s7 :
  Forall (fun s => 0 <= s < 65536) [s0; s1; s2; s3; s4; s5; s6; s7] ->
  segments (v6_new [s0; s1; s2; s3; s4; s5; s6; s7]) = [s0; s1; s2; s3; s4; s5; s6; s7].
Proof.
  intros H. repeat (apply Forall_cons in H as [? H]). clear H.
  assert (Hstep : forall acc s k, 0 <= s < 65536 -> 0 <= k ->
    Z.shiftr (acc * 65536 + s) (16 * (k + 1)) = Z.shiftr acc (16 * k)).
  { intros acc s k Hs Hk. rewrite !Z.shiftr_div_pow2 by lia.
    replace (16 * (k + 1)) with (16 + 16 * k) by lia.
    rewrite Z.pow_add_r by lia. rewrite <- Z.div_div by lia.
    change (2 ^ 16) with 65536. f_equal. Z.div_mod_to_equations; lia. }
  assert (Hlow : forall acc s, 0 <= s < 65536 -> Z.shiftr (acc * 65536 + s) (16 * 0) mod 65536 = s).
  { intros acc s Hs. change (16 * 0) with 0. rewrite Z.shiftr_0_r.
    rewrite Z.add_comm, Z.mod_add by lia. by apply Z.mod_small. }
  unfold segments, v6_new. cbn [map fold_left].
  change 7 with (0 + 1 + 1 + 1 + 1 + 1 + 1 + 1). change 6 with (0 + 1 + 1 + 1 + 1 + 1 + 1).
  change 5 with (0 + 1 + 1 + 1 + 1 + 1). change 4 with (0 + 1 + 1 + 1 + 1).
  change 3 with (0 + 1 + 1 + 1). change 2 with (0 + 1 + 1). change 1 with (0 + 1).
  repeat f_equal; rewrite ?Hstep by lia; apply Hlow; lia.
Qed.

Lemma v6_of_new index : 0 <= index < FAKE_COUNT ->
  v6_of index = v6_new [64768; 24914; 0; 0; 0; 0; (FIRST + index) / 65536; (FIRST + index) mod 65536].
Proof.
  intros Hi. unfold v6_of. rewrite v4_of_small by done.
  assert (0 <= FIRST + index < 2 ^ 32) as Hr by (unfold FIRST, FAKE_COUNT in *; lia).
  by destruct (octets_join _ Hr) as (a & b & c & d & -> & -> & -> & _).
Qed.

Lemma v6_of_segments index : 0 <= index < FAKE_COUNT ->
  segments (v6_of index) = [64768; 24914; 0; 0; 0; 0; (FIRST + index) / 65536; (FIRST + index) mod 65536].
Proof.
  intros Hi. rewrite v6_of_new by done.
  apply segments_new. repeat constructor; unfold FIRST, FAKE_COUNT in *; Z.div_mod_to_equations; lia.
Qed.

Lemma v6_new_segments bits : 0 <= bits < 2 ^ 128 -> v6_new (segments bits) = bits.
Proof.
  intros Hb.
  assert (Hstep : forall k, Z.leb 0 k = true ->
    Z.shiftr bits (16 * (k + 1)) * 65536 + Z.shiftr bits (16 * k) mod 65536 = Z.shiftr bits (16 * k)).
  { intros k Hk%Z.leb_le. rewrite !Z.shiftr_div_pow2 by lia. replace (16 * (k + 1)) with (16 * k + 16) by lia.
    rewrite Z.pow_add_r, <- Z.div_div by lia. change (2 ^ 16) with 65536.
    pose proof (Z.div_mod (bits / 2 ^ (16 * k)) 65536 ltac:(lia)). lia. }
  unfold segments, v6_new. cbn [map fold_left].
  assert (H7 : 0 * 65536 + Z.shiftr bits (16 * 7) mod 65536 = Z.shiftr bits (16 * 7)).
  { rewrite Z.mod_small; [lia|]. rewrite Z.shiftr_div_pow2 by lia. change (2 ^ 128) with (2 ^ (16 * 7) * 65536) in Hb.
    split; [apply Z.div_pos; lia|apply Z.div_lt_upper_bound; lia]. }
  rewrite H7.
  rewrite (Hstep 6 eq_refl : Z.shiftr bits (16 * 7) * 65536 + _ = _). rewrite (Hstep 5 eq_refl : Z.shiftr bits (16 * 6) * 65536 + _ = _).
  rewrite (Hstep 4 eq_refl : Z.shiftr bits (16 * 5) * 65536 + _ = _). rewrite (Hstep 3 eq_refl : Z.shiftr bits (16 * 4) * 65536 + _ = _).
  rewrite (Hstep 2 eq_refl : Z.shiftr bits (16 * 3) * 65536 + _ = _). rewrite (Hstep 1 eq_refl : Z.shiftr bits (16 * 2) * 65536 + _ = _).
  rewrite (Hstep 0 eq_refl : Z.shiftr bits (16 * 1) * 65536 + _ = _).
  apply Z.shiftr_0_r.
Qed.

Lemma join_halves v : 0 <= v < 2 ^ 32 -> Z.lor (Z.shiftl (v / 65536) 16) (v mod 65536) = v.
Proof.
  intros Hv. rewrite lor_shiftl_add by (try Z.div_mod_to_equations; lia).
  change (2 ^ 16) with 65536. Z.div_mod_to_equations; lia.
Qed.

(** ** Names *)

Lemma lower_char_utf8 c : len_utf8 (lower_char c) = len_utf8 c.
Proof.
  unfold lower_char. destruct (is_upper c) eqn:E; [|done]. unfold is_upper in E. unfold len_utf8.
  rewrite !(proj2 (Z.ltb_lt _ 128)) by lia. done.
Qed.

Lemma str_len_lower s : str_len (to_ascii_lowercase s) = str_len s.
Proof.
  unfold str_len, to_ascii_lowercase. induction s as [|c s IH]; simpl; [done|].
  by rewrite lower_char_utf8, IH.
Qed.

Lemma last_split_on c s : last s = Some c -> last (split_on c s) = Some [].
Proof.
  induction s as [|x s IH]; [done|]. intros Hl; simpl.
  destruct s as [|y s].
  - injection Hl as ->. by rewrite Z.eqb_refl.
  - specialize (IH Hl). destruct (split_on c (y :: s)) as [|p ps] eqn:E; [done|].
    destruct (Z.eqb_spec x c) as [->|]; [by rewrite last_cons_cons|].
    destruct ps as [|q ps]; [|by rewrite last_cons_cons in *].
    injection IH as ->. exfalso.
    assert (y :: s = []) as Hn by (rewrite <- (join_split c (y :: s)), E; done). done.
Qed.

Lemma labels_no_trailing_dot s :
  forallb a_label (split_on 46 s) = true -> strip_suffix 46 s = None.
Proof.
  intros H. unfold strip_suffix. destruct (last s) as [x|] eqn:Hl; [|done].
  destruct (Z.eqb_spec x 46) as [->|]; [|done].
  apply last_split_on in Hl. apply last_Some_elem_of in Hl. rewrite forallb_forall in H.
  apply list_elem_of_In in Hl. apply H in Hl. done.
Qed.

(** What [normalize] gives, it leaves as it is. *)
Lemma normalize_shape name n :
  normalize name = Some n ->
  forallb a_label (split_on 46 n) = true /\ (str_len n <= 253)%nat /\ to_ascii_lowercase n = n.
Proof.
  unfold normalize. case_decide; [done|]. case_match; [|done]. intros [= <-].
  split; [done|]. rewrite str_len_lower, to_ascii_lowercase_idem. split; [lia|done].
Qed.

Lemma normalize_fixed n :
  forallb a_label (split_on 46 n) = true -> (str_len n <= 253)%nat -> to_ascii_lowercase n = n ->
  normalize n = Some n.
Proof.
  intros Hl Hlen Hlow. unfold normalize. rewrite labels_no_trailing_dot by done. simpl.
  rewrite decide_False by lia. by rewrite Hlow, Hl.
Qed.

Lemma normalize_idem name n : normalize name = Some n -> normalize n = Some n.
Proof. intros H. destruct (normalize_shape _ _ H) as (? & ? & ?). by apply normalize_fixed. Qed.

Lemma Forall_join_with (P : Z -> Prop) c ps : P c -> Forall (Forall P) ps -> Forall P (join_with c ps).
Proof.
  intros Hc H. induction H as [|p ps Hp Hps IH]; [constructor|].
  destruct ps as [|q ps]; [done|]. rewrite join_with_cons. apply Forall_app. split; [done|].
  by constructor.
Qed.

(** The characters of a normalized name. *)
Lemma normalize_chars name n :
  normalize name = Some n -> Forall (fun c => label_byte c = true \/ c = 46) n.
Proof.
  intros (Hl & _ & _)%normalize_shape. rewrite <- (join_split 46 n).
  apply Forall_join_with; [by right|]. rewrite forallb_forall in Hl.
  apply Forall_forall. intros p Hp. apply list_elem_of_In in Hp. apply Hl in Hp.
  destruct p as [|x p]; [done|]. unfold a_label in Hp. rewrite forallb_forall in Hp.
  apply Forall_forall. intros y Hy. left. by apply Hp, list_elem_of_In.
Qed.

Lemma name_char_ascii c : label_byte c = true \/ c = 46 -> is_ascii c /\ c <> 10 /\ c <> 32.
Proof. unfold label_byte, is_lower, is_digit, is_ascii. lia. Qed.

Lemma normalize_not_nil name n : normalize name = Some n -> n <> [].
Proof. intros (Hl & _ & _)%normalize_shape ->. done. Qed.
