(* ===== verification/FakeIpFile.v ===== *)
(** * The file [fake-ip.txt]

    [crates/rurge-dns/src/fakeip/file.rs]: the text of a table ([render]), and
    the strict reading of a file's bytes ([parse]).  Writing the file
    ([write], [write_temporary]) is the operating system's and is left out. *)

From S2P Require Import Prelude FakeIpAddr.

Definition MAGIC : rstr := lit "rurge-fake-ip 1".

(** What the file holds, apart from whether the run it belongs to ended. *)
Record Table := mkTable {
  t_cursor : Z;
  t_wrapped : bool;
  t_entries : list (Z * rstr);
}.

Definition show_flag (b : bool) : rstr := if b then lit "1" else lit "0".

Definition render_entry (e : Z * rstr) : rstr := show_u32 e.1 ++ 32 :: e.2 ++ [10].

Definition render_header (t : Table) (clean : bool) : rstr :=
  lit "cursor " ++ show_u32 (t_cursor t) ++ lit " wrapped " ++ show_flag (t_wrapped t)
  ++ lit " clean " ++ show_flag clean.

Definition render (t : Table) (clean : bool) : rstr :=
  MAGIC ++ 10 :: render_header t clean ++ 10 :: flat_map render_entry (t_entries t).

(** Why a file is refused; the code writes these as texts that quote nothing
    of the file. *)
Inductive ParseError : Type :=
| NotUtf8
| NoMagic
| NoHeader
| CursorPast
| NotAnEntry (at_ : nat)
| OutOfRange (at_ : nat)
| IndexTwice (at_ : nat)
| NotNormalized (at_ : nat)
| NameTwice (at_ : nat).

Definition flag (word : rstr) : option bool :=
  if decide (word = lit "0") then Some false
  else if decide (word = lit "1") then Some true else None.

(** A number written with digits and nothing else, that fits 32 bits. *)
Definition number (word : rstr) : option Z :=
  match word with
  | [] => None
  | _ =>
      if negb (forallb is_digit word) then None
      else let v := digits_value word in if v <=? u32_max then Some v else None
  end.

Definition header (line : rstr) : option (Z * bool * bool) :=
  match split_on 32 line with
  | [w0; cursor; w1; wrapped; w2; clean] =>
      if decide (w0 = lit "cursor") then
        if decide (w1 = lit "wrapped") then
          if decide (w2 = lit "clean") then
            c ← number cursor; w ← flag wrapped; k ← flag clean; Some (c, w, k)
          else None
        else None
      else None
  | _ => None
  end.

(** One trailing empty piece off: the loop body of the reading of [lines]. *)
Definition pop_blank (lines : list rstr) : list rstr :=
  match last lines with
  | Some [] => take (pred (length lines)) lines
  | _ => lines
  end.

(** [line.split_once(' ')] with its first half read as a number. *)
Definition entry_of_line (line : rstr) : option (Z * rstr) :=
  '(index, name) ← split_once 32 line; i ← number index; Some (i, name).

(** The loop over the lines after the header; [at_] is the number of the line
    before the first. *)
Fixpoint parse_entries (count cursor : Z) (wrapped : bool) (at_ : nat) (lines : list rstr)
    (index_seen : list bool) (name_seen : gset rstr) (entries : list (Z * rstr))
  : res ParseError (list (Z * rstr)) :=
  match lines with
  | [] => Ok entries
  | line :: lines =>
      let at_ := S at_ in
      match entry_of_line line with
      | None => Err (NotAnEntry at_)
      | Some (index, name) =>
          if (count <=? index) || (negb wrapped && (cursor <=? index)) then Err (OutOfRange at_)
          else if default false (index_seen !! Z.to_nat index) then Err (IndexTwice at_)
          else if negb (bool_decide (normalize name = Some name)) then Err (NotNormalized at_)
          else if bool_decide (name ∈ name_seen) then Err (NameTwice at_)
          else parse_entries count cursor wrapped at_ lines
                 (<[Z.to_nat index := true]> index_seen) ({[name]} ∪ name_seen)
                 (entries ++ [(index, name)])
      end
  end.

Definition parse (bytes : list Z) (count : Z) : res ParseError (Table * bool) :=
  do? text <- ok_or NotUtf8 (utf8_decode bytes);
  let lines := pop_blank (pop_blank (split_on 10 text)) in
  if negb (bool_decide (head lines = Some MAGIC)) then Err NoMagic
  else
    do? (cursor, wrapped, clean) <- ok_or NoHeader (lines !! 1%nat ≫= header);
    if count <? cursor then Err CursorPast
    else
      do? entries <- parse_entries count cursor wrapped 2 (drop 2 lines)
                       (replicate (Z.to_nat count) false) ∅ [];
      Ok (mkTable cursor wrapped entries, clean).

(** A table a pool of [count] indices can have. *)
Definition entry_ok (count cursor : Z) (wrapped : bool) (e : Z * rstr) : Prop :=
  0 <= e.1 < count /\ (wrapped = false -> e.1 < cursor) /\ normalize e.2 = Some e.2.

Definition table_ok (count : Z) (t : Table) : Prop :=
  0 <= t_cursor t <= count /\ count <= u32_max
  /\ Forall (entry_ok count (t_cursor t) (t_wrapped t)) (t_entries t)
  /\ NoDup (t_entries t).*1 /\ NoDup (t_entries t).*2.

(** ** Numbers and headers *)

Lemma number_show n : 0 <= n <= u32_max -> number (show_u32 n) = Some n.
Proof.
  intros Hn. unfold number. destruct (show_u32 n) as [|c w] eqn:E.
  { by apply dec_digits_not_nil in E; [|lia]. }
  rewrite <- E. rewrite (proj2 (forallb_forall _ _)); simpl.
  2:{ intros x Hx%list_elem_of_In. revert x Hx. apply Forall_forall.
      apply dec_digits_digit. lia. }
  rewrite show_u32_value by done. by rewrite (proj2 (Z.leb_le _ _)) by lia.
Qed.

Lemma digits_value_nonneg s : forallb is_digit s = true -> 0 <= digits_value s.
Proof.
  intros Hs. unfold digits_value.
  enough (forall v, 0 <= v -> 0 <= fold_left (fun v c => v * 10 + (c - 48)) s v) by auto with lia.
  induction s as [|c s IH]; simpl; intros v Hv; [done|].
  simpl in Hs. apply andb_true_iff in Hs as [Hc Hs]. apply IH; [done|]. unfold is_digit in Hc. lia.
Qed.

Lemma number_range w n : number w = Some n -> 0 <= n <= u32_max.
Proof.
  unfold number. destruct w as [|c w]; [done|].
  destruct (forallb is_digit (c :: w)) eqn:E; simpl negb; cbv iota; [|done].
  destruct (Z.leb_spec (digits_value (c :: w)) u32_max); [|done]. intros [= <-].
  by apply digits_value_nonneg in E.
Qed.

Lemma show_u32_ascii n : 0 <= n ->
  Forall (fun c => is_ascii c /\ c <> 10 /\ c <> 32) (show_u32 n).
Proof.
  intros Hn. eapply Forall_impl; [by apply dec_digits_digit|]. intros c.
  unfold is_digit, is_ascii. lia.
Qed.

Lemma show_u32_no_sep n c : 0 <= n -> c = 10 \/ c = 32 -> Forall (fun x => x <> c) (show_u32 n).
Proof.
  intros Hn Hc. eapply Forall_impl; [by apply show_u32_ascii|]. simpl. intros x. lia.
Qed.

Lemma flag_show b : flag (show_flag b) = Some b.
Proof. by destruct b. Qed.

Lemma header_render t clean :
  0 <= t_cursor t <= u32_max -> header (render_header t clean) = Some (t_cursor t, t_wrapped t, clean).
Proof.
  intros Hc. unfold header, render_header.
  assert (Hflag : forall b, Forall (fun x => x <> 32) (show_flag b)) by (intros []; by repeat constructor).
  change (lit "cursor ") with (lit "cursor" ++ [32]).
  change (lit " wrapped ") with (32 :: lit "wrapped" ++ [32]).
  change (lit " clean ") with (32 :: lit "clean" ++ [32]).
  rewrite <- !app_assoc. cbn [app]. rewrite <- !app_assoc. cbn [app].
  rewrite split_on_app by (repeat constructor; done).
  rewrite split_on_app by (apply show_u32_no_sep; [lia|by right]).
  rewrite split_on_app by (repeat constructor; done).
  rewrite split_on_app by apply Hflag.
  rewrite split_on_app by (repeat constructor; done).
  rewrite split_on_no_sep by apply Hflag.
  rewrite !decide_True by done. rewrite number_show by lia. simpl. by rewrite !flag_show.
Qed.

(** ** Entries *)

Definition entry_text (e : Z * rstr) : rstr := show_u32 e.1 ++ 32 :: e.2.

Lemma entry_line count cursor wrapped e :
  entry_ok count cursor wrapped e -> count <= u32_max ->
  entry_of_line (entry_text e) = Some e.
Proof.
  intros (Hi & _ & _) Hc. unfold entry_of_line, entry_text.
  rewrite split_once_app by (apply show_u32_no_sep; [lia|by right]). simpl.
  rewrite number_show by lia. simpl. by destruct e.
Qed.

(** The state of the loop: which indices and names have been seen. *)
Definition seen_ok (count : Z) (done_ : list (Z * rstr)) (index_seen : list bool)
    (name_seen : gset rstr) : Prop :=
  length index_seen = Z.to_nat count
  /\ (forall i, 0 <= i -> index_seen !! Z.to_nat i = Some true <-> i ∈ done_.*1 /\ i < count)
  /\ (forall n, n ∈ name_seen <-> n ∈ done_.*2).

Lemma seen_ok_nil count : seen_ok count [] (replicate (Z.to_nat count) false) ∅.
Proof.
  split; [by rewrite length_replicate|]. split.
  - intros i Hi. rewrite lookup_replicate. simpl. split; [by intros [? _]|].
    intros [H _]. by apply not_elem_of_nil in H.
  - intros n. simpl. set_solver.
Qed.

Lemma seen_ok_snoc count done_ index_seen name_seen i n :
  seen_ok count done_ index_seen name_seen -> 0 <= i < count ->
  seen_ok count (done_ ++ [(i, n)]) (<[Z.to_nat i := true]> index_seen) ({[n]} ∪ name_seen).
Proof.
  intros (Hlen & Hi & Hn) Hr. split; [by rewrite length_insert|]. split.
  - intros j Hj. rewrite fmap_app, elem_of_app; simpl. rewrite list_elem_of_singleton.
    destruct (decide (i = j)) as [->|Hne].
    + rewrite list_lookup_insert_eq by lia. split; [intros _; split; [by right|lia]|done].
    + rewrite list_lookup_insert_ne by lia. rewrite Hi by done. naive_solver.
  - intros m. rewrite fmap_app, elem_of_app; simpl. rewrite list_elem_of_singleton.
    rewrite elem_of_union, elem_of_singleton, Hn. tauto.
Qed.

Lemma parse_entries_render count cursor wrapped at_ es done_ index_seen name_seen :
  seen_ok count done_ index_seen name_seen -> count <= u32_max ->
  Forall (entry_ok count cursor wrapped) es ->
  NoDup (done_ ++ es).*1 -> NoDup (done_ ++ es).*2 ->
  parse_entries count cursor wrapped at_ (map entry_text es)
    index_seen name_seen done_ = Ok (done_ ++ es).
Proof.
  intros Hs Hc Hes. revert at_ done_ index_seen name_seen Hs.
  induction Hes as [|[i n] es He Hes IH]; intros at_ done_ index_seen name_seen Hs Hi Hn.
  - by rewrite app_nil_r.
  - pose proof (entry_line _ _ _ _ He Hc) as Hline. simpl in *. rewrite Hline.
    destruct He as (Hr & Hw & Hnorm); simpl in *.
    replace (count <=? i) with false by lia.
    replace (negb wrapped && (cursor <=? i)) with false by (destruct wrapped; simpl; [done|lia]).
    simpl. pose proof Hs as (Hlen & His & Hns).
    rewrite fmap_app in Hi. rewrite fmap_app in Hn. simpl in Hi, Hn.
    assert (i ∉ done_.*1) as Hnew.
    { apply NoDup_app in Hi as (_ & Hd & _). intros ?. eapply Hd; [done|]. left. }
    assert (n ∉ done_.*2) as Hnew'.
    { apply NoDup_app in Hn as (_ & Hd & _). intros ?. eapply Hd; [done|]. left. }
    destruct (index_seen !! Z.to_nat i) as [b|] eqn:Hb.
    2:{ apply lookup_ge_None in Hb. lia. }
    destruct b; simpl; [exfalso; apply Hnew; apply His; [lia|done]|].
    rewrite (bool_decide_eq_true_2 _ Hnorm); simpl.
    rewrite bool_decide_eq_false_2 by (by rewrite Hns).
    rewrite IH; [by rewrite <- app_assoc| | |].
    + by apply seen_ok_snoc.
    + rewrite <- app_assoc, !fmap_app. done.
    + rewrite <- app_assoc, !fmap_app. done.
Qed.

(** What the loop accepts is a table's list of entries. *)
Lemma parse_entries_sound count cursor wrapped at_ lines done_ index_seen name_seen es :
  seen_ok count done_ index_seen name_seen ->
  Forall (entry_ok count cursor wrapped) done_ -> NoDup done_.*1 -> NoDup done_.*2 ->
  parse_entries count cursor wrapped at_ lines index_seen name_seen done_ = Ok es ->
  Forall (entry_ok count cursor wrapped) es /\ NoDup es.*1 /\ NoDup es.*2.
Proof.
  revert at_ done_ index_seen name_seen.
  induction lines as [|line lines IH]; intros at_ done_ index_seen name_seen Hs Hd Hi Hn; simpl.
  { by intros [= <-]. }
  destruct (entry_of_line line) as [[i n]|] eqn:He; [|done].
  destruct ((count <=? i) || _) eqn:Hrange; [done|].
  destruct (default false _) eqn:Hseen; [done|].
  destruct (negb (bool_decide (normalize n = Some n))) eqn:Hnorm; [done|].
  destruct (bool_decide (n ∈ name_seen)) eqn:Hname; [done|].
  apply negb_false_iff, bool_decide_eq_true_1 in Hnorm. apply bool_decide_eq_false_1 in Hname.
  assert (0 <= i < count) as Hr.
  { unfold entry_of_line in He. inv_option. destruct x; inv_option.
    apply number_range in H0. lia. }
  pose proof Hs as (Hlen & His & Hns).
  apply IH.
  - by apply seen_ok_snoc.
  - apply Forall_app. split; [done|]. constructor; [|constructor]. split; [done|]. split; [|done].
    intros ->. simpl. simpl in Hrange. lia.
  - rewrite fmap_app. apply NoDup_app. split; [done|]. split; [|apply NoDup_singleton].
    intros x Hx ->%list_elem_of_singleton. rewrite (proj2 (His i ltac:(lia))) in Hseen; [done|].
    split; [done|lia].
  - rewrite fmap_app. apply NoDup_app. split; [done|]. split; [|apply NoDup_singleton].
    intros x Hx ->%list_elem_of_singleton. by apply Hname, Hns.
Qed.

(** ** Lines *)

Lemma pop_blank_snoc ls : pop_blank (ls ++ [[]]) = ls.
Proof.
  unfold pop_blank. rewrite last_snoc, length_app; simpl. rewrite Nat.add_1_r; simpl.
  apply take_app_length.
Qed.

Lemma pop_blank_id ls : Forall (fun l => l <> []) ls -> pop_blank ls = ls.
Proof.
  intros H. unfold pop_blank. destruct (last ls) as [[|c l]|] eqn:E; try done.
  apply last_Some_elem_of in E. by eapply Forall_forall in E; [|exact H].
Qed.

Definition lines_text (ls : list rstr) : rstr := flat_map (fun l => l ++ [10]) ls.

Lemma split_lines_text ls :
  Forall (Forall (fun c => c <> 10)) ls -> split_on 10 (lines_text ls) = ls ++ [[]].
Proof.
  induction 1 as [|l ls Hl _ IH]; [done|]; simpl.
  rewrite <- app_assoc; simpl. rewrite split_on_app by done. by rewrite IH.
Qed.

Lemma lines_text_cons l ls : lines_text (l :: ls) = l ++ 10 :: lines_text ls.
Proof. unfold lines_text. cbn [flat_map]. by rewrite <- app_assoc. Qed.

Lemma render_lines t clean :
  render t clean = lines_text (MAGIC :: render_header t clean :: map entry_text (t_entries t)).
Proof.
  unfold render. rewrite !lines_text_cons. do 4 f_equal.
  induction (t_entries t) as [|e es IH]; [done|]. cbn [map flat_map]. rewrite lines_text_cons, IH.
  unfold render_entry, entry_text. rewrite <- !app_assoc. cbn [app]. by rewrite <- !app_assoc.
Qed.

Definition line_char (c : Z) : Prop := is_ascii c /\ c <> 10.

Lemma lit_line_char s :
  forallb (fun c => bool_decide (0 <= c < 128 /\ c <> 10)) (lit s) = true -> Forall line_char (lit s).
Proof.
  rewrite forallb_forall. intros H. apply Forall_forall. intros c Hc.
  apply list_elem_of_In, H, bool_decide_eq_true_1 in Hc. done.
Qed.

Lemma show_u32_line_char n : 0 <= n -> Forall line_char (show_u32 n).
Proof.
  intros Hn. eapply Forall_impl; [by apply show_u32_ascii|]. unfold line_char. tauto.
Qed.

Lemma render_header_line_char t clean : 0 <= t_cursor t -> Forall line_char (render_header t clean).
Proof.
  intros Hc. unfold render_header.
  repeat (apply Forall_app; split); try (by apply lit_line_char); [by apply show_u32_line_char| |];
    (destruct (t_wrapped t), clean; by apply lit_line_char).
Qed.

Lemma entry_text_line_char count cursor wrapped e :
  entry_ok count cursor wrapped e -> Forall line_char (entry_text e).
Proof.
  intros (Hr & _ & Hn). unfold entry_text. apply Forall_app. split; [apply show_u32_line_char; lia|].
  constructor; [unfold line_char, is_ascii; lia|].
  eapply Forall_impl; [by eapply normalize_chars|]. intros c Hc%name_char_ascii.
  unfold line_char. tauto.
Qed.

Lemma render_header_cons t clean : exists c l, render_header t clean = c :: l.
Proof. by do 2 eexists. Qed.

Lemma lines_text_ascii ls : Forall (Forall line_char) ls -> Forall is_ascii (lines_text ls).
Proof.
  induction 1 as [|l ls Hl _ IH]; [constructor|]. rewrite lines_text_cons. apply Forall_app. split.
  - eapply Forall_impl; [done|]. by intros c [? _].
  - constructor; [unfold is_ascii; lia|done].
Qed.

Section roundtrip.
Variables (count : Z) (t : Table) (clean : bool).
Hypothesis Ht : table_ok count t.

Let rendered : list rstr := MAGIC :: render_header t clean :: map entry_text (t_entries t).

Lemma rendered_chars : Forall (Forall line_char) rendered.
Proof.
  destruct Ht as (Hc & _ & Hes & _). constructor; [by apply lit_line_char|].
  constructor; [apply render_header_line_char; lia|].
  apply Forall_map. eapply Forall_impl; [exact Hes|]. intros e He.
  by eapply entry_text_line_char.
Qed.

Lemma rendered_not_blank : Forall (fun l => l <> []) rendered.
Proof.
  constructor; [done|]. constructor; [by destruct (render_header_cons t clean) as (? & ? & ->)|].
  apply Forall_map, Forall_forall. intros e _. unfold entry_text. by intros [_ ?]%app_eq_nil.
Qed.

Lemma rendered_utf8 : utf8_decode (utf8_encode (render t clean)) = Some (render t clean).
Proof.
  rewrite render_lines. fold rendered. pose proof (lines_text_ascii _ rendered_chars) as H.
  rewrite utf8_encode_ascii by done. by apply utf8_decode_ascii.
Qed.

Lemma rendered_split : pop_blank (pop_blank (split_on 10 (render t clean))) = rendered.
Proof.
  rewrite render_lines. fold rendered. rewrite split_lines_text.
  - rewrite pop_blank_snoc. apply pop_blank_id, rendered_not_blank.
  - eapply Forall_impl; [apply rendered_chars|]. intros l Hl. eapply Forall_impl; [exact Hl|].
    by intros c [_ ?].
Qed.

Lemma parse_render_aux : parse (utf8_encode (render t clean)) count = Ok (t, clean).
Proof.
  destruct Ht as (Hc & Hm & Hes & Hi & Hn).
  unfold parse. rewrite rendered_utf8. cbn [ok_or res_bind]. rewrite rendered_split.
  unfold rendered. cbn [head negb]. rewrite bool_decide_eq_true_2 by done. cbn [negb].
  change ((MAGIC :: ?h :: ?l) !! 1%nat) with (Some h). cbn [mbind option_bind].
  rewrite header_render by lia. cbn [ok_or res_bind].
  replace (count <? t_cursor t) with false by lia. 
  match goal with |- context [parse_entries ?a ?b ?c ?d ?e ?f ?g ?h] =>
    replace (parse_entries a b c d e f g h) with (@Ok ParseError _ (t_entries t)) end.
  - by destruct t.
  - symmetry. apply (parse_entries_render count _ _ 2 (t_entries t) []); try done.
    apply seen_ok_nil.
Qed.

End roundtrip.

(** The loop's index checks: every [index_seen[index]] is inside the vector. *)
Lemma parse_sound_aux bytes count t clean :
  0 <= count <= u32_max -> parse bytes count = Ok (t, clean) -> table_ok count t.
Proof.
  intros Hcount. unfold parse. destruct (utf8_decode bytes) as [text|]; [|done]. cbn [ok_or res_bind].
  case_match; [done|]. destruct (_ ≫= header) as [[[cursor wrapped] k]|] eqn:Hh; [|done].
  cbn [ok_or res_bind]. destruct (Z.ltb_spec count cursor) as [|Hle]; [done|].
  destruct (parse_entries _ _ _ _ _ _ _ _) as [es|] eqn:He; [|done]. cbn [res_bind].
  intros [= <- <-]. apply parse_entries_sound in He as (? & ? & ?);
    [|apply seen_ok_nil|constructor|constructor|constructor].
  assert (0 <= cursor).
  { apply bind_Some in Hh as (line & _ & Hl). unfold header in Hl.
    repeat (case_match; try done). inv_option.
    match goal with H : number _ = Some ?c |- _ => apply number_range in H end. simplify_eq. lia. }
  unfold table_ok; simpl. auto with lia.
Qed.
