(* ===== verification/FakeIp.v ===== *)
(** * The fake-IP pool

    [crates/rurge-dns/src/fakeip/mod.rs]: [State], its operations, and the
    pool's calls.  Everything the code does under the pool's one lock is one
    function from a state to a state, so a sequence of calls, from any number
    of threads, is a sequence of steps.  A function that indexes a vector or
    subtracts from a count answers [None] where the code would panic.

    Time is in nanoseconds.  A lease count is a [u32] that wraps; [reach]
    bounds how many leases are held at once. *)

From S2P Require Import Prelude Lru FakeIpAddr FakeIpFile.

(** [QUARANTINE], [QUARANTINE_COUNT]. *)
Definition QUARANTINE : Z := 120 * 1000000000.
Definition QUARANTINE_COUNT : Z := 2048.

Inductive AssignError : Type := NotAName | Exhausted.

(** What [open] found; the code's [NotRead] carries a text. *)
Inductive Loaded : Type :=
| Missing
| Clean
| Unclean
| NotRead (reason : option ParseError).

(** What reading the file gave: its bytes, or the kind of the error. *)
Inductive ReadFile : Type :=
| ReadOk (bytes : list Z)
| ReadNotFound
| ReadFailed.

Section pool.
Context `{Lru Z unit}.

Record State := mkState {
  count : Z;
  names : list (option rstr);
  indices : gmap rstr Z;
  idle : lru Z unit;
  leases : gmap Z Z;
  cursor : Z;
  wrapped : bool;
  held : list Z;
  held_until : option Z;
  dirty : bool;
}.

Definition set_names (v : list (option rstr)) (s : State) : State :=
  mkState (count s) v (indices s) (idle s) (leases s) (cursor s) (wrapped s) (held s)
    (held_until s) (dirty s).
Definition set_indices (v : gmap rstr Z) (s : State) : State :=
  mkState (count s) (names s) v (idle s) (leases s) (cursor s) (wrapped s) (held s)
    (held_until s) (dirty s).
Definition set_idle (v : lru Z unit) (s : State) : State :=
  mkState (count s) (names s) (indices s) v (leases s) (cursor s) (wrapped s) (held s)
    (held_until s) (dirty s).
Definition set_leases (v : gmap Z Z) (s : State) : State :=
  mkState (count s) (names s) (indices s) (idle s) v (cursor s) (wrapped s) (held s)
    (held_until s) (dirty s).
Definition set_cursor (c : Z) (w : bool) (s : State) : State :=
  mkState (count s) (names s) (indices s) (idle s) (leases s) c w (held s)
    (held_until s) (dirty s).
Definition set_held (v : list Z) (s : State) : State :=
  mkState (count s) (names s) (indices s) (idle s) (leases s) (cursor s) (wrapped s) v
    (held_until s) (dirty s).
Definition set_held_until (v : option Z) (s : State) : State :=
  mkState (count s) (names s) (indices s) (idle s) (leases s) (cursor s) (wrapped s) (held s)
    v (dirty s).
Definition set_dirty (v : bool) (s : State) : State :=
  mkState (count s) (names s) (indices s) (idle s) (leases s) (cursor s) (wrapped s) (held s)
    (held_until s) v.

(** [State::new]. *)
Definition new (cnt : Z) : State :=
  let cnt := Z.min cnt FAKE_COUNT in
  mkState cnt (replicate (Z.to_nat cnt) None) ∅ lru_unbounded ∅ 0 false [] None false.

(** [self.names[index as usize] = v]: a panic past the end. *)
Definition put_name (index : Z) (v : option rstr) (s : State) : option State :=
  if decide (Z.to_nat index < length (names s))%nat
  then Some (set_names (<[Z.to_nat index := v]> (names s)) s)
  else None.

(** [State::restore]: the loop over the entries, then the holes. *)
Fixpoint restore_entries (entries : list (Z * rstr)) (s : State) : option State :=
  match entries with
  | [] => Some s
  | (index, name) :: entries =>
      s ← put_name index (Some name) s;
      let s := set_indices (<[name := index]> (indices s)) s in
      let s := set_idle (lru_put index tt (idle s)) s in
      restore_entries entries s
  end.

Definition is_hole (s : State) (index : Z) : bool :=
  match names s !! Z.to_nat index with
  | Some None => true
  | _ => false
  end.

Definition restore (cnt : Z) (table : Table) : option State :=
  let s := new cnt in
  let s := set_cursor (t_cursor table) (t_wrapped table || (count s <=? t_cursor table)) s in
  s ← restore_entries (t_entries table) s;
  let bound := if wrapped s then count s else cursor s in
  if decide (Z.to_nat bound <= length (names s))%nat
  then Some (set_held (filter (fun i => is_hole s i = true) (seqZ 0 bound)) s)
  else None.

Definition take_fresh (s : State) : option Z * State :=
  if wrapped s || (count s <=? cursor s) then (None, s)
  else
    let index := cursor s in
    let c := cursor s + 1 in
    (Some index, set_cursor c (c =? count s) s).

Definition take_idle (s : State) : option (option Z * State) :=
  match lru_pop_lru (idle s) with
  | None => Some (None, s)
  | Some ((index, _), idle') =>
      let s := set_idle idle' s in
      slot ← names s !! Z.to_nat index;
      let s := set_names (<[Z.to_nat index := None]> (names s)) s in
      Some (Some index,
            match slot with
            | Some name => set_indices (delete name (indices s)) s
            | None => s
            end)
  end.

(** [self.take_fresh().or_else(|| self.take_idle())]. *)
Definition take_fresh_or_idle (s : State) : option (option Z * State) :=
  match take_fresh s with
  | (Some index, s) => Some (Some index, s)
  | (None, s) => take_idle s
  end.

Definition take (now : Z) (s : State) : option (option Z * State) :=
  match held_until s with
  | Some until =>
      if until <=? now then
        match held s with
        | index :: rest => Some (Some index, set_held rest s)
        | [] => take_fresh_or_idle s
        end
      else take_fresh_or_idle s
  | None => take_fresh_or_idle s
  end.

Fixpoint hold_back_loop (want : nat) (s : State) : option State :=
  match want with
  | O => Some s
  | S want =>
      '(index, s) ← take_fresh_or_idle s;
      match index with
      | Some index => hold_back_loop want (set_held (held s ++ [index]) s)
      | None => Some s
      end
  end.

Definition hold_back (want : nat) (now : Z) (s : State) : option State :=
  s ← hold_back_loop want s;
  match held s with
  | [] => Some s
  | _ => Some (set_held_until (Some (now + QUARANTINE)) s)
  end.

Definition give (index : Z) (name : rstr) (s : State) : option State :=
  s ← put_name index (Some name) s;
  let s := set_indices (<[name := index]> (indices s)) s in
  let s := set_idle (lru_put index tt (idle s)) s in
  Some (set_dirty true s).

Definition refresh (index : Z) (s : State) : State := set_idle (lru_promote index (idle s)) s.

(** [State::release]: what dropping a lease does. *)
Definition release (index : Z) (s : State) : option State :=
  match leases s !! index with
  | None => Some s
  | Some n =>
      if n =? 0 then None
      else
        let n := n - 1 in
        if n =? 0 then
          let s := set_leases (delete index (leases s)) s in
          slot ← names s !! Z.to_nat index;
          Some (match slot with
                | Some _ => set_idle (lru_put index tt (idle s)) s
                | None => s
                end)
        else Some (set_leases (<[index := n]> (leases s)) s)
  end.

(** The closure [named] of [State::table], mapped over indices. *)
Fixpoint named_entries (s : State) (ixs : list Z) : option (list (Z * rstr)) :=
  match ixs with
  | [] => Some []
  | i :: ixs =>
      slot ← names s !! Z.to_nat i;
      rest ← named_entries s ixs;
      Some (match slot with
            | Some name => (i, name) :: rest
            | None => rest
            end)
  end.

Definition sorted_keys (m : gmap Z Z) : list Z := merge_sort Z.le (map fst (map_to_list m)).

Definition table (s : State) : option Table :=
  e1 ← named_entries s (reverse (keys_of (lru_iter (idle s))));
  e2 ← named_entries s (sorted_keys (leases s));
  Some (mkTable (cursor s) (wrapped s) (e1 ++ e2)).

Definition take_if_dirty (s : State) : option (option Table * State) :=
  if dirty s then
    let s := set_dirty false s in
    t ← table s; Some (Some t, s)
  else Some (None, s).

(** [FakeIpPool::open_sized].  [read] is what reading the file gave and
    [write_ok] whether the one write of it succeeds; the answer holds the bytes
    written, if a write was tried. *)
Definition load (read : ReadFile) (cnt : Z) : option (State * Loaded) :=
  match read with
  | ReadOk bytes =>
      match parse bytes cnt with
      | Ok (t, true) => s ← restore cnt t; Some (s, Clean)
      | Ok (t, false) => s ← restore cnt t; Some (s, Unclean)
      | Err reason => Some (new cnt, NotRead (Some reason))
      end
  | ReadNotFound => Some (new cnt, Missing)
  | ReadFailed => Some (new cnt, NotRead None)
  end.

Definition want_back (loaded : Loaded) (quarantine : Z) : nat :=
  match loaded with
  | Unclean | NotRead _ => Z.to_nat quarantine
  | Missing | Clean => O
  end.

Definition open_sized (read : ReadFile) (write_ok : bool) (now cnt quarantine : Z)
  : option (State * Loaded * option (list Z)) :=
  let cnt := Z.min cnt FAKE_COUNT in
  '(s, loaded) ← load read cnt;
  s ← hold_back (want_back loaded quarantine) now s;
  match loaded with
  | NotRead _ => Some (set_dirty true s, loaded, None)
  | _ =>
      t ← table s;
      Some (set_dirty (negb write_ok) s, loaded, Some (utf8_encode (render t false)))
  end.

(** [FakeIpPool::assign]. *)
Definition assign (name : rstr) (now : Z) (s : State) : option (res AssignError Z * State) :=
  match normalize name with
  | None => Some (Err NotAName, s)
  | Some name =>
      match indices s !! name with
      | Some index => Some (Ok index, refresh index s)
      | None =>
          '(index, s) ← take now s;
          match index with
          | None => Some (Err Exhausted, s)
          | Some index => s ← give index name s; Some (Ok index, s)
          end
      end
  end.

(** [FakeIpPool::name_of], [lease] and [address_of]; [names.get] answers
    [None] past the end. *)
Definition name_at (ip : IpAddr) (s : State) : option (Z * rstr) :=
  index ← index_of ip;
  slot ← names s !! Z.to_nat index;
  name ← slot;
  Some (index, name).

Definition name_of (ip : IpAddr) (s : State) : option rstr * State :=
  match name_at ip s with
  | Some (index, name) => (Some name, refresh index s)
  | None => (None, s)
  end.

Definition lease (ip : IpAddr) (s : State) : option (rstr * Z) * State :=
  match name_at ip s with
  | Some (index, name) =>
      let n := (default 0 (leases s !! index) + 1) mod 2 ^ 32 in
      let s := set_leases (<[index := n]> (leases s)) s in
      (Some (name, index), set_idle (lru_pop index (idle s)) s)
  | None => (None, s)
  end.

Definition address_of (name : rstr) (v6 : bool) (s : State) : option IpAddr :=
  name ← normalize name;
  index ← indices s !! name;
  Some (if v6 then V6 (v6_of index) else V4 (v4_of index)).

Definition leased (s : State) : nat := size (leases s).
Definition named (s : State) : nat := size (indices s).

End pool.
