(* ===== verification/FakeIpInv.v ===== *)
(** * The invariant of the fake-IP pool

    [inv X s]: the state [s] is well formed, the indices of [X] having been
    taken and not yet given ([X] is empty between calls).  Every operation of
    [FakeIp] keeps it, and under it no operation panics. *)

From S2P Require Import Prelude Lru FakeIpAddr FakeIpFile FakeIp.

Section inv.
Context `{LruLaws Z unit}.
Implicit Types (s : State) (X : gset Z) (i j : Z) (n : rstr).

(** The name an index has. *)
Definition nm s i : option rstr := names s !! Z.to_nat i ≫= id.

Definition idle_keys s : list Z := keys_of (lru_iter (idle s)).

(** The indices the allocator has been through. *)
Definition allocated s i : Prop := wrapped s = true \/ i < cursor s.

Record inv X s : Prop := mkInv {
  inv_count : 0 <= count s <= FAKE_COUNT;
  inv_len : length (names s) = Z.to_nat (count s);
  inv_map : forall n i, indices s !! n = Some i <-> 0 <= i /\ nm s i = Some n;
  inv_norm : forall n i, indices s !! n = Some i -> normalize n = Some n;
  inv_cursor : 0 <= cursor s <= count s;
  inv_part : forall i, 0 <= i < count s ->
    (allocated s i <-> is_Some (nm s i) \/ i ∈ held s \/ i ∈ X);
  inv_held_nodup : NoDup (held s);
  inv_held : forall i, i ∈ held s -> 0 <= i < count s /\ nm s i = None /\ i ∉ X;
  inv_X : forall i, i ∈ X -> 0 <= i < count s /\ nm s i = None;
  inv_idle_nodup : NoDup (idle_keys s);
  inv_idle : forall i, i ∈ idle_keys s <-> 0 <= i /\ is_Some (nm s i) /\ leases s !! i = None;
  inv_leases : forall i k, leases s !! i = Some k -> 0 < k < 2 ^ 32 /\ 0 <= i /\ is_Some (nm s i);
  inv_cap : lru_cap (idle s) = None;
}.

(** ** Names *)

Lemma nm_range X s i : inv X s -> 0 <= i -> is_Some (nm s i) -> 0 <= i < count s.
Proof.
  intros Hs Hi [n Hn]. unfold nm in Hn. apply bind_Some in Hn as (o & Ho & _).
  apply lookup_lt_Some in Ho. rewrite (inv_len _ _ Hs) in Ho. lia.
Qed.

Lemma nm_slot X s i : inv X s -> 0 <= i < count s -> names s !! Z.to_nat i = Some (nm s i).
Proof.
  intros Hs Hi. unfold nm. destruct (names s !! Z.to_nat i) as [o|] eqn:E; [done|].
  apply lookup_ge_None in E. rewrite (inv_len _ _ Hs) in E. lia.
Qed.

Lemma nm_inj X s i j n : inv X s -> 0 <= i -> 0 <= j -> nm s i = Some n -> nm s j = Some n -> i = j.
Proof.
  intros Hs Hi Hj Hni Hnj. pose proof (proj2 (inv_map _ _ Hs n i) (conj Hi Hni)) as H1'.
  pose proof (proj2 (inv_map _ _ Hs n j) (conj Hj Hnj)) as H2'. congruence.
Qed.

Lemma nm_insert s i j v :
  0 <= i -> 0 <= j -> (Z.to_nat i < length (names s))%nat ->
  (<[Z.to_nat i := v]> (names s) !! Z.to_nat j : option (option rstr)) ≫= id
  = if decide (i = j) then v else nm s j.
Proof.
  intros Hi Hj Hl. case_decide as Hd.
  - subst. by rewrite list_lookup_insert_eq by done.
  - rewrite list_lookup_insert_ne by lia. done.
Qed.

Lemma put_name_Some X s i v : inv X s -> 0 <= i < count s ->
  put_name i v s = Some (set_names (<[Z.to_nat i := v]> (names s)) s).
Proof.
  intros Hs Hi. unfold put_name. rewrite decide_True; [done|]. rewrite (inv_len _ _ Hs). lia.
Qed.

(** ** Entries of the order of use *)

Lemma idle_put_keys s i : lru_cap (idle s) = None ->
  keys_of (lru_iter (lru_put i tt (idle s))) = i :: keys_of (drop_key i (lru_iter (idle s))).
Proof. intros Hc. rewrite iter_put, Hc. done. Qed.

Lemma idle_promote_keys s i :
  keys_of (lru_iter (lru_promote i (idle s))) =
    if decide (i ∈ idle_keys s) then i :: keys_of (drop_key i (lru_iter (idle s))) else idle_keys s.
Proof.
  rewrite iter_promote. case_decide as Hd.
  - destruct (assoc i (lru_iter (idle s))) eqn:E; [done|]. by apply assoc_None in E.
  - apply assoc_None in Hd. by rewrite Hd.
Qed.

Lemma cons_drop_NoDup i (l : list (Z * unit)) : NoDup (keys_of l) -> NoDup (i :: keys_of (drop_key i l)).
Proof. intros Hl. constructor; [apply drop_key_not_in|by apply drop_key_NoDup]. Qed.

Lemma refresh_inv X s i : inv X s -> inv X (refresh i s).
Proof.
  intros Hs. destruct Hs. unfold refresh.
  assert (Hmem : forall j, j ∈ idle_keys (refresh i s) <-> j ∈ idle_keys s).
  { intros j. unfold idle_keys at 1, refresh; simpl. rewrite idle_promote_keys.
    case_decide as Hd; [|done]. rewrite elem_of_cons, elem_of_drop_key. unfold idle_keys in *.
    destruct (decide (j = i)) as [->|]; naive_solver. }
  split; try done.
  - unfold idle_keys; simpl. rewrite idle_promote_keys. case_decide; [|done].
    by apply cons_drop_NoDup.
  - intros j. rewrite Hmem. done.
  - simpl. rewrite cap_promote. done.
Qed.

(** ** Giving a taken index a name *)

Definition bind_name i n s : State :=
  set_idle (lru_put i tt (idle s))
    (set_indices (<[n := i]> (indices s)) (set_names (<[Z.to_nat i := Some n]> (names s)) s)).

Lemma nm_bind_name X s i j n : inv X s -> i ∈ X -> 0 <= j ->
  nm (bind_name i n s) j = if decide (i = j) then Some n else nm s j.
Proof.
  intros Hs Hi Hj. destruct (inv_X _ _ Hs i Hi) as [Hr _].
  unfold nm at 1; simpl. apply nm_insert; [lia|done|]. rewrite (inv_len _ _ Hs). lia.
Qed.

Lemma bind_name_inv X s i n :
  inv X s -> i ∈ X -> indices s !! n = None -> normalize n = Some n ->
  inv (X ∖ {[i]}) (bind_name i n s).
Proof.
  intros Hs Hi Hn Hnorm. pose proof (inv_X _ _ Hs i Hi) as [Hr Hnone].
  assert (Hnm : forall j, 0 <= j -> nm (bind_name i n s) j = if decide (i = j) then Some n else nm s j)
    by (intros; by eapply nm_bind_name).
  assert (Hlease : leases s !! i = None).
  { destruct (leases s !! i) eqn:E; [|done]. apply (inv_leases _ _ Hs) in E as (_ & _ & [? ?]). congruence. }
  split; simpl.
  - apply (inv_count _ _ Hs).
  - rewrite length_insert. apply (inv_len _ _ Hs).
  - intros m j. rewrite lookup_insert. destruct (decide (n = m)) as [->|Hne].
    + split.
      * intros [= ->]. split; [lia|]. rewrite Hnm by lia. by rewrite decide_True.
      * intros [Hj Hm]. rewrite Hnm in Hm by done. case_decide as Hd; [by subst|].
        exfalso. apply not_eq_None_Some in Hn; [done|]. exists j. by apply (inv_map _ _ Hs).
    + rewrite (inv_map _ _ Hs). split; intros [Hj Hm]; (split; [done|]).
      * rewrite Hnm by done. rewrite decide_False; [done|]. intros <-. congruence.
      * rewrite Hnm in Hm by done. case_decide as Hd; [congruence|done].
  - intros m j. rewrite lookup_insert. case_decide as Hd; [intros _; congruence|].
    apply (inv_norm _ _ Hs).
  - apply (inv_cursor _ _ Hs).
  - intros j Hj. change (allocated (bind_name i n s) j) with (allocated s j).
    rewrite (inv_part _ _ Hs) by done. rewrite Hnm by lia. case_decide as Hd.
    + subst. set_solver.
    + set_solver.
  - apply (inv_held_nodup _ _ Hs).
  - intros j Hj. destruct (inv_held _ _ Hs j Hj) as (? & ? & ?). split; [done|].
    rewrite Hnm by lia. rewrite decide_False by (intros ->; done). set_solver.
  - intros j [Hj Hne]%elem_of_difference. destruct (inv_X _ _ Hs j Hj). split; [done|].
    rewrite Hnm by lia. rewrite decide_False; [done|]. set_solver.
  - unfold idle_keys; simpl. rewrite idle_put_keys by apply (inv_cap _ _ Hs).
    apply cons_drop_NoDup, (inv_idle_nodup _ _ Hs).
  - intros j. unfold idle_keys; simpl. rewrite idle_put_keys by apply (inv_cap _ _ Hs).
    rewrite elem_of_cons, elem_of_drop_key.
    change (keys_of (lru_iter (idle s))) with (idle_keys s). rewrite (inv_idle _ _ Hs).
    destruct (decide (j = i)) as [->|Hne].
    + rewrite Hnm by lia. rewrite decide_True by done. split; [intros _|by left].
      split; [lia|]. split; [by eexists|done].
    + split.
      * intros [?|(_ & ? & ? & ?)]; [done|]. rewrite Hnm by done. by rewrite decide_False by done.
      * intros (Hj & Hs' & ?). right. rewrite Hnm, decide_False in Hs' by done. done.
  - intros j k Hk. destruct (inv_leases _ _ Hs j k Hk) as (? & ? & ?). split; [done|]. split; [done|].
    rewrite Hnm by done. case_decide; [by eexists|done].
  - rewrite cap_put. apply (inv_cap _ _ Hs).
Qed.

Lemma give_Some X s i n : inv X s -> i ∈ X -> give i n s = Some (set_dirty true (bind_name i n s)).
Proof.
  intros Hs Hi. unfold give. erewrite put_name_Some; [|done|by apply (inv_X _ _ Hs)]. done.
Qed.

Lemma set_dirty_inv X s b : inv X s -> inv X (set_dirty b s).
Proof. intros []. by split. Qed.

Lemma set_held_until_inv X s t : inv X s -> inv X (set_held_until t s).
Proof. intros []. by split. Qed.

(** ** Taking an index *)

Lemma take_fresh_inv X s o s' : inv X s -> take_fresh s = (o, s') ->
  match o with
  | Some i => i = cursor s /\ (i ∉ X) /\ inv ({[i]} ∪ X) s' /\ nm s i = None /\ i ∉ held s
  | None => s' = s
  end /\ held s' = held s /\ held_until s' = held_until s /\ count s' = count s
     /\ leases s' = leases s /\ (forall j, nm s' j = nm s j) /\ indices s' = indices s.
Proof.
  intros Hs. unfold take_fresh. destruct (wrapped s) eqn:Hw; simpl; [by intros [= <- <-]|].
  destruct (Z.leb_spec (count s) (cursor s)) as [|Hlt]; [by intros [= <- <-]|].
  intros [= <- <-]. split; [|by repeat split].
  pose proof (inv_cursor _ _ Hs) as Hc.
  assert (~ allocated s (cursor s)) as Hna by (unfold allocated; rewrite Hw; intros [?|?]; [done|lia]).
  pose proof (inv_part _ _ Hs (cursor s) ltac:(lia)) as Hp.
  assert (nm s (cursor s) = None) as Hnone by (destruct (nm s (cursor s)) eqn:E; [naive_solver|done]).
  split; [done|]. split; [naive_solver|]. split; [|naive_solver].
  split; simpl; try apply Hs.
  - lia.
  - intros j Hj. unfold allocated; simpl.
    change (nm (set_cursor _ _ s) j) with (nm s j).
    pose proof (inv_part _ _ Hs j Hj) as Hpj. unfold allocated in Hpj. rewrite Hw in Hpj.
    destruct (decide (j = cursor s)) as [->|Hne].
    + split; [set_solver|]. intros _. right. lia.
    + split.
      * intros Hor. assert (j < cursor s) as Hlj.
        { destruct Hor as [Hor%Z.eqb_eq|?]; lia. }
        destruct (proj1 Hpj (or_intror Hlj)) as [?|[?|?]]; set_solver.
      * intros Hor. right. assert (false = true \/ j < cursor s) as [?|?]; [|done|lia].
        apply Hpj. set_solver.
  - intros j Hj. destruct (inv_held _ _ Hs j Hj) as (? & ? & ?). split; [done|]. split; [done|].
    assert (j <> cursor s); [|set_solver]. intros ->. naive_solver.
  - intros j Hj. apply elem_of_union in Hj as [->%elem_of_singleton|Hj]; [split; [lia|done]|].
    by apply (inv_X _ _ Hs).
Qed.

Lemma idle_pop_keys s p c : lru_pop_lru (idle s) = Some (p, c) ->
  idle_keys s = keys_of (lru_iter c) ++ [p.1] /\ lru_cap c = lru_cap (idle s).
Proof.
  intros [Hi Hc]%pop_lru_some. unfold idle_keys. rewrite Hi. unfold keys_of.
  by rewrite fmap_app.
Qed.

(** The state without the name of its idlest index. *)
Definition forget i n c s : State := set_indices (delete n (indices s)) (set_names (<[Z.to_nat i := None]> (names s)) (set_idle c s)).

Lemma idlest_facts X s i ks : inv X s -> idle_keys s = ks ++ [i] ->
  0 <= i < count s /\ leases s !! i = None /\ (i ∉ X) /\ (i ∉ held s) /\ exists n, nm s i = Some n /\ names s !! Z.to_nat i = Some (Some n).
Proof.
  intros Hs Hkeys. pose proof (proj1 (inv_idle _ _ Hs i)) as Hi. rewrite Hkeys in Hi.
  destruct Hi as (Hi0 & [n Hn] & Hl); [set_solver|].
  pose proof (nm_range _ _ i Hs Hi0 ltac:(by eexists)) as Hr.
  split; [lia|]. split; [done|]. split; [intros HX; apply (inv_X _ _ Hs) in HX; naive_solver|].
  split; [intros HX; apply (inv_held _ _ Hs) in HX; naive_solver|]. exists n. split; [done|]. rewrite <- Hn. by eapply nm_slot.
Qed.

Lemma forget_nm X s i n c : inv X s -> 0 <= i < count s -> forall j, 0 <= j ->
  nm (forget i n c s) j = if decide (i = j) then None else nm s j.
Proof. intros Hs Hi j Hj. unfold nm at 1. simpl. apply nm_insert; [lia|done|]. rewrite (inv_len _ _ Hs). lia. Qed.

Lemma forget_inv X s i n c : inv X s -> idle_keys s = keys_of (lru_iter c) ++ [i] -> nm s i = Some n -> lru_cap c = lru_cap (idle s) ->
  inv ({[i]} ∪ X) (forget i n c s).
Proof.
  intros Hs Hkeys Hn Hcap. destruct (idlest_facts _ _ _ _ Hs Hkeys) as (Hr & Hl & HiX & Hih & _).
  pose proof (forget_nm X s i n c Hs Hr) as Hnm. assert (Hi0 : 0 <= i) by lia.
  pose proof (inv_idle_nodup _ _ Hs) as Hnd. rewrite Hkeys in Hnd.
  apply NoDup_app in Hnd as (Hnd & Hdisj & _).
  split; simpl.
  - apply Hs.
  - rewrite length_insert. apply Hs.
  - intros m j. rewrite lookup_delete. case_decide as Hd.
    + subst m. split; [done|]. intros [Hj Hm]. rewrite Hnm in Hm by done.
      case_decide as Hd; [done|]. exfalso. apply Hd. by eapply nm_inj.
    + rewrite (inv_map _ _ Hs). split; intros [Hj Hm]; (split; [done|]).
      * rewrite Hnm by done. rewrite decide_False; [done|]. intros <-. congruence.
      * rewrite Hnm in Hm by done. by case_decide.
  - intros m j Hm%lookup_delete_Some. destruct Hm. by eapply (inv_norm _ _ Hs).
  - apply Hs.
  - intros j Hj. pose proof (inv_part _ _ Hs j Hj) as Hp. unfold allocated in *; simpl.
    rewrite Hp. rewrite Hnm by lia. case_decide as Hd.
    + subst j. split; [set_solver|]. intros _. left. by eexists.
    + set_solver.
  - apply Hs.
  - intros j Hj. destruct (inv_held _ _ Hs j Hj) as (? & ? & ?). split; [done|].
    rewrite Hnm by lia. rewrite decide_False by (intros ->; done). set_solver.
  - intros j Hj. apply elem_of_union in Hj as [->%elem_of_singleton|Hj].
    + rewrite Hnm by done. by rewrite decide_True.
    + destruct (inv_X _ _ Hs j Hj). split; [done|]. rewrite Hnm by lia.
      rewrite decide_False by (intros ->; done). done.
  - done.
  - intros j. unfold idle_keys; simpl. pose proof (inv_idle _ _ Hs j) as Hj. rewrite Hkeys in Hj.
    split.
    + intros Hin. destruct (proj1 Hj) as (? & ? & ?); [set_solver|]. split; [done|].
      rewrite Hnm by done. rewrite decide_False; [done|].
      intros <-. eapply Hdisj; [done|]. set_solver.
    + intros (Hj0 & Hsome & Hjl). rewrite Hnm in Hsome by done.
      case_decide as Hd; [by destruct Hsome|].
      assert (j ∈ keys_of (lru_iter c) ++ [i]) as Hin by (by apply Hj).
      set_solver.
  - intros j k Hk. destruct (inv_leases _ _ Hs j k Hk) as (? & ? & ?). split; [done|]. split; [done|].
    rewrite Hnm by done. rewrite decide_False; [done|]. intros <-. congruence.
  - rewrite Hcap. apply Hs.
Qed.

(** The index used longest ago, and the name that goes. *)
Lemma take_idle_inv X s : inv X s ->
  match last (idle_keys s) with
  | None => take_idle s = Some (None, s)
  | Some i => exists s' n, take_idle s = Some (Some i, s') /\ (i ∉ X) /\ inv ({[i]} ∪ X) s'
      /\ leases s !! i = None /\ nm s i = Some n /\ 0 <= i /\ (i ∉ held s)
      /\ held s' = held s /\ held_until s' = held_until s /\ count s' = count s
      /\ leases s' = leases s /\ indices s' = delete n (indices s)
      /\ (forall j, 0 <= j -> nm s' j = if decide (i = j) then None else nm s j)
  end.
Proof.
  intros Hs. unfold take_idle. destruct (lru_pop_lru (idle s)) as [[[i []] c]|] eqn:Hpop.
  2:{ apply pop_lru_none in Hpop. unfold idle_keys. by rewrite Hpop. }
  destruct (idle_pop_keys _ _ _ Hpop) as [Hkeys Hcap]. simpl in Hkeys. rewrite Hkeys, last_snoc.
  destruct (idlest_facts X s i _ Hs Hkeys) as (Hr & Hl & HiX & Hih & n & Hn & Hslot).
  simpl. rewrite Hslot. simpl. eexists _, n. split; [done|]. split; [done|]. split; [by apply forget_inv|].
  repeat split; try done; try lia. by eapply forget_nm.
Qed.

(** Putting a taken index behind the held ones, and taking the first of them. *)
Lemma push_held_inv X s i : inv ({[i]} ∪ X) s -> i ∉ X -> i ∉ held s ->
  inv X (set_held (held s ++ [i]) s).
Proof.
  intros Hs HiX Hih. pose proof (inv_X _ _ Hs i ltac:(set_solver)) as [Hr Hn].
  split; simpl; try apply Hs.
  - intros j Hj. pose proof (inv_part _ _ Hs j Hj) as Hp. unfold allocated in *; simpl.
    change (nm (set_held _ s) j) with (nm s j). rewrite Hp. set_solver.
  - apply NoDup_app. split; [apply Hs|]. split; [set_solver|apply NoDup_singleton].
  - intros j Hj. change (nm (set_held _ s) j) with (nm s j).
    apply elem_of_app in Hj as [Hj| ->%list_elem_of_singleton]; [|done].
    destruct (inv_held _ _ Hs j Hj) as (? & ? & ?). set_solver.
  - intros j Hj. change (nm (set_held _ s) j) with (nm s j). apply (inv_X _ _ Hs). set_solver.
Qed.

Lemma pop_held_inv X s i rest : inv X s -> held s = i :: rest ->
  inv ({[i]} ∪ X) (set_held rest s) /\ (i ∉ X) /\ (i ∉ rest) /\ nm s i = None /\ 0 <= i < count s.
Proof.
  intros Hs Hh. pose proof (inv_held_nodup _ _ Hs) as Hnd. rewrite Hh in Hnd.
  apply NoDup_cons in Hnd as [Hni Hnd].
  pose proof (inv_held _ _ Hs i ltac:(rewrite Hh; left)) as (Hr & Hn & HX).
  split; [|done]. split; simpl; try apply Hs; try done.
  - intros j Hj. pose proof (inv_part _ _ Hs j Hj) as Hp. unfold allocated in *; simpl.
    change (nm (set_held _ s) j) with (nm s j). rewrite Hp, Hh, elem_of_cons. set_solver.
  - intros j Hj. change (nm (set_held _ s) j) with (nm s j).
    destruct (inv_held _ _ Hs j ltac:(rewrite Hh; by right)) as (? & ? & ?). split; [done|].
    split; [done|]. assert (j <> i) by (intros ->; done). set_solver.
  - intros j Hj. change (nm (set_held _ s) j) with (nm s j).
    apply elem_of_union in Hj as [->%elem_of_singleton|Hj]; [done|]. by apply (inv_X _ _ Hs).
Qed.

(** What holds of an index [take_fresh_or_idle] or [take] hands out: it is
    nobody's, and nothing changes for any other index. *)
Definition handed_out X s i s' : Prop :=
  inv ({[i]} ∪ X) s' /\ (i ∉ X) /\ 0 <= i < count s /\ leases s !! i = None /\ (i ∉ held s')
  /\ count s' = count s /\ leases s' = leases s /\ held_until s' = held_until s
  /\ (forall n, indices s !! n = None -> indices s' !! n = None)
  /\ (forall j, 0 <= j -> j <> i -> nm s' j = nm s j /\ (j ∈ held s' <-> j ∈ held s)).

(** Nothing to hand out: every index is held back, in flight or leased. *)
Definition used_up X s : Prop :=
  forall i, 0 <= i < count s -> (i ∈ held s) \/ (i ∈ X) \/ is_Some (leases s !! i).

Lemma take_fresh_None s : take_fresh s = (None, s) -> wrapped s = true \/ count s <= cursor s.
Proof. unfold take_fresh. destruct (wrapped s); [by left|]. simpl. case_match; [|done]. right. lia. Qed.

Lemma last_keys_None {A} (l : list A) : last l = None -> l = [].
Proof. apply last_None. Qed.

Lemma take_fresh_or_idle_inv X s : inv X s ->
  exists o s', take_fresh_or_idle s = Some (o, s') /\ held s' = held s /\ held_until s' = held_until s /\
  match o with
  | Some i => handed_out X s i s' /\ (i ∉ held s)
  | None => s' = s /\ used_up X s
  end.
Proof.
  intros Hs. unfold take_fresh_or_idle. destruct (take_fresh s) as [[i|] s1] eqn:Hf.
  - destruct (take_fresh_inv _ _ _ _ Hs Hf) as ((-> & HX & Hi & Hn & Hh) & Hheld & Hu & Hc & Hl & Hnm & Hix).
    exists (Some (cursor s)), s1. repeat (split; [done|]). split; [|done].
    pose proof (inv_X _ _ Hi (cursor s) ltac:(set_solver)) as [Hr _]. rewrite Hc in Hr.
    split; [done|]. split; [done|]. split; [done|]. split.
    { destruct (leases s !! cursor s) eqn:E; [|done].
      apply (inv_leases _ _ Hs) in E as (_ & _ & [? ?]). congruence. }
    split; [by rewrite Hheld|]. repeat (split; [done|]). split; [by rewrite Hix|].
    intros j Hj _. by rewrite Hnm, Hheld.
  - destruct (take_fresh_inv _ _ _ _ Hs Hf) as (-> & _).
    pose proof (take_idle_inv _ _ Hs) as Hi. destruct (last (idle_keys s)) as [i|] eqn:Hlast.
    + destruct Hi as (s' & n & -> & HX & Hi & Hl & Hn & Hi0 & Hh & Hheld & Hu & Hc & Hls & Hix & Hnm).
      exists (Some i), s'. repeat (split; [done|]). split; [|done].
      pose proof (nm_range _ _ i Hs Hi0 ltac:(by eexists)) as Hr.
      split; [done|]. split; [done|]. split; [done|]. split; [done|]. split; [by rewrite Hheld|].
      repeat (split; [done|]). split.
      * intros m Hm. rewrite Hix. apply lookup_delete_None. by right.
      * intros j Hj Hne. rewrite Hnm, Hheld, decide_False by done. done.
    + rewrite Hi. exists None, s. repeat (split; [done|]). intros i Hr.
      apply last_None in Hlast. apply take_fresh_None in Hf.
      assert (allocated s i) as Ha by (unfold allocated; destruct Hf; [by left|right; lia]).
      apply (inv_part _ _ Hs) in Ha as [Hsome|[?|?]]; [|by left|by (right; left)|lia].
      right; right. destruct (leases s !! i) eqn:E; [by eexists|].
      assert (i ∈ idle_keys s) as Hin by (apply (inv_idle _ _ Hs); split; [lia|done]).
      rewrite Hlast in Hin. by apply not_elem_of_nil in Hin.
Qed.

(** [State::take]: what was held back goes only once its time has come. *)
Lemma take_inv X s now : inv X s ->
  exists o s', take now s = Some (o, s') /\ held_until s' = held_until s /\
  match o with
  | Some i => handed_out X s i s'
      /\ ((i ∉ held s) \/ exists t, held_until s = Some t /\ t <= now /\ head (held s) = Some i)
  | None => s' = s /\ used_up X s
      /\ (forall t, held_until s = Some t -> t <= now -> held s = [])
  end.
Proof.
  intros Hs. unfold take.
  destruct (take_fresh_or_idle_inv _ _ Hs) as (o & s' & Ht & _ & Hu & Ho).
  assert (Hfi : (forall t, held_until s = Some t -> t <= now -> held s = []) ->
    exists o s', take_fresh_or_idle s = Some (o, s') /\ held_until s' = held_until s /\
    match o with
    | Some i => handed_out X s i s'
        /\ ((i ∉ held s) \/ exists t, held_until s = Some t /\ t <= now /\ head (held s) = Some i)
    | None => s' = s /\ used_up X s /\ (forall t, held_until s = Some t -> t <= now -> held s = [])
    end).
  { intros Hno. exists o, s'. repeat (split; [done|]). destruct o as [i|].
    - destruct Ho. split; [done|]. by left.
    - destruct Ho. done. }
  destruct (held_until s) as [t|] eqn:Et; [|by apply Hfi].
  destruct (Z.leb_spec t now) as [Hle|Hgt].
  2:{ apply Hfi. intros ? [= <-] ?. lia. }
  destruct (held s) as [|i rest] eqn:Eh; [by apply Hfi|].
  destruct (pop_held_inv _ _ _ _ Hs Eh) as (Hinv & HX & Hni & Hn & Hr).
  exists (Some i), (set_held rest s). split; [done|]. split; [done|]. split.
  - split; [done|]. split; [done|]. split; [done|]. split.
    { destruct (leases s !! i) eqn:E; [|done].
      apply (inv_leases _ _ Hs) in E as (_ & _ & [? ?]). congruence. }
    split; [done|]. do 4 (split; [done|]). intros j Hj Hne. split; [done|]. simpl.
    rewrite Eh, elem_of_cons. naive_solver.
  - right. exists t. done.
Qed.

(** [State::hold_back] under the invariant. *)
Lemma hold_back_loop_inv want s : inv ∅ s ->
  exists s' new_, hold_back_loop want s = Some s' /\ inv ∅ s' /\ held s' = held s ++ new_
    /\ leases s' = leases s /\ count s' = count s
    /\ (forall j, 0 <= j -> j ∉ new_ -> nm s' j = nm s j)
    /\ (length new_ = want \/ ((length new_ < want)%nat /\ used_up ∅ s')).
Proof.
  revert s. induction want as [|want IH]; intros s Hs; simpl.
  { exists s, []. rewrite app_nil_r. repeat (split; [done|]). by left. }
  destruct (take_fresh_or_idle_inv _ _ Hs) as (o & s1 & -> & Hh & Hu & Ho). simpl.
  destruct o as [i|].
  - destruct Ho as [(Hi & HX & Hr & Hl & Hih & Hc & Hls & _ & _ & Hnm) Hni].
    apply push_held_inv in Hi; [|done|by rewrite Hh].
    destruct (IH _ Hi) as (s' & new_ & Hloop & Hs' & Hheld & Hls' & Hc' & Hnm' & Hlen).
    exists s', (i :: new_). split; [done|]. rewrite Hheld; simpl. rewrite Hh, <- app_assoc; simpl.
    rewrite Hls', Hc'; simpl. rewrite Hls, Hc.
    do 4 (split; [done|]). split.
    { intros j Hj [Hne Hnew]%not_elem_of_cons. rewrite Hnm' by done. by apply Hnm. }
    destruct Hlen as [Hlen|[Hlen ?]].
    + left. simpl. lia.
    + right. simpl. split; [lia|done].
  - destruct Ho as [-> Hup]. exists s, []. rewrite app_nil_r. repeat (split; [done|]).
    right. simpl. split; [lia|done].
Qed.

Lemma hold_back_inv want now s : inv ∅ s ->
  exists s' new_, hold_back want now s = Some s' /\ inv ∅ s' /\ held s' = held s ++ new_
    /\ leases s' = leases s /\ count s' = count s
    /\ (held s' <> [] -> held_until s' = Some (now + QUARANTINE))
    /\ (forall j, 0 <= j -> j ∉ new_ -> nm s' j = nm s j)
    /\ (length new_ = want \/ ((length new_ < want)%nat /\ used_up ∅ s')).
Proof.
  intros Hs. unfold hold_back.
  destruct (hold_back_loop_inv want s Hs) as (s' & new_ & -> & Hs' & Hh & Hl & Hc & Hnm & Hlen). simpl.
  destruct (held s') as [|i l] eqn:E.
  - exists s', new_. rewrite E. done.
  - exists (set_held_until (Some (now + QUARANTINE)) s'), new_. split; [done|].
    split; [by apply set_held_until_inv|]. simpl. rewrite E. naive_solver.
Qed.

(** ** Leases *)

Lemma nm_named s ip i n : name_at ip s = Some (i, n) -> index_of ip = Some i /\ nm s i = Some n.
Proof.
  unfold name_at, nm. intros Hat. inv_option. simplify_eq. split; [done|].
  match goal with E : names _ !! _ = _ |- _ => by rewrite E end.
Qed.

Lemma index_of_range ip i : index_of ip = Some i -> 0 <= i < FAKE_COUNT.
Proof.
  unfold index_of. intros ?. inv_option. destruct (Z.ltb_spec x FIRST); [done|].
  destruct (Z.ltb_spec (x - FIRST) FAKE_COUNT); [|done]. simplify_eq. lia.
Qed.

Lemma name_of_inv X s ip o s' : inv X s -> name_of ip s = (o, s') -> inv X s'.
Proof.
  intros Hs. unfold name_of. destruct (name_at ip s) as [[i n]|]; intros [= <- <-]; [|done].
  by apply refresh_inv.
Qed.

(** A lease more on an index: no wrap-around while its count is below
    [2^32 - 1]. *)
Lemma lease_inv X s ip o s' :
  inv X s -> (forall i k, leases s !! i = Some k -> k < u32_max) -> lease ip s = (o, s') -> inv X s'.
Proof.
  intros Hs Hmax. unfold lease. destruct (name_at ip s) as [[i n]|] eqn:E; intros [= <- <-]; [|done].
  apply nm_named in E as [Hi Hn]. apply index_of_range in Hi.
  assert (Hk : 0 < (default 0 (leases s !! i) + 1) mod 2 ^ 32 < 2 ^ 32).
  { destruct (leases s !! i) as [k|] eqn:Hk; [cbn [default from_option id]|by vm_compute].
    pose proof (Hmax _ _ Hk). apply (inv_leases _ _ Hs) in Hk as (? & _). unfold u32_max in *.
    rewrite Z.mod_small by lia. lia. }
  destruct Hs. split; simpl; try done.
  - unfold idle_keys; simpl. rewrite iter_pop. by apply drop_key_NoDup.
  - intros j. unfold idle_keys; simpl. rewrite iter_pop, elem_of_drop_key.
    unfold idle_keys in *. rewrite inv_idle0. change (nm (set_idle _ _) j) with (nm s j).
    destruct (decide (i = j)) as [->|Hne].
    + rewrite lookup_insert_eq. naive_solver.
    + rewrite lookup_insert_ne by done. naive_solver.
  - intros j k. change (nm (set_idle _ _) j) with (nm s j).
    destruct (decide (i = j)) as [->|Hne].
    + rewrite lookup_insert_eq. intros [= <-]. split; [done|]. split; [lia|]. by eexists.
    + rewrite lookup_insert_ne by done. apply inv_leases0.
  - rewrite cap_pop. done.
Qed.

Lemma release_inv X s i : inv X s -> exists s', release i s = Some s' /\ inv X s'.
Proof.
  intros Hs. unfold release. destruct (leases s !! i) as [k|] eqn:Hk; [|by eexists].
  destruct (inv_leases _ _ Hs _ _ Hk) as (Hkr & Hi & Hsome).
  pose proof (nm_range _ _ _ Hs Hi Hsome) as Hr.
  rewrite (proj2 (Z.eqb_neq k 0)) by lia. destruct (Z.eqb_spec (k - 1) 0) as [Hz|Hz].
  - simpl. rewrite (nm_slot _ _ _ Hs Hr). simpl. destruct Hsome as [n Hn]. rewrite Hn.
    eexists. split; [done|]. destruct Hs. split; simpl; try done.
    + unfold idle_keys; simpl. rewrite idle_put_keys by done. by apply cons_drop_NoDup.
    + intros j. unfold idle_keys; simpl. rewrite idle_put_keys by done.
      rewrite elem_of_cons, elem_of_drop_key. change (nm (set_idle _ _) j) with (nm s j).
      unfold idle_keys in *. rewrite inv_idle0. destruct (decide (i = j)) as [->|Hne].
      * rewrite lookup_delete_eq. split; [intros _; split; [done|]; split; [by eexists|done]|by left].
      * rewrite lookup_delete_ne by done. naive_solver.
    + intros j k' Hk'%lookup_delete_Some. change (nm (set_idle _ _) j) with (nm s j).
      apply (inv_leases0 j k'). naive_solver.
    + rewrite cap_put. done.
  - eexists. split; [done|]. destruct Hs. split; simpl; try done.
    + intros j. change (nm (set_leases _ _) j) with (nm s j). change (idle_keys (set_leases _ _)) with (idle_keys s).
      rewrite inv_idle0. destruct (decide (i = j)) as [->|Hne].
      * rewrite lookup_insert_eq, Hk. naive_solver.
      * by rewrite lookup_insert_ne by done.
    + intros j k'. change (nm (set_leases _ _) j) with (nm s j).
      destruct (decide (i = j)) as [->|Hne].
      * rewrite lookup_insert_eq. intros [= <-]. split; [lia|]. done.
      * rewrite lookup_insert_ne by done. apply inv_leases0.
Qed.

(** ** [assign] *)

Lemma assign_inv s name now : inv ∅ s ->
  exists o s', assign name now s = Some (o, s') /\ inv ∅ s' /\ leases s' = leases s
    /\ count s' = count s /\ held_until s' = held_until s.
Proof.
  intros Hs. unfold assign. destruct (normalize name) as [n|] eqn:Hn; [|by do 2 eexists].
  destruct (indices s !! n) as [i|] eqn:Hi.
  { do 2 eexists. split; [done|]. split; [by apply refresh_inv|done]. }
  destruct (take_inv ∅ s now Hs) as (o & s1 & -> & Hu & Ho). simpl. destruct o as [i|].
  - destruct Ho as [(Hinv & _ & Hr & Hl & _ & Hc & Hls & _ & Hix & _) _].
    rewrite (give_Some _ _ _ _ Hinv) by set_solver. simpl. do 2 eexists. split; [done|].
    split; [|done]. apply set_dirty_inv.
    replace ∅ with (({[i]} ∪ ∅ : gset Z) ∖ {[i]}) by set_solver.
    apply bind_name_inv; [done|set_solver|by apply Hix|by eapply normalize_idem].
  - destruct Ho as [-> _]. by do 2 eexists.
Qed.

End inv.
