(* ===== verification/FakeIpOpen.v ===== *)
(** * Opening the fake-IP pool

    What [State::restore] and [FakeIpPool::open_sized] of
    [crates/rurge-dns/src/fakeip/mod.rs] make of a file: a well-formed state,
    whatever the bytes, in which every index the file's allocator had been
    through and gave no name to is held back. *)

From S2P Require Import Prelude Lru FakeIpAddr FakeIpFile FakeIp FakeIpInv.

Section restored.
Context `{LruLaws Z unit}.
Implicit Types (s : State) (X : gset Z) (i j : Z) (n : rstr).

Definition upto (bound : Z) : gset Z := list_to_set (seqZ 0 bound).

Lemma elem_of_upto bound i : i ∈ upto bound <-> 0 <= i < bound.
Proof. unfold upto. rewrite elem_of_list_to_set, elem_of_seqZ. lia. Qed.

Lemma nm_fresh (k : nat) i :
  (replicate k (@None rstr) !! Z.to_nat i : option (option rstr)) ≫= id = None.
Proof.
  destruct (replicate k None !! Z.to_nat i) as [o|] eqn:E; [|done].
  by apply lookup_replicate in E as [-> _].
Qed.

(** The state [restore] starts from: an allocator that has been through the
    indices of [bound], none of which has a name yet. *)
Lemma new_inv cnt c (w : bool) : 0 <= cnt <= FAKE_COUNT -> 0 <= c <= cnt ->
  inv (upto (if w then cnt else c)) (set_cursor c w (new cnt)).
Proof.
  intros Hcnt Hc.
  assert (Hk : idle_keys (set_cursor c w (new cnt)) = []).
  { unfold idle_keys; simpl. by rewrite iter_unbounded. }
  assert (Hn : forall j, nm (set_cursor c w (new cnt)) j = None) by (intros; apply nm_fresh).
  split; simpl; rewrite ?Hk, ?Z.min_l by lia; try done.
  - by rewrite length_replicate.
  - intros n i. rewrite Hn, lookup_empty. naive_solver.
  - intros i Hi. unfold allocated; simpl. rewrite Hn, elem_of_upto.
    assert (~ is_Some (@None rstr)) by (intros [? ?]; done).
    assert (i ∉ ([] : list Z)) by apply not_elem_of_nil.
    destruct w; [|naive_solver lia]. split; [intros _; right; right; lia|by left].
  - constructor.
  - intros i. by rewrite elem_of_nil.
  - intros i. rewrite elem_of_upto, Hn. intros ?. split; [|done]. destruct w; lia.
  - constructor.
  - intros i. rewrite elem_of_nil, Hn. naive_solver.
  - apply cap_unbounded.
Qed.

Lemma bind_name_idle X s i n : inv X s -> i ∈ X ->
  idle_keys (bind_name i n s) = i :: idle_keys s.
Proof.
  intros Hs HiX. unfold idle_keys, bind_name; simpl. rewrite idle_put_keys by apply (inv_cap _ _ Hs).
  f_equal. rewrite drop_key_id; [done|]. intros Hin. apply (inv_idle _ _ Hs) in Hin.
  apply (inv_X _ _ Hs) in HiX. destruct Hin as (_ & [? ?] & _). naive_solver.
Qed.

(** The loop of [restore] over the entries. *)
Lemma restore_entries_inv es X s :
  inv X s -> Forall (fun e => e.1 ∈ X /\ normalize e.2 = Some e.2 /\ indices s !! e.2 = None) es ->
  NoDup es.*1 -> NoDup es.*2 ->
  exists s', restore_entries es s = Some s' /\ inv (X ∖ list_to_set es.*1) s'
    /\ idle_keys s' = reverse es.*1 ++ idle_keys s
    /\ count s' = count s /\ cursor s' = cursor s /\ wrapped s' = wrapped s /\ held s' = held s
    /\ leases s' = leases s /\ held_until s' = held_until s /\ dirty s' = dirty s
    /\ (forall j, 0 <= j -> j ∉ es.*1 -> nm s' j = nm s j)
    /\ Forall (fun e => nm s' e.1 = Some e.2) es.
Proof.
  revert X s. induction es as [|[i n] es IH]; intros X s Hs Hes Hi Hn; cbn [fmap list_fmap fst snd] in *.
  { exists s. cbn [list_to_set]. split; [done|]. split; [|naive_solver].
    by replace (X ∖ ∅) with X by set_solver. }
  apply Forall_cons in Hes as [(HiX & Hnorm & Hfree) Hes]; cbn [fst snd] in *.
  apply NoDup_cons in Hi as [Hni Hi]. apply NoDup_cons in Hn as [Hnn Hn].
  pose proof (inv_X _ _ Hs i HiX) as [Hr _].
  cbn [restore_entries]. rewrite (put_name_Some _ _ _ _ Hs Hr). cbn [mbind option_bind].
  change (set_idle _ (set_indices _ (set_names (<[_ := Some n]> _) s))) with (bind_name i n s).
  pose proof (bind_name_inv _ _ _ _ Hs HiX Hfree Hnorm) as Hb.
  destruct (IH _ _ Hb) as (s' & Hre & Hs' & Hidle & Hc & Hcu & Hw & Hh & Hl & Hu & Hd & Hnm & Hall); [|done..|].
  { apply Forall_forall. intros [j m] Hin. rewrite Forall_forall in Hes.
    destruct (Hes _ Hin) as (Hj & Hm & Hf); cbn [fst snd] in *.
    assert (j <> i) by (intros ->; apply Hni, list_elem_of_fmap; by exists (i, m)).
    assert (m <> n) by (intros ->; apply Hnn, list_elem_of_fmap; by exists (j, n)).
    split; [set_solver|]. split; [done|]. simpl. by rewrite lookup_insert_ne. }
  exists s'. split; [done|]. split.
  { replace (X ∖ list_to_set (i :: es.*1)) with (X ∖ {[i]} ∖ list_to_set es.*1); [done|].
    cbn [list_to_set]. set_solver. }
  split.
  { rewrite Hidle, (bind_name_idle _ _ _ _ Hs HiX), reverse_cons, <- app_assoc. done. }
  repeat (split; [done|]). split.
  - intros j Hj Hne. apply not_elem_of_cons in Hne as [Hne ?]. rewrite Hnm by done.
    erewrite nm_bind_name by done. by rewrite decide_False by done.
  - constructor; [|done]. cbn [fst snd]. rewrite Hnm by (done || lia).
    erewrite nm_bind_name by (done || lia). by rewrite decide_True.
Qed.

(** What stays of the flight after the entries are the holes. *)
Lemma holes_inv Y s l : inv Y s -> held s = [] -> NoDup l -> (forall i, i ∈ l <-> i ∈ Y) ->
  inv ∅ (set_held l s).
Proof.
  intros Hs Hh Hnd Hl. split; simpl; try apply Hs; try done.
  - intros i Hi. pose proof (inv_part _ _ Hs i Hi) as Hp. unfold allocated in *; simpl.
    change (nm (set_held l s) i) with (nm s i). rewrite Hp, Hh, Hl, elem_of_nil. set_solver.
  - intros i Hi%Hl. change (nm (set_held l s) i) with (nm s i).
    destruct (inv_X _ _ Hs i Hi). set_solver.
Qed.

Lemma is_hole_spec X s i : inv X s -> 0 <= i < count s -> is_hole s i = true <-> nm s i = None.
Proof.
  intros Hs Hi. unfold is_hole. rewrite (nm_slot _ _ _ Hs Hi). by destruct (nm s i).
Qed.

(** The indices the allocator of [t] has been through. *)
Definition bound_of (cnt : Z) (t : Table) : Z :=
  if t_wrapped t || (cnt <=? t_cursor t) then cnt else t_cursor t.

Lemma bound_of_range cnt t : 0 <= t_cursor t <= cnt -> 0 <= bound_of cnt t <= cnt.
Proof. intros Hc. unfold bound_of. destruct (t_wrapped t || (cnt <=? t_cursor t)); lia. Qed.

(** [State::restore], of a table [parse] accepts. *)
Lemma restore_inv cnt t : 0 <= cnt <= FAKE_COUNT -> table_ok cnt t ->
  exists s, restore cnt t = Some s /\ inv ∅ s /\ count s = cnt
    /\ idle_keys s = reverse (t_entries t).*1 /\ cursor s = t_cursor t
    /\ wrapped s = t_wrapped t || (cnt <=? t_cursor t) /\ leases s = ∅
    /\ held_until s = None /\ dirty s = false
    /\ Forall (fun e => nm s e.1 = Some e.2) (t_entries t)
    /\ (forall i, i ∈ held s <-> 0 <= i < bound_of cnt t /\ i ∉ (t_entries t).*1).
Proof.
  intros Hcnt (Hc & _ & Hes & Hi & Hn). unfold restore.
  set (w := t_wrapped t || (count (new cnt) <=? t_cursor t)).
  assert (Hw : w = t_wrapped t || (cnt <=? t_cursor t)) by (subst w; simpl; by rewrite Z.min_l by lia).
  pose proof (new_inv cnt (t_cursor t) w Hcnt Hc) as Hns.
  assert (Hbd : (if w then cnt else t_cursor t) = bound_of cnt t) by (by rewrite Hw).
  rewrite Hbd in Hns.
  destruct (restore_entries_inv (t_entries t) _ _ Hns) as
    (s & Hre & Hs & Hidle & Hcs & Hcu & Hws & Hh & Hl & Hu & Hd & Hnm & Hall); [|done..|].
  { eapply Forall_impl; [done|]. intros e (He & Hec & Hnorm). rewrite elem_of_upto.
    split; [|split; [done|apply lookup_empty]]. unfold bound_of. rewrite <- Hw.
    subst w. destruct (t_wrapped t); [done|]; cbn [orb] in *. specialize (Hec eq_refl).
    case_match; lia. }
  rewrite Hre. cbn [mbind option_bind].
  assert (Hbound : (if wrapped s then count s else cursor s) = bound_of cnt t).
  { rewrite Hws, Hcs, Hcu. simpl. rewrite Z.min_l by lia. done. }
  rewrite Hbound.
  assert (Hbr : 0 <= bound_of cnt t <= cnt) by (by apply bound_of_range).
  assert (Hcs' : count s = cnt) by (rewrite Hcs; simpl; lia).
  rewrite decide_True by (rewrite (inv_len _ _ Hs); lia).
  assert (Hmem : forall i, i ∈ filter (fun i => is_hole s i = true) (seqZ 0 (bound_of cnt t))
                 <-> 0 <= i < bound_of cnt t /\ i ∉ (t_entries t).*1).
  { intros i. rewrite list_elem_of_filter, elem_of_seqZ, Z.add_0_l.
    split; intros [H1' H2']; (split; [|]); try done.
    - intros Hin. apply (is_hole_spec _ _ _ Hs) in H1'; [|lia].
      apply list_elem_of_fmap in Hin as (e & -> & Hin).
      rewrite Forall_forall in Hall. rewrite (Hall _ Hin) in H1'. done.
    - apply (is_hole_spec _ _ _ Hs); [lia|]. rewrite Hnm by (done || lia). apply nm_fresh. }
  eexists. split; [done|]. simpl. split.
  { eapply holes_inv; [done|by rewrite Hh|by apply NoDup_filter, NoDup_seqZ|].
    intros i. rewrite Hmem, elem_of_difference, elem_of_upto, elem_of_list_to_set. done. }
  split; [done|]. split.
  { change (idle_keys (set_held _ s)) with (idle_keys s). rewrite Hidle.
    unfold idle_keys; simpl. rewrite iter_unbounded. apply app_nil_r. }
  rewrite Hcu, Hws, Hl, Hu, Hd. cbn [cursor wrapped leases held_until dirty set_cursor new]. rewrite <- Hw. done.
Qed.

Lemma load_inv read cnt : 0 <= cnt <= FAKE_COUNT ->
  exists s loaded, load read cnt = Some (s, loaded) /\ inv ∅ s /\ count s = cnt /\ leases s = ∅
    /\ held_until s = None.
Proof.
  intros Hcnt.
  assert (Hnew : forall (loaded : Loaded), exists s loaded', Some (new cnt, loaded) = Some (s, loaded') /\ inv ∅ s
    /\ count s = cnt /\ leases s = ∅ /\ held_until s = None).
  { intros loaded. exists (new cnt), loaded. split; [done|]. split; [|simpl; split; [lia|done]].
    apply (new_inv cnt 0 false); lia. }
  unfold load. destruct read as [bytes| |]; [|apply Hnew..].
  destruct (parse bytes cnt) as [[t clean]|] eqn:Hp; [|apply Hnew].
  apply parse_sound_aux in Hp; [|unfold FAKE_COUNT, u32_max in *; lia].
  destruct (restore_inv _ _ Hcnt Hp) as (s & Hs & ?). rewrite Hs.
  destruct clean; do 2 eexists; (split; [done|]); naive_solver.
Qed.

(** ** The table *)

Lemma table_dirty s b : table (set_dirty b s) = table s.
Proof.
  assert (Hext : forall ixs, named_entries (set_dirty b s) ixs = named_entries s ixs).
  { induction ixs as [|i ixs IH]; [done|]. cbn [named_entries]. by rewrite IH. }
  unfold table; simpl. by rewrite !Hext.
Qed.

Lemma named_entries_spec X s ixs : inv X s ->
  Forall (fun i => 0 <= i /\ is_Some (nm s i)) ixs ->
  exists es, named_entries s ixs = Some es /\ es.*1 = ixs /\ Forall (fun e => nm s e.1 = Some e.2) es.
Proof.
  intros Hs Hix. induction Hix as [|i ixs [Hi [n Hn]] _ (es & IH & Hk & Hes)]; cbn [named_entries].
  { exists []. repeat constructor. }
  pose proof (nm_range _ _ i Hs Hi ltac:(by eexists)) as Hr.
  rewrite (nm_slot _ _ _ Hs Hr), IH. cbn [mbind option_bind]. rewrite Hn.
  exists ((i, n) :: es). split; [done|]. split; [by rewrite fmap_cons, Hk|]. by constructor.
Qed.

Lemma sorted_keys_elem m i : i ∈ sorted_keys m <-> is_Some (m !! i).
Proof.
  unfold sorted_keys. rewrite merge_sort_Permutation, list_elem_of_fmap. split.
  - intros ([j k] & -> & Hin%elem_of_map_to_list). by eexists.
  - intros [k Hk]. exists (i, k). split; [done|]. by apply elem_of_map_to_list.
Qed.

Lemma sorted_keys_NoDup m : NoDup (sorted_keys m).
Proof. unfold sorted_keys. rewrite merge_sort_Permutation. apply NoDup_fst_map_to_list. Qed.

(** [State::table] lists every index with a name once: the idle ones, the one
    used longest ago first, then the leased ones. *)
Lemma table_spec X s : inv X s ->
  exists t, table s = Some t /\ t_cursor t = cursor s /\ t_wrapped t = wrapped s
    /\ (t_entries t).*1 = reverse (idle_keys s) ++ sorted_keys (leases s)
    /\ Forall (fun e => nm s e.1 = Some e.2) (t_entries t).
Proof.
  intros Hs. unfold table. change (keys_of (lru_iter (idle s))) with (idle_keys s).
  destruct (named_entries_spec X s (reverse (idle_keys s)) Hs) as (e1 & -> & Hk1 & He1).
  { apply Forall_forall. intros i Hi%elem_of_reverse%(inv_idle _ _ Hs). naive_solver. }
  destruct (named_entries_spec X s (sorted_keys (leases s)) Hs) as (e2 & -> & Hk2 & He2).
  { apply Forall_forall. intros i [k Hk]%sorted_keys_elem. apply (inv_leases _ _ Hs) in Hk. naive_solver. }
  eexists. split; [done|]. cbn [t_cursor t_wrapped t_entries]. rewrite fmap_app, Hk1, Hk2, Forall_app. done.
Qed.

Lemma table_keys_NoDup X s : inv X s -> NoDup (reverse (idle_keys s) ++ sorted_keys (leases s)).
Proof.
  intros Hs. apply NoDup_app. split; [rewrite reverse_Permutation; apply (inv_idle_nodup _ _ Hs)|].
  split; [|apply sorted_keys_NoDup].
  intros i Hi%elem_of_reverse%(inv_idle _ _ Hs) [k Hk]%sorted_keys_elem. naive_solver.
Qed.

Lemma entries_of_names X s es : inv X s -> NoDup es.*1 ->
  Forall (fun e => 0 <= e.1 /\ nm s e.1 = Some e.2) es -> NoDup es.*2.
Proof.
  intros Hs Hnd Hes. induction Hes as [|[i n] es [Hi Hn] Hes IH]; cbn [fmap list_fmap fst snd] in *; [constructor|].
  apply NoDup_cons in Hnd as [Hni Hnd]. apply NoDup_cons. split; [|auto].
  intros ([j m] & -> & Hin)%list_elem_of_fmap. rewrite Forall_forall in Hes.
  destruct (Hes _ Hin) as [Hj Hm]; cbn [fst snd] in *. apply Hni.
  rewrite (nm_inj _ _ i j _ Hs Hi Hj Hn Hm). apply list_elem_of_fmap. by exists (j, m).
Qed.

Lemma table_members X s t : inv X s -> table s = Some t ->
  forall i n, (i, n) ∈ t_entries t <-> 0 <= i /\ nm s i = Some n.
Proof.
  intros Hs Ht. destruct (table_spec _ _ Hs) as (t' & Ht' & _ & _ & Hk & Hes).
  assert (t' = t) as -> by congruence. rewrite Forall_forall in Hes.
  assert (Hin : forall i, i ∈ (t_entries t).*1 <-> 0 <= i /\ is_Some (nm s i)).
  { intros i. rewrite Hk, elem_of_app, elem_of_reverse, (inv_idle _ _ Hs), sorted_keys_elem.
    destruct (leases s !! i) as [k|] eqn:E; [|naive_solver].
    apply (inv_leases _ _ Hs) in E. naive_solver. }
  intros i n. split.
  - intros Hi. pose proof (Hes _ Hi) as Hn. split; [|done]. apply Hin, list_elem_of_fmap. by exists (i, n).
  - intros [Hi Hn].
    assert (i ∈ (t_entries t).*1) as ([j m] & -> & Hjm)%list_elem_of_fmap by (apply Hin; by eauto).
    cbn [fst] in *. pose proof (Hes _ Hjm) as Hm. cbn [fst snd] in *. congruence.
Qed.

Lemma table_table_ok s t : inv ∅ s -> table s = Some t -> table_ok (count s) t.
Proof.
  intros Hs Ht. pose proof (table_members _ _ _ Hs Ht) as Hmem.
  destruct (table_spec _ _ Hs) as (t' & Ht' & Hc & Hw & Hk & Hes). assert (t' = t) as -> by congruence.
  assert (Hnd : NoDup (t_entries t).*1) by (rewrite Hk; by eapply table_keys_NoDup).
  assert (Hall : Forall (fun e => 0 <= e.1 /\ nm s e.1 = Some e.2) (t_entries t)).
  { apply Forall_forall. intros [i n] Hi. by apply Hmem. }
  split; [rewrite Hc; apply Hs|]. split; [pose proof (inv_count _ _ Hs); unfold FAKE_COUNT, u32_max in *; lia|].
  split; [|split; [done|by eapply entries_of_names]].
  eapply Forall_impl; [done|]. intros [i n] [Hi Hn]; cbn [fst snd] in *. unfold entry_ok; cbn [fst snd].
  pose proof (nm_range _ _ i Hs Hi ltac:(by eexists)) as Hr. split; [done|]. rewrite Hw, Hc. split.
  - intros Hwf. assert (allocated s i) as [?|?]; [|congruence|done].
    apply (inv_part _ _ Hs); [done|]. left. by eexists.
  - apply (inv_norm _ _ Hs n i). by apply (inv_map _ _ Hs).
Qed.

(** ** [open_sized] *)

(** What opening writes back, and whether the table still has to be written. *)
Definition written (write_ok : bool) (s : State) (loaded : Loaded) (wrote : option (list Z)) : Prop :=
  match loaded with
  | NotRead _ => wrote = None /\ dirty s = true
  | _ => exists t, table s = Some t /\ wrote = Some (utf8_encode (render t false))
           /\ dirty s = negb write_ok
  end.

(** [l] is [want] indices, or all there were. *)
Definition held_enough (want : nat) (l : list Z) (s : State) : Prop :=
  length l = want \/ (length l < want)%nat /\ forall i, 0 <= i < count s -> i ∈ held s.

Lemma written_set_dirty write_ok s loaded : inv ∅ s ->
  exists wrote, written write_ok (set_dirty (match loaded with NotRead _ => true | _ => negb write_ok end) s)
                  loaded wrote
    /\ match loaded with
       | NotRead _ => Some (set_dirty true s, loaded, None)
       | _ => t ← table s;
              Some (set_dirty (negb write_ok) s, loaded, Some (utf8_encode (render t false)))
       end
       = Some (set_dirty (match loaded with NotRead _ => true | _ => negb write_ok end) s, loaded, wrote).
Proof.
  intros Hs. destruct (table_spec _ _ Hs) as (t & Ht & _).
  destruct loaded; rewrite ?Ht; cbn [mbind option_bind]; eexists; (split; [|reflexivity]); unfold written;
    try (exists t; rewrite table_dirty; done); done.
Qed.

Lemma open_sized_inv read write_ok now cnt quarantine : 0 <= cnt ->
  exists s0 loaded s l wrote,
    load read (Z.min cnt FAKE_COUNT) = Some (s0, loaded)
    /\ open_sized read write_ok now cnt quarantine = Some (s, loaded, wrote)
    /\ inv ∅ s0 /\ inv ∅ s /\ count s = Z.min cnt FAKE_COUNT /\ leases s = ∅
    /\ held s = held s0 ++ l /\ (held s <> [] -> held_until s = Some (now + QUARANTINE))
    /\ (forall j, 0 <= j -> j ∉ l -> nm s j = nm s0 j)
    /\ held_enough (want_back loaded quarantine) l s
    /\ written write_ok s loaded wrote.
Proof.
  intros Hcnt. assert (Hm : 0 <= Z.min cnt FAKE_COUNT <= FAKE_COUNT) by (unfold FAKE_COUNT; lia).
  unfold open_sized. destruct (load_inv read _ Hm) as (s0 & loaded & Hload & Hs0 & Hc0 & Hl0 & Hu0).
  destruct (hold_back_inv (want_back loaded quarantine) now s0 Hs0)
    as (s1 & l & Hhb & Hs1 & Hheld & Hl1 & Hc1 & Hu1 & Hnm & Hen).
  rewrite Hload. cbn [mbind option_bind]. rewrite Hhb. cbn [mbind option_bind].
  destruct (written_set_dirty write_ok s1 loaded Hs1) as (wrote & Hw & Heq).
  match type of Hw with written _ ?s2 _ _ => exists s0, loaded, s2, l, wrote end. split; [done|]. split; [exact Heq|]. split; [done|].
  split; [by apply set_dirty_inv|]. rewrite <- Hc0, <- Hl0.
  repeat (split; [done|]). split; [|done].
  destruct Hen as [?|[? Hup]]; [by left|]. right. split; [done|]. intros i Hi.
  destruct (Hup i Hi) as [?|[?|[k Hk]]]; [done|set_solver|]. by rewrite Hl1, Hl0 in Hk.
Qed.

End restored.
