(* ===== verification/FakeIpWorld.v ===== *)
(** * The fake-IP pool among its callers

    The pool of [crates/rurge-dns/src/fakeip/mod.rs] with the [Lease]s its
    callers hold, the calls they make of it in any order, and what holds of
    every state such calls lead to.  One call is one critical section of the
    pool's lock, so a list of calls is an interleaving of any number of
    threads. *)

From S2P Require Import Prelude Lru FakeIpAddr FakeIpFile FakeIp FakeIpInv FakeIpOpen.

Section world.
Context `{LruLaws Z unit}.
Implicit Types (s : State) (i : Z).

(** The pool, and the index of each [Lease] that has not been dropped. *)
Record World := mkWorld { pool : State; out : list Z }.

Inductive Call : Type :=
| Assign (name : rstr) (now : Z)
| NameOf (ip : IpAddr)
| TakeLease (ip : IpAddr)
| DropLease (index : Z)
| TakeIfDirty.

Fixpoint drop_one (i : Z) (l : list Z) : list Z :=
  match l with
  | [] => []
  | j :: l => if decide (j = i) then l else j :: drop_one i l
  end.

(** One call; [None] is a panic.  Only a lease that is held can be dropped. *)
Definition call (c : Call) (w : World) : option World :=
  match c with
  | Assign name now => '(_, s) ← assign name now (pool w); Some (mkWorld s (out w))
  | NameOf ip => Some (mkWorld (name_of ip (pool w)).2 (out w))
  | TakeLease ip =>
      match lease ip (pool w) with
      | (Some (_, i), s) => Some (mkWorld s (i :: out w))
      | (None, s) => Some (mkWorld s (out w))
      end
  | DropLease i =>
      if decide (i ∈ out w) then s ← release i (pool w); Some (mkWorld s (drop_one i (out w)))
      else Some w
  | TakeIfDirty => '(_, s) ← take_if_dirty (pool w); Some (mkWorld s (out w))
  end.

Fixpoint calls (cs : list Call) (w : World) : option World :=
  match cs with
  | [] => Some w
  | c :: cs => w ← call c w; calls cs w
  end.

(** Calls made while a lease on [i] is held, and while there is room for
    another lease. *)
Inductive leased_steps (i : Z) : World -> World -> Prop :=
| leased_refl w : leased_steps i w w
| leased_step c w w1 w2 :
    i ∈ out w -> Z.of_nat (length (out w)) < u32_max -> call c w = Some w1 ->
    leased_steps i w1 w2 -> leased_steps i w w2.

Definition times (i : Z) (l : list Z) : Z := Z.of_nat (length (filter (fun j => j = i) l)).

(** Each lease count is the number of leases held on that index. *)
Record winv (w : World) : Prop := mkWinv {
  winv_inv : inv ∅ (pool w);
  winv_count : forall i, default 0 (leases (pool w) !! i) = times i (out w);
  winv_few : Z.of_nat (length (out w)) <= u32_max;
}.

Lemma times_cons i j l : times i (j :: l) = (if decide (j = i) then 1 else 0) + times i l.
Proof.
  unfold times. rewrite filter_cons. destruct (decide (j = i)) as [->|]; [|lia].
  cbn [length]. lia.
Qed.

Lemma times_pos i l : i ∈ l <-> 0 < times i l.
Proof.
  unfold times. induction l as [|j l IH]; [cbn; split; [by intros ?%not_elem_of_nil|lia]|].
  rewrite elem_of_cons, IH, filter_cons. case_decide; cbn [length]; naive_solver lia.
Qed.

Lemma times_drop_one i j l : i ∈ l ->
  times j (drop_one i l) = times j l - (if decide (i = j) then 1 else 0).
Proof.
  induction l as [|k l IH]; [by intros ?%not_elem_of_nil|]. intros Hi. cbn [drop_one].
  destruct (decide (k = i)) as [->|Hne].
  - rewrite times_cons. case_decide; lia.
  - apply elem_of_cons in Hi as [->|Hi]; [done|]. rewrite !times_cons, IH by done. lia.
Qed.

Lemma drop_one_length i l : i ∈ l -> S (length (drop_one i l)) = length l.
Proof.
  induction l as [|k l IH]; [by intros ?%not_elem_of_nil|]. intros Hi. cbn [drop_one].
  case_decide as Hd; [done|]. apply elem_of_cons in Hi as [->|Hi]; [done|]. cbn [length]. by rewrite IH.
Qed.

Lemma times_length i l : times i l <= Z.of_nat (length l).
Proof. unfold times. pose proof (length_filter (fun j => j = i) l). lia. Qed.

(** ** Every operation, from a well-formed world *)

Lemma lease_leases X s ip n i s' : inv X s -> lease ip s = (Some (n, i), s') ->
  leases s' = <[i := (default 0 (leases s !! i) + 1) mod 2 ^ 32]> (leases s) /\ index_of ip = Some i
  /\ nm s i = Some n.
Proof.
  intros Hs. unfold lease. destruct (name_at ip s) as [[j m]|] eqn:E; intros [= <- <- <-].
  apply nm_named in E. done.
Qed.

Lemma lease_none s ip s' : lease ip s = (None, s') -> s' = s.
Proof. unfold lease. destruct (name_at ip s) as [[j m]|] eqn:E; congruence. Qed.

Lemma name_of_leases s ip : leases (name_of ip s).2 = leases s.
Proof. unfold name_of. by destruct (name_at ip s) as [[j m]|]. Qed.

Lemma release_leases X s i k : inv X s -> leases s !! i = Some k ->
  exists s', release i s = Some s' /\ inv X s'
    /\ leases s' = (if k - 1 =? 0 then delete i (leases s) else <[i := k - 1]> (leases s)).
Proof.
  intros Hs Hk. destruct (release_inv _ _ i Hs) as (s' & Hrel & Hs'). exists s'. split; [done|].
  split; [done|]. revert Hrel. unfold release. rewrite Hk.
  destruct (Z.eqb_spec k 0); [done|]. destruct (Z.eqb_spec (k - 1) 0); [|by intros [= <-]].
  intros Hrel. inv_option. case_match; by simplify_eq.
Qed.

Lemma take_if_dirty_inv s : inv ∅ s ->
  exists o s', take_if_dirty s = Some (o, s') /\ inv ∅ s' /\ leases s' = leases s
    /\ (o = None /\ dirty s = false \/ o = table s /\ dirty s = true /\ is_Some o) /\ dirty s' = false.
Proof.
  intros Hs. unfold take_if_dirty. destruct (dirty s) eqn:Hd; [|exists None, s; by eauto 8].
  destruct (table_spec ∅ s) as (t & Ht & _); [done|]. rewrite table_dirty, Ht. exists (Some t), (set_dirty false s). split; [done|].
  split; [by apply set_dirty_inv|]. split; [done|]. split; [|done]. right. by eauto.
Qed.

(** How many leases a list of calls can take. *)
Definition is_take (c : Call) : bool := if c is TakeLease _ then true else false.
Definition takes (cs : list Call) : nat := length (filter (fun c => is_take c = true) cs).


Lemma call_winv c w : winv w -> Z.of_nat (length (out w)) < u32_max ->
  exists w', call c w = Some w' /\ winv w' /\ (length (out w') <= S (length (out w)))%nat
    /\ (takes [c] = O -> (length (out w') <= length (out w))%nat).
Proof.
  intros [Hs Hcount Hfew] Hlen. destruct c as [name now|ip|ip|i|]; cbn [call].
  - destruct (assign_inv _ name now Hs) as (o & s' & -> & Hs' & Hl & _). cbn [mbind option_bind].
    eexists. split; [done|]. split; [|simpl; lia]. split; simpl; [done| |lia]. by rewrite Hl.
  - eexists. split; [done|]. destruct (name_of ip (pool w)) as [o s'] eqn:E.
    split; [|simpl; lia]. split; simpl; [by eapply name_of_inv| |lia].
    intros i. by rewrite <- Hcount, <- (name_of_leases (pool w) ip), E.
  - destruct (lease ip (pool w)) as [[[n i]|] s'] eqn:E.
    2:{ eexists. split; [done|]. apply lease_none in E as ->. split; [done|]. simpl. lia. }
    pose proof (lease_leases _ _ _ _ _ _ Hs E) as (Hl & _ & _). eexists. split; [done|].
    split; [|split; [simpl; lia|done]]. split; simpl; [| |lia].
    + eapply lease_inv; [done| |done]. intros j k Hk. pose proof (Hcount j) as Hj. rewrite Hk in Hj.
      simpl in Hj. pose proof (times_length j (out w)). lia.
    + intros j. rewrite Hl, times_cons, lookup_insert. destruct (decide (i = j)) as [->|Hne].
      2:{ rewrite decide_False by done. rewrite Hcount. lia. }
      rewrite decide_True by done. cbn [default from_option id]. rewrite Hcount. unfold u32_max in *.
      rewrite Z.mod_small; [lia|]. pose proof (times_length j (out w)). unfold times in *. lia.
  - case_decide as Hin; [|eexists; split; [done|]; simpl; split; [done|lia]].
    pose proof (Hcount i) as Hi. pose proof (proj1 (times_pos _ _) Hin) as Hpos.
    destruct (leases (pool w) !! i) as [k|] eqn:Hk; simpl in Hi; [|lia].
    destruct (release_leases _ _ _ _ Hs Hk) as (s' & -> & Hs' & Hl). eexists. split; [done|].
    pose proof (drop_one_length _ _ Hin) as Hd. split; [|simpl; lia]. split; simpl; [done| |lia].
    intros j. rewrite times_drop_one, <- Hcount, Hl by done.
    destruct (decide (i = j)) as [<-|Hne].
    + rewrite Hk. destruct (Z.eqb_spec (k - 1) 0).
      * rewrite lookup_delete_eq. simpl. lia.
      * rewrite lookup_insert_eq. done.
    + rewrite Z.sub_0_r. destruct (k - 1 =? 0).
      * by rewrite lookup_delete_ne.
      * by rewrite lookup_insert_ne.
  - destruct (take_if_dirty_inv _ Hs) as (o & s' & -> & Hs' & Hl & _). eexists. split; [done|].
    split; [|simpl; lia]. split; simpl; [done| |lia]. by rewrite Hl.
Qed.

Lemma calls_winv cs w : winv w -> Z.of_nat (length (out w)) + Z.of_nat (takes cs) < u32_max ->
  exists w', calls cs w = Some w' /\ winv w'.
Proof.
  revert w. induction cs as [|c cs IH]; intros w Hw Hlen; cbn [calls]; [by eexists|].
  assert (Hcs : takes (c :: cs) = (takes [c] + takes cs)%nat).
  { unfold takes. rewrite !filter_cons, filter_nil. by case_decide. }
  destruct (call_winv c w Hw) as (w1 & -> & Hw1 & Hl1 & Hl2); [lia|]. cbn [mbind option_bind].
  apply IH; [done|]. assert (takes [c] = 0 \/ takes [c] = 1)%nat as [E|E].
  { unfold takes. rewrite filter_cons, filter_nil. case_decide; auto. }
  - specialize (Hl2 E). lia.
  - lia.
Qed.

(** ** What [assign] answers *)

(** The index a name that has none gets: the first one held back, once their
    time has come; else the first nobody has had; else the one used longest
    ago. *)
Definition victim (now : Z) s : option Z :=
  match held_until s, head (held s) with
  | Some until, Some i => if until <=? now then Some i else
      if wrapped s || (count s <=? cursor s) then last (idle_keys s) else Some (cursor s)
  | _, _ => if wrapped s || (count s <=? cursor s) then last (idle_keys s) else Some (cursor s)
  end.

Lemma take_victim X s now : inv X s -> exists s', take now s = Some (victim now s, s').
Proof.
  intros Hs.
  assert (Hfi : exists s', take_fresh_or_idle s = Some
    (if wrapped s || (count s <=? cursor s) then last (idle_keys s) else Some (cursor s), s')).
  { unfold take_fresh_or_idle, take_fresh.
    destruct (wrapped s || (count s <=? cursor s)); [|by eexists].
    pose proof (take_idle_inv _ _ Hs) as Hi. destruct (last (idle_keys s)) as [i|]; [|by eexists].
    destruct Hi as (s' & n & -> & _). by eexists. }
  unfold take, victim. destruct (held_until s) as [t|]; [|done].
  destruct (held s) as [|i l]; simpl; destruct (t <=? now); try done. by eexists.
Qed.

(** [assign] of a name that has no index yet. *)
Lemma assign_new s name n now : inv ∅ s -> normalize name = Some n -> indices s !! n = None ->
  match victim now s with
  | Some i => exists s', assign name now s = Some (Ok i, s') /\ inv ∅ s'
      /\ leases s !! i = None /\ 0 <= i < count s
      /\ (forall j, 0 <= j -> nm s' j = if decide (i = j) then Some n else nm s j)
      /\ (i ∈ held s -> exists t, held_until s = Some t /\ t <= now /\ head (held s) = Some i)
      /\ (forall j, j <> i -> j ∈ held s' <-> j ∈ held s) /\ (i ∉ held s')
      /\ leases s' = leases s /\ count s' = count s /\ held_until s' = held_until s
      /\ dirty s' = true /\ head (idle_keys s') = Some i
  | None => assign name now s = Some (Err Exhausted, s)
      /\ forall i, 0 <= i < count s -> i ∈ held s \/ is_Some (leases s !! i)
  end.
Proof.
  intros Hs Hn Hi. unfold assign. rewrite Hn, Hi.
  destruct (take_inv ∅ s now Hs) as (o & s1 & Ht & Hu & Ho).
  destruct (take_victim ∅ s now Hs) as (s2 & Ht2). rewrite Ht in Ht2. injection Ht2 as -> _.
  rewrite Ht. cbn [mbind option_bind]. destruct (victim now s) as [i|].
  - destruct Ho as [(Hinv & _ & Hr & Hl & Hh & Hc & Hls & Huu & Hix & Hnm) Hheld].
    rewrite (give_Some _ _ _ _ Hinv) by set_solver. cbn [mbind option_bind]. eexists. split; [done|].
    split.
    { apply set_dirty_inv. replace ∅ with (({[i]} ∪ ∅ : gset Z) ∖ {[i]}) by set_solver.
      apply bind_name_inv; [done|set_solver|by apply Hix|by eapply normalize_idem]. }
    split; [done|]. split; [done|]. split.
    { intros j Hj. change (nm (set_dirty true ?x) j) with (nm x j).
      erewrite nm_bind_name by (done || set_solver). case_decide as Hd; [done|]. by apply Hnm. }
    split; [naive_solver|].
    assert (Hidle : idle_keys (set_dirty true (bind_name i n s1)) = i :: idle_keys s1).
    { apply (bind_name_idle _ _ _ n Hinv). set_solver. }
    split; [|rewrite Hidle; done].
    intros j Hne. simpl. destruct (decide (0 <= j)) as [Hj|Hj]; [by apply Hnm|].
    split; intros Hin; [apply (inv_held _ _ Hinv) in Hin|apply (inv_held _ _ Hs) in Hin]; lia.
  - destruct Ho as (-> & Hup & _). split; [done|]. intros i Hr.
    destruct (Hup i Hr) as [?|[?|?]]; [by left|set_solver|by right].
Qed.

(** Every call leaves a leased index its name. *)
Lemma assign_keeps s name now o s' i k : inv ∅ s -> leases s !! i = Some k ->
  assign name now s = Some (o, s') -> nm s' i = nm s i.
Proof.
  intros Hs Hk Ha. destruct (normalize name) as [n|] eqn:Hn.
  2:{ unfold assign in Ha. rewrite Hn in Ha. by simplify_eq. }
  destruct (indices s !! n) as [j|] eqn:Hj.
  { unfold assign in Ha. rewrite Hn, Hj in Ha. by simplify_eq. }
  pose proof (assign_new s name n now Hs Hn Hj) as Hnew.
  pose proof (inv_leases _ _ Hs i k Hk) as (_ & Hi & _). destruct (victim now s) as [j|].
  - destruct Hnew as (s1 & Ha1 & _ & Hl & _ & Hnm & _). simplify_eq. rewrite Hnm by done.
    rewrite decide_False; [done|]. congruence.
  - destruct Hnew as [Ha1 _]. by simplify_eq.
Qed.

Lemma release_names s i s' : release i s = Some s' -> names s' = names s.
Proof.
  unfold release. destruct (leases s !! i) as [k|]; [|congruence]. destruct (k =? 0); [done|].
  destruct (k - 1 =? 0); [|by intros [= <-]]. intros Hr. inv_option. case_match; by simplify_eq.
Qed.

Lemma call_keeps c w w' i : winv w -> i ∈ out w -> call c w = Some w' ->
  nm (pool w') i = nm (pool w) i.
Proof.
  intros [Hs Hcount _] Hi%times_pos Hc. rewrite <- Hcount in Hi.
  destruct (leases (pool w) !! i) as [k|] eqn:Hk; [|simpl in Hi; lia].
  destruct c as [name now|ip|ip|j|]; cbn [call] in Hc.
  - apply bind_Some in Hc as ([o s'] & Ha & [= <-]). by eapply assign_keeps.
  - injection Hc as <-. unfold name_of; simpl. by destruct (name_at ip (pool w)) as [[]|].
  - destruct (lease ip (pool w)) as [o s'] eqn:E. revert E. unfold lease.
    destruct (name_at ip (pool w)) as [[]|]; intros [= <- <-]; by injection Hc as <-.
  - case_decide; [|by simplify_eq]. apply bind_Some in Hc as (s' & Hr%release_names & [= <-]).
    unfold nm; simpl. by rewrite Hr.
  - apply bind_Some in Hc as ([o s'] & Ht & [= <-]). revert Ht. unfold take_if_dirty.
    destruct (dirty (pool w)); [|by intros [= <- <-]]. intros Ht. by inv_option; simplify_eq.
Qed.

Lemma leased_steps_keep i w w' : winv w -> leased_steps i w w' ->
  winv w' /\ nm (pool w') i = nm (pool w) i.
Proof.
  intros Hw Hst. induction Hst as [w|c w w1 w2 Hi Hlen Hc _ IH]; [done|].
  destruct (call_winv c w Hw Hlen) as (w1' & Hc' & Hw1 & _). simplify_eq.
  destruct (IH Hw1) as [? Hn]. split; [done|]. rewrite Hn. by eapply call_keeps.
Qed.

End world.
