(* ===== verification/FakeIpProps.v ===== *)
(** * What the fake-IP pool promises

    The properties of [crates/rurge-dns/src/fakeip/], each over any LRU cache
    that keeps the laws of [Lru], with its instances at [ListLru]. *)

From S2P Require Import Prelude Lru FakeIpAddr FakeIpFile FakeIp FakeIpInv FakeIpOpen FakeIpWorld.

(** An address as the machine holds it. *)
Definition ip_wf (ip : IpAddr) : Prop :=
  match ip with
  | V4 b => 0 <= b < 2 ^ 32
  | V6 b => 0 <= b < 2 ^ 128
  end.

Lemma fake_bits_v6_of i : 0 <= i < FAKE_COUNT -> fake_bits (V6 (v6_of i)) = Some (FIRST + i).
Proof.
  intros Hi. unfold fake_bits. rewrite v6_of_segments by done.
  change ((64768 =? 64768) && _ && _ && _ && _ && _) with true. cbv iota.
  rewrite join_halves; [done|]. unfold FIRST, FAKE_COUNT in *. lia.
Qed.

Lemma segment_range bits n : 0 <= Z.shiftr bits n mod 65536 < 65536.
Proof. apply Z.mod_pos_bound. lia. Qed.

Lemma fake_bits_v6 b v : 0 <= b < 2 ^ 128 -> fake_bits (V6 b) = Some v ->
  b = v6_new [64768; 24914; 0; 0; 0; 0; v / 65536; v mod 65536].
Proof.
  intros Hb. rewrite <- (v6_new_segments b Hb) at 2. unfold fake_bits, segments. cbn [map].
  case_match eqn:Hc; [|done]. intros [= <-].
  rewrite !andb_true_iff, !Z.eqb_eq in Hc.
  destruct Hc as (((((-> & ->) & ->) & ->) & ->) & ->).
  pose proof (segment_range b (16 * 0)). pose proof (segment_range b (16 * 1)).
  rewrite lor_shiftl_add by lia. change (2 ^ 16) with 65536.
  f_equal. do 6 f_equal. f_equal; [|f_equal]; Z.div_mod_to_equations; lia.
Qed.

Lemma addresses_aux ip i : ip_wf ip ->
  (index_of ip = Some i <-> 0 <= i < FAKE_COUNT /\ (ip = V4 (v4_of i) \/ ip = V6 (v6_of i)))
  /\ (index_of ip = Some i -> in_space ip = true).
Proof.
  intros Hip.
  assert (Hbits : forall v, fake_bits ip = Some v -> v = FIRST + i -> 0 <= i < FAKE_COUNT ->
    ip = V4 (v4_of i) \/ ip = V6 (v6_of i)).
  { intros v Hv -> Hi. destruct ip as [b|b]; cbn [ip_wf] in Hip.
    - left. injection Hv as ->. by rewrite v4_of_small.
    - right. f_equal. rewrite v6_of_new by done. by apply fake_bits_v6. }
  assert (Hiff : index_of ip = Some i <-> 0 <= i < FAKE_COUNT /\ (ip = V4 (v4_of i) \/ ip = V6 (v6_of i))).
  { split.
    - intros Hi. pose proof (index_of_range _ _ Hi) as Hr. split; [done|].
      unfold index_of in Hi. apply bind_Some in Hi as (v & Hv & Hi).
      destruct (Z.ltb_spec v FIRST); [done|]. destruct (_ <? FAKE_COUNT); [|done].
      injection Hi as Hi. apply (Hbits v); [done|lia|done].
    - intros [Hr Hip']. assert (Hv : fake_bits ip = Some (FIRST + i)).
      { destruct Hip' as [-> | ->]; [by cbn [fake_bits]; rewrite v4_of_small|by apply fake_bits_v6_of]. }
      unfold index_of. rewrite Hv. cbn [mbind option_bind].
      rewrite (proj2 (Z.ltb_ge _ _)) by lia. rewrite (proj2 (Z.ltb_lt _ _)) by lia. f_equal. lia. }
  split; [done|]. intros [Hr [-> | ->]]%Hiff; unfold in_space, to_canonical.
  - rewrite v4_of_small by done. unfold octets; cbn [map]. rewrite !Z.shiftr_div_pow2 by lia.
    change (2 ^ (8 * 3)) with 16777216. change (2 ^ (8 * 2)) with 65536.
    unfold FIRST, FAKE_COUNT in *. apply andb_true_iff. rewrite orb_true_iff, !Z.eqb_eq.
    split; Z.div_mod_to_equations; lia.
  - rewrite v6_of_segments by done. change ((64768 =? 0) && _ && _ && _ && _ && _) with false.
    cbv iota. by rewrite v6_of_segments.
Qed.

Lemma index_of_both i : 0 <= i < FAKE_COUNT ->
  index_of (V4 (v4_of i)) = Some i /\ index_of (V6 (v6_of i)) = Some i.
Proof.
  intros Hi. assert (Hw : ip_wf (V4 (v4_of i)) /\ ip_wf (V6 (v6_of i))).
  { split; cbn [ip_wf].
    - rewrite v4_of_small by done. unfold FIRST, FAKE_COUNT in *. lia.
    - rewrite v6_of_new by done. unfold v6_new; cbn [fold_left].
      assert (0 <= (FIRST + i) / 65536 < 65536 /\ 0 <= (FIRST + i) mod 65536 < 65536)
        by (unfold FIRST, FAKE_COUNT in *; split; Z.div_mod_to_equations; lia). lia. }
  destruct Hw as [H4 H6]. split.
  - apply (addresses_aux _ i H4). by eauto.
  - apply (addresses_aux _ i H6). by eauto.
Qed.

(** The addresses of the pool are exactly the two forms of its indices:
    [index_of] answers [i] for the IPv4 address and for the IPv6 address of
    every index [i] below [FAKE_COUNT], and for no other address; each is in
    the space the pool takes for itself. *)
Theorem addresses_of_indices ip i : ip_wf ip ->
  (index_of ip = Some i <-> 0 <= i < FAKE_COUNT /\ (ip = V4 (v4_of i) \/ ip = V6 (v6_of i)))
  /\ (index_of ip = Some i -> in_space ip = true).
Proof. apply addresses_aux. Qed.

Lemma addresses_of_indices_witness :
  index_of (V6 (v6_of 130813)) = Some 130813 /\ in_space (V6 (v6_of 130813)) = true.
Proof.
  pose proof (addresses_of_indices (V6 (v6_of 130813)) 130813
    ltac:(vm_compute; split; congruence)) as [H1 H2].
  assert (index_of (V6 (v6_of 130813)) = Some 130813) as Hi by reflexivity.
  split; [exact Hi|exact (H2 Hi)].
Defined.

(** A table written to the file is read back: whatever the flag, [parse]
    of the bytes [render] writes gives the table and the flag, for a table
    whose indices are in range and distinct and whose names are normalized and
    distinct. *)
Theorem file_roundtrip t clean cnt : table_ok cnt t ->
  parse (utf8_encode (render t clean)) cnt = Ok (t, clean).
Proof. apply parse_render_aux. Qed.

Definition demo_table : Table :=
  mkTable 3 false [(1, lit "b.test"); (0, lit "a.test")].

Lemma demo_table_ok : table_ok 8 demo_table.
Proof.
  split; [cbn; lia|]. split; [unfold u32_max; lia|]. split.
  - repeat (constructor; [unfold entry_ok; cbn; split; [lia|]; split; [lia|by vm_compute]|]). constructor.
  - split; repeat (constructor; [by rewrite ?elem_of_cons, elem_of_nil; intros Hin; destruct_or?|]); constructor.
Qed.

Lemma file_roundtrip_witness : parse (utf8_encode (render demo_table true)) 8 = Ok (demo_table, true).
Proof. apply (file_roundtrip demo_table true 8). exact demo_table_ok. Defined.

(** [parse] takes no file that could break the pool: what it accepts, of
    any bytes at all, has its cursor and every index in range, no index and no
    name twice, and only normalized names. *)
Theorem file_accepts_tables bytes cnt t clean : 0 <= cnt <= u32_max ->
  parse bytes cnt = Ok (t, clean) -> table_ok cnt t.
Proof. apply parse_sound_aux. Qed.

Lemma file_accepts_tables_witness : table_ok 8 demo_table.
Proof.
  apply (file_accepts_tables (utf8_encode (render demo_table true)) 8 demo_table true).
  - unfold u32_max. lia.
  - vm_compute. reflexivity.
Defined.

(** ** The pool *)

Section props.
Context `{LruLaws Z unit}.

(** Opening a pool never panics, whatever the file's bytes and whether or
    not it can be read and written: the state is well formed, what is held
    back stays so for [QUARANTINE] from then on, no lease is held, and the
    bytes written are the table just made, marked unclean (a file that could
    not be read is left as it is). *)
Theorem open_total read write_ok now cnt quarantine : 0 <= cnt ->
  exists s loaded wrote,
    open_sized read write_ok now cnt quarantine = Some (s, loaded, wrote)
    /\ inv ∅ s /\ count s = Z.min cnt FAKE_COUNT /\ leases s = ∅
    /\ (held s <> [] -> held_until s = Some (now + QUARANTINE))
    /\ written write_ok s loaded wrote.
Proof.
  intros Hcnt.
  destruct (open_sized_inv read write_ok now cnt quarantine Hcnt)
    as (s0 & loaded & s & l & wrote & _ & Ho & _ & Hs & Hc & Hl & _ & Hu & _ & _ & Hw).
  by exists s, loaded, wrote.
Qed.

(** What opening makes of a file that reads: every name of the file keeps
    its index, unless the unclean stop takes the index back to hold it; every
    index the allocator had been through and the file has no name for is held
    back; after a clean stop nothing else is, after an unclean one [quarantine]
    more are, or all there are. *)
Theorem open_restores bytes t clean write_ok now cnt quarantine :
  0 <= cnt <= FAKE_COUNT -> parse bytes cnt = Ok (t, clean) ->
  exists s l wrote,
    open_sized (ReadOk bytes) write_ok now cnt quarantine
      = Some (s, (if clean then Clean else Unclean), wrote)
    /\ (forall i n, 0 <= i -> i ∉ l -> nm s i = Some n <-> (i, n) ∈ t_entries t)
    /\ (forall i, 0 <= i < bound_of cnt t -> i ∉ (t_entries t).*1 -> i ∈ held s)
    /\ (forall i, i ∈ held s -> i ∈ l \/ 0 <= i < bound_of cnt t /\ i ∉ (t_entries t).*1)
    /\ (if clean then l = [] else held_enough (Z.to_nat quarantine) l s).
Proof.
  intros Hcnt Hp.
  destruct (open_sized_inv (ReadOk bytes) write_ok now cnt quarantine ltac:(lia))
    as (s0 & loaded & s & l & wrote & Hload & Ho & _ & Hs & _ & _ & Hh & _ & Hnm & Hen & _).
  rewrite Z.min_l in Hload by lia. cbn [load] in Hload. rewrite Hp in Hload.
  assert (Htok : table_ok cnt t).
  { eapply parse_sound_aux; [|done]. unfold FAKE_COUNT, u32_max in *. lia. }
  destruct (restore_inv _ _ Hcnt Htok) as (s1 & Hr & Hs1 & _ & Hidle & _ & _ & Hls & _ & _ & Hall & Hheld).
  rewrite Hr in Hload.
  assert (s0 = s1 /\ loaded = if clean then Clean else Unclean) as [-> ->].
  { destruct clean; by injection Hload as <- <-. }
  exists s, l, wrote. split; [by destruct clean|]. split; [|split; [|split]].
  - intros i n Hi Hl. rewrite Hnm by done. rewrite Forall_forall in Hall. split; [|apply (Hall (i, n))].
    intros Hn. assert (i ∈ idle_keys s1) as Hin.
    { apply (inv_idle _ _ Hs1). rewrite Hls, lookup_empty. by eauto. }
    rewrite Hidle in Hin. apply elem_of_reverse, list_elem_of_fmap in Hin as ([j m] & -> & Hin).
    pose proof (Hall _ Hin) as Hm. cbn [fst snd] in *. by simplify_eq.
  - intros i Hi Hni. rewrite Hh, elem_of_app, Hheld. by left.
  - intros i. rewrite Hh, elem_of_app, Hheld. by intros [?|?]; [right|left].
  - destruct clean; [|done]. unfold held_enough in Hen. cbn [want_back] in Hen.
    destruct Hen as [?|[? _]]; [by apply nil_length_inv|lia].
Qed.

(** C3: the file a pool saves is the pool again: the table of a well-formed
    pool, written, read back and restored, gives every name the index it had,
    and saving that again gives the same entries in the same order. *)
Theorem save_then_open s t clean : inv ∅ s -> table s = Some t ->
  exists s',
    parse (utf8_encode (render t clean)) (count s) = Ok (t, clean)
    /\ restore (count s) t = Some s' /\ inv ∅ s'
    /\ (forall i, 0 <= i -> nm s' i = nm s i)
    /\ indices s' = indices s
    /\ exists t', table s' = Some t' /\ t_entries t' = t_entries t.
Proof.
  intros Hs Ht. pose proof (table_table_ok _ _ Hs Ht) as Htok.
  destruct (restore_inv _ _ (inv_count _ _ Hs) Htok)
    as (s' & Hr & Hs' & _ & Hidle & _ & _ & Hls & _ & _ & Hall & Hheld).
  exists s'. split; [by apply parse_render_aux|]. split; [done|]. split; [done|].
  assert (Hnm : forall i n, 0 <= i -> nm s' i = Some n <-> nm s i = Some n).
  { intros i n Hi. rewrite Forall_forall in Hall. pose proof (table_members _ _ _ Hs Ht i n) as Hmem.
    split.
    - intros Hn. apply Hmem. assert (i ∈ idle_keys s') as Hin.
      { apply (inv_idle _ _ Hs'). rewrite Hls, lookup_empty. by eauto. }
      rewrite Hidle in Hin. apply elem_of_reverse, list_elem_of_fmap in Hin as ([j m] & -> & Hin).
      pose proof (Hall _ Hin) as Hm. cbn [fst snd] in *. by simplify_eq.
    - intros Hn. by apply (Hall (i, n)), Hmem. }
  split; [|split].
  - intros i Hi. apply option_eq. intros n. by apply Hnm.
  - apply map_eq. intros n. apply option_eq. intros i.
    rewrite (inv_map _ _ Hs), (inv_map _ _ Hs'). split; intros [? ?]; (split; [done|]); by apply Hnm.
  - destruct (table_spec _ _ Hs') as (t' & Ht' & _ & _ & Hk & Hes). exists t'. split; [done|].
    rewrite Hidle, Hls, reverse_involutive in Hk. unfold sorted_keys in Hk.
    rewrite map_to_list_empty, app_nil_r in Hk. revert Hes Hall Hk. clear.
    generalize (t_entries t). induction (t_entries t') as [|[i n] es IH]; intros [|[j m] fs]; try done.
    intros [Hn Hes]%Forall_cons [Hm Hfs]%Forall_cons [= -> Hk]. cbn [fst snd] in *.
    rewrite Hn in Hm. injection Hm as ->. f_equal. by apply IH.
Qed.

(** C1: no sequence of calls, from any threads, panics or breaks the pool: from
    a well-formed pool whose leases are those held, any calls lead to such a
    pool again, as long as fewer than [2^32 - 1] leases are ever taken. *)
Theorem calls_total cs s : inv ∅ s -> leases s = ∅ -> Z.of_nat (takes cs) < u32_max ->
  exists w, calls cs (mkWorld s []) = Some w /\ inv ∅ (pool w)
    /\ forall i, default 0 (leases (pool w) !! i) = times i (out w).
Proof.
  intros Hs Hl Hlen. destruct (calls_winv cs (mkWorld s [])) as (w & Hw & [Hinv Hcount _]); [|simpl; lia|].
  - split; simpl; [done| |unfold u32_max; lia]. intros i. by rewrite Hl, lookup_empty.
  - by exists w.
Qed.

(** C2: an index a lease is held on is never taken back: whatever calls are
    made while it is held, looking its address up gives the same name, over
    IPv4 and IPv6. *)
Theorem leased_keeps_name i n w w' :
  winv w -> 0 <= i < FAKE_COUNT -> nm (pool w) i = Some n -> leased_steps i w w' ->
  (name_of (V4 (v4_of i)) (pool w')).1 = Some n /\ (name_of (V6 (v6_of i)) (pool w')).1 = Some n.
Proof.
  intros Hw Hi Hn Hst. destruct (leased_steps_keep _ _ _ Hw Hst) as [_ Hn']. rewrite Hn in Hn'.
  assert (Hat : forall ip, index_of ip = Some i -> (name_of ip (pool w')).1 = Some n).
  { intros ip Hip. unfold name_of, name_at. rewrite Hip. cbn [mbind option_bind].
    unfold nm in Hn'. apply bind_Some in Hn' as (o & -> & Ho). simpl in Ho. by rewrite Ho. }
  split; apply Hat; by apply index_of_both.
Qed.

(** What [assign] answers for a name, on every path.  A name that has an
    index gets it; any other gets the index [victim] picks, which nobody holds
    a lease on, which is from then on this name's, and which costs nobody but
    that index its name; when there is none, every index is held back or
    leased and nothing changes.  An index held back is not handed out before
    its time, and a name just asked for is the last to be recycled. *)
Theorem assign_answers s name n now : inv ∅ s -> normalize name = Some n ->
  match indices s !! n, victim now s with
  | Some i, _ => exists s', assign name now s = Some (Ok i, s') /\ inv ∅ s'
      /\ (forall j, nm s' j = nm s j) /\ (leases s !! i = None -> head (idle_keys s') = Some i)
  | None, Some i => exists s', assign name now s = Some (Ok i, s') /\ inv ∅ s'
      /\ leases s !! i = None /\ 0 <= i < count s
      /\ (forall j, 0 <= j -> nm s' j = if decide (i = j) then Some n else nm s j)
      /\ (i ∈ held s -> exists until, held_until s = Some until /\ until <= now)
      /\ head (idle_keys s') = Some i /\ dirty s' = true
  | None, None => assign name now s = Some (Err Exhausted, s)
      /\ forall i, 0 <= i < count s -> i ∈ held s \/ is_Some (leases s !! i)
  end.
Proof.
  intros Hs Hn. destruct (indices s !! n) as [i|] eqn:Hi.
  - exists (refresh i s). unfold assign. rewrite Hn, Hi. split; [done|].
    split; [by apply refresh_inv|]. split; [done|]. intros Hl.
    apply (inv_map _ _ Hs) in Hi as [H0i Hnm]. unfold idle_keys; simpl. rewrite idle_promote_keys.
    rewrite decide_True; [done|]. apply (inv_idle _ _ Hs). by eauto.
  - pose proof (assign_new s name n now Hs Hn Hi) as Hnew. destruct (victim now s) as [i|]; [|done].
    destruct Hnew as (s' & ? & ? & ? & ? & ? & Hheld & _ & _ & _ & _ & _ & ? & ?).
    exists s'. repeat (split; [done|]). split; [|done]. intros Hin. destruct (Hheld Hin) as (t & ? & ? & _).
    by exists t.
Qed.

End props.

(** ** Instances *)

(** A pool of eight addresses, opened on [demo_table]; and one with a lease on
    address number 1. *)
Definition demo_state : State := default (new 8) (restore 8 demo_table).

Lemma demo_state_inv : inv ∅ demo_state /\ leases demo_state = ∅ /\ count demo_state = 8.
Proof.
  destruct (restore_inv 8 demo_table) as (s & Hr & Hs & Hc & _ & _ & _ & Hl & _);
    [unfold FAKE_COUNT; lia|exact demo_table_ok|].
  unfold demo_state. by rewrite Hr.
Qed.

Definition demo_world : World :=
  default (mkWorld demo_state []) (calls [TakeLease (V4 (v4_of 1))] (mkWorld demo_state [])).

Lemma demo_world_inv : winv demo_world.
Proof.
  destruct demo_state_inv as (Hs & Hl & _).
  destruct (calls_winv [TakeLease (V4 (v4_of 1))] (mkWorld demo_state [])) as (w & Hw & Hinv).
  - split; cbn [pool out]; [done| |by vm_compute]. intros i. by rewrite Hl, lookup_empty.
  - vm_compute. reflexivity.
  - unfold demo_world. by rewrite Hw.
Qed.

Lemma open_total_witness : exists (s : State) loaded wrote,
  open_sized (ReadOk [1; 2; 3]) true 0 16 4 = Some (s, loaded, wrote) /\ length (held s) = 4%nat.
Proof.
  destruct (open_total (ReadOk [1; 2; 3]) true 0 16 4) as (s & loaded & wrote & Ho & _); [lia|].
  exists s, loaded, wrote. split; [exact Ho|].
  assert (He : (prod_map (fun p => length (held p.1)) id) <$> open_sized (ReadOk [1; 2; 3]) true 0 16 4
    = Some (4%nat, None)) by (vm_compute; reflexivity).
  rewrite Ho in He. cbn in He. congruence.
Defined.

Lemma open_restores_witness : exists (s : State) l wrote,
  open_sized (ReadOk (utf8_encode (render demo_table false))) true 0 8 2
    = Some (s, Unclean, wrote) /\ held_enough 2 l s /\ (0 ∈ l \/ nm s 0 = Some (lit "a.test")).
Proof.
  destruct (open_restores (utf8_encode (render demo_table false)) demo_table false true 0 8 2)
    as (s & l & wrote & Ho & Hn & _ & _ & Hen).
  - unfold FAKE_COUNT. lia.
  - vm_compute. reflexivity.
  - exists s, l, wrote. split; [exact Ho|]. split; [exact Hen|].
    destruct (decide (0 ∈ l)) as [?|Hl]; [by left|right]. apply Hn; [lia|exact Hl|right; left].
Defined.

Lemma save_then_open_witness : exists s' : State,
  restore 8 demo_table = Some s' /\ indices s' = indices demo_state.
Proof.
  destruct demo_state_inv as (Hs & _ & Hc).
  destruct (save_then_open demo_state demo_table true Hs) as (s' & _ & Hr & _ & _ & Hi & _).
  - vm_compute. reflexivity.
  - exists s'. rewrite Hc in Hr. split; [exact Hr|exact Hi].
Defined.

Lemma calls_total_witness : exists w : World,
  calls [Assign (lit "C.test.") 0; TakeLease (V4 (v4_of 3)); Assign (lit "d.test") 0; DropLease 3;
         TakeIfDirty; NameOf (V6 (v6_of 0))] (mkWorld demo_state []) = Some w
  /\ inv ∅ (pool w).
Proof.
  destruct demo_state_inv as (Hs & Hl & _).
  destruct (calls_total [Assign (lit "C.test.") 0; TakeLease (V4 (v4_of 3)); Assign (lit "d.test") 0;
    DropLease 3; TakeIfDirty; NameOf (V6 (v6_of 0))] demo_state Hs Hl) as (w & Hw & Hi & _).
  - vm_compute. reflexivity.
  - exists w. split; [exact Hw|exact Hi].
Defined.

Lemma leased_keeps_name_witness : exists w' : World,
  call (Assign (lit "c.test") 0) demo_world = Some w'
  /\ (name_of (V6 (v6_of 1)) (pool w')).1 = Some (lit "b.test").
Proof.
  destruct (call (Assign (lit "c.test") 0) demo_world) as [w'|] eqn:E;
    [|vm_compute in E; discriminate E].
  exists w'. split; [reflexivity|].
  apply (leased_keeps_name 1 (lit "b.test") demo_world w' demo_world_inv).
  - unfold FAKE_COUNT. lia.
  - vm_compute. reflexivity.
  - eapply leased_step; [vm_compute; left|vm_compute; reflexivity|exact E|apply leased_refl].
Defined.

Lemma assign_answers_witness : exists s' : State,
  assign (lit "c.test") 0 demo_state = Some (Ok 3, s') /\ nm s' 3 = Some (lit "c.test").
Proof.
  destruct demo_state_inv as (Hs & _ & _).
  pose proof (assign_answers demo_state (lit "c.test") (lit "c.test") 0 Hs) as Ha.
  assert (Hn : normalize (lit "c.test") = Some (lit "c.test")) by (vm_compute; reflexivity).
  specialize (Ha Hn).
  assert (Hi : indices demo_state !! lit "c.test" = None) by (vm_compute; reflexivity).
  assert (Hv : victim 0 demo_state = Some 3) by (vm_compute; reflexivity).
  rewrite Hi, Hv in Ha. destruct Ha as (s' & Ha & _ & _ & _ & Hnm & _).
  exists s'. split; [exact Ha|]. apply Hnm. lia.
Defined.
