(* ===== verification/H3Frame.v ===== *)
(** * HTTP/3 frames

    [crates/rurge-net/src/quic/h3/frame.rs]: QUIC's variable-length integers,
    the server's SETTINGS, and [FrameReader], which reads a stream frame by
    frame.  The stream is quinn's [RecvStream]: here any [R] with a
    [poll_read], which may have nothing yet ([Pending]), and of which
    [RecvLaws] says what the reader relies on. *)

From S2P Require Import Prelude.

(** ** Variable-length integers *)

Definition VARINT_MAX : Z := Z.shiftl 1 62 - 1.

Definition varint_len (buf : list Z) : nat :=
  match buf with
  | [] => 1
  | first :: _ => Z.to_nat (Z.shiftl 1 (Z.shiftr first 6))
  end.

Definition get_varint (buf : list Z) : option (Z * nat) :=
  let len := varint_len buf in
  if decide (len <= length buf)%nat then
    match take len buf with
    | [] => None
    | b0 :: bytes =>
        Some (fold_left (fun value byte => Z.lor (Z.shiftl value 8 mod 2 ^ 64) byte) bytes (Z.land b0 63), len)
    end
  else None.

(** The big-endian bytes of an [n]-byte integer ([put_u8] to [put_u64]). *)
Fixpoint be_bytes (n : nat) (v : Z) : list Z :=
  match n with
  | O => []
  | S n => be_bytes n (Z.shiftr v 8) ++ [v mod 256]
  end.

Definition put_varint (value : Z) : list Z :=
  if value <=? 63 then be_bytes 1 value
  else if value <=? 16383 then be_bytes 2 (Z.lor 16384 value)
  else if value <=? 1073741823 then be_bytes 4 (Z.lor 2147483648 value)
  else be_bytes 8 (Z.lor 13835058055282163712 value).

Definition frame (ty : Z) (payload : list Z) : list Z :=
  put_varint ty ++ put_varint (Z.of_nat (length payload)) ++ payload.

Definition DATA : Z := 0.

(** [data_header]: the array, as the nine bytes and how many are used. *)
Definition data_header (len : Z) : list Z * nat :=
  let written := put_varint DATA ++ put_varint len in
  (written ++ replicate (9 - length written) 0, length written).

Definition is_http2_only (ty : Z) : bool := (ty =? 2) || (ty =? 6) || (ty =? 8) || (ty =? 9).

(** ** SETTINGS *)

Definition SETTINGS_ENABLE_CONNECT_PROTOCOL : Z := 8.
Definition SETTINGS_H3_DATAGRAM : Z := 51.

(** The codes [H3Error::new] is given; the texts are left out. *)
Inductive H3Error : Type := FrameError | SettingsError.

Fixpoint settings_get (pairs : list (Z * Z)) (id : Z) : option Z :=
  match pairs with
  | [] => None
  | (sent, value) :: pairs => if sent =? id then Some value else settings_get pairs id
  end.

(** [Settings::decode]; [None] is fuel used up. *)
Fixpoint settings_loop (fuel : nat) (payload : list Z) (seen : gset Z) (pairs : list (Z * Z))
  : option (res H3Error (list (Z * Z))) :=
  match payload with
  | [] => Some (Ok pairs)
  | _ =>
      match fuel with
      | O => None
      | S fuel =>
          match get_varint payload with
          | None => Some (Err FrameError)
          | Some (id, n) =>
              match get_varint (drop n payload) with
              | None => Some (Err FrameError)
              | Some (value, m) =>
                  let payload := drop (n + m) payload in
                  if (2 <=? id) && (id <=? 5) then Some (Err SettingsError)
                  else if ((id =? SETTINGS_ENABLE_CONNECT_PROTOCOL) || (id =? SETTINGS_H3_DATAGRAM))
                          && (1 <? value)
                  then Some (Err SettingsError)
                  else if decide (id ∈ seen) then Some (Err SettingsError)
                  else settings_loop fuel payload ({[id]} ∪ seen) (pairs ++ [(id, value)])
              end
          end
      end
  end.

Definition settings_decode (payload : list Z) : option (res H3Error (list (Z * Z))) :=
  settings_loop (length payload) payload ∅ [].

(** ** Reading a stream frame by frame *)

Inductive Poll (A : Type) : Type :=
| Ready (a : A)
| Pending.
Arguments Ready {A} a.
Arguments Pending {A}.

(** quinn's [RecvStream]: a read of at most [max] bytes, [Ok []] at the end. *)
Class RecvStream (R E : Type) := {
  poll_read : R -> nat -> Poll (res E (list Z)) * R;
}.

Definition CHUNK : nat := Z.to_nat 16384.

Section reader.
Context {R E : Type} `{RecvStream R E}.

Inductive ReadFailure : Type :=
| Stream (e : E)
| Truncated.

Record FrameReader := mkReader {
  recv : R;
  buf : list Z;
  end_ : bool;
}.

(** What a poll of the reader gives: an answer and the reader after it;
    [None] is fuel used up. *)
Definition Polled (A : Type) : Type := option (Poll (res ReadFailure A) * FrameReader).

Definition advance (n : nat) (r : FrameReader) : FrameReader :=
  mkReader (recv r) (drop n (buf r)) (end_ r).

(** [ready!(..)?]. *)
Definition ready {A B : Type} (p : Polled A) (k : A -> FrameReader -> Polled B) : Polled B :=
  match p with
  | None => None
  | Some (Pending, r) => Some (Pending, r)
  | Some (Ready (Err e), r) => Some (Ready (Err e), r)
  | Some (Ready (Ok a), r) => k a r
  end.

Definition poll_more (max : nat) (r : FrameReader) : Polled nat :=
  if end_ r then Some (Ready (Ok O), r)
  else
    let '(read, s) := poll_read (recv r) max in
    match read with
    | Ready (Ok []) => Some (Ready (Ok O), mkReader s (buf r) true)
    | Ready (Ok bytes) => Some (Ready (Ok (length bytes)), mkReader s (buf r ++ bytes) (end_ r))
    | Ready (Err e) => Some (Ready (Err (Stream e)), mkReader s (buf r) (end_ r))
    | Pending => Some (Pending, mkReader s (buf r) (end_ r))
    end.

Fixpoint poll_fill_loop (fuel want : nat) (r : FrameReader) : Polled bool :=
  if decide (length (buf r) < want)%nat then
    match fuel with
    | O => None
    | S fuel =>
        ready (poll_more (want - length (buf r)) r) (fun n r =>
          if decide (n = O) then Some (Ready (Ok false), r) else poll_fill_loop fuel want r)
    end
  else Some (Ready (Ok true), r).

Definition poll_fill (want : nat) (r : FrameReader) : Polled bool := poll_fill_loop want want r.

Definition ended {A : Type} (r : FrameReader) : Polled (option A) :=
  match buf r with
  | [] => Some (Ready (Ok None), r)
  | _ => Some (Ready (Err Truncated), r)
  end.

(** The loops of [poll_varint] and [poll_header] take more bytes each time
    round, and no more than two integers have. *)
Fixpoint poll_varint_loop (fuel : nat) (r : FrameReader) : Polled (option Z) :=
  match get_varint (buf r) with
  | Some (value, n) => Some (Ready (Ok (Some value)), advance n r)
  | None =>
      match fuel with
      | O => None
      | S fuel =>
          ready (poll_fill (varint_len (buf r)) r) (fun filled r =>
            if negb filled then ended r else poll_varint_loop fuel r)
      end
  end.

Definition poll_varint (r : FrameReader) : Polled (option Z) := poll_varint_loop 8 r.

Record Header := mkHeader { ty : Z; len : Z }.

Definition header_want (b : list Z) : Header * nat + nat :=
  match get_varint b with
  | None => inr (varint_len b)
  | Some (ty, n) =>
      match get_varint (drop n b) with
      | Some (len, m) => inl (mkHeader ty len, (n + m)%nat)
      | None => inr (n + varint_len (drop n b))%nat
      end
  end.

Fixpoint poll_header_loop (fuel : nat) (r : FrameReader) : Polled (option Header) :=
  match header_want (buf r) with
  | inl (h, n) => Some (Ready (Ok (Some h)), advance n r)
  | inr want =>
      match fuel with
      | O => None
      | S fuel =>
          ready (poll_fill want r) (fun filled r =>
            if negb filled then ended r else poll_header_loop fuel r)
      end
  end.

Definition poll_header (r : FrameReader) : Polled (option Header) := poll_header_loop 16 r.

Definition poll_payload (n : nat) (r : FrameReader) : Polled (list Z) :=
  ready (poll_fill n r) (fun filled r =>
    if negb filled then Some (Ready (Err Truncated), r)
    else Some (Ready (Ok (take n (buf r))), advance n r)).

(** [poll_skip]: [left] is the caller's count, counted down here. *)
Fixpoint poll_skip (fuel : nat) (left : nat) (r : FrameReader) : option (Poll (res ReadFailure unit) * nat * FrameReader) :=
  match left with
  | O => Some (Ready (Ok tt), O, r)
  | _ =>
      match fuel with
      | O => None
      | S fuel =>
          let skip r :=
            let n := Nat.min left (length (buf r)) in
            poll_skip fuel (left - n) (advance n r) in
          match buf r with
          | [] =>
              match poll_more (Nat.min left CHUNK) r with
              | None => None
              | Some (Pending, r) => Some (Pending, left, r)
              | Some (Ready (Err e), r) => Some (Ready (Err e), left, r)
              | Some (Ready (Ok O), r) => Some (Ready (Err Truncated), left, r)
              | Some (Ready (Ok _), r) => skip r
              end
          | _ => skip r
          end
      end
  end.

(** [poll_data]: the bytes put into [out], which has room for [remaining]. *)
Definition poll_data (remaining left : nat) (r : FrameReader)
  : Poll (res ReadFailure (list Z)) * nat * FrameReader :=
  let room := Nat.min left remaining in
  match room, buf r with
  | O, _ => (Ready (Ok []), left, r)
  | _, _ :: _ =>
      let n := Nat.min room (length (buf r)) in
      (Ready (Ok (take n (buf r))), (left - n)%nat, advance n r)
  | _, [] =>
      if end_ r then (Ready (Err Truncated), left, r)
      else
        let '(read, s) := poll_read (recv r) room in
        match read with
        | Pending => (Pending, left, mkReader s [] (end_ r))
        | Ready (Err e) => (Ready (Err (Stream e)), left, mkReader s [] (end_ r))
        | Ready (Ok []) => (Ready (Err Truncated), left, mkReader s [] true)
        | Ready (Ok bytes) => (Ready (Ok bytes), (left - length bytes)%nat, mkReader s [] (end_ r))
        end
  end.

(** [poll_drain]. *)
Fixpoint poll_drain (fuel : nat) (r : FrameReader) : Polled unit :=
  match fuel with
  | O => None
  | S fuel =>
      let r := mkReader (recv r) [] (end_ r) in
      ready (poll_more CHUNK r) (fun n r =>
        if decide (n = O) then Some (Ready (Ok tt), r) else poll_drain fuel r)
  end.

End reader.
