(* ===== verification/H3FrameProps.v ===== *)
(** * What HTTP/3 framing promises

    Properties of [crates/rurge-net/src/quic/h3/frame.rs]: the integers round
    trip, SETTINGS takes exactly the lists it should, and [FrameReader] gives
    the same frames however the stream's bytes arrive. *)

From S2P Require Import Prelude H3Frame.

(** ** Integers *)

Lemma be_bytes_length n v : length (be_bytes n v) = n.
Proof. revert v. induction n as [|n IH]; intros v; [done|]. cbn [be_bytes]. rewrite length_app, IH; simpl; lia. Qed.

Lemma be_bytes_head n v : be_bytes (S n) v = v / 256 ^ Z.of_nat n mod 256 :: be_bytes n v.
Proof.
  revert v. induction n as [|n IH]; intros v.
  - cbn. by rewrite Z.div_1_r.
  - change (be_bytes (S (S n)) v) with (be_bytes (S n) (Z.shiftr v 8) ++ [v mod 256]).
    rewrite IH. change (be_bytes (S n) v) with (be_bytes n (Z.shiftr v 8) ++ [v mod 256]).
    rewrite Z.shiftr_div_pow2 by lia. change (2 ^ 8) with 256. cbn [app]. f_equal.
    rewrite Z.div_div by lia. do 2 f_equal. rewrite Nat2Z.inj_succ, Z.pow_succ_r by lia. done.
Qed.

Definition varint_push (value byte : Z) : Z := Z.lor (Z.shiftl value 8 mod 2 ^ 64) byte.

Lemma varint_push_small value byte : 0 <= value < 2 ^ 56 -> is_byte byte ->
  varint_push value byte = value * 256 + byte.
Proof.
  intros Hv Hb. unfold varint_push. rewrite Z.mod_small by (rewrite Z.shiftl_mul_pow2 by lia; lia).
  by rewrite lor_shiftl_add.
Qed.

Lemma be_bytes_fold n v acc : 0 <= acc -> acc * 256 ^ Z.of_nat n + 256 ^ Z.of_nat n <= 2 ^ 64 ->
  fold_left varint_push (be_bytes n v) acc = acc * 256 ^ Z.of_nat n + v mod 256 ^ Z.of_nat n.
Proof.
  revert v. induction n as [|n IH]; intros v Ha Hb.
  - cbn. rewrite Z.mod_1_r. lia.
  - cbn [be_bytes]. rewrite fold_left_app. rewrite Nat2Z.inj_succ, Z.pow_succ_r in * by lia.
    pose proof (Z.pow_pos_nonneg 256 (Z.of_nat n) ltac:(lia) ltac:(lia)) as Hp.
    rewrite IH by lia. cbn [fold_left]. rewrite Z.shiftr_div_pow2 by lia. change (2 ^ 8) with 256.
    pose proof (Z.mod_pos_bound (v / 256) (256 ^ Z.of_nat n) Hp).
    rewrite varint_push_small; [|lia|apply Z.mod_pos_bound; lia].
    rewrite Z.rem_mul_r by lia. lia.
Qed.

(** An integer of [n] bytes, its two first bits [k]. *)
Lemma get_varint_be n k v rest :
  (1 <= n <= 8)%nat -> 0 <= k < 4 -> n = Z.to_nat (Z.shiftl 1 k) -> 0 <= v < 64 * 256 ^ Z.of_nat (pred n) ->
  get_varint (be_bytes n (k * (64 * 256 ^ Z.of_nat (pred n)) + v) ++ rest) = Some (v, n).
Proof.
  intros Hn Hk Hlen Hv. destruct n as [|n]; [lia|]. cbn [pred] in *.
  set (M := 256 ^ Z.of_nat n) in *.
  assert (HM : 0 < M) by (apply Z.pow_pos_nonneg; lia).
  set (w := k * (64 * M) + v).
  assert (Hw : 0 <= w / M < 256).
  { split; [apply Z.div_pos; lia|apply Z.div_lt_upper_bound; nia]. }
  assert (Hwm : w / M = k * 64 + v / M).
  { subst w. replace (k * (64 * M) + v) with (v + (k * 64) * M) by lia. rewrite Z.div_add by lia. lia. }
  assert (Hvm : 0 <= v / M < 64).
  { split; [apply Z.div_pos; lia|apply Z.div_lt_upper_bound; lia]. }
  unfold get_varint. rewrite be_bytes_head. fold M. rewrite Z.mod_small by done. cbn [app varint_len].
  assert (Hs : Z.shiftr (w / M) 6 = k).
  { rewrite Hwm, Z.shiftr_div_pow2 by lia. change (2 ^ 6) with 64.
    rewrite Z.add_comm, Z.div_add, Z.div_small by lia. lia. }
  rewrite Hs, <- Hlen. cbn [length]. rewrite length_app, be_bytes_length. rewrite decide_True by lia.
  cbn [take]. rewrite take_app_length' by (by rewrite be_bytes_length).
  fold varint_push. change 63 with (Z.ones 6). rewrite Z.land_ones by lia. change (2 ^ 6) with 64.
  assert (Hmod : (w / M) mod 64 = v / M).
  { rewrite Hwm, Z.add_comm, Z.mod_add by lia. by apply Z.mod_small. }
  rewrite Hmod, be_bytes_fold; fold M; [|lia|].
  - f_equal. f_equal. subst w. replace (k * (64 * M) + v) with (v + (k * 64) * M) by lia.
    rewrite Z.mod_add by lia. pose proof (Z.div_mod v M ltac:(lia)). lia.
  - assert (M <= 256 ^ 7) by (apply Z.pow_le_mono_r; lia).
    change (2 ^ 64) with (256 * 256 ^ 7). nia.
Qed.

Lemma put_varint_be v : 0 <= v <= VARINT_MAX ->
  exists n k, (1 <= n <= 8)%nat /\ 0 <= k < 4 /\ n = Z.to_nat (Z.shiftl 1 k)
    /\ 0 <= v < 64 * 256 ^ Z.of_nat (pred n)
    /\ put_varint v = be_bytes n (k * (64 * 256 ^ Z.of_nat (pred n)) + v).
Proof.
  unfold VARINT_MAX. change (Z.shiftl 1 62 - 1) with 4611686018427387903. intros Hv. unfold put_varint.
  assert (Hor : forall k n, 0 <= n -> 0 <= v < 2 ^ n -> Z.lor (Z.shiftl k n) v = k * 2 ^ n + v)
    by (intros; by apply lor_shiftl_add).
  destruct (Z.leb_spec v 63); [exists 1%nat, 0|destruct (Z.leb_spec v 16383); [exists 2%nat, 1|
    destruct (Z.leb_spec v 1073741823); [exists 4%nat, 2|exists 8%nat, 3]]];
    (split; [lia|]; split; [lia|]; split; [reflexivity|]; split; [cbn; lia|]).
  - done.
  - change 16384 with (Z.shiftl 1 14). rewrite Hor by lia. done.
  - change 2147483648 with (Z.shiftl 2 30). rewrite Hor by lia. done.
  - change 13835058055282163712 with (Z.shiftl 3 62). rewrite Hor by lia. done.
Qed.

Lemma get_put_varint v rest : 0 <= v <= VARINT_MAX ->
  get_varint (put_varint v ++ rest) = Some (v, length (put_varint v)).
Proof.
  intros Hv. destruct (put_varint_be v Hv) as (n & k & Hn & Hk & Hlen & Hr & ->).
  rewrite be_bytes_length. by apply get_varint_be.
Qed.

Lemma put_varint_length v : (1 <= length (put_varint v) <= 8)%nat.
Proof.
  unfold put_varint. repeat case_match; rewrite be_bytes_length; lia.
Qed.

(** More bytes never change an integer that is whole. *)
Lemma varint_len_app b c : b <> [] -> varint_len (b ++ c) = varint_len b.
Proof. by destruct b. Qed.

Lemma get_varint_Some b v n : get_varint b = Some (v, n) -> n = varint_len b /\ (0 < n <= length b)%nat.
Proof.
  unfold get_varint. case_decide as Hd; [|done]. destruct (take (varint_len b) b) as [|x l] eqn:Ht; [done|].
  intros [= _ <-]. split; [done|]. split; [|done]. destruct (varint_len b); [done|lia].
Qed.

Lemma get_varint_app b c v n : get_varint b = Some (v, n) -> get_varint (b ++ c) = Some (v, n).
Proof.
  intros Hg. pose proof (get_varint_Some _ _ _ Hg) as [-> Hl].
  assert (b <> []) by (intros ->; simpl in Hl; lia). revert Hg. unfold get_varint.
  rewrite varint_len_app, length_app by done. rewrite !decide_True by lia. by rewrite take_app_le by lia.
Qed.

Lemma varint_len_pos b : bytes_ok b -> (1 <= varint_len b <= 8)%nat.
Proof.
  intros Hb. destruct b as [|x b]; [simpl; lia|]. apply Forall_cons in Hb as [Hx _]. unfold varint_len.
  assert (Hs : 0 <= Z.shiftr x 6 < 4).
  { rewrite Z.shiftr_div_pow2 by lia. change (2 ^ 6) with 64. unfold is_byte in Hx. Z.div_mod_to_equations; lia. }
  rewrite Z.shiftl_1_l. assert (Z.shiftr x 6 = 0 \/ Z.shiftr x 6 = 1 \/ Z.shiftr x 6 = 2 \/ Z.shiftr x 6 = 3)
    as [-> | [-> | [-> | ->]]] by lia; cbn; lia.
Qed.

Lemma get_varint_None b : bytes_ok b -> get_varint b = None -> (length b < varint_len b)%nat.
Proof.
  intros Hb. pose proof (varint_len_pos b Hb). unfold get_varint. case_decide as Hd; [|lia].
  destruct (take (varint_len b) b) as [|x l] eqn:Ht; [|done].
  apply (f_equal length) in Ht. rewrite length_take in Ht. simpl in Ht. lia.
Qed.

(** ** The stream, and the reader over it *)

(** What the reader relies on: a read gives the next bytes of the stream, at
    most as many as asked for, and none only at its end; a read that has to
    wait takes nothing. *)
Class RecvLaws (R E : Type) `{RecvStream R E} := {
  content : R -> list Z;
  read_bytes r max bs r' : poll_read r max = (Ready (Ok bs), r') ->
    (length bs <= max)%nat /\ content r = bs ++ content r' /\ (bs = [] -> (0 < max)%nat -> content r = []);
  read_waits r max r' : poll_read r max = (Pending, r') -> content r' = content r;
  content_ok r : bytes_ok (content r);
}.

Section reader.
Context {R E : Type} `{RecvLaws R E}.
Implicit Types (r : FrameReader (R := R)).

(** The bytes not yet taken: those in the buffer and those to come. *)
Definition unread r : list Z := buf r ++ (if end_ r then [] else content (recv r)).

Definition reader_ok r : Prop := bytes_ok (buf r).

Lemma unread_ok r : reader_ok r -> bytes_ok (unread r).
Proof. intros Hr. apply Forall_app. split; [done|]. destruct (end_ r); [constructor|apply content_ok]. Qed.

Lemma advance_unread n r : (n <= length (buf r))%nat -> unread (advance n r) = drop n (unread r).
Proof. intros Hn. unfold unread, advance; simpl. by rewrite drop_app_le. Qed.

Lemma advance_ok n r : reader_ok r -> reader_ok (advance n r).
Proof. apply Forall_drop. Qed.

(** What a poll that does not answer leaves: the bytes not yet taken. *)
Definition kept r (p : Poll (res (ReadFailure (E := E)) unit)) r' : Prop :=
  reader_ok r' /\ match p with
  | Ready (Err (Stream _)) => buf r `prefix_of` buf r'
  | _ => unread r' = unread r
  end.

Lemma poll_more_spec max r : (0 < max)%nat -> reader_ok r ->
  exists p r', poll_more max r = Some (p, r') /\ reader_ok r' /\ buf r `prefix_of` buf r' /\
  match p with
  | Ready (Ok n) => unread r' = unread r /\ length (buf r') = (length (buf r) + n)%nat /\ (n <= max)%nat
      /\ (n = O -> unread r = buf r)
  | Ready (Err Truncated) => False
  | Ready (Err (Stream _)) => True
  | Pending => unread r' = unread r
  end.
Proof.
  intros Hmax Hr. unfold poll_more. destruct (end_ r) eqn:He.
  - exists (Ready (Ok O)), r. split; [done|]. split; [done|]. split; [done|]. split; [done|].
    split; [lia|]. split; [lia|]. intros _. unfold unread. rewrite He. apply app_nil_r.
  - destruct (poll_read (recv r) max) as [[[bs|e]|] s'] eqn:Hrd.
    + destruct (read_bytes _ _ _ _ Hrd) as (Hl & Hc & Hn). pose proof (content_ok (recv r)) as Hco.
      rewrite Hc in Hco. apply Forall_app in Hco as [Hbs _].
      destruct bs as [|b bs]; eexists _, _; (split; [reflexivity|]); (split; [|split]); simpl; try done.
      * unfold unread; simpl. rewrite He, (Hn eq_refl Hmax), app_nil_r. repeat split; lia.
      * by apply Forall_app.
      * by eexists.
      * unfold unread; simpl. rewrite He, Hc, length_app, <- app_assoc. split; [done|].
        split; [simpl; lia|]. split; [simpl in *; lia|]. done.
    + eexists _, _. split; [reflexivity|]. split; [done|]. split; [done|]. done.
    + apply read_waits in Hrd. eexists _, _. split; [reflexivity|]. split; [done|]. split; [done|].
      unfold unread; simpl. by rewrite He, Hrd.
Qed.

Lemma poll_fill_loop_spec fuel want r : (want <= length (buf r) + fuel)%nat -> reader_ok r ->
  exists p r', poll_fill_loop fuel want r = Some (p, r') /\ reader_ok r' /\ buf r `prefix_of` buf r' /\
  match p with
  | Ready (Ok true) => unread r' = unread r /\ (want <= length (buf r'))%nat
  | Ready (Ok false) => unread r = buf r' /\ unread r' = buf r' /\ (length (buf r') < want)%nat
  | Ready (Err Truncated) => False
  | Ready (Err (Stream _)) => True
  | Pending => unread r' = unread r
  end.
Proof.
  revert r. induction fuel as [|fuel IH]; intros r Hf Hr; cbn [poll_fill_loop].
  - rewrite decide_False by lia. exists (Ready (Ok true)), r. repeat split; try done. lia.
  - case_decide as Hlt; [|exists (Ready (Ok true)), r; repeat split; try done; lia].
    destruct (poll_more_spec (want - length (buf r)) r ltac:(lia) Hr) as (p & r1 & -> & Hr1 & Hpre & Hp).
    cbn [ready]. destruct p as [[n|[e|]]|]; [|by exists (Ready (Err (Stream e))), r1|done|by exists Pending, r1].
    destruct Hp as (Hu & Hl & Hn & Hnil). case_decide as Hz.
    + subst n. exists (Ready (Ok false)), r1. split; [done|]. split; [done|]. split; [done|].
      specialize (Hnil eq_refl). assert (buf r1 = buf r) as Hb.
      { destruct Hpre as [k Hk]. rewrite Hk, length_app in Hl. destruct k; [by rewrite app_nil_r in Hk|simpl in Hl; lia]. }
      rewrite Hu, Hb. rewrite Hnil. repeat split; try done; lia.
    + destruct (IH r1 ltac:(lia) Hr1) as (p & r2 & -> & Hr2 & Hpre2 & Hp2). exists p, r2.
      split; [done|]. split; [done|]. split; [by etrans|]. rewrite Hu in Hp2. done.
Qed.

(** A reader that fills its buffer until [parse] succeeds on it: what it
    gives is what [parse] gives on all that is unread, however it arrives. *)
Definition parses {A} (parse : list Z -> option (A * nat)) r (p : Poll (res (ReadFailure (E := E)) (option A))) r' : Prop :=
  reader_ok r' /\ match p with
  | Ready (Ok (Some a)) => exists n, parse (unread r) = Some (a, n) /\ unread r' = drop n (unread r)
  | Ready (Ok None) => unread r = []
  | Ready (Err Truncated) => parse (unread r) = None /\ unread r <> []
  | Ready (Err (Stream _)) => True
  | Pending => unread r' = unread r
  end.

Lemma parses_weaken {A} (parse : list Z -> option (A * nat)) r r1 p r' :
  unread r1 = unread r -> parses parse r1 p r' -> parses parse r p r'.
Proof. unfold parses. by intros ->. Qed.

Lemma ended_parses {A} (parse : list Z -> option (A * nat)) r r1 :
  reader_ok r1 -> unread r = buf r1 -> unread r1 = buf r1 -> parse (buf r1) = None ->
  exists p r', ended r1 = Some (p, r') /\ parses parse r p r'.
Proof.
  intros Hr Hu _ Hn. unfold ended. destruct (buf r1) as [|b l] eqn:Hb; eexists _, _; (split; [reflexivity|]);
    split; try done; rewrite Hu; done.
Qed.

(** How many more rounds [poll_varint] needs: the first byte, then the rest. *)
Definition varint_rounds (b : list Z) : nat :=
  match get_varint b with
  | Some _ => 0
  | None => match b with [] => 2 | _ => 1 end
  end.

Lemma varint_filled b c : bytes_ok (b ++ c) -> get_varint b = None -> (varint_len b <= length (b ++ c))%nat ->
  (varint_rounds (b ++ c) < varint_rounds b)%nat.
Proof.
  intros Hb Hn Hl. unfold varint_rounds. rewrite Hn. destruct b as [|x b].
  - simpl in *. destruct c as [|y c]; [simpl in Hl; lia|]. case_match; lia.
  - destruct (get_varint ((x :: b) ++ c)) as [[]|] eqn:Hg; [lia|].
    apply get_varint_None in Hg; [|done]. rewrite varint_len_app in Hg by done. lia.
Qed.

Lemma poll_varint_loop_spec fuel r : (varint_rounds (buf r) <= fuel)%nat -> reader_ok r ->
  exists p r', poll_varint_loop fuel r = Some (p, r') /\ parses get_varint r p r'.
Proof.
  revert r. induction fuel as [|fuel IH]; intros r Hf Hr; cbn [poll_varint_loop];
    destruct (get_varint (buf r)) as [[v n]|] eqn:Hg.
  1,3: pose proof (get_varint_Some _ _ _ Hg) as [_ Hl]; eexists _, _; (split; [reflexivity|]);
    split; [by apply advance_ok|]; exists n; (split; [by apply get_varint_app|apply advance_unread; lia]).
  { unfold varint_rounds in Hf. rewrite Hg in Hf. destruct (buf r); lia. }
  destruct (poll_fill_loop_spec (varint_len (buf r)) (varint_len (buf r)) r ltac:(lia) Hr)
    as (p & r1 & Hp & Hr1 & [c Hpre] & Hs). unfold poll_fill. rewrite Hp. cbn [ready].
  destruct p as [[[]|[e|]]|]; cbn [negb]; [| |by eexists _, _|done|by eexists _, _].
  - destruct Hs as [Hu Hl]. assert (Hrounds : (varint_rounds (buf r1) < varint_rounds (buf r))%nat).
    { rewrite Hpre. apply varint_filled; [by rewrite <- Hpre|done|by rewrite <- Hpre]. }
    destruct (IH r1 ltac:(lia) Hr1) as (p & r2 & -> & Hp2). exists p, r2. split; [done|].
    by eapply parses_weaken.
  - destruct Hs as (Hu & Hu1 & Hl). apply ended_parses; [done|done|done|].
    destruct (get_varint (buf r1)) as [[v n]|] eqn:Hg1; [|done]. exfalso.
    apply get_varint_Some in Hg1 as [Hn1 Hn2]. rewrite Hpre in Hl, Hn1, Hn2.
    destruct (buf r) as [|x b]; [simpl in *; lia|]. rewrite varint_len_app in Hn1 by done. lia.
Qed.

(** ** Frame starts *)

Definition parse_header (b : list Z) : option (Header * nat) :=
  match header_want b with inl hn => Some hn | inr _ => None end.

Definition header_rounds (b : list Z) : nat :=
  match get_varint b with
  | None => 2 + varint_rounds b
  | Some (_, n) => varint_rounds (drop n b)
  end.

Lemma varint_rounds_le b : (varint_rounds b <= 2)%nat.
Proof. unfold varint_rounds. repeat case_match; lia. Qed.

Lemma header_want_inl b h n : header_want b = inl (h, n) -> (n <= length b)%nat.
Proof.
  unfold header_want. destruct (get_varint b) as [[t k]|] eqn:Hg; [|done].
  destruct (get_varint (drop k b)) as [[l m]|] eqn:Hg2; [|done]. intros [= _ <-].
  apply get_varint_Some in Hg as [_ ?]. apply get_varint_Some in Hg2 as [_ Hl]. rewrite length_drop in Hl. lia.
Qed.

Lemma header_want_app b c h n : header_want b = inl (h, n) -> header_want (b ++ c) = inl (h, n).
Proof.
  unfold header_want. destruct (get_varint b) as [[t k]|] eqn:Hg; [|done].
  pose proof (get_varint_Some _ _ _ Hg) as [_ Hk]. rewrite (get_varint_app _ _ _ _ Hg).
  rewrite drop_app_le by lia. destruct (get_varint (drop k b)) as [[l m]|] eqn:Hg2; [|done].
  by rewrite (get_varint_app _ _ _ _ Hg2).
Qed.

Lemma header_want_inr b want : bytes_ok b -> header_want b = inr want -> (length b < want)%nat.
Proof.
  intros Hb. unfold header_want. destruct (get_varint b) as [[t k]|] eqn:Hg.
  - destruct (get_varint (drop k b)) as [[l m]|] eqn:Hg2; [done|]. intros [= <-].
    apply get_varint_None in Hg2; [|by apply Forall_drop]. rewrite length_drop in Hg2. lia.
  - intros [= <-]. by apply get_varint_None.
Qed.

Lemma header_filled b c want : bytes_ok (b ++ c) -> header_want b = inr want ->
  (want <= length (b ++ c))%nat -> (header_rounds (b ++ c) < header_rounds b)%nat.
Proof.
  intros Hb. unfold header_want, header_rounds. destruct (get_varint b) as [[t k]|] eqn:Hg.
  - pose proof (get_varint_Some _ _ _ Hg) as [_ Hk].
    destruct (get_varint (drop k b)) as [[l m]|] eqn:Hg2; [done|]. intros [= <-] Hl.
    rewrite (get_varint_app _ _ _ _ Hg), drop_app_le by lia.
    apply varint_filled; [|done|rewrite !length_app, length_drop in *; lia].
    apply Forall_app in Hb as [? ?]. apply Forall_app. split; [by apply Forall_drop|done].
  - intros [= <-] Hl. pose proof (varint_filled b c Hb Hg Hl) as Hr.
    destruct (get_varint (b ++ c)) as [[t k]|] eqn:Hg1; [|lia].
    pose proof (varint_rounds_le (drop k (b ++ c))). unfold varint_rounds in Hr at 2. rewrite Hg in Hr.
    unfold varint_rounds in *. rewrite Hg. destruct b; lia.
Qed.

Lemma header_short b c want : header_want b = inr want -> (length (b ++ c) < want)%nat ->
  parse_header (b ++ c) = None.
Proof.
  unfold parse_header, header_want. destruct (get_varint b) as [[t k]|] eqn:Hg.
  - pose proof (get_varint_Some _ _ _ Hg) as [_ Hk]. rewrite (get_varint_app _ _ _ _ Hg), drop_app_le by lia.
    destruct (get_varint (drop k b)) as [[l m]|] eqn:Hg2; [done|]. intros [= <-] Hl.
    destruct (get_varint (drop k b ++ c)) as [[l m]|] eqn:Hg3; [|done]. exfalso.
    apply get_varint_Some in Hg3 as [Hm1 Hm2]. rewrite length_app, length_drop in *.
    destruct (drop k b) as [|y d] eqn:Hd.
    + apply (f_equal length) in Hd. rewrite length_drop in Hd. simpl in *. lia.
    + rewrite varint_len_app in Hm1 by done. lia.
  - intros [= <-] Hl. destruct (get_varint (b ++ c)) as [[t k]|] eqn:Hg1; [|done]. exfalso.
    apply get_varint_Some in Hg1 as [Hm1 Hm2]. destruct b as [|x b]; [simpl in *; lia|].
    rewrite varint_len_app in Hm1 by done. lia.
Qed.

Lemma poll_header_loop_spec fuel r : (header_rounds (buf r) <= fuel)%nat -> reader_ok r ->
  exists p r', poll_header_loop fuel r = Some (p, r') /\ parses parse_header r p r'.
Proof.
  revert r. induction fuel as [|fuel IH]; intros r Hf Hr; cbn [poll_header_loop];
    destruct (header_want (buf r)) as [[h n]|want] eqn:Hg.
  1,3: pose proof (header_want_inl _ _ _ Hg) as Hl; eexists _, _; (split; [reflexivity|]);
    split; [by apply advance_ok|]; exists n; split; [|by apply advance_unread];
    unfold parse_header, unread; by rewrite (header_want_app _ _ _ _ Hg).
  { exfalso. unfold header_rounds in Hf. unfold header_want in Hg. destruct (get_varint (buf r)) as [[t k]|] eqn:Hgv.
    - destruct (get_varint (drop k (buf r))) as [[l m]|] eqn:Hgv2; [done|].
      unfold varint_rounds in Hf. rewrite Hgv2 in Hf. destruct (drop k (buf r)); lia.
    - lia. }
  destruct (poll_fill_loop_spec want want r ltac:(lia) Hr) as (p & r1 & Hp & Hr1 & [c Hpre] & Hs).
  unfold poll_fill. rewrite Hp. cbn [ready].
  destruct p as [[[]|[e|]]|]; cbn [negb]; [| |by eexists _, _|done|by eexists _, _].
  - destruct Hs as [Hu Hl]. assert (Hrounds : (header_rounds (buf r1) < header_rounds (buf r))%nat).
    { rewrite Hpre. eapply header_filled; [by rewrite <- Hpre|done|by rewrite <- Hpre]. }
    destruct (IH r1 ltac:(lia) Hr1) as (p & r2 & -> & Hp2). exists p, r2. split; [done|].
    by eapply parses_weaken.
  - destruct Hs as (Hu & Hu1 & Hl). apply ended_parses; [done|done|done|].
    rewrite Hpre in *. by eapply header_short.
Qed.

(** C5: [FrameReader] gives the stream's frame starts and payloads and nothing
    else, however its bytes arrive: every poll answers; one that has to wait
    takes nothing; [poll_header] gives the frame start at the front of the
    bytes not yet taken and takes it, none exactly when nothing is left, and
    says the stream was cut short only when what is left is not a whole frame
    start; [poll_payload] gives exactly the next [n] bytes. *)
Theorem frame_reader_refines r n : reader_ok r ->
  (exists p r', poll_header r = Some (p, r') /\ parses parse_header r p r')
  /\ (exists p r', poll_payload n r = Some (p, r') /\ reader_ok r' /\
      match p with
      | Ready (Ok payload) => (n <= length (unread r))%nat /\ payload = take n (unread r)
          /\ unread r' = drop n (unread r)
      | Ready (Err Truncated) => (length (unread r) < n)%nat
      | Ready (Err (Stream _)) => True
      | Pending => unread r' = unread r
      end).
Proof.
  intros Hr. split.
  - apply poll_header_loop_spec; [|done]. unfold header_rounds.
    destruct (get_varint (buf r)) as [[t k]|];
      [pose proof (varint_rounds_le (drop k (buf r)))|pose proof (varint_rounds_le (buf r))]; lia.
  - unfold poll_payload, poll_fill.
    destruct (poll_fill_loop_spec n n r ltac:(lia) Hr) as (p & r1 & -> & Hr1 & _ & Hs). cbn [ready].
    destruct p as [[[]|[e|]]|]; cbn [negb]; [| |by eexists _, _|done|by eexists _, _].
    + destruct Hs as [Hu Hl]. eexists _, _. split; [reflexivity|]. split; [by apply advance_ok|].
      rewrite <- Hu, advance_unread by done. unfold unread at 1 2. rewrite length_app, take_app_le by done.
      repeat split; lia.
    + destruct Hs as (Hu & _ & Hl). eexists _, _. split; [reflexivity|]. split; [done|]. by rewrite Hu.
Qed.

(** ** Payloads taken piece by piece *)

Lemma poll_skip_spec fuel left r : (left <= fuel)%nat -> reader_ok r ->
  exists p left' r', poll_skip fuel left r = Some (p, left', r') /\ reader_ok r' /\ (left' <= left)%nat /\
  match p with
  | Ready (Ok _) => left' = O /\ (left <= length (unread r))%nat /\ unread r' = drop left (unread r)
  | Ready (Err Truncated) => (length (unread r) < left)%nat
  | Ready (Err (Stream _)) => True
  | Pending => unread r' = drop (left - left') (unread r)
  end.
Proof.
  revert left r. induction fuel as [|fuel IH]; intros left r Hf Hr; destruct left as [|left]; cbn [poll_skip];
    try (exists (Ready (Ok tt)), O, r; split; [done|]; split; [done|]; split; [lia|]; rewrite drop_0;
         repeat split; lia); [lia|].
  (* the part of the loop that passes over buffered bytes *)
  assert (Hskip : forall r1, reader_ok r1 -> buf r1 <> [] -> unread r1 = unread r ->
    exists p left' r', poll_skip fuel (S left - Nat.min (S left) (length (buf r1)))
        (advance (Nat.min (S left) (length (buf r1))) r1) = Some (p, left', r') /\ reader_ok r'
      /\ (left' <= S left)%nat /\
      match p with
      | Ready (Ok _) => left' = O /\ (S left <= length (unread r))%nat /\ unread r' = drop (S left) (unread r)
      | Ready (Err Truncated) => (length (unread r) < S left)%nat
      | Ready (Err (Stream _)) => True
      | Pending => unread r' = drop (S left - left') (unread r)
      end).
  { intros r1 Hr1 Hne Hu. set (n := Nat.min (S left) (length (buf r1))).
    assert (Hn : (1 <= n <= S left)%nat) by (subst n; destruct (buf r1); simpl in *; [done|lia]).
    destruct (IH (S left - n)%nat (advance n r1) ltac:(lia) (advance_ok n r1 Hr1))
      as (p & left' & r' & Hp & Hr' & Hl & Hs). exists p, left', r'. split; [done|]. split; [done|].
    split; [lia|]. rewrite advance_unread in Hs by (subst n; lia).
    rewrite Hu, !drop_drop, length_drop in Hs.
    assert (n <= length (unread r))%nat by (rewrite <- Hu; unfold unread; rewrite length_app; subst n; lia).
    destruct p as [[u|[e|]]|]; [|done|lia|].
    - destruct Hs as (? & ? & Hs). split; [done|]. split; [lia|]. rewrite Hs. f_equal. lia.
    - rewrite Hs. f_equal. lia. }
  destruct (buf r) as [|b bs] eqn:Hb.
  - destruct (poll_more_spec (Nat.min (S left) CHUNK) r) as (p & r1 & -> & Hr1 & _ & Hp);
      [unfold CHUNK; lia|done|]. destruct p as [[[|n]|[e|]]|].
    + destruct Hp as (_ & _ & _ & Hn). exists (Ready (Err Truncated)), (S left), r1.
      split; [done|]. split; [done|]. split; [lia|]. rewrite (Hn eq_refl), Hb. simpl. lia.
    + destruct Hp as (Hu & Hl & _). apply Hskip; [done| |done]. intros Hnil. rewrite Hnil, Hb in Hl. done.
    + by exists (Ready (Err (Stream e))), (S left), r1.
    + done.
    + exists Pending, (S left), r1. split; [done|]. split; [done|]. split; [lia|].
      by rewrite Nat.sub_diag, drop_0.
  - rewrite <- Hb. apply Hskip; [done|congruence|done].
Qed.

Lemma poll_data_spec remaining left r : reader_ok r ->
  let '(p, left', r') := poll_data remaining left r in
  reader_ok r' /\
  match p with
  | Ready (Ok bytes) => unread r = bytes ++ unread r' /\ left' = (left - length bytes)%nat
      /\ (length bytes <= Nat.min left remaining)%nat
      /\ (bytes = [] -> Nat.min left remaining = O)
  | Ready (Err Truncated) => unread r = [] /\ left' = left /\ (0 < left)%nat
  | Ready (Err (Stream _)) => left' = left
  | Pending => unread r' = unread r /\ left' = left
  end.
Proof.
  intros Hr. unfold poll_data. destruct (Nat.min left remaining) as [|room] eqn:Hroom.
  { split; [done|]. simpl. repeat split; lia. }
  destruct (buf r) as [|b bs] eqn:Hb.
  - destruct (end_ r) eqn:He.
    { split; [done|]. unfold unread. rewrite Hb, He. repeat split; lia. }
    destruct (poll_read (recv r) (S room)) as [[[[|x l]|e]|] s] eqn:Hrd.
    + destruct (read_bytes _ _ _ _ Hrd) as (_ & _ & Hn). split; [constructor|].
      unfold unread. rewrite Hb, He. rewrite (Hn eq_refl) by lia. repeat split; lia.
    + destruct (read_bytes _ _ _ _ Hrd) as (Hl & Hc & _). split; [constructor|].
      unfold unread; simpl. rewrite Hb, He, Hc. simpl in *. repeat split; [lia|done].
    + split; [constructor|done].
    + apply read_waits in Hrd. split; [constructor|]. unfold unread; simpl. by rewrite Hb, He, Hrd.
  - rewrite <- Hb. set (n := Nat.min (S room) (length (buf r))).
    assert (n <= length (buf r))%nat by (subst n; lia). split; [by apply advance_ok|].
    rewrite advance_unread by done. rewrite length_take.
    split; [unfold unread; rewrite drop_app_le, app_assoc, take_drop by done; done|].
    split; [lia|]. split; [lia|]. intros Ht%(f_equal length). rewrite length_take in Ht.
    subst n. rewrite Hb in Ht. simpl in Ht. lia.
Qed.

(** A payload taken piece by piece is the payload: [poll_data] hands out
    the next bytes of the stream in order and counts exactly those down, says
    the stream was cut short only when nothing is left of it, and hands out
    nothing only when there is no room; [poll_skip] passes over exactly the
    bytes it counts down, also across polls that have to wait. *)
Theorem payload_pieces_refine r remaining left : reader_ok r ->
  (let '(p, left', r') := poll_data remaining left r in
   match p with
   | Ready (Ok bytes) => unread r = bytes ++ unread r' /\ left' = (left - length bytes)%nat
       /\ (length bytes <= Nat.min left remaining)%nat /\ (bytes = [] -> Nat.min left remaining = O)
   | Ready (Err Truncated) => unread r = [] /\ left' = left /\ (0 < left)%nat
   | Ready (Err (Stream _)) => left' = left
   | Pending => unread r' = unread r /\ left' = left
   end)
  /\ exists p left' r', poll_skip left left r = Some (p, left', r') /\
   match p with
   | Ready (Ok _) => left' = O /\ (left <= length (unread r))%nat /\ unread r' = drop left (unread r)
   | Ready (Err Truncated) => (length (unread r) < left)%nat
   | Ready (Err (Stream _)) => True
   | Pending => unread r' = drop (left - left') (unread r)
   end.
Proof.
  intros Hr. split.
  - pose proof (poll_data_spec remaining left r Hr) as Hd.
    destruct (poll_data remaining left r) as [[p left'] r']. apply Hd.
  - destruct (poll_skip_spec left left r ltac:(lia) Hr) as (p & left' & r' & Hp & _ & _ & Hs).
    by exists p, left', r'.
Qed.

End reader.

(** ** Integers and frames *)

(** Every integer QUIC has is read back, whatever follows it, and no part
    of it short of the whole is taken for an integer. *)
Theorem varint_roundtrip v rest : 0 <= v <= VARINT_MAX ->
  get_varint (put_varint v ++ rest) = Some (v, length (put_varint v))
  /\ forall k, (k < length (put_varint v))%nat -> get_varint (take k (put_varint v)) = None.
Proof.
  intros Hv. split; [by apply get_put_varint|]. intros k Hk.
  destruct (get_varint (take k (put_varint v))) as [[w n]|] eqn:Hg; [|done]. exfalso.
  pose proof (get_varint_Some _ _ _ Hg) as [_ Hn]. rewrite length_take in Hn.
  pose proof (get_varint_app _ (drop k (put_varint v)) _ _ Hg) as Hga. rewrite take_drop in Hga.
  pose proof (get_put_varint v [] Hv) as Hp. rewrite app_nil_r, Hga in Hp. injection Hp as _ Hn'. lia.
Qed.

Lemma varint_roundtrip_witness : get_varint (put_varint 15293 ++ [7]) = Some (15293, 2%nat).
Proof. apply (varint_roundtrip 15293 [7]). vm_compute. split; discriminate. Defined.

Lemma frame_header ty payload rest :
  0 <= ty <= VARINT_MAX -> Z.of_nat (length payload) <= VARINT_MAX ->
  exists n, parse_header (frame ty payload ++ rest) = Some (mkHeader ty (Z.of_nat (length payload)), n)
    /\ drop n (frame ty payload ++ rest) = payload ++ rest.
Proof.
  intros Ht Hp. exists (length (put_varint ty) + length (put_varint (Z.of_nat (length payload))))%nat.
  unfold parse_header, header_want, frame. rewrite <- !app_assoc, get_put_varint by done.
  rewrite drop_app_length, get_put_varint by lia. split; [done|].
  by rewrite <- drop_drop, !drop_app_length.
Qed.

(** ** SETTINGS *)

Inductive pairs_of : list Z -> list (Z * Z) -> Prop :=
| pairs_nil : pairs_of [] []
| pairs_cons payload id n value m pairs :
    get_varint payload = Some (id, n) -> get_varint (drop n payload) = Some (value, m) ->
    pairs_of (drop (n + m) payload) pairs -> pairs_of payload ((id, value) :: pairs).

(** What a server may set: no identifier HTTP/3 has reserved, and the two
    flags only to 0 or 1. *)
Definition setting_ok (p : Z * Z) : Prop :=
  ~ (2 <= p.1 <= 5)
  /\ (p.1 = SETTINGS_ENABLE_CONNECT_PROTOCOL \/ p.1 = SETTINGS_H3_DATAGRAM -> p.2 <= 1).

Lemma settings_done seen pairs : exists r : res H3Error (list (Z * Z)), Some (Ok pairs) = Some r /\
  forall out, r = Ok out <-> exists new, out = pairs ++ new /\ pairs_of [] new
    /\ Forall setting_ok new /\ NoDup new.*1 /\ Forall (fun p : Z * Z => p.1 ∉ (seen : gset Z)) new.
Proof.
  exists (Ok pairs). split; [done|]. intros out. split.
  - intros [= <-]. exists []. rewrite app_nil_r. repeat split; constructor.
  - intros (new & -> & Hp & _). inversion Hp as [|? ? ? ? ? ? Hg]; [by rewrite app_nil_r|done].
Qed.

Lemma settings_loop_spec fuel payload seen pairs : (length payload <= fuel)%nat ->
  exists r, settings_loop fuel payload seen pairs = Some r /\
  forall out, r = Ok out <-> exists new, out = pairs ++ new /\ pairs_of payload new
    /\ Forall setting_ok new /\ NoDup new.*1 /\ Forall (fun p => p.1 ∉ seen) new.
Proof.
  revert payload seen pairs. induction fuel as [|fuel IH]; intros payload seen pairs Hf;
    (destruct payload as [|b payload']; cbn [settings_loop]; [by apply settings_done|]).
  { simpl in Hf. lia. }
  set (payload := b :: payload') in *.
  assert (Herr : forall e : H3Error, (forall new, pairs_of payload new -> Forall setting_ok new -> NoDup new.*1 ->
      Forall (fun p => p.1 ∉ seen) new -> False) ->
    exists r, Some (Err e) = Some r /\ forall out, r = Ok out <-> exists new, out = pairs ++ new
      /\ pairs_of payload new /\ Forall setting_ok new /\ NoDup new.*1 /\ Forall (fun p => p.1 ∉ seen) new).
  { intros e Hno. exists (Err e). split; [done|]. intros out. split; [done|]. naive_solver. }
  destruct (get_varint payload) as [[id n]|] eqn:Hg1.
  2:{ apply Herr. intros new Hp _ _ _. inversion Hp; congruence. }
  destruct (get_varint (drop n payload)) as [[value m]|] eqn:Hg2.
  2:{ apply Herr. intros new Hp _ _ _. inversion Hp; congruence. }
  assert (Hinv : forall new, pairs_of payload new -> exists new', new = (id, value) :: new' /\ pairs_of (drop (n + m) payload) new').
  { intros new Hp. inversion Hp as [|? ? ? ? ? ? Ha Hb]; simplify_eq. by eexists. }
  destruct ((2 <=? id) && (id <=? 5)) eqn:Hres.
  { apply Herr. intros new (new' & -> & _)%Hinv [[Hid _] _]%Forall_cons _ _. cbn in Hid. lia. }
  destruct (((id =? SETTINGS_ENABLE_CONNECT_PROTOCOL) || (id =? SETTINGS_H3_DATAGRAM)) && (1 <? value)) eqn:Hflag.
  { apply Herr. intros new (new' & -> & _)%Hinv [[_ Hid] _]%Forall_cons _ _. cbn [fst snd] in Hid.
    apply andb_true_iff in Hflag as [Hor Hv]. rewrite orb_true_iff, !Z.eqb_eq in Hor.
    specialize (Hid Hor). lia. }
  case_decide as Hseen.
  { apply Herr. intros new (new' & -> & _)%Hinv _ _ [Hns _]%Forall_cons. done. }
  apply get_varint_Some in Hg1 as Hl1. apply get_varint_Some in Hg2 as Hl2.
  destruct (IH (drop (n + m) payload) ({[id]} ∪ seen) (pairs ++ [(id, value)])) as (r & -> & Hr).
  { rewrite length_drop. lia. }
  exists r. split; [done|]. intros out. rewrite Hr. split.
  - intros (new & -> & Hp & Hok & Hnd & Hns). exists ((id, value) :: new).
    split; [by rewrite <- app_assoc|]. split; [by econstructor|]. split; [|split].
    + constructor; [|done]. split; cbn [fst snd]; [lia|]. rewrite <- !Z.eqb_eq, <- orb_true_iff.
      intros Hor. rewrite Hor in Hflag. cbn [andb] in Hflag. lia.
    + cbn [fmap list_fmap fst]. constructor; [|done]. intros (q & Hq & Hin)%list_elem_of_fmap.
      rewrite Forall_forall in Hns. specialize (Hns _ Hin). set_solver.
    + constructor; [done|]. eapply Forall_impl; [done|]. set_solver.
  - intros (new & -> & (new' & -> & Hp)%Hinv & [_ Hok]%Forall_cons & Hnd & [_ Hns]%Forall_cons).
    cbn [fmap list_fmap fst] in Hnd. apply NoDup_cons in Hnd as [Hni Hnd]. exists new'.
    split; [by rewrite <- app_assoc|]. split; [done|]. split; [done|]. split; [done|].
    apply Forall_forall. intros q Hq. rewrite Forall_forall in Hns. specialize (Hns q Hq).
    assert (q.1 <> id); [|set_solver]. intros Hid. apply Hni. apply list_elem_of_fmap. by exists q.
Qed.

(** The server's SETTINGS are read for exactly what they are: decoding
    always ends, and gives a list exactly when the payload is those pairs of
    integers, one after the other and nothing after them, no identifier twice
    and none reserved, with the two flags 0 or 1. *)
Theorem settings_spec payload : exists r, settings_decode payload = Some r /\
  forall pairs, r = Ok pairs <-> pairs_of payload pairs /\ Forall setting_ok pairs /\ NoDup pairs.*1.
Proof.
  destruct (settings_loop_spec (length payload) payload ∅ [] ltac:(lia)) as (r & Hr & Hs).
  exists r. split; [done|]. intros pairs. rewrite Hs. split.
  - by intros (new & -> & ? & ? & ? & _).
  - intros (? & ? & ?). exists pairs. repeat (split; [done|]). apply Forall_forall. set_solver.
Qed.

(** ** A stream given by a script *)

(** A read finds nothing yet, or a run of at least one byte. *)
Inductive event : Type := Wait | Run (b : Z) (bs : list Z).

Definition event_bytes (e : event) : list Z :=
  match e with Wait => [] | Run b bs => map (fun x => x mod 256) (b :: bs) end.

Definition rerun (l : list Z) (s : list event) : list event :=
  match l with [] => s | x :: l => Run x l :: s end.

Definition script_read (s : list event) (max : nat) : Poll (res unit (list Z)) * list event :=
  match s with
  | [] => (Ready (Ok []), [])
  | Wait :: s => (Pending, s)
  | Run b bs :: s =>
      let bytes := event_bytes (Run b bs) in
      (Ready (Ok (take max bytes)), rerun (drop max bytes) s)
  end.

#[export] Instance script_stream : RecvStream (list event) unit := { poll_read := script_read }.

Lemma event_bytes_ok e : bytes_ok (event_bytes e).
Proof.
  destruct e as [|b bs]; [constructor|].
  apply Forall_forall. intros x (y & <- & _)%list_elem_of_In%in_map_iff. apply Z.mod_pos_bound. lia.
Qed.

Lemma flat_map_rerun l s : bytes_ok l -> flat_map event_bytes (rerun l s) = l ++ flat_map event_bytes s.
Proof.
  intros Hl. destruct l as [|x l]; [done|]. cbn [rerun flat_map event_bytes]. f_equal.
  rewrite <- (map_id (x :: l)) at 2. apply map_ext_in. intros y Hy%list_elem_of_In.
  unfold bytes_ok in Hl. rewrite Forall_forall in Hl. by apply Z.mod_small, Hl.
Qed.

#[export] Instance script_laws : RecvLaws (list event) unit.
Proof.
  refine {| content s := flat_map event_bytes s |}.
  - intros [|[|b bs] s] max bytes s'; cbn [poll_read script_stream script_read]; [|discriminate|].
    { intros [= <- <-]. split; [simpl; lia|]. by split. }
    intros [= <- <-]. split; [rewrite length_take; lia|]. split.
    + change (flat_map event_bytes (Run b bs :: s)) with (event_bytes (Run b bs) ++ flat_map event_bytes s).
      rewrite flat_map_rerun by (by apply (Forall_drop _ max), (event_bytes_ok (Run b bs))).
      by rewrite app_assoc, take_drop.
    + intros Ht Hm. destruct max; [lia|done].
  - intros [|[|b bs] s] max s'; cbn [poll_read script_stream script_read];
      [discriminate|by intros [= <-]|discriminate].
  - intros s. apply Forall_flat_map, Forall_forall. intros e _. apply event_bytes_ok.
Defined.

(** A SETTINGS frame that arrives in three pieces. *)
Definition demo_reader : FrameReader (R := list event) := mkReader [Wait; Run 64 [4]; Wait; Run 2 [33]; Run 7 []] [] false.

Lemma frame_reader_refines_witness : exists p r',
  poll_header demo_reader = Some (p, r') /\ p = Pending /\ unread r' = [64; 4; 2; 33; 7].
Proof.
  destruct (frame_reader_refines demo_reader 2) as [(p & r' & Hp & Hr) _]; [constructor|].
  exists p, r'. split; [exact Hp|]. assert (p = Pending) as ->.
  { assert (He : fst <$> poll_header demo_reader = Some Pending) by (vm_compute; reflexivity).
    rewrite Hp in He. by injection He. }
  split; [reflexivity|]. destruct Hr as [_ Hr]. rewrite Hr. vm_compute. reflexivity.
Defined.

Lemma payload_pieces_refine_witness : exists p left' r',
  poll_skip 4 4 demo_reader = Some (p, left', r') /\ p = Pending /\ left' = 4%nat
  /\ unread r' = [64; 4; 2; 33; 7].
Proof.
  destruct (payload_pieces_refine demo_reader 3 4) as [_ (p & left' & r' & Hp & Hr)]; [constructor|].
  exists p, left', r'. split; [exact Hp|].
  assert (He : fst <$> poll_skip 4 4 demo_reader = Some (Pending, 4%nat)) by (vm_compute; reflexivity).
  rewrite Hp in He. injection He as -> ->. split; [reflexivity|]. split; [reflexivity|].
  rewrite Hr. vm_compute. reflexivity.
Defined.
