(* ===== verification/Huffman.v ===== *)
(** * The Huffman code of HPACK

    [crates/rurge-net/src/quic/h3/huffman.rs]: the code of RFC 7541 Appendix B
    as the source transcribes it, the canonical tables its decoder walks, and
    [decode].  [Huffman.decode_spec] is what makes the decoder correct: it
    takes exactly the bit strings the code makes, followed by at most seven
    ones. *)

From S2P Require Import Prelude.

(** [CODES], in two halves: the code of each octet and then of EOS, with its
    length in bits. *)
Definition CODES_low : list (Z * nat) :=
  [(0x1ff8, 13%nat); (0x7fffd8, 23%nat); (0xfffffe2, 28%nat); (0xfffffe3, 28%nat);
   (0xfffffe4, 28%nat); (0xfffffe5, 28%nat); (0xfffffe6, 28%nat); (0xfffffe7, 28%nat);
   (0xfffffe8, 28%nat); (0xffffea, 24%nat); (0x3ffffffc, 30%nat); (0xfffffe9, 28%nat);
   (0xfffffea, 28%nat); (0x3ffffffd, 30%nat); (0xfffffeb, 28%nat); (0xfffffec, 28%nat);
   (0xfffffed, 28%nat); (0xfffffee, 28%nat); (0xfffffef, 28%nat); (0xffffff0, 28%nat);
   (0xffffff1, 28%nat); (0xffffff2, 28%nat); (0x3ffffffe, 30%nat); (0xffffff3, 28%nat);
   (0xffffff4, 28%nat); (0xffffff5, 28%nat); (0xffffff6, 28%nat); (0xffffff7, 28%nat);
   (0xffffff8, 28%nat); (0xffffff9, 28%nat); (0xffffffa, 28%nat); (0xffffffb, 28%nat);
   (0x14, 6%nat); (0x3f8, 10%nat); (0x3f9, 10%nat); (0xffa, 12%nat);
   (0x1ff9, 13%nat); (0x15, 6%nat); (0xf8, 8%nat); (0x7fa, 11%nat);
   (0x3fa, 10%nat); (0x3fb, 10%nat); (0xf9, 8%nat); (0x7fb, 11%nat);
   (0xfa, 8%nat); (0x16, 6%nat); (0x17, 6%nat); (0x18, 6%nat);
   (0x0, 5%nat); (0x1, 5%nat); (0x2, 5%nat); (0x19, 6%nat);
   (0x1a, 6%nat); (0x1b, 6%nat); (0x1c, 6%nat); (0x1d, 6%nat);
   (0x1e, 6%nat); (0x1f, 6%nat); (0x5c, 7%nat); (0xfb, 8%nat);
   (0x7ffc, 15%nat); (0x20, 6%nat); (0xffb, 12%nat); (0x3fc, 10%nat);
   (0x1ffa, 13%nat); (0x21, 6%nat); (0x5d, 7%nat); (0x5e, 7%nat);
   (0x5f, 7%nat); (0x60, 7%nat); (0x61, 7%nat); (0x62, 7%nat);
   (0x63, 7%nat); (0x64, 7%nat); (0x65, 7%nat); (0x66, 7%nat);
   (0x67, 7%nat); (0x68, 7%nat); (0x69, 7%nat); (0x6a, 7%nat);
   (0x6b, 7%nat); (0x6c, 7%nat); (0x6d, 7%nat); (0x6e, 7%nat);
   (0x6f, 7%nat); (0x70, 7%nat); (0x71, 7%nat); (0x72, 7%nat);
   (0xfc, 8%nat); (0x73, 7%nat); (0xfd, 8%nat); (0x1ffb, 13%nat);
   (0x7fff0, 19%nat); (0x1ffc, 13%nat); (0x3ffc, 14%nat); (0x22, 6%nat);
   (0x7ffd, 15%nat); (0x3, 5%nat); (0x23, 6%nat); (0x4, 5%nat);
   (0x24, 6%nat); (0x5, 5%nat); (0x25, 6%nat); (0x26, 6%nat);
   (0x27, 6%nat); (0x6, 5%nat); (0x74, 7%nat); (0x75, 7%nat);
   (0x28, 6%nat); (0x29, 6%nat); (0x2a, 6%nat); (0x7, 5%nat);
   (0x2b, 6%nat); (0x76, 7%nat); (0x2c, 6%nat); (0x8, 5%nat);
   (0x9, 5%nat); (0x2d, 6%nat); (0x77, 7%nat); (0x78, 7%nat);
   (0x79, 7%nat); (0x7a, 7%nat); (0x7b, 7%nat); (0x7ffe, 15%nat);
   (0x7fc, 11%nat); (0x3ffd, 14%nat); (0x1ffd, 13%nat); (0xffffffc, 28%nat)].

Definition CODES_high : list (Z * nat) :=
  [(0xfffe6, 20%nat); (0x3fffd2, 22%nat); (0xfffe7, 20%nat); (0xfffe8, 20%nat);
   (0x3fffd3, 22%nat); (0x3fffd4, 22%nat); (0x3fffd5, 22%nat); (0x7fffd9, 23%nat);
   (0x3fffd6, 22%nat); (0x7fffda, 23%nat); (0x7fffdb, 23%nat); (0x7fffdc, 23%nat);
   (0x7fffdd, 23%nat); (0x7fffde, 23%nat); (0xffffeb, 24%nat); (0x7fffdf, 23%nat);
   (0xffffec, 24%nat); (0xffffed, 24%nat); (0x3fffd7, 22%nat); (0x7fffe0, 23%nat);
   (0xffffee, 24%nat); (0x7fffe1, 23%nat); (0x7fffe2, 23%nat); (0x7fffe3, 23%nat);
   (0x7fffe4, 23%nat); (0x1fffdc, 21%nat); (0x3fffd8, 22%nat); (0x7fffe5, 23%nat);
   (0x3fffd9, 22%nat); (0x7fffe6, 23%nat); (0x7fffe7, 23%nat); (0xffffef, 24%nat);
   (0x3fffda, 22%nat); (0x1fffdd, 21%nat); (0xfffe9, 20%nat); (0x3fffdb, 22%nat);
   (0x3fffdc, 22%nat); (0x7fffe8, 23%nat); (0x7fffe9, 23%nat); (0x1fffde, 21%nat);
   (0x7fffea, 23%nat); (0x3fffdd, 22%nat); (0x3fffde, 22%nat); (0xfffff0, 24%nat);
   (0x1fffdf, 21%nat); (0x3fffdf, 22%nat); (0x7fffeb, 23%nat); (0x7fffec, 23%nat);
   (0x1fffe0, 21%nat); (0x1fffe1, 21%nat); (0x3fffe0, 22%nat); (0x1fffe2, 21%nat);
   (0x7fffed, 23%nat); (0x3fffe1, 22%nat); (0x7fffee, 23%nat); (0x7fffef, 23%nat);
   (0xfffea, 20%nat); (0x3fffe2, 22%nat); (0x3fffe3, 22%nat); (0x3fffe4, 22%nat);
   (0x7ffff0, 23%nat); (0x3fffe5, 22%nat); (0x3fffe6, 22%nat); (0x7ffff1, 23%nat);
   (0x3ffffe0, 26%nat); (0x3ffffe1, 26%nat); (0xfffeb, 20%nat); (0x7fff1, 19%nat);
   (0x3fffe7, 22%nat); (0x7ffff2, 23%nat); (0x3fffe8, 22%nat); (0x1ffffec, 25%nat);
   (0x3ffffe2, 26%nat); (0x3ffffe3, 26%nat); (0x3ffffe4, 26%nat); (0x7ffffde, 27%nat);
   (0x7ffffdf, 27%nat); (0x3ffffe5, 26%nat); (0xfffff1, 24%nat); (0x1ffffed, 25%nat);
   (0x7fff2, 19%nat); (0x1fffe3, 21%nat); (0x3ffffe6, 26%nat); (0x7ffffe0, 27%nat);
   (0x7ffffe1, 27%nat); (0x3ffffe7, 26%nat); (0x7ffffe2, 27%nat); (0xfffff2, 24%nat);
   (0x1fffe4, 21%nat); (0x1fffe5, 21%nat); (0x3ffffe8, 26%nat); (0x3ffffe9, 26%nat);
   (0xffffffd, 28%nat); (0x7ffffe3, 27%nat); (0x7ffffe4, 27%nat); (0x7ffffe5, 27%nat);
   (0xfffec, 20%nat); (0xfffff3, 24%nat); (0xfffed, 20%nat); (0x1fffe6, 21%nat);
   (0x3fffe9, 22%nat); (0x1fffe7, 21%nat); (0x1fffe8, 21%nat); (0x7ffff3, 23%nat);
   (0x3fffea, 22%nat); (0x3fffeb, 22%nat); (0x1ffffee, 25%nat); (0x1ffffef, 25%nat);
   (0xfffff4, 24%nat); (0xfffff5, 24%nat); (0x3ffffea, 26%nat); (0x7ffff4, 23%nat);
   (0x3ffffeb, 26%nat); (0x7ffffe6, 27%nat); (0x3ffffec, 26%nat); (0x3ffffed, 26%nat);
   (0x7ffffe7, 27%nat); (0x7ffffe8, 27%nat); (0x7ffffe9, 27%nat); (0x7ffffea, 27%nat);
   (0x7ffffeb, 27%nat); (0xffffffe, 28%nat); (0x7ffffec, 27%nat); (0x7ffffed, 27%nat);
   (0x7ffffee, 27%nat); (0x7ffffef, 27%nat); (0x7fffff0, 27%nat); (0x3ffffee, 26%nat);
   (0x3fffffff, 30%nat)].

Definition CODES : list (Z * nat) := CODES_low ++ CODES_high.

(** [LONGEST]. *)
Definition LONGEST : nat := 30.

Record Canonical := mkCanonical {
  first : list Z;
  code_count : list nat;
  start : list nat;
  symbols : list nat;
}.

(** [canonical]: its three loops. *)
Definition count_lengths (codes : list (Z * nat)) : list nat :=
  fold_left (fun cnt c => <[c.2 := S (cnt !!! c.2)]> cnt) codes (replicate (S LONGEST) O).

Fixpoint first_codes (cnt : list nat) (len fuel : nat) (code : Z) (at_ : nat)
    (firsts : list Z) (starts : list nat) : list Z * list nat :=
  match fuel with
  | O => (firsts, starts)
  | S fuel =>
      let code := Z.shiftl (code + Z.of_nat (cnt !!! pred len)) 1 mod 2 ^ 32 in
      first_codes cnt (S len) fuel code (at_ + cnt !!! len)%nat
        (<[len := code]> firsts) (<[len := at_]> starts)
  end.

Fixpoint place_symbols (codes : list (Z * nat)) (symbol : nat) (next syms : list nat) : list nat :=
  match codes with
  | [] => syms
  | (_, len) :: codes =>
      let at_ := next !!! len in
      place_symbols codes (S symbol) (<[len := S at_]> next) (<[at_ := symbol]> syms)
  end.

Definition canonical : Canonical :=
  let cnt := count_lengths CODES in
  let '(firsts, starts) :=
    first_codes cnt 1 LONGEST 0 O (replicate (S LONGEST) 0) (replicate (S LONGEST) O) in
  mkCanonical firsts cnt starts (place_symbols CODES O starts (replicate 257 O)).

Definition CANONICAL : Canonical := Eval vm_compute in canonical.

(** [decode]: the state of its loop is what has been decoded and the bits of
    a code not yet complete. *)
Definition st : Type := list Z * Z * nat.

Definition decode_bit (s : st) (bit : Z) : option st :=
  let '(out, code, len) := s in
  let code := Z.lor (Z.shiftl code 1 mod 2 ^ 32) bit in
  let len := S len in
  let at_ := (code - first CANONICAL !!! len) mod 2 ^ 32 in
  if at_ <? Z.of_nat (code_count CANONICAL !!! len) then
    let symbol := symbols CANONICAL !!! (start CANONICAL !!! len + Z.to_nat at_)%nat in
    if decide (symbol <= 255)%nat then Some (out ++ [Z.of_nat symbol], 0, O) else None
  else if decide (len = LONGEST) then None
  else Some (out, code, len).

Definition byte_bits (byte : Z) : list Z :=
  map (fun bit => Z.land (Z.shiftr byte bit) 1) [7; 6; 5; 4; 3; 2; 1; 0].

Fixpoint decode_bits (bits : list Z) (s : st) : option st :=
  match bits with
  | [] => Some s
  | bit :: bits => s ← decode_bit s bit; decode_bits bits s
  end.

Fixpoint decode_bytes (src : list Z) (s : st) : option st :=
  match src with
  | [] => Some s
  | byte :: src => s ← decode_bits (byte_bits byte) s; decode_bytes src s
  end.

Definition decode (src : list Z) : option (list Z) :=
  '(out, code, len) ← decode_bytes src ([], 0, O);
  if bool_decide (len <= 7)%nat && (code =? Z.shiftl 1 (Z.of_nat len) - 1) then Some out else None.

(** ** The code, as a map from octets to bit strings *)

(** The [len] low bits of [code], the highest first. *)
Fixpoint code_bits (code : Z) (len : nat) : list Z :=
  match len with
  | O => []
  | S len => code_bits (Z.shiftr code 1) len ++ [Z.land code 1]
  end.

Definition symbol_bits (symbol : nat) : list Z :=
  match CODES !! symbol with
  | Some (code, len) => code_bits code len
  | None => []
  end.

(** What an encoder writes for a string, before padding. *)
Definition encode_bits (s : list Z) : list Z := flat_map (fun b => symbol_bits (Z.to_nat b)) s.

(** The decoder's tables are those of [CODES]. *)
Lemma canonical_eq : CANONICAL = canonical.
Proof. vm_compute. reflexivity. Qed.

Definition entry_ok (len at_ : nat) : bool :=
  match CODES !! (symbols CANONICAL !!! (start CANONICAL !!! len + at_)%nat) with
  | Some (code, l) => (code =? first CANONICAL !!! len + Z.of_nat at_) && bool_decide (l = len)
  | None => false
  end.

Lemma entries_check :
  forallb (fun len => forallb (entry_ok len) (seq 0 (code_count CANONICAL !!! len)))
    (seq 0 (S LONGEST)) = true.
Proof. vm_compute. reflexivity. Qed.

Lemma firsts_check :
  forallb (fun len => (0 <=? first CANONICAL !!! len)
    && (first CANONICAL !!! len + Z.of_nat (code_count CANONICAL !!! len) <=? 2 ^ Z.of_nat len))
    (seq 0 (S LONGEST)) = true.
Proof. vm_compute. reflexivity. Qed.

Definition pstate : Type := Z * nat.

Lemma entry_found len at_ : (len <= LONGEST)%nat -> (at_ < code_count CANONICAL !!! len)%nat ->
  CODES !! (symbols CANONICAL !!! (start CANONICAL !!! len + at_)%nat)
  = Some (first CANONICAL !!! len + Z.of_nat at_, len).
Proof.
  intros Hl Ha. pose proof entries_check as He. rewrite forallb_forall in He.
  specialize (He len ltac:(apply in_seq; lia)). rewrite forallb_forall in He.
  specialize (He at_ ltac:(apply in_seq; lia)). unfold entry_ok in He.
  destruct (CODES !! _) as [[code l]|]; [|done].
  apply andb_true_iff in He as [->%Z.eqb_eq ->%bool_decide_eq_true_1]. done.
Qed.

Lemma first_range len : (len <= LONGEST)%nat ->
  0 <= first CANONICAL !!! len /\
  first CANONICAL !!! len + Z.of_nat (code_count CANONICAL !!! len) <= 2 ^ Z.of_nat len.
Proof.
  intros Hl. pose proof firsts_check as He. rewrite forallb_forall in He.
  specialize (He len ltac:(apply in_seq; lia)). lia.
Qed.

(** ** Bits *)

Definition is_bit (b : Z) : Prop := b = 0 \/ b = 1.

Lemma land_1 v : Z.land v 1 = v mod 2.
Proof. apply (Z.land_ones v 1). lia. Qed.

Lemma land_1_bit v : is_bit (Z.land v 1).
Proof. rewrite land_1. unfold is_bit. pose proof (Z.mod_pos_bound v 2 ltac:(lia)). lia. Qed.

Lemma byte_bits_bit byte : Forall is_bit (byte_bits byte).
Proof. unfold byte_bits; cbn [map]. repeat (apply Forall_cons; split; [apply land_1_bit|]). constructor. Qed.

Lemma push_bit code bit (len : nat) : 0 <= code < 2 ^ Z.of_nat len -> (len < LONGEST)%nat -> is_bit bit ->
  Z.lor (Z.shiftl code 1 mod 2 ^ 32) bit = 2 * code + bit
  /\ 0 <= 2 * code + bit < 2 ^ Z.of_nat (S len).
Proof.
  intros Hc Hl Hb. unfold LONGEST in Hl.
  assert (2 ^ Z.of_nat len <= 2 ^ 29) by (apply Z.pow_le_mono_r; lia).
  rewrite Nat2Z.inj_succ, Z.pow_succ_r by lia. rewrite Z.mod_small.
  2:{ rewrite Z.shiftl_mul_pow2 by lia. lia. }
  rewrite lor_shiftl_add by (destruct Hb; lia). destruct Hb; lia.
Qed.

Lemma code_bits_push code bit len : is_bit bit ->
  code_bits (2 * code + bit) (S len) = code_bits code len ++ [bit].
Proof.
  intros Hb. cbn [code_bits]. rewrite Z.shiftr_div_pow2 by lia. change (2 ^ 1) with 2. rewrite land_1.
  destruct Hb as [-> | ->].
  - rewrite Z.add_0_r, Z.mul_comm, Z.div_mul, Z.mod_mul by lia. done.
  - replace ((2 * code + 1) / 2) with code by (Z.div_mod_to_equations; lia).
    replace ((2 * code + 1) mod 2) with 1 by (Z.div_mod_to_equations; lia). done.
Qed.

Lemma decode_bits_app a b s : decode_bits (a ++ b) s = decode_bits a s ≫= decode_bits b.
Proof.
  revert s. induction a as [|x a IH]; intros s; [done|]. cbn [decode_bits app].
  destruct (decode_bit s x); [apply IH|done].
Qed.

Lemma decode_bytes_bits src s : decode_bytes src s = decode_bits (flat_map byte_bits src) s.
Proof.
  revert s. induction src as [|b src IH]; intros s; [done|]. cbn [decode_bytes flat_map].
  rewrite decode_bits_app. destruct (decode_bits (byte_bits b) s); [apply IH|done].
Qed.

(** ** Soundness: what has been decoded is what the bits encode *)

Definition reads (bits : list Z) (s : st) : Prop :=
  let '(out, code, len) := s in
  bits = encode_bits out ++ code_bits code len /\ bytes_ok out
  /\ 0 <= code < 2 ^ Z.of_nat len /\ (len < LONGEST)%nat.

Lemma encode_bits_app a b : encode_bits (a ++ b) = encode_bits a ++ encode_bits b.
Proof. unfold encode_bits. apply flat_map_app. Qed.

Lemma encode_bits_one b : encode_bits [b] = symbol_bits (Z.to_nat b).
Proof. unfold encode_bits; simpl. apply app_nil_r. Qed.

Lemma decode_bit_reads bits bit s s' :
  reads bits s -> is_bit bit -> decode_bit s bit = Some s' -> reads (bits ++ [bit]) s'.
Proof.
  destruct s as [[out code] len]. intros (-> & Hout & Hc & Hl) Hb. unfold decode_bit.
  destruct (push_bit _ _ _ Hc Hl Hb) as [-> Hc'].
  set (at_ := _ mod 2 ^ 32). destruct (Z.ltb_spec at_ (Z.of_nat (code_count CANONICAL !!! S len))) as [Hat|_].
  - assert (Hat0 : 0 <= at_) by (apply Z.mod_pos_bound; lia).
    pose proof (entry_found (S len) (Z.to_nat at_) ltac:(lia) ltac:(lia)) as He.
    remember (symbols CANONICAL !!! (start CANONICAL !!! S len + Z.to_nat at_)%nat) as symbol eqn:Hs.
    clear Hs. case_decide as Hsym; [|done]. intros [= <-].
    destruct (first_range (S len) ltac:(lia)) as [Hf0 Hf1]. rewrite Z2Nat.id in He by lia.
    assert (H32 : 2 ^ Z.of_nat (S len) <= 2 ^ 30) by (apply Z.pow_le_mono_r; unfold LONGEST in *; lia).
    assert (Hat' : first CANONICAL !!! S len + at_ = 2 * code + bit).
    { revert Hat0. subst at_. intros Hat0. rewrite Z.mod_small; [lia|].
      destruct (decide (0 <= 2 * code + bit - first CANONICAL !!! S len)) as [|Hneg]; [lia|].
      exfalso. revert Hat. rewrite <- (Z.mod_add _ 1) by lia. rewrite Z.mod_small by lia. lia. }
    split; [|split; [|split]]; [| |cbn; lia|unfold LONGEST; lia].
    + rewrite encode_bits_app, encode_bits_one, Nat2Z.id. unfold symbol_bits. rewrite He, Hat'.
      rewrite code_bits_push by done. change (code_bits 0 0) with (@nil Z).
      by rewrite app_nil_r, app_assoc.
    + apply Forall_app. split; [done|]. repeat constructor; lia.
  - case_decide; [done|]. intros [= <-]. split; [by rewrite code_bits_push, app_assoc by done|].
    split; [done|]. split; [done|]. lia.
Qed.

Lemma decode_bits_reads more bits s s' : Forall is_bit more ->
  reads bits s -> decode_bits more s = Some s' -> reads (bits ++ more) s'.
Proof.
  intros Hm. revert bits s. induction Hm as [|b more Hb Hm IH]; intros bits s Hr; cbn [decode_bits].
  - intros [= <-]. by rewrite app_nil_r.
  - destruct (decode_bit s b) as [s1|] eqn:E; [|done]. cbn [mbind option_bind]. intros Hd.
    change (b :: more) with ([b] ++ more). rewrite app_assoc. eapply IH; [|done].
    by eapply decode_bit_reads.
Qed.

(** ** Completeness: the walk over one symbol's code, and over the padding *)

Lemma symbols_check :
  forallb (fun symbol => match decode_bits (symbol_bits symbol) ([], 0, O) with
                         | Some (out, code, len) => bool_decide (out = [Z.of_nat symbol] /\ code = 0 /\ len = O)
                         | None => false
                         end) (seq 0 256) = true.
Proof. vm_compute. reflexivity. Qed.

Lemma decode_bit_prefix out s bit : let '(o, c, l) := s in
  decode_bit (out ++ o, c, l) bit
  = (fun s' => let '(o', c', l') := s' in (out ++ o', c', l')) <$> decode_bit s bit.
Proof.
  destruct s as [[o c] l]. unfold decode_bit. case_match; [|by case_decide].
  case_decide; [|done]. simpl. by rewrite app_assoc.
Qed.

Lemma decode_bits_prefix out bits s : let '(o, c, l) := s in
  decode_bits bits (out ++ o, c, l)
  = (fun s' => let '(o', c', l') := s' in (out ++ o', c', l')) <$> decode_bits bits s.
Proof.
  revert s. induction bits as [|b bits IH]; intros [[o c] l]; [done|]. cbn [decode_bits].
  pose proof (decode_bit_prefix out (o, c, l) b) as Hb. cbv beta iota zeta in Hb. rewrite Hb.
  destruct (decode_bit (o, c, l) b) as [[[o1 c1] l1]|]; [|done]. apply (IH (o1, c1, l1)).
Qed.

Lemma decode_encoded s : bytes_ok s -> decode_bits (encode_bits s) ([], 0, O) = Some (s, 0, O).
Proof.
  intros Hs. induction s as [|b s IH] using rev_ind; [done|].
  apply Forall_app in Hs as [Hs [Hb _]%Forall_cons].
  rewrite encode_bits_app, decode_bits_app, (IH Hs), encode_bits_one. cbn [mbind option_bind].
  pose proof (decode_bits_prefix s (symbol_bits (Z.to_nat b)) ([], 0, O)) as Hp.
  cbv beta iota zeta in Hp. rewrite app_nil_r in Hp. rewrite Hp.
  pose proof symbols_check as Hc. rewrite forallb_forall in Hc. 
  assert (Hin : In (Z.to_nat b) (seq 0 256)) by (unfold is_byte in Hb; apply in_seq; lia).
  specialize (Hc _ Hin).
  revert Hc. destruct (decode_bits (symbol_bits (Z.to_nat b)) ([], 0, O)) as [[[o c] l]|].
  2:{ discriminate. }
  intros (-> & -> & ->)%bool_decide_eq_true_1. cbn. by rewrite Z2Nat.id by (unfold is_byte in Hb; lia).
Qed.

Lemma padding_check :
  forallb (fun k => bool_decide (decode_bits (replicate k 1) ([], 0, O)
                                 = Some ([], Z.shiftl 1 (Z.of_nat k) - 1, k))
                 && bool_decide (code_bits (Z.shiftl 1 (Z.of_nat k) - 1) k = replicate k 1)) (seq 0 8) = true.
Proof. vm_compute. reflexivity. Qed.

Lemma padding_walk k : (k <= 7)%nat ->
  decode_bits (replicate k 1) ([], 0, O) = Some ([], Z.shiftl 1 (Z.of_nat k) - 1, k)
  /\ code_bits (Z.shiftl 1 (Z.of_nat k) - 1) k = replicate k 1.
Proof.
  intros Hk. pose proof padding_check as Hc. rewrite forallb_forall in Hc.
  specialize (Hc k ltac:(apply in_seq; lia)).
  by apply andb_true_iff in Hc as [?%bool_decide_eq_true_1 ?%bool_decide_eq_true_1].
Qed.

(** C4: the decoder is the inverse of the code and takes nothing else: it
    answers [s] exactly when the bits of its input are the codes of the octets
    of [s], one after the other, followed by at most seven one bits.  So every
    string any encoder writes is read back, and anything else (EOS among the
    symbols, padding that is longer or not all ones) is refused. *)
Theorem decode_spec src s :
  decode src = Some s <->
  bytes_ok s /\ exists k, (k <= 7)%nat /\ flat_map byte_bits src = encode_bits s ++ replicate k 1.
Proof.
  unfold decode. rewrite decode_bytes_bits. split.
  - intros Hd. apply bind_Some in Hd as ([[out code] len] & Hd & Hif).
    destruct (bool_decide_reflect (len <= 7)%nat) as [Hlen|]; [|done]. cbn [andb] in Hif.
    destruct (Z.eqb_spec code (Z.shiftl 1 (Z.of_nat len) - 1)) as [->|]; [|done]. injection Hif as ->.
    assert (Hbit : Forall is_bit (flat_map byte_bits src)).
    { apply Forall_flat_map, Forall_forall. intros. apply byte_bits_bit. }
    assert (Hstart : reads [] ([], 0, O)).
    { split; [done|]. split; [constructor|]. split; [done|unfold LONGEST; lia]. }
    destruct (decode_bits_reads _ [] _ _ Hbit Hstart Hd)
      as (Hbits & Hout & _ & _).
    split; [done|]. exists len. split; [done|]. rewrite app_nil_l in Hbits. rewrite Hbits.
    f_equal. by apply padding_walk.
  - intros (Hs & k & Hk & ->). rewrite decode_bits_app, decode_encoded by done. cbn [mbind option_bind].
    pose proof (decode_bits_prefix s (replicate k 1) ([], 0, O)) as Hp.
    cbv beta iota zeta in Hp. rewrite app_nil_r in Hp. rewrite Hp.
    destruct (padding_walk k Hk) as [-> _]. cbn [fmap option_fmap option_map mbind option_bind].
    rewrite app_nil_r, bool_decide_eq_true_2, Z.eqb_refl by done. done.
Qed.
