(* ===== verification/Qpack.v ===== *)
(** * QPACK with the static table alone

    [crates/rurge-net/src/quic/h3/qpack.rs]: prefix integers, string literals,
    and field sections as this client sends and takes them.  A reader that
    advances [&mut &[u8]] answers what is left.  [Qpack.section_roundtrip]:
    what [encode] writes, [decode] reads back. *)

From S2P Require Import Prelude H3Frame Huffman.

(** [STATIC_TABLE] (RFC 9204 Appendix A). *)
Definition STATIC_TEXT : list (string * string) :=
  [(":authority", "");
   (":path", "/");
   ("age", "0");
   ("content-disposition", "");
   ("content-length", "0");
   ("cookie", "");
   ("date", "");
   ("etag", "");
   ("if-modified-since", "");
   ("if-none-match", "");
   ("last-modified", "");
   ("link", "");
   ("location", "");
   ("referer", "");
   ("set-cookie", "");
   (":method", "CONNECT");
   (":method", "DELETE");
   (":method", "GET");
   (":method", "HEAD");
   (":method", "OPTIONS");
   (":method", "POST");
   (":method", "PUT");
   (":scheme", "http");
   (":scheme", "https");
   (":status", "103");
   (":status", "200");
   (":status", "304");
   (":status", "404");
   (":status", "503");
   ("accept", "*/*");
   ("accept", "application/dns-message");
   ("accept-encoding", "gzip, deflate, br");
   ("accept-ranges", "bytes");
   ("access-control-allow-headers", "cache-control");
   ("access-control-allow-headers", "content-type");
   ("access-control-allow-origin", "*");
   ("cache-control", "max-age=0");
   ("cache-control", "max-age=2592000");
   ("cache-control", "max-age=604800");
   ("cache-control", "no-cache");
   ("cache-control", "no-store");
   ("cache-control", "public, max-age=31536000");
   ("content-encoding", "br");
   ("content-encoding", "gzip");
   ("content-type", "application/dns-message");
   ("content-type", "application/javascript");
   ("content-type", "application/json");
   ("content-type", "application/x-www-form-urlencoded");
   ("content-type", "image/gif");
   ("content-type", "image/jpeg");
   ("content-type", "image/png");
   ("content-type", "text/css");
   ("content-type", "text/html; charset=utf-8");
   ("content-type", "text/plain");
   ("content-type", "text/plain;charset=utf-8");
   ("range", "bytes=0-");
   ("strict-transport-security", "max-age=31536000");
   ("strict-transport-security", "max-age=31536000; includesubdomains");
   ("strict-transport-security", "max-age=31536000; includesubdomains; preload");
   ("vary", "accept-encoding");
   ("vary", "origin");
   ("x-content-type-options", "nosniff");
   ("x-xss-protection", "1; mode=block");
   (":status", "100");
   (":status", "204");
   (":status", "206");
   (":status", "302");
   (":status", "400");
   (":status", "403");
   (":status", "421");
   (":status", "425");
   (":status", "500");
   ("accept-language", "");
   ("access-control-allow-credentials", "FALSE");
   ("access-control-allow-credentials", "TRUE");
   ("access-control-allow-headers", "*");
   ("access-control-allow-methods", "get");
   ("access-control-allow-methods", "get, post, options");
   ("access-control-allow-methods", "options");
   ("access-control-expose-headers", "content-length");
   ("access-control-request-headers", "content-type");
   ("access-control-request-method", "get");
   ("access-control-request-method", "post");
   ("alt-svc", "clear");
   ("authorization", "");
   ("content-security-policy", "script-src 'none'; object-src 'none'; base-uri 'none'");
   ("early-data", "1");
   ("expect-ct", "");
   ("forwarded", "");
   ("if-range", "");
   ("origin", "");
   ("purpose", "prefetch");
   ("server", "");
   ("timing-allow-origin", "*");
   ("upgrade-insecure-requests", "1");
   ("user-agent", "");
   ("x-forwarded-for", "");
   ("x-frame-options", "deny");
   ("x-frame-options", "sameorigin")].

Definition STATIC_TABLE : list (list Z * list Z) :=
  Eval vm_compute in map (fun e => (lit e.1, lit e.2)) STATIC_TEXT.

Inductive Refused : Type := Invalid | TooLarge.

Definition entry (index : Z) : res Refused (list Z * list Z) :=
  ok_or Invalid (STATIC_TABLE !! Z.to_nat index).

(** [put_int]: the loop writes seven bits at a time; nine bytes hold any [u64]
    less a prefix, and [put_rest_enough] shows the fuel is never used up. *)
Fixpoint put_rest (fuel : nat) (rest : Z) : list Z :=
  match fuel with
  | O => []
  | S fuel =>
      if 128 <=? rest
      then Z.lor 128 (Z.land rest 127) :: put_rest fuel (Z.shiftr rest 7)
      else [rest]
  end.

Definition put_int (flags n value : Z) : list Z :=
  let max := Z.shiftl 1 n - 1 in
  if value <? max then [Z.lor flags value]
  else Z.lor flags max :: put_rest 10 (value - max).

Definition put_string (flags n : Z) (bytes : list Z) : list Z :=
  put_int flags n (Z.of_nat (length bytes)) ++ bytes.

(** [get_int]: the loop over the bytes past the prefix; [shift] leaves it
    before it can pass 56. *)
Fixpoint get_rest (src : list Z) (value shift : Z) : res Refused (Z * list Z) :=
  match src with
  | [] => Err Invalid
  | byte :: src =>
      let value := value + Z.shiftl (Z.land byte 127) shift in
      if Z.land byte 128 =? 0 then Ok (value, src)
      else
        let shift := shift + 7 in
        if 56 <? shift then Err Invalid else get_rest src value shift
  end.

Definition get_int (src : list Z) (n : Z) : res Refused (Z * Z * list Z) :=
  match src with
  | [] => Err Invalid
  | first :: src =>
      let max := Z.shiftl 1 n - 1 in
      let value := Z.land first max in
      let flags := Z.land first (255 - max) in
      if value =? max then
        do? (value, src) <- get_rest src value 0;
        if VARINT_MAX <? value then Err Invalid else Ok (flags, value, src)
      else Ok (flags, value, src)
  end.

Definition get_string (src : list Z) (n : Z) : res Refused (list Z * list Z) :=
  do? (flags, len, src) <- get_int src n;
  if Z.of_nat (length src) <? len then Err Invalid
  else
    let bytes := take (Z.to_nat len) src in
    let src := drop (Z.to_nat len) src in
    if negb (Z.land flags (Z.shiftl 1 n) =? 0)
    then do? bytes <- ok_or Invalid (Huffman.decode bytes); Ok (bytes, src)
    else Ok (bytes, src).

(** One field line of [decode], and what is left after it. *)
Definition get_field (section : list Z) (first : Z) : res Refused (list Z * list Z * list Z) :=
  if negb (Z.land first 128 =? 0) then
    do? (flags, index, section) <- get_int section 6;
    if Z.land flags 64 =? 0 then Err Invalid
    else do? (name, value) <- entry index; Ok (name, value, section)
  else if negb (Z.land first 64 =? 0) then
    do? (flags, index, section) <- get_int section 4;
    if Z.land flags 16 =? 0 then Err Invalid
    else
      do? (name, _) <- entry index;
      do? (value, section) <- get_string section 7;
      Ok (name, value, section)
  else if negb (Z.land first 32 =? 0) then
    do? (name, section) <- get_string section 3;
    do? (value, section) <- get_string section 7;
    Ok (name, value, section)
  else Err Invalid.

(** The loop of [decode]; [None] is fuel used up, which [decode_total]
    excludes. *)
Fixpoint get_fields (fuel : nat) (section : list Z) (limit size : Z) (fields : list (list Z * list Z))
  : option (res Refused (list (list Z * list Z))) :=
  match section with
  | [] => Some (Ok fields)
  | first :: _ =>
      match fuel with
      | O => None
      | S fuel =>
          match get_field section first with
          | Err e => Some (Err e)
          | Ok (name, value, section) =>
              let size := size + Z.of_nat (length name + length value) + 32 in
              if limit <? size then Some (Err TooLarge)
              else get_fields fuel section limit size (fields ++ [(name, value)])
          end
      end
  end.

Definition decode (section : list Z) (limit : Z) : option (res Refused (list (list Z * list Z))) :=
  match get_int section 8 with
  | Err e => Some (Err e)
  | Ok (_, required, section) =>
      match get_int section 7 with
      | Err e => Some (Err e)
      | Ok (sign, _, section) =>
          if negb (required =? 0) || negb (sign =? 0) then Some (Err Invalid)
          else get_fields (length section) section limit 0 []
      end
  end.

(** [encode]: [iter().position]. *)
Fixpoint position {A} (p : A -> bool) (l : list A) : option nat :=
  match l with
  | [] => None
  | x :: l => if p x then Some O else S <$> position p l
  end.

Definition encode_field (f : list Z * list Z * bool) : list Z :=
  let '(name, value, sensitive) := f in
  let exact := position (fun e => bool_decide (e.1 = name) && bool_decide (e.2 = value)) STATIC_TABLE in
  let named := position (fun e => bool_decide (e.1 = name)) STATIC_TABLE in
  match (if sensitive then None else exact), named with
  | Some index, _ => put_int 192 6 (Z.of_nat index)
  | None, Some index =>
      put_int (Z.lor 80 (if sensitive then 32 else 0)) 4 (Z.of_nat index) ++ put_string 0 7 value
  | None, None =>
      put_string (Z.lor 32 (if sensitive then 16 else 0)) 3 name ++ put_string 0 7 value
  end.

Definition encode (fields : list (list Z * list Z * bool)) : list Z :=
  [0; 0] ++ flat_map encode_field fields.
