(* ===== verification/QpackProps.v ===== *)
(** * What QPACK promises

    Properties of [crates/rurge-net/src/quic/h3/qpack.rs]: prefix integers and
    field sections are read back, decoding ends on every input and keeps the
    limit. *)

From S2P Require Import Prelude H3Frame Huffman Qpack.

(** ** Prefix integers *)

(** The lengths of prefix the format uses. *)
Definition prefix_ok (n : Z) : Prop := n = 3 \/ n = 4 \/ n = 6 \/ n = 7 \/ n = 8.

Lemma prefix_bits n b : prefix_ok n -> is_byte b ->
  Z.land b (Z.shiftl 1 n - 1) = b mod 2 ^ n /\ Z.land b (255 - (Z.shiftl 1 n - 1)) = b - b mod 2 ^ n.
Proof.
  intros Hn Hb. destruct Hn as [-> | [-> | [-> | [-> | ->]]]]; by_byte_check b Hb.
Qed.

Lemma lor_prefix n f v : prefix_ok n -> 0 <= v < 2 ^ n -> Z.lor (f * 2 ^ n) v = f * 2 ^ n + v.
Proof.
  intros Hn Hv. rewrite <- Z.shiftl_mul_pow2 by (destruct Hn as [-> | [-> | [-> | [-> | ->]]]]; lia).
  rewrite lor_shiftl_add; [by rewrite Z.shiftl_mul_pow2 by (destruct Hn as [-> | [-> | [-> | [-> | ->]]]]; lia)
                          |destruct Hn as [-> | [-> | [-> | [-> | ->]]]]; lia|done].
Qed.

Lemma rest_byte b : is_byte b -> b < 128 ->
  Z.land (Z.lor 128 b) 127 = b /\ Z.land (Z.lor 128 b) 128 <> 0 /\ Z.land b 127 = b /\ Z.land b 128 = 0.
Proof. intros Hb. by_byte_check b Hb. Qed.

Lemma put_rest_S fuel v : put_rest (S fuel) v =
  if 128 <=? v then Z.lor 128 (Z.land v 127) :: put_rest fuel (Z.shiftr v 7) else [v].
Proof. done. Qed.

Lemma get_put_rest fuel v acc k rest : (k <= 8)%nat ->
  0 <= v -> v < 128 ^ Z.of_nat (S fuel) -> v < 128 ^ (9 - Z.of_nat k) ->
  get_rest (put_rest (S fuel) v ++ rest) acc (7 * Z.of_nat k) = Ok (acc + v * 128 ^ Z.of_nat k, rest).
Proof.
  revert v acc k. induction fuel as [|fuel IH]; intros v acc k Hk Hv Hf Hlt;
    (assert (H128 : forall x, Z.shiftl x (7 * Z.of_nat k) = x * 128 ^ Z.of_nat k) by
      (intros x; rewrite Z.shiftl_mul_pow2, Z.pow_mul_r by lia; done));
    rewrite put_rest_S; destruct (Z.leb_spec 128 v) as [Hge|Hsmall].
  1:{ change (128 ^ Z.of_nat 1) with 128 in Hf. lia. }
  2:{ assert (Hk8 : (k < 8)%nat).
    { destruct (decide (k = 8)%nat) as [->|]; [|lia]. change (9 - Z.of_nat 8) with 1 in Hlt. lia. }
    change 127 with (Z.ones 7). rewrite Z.land_ones by lia. change (2 ^ 7) with 128.
    pose proof (Z.mod_pos_bound v 128 ltac:(lia)) as Hm.
    destruct (rest_byte (v mod 128)) as (H1 & H2 & _); [unfold is_byte; lia|lia|].
    cbn [app get_rest]. rewrite H1, (proj2 (Z.eqb_neq _ 0)) by done.
    rewrite (proj2 (Z.ltb_ge _ _)) by lia. rewrite Z.shiftr_div_pow2 by lia. change (2 ^ 7) with 128.
    replace (7 * Z.of_nat k + 7) with (7 * Z.of_nat (S k)) by lia.
    rewrite Nat2Z.inj_succ, Z.pow_succ_r in Hf by lia.
    replace (9 - Z.of_nat k) with (Z.succ (9 - Z.of_nat (S k))) in Hlt by lia.
    rewrite Z.pow_succ_r in Hlt by lia.
    rewrite IH; [|lia|apply Z.div_pos; lia|apply Z.div_lt_upper_bound; lia|apply Z.div_lt_upper_bound; lia].
    rewrite H128, Nat2Z.inj_succ, Z.pow_succ_r by lia. do 2 f_equal.
    pose proof (Z.div_mod v 128 ltac:(lia)) as Hd. rewrite Hd at 3. ring. }
  all: destruct (rest_byte v) as (_ & _ & H1 & H2); [unfold is_byte; lia|lia|];
    cbn [app get_rest]; by rewrite H1, H2, H128.
Qed.

(** How [get_int] starts on what [put_int] wrote. *)
Lemma put_int_head flags n v : exists l, put_int flags n v
  = Z.lor flags (Z.min v (Z.shiftl 1 n - 1)) :: l /\ (v < Z.shiftl 1 n - 1 -> l = []).
Proof.
  unfold put_int. destruct (Z.ltb_spec v (Z.shiftl 1 n - 1)).
  - exists []. by rewrite Z.min_l by lia.
  - eexists. rewrite Z.min_r by lia. split; [done|lia].
Qed.

Lemma get_put_int f n v rest : prefix_ok n -> 0 <= f -> f * 2 ^ n + 2 ^ n <= 256 ->
  0 <= v <= VARINT_MAX ->
  get_int (put_int (f * 2 ^ n) n v ++ rest) n = Ok (f * 2 ^ n, v, rest).
Proof.
  intros Hn Hf Hfl Hv. unfold put_int.
  assert (Hmax : Z.shiftl 1 n - 1 = 2 ^ n - 1 /\ 0 < 2 ^ n)
    by (destruct Hn as [-> | [-> | [-> | [-> | ->]]]]; split; [reflexivity|lia|reflexivity|lia|reflexivity|lia|reflexivity|lia|reflexivity|lia]).
  destruct Hmax as [Hmax Hpos].
  assert (Hfirst : forall x, 0 <= x < 2 ^ n -> is_byte (f * 2 ^ n + x) /\ (f * 2 ^ n + x) mod 2 ^ n = x).
  { intros x Hx. split; [unfold is_byte; nia|]. rewrite Z.add_comm, Z.mod_add by lia. by apply Z.mod_small. }
  destruct (Z.ltb_spec v (Z.shiftl 1 n - 1)) as [Hlt|Hge].
  - rewrite lor_prefix by (try done; lia). destruct (Hfirst v ltac:(lia)) as [Hb Hm].
    cbn [app get_int]. destruct (prefix_bits n _ Hn Hb) as [-> ->]. rewrite Hm.
    rewrite (proj2 (Z.eqb_neq _ _)) by lia. do 3 f_equal. lia.
  - rewrite lor_prefix by (try done; lia). destruct (Hfirst (Z.shiftl 1 n - 1) ltac:(lia)) as [Hb Hm].
    cbn [app get_int]. destruct (prefix_bits n _ Hn Hb) as [-> ->]. rewrite Hm, Z.eqb_refl.
    assert (VARINT_MAX < 128 ^ 9) by (by vm_compute).
    assert (VARINT_MAX < 128 ^ Z.of_nat 10) by (by vm_compute).
    change 0 with (7 * Z.of_nat 0) at 1. rewrite get_put_rest; [|lia|lia|lia|].
    2:{ change (9 - Z.of_nat 0) with 9. lia. }
    cbn [res_bind]. rewrite Z.pow_0_r, Z.mul_1_r.
    replace (Z.shiftl 1 n - 1 + (v - (Z.shiftl 1 n - 1))) with v by lia.
    rewrite (proj2 (Z.ltb_ge _ _)) by lia. do 3 f_equal. lia.
Qed.

(** ** Strings *)

Lemma get_put_string f n bytes rest : prefix_ok n -> 0 <= f -> f * 2 ^ n + 2 ^ n <= 256 ->
  Z.land (f * 2 ^ n) (Z.shiftl 1 n) = 0 -> Z.of_nat (length bytes) <= VARINT_MAX ->
  get_string (put_string (f * 2 ^ n) n bytes ++ rest) n = Ok (bytes, rest).
Proof.
  intros Hn Hf Hfl Hh Hl. unfold get_string, put_string. rewrite <- app_assoc, get_put_int by (done || lia).
  cbn [res_bind]. rewrite (proj2 (Z.ltb_ge _ _)) by (rewrite length_app; lia). rewrite Hh. cbn [Z.eqb negb].
  by rewrite Nat2Z.id, take_app_length, drop_app_length.
Qed.

(** ** Field lines *)

Lemma position_Some {A} (p : A -> bool) l i : position p l = Some i -> exists x, l !! i = Some x /\ p x = true.
Proof.
  revert i. induction l as [|y l IH]; intros i; simpl; [done|]. destruct (p y) eqn:Hp.
  - intros [= <-]. by exists y.
  - intros Hi. destruct (position p l) as [j|]; [|done]. injection Hi as <-. apply (IH j eq_refl).
Qed.

Lemma entry_position p i : position p STATIC_TABLE = Some i ->
  exists e, entry (Z.of_nat i) = Ok e /\ p e = true /\ 0 <= Z.of_nat i <= 98.
Proof.
  intros Hi. apply position_Some in Hi as (e & He & Hp). exists e. unfold entry. rewrite Nat2Z.id, He.
  split; [done|]. split; [done|]. apply lookup_lt_Some in He. change (length STATIC_TABLE) with 99%nat in He. lia.
Qed.

Definition field_ok (f : list Z * list Z * bool) : Prop :=
  Z.of_nat (length f.1.1) <= VARINT_MAX /\ Z.of_nat (length f.1.2) <= VARINT_MAX.

Lemma first_byte_indexed v : 0 <= v -> Z.land (Z.lor 192 (Z.min v 63)) 128 <> 0.
Proof.
  intros Hv. assert (Hb : is_byte (Z.min v 63)) by (unfold is_byte; lia).
  revert Hb. generalize (Z.min v 63). intros b Hb. by_byte_check b Hb.
Qed.

Lemma first_byte_named (s : bool) v : 0 <= v ->
  let b := Z.lor (Z.lor 80 (if s then 32 else 0)) (Z.min v 15) in Z.land b 128 = 0 /\ Z.land b 64 <> 0.
Proof.
  intros Hv b. subst b. assert (Hb : is_byte (Z.min v 15) /\ Z.min v 15 <= 15) by (unfold is_byte; lia).
  revert Hb. generalize (Z.min v 15). intros b [Hb Hle]. revert Hle. destruct s; by_byte_check b Hb.
Qed.

Lemma first_byte_literal (s : bool) v : 0 <= v ->
  let b := Z.lor (Z.lor 32 (if s then 16 else 0)) (Z.min v 7) in
  Z.land b 128 = 0 /\ Z.land b 64 = 0 /\ Z.land b 32 <> 0.
Proof.
  intros Hv b. subst b. assert (Hb : is_byte (Z.min v 7) /\ Z.min v 7 <= 7) by (unfold is_byte; lia).
  revert Hb. generalize (Z.min v 7). intros b [Hb Hle]. revert Hle. destruct s; by_byte_check b Hb.
Qed.

Lemma VARINT_MAX_98 : 98 <= VARINT_MAX.
Proof. by vm_compute. Qed.

Lemma get_encoded_field f rest : field_ok f ->
  exists b l, encode_field f ++ rest = b :: l /\
    get_field (encode_field f ++ rest) b = Ok (f.1.1, f.1.2, rest).
Proof.
  destruct f as [[name value] s]. intros [Hn Hv]; cbn [fst snd] in *. unfold encode_field.
  pose proof VARINT_MAX_98 as H98.
  destruct (if s then None else _) as [i|] eqn:He.
  - destruct s; [done|]. apply entry_position in He as (e & He & Hp & Hi).
    apply andb_true_iff in Hp as [<-%bool_decide_eq_true_1 <-%bool_decide_eq_true_1].
    destruct (put_int_head 192 6 (Z.of_nat i)) as (l & Hl & _).
    exists (Z.lor 192 (Z.min (Z.of_nat i) 63)), (l ++ rest). rewrite Hl at 1. split; [done|].
    unfold get_field. rewrite (proj2 (Z.eqb_neq _ 0)) by (apply first_byte_indexed; lia). cbn [negb].
    change 192 with (3 * 2 ^ 6) at 1. rewrite get_put_int; [|unfold prefix_ok; lia|lia|lia|lia].
    cbn [res_bind]. change (Z.land (3 * 2 ^ 6) 64 =? 0) with false. cbv iota. rewrite He. by destruct e.
  - clear He. destruct (position _ _) as [i|] eqn:He.
    + apply entry_position in He as (e & He & Hp%bool_decide_eq_true_1 & Hi). subst name.
      set (fl := Z.lor 80 (if s then 32 else 0)).
      destruct (put_int_head fl 4 (Z.of_nat i)) as (l & Hl & _).
      exists (Z.lor fl (Z.min (Z.of_nat i) 15)), (l ++ put_string 0 7 value ++ rest).
      rewrite <- app_assoc. rewrite Hl at 1. split; [done|].
      destruct (first_byte_named s (Z.of_nat i) ltac:(lia)) as [H1 H2]. fold fl in H1, H2.
      unfold get_field. rewrite H1, (proj2 (Z.eqb_neq _ 0) H2). cbn [Z.eqb negb].
      assert (Hfl : fl = (if s then 7 else 5) * 2 ^ 4) by (by destruct s). rewrite Hfl.
      rewrite get_put_int; [|unfold prefix_ok; lia|destruct s; lia|destruct s; lia|lia]. cbn [res_bind].
      rewrite (proj2 (Z.eqb_neq _ 0)) by (by destruct s). rewrite He. destruct e as [en ev]. cbn [res_bind fst].
      change 0 with (0 * 2 ^ 7) at 1. rewrite get_put_string; [done|unfold prefix_ok; lia|lia|lia|done|done].
    + clear He. set (fl := Z.lor 32 (if s then 16 else 0)).
      destruct (put_int_head fl 3 (Z.of_nat (length name))) as (l & Hl & _).
      exists (Z.lor fl (Z.min (Z.of_nat (length name)) 7)), (l ++ name ++ put_string 0 7 value ++ rest).
      rewrite <- !app_assoc. split.
      { unfold put_string at 1. rewrite Hl. cbn [app]. by rewrite <- !app_assoc. }
      destruct (first_byte_literal s (Z.of_nat (length name)) ltac:(lia)) as (H1 & H2 & H3). fold fl in H1, H2, H3.
      unfold get_field. rewrite H1, H2, (proj2 (Z.eqb_neq _ 0) H3). cbn [Z.eqb negb].
      assert (Hfl : fl = (if s then 6 else 4) * 2 ^ 3) by (by destruct s). rewrite Hfl.
      rewrite get_put_string; [|unfold prefix_ok; lia|destruct s; lia|destruct s; lia|by destruct s|done].
      cbn [res_bind]. change 0 with (0 * 2 ^ 7) at 1.
      rewrite get_put_string; [done|unfold prefix_ok; lia|lia|lia|done|done].
Qed.

(** ** Decoding ends *)

Lemma get_rest_shorter src v s w rest : get_rest src v s = Ok (w, rest) -> (length rest < length src)%nat.
Proof.
  revert v s. induction src as [|b src IH]; intros v s; cbn [get_rest]; [done|].
  case_match; [intros [= _ <-]; simpl; lia|]. case_match; [done|]. intros Hrec%IH. simpl. lia.
Qed.

Lemma get_int_shorter src n fl v rest : get_int src n = Ok (fl, v, rest) -> (length rest < length src)%nat.
Proof.
  destruct src as [|b src]; cbn [get_int]; [done|]. case_match; [|intros [= _ _ <-]; simpl; lia].
  destruct (get_rest src _ 0) as [[w r]|] eqn:Hr; cbn [res_bind]; [|done]. case_match; [done|].
  intros [= _ _ <-]. apply get_rest_shorter in Hr. simpl. lia.
Qed.

Lemma get_string_shorter src n bytes rest : get_string src n = Ok (bytes, rest) -> (length rest < length src)%nat.
Proof.
  unfold get_string. destruct (get_int src n) as [[[fl len] r]|] eqn:Hi; cbn [res_bind]; [|done].
  apply get_int_shorter in Hi. case_match; [done|].
  assert (length (drop (Z.to_nat len) r) <= length r)%nat by (rewrite length_drop; lia).
  case_match; [|intros [= _ <-]; lia].
  destruct (ok_or Invalid _) as [bs|]; cbn [res_bind]; [|done]. intros [= _ <-]. lia.
Qed.

Lemma get_field_shorter src b name value rest :
  get_field src b = Ok (name, value, rest) -> (length rest < length src)%nat.
Proof.
  unfold get_field. repeat case_match; try done.
  - destruct (get_int src 6) as [[[fl ix] r]|] eqn:Hi; cbn [res_bind]; [|done]. case_match; [done|].
    destruct (entry ix) as [[en ev]|]; cbn [res_bind]; [|done]. intros [= _ _ <-]. by eapply get_int_shorter.
  - destruct (get_int src 4) as [[[fl ix] r]|] eqn:Hi; cbn [res_bind]; [|done]. case_match; [done|].
    destruct (entry ix) as [[en ev]|]; cbn [res_bind]; [|done].
    destruct (get_string r 7) as [[bs r2]|] eqn:Hs; cbn [res_bind]; [|done]. intros [= _ _ <-].
    apply get_int_shorter in Hi. apply get_string_shorter in Hs. lia.
  - destruct (get_string src 3) as [[nm r]|] eqn:Hi; cbn [res_bind]; [|done].
    destruct (get_string r 7) as [[bs r2]|] eqn:Hs; cbn [res_bind]; [|done]. intros [= _ _ <-].
    apply get_string_shorter in Hi. apply get_string_shorter in Hs. lia.
Qed.

(** The size of a field section (RFC 9114 4.2.2). *)
Definition section_size (fields : list (list Z * list Z)) : Z :=
  Z.of_nat (sum_list_with (fun f => length f.1 + length f.2 + 32)%nat fields).

Lemma section_size_cons f fields :
  section_size (f :: fields) = Z.of_nat (length f.1 + length f.2) + 32 + section_size fields.
Proof. unfold section_size. cbn [sum_list_with]. lia. Qed.

Lemma section_size_snoc f fields :
  section_size (fields ++ [f]) = section_size fields + Z.of_nat (length f.1 + length f.2) + 32.
Proof. unfold section_size. rewrite sum_list_with_app. cbn [sum_list_with]. lia. Qed.

Lemma get_fields_total fuel src limit fields : (length src <= fuel)%nat ->
  section_size fields <= limit ->
  exists r, get_fields fuel src limit (section_size fields) fields = Some r
    /\ forall out, r = Ok out -> section_size out <= limit.
Proof.
  revert src fields. induction fuel as [|fuel IH]; intros src fields Hf Hs;
    destruct src as [|b src']; cbn [get_fields]; try (eexists; split; [reflexivity|]; by intros out [= <-]).
  { simpl in Hf. lia. }
  set (src := b :: src') in *. destruct (get_field src b) as [[[name value] rest]|e] eqn:Hg.
  - apply get_field_shorter in Hg.
    destruct (Z.ltb_spec limit (section_size fields + Z.of_nat (length name + length value) + 32)) as [Hl|Hl].
    { eexists. split; [reflexivity|done]. }
    pose proof (section_size_snoc (name, value) fields) as Hsn. cbn [fst snd] in Hsn. rewrite <- Hsn in *.
    apply IH; lia.
  - eexists. split; [reflexivity|done].
Qed.

Lemma get_encoded_fields fields fuel limit done_ : Forall field_ok fields ->
  (length (flat_map encode_field fields) <= fuel)%nat ->
  section_size (done_ ++ fields.*1) <= limit ->
  get_fields fuel (flat_map encode_field fields) limit (section_size done_) done_
  = Some (Ok (done_ ++ fields.*1)).
Proof.
  revert fuel done_. induction fields as [|f fields IH]; intros fuel done_ Hok Hf Hl.
  { cbn [flat_map fmap list_fmap]. rewrite app_nil_r. by destruct fuel. }
  apply Forall_cons in Hok as [Hfo Hok].
  destruct (get_encoded_field f (flat_map encode_field fields) Hfo) as (b & l & Hbl & Hg).
  cbn [flat_map fmap list_fmap] in *. pose proof (get_field_shorter _ _ _ _ _ Hg) as Hsh.
  destruct fuel as [|fuel]; [lia|]. rewrite Hbl in *. cbn [get_fields]. rewrite Hg.
  replace (done_ ++ f.1 :: fields.*1) with ((done_ ++ [f.1]) ++ fields.*1) in * by (by rewrite <- app_assoc).
  pose proof (section_size_snoc f.1 done_) as Hsn. rewrite <- Hsn.
  assert (Hmono : section_size (done_ ++ [f.1]) <= section_size ((done_ ++ [f.1]) ++ fields.*1)).
  { unfold section_size. rewrite (sum_list_with_app _ (done_ ++ [f.1])). lia. }
  rewrite (proj2 (Z.ltb_ge _ _)) by lia. replace (f.1.1, f.1.2) with f.1 by (by destruct f.1).
  apply IH; [done|lia|done].
Qed.

(** What [encode] writes, [decode] reads back: every field, in order, name
    and value, sensitive or not, found in the static table or not, as long as
    the section is within the limit. *)
Theorem section_roundtrip fields limit : Forall field_ok fields -> section_size fields.*1 <= limit ->
  Qpack.decode (encode fields) limit = Some (Ok fields.*1).
Proof.
  intros Hok Hl. unfold Qpack.decode, encode. cbn [app].
  change (get_int (0 :: 0 :: ?l) 8) with (Ok (E := Refused) (0, 0, 0 :: l)). cbv beta iota zeta.
  change (get_int (0 :: ?l) 7) with (Ok (E := Refused) (0, 0, l)). cbv beta iota zeta. cbn [Z.eqb negb orb].
  change 0 with (section_size []). change (fields.*1) with ([] ++ fields.*1). by apply get_encoded_fields.
Qed.

Definition demo_fields : list (list Z * list Z * bool) :=
  [((lit ":method", lit "CONNECT"), false); ((lit ":authority", lit "example.com:443"), false);
   ((lit "authorization", lit "Basic eA=="), true); ((lit "x-padding", replicate 300 126), false)].

Lemma section_roundtrip_witness : Qpack.decode (encode demo_fields) 1000 = Some (Ok demo_fields.*1).
Proof.
  apply (section_roundtrip demo_fields 1000).
  - repeat (apply Forall_cons; split; [split; vm_compute; discriminate|]). constructor.
  - vm_compute. discriminate.
Defined.

(** Decoding ends on every input, and what it takes is within the limit
    on field sections. *)
Theorem section_decode_total src limit : 0 <= limit -> exists r, Qpack.decode src limit = Some r
  /\ forall fields, r = Ok fields -> section_size fields <= limit.
Proof.
  intros Hl. unfold Qpack.decode. destruct (get_int src 8) as [[[fl req] r1]|]; [|by eexists].
  destruct (get_int r1 7) as [[[sign ix] r2]|]; [|by eexists]. case_match; [by eexists|].
  by apply (get_fields_total (length r2) r2 limit []).
Qed.

Lemma section_decode_total_witness : exists r, Qpack.decode [0; 0; 80; 255] 100 = Some r.
Proof. destruct (section_decode_total [0; 0; 80; 255] 100) as (r & Hr & _); [lia|]. exists r. exact Hr. Defined.
