(* ===== verification/Bytes.v ===== *)
(** * Byte strings by position

    [slice::get] with an index and with a range, as the parsers of the
    sources use them, with positions and lengths in [Z]. *)

From S2P Require Import Prelude.

(** ** Bytes at a position *)

Definition zlen {A} (l : list A) : Z := Z.of_nat (length l).

(** [buf.get(at)]. *)
Definition get {A} (buf : list A) (at_ : Z) : option A :=
  if (0 <=? at_) && (at_ <? zlen buf) then buf !! Z.to_nat at_ else None.

(** [buf.get(from..to)]. *)
Definition get_range {A} (buf : list A) (from to : Z) : option (list A) :=
  if (0 <=? from) && (from <=? to) && (to <=? zlen buf)
  then Some (take (Z.to_nat (to - from)) (drop (Z.to_nat from) buf)) else None.

(** ** Lists by position *)

Lemma zlen_nonneg {A} (l : list A) : 0 <= zlen l.
Proof. unfold zlen. lia. Qed.

Lemma zlen_app {A} (a b : list A) : zlen (a ++ b) = zlen a + zlen b.
Proof. unfold zlen. rewrite length_app. lia. Qed.

Lemma zlen_cons {A} (x : A) l : zlen (x :: l) = 1 + zlen l.
Proof. unfold zlen. simpl. lia. Qed.

Lemma get_range_Some {A} (l : list A) a b : 0 <= a -> a <= b -> b <= zlen l ->
  get_range l a b = Some (take (Z.to_nat (b - a)) (drop (Z.to_nat a) l)).
Proof.
  intros. unfold get_range. rewrite !(proj2 (Z.leb_le _ _)) by lia. done.
Qed.

Lemma get_range_inv {A} (l : list A) a b r : get_range l a b = Some r ->
  0 <= a <= b /\ b <= zlen l /\ zlen r = b - a
  /\ forall k, 0 <= k < b - a -> r !! Z.to_nat k = l !! Z.to_nat (a + k).
Proof.
  unfold get_range. case_match eqn:Hc; [|done]. intros [= <-]. unfold zlen in *.
  split; [lia|]. split; [lia|]. rewrite length_take, length_drop. split; [lia|].
  intros k Hk. rewrite lookup_take_lt by lia. rewrite lookup_drop. f_equal. lia.
Qed.

Lemma get_Some {A} (l : list A) i x : get l i = Some x -> 0 <= i < zlen l /\ l !! Z.to_nat i = Some x.
Proof. unfold get. case_match eqn:Hc; [|done]. intros ?. split; [lia|done]. Qed.

Lemma lookup_zlen {A} (l : list A) i : 0 <= i < zlen l -> is_Some (l !! Z.to_nat i).
Proof. intros Hi. apply lookup_lt_is_Some. unfold zlen in Hi. lia. Qed.

(** Two lists with the same bytes at the same places. *)
Lemma zlist_eq {A} (a b : list A) : zlen a = zlen b ->
  (forall k, 0 <= k < zlen a -> a !! Z.to_nat k = b !! Z.to_nat k) -> a = b.
Proof.
  intros Hl Hk. apply list_eq. intros i. destruct (decide (i < length a)%nat) as [Hi|Hi].
  - specialize (Hk (Z.of_nat i)). rewrite Nat2Z.id in Hk. apply Hk. unfold zlen. lia.
  - unfold zlen in Hl. rewrite !lookup_ge_None_2 by lia. done.
Qed.

Lemma get_range_bytes l a b r : bytes_ok l -> get_range l a b = Some r -> bytes_ok r.
Proof.
  intros Hl. unfold get_range. case_match; [|done]. intros [= <-]. by apply Forall_take, Forall_drop.
Qed.

Lemma get_byte buf i b : bytes_ok buf -> get buf i = Some b -> 0 <= i < zlen buf /\ is_byte b.
Proof. intros Hb [Hi Hl]%get_Some. split; [done|]. by eapply Forall_lookup_1. Qed.


(** What stands where after [copy_from_slice]. *)
Lemma splice_lookup {A} (l : list A) a new k : 0 <= a -> a + zlen new <= zlen l -> 0 <= k ->
  splice l (Z.to_nat a) new !! Z.to_nat k
  = if bool_decide (a <= k < a + zlen new) then new !! Z.to_nat (k - a) else l !! Z.to_nat k.
Proof.
  unfold zlen, splice. intros Ha Hl Hk. case_bool_decide as Hin.
  - rewrite lookup_app_r by (rewrite length_take; lia). rewrite length_take.
    rewrite lookup_app_l by lia. f_equal. lia.
  - destruct (decide (k < a)).
    + rewrite lookup_app_l by (rewrite length_take; lia). by rewrite lookup_take_lt by lia.
    + rewrite lookup_app_r by (rewrite length_take; lia). rewrite length_take.
      rewrite lookup_app_r by lia. rewrite lookup_drop. f_equal. lia.
Qed.

Lemma splice_zlen {A} (l : list A) a new : 0 <= a -> a + zlen new <= zlen l ->
  zlen (splice l (Z.to_nat a) new) = zlen l.
Proof. unfold zlen. intros. rewrite splice_length by lia. done. Qed.

Lemma get_lookup {A} (l : list A) k : 0 <= k -> get l k = l !! Z.to_nat k.
Proof.
  intros Hk. unfold get, zlen. destruct (Z.ltb_spec k (Z.of_nat (length l))).
  - by rewrite (proj2 (Z.leb_le 0 k)) by lia.
  - rewrite andb_false_r. symmetry. apply lookup_ge_None_2. lia.
Qed.

(** A range that reads the same where two lists agree. *)
Lemma get_range_ext {A} (l l' : list A) a b : zlen l = zlen l' ->
  (forall k, a <= k < b -> l !! Z.to_nat k = l' !! Z.to_nat k) -> get_range l a b = get_range l' a b.
Proof.
  intros Hl Hk. unfold get_range. rewrite Hl. case_match eqn:Hc; [|done]. f_equal.
  unfold zlen in *. apply list_eq. intros i. destruct (decide (i < Z.to_nat (b - a))%nat).
  - rewrite !lookup_take_lt, !lookup_drop by lia.
    replace (Z.to_nat a + i)%nat with (Z.to_nat (a + Z.of_nat i)) by lia. apply Hk. lia.
  - rewrite !lookup_take_ge by lia. done.
Qed.

(** ** Numbers in network order *)

Lemma be16_len v : zlen (be16 v) = 2.
Proof. done. Qed.

Lemma be32_len v : zlen (be32 v) = 4.
Proof. done. Qed.

Lemma be16_bytes v : bytes_ok (be16 v).
Proof. repeat constructor; apply Z.mod_pos_bound; lia. Qed.

Lemma be32_bytes v : bytes_ok (be32 v).
Proof. repeat constructor; apply Z.mod_pos_bound; lia. Qed.

Lemma be16_of a b : is_byte a -> is_byte b -> be16 (of_be16 a b) = [a; b].
Proof.
  unfold is_byte, be16, of_be16. intros. rewrite Z.shiftr_div_pow2 by lia. change (2 ^ 8) with 256.
  f_equal; [|f_equal]; Z.div_mod_to_equations; lia.
Qed.

Lemma of_be16_be v : 0 <= v <= u16_max -> of_be16 (Z.shiftr v 8 mod 256) (v mod 256) = v.
Proof.
  unfold of_be16, u16_max. intros. rewrite Z.shiftr_div_pow2 by lia. change (2 ^ 8) with 256.
  Z.div_mod_to_equations; lia.
Qed.

Lemma be32_of a b c d : is_byte a -> is_byte b -> is_byte c -> is_byte d ->
  be32 (of_be32 a b c d) = [a; b; c; d].
Proof.
  unfold is_byte, be32, of_be32. intros. rewrite !Z.shiftr_div_pow2 by lia.
  change (2 ^ 8) with 256. change (2 ^ 16) with 65536. change (2 ^ 24) with 16777216.
  repeat (f_equal; [Z.div_mod_to_equations; lia|]). f_equal. Z.div_mod_to_equations; lia.
Qed.

Lemma of_be32_be v : 0 <= v <= u32_max ->
  of_be32 (Z.shiftr v 24 mod 256) (Z.shiftr v 16 mod 256) (Z.shiftr v 8 mod 256) (v mod 256) = v.
Proof.
  unfold of_be32, u32_max. intros. rewrite !Z.shiftr_div_pow2 by lia.
  change (2 ^ 8) with 256. change (2 ^ 16) with 65536. change (2 ^ 24) with 16777216.
  Z.div_mod_to_equations; lia.
Qed.

Lemma of_be16_range a b : is_byte a -> is_byte b -> 0 <= of_be16 a b <= u16_max.
Proof. unfold is_byte, of_be16, u16_max. lia. Qed.

Lemma of_be32_range a b c d : is_byte a -> is_byte b -> is_byte c -> is_byte d ->
  0 <= of_be32 a b c d <= u32_max.
Proof. unfold is_byte, of_be32, u32_max. lia. Qed.

#[export] Hint Resolve be16_bytes be32_bytes : rurge.

(** Ranges of a list put together. *)
Lemma get_range_app_r {A} (l l' : list A) a b : 0 <= a ->
  get_range (l ++ l') (zlen l + a) (zlen l + b) = get_range l' a b.
Proof.
  intros Ha. unfold get_range. rewrite zlen_app.
  rewrite (Z.leb_antisym (zlen l' ) b), (Z.leb_antisym (zlen l + zlen l')).
  pose proof (zlen_nonneg l).
  replace (0 <=? zlen l + a) with (0 <=? a) by lia. replace (zlen l + a <=? zlen l + b) with (a <=? b) by lia.
  replace (zlen l + zlen l' <? zlen l + b) with (zlen l' <? b) by lia.
  case_match; [|done]. f_equal. replace (zlen l + b - (zlen l + a)) with (b - a) by lia. f_equal.
  rewrite drop_app_ge by (unfold zlen; lia). f_equal. unfold zlen. lia.
Qed.

Lemma get_range_app_l {A} (l l' : list A) a b : 0 <= a -> a <= b -> b <= zlen l ->
  get_range (l ++ l') a b = get_range l a b.
Proof.
  intros Ha Hab Hb. rewrite !get_range_Some; try done; [|rewrite zlen_app; pose proof (zlen_nonneg l'); lia].
  f_equal. unfold zlen in Hb. rewrite drop_app_le by lia. rewrite take_app_le by (rewrite length_drop; lia). done.
Qed.

Lemma get_app_r {A} (l l' : list A) a : 0 <= a -> get (l ++ l') (zlen l + a) = get l' a.
Proof.
  intros Ha. pose proof (zlen_nonneg l). rewrite !get_lookup by lia.
  rewrite lookup_app_r by (unfold zlen; lia). f_equal. unfold zlen. lia.
Qed.

(** A range that is there in another list too. *)
Lemma get_range_moves {A} (l l' : list A) a b r : get_range l a b = Some r -> b <= zlen l' ->
  (forall k, a <= k < b -> l !! Z.to_nat k = l' !! Z.to_nat k) -> get_range l' a b = Some r.
Proof.
  intros Hr Hb Hk. destruct (get_range_inv _ _ _ _ Hr) as (Ha & Hl & Hz & Hrk).
  rewrite get_range_Some by lia. f_equal. apply zlist_eq.
  - unfold zlen in *. rewrite length_take, length_drop. lia.
  - intros k Hk'. assert (k < b - a) by (unfold zlen in *; rewrite length_take, length_drop in Hk'; lia).
    rewrite lookup_take_lt by lia. rewrite lookup_drop, Hrk by lia. rewrite Hk by lia. f_equal. lia.
Qed.

(** A whole list where it stands. *)
Lemma get_range_mid {A} (l m r : list A) : get_range (l ++ m ++ r) (zlen l) (zlen l + zlen m) = Some m.
Proof.
  pose proof (zlen_nonneg m). replace (zlen l) with (zlen l + 0) at 1 by lia. rewrite get_range_app_r by lia.
  rewrite get_range_app_l by lia. rewrite get_range_Some by lia. f_equal. simpl.
  rewrite drop_0. apply take_ge. unfold zlen. lia.
Qed.
