(* ===== verification/QuicInitial.v ===== *)
(** * Reading a ClientHello out of QUIC Initial packets

    [crates/rurge-net/src/quic/initial.rs]: the header checks, the walk over
    the packets of a datagram, the frames of a packet that opens, and the
    joining of their CRYPTO bytes.  Sealing is rustls's: a parameter of the
    model, [InitialCrypto].  Positions and lengths are [Z], and an addition
    the code checks is checked; a function that slices answers [None] where
    the code would panic, and [Err] where it gives up. *)

From S2P Require Import Prelude Bytes.

Definition MIN_DATAGRAM : Z := 1200.
Definition SAMPLE : Z := 16.
Definition MIN_LENGTH : Z := 4 + SAMPLE.
Definition MAX_HELLO : Z := 64 * 1024.

(** The reasons [Hello::GaveUp] carries. *)
Inductive Why : Type :=
| CLOSED | NOT_ALLOWED | CUT_SHORT | BEYOND | CHANGED | TOO_MANY | NO_CLIENT_HELLO | TOO_LONG.

Inductive Version : Type := V1 | V2 | V1Draft.

(** rustls's Initial keys: [header_open] is [HeaderProtectionKey]'s
    [decrypt_in_place], of a sample, a first byte and four packet number bytes;
    [packet_open] is [PacketKey]'s, of a number, the bytes before the payload
    and the payload. *)
Class InitialCrypto (K : Type) := {
  client_keys : list Z -> Version -> K;
  header_open : K -> list Z -> Z -> list Z -> option (Z * list Z);
  packet_open : K -> Z -> list Z -> list Z -> option (list Z);
}.

Definition checked_add (a b : Z) : option Z := if a + b <=? u64_max then Some (a + b) else None.

(** ** The header *)

Definition quic_version (version : Z) : option Version :=
  if version =? 1 then Some V1
  else if version =? 0x6b3343cf then Some V2
  else if (0xff00001d <=? version) && (version <=? 0xff000020) then Some V1Draft
  else None.

Definition initial_kind (version : Version) : Z :=
  match version with
  | V2 => 1
  | _ => 0
  end.

Definition varint (buf : list Z) (at_ : Z) : option (Z * Z) :=
  first ← get buf at_;
  let len := Z.shiftl 1 (Z.shiftr first 6) in
  end_ ← checked_add at_ len;
  bytes ← get_range buf at_ end_;
  Some (fold_left (fun value byte => Z.lor (Z.shiftl value 8 mod 2 ^ 64) byte) (drop 1 bytes) (Z.land first 63), len).

Definition packet_number (largest : option Z) (truncated len : Z) : Z :=
  let expected := match largest with Some l => l + 1 | None => 0 end in
  let win := Z.shiftl 1 (len * 8) in
  let hwin := win / 2 in
  let mask := win - 1 in
  let candidate := Z.lor (Z.land expected (u64_max - mask)) truncated in
  if (candidate + hwin <=? expected) && (candidate <? 2 ^ 62 - win) then candidate + win
  else if (expected + hwin <? candidate) && (win <=? candidate) then candidate - win
  else candidate.

(** [next_varint]: the value, and the position after it. *)
Definition next_varint (buf : list Z) (at_ : Z) : res Why (Z * Z) :=
  match varint buf at_ with
  | None => Err CUT_SHORT
  | Some (value, used) => Ok (value, at_ + used)
  end.

Record Header := mkHeader {
  version : Version;
  dcid : list Z;
  pn_offset : Z;
  hlength : Z;
}.

Definition header (datagram : list Z) : option Header :=
  _ ← require (negb (zlen datagram <? MIN_DATAGRAM));
  first ← get datagram 0;
  _ ← require (negb (Z.land first 128 =? 0));
  wire ← get_range datagram 1 5;
  version ← match wire with [a; b; c; d] => quic_version (of_be32 a b c d) | _ => None end;
  _ ← require (Z.land (Z.shiftr first 4) 3 =? initial_kind version);
  dcid_len ← get datagram 5;
  _ ← require ((1 <=? dcid_len) && (dcid_len <=? 20));
  dcid ← get_range datagram 6 (6 + dcid_len);
  let at_ := 6 + dcid_len in
  scid_len ← get datagram at_;
  _ ← require (negb (20 <? scid_len));
  let at_ := at_ + (1 + scid_len) in
  '(token_len, used) ← varint datagram at_;
  at_ ← checked_add at_ used;
  at_ ← checked_add at_ token_len;
  '(length, used) ← varint datagram at_;
  at_ ← checked_add at_ used;
  _ ← require (negb (length <? MIN_LENGTH));
  end_ ← checked_add at_ length;
  _ ← require (negb (zlen datagram <? end_));
  Some (mkHeader version dcid at_ length).

(** ** The CRYPTO bytes that have arrived *)

Abbreviation Piece := (Z * list Z)%type.

Record Pieces := mkPieces {
  pieces : list Piece;
  whole : option Z;
}.

Definition piece_end (p : Piece) : Z := p.1 + zlen p.2.

(** [fill_from]. *)
Definition fill_from (into : list Z) (from to start len : Z) (bytes : list Z) : option (list Z) :=
  let lo := Z.max from start in
  let hi := Z.min to (start + len) in
  if hi <=? lo then Some into
  else
    let dst := lo - from in
    let skip := lo - start in
    let take_ := hi - lo in
    if dst + take_ <=? zlen into
    then Some (splice into (Z.to_nat dst) (take (Z.to_nat take_) (drop (Z.to_nat skip) bytes)))
    else None.

(** [partition_point], of a list [p] splits in two. *)
Fixpoint partition_point {A} (p : A -> bool) (l : list A) : nat :=
  match l with
  | [] => 0
  | x :: l => if p x then S (partition_point p l) else 0
  end.

(** The bytes the new ones share with one piece are the same; a range that
    is not there is a panic. *)
Definition same_bytes (offset end_ : Z) (data : list Z) (p : Piece) : option bool :=
  let from := Z.max offset p.1 in
  let to := Z.min end_ (piece_end p) in
  if from <? to then
    ours ← get_range data (from - offset) (to - offset);
    theirs ← get_range p.2 (from - p.1) (to - p.1);
    Some (bool_decide (ours = theirs))
  else Some true.

Fixpoint all_same (offset end_ : Z) (data : list Z) (ps : list Piece) : option bool :=
  match ps with
  | [] => Some true
  | p :: ps =>
      same ← same_bytes offset end_ data p;
      if (same : bool) then all_same offset end_ data ps else Some false
  end.

(** [max_by_key]: the last of the longest, by its place in [ps]. *)
Fixpoint longest_from (at_ best : nat) (best_len : Z) (ps : list Piece) : nat :=
  match ps with
  | [] => best
  | p :: ps =>
      if best_len <=? zlen p.2 then longest_from (S at_) at_ (zlen p.2) ps
      else longest_from (S at_) best best_len ps
  end.

Definition longest (ps : list Piece) : option nat :=
  match ps with
  | [] => None
  | p :: ps => Some (longest_from 1 0 (zlen p.2) ps)
  end.

(** The loop that writes what the other pieces leave around the kept one. *)
Fixpoint fill_others (keep at_ : nat) (start keep_start keep_end end_ : Z) (ps : list Piece)
    (before after : list Z) : option (list Z * list Z) :=
  match ps with
  | [] => Some (before, after)
  | p :: ps =>
      if decide (at_ = keep) then fill_others keep (S at_) start keep_start keep_end end_ ps before after
      else
        before ← fill_from before start keep_start p.1 (zlen p.2) p.2;
        after ← fill_from after keep_end end_ p.1 (zlen p.2) p.2;
        fill_others keep (S at_) start keep_start keep_end end_ ps before after
  end.

(** The merge of the new bytes with the pieces [ps] they touch. *)
Definition merge (offset end_ : Z) (data : list Z) (ps : list Piece) : option Piece :=
  first ← head ps;
  last_ ← last ps;
  let start := Z.min offset first.1 in
  let end_ := Z.max end_ (piece_end last_) in
  keep ← longest ps;
  kept ← ps !! keep;
  let keep_start := kept.1 in
  let keep_end := piece_end kept in
  before ← fill_from (replicate (Z.to_nat (keep_start - start)) 0) start keep_start offset (zlen data) data;
  after ← fill_from (replicate (Z.to_nat (end_ - keep_end)) 0) keep_end end_ offset (zlen data) data;
  '(before, after) ← fill_others keep 0 start keep_start keep_end end_ ps before after;
  Some (start, before ++ kept.2 ++ after).

(** [see_head]. *)
Definition see_head (s : Pieces) : res Why Pieces :=
  match pieces s with
  | [] => Ok s
  | (start, bytes) :: _ =>
      if negb (start =? 0) then Ok s
      else
        match bytes with
        | b0 :: b1 :: b2 :: b3 :: _ =>
            if negb (b0 =? 1) then Err NO_CLIENT_HELLO
            else
              let whole := 4 + of_be32 0 b1 b2 b3 in
              if MAX_HELLO <? whole then Err TOO_LONG
              else if whole <=? zlen bytes then Ok (mkPieces (pieces s) (Some whole))
              else Ok s
        | _ => Ok s
        end
  end.

(** [add]; [None] is a panic. *)
Definition add (offset : Z) (data : list Z) (s : Pieces) : option (res Why Pieces) :=
  match checked_add offset (zlen data) with
  | None => Some (Err BEYOND)
  | Some end_ =>
      if MAX_HELLO <? end_ then Some (Err BEYOND)
      else if bool_decide (data = []) then Some (Ok s)
      else
        let ps := pieces s in
        let a := partition_point (fun p => piece_end p <? offset) ps in
        let b := partition_point (fun p : Piece => p.1 <=? end_) ps in
        let touched := take (b - a) (drop a ps) in
        same ← all_same offset end_ data touched;
        if negb same then Some (Err CHANGED)
        else if match touched with
                | [p] => (p.1 <=? offset) && (end_ <=? piece_end p)
                | _ => false
                end
        then Some (Ok s)
        else if decide (a = b) then
          let s := mkPieces (take a ps ++ (offset, data) :: drop a ps) (whole s) in
          if decide (32 < length (pieces s))%nat then Some (Err TOO_MANY) else Some (see_head s)
        else
          p ← merge offset end_ data touched;
          Some (see_head (mkPieces (take a ps ++ p :: drop b ps) (whole s)))
  end.

(** ** Frames *)

(** Skip [n] integers. *)
Fixpoint skip_varints (n : nat) (buf : list Z) (at_ : Z) : res Why Z :=
  match n with
  | O => Ok at_
  | S n => do? (_, at_) <- next_varint buf at_; skip_varints n buf at_
  end.

(** The ranges of an ACK frame, as many as it says; [None] is fuel used up. *)
Fixpoint skip_ranges (fuel : nat) (count : Z) (buf : list Z) (at_ : Z) : option (res Why Z) :=
  if count <=? 0 then Some (Ok at_)
  else
    match fuel with
    | O => None
    | S fuel =>
        match skip_varints 2 buf at_ with
        | Err why => Some (Err why)
        | Ok at_ => skip_ranges fuel (count - 1) buf at_
        end
    end.

(** One frame, its type read: where the next one starts. *)
Definition read_frame (kind : Z) (plaintext : list Z) (at_ : Z) (s : Pieces)
  : option (res Why (Z * Pieces)) :=
  if (kind =? 0) || (kind =? 1) then Some (Ok (at_, s))
  else if (kind =? 2) || (kind =? 3) then
    match do? at_ <- skip_varints 2 plaintext at_; next_varint plaintext at_ with
    | Err why => Some (Err why)
    | Ok (count, at_) =>
        match skip_varints 1 plaintext at_ with
        | Err why => Some (Err why)
        | Ok at_ =>
            r ← skip_ranges (S (length plaintext)) count plaintext at_;
            Some (do? at_ <- r;
                  do? at_ <- (if kind =? 3 then skip_varints 3 plaintext at_ else Ok at_);
                  Ok (at_, s))
        end
    end
  else if kind =? 6 then
    match do? (offset, at_) <- next_varint plaintext at_;
          do? (len, at_) <- next_varint plaintext at_;
          do? end_ <- ok_or CUT_SHORT (checked_add at_ len);
          do? data <- ok_or CUT_SHORT (get_range plaintext at_ end_);
          Ok (offset, data, end_) with
    | Err why => Some (Err why)
    | Ok (offset, data, end_) =>
        r ← add offset data s;
        Some (do? s <- r; Ok (end_, s))
    end
  else if kind =? 28 then Some (Err CLOSED)
  else Some (Err NOT_ALLOWED).

(** [read_frames]; [None] is a panic or fuel used up. *)
Fixpoint read_frames_from (fuel : nat) (plaintext : list Z) (at_ : Z) (s : Pieces) : option (res Why Pieces) :=
  match get plaintext at_ with
  | None => Some (Ok s)
  | Some kind =>
      match fuel with
      | O => None
      | S fuel =>
          r ← read_frame kind plaintext (at_ + 1) s;
          match r with
          | Err why => Some (Err why)
          | Ok (at_, s) => read_frames_from fuel plaintext at_ s
          end
      end
  end.

Definition read_frames (plaintext : list Z) (s : Pieces) : option (res Why Pieces) :=
  read_frames_from (length plaintext) plaintext 0 s.

(** ** Packets *)

Section packets.
Context {K : Type} `{InitialCrypto K}.

(** [open]: the packet number and the plaintext of a packet the keys open. *)
Definition open (packet : list Z) (pn_offset : Z) (keys : K) (largest : option Z) : option (Z * list Z) :=
  least ← checked_add pn_offset MIN_LENGTH;
  _ ← require (negb (zlen packet <? least));
  sample ← get_range packet (pn_offset + 4) (pn_offset + 4 + SAMPLE);
  first ← get packet 0;
  number ← get_range packet pn_offset (pn_offset + 4);
  '(first, number) ← header_open keys sample first number;
  let number_len := Z.land first 3 + 1 in
  let packet := <[O := first]> packet in
  let bytes := take (Z.to_nat number_len) number in
  let packet := splice packet (Z.to_nat pn_offset) bytes in
  let truncated := fold_left (fun number byte => Z.lor (Z.shiftl number 8 mod 2 ^ 64) byte) bytes 0 in
  let number := packet_number largest truncated number_len in
  let at_ := Z.to_nat (pn_offset + number_len) in
  plaintext ← packet_open keys number (take at_ packet) (drop at_ packet);
  Some (number, plaintext).

Record HelloReader := mkReader {
  wire_version : list Z;
  rversion : Version;
  keys : K;
  largest : option Z;
  rpieces : Pieces;
}.

Inductive Hello : Type :=
| Whole (bytes : list Z)
| Partial (r : HelloReader)
| GaveUp (why : Why).

Definition finish (r : HelloReader) : option Hello :=
  match whole (rpieces r) with
  | Some n =>
      '(_, kept) ← head (pieces (rpieces r));
      Some (Whole (take (Z.to_nat n) kept))
  | None => Some (Partial r)
  end.

(** What the header of the packet at [at_] says, where the walk goes on: the
    position after its Length field, the end of the packet, and whether it is
    an Initial.  [None] is every [break]. *)
Definition packet_at (r : HelloReader) (datagram : list Z) (at_ : Z) : option (Z * Z * bool) :=
  first ← get datagram at_;
  _ ← require (negb (Z.land first 128 =? 0));
  end_ ← checked_add at_ 5;
  version ← get_range datagram (at_ + 1) end_;
  _ ← require (bool_decide (version = wire_version r));
  let kind := Z.land (Z.shiftr first 4) 3 in
  let retry := match rversion r with V2 => 0 | _ => 3 end in
  _ ← require (negb (kind =? retry));
  dcid_len ← get datagram (at_ + 5);
  _ ← require (negb (20 <? dcid_len));
  cursor ← checked_add at_ (6 + dcid_len);
  scid_len ← get datagram cursor;
  _ ← require (negb (20 <? scid_len));
  cursor ← checked_add cursor (1 + scid_len);
  let initial := kind =? initial_kind (rversion r) in
  cursor ← (if initial
            then '(token_len, used) ← varint datagram cursor; checked_add (cursor + used) token_len
            else Some cursor);
  '(length, used) ← varint datagram cursor;
  let cursor := cursor + used in
  end_ ← checked_add cursor length;
  _ ← require (negb (zlen datagram <? end_));
  Some (cursor, end_, initial).

(** [read_packets]; [None] is a panic or fuel used up. *)
Fixpoint read_packets (fuel : nat) (r : HelloReader) (datagram : list Z) (at_ : Z)
  : option (res Why HelloReader) :=
  if zlen datagram <=? at_ then Some (Ok r)
  else
    match packet_at r datagram at_ with
    | None => Some (Ok r)
    | Some (cursor, end_, initial) =>
        match fuel with
        | O => None
        | S fuel =>
            packet ← get_range datagram at_ end_;
            match (if initial : bool then open packet (cursor - at_) (keys r) (largest r) else None) with
            | None => read_packets fuel r datagram end_
            | Some (number, plaintext) =>
                let largest := Some (match largest r with Some l => Z.max l number | None => number end) in
                p ← read_frames plaintext (rpieces r);
                match p with
                | Err why => Some (Err why)
                | Ok p => read_packets fuel (mkReader (wire_version r) (rversion r) (keys r) largest p) datagram end_
                end
            end
        end
    end.

Definition walk (r : HelloReader) (datagram : list Z) (at_ : Z) : option Hello :=
  p ← read_packets (length datagram) r datagram at_;
  match p with
  | Ok r => finish r
  | Err why => Some (GaveUp why)
  end.

(** [HelloReader::read]. *)
Definition read (r : HelloReader) (datagram : list Z) : option Hello := walk r datagram 0.

(** [read_first]: [Some None] where the first packet is no client Initial,
    [None] for a panic. *)
Definition read_first (datagram : list Z) : option (option Hello) :=
  match header datagram with
  | None => Some None
  | Some h =>
      let k := client_keys (dcid h) (version h) in
      let end_ := pn_offset h + hlength h in
      packet ← get_range datagram 0 end_;
      match open packet (pn_offset h) k None, get_range datagram 1 5 with
      | Some (number, plaintext), Some wire =>
          p ← read_frames plaintext (mkPieces [] None);
          match p with
          | Err why => Some (Some (GaveUp why))
          | Ok p => Some <$> walk (mkReader wire (version h) k (Some number) p) datagram end_
          end
      | _, _ => Some None
      end
  end.

Definition is_client_initial (datagram : list Z) : option bool :=
  r ← read_first datagram;
  Some (match r with Some _ => true | None => false end).

End packets.
