(* ===== verification/QuicPieces.v ===== *)
(** * Joining CRYPTO bytes

    [Pieces::add] of [crates/rurge-net/src/quic/initial.rs] against what it
    is for: the pieces are a map from offsets to bytes, kept as the fewest runs
    that hold it, and [add] is the union of that map with the new bytes. *)

From S2P Require Import Prelude Bytes QuicInitial.

Lemma fill_from_spec into from to start len bytes : zlen into = to - from -> len = zlen bytes -> 0 <= from ->
  exists into', fill_from into from to start len bytes = Some into' /\ zlen into' = zlen into
    /\ forall i, from <= i < to ->
       into' !! Z.to_nat (i - from)
       = if bool_decide (start <= i < start + len) then bytes !! Z.to_nat (i - start) else into !! Z.to_nat (i - from).
Proof.
  intros Hlen Hb Hf. unfold fill_from. destruct (Z.leb_spec (Z.min to (start + len)) (Z.max from start)) as [Hle|Hgt].
  - exists into. split; [done|]. split; [done|]. intros i Hi. rewrite bool_decide_eq_false_2 by lia. done.
  - rewrite (proj2 (Z.leb_le _ _)) by lia. eexists. split; [reflexivity|].
    set (d := Z.to_nat (Z.max from start - from)).
    set (part := take _ (drop _ bytes)).
    assert (Hp : length part = Z.to_nat (Z.min to (start + len) - Z.max from start)).
    { subst part. rewrite length_take, length_drop. unfold zlen in *. lia. }
    assert (Hsp : zlen (splice into d part) = zlen into).
    { unfold splice, zlen. rewrite !length_app, length_take, length_drop. unfold zlen in *. lia. }
    split; [done|]. intros i Hi. unfold splice. unfold zlen in *.
    case_bool_decide as Hin.
    + destruct (decide (i < Z.max from start)); [lia|].
      rewrite lookup_app_r by (rewrite length_take; lia). rewrite length_take.
      rewrite lookup_app_l by lia. subst part. rewrite lookup_take_lt by lia. rewrite lookup_drop. f_equal. lia.
    + destruct (decide (i < Z.max from start)) as [Hlt|Hge].
      * rewrite lookup_app_l by (rewrite length_take; lia). rewrite lookup_take_lt by lia. done.
      * rewrite lookup_app_r by (rewrite length_take; lia). rewrite length_take.
        rewrite lookup_app_r by lia. rewrite lookup_drop. f_equal. lia.
Qed.

(** ** Pieces as a map from offsets to bytes *)

Definition inside (p : Piece) (i : Z) : Prop := p.1 <= i < piece_end p.

#[export] Instance inside_dec p i : Decision (inside p i) := and_dec (decide (p.1 <= i)) (decide (i < piece_end p)).

Fixpoint byte_at (ps : list Piece) (i : Z) : option Z :=
  match ps with
  | [] => None
  | p :: ps => if decide (inside p i) then p.2 !! Z.to_nat (i - p.1) else byte_at ps i
  end.

(** Sorted from [lo] on, none empty, a gap between each and the next. *)
Fixpoint wf_from (lo : Z) (ps : list Piece) : Prop :=
  match ps with
  | [] => True
  | p :: ps => lo <= p.1 /\ p.2 <> [] /\ wf_from (piece_end p + 1) ps
  end.

Lemma piece_pos p : p.2 <> [] -> p.1 < piece_end p.
Proof. unfold piece_end, zlen. destruct p.2; [done|]. simpl. lia. Qed.

Lemma inside_lookup p i : inside p i -> is_Some (p.2 !! Z.to_nat (i - p.1)).
Proof. unfold inside, piece_end. intros Hi. apply lookup_zlen. lia. Qed.

Lemma wf_weaken lo lo' ps : lo' <= lo -> wf_from lo ps -> wf_from lo' ps.
Proof. destruct ps as [|p ps]; [done|]. simpl. intros ? (? & ? & ?). split; [lia|done]. Qed.

Lemma wf_starts lo ps : wf_from lo ps -> Forall (fun p => lo <= p.1 /\ p.1 < piece_end p) ps.
Proof.
  revert lo. induction ps as [|p ps IH]; intros lo; simpl; [constructor|]. intros (Hlo & Hne & Hps).
  pose proof (piece_pos p Hne). constructor; [lia|]. eapply Forall_impl; [by eapply IH|]. simpl. intros q. lia.
Qed.

Lemma wf_head lo ps f p : wf_from lo ps -> head ps = Some f -> p ∈ ps -> f.1 <= p.1.
Proof.
  destruct ps as [|q ps]; [done|]. intros (_ & Hne & Hps) [= ->] [->|Hp]%elem_of_cons; [lia|].
  apply wf_starts in Hps. rewrite Forall_forall in Hps. specialize (Hps p Hp). pose proof (piece_pos f Hne). lia.
Qed.

Lemma wf_ends lo ps q p : wf_from lo ps -> last ps = Some q -> p ∈ ps -> piece_end p <= piece_end q.
Proof.
  revert lo p. induction ps as [|x ps IH]; intros lo p; [done|]. intros (_ & Hne & Hps) Hl Hp.
  destruct ps as [|y ps]; [injection Hl as ->; apply list_elem_of_singleton in Hp as ->; lia|].
  rewrite last_cons_cons in Hl. apply elem_of_cons in Hp as [->|Hp]; [|by eapply IH].
  pose proof (IH _ y Hps Hl ltac:(left)) as Hy. destruct Hps as (Hxy & Hny & _).
  pose proof (piece_pos y Hny). lia.
Qed.

Lemma byte_at_below lo ps i : wf_from lo ps -> i < lo -> byte_at ps i = None.
Proof.
  intros Hps Hi. apply wf_starts in Hps. induction Hps as [|p ps Hp Hps IH]; [done|]. simpl.
  rewrite decide_False; [done|]. unfold inside. lia.
Qed.

Lemma wf_app lo a b : wf_from lo (a ++ b) <->
  wf_from lo a /\ wf_from (match last a with Some p => piece_end p + 1 | None => lo end) b.
Proof.
  revert lo. induction a as [|p a IH]; intros lo; simpl; [naive_solver|]. rewrite IH.
  destruct a as [|q a]; [simpl; naive_solver|]. rewrite last_cons_cons.
  change (last (p :: q :: a)) with (last (q :: a)). destruct (last (q :: a)) eqn:E; [naive_solver|].
  by apply last_None in E.
Qed.

Lemma byte_at_app a b i : byte_at (a ++ b) i = match byte_at a i with Some x => Some x | None => byte_at b i end.
Proof.
  induction a as [|p a IH]; [done|]. simpl. case_decide as Hd; [|done].
  apply inside_lookup in Hd as [x ->]. done.
Qed.

Lemma byte_at_None ps i : Forall (fun p => ~ inside p i) ps -> byte_at ps i = None.
Proof. induction 1 as [|p ps Hp _ IH]; [done|]. simpl. by rewrite decide_False. Qed.

Lemma byte_at_inside ps i x : byte_at ps i = Some x ->
  exists p, p ∈ ps /\ inside p i /\ p.2 !! Z.to_nat (i - p.1) = Some x.
Proof.
  induction ps as [|p ps IH]; [done|]. simpl. case_decide as Hd.
  - intros Hx. exists p. split; [left|done].
  - intros (q & ? & ?)%IH. exists q. split; [by right|done].
Qed.

Lemma byte_at_elem lo ps p i : wf_from lo ps -> p ∈ ps -> inside p i -> byte_at ps i = p.2 !! Z.to_nat (i - p.1).
Proof.
  revert lo. induction ps as [|q ps IH]; intros lo; [by intros _ ?%not_elem_of_nil|].
  simpl. intros (Hlo & Hne & Hps) [->|Hin]%elem_of_cons Hi.
  - by rewrite decide_True.
  - rewrite decide_False; [by eapply IH|]. apply wf_starts in Hps. rewrite Forall_forall in Hps.
    specialize (Hps p Hin). unfold inside in *. lia.
Qed.

(** ** The pieces the new bytes touch *)

Definition touches (offset end_ : Z) (p : Piece) : Prop := p.1 <= end_ /\ offset <= piece_end p.

Lemma split_touched lo offset end_ ps : wf_from lo ps -> offset <= end_ ->
  exists l m r, ps = l ++ m ++ r
    /\ partition_point (fun p => piece_end p <? offset) ps = length l
    /\ partition_point (fun p : Piece => p.1 <=? end_) ps = (length l + length m)%nat
    /\ Forall (fun p => piece_end p < offset) l /\ Forall (touches offset end_) m
    /\ Forall (fun p : Piece => end_ < p.1) r.
Proof.
  revert lo. induction ps as [|p ps IH]; intros lo Hwf Hoe; simpl.
  { exists [], [], []. by repeat constructor. }
  destruct Hwf as (Hlo & Hne & Hps). pose proof (piece_pos p Hne) as Hpos.
  destruct (IH _ Hps Hoe) as (l & m & r & -> & Ha & Hb & Hl & Hm & Hr).
  pose proof (wf_starts _ _ Hps) as Hst.
  destruct (Z.ltb_spec (piece_end p) offset) as [Hlt|Hge].
  - exists (p :: l), m, r. rewrite (proj2 (Z.leb_le p.1 end_)) by lia. rewrite Ha, Hb.
    split; [done|]. split; [done|]. split; [done|]. split; [by constructor|done].
  - assert (l = []) as ->.
    { destruct l as [|q l]; [done|]. apply Forall_cons in Hl as [Hq _].
      apply Forall_app in Hst as [Hst _]. apply Forall_cons in Hst as [Hst _]. lia. }
    cbn [app length] in *. destruct (Z.leb_spec p.1 end_) as [Hle|Hgt].
    + exists [], (p :: m), r. rewrite Hb. split; [done|]. split; [done|]. split; [done|]. split; [done|].
      split; [constructor; [by split|done]|done].
    + exists [], [], (p :: m ++ r). split; [done|]. split; [done|]. split; [done|]. split; [done|].
      split; [done|]. constructor; [done|]. eapply Forall_impl; [done|]. simpl. intros q Hq. lia.
Qed.

(** ** Bytes that come again *)

(** The bytes of [data] at [offset] and those of [ps] are the same wherever
    both have one. *)
Definition agrees (offset : Z) (data : list Z) (ps : list Piece) : Prop :=
  Forall (fun p => forall i, inside p i -> offset <= i < offset + zlen data ->
    data !! Z.to_nat (i - offset) = p.2 !! Z.to_nat (i - p.1)) ps.

Lemma same_bytes_spec offset end_ data p : end_ = offset + zlen data ->
  exists b, same_bytes offset end_ data p = Some b /\
  (b = true <-> forall i, inside p i -> offset <= i < end_ ->
    data !! Z.to_nat (i - offset) = p.2 !! Z.to_nat (i - p.1)).
Proof.
  intros ->. unfold same_bytes. destruct (Z.ltb_spec (Z.max offset p.1) (Z.min (offset + zlen data) (piece_end p))) as [Hlt|Hge].
  2:{ exists true. split; [done|]. split; [|done]. intros _ i Hi Ho. unfold inside in Hi. lia. }
  set (from := Z.max offset p.1) in *. set (to := Z.min _ _) in *.
  assert (Hto : to <= piece_end p /\ to <= offset + zlen data) by (subst to; lia).
  unfold piece_end in Hto.
  destruct (get_range data (from - offset) (to - offset)) as [ours|] eqn:Ho.
  2:{ rewrite get_range_Some in Ho; [done|lia..]. }
  destruct (get_range p.2 (from - p.1) (to - p.1)) as [theirs|] eqn:Ht.
  2:{ rewrite get_range_Some in Ht; [done|lia..]. }
  apply get_range_inv in Ho as (_ & _ & Hol & Hok). apply get_range_inv in Ht as (_ & _ & Htl & Htk).
  eexists. split; [reflexivity|]. rewrite bool_decide_eq_true. split.
  - intros -> i Hi Hio. unfold inside, piece_end in Hi.
    assert (Hk : 0 <= i - from < to - from) by (subst from to; unfold piece_end; lia).
    specialize (Hok (i - from) ltac:(lia)). specialize (Htk (i - from) ltac:(lia)).
    replace (from - offset + (i - from)) with (i - offset) in Hok by lia.
    replace (from - p.1 + (i - from)) with (i - p.1) in Htk by lia. congruence.
  - intros Hag. apply zlist_eq; [lia|]. intros k Hk. rewrite Hok, Htk by lia.
    specialize (Hag (from + k)).
    replace (from + k - offset) with (from - offset + k) in Hag by lia.
    replace (from + k - p.1) with (from - p.1 + k) in Hag by lia.
    apply Hag; unfold inside, piece_end; subst from to; unfold piece_end in *; lia.
Qed.

Lemma all_same_spec offset end_ data ps : end_ = offset + zlen data ->
  exists b, all_same offset end_ data ps = Some b /\ (b = true <-> agrees offset data ps).
Proof.
  intros He. induction ps as [|p ps (b & IH & Hb)]; cbn [all_same].
  { exists true. split; [done|]. split; [constructor|done]. }
  destruct (same_bytes_spec offset end_ data p He) as (c & -> & Hc). cbn [mbind option_bind].
  rewrite He in Hc. destruct c.
  - exists b. split; [done|]. unfold agrees in *. rewrite Forall_cons, Hb. naive_solver.
  - exists false. split; [done|]. split; [done|]. intros [Hp _]%Forall_cons. naive_solver.
Qed.

(** ** The merge *)

Lemma longest_from_range at_ best best_len ps : (best < at_ + length ps)%nat ->
  (longest_from at_ best best_len ps < at_ + length ps)%nat.
Proof.
  revert at_ best best_len. induction ps as [|p ps IH]; intros at_ best bl Hb; cbn [longest_from length] in *; [done|].
  replace (at_ + S (length ps))%nat with (S at_ + length ps)%nat in * by lia.
  case_match; apply IH; lia.
Qed.

Lemma longest_range ps : ps <> [] -> exists keep kept, longest ps = Some keep /\ ps !! keep = Some kept.
Proof.
  destruct ps as [|p ps]; [done|]. intros _. cbn [longest].
  pose proof (longest_from_range 1 0 (zlen p.2) ps ltac:(lia)) as Hl.
  destruct (lookup_lt_is_Some_2 (p :: ps) (longest_from 1 0 (zlen p.2) ps) ltac:(simpl; lia)) as [kept Hk].
  by eexists _, _.
Qed.

(** Writing the pieces but the kept one into the runs before and after it. *)
Lemma fill_others_spec keep at_ lo start keep_start keep_end end_ ps before after :
  wf_from lo ps -> 0 <= start -> start <= keep_start -> keep_start <= keep_end -> keep_end <= end_ ->
  zlen before = keep_start - start -> zlen after = end_ - keep_end ->
  (forall k, ps !! k = None \/ (at_ + k)%nat <> keep \/ exists p, ps !! k = Some p /\ p.1 = keep_start /\ piece_end p = keep_end) ->
  exists before' after',
    fill_others keep at_ start keep_start keep_end end_ ps before after = Some (before', after')
    /\ zlen before' = zlen before /\ zlen after' = zlen after
    /\ (forall i, start <= i < keep_start -> before' !! Z.to_nat (i - start)
          = match byte_at ps i with Some x => Some x | None => before !! Z.to_nat (i - start) end)
    /\ (forall i, keep_end <= i < end_ -> after' !! Z.to_nat (i - keep_end)
          = match byte_at ps i with Some x => Some x | None => after !! Z.to_nat (i - keep_end) end).
Proof.
  revert at_ lo before after. induction ps as [|p ps IH]; intros at_ lo before after Hwf H1 H2 H3 H4 Hb Ha Hkeep.
  { exists before, after. by cbn. }
  cbn [fill_others byte_at]. destruct Hwf as (Hlo & Hne & Hps).
  assert (Hkeep' : forall k, ps !! k = None \/ (S at_ + k)%nat <> keep \/ exists p, ps !! k = Some p /\ p.1 = keep_start /\ piece_end p = keep_end).
  { intros k. specialize (Hkeep (S k)). cbn [lookup list_lookup] in Hkeep.
    replace (S at_ + k)%nat with (at_ + S k)%nat by lia. done. }
  case_decide as Hk.
  - destruct (Hkeep O) as [?|[?|(q & [= ->] & Hq1 & Hq2)]]; [done|lia|].
    destruct (IH (S at_) _ before after Hps H1 H2 H3 H4 Hb Ha Hkeep') as (b' & a' & -> & Hbl & Hal & Hbi & Hai).
    exists b', a'. do 3 (split; [done|]). split; intros i Hi.
    + rewrite decide_False by (unfold inside; lia). by apply Hbi.
    + rewrite decide_False by (unfold inside; lia). by apply Hai.
  - destruct (fill_from_spec before start keep_start p.1 (zlen p.2) p.2 Hb eq_refl H1) as (b1 & -> & Hb1 & Hbi1).
    cbn [mbind option_bind].
    destruct (fill_from_spec after keep_end end_ p.1 (zlen p.2) p.2 Ha eq_refl ltac:(lia)) as (a1 & -> & Ha1 & Hai1).
    cbn [mbind option_bind].
    destruct (IH (S at_) _ b1 a1 Hps H1 H2 H3 H4 ltac:(lia) ltac:(lia) Hkeep') as (b' & a' & -> & Hbl & Hal & Hbi & Hai).
    exists b', a'. split; [done|]. split; [lia|]. split; [lia|].
    assert (Hout : forall i, inside p i -> byte_at ps i = None).
    { intros i Hi. eapply byte_at_below; [done|]. unfold inside in Hi. lia. }
    split; intros i Hi.
    + rewrite (Hbi i Hi), (Hbi1 i Hi). case_decide as Hin.
      * rewrite (Hout i Hin), bool_decide_eq_true_2 by exact Hin.
        by destruct (inside_lookup p i Hin) as [x ->].
      * rewrite bool_decide_eq_false_2 by exact Hin. done.
    + rewrite (Hai i Hi), (Hai1 i Hi). case_decide as Hin.
      * rewrite (Hout i Hin), bool_decide_eq_true_2 by exact Hin.
        by destruct (inside_lookup p i Hin) as [x ->].
      * rewrite bool_decide_eq_false_2 by exact Hin. done.
Qed.

(** The byte the union of the new bytes and [ps] has at [i]. *)
Definition union_at (offset : Z) (data : list Z) (ps : list Piece) (i : Z) : option Z :=
  if decide (offset <= i < offset + zlen data) then data !! Z.to_nat (i - offset) else byte_at ps i.

Lemma agrees_byte_at lo offset data ps i x : wf_from lo ps -> agrees offset data ps ->
  byte_at ps i = Some x -> offset <= i < offset + zlen data -> data !! Z.to_nat (i - offset) = Some x.
Proof.
  intros Hwf Hag (p & Hp & Hi & Hx)%byte_at_inside Ho. unfold agrees in Hag. rewrite Forall_forall in Hag.
  by rewrite (Hag p Hp i Hi Ho).
Qed.

(** The pieces that the new bytes touch leave no gap with them. *)
Lemma touched_cover lo offset (data : list Z) ps first last_ i : wf_from lo ps ->
  Forall (touches offset (offset + zlen data)) ps -> head ps = Some first -> last ps = Some last_ ->
  Z.min offset first.1 <= i < Z.max (offset + zlen data) (piece_end last_) ->
  ~ (offset <= i < offset + zlen data) -> is_Some (byte_at ps i).
Proof.
  intros Hwf Ht Hf Hl Hi Hno. rewrite Forall_forall in Ht.
  assert (Hcase : (exists p, p ∈ ps /\ inside p i)).
  { destruct (decide (i < offset)) as [Hio|Hio].
    - exists first. assert (first ∈ ps) as Hfi by (destruct ps; [done|injection Hf as ->; left]).
      split; [done|]. destruct (Ht first Hfi). unfold inside. lia.
    - exists last_. assert (last_ ∈ ps) as Hla by (by apply last_Some_elem_of).
      split; [done|]. destruct (Ht last_ Hla). unfold inside. lia. }
  destruct Hcase as (p & Hp & Hpi). rewrite (byte_at_elem _ _ _ _ Hwf Hp Hpi). by apply inside_lookup.
Qed.

(** A run before the piece that is kept, the piece, and a run after it. *)
Lemma three_runs (b k a : list Z) start from to_ end_ (u : Z -> option Z) :
  zlen b = from - start -> zlen k = to_ - from ->
  (forall i, start <= i < from -> b !! Z.to_nat (i - start) = u i) ->
  (forall i, from <= i < to_ -> k !! Z.to_nat (i - from) = u i) ->
  (forall i, to_ <= i < end_ -> a !! Z.to_nat (i - to_) = u i) ->
  forall i, start <= i < end_ -> (b ++ k ++ a) !! Z.to_nat (i - start) = u i.
Proof.
  unfold zlen. intros Hb Hk Hub Huk Hua i Hi.
  destruct (decide (i < from)) as [Hf|Hf]; [|destruct (decide (i < to_)) as [Ht|Ht]].
  - rewrite lookup_app_l by lia. apply Hub; lia.
  - rewrite lookup_app_r, lookup_app_l by lia. rewrite <- Huk by lia. f_equal. lia.
  - rewrite !lookup_app_r by lia. rewrite <- Hua by lia. f_equal. lia.
Qed.

Lemma merge_spec lo offset data ps first last_ : 0 <= lo -> 0 <= offset -> wf_from lo ps ->
  Forall (touches offset (offset + zlen data)) ps -> agrees offset data ps ->
  head ps = Some first -> last ps = Some last_ ->
  let start := Z.min offset first.1 in
  let end_ := Z.max (offset + zlen data) (piece_end last_) in
  exists bytes, merge offset (offset + zlen data) data ps = Some (start, bytes)
    /\ zlen bytes = end_ - start
    /\ forall i, start <= i < end_ -> bytes !! Z.to_nat (i - start) = union_at offset data ps i.
Proof.
  intros Hlo Ho Hwf Ht Hag Hf Hl start end_. unfold merge. rewrite Hf, Hl. cbn [mbind option_bind].
  fold start end_. assert (Hne : ps <> []) by (by intros ->).
  destruct (longest_range ps Hne) as (keep & kept & -> & Hk). cbn [mbind option_bind]. rewrite Hk.
  cbn [mbind option_bind]. pose proof (zlen_nonneg data) as Hz.
  (* where the pieces lie *)
  pose proof (wf_starts _ _ Hwf) as Hst. rewrite Forall_forall in Hst.
  assert (Hin : kept ∈ ps) by (by eapply list_elem_of_lookup_2).
  assert (Hfirst : forall p, p ∈ ps -> first.1 <= p.1 /\ piece_end p <= piece_end last_).
  { intros p Hp. split; [by eapply wf_head|by eapply wf_ends]. }
  destruct (Hfirst kept Hin) as [Hks Hke]. pose proof (Hst kept Hin) as [Hk0 Hkp].
  assert (Hf0 : lo <= first.1).
  { destruct ps; [done|]. injection Hf as ->. apply (Hst first). left. }
  assert (Hstart0 : 0 <= start) by (subst start; lia).
  (* the runs before and after *)
  destruct (fill_from_spec (replicate (Z.to_nat (kept.1 - start)) 0) start kept.1 offset (zlen data) data)
    as (b1 & -> & Hb1 & Hbi1); [unfold zlen; rewrite length_replicate; lia|done|lia|]. cbn [mbind option_bind].
  destruct (fill_from_spec (replicate (Z.to_nat (end_ - piece_end kept)) 0) (piece_end kept) end_ offset (zlen data) data)
    as (a1 & -> & Ha1 & Hai1); [unfold zlen; rewrite length_replicate; subst end_; lia|done|lia|]. cbn [mbind option_bind].
  destruct (fill_others_spec keep 0 lo start kept.1 (piece_end kept) end_ ps b1 a1)
    as (b2 & a2 & -> & Hb2 & Ha2 & Hbi2 & Hai2); try done; try lia.
  { rewrite Hb1. unfold zlen. rewrite length_replicate. lia. }
  { rewrite Ha1. unfold zlen. rewrite length_replicate. subst end_. lia. }
  { intros k. destruct (ps !! k) as [p|] eqn:Hp; [|by left]. right.
    destruct (decide (k = keep)) as [->|Hd]; [right|left; lia]. exists p. split; [done|]. by simplify_eq. }
  cbn [mbind option_bind]. eexists. split; [reflexivity|].
  assert (Hbl : zlen b2 = kept.1 - start) by (rewrite Hb2, Hb1; unfold zlen; rewrite length_replicate; lia).
  assert (Hal : zlen a2 = end_ - piece_end kept)
    by (rewrite Ha2, Ha1; unfold zlen; rewrite length_replicate; subst end_; lia).
  split; [rewrite !zlen_app; unfold piece_end in *; lia|].
  assert (Hu : forall i (run : option Z), start <= i < end_ ->
    (offset <= i < offset + zlen data -> run = data !! Z.to_nat (i - offset)) ->
    match byte_at ps i with Some x => Some x | None => run end = union_at offset data ps i).
  { intros i run Hi Hrun. unfold union_at. destruct (decide _) as [Hd|Hd].
    - destruct (byte_at ps i) as [x|] eqn:Hx; [|by apply Hrun]. symmetry. by eapply agrees_byte_at.
    - by destruct (touched_cover lo offset data ps first last_ i Hwf Ht Hf Hl Hi Hd) as [x ->]. }
  apply (three_runs b2 kept.2 a2 start kept.1 (piece_end kept)); [done|unfold piece_end; lia|..]; intros i Hi.
  - rewrite Hbi2 by lia. apply Hu; [lia|]. intros Hd. by rewrite Hbi1, bool_decide_eq_true_2 by (done || lia).
  - rewrite <- (Hu i (kept.2 !! Z.to_nat (i - kept.1))); [|lia|].
    + rewrite (byte_at_elem _ _ _ _ Hwf Hin) by (unfold inside; lia). by destruct (kept.2 !! _).
    + intros Hd. unfold agrees in Hag. rewrite Forall_forall in Hag. symmetry. apply Hag; [done|unfold inside; lia|done].
  - rewrite Hai2 by lia. apply Hu; [lia|]. intros Hd. by rewrite Hai1, bool_decide_eq_true_2 by (done || lia).
Qed.

(** ** [add] is the union *)

Lemma agrees_app offset data a b : agrees offset data (a ++ b) <-> agrees offset data a /\ agrees offset data b.
Proof. unfold agrees. apply Forall_app. Qed.

Lemma agrees_apart offset data ps :
  Forall (fun p => piece_end p < offset \/ offset + zlen data < p.1) ps -> agrees offset data ps.
Proof.
  intros Hps. eapply Forall_impl; [done|]. intros p Hp i Hi Ho. cbn beta in Hp. unfold inside in Hi. exfalso. lia.
Qed.

Lemma wf_last lo ps p : wf_from lo ps -> last ps = Some p -> lo <= p.1 /\ p.1 < piece_end p.
Proof.
  intros Hwf Hl. apply last_Some_elem_of in Hl. pose proof (wf_starts _ _ Hwf) as Hs.
  rewrite Forall_forall in Hs. by apply Hs.
Qed.

(** The pieces with those the new bytes touch replaced by one. *)
Lemma replace_touched lo offset data l m r start bytes :
  wf_from lo (l ++ m ++ r) -> lo <= start -> start <= offset -> offset + zlen data <= start + zlen bytes ->
  bytes <> [] ->
  Forall (fun p => piece_end p < offset) l -> Forall (fun p : Piece => offset + zlen data < p.1) r ->
  (m = [] -> start = offset /\ bytes = data) ->
  (forall first last_, head m = Some first -> last m = Some last_ ->
     start = Z.min offset first.1 /\ start + zlen bytes = Z.max (offset + zlen data) (piece_end last_)) ->
  (forall i, start <= i < start + zlen bytes -> bytes !! Z.to_nat (i - start) = union_at offset data m i) ->
  wf_from lo (l ++ (start, bytes) :: r)
  /\ forall i, byte_at (l ++ (start, bytes) :: r) i = union_at offset data (l ++ m ++ r) i.
Proof.
  intros Hwf Hlo Hso Hoe Hbne Hl Hr Hmnil Hm Hbytes.
  apply wf_app in Hwf as [Hwl Hwf]. set (lo2 := match last l with Some p => piece_end p + 1 | None => lo end) in *.
  apply wf_app in Hwf as [Hwm Hwr].
  assert (Hlo2o : lo2 <= offset /\ forall p, p ∈ l -> piece_end p < lo2).
  { subst lo2. destruct (last l) as [q|] eqn:Hq.
    - rewrite Forall_forall in Hl. specialize (Hl q (last_Some_elem_of _ _ Hq)). simpl in Hl.
      split; [lia|]. intros p Hp. pose proof (wf_ends _ _ _ _ Hwl Hq Hp). lia.
    - apply last_None in Hq as ->. split; [lia|]. by intros p ?%not_elem_of_nil. }
  destruct Hlo2o as [Hlo2o Hl2].
  assert (Hms : lo2 <= start /\ forall p, p ∈ m -> start <= p.1 /\ piece_end p <= start + zlen bytes).
  { destruct m as [|p m].
    - destruct (Hmnil eq_refl) as [-> _]. split; [done|]. by intros ? ?%not_elem_of_nil.
    - destruct (last (p :: m)) as [q|] eqn:Hq; [|by apply last_None in Hq].
      destruct (Hm p q eq_refl eq_refl) as [Hs He]. assert (Hp1 : lo2 <= p.1) by apply Hwm.
      split; [lia|]. intros x Hx. pose proof (wf_head _ _ p x Hwm eq_refl Hx).
      pose proof (wf_ends _ _ _ _ Hwm Hq Hx). lia. }
  destruct Hms as [Hlo2 Hms].
  assert (Hpe : piece_end (start, bytes) = start + zlen bytes) by done.
  assert (Hwr' : wf_from (start + zlen bytes + 1) r).
  { destruct r as [|q r]; [done|]. cbn [wf_from] in *. destruct Hwr as (Hq & Hqn & Hwr).
    apply Forall_cons in Hr as [Hq2 _]. split; [|done].
    destruct m as [|p m]; [destruct (Hmnil eq_refl) as [-> ->]; lia|].
    destruct (last (p :: m)) as [z|] eqn:Hz; [|by apply last_None in Hz].
    destruct (Hm p z eq_refl eq_refl) as [_ He]. lia. }
  split.
  - apply wf_app. split; [done|]. fold lo2. cbn [wf_from fst snd]. rewrite Hpe. done.
  - intros i. unfold union_at. rewrite !byte_at_app. cbn [byte_at].
    destruct (decide (inside (start, bytes) i)) as [Hi|Hi].
    + assert (Hli : byte_at l i = None).
      { apply byte_at_None, Forall_forall. intros p Hp [_ Hpi]. specialize (Hl2 p Hp).
        unfold inside in Hi. cbn [fst] in Hi. lia. }
      rewrite Hli. cbn [fst snd]. rewrite Hbytes by (unfold inside in Hi; rewrite Hpe in Hi; exact Hi).
      unfold union_at. destruct (decide (offset <= i < offset + zlen data)) as [?|?]; [done|]. destruct (byte_at m i) as [x|] eqn:Hx; [done|].
      symmetry. eapply byte_at_below; [exact Hwr'|]. unfold inside in Hi. rewrite Hpe in Hi. lia.
    + assert (Hmi : byte_at m i = None).
      { apply byte_at_None, Forall_forall. intros p Hp [Hp1 Hp2]. apply Hi. destruct (Hms p Hp).
        unfold inside. rewrite Hpe. cbn [fst]. lia. }
      rewrite Hmi. destruct (decide (offset <= i < offset + zlen data)) as [Ho|Ho]; [|done].
      exfalso. apply Hi. unfold inside. rewrite Hpe. cbn [fst]. lia.
Qed.

Lemma see_head_pieces s s' : see_head s = Ok s' -> pieces s' = pieces s.
Proof. unfold see_head. intros Hs. repeat case_match; by simplify_eq. Qed.

Lemma data_pos (data : list Z) : data <> [] -> 0 < zlen data.
Proof. destruct data; [done|]. rewrite zlen_cons. pose proof (zlen_nonneg data). lia. Qed.

(** What [add] comes to: refused past 64 KiB or where a byte changed; else the
    union of what was there and the new bytes, still sorted and apart, and what
    [see_head] says of it, unless it would be the thirty-third piece. *)
Inductive added (offset : Z) (data : list Z) (s : Pieces) : res Why Pieces -> Prop :=
| added_beyond : MAX_HELLO < offset + zlen data -> added offset data s (Err BEYOND)
| added_changed : offset + zlen data <= MAX_HELLO -> ~ agrees offset data (pieces s) -> added offset data s (Err CHANGED)
| added_nothing : offset + zlen data <= MAX_HELLO -> agrees offset data (pieces s) ->
    (forall i, union_at offset data (pieces s) i = byte_at (pieces s) i) -> added offset data s (Ok s)
| added_union s1 : offset + zlen data <= MAX_HELLO -> agrees offset data (pieces s) ->
    wf_from 0 (pieces s1) -> (forall i, byte_at (pieces s1) i = union_at offset data (pieces s) i) ->
    (length (pieces s1) <= S (length (pieces s)))%nat ->
    whole s1 = whole s -> added offset data s (see_head s1)
| added_too_many s1 : offset + zlen data <= MAX_HELLO -> agrees offset data (pieces s) ->
    wf_from 0 (pieces s1) -> (forall i, byte_at (pieces s1) i = union_at offset data (pieces s) i) ->
    (length (pieces s1) <= S (length (pieces s)))%nat ->
    (32 < length (pieces s1))%nat -> added offset data s (Err TOO_MANY).

(** What [split_touched] says of the pieces it splits: the middle ones are in
    order, and only they can disagree with the new bytes. *)
Lemma touched_wf l m r : wf_from 0 (l ++ m ++ r) -> wf_from 0 m.
Proof.
  intros [Hwl Hwf]%wf_app. apply wf_app in Hwf as [Hwm _]. eapply wf_weaken; [|done].
  destruct (last l) as [q|] eqn:Hq; [|lia]. destruct (wf_last _ _ _ Hwl Hq). lia.
Qed.

Lemma touched_agrees offset data l m r : Forall (fun p => piece_end p < offset) l ->
  Forall (fun p : Piece => offset + zlen data < p.1) r -> agrees offset data (l ++ m ++ r) <-> agrees offset data m.
Proof.
  intros Hl Hr. rewrite !agrees_app. split; [naive_solver|]. intros ?.
  repeat split; [|done|]; apply agrees_apart; (eapply Forall_impl; [done|]; simpl; intros; lia).
Qed.

(** One piece has all of the new bytes already. *)
Lemma covered_by_one lo offset data ps p : wf_from lo ps -> agrees offset data ps -> p ∈ ps ->
  p.1 <= offset -> offset + zlen data <= piece_end p -> forall i, union_at offset data ps i = byte_at ps i.
Proof.
  intros Hwf Ha Hp H1 H2 i. unfold union_at. destruct (decide (offset <= i < offset + zlen data)) as [Hd|Hd]; [|done].
  assert (Hi : inside p i) by (unfold inside; lia).
  rewrite (byte_at_elem _ _ _ _ Hwf Hp Hi). unfold agrees in Ha. rewrite Forall_forall in Ha. by apply Ha.
Qed.

(** The touched pieces merged into one. *)
Lemma merged_union offset data l p m r q bytes : wf_from 0 (l ++ (p :: m) ++ r) -> 0 <= offset -> data <> [] ->
  Forall (fun p => piece_end p < offset) l -> Forall (touches offset (offset + zlen data)) (p :: m) ->
  Forall (fun p : Piece => offset + zlen data < p.1) r -> last (p :: m) = Some q ->
  zlen bytes = Z.max (offset + zlen data) (piece_end q) - Z.min offset p.1 ->
  (forall i, Z.min offset p.1 <= i < Z.max (offset + zlen data) (piece_end q) ->
     bytes !! Z.to_nat (i - Z.min offset p.1) = union_at offset data (p :: m) i) ->
  wf_from 0 (l ++ (Z.min offset p.1, bytes) :: r)
  /\ forall i, byte_at (l ++ (Z.min offset p.1, bytes) :: r) i = union_at offset data (l ++ (p :: m) ++ r) i.
Proof.
  intros Hwf Ho Hne Hl Hm Hr Hq Hlen Hbytes. pose proof (data_pos data Hne) as Hpos.
  pose proof (touched_wf l (p :: m) r Hwf) as Hwm. pose proof (wf_starts _ _ Hwm) as Hst. apply Forall_cons in Hst as [Hst _].
  apply replace_touched; try done; try lia.
  - intros ->. change (zlen []) with 0 in Hlen. lia.
  - intros f z [= <-] Hzq. assert (z = q) as -> by congruence. lia.
  - intros i Hi. apply Hbytes. lia.
Qed.

Lemma add_spec offset data s : wf_from 0 (pieces s) -> 0 <= offset ->
  exists r, add offset data s = Some r /\ added offset data s r.
Proof.
  intros Hwf Ho. unfold add, checked_add. pose proof (zlen_nonneg data) as Hz.
  destruct (Z.leb_spec (offset + zlen data) u64_max) as [Hmax|Hmax].
  2:{ eexists. split; [reflexivity|]. apply added_beyond. unfold u64_max, MAX_HELLO in *. lia. }
  destruct (Z.ltb_spec MAX_HELLO (offset + zlen data)) as [Hb|Hb].
  { eexists. split; [reflexivity|]. by apply added_beyond. }
  case_bool_decide as Hnil.
  { eexists. split; [reflexivity|]. subst data. change (zlen []) with 0 in *. apply added_nothing; [done| |].
    - apply Forall_forall. intros p _ i _ Hi. change (zlen []) with 0 in Hi. lia.
    - intros i. unfold union_at. rewrite decide_False; [done|]. change (zlen []) with 0. lia. }
  pose proof (data_pos data Hnil) as Hpos.
  destruct (split_touched 0 offset (offset + zlen data) (pieces s) Hwf ltac:(lia))
    as (l & m & r & Hps & -> & -> & Hl & Hm & Hr).
  replace (length l + length m - length l)%nat with (length m) by lia.
  assert (Hsub : take (length m) (drop (length l) (pieces s)) = m)
    by (rewrite Hps, drop_app_length, take_app_length; done).
  rewrite Hsub.
  assert (Hag : agrees offset data (pieces s) <-> agrees offset data m) by (rewrite Hps; by apply touched_agrees).
  destruct (all_same_spec offset _ data m eq_refl) as (b & -> & Hb2). cbn [mbind option_bind].
  rewrite <- Hag in Hb2. destruct b; cbn [negb].
  2:{ eexists. split; [reflexivity|]. apply added_changed; [done|]. intros Ha. by apply Hb2 in Ha. }
  pose proof (proj1 Hb2 eq_refl) as Ha.
  assert (Hwm : wf_from 0 m) by (rewrite Hps in Hwf; by eapply touched_wf).
  assert (Hdrop : drop (length l + length m) (pieces s) = r).
  { rewrite Hps, <- drop_drop, !drop_app_length. done. }
  assert (Htake : take (length l) (pieces s) = l) by (by rewrite Hps, take_app_length).
  destruct m as [|p m]; [|set (M := p :: m) in *].
  - (* between two pieces *)
    cbn [length]. rewrite Nat.add_0_r, decide_True by done. rewrite Htake. cbn [length] in Hdrop.
    rewrite Nat.add_0_r in Hdrop. rewrite Hdrop. cbn [pieces].
    rewrite Hps in Hwf.
    destruct (replace_touched 0 offset data l [] r offset data Hwf ltac:(lia) ltac:(lia) ltac:(lia) Hnil Hl Hr)
      as [Hw1 Hu1]; [done|done| |].
    { intros i Hi. unfold union_at. by rewrite decide_True. }
    rewrite <- Hps in Hu1.
    assert (Hcnt : (length (l ++ (offset, data) :: r) <= S (length (pieces s)))%nat)
      by (rewrite Hps, !length_app; simpl; lia).
    case_decide as H32.
    + eexists. split; [reflexivity|]. apply (added_too_many _ _ _ (mkPieces (l ++ (offset, data) :: r) (whole s))); try done.
    + eexists. split; [reflexivity|]. by apply added_union.
  - rewrite (decide_False (P := length l = (length l + length M)%nat)) by (subst M; cbn [length]; lia).
    destruct (last M) as [q|] eqn:Hq; [|by apply last_None in Hq].
    destruct (merge_spec 0 offset data M p q ltac:(lia) Ho Hwm Hm (proj1 Hag Ha) eq_refl Hq) as (bytes & Hmg & Hlen & Hbytes).
    destruct (match m with [] => (p.1 <=? offset) && (offset + zlen data <=? piece_end p) | _ => false end) eqn:Hone.
    { eexists. split; [reflexivity|]. destruct m; [|done]. apply andb_true_iff in Hone as [H1 H2].
      apply added_nothing; [done..|]. apply (covered_by_one 0 _ _ _ p); [done|done|rewrite Hps; set_solver|lia|lia]. }
    rewrite Hmg. cbn [mbind option_bind]. rewrite Htake, Hdrop. eexists. split; [reflexivity|].
    rewrite Hps in Hwf. destruct (merged_union offset data l p m r q bytes) as [Hw1 Hu1]; [done..|].
    change (p :: m) with M in Hu1. rewrite <- Hps in Hu1. apply added_union; try done.
    rewrite Hps. cbn [pieces]. rewrite !length_app. simpl. lia.
Qed.
