(* ===== verification/QuicHello.v ===== *)
(** * What reading a ClientHello promises

    Properties of [crates/rurge-net/src/quic/initial.rs]: CRYPTO frames joined
    in any order give the message they were cut from; reading never panics,
    whatever the datagrams and whatever the keys open; packet numbers are
    those that were sent. *)

From S2P Require Import Prelude Bytes QuicInitial QuicPieces.

(** ** Frames joined *)

Definition Frame : Type := (Z * list Z)%type.

Definition frame_ok (f : Frame) : Prop := 0 <= f.1 /\ bytes_ok f.2.

Definition covers (f : Frame) (i : Z) : Prop := f.1 <= i < f.1 + zlen f.2.

Definition covered (frames : list Frame) (i : Z) : Prop := exists f, f ∈ frames /\ covers f i.

Fixpoint adds (frames : list Frame) (s : Pieces) : option (res Why Pieces) :=
  match frames with
  | [] => Some (Ok s)
  | f :: frames =>
      r ← add f.1 f.2 s;
      match r with
      | Err why => Some (Err why)
      | Ok s => adds frames s
      end
  end.

Definition no_pieces : Pieces := mkPieces [] None.

(** A whole ClientHello of [n] bytes at the start of the bytes [g]. *)
Definition whole_ok (g : Z -> option Z) (n : Z) : Prop :=
  exists b1 b2 b3, g 0 = Some 1 /\ g 1 = Some b1 /\ g 2 = Some b2 /\ g 3 = Some b3
    /\ n = 4 + of_be32 0 b1 b2 b3 /\ n <= MAX_HELLO /\ forall i, 0 <= i < n -> is_Some (g i).

(** What the pieces hold after some frames: every byte of every frame and no
    other, and the length of the ClientHello as soon as all of it is there. *)
Record joined (frames : list Frame) (s : Pieces) : Prop := mkJoined {
  joined_wf : wf_from 0 (pieces s);
  joined_frames : forall f i, f ∈ frames -> covers f i -> byte_at (pieces s) i = f.2 !! Z.to_nat (i - f.1);
  joined_only : forall i, is_Some (byte_at (pieces s) i) -> covered frames i;
  joined_bytes : forall i x, byte_at (pieces s) i = Some x -> is_byte x;
  joined_whole : forall n, whole s = Some n <-> whole_ok (byte_at (pieces s)) n;
}.

Lemma whole_ok_ext g h n : (forall i x, g i = Some x -> h i = Some x) -> whole_ok g n -> whole_ok h n.
Proof.
  intros Hgh (b1 & b2 & b3 & ? & ? & ? & ? & ? & ? & Hall). exists b1, b2, b3.
  repeat (split; [by auto|]). intros i Hi. destruct (Hall i Hi) as [x Hx]. exists x. by apply Hgh.
Qed.

Lemma whole_ok_det g n m : whole_ok g n -> whole_ok g m -> n = m.
Proof.
  intros (b1 & b2 & b3 & _ & H1 & H2 & H3 & -> & _) (c1 & c2 & c3 & _ & G1 & G2 & G3 & -> & _). congruence.
Qed.

(** Byte zero, if it is there, is the first of the first piece; and what
    follows it without a gap is in that piece too. *)
Lemma byte_at_first p ps i : wf_from 0 (p :: ps) -> p.1 = 0 -> 0 <= i < zlen p.2 ->
  byte_at (p :: ps) i = p.2 !! Z.to_nat i.
Proof.
  intros _ Hp Hi. cbn [byte_at]. rewrite decide_True by (unfold inside, piece_end; lia). f_equal. lia.
Qed.

Lemma byte_at_zero p ps : wf_from 0 (p :: ps) -> is_Some (byte_at (p :: ps) 0) -> p.1 = 0.
Proof.
  intros Hwf [x Hx]. destruct (decide (p.1 = 0)) as [|Hne]; [done|]. exfalso.
  assert (Hlo : wf_from 1 (p :: ps)) by (destruct Hwf as (? & ? & ?); split; [lia|done]).
  by rewrite (byte_at_below _ _ 0 Hlo) in Hx by lia.
Qed.

Lemma run_in_first p ps n : wf_from 0 (p :: ps) -> p.1 = 0 -> (forall i, 0 <= i < n -> is_Some (byte_at (p :: ps) i)) ->
  n <= zlen p.2.
Proof.
  intros (_ & Hne & Hps) Hp Hall. destruct (decide (n <= zlen p.2)) as [|Hgt]; [done|]. exfalso.
  destruct (Hall (zlen p.2)) as [x Hx]; [pose proof (zlen_nonneg p.2); lia|]. revert Hx. cbn [byte_at].
  rewrite decide_False by (unfold inside, piece_end; lia).
  rewrite (byte_at_below _ _ _ Hps); [done|]. unfold piece_end. lia.
Qed.

Lemma see_head_spec s : wf_from 0 (pieces s) -> (forall i x, byte_at (pieces s) i = Some x -> is_byte x) ->
  (forall n, whole s = Some n -> whole_ok (byte_at (pieces s)) n) ->
  match see_head s with
  | Ok s' => pieces s' = pieces s /\ forall n, whole s' = Some n <-> whole_ok (byte_at (pieces s)) n
  | Err why => why = NO_CLIENT_HELLO /\ (exists x, byte_at (pieces s) 0 = Some x /\ x <> 1)
      \/ why = TOO_LONG /\ exists b1 b2 b3, byte_at (pieces s) 1 = Some b1 /\ byte_at (pieces s) 2 = Some b2
         /\ byte_at (pieces s) 3 = Some b3 /\ MAX_HELLO < 4 + of_be32 0 b1 b2 b3
  end.
Proof.
  intros Hwf Hby Hw. unfold see_head. destruct s as [ps w]; cbn [pieces whole] in *.
  assert (Hkeep : ~ (exists n, whole_ok (byte_at ps) n) -> ps = ps /\ forall n, w = Some n <-> whole_ok (byte_at ps) n).
  { intros Hno. split; [done|]. intros n. split; [apply Hw|]. intros Hok. exfalso. apply Hno. by exists n. }
  destruct ps as [|p ps]; [apply Hkeep; by intros (n & b1 & b2 & b3 & ? & _)|].
  destruct p as [start bytes]. destruct (Z.eqb_spec start 0) as [->|Hs]; cbn [negb].
  2:{ apply Hkeep. intros (n & b1 & b2 & b3 & Hz & _). apply Hs.
      by apply (byte_at_zero _ _ Hwf); eexists. }
  assert (Hfirst : forall i, 0 <= i < zlen bytes -> byte_at ((0, bytes) :: ps) i = bytes !! Z.to_nat i).
  { intros i Hi. by apply byte_at_first. }
  assert (Hshort : zlen bytes < 4 -> ~ (exists n, whole_ok (byte_at ((0, bytes) :: ps)) n)).
  { intros Hl (n & b1 & b2 & b3 & Hb0 & Hb1 & Hb2 & Hb3 & _).
    assert (4 <= zlen bytes); [|lia]. apply (run_in_first (0, bytes) ps 4 Hwf eq_refl). intros i Hi.
    assert (i = 0 \/ i = 1 \/ i = 2 \/ i = 3) as [-> | [-> | [-> | ->]]] by lia; by eexists. }
  destruct bytes as [|b0 [|b1 [|b2 [|b3 bytes]]]]; try (apply Hkeep, Hshort; unfold zlen; simpl; lia).
  set (all := b0 :: b1 :: b2 :: b3 :: bytes) in *.
  assert (Hall : 4 <= zlen all) by (unfold zlen, all; simpl; lia).
  pose proof (Hfirst 0 ltac:(lia)) as F0. pose proof (Hfirst 1 ltac:(lia)) as F1.
  pose proof (Hfirst 2 ltac:(lia)) as F2. pose proof (Hfirst 3 ltac:(lia)) as F3.
  change (all !! Z.to_nat 0) with (Some b0) in F0. change (all !! Z.to_nat 1) with (Some b1) in F1.
  change (all !! Z.to_nat 2) with (Some b2) in F2. change (all !! Z.to_nat 3) with (Some b3) in F3.
  destruct (Z.eqb_spec b0 1) as [->|Hb0]; cbn [negb].
  2:{ left. split; [done|]. by exists b0. }
  destruct (Z.ltb_spec MAX_HELLO (4 + of_be32 0 b1 b2 b3)) as [Hlong|Hlen].
  { right. split; [done|]. by exists b1, b2, b3. }
  assert (Hdet : forall n, whole_ok (byte_at ((0, all) :: ps)) n -> n = 4 + of_be32 0 b1 b2 b3).
  { intros n (c1 & c2 & c3 & _ & G1 & G2 & G3 & -> & _). congruence. }
  destruct (Z.leb_spec (4 + of_be32 0 b1 b2 b3) (zlen all)) as [Hle|Hgt].
  - cbn [pieces whole]. split; [done|]. intros n. split; [|by intros ->%Hdet].
    intros [= <-]. exists b1, b2, b3. repeat (split; [done|]). intros i Hi. rewrite Hfirst by lia.
    apply lookup_zlen. lia.
  - apply Hkeep. intros (n & Hok). pose proof (Hdet n Hok) as ->. destruct Hok as (c1 & c2 & c3 & _ & _ & _ & _ & _ & _ & Hc).
    pose proof (run_in_first (0, all) ps _ Hwf eq_refl Hc). cbn [snd] in *. lia.
Qed.

Lemma union_at_old lo frames s f i x : joined frames s -> wf_from lo (pieces s) -> agrees f.1 f.2 (pieces s) ->
  byte_at (pieces s) i = Some x -> union_at f.1 f.2 (pieces s) i = Some x.
Proof.
  intros Hj Hwf Hag Hx. unfold union_at. destruct (decide (f.1 <= i < f.1 + zlen f.2)) as [Hd|Hd]; [|done].
  by eapply agrees_byte_at.
Qed.

(** A frame cut from the message [m]. *)
Definition fits (m : Z -> Z) (f : Frame) : Prop := forall i, covers f i -> f.2 !! Z.to_nat (i - f.1) = Some (m i).

Lemma joined_fits frames s m i x : joined frames s -> Forall (fits m) frames ->
  byte_at (pieces s) i = Some x -> x = m i.
Proof.
  intros Hj Hm Hx. destruct (joined_only _ _ Hj i) as (g & Hin & Hc); [by eexists|].
  rewrite Forall_forall in Hm. pose proof (Hm g Hin i Hc). pose proof (joined_frames _ _ Hj g i Hin Hc). congruence.
Qed.

Lemma joined_agrees frames s m f : joined frames s -> Forall (fits m) (frames ++ [f]) -> agrees f.1 f.2 (pieces s).
Proof.
  intros Hj [Hm [Hf _]%Forall_cons]%Forall_app. apply Forall_forall. intros p Hp i Hi Ho.
  rewrite (Hf i Ho). pose proof (byte_at_elem _ _ _ _ (joined_wf _ _ Hj) Hp Hi) as Hb.
  destruct (inside_lookup p i Hi) as [x Hx]. rewrite Hx in Hb |- *. f_equal. symmetry. by eapply joined_fits.
Qed.

(** A union with one more frame, whatever [see_head] says of it. *)
Lemma union_joined frames s f s1 : joined frames s -> frame_ok f -> agrees f.1 f.2 (pieces s) ->
  wf_from 0 (pieces s1) -> (forall i, byte_at (pieces s1) i = union_at f.1 f.2 (pieces s) i) ->
  (forall n, whole s1 = Some n <-> whole_ok (byte_at (pieces s1)) n) ->
  joined (frames ++ [f]) s1.
Proof.
  intros Hj [Hf0 Hfb] Hag Hw1 Hg Hwhole. split; [done| | | |done].
  - intros g i Hin Hc. rewrite Hg. apply elem_of_app in Hin as [Hin| ->%list_elem_of_singleton].
    + pose proof (joined_frames _ _ Hj g i Hin Hc) as Hb. destruct (lookup_zlen g.2 (i - g.1)) as [x Hx];
        [unfold covers in Hc; lia|]. rewrite Hx in *. eapply union_at_old; [done|apply Hj|done|done].
    + unfold union_at. by rewrite decide_True.
  - intros i. rewrite Hg. unfold union_at. destruct (decide (f.1 <= i < f.1 + zlen f.2)) as [Hd|Hd].
    + intros _. exists f. split; [set_solver|done].
    + intros Hi. destruct (joined_only _ _ Hj i Hi) as (g & Hin & Hc). exists g. split; [set_solver|done].
  - intros i x. rewrite Hg. unfold union_at. destruct (decide (f.1 <= i < f.1 + zlen f.2)) as [Hd|Hd].
    + intros Hx. eapply Forall_lookup_1; [exact Hfb|exact Hx].
    + apply (joined_bytes _ _ Hj).
Qed.

(** A union with the old length kept: all but [see_head]'s part. *)
Lemma union_bytes frames s f s1 : joined frames s -> frame_ok f -> agrees f.1 f.2 (pieces s) ->
  (forall i, byte_at (pieces s1) i = union_at f.1 f.2 (pieces s) i) ->
  (forall i x, byte_at (pieces s1) i = Some x -> is_byte x)
  /\ (forall n, whole s = Some n -> whole_ok (byte_at (pieces s1)) n)
  /\ (forall m i x, Forall (fits m) (frames ++ [f]) -> byte_at (pieces s1) i = Some x -> x = m i).
Proof.
  intros Hj [Hf0 Hfb] Hag Hg. split; [|split].
  - intros i x. rewrite Hg. unfold union_at. destruct (decide (f.1 <= i < f.1 + zlen f.2)) as [Hd|Hd].
    + intros Hx. eapply Forall_lookup_1; [exact Hfb|exact Hx].
    + apply (joined_bytes _ _ Hj).
  - intros n Hn%(joined_whole _ _ Hj). eapply whole_ok_ext; [|done]. intros i x Hx. rewrite Hg.
    eapply union_at_old; [done|apply Hj|done|done].
  - intros m i x [Hm [Hfm _]%Forall_cons]%Forall_app. rewrite Hg. unfold union_at.
    destruct (decide (f.1 <= i < f.1 + zlen f.2)) as [Hd|Hd].
    + rewrite (Hfm i Hd). congruence.
    + by eapply joined_fits.
Qed.

(** One more frame. *)
Lemma add_joined frames s f : joined frames s -> frame_ok f ->
  exists r, add f.1 f.2 s = Some r /\
  match r with
  | Ok s' => joined (frames ++ [f]) s' /\ (length (pieces s') <= S (length (pieces s)))%nat
  | Err BEYOND => MAX_HELLO < f.1 + zlen f.2
  | Err CHANGED => forall m, ~ Forall (fits m) (frames ++ [f])
  | Err TOO_MANY => (32 <= length (pieces s))%nat
  | Err NO_CLIENT_HELLO => forall m, Forall (fits m) (frames ++ [f]) -> m 0 <> 1
  | Err TOO_LONG => forall m, Forall (fits m) (frames ++ [f]) -> MAX_HELLO < 4 + of_be32 0 (m 1) (m 2) (m 3)
  | Err _ => False
  end.
Proof.
  intros Hj Hf. destruct (add_spec f.1 f.2 s (joined_wf _ _ Hj) (proj1 Hf)) as (r & Hr & Hadd).
  exists r. split; [done|].
  destruct Hadd as [Hb|Hle Hnag|Hle Hag Hsame|s1 Hle Hag Hw1 Hu1 Hc Hwh|s1 Hle Hag Hw1 Hu1 Hc H32]; [done| | | |lia].
  - intros m Hm. apply Hnag. by eapply joined_agrees.
  - split; [|lia]. eapply union_joined; try done; [apply Hj|apply Hj].
  - destruct (union_bytes _ _ _ s1 Hj Hf Hag Hu1) as (Hby & Hold & Hfit). rewrite <- Hwh in Hold.
    pose proof (see_head_spec s1 Hw1 Hby Hold) as Hsee. destruct (see_head s1) as [s2|why].
    + destruct Hsee as [Hp Hw2]. split; [|by rewrite Hp]. eapply union_joined; try done; rewrite Hp; done.
    + destruct Hsee as [[-> (x & Hx & Hne)]|[-> (b1 & b2 & b3 & G1 & G2 & G3 & Hlong)]]; intros m Hm.
      * by rewrite <- (Hfit m 0 x Hm Hx).
      * by rewrite <- (Hfit m 1 b1 Hm G1), <- (Hfit m 2 b2 Hm G2), <- (Hfit m 3 b3 Hm G3).
Qed.

Lemma joined_nil : joined [] no_pieces.
Proof.
  split; simpl; try done.
  - by intros f i ?%not_elem_of_nil.
  - intros n. split; [done|]. by intros (b1 & b2 & b3 & ? & _).
Qed.

(** The ClientHello of [n] bytes at the start of the message [m]. *)
Definition hello (m : Z -> Z) (n : Z) : Prop :=
  m 0 = 1 /\ n = 4 + of_be32 0 (m 1) (m 2) (m 3) /\ 4 <= n <= MAX_HELLO.

Lemma adds_joined before frames s : joined before s -> (length (pieces s) <= length before)%nat -> Forall frame_ok frames ->
  exists r, adds frames s = Some r /\
  match r with
  | Ok s' => joined (before ++ frames) s'
  | Err why => why <> CLOSED /\ why <> NOT_ALLOWED /\ why <> CUT_SHORT /\
      forall m n, hello m n -> Forall (fits m) (before ++ frames) ->
        Forall (fun f => f.1 + zlen f.2 <= MAX_HELLO) frames ->
        why = TOO_MANY /\ (32 < length (before ++ frames))%nat
  end.
Proof.
  revert before s. induction frames as [|f frames IH]; intros before s Hj Hcnt Hok; cbn [adds].
  { exists (Ok s). split; [done|]. by rewrite app_nil_r. }
  apply Forall_cons in Hok as [Hf Hok].
  destruct (add_joined before s f Hj Hf) as (r & -> & Hr). cbn [mbind option_bind]. destruct r as [s1|why].
  - destruct Hr as [Hr Hc].
    destruct (IH (before ++ [f]) s1 Hr ltac:(rewrite length_app; simpl; lia) Hok) as (r & -> & Hrr). exists r. split; [done|]. destruct r as [s2|why].
    + by rewrite <- app_assoc in Hrr.
    + destruct Hrr as (? & ? & ? & Hm). repeat (split; [done|]). intros m n Hh Hfit [_ Hlen]%Forall_cons.
      rewrite <- app_assoc in Hm. eapply Hm; done.
  - exists (Err why). split; [done|].
    assert (Hpre : forall m, Forall (fits m) (before ++ f :: frames) -> Forall (fits m) (before ++ [f])).
    { intros m. change (f :: frames) with ([f] ++ frames). rewrite app_assoc, Forall_app. by intros [? _]. }
    destruct why; try done; (split; [done|]; split; [done|]; split; [done|]);
      intros m n (Hm0 & Hn & Hmax) Hfit [Hlen _]%Forall_cons; apply Hpre in Hfit.
    + cbn beta in Hlen. lia.
    + by apply (Hr m) in Hfit.
    + split; [done|]. rewrite length_app. simpl. lia.
    + by apply (Hr m) in Hfit.
    + specialize (Hr m Hfit). lia.
Qed.

(** The first [n] bytes of the message [m]. *)
Definition message (m : Z -> Z) (n : Z) : list Z := map m (seqZ 0 n).

Lemma message_lookup m n k : 0 <= k < n -> message m n !! Z.to_nat k = Some (m k).
Proof.
  intros Hk. unfold message. apply (list_lookup_fmap_Some_2 m). rewrite lookup_seqZ_lt by lia. f_equal. lia.
Qed.

Lemma message_zlen m n : 0 <= n -> zlen (message m n) = n.
Proof. intros Hn. unfold zlen, message. rewrite length_map, length_seqZ. lia. Qed.

Section hello.
Context {K : Type} `{InitialCrypto K}.
Implicit Types (r : HelloReader (K := K)).

(** What [finish] makes of joined frames. *)
Lemma finish_joined frames r : joined frames (rpieces r) ->
  match whole (rpieces r) with
  | Some n => exists bytes, finish r = Some (Whole bytes) /\ zlen bytes = n
      /\ forall i, 0 <= i < n -> bytes !! Z.to_nat i = byte_at (pieces (rpieces r)) i
  | None => finish r = Some (Partial r)
  end.
Proof.
  intros Hj. unfold finish. destruct (whole (rpieces r)) as [n|] eqn:Hw; [|done].
  apply (joined_whole _ _ Hj) in Hw as (b1 & b2 & b3 & Hb0 & G1 & G2 & G3 & Hn & _ & Hall).
  pose proof (joined_wf _ _ Hj) as Hwf. pose proof (joined_bytes _ _ Hj) as Hby.
  remember (pieces (rpieces r)) as ps0 eqn:Hp.
  destruct ps0 as [|[start kept] ps]; [done|]. cbn [head mbind option_bind].
  assert (Hs : start = 0) by (apply (byte_at_zero _ _ Hwf); by eexists). subst start.
  pose proof (run_in_first (0, kept) ps n Hwf eq_refl Hall) as Hlen. cbn [snd] in Hlen.
  assert (Hn0 : 0 <= n).
  { pose proof (Hby 1 b1 G1). pose proof (Hby 2 b2 G2). pose proof (Hby 3 b3 G3).
    unfold is_byte, of_be32 in *. lia. }
  eexists. split; [reflexivity|]. split; [unfold zlen in *; rewrite length_take; lia|].
  intros i Hi. rewrite lookup_take_lt by lia. symmetry. apply byte_at_first; [done|done|]. cbn [snd]. lia.
Qed.

(** C6: the CRYPTO frames of a ClientHello give it back, in whatever order
    they come and however they overlap or repeat: of frames cut from a message
    that starts with a ClientHello of [n] bytes, at most 32 of them and within
    64 KiB, joining never gives up; once every byte of the ClientHello has
    come the answer is the ClientHello, and until then the reader waits. *)
Theorem frames_give_the_hello m n frames r :
  hello m n -> Forall frame_ok frames -> Forall (fits m) frames ->
  Forall (fun f => f.1 + zlen f.2 <= MAX_HELLO) frames -> (length frames <= 32)%nat ->
  exists s, adds frames no_pieces = Some (Ok s) /\
  let r := mkReader (wire_version r) (rversion r) (keys r) (largest r) s in
  ((forall i, 0 <= i < n -> covered frames i) -> finish r = Some (Whole (message m n)))
  /\ (forall i, 0 <= i < n -> ~ covered frames i -> finish r = Some (Partial r)).
Proof.
  intros Hh Hok Hfit Hlen H32.
  destruct (adds_joined [] frames no_pieces joined_nil ltac:(done) Hok) as (res_ & Hadds & Hres).
  destruct res_ as [s|why]; cbn [app] in Hres.
  2:{ destruct Hres as (_ & _ & _ & Hw). destruct (Hw m n Hh Hfit Hlen). lia. }
  exists s. split; [done|]. intros r'. destruct Hh as (Hm0 & Hn & Hmax).
  pose proof (finish_joined frames r' Hres) as Hfin. subst r'. cbn [rpieces] in *.
  assert (Hat : forall i, covered frames i -> byte_at (pieces s) i = Some (m i)).
  { intros i (f & Hin & Hc). rewrite (joined_frames _ _ Hres f i Hin Hc).
    rewrite Forall_forall in Hfit. by apply Hfit. }
  split.
  - intros Hcov. assert (Hw : whole s = Some n).
    { apply (joined_whole _ _ Hres). exists (m 1), (m 2), (m 3).
      rewrite !Hat, Hm0 by (apply Hcov; lia). repeat (split; [done|]). split; [lia|]. intros i Hi. rewrite Hat by (by apply Hcov). by eexists. }
    rewrite Hw in Hfin. destruct Hfin as (bytes & -> & Hl & Hb). do 2 f_equal.
    apply zlist_eq; [rewrite message_zlen; lia|]. intros k Hk. rewrite Hb, message_lookup by lia.
    apply Hat, Hcov. lia.
  - intros i Hi Hno. destruct (whole s) as [k|] eqn:Hw; [|done]. exfalso.
    apply (joined_whole _ _ Hres) in Hw as (b1 & b2 & b3 & G0 & G1 & G2 & G3 & -> & _ & Hall).
    apply Hno, (joined_only _ _ Hres), Hall.
    assert (Hx : forall k b, byte_at (pieces s) k = Some b -> b = m k).
    { intros k b Hb. by eapply joined_fits. }
    rewrite (Hx _ _ G1), (Hx _ _ G2), (Hx _ _ G3). lia.
Qed.

(** Whatever frames a client sends, a ClientHello that is handed on is
    what it sent: the bytes are a handshake message of type 1 of the length it
    states, at most 64 KiB; each of them came in some frame; and every frame
    that has a byte there has that one. *)
Theorem hello_is_what_came frames s r bytes :
  Forall frame_ok frames -> adds frames no_pieces = Some (Ok s) ->
  finish (mkReader (wire_version r) (rversion r) (keys r) (largest r) s) = Some (Whole bytes) ->
  (exists b1 b2 b3 rest, bytes = 1 :: b1 :: b2 :: b3 :: rest /\ zlen rest = of_be32 0 b1 b2 b3)
  /\ zlen bytes <= MAX_HELLO
  /\ forall i, 0 <= i < zlen bytes -> covered frames i
       /\ forall f, f ∈ frames -> covers f i -> f.2 !! Z.to_nat (i - f.1) = bytes !! Z.to_nat i.
Proof.
  intros Hok Hadds Hfin. destruct (adds_joined [] frames no_pieces joined_nil ltac:(done) Hok) as (res_ & Ha & Hres).
  rewrite Hadds in Ha. injection Ha as <-. cbn [app] in Hres.
  set (r' := mkReader _ _ _ _ s) in *. pose proof (finish_joined frames r' Hres) as Hf.
  assert (Hp : rpieces r' = s) by done. rewrite Hp in Hf.
  destruct (whole s) as [n|] eqn:Hw; [|congruence]. destruct Hf as (bytes' & Hf & Hl & Hb).
  assert (bytes' = bytes) as -> by congruence.
  apply (joined_whole _ _ Hres) in Hw as (b1 & b2 & b3 & G0 & G1 & G2 & G3 & Hn & Hmax & Hall).
  assert (Hb3 : forall k b, byte_at (pieces s) k = Some b -> is_byte b) by apply (joined_bytes _ _ Hres).
  pose proof (Hb3 _ _ G1) as B1. pose proof (Hb3 _ _ G2) as B2. pose proof (Hb3 _ _ G3) as B3.
  assert (H4 : 4 <= n) by (unfold is_byte, of_be32 in *; lia).
  split; [|split; [lia|]].
  - pose proof (Hb 0 ltac:(lia)) as L0. pose proof (Hb 1 ltac:(lia)) as L1.
    pose proof (Hb 2 ltac:(lia)) as L2. pose proof (Hb 3 ltac:(lia)) as L3.
    rewrite G0 in L0. rewrite G1 in L1. rewrite G2 in L2. rewrite G3 in L3.
    destruct bytes as [|c0 [|c1 [|c2 [|c3 rest]]]]; try done.
    injection L0 as ->. injection L1 as ->. injection L2 as ->. injection L3 as ->.
    exists b1, b2, b3, rest. split; [done|]. rewrite !zlen_cons in Hl. lia.
  - intros i Hi. rewrite Hl in Hi. split; [by apply (joined_only _ _ Hres), Hall|].
    intros f Hin Hc. rewrite (Hb i Hi). symmetry. by apply (joined_frames _ _ Hres).
Qed.

End hello.

(** ** Reading never panics *)

Lemma shiftr_6 b : is_byte b -> 0 <= Z.shiftr b 6 < 4.
Proof. intros Hb. rewrite Z.shiftr_div_pow2 by lia. change (2 ^ 6) with 64. unfold is_byte in Hb. Z.div_mod_to_equations; lia. Qed.

Lemma fold_push_nonneg bytes v : 0 <= v -> bytes_ok bytes ->
  0 <= fold_left (fun value byte => Z.lor (Z.shiftl value 8 mod 2 ^ 64) byte) bytes v.
Proof.
  intros Hv Hb. revert v Hv. induction Hb as [|b bytes Hb _ IH]; intros v Hv; [done|]. cbn [fold_left]. apply IH.
  apply Z.lor_nonneg. split; [apply Z.mod_pos_bound; lia|unfold is_byte in Hb; lia].
Qed.

Lemma varint_spec buf at_ v used : bytes_ok buf -> varint buf at_ = Some (v, used) ->
  0 <= at_ /\ 1 <= used <= 8 /\ at_ + used <= zlen buf /\ 0 <= v.
Proof.
  intros Hbuf Hv. unfold varint in Hv. apply bind_Some in Hv as (first & Hf & Hv).
  apply get_Some in Hf as [Hat Hf]. assert (Hb : is_byte first) by (eapply Forall_lookup_1; done).
  pose proof (shiftr_6 first Hb) as Hs.
  assert (Hu : 1 <= Z.shiftl 1 (Z.shiftr first 6) <= 8).
  { assert (Z.shiftr first 6 = 0 \/ Z.shiftr first 6 = 1 \/ Z.shiftr first 6 = 2 \/ Z.shiftr first 6 = 3)
      as [-> | [-> | [-> | ->]]] by lia; vm_compute; split; discriminate. }
  apply bind_Some in Hv as (e & He & Hv). unfold checked_add in He.
  destruct (at_ + _ <=? u64_max); [|done]. injection He as <-.
  apply bind_Some in Hv as (bytes & Hr & [= <- <-]). pose proof (get_range_bytes _ _ _ _ Hbuf Hr) as Hbs.
  apply get_range_inv in Hr as (? & ? & _). split; [lia|]. split; [done|]. split; [lia|].
  apply fold_push_nonneg; [|by apply Forall_drop]. apply Z.land_nonneg. right. lia.
Qed.

Lemma next_varint_spec buf at_ v at' : bytes_ok buf -> next_varint buf at_ = Ok (v, at') ->
  at_ < at' <= zlen buf /\ 0 <= v.
Proof.
  intros Hb. unfold next_varint. destruct (varint buf at_) as [[w used]|] eqn:Hv; [|done].
  intros [= <- <-]. apply varint_spec in Hv; [|done]. lia.
Qed.

Lemma skip_varints_spec n buf at_ at' : bytes_ok buf -> at_ <= zlen buf -> skip_varints n buf at_ = Ok at' ->
  at_ + Z.of_nat n <= at' <= zlen buf.
Proof.
  intros Hb. revert at_. induction n as [|n IH]; intros at_ Ha; cbn [skip_varints]; [intros [= ->]; lia|].
  destruct (next_varint buf at_) as [[v a]|] eqn:Hn; cbn [res_bind]; [|done]. apply next_varint_spec in Hn; [|done].
  intros Hs%IH; lia.
Qed.

Lemma skip_ranges_total fuel count buf at_ : bytes_ok buf -> at_ <= zlen buf -> zlen buf - at_ < Z.of_nat fuel ->
  exists r, skip_ranges fuel count buf at_ = Some r /\ forall at', r = Ok at' -> at_ <= at' <= zlen buf.
Proof.
  intros Hb. revert count at_. induction fuel as [|fuel IH]; intros count at_ Ha Hf; [lia|].
  cbn [skip_ranges]. case_match. { eexists. split; [done|]. intros a [= <-]. lia. }
  destruct (skip_varints 2 buf at_) as [a|] eqn:Hs; [|by eexists].
  apply skip_varints_spec in Hs; [|done..]. destruct (IH (count - 1) a ltac:(lia) ltac:(lia)) as (r & -> & Hr).
  exists r. split; [done|]. intros at' Hat. specialize (Hr at' Hat). lia.
Qed.

(** A reader whose pieces are those of some frames. *)
Definition pieces_ok (s : Pieces) : Prop := exists frames, joined frames s.

Lemma add_total offset data s : pieces_ok s -> 0 <= offset -> bytes_ok data ->
  exists r, add offset data s = Some r /\ forall s', r = Ok s' -> pieces_ok s'.
Proof.
  intros [frames Hj] Ho Hd. destruct (add_joined frames s (offset, data) Hj (conj Ho Hd)) as (r & Hr & Hs).
  cbn [fst snd] in Hr. exists r. split; [done|]. intros s' ->. destruct Hs as [Hs _]. by eexists.
Qed.

Lemma read_frame_total kind buf at_ s : bytes_ok buf -> 0 <= at_ <= zlen buf -> pieces_ok s ->
  exists r, read_frame kind buf at_ s = Some r
    /\ forall at' s', r = Ok (at', s') -> at_ <= at' <= zlen buf /\ pieces_ok s'.
Proof.
  intros Hb Ha Hs. unfold read_frame. case_match.
  { eexists. split; [done|]. intros at' s' [= <- <-]. by split; [lia|]. }
  case_match.
  { destruct (skip_varints 2 buf at_) as [a1|] eqn:Hv1; cbn [res_bind]; [|by eexists].
    apply skip_varints_spec in Hv1; [|done|lia].
    destruct (next_varint buf a1) as [[count a2]|] eqn:Hv2; [|by eexists]. apply next_varint_spec in Hv2; [|done].
    destruct (skip_varints 1 buf a2) as [a3|] eqn:Hv3; [|by eexists]. apply skip_varints_spec in Hv3; [|done|lia].
    destruct (skip_ranges_total (S (length buf)) count buf a3 Hb ltac:(lia)) as (r & -> & Hr); [unfold zlen; lia|].
    cbn [mbind option_bind]. eexists. split; [reflexivity|]. intros at' s'. destruct r as [a4|]; cbn [res_bind]; [|done].
    specialize (Hr a4 eq_refl). case_match; cbn [res_bind].
    - destruct (skip_varints 3 buf a4) as [a5|] eqn:Hv5; cbn [res_bind]; [|done].
      apply skip_varints_spec in Hv5; [|done|lia]. intros [= <- <-]. split; [lia|done].
    - intros [= <- <-]. split; [lia|done]. }
  case_match; [|case_match; by eexists].
  destruct (next_varint buf at_) as [[offset a1]|] eqn:Hv1; cbn [res_bind]; [|by eexists]. apply next_varint_spec in Hv1; [|done].
  destruct (next_varint buf a1) as [[len a2]|] eqn:Hv2; cbn [res_bind]; [|by eexists]. apply next_varint_spec in Hv2; [|done].
  destruct (checked_add a2 len) as [e|] eqn:He; cbn [ok_or res_bind]; [|by eexists].
  destruct (get_range buf a2 e) as [data|] eqn:Hd; cbn [ok_or res_bind]; [|by eexists].
  pose proof (get_range_bytes _ _ _ _ Hb Hd) as Hdb. apply get_range_inv in Hd as (? & ? & _).
  destruct (add_total offset data s Hs ltac:(lia) Hdb) as (r & -> & Hr). cbn [mbind option_bind].
  eexists. split; [reflexivity|]. intros at' s'. destruct r as [s1|]; cbn [res_bind]; [|done].
  intros [= <- <-]. split; [lia|by apply Hr].
Qed.

Lemma read_frames_from_total fuel buf at_ s : bytes_ok buf -> 0 <= at_ <= zlen buf -> pieces_ok s ->
  zlen buf - at_ <= Z.of_nat fuel ->
  exists r, read_frames_from fuel buf at_ s = Some r /\ forall s', r = Ok s' -> pieces_ok s'.
Proof.
  intros Hb. revert at_ s. induction fuel as [|fuel IH]; intros at_ s Ha Hs Hf; cbn [read_frames_from];
    (destruct (get buf at_) as [kind|] eqn:Hg; [|eexists; split; [done|]; by intros s' [= <-]]);
    apply get_Some in Hg as [Hat _]; [lia|].
  destruct (read_frame_total kind buf (at_ + 1) s Hb ltac:(lia) Hs) as (r & -> & Hr). cbn [mbind option_bind].
  destruct r as [[a s1]|]; [|by eexists]. destruct (Hr a s1 eq_refl). apply IH; [lia|done|lia].
Qed.

Lemma read_frames_total buf s : bytes_ok buf -> pieces_ok s ->
  exists r, read_frames buf s = Some r /\ forall s', r = Ok s' -> pieces_ok s'.
Proof. intros Hb Hs. apply read_frames_from_total; [done|pose proof (zlen_nonneg buf); lia|done|unfold zlen; lia]. Qed.

(** What rustls's keys are relied on for: bytes in, bytes out. *)
Class CryptoBytes (K : Type) `{InitialCrypto K} := {
  opened_bytes k n aad payload plain : packet_open k n aad payload = Some plain -> bytes_ok plain;
}.

Section total.
Context {K : Type} `{CryptoBytes K}.
Implicit Types (r : HelloReader (K := K)).

Definition reader_ok r : Prop := pieces_ok (rpieces r).

Lemma open_bytes packet pn (k : K) l number plain : open packet pn k l = Some (number, plain) -> bytes_ok plain.
Proof.
  unfold open. intros Ho. repeat (apply bind_Some in Ho as (? & ? & Ho); try destruct_or?).
  repeat match goal with p : (_ * _)%type |- _ => destruct p end.
  repeat (apply bind_Some in Ho as (? & ? & Ho)). simplify_eq. by eapply opened_bytes.
Qed.

Lemma checked_add_Some a b c : checked_add a b = Some c -> c = a + b.
Proof. unfold checked_add. case_match; congruence. Qed.

Lemma packet_at_range r datagram at_ cursor end_ initial : bytes_ok datagram -> 0 <= at_ ->
  packet_at r datagram at_ = Some (cursor, end_, initial) -> at_ <= cursor <= end_ /\ at_ < end_ <= zlen datagram.
Proof.
  intros Hb Hat Hp. unfold packet_at in Hp.
  apply bind_Some in Hp as (first & _ & Hp). apply bind_Some in Hp as (_ & _ & Hp).
  apply bind_Some in Hp as (e1 & _ & Hp). apply bind_Some in Hp as (v & _ & Hp).
  apply bind_Some in Hp as (_ & _ & Hp). apply bind_Some in Hp as (_ & _ & Hp).
  apply bind_Some in Hp as (dcid_len & Hd & Hp). apply bind_Some in Hp as (_ & _ & Hp).
  apply bind_Some in Hp as (c1 & ->%checked_add_Some & Hp).
  apply bind_Some in Hp as (scid_len & Hsc & Hp). apply bind_Some in Hp as (_ & _ & Hp).
  apply bind_Some in Hp as (c2 & ->%checked_add_Some & Hp).
  apply bind_Some in Hp as (c3 & Hc3 & Hp). apply bind_Some in Hp as ([len used] & Hv & Hp).
  apply bind_Some in Hp as (e2 & ->%checked_add_Some & Hp). apply bind_Some in Hp as ([] & Hreq & [= <- <- <-]).
  apply (get_byte _ _ _ Hb) in Hd as [_ Hd]. apply (get_byte _ _ _ Hb) in Hsc as [_ Hsc].
  apply varint_spec in Hv; [|done].
  assert (at_ <= c3).
  { unfold is_byte in *. destruct (_ =? initial_kind _); [|injection Hc3 as <-; lia].
    apply bind_Some in Hc3 as ([tl u] & Hv2 & ->%checked_add_Some). apply varint_spec in Hv2; [|done]. lia. }
  unfold require in Hreq. case_match eqn:Hle; [|done]. lia.
Qed.

Lemma read_packets_total fuel r datagram at_ : bytes_ok datagram -> reader_ok r -> 0 <= at_ ->
  zlen datagram - at_ <= Z.of_nat fuel ->
  exists res_, read_packets fuel r datagram at_ = Some res_ /\ forall r', res_ = Ok r' -> reader_ok r'.
Proof.
  intros Hb. revert r at_. induction fuel as [|fuel IH]; intros r at_ Hr Hat Hf; cbn [read_packets];
    (destruct (Z.leb_spec (zlen datagram) at_) as [Hle|Hgt];
      [eexists; split; [done|]; by intros r' [= <-]|]); [lia|].
  destruct (packet_at r datagram at_) as [[[cursor end_] initial]|] eqn:Hp;
    [|eexists; split; [done|]; by intros r' [= <-]].
  apply packet_at_range in Hp as [Hc He]; [|done..].
  rewrite get_range_Some by lia. cbn [mbind option_bind].
  destruct (if initial then _ else None) as [[number plain]|] eqn:Ho; [|apply IH; [done|lia|lia]].
  destruct initial; [|done]. apply open_bytes in Ho.
  destruct (read_frames_total plain (rpieces r) Ho Hr) as (rf & -> & Hrf). cbn [mbind option_bind].
  destruct rf as [p|]; [|by eexists]. apply IH; [by apply Hrf|lia|lia].
Qed.

Lemma walk_total r datagram at_ : bytes_ok datagram -> reader_ok r -> 0 <= at_ ->
  exists h, walk r datagram at_ = Some h /\ match h with Partial r' => reader_ok r' | _ => True end.
Proof.
  intros Hb Hr Hat. unfold walk.
  destruct (read_packets_total (length datagram) r datagram at_ Hb Hr Hat ltac:(unfold zlen; lia)) as (res_ & -> & Hres).
  cbn [mbind option_bind]. destruct res_ as [r'|why]; [|by eexists].
  destruct (Hres r' eq_refl) as [frames Hj]. pose proof (finish_joined frames r' Hj) as Hfin.
  destruct (whole (rpieces r')); [destruct Hfin as (bytes & -> & _); by eexists|].
  rewrite Hfin. eexists. split; [done|]. by exists frames.
Qed.

Lemma header_range datagram h : bytes_ok datagram -> header datagram = Some h ->
  0 <= pn_offset h /\ 0 <= pn_offset h + hlength h <= zlen datagram.
Proof.
  intros Hb Hh. unfold header in Hh.
  apply bind_Some in Hh as (_ & _ & Hh). apply bind_Some in Hh as (first & _ & Hh).
  apply bind_Some in Hh as (_ & _ & Hh). apply bind_Some in Hh as (wire & _ & Hh).
  apply bind_Some in Hh as (v & _ & Hh). apply bind_Some in Hh as (_ & _ & Hh).
  apply bind_Some in Hh as (dl & _ & Hh). apply bind_Some in Hh as (_ & _ & Hh).
  apply bind_Some in Hh as (dc & _ & Hh). apply bind_Some in Hh as (sl & _ & Hh).
  apply bind_Some in Hh as (_ & _ & Hh). apply bind_Some in Hh as ([tl u] & _ & Hh).
  apply bind_Some in Hh as (c1 & _ & Hh). apply bind_Some in Hh as (c2 & _ & Hh).
  apply bind_Some in Hh as ([len u2] & Hv & Hh). apply bind_Some in Hh as (c3 & ->%checked_add_Some & Hh).
  apply bind_Some in Hh as ([] & Hmin & Hh). apply bind_Some in Hh as (e & ->%checked_add_Some & Hh).
  apply bind_Some in Hh as ([] & Hreq & [= <-]). cbn [pn_offset hlength].
  apply varint_spec in Hv; [|done]. unfold require in Hreq. destruct (zlen datagram <? _) eqn:Hle; [done|]. lia.
Qed.

(** Reading never panics and always ends: of the first datagram of a flow,
    whatever its bytes, and of every datagram after it while the reader still
    waits, whatever the keys open. *)
Theorem reading_total datagram : bytes_ok datagram ->
  (exists o, read_first datagram = Some o /\
     match o with Some (Partial r) => reader_ok r | _ => True end)
  /\ forall r, reader_ok r -> exists h, read r datagram = Some h /\
     match h with Partial r' => reader_ok r' | _ => True end.
Proof.
  intros Hb. split; [|intros r Hr; by apply walk_total].
  unfold read_first. destruct (header datagram) as [h|] eqn:Hh; [|by eexists].
  apply header_range in Hh as [Hpn Hend]; [|done].
  rewrite (get_range_Some datagram 0 (pn_offset h + hlength h)) by lia. cbn [mbind option_bind].
  destruct (open _ _ _ _) as [[number plain]|] eqn:Ho; [|by eexists].
  destruct (get_range datagram 1 5) as [wire|]; [|by eexists]. apply open_bytes in Ho.
  change (mkPieces [] None) with no_pieces.
  destruct (read_frames_total plain no_pieces Ho) as (rf & -> & Hrf); [by exists []; apply joined_nil|].
  cbn [mbind option_bind]. destruct rf as [p|]; [|by eexists].
  match goal with |- context [walk ?r _ _] =>
    destruct (walk_total r datagram (pn_offset h + hlength h) Hb (Hrf p eq_refl) ltac:(lia)) as (x & -> & Hx) end.
  by eexists.
Qed.

End total.

(** ** Packet numbers *)

(** [expected & !mask]: the bits above the window. *)
Lemma keep_high e w : w = 8 \/ w = 16 \/ w = 24 \/ w = 32 -> 0 <= e < 2 ^ 62 ->
  Z.land e (u64_max - (Z.shiftl 1 w - 1)) = Z.shiftl (e / 2 ^ w) w.
Proof.
  intros Hw He.
  assert (Hm : u64_max - (Z.shiftl 1 w - 1) = Z.ldiff (Z.ones 64) (Z.ones w))
    by (destruct Hw as [-> | [-> | [-> | ->]]]; reflexivity).
  rewrite Hm, <- Z.shiftr_div_pow2 by lia. rewrite <- Z.ldiff_ones_r by lia.
  rewrite <- (Z.mod_small e (2 ^ 64)) at 2 by lia. rewrite <- Z.land_ones by lia.
  apply Z.bits_inj'. intros i Hi. rewrite !Z.land_spec, !Z.ldiff_spec, Z.land_spec. apply andb_assoc.
Qed.

(** The packet number restored is the one that was sent (RFC 9000 A.3):
    truncated to [len] bytes, it is given back as long as it is within half the
    window of the one expected next. *)
Theorem packet_number_restored largest len pn :
  1 <= len <= 4 -> let expected := match largest with Some l => l + 1 | None => 0 end in
  let win := 2 ^ (8 * len) in
  0 <= expected < 2 ^ 62 -> 0 <= pn < 2 ^ 62 ->
  expected - win / 2 < pn -> pn <= expected + win / 2 ->
  packet_number largest (pn mod win) len = pn.
Proof.
  intros Hlen expected win Hexp Hpn Hlo Hhi. unfold packet_number. fold expected.
  assert (Hcand : forall w, w = 8 \/ w = 16 \/ w = 24 \/ w = 32 ->
    Z.lor (Z.land expected (u64_max - (Z.shiftl 1 w - 1))) (pn mod 2 ^ w) = expected / 2 ^ w * 2 ^ w + pn mod 2 ^ w).
  { intros w Hw. rewrite keep_high by (done || (subst expected; lia)).
    apply lor_shiftl_add; [lia|]. apply Z.mod_pos_bound. destruct Hw as [-> | [-> | [-> | ->]]]; lia. }
  assert (Hl : len = 1 \/ len = 2 \/ len = 3 \/ len = 4) by lia. clearbody expected. subst win.
  destruct Hl as [-> | [-> | [-> | ->]]].
  - specialize (Hcand 8 ltac:(lia)). change (8 * 1) with 8 in *. change (1 * 8) with 8. rewrite Hcand.
    change (Z.shiftl 1 8) with 256. change (2 ^ 8) with 256 in *. change (256 / 2) with 128 in *. clear Hcand.
    repeat case_match; Z.div_mod_to_equations; lia.
  - specialize (Hcand 16 ltac:(lia)). change (8 * 2) with 16 in *. change (2 * 8) with 16. rewrite Hcand.
    change (Z.shiftl 1 16) with 65536. change (2 ^ 16) with 65536 in *. change (65536 / 2) with 32768 in *. clear Hcand.
    repeat case_match; Z.div_mod_to_equations; lia.
  - specialize (Hcand 24 ltac:(lia)). change (8 * 3) with 24 in *. change (3 * 8) with 24. rewrite Hcand.
    change (Z.shiftl 1 24) with 16777216. change (2 ^ 24) with 16777216 in *. change (16777216 / 2) with 8388608 in *.
    clear Hcand. repeat case_match; Z.div_mod_to_equations; lia.
  - specialize (Hcand 32 ltac:(lia)). change (8 * 4) with 32 in *. change (4 * 8) with 32. rewrite Hcand.
    change (Z.shiftl 1 32) with 4294967296. change (2 ^ 32) with 4294967296 in *.
    change (4294967296 / 2) with 2147483648 in *. clear Hcand.
    repeat case_match; Z.div_mod_to_equations; lia.
Qed.

(** ** Instances *)

(** Keys that seal nothing. *)
#[export] Instance null_crypto : InitialCrypto unit := {
  client_keys _ _ := tt;
  header_open _ _ first number := Some (first, number);
  packet_open _ _ _ payload := if bytes_okb payload then Some payload else None;
}.

#[export] Instance null_bytes : CryptoBytes unit.
Proof.
  split. intros k n aad payload plain. cbn [packet_open null_crypto].
  destruct (bytes_okb payload) eqn:Hb; [|done]. intros [= <-]. by apply bytes_okb_spec.
Defined.

Definition demo_hello : list Z := [1; 0; 0; 2; 7; 9; 2; 0; 0; 1].
Definition demo_message (i : Z) : Z := default 0 (demo_hello !! Z.to_nat i).
Definition demo_frames : list Frame := [(4, [7; 9; 2]); (0, [1; 0; 0]); (2, [0; 2; 7])].
Definition demo_reader : HelloReader (K := unit) := mkReader [0; 0; 0; 1] V1 tt None no_pieces.

Lemma demo_frames_ok : Forall frame_ok demo_frames /\ Forall (fits demo_message) demo_frames.
Proof.
  split.
  - repeat (apply Forall_cons; split; [split; [cbn; lia|by apply bytes_okb_spec]|]). constructor.
  - repeat (apply Forall_cons; split; [|]); [..|constructor]; intros i [Hlo Hhi]; unfold zlen in *; cbn in Hlo, Hhi.
    + assert (i = 4 \/ i = 5 \/ i = 6) as [-> | [-> | ->]] by lia; reflexivity.
    + assert (i = 0 \/ i = 1 \/ i = 2) as [-> | [-> | ->]] by lia; reflexivity.
    + assert (i = 2 \/ i = 3 \/ i = 4) as [-> | [-> | ->]] by lia; reflexivity.
Qed.

Lemma frames_give_the_hello_witness : exists s, adds demo_frames no_pieces = Some (Ok s)
  /\ finish (mkReader [0; 0; 0; 1] V1 tt None s) = Some (Whole [1; 0; 0; 2; 7; 9]).
Proof.
  destruct demo_frames_ok as [Hok Hfit].
  destruct (frames_give_the_hello demo_message 6 demo_frames demo_reader) as (s & Hs & Hfin & _).
  - split; [reflexivity|]. split; [reflexivity|]. unfold MAX_HELLO. lia.
  - exact Hok.
  - exact Hfit.
  - repeat (apply Forall_cons; split; [vm_compute; discriminate|]). constructor.
  - vm_compute. lia.
  - exists s. split; [exact Hs|]. apply Hfin. intros i Hi.
    destruct (decide (i < 3)); [exists (0, [1; 0; 0])|exists (if decide (i = 3) then (2, [0; 2; 7]) else (4, [7; 9; 2]))];
      unfold demo_frames, covers, zlen; [|case_decide]; (split; [set_solver|cbn; lia]).
Defined.

Lemma hello_is_what_came_witness : exists s bytes, adds demo_frames no_pieces = Some (Ok s)
  /\ finish (mkReader [0; 0; 0; 1] V1 tt None s) = Some (Whole bytes) /\ zlen bytes <= MAX_HELLO.
Proof.
  destruct demo_frames_ok as [Hok _].
  destruct (adds demo_frames no_pieces) as [[s|]|] eqn:Ha; [|vm_compute in Ha; discriminate Ha..].
  exists s, [1; 0; 0; 2; 7; 9]. split; [reflexivity|].
  assert (Hf : finish (mkReader [0; 0; 0; 1] V1 tt None s) = Some (Whole [1; 0; 0; 2; 7; 9])).
  { vm_compute in Ha. injection Ha as <-. reflexivity. }
  split; [exact Hf|]. apply (hello_is_what_came demo_frames s demo_reader _ Hok Ha Hf).
Defined.

Lemma reading_total_witness : exists h, read demo_reader [192; 0; 0; 0; 1; 0; 0; 0; 5; 1; 2; 3] = Some h.
Proof.
  destruct (reading_total (K := unit) [192; 0; 0; 0; 1; 0; 0; 0; 5; 1; 2; 3]) as [_ Hr].
  - apply bytes_okb_spec. reflexivity.
  - destruct (Hr demo_reader) as (h & Hh & _); [exists []; apply joined_nil|]. exists h. exact Hh.
Defined.

(** The example of RFC 9000 A.3. *)
Lemma packet_number_restored_witness : packet_number (Some 0xa82f30ea) (0xa82f9b32 mod 2 ^ (8 * 2)) 2 = 0xa82f9b32.
Proof.
  apply (packet_number_restored (Some 0xa82f30ea) 2 0xa82f9b32); [lia|lia|lia| |]; vm_compute; reflexivity || discriminate.
Defined.
