(* ===== verification/DnsWire.v ===== *)
(** * DNS messages read and written byte by byte

    The wire part of [crates/rurge-dns/src/message.rs]: what the responder and
    the forwarder read where it stands in a message, the TTLs lowered in place,
    and the answers written.  The parts of that file that go through
    hickory-proto are not here; of them only the four bits of a response code
    are used, the parameter [code]. *)

From S2P Require Import Prelude Bytes.

Definition OPT : Z := 41.
Definition QR : Z := 128.
Definition AA : Z := 4.
Definition TC : Z := 2.
Definition RD : Z := 1.
Definition RA : Z := 128.
Definition TYPE_A : Z := 1.
Definition TYPE_AAAA : Z := 28.
Definition CLASS_IN : Z := 1.
Definition MAX_NAME : Z := 255.
Definition ANSWER_UDP_SIZE : Z := 1232.

(** The response codes of [Rcode]. *)
Inductive Rcode : Type := NoError | NxDomain | ServFail | Refused | FormErr | NotImp | Other (n : Z).

(** An address of an answer: its four or sixteen bytes. *)
Inductive Addr : Type := AddrV4 (octets : list Z) | AddrV6 (octets : list Z).

(** [wire[at..at + len].copy_from_slice(new)]; [None] is a panic. *)
Definition put_range (wire : list Z) (at_ : Z) (new : list Z) : option (list Z) :=
  if (0 <=? at_) && (at_ + zlen new <=? zlen wire) then Some (splice wire (Z.to_nat at_) new) else None.

Definition wire_id (bytes : list Z) : option Z :=
  if 12 <=? zlen bytes
  then match bytes with b0 :: b1 :: _ => Some (of_be16 b0 b1) | _ => None end
  else None.

Definition wire_truncated (bytes : list Z) : bool :=
  (12 <=? zlen bytes) && negb (Z.land (default 0 (get bytes 2)) TC =? 0).

(** ** Walking the records *)

Definition wire_u16 (wire : list Z) (at_ : Z) : option Z :=
  bytes ← get_range wire at_ (at_ + 2);
  match bytes with [a; b] => Some (of_be16 a b) | _ => None end.

(** [name_end]: [None] is also fuel used up, which [name_end_fuel] excludes. *)
Fixpoint name_end_from (fuel : nat) (wire : list Z) (at_ : Z) : option Z :=
  match fuel with
  | O => None
  | S fuel =>
      len ← get wire at_;
      if len =? 0 then Some (at_ + 1)
      else if len <=? 63 then name_end_from fuel wire (at_ + (1 + len))
      else if 192 <=? len then Some (at_ + 2)
      else None
  end.

Definition name_end (wire : list Z) (at_ : Z) : option Z := name_end_from (S (length wire)) wire at_.

Fixpoint skip_questions (n : nat) (wire : list Z) (at_ : Z) : option Z :=
  match n with
  | O => Some at_
  | S n => e ← name_end wire at_; skip_questions n wire (e + 4)
  end.

(** The loop of [ttl_offsets] over the records. *)
Fixpoint ttl_records (n : nat) (wire : list Z) (at_ : Z) (ttls : list Z) : option (list Z * Z) :=
  match n with
  | O => Some (ttls, at_)
  | S n =>
      at_ ← name_end wire at_;
      ty ← wire_u16 wire at_;
      let ttls := if negb (ty =? OPT) then ttls ++ [at_ + 4] else ttls in
      rdlength ← wire_u16 wire (at_ + 8);
      ttl_records n wire (at_ + (10 + rdlength)) ttls
  end.

Definition record_count (wire : list Z) : option Z :=
  an ← wire_u16 wire 6;
  ns ← wire_u16 wire 8;
  ar ← wire_u16 wire 10;
  Some (an + ns + ar).

Definition ttl_offsets (wire : list Z) : option (list Z) :=
  questions ← wire_u16 wire 4;
  records ← record_count wire;
  at_ ← skip_questions (Z.to_nat questions) wire 12;
  '(ttls, at_) ← ttl_records (Z.to_nat records) wire at_ [];
  if at_ <=? zlen wire then Some ttls else None.

(** [lower_ttls]: the loop, and the whole; [None] is a panic. *)
Fixpoint lower_each (ttls : list Z) (seconds : Z) (wire : list Z) : option (list Z) :=
  match ttls with
  | [] => Some wire
  | at_ :: ttls =>
      bytes ← get_range wire at_ (at_ + 4);
      ttl ← match bytes with [a; b; c; d] => Some (of_be32 a b c d) | _ => None end;
      wire ← put_range wire at_ (be32 (sat_sub ttl seconds));
      lower_each ttls seconds wire
  end.

Definition lower_ttls (wire : list Z) (seconds : Z) : option (list Z) :=
  if seconds =? 0 then Some wire
  else lower_each (default [] (ttl_offsets wire)) seconds wire.

(** The loop of [record_types], and the whole. *)
Fixpoint type_records (n : nat) (wire : list Z) (at_ : Z) (types : list Z) : option (list Z * Z) :=
  match n with
  | O => Some (types, at_)
  | S n =>
      at_ ← name_end wire at_;
      let types := types ++ [at_] in
      rdlength ← wire_u16 wire (at_ + 8);
      type_records n wire (at_ + (10 + rdlength)) types
  end.

Definition record_types (wire : list Z) : option (list Z) :=
  questions ← wire_u16 wire 4;
  records ← record_count wire;
  at_ ← skip_questions (Z.to_nat questions) wire 12;
  '(types, at_) ← type_records (Z.to_nat records) wire at_ [];
  if at_ <=? zlen wire then Some types else None.

Fixpoint opt_in (wire : list Z) (types : list Z) : option Z :=
  match types with
  | [] => None
  | at_ :: types => if bool_decide (wire_u16 wire at_ = Some OPT) then Some at_ else opt_in wire types
  end.

Definition opt_size (bytes : list Z) : option Z :=
  types ← record_types bytes;
  at_ ← opt_in bytes types;
  wire_u16 bytes (at_ + 2).

Definition cap_udp_size (bytes : list Z) (max : Z) : option (list Z) :=
  match types ← record_types bytes; opt_in bytes types with
  | None => Some bytes
  | Some at_ =>
      match wire_u16 bytes (at_ + 2) with
      | Some size => if max <? size then put_range bytes (at_ + 2) (be16 max) else Some bytes
      | None => Some bytes
      end
  end.

(** ** The header and the first question *)

Record Header := mkHeader { id : Z; opcode : Z; recursion_desired : bool }.

Definition wire_header (bytes : list Z) : option Header :=
  if 12 <=? zlen bytes then
    match bytes with
    | b0 :: b1 :: b2 :: _ =>
        Some (mkHeader (of_be16 b0 b1) (Z.land (Z.shiftr b2 3) 15) (negb (Z.land b2 RD =? 0)))
    | _ => None
    end
  else None.

Definition set_wire_id (bytes : list Z) (v : Z) : list Z :=
  match bytes with
  | _ :: _ :: rest => be16 v ++ rest
  | _ => bytes
  end.

Definition wire_is_response (bytes : list Z) : bool :=
  (12 <=? zlen bytes) && negb (Z.land (default 0 (get bytes 2)) QR =? 0).

(** [{byte:03}]. *)
Definition three_digits (byte : Z) : rstr := [48 + byte / 100; 48 + byte / 10 mod 10; 48 + byte mod 10].

Definition push_byte (byte : Z) : rstr :=
  if (byte =? 46) || (byte =? 92) then [92; byte]
  else if (byte <=? 32) || (127 <=? byte) then 92 :: three_digits byte
  else [lower_char byte].

Definition push_label (out : rstr) (label : list Z) : rstr := out ++ flat_map push_byte label.

Record FirstQuestion := mkFirstQuestion { fq_name : rstr; fq_type : Z; fq_class : Z; fq_end : Z }.

(** The loop over the labels: the name, and where it ends. *)
Fixpoint first_name (fuel : nat) (bytes : list Z) (at_ : Z) (name : rstr) : option (rstr * Z) :=
  match fuel with
  | O => None
  | S fuel =>
      len ← get bytes at_;
      let at_ := at_ + 1 in
      if len =? 0 then Some (name, at_)
      else if len <=? 63 then
        label ← get_range bytes at_ (at_ + len);
        let name := match name with [] => name | _ => name ++ [46] end in
        let name := push_label name label in
        let at_ := at_ + len in
        if MAX_NAME <=? at_ - 12 then None else first_name fuel bytes at_ name
      else None
  end.

Definition first_question (bytes : list Z) : option FirstQuestion :=
  qdcount ← wire_u16 bytes 4;
  if qdcount =? 0 then None
  else
    '(name, at_) ← first_name (S (length bytes)) bytes 12 [];
    qtype ← wire_u16 bytes at_;
    qclass ← wire_u16 bytes (at_ + 2);
    Some (mkFirstQuestion name qtype qclass (at_ + 4)).

Definition wire_question (bytes : list Z) : option (rstr * Z * Z) :=
  q ← first_question bytes; Some (fq_name q, fq_type q, fq_class q).

(** ** Requests *)

Record Request := mkRequest {
  r_id : Z;
  r_recursion_desired : bool;
  r_name : rstr;
  r_qtype : Z;
  r_qclass : Z;
  r_udp_size : option Z;
  r_question : list Z;
}.

Inductive RequestError : Type :=
| NotAQuery
| NotImplemented (h : Header)
| Malformed (h : Header).

(** [read_request]; [None] is a panic of the last slice. *)
Definition read_request (bytes : list Z) : option (res RequestError Request) :=
  match wire_header bytes with
  | Some header =>
      if wire_is_response bytes then Some (Err NotAQuery)
      else if negb (opcode header =? 0) then Some (Err (NotImplemented header))
      else if negb (bool_decide (wire_u16 bytes 4 = Some 1)) then Some (Err (Malformed header))
      else
        match first_question bytes, record_types bytes with
        | Some question, Some types =>
            echoed ← get_range bytes 12 (fq_end question);
            Some (Ok (mkRequest (id header) (recursion_desired header) (fq_name question)
              (fq_type question) (fq_class question)
              (at_ ← opt_in bytes types; wire_u16 bytes (at_ + 2)) echoed))
        | _, _ => Some (Err (Malformed header))
        end
  | None => Some (Err NotAQuery)
  end.

(** ** Answers *)

Definition opt_record : list Z := [0; 0; 41] ++ be16 ANSWER_UDP_SIZE ++ [0; 0; 0; 0; 0; 0].

Definition push_record (out : list Z) (rtype ttl : Z) (data : list Z) : list Z :=
  out ++ [192; 12] ++ be16 rtype ++ be16 CLASS_IN ++ be32 ttl ++ be16 (zlen data mod 65536) ++ data.

(** The loop of [answer]: the records, and how many. *)
Fixpoint answer_records (qtype ttl : Z) (addrs : list Addr) (records : list Z) (count : Z) : list Z * Z :=
  match addrs with
  | [] => (records, count)
  | addr :: addrs =>
      let pushed :=
        match addr with
        | AddrV4 a => if qtype =? TYPE_A then Some (push_record records TYPE_A ttl a) else None
        | AddrV6 a => if qtype =? TYPE_AAAA then Some (push_record records TYPE_AAAA ttl a) else None
        end in
      match pushed with
      | None => answer_records qtype ttl addrs records count
      | Some records =>
          let count := count + 1 in
          if count =? u16_max then (records, count) else answer_records qtype ttl addrs records count
      end
  end.

Section reply.
Variable code : Rcode -> Z.

Definition flag (b : bool) (v : Z) : Z := if b then v else 0.

Definition write_reply (req : Request) (flags : Z) (rcode : Rcode) (count : Z) (records : list Z) : list Z :=
  let opt := match r_udp_size req with Some _ => true | None => false end in
  be16 (r_id req)
  ++ [Z.lor (Z.lor QR flags) (flag (r_recursion_desired req) RD); Z.lor RA (code rcode)]
  ++ be16 1 ++ be16 count ++ be16 0 ++ be16 (flag opt 1)
  ++ r_question req ++ records ++ (if opt then opt_record else []).

Definition answer (req : Request) (rcode : Rcode) (addrs : list Addr) (ttl : Z) : list Z :=
  let '(records, count) := answer_records (r_qtype req) ttl addrs [] 0 in
  write_reply req AA rcode count records.

Definition answer_truncated (req : Request) (rcode : Rcode) : list Z := write_reply req TC rcode 0 [].

Definition answer_header_only (h : Header) (rcode : Rcode) : list Z :=
  be16 (id h)
  ++ [Z.lor (Z.lor QR (Z.shiftl (Z.land (opcode h) 15) 3 mod 256)) (flag (recursion_desired h) RD);
      Z.lor RA (code rcode)]
  ++ replicate 8 0.

End reply.
