(* ===== verification/DnsWireProps.v ===== *)
(** * Walking a DNS message and rewriting it in place

    What [lower_ttls] and [cap_udp_size] of [crates/rurge-dns/src/message.rs]
    do: where the walk of the records reads is apart from where they write, so
    the message reads afterwards as it did before. *)

From S2P Require Import Prelude Bytes DnsWire.

(** ** What the walk reads *)

(** Two messages of one length with the same bytes from [a] to [b]. *)
Definition same (w w' : list Z) (a b : Z) : Prop :=
  forall k, a <= k < b -> w !! Z.to_nat k = w' !! Z.to_nat k.

Lemma same_sub w w' a b a' b' : same w w' a b -> a <= a' -> b' <= b -> same w w' a' b'.
Proof. intros Hs Ha Hb k Hk. apply Hs. lia. Qed.

Lemma wire_u16_ext w w' a : zlen w = zlen w' -> same w w' a (a + 2) -> wire_u16 w a = wire_u16 w' a.
Proof. intros Hl Hs. unfold wire_u16. by rewrite (get_range_ext w w' a (a + 2) Hl Hs). Qed.

Lemma wire_u16_Some w a v : wire_u16 w a = Some v -> 0 <= a /\ a + 2 <= zlen w.
Proof. unfold wire_u16. intros ?. inv_option. match goal with Hr : get_range _ _ _ = _ |- _ => apply get_range_inv in Hr end. lia. Qed.

Lemma wire_u16_byte w a v : bytes_ok w -> wire_u16 w a = Some v -> 0 <= v <= u16_max.
Proof.
  unfold wire_u16. intros Hw ?. inv_option. match goal with Hr : get_range _ _ _ = _ |- _ => apply get_range_bytes in Hr; [|done]; rename Hr into Hb end.
  repeat case_match; simplify_eq. repeat (apply Forall_cons in Hb as [? Hb]). by apply of_be16_range.
Qed.

Lemma name_end_from_inv n w a e : 0 <= a -> bytes_ok w -> name_end_from n w a = Some e -> a < e.
Proof.
  revert a. induction n as [|n IH]; intros a Ha Hw He; [done|]. simpl in He. inv_option.
  match goal with Hg : get _ _ = _ |- _ => apply get_byte in Hg as [_ Hb]; [|done] end. unfold is_byte in Hb.
  repeat case_match; simplify_eq; try lia. match goal with Hr : name_end_from _ _ _ = _ |- _ => apply IH in Hr; [|lia|done] end. lia.
Qed.

Lemma name_end_from_ext n w w' a e : 0 <= a -> bytes_ok w -> zlen w = zlen w' ->
  name_end_from n w a = Some e -> same w w' a e -> name_end_from n w' a = Some e.
Proof.
  intros Ha Hw Hl. revert a Ha. induction n as [|n IH]; intros a Ha He Hs; [done|].
  pose proof (name_end_from_inv _ _ _ _ Ha Hw He) as Hlt. simpl in He |- *.
  rewrite get_lookup, <- (Hs a), <- get_lookup by lia.
  destruct (get w a) as [b|] eqn:Hb; [|done]. simpl in *.
  apply get_byte in Hb as [_ Hb]; [|done]. unfold is_byte in Hb.
  repeat case_match; try done. apply IH; [lia|done|]. eapply same_sub; [done|lia|lia].
Qed.

Lemma name_end_ext w w' a e : 0 <= a -> bytes_ok w -> zlen w = zlen w' ->
  name_end w a = Some e -> same w w' a e -> name_end w' a = Some e.
Proof.
  intros Ha Hw Hl He Hs. unfold name_end. replace (length w') with (length w) by (unfold zlen in Hl; lia).
  by eapply name_end_from_ext.
Qed.

Lemma name_end_inv w a e : 0 <= a -> bytes_ok w -> name_end w a = Some e -> a < e.
Proof. intros ???. by eapply name_end_from_inv. Qed.

(** One step per byte is enough. *)
Lemma name_end_from_more n m w a : 0 <= a -> bytes_ok w -> zlen w < a + Z.of_nat n -> (n <= m)%nat ->
  name_end_from n w a = name_end_from m w a.
Proof.
  intros Ha Hw. revert m a Ha. induction n as [|n IH]; intros m a Ha Hn Hm.
  - destruct m as [|m]; [done|]. simpl. unfold get. rewrite (proj2 (Z.ltb_ge _ _)) by lia. by rewrite andb_false_r.
  - destruct m as [|m]; [lia|]. simpl. destruct (get w a) as [b|] eqn:Hb; [|done]. simpl.
    apply get_byte in Hb as [Hr Hb]; [|done]. unfold is_byte in Hb. repeat case_match; try done.
    apply IH; lia.
Qed.

Lemma skip_questions_inv n w a e : 0 <= a -> bytes_ok w -> skip_questions n w a = Some e -> a <= e.
Proof.
  intros Ha Hw. revert a Ha. induction n as [|n IH]; intros a Ha He; simpl in He; [simplify_eq; lia|].
  apply bind_Some in He as (e' & Hn & He). apply name_end_inv in Hn; [|done..]. apply IH in He; [lia|lia].
Qed.

Lemma skip_questions_ext n w w' a e : 0 <= a -> bytes_ok w -> zlen w = zlen w' ->
  skip_questions n w a = Some e -> same w w' a e -> skip_questions n w' a = Some e.
Proof.
  intros Ha Hw Hl. revert a Ha. induction n as [|n IH]; intros a Ha He Hs; simpl in *; [done|].
  apply bind_Some in He as (e' & Hn & He). pose proof (name_end_inv _ _ _ Ha Hw Hn) as Hne.
  assert (e' + 4 <= e) by (eapply skip_questions_inv; [|done..]; lia).
  rewrite (name_end_ext w w' a e') by (try done; (eapply same_sub; [done|lia|lia])). simpl.
  apply IH; [lia|done|]. eapply same_sub; [done|lia|lia].
Qed.

Lemma record_count_ext w w' : zlen w = zlen w' -> same w w' 0 12 -> record_count w' = record_count w.
Proof.
  intros Hl Hs. unfold record_count.
  rewrite (wire_u16_ext w w' 6), (wire_u16_ext w w' 8), (wire_u16_ext w w' 10); try done; (eapply same_sub; [done|lia|lia]).
Qed.

(** ** The fields the walk passes over *)

(** The fixed part of a record, from its TYPE to its RDLENGTH: the walk of
    [ttl_offsets] and of [record_types] reads its first and its last two
    bytes.  [fixed n w a] are where they stand. *)
Fixpoint fixed (n : nat) (wire : list Z) (at_ : Z) : option (list Z * Z) :=
  match n with
  | O => Some ([], at_)
  | S n =>
      at_ ← name_end wire at_;
      rdlength ← wire_u16 wire (at_ + 8);
      '(l, e) ← fixed n wire (at_ + (10 + rdlength));
      Some (at_ :: l, e)
  end.

Lemma fixed_inv n w a l e : 0 <= a -> bytes_ok w -> fixed n w a = Some (l, e) ->
  a <= e /\ Forall (fun t => a < t /\ t + 10 <= e /\ t + 10 <= zlen w) l
  /\ StronglySorted (fun t u => t + 10 < u) l.
Proof.
  intros Ha Hw. revert a l Ha. induction n as [|n IH]; intros a l Ha Hf; simpl in Hf.
  { simplify_eq. split; [lia|]. split; constructor. }
  apply bind_Some in Hf as (t & Hn & Hf). apply bind_Some in Hf as (r & Hr & Hf).
  apply bind_Some in Hf as ([l' e'] & Hf & Heq). simplify_eq.
  apply name_end_inv in Hn; [|done..]. pose proof (wire_u16_Some _ _ _ Hr). apply wire_u16_byte in Hr; [|done].
  apply IH in Hf as (He & Hl & Hs); [|lia]. split; [lia|]. split.
  - constructor; [lia|]. eapply Forall_impl; [done|]. simpl. lia.
  - constructor; [done|]. eapply Forall_impl; [done|]. simpl. lia.
Qed.

(** Rewriting bytes 2 to 8 of the fixed parts — class and TTL — leaves the
    walk where it was. *)
Definition kept (w w' : list Z) (l : list Z) : Prop :=
  zlen w = zlen w' /\ forall k, 0 <= k -> (forall t, t ∈ l -> ~ (t + 2 <= k < t + 8)) ->
    w !! Z.to_nat k = w' !! Z.to_nat k.

Lemma fixed_ext n w w' a l e : 0 <= a -> bytes_ok w -> fixed n w a = Some (l, e) ->
  zlen w = zlen w' ->
  (forall k, a <= k < e -> (forall t, t ∈ l -> ~ (t + 2 <= k < t + 8)) -> w !! Z.to_nat k = w' !! Z.to_nat k) ->
  fixed n w' a = Some (l, e).
Proof.
  intros Ha Hw Hf Hl. revert a l Ha Hf. induction n as [|n IH]; intros a l Ha Hf Hk; simpl in *; [done|].
  apply bind_Some in Hf as (t & Hn & Hf). apply bind_Some in Hf as (r & Hr & Hf).
  apply bind_Some in Hf as ([l' e'] & Hf & Heq). simplify_eq.
  pose proof (name_end_inv _ _ _ Ha Hw Hn) as Hne. pose proof (wire_u16_byte _ _ _ Hw Hr).
  destruct (fixed_inv _ _ (t + (10 + r)) _ _ ltac:(lia) Hw Hf) as (He & Hall & _).
  rewrite Forall_forall in Hall.
  rewrite (name_end_ext w w' a t); try done.
  2:{ intros k Hr'. apply Hk; [lia|]. intros u [->|Hu]%elem_of_cons; [lia|]. specialize (Hall u Hu). lia. }
  simpl. rewrite <- (wire_u16_ext w w' (t + 8)), Hr; [|done|].
  2:{ intros k Hr'. apply Hk; [lia|]. intros u [->|Hu]%elem_of_cons; [lia|]. specialize (Hall u Hu). lia. }
  simpl. rewrite IH with (l := l'); [done|lia|done|]. intros k Hr' Hu. apply Hk; [lia|].
  intros u [->|Hu']%elem_of_cons; [lia|]. by apply Hu.
Qed.

Lemma type_records_fixed n w a acc :
  type_records n w a acc = ('(l, e) ← fixed n w a; Some (acc ++ l, e)).
Proof.
  revert a acc. induction n as [|n IH]; intros a acc; simpl; [by rewrite app_nil_r|].
  destruct (name_end w a) as [t|]; simpl; [|done]. destruct (wire_u16 w (t + 8)) as [r|]; simpl; [|done].
  rewrite IH. destruct (fixed n w _) as [[l e]|]; simpl; [|done]. by rewrite <- app_assoc.
Qed.

(** A TTL for each record that is no OPT. *)
Definition ttl_fields (w : list Z) (l : list Z) : list Z :=
  flat_map (fun t => if bool_decide (wire_u16 w t = Some OPT) then [] else [t + 4]) l.

Lemma ttl_records_fixed n w a acc : 0 <= a -> bytes_ok w ->
  ttl_records n w a acc = ('(l, e) ← fixed n w a; Some (acc ++ ttl_fields w l, e)).
Proof.
  intros Ha Hw. revert a acc Ha. induction n as [|n IH]; intros a acc Ha; simpl; [by rewrite app_nil_r|].
  destruct (name_end w a) as [t|] eqn:Ht; simpl; [|done].
  apply name_end_inv in Ht; [|done..].
  destruct (wire_u16 w (t + 8)) as [r|] eqn:Hr; simpl.
  2:{ destruct (wire_u16 w t); done. }
  pose proof (wire_u16_Some _ _ _ Hr). pose proof (wire_u16_byte _ _ _ Hw Hr).
  destruct (wire_u16 w t) as [ty|] eqn:Hty; simpl.
  2:{ unfold wire_u16 in Hty. rewrite get_range_Some in Hty by lia. simpl in Hty.
      destruct (take (Z.to_nat (t + 2 - t)) (drop (Z.to_nat t) w)) as [|b1 [|b2 [|b3 x]]] eqn:Htk; try done;
      apply (f_equal length) in Htk; rewrite length_take, length_drop in Htk; unfold zlen in *; simpl in Htk; lia. }
  rewrite IH by lia. destruct (fixed n w _) as [[l e]|]; simpl; [|done].
  rewrite Hty. do 2 f_equal. destruct (Z.eqb_spec ty OPT) as [->|Hne].
  - by rewrite bool_decide_eq_true_2.
  - rewrite bool_decide_eq_false_2 by congruence. simpl. by rewrite <- app_assoc.
Qed.

(** ** The records of a message *)

Definition records (w : list Z) : option (list Z) :=
  questions ← wire_u16 w 4;
  count ← record_count w;
  at_ ← skip_questions (Z.to_nat questions) w 12;
  '(l, e) ← fixed (Z.to_nat count) w at_;
  if e <=? zlen w then Some l else None.

Lemma record_types_records w : record_types w = records w.
Proof.
  unfold record_types, records. destruct (wire_u16 w 4); simpl; [|done]. destruct (record_count w); simpl; [|done].
  destruct (skip_questions _ w 12); simpl; [|done]. rewrite type_records_fixed.
  destruct (fixed _ w _) as [[l e]|]; done.
Qed.

Lemma ttl_offsets_records w : bytes_ok w -> ttl_offsets w = ttl_fields w <$> records w.
Proof.
  intros Hw. unfold ttl_offsets, records. destruct (wire_u16 w 4); simpl; [|done]. destruct (record_count w); simpl; [|done].
  destruct (skip_questions _ w 12) as [a|] eqn:Ha; simpl; [|done].
  rewrite ttl_records_fixed; [|apply skip_questions_inv in Ha; [lia|lia|done]|done].
  destruct (fixed _ w _) as [[l e]|]; simpl; [|done]. by case_match.
Qed.

Lemma records_inv w l : bytes_ok w -> records w = Some l ->
  Forall (fun t => 12 < t /\ t + 10 <= zlen w) l /\ StronglySorted (fun t u => t + 10 < u) l.
Proof.
  intros Hw. unfold records. intros Hr. apply bind_Some in Hr as (q & Hq & Hr). apply bind_Some in Hr as (c & Hc & Hr).
  apply bind_Some in Hr as (a & Ha & Hr). apply bind_Some in Hr as ([l' e] & Hf & Hr). case_match; simplify_eq.
  apply skip_questions_inv in Ha; [|lia|done]. apply fixed_inv in Hf as (_ & Hall & Hs); [|lia|done].
  split; [|done]. eapply Forall_impl; [done|]. simpl. lia.
Qed.

Lemma records_ext w w' l : bytes_ok w -> records w = Some l -> kept w w' l -> records w' = Some l.
Proof.
  intros Hw Hr [Hl Hk]. destruct (records_inv _ _ Hw Hr) as [Hin _]. rewrite Forall_forall in Hin.
  unfold records in Hr |- *. apply bind_Some in Hr as (q & Hq & Hr). apply bind_Some in Hr as (c & Hc & Hr).
  apply bind_Some in Hr as (a & Ha & Hr). apply bind_Some in Hr as ([l' e] & Hf & Hr). case_match; simplify_eq.
  assert (12 <= a) by (eapply skip_questions_inv; [|done..]; lia).
  destruct (fixed_inv _ _ a _ _ ltac:(lia) Hw Hf) as (_ & Hall & _). rewrite Forall_forall in Hall.
  assert (Hhead : same w w' 0 a).
  { intros k Hk'. apply Hk; [lia|]. intros t Ht. specialize (Hall t Ht). lia. }
  rewrite <- (wire_u16_ext w w' 4), Hq; [|done|eapply same_sub; [done|lia|lia]]. simpl.
  rewrite (record_count_ext w w'), Hc; [|done|eapply same_sub; [done|lia|lia]]. simpl.
  rewrite (skip_questions_ext _ w w' 12 a); [|lia|done|done|done|eapply same_sub; [done|lia|lia]]. simpl.
  rewrite (fixed_ext _ w w' a l e); [|lia|done|done|done|]. { simpl. by rewrite <- Hl, (proj2 (Z.leb_le _ _)) by lia. }
  intros k Hk' Ht. apply Hk; [lia|done].
Qed.

(** Types are outside what [kept] allows to change. *)
Lemma types_kept w w' l : bytes_ok w -> records w = Some l -> kept w w' l ->
  forall t, t ∈ l -> wire_u16 w' t = wire_u16 w t.
Proof.
  intros Hw Hr [Hl Hk] t Ht. destruct (records_inv _ _ Hw Hr) as [Hin Hs]. rewrite Forall_forall in Hin.
  symmetry. apply wire_u16_ext; [done|]. intros k Hk'. apply Hk; [specialize (Hin t Ht); lia|].
  intros u Hu. apply list_elem_of_lookup in Ht as [i Hi], Hu as [j Hj].
  destruct (decide (i = j)) as [->|Hne]; [simplify_eq; lia|]. destruct (decide (i < j)%nat).
  - enough (t + 10 < u) by lia. eapply (sorted_lookup _ _ Hs i j); done || lia.
  - enough (u + 10 < t) by lia. eapply (sorted_lookup _ _ Hs j i); done || lia.
Qed.

Lemma ttl_fields_ext w w' l : bytes_ok w -> records w = Some l -> kept w w' l -> ttl_fields w' l = ttl_fields w l.
Proof.
  intros Hw Hr Hk. unfold ttl_fields. rewrite !flat_map_concat_map. f_equal. apply map_ext_in.
  intros t Ht%list_elem_of_In. by rewrite (types_kept w w' l).
Qed.

(** ** What the in-place rewriting of DNS messages promises
    [lower_ttls] and [cap_udp_size] of [crates/rurge-dns/src/message.rs]. *)

Lemma put_range_spec w a new : bytes_ok w -> bytes_ok new -> 0 <= a -> a + zlen new <= zlen w ->
  exists w', put_range w a new = Some w' /\ zlen w' = zlen w /\ bytes_ok w'
    /\ forall k, 0 <= k ->
       w' !! Z.to_nat k = if bool_decide (a <= k < a + zlen new) then new !! Z.to_nat (k - a) else w !! Z.to_nat k.
Proof.
  intros Hw Hn Ha Hl. unfold put_range. rewrite (proj2 (Z.leb_le 0 a)), (proj2 (Z.leb_le _ (zlen w))) by lia.
  eexists. split; [reflexivity|]. rewrite splice_zlen by lia. split; [done|]. split.
  - unfold splice. repeat apply Forall_app_2; [by apply Forall_take|done|by apply Forall_drop].
  - intros k Hk. by apply splice_lookup.
Qed.

(** The 32-bit number at [t]. *)
Definition u32_at (w : list Z) (t : Z) : option Z :=
  bytes ← get_range w t (t + 4);
  match bytes with [a; b; c; d] => Some (of_be32 a b c d) | _ => None end.

Lemma range4 w t : bytes_ok w -> 0 <= t -> t + 4 <= zlen w ->
  exists a b c d, get_range w t (t + 4) = Some [a; b; c; d] /\ is_byte a /\ is_byte b /\ is_byte c /\ is_byte d.
Proof.
  intros Hw Ht Hl. rewrite get_range_Some by lia.
  assert (Hb : bytes_ok (take (Z.to_nat (t + 4 - t)) (drop (Z.to_nat t) w))) by (by apply Forall_take, Forall_drop).
  assert (Hlen : length (take (Z.to_nat (t + 4 - t)) (drop (Z.to_nat t) w)) = 4%nat).
  { rewrite length_take, length_drop. unfold zlen in Hl. lia. }
  destruct (take _ _) as [|a [|b [|c [|d [|x l]]]]]; try discriminate Hlen.
  repeat (apply Forall_cons in Hb as [? Hb]). by exists a, b, c, d.
Qed.

Lemma range2 w t : bytes_ok w -> 0 <= t -> t + 2 <= zlen w ->
  exists a b, get_range w t (t + 2) = Some [a; b] /\ is_byte a /\ is_byte b.
Proof.
  intros Hw Ht Hl. rewrite get_range_Some by lia.
  assert (Hb : bytes_ok (take (Z.to_nat (t + 2 - t)) (drop (Z.to_nat t) w))) by (by apply Forall_take, Forall_drop).
  assert (Hlen : length (take (Z.to_nat (t + 2 - t)) (drop (Z.to_nat t) w)) = 2%nat).
  { rewrite length_take, length_drop. unfold zlen in Hl. lia. }
  destruct (take _ _) as [|a [|b [|x l]]]; try discriminate Hlen.
  repeat (apply Forall_cons in Hb as [? Hb]). by exists a, b.
Qed.

Lemma u32_at_range w t v : bytes_ok w -> u32_at w t = Some v -> 0 <= v <= u32_max.
Proof.
  intros Hw Hv. unfold u32_at in Hv. apply bind_Some in Hv as (r & Hr & Hv). apply get_range_bytes in Hr; [|done].
  repeat case_match; simplify_eq. repeat (apply Forall_cons in Hr as [? Hr]). by apply of_be32_range.
Qed.

Lemma u32_at_ext w w' t : zlen w = zlen w' -> same w w' t (t + 4) -> u32_at w t = u32_at w' t.
Proof. intros Hl Hs. unfold u32_at. by rewrite (get_range_ext w w' t (t + 4) Hl Hs). Qed.

(** A number fixes its four bytes. *)
Lemma u32_at_bytes w w' t : bytes_ok w -> bytes_ok w' -> zlen w = zlen w' -> 0 <= t -> t + 4 <= zlen w ->
  u32_at w t = u32_at w' t -> same w w' t (t + 4).
Proof.
  intros Hw Hw' Hl Ht Ht4 Heq k Hk. destruct (range4 w t) as (a & b & c & d & Hr & ?); [done..|].
  destruct (range4 w' t) as (a' & b' & c' & d' & Hr' & ?); [done|done|lia|].
  unfold u32_at in Heq. rewrite Hr, Hr' in Heq. simpl in Heq. injection Heq as Heq.
  assert ([a; b; c; d] = [a'; b'; c'; d']) as Hab.
  { rewrite <- (be32_of a b c d), <- (be32_of a' b' c' d') by naive_solver. by rewrite Heq. }
  rewrite <- Hab in Hr'. apply get_range_inv in Hr as (_ & _ & _ & Hr), Hr' as (_ & _ & _ & Hr').
  replace k with (t + (k - t)) by lia. by rewrite <- Hr, <- Hr' by lia.
Qed.

Lemma u32_at_new w t v : zlen w >= t + 4 -> 0 <= t -> 0 <= v <= u32_max ->
  (forall k, t <= k < t + 4 -> w !! Z.to_nat k = be32 v !! Z.to_nat (k - t)) -> u32_at w t = Some v.
Proof.
  intros Hl Ht Hv Hk. unfold u32_at. rewrite get_range_Some by lia. simpl.
  replace (take (Z.to_nat (t + 4 - t)) (drop (Z.to_nat t) w)) with (be32 v).
  - unfold be32. f_equal. by apply of_be32_be.
  - apply zlist_eq.
    + rewrite be32_len. unfold zlen in *. rewrite length_take, length_drop. lia.
    + intros k. rewrite be32_len. intros Hk'. rewrite lookup_take_lt by lia. rewrite lookup_drop.
      replace (Z.to_nat t + Z.to_nat k)%nat with (Z.to_nat (t + k)) by lia. rewrite Hk by lia. f_equal. lia.
Qed.

(** *** Lowering TTLs *)

(** What [lower_ttls] makes of the fields [ts]: each lowered, all else kept. *)
Definition lowered (ts : list Z) (s : Z) (w w' : list Z) : Prop :=
  zlen w' = zlen w /\ bytes_ok w'
  /\ (forall t, t ∈ ts -> u32_at w' t = (fun v => sat_sub v s) <$> u32_at w t)
  /\ (forall k, 0 <= k -> (forall t, t ∈ ts -> ~ (t <= k < t + 4)) -> w' !! Z.to_nat k = w !! Z.to_nat k).

Definition apart (ts : list Z) : Prop := StronglySorted (fun t u => t + 4 <= u) ts.

Lemma lower_each_spec ts s w : bytes_ok w -> 0 <= s ->
  Forall (fun t => 0 <= t /\ t + 4 <= zlen w) ts -> apart ts ->
  exists w', lower_each ts s w = Some w' /\ lowered ts s w w'.
Proof.
  intros Hw Hs Hin Hap. revert w Hw Hin. induction Hap as [|t ts Hap IH Hall]; intros w Hw Hin; simpl.
  { exists w. split; [done|]. split; [done|]. split; [done|]. split; [by intros ? ?%elem_of_nil|done]. }
  apply Forall_cons in Hin as [[Ht Ht4] Hin]. destruct (range4 w t) as (a & b & c & d & Hr & ? & ? & ? & ?); [done..|].
  rewrite Hr. simpl. pose proof (of_be32_range a b c d ltac:(done) ltac:(done) ltac:(done) ltac:(done)) as Hv.
  assert (Hu : u32_at w t = Some (of_be32 a b c d)) by (unfold u32_at; by rewrite Hr).
  set (v := sat_sub (of_be32 a b c d) s) in *.
  destruct (put_range_spec w t (be32 v) Hw (be32_bytes v)) as (w1 & -> & Hl1 & Hb1 & Hk1); [done|by rewrite be32_len|].
  rewrite be32_len in Hk1. simpl.
  destruct (IH w1 Hb1) as (w' & -> & Hl' & Hb' & Ht' & Hk'); [by rewrite Hl1|].
  exists w'. split; [done|]. split; [by rewrite Hl', Hl1|]. split; [done|]. rewrite Forall_forall in Hall. split.
  - intros u [->|Hu']%elem_of_cons.
    + rewrite Hu. simpl. apply u32_at_new; [lia|lia|unfold v, sat_sub; lia|].
      intros k Hk. rewrite Hk'; [|lia|]. { rewrite Hk1 by lia. by rewrite bool_decide_eq_true_2 by lia. }
      intros u Hu'. specialize (Hall u Hu'). lia.
    + rewrite Ht' by done. f_equal. symmetry. apply u32_at_ext; [done|]. intros k Hk. specialize (Hall u Hu').
      rewrite Hk1 by lia. by rewrite bool_decide_eq_false_2 by lia.
  - intros k Hk Hnot. rewrite Hk'; [|done|].
    + rewrite Hk1 by done. rewrite bool_decide_eq_false_2; [done|]. apply Hnot. left.
    + intros u Hu'. apply Hnot. by right.
Qed.

(** Two messages lowered alike are one. *)
Lemma lowered_unique ts s w w1 w2 : Forall (fun t => 0 <= t /\ t + 4 <= zlen w) ts ->
  lowered ts s w w1 -> lowered ts s w w2 -> w1 = w2.
Proof.
  intros Hin (Hl1 & Hb1 & Ht1 & Hk1) (Hl2 & Hb2 & Ht2 & Hk2). apply zlist_eq; [congruence|].
  intros k Hk. destruct (decide (Exists (fun t => t <= k < t + 4) ts)) as [Hex|Hno].
  - apply Exists_exists in Hex as (t & Ht & Hkt). rewrite Forall_forall in Hin. specialize (Hin t Ht).
    eapply (u32_at_bytes w1 w2 t); [done|done|congruence|lia|lia|by rewrite Ht1, Ht2|done].
  - rewrite <- Forall_Exists_neg, Forall_forall in Hno. by rewrite Hk1, Hk2 by (lia || done).
Qed.

Lemma ttl_fields_in w l t : t ∈ ttl_fields w l -> t - 4 ∈ l.
Proof.
  unfold ttl_fields. intros Ht%list_elem_of_In%in_flat_map. destruct Ht as (u & Hu & Ht).
  case_bool_decide; [done|]. destruct Ht as [<-|[]]. replace (u + 4 - 4) with u by lia. by apply list_elem_of_In.
Qed.

Lemma ttl_fields_apart w l : StronglySorted (fun t u => t + 10 < u) l -> apart (ttl_fields w l).
Proof.
  unfold apart. induction 1 as [|t l Hs IH Hall]; simpl; [constructor|]. case_bool_decide; [done|]. simpl.
  constructor; [done|]. rewrite Forall_forall in *. intros u Hu%ttl_fields_in. specialize (Hall _ Hu). simpl in *. lia.
Qed.

(** The TTL fields of a message: inside it, and apart. *)
Lemma ttl_offsets_ok w : bytes_ok w ->
  Forall (fun t => 0 <= t /\ t + 4 <= zlen w) (default [] (ttl_offsets w)) /\ apart (default [] (ttl_offsets w)).
Proof.
  intros Hw. rewrite ttl_offsets_records by done. destruct (records w) as [l|] eqn:Hr; simpl; [|split; constructor].
  apply records_inv in Hr as [Hin Hs]; [|done]. split; [|by apply ttl_fields_apart].
  apply Forall_forall. intros t Ht%ttl_fields_in. rewrite Forall_forall in Hin. specialize (Hin _ Ht). simpl in Hin. lia.
Qed.

Lemma lowered_kept w w' s l : records w = Some l -> bytes_ok w ->
  lowered (default [] (ttl_offsets w)) s w w' -> kept w w' l.
Proof.
  intros Hr Hw (Hl & _ & _ & Hk). split; [done|]. intros k Hk0 Hnot. symmetry. apply Hk; [done|].
  rewrite ttl_offsets_records, Hr by done. simpl. intros t Ht%ttl_fields_in. specialize (Hnot _ Ht). lia.
Qed.

Lemma lowered_offsets w w' s : bytes_ok w -> lowered (default [] (ttl_offsets w)) s w w' ->
  record_types w' = record_types w /\ ttl_offsets w' = ttl_offsets w.
Proof.
  intros Hw Hlow. rewrite !record_types_records. pose proof Hlow as (Hl & Hb & _ & Hk).
  destruct (records w) as [l|] eqn:Hr.
  - pose proof (lowered_kept _ _ _ _ Hr Hw Hlow) as Hkept.
    pose proof (records_ext _ _ _ Hw Hr Hkept) as Hr'. split; [done|].
    rewrite !ttl_offsets_records, Hr, Hr' by done. simpl. f_equal. by apply ttl_fields_ext.
  - replace w' with w; [done|]. apply zlist_eq; [done|]. intros k Hk0. symmetry. apply Hk; [lia|].
    rewrite ttl_offsets_records, Hr by done. by intros t ?%elem_of_nil.
Qed.

Lemma lower_ttls_lowered w s : bytes_ok w -> 0 <= s ->
  exists w', lower_ttls w s = Some w' /\ lowered (default [] (ttl_offsets w)) s w w'.
Proof.
  intros Hw Hs. destruct (ttl_offsets_ok w Hw) as [Hin Hap]. unfold lower_ttls.
  destruct (Z.eqb_spec s 0) as [->|Hne]; [|by apply lower_each_spec].
  exists w. split; [done|]. split; [done|]. split; [done|]. split; [|done].
  intros t _. destruct (u32_at w t) as [v|] eqn:Hv; [|done]. apply u32_at_range in Hv; [|done].
  simpl. f_equal. unfold sat_sub. lia.
Qed.

(** C7: [lower_ttls] on any message, of any bytes: it never panics, the
    message reads as before (the same records, the same TTL fields), every TTL
    is lowered by [s] seconds and no further than 0, every byte outside the
    TTL fields — the OPT record's among them — is kept, and lowering once more
    is lowering by the sum at once.  *)
Theorem lower_ttls_ages w s : bytes_ok w -> 0 <= s ->
  exists w', lower_ttls w s = Some w' /\ bytes_ok w'
    /\ record_types w' = record_types w /\ ttl_offsets w' = ttl_offsets w
    /\ (forall t, t ∈ default [] (ttl_offsets w) ->
          exists v, u32_at w t = Some v /\ u32_at w' t = Some (Z.max 0 (v - s)))
    /\ zlen w' = zlen w
    /\ (forall k, 0 <= k -> (forall t, t ∈ default [] (ttl_offsets w) -> ~ (t <= k < t + 4)) ->
          w' !! Z.to_nat k = w !! Z.to_nat k)
    /\ forall s', 0 <= s' -> lower_ttls w' s' = lower_ttls w (s + s').
Proof.
  intros Hw Hs. destruct (lower_ttls_lowered w s Hw Hs) as (w' & Hl & Hlow). exists w'.
  destruct (lowered_offsets _ _ _ Hw Hlow) as [Ht Ho]. destruct (ttl_offsets_ok w Hw) as [Hin _].
  pose proof Hlow as (Hz & Hb & Hv & Hk). repeat (split; [done|]). split; [|split; [done|split; [done|]]].
  - intros t Hti. rewrite Forall_forall in Hin. destruct (Hin t Hti) as [H0 H4].
    destruct (range4 w t) as (a & b & c & d & Hr & _); [done..|]. exists (of_be32 a b c d).
    specialize (Hv t Hti). unfold u32_at in Hv |- *. rewrite Hr in *. by split.
  - intros s' Hs'. destruct (lower_ttls_lowered w' s' Hb Hs') as (w2 & -> & (Hz2 & Hb2 & Hv2 & Hk2)).
    destruct (lower_ttls_lowered w (s + s') Hw) as (w3 & -> & Hlow3); [lia|]. f_equal.
    eapply (lowered_unique _ (s + s') w); [done| |done]. rewrite Ho in Hv2, Hk2.
    split; [by rewrite Hz2|]. split; [done|]. split.
    + intros t Hti. rewrite Hv2, Hv by done. rewrite <- option_fmap_compose. destruct (u32_at w t) as [v|] eqn:Hu; [|done].
      simpl. f_equal. unfold sat_sub. lia.
    + intros k Hk0 Hnot. rewrite Hk2, Hk by done. done.
Qed.

(** An answer of one question, an A record, an OPT record: the first one's TTL
    of 258 s falls, the OPT record's field stays. *)
Definition sample_answer : list Z :=
  [18; 52; 129; 128; 0; 1; 0; 1; 0; 0; 0; 1] ++ [1; 97; 0; 0; 1; 0; 1]
  ++ [192; 12; 0; 1; 0; 1; 0; 0; 1; 2; 0; 4; 10; 0; 0; 1]
  ++ [0; 0; 41; 4; 208; 0; 0; 128; 0; 0; 0].

Lemma lower_ttls_ages_witness :
  ttl_offsets sample_answer = Some [25] /\
  exists w', lower_ttls sample_answer 3 = Some w' /\ lower_ttls w' 4 = lower_ttls sample_answer 7
             /\ u32_at w' 25 = Some 255.
Proof.
  split; [vm_compute; reflexivity|].
  destruct (lower_ttls_ages sample_answer 3) as (w' & Hl & _ & _ & _ & Ht & _ & _ & Hs).
  - apply bytes_okb_spec. vm_compute. reflexivity.
  - lia.
  - exists w'. split; [done|]. split; [apply (Hs 4); lia|].
    destruct (Ht 25) as (v & Hv & ->).
    + apply list_elem_of_In. vm_compute. by left.
    + vm_compute in Hv. injection Hv as <-. reflexivity.
Defined.

(** *** Capping the announced size *)

Lemma opt_in_in w l t : opt_in w l = Some t -> t ∈ l /\ wire_u16 w t = Some OPT.
Proof.
  induction l as [|u l IH]; simpl; [done|]. case_bool_decide.
  - intros [= ->]. split; [left|done].
  - intros [? ?]%IH. split; [by right|done].
Qed.

Lemma opt_in_ext w w' l : (forall t, t ∈ l -> wire_u16 w' t = wire_u16 w t) -> opt_in w' l = opt_in w l.
Proof.
  induction l as [|u l IH]; intros Hl; simpl; [done|]. rewrite Hl by left. rewrite IH; [done|].
  intros t Ht. apply Hl. by right.
Qed.

(** [cap_udp_size] on any message: it never panics, the message reads as
    before, the size its OPT record announces is the smaller of what it was and
    [max], a message without one is kept, and so is every byte but the two of
    that size. *)
Theorem cap_udp_size_caps w max : bytes_ok w -> 0 <= max <= u16_max ->
  exists w', cap_udp_size w max = Some w' /\ bytes_ok w' /\ zlen w' = zlen w
    /\ record_types w' = record_types w
    /\ opt_size w' = Z.min max <$> opt_size w
    /\ (opt_size w = None -> w' = w)
    /\ (forall types at_, record_types w = Some types -> opt_in w types = Some at_ ->
          forall k, 0 <= k -> ~ (at_ + 2 <= k < at_ + 4) -> w' !! Z.to_nat k = w !! Z.to_nat k).
Proof.
  intros Hw Hm. unfold cap_udp_size, opt_size. rewrite record_types_records.
  destruct (records w) as [l|] eqn:Hr; simpl; [|by exists w; rewrite record_types_records, Hr].
  destruct (opt_in w l) as [t|] eqn:Ho; simpl.
  2:{ exists w. rewrite record_types_records, Hr. simpl. rewrite Ho. simpl. by repeat split. }
  destruct (opt_in_in _ _ _ Ho) as [Htl Hty]. destruct (records_inv _ _ Hw Hr) as [Hin Hs].
  rewrite Forall_forall in Hin. destruct (Hin t Htl) as [Ht12 Ht10].
  destruct (range2 w (t + 2)) as (a & b & Hg & Ha & Hb); [done|lia|lia|].
  assert (Hsz : wire_u16 w (t + 2) = Some (of_be16 a b)) by (unfold wire_u16; by rewrite Hg).
  rewrite Hsz. destruct (Z.ltb_spec max (of_be16 a b)) as [Hlt|Hge].
  2:{ exists w. rewrite record_types_records, Hr. simpl. rewrite Ho. simpl. rewrite Hsz. simpl.
      rewrite Z.min_r by lia. repeat split; done. }
  destruct (put_range_spec w (t + 2) (be16 max) Hw (be16_bytes max)) as (w' & -> & Hl & Hb' & Hk);
    [lia|rewrite be16_len; lia|]. rewrite be16_len in Hk.
  assert (Hkept : kept w w' l).
  { split; [done|]. intros k Hk0 Hnot. rewrite Hk by done. rewrite bool_decide_eq_false_2; [done|].
    specialize (Hnot t Htl). lia. }
  pose proof (records_ext _ _ _ Hw Hr Hkept) as Hr'.
  exists w'. rewrite record_types_records, Hr'. simpl.
  rewrite (opt_in_ext w w' l) by (by apply types_kept). rewrite Ho. simpl.
  repeat (split; [done|]). split; [|split; [done|]].
  - rewrite Z.min_l by lia. unfold wire_u16. rewrite get_range_Some by lia. simpl.
    replace (take _ _) with (be16 max); [unfold be16; f_equal; by apply of_be16_be|].
    apply zlist_eq.
    + rewrite be16_len. unfold zlen in *. rewrite length_take, length_drop. lia.
    + intros k. rewrite be16_len. intros Hk'. rewrite lookup_take_lt by lia. rewrite lookup_drop.
      replace (Z.to_nat (t + 2) + Z.to_nat k)%nat with (Z.to_nat (t + 2 + k)) by lia.
      rewrite Hk by lia. rewrite bool_decide_eq_true_2 by lia. f_equal. lia.
  - intros types at_ [= <-] Hat k Hk0 Hnot. rewrite Hat in Ho. injection Ho as ->.
    rewrite Hk by done. by rewrite bool_decide_eq_false_2 by lia.
Qed.

Lemma cap_udp_size_caps_witness :
  opt_size sample_answer = Some 1232 /\
  exists w', cap_udp_size sample_answer 512 = Some w' /\ opt_size w' = Some 512.
Proof.
  split; [vm_compute; reflexivity|].
  destruct (cap_udp_size_caps sample_answer 512) as (w' & Hc & _ & _ & _ & Hs & _).
  - apply bytes_okb_spec. vm_compute. reflexivity.
  - vm_compute. split; discriminate.
  - exists w'. split; [done|]. rewrite Hs. vm_compute. reflexivity.
Defined.
