(* ===== verification/DnsAnswer.v ===== *)
(** * Answers made from a request

    [read_request] and [answer] of [crates/rurge-dns/src/message.rs]: what is
    written is read back by the same code. *)

From S2P Require Import Prelude Bytes DnsWire DnsWireProps.

(** ** The first question *)

Lemma first_name_inv n w a nm r e : 0 <= a -> bytes_ok w -> first_name n w a nm = Some (r, e) ->
  a < e /\ e <= zlen w.
Proof.
  intros Ha Hw. revert a nm Ha. induction n as [|n IH]; intros a nm Ha He; [done|]. simpl in He.
  apply bind_Some in He as (b & Hb & He). apply get_byte in Hb as [Hin Hb]; [|done]. unfold is_byte in Hb.
  case_match; simplify_eq; [lia|]. case_match; [|done]. apply bind_Some in He as (l & _ & He).
  case_match; [done|]. apply IH in He; lia.
Qed.

(** A name reads the same wherever its bytes are, with enough steps. *)
Lemma first_name_moves n m w w' a nm r e : 0 <= a -> bytes_ok w -> first_name n w a nm = Some (r, e) ->
  e - a <= Z.of_nat m -> e <= zlen w' -> same w w' a e ->
  first_name m w' a nm = Some (r, e) /\ name_end_from m w' a = Some e.
Proof.
  intros Ha Hw. revert m a nm Ha. induction n as [|n IH]; intros m a nm Ha He Hm Hl Hs; [done|].
  destruct (first_name_inv _ _ _ _ _ _ Ha Hw He) as [Hae Hel]. destruct m as [|m]; [lia|]. simpl in He |- *.
  rewrite (get_lookup w' a), <- (Hs a), <- get_lookup by lia.
  destruct (get w a) as [b|] eqn:Hb; [|done]. simpl in *. apply get_byte in Hb as [Hin Hb]; [|done]. unfold is_byte in Hb.
  destruct (Z.eqb_spec b 0); [by simplify_eq|]. destruct (Z.leb_spec b 63); [|done].
  destruct (get_range w (a + 1) (a + 1 + b)) as [l|] eqn:Hg; [|done]. simpl in *.
  destruct (Z.leb_spec MAX_NAME (a + 1 + b - 12)); [done|].
  destruct (first_name_inv _ _ (a + 1 + b) _ _ _ ltac:(lia) Hw He) as [Hae' Hel'].
  rewrite (get_range_moves _ w' _ _ _ Hg); [|lia|intros k Hk; apply Hs; lia]. simpl.
  replace (a + (1 + b)) with (a + 1 + b) by lia. apply IH; [lia|done|lia|lia|].
  eapply same_sub; [done|lia|lia].
Qed.

Lemma first_question_inv w q : bytes_ok w -> first_question w = Some q ->
  exists e, first_name (S (length w)) w 12 [] = Some (fq_name q, e) /\ fq_end q = e + 4
    /\ wire_u16 w e = Some (fq_type q) /\ wire_u16 w (e + 2) = Some (fq_class q) /\ e + 4 <= zlen w /\ 12 < e.
Proof.
  intros Hw. unfold first_question. intros Hq. apply bind_Some in Hq as (n & Hn & Hq). case_match; [done|].
  apply bind_Some in Hq as ([nm e] & Hf & Hq). apply bind_Some in Hq as (t & Ht & Hq).
  apply bind_Some in Hq as (c & Hc & Hq). simplify_eq. exists e. simpl.
  apply first_name_inv in Hf as Hi; [|lia|done]. apply wire_u16_Some in Hc as Hc'. repeat (split; [done|]). lia.
Qed.

(** A question copied behind another header. *)
Lemma question_moves w w' q : bytes_ok w -> first_question w = Some q -> wire_u16 w' 4 = Some 1 ->
  fq_end q <= zlen w' -> same w w' 12 (fq_end q) ->
  first_question w' = Some q /\ skip_questions 1 w' 12 = Some (fq_end q).
Proof.
  intros Hw Hq H1 Hl Hs. destruct (first_question_inv _ _ Hw Hq) as (e & Hf & He & Ht & Hc & Hz & H12).
  destruct (first_name_moves _ (S (length w')) w w' 12 [] _ _ ltac:(lia) Hw Hf) as [Hf' Hn].
  { unfold zlen in Hl. lia. } { lia. } { eapply same_sub; [done|lia|lia]. }
  assert (Hmove : forall p v, 12 <= p -> p + 2 <= fq_end q -> wire_u16 w p = Some v -> wire_u16 w' p = Some v).
  { intros p v Hp Hp2 Hv. unfold wire_u16 in *. apply bind_Some in Hv as (r & Hr & Hv).
    rewrite (get_range_moves _ w' _ _ _ Hr); [done|lia|]. intros k Hk. apply Hs. lia. }
  split.
  - unfold first_question. rewrite H1. cbn -[first_name wire_u16 Z.add]. rewrite Hf'. cbn -[wire_u16 Z.add].
    rewrite (Hmove e (fq_type q)), (Hmove (e + 2) (fq_class q)) by (done || lia). simpl. rewrite <- He. by destruct q.
  - cbn [skip_questions]. unfold name_end. rewrite Hn. simpl. by rewrite He.
Qed.

(** The question that [read_request] copies is there. *)
Lemma read_request_total w : bytes_ok w -> is_Some (read_request w).
Proof.
  intros Hw. unfold read_request. repeat case_match; try done.
  destruct (first_question_inv w f Hw ltac:(done)) as (e & _ & He & _ & _ & Hl & H12).
  rewrite get_range_Some by lia. done.
Qed.

(** ** Records *)

(** A record as it stands in a message. *)
Record Rec := mkRec { rec_name : list Z; rec_type : Z; rec_class : Z; rec_ttl : Z; rec_data : list Z }.

Definition rec_bytes (r : Rec) : list Z :=
  rec_name r ++ be16 (rec_type r) ++ be16 (rec_class r) ++ be32 (rec_ttl r) ++ be16 (zlen (rec_data r)) ++ rec_data r.

(** The names written here: a pointer to the question's, and the root. *)
Definition rec_ok (r : Rec) : Prop :=
  (rec_name r = [192; 12] \/ rec_name r = [0]) /\ 0 <= rec_type r <= u16_max /\ 0 <= rec_class r <= u16_max
  /\ 0 <= rec_ttl r <= u32_max /\ zlen (rec_data r) <= u16_max.

(** The record of [w] whose TYPE stands at [t] is [r]. *)
Definition record_at (w : list Z) (t : Z) (r : Rec) : Prop :=
  get_range w (t - zlen (rec_name r)) t = Some (rec_name r)
  /\ wire_u16 w t = Some (rec_type r) /\ wire_u16 w (t + 2) = Some (rec_class r)
  /\ u32_at w (t + 4) = Some (rec_ttl r) /\ wire_u16 w (t + 8) = Some (zlen (rec_data r))
  /\ get_range w (t + 10) (t + 10 + zlen (rec_data r)) = Some (rec_data r).

Lemma wire_u16_mid l v r : 0 <= v <= u16_max -> wire_u16 (l ++ be16 v ++ r) (zlen l) = Some v.
Proof.
  intros Hv. unfold wire_u16. change 2 with (zlen (be16 v)) at 1. rewrite get_range_mid. unfold be16. simpl.
  f_equal. by apply of_be16_be.
Qed.

Lemma u32_at_mid l v r : 0 <= v <= u32_max -> u32_at (l ++ be32 v ++ r) (zlen l) = Some v.
Proof.
  intros Hv. unfold u32_at. change 4 with (zlen (be32 v)) at 1. rewrite get_range_mid. unfold be32. simpl.
  f_equal. by apply of_be32_be.
Qed.

Lemma name_end_mid l r x : rec_ok r -> name_end (l ++ rec_bytes r ++ x) (zlen l) = Some (zlen l + zlen (rec_name r)).
Proof.
  intros ([Hn|Hn] & _). all: unfold name_end; cbn [name_end_from]; unfold rec_bytes; rewrite Hn;
    replace (zlen l) with (zlen l + 0) at 1 by lia; rewrite get_app_r by lia; reflexivity.
Qed.

Lemma record_at_mid l r x : rec_ok r -> record_at (l ++ rec_bytes r ++ x) (zlen l + zlen (rec_name r)) r.
Proof.
  intros (_ & Ht & Hc & Htt & Hd). unfold record_at. pose proof (zlen_nonneg (rec_data r)).
  assert (Hs : l ++ rec_bytes r ++ x
    = l ++ rec_name r ++ be16 (rec_type r) ++ be16 (rec_class r) ++ be32 (rec_ttl r)
      ++ be16 (zlen (rec_data r)) ++ rec_data r ++ x).
  { unfold rec_bytes. by rewrite <- !app_assoc. }
  rewrite Hs. clear Hs.
  assert (Hz : forall (u v : list Z), zlen u + zlen v = zlen (u ++ v)) by (intros; by rewrite zlen_app).
  split; [|split; [|split; [|split; [|split]]]].
  - replace (zlen l + zlen (rec_name r) - zlen (rec_name r)) with (zlen l) by lia. apply get_range_mid.
  - rewrite Hz, app_assoc. by apply wire_u16_mid.
  - change 2 with (zlen (be16 (rec_type r))). rewrite !Hz.
    rewrite 2!app_assoc. by apply wire_u16_mid.
  - change 4 with (zlen (be16 (rec_type r) ++ be16 (rec_class r))). rewrite !Hz.
    rewrite (app_assoc (be16 (rec_type r))), 2!app_assoc. by apply u32_at_mid.
  - change 8 with (zlen (be16 (rec_type r) ++ be16 (rec_class r) ++ be32 (rec_ttl r))). rewrite !Hz.
    rewrite (app_assoc (be16 (rec_class r))), (app_assoc (be16 (rec_type r))), 2!app_assoc. apply wire_u16_mid. lia.
  - rewrite (app_assoc (be32 (rec_ttl r))), (app_assoc (be16 (rec_class r))), (app_assoc (be16 (rec_type r))), 2!app_assoc.
    replace (zlen l + zlen (rec_name r) + 10) with
      (zlen ((l ++ rec_name r) ++ be16 (rec_type r) ++ be16 (rec_class r) ++ be32 (rec_ttl r) ++ be16 (zlen (rec_data r))))
      by (rewrite !zlen_app, !be16_len, be32_len; lia).
    apply get_range_mid.
Qed.

Lemma fixed_recs recs l x : Forall rec_ok recs ->
  exists ts, fixed (length recs) (l ++ flat_map rec_bytes recs ++ x) (zlen l)
               = Some (ts, zlen (l ++ flat_map rec_bytes recs))
    /\ Forall2 (record_at (l ++ flat_map rec_bytes recs ++ x)) ts recs.
Proof.
  intros Hok. revert l. induction Hok as [|r recs Hr Hrs IH]; intros l; simpl.
  { exists []. rewrite app_nil_r. split; [done|constructor]. }
  rewrite <- (app_assoc (rec_bytes r)), name_end_mid by done. simpl.
  pose proof (record_at_mid l r (flat_map rec_bytes recs ++ x) Hr) as Hat.
  pose proof Hat as (_ & _ & _ & _ & Hlen & _). rewrite Hlen. simpl.
  replace (zlen l + zlen (rec_name r) + (10 + zlen (rec_data r))) with (zlen (l ++ rec_bytes r)).
  2:{ unfold rec_bytes. rewrite !zlen_app, !be16_len, be32_len. lia. }
  destruct (IH (l ++ rec_bytes r)) as (ts & Hf & Hall). rewrite <- !app_assoc in Hf, Hall. rewrite Hf. simpl.
  exists (zlen l + zlen (rec_name r) :: ts). rewrite <- app_assoc. split; [done|]. by constructor.
Qed.

(** ** What [answer] writes *)

(** An [IpAddr]'s octets. *)
Definition addr_ok (a : Addr) : Prop :=
  match a with
  | AddrV4 o => length o = 4%nat /\ bytes_ok o
  | AddrV6 o => length o = 16%nat /\ bytes_ok o
  end.

(** The record of an address, when it is of the family asked for. *)
Definition addr_record (qtype ttl : Z) (a : Addr) : option Rec :=
  match a with
  | AddrV4 o => if qtype =? TYPE_A then Some (mkRec [192; 12] TYPE_A CLASS_IN ttl o) else None
  | AddrV6 o => if qtype =? TYPE_AAAA then Some (mkRec [192; 12] TYPE_AAAA CLASS_IN ttl o) else None
  end.

(** The answer section: as many as its 16-bit count holds. *)
Definition answer_recs (qtype ttl : Z) (addrs : list Addr) : list Rec :=
  take (Z.to_nat u16_max) (omap (addr_record qtype ttl) addrs).

Definition opt_rec : Rec := mkRec [0] OPT ANSWER_UDP_SIZE 0 [].

(** The additional section. *)
Definition opt_recs (req : Request) : list Rec :=
  match r_udp_size req with Some _ => [opt_rec] | None => [] end.

Lemma addr_record_ok qtype ttl a r : addr_ok a -> 0 <= ttl <= u32_max -> addr_record qtype ttl a = Some r -> rec_ok r.
Proof.
  intros Ha Ht Hr. destruct a as [o|o]; simpl in *; destruct Ha as [Hl _]; (case_match; [|done]); simplify_eq;
    (split; [by left|]); unfold zlen; simpl; rewrite Hl; unfold u16_max, TYPE_A, TYPE_AAAA, CLASS_IN; lia.
Qed.

Lemma push_record_rec out r : rec_name r = [192; 12] -> rec_class r = CLASS_IN -> zlen (rec_data r) <= u16_max ->
  push_record out (rec_type r) (rec_ttl r) (rec_data r) = out ++ rec_bytes r.
Proof.
  intros Hn Hc Hd. unfold push_record, rec_bytes. rewrite Hn, Hc.
  pose proof (zlen_nonneg (rec_data r)). unfold u16_max in Hd. by rewrite Z.mod_small by lia.
Qed.

Lemma answer_records_spec qtype ttl addrs out count : Forall addr_ok addrs -> 0 <= ttl <= u32_max ->
  0 <= count < u16_max ->
  answer_records qtype ttl addrs out count
  = (let rs := take (Z.to_nat (u16_max - count)) (omap (addr_record qtype ttl) addrs) in
     (out ++ flat_map rec_bytes rs, count + Z.of_nat (length rs))).
Proof.
  intros Hok Ht. revert out count. induction Hok as [|a addrs Ha Hok IH]; intros out count Hc.
  { simpl. rewrite take_nil. simpl. by rewrite app_nil_r, Z.add_0_r. }
  cbn [answer_records omap list_omap].
  assert (Hpush : (match a with
     | AddrV4 o => if qtype =? TYPE_A then Some (push_record out TYPE_A ttl o) else None
     | AddrV6 o => if qtype =? TYPE_AAAA then Some (push_record out TYPE_AAAA ttl o) else None
     end) = (fun r => out ++ rec_bytes r) <$> addr_record qtype ttl a).
  { destruct a as [o|o]; simpl; (case_match; [|done]); simpl; f_equal.
    - apply (push_record_rec out (mkRec [192; 12] TYPE_A CLASS_IN ttl o)); try done. simpl. unfold zlen. destruct Ha as [-> _]. done.
    - apply (push_record_rec out (mkRec [192; 12] TYPE_AAAA CLASS_IN ttl o)); try done. simpl. unfold zlen. destruct Ha as [-> _]. done. }
  rewrite Hpush. destruct (addr_record qtype ttl a) as [r|] eqn:Hr; simpl; [|by apply IH].
  destruct (Z.eqb_spec (count + 1) u16_max) as [Heq|Hne].
  - replace (Z.to_nat (u16_max - count)) with 1%nat by lia. simpl. by rewrite app_nil_r.
  - rewrite IH by lia. replace (Z.to_nat (u16_max - count)) with (S (Z.to_nat (u16_max - (count + 1)))) by lia.
    cbn [take flat_map length]. rewrite <- app_assoc. f_equal. lia.
Qed.

Lemma answer_recs_ok qtype ttl addrs : Forall addr_ok addrs -> 0 <= ttl <= u32_max ->
  Forall rec_ok (answer_recs qtype ttl addrs).
Proof.
  intros Hok Ht. unfold answer_recs. apply Forall_take, Forall_forall. intros r (a & Ha & Hr)%list_elem_of_omap.
  rewrite Forall_forall in Hok. by apply (addr_record_ok qtype ttl a); [apply Hok| |].
Qed.

Lemma opt_rec_ok : rec_ok opt_rec.
Proof. split; [by right|]. vm_compute. repeat split; discriminate. Qed.

Section reply.
Context (code : Rcode -> Z) (Hcode : forall r, 0 <= code r < 16).

(** The twelve bytes of a reply's header. *)
Definition reply_header (req : Request) (flags : Z) (rcode : Rcode) (count : Z) : list Z :=
  be16 (r_id req)
  ++ [Z.lor (Z.lor QR flags) (flag (r_recursion_desired req) RD); Z.lor RA (code rcode)]
  ++ be16 1 ++ be16 count ++ be16 0 ++ be16 (Z.of_nat (length (opt_recs req))).

Lemma write_reply_recs req flags rcode recs :
  write_reply code req flags rcode (Z.of_nat (length recs)) (flat_map rec_bytes recs)
  = (reply_header req flags rcode (Z.of_nat (length recs)) ++ r_question req) ++ flat_map rec_bytes (recs ++ opt_recs req) ++ [].
Proof.
  unfold write_reply, reply_header, opt_recs. rewrite flat_map_app, app_nil_r, <- !app_assoc.
  destruct (r_udp_size req); reflexivity.
Qed.

Lemma answer_recs_reply req rcode addrs ttl : Forall addr_ok addrs -> 0 <= ttl <= u32_max ->
  let recs := answer_recs (r_qtype req) ttl addrs in
  answer code req rcode addrs ttl
  = (reply_header req AA rcode (Z.of_nat (length recs)) ++ r_question req) ++ flat_map rec_bytes (recs ++ opt_recs req) ++ [].
Proof.
  intros Hok Ht. unfold answer. rewrite answer_records_spec by done. cbv zeta. rewrite <- write_reply_recs.
  rewrite Z.sub_0_r. reflexivity.
Qed.

(** A message that is the header, the question and the records reads so. *)
Lemma reply_reads req q w flags rcode recs : bytes_ok w -> first_question w = Some q ->
  get_range w 12 (fq_end q) = Some (r_question req) -> Forall rec_ok recs -> (length recs <= Z.to_nat u16_max)%nat ->
  let out := (reply_header req flags rcode (Z.of_nat (length recs)) ++ r_question req)
             ++ flat_map rec_bytes (recs ++ opt_recs req) ++ [] in
  first_question out = Some q
  /\ exists types, record_types out = Some types /\ Forall2 (record_at out) types (recs ++ opt_recs req).
Proof.
  intros Hw Hq Hrange Hrecs Hlen out.
  pose proof (first_question_inv _ _ Hw Hq) as (e & _ & He & _ & _ & Hz & H12).
  assert (Hall : Forall rec_ok (recs ++ opt_recs req)).
  { apply Forall_app_2; [done|]. unfold opt_recs. case_match; repeat constructor; apply opt_rec_ok. }
  set (h := reply_header req flags rcode (Z.of_nat (length recs))) in *.
  assert (Hh : zlen h = 12) by done.
  destruct (get_range_inv _ _ _ _ Hrange) as (_ & _ & Hql & Hqk).
  assert (Hu : forall p v, 0 <= p -> p + 2 <= 12 -> wire_u16 h p = Some v -> wire_u16 out p = Some v).
  { intros p v Hp Hp2. unfold wire_u16, out. rewrite !get_range_app_l by (rewrite ?zlen_app; lia). done. }
  assert (H4 : wire_u16 out 4 = Some 1) by (by apply Hu).
  assert (H6 : wire_u16 out 6 = Some (Z.of_nat (length recs))).
  { apply Hu; [done|done|]. transitivity (Some (of_be16 (Z.shiftr (Z.of_nat (length recs)) 8 mod 256) (Z.of_nat (length recs) mod 256))); [done|].
    f_equal. apply of_be16_be. assert (0 <= u16_max) by done. lia. }
  assert (H8 : wire_u16 out 8 = Some 0) by (by apply Hu).
  assert (H10 : wire_u16 out 10 = Some (Z.of_nat (length (opt_recs req)))).
  { apply Hu; [done|done|]. subst h. unfold reply_header, opt_recs. destruct (r_udp_size req); reflexivity. }
  destruct (question_moves w out q Hw Hq H4) as [Hq' Hskip].
  { unfold out. rewrite !zlen_app, Hh. pose proof (zlen_nonneg (flat_map rec_bytes (recs ++ opt_recs req))). change (zlen (@nil Z)) with 0. lia. }
  { intros k Hk. replace k with (12 + (k - 12)) at 1 by lia. rewrite <- Hqk by lia. unfold out.
    rewrite lookup_app_l by (rewrite length_app; unfold zlen in *; lia).
    rewrite lookup_app_r by (unfold zlen in *; lia). f_equal. unfold zlen in *. lia. }
  split; [done|].
  destruct (fixed_recs (recs ++ opt_recs req) (h ++ r_question req) [] Hall) as (ts & Hf & Hts).
  exists ts. split; [|done]. rewrite record_types_records. unfold records. rewrite H4.
  unfold record_count. rewrite H6, H8, H10. cbn [mbind option_bind]. change (Z.to_nat 1) with 1%nat. rewrite Hskip.
  cbn [mbind option_bind].
  replace (fq_end q) with (zlen (h ++ r_question req)) by (rewrite zlen_app; lia).
  replace (Z.to_nat (Z.of_nat (length recs) + 0 + Z.of_nat (length (opt_recs req)))) with (length (recs ++ opt_recs req))
    by (rewrite length_app; lia).
  fold out in Hf. rewrite Hf. cbn [mbind option_bind].
  rewrite (proj2 (Z.leb_le _ _)); [done|]. unfold out. rewrite !zlen_app. change (zlen (@nil Z)) with 0. lia.
Qed.

(** The header of a reply, read. *)
Lemma reply_head req flags rcode count rest (out := reply_header req flags rcode count ++ rest) :
  get out 2 = Some (Z.lor (Z.lor QR flags) (flag (r_recursion_desired req) RD))
  /\ get out 3 = Some (Z.lor RA (code rcode))
  /\ wire_header out = Some (mkHeader (of_be16 (Z.shiftr (r_id req) 8 mod 256) (r_id req mod 256))
       (Z.land (Z.shiftr (Z.lor (Z.lor QR flags) (flag (r_recursion_desired req) RD)) 3) 15)
       (negb (Z.land (Z.lor (Z.lor QR flags) (flag (r_recursion_desired req) RD)) RD =? 0)))
  /\ (12 <=? zlen out) = true.
Proof.
  assert (Hl : (12 <=? zlen out) = true).
  { subst out. rewrite zlen_app. change (zlen (reply_header req flags rcode count)) with 12. pose proof (zlen_nonneg rest). lia. }
  split; [|split; [|split; [|done]]].
  1, 2: rewrite get_lookup by lia; done.
  unfold wire_header. by rewrite Hl.
Qed.

Lemma answer_recs_no_opt qtype ttl addrs : Forall (fun r => rec_type r <> OPT) (answer_recs qtype ttl addrs).
Proof.
  unfold answer_recs. apply Forall_take, Forall_forall. intros r (a & _ & Hr)%list_elem_of_omap.
  unfold addr_record in Hr. repeat case_match; by simplify_eq.
Qed.

(** The size that the OPT record of a reply says. *)
Lemma opt_size_recs out types recs req : record_types out = Some types ->
  Forall2 (record_at out) types (recs ++ opt_recs req) -> Forall (fun r => rec_type r <> OPT) recs ->
  opt_size out = (fun _ => ANSWER_UDP_SIZE) <$> r_udp_size req.
Proof.
  intros Hts Hall Hno. unfold opt_size. rewrite Hts. cbn [mbind option_bind]. clear Hts. revert types Hall.
  induction Hno as [|r recs Hr _ IH]; intros ts Hall; simpl in Hall.
  - unfold opt_recs in Hall. destruct (r_udp_size req).
    + apply Forall2_cons_inv_r in Hall as (t & ts' & (_ & Hty & Hcl & _) & Hall & ->). simpl.
      rewrite bool_decide_eq_true_2 by done. simpl. by rewrite Hcl.
    + by apply Forall2_nil_inv_r in Hall as ->.
  - apply Forall2_cons_inv_r in Hall as (t & ts' & (_ & Hty & _) & Hall & ->). simpl.
    rewrite bool_decide_eq_false_2 by congruence. by apply IH.
Qed.

(** What a request that was read says of the message it came in. *)
Lemma read_request_inv bytes req : bytes_ok bytes -> read_request bytes = Some (Ok req) ->
  exists q, first_question bytes = Some q /\ get_range bytes 12 (fq_end q) = Some (r_question req)
    /\ r_udp_size req = opt_size bytes /\ 0 <= r_id req <= u16_max
    /\ wire_header bytes = Some (mkHeader (r_id req) 0 (r_recursion_desired req)).
Proof.
  intros Hb Hreq. unfold read_request in Hreq. destruct (wire_header bytes) as [h|] eqn:Hh; [|done].
  destruct (wire_is_response bytes); [done|]. destruct (Z.eqb_spec (opcode h) 0) as [Hop|]; [|done]. cbn [negb] in Hreq.
  case_bool_decide as H1; [|done]. cbn [negb] in Hreq.
  destruct (first_question bytes) as [q|] eqn:Hq; [|done]. destruct (record_types bytes) as [types|] eqn:Htypes; [|done].
  destruct (get_range bytes 12 (fq_end q)) as [echoed|] eqn:He; [|done]. cbn [mbind option_bind] in Hreq.
  injection Hreq as <-. exists q. split; [done|]. split; [done|]. split; [unfold opt_size; by rewrite Htypes|].
  cbn [r_id r_recursion_desired]. split; [|by rewrite <- Hop; destruct h]. unfold wire_header in Hh.
  destruct (12 <=? zlen bytes); [|done]. destruct bytes as [|b0 [|b1 [|b2 bs]]]; try done. injection Hh as <-.
  apply Forall_cons in Hb as [Hb0 [Hb1 _]%Forall_cons]. by apply of_be16_range.
Qed.

End reply.

(** The answer made from a request that was read: it is a response with
    the id, the opcode and the RD bit of the request, not truncated, with the
    code given; its question is the request's; its records, in order, are one
    for each address of the family asked for (as many as the count of the
    header holds) with the TTL and the octets given, then an OPT record when
    the request had one — and the message reads to its last record.  *)
Theorem answer_reads_back bytes req code rcode addrs ttl : bytes_ok bytes ->
  read_request bytes = Some (Ok req) -> (forall r, 0 <= code r < 16) -> 0 <= ttl <= u32_max -> Forall addr_ok addrs ->
  let out := answer code req rcode addrs ttl in
  wire_header out = wire_header bytes /\ wire_is_response out = true /\ wire_truncated out = false
  /\ get out 3 = Some (Z.lor RA (code rcode))
  /\ first_question out = first_question bytes
  /\ (exists types, record_types out = Some types
        /\ Forall2 (record_at out) types (answer_recs (r_qtype req) ttl addrs ++ opt_recs req))
  /\ opt_size out = (fun _ => ANSWER_UDP_SIZE) <$> opt_size bytes.
Proof.
  intros Hb Hreq Hcode Ht Haddrs. cbv zeta. rewrite answer_recs_reply by done. cbv zeta.
  set (recs := answer_recs (r_qtype req) ttl addrs).
  destruct (read_request_inv bytes req Hb Hreq) as (q & Hq & He & Hsize & Hid & Hh).
  assert (Hlen : (length recs <= Z.to_nat u16_max)%nat) by (subst recs; unfold answer_recs; rewrite length_take; lia).
  assert (Hrecs : Forall rec_ok recs) by (by apply answer_recs_ok).
  destruct (reply_reads code req q bytes AA rcode recs Hb Hq He Hrecs Hlen) as [Hfq (ts & Hts & Hall)].
  rewrite <- !app_assoc in *.
  destruct (reply_head code req AA rcode (Z.of_nat (length recs)) (r_question req ++ flat_map rec_bytes (recs ++ opt_recs req) ++ []))
    as (H2 & H3 & Hw & H12).
  set (out := reply_header code req AA rcode (Z.of_nat (length recs)) ++ _) in *.
  split; [|split; [|split; [|split; [done|split; [by rewrite Hfq|split; [by exists ts|]]]]]].
  - rewrite Hw, Hh, of_be16_be by done. by destruct (r_recursion_desired req).
  - unfold wire_is_response. rewrite H12, H2. by destruct (r_recursion_desired req).
  - unfold wire_truncated. rewrite H12, H2. by destruct (r_recursion_desired req).
  - rewrite <- Hsize. eapply opt_size_recs; [done..|]. apply answer_recs_no_opt.
Qed.

(** A query for the A records of [a] with an OPT record, and its answer. *)
Definition sample_query : list Z :=
  [18; 52; 1; 0; 0; 1; 0; 0; 0; 0; 0; 1] ++ [1; 65; 0; 0; 1; 0; 1] ++ [0; 0; 41; 16; 0; 0; 0; 0; 0; 0; 0].

Definition code_of (r : Rcode) : Z :=
  match r with
  | NoError => 0 | FormErr => 1 | ServFail => 2 | NxDomain => 3 | NotImp => 4 | Refused => 5 | Other n => n mod 16
  end.

Lemma answer_reads_back_witness :
  exists req, read_request sample_query = Some (Ok req) /\
    let out := answer code_of req NoError [AddrV4 [10; 0; 0; 1]; AddrV6 (replicate 16 0)] 60 in
    first_question out = Some (mkFirstQuestion [97] 1 1 19) /\ opt_size out = Some 1232.
Proof.
  eexists. split; [vm_compute; reflexivity|].
  destruct (answer_reads_back sample_query (mkRequest 4660 true [97] 1 1 (Some 4096) [1; 65; 0; 0; 1; 0; 1])
    code_of NoError [AddrV4 [10; 0; 0; 1]; AddrV6 (replicate 16 0)] 60) as (_ & _ & _ & _ & Hq & _ & Ho).
  - apply bytes_okb_spec. vm_compute. reflexivity.
  - vm_compute. reflexivity.
  - intros []; simpl; try lia. apply Z.mod_pos_bound. lia.
  - vm_compute. split; discriminate.
  - repeat constructor; vm_compute; discriminate || done.
  - split; [rewrite Hq|rewrite Ho]; vm_compute; reflexivity.
Defined.

(** ** Names as text *)

(** The name of a question as labels, and their bytes on the wire. *)
Definition name_wire (labels : list (list Z)) : list Z := flat_map (fun l => zlen l :: l) labels ++ [0].

Definition name_text (labels : list (list Z)) : rstr := join_with 46 (map (flat_map push_byte) labels).

(** The labels that a text in presentation form spells (RFC 1035 5.1). *)
Definition push_front (b : Z) (ls : list (list Z)) : list (list Z) :=
  match ls with
  | l :: ls => (b :: l) :: ls
  | [] => [[b]]
  end.

Fixpoint read_labels (s : rstr) : list (list Z) :=
  match s with
  | [] => [[]]
  | c :: s1 =>
      if c =? 46 then [] :: read_labels s1
      else if c =? 92 then
        match s1 with
        | d :: ((e :: f :: s3) as s2) =>
            if (d =? 46) || (d =? 92) then push_front d (read_labels s2)
            else push_front ((d - 48) * 100 + (e - 48) * 10 + (f - 48)) (read_labels s3)
        | d :: s2 => push_front d (read_labels s2)
        | [] => [[]]
        end
      else push_front c (read_labels s1)
  end.

Definition labels_of_text (s : rstr) : list (list Z) :=
  match s with
  | [] => []
  | _ => read_labels s
  end.

Lemma read_push_byte b s : is_byte b ->
  read_labels (push_byte b ++ s) = push_front (lower_char b) (read_labels s).
Proof.
  intros Hb. unfold push_byte.
  destruct ((b =? 46) || (b =? 92)) eqn:Hd.
  { assert (lower_char b = b) as -> by (unfold lower_char, is_upper; destruct (andb _ _) eqn:?; lia).
    simpl. destruct s as [|e [|f s]]; try done. by rewrite Hd. }
  destruct ((b <=? 32) || (127 <=? b)) eqn:He.
  - assert (lower_char b = b) as -> by (unfold lower_char, is_upper; destruct (andb _ _) eqn:?; lia).
    unfold three_digits. unfold is_byte in Hb. cbn -[Z.add Z.div Z.modulo Z.sub Z.mul Z.eqb].
    replace (48 + b / 100 =? 46) with false by (symmetry; apply Z.eqb_neq; Z.div_mod_to_equations; lia).
    replace (48 + b / 100 =? 92) with false by (symmetry; apply Z.eqb_neq; Z.div_mod_to_equations; lia).
    cbn -[Z.add Z.div Z.modulo Z.sub Z.mul]. f_equal. Z.div_mod_to_equations; lia.
  - unfold lower_char, is_upper. destruct ((65 <=? b) && (b <=? 90)) eqn:Hu; simpl.
    + replace (b + 32 =? 46) with false by lia. by replace (b + 32 =? 92) with false by lia.
    + apply orb_false_iff in Hd as [-> ->]. done.
Qed.

Lemma push_front_not_nil b ls : push_front b ls <> [].
Proof. by destruct ls. Qed.

Lemma read_labels_not_nil s : read_labels s <> [].
Proof. destruct s; simpl; repeat case_match; try done; apply push_front_not_nil. Qed.

Lemma read_label l s : bytes_ok l ->
  read_labels (flat_map push_byte l ++ s)
  = match read_labels s with x :: xs => (map lower_char l ++ x) :: xs | [] => [map lower_char l] end.
Proof.
  induction 1 as [|b l Hb _ IH]; simpl.
  { destruct (read_labels s) eqn:Hs; [by apply read_labels_not_nil in Hs|done]. }
  rewrite <- app_assoc, read_push_byte, IH by done. by destruct (read_labels s).
Qed.

Lemma read_label_dot l s : bytes_ok l ->
  read_labels (flat_map push_byte l ++ 46 :: s) = map lower_char l :: read_labels s.
Proof. intros Hl. rewrite read_label by done. simpl. by rewrite app_nil_r. Qed.

Lemma read_name_text l ls : Forall bytes_ok (l :: ls) ->
  read_labels (name_text (l :: ls)) = map (map lower_char) (l :: ls).
Proof.
  revert l. induction ls as [|l' ls IH]; intros l [Hl Hls]%Forall_cons.
  - unfold name_text. simpl. rewrite <- (app_nil_r (flat_map push_byte l)), read_label by done.
    simpl. by rewrite app_nil_r.
  - unfold name_text in *. cbn [map]. rewrite join_with_cons, read_label_dot by done.
    cbn [map] in IH. by rewrite IH.
Qed.

(** A label of a question: one to 63 bytes. *)
Definition label_ok (l : list Z) : Prop := bytes_ok l /\ 1 <= zlen l <= 63.

Lemma push_byte_not_nil b : push_byte b <> [].
Proof. unfold push_byte. by repeat case_match. Qed.

Lemma name_text_labels ls : Forall label_ok ls -> labels_of_text (name_text ls) = map (map lower_char) ls.
Proof.
  intros Hls. destruct ls as [|l ls]; [done|].
  assert (Hb : Forall bytes_ok (l :: ls)) by (eapply Forall_impl; [done|]; by intros x [? _]).
  rewrite <- read_name_text by done. unfold labels_of_text. destruct (name_text (l :: ls)) eqn:Ht; [|done].
  exfalso. apply Forall_cons in Hls as [[_ Hl] _]. destruct l as [|b l]; [by destruct Hl|].
  unfold name_text in Ht. destruct ls; cbn [map] in Ht; [|rewrite join_with_cons in Ht];
    simpl in Ht; destruct (push_byte b) eqn:Hp; try done; by apply push_byte_not_nil in Hp.
Qed.

(** The loop of [first_question] reads labels and spells them. *)
Lemma first_name_labels n w a done_ r e : 0 <= a -> bytes_ok w -> Forall label_ok done_ ->
  first_name n w a (name_text done_) = Some (r, e) ->
  exists ls, Forall label_ok ls /\ get_range w a e = Some (name_wire ls) /\ r = name_text (done_ ++ ls).
Proof.
  intros Ha Hw. revert a done_ Ha. induction n as [|n IH]; intros a dn Ha Hdn He; [done|].
  pose proof (first_name_inv _ _ _ _ _ _ Ha Hw He) as [Hae Hel]. simpl in He.
  destruct (get w a) as [b|] eqn:Hb; [|done]. simpl in He. apply get_byte in Hb as Hb'; [|done]. destruct Hb' as [_ Hbyte].
  destruct (Z.eqb_spec b 0) as [->|Hb0].
  { simplify_eq. exists []. rewrite app_nil_r. split; [constructor|]. split; [|done].
    rewrite get_range_Some by lia. replace (a + 1 - a) with 1 by lia. f_equal. apply get_Some in Hb as [_ Hb].
    rewrite (drop_S _ _ _ Hb). done. }
  destruct (Z.leb_spec b 63); [|done]. destruct (get_range w (a + 1) (a + 1 + b)) as [l|] eqn:Hg; [|done]. simpl in He.
  case_match; [done|]. apply get_range_inv in Hg as Hg'. destruct Hg' as (_ & Hend & Hll & _).
  apply get_range_bytes in Hg as Hlb; [|done]. unfold is_byte in Hbyte.
  assert (Hlok : label_ok l) by (split; [done|lia]).
  assert (Hname : push_label (match name_text dn with [] => name_text dn | _ => name_text dn ++ [46] end) l = name_text (dn ++ [l])).
  { unfold push_label. destruct dn as [|d dn]; [done|].
    assert (Hne : name_text (d :: dn) <> []).
    { intros Hn. pose proof (name_text_labels (d :: dn) Hdn) as Hx. by rewrite Hn in Hx. }
    transitivity ((name_text (d :: dn) ++ [46]) ++ flat_map push_byte l); [by destruct (name_text (d :: dn))|].
    unfold name_text. rewrite map_app. cbn [map]. clear. revert d. induction dn as [|d' dn IH]; intros d; simpl.
    - by rewrite <- app_assoc.
    - simpl in IH. rewrite <- !app_assoc. simpl. f_equal. f_equal. rewrite <- IH. by rewrite <- app_assoc. }
  rewrite Hname in He. pose proof (first_name_inv _ _ (a + 1 + b) _ _ _ ltac:(lia) Hw He) as [Hae' _].
  apply IH in He as (ls & Hls & Hr & ->); [|lia|by apply Forall_app_2; [|constructor]].
  exists (l :: ls). split; [by constructor|]. rewrite <- app_assoc. split; [|done].
  unfold name_wire. cbn [flat_map]. rewrite <- app_assoc. fold (name_wire ls).
  rewrite get_range_Some in Hr, Hg by lia. injection Hr as Hr. injection Hg as Hg.
  rewrite get_range_Some by lia. f_equal. apply get_Some in Hb as [_ Hb]. rewrite (drop_S _ _ _ Hb).
  replace (Z.to_nat (e - a)) with (S (Z.to_nat b + Z.to_nat (e - (a + 1 + b)))) by lia. cbn [take app].
  f_equal; [lia|]. rewrite <- take_take_drop. f_equal.
  - rewrite <- Hg at 1. replace (Z.to_nat (a + 1 + b - (a + 1))) with (Z.to_nat b) by lia.
    replace (Z.to_nat (a + 1)) with (S (Z.to_nat a)) by lia. done.
  - rewrite drop_drop, <- Hr. f_equal. f_equal. lia.
Qed.

(** The name of a question as text says which labels it has: it reads
    back to the labels that stand in the message, up to the case of ASCII
    letters, so two questions have the same text exactly when their labels are
    the same in lower case — whatever bytes, dots and backslashes included, are
    in them. *)
Theorem question_names_faithful w w' q q' : bytes_ok w -> bytes_ok w' ->
  first_question w = Some q -> first_question w' = Some q' ->
  exists ls ls', Forall label_ok ls /\ Forall label_ok ls'
    /\ get_range w 12 (fq_end q - 4) = Some (name_wire ls)
    /\ get_range w' 12 (fq_end q' - 4) = Some (name_wire ls')
    /\ labels_of_text (fq_name q) = map (map lower_char) ls
    /\ (fq_name q = fq_name q' <-> map (map lower_char) ls = map (map lower_char) ls').
Proof.
  intros Hw Hw' Hq Hq'.
  destruct (first_question_inv _ _ Hw Hq) as (e & Hf & He & _). destruct (first_question_inv _ _ Hw' Hq') as (e' & Hf' & He' & _).
  destruct (first_name_labels _ w 12 [] _ _ ltac:(lia) Hw ltac:(constructor) Hf) as (ls & Hls & Hr & Hn).
  destruct (first_name_labels _ w' 12 [] _ _ ltac:(lia) Hw' ltac:(constructor) Hf') as (ls' & Hls' & Hr' & Hn').
  exists ls, ls'. replace (fq_end q - 4) with e by lia. replace (fq_end q' - 4) with e' by lia.
  simpl in Hn, Hn'. rewrite Hn, Hn'. repeat (split; [done|]). split; [by apply name_text_labels|].
  split; intros Heq; [rewrite <- !name_text_labels by done; by rewrite Heq|].
  unfold name_text. f_equal. clear -Heq Hls Hls'. revert ls' Hls' Heq.
  induction Hls as [|l ls [Hl _] _ IH]; intros [|l' ls'] Hls' Heq; try done. simpl in *.
  apply Forall_cons in Hls' as [[Hl' _] Hls']. injection Heq as Heq1 Heq2. f_equal; [|by apply IH].
  clear -Heq1. revert l' Heq1. induction l as [|b l IH]; intros [|b' l'] Heq; try done. simpl in *.
  injection Heq as Hb Hl. f_equal; [|by apply IH]. revert Hb.
  unfold push_byte, lower_char, is_upper, three_digits. clear.
  destruct ((65 <=? b) && (b <=? 90)) eqn:H1, ((65 <=? b') && (b' <=? 90)) eqn:H2; intros Hb; try (by subst);
    repeat (match goal with |- context [if ?c then _ else _] => destruct c eqn:? end); try lia; by f_equal.
Qed.

Lemma question_names_faithful_witness :
  exists q ls, first_question sample_query = Some q /\ labels_of_text (fq_name q) = ls /\ ls = [[97]].
Proof.
  destruct (question_names_faithful sample_query sample_answer
    (mkFirstQuestion [97] 1 1 19) (mkFirstQuestion [97] 1 1 19)) as (ls & _ & _ & _ & Hr & _ & Hl & _).
  - apply bytes_okb_spec. vm_compute. reflexivity.
  - apply bytes_okb_spec. vm_compute. reflexivity.
  - vm_compute. reflexivity.
  - vm_compute. reflexivity.
  - exists (mkFirstQuestion [97] 1 1 19), [[97]]. split; [vm_compute; reflexivity|].
    split; [vm_compute; reflexivity|done].
Defined.
