(* ===== verification/DnsCache.v ===== *)
(** * The DNS cache

    [crates/rurge-dns/src/cache.rs]: answers kept by name in an LRU cache, with
    a time to live, served stale while one refresh runs.  The [lru] crate is the
    interface of [Lru.v].  An [Instant] is a number of nanoseconds; every
    operation runs under the one lock, at one [now]. *)

From S2P Require Import Prelude Lru.

Definition second : Z := 1000000000.
Definition NEGATIVE_TTL : Z := 30 * second.
Definition REFRESH_RETRY_INTERVAL : Z := 60 * second.

(** Addresses are their bits; a [Duration] is a number of nanoseconds. *)
Record CachedAddrs := mkCached {
  v4 : list Z;
  v6 : list Z;
  ttl : Z;
  v6_queried : bool;
  src : rstr;
}.

Inductive CacheHit : Type :=
| Fresh (a : CachedAddrs)
| Stale (a : CachedAddrs)
| Negative.

Record CacheEntry := mkCacheEntry {
  ce_name : rstr;
  ce_v4 : list Z;
  ce_v6 : list Z;
  expires_in : option Z;
  stale : bool;
  negative : bool;
  ce_source : rstr;
}.

Record Entry := mkEntry {
  addrs : option CachedAddrs;
  expires_at : Z;
  refreshing : bool;
  last_refresh : option Z;
}.

(** What [snapshot] sorts by. *)
Fixpoint name_le (a b : rstr) : Prop :=
  match a, b with
  | [], _ => True
  | _, [] => False
  | x :: a, y :: b => x < y \/ (x = y /\ name_le a b)
  end.

#[export] Instance name_le_dec : RelDecision name_le.
Proof.
  intros a. induction a as [|x a IH]; intros [|y b]; simpl; try (apply _).
Defined.

Section cache.
Context `{Lru rstr Entry}.

Definition new (capacity : nat) : lru rstr Entry := lru_new (Nat.max capacity 1).

Definition get (name : rstr) (now : Z) (cache : lru rstr Entry) : option CacheHit * lru rstr Entry :=
  let '(found, cache) := lru_get name cache in
  match found with
  | None => (None, cache)
  | Some e =>
      let decision :=
        match addrs e with
        | None => if now <? expires_at e then Some Negative else None
        | Some a => if now <? expires_at e then Some (Fresh a) else Some (Stale a)
        end in
      (decision, match decision with None => lru_pop name cache | Some _ => cache end)
  end.

Definition put (name : rstr) (a : CachedAddrs) (now : Z) (cache : lru rstr Entry) : lru rstr Entry :=
  if ttl a =? 0 then lru_pop name cache
  else lru_put name (mkEntry (Some a) (now + ttl a) false None) cache.

Definition put_negative (name : rstr) (now : Z) (cache : lru rstr Entry) : lru rstr Entry :=
  lru_put name (mkEntry None (now + NEGATIVE_TTL) false None) cache.

(** [begin_refresh] of an entry: whether it is claimed. *)
Definition may_refresh (now : Z) (e : Entry) : bool :=
  if refreshing e then false
  else match last_refresh e with
       | Some last => negb (sat_sub now last <? REFRESH_RETRY_INTERVAL)
       | None => true
       end.

Definition begin_refresh (name : rstr) (now : Z) (cache : lru rstr Entry) : bool * lru rstr Entry :=
  let claim e := if may_refresh now e then mkEntry (addrs e) (expires_at e) true (Some now) else e in
  (match (lru_get name cache).1 with Some e => may_refresh now e | None => false end,
   lru_get_mut name claim cache).

Definition end_refresh (name : rstr) (cache : lru rstr Entry) : lru rstr Entry :=
  lru_get_mut name (fun e => mkEntry (addrs e) (expires_at e) false (last_refresh e)) cache.

Definition flush (cache : lru rstr Entry) : lru rstr Entry := lru_clear cache.

Definition len (cache : lru rstr Entry) : nat := length (lru_iter cache).

Definition is_empty (cache : lru rstr Entry) : bool := (len cache =? 0)%nat.

Definition snapshot_entry (now : Z) (p : rstr * Entry) : CacheEntry :=
  let '(name, e) := p in
  let expires_in := if now <? expires_at e then Some (expires_at e - now) else None in
  let stale := match expires_in with None => true | Some _ => false end in
  match addrs e with
  | Some a => mkCacheEntry name (v4 a) (v6 a) expires_in stale false (src a)
  | None => mkCacheEntry name [] [] expires_in stale true (lit "negative")
  end.

Definition entry_le (a b : CacheEntry) : Prop := name_le (ce_name a) (ce_name b).

#[export] Instance entry_le_dec : RelDecision entry_le.
Proof. intros a b. unfold entry_le. apply _. Defined.

Definition snapshot (now : Z) (cache : lru rstr Entry) : list CacheEntry :=
  merge_sort entry_le (map (snapshot_entry now) (lru_iter cache)).

(** ** Calls *)

Inductive Call : Type :=
| Get (name : rstr)
| Put (name : rstr) (a : CachedAddrs)
| PutNegative (name : rstr)
| BeginRefresh (name : rstr)
| EndRefresh (name : rstr)
| Flush.

(** What a call answers: a claim of the refresh, nothing that matters here. *)
Definition call (now : Z) (c : Call) (cache : lru rstr Entry) : bool * lru rstr Entry :=
  match c with
  | Get name => (false, (get name now cache).2)
  | Put name a => (false, put name a now cache)
  | PutNegative name => (false, put_negative name now cache)
  | BeginRefresh name => begin_refresh name now cache
  | EndRefresh name => (false, end_refresh name cache)
  | Flush => (false, flush cache)
  end.

(** Calls one after the other, and which of them claimed a refresh. *)
Fixpoint calls (cs : list (Z * Call)) (cache : lru rstr Entry) : list bool * lru rstr Entry :=
  match cs with
  | [] => ([], cache)
  | (now, c) :: cs =>
      let '(b, cache) := call now c cache in
      let '(bs, cache) := calls cs cache in
      (b :: bs, cache)
  end.

(** ** What was last recorded of a name *)

Definition record_of (name : rstr) (last : option (option CachedAddrs * Z)) (nc : Z * Call) : option (option CachedAddrs * Z) :=
  match nc.2 with
  | Put n a => if decide (n = name) then if ttl a =? 0 then None else Some (Some a, nc.1) else last
  | PutNegative n => if decide (n = name) then Some (None, nc.1) else last
  | Flush => None
  | _ => last
  end.

Definition recorded (name : rstr) (cs : list (Z * Call)) : option (option CachedAddrs * Z) :=
  fold_left (record_of name) cs None.

(** The names that calls record. *)
Definition names_of (cs : list (Z * Call)) : gset rstr :=
  list_to_set (omap (fun nc => match nc.2 with Put n _ | PutNegative n => Some n | _ => None end) cs).

(** The entry that a record makes, but for its refreshes. *)
Definition entry_of (r : option CachedAddrs * Z) (e : Entry) : Prop :=
  addrs e = r.1 /\ expires_at e = r.2 + match r.1 with Some a => ttl a | None => NEGATIVE_TTL end.

(** ** The cache against a map that forgets nothing *)

Definition claim (now : Z) (e : Entry) : Entry :=
  if may_refresh now e then mkEntry (addrs e) (expires_at e) true (Some now) else e.

Definition released (e : Entry) : Entry := mkEntry (addrs e) (expires_at e) false (last_refresh e).

(** What a call does to the entry of [name]. *)
Definition entry_after (name : rstr) (o : option Entry) (nc : Z * Call) : option Entry :=
  match nc.2 with
  | Get n =>
      if decide (n = name) then
        match o with
        | Some e => match addrs e with None => if nc.1 <? expires_at e then o else None | Some _ => o end
        | None => None
        end
      else o
  | Put n a => if decide (n = name) then if ttl a =? 0 then None else Some (mkEntry (Some a) (nc.1 + ttl a) false None) else o
  | PutNegative n => if decide (n = name) then Some (mkEntry None (nc.1 + NEGATIVE_TTL) false None) else o
  | BeginRefresh n => if decide (n = name) then claim nc.1 <$> o else o
  | EndRefresh n => if decide (n = name) then released <$> o else o
  | Flush => None
  end.

Definition entries_after (name : rstr) (cs : list (Z * Call)) (o : option Entry) : option Entry :=
  fold_left (entry_after name) cs o.

Context `{!LruLaws rstr Entry}.

Lemma assoc_moved (k name : rstr) (f : Entry -> Entry) (l : list (rstr * Entry)) :
  assoc name (match assoc k l with Some v => (k, f v) :: drop_key k l | None => l end)
  = if decide (k = name) then f <$> assoc name l else assoc name l.
Proof.
  case_decide as Hk.
  - subst. destruct (assoc name l) as [v|] eqn:Hv; simpl; [by rewrite decide_True|done].
  - destruct (assoc k l) as [v|]; [|done]. simpl. rewrite decide_False by done. by apply assoc_drop_ne.
Qed.

Lemma assoc_dropped (k name : rstr) (l : list (rstr * Entry)) :
  assoc name (drop_key k l) = if decide (k = name) then None else assoc name l.
Proof. case_decide; [subst; apply assoc_drop_eq|by apply assoc_drop_ne]. Qed.

(** A cut-off list has some of the entries, all of them if it is short. *)
Lemma assoc_take (n : nat) (k : rstr) (l : list (rstr * Entry)) :
  assoc k (take n l) = assoc k l \/ assoc k (take n l) = None /\ (n < length l)%nat.
Proof.
  revert n. induction l as [|[a b] l IH]; intros n; [rewrite take_nil; by left|].
  destruct n as [|n]; simpl; [right; split; [done|lia]|]. case_decide; [by left|].
  destruct (IH n) as [->|[-> Hl]]; [by left|right; split; [done|lia]].
Qed.

Lemma assoc_put (k name : rstr) (e : Entry) (cache : lru rstr Entry) n : lru_cap cache = Some n ->
  let l := lru_iter (lru_put k e cache) in
  assoc name l = (if decide (k = name) then Some e else assoc name (lru_iter cache))
  \/ assoc name l = None /\ (n < length ((k, e) :: drop_key k (lru_iter cache)))%nat.
Proof.
  intros Hcap l. subst l. rewrite iter_put, Hcap. cbn [capped].
  destruct (assoc_take n name ((k, e) :: drop_key k (lru_iter cache))) as [->|[-> Hl]]; [left|by right].
  simpl. case_decide; [done|]. by apply assoc_drop_ne.
Qed.

Lemma call_cap now c cache : lru_cap (call now c cache).2 = lru_cap cache.
Proof.
  destruct c; simpl; unfold get, put, put_negative, begin_refresh, end_refresh, flush; simpl;
    rewrite ?get_spec; repeat case_match; simplify_eq/=;
    rewrite ?cap_pop, ?cap_put, ?cap_promote, ?cap_get_mut, ?cap_clear; done.
Qed.

(** The new names a call brings, and the names there are. *)
Definition call_names (c : Call) : gset rstr :=
  match c with
  | Put n _ | PutNegative n => {[n]}
  | _ => ∅
  end.

Definition wf (names : gset rstr) (cache : lru rstr Entry) : Prop :=
  NoDup (keys_of (lru_iter cache)) /\ forall k, k ∈ keys_of (lru_iter cache) -> k ∈ names.

Lemma keys_size (names : gset rstr) (l : list (rstr * Entry)) : NoDup (keys_of l) -> (forall k, k ∈ keys_of l -> k ∈ names) ->
  (length l <= size names)%nat.
Proof.
  intros Hn Hin. unfold keys_of in *. rewrite <- (length_fmap fst l), <- (size_list_to_set (C := gset rstr)) by done.
  apply subseteq_size. intros k Hk. apply Hin. by apply elem_of_list_to_set in Hk.
Qed.

Lemma moved_wf names k f (l : list (rstr * Entry)) : NoDup (keys_of l) -> (forall x, x ∈ keys_of l -> x ∈ names) ->
  let l' := match assoc k l with Some v => (k, f v) :: drop_key k l | None => l end in
  NoDup (keys_of l') /\ (forall x, x ∈ keys_of l' -> x ∈ (names : gset rstr)) /\ length l' = length l.
Proof.
  intros Hn Hin l'. subst l'. destruct (assoc k l) as [v|] eqn:Hv; [|done]. apply assoc_keys in Hv as Hk.
  assert (Hkeys : forall x, x ∈ keys_of ((k, f v) :: drop_key k l) -> x ∈ names).
  { intros x [->|Hx]%elem_of_cons; [by apply Hin|]. apply elem_of_drop_key in Hx as [_ Hx]. by apply Hin. }
  assert (Hnd : NoDup (keys_of ((k, f v) :: drop_key k l))).
  { constructor; [apply drop_key_not_in|by apply drop_key_NoDup]. }
  split; [done|]. split; [done|]. clear Hkeys Hnd Hin. unfold keys_of, drop_key in *.
  induction l as [|[a b] l IH]; [done|]. simpl in *. apply NoDup_cons in Hn as [Ha Hn]. rewrite filter_cons. simpl.
  destruct (decide (a = k)) as [->|Hne].
  - simplify_eq. rewrite decide_False by naive_solver. f_equal. fold (drop_key k l). by rewrite drop_key_id.
  - rewrite decide_True by done. simpl in *. f_equal. apply IH; [done|done|]. by apply elem_of_cons in Hk as [|].
Qed.

Lemma dropped_wf names k (l : list (rstr * Entry)) : NoDup (keys_of l) -> (forall x, x ∈ keys_of l -> x ∈ names) ->
  NoDup (keys_of (drop_key k l)) /\ (forall x, x ∈ keys_of (drop_key k l) -> x ∈ (names : gset rstr)).
Proof.
  intros Hn Hin. split; [by apply drop_key_NoDup|]. intros x [_ Hx]%elem_of_drop_key. by apply Hin.
Qed.

(** What every call keeps and does: [n] is the capacity. *)
Definition call_ok (names : gset rstr) (n : nat) (cache cache' : lru rstr Entry) (after : rstr -> option Entry -> option Entry) : Prop :=
  wf names cache' /\ (length (lru_iter cache') <= n)%nat
  /\ forall name, assoc name (lru_iter cache') = after name (assoc name (lru_iter cache))
       \/ assoc name (lru_iter cache') = None /\ (n < size names)%nat.

Lemma moved_ok names n cache cache' k f : wf names cache -> (length (lru_iter cache) <= n)%nat ->
  lru_iter cache' = match assoc k (lru_iter cache) with Some v => (k, f v) :: drop_key k (lru_iter cache) | None => lru_iter cache end ->
  call_ok names n cache cache' (fun name o => if decide (k = name) then f <$> o else o).
Proof.
  intros [Hn Hin] Hlen Hit. destruct (moved_wf names k f _ Hn Hin) as (Hn' & Hin' & Hl'). unfold call_ok, wf. rewrite Hit.
  split; [done|]. split; [lia|]. intros name. left. apply assoc_moved.
Qed.

Lemma dropped_ok names n cache cache' k : wf names cache -> (length (lru_iter cache) <= n)%nat ->
  lru_iter cache' = drop_key k (lru_iter cache) ->
  call_ok names n cache cache' (fun name o => if decide (k = name) then None else o).
Proof.
  intros [Hn Hin] Hlen Hit. unfold call_ok, wf. rewrite Hit. split; [by apply dropped_wf|].
  split; [pose proof (drop_key_length k (lru_iter cache)); lia|]. intros name. left. apply assoc_dropped.
Qed.

Lemma put_ok names n cache k e : wf names cache -> lru_cap cache = Some n ->
  call_ok (names ∪ {[k]}) n cache (lru_put k e cache) (fun name o => if decide (k = name) then Some e else o).
Proof.
  intros [Hn Hin] Hcap. set (l := (k, e) :: drop_key k (lru_iter cache)).
  assert (Hl : NoDup (keys_of l) /\ forall x, x ∈ keys_of l -> x ∈ names ∪ {[k]}).
  { split; [constructor; [apply drop_key_not_in|by apply drop_key_NoDup]|].
    intros x [->|[_ Hx]%elem_of_drop_key]%elem_of_cons; [set_solver|]. specialize (Hin x Hx). set_solver. }
  destruct Hl as [Hnd Hsub]. split; [split|split].
  - rewrite iter_put, Hcap. unfold capped, keys_of. rewrite fmap_take. eapply sublist_NoDup; [exact Hnd|apply sublist_take].
  - intros x. rewrite iter_put, Hcap. unfold capped, keys_of. rewrite fmap_take. intros Hx%elem_of_take.
    destruct Hx as (i & Hx & _). apply Hsub. by eapply list_elem_of_lookup_2.
  - rewrite iter_put, Hcap. unfold capped. rewrite length_take. lia.
  - intros name. destruct (assoc_put k name e cache n Hcap) as [->|[-> Hlt]]; [by left|right]. split; [done|].
    pose proof (keys_size _ _ Hnd Hsub). subst l. lia.
Qed.

Lemma call_ok_weaken names names' n cache cache' f g : names ⊆ names' -> (forall name, f name (assoc name (lru_iter cache)) = g name (assoc name (lru_iter cache))) ->
  call_ok names n cache cache' f -> call_ok names' n cache cache' g.
Proof.
  intros Hsub Hfg ([Hn Hin] & Hl & Ha). split; [split; [done|]|split; [done|]].
  - intros k Hk. apply Hsub. by apply Hin.
  - intros name. rewrite <- Hfg. destruct (Ha name) as [|[? ?]]; [by left|right]. split; [done|].
    pose proof (subseteq_size _ _ Hsub). lia.
Qed.

(** Looking a name up. *)
Lemma get_ok names n now k cache : lru_cap cache = Some n -> wf names cache -> (length (lru_iter cache) <= n)%nat ->
  call_ok (names ∪ call_names (Get k)) n cache (call now (Get k) cache).2 (fun name o => entry_after name o (now, Get k)).
Proof.
  intros Hcap Hwf Hlen.
  cbn [call snd]. unfold get. rewrite get_spec. destruct (assoc k (lru_iter cache)) as [e|] eqn:He.
  2:{ apply (call_ok_weaken names _ _ _ _ (fun name o => if decide (k = name) then id <$> o else o)).
    - cbn [call_names]. set_solver.
    - intros name. unfold entry_after. cbn [fst snd]. case_decide; [|done]. subst. by rewrite He.
    - apply moved_ok; [done|done|]. simpl. rewrite iter_promote. by rewrite He. }
  set (b := match addrs e with None => now <? expires_at e | Some _ => true end).
  assert (Hafter : forall name, entry_after name (assoc name (lru_iter cache)) (now, Get k)
            = if decide (k = name) then if b then Some e else None else assoc name (lru_iter cache)).
  { intros name. unfold entry_after. cbn [fst snd]. case_decide; [|done]. subst name. rewrite He. subst b. by destruct (addrs e). }
  destruct b eqn:Hb; subst b.
  + apply (call_ok_weaken names _ _ _ _ (fun name o => if decide (k = name) then id <$> o else o)).
    * cbn [call_names]. set_solver.
    * intros name. rewrite Hafter. case_decide; [subst; by rewrite He|done].
    * apply moved_ok; [done|done|]. destruct (addrs e) as [a|]; [case_match|rewrite Hb]; simpl; rewrite iter_promote, He; done.
  + apply (call_ok_weaken names _ _ _ _ (fun name o => if decide (k = name) then None else o)).
    * cbn [call_names]. set_solver.
    * intros name. by rewrite Hafter.
    * apply dropped_ok; [done|done|]. destruct (addrs e) as [a|]; [done|rewrite Hb]. simpl. rewrite iter_pop, iter_promote, He.
      unfold drop_key. rewrite filter_cons. simpl. rewrite decide_False by naive_solver. fold (drop_key k (lru_iter cache)).
      apply drop_key_id, drop_key_not_in.
Qed.

Lemma call_spec names n now c cache : lru_cap cache = Some n -> wf names cache -> (length (lru_iter cache) <= n)%nat ->
  call_ok (names ∪ call_names c) n cache (call now c cache).2 (fun name o => entry_after name o (now, c)).
Proof.
  intros Hcap Hwf Hlen. destruct c as [k|k a|k|k|k|].
  - by apply get_ok.
  - cbn [call snd]. unfold put. destruct (Z.eqb_spec (ttl a) 0) as [Ht|Ht].
    + apply (call_ok_weaken names _ _ _ _ (fun name o => if decide (k = name) then None else o)).
      * set_solver.
      * intros name. unfold entry_after. simpl. by rewrite Ht.
      * apply dropped_ok; [done|done|]. apply iter_pop.
    + eapply call_ok_weaken; [done| |by apply put_ok]. intros name. unfold entry_after. simpl.
      by rewrite (proj2 (Z.eqb_neq _ _)).
  - eapply call_ok_weaken; [done| |by apply put_ok]. done.
  - apply (call_ok_weaken names _ _ _ _ (fun name o => if decide (k = name) then claim now <$> o else o)).
    + cbn [call_names]. set_solver.
    + done.
    + apply moved_ok; [done|done|]. simpl. apply iter_get_mut.
  - apply (call_ok_weaken names _ _ _ _ (fun name o => if decide (k = name) then released <$> o else o)).
    + cbn [call_names]. set_solver.
    + done.
    + apply moved_ok; [done|done|]. simpl. apply iter_get_mut.
  - cbn [call snd]. split; [split|split]; unfold flush; cbn [snd]; rewrite ?iter_clear.
    + constructor.
    + by intros k ?%elem_of_nil.
    + simpl. lia.
    + intros name. by left.
Qed.

Lemma calls_snoc cs nc cache : (calls (cs ++ [nc]) cache).2 = (call nc.1 nc.2 (calls cs cache).2).2.
Proof.
  revert cache. induction cs as [|[now c] cs IH]; intros cache; simpl.
  - destruct nc as [now c]. simpl. by destruct (call now c cache).
  - destruct (call now c cache) as [b cache']. specialize (IH cache'). destruct (calls cs cache'), (calls (cs ++ [nc]) cache').
    simpl in *. done.
Qed.

Lemma names_of_snoc cs nc : names_of (cs ++ [nc]) = names_of cs ∪ call_names nc.2.
Proof.
  unfold names_of. rewrite omap_app, list_to_set_app_L. f_equal. destruct nc as [now []]; simpl; set_solver.
Qed.

(** A call that finds no entry leaves none, or makes one that does not depend
    on what there was. *)
Lemma entry_after_none name nc : entry_after name None nc = None \/ forall o, entry_after name o nc = entry_after name None nc.
Proof.
  unfold entry_after. destruct nc as [now []]; simpl; try case_decide; try (by left); by right.
Qed.

Lemma calls_spec capacity cs :
  let cache := (calls cs (new capacity)).2 in
  let n := Nat.max capacity 1 in
  lru_cap cache = Some n /\ call_ok (names_of cs) n (new capacity) cache (fun name _ => entries_after name cs None).
Proof.
  cbv zeta. induction cs as [|nc cs IH] using rev_ind.
  - simpl. unfold new. rewrite cap_new. split; [done|]. split; [split|split]; rewrite ?iter_new.
    + constructor.
    + by intros k ?%elem_of_nil.
    + simpl. lia.
    + intros name. by left.
  - destruct IH as [Hcap (Hwf & Hlen & Ha)]. rewrite calls_snoc, names_of_snoc. split; [by rewrite call_cap|].
    destruct (call_spec _ _ nc.1 nc.2 _ Hcap Hwf Hlen) as (Hwf' & Hlen' & Ha'). split; [done|]. split; [done|].
    intros name. unfold entries_after. rewrite fold_left_app. cbn [fold_left]. fold (entries_after name cs None).
    destruct nc as [now c]. cbn [fst snd] in *.
    destruct (Ha' name) as [->|]; [|by right]. destruct (Ha name) as [->|[-> Hn]]; [by left|].
    destruct (entry_after_none name (now, c)) as [->|Hsame]; [right|left; symmetry; apply Hsame].
    split; [done|]. pose proof (subseteq_size (names_of cs) (names_of cs ∪ call_names c)) as Hsz. specialize (Hsz ltac:(set_solver)). lia.
Qed.

(** The entries that are never forgotten are what was recorded last. *)
Lemma entries_recorded name cs :
  (forall e, entries_after name cs None = Some e -> exists r, recorded name cs = Some r /\ entry_of r e)
  /\ (forall a t, recorded name cs = Some (Some a, t) -> is_Some (entries_after name cs None)).
Proof.
  induction cs as [|nc cs [IH1 IH2]] using rev_ind; [done|].
  unfold entries_after, recorded in *. rewrite !fold_left_app. cbn [fold_left].
  set (o := fold_left (entry_after name) cs None) in *. set (l := fold_left (record_of name) cs None) in *.
  destruct nc as [now c]. unfold entry_after, record_of. cbn [fst snd].
  destruct c as [k|k a|k|k|k|]; try case_decide; try done.
  - split.
    + intros e. destruct o as [e0|]; [|done]. destruct (addrs e0) eqn:Had; [intros [= <-]; by apply IH1|].
      case_match; [|done]. intros [= <-]. by apply IH1.
    + intros a t Hl. destruct (IH2 a t Hl) as [e0 He0]. rewrite He0 in *.
      destruct (IH1 _ eq_refl) as (r & Hr & Had & _). rewrite Hl in Hr. simplify_eq. rewrite Had. done.
  - case_match; [done|]. split; [|done]. intros e [= <-]. by eexists.
  - split; [|done]. intros e [= <-]. by eexists.
  - split.
    + intros e (e0 & He0 & ->)%fmap_Some. destruct (IH1 _ He0) as (r & Hr & Had & Hex). exists r. split; [done|].
      unfold claim. by destruct (may_refresh now e0).
    + intros a t Hl. destruct (IH2 a t Hl) as [e0 ->]. done.
  - split.
    + intros e (e0 & He0 & ->)%fmap_Some. destruct (IH1 _ He0) as (r & Hr & Had & Hex). by exists r.
    + intros a t Hl. destruct (IH2 a t Hl) as [e0 ->]. done.
Qed.

(** C8: after any calls at any times, the cache holds no more entries than its
    capacity, and what it answers for a name is what was recorded last of it:
    addresses as fresh before their time to live is over and as stale from then
    on, an empty answer only within its thirty seconds — never what was
    replaced, flushed, or recorded of another name.  Addresses are forgotten only
    when more names than the capacity were recorded.  *)
Theorem cache_answers capacity cs name now :
  let cache := (calls cs (new capacity)).2 in
  (len cache <= Nat.max capacity 1)%nat
  /\ match (get name now cache).1 with
     | Some (Fresh a) => exists t, recorded name cs = Some (Some a, t) /\ now < t + ttl a
     | Some (Stale a) => exists t, recorded name cs = Some (Some a, t) /\ t + ttl a <= now
     | Some Negative => exists t, recorded name cs = Some (None, t) /\ now < t + NEGATIVE_TTL
     | None => (size (names_of cs) <= Nat.max capacity 1)%nat -> forall a t, recorded name cs <> Some (Some a, t)
     end.
Proof.
  cbv zeta. destruct (calls_spec capacity cs) as [Hcap (Hwf & Hlen & Ha)]. set (cache := (calls cs (new capacity)).2) in *.
  split; [done|]. destruct (entries_recorded name cs) as [Hrec Hsome]. specialize (Ha name).
  unfold get. rewrite get_spec. destruct (assoc name (lru_iter cache)) as [e|] eqn:He; simpl.
  - destruct Ha as [Ha|[? _]]; [|done]. destruct (Hrec e) as ([w t] & Hr & Had & Hex); [done|]. simpl in *. rewrite Had.
    destruct w as [a|]; destruct (Z.ltb_spec now (expires_at e)); simpl.
    + exists t. split; [done|lia].
    + exists t. split; [done|lia].
    + exists t. split; [done|lia].
    + intros _ a t' Heq. congruence.
  - intros Hsz a t Hr. destruct Ha as [Ha|[_ Hn]]; [|lia]. destruct (Hsome _ _ Hr) as [e He']. congruence.
Qed.

(** ** One refresh at a time *)

(** A call that answers, or takes away, what a claimed refresh was for. *)
Definition settles (name : rstr) (c : Call) : bool :=
  match c with
  | Put n _ | PutNegative n => bool_decide (n = name)
  | _ => false
  end.

(** What holds of a claimed entry until it is recorded again: the claim stands
    until it is released, and its time until the next claim. *)
Definition claimed_at (t : Z) (open : bool) (o : option Entry) : Prop :=
  match o with
  | Some e => last_refresh e = Some t /\ (open = true -> refreshing e = true)
  | None => True
  end.

Definition ends (name : rstr) (c : Call) : bool :=
  match c with
  | EndRefresh n => bool_decide (n = name)
  | _ => false
  end.

Lemma call_entry now c cache name : NoDup (keys_of (lru_iter cache)) -> is_Some (lru_cap cache) -> (length (lru_iter cache) <= default 0%nat (lru_cap cache))%nat ->
  assoc name (lru_iter (call now c cache).2) = entry_after name (assoc name (lru_iter cache)) (now, c)
  \/ assoc name (lru_iter (call now c cache).2) = None.
Proof.
  intros Hn [n Hcap] Hlen. rewrite Hcap in Hlen. simpl in Hlen.
  destruct (call_spec (list_to_set (keys_of (lru_iter cache))) n now c cache Hcap) as (_ & _ & Ha); [|done|].
  - split; [done|]. intros k Hk. by apply elem_of_list_to_set.
  - destruct (Ha name) as [|[? _]]; [by left|by right].
Qed.

Lemma begin_answer name now cache :
  (call now (BeginRefresh name) cache).1 = match assoc name (lru_iter cache) with Some e => may_refresh now e | None => false end.
Proof. simpl. by rewrite get_spec. Qed.

Lemma claimed_step name t open now c cache o :
  claimed_at t open o -> o = assoc name (lru_iter cache) -> settles name c = false ->
  (c = BeginRefresh name -> (call now c cache).1 = false) ->
  claimed_at t (open && negb (ends name c)) (entry_after name o (now, c)).
Proof.
  intros Hc -> Hs Hb. set (o := assoc name (lru_iter cache)) in *. unfold entry_after.
  destruct c as [k|k a|k|k|k|]; cbn [fst snd ends settles] in *.
  - rewrite andb_true_r. case_decide; [|done]. destruct o as [e|]; [|done]. repeat case_match; done.
  - apply bool_decide_eq_false in Hs. rewrite decide_False by done. by rewrite andb_true_r.
  - apply bool_decide_eq_false in Hs. rewrite decide_False by done. by rewrite andb_true_r.
  - rewrite andb_true_r. case_decide; [subst k|done]. specialize (Hb eq_refl). rewrite begin_answer in Hb. fold o in Hb.
    destruct o as [e|]; [|done]. simpl. unfold claim. by rewrite Hb.
  - case_decide as Hk.
    + subst. rewrite bool_decide_eq_true_2 by done. rewrite andb_false_r. destruct o as [e|]; [|done]. simpl in *.
      split; [apply Hc|done].
    + rewrite bool_decide_eq_false_2 by done. by rewrite andb_true_r.
  - done.
Qed.

Lemma claimed_calls name t open cs cache :
  NoDup (keys_of (lru_iter cache)) -> is_Some (lru_cap cache) -> (length (lru_iter cache) <= default 0%nat (lru_cap cache))%nat ->
  claimed_at t open (assoc name (lru_iter cache)) ->
  Forall (fun nc => settles name nc.2 = false) cs ->
  Forall2 (fun nc b => nc.2 = BeginRefresh name -> b = false) cs (calls cs cache).1 ->
  claimed_at t (open && negb (existsb (fun nc => ends name nc.2) cs)) (assoc name (lru_iter (calls cs cache).2)).
Proof.
  intros Hn Hcap Hlen Hcl Hset Hb. revert open cache Hn Hcap Hlen Hcl Hb.
  induction cs as [|[now c] cs IH]; intros open cache Hn Hcap Hlen Hcl Hb; simpl.
  { by rewrite andb_true_r. }
  apply Forall_cons in Hset as [Hs Hset]. simpl in Hs, Hb.
  destruct Hcap as [n Hcap]. pose proof Hlen as Hlen0. rewrite Hcap in Hlen0. simpl in Hlen0.
  destruct (call_spec (list_to_set (keys_of (lru_iter cache))) n now c cache Hcap) as ([Hn' _] & Hlen' & _); [|done|].
  { split; [done|]. intros k Hk. by apply elem_of_list_to_set. }
  pose proof (call_cap now c cache) as Hcap'. pose proof (call_entry now c cache name Hn ltac:(by eexists) Hlen) as Hent.
  pose proof (claimed_step name t open now c cache _ Hcl eq_refl Hs) as Hstep.
  destruct (call now c cache) as [b cache']. simpl in *.
  destruct (calls cs cache') as [bs cache2] eqn:Hcs. simpl in *. apply Forall2_cons in Hb as [Hb0 Hb].
  rewrite negb_orb, andb_assoc. specialize (IH Hset (open && negb (ends name c)) cache').
  rewrite Hcs in IH. simpl in IH. apply IH; [done|by rewrite Hcap', Hcap|by rewrite Hcap', Hcap| |done].
  destruct Hent as [->| ->]; [by apply Hstep|done].
Qed.

(** One refresh at a time: when a refresh of a name is claimed, no second
    claim of it succeeds — whatever else is asked, of this and other names —
    before the first is released or the name recorded again; and none within
    sixty seconds of the first even after it was released.  *)
Theorem one_refresh capacity before name t cs now :
  let cache := (calls before (new capacity)).2 in
  let '(b, claimed) := call t (BeginRefresh name) cache in
  let '(bs, cache') := calls cs claimed in
  b = true ->
  Forall (fun nc => settles name nc.2 = false) cs ->
  Forall2 (fun nc b => nc.2 = BeginRefresh name -> b = false) cs bs ->
  (call now (BeginRefresh name) cache').1 = true ->
  existsb (fun nc => ends name nc.2) cs = true /\ t + REFRESH_RETRY_INTERVAL <= now.
Proof.
  cbv zeta. destruct (calls_spec capacity before) as [Hcap ([Hn _] & Hlen & _)]. set (cache := (calls before (new capacity)).2) in *.
  destruct (call t (BeginRefresh name) cache) as [b claimed] eqn:Hb. destruct (calls cs claimed) as [bs cache'] eqn:Hcs.
  intros -> Hset Hbs Hagain.
  assert (Hclaimed : claimed = (call t (BeginRefresh name) cache).2) by (by rewrite Hb).
  assert (Hyes : (call t (BeginRefresh name) cache).1 = true) by (by rewrite Hb).
  destruct (call_spec (list_to_set (keys_of (lru_iter cache))) _ t (BeginRefresh name) cache Hcap) as ([Hn' _] & Hlen' & _); [|done|].
  { split; [done|]. intros k Hk. by apply elem_of_list_to_set. }
  rewrite <- Hclaimed in Hn', Hlen'. assert (Hcap' : lru_cap claimed = Some (Nat.max capacity 1)) by (by rewrite Hclaimed, call_cap).
  assert (Hcl : claimed_at t true (assoc name (lru_iter claimed))).
  { destruct (call_entry t (BeginRefresh name) cache name Hn) as [He|He]; [by eexists|by rewrite Hcap| |]; rewrite <- Hclaimed in He; rewrite He; [|done].
    rewrite begin_answer in Hyes. unfold entry_after. simpl. rewrite decide_True by done.
    destruct (assoc name (lru_iter cache)) as [e|]; [|done]. simpl. unfold claim. by rewrite Hyes. }
  pose proof (claimed_calls name t true cs claimed Hn' ltac:(by eexists)) as Hend. rewrite Hcap', Hcs in Hend. simpl in Hend.
  specialize (Hend Hlen' Hcl Hset Hbs). rewrite begin_answer in Hagain.
  destruct (assoc name (lru_iter cache')) as [e|]; [|done]. destruct Hend as [Hlast Hopen].
  unfold may_refresh in Hagain. rewrite Hlast in Hagain. destruct (refreshing e) eqn:Href; [done|]. split.
  - destruct (existsb _ cs); [done|]. specialize (Hopen eq_refl). congruence.
  - apply negb_true_iff, Z.ltb_ge in Hagain. unfold sat_sub, REFRESH_RETRY_INTERVAL, second in *. lia.
Qed.

End cache.

(** Recorded at 0, served stale, claimed at 300 s, released, claimed again a
    minute later. *)
Definition sample_addrs : CachedAddrs := mkCached [167772161] [] (300 * second) false (lit "8.8.8.8").

Lemma one_refresh_witness :
  exists cs : list (Z * Call), existsb (fun nc => ends (lit "a.test") nc.2) cs = true
    /\ 300 * second + REFRESH_RETRY_INTERVAL <= 360 * second.
Proof.
  exists [(300 * second, Get (lit "a.test")); (301 * second, EndRefresh (lit "a.test"))].
  apply (one_refresh (H := ListLru Entry) 10 [(0, Put (lit "a.test") sample_addrs)] (lit "a.test") (300 * second)
    [(300 * second, Get (lit "a.test")); (301 * second, EndRefresh (lit "a.test"))] (360 * second)).
  - vm_compute. reflexivity.
  - repeat constructor.
  - vm_compute. repeat constructor; discriminate.
  - vm_compute. reflexivity.
Defined.

Lemma cache_answers_witness :
  let cs := [(0, Put (lit "a.test") sample_addrs); (second, PutNegative (lit "b.test"))] in
  exists t, recorded (lit "a.test") cs = Some (Some sample_addrs, t) /\ t + 300 * second <= 400 * second.
Proof.
  destruct (cache_answers (H := ListLru Entry) 10 [(0, Put (lit "a.test") sample_addrs); (second, PutNegative (lit "b.test"))]
    (lit "a.test") (400 * second)) as [_ Hget].
  vm_compute (get _ _ _).1 in Hget. destruct Hget as (t & Hr & Hle). exists t. split; [exact Hr|exact Hle].
Defined.
