(* ===== verification/DnsFanout.v ===== *)
(** * Queries to several upstreams at once

    [crates/rurge-dns/src/fanout.rs], with what it uses of [message.rs]: the loops
    of [resolve_name] and [forward_raw], turn by turn.  A turn is told the clock
    when it begins and ends, and what its [select!] woke up with: a query that came
    back, or the time of the next round.  Messages are built and parsed by
    hickory-proto, which [build_query], [parse_response] and [rcode_of] stand for;
    what an upstream answers and the ids drawn are inputs.  Instants are
    nanoseconds.  [None] of a turn is one that cannot be: a query that came back is
    one under way. *)

From S2P Require Import Prelude DnsCache Bytes DnsWire.

(** ** Questions and answers, [message.rs] *)

Inductive Qtype := A | Aaaa.
#[export] Instance Qtype_eq_dec : EqDecision Qtype.
Proof. solve_decision. Defined.
#[export] Instance Rcode_eq_dec : EqDecision Rcode.
Proof. solve_decision. Defined.

Record Question := mkQuestion { q_name : rstr; qtype : Qtype }.
#[export] Instance Question_eq_dec : EqDecision Question.
Proof. solve_decision. Defined.

Record Answer := mkAnswer { a_id : Z; rcode : Rcode; truncated : bool; a_question : option Question; v4 : list (Z * Z); v6 : list (Z * Z) }.

Definition has_records (a : Answer) (q : Qtype) : bool := negb match q with A => bool_decide (v4 a = []) | Aaaa => bool_decide (v6 a = []) end.

Definition is_valid_for (a : Answer) (q : Question) : bool := bool_decide (rcode a = NoError) && bool_decide (a_question a = Some q) && has_records a (qtype q).

Definition is_empty_for (a : Answer) (q : Question) : bool :=
  (bool_decide (rcode a = NoError) || bool_decide (rcode a = NxDomain)) && match a_question a with None => true | Some x => bool_decide (x = q) end && negb (has_records a (qtype q)).

Definition show_rcode (r : Rcode) : rstr :=
  match r with NoError => lit "NOERROR" | NxDomain => lit "NXDOMAIN" | ServFail => lit "SERVFAIL" | Refused => lit "REFUSED" | FormErr => lit "FORMERR" | NotImp => lit "NOTIMP" | Other n => lit "RCODE" ++ show_u32 n end.

Inductive UpstreamError := Timeout | Io (e : rstr) | Tls (e : rstr) | Http (e : rstr) | Bootstrap (e : rstr) | BadResponse (e : rstr).

Definition show_error (e : UpstreamError) : rstr :=
  match e with Timeout => lit "timeout" | Io e => lit "io: " ++ e | Tls e => lit "tls: " ++ e | Http e => lit "http: " ++ e | Bootstrap e => lit "bootstrap: " ++ e | BadResponse e => lit "bad response: " ++ e end.

(** ** The clockwork of both loops *)

Record FanoutOpts := mkOpts { resend : Z; attempts : Z }.

Record Rounds := mkRounds { round : Z; next_send : Z }.

(** What woke the [select!]: a query under way, with what it came back with
    ([None] when its task panicked), or [sleep_until]. *)
Inductive Event (R : Type) := Joined (k : nat) (result : option R) | Slept.
Arguments Joined {R} k result.
Arguments Slept {R}.

Record Turn (R : Type) := mkTurn { at_top : Z; at_top' : Z; event : Event R; at_end : Z }.
Arguments mkTurn {R}.
Arguments at_top {R}.
Arguments at_top' {R}.
Arguments event {R}.
Arguments at_end {R}.

(** A turn goes on, or ends the loop. *)
Inductive Next (L E : Type) := Again (l : L) | Ends (e : E).
Arguments Again {L E} l.
Arguments Ends {L E} e.

Section Clock.
Context (opts : FanoutOpts) (start : Z).

(** [attempts.max(1)]. *)
Definition most : Z := Z.max (attempts opts) 1.
Definition deadline : Z := start + resend opts * most.
Definition begin_rounds : Rounds := mkRounds 0 start.

Definition sends_now {R} (c : Rounds) (t : Turn R) : bool := (round c <? most) && (next_send c <=? at_top t) && (at_top' t <? deadline).
Definition after_send (c : Rounds) : Rounds := mkRounds (round c + 1) (start + resend opts * (round c + 1)).
Definition next_rounds {R} (c : Rounds) (t : Turn R) : Rounds := if sends_now c t then after_send c else c.
Definition tick (c : Rounds) : Z := if round c <? most then next_send c else deadline.
Definition time_is_up {R} (c : Rounds) (t : Turn R) : bool := (most <=? round c) || (deadline <=? at_end t).
End Clock.

(** ** [resolve_name] *)

Inductive State := Pending | Valid (answer : Answer) (upstream : rstr) | Empty.

Record Track := mkTrack { question : Question; state : State; empties : gset rstr; failures : list (rstr * rstr) }.

Definition decided (t : Track) : bool := match state t with Pending => false | _ => true end.

Definition apply (t : Track) (upstream : rstr) (result : res UpstreamError Answer) (total : nat) : Track :=
  if decided t then t
  else match result with
  | Ok answer =>
      if is_valid_for answer (question t) then mkTrack (question t) (Valid answer upstream) (empties t) (failures t)
      else if is_empty_for answer (question t) then
        let empties := {[ upstream ]} ∪ empties t in
        mkTrack (question t) (if (total <=? size empties)%nat then Empty else state t) empties (failures t)
      else mkTrack (question t) (state t) (empties t) (failures t ++ [(upstream, lit "rcode " ++ show_rcode (rcode answer))])
  | Err Timeout => t
  | Err e => mkTrack (question t) (state t) (empties t) (failures t ++ [(upstream, show_error e)])
  end.

Definition settle_empty (t : Track) : Track :=
  if negb (decided t) && negb (bool_decide (empties t = ∅)) && bool_decide (failures t = []) then mkTrack (question t) Empty (empties t) (failures t) else t.

(** What a query comes back with: [build_query]'s message under [id], sent to the
    upstream ([query]). *)
Definition one_query (build_query : Z -> Question -> res rstr (list Z)) (parse_response : list Z -> res rstr Answer) (query : list Z -> res UpstreamError (list Z)) (id : Z) (q : Question) : res UpstreamError Answer :=
  match build_query id q with
  | Err e => Err (BadResponse e)
  | Ok wire =>
      do? bytes <- query wire;
      match parse_response bytes with
      | Err e => Err (BadResponse e)
      | Ok answer => if a_id answer =? id then Ok answer else Err (BadResponse (lit "id mismatch: sent " ++ show_u32 id ++ lit ", got " ++ show_u32 (a_id answer)))
      end
  end.

Record Answers := mkAnswers { r_v4 : list (Z * Z); r_v6 : list (Z * Z); r_upstream : rstr; r_partial : bool; aaaa_timed_out : bool }.

Inductive FanoutError := EmptyAnswer | NoAnswer | AllFailed (failures : list (rstr * rstr)).

Record Loop := mkLoop { tracks : list Track; flight : list (nat * Qtype); rounds : Rounds; partial : bool }.

Section Resolve.
Context (upstreams : list rstr) (name : rstr) (want_v6 : bool) (opts : FanoutOpts) (start : Z).

Definition new_track (q : Qtype) : Track := mkTrack (mkQuestion name q) Pending ∅ [].

Definition begin_loop : Loop := mkLoop (map new_track (List.filter (fun q => bool_decide (q = A) || want_v6) [A; Aaaa])) [] (begin_rounds start) false.

(** The queries of a round: of every upstream, the families still undecided. *)
Definition asked (l : Loop) : list (nat * Qtype) := flat_map (fun u => map (fun t => (u, qtype (question t))) (List.filter (fun t => negb (decided t)) (tracks l))) (seq 0 (length upstreams)).

Definition send_round (l : Loop) (t : Turn (res UpstreamError Answer)) : Loop :=
  if sends_now opts start (rounds l) t then mkLoop (tracks l) (flight l ++ asked l) (after_send opts start (rounds l)) (partial l) else l.

(** [tracks.iter_mut().find(..)] and [apply]. *)
Fixpoint apply_first (q : Qtype) (upstream : rstr) (result : res UpstreamError Answer) (ts : list Track) : list Track :=
  match ts with
  | [] => []
  | t :: ts => if bool_decide (qtype (question t) = q) then apply t upstream result (length upstreams) :: ts else t :: apply_first q upstream result ts
  end.

Definition is_valid_state (t : Track) : bool := match state t with Valid _ _ => true | _ => false end.

Definition turn (l : Loop) (t : Turn (res UpstreamError Answer)) : option (Next Loop Loop) :=
  let l := send_round l t in
  if forallb decided (tracks l) then Some (Ends l)
  else match event t with
  | Joined k result =>
      '(u, q) ← flight l !! k;
      upstream ← upstreams !! u;
      let flight := delete k (flight l) in
      Some (Again (mkLoop (match result with Some result => apply_first q upstream result (tracks l) | None => tracks l end) flight (rounds l) (partial l)))
  | Slept =>
      if time_is_up opts start (rounds l) t then Some (Ends l)
      else if existsb is_valid_state (tracks l) && existsb (fun t => negb (decided t)) (tracks l) then Some (Ends (mkLoop (tracks l) (flight l) (rounds l) true))
      else Some (Again l)
  end.

(** The turns until the loop ends; it has not when they are over. *)
Fixpoint run (l : Loop) (ts : list (Turn (res UpstreamError Answer))) : option (Next Loop Loop) :=
  match ts with
  | [] => Some (Again l)
  | t :: ts => match turn l t with Some (Again l) => run l ts | other => other end
  end.

(** The loop over the tracks after it: the answers so far, whether one was valid,
    whether one was empty, and the failures. *)
Definition gather (acc : Answers * bool * bool * list (rstr * rstr)) (t : Track) : Answers * bool * bool * list (rstr * rstr) :=
  let '(a, any_valid, any_empty, failed) := acc in
  let q := qtype (question t) in
  match state t with
  | Valid answer upstream =>
      let up := if bool_decide (r_upstream a = []) || bool_decide (q = A) then upstream else r_upstream a in
      (match q with A => mkAnswers (v4 answer) (r_v6 a) up (r_partial a) (aaaa_timed_out a) | Aaaa => mkAnswers (r_v4 a) (v6 answer) up (r_partial a) (aaaa_timed_out a) end, true, any_empty, failed)
  | Empty => (a, any_valid, true, failed)
  | Pending => (mkAnswers (r_v4 a) (r_v6 a) (r_upstream a) true (bool_decide (q = Aaaa) || aaaa_timed_out a), any_valid, any_empty, failed ++ failures t)
  end.

Definition failure_le (a b : rstr * rstr) : Prop := (a.1 <> b.1 /\ name_le a.1 b.1) \/ (a.1 = b.1 /\ name_le a.2 b.2).

#[export] Instance failure_le_dec : RelDecision failure_le.
Proof. intros a b. unfold failure_le. apply _. Defined.

(** [Vec::dedup]. *)
Fixpoint dedup (l : list (rstr * rstr)) : list (rstr * rstr) :=
  match l with
  | x :: rest => match rest with y :: _ => if bool_decide (x = y) then dedup rest else x :: dedup rest | [] => [x] end
  | [] => []
  end.

Definition answers_of (l : Loop) : res FanoutError Answers :=
  let '(a, any_valid, any_empty, failed) := fold_left gather (map settle_empty (tracks l)) (mkAnswers [] [] [] (partial l) false, false, false, []) in
  if any_valid then Ok a
  else if any_empty then Err EmptyAnswer
  else match failed with [] => Err NoAnswer | _ => Err (AllFailed (dedup (merge_sort failure_le failed))) end.

Definition resolve_name (ts : list (Turn (res UpstreamError Answer))) : option (Next Loop (res FanoutError Answers)) :=
  match upstreams with
  | [] => Some (Ends (Err (AllFailed [])))
  | _ => match run begin_loop ts with Some (Ends l) => Some (Ends (answers_of l)) | Some (Again l) => Some (Again l) | None => None end
  end.
End Resolve.

(** ** [forward_raw] *)

(** The ids drawn, until one is free; [None] when none was. *)
Fixpoint fresh_id (used : list Z) (draws : list Z) : option (Z * list Z) :=
  match draws with
  | [] => None
  | id :: draws => if bool_decide (id ∈ used) then fresh_id used draws else Some (id, used ++ [id])
  end.

Definition is_reply_to (reply : list Z) (id : Z) (asked : rstr * Z * Z) : bool :=
  wire_is_response reply && bool_decide (wire_id reply = Some id) && bool_decide (wire_question reply = Some asked).

Inductive ForwardError := NotAQuery | NoUpstream | TimedOut.

(** Under way: the upstream a send went to, and its id. *)
Record Forward := mkForward { used : list Z; replied : list bool; kept : option (list Z); f_flight : list (nat * Z); f_rounds : Rounds }.

Section ForwardRaw.
Context (rcode_of : Z -> Rcode) (upstreams : nat) (client_id : Z) (the_question : rstr * Z * Z) (opts : FanoutOpts) (start : Z).

(** [wire_rcode]; [rcode_of] is hickory's [ResponseCode::from_low]. *)
Definition wire_rcode (bytes : list Z) : option Rcode := if 12 <=? zlen bytes then r ← get bytes 3; Some (rcode_of r) else None.

Definition begin_forward : Forward := mkForward [client_id] (replicate upstreams false) None [] (begin_rounds start).

(** The sends of a round from upstream [u] on, with what is drawn for each. *)
Fixpoint send_from (us : list nat) (draws : list (list Z)) (used : list Z) (replied : list bool) : option (list Z * list (nat * Z)) :=
  match us with
  | [] => Some (used, [])
  | u :: us =>
      done ← replied !! u;
      if (done : bool) then send_from us draws used replied
      else
        match draws with
        | [] => None
        | d :: draws => '(id, used) ← fresh_id used d; '(used, sent) ← send_from us draws used replied; Some (used, (u, id) :: sent)
        end
  end.

Definition forward_sends {R} (f : Forward) (t : Turn R) (draws : list (list Z)) : option Forward :=
  if sends_now opts start (f_rounds f) t then '(used, sent) ← send_from (seq 0 upstreams) draws (used f) (replied f); Some (mkForward used (replied f) (kept f) (f_flight f ++ sent) (after_send opts start (f_rounds f)))
  else Some f.

(** [kept.ok_or_else(..)]. *)
Definition kept_or_timed_out (kept : option (list Z)) : res ForwardError (list Z) := match kept with Some reply => Ok reply | None => Err TimedOut end.

Definition forward_turn (f : Forward) (td : Turn (res UpstreamError (list Z)) * list (list Z)) : option (Next Forward (res ForwardError (list Z))) :=
  let '(t, draws) := td in
  f ← forward_sends f t draws;
  match event t with
  | Joined k result =>
      '(u, id) ← f_flight f !! k;
      let f := mkForward (used f) (replied f) (kept f) (delete k (f_flight f)) (f_rounds f) in
      match result with
      | Some (Ok reply) =>
          if is_reply_to reply id the_question then
            let reply := set_wire_id reply client_id in
            if bool_decide (wire_rcode reply = Some NoError) || bool_decide (wire_rcode reply = Some NxDomain) then Some (Ends (Ok reply))
            else
              let replied := <[u := true]> (replied f) in
              let kept := match kept f with None => Some reply | kept => kept end in
              if forallb (fun done : bool => done) replied then Some (Ends (kept_or_timed_out kept))
              else Some (Again (mkForward (used f) replied kept (f_flight f) (f_rounds f)))
          else Some (Again f)
      | _ => Some (Again f)
      end
  | Slept => if time_is_up opts start (f_rounds f) t then Some (Ends (kept_or_timed_out (kept f))) else Some (Again f)
  end.

Fixpoint forward_run (f : Forward) (ts : list (Turn (res UpstreamError (list Z)) * list (list Z))) : option (Next Forward (res ForwardError (list Z))) :=
  match ts with
  | [] => Some (Again f)
  | t :: ts => match forward_turn f t with Some (Again f) => forward_run f ts | other => other end
  end.
End ForwardRaw.

Definition forward_raw (rcode_of : Z -> Rcode) (upstreams : nat) (wire : list Z) (opts : FanoutOpts) (start : Z) (ts : list (Turn (res UpstreamError (list Z)) * list (list Z))) : option (Next Forward (res ForwardError (list Z))) :=
  match wire_id wire, wire_question wire with
  | Some client_id, Some asked =>
      if (upstreams =? 0)%nat then Some (Ends (Err NoUpstream))
      else forward_run rcode_of upstreams client_id asked opts start (begin_forward upstreams client_id start) ts
  | _, _ => Some (Ends (Err NotAQuery))
  end.

(** What goes out under [id]. *)
Definition sent_wire (wire : list Z) (id : Z) : list Z := set_wire_id wire id.
