(* ===== verification/DnsFanoutProps.v ===== *)
(** * What a fan-out tells

    The loops of [DnsFanout.v] end; what [resolve_name] makes of the outcomes, in
    the order they came, is what a search through all of them finds; and
    [forward_raw] gives the first good reply to one of its own sends, under the
    query's id. *)

From S2P Require Import Prelude DnsCache Bytes DnsWire DnsFanout.

(** ** The clockwork *)

Section Clock.
Context (opts : FanoutOpts) (start : Z) {R : Type}.
Implicit Types (c : Rounds) (t : Turn R).

(** The clock does not go back, and [sleep_until] does not wake early. *)
Fixpoint timely (clock : Z) (c : Rounds) (ts : list (Turn R)) : Prop :=
  match ts with
  | [] => True
  | t :: ts =>
      clock <= at_top t /\ at_top t <= at_top' t /\ at_top' t <= at_end t
      /\ (event t = Slept -> tick opts start (next_rounds opts start c t) <= at_end t)
      /\ timely (at_end t) (next_rounds opts start c t) ts
  end.

(** What is left to do: queries under way, rounds of [width] queries and the
    sleeps between. *)
Definition left_to_do (width flying : nat) (c : Rounds) (clock : Z) : Z :=
  Z.of_nat flying + (most opts - round c) * (Z.of_nat width + 2) + (if (round c <? most opts) && (clock <? next_send c) then 1 else 0).

Lemma left_nonneg width flying c clock : round c <= most opts -> 0 <= left_to_do width flying c clock.
Proof. intros Hc. unfold left_to_do. assert (0 <= (most opts - round c) * (Z.of_nat width + 2)) by nia. case_match; lia. Qed.

Lemma next_rounds_bound c t : round c <= most opts -> round (next_rounds opts start c t) <= most opts.
Proof. intros Hc. unfold next_rounds, sends_now. case_match eqn:Hs; [|done]. cbn. apply andb_true_iff in Hs as [Hs _]. apply andb_true_iff in Hs as [Hs _]. apply Z.ltb_lt in Hs. lia. Qed.

Lemma left_sends width flying more c clock t : (more <= width)%nat -> round c <= most opts -> sends_now opts start c t = true ->
  left_to_do width (flying + more) (next_rounds opts start c t) (at_end t) < left_to_do width flying c clock.
Proof.
  intros Hm Hc Hs. unfold left_to_do, next_rounds. rewrite Hs. cbn [round after_send].
  assert (H1 : forall b : bool, 0 <= (if b then 1 else 0) <= 1) by (intros []; lia).
  pose proof (H1 ((round c + 1 <? most opts) && (at_end t <? next_send (after_send opts start c)))). pose proof (H1 ((round c <? most opts) && (clock <? next_send c))). nia.
Qed.

Lemma left_joined width flying c clock t : clock <= at_end t -> round c <= most opts -> sends_now opts start c t = false ->
  left_to_do width flying (next_rounds opts start c t) (at_end t) <= left_to_do width flying c clock.
Proof.
  intros Hck Hc Hs. unfold left_to_do, next_rounds. rewrite Hs. destruct (round c <? most opts); cbn [andb]; [|lia]. destruct (Z.ltb_spec (at_end t) (next_send c)), (Z.ltb_spec clock (next_send c)); lia.
Qed.

Lemma left_slept width flying c clock t : clock <= at_top t -> at_top t <= at_top' t -> at_top' t <= at_end t -> sends_now opts start c t = false ->
  tick opts start (next_rounds opts start c t) <= at_end t -> time_is_up opts start (next_rounds opts start c t) t = false ->
  left_to_do width flying (next_rounds opts start c t) (at_end t) < left_to_do width flying c clock.
Proof.
  intros H1 H2 H3 Hs Ht Hu. unfold next_rounds in *. rewrite Hs in *. unfold time_is_up in Hu. apply orb_false_iff in Hu as [Hr Hd]. apply Z.leb_gt in Hr, Hd. unfold tick in Ht. rewrite (proj2 (Z.ltb_lt _ _) Hr) in Ht.
  unfold sends_now in Hs. rewrite (proj2 (Z.ltb_lt _ _) Hr) in Hs. cbn [andb] in Hs. unfold left_to_do. rewrite (proj2 (Z.ltb_lt _ _) Hr). cbn [andb].
  destruct (Z.leb_spec (next_send c) (at_top t)) as [Hle|Hgt]; cbn [andb] in Hs; [apply Z.ltb_ge in Hs; lia|]. rewrite (proj2 (Z.ltb_ge (at_end t) _)) by lia. rewrite (proj2 (Z.ltb_lt clock _)) by lia. lia.
Qed.
End Clock.

(** ** [resolve_name] ends *)

Section Resolve.
Context (upstreams : list rstr) (name : rstr) (want_v6 : bool) (opts : FanoutOpts) (start : Z).
Hypothesis Hsome : upstreams <> [].

Abbreviation total := (length upstreams).
Abbreviation turns := (list (Turn (res UpstreamError Answer))).
Abbreviation turn_ := (turn upstreams opts start).
Abbreviation run_ := (run upstreams opts start).
Abbreviation first_loop := (begin_loop name want_v6 start).

Lemma asked_length l : (length (asked upstreams l) <= total * length (tracks l))%nat.
Proof.
  unfold asked. set (f := fun u => _). assert (Hf : forall u, (length (f u) <= length (tracks l))%nat) by (intros u; unfold f; rewrite length_map; apply List.filter_length_le).
  rewrite <- (length_seq total 0) at 2. induction (seq 0 total) as [|u us IH]; [done|]. cbn. rewrite length_app. specialize (Hf u). lia.
Qed.

Lemma apply_first_questions q u r ts : question <$> apply_first upstreams q u r ts = question <$> ts.
Proof.
  induction ts as [|t ts IH]; [done|]. cbn. case_bool_decide; rewrite !fmap_cons; [|by rewrite IH]. f_equal. unfold apply. repeat case_match; done.
Qed.

Lemma apply_first_length q u r ts : length (apply_first upstreams q u r ts) = length ts.
Proof. rewrite <- (length_fmap question), apply_first_questions. apply length_fmap. Qed.

Lemma send_round_keeps l t : tracks (send_round upstreams opts start l t) = tracks l /\ partial (send_round upstreams opts start l t) = partial l /\ rounds (send_round upstreams opts start l t) = next_rounds opts start (rounds l) t.
Proof. unfold send_round, next_rounds. by destruct (sends_now _ _ _ _). Qed.

(** What a turn that goes on does. *)
Lemma turn_again l t l' : turn_ l t = Some (Again l') ->
  rounds l' = next_rounds opts start (rounds l) t /\ partial l' = partial l /\ forallb decided (tracks l) = false
  /\ ((exists k r u q up, event t = Joined k r /\ flight (send_round upstreams opts start l t) !! k = Some (u, q) /\ upstreams !! u = Some up
        /\ flight l' = delete k (flight (send_round upstreams opts start l t)) /\ tracks l' = match r with Some r => apply_first upstreams q up r (tracks l) | None => tracks l end)
      \/ (event t = Slept /\ flight l' = flight (send_round upstreams opts start l t) /\ tracks l' = tracks l /\ time_is_up opts start (rounds l') t = false)).
Proof.
  unfold turn. destruct (send_round_keeps l t) as (Ht & Hp & Hr). rewrite Ht, Hr, Hp. destruct (forallb decided (tracks l)) eqn:Hd; [done|]. destruct (event t) as [k r|].
  - destruct (flight _ !! k) as [[u q]|] eqn:Hk; [|done]. cbn [mbind option_bind]. destruct (upstreams !! u) as [up|] eqn:Hu; [|done]. cbn [mbind option_bind]. intros [= <-]. cbn. split; [done|]. split; [done|]. split; [done|]. left. exists k, r, u, q, up. split; [done|]. split; [done|]. split; [done|]. by split.
  - destruct (time_is_up opts start (next_rounds opts start (rounds l) t) t) eqn:Hup; [done|]. case_match; [done|]. intros [= <-]. split; [done|]. split; [done|]. split; [done|]. right. split; [done|]. split; [done|]. split; [done|]. by rewrite Hr.
Qed.

Lemma turn_left clock l t l' : (length (tracks l) <= 2)%nat -> round (rounds l) <= most opts -> clock <= at_top t -> at_top t <= at_top' t -> at_top' t <= at_end t -> (event t = Slept -> tick opts start (next_rounds opts start (rounds l) t) <= at_end t) ->
  turn_ l t = Some (Again l') -> left_to_do opts (total * 2) (length (flight l')) (rounds l') (at_end t) < left_to_do opts (total * 2) (length (flight l)) (rounds l) clock.
Proof.
  intros Hl Hr H1 H2 H3 Hs Ht. destruct (turn_again _ _ _ Ht) as (Hrounds & _ & _ & Hcase). rewrite Hrounds.
  assert (Hfl : length (flight (send_round upstreams opts start l t)) = (length (flight l) + if sends_now opts start (rounds l) t then length (asked upstreams l) else 0)%nat) by (unfold send_round; destruct (sends_now _ _ _ _); cbn; [by rewrite length_app|lia]).
  pose proof (asked_length l) as Ha. destruct (sends_now opts start (rounds l) t) eqn:Hsend.
  - assert (Hlt := left_sends opts start (total * 2) (length (flight l)) (length (asked upstreams l)) (rounds l) clock t ltac:(nia) Hr Hsend). destruct Hcase as [(k & r & u & q & up & _ & Hk & _ & Hf & _)|(_ & Hf & _)]; rewrite Hf; [|by rewrite Hfl].
    eapply Z.le_lt_trans; [|exact Hlt]. unfold left_to_do. rewrite length_delete by (by eexists). rewrite Hfl. lia.
  - destruct Hcase as [(k & r & u & q & up & _ & Hk & _ & Hf & _)|(He & Hf & _ & Hup)]; rewrite Hf.
    + assert (Hle := left_joined opts start (total * 2) (length (flight l)) (rounds l) clock t ltac:(lia) Hr Hsend). eapply Z.lt_le_trans; [|exact Hle]. unfold left_to_do. pose proof (lookup_lt_Some _ _ _ Hk). rewrite length_delete by (by eexists). rewrite Hfl in *. lia.
    + rewrite Hfl, Nat.add_0_r. rewrite Hrounds in Hup. apply left_slept; auto.
Qed.

Lemma run_ends ts : forall clock l, (length (tracks l) <= 2)%nat -> round (rounds l) <= most opts -> timely opts start clock (rounds l) ts -> left_to_do opts (total * 2) (length (flight l)) (rounds l) clock < Z.of_nat (length ts) ->
  forall l', run_ l ts <> Some (Again l').
Proof.
  induction ts as [|t ts IH]; intros clock l Hl Hr Ht Hlong l'; [pose proof (left_nonneg opts (total * 2) (length (flight l)) (rounds l) clock Hr); cbn in Hlong; lia|]. destruct Ht as (H1 & H2 & H3 & Hs & Hts). cbn [run]. destruct (turn_ l t) as [[l1|l1]|] eqn:Hturn; [|done|done].
  destruct (turn_again _ _ _ Hturn) as (Hrounds & _ & _ & Hcase). apply (IH (at_end t)).
  - destruct Hcase as [(k & r & u & q & up & _ & _ & _ & _ & ->)|(_ & _ & -> & _)]; [|done]. destruct r; [by rewrite apply_first_length|done].
  - rewrite Hrounds. by apply next_rounds_bound.
  - by rewrite Hrounds.
  - pose proof (turn_left clock l t l1 Hl Hr H1 H2 H3 Hs Hturn). cbn [length] in Hlong. lia.
Qed.

(** ** What was heard *)

Abbreviation Heard := (list (rstr * Qtype * res UpstreamError Answer)).

(** The outcomes that reached the tracks, in order. *)
Fixpoint heard (l : Loop) (ts : turns) : Heard :=
  match ts with
  | [] => []
  | t :: ts =>
      match turn_ l t with
      | Some (Again l') =>
          match event t with
          | Joined k (Some r) => match flight (send_round upstreams opts start l t) !! k with Some (u, q) => match upstreams !! u with Some up => [(up, q, r)] | None => [] end | None => [] end
          | _ => []
          end ++ heard l' ts
      | _ => []
      end
  end.

Definition outcomes_of (q : Qtype) (h : Heard) : list (rstr * res UpstreamError Answer) := omap (fun '(u, q', r) => if decide (q' = q) then Some (u, r) else None) h.

Definition replay (t : Track) (h : list (rstr * res UpstreamError Answer)) : Track := fold_left (fun t x => apply t x.1 x.2 total) h t.

Lemma replay_question h : forall t, question (replay t h) = question t.
Proof. induction h as [|[u r] h IH]; intros t; [done|]. change (replay t ((u, r) :: h)) with (replay (apply t u r total) h). rewrite IH. unfold apply. repeat case_match; done. Qed.

Definition track_types (ts : list Track) : list Qtype := (fun t => qtype (question t)) <$> ts.

Lemma apply_first_replay q u r ts : NoDup (track_types ts) -> apply_first upstreams q u r ts = (fun t => replay t (outcomes_of (qtype (question t)) [(u, q, r)])) <$> ts.
Proof.
  unfold track_types. induction ts as [|t ts IH]; intros Hn; [done|]. rewrite fmap_cons in Hn. apply NoDup_cons in Hn as [Hnot Hn]. cbn [apply_first]. rewrite fmap_cons. case_bool_decide as Hq.
  - f_equal; [cbn; by rewrite decide_True by done|]. rewrite <- (list_fmap_id ts) at 1. apply list_fmap_ext. intros i t' Hi. cbn. rewrite decide_False; [done|]. intros He. apply Hnot. apply list_elem_of_fmap. exists t'. split; [congruence|by eapply list_elem_of_lookup_2].
  - f_equal; [cbn; by rewrite decide_False by congruence|by apply IH].
Qed.

Lemma outcomes_app q h1 h2 : outcomes_of q (h1 ++ h2) = outcomes_of q h1 ++ outcomes_of q h2.
Proof. apply omap_app. Qed.

Lemma replay_app t h1 h2 : replay t (h1 ++ h2) = replay (replay t h1) h2.
Proof. apply fold_left_app. Qed.

(** The end of the loop, told from what was heard. *)
Lemma run_replays ts : forall l l', NoDup (track_types (tracks l)) -> run_ l ts = Some (Ends l') ->
  tracks l' = (fun t => replay t (outcomes_of (qtype (question t)) (heard l ts))) <$> tracks l
  /\ (partial l' = true -> partial l = true \/ (existsb is_valid_state (tracks l') = true /\ existsb (fun t => negb (decided t)) (tracks l') = true)).
Proof.
  induction ts as [|t ts IH]; intros l l' Hn Hrun; cbn [run] in Hrun; [done|]. cbn [heard]. destruct (turn_ l t) as [[l1|l1]|] eqn:Ht; [|injection Hrun as ->|done].
  - destruct (turn_again _ _ _ Ht) as (_ & Hp & _ & Hcase). set (now := match event t with Joined _ (Some _) => _ | _ => _ end). assert (Hl1 : tracks l1 = (fun t => replay t (outcomes_of (qtype (question t)) now)) <$> tracks l).
    { destruct Hcase as [(k & r & u & q & up & He & Hk & Hu & _ & ->)|(He & _ & -> & _)]; subst now; rewrite He; [|by rewrite list_fmap_id]. destruct r as [r|]; [|by rewrite list_fmap_id]. rewrite Hk, Hu. by apply apply_first_replay. }
    assert (Hn1 : NoDup (track_types (tracks l1))). { unfold track_types in *. rewrite Hl1, <- list_fmap_compose. erewrite list_fmap_ext; [exact Hn|]. intros i x _. cbn. by rewrite replay_question. }
    destruct (IH l1 l' Hn1 Hrun) as [Htr Hpart]. split; [|by rewrite Hp in Hpart]. rewrite Htr, Hl1, <- list_fmap_compose. apply list_fmap_ext. intros i x _. cbn. rewrite replay_question, outcomes_app, replay_app. done.
  - rewrite list_fmap_id. unfold turn in Ht. destruct (send_round_keeps l t) as (Htr & Hp & _). rewrite Htr, Hp in Ht. destruct (forallb decided (tracks l)); [injection Ht as <-; split; [done|rewrite Hp; by left]|]. destruct (event t) as [k r|].
    + destruct (flight _ !! k) as [[u q]|]; [|done]. cbn in Ht. by destruct (upstreams !! u).
    + destruct (time_is_up _ _ _ _); [injection Ht as <-; split; [done|rewrite Hp; by left]|]. destruct (existsb is_valid_state (tracks l) && existsb (fun t => negb (decided t)) (tracks l)) eqn:Hv; [|done]. injection Ht as <-. split; [done|]. intros _. right. by apply andb_true_iff in Hv.
Qed.

(** ** The reference *)

Section Family.
Context (q : Qtype).

Abbreviation the_question := (mkQuestion name q).

Definition valid_in (x : rstr * res UpstreamError Answer) : bool := match x.2 with Ok a => is_valid_for a the_question | Err _ => false end.
Definition empty_in (x : rstr * res UpstreamError Answer) : bool := match x.2 with Ok a => is_empty_for a the_question | Err _ => false end.
Definition failure_in (x : rstr * res UpstreamError Answer) : option (rstr * rstr) :=
  match x.2 with
  | Ok a => if is_valid_for a the_question || is_empty_for a the_question then None else Some (x.1, lit "rcode " ++ show_rcode (rcode a))
  | Err Timeout => None
  | Err e => Some (x.1, show_error e)
  end.

(** The upstreams that said a family is empty. *)
Definition empty_ones (h : list (rstr * res UpstreamError Answer)) : gset rstr := list_to_set (fst <$> filter (fun x => empty_in x) h).
Definition all_empty (h : list (rstr * res UpstreamError Answer)) : bool := (total <=? size (empty_ones h))%nat.

(** The first valid answer, unless every upstream had said empty before it. *)
Definition found (h : list (rstr * res UpstreamError Answer)) : State :=
  match list_find (fun x => valid_in x) h with
  | Some (i, (u, Ok a)) => if all_empty (take i h) then Empty else Valid a u
  | _ => if all_empty h then Empty else Pending
  end.

Definition failures_in (h : list (rstr * res UpstreamError Answer)) : list (rstr * rstr) := omap failure_in h.

(** Empty too when some said so and the rest never answered. *)
Definition says (h : list (rstr * res UpstreamError Answer)) : State :=
  match found h with
  | Pending => if negb (bool_decide (empty_ones h = ∅)) && bool_decide (failures_in h = []) then Empty else Pending
  | s => s
  end.

Lemma valid_not_empty a : is_valid_for a the_question = true -> is_empty_for a the_question = false.
Proof. unfold is_valid_for, is_empty_for. intros [_ Hr]%andb_true_iff. by rewrite Hr, andb_false_r. Qed.

Lemma empty_ones_snoc h x : empty_ones (h ++ [x]) = if empty_in x then {[ x.1 ]} ∪ empty_ones h else empty_ones h.
Proof.
  unfold empty_ones. rewrite filter_app, fmap_app, list_to_set_app_L. destruct (empty_in x) eqn:Hx.
  - rewrite filter_cons_True by (by rewrite Hx). cbn. set_solver.
  - rewrite filter_cons_False by (rewrite Hx; by intros []). cbn. set_solver.
Qed.

Lemma all_empty_snoc h x : all_empty h = true -> all_empty (h ++ [x]) = true.
Proof.
  unfold all_empty. rewrite !Nat.leb_le. intros Ht. etransitivity; [exact Ht|]. apply subseteq_size. rewrite empty_ones_snoc. destruct (empty_in x); set_solver.
Qed.

Lemma found_snoc h x : found (h ++ [x]) = match found h with
  | Pending => match x.2 with Ok a => if valid_in x then Valid a x.1 else if all_empty (h ++ [x]) then Empty else Pending | Err _ => if all_empty (h ++ [x]) then Empty else Pending end
  | s => s
  end.
Proof.
  unfold found. destruct (list_find (fun x => valid_in x) h) as [[i [u r]]|] eqn:Hf.
  - rewrite (list_find_app_l _ h [x] i (u, r) Hf). apply list_find_Some in Hf as (Hi & Hv & _). assert (i < length h)%nat by (by eapply lookup_lt_Some). rewrite take_app_le by lia. destruct r as [a|e]; [|done]. destruct (all_empty (take i h)) eqn:Ha; done.
  - rewrite (list_find_app_r _ h [x] Hf). cbn [list_find]. destruct (all_empty h) eqn:Ha.
    + rewrite all_empty_snoc by done. destruct (decide (valid_in x)) as [Hv|Hv]; [|done]. cbn. destruct x as [u [a|e]]; [|done]. cbn. rewrite take_app_length. by rewrite Ha.
    + destruct x as [u [a|e]]; [|by destruct (decide (valid_in (u, Err e)))]. cbn [snd fst]. destruct (decide (valid_in (u, Ok a))) as [Hv|Hv].
      * cbn. rewrite take_app_length, Ha. change (is_valid_for a the_question) with (valid_in (u, Ok a)). by destruct (valid_in (u, Ok a)).
      * cbn. change (is_valid_for a the_question) with (valid_in (u, Ok a)). by destruct (valid_in (u, Ok a)).
Qed.

Lemma total_pos : (0 < total)%nat.
Proof using Hsome. destruct upstreams; [done|cbn; lia]. Qed.

Lemma replay_found h : let t := replay (new_track name q) h in state t = found h /\ (found h = Pending -> empties t = empty_ones h /\ failures t = failures_in h).
Proof using Hsome.
  induction h as [|x h [IHs IHp]] using rev_ind.
  - cbn. unfold found, all_empty, empty_ones. cbn. rewrite size_empty. rewrite (proj2 (Nat.leb_gt _ _)) by apply total_pos. done.
  - cbn zeta. rewrite replay_app. set (t := replay (new_track name q) h) in *. change (replay t [x]) with (apply t x.1 x.2 total). rewrite found_snoc. assert (Hq : question t = the_question) by apply replay_question. unfold apply, decided. rewrite IHs. destruct (found h) eqn:Hf; [|done|done].
    destruct (IHp eq_refl) as [He Hl]. rewrite Hq. destruct x as [u [a|e]]; cbn [fst snd].
    + change (is_valid_for a the_question) with (valid_in (u, Ok a)). destruct (valid_in (u, Ok a)) eqn:Hv; [done|]. unfold all_empty, failures_in. rewrite empty_ones_snoc, omap_app. change (empty_in (u, Ok a)) with (is_empty_for a the_question). destruct (is_empty_for a the_question) eqn:Hm.
      * cbn [state empties failures fst]. rewrite He. destruct (total <=? _)%nat; [done|]. split; [done|]. intros _. split; [done|]. rewrite Hl. cbn. unfold failure_in. cbn. change (is_valid_for a the_question) with (valid_in (u, Ok a)). rewrite Hv, Hm. cbn. by rewrite app_nil_r.
      * cbn [state empties failures fst]. assert (Ha : all_empty h = false). { unfold found in Hf. destruct (all_empty h); [|done]. destruct (list_find _ h) as [[i [u' [a'|e']]]|]; try done. by destruct (all_empty (take i h)). }
        unfold all_empty in Ha. rewrite Ha. split; [done|]. intros _. split; [done|]. rewrite Hl. f_equal. cbn. unfold failure_in. cbn. change (is_valid_for a the_question) with (valid_in (u, Ok a)). by rewrite Hv, Hm.
    + assert (Hsame : all_empty (h ++ [(u, Err e)]) = false). { unfold all_empty. rewrite empty_ones_snoc. cbn. unfold found in Hf. fold (all_empty h). destruct (all_empty h); [|done]. destruct (list_find _ h) as [[i [u' [a'|e']]]|]; try done. by destruct (all_empty (take i h)). }
      rewrite Hsame, empty_ones_snoc. unfold failures_in. rewrite omap_app. cbn [empty_in snd]. destruct e; cbn; (split; [done|]); intros _; rewrite ?app_nil_r; rewrite ?Hl, ?He; done.
Qed.

Lemma settled_says h : let t := settle_empty (replay (new_track name q) h) in state t = says h /\ question t = the_question /\ (says h = Pending -> failures t = failures_in h).
Proof using Hsome.
  cbn zeta. destruct (replay_found h) as [Hs Hp]. assert (Hq : question (replay (new_track name q) h) = the_question) by apply replay_question. unfold settle_empty, says, decided. rewrite Hs. destruct (found h) eqn:Hf; cbn [negb andb]; [|done|done].
  destruct (Hp eq_refl) as [He Hl]. rewrite He, Hl. destruct (negb _ && _) eqn:Hc; [done|]. by rewrite Hs.
Qed.
End Family.

(** The reference: what the outcomes say family by family. *)
Definition the_answer (early : bool) (h : Heard) : res FanoutError Answers :=
  let a := says A (outcomes_of A h) in
  let b := if want_v6 then says Aaaa (outcomes_of Aaaa h) else Empty in
  let pending s := match s with Pending => true | _ => false end in
  let partial := early || pending a || pending b in
  match a, b with
  | Valid x u, Valid y u' => Ok (mkAnswers (v4 x) (v6 y) (if bool_decide (u = []) then u' else u) partial (pending b))
  | Valid x u, _ => Ok (mkAnswers (v4 x) [] u partial (pending b))
  | _, Valid y u' => Ok (mkAnswers [] (v6 y) u' partial (pending b))
  | _, _ =>
      if (negb (pending a)) || (want_v6 && negb (pending b)) then Err EmptyAnswer
      else match failures_in A (outcomes_of A h) ++ (if want_v6 then failures_in Aaaa (outcomes_of Aaaa h) else []) with [] => Err NoAnswer | failed => Err (AllFailed (dedup (merge_sort failure_le failed))) end
  end.

Lemma answers_said l h : tracks l = (fun t => replay t (outcomes_of (qtype (question t)) h)) <$> tracks first_loop -> answers_of l = the_answer (partial l) h.
Proof using Hsome.
  intros Ht. unfold answers_of, the_answer. rewrite Ht. unfold begin_loop. destruct (settled_says A (outcomes_of A h)) as (Ha & Hqa & Hfa). destruct (settled_says Aaaa (outcomes_of Aaaa h)) as (Hb & Hqb & Hfb).
  assert (Htypes : forall w, List.filter (fun q => bool_decide (q = A) || w) [A; Aaaa] = if (w : bool) then [A; Aaaa] else [A]) by (by intros []). rewrite Htypes. destruct want_v6.
  - cbn [map fmap list_fmap tracks new_track question qtype fold_left]. unfold gather at 2. rewrite Ha, Hqa. unfold gather. rewrite Hb, Hqb. cbn [qtype]. destruct (says A _) as [|x u|] eqn:Hsa, (says Aaaa _) as [|y u'|] eqn:Hsb; cbn -[merge_sort]; rewrite ?Hfa, ?Hfb, ?orb_true_r, ?orb_false_r by done; try done.
    by destruct (failures_in A _ ++ failures_in Aaaa _).
  - cbn [map fmap list_fmap tracks new_track question qtype fold_left]. unfold gather. rewrite Ha, Hqa. cbn [qtype]. destruct (says A _) as [|x u|] eqn:Hsa; cbn -[merge_sort]; rewrite ?Hfa, ?app_nil_r, ?orb_true_r, ?orb_false_r by done; try done. by destruct (failures_in A _).
Qed.

(** When the rounds went out. *)
Fixpoint send_times (l : Loop) (ts : turns) : list Z :=
  match ts with
  | [] => []
  | t :: ts => (if sends_now opts start (rounds l) t then [at_top t] else []) ++ match turn_ l t with Some (Again l') => send_times l' ts | _ => [] end
  end.

Lemma send_times_spaced ts : forall l, 0 <= round (rounds l) <= most opts -> next_send (rounds l) = start + resend opts * round (rounds l) ->
  Z.of_nat (length (send_times l ts)) <= most opts - round (rounds l) /\ forall i x, send_times l ts !! i = Some x -> start + resend opts * (round (rounds l) + Z.of_nat i) <= x.
Proof.
  induction ts as [|t ts IH]; intros l Hr Hn; cbn [send_times]; [split; [cbn; lia|done]|]. assert (Hafter : forall l', turn_ l t = Some (Again l') -> rounds l' = next_rounds opts start (rounds l) t) by (intros l' Ht; by destruct (turn_again _ _ _ Ht)).
  destruct (sends_now opts start (rounds l) t) eqn:Hs; cbn [app].
  - pose proof Hs as Hs'. unfold sends_now in Hs'. apply andb_true_iff in Hs' as [[Hlt%Z.ltb_lt Hle%Z.leb_le]%andb_true_iff _]. assert (Hrest : let more := match turn_ l t with Some (Again l') => send_times l' ts | _ => [] end in Z.of_nat (length more) <= most opts - (round (rounds l) + 1) /\ forall i x, more !! i = Some x -> start + resend opts * (round (rounds l) + 1 + Z.of_nat i) <= x).
    { destruct (turn_ l t) as [[l'|]|] eqn:Ht; [|split; [cbn; lia|done]..]. specialize (Hafter l' eq_refl). unfold next_rounds in Hafter. rewrite Hs in Hafter. destruct (IH l') as [Hl Hx]; [rewrite Hafter; cbn [round after_send]; lia|by rewrite Hafter|]. rewrite Hafter in Hl, Hx. done. }
    destruct Hrest as [Hl Hx]. split; [cbn [length]; lia|]. intros [|i] x Hi; cbn in Hi; [injection Hi as <-; lia|]. specialize (Hx i x Hi). lia.
  - destruct (turn_ l t) as [[l'|]|] eqn:Ht; [|split; [cbn; lia|done]..]. specialize (Hafter l' eq_refl). unfold next_rounds in Hafter. rewrite Hs in Hafter. destruct (IH l') as [Hl Hx]; [by rewrite Hafter..|]. rewrite Hafter in Hl, Hx. done.
Qed.

Lemma begin_types : NoDup (track_types (tracks first_loop)) /\ (length (tracks first_loop) <= 2)%nat.
Proof. split; [destruct want_v6; apply (bool_decide_unpack _); by vm_compute|]. unfold begin_loop. cbn [tracks]. rewrite length_map. apply List.filter_length_le. Qed.

Lemma early_is_an_answer l h : tracks l = (fun t => replay t (outcomes_of (qtype (question t)) h)) <$> tracks first_loop -> existsb is_valid_state (tracks l) = true -> exists a, answers_of l = Ok a.
Proof using Hsome.
  intros Ht Hv. assert (Hg : forall ts acc, existsb is_valid_state ts = true \/ acc.1.1.2 = true -> (fold_left gather (map settle_empty ts) acc).1.1.2 = true).
  { clear. induction ts as [|t ts IH]; intros acc Hv; cbn; [by destruct Hv|]. apply IH. destruct acc as [[[a v] e] f]. cbn in *. unfold settle_empty, decided. destruct (state t) eqn:Hs; cbn.
    - destruct (_ && _); cbn; rewrite ?Hs; cbn; destruct Hv as [Hv| ->]; auto; unfold is_valid_state in Hv; rewrite Hs in Hv; cbn in Hv; auto.
    - rewrite Hs. cbn. destruct (qtype (question t)); cbn; auto.
    - rewrite Hs. cbn. destruct Hv as [Hv| ->]; auto. unfold is_valid_state in Hv. rewrite Hs in Hv. auto. }
  unfold answers_of. specialize (Hg (tracks l) (mkAnswers [] [] [] (partial l) false, false, false, []) (or_introl Hv)). destruct (fold_left gather _ _) as [[[a v] e] f]. cbn in Hg. rewrite Hg. by exists a.
Qed.
End Resolve.

(** C37: whatever the upstreams do, a resolution ends: with at most [attempts]
    rounds, the n-th no earlier than n times [resend] after the start, and no more
    turns than queries and sleeps there are.  What it tells is what a search through
    all that was heard finds: a family's answer is the first valid one, unless
    every upstream had said empty before; a family is empty when every upstream said
    so, or some did and nothing else was heard; and failures are told only when
    nothing else is known. *)
Theorem resolving_tells_what_was_heard upstreams name want_v6 opts start ts r :
  timely opts start start (begin_rounds start) ts -> resolve_name upstreams name want_v6 opts start ts = Some r ->
  (most opts * (Z.of_nat (length upstreams * 2) + 2) < Z.of_nat (length ts) -> exists x, r = Ends x)
  /\ (forall x, r = Ends x -> match upstreams with [] => x = Err (AllFailed []) | _ => exists early, x = the_answer upstreams name want_v6 early (heard upstreams opts start (begin_loop name want_v6 start) ts) /\ (early = true -> exists a, x = Ok a) end)
  /\ (let sent := send_times upstreams opts start (begin_loop name want_v6 start) ts in Z.of_nat (length sent) <= most opts /\ forall i x, sent !! i = Some x -> start + resend opts * Z.of_nat i <= x).
Proof.
  intros Ht Hr. split; [|split].
  - intros Hlong. destruct r as [l|x]; [|by exists x]. exfalso. unfold resolve_name in Hr. destruct upstreams as [|u us] eqn:Hu; [done|]. rewrite <- Hu in *. assert (Hne : upstreams <> []) by (by rewrite Hu). destruct (run upstreams opts start (begin_loop name want_v6 start) ts) as [[l'|l']|] eqn:Hrun; [|done|done].
    destruct (begin_types name want_v6 start) as [_ H2]. refine (run_ends upstreams opts start ts start _ H2 _ Ht _ l' Hrun); cbn [rounds begin_loop begin_rounds round flight length]; [unfold most; lia|]. unfold left_to_do. cbn [round next_send begin_rounds]. rewrite Z.ltb_irrefl, andb_false_r. cbn. lia.
  - intros x ->. unfold resolve_name in Hr. destruct upstreams as [|u us] eqn:Hu; [by injection Hr as <-|]. rewrite <- Hu in *. assert (Hne : upstreams <> []) by (by rewrite Hu). destruct (run upstreams opts start (begin_loop name want_v6 start) ts) as [[l'|l']|] eqn:Hrun; [done| |done]. injection Hr as <-.
    destruct (run_replays upstreams opts start ts _ _ (proj1 (begin_types name want_v6 start)) Hrun) as [Htr Hp]. exists (partial l'). split; [eapply answers_said; [done|exact Htr]|]. intros Hearly. destruct (Hp Hearly) as [|[Hv _]]; [done|]. eapply early_is_an_answer; [done|exact Htr|done].
  - cbn zeta. destruct (send_times_spaced upstreams opts start ts (begin_loop name want_v6 start)) as [Hl Hx]; cbn [rounds begin_loop begin_rounds round next_send] in *; [unfold most; lia|lia|]. split; [lia|]. intros i x Hi. specialize (Hx i x Hi). lia.
Qed.

(** ** [forward_raw]: messages with another id *)

Lemma set_wire_id_is bytes v : 2 <= zlen bytes -> exists a b rest, bytes = a :: b :: rest /\ set_wire_id bytes v = be16 v ++ rest.
Proof. intros Hl. destruct bytes as [|a [|b rest]]; [by cbn in Hl..|]. by exists a, b, rest. Qed.

Lemma get_past a b c d (rest : list Z) i : 2 <= i -> get (a :: b :: rest) i = get (c :: d :: rest) i.
Proof. intros Hi. rewrite !get_lookup by lia. replace (Z.to_nat i) with (S (S (Z.to_nat (i - 2)))) by lia. done. Qed.

Lemma get_range_past a b c d (rest : list Z) i j : 2 <= i -> get_range (a :: b :: rest) i j = get_range (c :: d :: rest) i j.
Proof. intros Hi. apply get_range_ext; [by rewrite !zlen_cons|]. intros k Hk. rewrite <- !get_lookup by lia. apply get_past. lia. Qed.

Lemma first_name_past a b c d rest fuel : forall at_ n, 2 <= at_ -> first_name fuel (a :: b :: rest) at_ n = first_name fuel (c :: d :: rest) at_ n.
Proof.
  induction fuel as [|fuel IH]; intros at_ n Hat; [done|]. cbn [first_name]. rewrite (get_past a b c d) by lia. destruct (get (c :: d :: rest) at_) as [len|]; [|done]. cbn [mbind option_bind]. destruct (Z.eqb_spec len 0); [done|]. destruct (Z.leb_spec len 63); [|done].
  rewrite (get_range_past a b c d) by lia. destruct (get_range (c :: d :: rest) (at_ + 1) (at_ + 1 + len)) as [label|] eqn:Hr; [|done]. cbn [mbind option_bind]. destruct (MAX_NAME <=? _); [done|]. apply IH. apply get_range_inv in Hr. lia.
Qed.

Lemma first_name_end fuel bytes : forall at_ n r, 0 <= at_ -> first_name fuel bytes at_ n = Some r -> at_ <= r.2.
Proof.
  induction fuel as [|fuel IH]; intros at_ n r Hat Hr; [done|]. cbn [first_name] in Hr. apply bind_Some in Hr as (len & Hg & Hr). destruct (Z.eqb_spec len 0); [injection Hr as <-; cbn; lia|]. destruct (Z.leb_spec len 63); [|done]. apply bind_Some in Hr as (label & Hl & Hr). destruct (MAX_NAME <=? _); [done|]. apply get_range_inv in Hl as (? & ? & _). apply IH in Hr; lia.
Qed.

Lemma question_past a b c d rest : wire_question (a :: b :: rest) = wire_question (c :: d :: rest).
Proof.
  unfold wire_question, first_question, wire_u16. rewrite (get_range_past a b c d) by lia. change (length (a :: b :: rest)) with (length (c :: d :: rest)). rewrite (first_name_past a b c d) by lia.
  destruct (get_range (c :: d :: rest) 4 (4 + 2)) as [n|]; [|done]. cbn [mbind option_bind]. destruct (match n with [x; y] => Some (of_be16 x y) | _ => None end) as [count|]; [|done]. cbn [mbind option_bind]. destruct (count =? 0); [done|].
  destruct (first_name _ (c :: d :: rest) 12 []) as [[name at_]|] eqn:Hf; [|done]. cbn [mbind option_bind]. apply first_name_end in Hf; [|lia]. cbn in Hf. rewrite !(get_range_past a b c d) by lia. done.
Qed.

Lemma reply_with_id raw v : wire_is_response raw = true -> 0 <= v <= u16_max -> wire_is_response (set_wire_id raw v) = true /\ wire_id (set_wire_id raw v) = Some v /\ wire_question (set_wire_id raw v) = wire_question raw.
Proof.
  intros Hr Hv. pose proof Hr as Hr'. unfold wire_is_response in Hr'. apply andb_true_iff in Hr' as [Hl%Z.leb_le Hq]. destruct (set_wire_id_is raw v ltac:(lia)) as (a & b & rest & -> & ->). unfold be16. cbn [app]. rewrite !zlen_cons in Hl. split; [|split].
  - unfold wire_is_response. rewrite !zlen_cons. rewrite (proj2 (Z.leb_le _ _)) by lia. cbn [andb]. by rewrite (get_past _ _ a b) by lia.
  - unfold wire_id. rewrite !zlen_cons, (proj2 (Z.leb_le _ _)) by lia. by rewrite of_be16_be.
  - apply question_past.
Qed.

(** ** [forward_raw]: the loop *)

Lemma fresh_id_spec used draws id used' : fresh_id used draws = Some (id, used') -> (id ∉ used) /\ (id ∈ draws) /\ used' = used ++ [id].
Proof.
  induction draws as [|d draws IH]; [done|]. cbn. case_bool_decide as Hd; [intros Hf; destruct (IH Hf) as (? & ? & ?); split; [done|]; split; [by right|done]|]. intros [= <- <-]. split; [done|]. split; [by left|done].
Qed.

Definition waits (replied : list bool) (u : nat) : bool := match replied !! u with Some done => negb done | None => false end.

(** A round goes to those that have not replied, each send under an id of its
    own. *)
Lemma send_from_spec us : forall draws used replied used' sent, send_from us draws used replied = Some (used', sent) ->
  used' = used ++ (snd <$> sent) /\ (NoDup used -> NoDup used') /\ fst <$> sent = filter (fun u => waits replied u = true) us.
Proof.
  induction us as [|u us IH]; intros draws used replied used' sent Hs; cbn [send_from] in Hs; [injection Hs as <- <-; by rewrite app_nil_r|]. apply bind_Some in Hs as (done & Hu & Hs). destruct done.
  - rewrite filter_cons_False by (unfold waits; by rewrite Hu). by eapply IH.
  - destruct draws as [|d draws]; [done|]. destruct (fresh_id used d) as [[id used1]|] eqn:Hf; [|done]. cbn [mbind option_bind] in Hs. destruct (send_from us draws used1 replied) as [[used2 sent1]|] eqn:Hr; [|done]. cbn in Hs. injection Hs as <- <-.
    destruct (fresh_id_spec _ _ _ _ Hf) as (Hnew & _ & ->). destruct (IH _ _ _ _ _ Hr) as (-> & Hn & Hfst). rewrite filter_cons_True by (unfold waits; by rewrite Hu). cbn. rewrite <- app_assoc. split; [done|]. split; [|by rewrite Hfst]. intros Hu'. rewrite <- app_assoc in Hn. apply Hn. apply NoDup_app. split; [done|]. split; [|apply NoDup_singleton]. by intros x Hx ->%list_elem_of_singleton.
Qed.

Section ForwardLoop.
Context (rcode_of : Z -> Rcode) (upstreams : nat) (client_id : Z) (asked : rstr * Z * Z) (opts : FanoutOpts) (start : Z).

Abbreviation inputs := (list (Turn (res UpstreamError (list Z)) * list (list Z))).
Abbreviation forward_turn' := (forward_turn rcode_of upstreams client_id asked opts start).
Abbreviation forward_run' := (forward_run rcode_of upstreams client_id asked opts start).
Abbreviation sends' := (forward_sends upstreams opts start).

Lemma forward_sends_spec {R} f (t : Turn R) draws f1 : sends' f t draws = Some f1 ->
  exists sent, used f1 = used f ++ (snd <$> sent) /\ (NoDup (used f) -> NoDup (used f1)) /\ f_flight f1 = f_flight f ++ sent /\ replied f1 = replied f /\ kept f1 = kept f /\ f_rounds f1 = next_rounds opts start (f_rounds f) t
    /\ fst <$> sent = if sends_now opts start (f_rounds f) t then filter (fun u => waits (replied f) u = true) (seq 0 upstreams) else [].
Proof.
  unfold forward_sends, next_rounds. destruct (sends_now opts start (f_rounds f) t).
  - destruct (send_from _ draws (used f) (replied f)) as [[used' sent]|] eqn:Hs; [|done]. cbn. intros [= <-]. destruct (send_from_spec _ _ _ _ _ _ Hs) as (Hu & Hn & Hf). exists sent. cbn. by rewrite Hu in *.
  - intros [= <-]. exists []. cbn. by rewrite !app_nil_r.
Qed.

(** The sends of a turn. *)
Definition sent_now (f : Forward) (td : Turn (res UpstreamError (list Z)) * list (list Z)) : list (nat * Z) := match sends' f td.1 td.2 with Some f1 => drop (length (f_flight f)) (f_flight f1) | None => [] end.

(** The reply a turn accepts, with the query's id. *)
Definition accepted_now (f : Forward) (td : Turn (res UpstreamError (list Z)) * list (list Z)) : option (list Z) :=
  f1 ← sends' f td.1 td.2;
  match event td.1 with
  | Joined k (Some (Ok reply)) => '(_, id) ← f_flight f1 !! k; if is_reply_to reply id asked then Some (set_wire_id reply client_id) else None
  | _ => None
  end.

Fixpoint all_sends (f : Forward) (ts : inputs) : list (nat * Z) :=
  match ts with [] => [] | td :: ts => sent_now f td ++ match forward_turn' f td with Some (Again f') => all_sends f' ts | _ => [] end end.

Fixpoint accepted (f : Forward) (ts : inputs) : list (list Z) :=
  match ts with [] => [] | td :: ts => match accepted_now f td with Some r => [r] | None => [] end ++ match forward_turn' f td with Some (Again f') => accepted f' ts | _ => [] end end.

Definition good (reply : list Z) : bool := bool_decide (wire_rcode rcode_of reply = Some NoError) || bool_decide (wire_rcode rcode_of reply = Some NxDomain).

(** The reference: the first reply that is a name's or that there is none, or else
    the first there was. *)
Definition first_good (replies : list (list Z)) : res ForwardError (list Z) :=
  match list_find (fun r => good r) replies with Some (_, r) => Ok r | None => match head replies with Some r => Ok r | None => Err TimedOut end end.

(** What a turn does, by what it accepts. *)
Lemma forward_turn_cases f td n : forward_turn' f td = Some n ->
  exists f1, sends' f td.1 td.2 = Some f1
  /\ match accepted_now f td, n with
     | Some r, Ends x => if good r then x = Ok r else x = kept_or_timed_out (match kept f with None => Some r | k => k end)
     | Some r, Again f' => good r = false /\ kept f' = match kept f with None => Some r | k => k end
     | None, Ends x => x = kept_or_timed_out (kept f)
     | None, Again f' => kept f' = kept f
     end
  /\ match n with
     | Again f' => used f' = used f1 /\ f_rounds f' = f_rounds f1 /\ length (replied f') = length (replied f1)
         /\ match event td.1 with Joined k _ => (k < length (f_flight f1))%nat /\ f_flight f' = delete k (f_flight f1) | Slept => f_flight f' = f_flight f1 /\ time_is_up opts start (f_rounds f1) td.1 = false end
     | _ => True
     end.
Proof.
  destruct td as [t draws]. unfold forward_turn, accepted_now. cbn [fst snd]. destruct (sends' f t draws) as [f1|] eqn:Hs; [|done]. cbn [mbind option_bind]. destruct (forward_sends_spec _ _ _ _ Hs) as (sent & _ & _ & _ & Hrep & Hk & _ & _). rewrite Hk. intros Hn. exists f1. split; [done|]. destruct (event t) as [k r|] eqn:He.
  - destruct (f_flight f1 !! k) as [[u id]|] eqn:Hf; [|done]. apply lookup_lt_Some in Hf. cbn [mbind option_bind f_flight kept replied used f_rounds] in *. destruct r as [[reply|e]|].
    + destruct (is_reply_to reply id asked) eqn:Hr; [|by injection Hn as <-]. unfold good. destruct (bool_decide (wire_rcode rcode_of (set_wire_id reply client_id) = Some NoError) || bool_decide (wire_rcode rcode_of (set_wire_id reply client_id) = Some NxDomain)) eqn:Hgood; [by injection Hn as <-|]. destruct (forallb _ _); injection Hn as <-; [done|]. cbn. split; [done|]. split; [done|]. split; [done|]. by rewrite length_insert.
    + by injection Hn as <-.
    + by injection Hn as <-.
  - destruct (time_is_up opts start (f_rounds f1) t) eqn:Hup; injection Hn as <-; rewrite ?Hk; done.
Qed.

Lemma forward_ends_well ts : forall f x, forward_run' f ts = Some (Ends x) ->
  x = match list_find (fun r => good r) (accepted f ts) with Some (_, r) => Ok r | None => kept_or_timed_out (match kept f with None => head (accepted f ts) | k => k end) end.
Proof.
  induction ts as [|td ts IH]; intros f x Hrun; cbn [forward_run] in Hrun; [done|]. cbn [accepted]. destruct (forward_turn' f td) as [[f'|y]|] eqn:Ht; [| |done].
  - destruct (forward_turn_cases _ _ _ Ht) as (f1 & _ & Hc & _). rewrite (IH _ _ Hrun). destruct (accepted_now f td) as [r|]; cbn [app].
    + destruct Hc as [Hg ->]. cbn [list_find]. rewrite decide_False by (rewrite Hg; by intros []). destruct (list_find _ (accepted f' ts)) as [[i r']|]; cbn; [done|]. by destruct (kept f).
    + by rewrite Hc.
  - injection Hrun as <-. destruct (forward_turn_cases _ _ _ Ht) as (f1 & _ & Hc & _). destruct (accepted_now f td) as [r|]; cbn [app list_find head].
    + destruct (good r) eqn:Hg; [by rewrite decide_True by done|by rewrite decide_False by (by intros [])].
    + cbn. rewrite Hc. by destruct (kept f).
Qed.

Lemma sent_now_spec f td f1 : sends' f td.1 td.2 = Some f1 -> f_flight f1 = f_flight f ++ sent_now f td /\ used f1 = used f ++ (snd <$> sent_now f td) /\ (NoDup (used f) -> NoDup (used f1)) /\ (length (sent_now f td) <= if sends_now opts start (f_rounds f) td.1 then upstreams else 0)%nat.
Proof.
  intros Hs. destruct (forward_sends_spec _ _ _ _ Hs) as (sent & Hu & Hn & Hf & _ & _ & _ & Hfst). unfold sent_now. rewrite Hs, Hf, drop_app_length. split; [done|]. split; [done|]. split; [done|]. rewrite <- (length_fmap fst), Hfst. destruct (sends_now _ _ _ _); [|done].
  rewrite <- (length_seq upstreams 0) at 2. apply length_filter.
Qed.

(** No id is used twice, and none is the query's. *)
Lemma ids_are_new ts : forall f, NoDup (used f) -> NoDup (used f ++ (snd <$> all_sends f ts)).
Proof.
  induction ts as [|td ts IH]; intros f Hn; cbn [all_sends]; [by rewrite app_nil_r|]. destruct (forward_turn' f td) as [[f'|y]|] eqn:Ht.
  - destruct (forward_turn_cases _ _ _ Ht) as (f1 & Hs & _ & (Hu & _)). destruct (sent_now_spec _ _ _ Hs) as (_ & Hu1 & Hn1 & _). rewrite fmap_app, app_assoc, <- Hu1, <- Hu. apply IH. rewrite Hu. by apply Hn1.
  - destruct (forward_turn_cases _ _ _ Ht) as (f1 & Hs & _). destruct (sent_now_spec _ _ _ Hs) as (_ & Hu1 & Hn1 & _). rewrite app_nil_r, <- Hu1. by apply Hn1.
  - rewrite app_nil_r. destruct (sends' f td.1 td.2) as [f1|] eqn:Hs; [|unfold sent_now; rewrite Hs; by rewrite app_nil_r]. destruct (sent_now_spec _ _ _ Hs) as (_ & Hu1 & Hn1 & _). rewrite <- Hu1. by apply Hn1.
Qed.

(** Every reply accepted answers a send. *)
Lemma accepted_answers ts : forall f r, r ∈ accepted f ts -> exists u id raw, ((u, id) ∈ f_flight f \/ (u, id) ∈ all_sends f ts) /\ is_reply_to raw id asked = true /\ r = set_wire_id raw client_id.
Proof.
  induction ts as [|td ts IH]; intros f r Hr; cbn [accepted all_sends] in *; [by apply not_elem_of_nil in Hr|]. apply elem_of_app in Hr as [Hr|Hr].
  - unfold accepted_now in Hr. destruct (sends' f td.1 td.2) as [f1|] eqn:Hs; [|by apply not_elem_of_nil in Hr]. destruct (sent_now_spec _ _ _ Hs) as (Hf & _). cbn in Hr. destruct (event td.1) as [k [[raw|e]|]|]; try by apply not_elem_of_nil in Hr. destruct (f_flight f1 !! k) as [[u id]|] eqn:Hk; [|by apply not_elem_of_nil in Hr]. cbn in Hr. destruct (is_reply_to raw id asked) eqn:Hi; [|by apply not_elem_of_nil in Hr].
    apply list_elem_of_singleton in Hr as ->. exists u, id, raw. split; [|done]. apply list_elem_of_lookup_2 in Hk. rewrite Hf in Hk. apply elem_of_app in Hk as [?|?]; [by left|right]. apply elem_of_app. by left.
  - destruct (forward_turn' f td) as [[f'|y]|] eqn:Ht; [|by apply not_elem_of_nil in Hr..]. destruct (IH f' r Hr) as (u & id & raw & Hin & Hi). exists u, id, raw. split; [|done]. destruct Hin as [Hin|Hin]; [|right; apply elem_of_app; by right].
    destruct (forward_turn_cases _ _ _ Ht) as (f1 & Hs & _ & (_ & _ & _ & He)). destruct (sent_now_spec _ _ _ Hs) as (Hf & _). assert (Hin1 : (u, id) ∈ f_flight f1). { destruct (event td.1) as [k r'|]; [destruct He as [_ He]|destruct He as [He _]]; rewrite He in Hin; [|done]. eapply elem_of_sublist; [exact Hin|]. apply sublist_delete. }
    rewrite Hf in Hin1. apply elem_of_app in Hin1 as [?|?]; [by left|right; apply elem_of_app; by left].
Qed.

Lemma forward_ends ts : forall clock f, round (f_rounds f) <= most opts -> timely opts start clock (f_rounds f) ts.*1 -> left_to_do opts upstreams (length (f_flight f)) (f_rounds f) clock < Z.of_nat (length ts) ->
  forall f', forward_run' f ts <> Some (Again f').
Proof.
  induction ts as [|td ts IH]; intros clock f Hr Ht Hlong f'; [pose proof (left_nonneg opts upstreams (length (f_flight f)) (f_rounds f) clock Hr); cbn in Hlong; lia|]. rewrite fmap_cons in Ht. destruct Ht as (H1 & H2 & H3 & Hsl & Hts). cbn [forward_run]. destruct (forward_turn' f td) as [[f2|y]|] eqn:Hturn; [|done|done].
  destruct (forward_turn_cases _ _ _ Hturn) as (f1 & Hs & _ & (_ & Hro & _ & He)). destruct (sent_now_spec _ _ _ Hs) as (Hf & _ & _ & Hlen). destruct (forward_sends_spec _ _ _ _ Hs) as (_ & _ & _ & _ & _ & _ & Hro1 & _). rewrite Hro1 in Hro.
  apply (IH (at_end td.1)); rewrite ?Hro; [by apply next_rounds_bound|done|]. rewrite Hro1 in He. destruct (sends_now opts start (f_rounds f) td.1) eqn:Hsend.
  - pose proof (left_sends opts start upstreams (length (f_flight f)) (length (sent_now f td)) (f_rounds f) clock td.1 Hlen Hr Hsend) as Hlt. assert (length (f_flight f2) <= length (f_flight f) + length (sent_now f td))%nat. { rewrite <- length_app, <- Hf. destruct (event td.1) as [k r|]; [destruct He as [_ ->]; apply sublist_length, sublist_delete|by destruct He as [-> _]]. }
    unfold left_to_do in *. cbn [length] in Hlong. lia.
  - assert (Hnil : sent_now f td = []) by (destruct (sent_now f td); [done|cbn in Hlen; lia]). rewrite Hnil, app_nil_r in Hf. cbn [length] in Hlong. destruct (event td.1) as [k r|] eqn:Hev.
    + destruct He as [Hk ->]. pose proof (left_joined opts start upstreams (length (f_flight f)) (f_rounds f) clock td.1 ltac:(lia) Hr Hsend). rewrite length_delete by (by apply lookup_lt_is_Some_2). rewrite Hf in *. unfold left_to_do in *. lia.
    + destruct He as [-> Hup]. rewrite Hf. pose proof (left_slept opts start upstreams (length (f_flight f)) (f_rounds f) clock td.1 H1 H2 H3 Hsend (Hsl eq_refl) Hup). lia.
Qed.
End ForwardLoop.

(** C38: forwarding a query ends, with as many turns as there are sends and sleeps;
    no two of its sends, nor the query, have an id in common; and what comes back is
    the first reply that says a name or that there is none, or else the first reply
    there was, each a response to one of the sends with the query's question, under
    the query's id; nothing, when nobody replied. *)
Theorem forwarding_gives_the_first_good_reply rcode_of upstreams wire client_id asked opts start ts r :
  wire_id wire = Some client_id -> 0 <= client_id <= u16_max -> wire_question wire = Some asked -> upstreams <> 0%nat -> timely opts start start (begin_rounds start) ts.*1 -> forward_raw rcode_of upstreams wire opts start ts = Some r ->
  let f := begin_forward upstreams client_id start in
  let sent := all_sends rcode_of upstreams client_id asked opts start f ts in
  let replies := accepted rcode_of upstreams client_id asked opts start f ts in
  (most opts * (Z.of_nat upstreams + 2) < Z.of_nat (length ts) -> exists x, r = Ends x)
  /\ NoDup (client_id :: (snd <$> sent))
  /\ Forall (fun reply => wire_id reply = Some client_id /\ wire_question reply = wire_question wire /\ exists u id raw, (u, id) ∈ sent /\ is_reply_to raw id asked = true /\ reply = set_wire_id raw client_id) replies
  /\ forall x, r = Ends x -> x = first_good rcode_of replies.
Proof.
  intros Hid Hc Hq Hup Ht Hr f sent replies. unfold forward_raw in Hr. rewrite Hid, Hq, (proj2 (Nat.eqb_neq _ _) Hup) in Hr. fold f in Hr. split; [|split; [|split]].
  - intros Hlong. destruct r as [f'|x]; [|by exists x]. exfalso. refine (forward_ends rcode_of upstreams client_id asked opts start ts start f _ Ht _ f' Hr); cbn [f begin_forward f_rounds begin_rounds round f_flight length]; [unfold most; lia|]. unfold left_to_do. cbn [round next_send begin_rounds]. rewrite Z.ltb_irrefl, andb_false_r. cbn. lia.
  - apply (ids_are_new rcode_of upstreams client_id asked opts start ts f). apply NoDup_singleton.
  - apply Forall_forall. intros reply Hin. destruct (accepted_answers _ _ _ _ _ _ _ _ _ Hin) as (u & id & raw & Hs & Hi & ->). pose proof Hi as Hi'. unfold is_reply_to in Hi'. apply andb_true_iff in Hi' as [[Hresp _]%andb_true_iff Hwq%bool_decide_eq_true]. destruct (reply_with_id raw client_id Hresp Hc) as (_ & Hwid & Hwq'). split; [done|]. split; [by rewrite Hwq', Hwq, Hq|]. exists u, id, raw. split; [|done]. destruct Hs as [Hs|]; [|done]. by apply not_elem_of_nil in Hs.
  - intros x ->. rewrite (forward_ends_well rcode_of upstreams client_id asked opts start ts f x Hr). unfold first_good. fold replies. destruct (list_find _ replies) as [[i y]|]; [done|]. cbn. by destruct (head replies).
Qed.

(** ** Examples *)

(** Two upstreams, both families: the second answers for IPv4, the first says that
    there is no IPv6, and the next round's time comes. *)
Definition example_a : Answer := mkAnswer 1 NoError false (Some (mkQuestion (lit "a.test") A)) [(16909060, 60)] [].
Definition example_aaaa : Answer := mkAnswer 2 NxDomain false None [] [].
Definition example_turns : list (Turn (res UpstreamError Answer)) :=
  [mkTurn 0 0 (Joined 2 (Some (Ok example_a))) 3; mkTurn 3 3 (Joined 1 (Some (Ok example_aaaa))) 4; mkTurn 4 4 Slept 10].

Lemma resolving_tells_what_was_heard_witness : exists early, Ok (mkAnswers [(16909060, 60)] [] (lit "u2") true false) = the_answer [lit "u1"; lit "u2"] (lit "a.test") true early (heard [lit "u1"; lit "u2"] (mkOpts 10 2) 0 (begin_loop (lit "a.test") true 0) example_turns).
Proof.
  destruct (resolving_tells_what_was_heard [lit "u1"; lit "u2"] (lit "a.test") true (mkOpts 10 2) 0 example_turns (Ends (Ok (mkAnswers [(16909060, 60)] [] (lit "u2") true false)))) as (_ & Hx & _).
  - cbn. repeat split; try lia; done.
  - by vm_compute.
  - destruct (Hx _ eq_refl) as (early & He & _). exists early. exact He.
Defined.

(** A query for [a], sent to two upstreams; the first refuses, the second says that
    there is no such name. *)
Definition example_query : list Z := [18; 52; 1; 0; 0; 1; 0; 0; 0; 0; 0; 0; 1; 97; 0; 0; 1; 0; 1].
Definition example_reply (id rcode : Z) : list Z := [0; id; 129; rcode; 0; 1; 0; 0; 0; 0; 0; 0; 1; 97; 0; 0; 1; 0; 1].
Definition example_rcode (b : Z) : Rcode := let n := b mod 16 in if n =? 0 then NoError else if n =? 3 then NxDomain else if n =? 5 then Refused else Other n.
Definition example_inputs : list (Turn (res UpstreamError (list Z)) * list (list Z)) :=
  [(mkTurn 0 0 (Joined 0 (Some (Ok (example_reply 7 5)))) 1, [[7]; [7; 8]]); (mkTurn 1 1 (Joined 0 (Some (Ok (example_reply 8 3)))) 2, [])].

Lemma forwarding_gives_the_first_good_reply_witness : Ok (set_wire_id (example_reply 8 3) 4660) = first_good example_rcode (accepted example_rcode 2 4660 ([97], 1, 1) (mkOpts 10 2) 0 (begin_forward 2 4660 0) example_inputs).
Proof.
  destruct (forwarding_gives_the_first_good_reply example_rcode 2 example_query 4660 ([97], 1, 1) (mkOpts 10 2) 0 example_inputs (Ends (Ok (set_wire_id (example_reply 8 3) 4660)))) as (_ & _ & _ & Hx).
  - by vm_compute.
  - unfold u16_max. lia.
  - by vm_compute.
  - done.
  - cbn. repeat split; try lia; done.
  - by vm_compute.
  - by apply Hx.
Defined.
