(* ===== verification/SsAead.v ===== *)
(** * The encrypted stream of Shadowsocks

    [crates/rurge-proto/src/shadowsocks/]: the counting nonce of [cipher.rs], the
    headers of SS 2022 ([s2022.rs]) and the stream of [aead.rs], in both editions.
    The ciphers are crates: the class [Aead] is what [AeadCipher] makes of them, and
    the derivation of keys and the AES block are parameters.  The layer below
    answers from scripts, a call of [poll_read] or [poll_write] taking what it needs
    of them; the clock and the random bytes are inputs.  An operation answers [None]
    where the source panics; after an error a stream is not used again, and its
    state is not told. *)

From S2P Require Import Prelude H3Frame.

(** ** [cipher.rs] *)

Definition TAG : nat := 16.
Definition MAX_NONCE : nat := 24.

Inductive AeadKind := Aes128Gcm | Aes192Gcm | Aes256Gcm | ChaCha20Poly1305 | XChaCha20Poly1305.

Definition key_len (k : AeadKind) : nat := match k with Aes128Gcm => 16 | Aes192Gcm => 24 | _ => 32 end.
Definition nonce_len_of (k : AeadKind) : nat := match k with XChaCha20Poly1305 => 24 | _ => 12 end.

(** What sealing and opening promise. *)
Class Aead (C : Type) := {
  aead_new : AeadKind -> list Z -> C;
  seal_in_place : C -> list Z -> list Z -> list Z * list Z;
  open_in_place : C -> list Z -> list Z -> list Z -> option (list Z);
}.

Class AeadLaws (C : Type) `{Aead C} := {
  open_sealed : forall c nonce plain, open_in_place c nonce (seal_in_place c nonce plain).1 (seal_in_place c nonce plain).2 = Some plain;
  sealed_length : forall c nonce plain, length (seal_in_place c nonce plain).1 = length plain;
  tag_length : forall c nonce plain, length (seal_in_place c nonce plain).2 = TAG;
}.

Section Cipher.
Context {C : Type} {AE : Aead C}.

Record CountingAead := mkCounting { cipher : C; nonce : list Z; nonce_len : nat }.

Definition counting_new (kind : AeadKind) (key : list Z) : CountingAead := mkCounting (aead_new kind key) (replicate MAX_NONCE 0) (nonce_len_of kind).

(** The loop over the first [n] bytes. *)
Fixpoint advance_bytes (n : nat) (nonce : list Z) : list Z :=
  match n, nonce with
  | S n, byte :: rest => let byte := (byte + 1) mod 256 in if byte =? 0 then byte :: advance_bytes n rest else byte :: rest
  | _, _ => nonce
  end.

Definition advance (a : CountingAead) : CountingAead := mkCounting (cipher a) (advance_bytes (nonce_len a) (nonce a)) (nonce_len a).

(** What [seal] appends. *)
Definition seal (a : CountingAead) (plain : list Z) : list Z * CountingAead :=
  let '(data, tag) := seal_in_place (cipher a) (take (nonce_len a) (nonce a)) plain in (data ++ tag, advance a).

Definition open (a : CountingAead) (sealed : list Z) : option (list Z) * CountingAead :=
  if (length sealed <? TAG)%nat then (None, a)
  else let n := (length sealed - TAG)%nat in (open_in_place (cipher a) (take (nonce_len a) (nonce a)) (take n sealed) (drop n sealed), advance a).

(** [MasterKey]: the derivations are HKDF-SHA1 and BLAKE3. *)
Record MasterKey := mkMaster { kind : AeadKind; key : list Z; edition_2022_key : bool }.

Definition salt_len (k : MasterKey) : nat := key_len (kind k).

Section Session.
Context (session_subkey session_subkey_2022 : list Z -> list Z -> list Z).
Definition session (k : MasterKey) (salt : list Z) : CountingAead :=
  counting_new (kind k) (if edition_2022_key k then session_subkey_2022 (key k) salt else session_subkey (key k) salt).
End Session.

(** ** [s2022.rs] *)

Definition MAX_PAYLOAD_2022 : nat := Z.to_nat 65535.
Definition MAX_VARIABLE_HEADER : nat := Z.to_nat 65535.
Definition MAX_PADDING : Z := 900.
Definition TIME_WINDOW : Z := 30.
Definition CLIENT_STREAM : Z := 0.
Definition SERVER_STREAM : Z := 1.

(** Why a stream fails. *)
Inductive IoError := NoAnswer | WasReset | WasReset2022 | Undecryptable | CutShort | TooLong | NotOurs | ClockDiffers (skew : Z) | NoRandomness | WriteZero | Below (reset : bool).

(** [Identity]: AES on one block and the hashes of keys are parameters. *)
Section Identity.
Context (aes_encrypt_block : list Z -> list Z -> list Z) (identity_hash : list Z -> list Z) (identity_subkey : list Z -> list Z -> list Z).
Fixpoint identity_new (keys : list (list Z)) : list (list Z * list Z) :=
  match keys with a :: rest => match rest with b :: _ => (a, identity_hash b) :: identity_new rest | [] => [] end | [] => [] end.
Definition identity_headers (layers : list (list Z * list Z)) (salt : list Z) : list Z := flat_map (fun l => aes_encrypt_block (identity_subkey l.1 salt) l.2) layers.
Definition packet_headers (layers : list (list Z * list Z)) (separate : list Z) : list Z := flat_map (fun l => aes_encrypt_block l.1 (zip_with Z.lxor l.2 separate)) layers.
End Identity.

Definition u16_of (n : nat) : option Z := if Z.of_nat n <=? u16_max then Some (Z.of_nat n) else None.

Definition request_fixed (now : Z) (variable_len : nat) : option (list Z) := len ← u16_of variable_len; Some ([CLIENT_STREAM] ++ be_bytes 8 now ++ be16 len).

Definition request_variable (addr : list Z) (padding : nat) (payload : list Z) : option (list Z) := len ← u16_of padding; Some (addr ++ be16 len ++ replicate padding 0 ++ payload).

(** [random]: the two bytes drawn, big endian. *)
Definition padding_len (payload_len : nat) (random : option Z) : option nat := if (0 <? payload_len)%nat then Some 0%nat else r ← random; Some (Z.to_nat (r mod MAX_PADDING + 1)).

Definition response_fixed_len (salt_len : nat) : nat := (1 + 8 + salt_len + 2)%nat.

(** [u64::from_be_bytes]. *)
Definition of_be_bytes (l : list Z) : Z := fold_left (fun v b => v * 256 + b) l 0.

Definition check_response (plain request_salt : list Z) (now : Z) : option (res IoError nat) :=
  let salt_end := (9 + length request_salt)%nat in
  kind ← plain !! 0%nat;
  salt ← slice plain 9 (length request_salt);
  if negb (kind =? SERVER_STREAM) || negb (bool_decide (salt = request_salt)) then Some (Err NotOurs)
  else
    time ← slice plain 1 8;
    let skew := Z.abs (of_be_bytes time - now) in
    if TIME_WINDOW <? skew then Some (Err (ClockDiffers skew))
    else a ← plain !! salt_end; b ← plain !! S salt_end; Some (Ok (Z.to_nat (of_be16 a b))).

(** ** [aead.rs] *)

Definition MAX_PAYLOAD : nat := Z.to_nat 16383.

Definition seal_chunk (a : CountingAead) (payload : list Z) : option (list Z * CountingAead) :=
  len ← u16_of (length payload);
  let '(sealed_len, a) := seal a (be16 len) in
  let '(sealed, a) := seal a payload in
  Some (sealed_len ++ sealed, a).

(** A buffer of [want] bytes, of which [got] are filled. *)
Inductive Reading :=
| RSalt (got : list Z)
| RHead (got : list Z)
| RLen (got : list Z)
| RBody (want : nat) (got : list Z)
| RPayload (buf : list Z) (pos : nat)
| REof.

Record Request2022 := mkRequest2022 { identity : list Z; addr_len : nat }.

Record AeadStream := mkStream {
  skey : MasterKey; max_payload : nat; salt : list Z; salt_sent : bool; up : CountingAead; down : option CountingAead;
  out : list Z; out_pos : nat; accepted : nat; reading : Reading; edition_2022 : option Request2022 }.

(** [seal_first_2022]: what is appended, the cipher and the bytes taken. *)
Definition seal_first_2022 (a : CountingAead) (request : Request2022) (now : Z) (random : option Z) (data : list Z) : option (res IoError (list Z * CountingAead * nat)) :=
  let addr_len := Nat.min (addr_len request) (length data) in
  if (MAX_VARIABLE_HEADER <? addr_len + 2)%nat then None
  else
    let room := (MAX_VARIABLE_HEADER - addr_len - 2)%nat in
    let payload := take (Nat.min (length data) (addr_len + room) - addr_len) (drop addr_len data) in
    match padding_len (length payload) random with
    | None => Some (Err NoRandomness)
    | Some padding =>
        variable ← request_variable (take addr_len data) padding payload;
        fixed ← request_fixed now (length variable);
        let '(sealed_fixed, a) := seal a fixed in
        let '(sealed, a) := seal a variable in
        Some (Ok (identity request ++ sealed_fixed ++ sealed, a, (addr_len + length payload)%nat))
    end.

(** *** The layer below *)

(** What its [poll_read]s answer in turn; nothing more is the end. *)
Inductive ReadEvent := Wait | Bytes (l : list Z) | ReadFails (reset : bool).

(** What its [poll_write]s answer: how many bytes they take; nothing more is
    [Pending]. *)
Inductive WriteEvent := Hold | Takes (n : nat) | WriteFails (reset : bool).

Inductive Filled := FPending | FFull | FClosed | FFails (e : IoError).

(** [poll_fill]. *)
Fixpoint poll_fill (want : nat) (got : list Z) (script : list ReadEvent) : Filled * list Z * list ReadEvent :=
  if (want <=? length got)%nat then (FFull, got, script)
  else
    let closed script := (match got with [] => FClosed | _ => FFails CutShort end, got, script) in
    match script with
    | [] => closed []
    | Wait :: script => (FPending, got, script)
    | ReadFails reset :: script => (FFails (Below reset), got, script)
    | Bytes [] :: script => closed script
    | Bytes l :: script =>
        let space := (want - length got)%nat in
        if (length l <=? space)%nat then poll_fill want (got ++ l) script else (FFull, got ++ take space l, Bytes (drop space l) :: script)
    end.

Definition next_chunk : Reading := RLen [].

Definition set_reading (r : Reading) (s : AeadStream) : AeadStream := mkStream (skey s) (max_payload s) (salt s) (salt_sent s) (up s) (down s) (out s) (out_pos s) (accepted s) r (edition_2022 s).
Definition set_down (d : option CountingAead) (s : AeadStream) : AeadStream := mkStream (skey s) (max_payload s) (salt s) (salt_sent s) (up s) d (out s) (out_pos s) (accepted s) (reading s) (edition_2022 s).
Definition set_out (u : CountingAead) (sent : bool) (o : list Z) (pos n : nat) (s : AeadStream) : AeadStream := mkStream (skey s) (max_payload s) (salt s) sent u (down s) o pos n (reading s) (edition_2022 s).

Section Stream.
Context (session_subkey session_subkey_2022 : list Z -> list Z -> list Z).

Definition stream_new (key : MasterKey) (salt : list Z) (max_payload : nat) : AeadStream :=
  mkStream key max_payload salt false (session session_subkey session_subkey_2022 key salt) None [] 0 0 (RSalt []) None.

Definition stream_new_2022 (key : MasterKey) (the_salt : list Z) (request : Request2022) : AeadStream :=
  let s := stream_new key the_salt MAX_PAYLOAD_2022 in
  mkStream (skey s) (max_payload s) (salt s) (salt_sent s) (up s) (down s) (out s) (out_pos s) (accepted s) (reading s) (Some request).

(** One turn of the loop of [poll_read]: it goes on, or answers. *)
Inductive ReadTurn := Goes (s : AeadStream) (script : list ReadEvent) | Answers (p : Poll (res IoError (list Z))) (s : AeadStream) (script : list ReadEvent).

Definition waiting (s : AeadStream) (r : Reading) (script : list ReadEvent) : ReadTurn := Answers Pending (set_reading r s) script.
Definition fails (e : IoError) (s : AeadStream) (script : list ReadEvent) : ReadTurn := Answers (Ready (Err e)) s script.

Definition read_turn (room : nat) (now : Z) (s : AeadStream) (script : list ReadEvent) : option ReadTurn :=
  match reading s with
  | RSalt got =>
      let '(filled, got, script) := poll_fill (salt_len (skey s)) got script in
      match filled with
      | FPending => Some (waiting s (RSalt got) script)
      | FFails (Below reset) => Some (fails (if bool_decide (got = []) && reset then match edition_2022 s with Some _ => WasReset2022 | None => WasReset end else Below reset) s script)
      | FFails e => Some (fails e s script)
      | FClosed => Some (fails NoAnswer s script)
      | FFull =>
          if negb (bool_decide (is_Some (edition_2022 s))) && bool_decide (got = salt s) then Some (fails Undecryptable s script)
          else
            let s := set_down (Some (session session_subkey session_subkey_2022 (skey s) got)) s in
            Some (Goes (set_reading match edition_2022 s with Some _ => RHead [] | None => next_chunk end s) script)
      end
  | RHead got =>
      let '(filled, got, script) := poll_fill (response_fixed_len (length (salt s)) + TAG) got script in
      match filled with
      | FPending => Some (waiting s (RHead got) script)
      | FFails e => Some (fails e s script)
      | FClosed => Some (fails CutShort s script)
      | FFull =>
          d ← down s;
          let '(plain, d) := open d got in
          let s := set_down (Some d) s in
          match plain with
          | None => Some (fails Undecryptable s script)
          | Some plain =>
              _ ← edition_2022 s;
              len ← check_response plain (salt s) now;
              match len with Err e => Some (fails e s script) | Ok len => Some (Goes (set_reading (RBody (len + TAG) []) s) script) end
          end
      end
  | RLen got =>
      let '(filled, got, script) := poll_fill (2 + TAG) got script in
      match filled with
      | FPending => Some (waiting s (RLen got) script)
      | FFails e => Some (fails e s script)
      | FClosed => Some (Goes (set_reading REof s) script)
      | FFull =>
          d ← down s;
          let '(plain, d) := open d got in
          let s := set_down (Some d) s in
          match plain with
          | None => Some (fails Undecryptable s script)
          | Some plain =>
              match plain with
              | a :: b :: _ =>
                  let len := Z.to_nat (of_be16 a b) in
                  if (max_payload s <? len)%nat then Some (fails TooLong s script) else Some (Goes (set_reading (RBody (len + TAG) []) s) script)
              | _ => None
              end
          end
      end
  | RBody want got =>
      let '(filled, got, script) := poll_fill want got script in
      match filled with
      | FPending => Some (waiting s (RBody want got) script)
      | FFails e => Some (fails e s script)
      | FClosed => Some (fails CutShort s script)
      | FFull =>
          d ← down s;
          let '(plain, d) := open d got in
          let s := set_down (Some d) s in
          match plain with
          | None => Some (fails Undecryptable s script)
          | Some [] => Some (Goes (set_reading next_chunk s) script)
          | Some plain => Some (Goes (set_reading (RPayload plain 0) s) script)
          end
      end
  | RPayload buf pos =>
      let n := Nat.min room (length buf - pos) in
      let bytes := take n (drop pos buf) in
      let pos := (pos + n)%nat in
      Some (Answers (Ready (Ok bytes)) (set_reading (if (pos =? length buf)%nat then next_chunk else RPayload buf pos) s) script)
  | REof => Some (Answers (Ready (Ok [])) s script)
  end.

(** The bytes that are still to come from below. *)
Definition to_come (script : list ReadEvent) : nat := sum_list_with (fun e => match e with Bytes l => length l | _ => 0%nat end) script.

Definition held (r : Reading) : nat := match r with RSalt got | RHead got | RLen got | RBody _ got => length got | _ => 0%nat end.

Fixpoint read_loop (fuel room : nat) (now : Z) (s : AeadStream) (script : list ReadEvent) : option ReadTurn :=
  match fuel with
  | 0%nat => Some (Goes s script)
  | S fuel => match read_turn room now s script with Some (Goes s script) => read_loop fuel room now s script | other => other end
  end.

(** [poll_read] into [room] bytes; [Goes] would be a loop that does not end. *)
Definition poll_read (room : nat) (now : Z) (s : AeadStream) (script : list ReadEvent) : option ReadTurn := read_loop (3 + held (reading s) + to_come script) room now s script.

(** *** Writing *)

(** [poll_out]: the position, the script and what was handed below. *)
Fixpoint poll_out (o : list Z) (pos : nat) (script : list WriteEvent) : Poll (res IoError unit) * nat * list WriteEvent * list Z :=
  if (length o <=? pos)%nat then (Ready (Ok tt), pos, script, [])
  else match script with
  | [] => (Pending, pos, [], [])
  | Hold :: script => (Pending, pos, script, [])
  | WriteFails reset :: script => (Ready (Err (Below reset)), pos, script, [])
  | Takes n :: script =>
      let n := Nat.min n (length o - pos) in
      if (n =? 0)%nat then (Ready (Err WriteZero), pos, script, [])
      else let '(r, pos', script, wire) := poll_out o (pos + n) script in (r, pos', script, take n (drop pos o) ++ wire)
  end.

(** A call's answer, the stream after it, the script and what went below. *)
Definition WriteTurn (A : Type) : Type := Poll (res IoError A) * AeadStream * list WriteEvent * list Z.

Definition finish_out {A} (s : AeadStream) (script : list WriteEvent) (value : A) : WriteTurn A :=
  let '(r, pos, script, wire) := poll_out (out s) (out_pos s) script in
  (match r with Ready (Ok tt) => Ready (Ok value) | Ready (Err e) => Ready (Err e) | Pending => Pending end, set_out (up s) (salt_sent s) (out s) pos (accepted s) s, script, wire).

Definition poll_write (data : list Z) (now : Z) (random : option Z) (s : AeadStream) (script : list WriteEvent) : option (WriteTurn nat) :=
  match data with
  | [] => Some (Ready (Ok 0%nat), s, script, [])
  | _ =>
      if (out_pos s =? length (out s))%nat then
        let first := negb (salt_sent s) in
        let head := if first then salt s else [] in
        sealed ← match first, edition_2022 s with
          | true, Some request => seal_first_2022 (up s) request now random data
          | _, _ => let n := Nat.min (length data) (max_payload s) in '(chunk, a) ← seal_chunk (up s) (take n data); Some (Ok (chunk, a, n))
          end;
        match sealed with
        | Err e => Some (Ready (Err e), set_out (up s) (salt_sent s) [] 0 (accepted s) s, script, [])
        | Ok (chunk, a, n) => let s := set_out a true (head ++ chunk) 0 n s in Some (finish_out s script (Nat.min n (length data)))
        end
      else Some (finish_out s script (Nat.min (accepted s) (length data)))
  end.

(** [poll_flush] and [poll_shutdown] up to what they ask of the layer below. *)
Definition poll_parked (s : AeadStream) (script : list WriteEvent) : WriteTurn unit := finish_out s script tt.
End Stream.
End Cipher.
