(* ===== verification/SsAeadProps.v ===== *)
(** * Shadowsocks' stream carries what is written

    The nonces of a direction are the numbers from zero, so that none is used
    twice; what is written goes below as the salt and the chunks sealed in turn,
    however the layer below takes it; and what is read is what was sealed,
    however the layer below delivers it. *)

From S2P Require Import Prelude H3Frame H3FrameProps SsAead.

(** ** The counting nonce *)

(** A nonce as a number, its first byte the lowest. *)
Definition nonce_value (l : list Z) : Z := fold_right (fun b v => b + 256 * v) 0 l.

Lemma nonce_value_range l : bytes_ok l -> 0 <= nonce_value l < 256 ^ Z.of_nat (length l).
Proof. induction 1 as [|b l Hb _ IH]; cbn [nonce_value fold_right length]; [done|]. fold (nonce_value l). rewrite Nat2Z.inj_succ, Z.pow_succ_r by lia. unfold is_byte in Hb. lia. Qed.

Lemma advance_bytes_ok n l : bytes_ok l -> bytes_ok (advance_bytes n l).
Proof.
  intros Hl. revert n. induction Hl as [|b l Hb Hl IH]; intros [|n]; cbn [advance_bytes]; [constructor|constructor|by constructor|]. pose proof (Z.mod_pos_bound (b + 1) 256 ltac:(lia)).
  destruct ((b + 1) mod 256 =? 0); constructor; try done; [apply IH].
Qed.

Lemma advance_bytes_length n : forall l, length (advance_bytes n l) = length l.
Proof. induction n as [|n IH]; intros [|b l]; cbn [advance_bytes]; try done. case_match; cbn; [by rewrite IH|done]. Qed.

Lemma advance_value n : forall l, bytes_ok l -> (n <= length l)%nat -> nonce_value (take n (advance_bytes n l)) = (nonce_value (take n l) + 1) mod 256 ^ Z.of_nat n.
Proof.
  induction n as [|n IH]; intros l Hl Hn; [cbn; by rewrite Z.mod_1_r|]. destruct l as [|b l]; [cbn in Hn; lia|]. apply Forall_cons in Hl as [Hb Hl]. cbn [length] in Hn. unfold is_byte in Hb. cbn [advance_bytes]. rewrite Nat2Z.inj_succ, Z.pow_succ_r by lia.
  pose proof (nonce_value_range (take n l) ltac:(by apply Forall_take)) as Hr. rewrite length_take, Nat.min_l in Hr by lia. assert (0 < 256 ^ Z.of_nat n) by (apply Z.pow_pos_nonneg; lia).
  destruct (Z.eqb_spec ((b + 1) mod 256) 0) as [He|He]; cbn [take nonce_value fold_right]; fold (nonce_value (take n l)).
  - assert (b = 255) as -> by (destruct (Z.eq_dec b 255); [done|rewrite Z.mod_small in He by lia; lia]). fold (nonce_value (take n (advance_bytes n l))). rewrite IH by (done || lia). change ((255 + 1) mod 256) with 0.
    replace (255 + 256 * nonce_value (take n l) + 1) with (256 * (nonce_value (take n l) + 1)) by lia. rewrite Z.mul_mod_distr_l by lia. lia.
  - rewrite (Z.mod_small (b + 1)) by (destruct (Z.eq_dec b 255) as [->|]; [done|lia]). rewrite Z.mod_small; [lia|]. destruct (Z.eq_dec b 255) as [->|]; [done|lia].
Qed.

Section Stream.
Context {C : Type} {AE : Aead C} {AL : AeadLaws C}.

(** The cipher after [k] operations. *)
Definition after_ops (k : nat) (a : @CountingAead C) : @CountingAead C := Nat.iter k advance a.

Lemma after_ops_value kd key_ k : nonce_value (take (nonce_len_of kd) (nonce (after_ops k (counting_new kd key_)))) = Z.of_nat k mod 256 ^ Z.of_nat (nonce_len_of kd)
  /\ bytes_ok (nonce (after_ops k (counting_new kd key_))) /\ length (nonce (after_ops k (counting_new kd key_))) = MAX_NONCE /\ nonce_len (after_ops k (counting_new kd key_)) = nonce_len_of kd.
Proof using.
  induction k as [|k (IHv & IHb & IHl & IHn)].
  - assert (Hb : bytes_ok (replicate MAX_NONCE 0)) by (apply Forall_replicate; unfold is_byte; lia). split; [|split; [exact Hb|done]]. destruct kd; vm_compute; done.
  - change (after_ops (S k) (counting_new kd key_)) with (advance (after_ops k (counting_new kd key_))). set (a := after_ops k _) in *. unfold advance. cbn [nonce nonce_len]. rewrite IHn. split; [|split; [by apply advance_bytes_ok|split; [by rewrite advance_bytes_length|done]]].
    rewrite advance_value; [|done|rewrite IHl; unfold MAX_NONCE; destruct kd; cbn; lia]. rewrite IHv, Z.add_mod_idemp_l by (apply Z.pow_nonzero; lia). f_equal. lia.
Qed.

(** No nonce is used twice in a direction. *)
Lemma nonces_differ kd key_ i j : (i < j)%nat -> Z.of_nat j < 256 ^ Z.of_nat (nonce_len_of kd) ->
  take (nonce_len_of kd) (nonce (after_ops i (counting_new kd key_))) <> take (nonce_len_of kd) (nonce (after_ops j (counting_new kd key_))).
Proof using.
  intros Hij Hj He. apply (f_equal nonce_value) in He. rewrite (proj1 (after_ops_value kd key_ i)), (proj1 (after_ops_value kd key_ j)) in He. rewrite !Z.mod_small in He by lia. lia.
Qed.

(** ** Chunks *)

Lemma open_of_seal a plain : open a (seal a plain).1 = (Some plain, (seal a plain).2).
Proof using AL.
  unfold open, seal. destruct (seal_in_place (cipher a) (take (nonce_len a) (nonce a)) plain) as [data tag] eqn:Hs. cbn [fst snd]. pose proof (sealed_length (cipher a) (take (nonce_len a) (nonce a)) plain) as Hl. pose proof (tag_length (cipher a) (take (nonce_len a) (nonce a)) plain) as Ht. pose proof (open_sealed (cipher a) (take (nonce_len a) (nonce a)) plain) as Ho. rewrite Hs in Hl, Ht, Ho. cbn [fst snd] in *.
  rewrite length_app, Ht. rewrite (proj2 (Nat.ltb_ge _ _)) by lia. replace (length data + TAG - TAG)%nat with (length data) by lia. by rewrite take_app_length, drop_app_length, Ho.
Qed.

Lemma seal_length a plain : length (seal a plain).1 = (length plain + TAG)%nat.
Proof using AL.
  unfold seal. destruct (seal_in_place (cipher a) (take (nonce_len a) (nonce a)) plain) as [data tag] eqn:Hs. pose proof (sealed_length (cipher a) (take (nonce_len a) (nonce a)) plain) as Hl. pose proof (tag_length (cipher a) (take (nonce_len a) (nonce a)) plain) as Ht. rewrite Hs in Hl, Ht. cbn [fst snd] in *. rewrite length_app. lia.
Qed.

(** Payloads sealed in turn, and the cipher then. *)
Definition seal_payload (a : @CountingAead C) (p : list Z) : list Z * @CountingAead C := let '(l, a) := seal a (be16 (Z.of_nat (length p))) in let '(b, a) := seal a p in (l ++ b, a).

Fixpoint sealed (a : @CountingAead C) (ps : list (list Z)) : list Z := match ps with [] => [] | p :: ps => (seal_payload a p).1 ++ sealed (seal_payload a p).2 ps end.
Fixpoint after_chunks (a : @CountingAead C) (ps : list (list Z)) : @CountingAead C := match ps with [] => a | p :: ps => after_chunks (seal_payload a p).2 ps end.

Lemma sealed_app a ps qs : sealed a (ps ++ qs) = sealed a ps ++ sealed (after_chunks a ps) qs /\ after_chunks a (ps ++ qs) = after_chunks (after_chunks a ps) qs.
Proof using. revert a. induction ps as [|p ps IH]; intros a; [done|]. cbn [app sealed after_chunks]. destruct (IH (seal_payload a p).2) as [-> ->]. by rewrite app_assoc. Qed.

Lemma seal_chunk_is a p : (length p <= MAX_PAYLOAD_2022)%nat -> seal_chunk a p = Some (seal_payload a p).
Proof using.
  intros Hp. unfold seal_chunk, u16_of, u16_max. unfold MAX_PAYLOAD_2022 in Hp. rewrite (proj2 (Z.leb_le _ _)) by lia. cbn [mbind option_bind]. unfold seal_payload. destruct (seal a (be16 _)) as [l a1]. by destruct (seal a1 p).
Qed.

(** ** Reading *)

(** Bytes and waits, and no failure: nothing empty is taken for bytes. *)
Definition delivers (script : list ReadEvent) : Prop := Forall (fun e => match e with Wait => True | Bytes l => l <> [] | ReadFails _ => False end) script.
Definition flat (script : list ReadEvent) : list Z := flat_map (fun e => match e with Bytes l => l | _ => [] end) script.

Lemma to_come_flat script : to_come script = length (flat script).
Proof using. unfold to_come, flat. induction script as [|e script IH]; [done|]. cbn. rewrite length_app, IH. by destruct e. Qed.

(** What filling a buffer does. *)
Lemma poll_fill_spec script : forall want got, delivers script -> (length got <= want)%nat -> (0 < want)%nat ->
  let '(f, got', script') := poll_fill want got script in
  delivers script' /\ got ++ flat script = got' ++ flat script' /\ (length got' <= want)%nat
  /\ match f with
     | FFull => length got' = want /\ (length script' <= length script)%nat
     | FPending => (length script' < length script)%nat
     | FClosed => got ++ flat script = [] /\ script' = []
     | FFails e => got ++ flat script <> [] /\ (length (got ++ flat script) < want)%nat
     end.
Proof using.
  induction script as [|e script IH]; intros want got Hd Hg Hw; cbn [poll_fill].
  - destruct (Nat.leb_spec want (length got)); [split; [done|]; split; [done|]; split; [done|]; split; [lia|done]|]. cbn. rewrite app_nil_r. destruct got; (split; [done|]; split; [done|]; split; [done|]; done).
  - destruct (Nat.leb_spec want (length got)); [split; [done|]; split; [done|]; split; [done|]; split; [lia|done]|]. apply Forall_cons in Hd as [He Hd]. destruct e as [|l|reset]; [|destruct l as [|b l]; [done|]|done].
    + split; [done|]. split; [done|]. split; [done|]. cbn. lia.
    + set (bl := b :: l) in *. destruct (Nat.leb_spec (length bl) (want - length got)) as [Hle|Hgt].
      * specialize (IH want (got ++ bl) Hd ltac:(rewrite length_app; lia) Hw). destruct (poll_fill want (got ++ bl) script) as [[f got'] script']. destruct IH as (Hd' & Hf & Hl & Hc). cbn [flat flat_map]. fold (flat script). rewrite app_assoc. split; [done|]. split; [done|]. split; [done|]. destruct f; cbn [length]; [lia|destruct Hc as [? ?]; split; [done|lia]|done|done].
      * split; [constructor; [|done]; intros Hn; apply (f_equal length) in Hn; rewrite length_drop in Hn; cbn [length] in Hn; lia|]. cbn [flat flat_map]. rewrite <- app_assoc, (app_assoc (take _ bl)), take_drop. split; [done|]. rewrite length_app, length_take. split; [lia|]. split; [lia|done].
Qed.

Context (session_subkey session_subkey_2022 : list Z -> list Z -> list Z).
Abbreviation session_of := (session session_subkey session_subkey_2022).
Abbreviation turn_ := (read_turn session_subkey session_subkey_2022).
Abbreviation read_ := (poll_read session_subkey session_subkey_2022).

Definition chunk_ok (s : @AeadStream C) (p : list Z) : Prop := (length p <= max_payload s)%nat /\ (length p <= MAX_PAYLOAD_2022)%nat.

(** The header a server answers a 2022 request with. *)
Definition response_header (sent_at : Z) (request_salt : list Z) (first : nat) : list Z := [SERVER_STREAM] ++ be_bytes 8 sent_at ++ request_salt ++ be16 (Z.of_nat first).

Section Carried.
(** When the server answered, where the edition tells. *)
Context (sent : option Z).

Definition clock_ok (now : Z) : Prop := forall t, sent = Some t -> 0 <= t < 2 ^ 64 /\ Z.abs (t - now) <= TIME_WINDOW.

(** What is to come from below is what was sealed, and [rest] of the payloads is
    still to be read. *)
Definition carries (s : @AeadStream C) (script : list ReadEvent) (rest : list Z) : Prop :=
  delivers script /\
  match reading s with
  | RSalt got =>
      exists salt' ps, (length got <= salt_len (skey s))%nat /\ length salt' = salt_len (skey s) /\ Forall (chunk_ok s) ps /\
        match edition_2022 s with
        | None => salt' <> salt s /\ got ++ flat script = salt' ++ sealed (session_of (skey s) salt') ps /\ rest = List.concat ps
        | Some _ => exists sent_at first, sent = Some sent_at /\ (length first <= MAX_PAYLOAD_2022)%nat /\ let h := seal (session_of (skey s) salt') (response_header sent_at (salt s) (length first)) in let b := seal h.2 first in got ++ flat script = salt' ++ h.1 ++ b.1 ++ sealed b.2 ps /\ rest = first ++ List.concat ps
        end
  | RHead got =>
      exists d sent_at first ps, down s = Some d /\ sent = Some sent_at /\ is_Some (edition_2022 s) /\ (length got <= response_fixed_len (length (salt s)) + TAG)%nat /\ (length first <= MAX_PAYLOAD_2022)%nat /\ Forall (chunk_ok s) ps
        /\ let h := seal d (response_header sent_at (salt s) (length first)) in let b := seal h.2 first in got ++ flat script = h.1 ++ b.1 ++ sealed b.2 ps /\ rest = first ++ List.concat ps
  | RLen got => exists d ps, down s = Some d /\ (length got <= 2 + TAG)%nat /\ Forall (chunk_ok s) ps /\ got ++ flat script = sealed d ps /\ rest = List.concat ps
  | RBody want got => exists d p ps, down s = Some d /\ want = (length p + TAG)%nat /\ (length got <= want)%nat /\ Forall (chunk_ok s) ps /\ got ++ flat script = (seal d p).1 ++ sealed (seal d p).2 ps /\ rest = p ++ List.concat ps
  | RPayload buf pos => exists d ps, down s = Some d /\ (pos < length buf)%nat /\ Forall (chunk_ok s) ps /\ flat script = sealed d ps /\ rest = drop pos buf ++ List.concat ps
  | REof => flat script = [] /\ rest = []
  end.

Definition left_to_read (s : @AeadStream C) (script : list ReadEvent) : nat := (held (reading s) + to_come script + match reading s with RPayload _ _ | REof => 0 | _ => 1 end)%nat.

(** What a turn may do. *)
Definition turn_ok (room : nat) (s : @AeadStream C) (script : list ReadEvent) (rest : list Z) (t : @ReadTurn C) : Prop :=
  match t with
  | Goes s' script' => carries s' script' rest /\ (left_to_read s' script' < left_to_read s script)%nat /\ (length script' <= length script)%nat
  | Answers Pending s' script' => carries s' script' rest /\ (length script' < length script)%nat
  | Answers (Ready (Ok l)) s' script' => exists rest', rest = l ++ rest' /\ carries s' script' rest' /\ (length l <= room)%nat /\ (length script' <= length script)%nat /\ (l = [] -> room = 0%nat \/ rest = [])
  | Answers (Ready (Err _)) _ _ => False
  end.

Lemma of_be_be n : forall v, 0 <= v < 256 ^ Z.of_nat n -> of_be_bytes (be_bytes n v) = v.
Proof using.
  unfold of_be_bytes. induction n as [|n IH]; intros v Hv; [cbn in *; lia|]. cbn [be_bytes]. rewrite fold_left_app. cbn [fold_left]. rewrite Nat2Z.inj_succ, Z.pow_succ_r in Hv by lia. rewrite Z.shiftr_div_pow2 by lia. change (2 ^ 8) with 256. rewrite IH; [pose proof (Z.div_mod v 256 ltac:(lia)); lia|]. split; [apply Z.div_pos; lia|apply Z.div_lt_upper_bound; lia].
Qed.

Lemma be16_back n : (n <= MAX_PAYLOAD_2022)%nat -> of_be16 (Z.shiftr (Z.of_nat n) 8 mod 256) (Z.of_nat n mod 256) = Z.of_nat n.
Proof using.
  unfold MAX_PAYLOAD_2022. intros Hn. unfold of_be16. rewrite Z.shiftr_div_pow2 by lia. change (2 ^ 8) with 256. pose proof (Z.div_mod (Z.of_nat n) 256 ltac:(lia)). rewrite (Z.mod_small (Z.of_nat n / 256)); [lia|]. split; [apply Z.div_pos; lia|apply Z.div_lt_upper_bound; lia].
Qed.

(** What a client says of a header: to another request, too old or too early, or
    the length of what comes. *)
Lemma header_said sent_at request_salt ours n now : 0 <= sent_at < 2 ^ 64 -> (n <= MAX_PAYLOAD_2022)%nat -> length request_salt = length ours ->
  check_response (response_header sent_at request_salt n) ours now = Some (if bool_decide (request_salt = ours) then if TIME_WINDOW <? Z.abs (sent_at - now) then Err (ClockDiffers (Z.abs (sent_at - now))) else Ok n else Err NotOurs).
Proof using.
  intros Hsent Hn Hlen. unfold check_response, response_header. rewrite <- Hlen. assert (H8 : length (be_bytes 8 sent_at) = 8%nat) by apply be_bytes_length. set (t := be_bytes 8 sent_at) in *. set (n2 := be16 (Z.of_nat n)). assert (H2 : length n2 = 2%nat) by done.
  assert (Hs9 : slice ([SERVER_STREAM] ++ t ++ request_salt ++ n2) 9 (length request_salt) = Some request_salt).
  { unfold slice. rewrite !length_app, H8, H2. cbn [length]. rewrite decide_True by lia. rewrite app_assoc. rewrite drop_app_ge by (rewrite length_app, H8; done). rewrite length_app, H8. cbn [length Nat.add Nat.sub]. by rewrite drop_0, take_app_length. }
  assert (Hs1 : slice ([SERVER_STREAM] ++ t ++ request_salt ++ n2) 1 8 = Some t).
  { unfold slice. rewrite !length_app, H8, H2. cbn [length]. rewrite decide_True by lia. change (drop 1 ([SERVER_STREAM] ++ t ++ request_salt ++ n2)) with (t ++ request_salt ++ n2). rewrite take_app_le by lia. by rewrite take_ge by lia. }
  set (whole := [SERVER_STREAM] ++ t ++ request_salt ++ n2) in *. assert (Hat : forall k, (k < 2)%nat -> whole !! (9 + length request_salt + k)%nat = n2 !! k).
  { intros k Hk. unfold whole. rewrite !app_assoc. rewrite lookup_app_r by (rewrite !length_app, H8; cbn [length]; lia). f_equal. rewrite !length_app, H8. cbn [length]. lia. }
  rewrite Hs9, Hs1. change (whole !! 0%nat) with (Some SERVER_STREAM). cbn [mbind option_bind]. rewrite Z.eqb_refl. cbn [negb orb]. destruct (bool_decide (request_salt = ours)); cbn [negb]; [|done]. assert (Ht : of_be_bytes t = sent_at) by (apply of_be_be; exact Hsent). rewrite Ht. destruct (TIME_WINDOW <? Z.abs (sent_at - now)); [done|].
  rewrite <- (Nat.add_0_r (9 + length request_salt)) at 1. rewrite Hat by lia. replace (S (9 + length request_salt)) with (9 + length request_salt + 1)%nat by lia. rewrite Hat by lia. unfold n2, be16. cbn [lookup list_lookup mbind option_bind]. by rewrite be16_back, Nat2Z.id.
Qed.

Lemma header_checks sent_at request_salt n now : 0 <= sent_at < 2 ^ 64 -> (n <= MAX_PAYLOAD_2022)%nat -> Z.abs (sent_at - now) <= TIME_WINDOW -> check_response (response_header sent_at request_salt n) request_salt now = Some (Ok n).
Proof using. intros Hsent Hn Hnow. rewrite header_said by done. rewrite bool_decide_true by done. by rewrite (proj2 (Z.ltb_ge _ _)) by lia. Qed.

(** A buffer that is full holds the first sealed piece. *)
Lemma full_piece (piece rest_ got fl : list Z) : length got = length piece -> got ++ fl = piece ++ rest_ -> got = piece /\ fl = rest_.
Proof using. intros Hl He. by apply app_inj_1 in He. Qed.

Lemma salt_len_pos k : (0 < salt_len k)%nat.
Proof using. unfold salt_len. destruct (kind k); cbn; lia. Qed.

(** The buffer of a piece that comes whole. *)
Lemma fill_piece want got script piece more : delivers script -> (length got <= want)%nat -> (0 < want)%nat -> length piece = want -> got ++ flat script = piece ++ more ->
  let '(f, got', script') := poll_fill want got script in
  delivers script' /\ match f with
  | FFull => got' = piece /\ flat script' = more /\ (length script' <= length script)%nat /\ (to_come script' + want = length got + to_come script)%nat
  | FPending => got' ++ flat script' = piece ++ more /\ (length got' <= want)%nat /\ (length script' < length script)%nat
  | _ => False
  end.
Proof using.
  intros Hd Hg Hw Hp He. pose proof (poll_fill_spec script want got Hd Hg Hw) as Hs. destruct (poll_fill want got script) as [[f got'] script']. destruct Hs as (Hd' & Hf & Hl & Hc). split; [done|]. destruct f.
  - split; [by rewrite <- Hf|done].
  - destruct Hc as [Hlen Hsc]. rewrite He in Hf. destruct (full_piece piece more got' (flat script')) as [-> Hfl]; [congruence|done|]. split; [done|]. split; [done|]. split; [done|]. rewrite !to_come_flat. pose proof (f_equal length Hf) as Hx. rewrite <- He, !length_app in Hx. lia.
  - destruct Hc as [Hc _]. rewrite He in Hc. apply (f_equal length) in Hc. rewrite length_app in Hc. cbn in Hc. lia.
  - destruct Hc as [_ Hc]. rewrite He, length_app in Hc. lia.
Qed.

Lemma read_turn_ok room now s script rest : clock_ok now -> carries s script rest -> exists t, turn_ room now s script = Some t /\ turn_ok room s script rest t.
Proof using AL.
  intros Hnow [Hd Hc]. unfold read_turn, turn_ok, left_to_read. destruct (reading s) as [got|got|got|want got|buf pos|] eqn:Hr; cbn [held].
  - destruct Hc as (salt' & ps & Hg & Hsl & Hps & Hc). destruct (edition_2022 s) as [req|] eqn:Hed.
    + destruct Hc as (sent_at & first & Hat & Hfirst & Hc). cbn zeta in Hc. destruct Hc as [He ->]. pose proof (fill_piece _ _ _ _ _ Hd Hg (salt_len_pos _) Hsl He) as Hf. destruct (poll_fill _ got script) as [[f got'] script']. destruct Hf as [Hd' Hf]. destruct f; [| |done|done].
      * destruct Hf as (Hf & Hl & Hsc). eexists. split; [done|]. cbn. split; [|done]. split; [done|]. cbn. rewrite Hed. exists salt', ps. split; [done|]. split; [done|]. split; [done|]. exists sent_at, first. done.
      * destruct Hf as (-> & Hf & Hsc & Ht). cbn. eexists. split; [done|]. cbn. pose proof (salt_len_pos (skey s)). rewrite Hed. cbn. split; [|split; [lia|done]]. split; [done|]. cbn. eexists _, sent_at, first, ps. split; [done|]. split; [done|]. split; [by rewrite Hed|]. split; [lia|]. split; [done|]. split; [done|]. split; [exact Hf|done].
    + destruct Hc as (Hne & He & ->). pose proof (fill_piece _ _ _ _ _ Hd Hg (salt_len_pos _) Hsl He) as Hf. destruct (poll_fill _ got script) as [[f got'] script']. destruct Hf as [Hd' Hf]. destruct f; [| |done|done].
      * destruct Hf as (Hf & Hl & Hsc). eexists. split; [done|]. cbn. split; [|done]. split; [done|]. cbn. rewrite Hed. exists salt', ps. done.
      * destruct Hf as (-> & Hf & Hsc & Ht). cbn. rewrite Hed. cbn. rewrite bool_decide_false by done. eexists. split; [done|]. cbn. rewrite ?Hed. cbn. pose proof (salt_len_pos (skey s)). split; [|split; [lia|done]]. split; [done|]. cbn. eexists _, ps. split; [done|]. split; [lia|]. split; [done|]. split; [exact Hf|done].
  - destruct Hc as (d & sent_at & first & ps & Hdown & Hat & Hed & Hg & Hfirst & Hps & Hc). cbn zeta in Hc. destruct Hc as [He ->]. assert (Hlh : length (seal d (response_header sent_at (salt s) (length first))).1 = (response_fixed_len (length (salt s)) + TAG)%nat) by (rewrite seal_length; unfold response_header, response_fixed_len; rewrite !length_app, be_bytes_length; change (length (be16 _)) with 2%nat; cbn [length]; lia).
    pose proof (fill_piece _ _ _ _ _ Hd Hg ltac:(unfold TAG; lia) Hlh He) as Hf. destruct (poll_fill _ got script) as [[f got'] script']. destruct Hf as [Hd' Hf]. destruct f; [| |done|done].
    + destruct Hf as (Hf & Hl & Hsc). eexists. split; [done|]. cbn. split; [|done]. split; [done|]. cbn. exists d, sent_at, first, ps. done.
    + destruct Hf as (-> & Hf & Hsc & Ht). rewrite Hdown. cbn [mbind option_bind]. rewrite open_of_seal. destruct Hed as [req Hed]. cbn [set_down edition_2022 SsAead.salt]. rewrite Hed. cbn [mbind option_bind]. destruct (Hnow _ Hat) as [Hsent Hwin]. rewrite header_checks by done. cbn [mbind option_bind]. eexists. split; [done|]. cbn. split; [|split; [unfold response_fixed_len in Ht; lia|done]]. split; [done|]. cbn. eexists _, first, ps. split; [done|]. split; [done|]. split; [lia|]. split; [done|]. split; [exact Hf|done].
  - destruct Hc as (d & ps & Hdown & Hg & Hps & He & ->). destruct ps as [|p ps].
    + cbn [sealed] in He. pose proof (poll_fill_spec script (2 + TAG) got Hd Hg ltac:(lia)) as Hs. destruct (poll_fill (2 + TAG) got script) as [[f got'] script']. destruct Hs as (Hd' & Hf & Hl & Hc). rewrite He in Hf. symmetry in Hf. apply app_nil in Hf as [Hg' Hf']. destruct f.
      * eexists. split; [done|]. cbn. split; [|done]. split; [done|]. cbn. exists d, []. rewrite Hg', Hf'. split; [done|]. split; [cbn; lia|]. by split; [constructor|].
      * destruct Hc as [Hc _]. rewrite Hg' in Hc. cbn in Hc. lia.
      * eexists. split; [done|]. cbn. destruct Hc as [_ ->]. split; [|cbn; split; lia]. split; [done|]. cbn. done.
      * destruct Hc as [Hc _]. done.
    + cbn [sealed] in He. unfold seal_payload in He. apply Forall_cons in Hps as [[Hp1 Hp2] Hps]. pose proof (open_of_seal d (be16 (Z.of_nat (length p)))) as Ho. destruct (seal d (be16 (Z.of_nat (length p)))) as [l a1] eqn:Hs1. pose proof (seal_length d (be16 (Z.of_nat (length p)))) as Hll. rewrite Hs1 in Hll. cbn [fst] in Hll. change (length (be16 _)) with 2%nat in Hll. destruct (seal a1 p) as [b a2] eqn:Hs2. cbn [fst snd] in *. rewrite <- app_assoc in He.
      pose proof (fill_piece _ _ _ _ _ Hd Hg ltac:(lia) Hll He) as Hf. destruct (poll_fill (2 + TAG) got script) as [[f got'] script']. destruct Hf as [Hd' Hf]. destruct f; [| |done|done].
      * destruct Hf as (Hf & Hl & Hsc). eexists. split; [done|]. cbn. split; [|done]. split; [done|]. cbn. exists d, (p :: ps). split; [done|]. split; [done|]. split; [by constructor|]. cbn [sealed]. unfold seal_payload. rewrite Hs1, Hs2. cbn [fst snd]. rewrite <- app_assoc. done.
      * destruct Hf as (-> & Hf & Hsc & Ht). rewrite Hdown. cbn [mbind option_bind]. rewrite Ho. unfold be16 at 1. rewrite be16_back by done. rewrite Nat2Z.id. cbn [set_down max_payload]. rewrite (proj2 (Nat.ltb_ge _ _)) by done. eexists. split; [done|]. cbn. split; [|split; [lia|done]]. split; [done|]. cbn. exists a1, p, ps. rewrite Hs2. split; [done|]. split; [done|]. split; [lia|]. done.
  - destruct Hc as (d & p & ps & Hdown & -> & Hg & Hps & He & ->). pose proof (fill_piece _ _ _ _ _ Hd Hg ltac:(unfold TAG; lia) (seal_length d p) He) as Hf. destruct (poll_fill _ got script) as [[f got'] script']. destruct Hf as [Hd' Hf]. destruct f; [| |done|done].
    + destruct Hf as (Hf & Hl & Hsc). eexists. split; [done|]. cbn. split; [|done]. split; [done|]. cbn. exists d, p, ps. done.
    + destruct Hf as (-> & Hf & Hsc & Ht). rewrite Hdown. cbn [mbind option_bind]. rewrite open_of_seal. destruct p as [|x p].
      * eexists. split; [done|]. cbn. split; [|split; [unfold TAG in Ht; cbn [length] in Ht; lia|done]]. split; [done|]. cbn. eexists _, ps. split; [done|]. split; [lia|]. done.
      * eexists. split; [done|]. cbn. split; [|split; [unfold TAG in Ht; cbn [length] in Ht; lia|done]]. split; [done|]. cbn. eexists _, ps. split; [done|]. split; [lia|]. done.
  - destruct Hc as (d & ps & Hdown & Hpos & Hps & He & ->). eexists. split; [done|]. cbn [set_reading]. set (n := Nat.min room (length buf - pos)). assert (Hl : length (take n (drop pos buf)) = n) by (rewrite length_take, length_drop; lia). exists (drop (pos + n) buf ++ List.concat ps). split; [by rewrite app_assoc, <- drop_drop, take_drop|]. split; [|split; [rewrite Hl; lia|split; [done|]]].
    + split; [done|]. cbn. destruct (Nat.eqb_spec (pos + n) (length buf)) as [Hn|Hn].
      * exists d, ps. split; [done|]. split; [cbn; lia|]. split; [done|]. split; [done|]. rewrite drop_ge by lia. done.
      * exists d, ps. split; [done|]. split; [lia|]. done.
    + intros Hnil. left. rewrite Hnil in Hl. cbn in Hl. lia.
  - destruct Hc as [Hfl ->]. eexists. split; [done|]. cbn. exists []. split; [done|]. split; [|split; [lia|split; [done|by right]]]. split; [done|]. by rewrite Hr.
Qed.

Lemma read_loop_ok fuel : forall room now s script rest, clock_ok now -> carries s script rest -> (left_to_read s script < fuel)%nat ->
  exists t, read_loop session_subkey session_subkey_2022 fuel room now s script = Some t /\ turn_ok room s script rest t /\ match t with Goes _ _ => False | _ => True end.
Proof using AL.
  induction fuel as [|fuel IH]; intros room now s script rest Hnow Hc Hf; [lia|]. cbn [read_loop]. destruct (read_turn_ok room now s script rest Hnow Hc) as (t & -> & Ht). destruct t as [s' script'|p s' script']; [|by eexists].
  destruct Ht as (Hc' & Hl & Hlen). destruct (IH room now s' script' rest Hnow Hc' ltac:(lia)) as (t & -> & Ht & Hg). exists t. split; [done|]. split; [|done]. unfold turn_ok in *. destruct t as [|[[l|e]|] s2 script2]; [done| |done|].
  - destruct Ht as (rest' & ? & ? & ? & ? & ?). exists rest'. do 3 (split; [done|]). split; [lia|done].
  - destruct Ht as [? ?]. split; [done|lia].
Qed.

Lemma poll_read_ok room now s script rest : clock_ok now -> carries s script rest ->
  exists p s' script', read_ room now s script = Some (Answers p s' script') /\ turn_ok room s script rest (Answers p s' script').
Proof using AL.
  intros Hnow Hc. unfold poll_read. destruct (read_loop_ok (3 + held (reading s) + to_come script) room now s script rest Hnow Hc) as (t & Hr & Ht & Hg); [unfold left_to_read; destruct (reading s); lia|]. destruct t as [|p s' script']; [done|]. by eexists _, _, _.
Qed.
End Carried.

(** Calls of [poll_read], each with room and a clock; what they gave. *)
Fixpoint reads (polls : list (nat * Z)) (s : @AeadStream C) (script : list ReadEvent) : option (list Z * @AeadStream C * list ReadEvent) :=
  match polls with
  | [] => Some ([], s, script)
  | (room, now) :: polls =>
      match read_ room now s script with
      | Some (Answers Pending s script) => reads polls s script
      | Some (Answers (Ready (Ok l)) s script) => '(ls, s, script) ← reads polls s script; Some (l ++ ls, s, script)
      | _ => None
      end
  end.

Lemma reads_ok sent polls : Forall (fun p => (0 < p.1)%nat /\ clock_ok sent p.2) polls -> forall s script rest, carries sent s script rest ->
  exists got s' script', reads polls s script = Some (got, s', script') /\ exists rest', rest = got ++ rest' /\ ((length script + length rest < length polls)%nat -> rest' = []).
Proof using AL.
  intros Hp. induction Hp as [|[room now] polls [Hroom Hnow] Hp IH]; intros s script rest Hc; cbn [reads]; [exists [], s, script; split; [done|]; exists rest; split; [done|cbn; lia]|]. cbn [fst snd] in *.
  destruct (poll_read_ok sent room now s script rest Hnow Hc) as (p & s1 & script1 & -> & Ht). destruct p as [[l|e]|]; [|done|].
  - destruct Ht as (rest1 & -> & Hc1 & _ & Hlen & Hnil). destruct (IH s1 script1 rest1 Hc1) as (got & s2 & script2 & -> & rest' & -> & Hall). cbn [mbind option_bind]. eexists _, s2, script2. split; [done|]. exists rest'. split; [by rewrite app_assoc|]. intros Hlong. cbn [length] in Hlong. rewrite !length_app in Hlong. destruct l as [|x l].
    + destruct (Hnil eq_refl) as [Hz|Hz]; [lia|]. cbn [app] in Hz. by apply app_nil in Hz as [_ ?].
    + apply Hall. rewrite length_app. cbn [length] in Hlong. lia.
  - destruct Ht as [Hc1 Hlen]. destruct (IH s1 script1 rest Hc1) as (got & s2 & script2 & -> & rest' & He & Hall). exists got, s2, script2. split; [done|]. exists rest'. split; [done|]. intros Hlong. apply Hall. cbn [length] in Hlong. lia.
Qed.

(** ** Writing *)

(** The layer below takes something when it takes, and does not fail. *)
Definition takes (script : list WriteEvent) : Prop := Forall (fun e => match e with Hold => True | Takes n => (0 < n)%nat | WriteFails _ => False end) script.

Lemma poll_out_spec script : forall o pos, takes script -> (pos <= length o)%nat ->
  let '(r, pos', script', wire) := poll_out o pos script in
  takes script' /\ (pos' <= length o)%nat /\ drop pos o = wire ++ drop pos' o /\ match r with Ready (Ok tt) => pos' = length o | Pending => (pos' < length o)%nat | Ready (Err _) => False end.
Proof using.
  induction script as [|e script IH]; intros o pos Ht Hpos; cbn [poll_out]; (destruct (Nat.leb_spec (length o) pos) as [Hle|Hgt]; [split; [done|]; split; [done|]; split; [done|lia]|]); [done|]. apply Forall_cons in Ht as [He Ht]. destruct e as [|n|reset]; [done| |done]. destruct (Nat.eqb_spec (Nat.min n (length o - pos)) 0); [lia|].
  set (m := Nat.min n (length o - pos)) in *. specialize (IH o (pos + m)%nat Ht ltac:(lia)). destruct (poll_out o (pos + m) script) as [[[r pos'] script'] wire]. destruct IH as (Ht' & Hl & Hd & Hr). split; [done|]. split; [done|]. split; [|done]. rewrite <- app_assoc, <- Hd, <- drop_drop. by rewrite take_drop.
Qed.

(** What the first write puts before the chunks, when it is a call at [now] with
    [r] drawn, for [data]: the cipher for the chunks, and the bytes that went with
    it.  In the 2022 edition all of it is told, byte by byte. *)
Definition opening (first : Z * Z * list Z) (s : @AeadStream C) (h : list Z) (a0 : @CountingAead C) (p0 : list Z) : Prop :=
  let a := session_of (skey s) (salt s) in
  match edition_2022 s with
  | None => h = salt s /\ a0 = a /\ p0 = []
  | Some request =>
      let '(now, r, data) := first in
      let addr := take (addr_len request) data in
      let payload := take (MAX_VARIABLE_HEADER - length addr - 2) (drop (addr_len request) data) in
      let padding := match payload with [] => Z.to_nat (r mod 900 + 1) | _ => 0%nat end in
      let variable := addr ++ be16 (Z.of_nat padding) ++ replicate padding 0 ++ payload in
      let fixed := [0] ++ be_bytes 8 now ++ be16 (Z.of_nat (length variable)) in
      let f := seal a fixed in let v := seal f.2 variable in
      p0 = addr ++ payload /\ h = salt s ++ identity request ++ f.1 ++ v.1 /\ a0 = v.2
  end.

(** What a stream may be asked to write. *)
Definition can_write (s : @AeadStream C) : Prop := (0 < max_payload s)%nat /\ (max_payload s <= MAX_PAYLOAD_2022)%nat /\ match edition_2022 s with Some request => (0 < addr_len request)%nat /\ (addr_len request + Z.to_nat MAX_PADDING + 2 <= MAX_VARIABLE_HEADER)%nat | None => True end.

Definition same_stream (s s' : @AeadStream C) : Prop := skey s' = skey s /\ max_payload s' = max_payload s /\ salt s' = salt s /\ edition_2022 s' = edition_2022 s.

(** [sent] has gone below, and the caller was told that [given] was taken; the
    next call is for [data]. *)
Definition writing (first : Z * Z * list Z) (s : @AeadStream C) (sent given data : list Z) : Prop :=
  (out_pos s <= length (out s))%nat /\
  if salt_sent s then
    exists h a0 p0 ps, opening first s h a0 p0 /\ Forall (chunk_ok s) ps /\ up s = after_chunks a0 ps /\ sent ++ drop (out_pos s) (out s) = h ++ sealed a0 ps
      /\ p0 ++ List.concat ps = given ++ (if (out_pos s <? length (out s))%nat then take (accepted s) data else []) /\ ((out_pos s < length (out s))%nat -> (0 < accepted s <= length data)%nat)
  else up s = session_of (skey s) (salt s) /\ sent = [] /\ out s = [] /\ given = [].

Definition write_ok (first : Z * Z * list Z) (s : @AeadStream C) (sent given data : list Z) (t : @WriteTurn C nat) : Prop :=
  let '(p, s', script', wire) := t in
  takes script' /\ same_stream s s' /\ salt_sent s' = true /\
  match p with
  | Pending => writing first s' (sent ++ wire) given data
  | Ready (Ok n) => (0 < n <= length data)%nat /\ writing first s' (sent ++ wire) (given ++ take n data) (drop n data)
  | Ready (Err _) => False
  end.

(** What is parked goes out. *)
Lemma finish_out_ok first s script sent given data : takes script -> salt_sent s = true -> (out_pos s < length (out s))%nat -> writing first s sent given data -> write_ok first s sent given data (finish_out s script (Nat.min (accepted s) (length data))).
Proof using.
  intros Ht Hs Hp (Hpos & Hw). rewrite Hs in Hw. destruct Hw as (h & a0 & p0 & ps & Ho & Hps & Hup & Hsent & Hgiven & Hacc). specialize (Hacc Hp). rewrite (proj2 (Nat.ltb_lt _ _)) in Hgiven by done. unfold finish_out, write_ok. pose proof (poll_out_spec script (out s) (out_pos s) Ht Hpos) as Hout. destruct (poll_out (out s) (out_pos s) script) as [[[r pos'] script'] wire]. destruct Hout as (Ht' & Hl & Hd & Hr).
  assert (Hall : (sent ++ wire) ++ drop pos' (out s) = h ++ sealed a0 ps) by (by rewrite <- app_assoc, <- Hd). destruct r as [[[]|e]|]; [|done|].
  - subst pos'. split; [done|]. split; [done|]. split; [done|]. rewrite Nat.min_l by lia. split; [done|]. split; [done|]. cbn [salt_sent set_out out out_pos accepted up]. rewrite Hs. exists h, a0, p0, ps. rewrite Nat.ltb_irrefl, app_nil_r. split; [done|]. split; [done|]. split; [done|]. split; [done|]. split; [done|lia].
  - split; [done|]. split; [done|]. split; [done|]. split; [done|]. cbn [salt_sent set_out out out_pos accepted up]. rewrite Hs. exists h, a0, p0, ps. rewrite (proj2 (Nat.ltb_lt _ _)) by done. done.
Qed.


Lemma seal_payload_length a p : (0 < length (seal_payload a p).1)%nat.
Proof using AL. unfold seal_payload. pose proof (seal_length a (be16 (Z.of_nat (length p)))) as Hl. destruct (seal a _) as [l a1]. destruct (seal a1 p) as [b a2]. cbn [fst] in *. rewrite length_app, Hl. unfold TAG. lia. Qed.

(** Nothing parked: [out] has gone. *)
Lemma nothing_parked first s sent given data : writing first s sent given data -> out_pos s = length (out s) -> salt_sent s = true ->
  exists h a0 p0 ps, opening first s h a0 p0 /\ Forall (chunk_ok s) ps /\ up s = after_chunks a0 ps /\ sent = h ++ sealed a0 ps /\ p0 ++ List.concat ps = given.
Proof using.
  intros (_ & Hw) Hp Hs. rewrite Hs in Hw. destruct Hw as (h & a0 & p0 & ps & Ho & Hps & Hup & Hsent & Hgiven & _). exists h, a0, p0, ps. rewrite Hp in *. rewrite drop_all, app_nil_r in Hsent. by rewrite Nat.ltb_irrefl, app_nil_r in Hgiven.
Qed.

(** A chunk is sealed behind what has gone. *)
Lemma writing_chunk first s sent given data h a0 p0 ps head :
  can_write s -> data <> [] -> opening first s h a0 p0 -> Forall (chunk_ok s) ps -> up s = after_chunks a0 ps -> sent ++ head = h ++ sealed a0 ps -> p0 ++ List.concat ps = given ->
  let n := Nat.min (length data) (max_payload s) in let c := seal_payload (up s) (take n data) in
  (0 < length (head ++ c.1))%nat /\ writing first (set_out c.2 true (head ++ c.1) 0 n s) sent given data.
Proof using AL.
  intros (Hm & Hm2 & _) Hne Ho Hps Hup Hsent Hgiven n c. assert (Hd : (0 < length data)%nat) by (destruct data; [done|cbn; lia]). pose proof (seal_payload_length (up s) (take n data)) as Hl. fold c in Hl.
  assert (Hpos : (0 < length (head ++ c.1))%nat) by (rewrite length_app; lia). split; [done|]. split; [cbn; lia|]. cbn [salt_sent set_out out out_pos accepted up]. exists h, a0, p0, (ps ++ [take n data]). destruct (sealed_app a0 ps [take n data]) as [-> ->]. cbn [sealed after_chunks]. rewrite <- Hup. fold c. rewrite app_nil_r, drop_0. split; [done|]. split.
  { apply Forall_app. split; [done|]. apply Forall_singleton. unfold chunk_ok. cbn [max_payload set_out]. rewrite length_take. lia. }
  split; [done|]. split; [by rewrite !app_assoc, Hsent|]. rewrite (proj2 (Nat.ltb_lt _ _)) by done. split; [|lia]. by rewrite concat_app, app_assoc, Hgiven; cbn [List.concat]; rewrite app_nil_r.
Qed.

(** The two header chunks of a 2022 request. *)
Lemma seal_first_ok s request now r data sent :
  can_write s -> edition_2022 s = Some request -> data <> [] -> 0 <= r -> up s = session_of (skey s) (salt s) -> sent = [] ->
  exists chunk a n, seal_first_2022 (up s) request now (Some r) data = Some (Ok (chunk, a, n)) /\ (0 < length (salt s ++ chunk))%nat /\ Nat.min n (length data) = Nat.min (accepted (set_out a true (salt s ++ chunk) 0 n s)) (length data) /\ writing (now, r, data) (set_out a true (salt s ++ chunk) 0 n s) sent [] data.
Proof using AL.
  intros (Hm & Hm2 & Hed) He Hne Hr Hup ->. rewrite He in Hed. destruct Hed as [Ha1 Ha2]. assert (Hd : (0 < length data)%nat) by (destruct data; [done|cbn; lia]). unfold seal_first_2022. cbn zeta.
  set (al := Nat.min (addr_len request) (length data)). set (payload := take _ (drop al data)). assert (Hal : (al + 2 + Z.to_nat MAX_PADDING <= MAX_VARIABLE_HEADER)%nat) by lia. rewrite (proj2 (Nat.ltb_ge _ _)) by lia.
  assert (Hpl : (al + 2 + length payload <= MAX_VARIABLE_HEADER)%nat /\ (al + length payload <= length data)%nat) by (unfold payload; rewrite length_take, length_drop; lia). destruct Hpl as [Hpl1 Hpl2].
  assert (Htaken : take al data ++ payload = take (al + length payload) data).
  { unfold payload. rewrite length_take, length_drop. set (k := (_ - al)%nat). rewrite take_take_drop. destruct (Nat.le_ge_cases k (length data - al)) as [Hk|Hk]; [by rewrite Nat.min_l|rewrite Nat.min_r by done; rewrite !take_ge by lia; done]. }
  assert (Hpad : exists padding, padding_len (length payload) (Some r) = Some padding /\ padding = match payload with [] => Z.to_nat (r mod 900 + 1) | _ => 0%nat end /\ Z.of_nat padding <= MAX_PADDING /\ (payload <> [] -> padding = 0%nat)).
  { unfold padding_len, MAX_PADDING. pose proof (Z.mod_pos_bound r 900 ltac:(lia)). destruct payload as [|x pl]; cbn [length Nat.ltb Nat.leb]; eexists; (split; [done|]; split; [done|]; split; [lia|done]). }
  destruct Hpad as (padding & -> & Hpad & Hpn1 & Hpad0).
  unfold request_variable, u16_of, u16_max. assert (Hpn2 : (al + 2 + padding + length payload <= MAX_VARIABLE_HEADER)%nat) by (destruct payload; [cbn [length]; lia|rewrite Hpad0 by done; lia]).
  rewrite (proj2 (Z.leb_le (Z.of_nat padding) _)) by (unfold MAX_PADDING in *; lia). cbn [mbind option_bind]. set (variable := take al data ++ be16 (Z.of_nat padding) ++ replicate padding 0 ++ payload).
  assert (Hvl : (length variable <= MAX_VARIABLE_HEADER)%nat) by (unfold variable; rewrite !length_app, length_replicate, length_take; change (length (be16 _)) with 2%nat; lia).
  unfold request_fixed, u16_of, u16_max. unfold MAX_VARIABLE_HEADER in Hvl. rewrite (proj2 (Z.leb_le (Z.of_nat (length variable)) _)) by lia. cbn [mbind option_bind]. set (fixed := [CLIENT_STREAM] ++ _).
  pose proof (seal_length (up s) fixed) as Hfl. destruct (seal (up s) fixed) as [f a1] eqn:Hs1. destruct (seal a1 variable) as [v a2] eqn:Hs2. cbn [fst] in Hfl. eexists _, a2, _. split; [done|]. cbn [accepted set_out].
  assert (Hlen : (0 < length (salt s ++ identity request ++ f ++ v))%nat) by (rewrite !length_app, Hfl; unfold TAG; lia). split; [exact Hlen|]. split; [done|]. split; [cbn; lia|]. cbn [salt_sent set_out out out_pos accepted up].
  eexists _, a2, (take al data ++ payload), []. split.
  - unfold opening. cbn [edition_2022 set_out skey SsAead.salt]. rewrite He. cbn zeta.
    assert (Ht1 : take (addr_len request) data = take al data). { unfold al. destruct (Nat.le_ge_cases (addr_len request) (length data)); [by rewrite Nat.min_l|rewrite Nat.min_r by done; rewrite !take_ge by lia; done]. }
    assert (Ht2 : drop (addr_len request) data = drop al data). { unfold al. destruct (Nat.le_ge_cases (addr_len request) (length data)); [by rewrite Nat.min_l|rewrite Nat.min_r by done; rewrite !drop_ge by lia; done]. }
    assert (Hpay : take (MAX_VARIABLE_HEADER - length (take al data) - 2) (drop al data) = payload).
    { assert (Hal' : (al <= length data)%nat) by (unfold al; lia). unfold payload. rewrite length_take, (Nat.min_l al) by done. set (room := (MAX_VARIABLE_HEADER - al - 2)%nat). destruct (Nat.le_ge_cases (al + room) (length data)); [rewrite Nat.min_r by done; f_equal; lia|rewrite Nat.min_l by done; rewrite !take_ge by (rewrite length_drop; lia); done]. }
    rewrite Ht1, Ht2, Hpay, <- Hpad. split; [done|]. fold variable. change [0] with [CLIENT_STREAM]. fold fixed. rewrite <- Hup, Hs1. cbn [fst snd]. rewrite Hs2. done.
  - split; [constructor|]. split; [done|]. rewrite drop_0. cbn [sealed List.concat app]. rewrite !app_nil_r. split; [done|]. rewrite (proj2 (Nat.ltb_lt _ _)) by exact Hlen. split; [exact Htaken|]. intros _. unfold al in *. lia.
Qed.

Definition draws (s : @AeadStream C) (random : option Z) : Prop := match edition_2022 s with Some _ => exists r, random = Some r /\ 0 <= r | None => True end.

(** The first call is the one that is told. *)
Definition is_first (first : Z * Z * list Z) (s : @AeadStream C) (now : Z) (random : option Z) (data : list Z) : Prop :=
  salt_sent s = false -> is_Some (edition_2022 s) -> exists r, random = Some r /\ first = (now, r, data).

Lemma poll_write_ok first s sent given data now random script : can_write s -> draws s random -> takes script -> data <> [] -> is_first first s now random data -> writing first s sent given data ->
  exists t, poll_write data now random s script = Some t /\ write_ok first s sent given data t.
Proof using AL.
  intros Hcan Hr Ht Hne Hfirst Hw. pose proof Hw as (Hpos & Hw'). destruct data as [|x data']; [done|]. set (data := x :: data') in *. unfold poll_write. cbn [data]. fold data.
  destruct (Nat.eqb_spec (out_pos s) (length (out s))) as [Hp|Hp].
  2: { destruct (salt_sent s) eqn:Hs; [|destruct Hw' as (_ & _ & Ho & _); rewrite Ho in Hpos, Hp; cbn in *; lia]. eexists. split; [done|]. apply finish_out_ok; [done|done|lia|exact Hw]. }
  destruct (salt_sent s) eqn:Hs; cbn [negb].
  - destruct (nothing_parked first s sent given data Hw Hp Hs) as (h & a0 & p0 & ps & Ho & Hps & Hup & Hsent & Hgiven). destruct (writing_chunk first s sent given data h a0 p0 ps [] Hcan Hne Ho Hps Hup ltac:(by rewrite app_nil_r) Hgiven) as [Hl Hws]. pose proof Hcan as (Hm & Hm2 & _). rewrite seal_chunk_is by (rewrite length_take; lia). cbn [mbind option_bind].
    destruct (seal_payload (up s) (take (Nat.min (length data) (max_payload s)) data)) as [c a]. cbn [mbind option_bind fst snd app] in *. eexists. split; [done|]. change (Nat.min (length data) (max_payload s)) with (accepted (set_out a true c 0 (Nat.min (length data) (max_payload s)) s)) at 2. by apply (finish_out_ok first (set_out a true c 0 (Nat.min (length data) (max_payload s)) s)).
  - destruct Hw' as (Hup & -> & Hout & ->). destruct (edition_2022 s) as [request|] eqn:He.
    + unfold draws in Hr. rewrite He in Hr. destruct Hr as (r & -> & Hr). destruct (Hfirst Hs ltac:(rewrite He; by eexists)) as (r' & [= <-] & ->). destruct (seal_first_ok s request now r data [] Hcan He Hne Hr Hup eq_refl) as (chunk & a & n & -> & Hl & Hn & Hws). cbn [mbind option_bind]. eexists. split; [done|]. rewrite Hn. by apply (finish_out_ok (now, r, data) (set_out a true (salt s ++ chunk) 0 n s)).
    + assert (Ho : opening first s (salt s) (up s) []) by (unfold opening; rewrite He; done). destruct (writing_chunk first s [] [] data (salt s) (up s) [] [] (salt s) Hcan Hne Ho ltac:(constructor) eq_refl ltac:(cbn; by rewrite app_nil_r) eq_refl) as [Hl Hws]. pose proof Hcan as (Hm & Hm2 & _). rewrite seal_chunk_is by (rewrite length_take; lia). cbn [mbind option_bind].
      destruct (seal_payload (up s) (take (Nat.min (length data) (max_payload s)) data)) as [c a]. cbn [mbind option_bind fst snd] in *. eexists. split; [done|]. by apply (finish_out_ok first (set_out a true (salt s ++ c) 0 (Nat.min (length data) (max_payload s)) s)).
Qed.

(** What may be said of no data may be said of any. *)
Lemma writing_idle first s sent given data : writing first s sent given [] -> writing first s sent given data.
Proof using.
  intros [Hpos Hw]. split; [done|]. destruct (salt_sent s); [|done]. destruct Hw as (h & a0 & p0 & ps & Ho & Hps & Hup & Hsent & Hgiven & Hacc). exists h, a0, p0, ps. destruct (Nat.ltb_spec (out_pos s) (length (out s))) as [Hlt|Hge]; [specialize (Hacc Hlt); cbn in Hacc; lia|]. do 5 (split; [done|]). lia.
Qed.

(** A writer that gives [datas] in turn, each call with a clock and what is drawn:
    what is not taken is offered again, as [write_all] does. *)
Fixpoint writes (turns : list (Z * option Z)) (datas : list (list Z)) (s : @AeadStream C) (script : list WriteEvent) : option (list (list Z) * @AeadStream C * list Z) :=
  match turns, datas with
  | (now, random) :: turns, data :: rest =>
      match poll_write data now random s script with
      | Some (Pending, s, script, wire) => '(unwritten, s, wires) ← writes turns datas s script; Some (unwritten, s, wire ++ wires)
      | Some (Ready (Ok n), s, script, wire) => '(unwritten, s, wires) ← writes turns (match drop n data with [] => rest | more => more :: rest end) s script; Some (unwritten, s, wire ++ wires)
      | _ => None
      end
  | _, _ => Some (datas, s, [])
  end.

Lemma same_stream_can s s' : same_stream s s' -> can_write s -> can_write s'.
Proof using. unfold same_stream, can_write. intros (_ & -> & _ & ->). done. Qed.

Definition starts (first : Z * Z * list Z) (s : @AeadStream C) (turns : list (Z * option Z)) (datas : list (list Z)) : Prop :=
  match turns, datas with
  | (now, random) :: _, data :: _ => (salt_sent s = false -> is_Some (edition_2022 s) -> data <> []) /\ is_first first s now random data
  | _, _ => True
  end.

Lemma writes_ok first turns : forall datas s sent given script, can_write s -> starts first s turns datas -> Forall (fun t => draws s t.2) turns -> takes script -> writing first s sent given (hd [] datas) ->
  exists left s' wire given', writes turns datas s script = Some (left, s', wire) /\ same_stream s s' /\ given ++ List.concat datas = given' ++ List.concat left /\ writing first s' (sent ++ wire) given' (hd [] left).
Proof using AL.
  induction turns as [|[now random] turns IH]; intros datas s sent given script Hcan Hst Hdraws Ht Hw; cbn [writes]; [exists datas, s, [], given; rewrite (app_nil_r sent); split; [done|]; by split|]. destruct datas as [|data rest]; [exists [], s, [], given; rewrite (app_nil_r sent); split; [done|]; by split|]. apply Forall_cons in Hdraws as [Hdraw Hdraws]. cbn [snd hd] in *.
  assert (Hgo : forall s1 script1 sent1 given1 datas1 wire1, takes script1 -> same_stream s s1 -> starts first s1 turns datas1 -> writing first s1 (sent ++ wire1) given1 (hd [] datas1) -> sent1 = sent ++ wire1 -> given1 ++ List.concat datas1 = given ++ List.concat (data :: rest) ->
    exists left s' wire given', ('(unwritten, s, wires) ← writes turns datas1 s1 script1; Some (unwritten, s, wire1 ++ wires)) = Some (left, s', wire) /\ same_stream s s' /\ given ++ List.concat (data :: rest) = given' ++ List.concat left /\ writing first s' (sent ++ wire) given' (hd [] left)).
  { intros s1 script1 sent1 given1 datas1 wire1 Ht1 Hs1 Hst1 Hw1 -> Hg1. destruct (IH datas1 s1 (sent ++ wire1) given1 script1) as (left & s' & wire & given' & -> & Hs' & Hg & Hw'); [exact (same_stream_can _ _ Hs1 Hcan)|done| |done|done|]. { unfold draws in *. destruct Hs1 as (_ & _ & _ & ->). done. }
    cbn [mbind option_bind]. exists left, s', (wire1 ++ wire), given'. split; [done|]. split; [|split; [by rewrite <- Hg1|by rewrite app_assoc]]. unfold same_stream in *. destruct Hs1 as (<- & <- & <- & <-). done. }
  destruct data as [|x data'].
  - cbn [poll_write]. apply (Hgo s script (sent ++ []) given rest []); [done|done| | |done|done]; [|rewrite app_nil_r; by apply writing_idle]. destruct Hst as [Hst _]. unfold starts. destruct turns as [|[now' random'] turns]; [done|]. destruct rest as [|data' rest]; [done|]. split; [intros H1 H2; by destruct (Hst H1 H2)|intros H1 H2; by destruct (Hst H1 H2)].
  - set (data := x :: data') in *. destruct Hst as [_ Hst]. destruct (poll_write_ok first s sent given data now random script Hcan Hdraw Ht ltac:(done) Hst Hw) as (t & -> & Hok). destruct t as [[[p s1] script1] wire1]. destruct Hok as (Ht1 & Hs1 & Hss & Hp). assert (Hst1 : forall datas1, starts first s1 turns datas1). { intros datas1. unfold starts, is_first. rewrite Hss. destruct turns as [|[now' random'] turns]; [done|]. by destruct datas1. } destruct p as [[n|e]|]; [|done|].
    + destruct Hp as [Hn Hw1]. apply (Hgo s1 script1 (sent ++ wire1) (given ++ take n data) _ wire1); [done|done|done| |done|].
      * destruct (drop n data) as [|y more] eqn:Hd; [by apply writing_idle|done].
      * rewrite <- app_assoc. f_equal. cbn [List.concat]. destruct (drop n data) as [|y more] eqn:Hd; cbn [List.concat]; rewrite <- (take_drop n data) at 2; rewrite Hd; [by rewrite app_nil_r|by rewrite <- app_assoc].
    + by apply (Hgo s1 script1 (sent ++ wire1) given (data :: rest) wire1).
Qed.

(** Nothing left: the wire is whole. *)
Lemma written_whole first s wire given : writing first s wire given [] -> given <> [] -> exists h a0 p0 ps, opening first s h a0 p0 /\ Forall (chunk_ok s) ps /\ wire = h ++ sealed a0 ps /\ given = p0 ++ List.concat ps.
Proof using.
  intros [Hpos Hw] Hg. destruct (salt_sent s); [|by destruct Hw as (_ & _ & _ & ?)]. destruct Hw as (h & a0 & p0 & ps & Ho & Hps & _ & Hsent & Hgiven & Hacc). exists h, a0, p0, ps. destruct (Nat.ltb_spec (out_pos s) (length (out s))) as [Hlt|Hge]; [specialize (Hacc Hlt); cbn in Hacc; lia|]. rewrite app_nil_r in Hgiven. rewrite drop_ge, app_nil_r in Hsent by lia. done.
Qed.
End Stream.

(** ** The properties *)

(** C39: Whatever is written into an AEAD stream of Shadowsocks, in whatever pieces
    and however the layer below takes them (waiting, or taking some of it), the
    writer never fails and never loses or repeats a byte: what it says is taken is a
    prefix of what was offered; and when all is taken, a reader of the same key with
    any salt of its own, however the bytes of the wire are cut up and delayed, and
    with whatever room it is polled, reads a prefix of it, and all of it when it
    is polled often enough. *)
Theorem ss_stream_carries_what_is_written {C : Type} {AE : Aead C} {AL : AeadLaws C} (sub sub2022 : list Z -> list Z -> list Z) key_ salt1 salt2 max datas turns wscript :
  length salt1 = salt_len key_ -> salt1 <> salt2 -> (0 < max)%nat -> (max <= MAX_PAYLOAD_2022)%nat -> takes wscript ->
  exists unwritten w wire, writes turns datas (stream_new sub sub2022 key_ salt1 max) wscript = Some (unwritten, w, wire)
    /\ (exists given, List.concat datas = given ++ List.concat unwritten)
    /\ (unwritten = [] -> List.concat datas <> [] -> forall script polls, delivers script -> flat script = wire -> Forall (fun p => (0 < p.1)%nat) polls ->
        exists got r script', reads sub sub2022 polls (stream_new sub sub2022 key_ salt2 max) script = Some (got, r, script')
          /\ exists rest, List.concat datas = got ++ rest /\ ((length script + length (List.concat datas) < length polls)%nat -> rest = [])).
Proof.
  intros Hl Hne Hm Hm2 Ht. destruct (writes_ok sub sub2022 (0, 0, []) turns datas (stream_new sub sub2022 key_ salt1 max) [] [] wscript) as (unwritten & w & wire & given & Hw & Hsame & Hg & Hok); [done| |by apply Forall_true|done|by split|].
  { unfold starts. destruct turns as [|[now random] turns]; [done|]. destruct datas as [|data datas]; [done|]. split; [by intros _ []|by intros _ []]. }
  exists unwritten, w, wire. split; [done|]. split; [by exists given|]. intros -> Hdata script polls Hd Hf Hp. cbn [hd List.concat app] in *. rewrite app_nil_r in Hg.
  destruct (written_whole sub sub2022 (0, 0, []) w wire given Hok) as (h & a0 & p0 & ps & Ho & Hps & Hwire & Hgiven); [by rewrite <- Hg|]. destruct Hsame as (Hk & Hmax & Hs & He). cbn [skey max_payload salt edition_2022 stream_new] in *. unfold opening in Ho. rewrite He, Hk, Hs in Ho. destruct Ho as (-> & -> & ->). cbn [app] in Hgiven.
  apply (reads_ok sub sub2022 None polls); [apply (Forall_impl _ _ _ Hp); intros p Hp'; by split|]. split; [done|]. cbn. exists salt1, ps. split; [lia|]. split; [done|]. split; [|split; [done|by rewrite Hf, Hwire, Hg]]. apply (Forall_impl _ _ _ Hps). unfold chunk_ok. by rewrite Hmax.
Qed.

(** C40: The first write of an SS 2022 request, called at [now] with [r] drawn, puts
    before everything the salt, the identity headers and two sealed chunks: the type
    0, [now] in eight bytes and the length of the second; and the address — as many
    bytes of the write as it has —, the length of the padding, the padding, zeros,
    and as much of the rest of the write as the chunk holds.  There is padding, of 1
    to 900 bytes as [r] says, exactly when nothing follows the address.  Everything
    else goes in chunks behind them in its order, however the layer below takes it.
    The answer that names this request and was sent within thirty seconds of the
    client's clock is read whole, however it comes; the header of an answer to
    another request, or from another time, is refused, each with its own error. *)
Theorem ss_2022_request_and_answer {C : Type} {AE : Aead C} {AL : AeadLaws C} (sub sub2022 : list Z -> list Z -> list Z) key_ salt1 request now r data datas turns wscript :
  (0 < addr_len request)%nat -> (addr_len request + Z.to_nat MAX_PADDING + 2 <= MAX_VARIABLE_HEADER)%nat -> takes wscript -> data <> [] -> 0 <= r -> Forall (fun t => exists r, t.2 = Some r /\ 0 <= r) turns ->
  let client := stream_new_2022 sub sub2022 key_ salt1 request in
  (exists unwritten w wire, writes ((now, Some r) :: turns) (data :: datas) client wscript = Some (unwritten, w, wire)
    /\ (unwritten = [] -> exists h a0 p0 ps, opening sub sub2022 (now, r, data) client h a0 p0 /\ Forall (chunk_ok client) ps /\ wire = h ++ sealed a0 ps /\ List.concat (data :: datas) = p0 ++ List.concat ps))
  /\ (forall salt2 sent_at first ps script polls, length salt2 = salt_len key_ -> (length first <= MAX_PAYLOAD_2022)%nat -> Forall (chunk_ok client) ps -> 0 <= sent_at < 2 ^ 64 ->
      let h := seal (session sub sub2022 key_ salt2) (response_header sent_at salt1 (length first)) in let b := seal h.2 first in
      delivers script -> flat script = salt2 ++ h.1 ++ b.1 ++ sealed b.2 ps -> Forall (fun p => (0 < p.1)%nat /\ Z.abs (sent_at - p.2) <= TIME_WINDOW) polls ->
      exists got r script', reads sub sub2022 polls client script = Some (got, r, script')
        /\ exists rest, first ++ List.concat ps = got ++ rest /\ ((length script + length (first ++ List.concat ps) < length polls)%nat -> rest = []))
  /\ (forall other sent_at n now, 0 <= sent_at < 2 ^ 64 -> (n <= MAX_PAYLOAD_2022)%nat -> length other = length salt1 ->
      (other <> salt1 -> check_response (response_header sent_at other n) salt1 now = Some (Err NotOurs))
      /\ (TIME_WINDOW < Z.abs (sent_at - now) -> check_response (response_header sent_at salt1 n) salt1 now = Some (Err (ClockDiffers (Z.abs (sent_at - now)))))).
Proof.
  intros Ha1 Ha2 Ht Hdata Hr0 Hr client. split; [|split].
  - destruct (writes_ok sub sub2022 (now, r, data) ((now, Some r) :: turns) (data :: datas) client [] [] wscript) as (unwritten & w & wire & given & Hw & Hsame & Hg & Hok).
    + split; [change (max_payload client) with MAX_PAYLOAD_2022; unfold MAX_PAYLOAD_2022; lia|split; [exact (Nat.le_refl _)|exact (conj Ha1 Ha2)]].
    + split; [done|]. intros _ _. by exists r.
    + constructor; [by exists r|exact Hr].
    + done.
    + by split.
    + exists unwritten, w, wire. split; [done|]. intros ->. cbn [hd app] in Hok, Hg. cbn [List.concat] in Hg. rewrite app_nil_r in Hg. destruct (written_whole sub sub2022 (now, r, data) w wire given Hok) as (h & a0 & p0 & ps & Ho & Hps & Hwire & Hgiven); [rewrite <- Hg; by destruct data|]. exists h, a0, p0, ps. destruct Hsame as (Hk & Hmax & Hs & He). unfold opening in *. rewrite He, Hk, Hs in Ho. split; [exact Ho|]. split; [|by cbn [List.concat]; rewrite Hg]. apply (Forall_impl _ _ _ Hps). unfold chunk_ok. by rewrite Hmax.
  - intros salt2 sent_at first ps script polls Hl Hfirst Hps Hsent h b Hd Hf Hp. apply (reads_ok sub sub2022 (Some sent_at) polls); [apply (Forall_impl _ _ _ Hp); intros p [Hp1 Hp2]; split; [done|]; intros t [= <-]; done|]. split; [done|]. cbn. exists salt2, ps. split; [lia|]. split; [done|]. split; [exact Hps|]. exists sent_at, first. done.
  - intros other sent_at n now' Hsent Hn Hl. split; intros Hno; rewrite header_said by done; [by rewrite bool_decide_false|]. rewrite bool_decide_true by done. by rewrite (proj2 (Z.ltb_lt _ _)).
Qed.

(** ** A cipher to try it with *)

(** Every byte moved by the key and the nonce, and these as the tag. *)
Definition moved_by (c : Z) (nonce : list Z) : Z := c + foldr Z.add 0 nonce.

#[local] Instance moving_aead : Aead Z := {
  aead_new _ key := foldr Z.add 0 key;
  seal_in_place c nonce plain := (map (Z.add (moved_by c nonce)) plain, replicate TAG (moved_by c nonce));
  open_in_place c nonce data tag := if bool_decide (tag = replicate TAG (moved_by c nonce)) then Some (map (fun b => b - moved_by c nonce) data) else None;
}.

#[local] Instance moving_laws : AeadLaws Z.
Proof.
  split; intros c nonce plain; cbn [seal_in_place open_in_place moving_aead fst snd].
  - rewrite bool_decide_true by done. f_equal. rewrite map_map. induction plain as [|b l IH]; [done|]. cbn [map]. rewrite IH. f_equal. lia.
  - apply length_map.
  - apply length_replicate.
Qed.

Definition try_sub (key salt : list Z) : list Z := key ++ salt.
Definition try_key : MasterKey := mkMaster Aes128Gcm (replicate 16 7) false.
Definition try_request : Request2022 := mkRequest2022 [8; 8] 2.
Definition try_turns : list (Z * option Z) := replicate 8 (5, Some 3).
Definition try_writes : list WriteEvent := [Takes 5; Hold; Takes 100; Takes 100; Hold; Takes 7; Takes 100].
Definition try_wire (s : @AeadStream Z) : list Z := match writes try_turns [[1; 2; 3]; [4]] s try_writes with Some (_, _, wire) => wire | None => [] end.
Definition try_stream (salt : Z) : @AeadStream Z := stream_new try_sub try_sub try_key (replicate 16 salt) 2.

Lemma ss_stream_carries_what_is_written_witness :
  exists got r script', reads try_sub try_sub (replicate 10 (2%nat, 0)) (try_stream 2) [Bytes (take 20 (try_wire (try_stream 1))); Wait; Bytes (drop 20 (try_wire (try_stream 1)))] = Some (got, r, script') /\ got = [1; 2; 3; 4].
Proof.
  destruct (ss_stream_carries_what_is_written try_sub try_sub try_key (replicate 16 1) (replicate 16 2) 2 [[1; 2; 3]; [4]] try_turns try_writes) as (unwritten & w & wire & Hw & _ & Hr); [reflexivity|discriminate|lia|unfold MAX_PAYLOAD_2022; lia|repeat constructor|].
  assert (Hu : option_map (fun t => t.1.1) (writes try_turns [[1; 2; 3]; [4]] (try_stream 1) try_writes) = Some []) by (vm_compute; reflexivity). assert (Ht : try_wire (try_stream 1) = wire) by (unfold try_wire, try_stream; rewrite Hw; reflexivity). unfold try_stream in Hu at 1. rewrite Hw in Hu. cbn in Hu. assert (Hn : unwritten = []) by congruence.
  destruct (Hr Hn ltac:(discriminate) [Bytes (take 20 (try_wire (try_stream 1))); Wait; Bytes (drop 20 (try_wire (try_stream 1)))] (replicate 10 (2%nat, 0))) as (got & r & script' & Hgot & rest & Hrest & Hall).
  - repeat constructor; vm_compute; discriminate.
  - cbn [flat flat_map]. rewrite app_nil_r, Ht. cbn [app]. apply take_drop.
  - apply Forall_replicate. cbn. lia.
  - exists got, r, script'. split; [exact Hgot|]. rewrite Hall, (app_nil_r got) in Hrest by (cbn; lia). symmetry. exact Hrest.
Defined.

Definition try_answer : list Z :=
  let h := seal (session try_sub try_sub try_key (replicate 16 2)) (response_header 9 (replicate 16 1) 2) in replicate 16 2 ++ h.1 ++ (seal h.2 [6; 7]).1.

Lemma ss_2022_request_and_answer_witness :
  exists got r script', reads try_sub try_sub (replicate 10 (2%nat, 12)) (stream_new_2022 try_sub try_sub try_key (replicate 16 1) try_request) [Bytes try_answer] = Some (got, r, script') /\ got = [6; 7].
Proof.
  destruct (ss_2022_request_and_answer try_sub try_sub try_key (replicate 16 1) try_request 5 3 [1; 2; 3] [[4]] try_turns try_writes) as (Hs & Hr & _); [cbn; lia|unfold MAX_VARIABLE_HEADER, MAX_PADDING; cbn [addr_len try_request]; lia|repeat constructor|discriminate|lia|apply Forall_replicate; exists 3; split; [reflexivity|lia]|].
  destruct (Hr (replicate 16 2) 9 [6; 7] [] [Bytes try_answer] (replicate 10 (2%nat, 12))) as (got & r & script' & Hgot & rest & Hrest & Hall).
  - reflexivity.
  - unfold MAX_PAYLOAD_2022. cbn [length]. lia.
  - constructor.
  - lia.
  - repeat constructor. vm_compute. discriminate.
  - vm_compute. reflexivity.
  - apply Forall_replicate. unfold TIME_WINDOW. cbn. lia.
  - exists got, r, script'. split; [exact Hgot|]. rewrite Hall, (app_nil_r got) in Hrest by (cbn; lia). symmetry. exact Hrest.
Defined.
