(* ===== verification/Glob.v ===== *)
(** * Wildcard patterns

    [crates/rurge-config/src/glob.rs]: [*] is any run, [?] any character,
    [[...]] a class when classes are asked for.  The pattern is compiled into
    tokens and matched with one remembered star.  The positions [si] and [pi]
    of the code are kept; [matches_fuel] bounds the loop, and
    [matches_decides] says that it is enough. *)

From S2P Require Import Prelude Bytes.

Record GlobOptions := mkGlobOptions { case_insensitive : bool; classes : bool }.

(** [GlobError] carries a text made from the pattern; the pattern is kept. *)
Inductive GlobError : Type := Unterminated (pattern : rstr).

Inductive Tok : Type :=
| Lit (c : Z)
| Any
| One
| Class (negate : bool) (ranges : list (Z * Z)).

#[export] Instance Tok_eq_dec : EqDecision Tok.
Proof. solve_decision. Defined.

Record Glob := mkGlob { source : rstr; toks : list Tok; ci : bool }.

Definition fold (c : Z) (ci : bool) : Z := if ci then lower_char c else c.

(** The inner loop: the ranges of a class and what follows its closing
    bracket; [None] when there is none. *)
Fixpoint class_ranges (fuel : nat) (ci : bool) (chars : list Z) (ranges : list (Z * Z)) : option (list (Z * Z) * list Z) :=
  match fuel with
  | O => None
  | S fuel =>
      match chars with
      | [] => None
      | lo :: rest =>
          if (lo =? 93) && negb (bool_decide (ranges = [])) then Some (ranges, rest)
          else
            match rest with
            | dash :: hi :: rest' =>
                if (dash =? 45) && negb (hi =? 93)
                then class_ranges fuel ci rest' (ranges ++ [(fold lo ci, fold hi ci)])
                else class_ranges fuel ci rest (ranges ++ [(fold lo ci, fold lo ci)])
            | _ => class_ranges fuel ci rest (ranges ++ [(fold lo ci, fold lo ci)])
            end
      end
  end.

Definition is_negation (c : Z) : bool := (c =? 33) || (c =? 94).

(** [Glob::new]'s loop, from the character at [i] on. *)
Fixpoint new_toks (fuel : nat) (opts : GlobOptions) (chars : list Z) (toks : list Tok) : option (list Tok) :=
  match fuel with
  | O => None
  | S fuel =>
      match chars with
      | [] => Some toks
      | c :: rest =>
          if c =? 42 then new_toks fuel opts rest (if bool_decide (last toks = Some Any) then toks else toks ++ [Any])
          else if c =? 63 then new_toks fuel opts rest (toks ++ [One])
          else if (c =? 91) && classes opts then
            let negate := match rest with x :: _ => is_negation x | [] => false end in
            let rest := if negate then drop 1 rest else rest in
            match class_ranges (S (length rest)) (case_insensitive opts) rest [] with
            | Some (ranges, rest) => new_toks fuel opts rest (toks ++ [Class negate ranges])
            | None => None
            end
          else new_toks fuel opts rest (toks ++ [Lit (fold c (case_insensitive opts))])
      end
  end.

Definition new (pattern : rstr) (opts : GlobOptions) : res GlobError Glob :=
  match new_toks (S (length pattern)) opts pattern [] with
  | Some toks => Ok (mkGlob pattern toks (case_insensitive opts))
  | None => Err (Unterminated pattern)
  end.

Definition has_wildcards (g : Glob) : bool :=
  existsb (fun t => match t with Lit _ => false | _ => true end) (toks g).

Definition tok_matches (tok : Tok) (c : Z) : bool :=
  match tok with
  | Lit l => l =? c
  | One => true
  | Class negate ranges => negb (Bool.eqb (existsb (fun r => (r.1 <=? c) && (c <=? r.2)) ranges) negate)
  | Any => false
  end.

(** The token and the character at a position, and one turn of the loop: an
    answer, or the next position and star. *)
Definition Pos : Type := nat * nat * option (nat * nat).

Definition turn (toks : list Tok) (input : list Z) (pos : Pos) : bool + Pos :=
  let '(si, pi, star) := pos in
  match input !! si with
  | Some c =>
      if match toks !! pi with Some t => tok_matches t c | None => false end
      then inr (S si, S pi, star)
      else if bool_decide (toks !! pi = Some Any) then inr (si, S pi, Some (pi, si))
      else match star with
           | Some (sp, ss) => inr (S ss, S sp, Some (sp, S ss))
           | None => inl false
           end
  | None => inl (bool_decide (Forall (fun t => t = Any) (drop pi toks)))
  end.

Fixpoint run (fuel : nat) (toks : list Tok) (input : list Z) (pos : Pos) : option bool :=
  match fuel with
  | O => None
  | S fuel =>
      match turn toks input pos with
      | inl b => Some b
      | inr pos => run fuel toks input pos
      end
  end.

Definition matches_fuel (toks : list Tok) (input : list Z) : nat :=
  S ((length toks + 2) * (length input + 1) * (length toks + 1)).

Definition matches (g : Glob) (s : rstr) : option bool :=
  let input := map (fun c => fold c (ci g)) s in
  run (matches_fuel (toks g) input) (toks g) input (0%nat, 0%nat, None).

(** ** What a pattern means *)

(** A text that is what the tokens say, one after the other. *)
Inductive fits : list Tok -> list Z -> Prop :=
| fits_nil : fits [] []
| fits_tok t ts c cs : tok_matches t c = true -> fits ts cs -> fits (t :: ts) (c :: cs)
| fits_any_end ts cs : fits ts cs -> fits (Any :: ts) cs
| fits_any_more ts c cs : fits (Any :: ts) cs -> fits (Any :: ts) (c :: cs).

Lemma fits_any ts cs : fits (Any :: ts) cs <-> exists k, (k <= length cs)%nat /\ fits ts (drop k cs).
Proof.
  split.
  - intros Hf. remember (Any :: ts) as ts' eqn:Hts. induction Hf; simplify_eq/=; [by exists 0%nat; split; [lia|]|].
    destruct IHHf as (k & Hk & Hf'); [done|]. exists (S k). simpl. split; [lia|done].
  - intros (k & Hk & Hf). revert cs Hk Hf. induction k as [|k IH]; intros cs Hk Hf; [by apply fits_any_end|].
    destruct cs as [|c cs]; simpl in *; [lia|]. apply fits_any_more, IH; [lia|done].
Qed.

Lemma fits_tok_inv t ts cs : t <> Any -> fits (t :: ts) cs ->
  exists c cs', cs = c :: cs' /\ tok_matches t c = true /\ fits ts cs'.
Proof. intros Ht Hf. inversion Hf; simplify_eq; naive_solver. Qed.

(** Tokens that are no star take a character each. *)
Lemma fits_mid mid ts cs : Forall (fun t => t <> Any) mid -> fits (mid ++ ts) cs ->
  (length mid <= length cs)%nat /\ fits ts (drop (length mid) cs).
Proof.
  intros Hmid. revert cs. induction Hmid as [|t mid Ht _ IH]; intros cs Hf; simpl in *; [split; [lia|by rewrite drop_0]|].
  apply fits_tok_inv in Hf as (c & cs' & -> & _ & Hf); [|done]. apply IH in Hf as [Hl Hf]. simpl. split; [lia|done].
Qed.

(** A later star takes what an earlier one could have: no need to go back to
    a star before it. *)
Lemma fits_skip mid ts cs k : Forall (fun t => t <> Any) mid ->
  fits (Any :: mid ++ Any :: ts) (drop k cs) -> fits (Any :: ts) (drop (k + length mid) cs).
Proof.
  intros Hmid (p & Hp & Hf)%fits_any. apply fits_mid in Hf as [Hl Hf]; [|done].
  rewrite !drop_drop in Hf. apply fits_any in Hf as (q & Hq & Hf). apply fits_any. repeat rewrite length_drop in Hl. rewrite !length_drop in Hp, Hq |- *.
  exists (p + q)%nat. split; [lia|]. rewrite !drop_drop in *.
  by replace (k + length mid + (p + q))%nat with (k + (p + length mid) + q)%nat by lia.
Qed.

Lemma fits_nil_r ts : fits ts [] <-> Forall (fun t => t = Any) ts.
Proof.
  split.
  - intros Hf. remember [] as cs eqn:Hcs. induction Hf; simplify_eq; try done; constructor; [done|by apply IHHf].
  - induction 1; [constructor|]. subst. by apply fits_any_end.
Qed.

(** ** The loop *)

(** What the loop keeps of a position: the tokens since the star are no stars
    and stand for as many characters. *)
Definition star_ok (toks : list Tok) (input : list Z) (pos : Pos) : Prop :=
  let '(si, pi, star) := pos in
  (si <= length input)%nat /\ (pi <= length toks)%nat /\
  match star with
  | None => True
  | Some (sp, ss) =>
      exists mid, drop sp toks = Any :: mid ++ drop pi toks /\ Forall (fun t => t <> Any) mid
        /\ (si = ss + length mid)%nat /\ (pi = S sp + length mid)%nat
  end.

(** What is still to be tried from a position. *)
Definition open_at (toks : list Tok) (input : list Z) (pos : Pos) : Prop :=
  let '(si, pi, star) := pos in
  fits (drop pi toks) (drop si input)
  \/ exists sp ss, star = Some (sp, ss) /\ (ss < length input)%nat /\ fits (drop sp toks) (drop (S ss) input).

(** How far a position is from the end of the loop. *)
Definition left (toks : list Tok) (input : list Z) (pos : Pos) : nat :=
  let '(si, pi, star) := pos in
  let n := length input in
  let m := length toks in
  match star with
  | None => ((m + 1) * ((n + 1) * (m + 1)) + n * (m + 1) + (m - pi))%nat
  | Some (sp, ss) => ((m - sp) * ((n + 1) * (m + 1)) + (n - ss) * (m + 1) + (m - pi))%nat
  end.

Lemma tok_no_any t c : tok_matches t c = true -> t <> Any.
Proof. by destruct t. Qed.

(** A position and the next are as open, and the next is nearer the end. *)
Definition advances (toks : list Tok) (input : list Z) (pos pos' : Pos) : Prop :=
  star_ok toks input pos' /\ (open_at toks input pos' <-> open_at toks input pos)
  /\ (left toks input pos' < left toks input pos)%nat.

(** A character taken. *)
Lemma take_advances toks input si pi star t c : star_ok toks input (si, pi, star) ->
  input !! si = Some c -> toks !! pi = Some t -> tok_matches t c = true ->
  advances toks input (si, pi, star) (S si, S pi, star).
Proof.
  intros (Hsi & Hpi & Hstar) Hc Htok Hm.
  pose proof (lookup_lt_Some _ _ _ Hc). pose proof (lookup_lt_Some _ _ _ Htok).
  assert (Hd : drop pi toks = t :: drop (S pi) toks) by (by apply drop_S).
  split; [split; [lia|split; [lia|]]|split].
  - destruct star as [[sp ss]|]; [|done]. destruct Hstar as (mid & Hdm & Hmid & Hl & Hp).
    exists (mid ++ [t]). rewrite Hdm, Hd, <- app_assoc, length_app. simpl. split; [done|].
    split; [apply Forall_app_2; [done|constructor; [by eapply tok_no_any|constructor]]|lia].
  - unfold open_at. rewrite Hd, (drop_S _ _ _ Hc). split; (intros [Hf|Hs]; [left|by right]).
    + by constructor.
    + apply fits_tok_inv in Hf as (? & ? & ? & _ & ?); [by simplify_eq|by eapply tok_no_any].
  - unfold left. destruct star as [[sp ss]|]; lia.
Qed.

(** A new star. *)
Lemma star_advances toks input si pi star : star_ok toks input (si, pi, star) ->
  (si < length input)%nat -> toks !! pi = Some Any ->
  advances toks input (si, pi, star) (si, S pi, Some (pi, si)).
Proof.
  intros (Hsi & Hpi & Hstar) Hlt Htok. pose proof (lookup_lt_Some _ _ _ Htok).
  assert (Hd : drop pi toks = Any :: drop (S pi) toks) by (by apply drop_S).
  split; [split; [lia|split; [lia|]]|split].
  - exists []. simpl. split; [done|]. split; [constructor|lia].
  - assert (Hopen : open_at toks input (si, S pi, Some (pi, si)) <-> fits (drop pi toks) (drop si input)).
    { destruct (lookup_lt_is_Some_2 input si Hlt) as [c Hc]. unfold open_at. rewrite Hd, (drop_S _ _ _ Hc). split.
      - intros [Hf|(sp & ss & [= <- <-] & _ & Hf)]; [by apply fits_any_end|].
        rewrite Hd in Hf. by apply fits_any_more.
      - intros Hf. inversion Hf; simplify_eq; [by left|]. right. exists pi, si. by rewrite Hd. }
    rewrite Hopen. split; [by left|]. intros [Hf|(sp & ss & -> & Hss & Hf)]; [done|].
    destruct Hstar as (mid & Hdm & Hmid & Hl & Hp). rewrite Hdm, Hd in Hf.
    apply fits_skip in Hf; [|done]. rewrite Hd. apply fits_any in Hf as (k & Hk & Hf). apply fits_any.
    exists (S k). rewrite length_drop in *. split; [lia|]. rewrite drop_drop in *.
    by replace (si + S k)%nat with (S ss + length mid + k)%nat by lia.
  - unfold left. destruct star as [[sp ss]|].
    + destruct Hstar as (mid & _ & _ & _ & Hp). nia.
    + nia.
Qed.

(** Back to the star. *)
Lemma back_advances toks input si pi sp ss : star_ok toks input (si, pi, Some (sp, ss)) ->
  (si < length input)%nat -> ~ fits (drop pi toks) (drop si input) ->
  advances toks input (si, pi, Some (sp, ss)) (S ss, S sp, Some (sp, S ss)).
Proof.
  intros (Hsi & Hpi & mid & Hdm & Hmid & Hl & Hp) Hlt Hno.
  assert (Hds : drop (S sp) toks = mid ++ drop pi toks).
  { replace (S sp) with (sp + 1)%nat by lia. by rewrite <- drop_drop, Hdm. }
  split; [split; [lia|split; [lia|]]|split].
  - exists []. simpl. rewrite Hds. split; [done|]. split; [constructor|lia].
  - assert (Hstep : fits (drop sp toks) (drop (S ss) input)
      <-> fits (drop (S sp) toks) (drop (S ss) input)
          \/ ((S ss < length input)%nat /\ fits (drop sp toks) (drop (S (S ss)) input))).
    { rewrite Hds, Hdm. destruct (input !! S ss) as [c'|] eqn:Hc'.
      - pose proof (lookup_lt_Some _ _ _ Hc'). rewrite (drop_S _ _ _ Hc'). split.
        + intros Hf. inversion Hf; simplify_eq; [by left|by right].
        + intros [Hf|[_ Hf]]; [by apply fits_any_end|by apply fits_any_more].
      - apply lookup_ge_None_1 in Hc'. rewrite (drop_ge input (S ss)) by done. split.
        + intros Hf. inversion Hf; simplify_eq. by left.
        + intros [Hf|[? _]]; [by apply fits_any_end|lia]. }
    unfold open_at. split.
    + intros Ho. right. exists sp, ss. split; [done|]. split; [lia|]. apply Hstep.
      destruct Ho as [Hf|(sp' & ss' & [= <- <-] & Hss & Hf)]; [by left|by right].
    + intros [Hf|(sp' & ss' & [= <- <-] & Hss & Hf)]; [done|]. apply Hstep in Hf as [Hf|[? Hf]]; [by left|].
      right. by exists sp, (S ss).
  - unfold left. nia.
Qed.

(** The character at hand is neither taken nor given to a star. *)
Lemma stuck toks input si pi c : input !! si = Some c ->
  match toks !! pi with Some t => tok_matches t c | None => false end = false -> toks !! pi <> Some Any ->
  ~ fits (drop pi toks) (drop si input).
Proof.
  intros Hc Hm Hany Hf. rewrite (drop_S _ _ _ Hc) in Hf. destruct (toks !! pi) as [t|] eqn:Htok.
  - rewrite (drop_S _ _ _ Htok) in Hf. apply fits_tok_inv in Hf as (c' & cs' & Heq & Hm' & _); [|congruence].
    simplify_eq. congruence.
  - rewrite drop_ge in Hf by (by apply lookup_ge_None_1). inversion Hf.
Qed.

(** One turn: the answer is right, or the next position is as open. *)
Lemma turn_inl toks input pos b : star_ok toks input pos -> turn toks input pos = inl b ->
  (b = true <-> open_at toks input pos).
Proof.
  destruct pos as [[si pi] star]. intros (Hsi & Hpi & Hstar) Ht. unfold turn in Ht.
  destruct (input !! si) as [c|] eqn:Hc.
  - destruct (match toks !! pi with Some t => tok_matches t c | None => false end) eqn:Hm; [done|].
    case_bool_decide as Hany; [done|]. destruct star as [[sp ss]|]; [done|]. simplify_eq.
    split; [done|]. intros [Hf|(? & ? & ? & _)]; [|done]. by apply (stuck toks input si pi c) in Hf.
  - simplify_eq. rewrite bool_decide_eq_true. apply lookup_ge_None_1 in Hc. unfold open_at.
    rewrite (drop_ge input si) by done. rewrite fits_nil_r. split; [by left|]. intros [Hf|(sp & ss & -> & Hss & Hf)]; [done|].
    destruct Hstar as (mid & Hd & Hmid & Hl & Hp). rewrite Hd in Hf. apply fits_any in Hf as (k & Hk & Hf).
    apply fits_mid in Hf as [Hlen _]; [|done]. rewrite !length_drop in Hlen. lia.
Qed.

Lemma turn_inr toks input pos pos' : star_ok toks input pos -> turn toks input pos = inr pos' ->
  advances toks input pos pos'.
Proof.
  destruct pos as [[si pi] star]. intros Hok Ht. unfold turn in Ht.
  destruct (input !! si) as [c|] eqn:Hc; [|done]. pose proof (lookup_lt_Some _ _ _ Hc).
  destruct (match toks !! pi with Some t => tok_matches t c | None => false end) eqn:Hm.
  - destruct (toks !! pi) as [t|] eqn:Htok; [|done]. simplify_eq. by eapply take_advances.
  - case_bool_decide; [simplify_eq; by apply star_advances|]. destruct star as [[sp ss]|]; [|done]. simplify_eq.
    apply back_advances; [done..|]. by eapply stuck.
Qed.

Lemma run_decides fuel toks input pos : star_ok toks input pos -> (left toks input pos < fuel)%nat ->
  exists b, run fuel toks input pos = Some b /\ (b = true <-> open_at toks input pos).
Proof.
  revert pos. induction fuel as [|fuel IH]; intros pos Hok Hf; [lia|]. simpl.
  destruct (turn toks input pos) as [b|pos'] eqn:Ht; [exists b; split; [done|by apply turn_inl]|].
  destruct (turn_inr _ _ _ _ Hok Ht) as (Hok' & Ho & Hl).
  destruct (IH pos' Hok') as (b & Hr & Hb); [lia|]. exists b. split; [done|]. tauto.
Qed.

(** The loop ends, and answers whether the whole text is what the whole
    pattern says. *)
Lemma matches_decides g s :
  exists b, matches g s = Some b /\ (b = true <-> fits (toks g) (map (fun c => fold c (ci g)) s)).
Proof.
  unfold matches. set (input := map _ s).
  destruct (run_decides (matches_fuel (toks g) input) (toks g) input (0%nat, 0%nat, None)) as (b & -> & Hb).
  - split; [lia|split; [lia|done]].
  - unfold left, matches_fuel. nia.
  - exists b. split; [done|]. rewrite Hb. unfold open_at. rewrite !drop_0. split; [|by left].
    intros [Hf|(? & ? & ? & _)]; [done|discriminate].
Qed.

(** ** What a pattern says, character by character *)

Definition in_class (negate : bool) (ranges : list (Z * Z)) (c : Z) : Prop :=
  (exists r, r ∈ ranges /\ r.1 <= c <= r.2) <-> negate = false.

(** The characters of a pattern against those of a text.  A class is what
    [class_ranges] reads between the brackets. *)
Inductive says (opts : GlobOptions) : rstr -> rstr -> Prop :=
| says_end : says opts [] []
| says_star p s1 s2 : says opts p s2 -> says opts (42 :: p) (s1 ++ s2)
| says_one p c s : says opts p s -> says opts (63 :: p) (c :: s)
| says_class p p' negate ranges c s :
    classes opts = true ->
    negate = match p with x :: _ => is_negation x | [] => false end ->
    (let body := if negate then drop 1 p else p in
     class_ranges (S (length body)) (case_insensitive opts) body [] = Some (ranges, p')) ->
    in_class negate ranges (fold c (case_insensitive opts)) ->
    says opts p' s -> says opts (91 :: p) (c :: s)
| says_lit l p c s : l <> 42 -> l <> 63 -> (l = 91 -> classes opts = false) ->
    fold l (case_insensitive opts) = fold c (case_insensitive opts) ->
    says opts p s -> says opts (l :: p) (c :: s).

Lemma in_class_spec negate ranges c : tok_matches (Class negate ranges) c = true <-> in_class negate ranges c.
Proof.
  unfold in_class. simpl. destruct (existsb (fun r => (r.1 <=? c) && (c <=? r.2)) ranges) eqn:He.
  - assert (Hin : exists r, r ∈ ranges /\ r.1 <= c <= r.2).
    { apply existsb_exists in He as (r & Hr & Hc). exists r. split; [by apply list_elem_of_In|lia]. }
    destruct negate; simpl; naive_solver.
  - assert (Hin : ~ exists r, r ∈ ranges /\ r.1 <= c <= r.2).
    { intros (r & Hr & Hc). rewrite <- not_true_iff_false, existsb_exists in He. apply He.
      exists r. split; [by apply list_elem_of_In|lia]. }
    destruct negate; simpl; naive_solver.
Qed.

Lemma fits_app a b cs : fits (a ++ b) cs <-> exists x y, cs = x ++ y /\ fits a x /\ fits b y.
Proof.
  split.
  - revert cs. induction a as [|t a IH]; intros cs Hf; [by exists [], cs; split; [|split; [constructor|]]|].
    simpl in Hf. remember (t :: a ++ b) as l eqn:Hl. revert Hl. induction Hf; intros Hl; simplify_eq/=.
    + apply IH in Hf as (x & y & -> & Hx & Hy). exists (c :: x), y. split; [done|]. split; [by constructor|done].
    + apply IH in Hf as (x & y & -> & Hx & Hy). exists x, y. split; [done|]. split; [by apply fits_any_end|done].
    + destruct (IHHf eq_refl) as (x & y & -> & Hx & Hy). exists (c :: x), y. split; [done|].
      split; [by apply fits_any_more|done].
  - intros (x & y & -> & Hx & Hy). induction Hx; simpl; [done|by constructor|by apply fits_any_end|by apply fits_any_more].
Qed.

Lemma fits_any_all x : fits [Any] x.
Proof. apply fits_any. exists (length x). split; [done|]. rewrite drop_all. constructor. Qed.

Lemma fits_single t x : t <> Any -> fits [t] x <-> exists c, x = [c] /\ tok_matches t c = true.
Proof.
  intros Ht. split.
  - intros (c & cs & -> & Hm & Hf)%fits_tok_inv; [|done]. inversion Hf; subst. by exists c.
  - intros (c & -> & Hm). constructor; [done|constructor].
Qed.

Section compile.
Context (opts : GlobOptions).
Let f : Z -> Z := fun c => fold c (case_insensitive opts).

(** Tokens already made, then the rest of the pattern. *)
Definition then_says (acc : list Tok) (p s : rstr) : Prop :=
  exists a b, s = a ++ b /\ fits acc (map f a) /\ says opts p b.

(** A token of one character in place of the part of the pattern it is for. *)
Lemma then_says_tok acc t p p' s : t <> Any ->
  (forall b, says opts p b <-> exists c b', b = c :: b' /\ tok_matches t (f c) = true /\ says opts p' b') ->
  then_says acc p s <-> then_says (acc ++ [t]) p' s.
Proof.
  intros Ht Hp. unfold then_says. split.
  - intros (a & b & -> & Ha & Hb). apply Hp in Hb as (c & b' & -> & Hm & Hb). exists (a ++ [c]), b'.
    rewrite <- app_assoc. split; [done|]. split; [|done]. rewrite map_app. apply fits_app.
    exists (map f a), [f c]. split; [done|]. split; [done|]. apply fits_single; [done|]. by exists (f c).
  - intros (a & b & -> & Ha & Hb). apply fits_app in Ha as (x & y & Hxy & Hx & Hy).
    apply fits_single in Hy as (c & -> & Hm); [|done]. apply map_eq_app in Hxy as (x' & y' & -> & <- & Hy').
    destruct y' as [|c' [|? ?]]; simplify_eq/=. exists x', (c' :: b). rewrite <- app_assoc. split; [done|].
    split; [done|]. apply Hp. by exists c', b.
Qed.

Lemma then_says_star acc p s : then_says acc (42 :: p) s <-> then_says (acc ++ [Any]) p s.
Proof.
  unfold then_says. split.
  - intros (a & b & -> & Ha & Hb). inversion Hb; simplify_eq; try done. exists (a ++ s1), s2. rewrite <- app_assoc.
    split; [done|]. split; [|done]. rewrite map_app. apply fits_app. exists (map f a), (map f s1).
    split; [done|]. split; [done|]. apply fits_any_all.
  - intros (a & b & -> & Ha & Hb). apply fits_app in Ha as (x & y & Hxy & Hx & _).
    apply map_eq_app in Hxy as (x' & y' & -> & <- & <-). exists x', (y' ++ b). rewrite <- app_assoc. split; [done|].
    split; [done|]. by apply says_star.
Qed.

(** Two stars in a row are one. *)
Lemma then_says_stars acc p s : then_says ((acc ++ [Any]) ++ [Any]) p s <-> then_says (acc ++ [Any]) p s.
Proof.
  assert (Hf : forall x, fits ((acc ++ [Any]) ++ [Any]) x <-> fits (acc ++ [Any]) x).
  { intros x. rewrite !fits_app. setoid_rewrite fits_app. split.
    - intros (a & b & -> & (a1 & a2 & -> & H1 & _) & _). exists a1, (a2 ++ b). rewrite <- app_assoc.
      split; [done|]. split; [done|]. apply fits_any_all.
    - intros (a & b & -> & Ha & _). exists (a ++ b), []. rewrite app_nil_r. split; [done|].
      split; [|apply fits_any_all]. exists a, b. split; [done|]. split; [done|]. apply fits_any_all. }
  unfold then_says. setoid_rewrite Hf. done.
Qed.

Lemma class_ranges_shorter fuel chars ranges rs rest :
  class_ranges fuel (case_insensitive opts) chars ranges = Some (rs, rest) -> (length rest < length chars)%nat.
Proof.
  revert chars ranges. induction fuel as [|fuel IH]; intros chars ranges Hc; [done|]. simpl in Hc.
  repeat case_match; simplify_eq/=; try lia;
    match goal with Hr : class_ranges _ _ _ _ = _ |- _ => apply IH in Hr; simpl in Hr; lia end.
Qed.

Lemma says_one_char p b : says opts (63 :: p) b <-> exists c b', b = c :: b' /\ tok_matches One (f c) = true /\ says opts p b'.
Proof.
  split.
  - intros Hs. inversion Hs; simplify_eq; by exists c, s.
  - intros (c & b' & -> & _ & Hs). by constructor.
Qed.

Lemma says_lit_char l p b : l <> 42 -> l <> 63 -> (l = 91 -> classes opts = false) ->
  says opts (l :: p) b <-> exists c b', b = c :: b' /\ tok_matches (Lit (f l)) (f c) = true /\ says opts p b'.
Proof.
  intros H1 H2 H3. simpl. split.
  - intros Hs. inversion Hs; simplify_eq; [specialize (H3 eq_refl); congruence|]. exists c, s.
    split; [done|]. split; [|done]. by apply Z.eqb_eq.
  - intros (c & b' & -> & Hm & Hs). apply Z.eqb_eq in Hm. by constructor.
Qed.

Lemma says_class_char p p' negate ranges b : classes opts = true ->
  negate = match p with x :: _ => is_negation x | [] => false end ->
  (let body := if negate then drop 1 p else p in
   class_ranges (S (length body)) (case_insensitive opts) body [] = Some (ranges, p')) ->
  says opts (91 :: p) b <-> exists c b', b = c :: b' /\ tok_matches (Class negate ranges) (f c) = true /\ says opts p' b'.
Proof.
  intros Hc Hn Hr. split.
  - intros Hs. inversion Hs; simplify_eq.
    + exists c, s. split; [done|]. cbv zeta in *. simplify_eq. split; [by apply in_class_spec|done].
    + match goal with Hcl : 91 = 91 -> _ |- _ => rewrite Hcl in Hc by done end. done.
  - intros (c & b' & -> & Hm & Hs). eapply says_class; [done|done|done| |done]. by apply in_class_spec.
Qed.

(** The tokens say what the pattern says. *)
Lemma new_toks_says fuel chars acc toks s : new_toks fuel opts chars acc = Some toks ->
  then_says acc chars s <-> fits toks (map f s).
Proof.
  revert chars acc. induction fuel as [|fuel IH]; intros chars acc Hn; [done|]. cbn [new_toks] in Hn.
  destruct chars as [|c rest].
  { simplify_eq. unfold then_says. split.
    - intros (a & b & -> & Ha & Hb). inversion Hb; subst. by rewrite app_nil_r.
    - intros Hf. exists s, []. rewrite app_nil_r. split; [done|]. split; [done|constructor]. }
  destruct (Z.eqb_spec c 42) as [->|Hstar].
  { apply IH in Hn. rewrite <- Hn. rewrite then_says_star. case_bool_decide as Hl; [|done].
    apply last_Some in Hl as (l' & ->). apply then_says_stars. }
  destruct (Z.eqb_spec c 63) as [->|Hone].
  { apply IH in Hn. rewrite <- Hn. apply then_says_tok; [done|]. apply says_one_char. }
  destruct (Z.eqb_spec c 91) as [->|Hbr]; cbn [andb] in Hn.
  2:{ apply IH in Hn. rewrite <- Hn. apply then_says_tok; [done|]. intros b. by apply says_lit_char. }
  destruct (classes opts) eqn:Hcl.
  2:{ apply IH in Hn. rewrite <- Hn. apply then_says_tok; [done|]. intros b. by apply says_lit_char. }
  match type of Hn with context [class_ranges (S (length ?body))] => set (bd := body) in * end.
  destruct (class_ranges _ _ _ _) as [[ranges rest']|] eqn:Hr; [|done].
  apply IH in Hn. rewrite <- Hn. apply then_says_tok; [done|]. intros b. by eapply says_class_char.
Qed.

Lemma new_toks_total fuel chars acc : (length chars < fuel)%nat -> classes opts = false ->
  is_Some (new_toks fuel opts chars acc).
Proof.
  revert chars acc. induction fuel as [|fuel IH]; intros chars acc Hl Hc; [lia|]. simpl.
  destruct chars as [|c rest]; [done|]. simpl in Hl. rewrite Hc, andb_false_r. repeat case_match; apply IH; done || lia.
Qed.

End compile.

(** C9: a pattern that compiles matches exactly the texts it says: the
    matching loop ends on every text, and answers [true] exactly when the text
    is what the pattern says character by character — whatever stars there are,
    and with upper- and lower-case ASCII letters alike when asked for.  A pattern
    always compiles when classes are not asked for.  *)
Theorem glob_matches_what_it_says pattern opts :
  (classes opts = false -> exists g, new pattern opts = Ok g)
  /\ forall g s, new pattern opts = Ok g ->
     exists b, matches g s = Some b /\ (b = true <-> says opts pattern s).
Proof.
  split.
  - intros Hc. unfold new. destruct (new_toks_total opts (S (length pattern)) pattern []) as [toks ->]; [lia|done|].
    by eexists.
  - intros g s Hn. unfold new in Hn. destruct (new_toks _ _ _ _) as [toks|] eqn:Ht; [|done]. simplify_eq.
    destruct (matches_decides (mkGlob pattern toks (case_insensitive opts)) s) as (b & Hm & Hb).
    exists b. split; [done|]. rewrite Hb. simpl. rewrite <- new_toks_says by done. unfold then_says. split.
    + intros (a & b' & -> & Ha & Hs). inversion Ha as [Hnil| | |]. destruct a; [done|discriminate].
    + intros Hs. exists [], s. split; [done|]. split; [constructor|done].
Qed.

Lemma glob_matches_what_it_says_witness :
  exists g, new (lit "*.ex?mple.[a-c]om*") (mkGlobOptions true true) = Ok g
    /\ matches g (lit "a.EXAMPLE.com") = Some true
    /\ says (mkGlobOptions true true) (lit "*.ex?mple.[a-c]om*") (lit "a.EXAMPLE.com").
Proof.
  eexists. split; [vm_compute; reflexivity|]. split; [vm_compute; reflexivity|].
  destruct (proj2 (glob_matches_what_it_says (lit "*.ex?mple.[a-c]om*") (mkGlobOptions true true))
    (mkGlob (lit "*.ex?mple.[a-c]om*")
       [Any; Lit 46; Lit 101; Lit 120; One; Lit 109; Lit 112; Lit 108; Lit 101; Lit 46; Class false [(97, 99)]; Lit 111; Lit 109; Any] true)
    (lit "a.EXAMPLE.com")) as (b & Hm & Hb).
  - vm_compute. reflexivity.
  - apply Hb. vm_compute in Hm. injection Hm as <-. reflexivity.
Defined.
