(* ===== verification/DomainIndex.v ===== *)
(** * The domain index

    [crates/rurge-rules/src/domain_index.rs]: exact names and suffixes under
    one sorted array of names written backwards ([com.example.www]), looked up
    by binary search of every prefix that ends before a dot.  [lookup_finds] says
    that this is the search for the smallest entry among the names that match. *)

From S2P Require Import Prelude.

Definition NO_ENTRY : Z := u32_max.

Inductive DomainMatchKind : Type := Exact | Suffix.

#[export] Instance kind_eq_dec : EqDecision DomainMatchKind.
Proof. solve_decision. Defined.

Record DomainHit := mkHit { entry : Z; kind : DomainMatchKind }.

Record DomainIndex := mkIndex { keys : list rstr; exact_slots : list Z; suffix_slots : list Z }.

(** An item of [DomainIndexBuilder]. *)
Definition Item : Type := rstr * Z * DomainMatchKind.
Definition item_key (it : Item) : rstr := it.1.1.
Definition item_entry (it : Item) : Z := it.1.2.
Definition item_kind (it : Item) : DomainMatchKind := it.2.

(** [str::cmp]: UTF-8 sorts as its scalar values do. *)
Fixpoint str_cmp (a b : rstr) : comparison :=
  match a, b with
  | [], [] => Eq
  | [], _ => Lt
  | _, [] => Gt
  | x :: a, y :: b => match x ?= y with Eq => str_cmp a b | c => c end
  end.

Definition trimmed (domain : rstr) : rstr := to_ascii_lowercase (trim_by (fun c => c =? 46) (trim domain)).

Definition reverse_labels (domain : rstr) : option rstr :=
  let d := trimmed domain in
  match d with
  | [] => None
  | _ => Some (join_with 46 (reverse (split_on 46 d)))
  end.

Definition add (k : DomainMatchKind) (domain : rstr) (entry : Z) (items : list Item) : list Item :=
  match reverse_labels domain with
  | Some key => items ++ [(key, entry, k)]
  | None => items
  end.

Definition add_exact : rstr -> Z -> list Item -> list Item := add Exact.
Definition add_suffix : rstr -> Z -> list Item -> list Item := add Suffix.

(** The order [build] sorts by. *)
Definition item_le (a b : Item) : Prop :=
  match str_cmp (item_key a) (item_key b) with
  | Lt => True
  | Eq => item_entry a <= item_entry b
  | Gt => False
  end.

#[export] Instance item_le_dec : RelDecision item_le.
Proof. intros a b. unfold item_le. destruct (str_cmp _ _); apply _. Defined.

(** [slots.last_mut().expect(..)], and what is written there. *)
Definition update_last (f : Z -> Z) (slots : list Z) : option (list Z) :=
  match last slots with
  | Some x => Some (take (pred (length slots)) slots ++ [f x])
  | None => None
  end.

Definition better (entry slot : Z) : Z := if (slot =? NO_ENTRY) || (entry <? slot) then entry else slot.

Definition build_step (idx : DomainIndex) (it : Item) : option DomainIndex :=
  let same := match last (keys idx) with Some l => bool_decide (l = item_key it) | None => false end in
  let idx :=
    if same then idx
    else mkIndex (keys idx ++ [item_key it]) (exact_slots idx ++ [NO_ENTRY]) (suffix_slots idx ++ [NO_ENTRY]) in
  match item_kind it with
  | Exact => e ← update_last (better (item_entry it)) (exact_slots idx); Some (mkIndex (keys idx) e (suffix_slots idx))
  | Suffix => s ← update_last (better (item_entry it)) (suffix_slots idx); Some (mkIndex (keys idx) (exact_slots idx) s)
  end.

Fixpoint build_items (idx : DomainIndex) (items : list Item) : option DomainIndex :=
  match items with
  | [] => Some idx
  | it :: items => idx ← build_step idx it; build_items idx items
  end.

(** [DomainIndexBuilder::build]; [None] is a panic. *)
Definition build (items : list Item) : option DomainIndex :=
  build_items (mkIndex [] [] []) (merge_sort item_le items).

(** [slice::binary_search_by] of the standard library: halving until one
    element is left. *)
Fixpoint halve (fuel : nat) (keys : list rstr) (key : rstr) (base size : nat) : option nat :=
  match fuel with
  | O => None
  | S fuel =>
      if decide (1 < size)%nat then
        let half := (size / 2)%nat in
        let mid := (base + half)%nat in
        match keys !! mid with
        | Some k => halve fuel keys key (match str_cmp k key with Gt => base | _ => mid end) (size - half)
        | None => None
        end
      else
        match keys !! base with
        | Some k => match str_cmp k key with Eq => Some base | _ => None end
        | None => None
        end
  end.

Definition slot (idx : DomainIndex) (key : rstr) : option nat :=
  halve (S (length (keys idx))) (keys idx) key 0 (length (keys idx)).

Definition consider (best : option DomainHit) (e : Z) (k : DomainMatchKind) : option DomainHit :=
  if negb (e =? NO_ENTRY) && (match best with None => true | Some b => e <? entry b end)
  then Some (mkHit e k) else best.

(** [&full[..i]] for every [i] with a dot. *)
Fixpoint dot_prefixes (before after : rstr) : list rstr :=
  match after with
  | [] => []
  | c :: after => (if c =? 46 then [before] else []) ++ dot_prefixes (before ++ [c]) after
  end.

(** The loop of [lookup] over the prefixes; [None] is a panic. *)
Fixpoint lookup_prefixes (idx : DomainIndex) (ps : list rstr) (best : option DomainHit) : option (option DomainHit) :=
  match ps with
  | [] => Some best
  | p :: ps =>
      match slot idx p with
      | Some s => e ← suffix_slots idx !! s; lookup_prefixes idx ps (consider best e Suffix)
      | None => lookup_prefixes idx ps best
      end
  end.

Definition lookup (idx : DomainIndex) (host : rstr) : option (option DomainHit) :=
  match reverse_labels host with
  | None => Some None
  | Some full =>
      best ← lookup_prefixes idx (dot_prefixes [] full) None;
      match slot idx full with
      | Some s =>
          e ← suffix_slots idx !! s;
          let best := consider best e Suffix in
          e ← exact_slots idx !! s;
          Some (consider best e Exact)
      | None => Some best
      end
  end.

Definition matches (idx : DomainIndex) (host : rstr) : option bool :=
  hit ← lookup idx host; Some (match hit with Some _ => true | None => false end).

(** ** The order of texts *)

Lemma str_cmp_eq a b : str_cmp a b = Eq <-> a = b.
Proof.
  split; [|intros ->; induction b as [|y b IH]; simpl; [done|by rewrite Z.compare_refl]].
  revert b. induction a as [|x a IH]; intros [|y b]; simpl; try done.
  destruct (Z.compare_spec x y); try done. intros ->%IH. by subst.
Qed.

Lemma str_cmp_antisym a b : str_cmp b a = CompOpp (str_cmp a b).
Proof.
  revert b. induction a as [|x a IH]; intros [|y b]; simpl; try done.
  rewrite Z.compare_antisym. destruct (x ?= y); simpl; auto.
Qed.

Lemma str_cmp_trans a b c : str_cmp a b = Lt -> str_cmp b c = Lt -> str_cmp a c = Lt.
Proof.
  revert b c. induction a as [|x a IH]; intros [|y b] [|z c]; simpl; try done.
  destruct (Z.compare_spec x y), (Z.compare_spec y z), (Z.compare_spec x z); try done; subst; try lia; eauto.
Qed.

Definition str_lt (a b : rstr) : Prop := str_cmp a b = Lt.

Lemma str_lt_irrefl a : ~ str_lt a a.
Proof. unfold str_lt. by rewrite (proj2 (str_cmp_eq a a)). Qed.

#[export] Instance item_le_total : Total item_le.
Proof.
  intros a b. unfold item_le. rewrite (str_cmp_antisym (item_key a)).
  destruct (str_cmp (item_key a) (item_key b)); simpl; [lia|by left|by right].
Qed.

#[export] Instance item_le_trans : Transitive item_le.
Proof.
  intros a b c. unfold item_le.
  destruct (str_cmp (item_key a) (item_key b)) eqn:Hab; try done; destruct (str_cmp (item_key b) (item_key c)) eqn:Hbc; try done.
  - apply str_cmp_eq in Hab, Hbc. rewrite Hab, Hbc, (proj2 (str_cmp_eq _ _)) by done. lia.
  - apply str_cmp_eq in Hab. by rewrite Hab, Hbc.
  - apply str_cmp_eq in Hbc. by rewrite <- Hbc, Hab.
  - by rewrite (str_cmp_trans _ _ _ Hab Hbc).
Qed.

(** ** Binary search *)

(** The search finds a name where it is, and only there. *)
Lemma halve_spec fuel ks key base size i : StronglySorted str_lt ks -> (size < fuel)%nat ->
  (base + size <= length ks)%nat ->
  (forall j, ks !! j = Some key -> (base <= j < base + size)%nat) ->
  halve fuel ks key base size = Some i <-> ks !! i = Some key.
Proof.
  intros Hs. revert base size. induction fuel as [|fuel IH]; intros base size Hf Hlen Hin; [lia|].
  cbn [halve]. cbv zeta.
  case_decide as Hsize.
  - assert (Hh : (1 <= size / 2 < size)%nat).
    { split; [apply Nat.div_le_lower_bound; lia|apply Nat.div_lt; lia]. }
    assert (Hh2 : (size / 2 <= size - size / 2)%nat) by (pose proof (Nat.Div0.div_le_upper_bound size 2 (size - size / 2)); lia || (pose proof (Nat.div_mod_eq size 2); lia)).
    destruct (lookup_lt_is_Some_2 ks (base + size / 2)) as [k Hk]; [lia|]. rewrite Hk.
    apply IH; [lia| |].
    + destruct (str_cmp k key); lia.
    + intros j Hj. specialize (Hin j Hj). destruct (str_cmp k key) eqn:Hc.
      * apply str_cmp_eq in Hc as ->. destruct (decide (j < base + size / 2)%nat) as [Hlt|]; [|lia].
        exfalso. eapply (str_lt_irrefl key), (sorted_lookup _ _ Hs j (base + size / 2)); done.
      * destruct (decide (j < base + size / 2)%nat) as [Hlt|]; [|lia].
        exfalso. eapply (str_lt_irrefl key), (str_cmp_trans _ k); [|done].
        by eapply (sorted_lookup _ _ Hs j (base + size / 2)).
      * destruct (decide (base + size / 2 <= j)%nat) as [Hge|]; [|lia]. exfalso.
        destruct (decide (j = base + size / 2)%nat) as [->|].
        { rewrite Hj in Hk. simplify_eq. by rewrite (proj2 (str_cmp_eq _ _)) in Hc. }
        assert (Hlt : str_lt k key) by (eapply (sorted_lookup _ _ Hs (base + size / 2) j); done || lia).
        unfold str_lt in Hlt. congruence.
  - split.
    + destruct (ks !! base) as [k|] eqn:Hk; [|done]. destruct (str_cmp k key) eqn:Hc; try done.
      apply str_cmp_eq in Hc as ->. by intros [= <-].
    + intros Hi. specialize (Hin i Hi). assert (i = base) as -> by lia. rewrite Hi.
      by rewrite (proj2 (str_cmp_eq _ _)).
Qed.

Lemma slot_spec idx key i : StronglySorted str_lt (keys idx) -> slot idx key = Some i <-> keys idx !! i = Some key.
Proof.
  intros Hs. apply halve_spec; [done|lia|lia|]. intros j Hj. apply lookup_lt_Some in Hj. lia.
Qed.

(** ** What [build] makes *)

(** The smallest entry of a kind under a key. *)
Definition best_of (k : DomainMatchKind) (items : list Item) (key : rstr) : Z :=
  foldr Z.min NO_ENTRY (map item_entry (filter (fun it => item_kind it = k /\ item_key it = key) items)).

Lemma best_of_le k items key it : it ∈ items -> item_kind it = k -> item_key it = key -> best_of k items key <= item_entry it.
Proof.
  intros Hin Hk Hkey. unfold best_of. induction items as [|x items IH]; [by apply elem_of_nil in Hin|].
  rewrite filter_cons. apply elem_of_cons in Hin as [->|Hin].
  - rewrite decide_True by done. simpl. lia.
  - specialize (IH Hin). case_decide; simpl; lia.
Qed.

Lemma best_of_in k items key : best_of k items key = NO_ENTRY \/
  exists it, it ∈ items /\ item_kind it = k /\ item_key it = key /\ item_entry it = best_of k items key.
Proof.
  unfold best_of. induction items as [|x items IH]; [by left|]. rewrite filter_cons. case_decide as Hx.
  - simpl. set (b := foldr _ _ _) in *. destruct (Z.min_spec (item_entry x) b) as [[_ ->]|[_ ->]].
    + right. exists x. split; [left|naive_solver].
    + destruct IH as [->|(it & Hin & Hit)]; [by left|right]. exists it. split; [by right|done].
  - destruct IH as [->|(it & Hin & Hit)]; [by left|right]. exists it. split; [by right|done].
Qed.

Lemma best_of_max k items key : best_of k items key <= NO_ENTRY.
Proof. unfold best_of. induction (map _ _); simpl; lia. Qed.

Lemma best_of_snoc k items it key : best_of k (items ++ [it]) key
  = if decide (item_kind it = k /\ item_key it = key) then Z.min (item_entry it) (best_of k items key) else best_of k items key.
Proof.
  pose proof (best_of_max k items key) as Hmax. unfold best_of in *. rewrite filter_app, map_app, foldr_app, filter_cons, filter_nil.
  case_decide; [|done]. simpl. clear. induction (map item_entry _); simpl; lia.
Qed.

Lemma best_of_absent k items key : (forall it, it ∈ items -> item_key it <> key) -> best_of k items key = NO_ENTRY.
Proof.
  intros Hno. destruct (best_of_in k items key) as [->|(it & Hin & _ & Hkey & _)]; [done|]. by apply Hno in Hin.
Qed.

Lemma better_min e s : e <= NO_ENTRY -> s <= NO_ENTRY -> better e s = Z.min e s.
Proof. intros He Hs. unfold better. destruct (Z.eqb_spec s NO_ENTRY), (Z.ltb_spec e s); simpl; lia. Qed.

Lemma update_last_snoc f l x : update_last f (l ++ [x]) = Some (l ++ [f x]).
Proof.
  unfold update_last. rewrite last_snoc, length_app. simpl. replace (pred (length l + 1)) with (length l) by lia.
  by rewrite take_app_length.
Qed.

(** The keys of the items, each with the smallest entry of either kind. *)
Definition index_of (ks : list rstr) (items : list Item) : DomainIndex :=
  mkIndex ks (map (best_of Exact items) ks) (map (best_of Suffix items) ks).

Definition keys_are (ks : list rstr) (items : list Item) : Prop :=
  StronglySorted str_lt ks /\ forall key, key ∈ ks <-> exists it, it ∈ items /\ item_key it = key.

Lemma item_le_key a b : item_le a b -> item_key a = item_key b \/ str_lt (item_key a) (item_key b).
Proof.
  unfold item_le, str_lt. destruct (str_cmp _ _) eqn:Hc; [|by right|done]. left. by apply str_cmp_eq.
Qed.

(** The slot an item goes to: the last, with the item's key, pushed if need
    be. *)
Lemma last_slot ks items it : keys_are ks items -> Forall (fun x => item_le x it) items ->
  exists ks0, (item_key it ∉ ks0) /\ keys_are (ks0 ++ [item_key it]) (items ++ [it])
    /\ (if match last ks with Some l => bool_decide (l = item_key it) | None => false end
        then index_of ks items
        else mkIndex (ks ++ [item_key it]) (map (best_of Exact items) ks ++ [NO_ENTRY]) (map (best_of Suffix items) ks ++ [NO_ENTRY]))
       = index_of (ks0 ++ [item_key it]) items.
Proof.
  intros [Hs Hks] Hle. set (key := item_key it) in *. rewrite Forall_forall in Hle.
  assert (Hkey : forall k, k ∈ ks -> k = key \/ str_lt k key).
  { intros k (x & Hx & <-)%Hks. by apply item_le_key, Hle. }
  assert (Hitems : forall k (ks' : list rstr), (forall k', k' ∈ ks' <-> k' ∈ ks \/ k' = key) ->
     k ∈ ks' <-> exists x, x ∈ items ++ [it] /\ item_key x = k).
  { intros k ks' Hk. rewrite Hk, Hks. split.
    - intros [(x & Hx & <-)| ->]; [exists x|exists it]; (split; [apply elem_of_app|done]); [by left|right; by apply list_elem_of_singleton].
    - intros (x & [Hx|Hx%list_elem_of_singleton]%elem_of_app & <-); [left; by exists x|right; by subst]. }
  destruct (last ks) as [l|] eqn:Hl; [case_bool_decide as Heq|].
  - apply last_Some in Hl as [ks0 ->]. subst l. exists ks0. split; [|split; [split; [done|]|done]].
    + intros Hin. apply list_elem_of_lookup in Hin as [i Hi]. eapply (str_lt_irrefl key).
      eapply (sorted_lookup _ _ Hs i (length ks0)); [by apply lookup_app_l_Some|by apply list_lookup_middle|by eapply lookup_lt_Some].
    + intros k. apply Hitems. intros k'. rewrite elem_of_app, list_elem_of_singleton. tauto.
  - assert (Hno : key ∉ ks).
    { apply last_Some in Hl as [ks0 ->]. intros [Hin|Hin%list_elem_of_singleton]%elem_of_app; [|done].
      destruct (Hkey l) as [|Hlt]; [apply elem_of_app; right; by apply list_elem_of_singleton|done|].
      apply list_elem_of_lookup in Hin as [i Hi]. eapply (str_lt_irrefl key), (str_cmp_trans _ l); [|done].
      eapply (sorted_lookup _ _ Hs i (length ks0)); [by apply lookup_app_l_Some|by apply list_lookup_middle|by eapply lookup_lt_Some]. }
    exists ks. split; [done|]. split; [split|].
    + apply StronglySorted_app_2; [|done|repeat constructor]. intros x y Hx ->%list_elem_of_singleton.
      destruct (Hkey x Hx) as [->|]; done.
    + intros k. apply Hitems. intros k'. by rewrite elem_of_app, list_elem_of_singleton.
    + unfold index_of. rewrite !map_app. simpl. rewrite !best_of_absent; [done|..]; intros x Hx Heq'; apply Hno, Hks; by exists x.
  - apply last_None in Hl as ->. exists []. split; [apply not_elem_of_nil|]. split; [split|].
    + repeat constructor.
    + intros k. apply Hitems. intros k'. cbn [app]. rewrite list_elem_of_singleton. split; [by right|by intros [?%elem_of_nil|]].
    + unfold index_of. simpl. rewrite !best_of_absent; [done|..]; intros x Hx _;
        assert (item_key x ∈ ([] : list rstr)) as []%elem_of_nil by (apply Hks; by exists x).
Qed.

Lemma best_of_others k items it ks0 : (item_key it ∉ ks0) ->
  map (best_of k (items ++ [it])) ks0 = map (best_of k items) ks0.
Proof.
  intros Hno. apply map_ext_in. intros key Hk%list_elem_of_In. rewrite best_of_snoc. rewrite decide_False; [done|].
  intros [_ <-]. done.
Qed.

Lemma build_step_ok ks items it : keys_are ks items -> Forall (fun x => item_le x it) items -> item_entry it <= NO_ENTRY ->
  exists ks', build_step (index_of ks items) it = Some (index_of ks' (items ++ [it])) /\ keys_are ks' (items ++ [it]).
Proof.
  intros Hks Hle He. destruct (last_slot ks items it Hks Hle) as (ks0 & Hno & Hks' & Hidx).
  exists (ks0 ++ [item_key it]). split; [|done]. unfold build_step. cbv zeta.
  change (keys (index_of ks items)) with ks. change (exact_slots (index_of ks items)) with (map (best_of Exact items) ks).
  change (suffix_slots (index_of ks items)) with (map (best_of Suffix items) ks). rewrite Hidx. unfold index_of. cbn [keys exact_slots suffix_slots].
  destruct (item_kind it) eqn:Hkind; rewrite !map_app; cbn [map]; rewrite update_last_snoc; cbn [mbind option_bind];
    rewrite !best_of_others, !best_of_snoc, Hkind by done; rewrite better_min by (done || apply best_of_max);
    repeat case_decide; naive_solver.
Qed.

Lemma build_items_snoc idx items it : build_items idx (items ++ [it]) = (idx ← build_items idx items; build_step idx it).
Proof.
  revert idx. induction items as [|x items IH]; intros idx; simpl.
  - destruct (build_step idx it); done.
  - destruct (build_step idx x); simpl; [apply IH|done].
Qed.

Lemma build_items_ok items : StronglySorted item_le items -> Forall (fun it => item_entry it <= NO_ENTRY) items ->
  exists ks, build_items (mkIndex [] [] []) items = Some (index_of ks items) /\ keys_are ks items.
Proof.
  intros Hs Hle. induction items as [|it items IH] using rev_ind.
  { exists []. split; [done|]. split; [constructor|]. intros key. split; [by intros ?%elem_of_nil|].
    intros (x & ?%elem_of_nil & _). done. }
  apply StronglySorted_app in Hs as (Hbefore & Hs & _). apply Forall_app in Hle as [Hle [He _]%Forall_cons].
  destruct (IH Hs Hle) as (ks & Hb & Hks). rewrite build_items_snoc, Hb. simpl.
  apply build_step_ok; [done| |done]. apply Forall_forall. intros x Hx. apply Hbefore; [done|by apply list_elem_of_singleton].
Qed.

(** The index of any items: no panic; its keys are theirs; the slots hold
    what is the best of all the items, in whatever order they came. *)
Lemma build_ok items : Forall (fun it => item_entry it <= NO_ENTRY) items ->
  exists idx, build items = Some idx /\ StronglySorted str_lt (keys idx)
    /\ (forall key, key ∈ keys idx <-> exists it, it ∈ items /\ item_key it = key)
    /\ exists sorted, sorted ≡ₚ items /\ idx = index_of (keys idx) sorted.
Proof.
  intros Hle. unfold build. pose proof (merge_sort_Permutation item_le items) as Hp.
  destruct (build_items_ok (merge_sort item_le items)) as (ks & Hb & Hs & Hk).
  - apply (StronglySorted_merge_sort item_le).
  - by rewrite Hp.
  - exists (index_of ks (merge_sort item_le items)). split; [done|]. split; [done|]. split.
    + intros key. simpl. rewrite Hk. by setoid_rewrite Hp.
    + by exists (merge_sort item_le items).
Qed.

(** ** What [lookup] finds *)

(** The slots of a name, wherever it is in the index. *)
Lemma slot_best idx items key : StronglySorted str_lt (keys idx) -> idx = index_of (keys idx) items ->
  match slot idx key with
  | Some s => suffix_slots idx !! s = Some (best_of Suffix items key) /\ exact_slots idx !! s = Some (best_of Exact items key)
  | None => key ∉ keys idx
  end.
Proof.
  intros Hs Hidx. destruct (slot idx key) as [s|] eqn:Hslot.
  - apply slot_spec in Hslot; [|done]. rewrite Hidx. unfold index_of. cbn [suffix_slots exact_slots].
    by rewrite !list_lookup_fmap, Hslot.
  - intros (i & Hi)%list_elem_of_lookup. apply (slot_spec _ _ _ Hs) in Hi. congruence.
Qed.

(** One hit after the other, the smallest entry first seen kept. *)
Definition considered (best : option DomainHit) (es : list (Z * DomainMatchKind)) : option DomainHit :=
  fold_left (fun b e => consider b e.1 e.2) es best.

Lemma consider_absent best k : consider best NO_ENTRY k = best.
Proof. unfold consider. by rewrite Z.eqb_refl. Qed.

Lemma lookup_prefixes_considered idx items ps best : StronglySorted str_lt (keys idx) -> idx = index_of (keys idx) items ->
  (forall key, key ∉ keys idx -> best_of Suffix items key = NO_ENTRY) ->
  lookup_prefixes idx ps best = Some (considered best (map (fun p => (best_of Suffix items p, Suffix)) ps)).
Proof.
  intros Hs Hidx Habs. revert best. induction ps as [|p ps IH]; intros best; simpl; [done|].
  pose proof (slot_best idx items p Hs Hidx) as Hp. destruct (slot idx p) as [s|].
  - destruct Hp as [-> _]. simpl. by rewrite IH.
  - rewrite Habs by done. rewrite IH, consider_absent. done.
Qed.

Lemma considered_spec es best b : considered best es = Some b ->
  (best = Some b \/ (entry b, kind b) ∈ es /\ entry b <> NO_ENTRY)
  /\ (forall e k, (e, k) ∈ es -> e <> NO_ENTRY -> entry b <= e)
  /\ (forall b0, best = Some b0 -> entry b <= entry b0).
Proof.
  revert best. induction es as [|[e k] es IH]; intros best; simpl.
  { intros ->. split; [by left|]. split; [by intros ?? ?%elem_of_nil|]. intros ? [= <-]. lia. }
  intros Hc. apply IH in Hc as (Hb & Hle & Hb0). clear IH. unfold consider in *.
  destruct (Z.eqb_spec e NO_ENTRY) as [->|Hne]; simpl in *.
  - split; [destruct Hb as [->|[Hin Hne]]; [by left|right; split; [by right|done]]|]. split; [|done].
    intros e' k' [Heq|Hin]%elem_of_cons Hne; [congruence|by eapply Hle].
  - destruct best as [b0|]; [destruct (Z.ltb_spec e (entry b0)) as [Hlt|Hge]|]; simpl in *.
    + split; [destruct Hb as [[= <-]|[Hin Hn]]; right; [split; [left|done]|split; [by right|done]]|].
      specialize (Hb0 _ eq_refl). simpl in Hb0. split; [|intros ? [= <-]; lia].
      intros e' k' [[= -> ->]|Hin]%elem_of_cons Hn; [done|by eapply Hle].
    + split; [destruct Hb as [->|[Hin Hn]]; [by left|right; split; [by right|done]]|].
      specialize (Hb0 _ eq_refl) as Hb1. split; [|intros ? [= <-]; lia].
      intros e' k' [[= -> ->]|Hin]%elem_of_cons Hn; [lia|by eapply Hle].
    + split; [destruct Hb as [[= <-]|[Hin Hn]]; right; [split; [left|done]|split; [by right|done]]|].
      specialize (Hb0 _ eq_refl). simpl in Hb0. split; [|done].
      intros e' k' [[= -> ->]|Hin]%elem_of_cons Hn; [done|by eapply Hle].
Qed.

Lemma considered_none es best : considered best es = None -> best = None /\ forall e k, (e, k) ∈ es -> e = NO_ENTRY.
Proof.
  revert best. induction es as [|[e k] es IH]; intros best; simpl; [by intros ->; split; [|intros ?? ?%elem_of_nil]|].
  intros [Hb Hes]%IH. unfold consider in Hb. destruct (Z.eqb_spec e NO_ENTRY) as [->|Hne]; simpl in Hb.
  - split; [done|]. intros e' k' [[= -> _]|Hin]%elem_of_cons; [done|by eapply Hes].
  - destruct best; [by destruct (_ <? _)|done].
Qed.

(** A hit of the last kind only when no other of the same entry was before it. *)
Lemma considered_last es e k b : considered None (es ++ [(e, k)]) = Some b -> kind b = k ->
  (forall e' k', (e', k') ∈ es -> k' <> k) -> forall k', (entry b, k') ∉ es \/ entry b = NO_ENTRY.
Proof.
  intros Hc Hk Hno k'. destruct b as [eb kb]. simpl in *. unfold considered in Hc. rewrite fold_left_app in Hc. simpl in Hc. fold (considered None es) in Hc.
  destruct (decide (eb = NO_ENTRY)) as [|Hn]; [by right|left]. intros Hin.
  destruct (considered None es) as [b0|] eqn:Hb0.
  - destruct (considered_spec _ _ _ Hb0) as (Hb0in & Hle & _). specialize (Hle _ _ Hin Hn). unfold consider in Hc.
    destruct (negb _ && _) eqn:Hcond; simplify_eq.
    + simpl in *. apply andb_true_iff in Hcond as [_ Hlt]. lia.
    + destruct Hb0in as [|[Hb0in _]]; [done|]. by apply Hno in Hb0in.
  - apply considered_none in Hb0 as [_ Hall]. by apply Hall in Hin.
Qed.

(** ** Names as labels *)

Definition labels (domain : rstr) : list rstr :=
  match trimmed domain with
  | [] => []
  | d => split_on 46 d
  end.

Lemma reverse_labels_labels domain :
  reverse_labels domain = match labels domain with [] => None | ls => Some (join_with 46 (reverse ls)) end.
Proof.
  unfold reverse_labels, labels. destruct (trimmed domain) as [|c d] eqn:Hd; [done|].
  destruct (split_on 46 (c :: d)) eqn:Hs; [by apply split_on_not_nil in Hs|done].
Qed.

Definition no_dot (s : rstr) : Prop := Forall (fun c => c <> 46) s.

Lemma labels_no_dot domain : Forall no_dot (labels domain).
Proof. unfold labels. case_match; [constructor|]. apply split_on_pieces. Qed.

Lemma join_inj a b : a <> [] -> b <> [] -> Forall no_dot a -> Forall no_dot b -> join_with 46 a = join_with 46 b -> a = b.
Proof. intros Ha Hb Hna Hnb Hj. rewrite <- (split_join 46 a), <- (split_join 46 b) by done. by rewrite Hj. Qed.

Lemma dot_prefixes_app before s t : no_dot s -> dot_prefixes before (s ++ t) = dot_prefixes (before ++ s) t.
Proof.
  intros Hs. revert before. induction Hs as [|c s Hc _ IH]; intros before; simpl; [by rewrite app_nil_r|].
  rewrite (proj2 (Z.eqb_neq c 46)) by done. simpl. rewrite IH. by rewrite <- app_assoc.
Qed.

(** The prefixes that end before a dot: so many labels, not all. *)
Lemma dot_prefixes_join p before ls : ls <> [] -> Forall no_dot ls ->
  p ∈ dot_prefixes before (join_with 46 ls) <->
  exists a b, ls = a ++ b /\ a <> [] /\ b <> [] /\ p = before ++ join_with 46 a.
Proof.
  intros Hne Hls. revert before Hne. induction Hls as [|l ls Hl Hls IH]; intros before Hne; [done|].
  destruct ls as [|l' ls].
  - simpl. rewrite <- (app_nil_r l), dot_prefixes_app by done. simpl. split; [by intros ?%elem_of_nil|].
    intros (a & b & Heq & Ha & Hb & _). destruct a as [|? [|? ?]], b; simplify_eq/=.
  - rewrite join_with_cons, dot_prefixes_app by done. cbn [dot_prefixes]. rewrite Z.eqb_refl. cbn [app].
    rewrite elem_of_cons, IH by done. split.
    + intros [->|(a & b & Heq & Ha & Hb & ->)]; [by exists [l], (l' :: ls)|].
      exists (l :: a), b. rewrite Heq. split; [done|]. split; [done|]. split; [done|].
      destruct a as [|x a]; [done|]. rewrite join_with_cons, <- !app_assoc. done.
    + intros (a & b & Heq & Ha & Hb & ->). destruct a as [|x a]; [done|]. simplify_eq/=.
      destruct a as [|y a]; [by left|right]. exists (y :: a), b. rewrite <- !app_assoc. done.
Qed.

(** A name at the index of a host: it, or it and what is after a dot. *)
Definition host_match (k : DomainMatchKind) (domain host : rstr) : Prop :=
  labels domain <> [] /\
  match k with
  | Exact => labels domain = labels host
  | Suffix => labels domain `suffix_of` labels host
  end.

#[export] Instance host_match_dec k domain host : Decision (host_match k domain host).
Proof. unfold host_match. destruct k; apply _. Defined.

Lemma suffix_prefixes domain host key full : reverse_labels domain = Some key -> reverse_labels host = Some full ->
  key ∈ dot_prefixes [] full ++ [full] <-> labels domain `suffix_of` labels host.
Proof.
  rewrite !reverse_labels_labels. pose proof (labels_no_dot domain) as Hd. pose proof (labels_no_dot host) as Hh.
  set (ld := labels domain) in *. set (lh := labels host) in *. intros Hkey Hfull.
  assert (Hld : ld <> [] /\ key = join_with 46 (reverse ld)) by (by destruct ld; simplify_eq).
  assert (Hlh : lh <> [] /\ full = join_with 46 (reverse lh)) by (by destruct lh; simplify_eq).
  destruct Hld as [Hld ->], Hlh as [Hlh ->]. clear Hkey Hfull.
  assert (Hrev : forall l : list rstr, l <> [] -> reverse l <> []).
  { intros l Hl Hr. apply Hl. rewrite <- (reverse_involutive l), Hr. done. }
  rewrite elem_of_app, list_elem_of_singleton, dot_prefixes_join by (by apply Hrev || by apply Forall_reverse).
  assert (Hinj : forall a, Forall no_dot a -> a <> [] -> join_with 46 (reverse ld) = join_with 46 a -> reverse ld = a).
  { intros a Ha Hn Hj. apply join_inj; [by apply Hrev|done|by apply Forall_reverse|done|done]. }
  split.
  - intros [(a & b & Heq & Ha & Hb & Hj)|Hj].
    + simpl in Hj. exists (reverse b). assert (Hall : Forall no_dot (a ++ b)) by (rewrite <- Heq; by apply Forall_reverse).
      apply Forall_app in Hall as [Hall _]. apply Hinj in Hj; [|done|done]. rewrite <- (reverse_involutive lh), Heq, <- Hj, reverse_app.
      by rewrite reverse_involutive.
    + apply Hinj in Hj; [|by apply Forall_reverse|by apply Hrev]. apply (f_equal reverse) in Hj. rewrite !reverse_involutive in Hj.
      rewrite Hj. exists []. done.
  - intros [pre Hpre]. destruct pre as [|x pre]; [right; by rewrite Hpre|left].
    exists (reverse ld), (reverse (x :: pre)). rewrite Hpre, reverse_app. split; [done|].
    split; [by apply Hrev|]. split; [by apply Hrev|done].
Qed.

Lemma exact_key domain host key full : reverse_labels domain = Some key -> reverse_labels host = Some full ->
  key = full <-> labels domain = labels host.
Proof.
  rewrite !reverse_labels_labels. pose proof (labels_no_dot domain) as Hd. pose proof (labels_no_dot host) as Hh.
  destruct (labels domain) as [|x ld] eqn:Hx; [done|]. destruct (labels host) as [|y lh] eqn:Hy; [done|].
  intros [= <-] [= <-]. split; [|by intros ->]. intros Hj. apply (join_inj _ _) in Hj.
  - apply (f_equal reverse) in Hj. by rewrite !reverse_involutive in Hj.
  - intros Hr. apply (f_equal length) in Hr. by rewrite length_reverse in Hr.
  - intros Hr. apply (f_equal length) in Hr. by rewrite length_reverse in Hr.
  - by apply Forall_reverse.
  - by apply Forall_reverse.
Qed.

(** ** The index as a search *)

(** A name given to the builder. *)
Record Name := mkName { name_domain : rstr; name_entry : Z; name_kind : DomainMatchKind }.

Definition built (names : list Name) : list Item :=
  fold_left (fun items n => add (name_kind n) (name_domain n) (name_entry n) items) names [].

Lemma built_in names it : it ∈ built names <->
  exists n, n ∈ names /\ reverse_labels (name_domain n) = Some (item_key it)
    /\ name_entry n = item_entry it /\ name_kind n = item_kind it.
Proof.
  unfold built. induction names as [|n names IH] using rev_ind.
  { simpl. split; [by intros ?%elem_of_nil|by intros (? & ?%elem_of_nil & _)]. }
  rewrite fold_left_app. cbn [fold_left]. set (items := fold_left _ names []) in *. unfold add.
  destruct it as [[key e] k]. cbn [item_key item_entry item_kind fst snd] in *.
  destruct (reverse_labels (name_domain n)) as [key'|] eqn:Hr.
  - rewrite elem_of_app, list_elem_of_singleton, IH. setoid_rewrite elem_of_app. setoid_rewrite list_elem_of_singleton.
    unfold item_key, item_entry, item_kind. simpl. split.
    + intros [(x & Hx & Hrest)|[= -> -> ->]]; [exists x; naive_solver|exists n; naive_solver].
    + intros (x & [Hx| ->] & Hk & He & Hkd); [left; by exists x|right]. congruence.
  - rewrite IH. setoid_rewrite elem_of_app. setoid_rewrite list_elem_of_singleton. split.
    + intros (x & Hx & Hrest). exists x. tauto.
    + intros (x & [Hx| ->] & Hk & Hrest); [exists x; tauto|congruence].
Qed.

(** The hits [lookup] considers. *)
Definition hits (items : list Item) (full : rstr) : list (Z * DomainMatchKind) :=
  map (fun p => (best_of Suffix items p, Suffix)) (dot_prefixes [] full ++ [full]) ++ [(best_of Exact items full, Exact)].

Lemma lookup_hits items host : Forall (fun it => item_entry it <= NO_ENTRY) items ->
  exists idx sorted, build items = Some idx /\ (forall it, it ∈ sorted <-> it ∈ items)
    /\ lookup idx host = Some (match reverse_labels host with Some full => considered None (hits sorted full) | None => None end).
Proof.
  intros Hle. destruct (build_ok items Hle) as (idx & Hb & Hs & Hk & sorted & Hp & Hidx). exists idx, sorted.
  split; [done|]. split; [intros it; by rewrite Hp|]. unfold lookup. destruct (reverse_labels host) as [full|]; [|done].
  assert (Habs : forall k key, key ∉ keys idx -> best_of k sorted key = NO_ENTRY).
  { intros k key Hno. apply best_of_absent. intros it Hit Heq. apply Hno, Hk. exists it. by rewrite <- Hp. }
  rewrite (lookup_prefixes_considered idx sorted) by (done || intros; by apply Habs). cbn [mbind option_bind].
  unfold hits, considered. rewrite map_app, !fold_left_app. cbn [map fold_left fst snd].
  pose proof (slot_best idx sorted full Hs Hidx) as Hslot. destruct (slot idx full) as [s|].
  - destruct Hslot as [-> ->]. done.
  - by rewrite !Habs, !consider_absent.
Qed.

(** What a hit among those stands for. *)
Lemma hit_name items full e k : (e, k) ∈ hits items full -> e <> NO_ENTRY ->
  exists it, it ∈ items /\ item_kind it = k /\ item_entry it = e
    /\ match k with Exact => item_key it = full | Suffix => item_key it ∈ dot_prefixes [] full ++ [full] end.
Proof.
  unfold hits. intros Hin Hne. apply elem_of_app in Hin as [Hin|Hin].
  - apply list_elem_of_fmap in Hin as (p & Heq & Hp). simplify_eq.
    destruct (best_of_in Suffix items p) as [|(it & Hit & Hk & Hkey & He)]; [done|]. exists it. by subst.
  - apply list_elem_of_singleton in Hin. simplify_eq.
    destruct (best_of_in Exact items full) as [|(it & Hit & Hk & Hkey & He)]; [done|]. by exists it.
Qed.

Lemma name_hit items full it : it ∈ items ->
  match item_kind it with Exact => item_key it = full | Suffix => item_key it ∈ dot_prefixes [] full ++ [full] end ->
  exists e, (e, item_kind it) ∈ hits items full /\ e <= item_entry it.
Proof.
  intros Hit Hkey. unfold hits. destruct (item_kind it) eqn:Hk.
  - exists (best_of Exact items full). split; [apply elem_of_app; right; by apply list_elem_of_singleton|by apply best_of_le].
  - exists (best_of Suffix items (item_key it)). split; [|by apply best_of_le].
    apply elem_of_app. left. apply list_elem_of_fmap. by exists (item_key it).
Qed.

(** An item under a key of a host is a name that matches it. *)
Lemma key_match domain host key full k : reverse_labels domain = Some key -> reverse_labels host = Some full ->
  match k with Exact => key = full | Suffix => key ∈ dot_prefixes [] full ++ [full] end <-> host_match k domain host.
Proof.
  intros Hd Hh. assert (Hne : labels domain <> []) by (rewrite reverse_labels_labels in Hd; by destruct (labels domain)).
  unfold host_match. destruct k; [rewrite (exact_key _ _ _ _ Hd Hh)|rewrite (suffix_prefixes _ _ _ _ Hd Hh)]; naive_solver.
Qed.

Lemma host_match_reverse k domain host : host_match k domain host ->
  is_Some (reverse_labels domain) /\ is_Some (reverse_labels host).
Proof.
  unfold host_match. rewrite !reverse_labels_labels. intros [Hne Hm].
  assert (Hh : labels host <> []).
  { destruct k; [congruence|]. intros Hn. rewrite Hn in Hm. destruct Hm as [pre Hpre]. by destruct pre, (labels domain). }
  by destruct (labels domain), (labels host).
Qed.

(** What the index built from names finds of any host. *)
Lemma index_finds names : Forall (fun n => name_entry n < NO_ENTRY) names ->
  exists idx, build (built names) = Some idx /\ forall host, exists hit, lookup idx host = Some hit /\
  match hit with
  | None => forall n, n ∈ names -> ~ host_match (name_kind n) (name_domain n) host
  | Some h =>
      (exists n, n ∈ names /\ host_match (name_kind n) (name_domain n) host /\ name_entry n = entry h /\ name_kind n = kind h)
      /\ forall n, n ∈ names -> host_match (name_kind n) (name_domain n) host ->
           entry h <= name_entry n /\ (name_kind n = Suffix -> name_entry n = entry h -> kind h = Suffix)
  end.
Proof.
  intros Hlt. rewrite Forall_forall in Hlt.
  assert (Hle : Forall (fun it => item_entry it <= NO_ENTRY) (built names)).
  { apply Forall_forall. intros it (n & Hn & _ & He & _)%built_in. specialize (Hlt n Hn). lia. }
  destruct (lookup_hits _ [] Hle) as (idx & _ & Hb & _ & _). exists idx. split; [done|]. intros host.
  destruct (lookup_hits _ host Hle) as (idx' & sorted & Hb' & Hsorted & Hl). rewrite Hb in Hb'. injection Hb' as <-.
  eexists. split; [done|].
  destruct (reverse_labels host) as [full|] eqn:Hfull.
  2:{ intros n _ Hm. apply host_match_reverse in Hm as [_ [? ?]]. congruence. }
  assert (Hname : forall n, n ∈ names -> host_match (name_kind n) (name_domain n) host ->
    exists e, (e, name_kind n) ∈ hits sorted full /\ e <= name_entry n /\ e <> NO_ENTRY).
  { intros n Hn Hm. destruct (host_match_reverse _ _ _ Hm) as [[key Hkey] _].
    destruct (name_hit sorted full (key, name_entry n, name_kind n)) as (e & Hin & He).
    - apply Hsorted, built_in. by exists n.
    - by apply (key_match _ host key full (name_kind n) Hkey Hfull).
    - exists e. split; [done|]. cbn [item_entry fst snd] in He. specialize (Hlt n Hn). unfold item_entry in He. simpl in He. split; lia. }
  destruct (considered None (hits sorted full)) as [h|] eqn:Hc.
  - destruct (considered_spec _ _ _ Hc) as ([|[Hin Hne]] & Hmin & _); [done|]. split.
    + destruct (hit_name _ _ _ _ Hin Hne) as (it & Hit%Hsorted & Hk & He & Hkey).
      apply built_in in Hit as (n & Hn & Hr & Hne' & Hnk). exists n. split; [done|].
      rewrite Hnk, Hk. split; [by apply (key_match _ host (item_key it) full)|]. split; congruence.
    + intros n Hn Hm. destruct (Hname n Hn Hm) as (e & Hin' & He & Hne'). specialize (Hmin _ _ Hin' Hne'). split; [lia|].
      intros Hsuf Heq. destruct (kind h) eqn:Hkh; [|done]. exfalso. assert (e = entry h) as -> by lia. rewrite Hsuf in Hin'.
      unfold hits in Hc, Hin'. destruct (considered_last _ _ _ h Hc Hkh) with Suffix as [Hno|]; [|apply Hno|done].
      * intros e' k' (p & [= -> ->] & _)%list_elem_of_fmap. done.
      * apply elem_of_app in Hin' as [|Hx%list_elem_of_singleton]; [done|discriminate].
  - intros n Hn Hm. destruct (Hname n Hn Hm) as (e & Hin & _ & Hne). apply considered_none in Hc as [_ Hall]. by apply Hall in Hin.
Qed.

(** An index without keys finds nothing. *)
Lemma lookup_no_keys idx host : keys idx = [] -> lookup idx host = Some None.
Proof.
  intros Hk. assert (Hslot : forall key, slot idx key = None) by (intros key; unfold slot; by rewrite Hk).
  unfold lookup. destruct (reverse_labels host) as [full|]; [|done].
  assert (Hp : forall ps best, lookup_prefixes idx ps best = Some best).
  { intros ps. induction ps as [|p ps IH]; intros best; [done|]. simpl. by rewrite Hslot. }
  rewrite Hp. simpl. by rewrite Hslot.
Qed.

(** C10: the index built from any names in any order never panics, building
    or looking up, and finds what a search through all the names would: nothing
    when no name matches the host (is it, or is it after a dot, whatever the
    case, and dots and blanks around), else the smallest entry of those that
    match, as a suffix when a suffix with that entry matches.  *)
Theorem lookup_finds names host : Forall (fun n => name_entry n < NO_ENTRY) names ->
  exists idx hit, build (built names) = Some idx /\ lookup idx host = Some hit /\
  match hit with
  | None => forall n, n ∈ names -> ~ host_match (name_kind n) (name_domain n) host
  | Some h =>
      (exists n, n ∈ names /\ host_match (name_kind n) (name_domain n) host /\ name_entry n = entry h /\ name_kind n = kind h)
      /\ forall n, n ∈ names -> host_match (name_kind n) (name_domain n) host ->
           entry h <= name_entry n /\ (name_kind n = Suffix -> name_entry n = entry h -> kind h = Suffix)
  end.
Proof.
  intros Hlt. destruct (index_finds names Hlt) as (idx & Hb & Hl). destruct (Hl host) as (hit & Hhit & Hspec). by exists idx, hit.
Qed.

Definition sample_names : list Name :=
  [mkName (lit "www.Example.com") 7 Exact; mkName (lit ".example.com.") 9 Suffix; mkName (lit "com") 9 Suffix].

Lemma lookup_finds_witness :
  exists idx, build (built sample_names) = Some idx
    /\ lookup idx (lit "WWW.example.com.") = Some (Some (mkHit 7 Exact))
    /\ lookup idx (lit "a.example.com") = Some (Some (mkHit 9 Suffix))
    /\ lookup idx (lit "example.org") = Some None.
Proof.
  destruct (lookup_finds sample_names (lit "example.org")) as (idx & hit & Hb & _).
  - repeat constructor.
  - exists idx. split; [done|]. vm_compute in Hb. injection Hb as <-. split; [|split]; vm_compute; reflexivity.
Defined.
