(* ===== verification/QuicAdaptive.v ===== *)
(** * Which hosts' QUIC is blocked

    [crates/rurge-engine/src/quic_adaptive.rs], the table behind
    [block-quic=adaptive].  The [HashMap] is a finite map; an [Instant] is a
    number of nanoseconds; the numbers of the flows do not reach 2^64.  The
    texts logged are left out. *)

From S2P Require Import Prelude.

Definition REMEMBERED : nat := 200.
Definition WINDOW : Z := 1000000000.

Inductive Adaptive : Type :=
| Trying (t : Z)
| FellBack
| Allowed.

Record Entry := mkEntry { state : Adaptive; used : Z }.

Record Table := mkTable { entries : gmap rstr Entry; next : Z }.

Definition new : Table := mkTable ∅ 0.

(** Of the entries listed, one whose [used] is smallest. *)
Definition min_by_used (l : list (rstr * Entry)) : option (rstr * Entry) := min_by (fun p => used p.2) l.

Definition add (key : rstr) (st : Adaptive) (used : Z) (t : Table) : Table :=
  let es :=
    if decide (REMEMBERED <= size (entries t))%nat then
      match min_by_used (map_to_list (entries t)) with
      | Some (oldest, _) => delete oldest (entries t)
      | None => entries t
      end
    else entries t in
  mkTable (<[key := mkEntry st used]> es) (next t).

Definition key (host : rstr) : rstr := to_ascii_lowercase (trim_end_by (fun c => c =? 46) host).

(** [on_quic]: whether the flow is blocked, and the table after it. *)
Definition on_quic (host : rstr) (now : Z) (t : Table) : bool * Table :=
  let k := key host in
  let u := next t in
  let t := mkTable (entries t) (u + 1) in
  match entries t !! k with
  | Some entry =>
      let set st := mkTable (<[k := mkEntry st u]> (entries t)) (next t) in
      match state entry with
      | Trying since => if sat_sub now since <=? WINDOW then (true, set (Trying since)) else (false, set Allowed)
      | FellBack => (true, set FellBack)
      | Allowed => (false, set Allowed)
      end
  | None => (true, add k (Trying now) u t)
  end.

Definition on_tcp (host : rstr) (now : Z) (t : Table) : Table :=
  let k := key host in
  match entries t !! k with
  | Some entry =>
      let set st := mkTable (<[k := mkEntry st (used entry)]> (entries t)) (next t) in
      match state entry with
      | Trying since => if sat_sub now since <=? WINDOW then set FellBack else set Allowed
      | FellBack | Allowed => t
      end
  | None => t
  end.

(** ** Flows *)

Inductive Flow : Type :=
| Quic (host : rstr)
| Tcp (host : rstr).

Definition flow (now : Z) (f : Flow) (t : Table) : Table :=
  match f with
  | Quic host => (on_quic host now t).2
  | Tcp host => on_tcp host now t
  end.

Definition flows (fs : list (Z * Flow)) (t : Table) : Table := fold_left (fun t nf => flow nf.1 nf.2 t) fs t.

(** Flows one after the other in time. *)
Definition in_order (fs : list (Z * Flow)) : Prop := Sorted Z.le (fs.*1).

(** Every entry has its own number, below the next. *)
Definition table_ok (t : Table) : Prop :=
  (size (entries t) <= REMEMBERED)%nat
  /\ (forall k e, entries t !! k = Some e -> used e < next t)
  /\ (forall k k' e e', entries t !! k = Some e -> entries t !! k' = Some e' -> used e = used e' -> k = k').

Lemma set_ok t k e st u : table_ok t -> entries t !! k = Some e -> used e <= u ->
  (forall k' e', k' <> k -> entries t !! k' = Some e' -> used e' <> u) ->
  forall n, u < n -> next t <= n -> table_ok (mkTable (<[k := mkEntry st u]> (entries t)) n).
Proof.
  intros (Hsz & Hlt & Hinj) Hk Hu Hother n Hn Hnext. split; [|split]; simpl.
  - by rewrite map_size_insert_Some by (by eexists).
  - intros k' e' [[<- <-]|[Hne He]]%lookup_insert_Some; [done|]. specialize (Hlt _ _ He). lia.
  - intros k1 k2 e1 e2 [[<- <-]|[Hne1 He1]]%lookup_insert_Some [[<- <-]|[Hne2 He2]]%lookup_insert_Some; simpl; try done.
    + intros Heq. exfalso. by eapply (Hother k2 e2).
    + intros Heq. exfalso. by eapply (Hother k1 e1).
    + by apply Hinj.
Qed.

(** A new name: the table stays in its bounds, and what it forgets is the
    name whose last flow is the longest ago. *)
Lemma add_ok t k st : table_ok t -> entries t !! k = None ->
  let t' := add k st (next t) (mkTable (entries t) (next t + 1)) in
  table_ok t' /\ entries t' !! k = Some (mkEntry st (next t))
  /\ (forall k', k' <> k -> entries t' !! k' = entries t !! k'
       \/ (size (entries t) = REMEMBERED /\ entries t' !! k' = None
           /\ exists e, entries t !! k' = Some e /\ forall k2 e2, entries t !! k2 = Some e2 -> used e <= used e2)).
Proof.
  intros (Hsz & Hlt & Hinj) Hk. unfold add. cbn [entries next].
  set (es := if decide (REMEMBERED <= size (entries t))%nat then _ else _).
  assert (Hes : es ⊆ entries t /\ (size es < REMEMBERED)%nat /\ forall k', es !! k' = entries t !! k'
       \/ (size (entries t) = REMEMBERED /\ es !! k' = None
           /\ exists e, entries t !! k' = Some e /\ forall k2 e2, entries t !! k2 = Some e2 -> used e <= used e2)).
  { subst es. case_decide as Hfull; [|split; [done|split; [lia|by left]]].
    pose proof (min_by_spec (fun p => used p.2) (map_to_list (entries t))) as Hmin. unfold min_by_used.
    destruct (min_by _ _) as [[k0 e0]|].
    2:{ apply map_to_list_empty_iff in Hmin. rewrite Hmin in Hfull. rewrite map_size_empty in Hfull. unfold REMEMBERED in *. lia. }
    destruct Hmin as [Hin Hle]. apply elem_of_map_to_list in Hin. split; [apply delete_subseteq|]. split.
    - rewrite map_size_delete_Some by (by eexists). unfold REMEMBERED in *. lia.
    - intros k'. destruct (decide (k' = k0)) as [->|Hne]; [right|left; by rewrite lookup_delete_ne by done].
      rewrite lookup_delete_eq. split; [lia|]. split; [done|]. exists e0. split; [done|]. intros k2 e2 Hk2.
      apply (Hle (k2, e2)). by apply elem_of_map_to_list. }
  destruct Hes as (Hsub & Hlen & Hall). split; [split; [|split]|split]; simpl.
  - rewrite map_size_insert. case_match; simpl; lia.
  - intros k' e' [[<- <-]|[Hne He]]%lookup_insert_Some; simpl; [lia|].
    specialize (Hlt k' e' (lookup_weaken _ _ _ _ He Hsub)). lia.
  - intros k1 k2 e1 e2 [[<- <-]|[Hne1 He1]]%lookup_insert_Some [[<- <-]|[Hne2 He2]]%lookup_insert_Some; simpl; try done.
    + specialize (Hlt k2 e2 (lookup_weaken _ _ _ _ He2 Hsub)). lia.
    + specialize (Hlt k1 e1 (lookup_weaken _ _ _ _ He1 Hsub)). lia.
    + eapply Hinj; by eapply lookup_weaken.
  - by rewrite lookup_insert_eq.
  - intros k' Hne. rewrite lookup_insert_ne by done. destruct (Hall k') as [->|?]; [by left|by right].
Qed.

(** ** What the verdicts follow *)

(** Of one name: when its first flow came, and whether a TCP session came
    within the window after it. *)
Definition seen (k : rstr) (h : option (Z * bool)) (nf : Z * Flow) : option (Z * bool) :=
  match nf.2 with
  | Quic host => if decide (key host = k) then match h with None => Some (nf.1, false) | Some _ => h end else h
  | Tcp host =>
      if decide (key host = k) then
        match h with Some (t0, b) => Some (t0, b || (nf.1 <=? t0 + WINDOW)) | None => None end
      else h
  end.

Definition history (k : rstr) (fs : list (Z * Flow)) : option (Z * bool) := fold_left (seen k) fs None.

(** The names that had a QUIC flow. *)
Definition names_of (fs : list (Z * Flow)) : gset rstr :=
  list_to_set (omap (fun nf => match nf.2 with Quic host => Some (key host) | Tcp _ => None end) fs).

(** The state that a history leads to, at [now]. *)
Definition follows (now : Z) (st : Adaptive) (h : Z * bool) : Prop :=
  let '(t0, b) := h in
  t0 <= now /\
  match st with
  | Trying t => t = t0 /\ b = false
  | FellBack => b = true
  | Allowed => b = false /\ t0 + WINDOW < now
  end.

(** What holds after flows up to [now]: while no more names were seen than
    the table remembers, it has them all, each in the state of its history. *)
Definition tracks (now : Z) (fs : list (Z * Flow)) (t : Table) : Prop :=
  table_ok t
  /\ (forall k e, entries t !! k = Some e -> k ∈ names_of fs)
  /\ ((size (names_of fs) <= REMEMBERED)%nat ->
        forall k, match entries t !! k, history k fs with
                  | Some e, Some h => follows now (state e) h
                  | None, None => True
                  | _, _ => False
                  end).

Lemma flow_names_snoc fs nf : names_of (fs ++ [nf]) = names_of fs ∪ match nf.2 with Quic host => {[key host]} | Tcp _ => ∅ end.
Proof. unfold names_of. rewrite omap_app, list_to_set_app_L. f_equal. destruct nf as [? []]; simpl; set_solver. Qed.

Lemma names_grow fs nf : names_of fs ⊆ names_of (fs ++ [nf]).
Proof. rewrite flow_names_snoc. set_solver. Qed.

Lemma history_snoc k fs nf : history k (fs ++ [nf]) = seen k (history k fs) nf.
Proof. unfold history. by rewrite fold_left_app. Qed.

Lemma seen_other k h now f : match f with Quic host | Tcp host => key host end <> k -> seen k h (now, f) = h.
Proof. intros Hne. unfold seen. destruct f; cbn [fst snd]; by rewrite decide_False. Qed.

Lemma follows_later now now' st h : now <= now' -> follows now st h -> follows now' st h.
Proof. destruct h as [t0 b]. unfold follows. intros Hle [Ht Hst]. split; [lia|]. destruct st; naive_solver lia. Qed.

(** The name at hand moves to its next state; the others stay. *)
Lemma tracks_step now now' fs t t' f k : now <= now' -> tracks now fs t ->
  match f with Quic host | Tcp host => key host end = k ->
  table_ok t' ->
  (forall k', k' <> k -> entries t' !! k' = entries t !! k'
     \/ entries t' !! k' = None /\ (REMEMBERED < size (names_of (fs ++ [(now', f)])))%nat) ->
  (is_Some (entries t' !! k) -> k ∈ names_of (fs ++ [(now', f)])) ->
  match entries t' !! k with
  | Some e' =>
      match entries t !! k with
      | Some e => forall h, follows now (state e) h -> exists h', seen k (Some h) (now', f) = Some h' /\ follows now' (state e') h'
      | None => exists h', seen k None (now', f) = Some h' /\ follows now' (state e') h'
      end
  | None => entries t !! k = None /\ seen k None (now', f) = None
  end ->
  tracks now' (fs ++ [(now', f)]) t'.
Proof.
  intros Hnow (Hok & Hin & Hall) Hf Hok' Hother Hk Hstep. pose proof (names_grow fs (now', f)) as Hsub.
  pose proof (subseteq_size _ _ Hsub) as Hsz. split; [done|]. split.
  - intros k' e He. destruct (decide (k' = k)) as [->|Hne]; [by apply Hk; eexists|].
    destruct (Hother k' Hne) as [Heq|[Heq _]]; [|congruence]. rewrite Heq in He. apply Hsub. by eapply Hin.
  - intros Hsize k'. rewrite history_snoc. destruct (decide (k' = k)) as [->|Hne].
    + specialize (Hall ltac:(lia) k).
      destruct (entries t' !! k) as [e'|]; [|destruct Hstep as [Hn Hs]; rewrite Hn in Hall; destruct (history k fs); [done|by rewrite Hs]].
      destruct (entries t !! k) as [e|], (history k fs) as [h|]; try done.
      * destruct (Hstep h Hall) as (h' & -> & Hfol). done.
      * destruct Hstep as (h' & -> & Hfol). done.
    + rewrite seen_other by congruence. specialize (Hall ltac:(lia) k'). destruct (Hother k' Hne) as [->|[_ Hlt]]; [|lia].
      destruct (entries t !! k') as [e|], (history k' fs) as [h|]; try done. by eapply follows_later.
Qed.

(** Updating an entry, with the number of the flow or its own. *)
Lemma used_ok t k e : table_ok t -> entries t !! k = Some e ->
  forall st, table_ok (mkTable (<[k := mkEntry st (next t)]> (entries t)) (next t + 1))
    /\ table_ok (mkTable (<[k := mkEntry st (used e)]> (entries t)) (next t)).
Proof.
  intros Hok He st. pose proof Hok as (_ & Hlt & Hinj). specialize (Hlt _ _ He) as Hu. split.
  - eapply set_ok; [done|done|lia| |lia|lia]. intros k' e' _ He'. specialize (Hlt _ _ He'). lia.
  - eapply set_ok; [done|done|lia| |lia|lia]. intros k' e' Hne He' Heq. apply Hne. by eapply Hinj.
Qed.

Lemma tracks_set now now' fs t f k e st u n : now <= now' -> tracks now fs t ->
  match f with Quic host | Tcp host => key host end = k -> entries t !! k = Some e ->
  table_ok (mkTable (<[k := mkEntry st u]> (entries t)) n) ->
  (forall h, follows now (state e) h -> exists h', seen k (Some h) (now', f) = Some h' /\ follows now' st h') ->
  tracks now' (fs ++ [(now', f)]) (mkTable (<[k := mkEntry st u]> (entries t)) n).
Proof.
  intros Hnow Htr Hf Hk Hok' Hstep. pose proof Htr as (_ & Hin & _).
  eapply tracks_step; [done|done|done|done| | |]; cbn [entries].
  - intros k' Hne. left. by rewrite lookup_insert_ne.
  - intros _. apply names_grow. by eapply Hin.
  - by rewrite lookup_insert_eq, Hk.
Qed.

Lemma tracks_tcp now now' fs t host : now <= now' -> tracks now fs t ->
  tracks now' (fs ++ [(now', Tcp host)]) (on_tcp host now' t).
Proof.
  intros Hnow Htr. unfold on_tcp. set (k := key host). pose proof Htr as (Hok & Hin & _).
  destruct (entries t !! k) as [e|] eqn:He.
  2:{ eapply (tracks_step _ _ _ _ _ _ k); [done|done|done|done|by left| |]; rewrite ?He.
    - by intros [? ?].
    - split; [done|]. unfold seen. cbn [fst snd]. by case_decide. }
  destruct (state e) as [since| |] eqn:Hse; cbn [entries next].
  - destruct (Z.leb_spec (sat_sub now' since) WINDOW) as [Hle|Hgt]; unfold sat_sub, WINDOW in *;
      (eapply tracks_set; [done|done|done|done|by apply used_ok|]); intros [t0 b] Hfol; unfold seen; cbn [fst snd];
      rewrite decide_True by done; rewrite Hse in Hfol; destruct Hfol as (Ht & -> & ->); eexists; (split; [reflexivity|]);
      (split; [lia|]); unfold WINDOW; [|split]; lia.
  - eapply (tracks_step _ _ _ _ _ _ k); [done|done|done|done|by left| |]; rewrite He.
    + intros _. apply names_grow. by eapply Hin.
    + intros [t0 b] Hfol. rewrite Hse in *. destruct Hfol as [Ht ->]. unfold seen. cbn [fst snd].
      rewrite decide_True by done. eexists. split; [reflexivity|]. split; [lia|done].
  - eapply (tracks_step _ _ _ _ _ _ k); [done|done|done|done|by left| |]; rewrite He.
    + intros _. apply names_grow. by eapply Hin.
    + intros [t0 b] Hfol. rewrite Hse in *. destruct Hfol as (Ht & -> & Hlt). unfold seen. cbn [fst snd].
      rewrite decide_True by done. eexists. split; [reflexivity|]. split; [lia|]. split; lia.
Qed.

(** The answer to a flow, by the history of its name. *)
Definition verdict (now : Z) (h : option (Z * bool)) : bool :=
  match h with
  | None => true
  | Some (t0, b) => (now <=? t0 + WINDOW) || b
  end.

Lemma seen_quic host now h : seen (key host) (Some h) (now, Quic host) = Some h.
Proof. unfold seen. cbn [fst snd]. by rewrite decide_True. Qed.

Lemma names_size now fs t : tracks now fs t -> (size (entries t) <= size (names_of fs))%nat.
Proof.
  intros (_ & Hin & _). rewrite <- (size_dom (D := gset rstr)). apply subseteq_size. intros k Hk.
  apply elem_of_dom in Hk as [e He]. by eapply Hin.
Qed.

Lemma tracks_quic now now' fs t host : now <= now' -> tracks now fs t ->
  tracks now' (fs ++ [(now', Quic host)]) (on_quic host now' t).2
  /\ ((size (names_of fs) <= REMEMBERED)%nat -> (on_quic host now' t).1 = verdict now' (history (key host) fs)).
Proof.
  intros Hnow Htr. unfold on_quic. cbv zeta. cbn [entries next]. set (k := key host). pose proof Htr as (Hok & Hin & Hall).
  destruct (entries t !! k) as [e|] eqn:He.
  - assert (Hans : (size (names_of fs) <= REMEMBERED)%nat -> exists h, history k fs = Some h /\ follows now (state e) h).
    { intros Hsz. specialize (Hall Hsz k). rewrite He in Hall. destruct (history k fs) as [h|]; [by exists h|done]. }
    assert (Hset : forall st, (forall h, follows now (state e) h -> follows now' st h) ->
      tracks now' (fs ++ [(now', Quic host)]) (mkTable (<[k := mkEntry st (next t)]> (entries t)) (next t + 1))).
    { intros st Hfol. eapply tracks_set; [done|done|done|done|by apply (used_ok t k e)|].
      intros h Hh. exists h. split; [apply seen_quic|by apply Hfol]. }
    destruct (state e) as [since| |] eqn:Hse; [destruct (Z.leb_spec (sat_sub now' since) WINDOW) as [Hle|Hgt]|..]; cbn [fst snd];
      (split; [apply Hset; intros [t0 b] [Ht Hst]; unfold sat_sub in *; (split; [lia|]); naive_solver lia|]);
      intros Hsz; destruct (Hans Hsz) as ([t0 b] & -> & Ht & Hst); unfold verdict, sat_sub in *.
    + destruct Hst as [-> ->]. rewrite orb_false_r. lia.
    + destruct Hst as [-> ->]. rewrite orb_false_r. lia.
    + rewrite Hst. by rewrite orb_true_r.
    + destruct Hst as [-> Hlt]. rewrite orb_false_r. lia.
  - destruct (add_ok t k (Trying now') Hok He) as (Hok' & Hnew & Hothers). cbn [fst snd].
    set (t' := add _ _ _ _) in *. set (fs' := fs ++ [(now', Quic host)]).
    assert (Hnames : names_of fs' = names_of fs ∪ {[k]}) by apply flow_names_snoc.
    split.
    + eapply (tracks_step _ _ _ _ _ _ k); [done|done|done|done| | |].
      * intros k' Hne. destruct (Hothers k' Hne) as [|(Hfull & Hno & _)]; [by left|right]. split; [done|].
        fold fs'. rewrite Hnames.
        assert (Hdom : dom (entries t) ∪ {[k]} ⊆ names_of fs ∪ {[k]}).
        { apply union_mono_r. intros x Hx. apply elem_of_dom in Hx as [ex Hex]. by eapply Hin. }
        apply subseteq_size in Hdom. rewrite size_union in Hdom.
        -- rewrite size_singleton, size_dom, Hfull in Hdom. lia.
        -- intros x Hx ->%elem_of_singleton. apply elem_of_dom in Hx as [ex Hex]. congruence.
      * intros _. fold fs'. rewrite Hnames. set_solver.
      * rewrite Hnew, He. unfold seen. cbn [fst snd]. rewrite decide_True by done. eexists. split; [reflexivity|].
        split; [lia|done].
    + intros Hsz. specialize (Hall Hsz k). rewrite He in Hall. destruct (history k fs); [done|done].
Qed.

Lemma flows_snoc fs nf t : flows (fs ++ [nf]) t = flow nf.1 nf.2 (flows fs t).
Proof. unfold flows. by rewrite fold_left_app. Qed.

Lemma in_order_snoc fs nf : in_order (fs ++ [nf]) -> in_order fs /\ forall x, x ∈ fs.*1 -> x <= nf.1.
Proof.
  unfold in_order. rewrite fmap_app. intros Hs%Sorted_StronglySorted; [|intros ???; lia].
  apply StronglySorted_app in Hs as (Hle & Hs & _). split; [by apply StronglySorted_Sorted|].
  intros x Hx. apply Hle; [done|]. simpl. by apply list_elem_of_singleton.
Qed.

Lemma flows_track fs : in_order fs -> exists now, (fs = [] \/ now ∈ fs.*1) /\ tracks now fs (flows fs new).
Proof.
  induction fs as [|nf fs IH] using rev_ind; intros Ho.
  - exists 0. split; [by left|]. split; [|split].
    + split; [|split]; simpl; [rewrite map_size_empty; unfold REMEMBERED; lia|by intros ???|by intros ????; rewrite lookup_empty].
    + intros k e. simpl. by rewrite lookup_empty.
    + intros _ k. simpl. by rewrite lookup_empty.
  - apply in_order_snoc in Ho as [Ho Hle]. destruct (IH Ho) as (now & Hnow & Htr). destruct nf as [now' f].
    exists now'. split; [right; rewrite fmap_app; apply elem_of_app; right; by apply list_elem_of_singleton|].
    rewrite flows_snoc. cbn [fst snd] in *.
    assert (Hlater : exists now0, now0 <= now' /\ tracks now0 fs (flows fs new)).
    { destruct Hnow as [->|Hin]; [|exists now; split; [by apply Hle|done]]. exists now'. split; [lia|].
      destruct Htr as (Hok & Hin & _). split; [done|]. split; [done|]. intros _ k. simpl. by rewrite lookup_empty. }
    destruct Hlater as (now0 & Hle0 & Htr0). destruct f as [host|host]; simpl.
    + by eapply tracks_quic.
    + by eapply tracks_tcp.
Qed.

(** Flows in the order of time, of no more names than are remembered: a
    QUIC flow is blocked exactly when it is the first of its name, or within a
    second of that first one, or a TCP session to the name came within that
    second.  *)
Theorem adaptive_verdict fs host now : in_order (fs ++ [(now, Quic host)]) -> (size (names_of fs) <= REMEMBERED)%nat ->
  (on_quic host now (flows fs new)).1 = verdict now (history (key host) fs).
Proof.
  intros Ho Hsz. apply in_order_snoc in Ho as [Ho Hle]. destruct (flows_track fs Ho) as (now0 & Hnow & Htr).
  destruct Hnow as [->|Hin].
  - simpl. unfold on_quic. simpl. by rewrite lookup_empty.
  - eapply tracks_quic; [by apply Hle|done|done].
Qed.

Lemma adaptive_verdict_witness :
  (on_quic (lit "b.test") 3000000000 (flows [(0, Quic (lit "b.test"))] new)).1 = false
  /\ (on_quic (lit "a.test") 3000000000 (flows [(0, Quic (lit "a.test")); (900000000, Tcp (lit "A.test."))] new)).1 = true.
Proof.
  split.
  - rewrite (adaptive_verdict [(0, Quic (lit "b.test"))] (lit "b.test") 3000000000); [vm_compute; reflexivity| |].
    + repeat constructor; vm_compute; discriminate.
    + vm_compute. lia.
  - vm_compute. reflexivity.
Defined.

(** Whatever flows come and in whatever order, the table never holds more
    than its two hundred names; a flow of a new name is always blocked and
    remembered as tried at its time, and makes the table forget at most one
    other name, when it is full: one whose last QUIC flow is the longest ago.  *)
Theorem table_forgets_oldest fs host now :
  let t := flows fs new in
  let t' := (on_quic host now t).2 in
  (size (entries t) <= REMEMBERED)%nat /\ (size (entries t') <= REMEMBERED)%nat
  /\ (entries t !! key host = None ->
        (on_quic host now t).1 = true
        /\ entries t' !! key host = Some (mkEntry (Trying now) (next t))
        /\ forall k, k <> key host -> entries t' !! k = entries t !! k
             \/ (size (entries t) = REMEMBERED /\ entries t' !! k = None
                 /\ exists e, entries t !! k = Some e /\ forall k2 e2, entries t !! k2 = Some e2 -> used e <= used e2)).
Proof.
  cbv zeta. assert (Hok : forall fs, table_ok (flows fs new)).
  { clear. intros fs. induction fs as [|[now f] fs IH] using rev_ind.
    - split; [|split]; simpl; [rewrite map_size_empty; unfold REMEMBERED; lia|by intros ???|by intros ????; rewrite lookup_empty].
    - rewrite flows_snoc. cbn [fst snd]. destruct f as [host|host]; simpl.
      + unfold on_quic. cbv zeta. cbn [entries next]. destruct (_ !! key host) as [e|] eqn:He; [|by apply add_ok].
        repeat case_match; by apply (used_ok _ _ e).
      + unfold on_tcp. cbv zeta. destruct (_ !! key host) as [e|] eqn:He; [|done].
        repeat case_match; try done; by apply (used_ok _ _ e). }
  split; [apply Hok|]. split.
  - pose proof (Hok (fs ++ [(now, Quic host)])) as Hok'. rewrite flows_snoc in Hok'. apply Hok'.
  - intros Hno. unfold on_quic. cbv zeta. cbn [entries next]. rewrite Hno. split; [done|]. by apply add_ok.
Qed.

Lemma table_forgets_oldest_witness :
  let t := flows [(5, Quic (lit "a.test"))] new in
  (on_quic (lit "b.test") 9 t).1 = true /\ entries (on_quic (lit "b.test") 9 t).2 !! lit "b.test" = Some (mkEntry (Trying 9) 1).
Proof.
  destruct (table_forgets_oldest [(5, Quic (lit "a.test"))] (lit "b.test") 9) as (_ & _ & Hnew).
  destruct Hnew as (Hb & He & _); [vm_compute; reflexivity|]. split; [exact Hb|exact He].
Defined.
