(* ===== verification/Limiter.v ===== *)
(** * A sliding limit

    [crates/rurge-tun/src/limit.rs]: at most [max] things in any [window].
    Times are numbers of nanoseconds. *)

From S2P Require Import Prelude.

Record Limiter := mkLimiter { max : nat; window : Z; allowed : list Z }.

Definition new (max : nat) (window : Z) : Limiter := mkLimiter max window [].

Definition allow (now : Z) (l : Limiter) : bool * Limiter :=
  let kept := drop_while (fun then_ => window l <=? sat_sub now then_) (allowed l) in
  if decide (max l <= length kept)%nat then (false, mkLimiter (max l) (window l) kept)
  else (true, mkLimiter (max l) (window l) (kept ++ [now])).

(** Calls one after the other: the limiter, and the times let through. *)
Fixpoint let_through (nows : list Z) (l : Limiter) (through : list Z) : Limiter * list Z :=
  match nows with
  | [] => (l, through)
  | now :: nows =>
      let '(b, l) := allow now l in
      let_through nows l (if b then through ++ [now] else through)
  end.

(** ** Calls in the order of time *)

(** What the queue holds after calls up to [now]: of the things let through,
    those that a window has not gone by since. *)
Definition holds (now : Z) (l : Limiter) (through : list Z) : Prop :=
  exists old, through = old ++ allowed l /\ Forall (fun x => x <= now - window l) old
    /\ StronglySorted Z.le (allowed l) /\ Forall (fun x => x <= now) (allowed l) /\ (length (allowed l) <= max l)%nat.

(** The things let through within the window before [now]. *)
Definition recent (l : Limiter) (now : Z) (through : list Z) : list Z := filter (fun x => now - window l < x) through.

Lemma allow_spec now0 now l through : now0 <= now -> 0 < window l -> holds now0 l through ->
  (allow now l).1 = bool_decide (length (recent l now through) < max l)%nat
  /\ holds now (allow now l).2 (if (allow now l).1 then through ++ [now] else through)
  /\ max (allow now l).2 = max l /\ window (allow now l).2 = window l
  /\ ((allow now l).1 = true -> forall i x, through !! i = Some x -> (i + max l <= length through)%nat -> x <= now - window l).
Proof.
  intros Hnow Hwin (old & -> & Hold & Hs & Hle & Hlen). unfold allow.
  destruct (drop_while_split (fun then_ => window l <=? sat_sub now then_) (allowed l)) as (before & Hal & Hbefore).
  pose proof (drop_while_head (fun then_ => window l <=? sat_sub now then_) (allowed l)) as Hhead.
  set (kept := drop_while _ _) in *.
  assert (Hb : Forall (fun x => x <= now - window l) before).
  { eapply Forall_impl; [exact Hbefore|]. intros x Hx. simpl in Hx. unfold sat_sub in Hx. lia. }
  assert (Holds : Forall (fun x => x <= now - window l) (old ++ before)).
  { apply Forall_app_2; [|done]. eapply Forall_impl; [exact Hold|]. simpl. lia. }
  rewrite Hal in Hs, Hle, Hlen. apply StronglySorted_app in Hs as (_ & _ & Hs). apply Forall_app in Hle as [_ Hle].
  rewrite length_app in Hlen.
  assert (Hk : Forall (fun x => now - window l < x) kept).
  { destruct kept as [|x kept]; [constructor|]. specialize (Hhead x eq_refl). simpl in Hhead.
    apply StronglySorted_cons in Hs as [Hx _]. unfold sat_sub in Hhead.
    constructor; [lia|]. eapply Forall_impl; [exact Hx|]. simpl. lia. }
  assert (Hrec : recent l now (old ++ allowed l) = kept).
  { unfold recent. rewrite Hal, app_assoc, filter_app, filter_none, filter_all; [done|done|].
    eapply Forall_impl; [exact Holds|]. simpl. lia. }
  rewrite Hrec, Hal, app_assoc. assert (Hle' : Forall (fun x => x <= now) kept) by (eapply Forall_impl; [exact Hle|simpl; lia]).
  case_decide as Hfull; cbn [fst snd].
  - rewrite bool_decide_eq_false_2 by lia. split; [done|]. split; [|split; [done|split; [done|done]]].
    exists (old ++ before). cbn [allowed window max]. repeat (split; [done|]). lia.
  - rewrite bool_decide_eq_true_2 by lia. split; [done|]. split; [|split; [done|split; [done|]]].
    + exists (old ++ before). cbn [allowed window max]. rewrite <- !app_assoc. split; [done|].
      split; [done|]. split; [|split; [apply Forall_app_2; [done|repeat constructor; lia]|rewrite length_app; simpl; lia]].
      apply StronglySorted_app_2; [|done|repeat constructor]. intros x y Hx ->%list_elem_of_singleton.
      rewrite Forall_forall in Hle'. by apply Hle'.
    + intros _ i x Hi Hin. rewrite length_app in Hin. rewrite lookup_app_l in Hi by lia.
      rewrite Forall_lookup in Holds. by eapply Holds.
Qed.

Lemma let_through_app nows nows' l through :
  let_through (nows ++ nows') l through = (let '(l, through) := let_through nows l through in let_through nows' l through).
Proof. revert l through. induction nows as [|now nows IH]; intros l through; simpl; [done|]. destruct (allow now l). apply IH. Qed.

Lemma let_through_holds m w nows : 0 < w -> StronglySorted Z.le nows ->
  let '(l, through) := let_through nows (new m w) [] in
  max l = m /\ window l = w
  /\ (forall now, (forall x, x ∈ nows -> x <= now) -> exists now0, now0 <= now /\ holds now0 l through)
  /\ forall i x y, through !! i = Some x -> through !! (i + m)%nat = Some y -> (0 < m)%nat -> w <= y - x.
Proof.
  intros Hw. induction nows as [|now nows IH] using rev_ind; intros Hs.
  { simpl. split; [done|]. split; [done|]. split; [|done]. intros now _. exists now. split; [lia|]. exists []. simpl. repeat constructor. lia. }
  apply StronglySorted_app in Hs as (Hlast & Hs & _). specialize (IH Hs). rewrite let_through_app.
  destruct (let_through nows (new m w) []) as [l through]. destruct IH as (<- & Hwin & Hh & Hgap). simpl.
  destruct (Hh now) as (now0 & Hle & Hholds); [intros x Hx; apply Hlast; [done|by apply list_elem_of_singleton]|].
  destruct (allow_spec now0 now l through Hle) as (_ & Hh' & Hm & Hwd & Hnew); [lia|done|].
  destruct (allow now l) as [b l'] eqn:Ha. cbn [fst snd] in *. split; [done|]. split; [congruence|]. split.
  - intros now1 Hall. exists now. split; [apply Hall, elem_of_app; right; by apply list_elem_of_singleton|done].
  - intros i x y Hx Hy Hm0. destruct b; [|by eapply Hgap].
    destruct (decide (i + max l = length through)%nat) as [Heq|Hne].
    + rewrite lookup_app_l in Hx by lia. rewrite Heq, list_lookup_middle in Hy by done. simplify_eq.
      specialize (Hnew eq_refl i x Hx ltac:(lia)). lia.
    + pose proof (lookup_lt_Some _ _ _ Hy) as Hlt. rewrite length_app in Hlt. simpl in Hlt.
      rewrite lookup_app_l in Hx, Hy by lia. by eapply Hgap.
Qed.

(** Asked in the order of time, the limiter lets a thing through exactly
    when fewer than [max] were let through in the window before it, and no
    [max + 1] of those let through ever come within one window.  *)
Theorem limiter_limits m w nows now : (0 < m)%nat -> 0 < w -> StronglySorted Z.le (nows ++ [now]) ->
  let '(l, through) := let_through nows (new m w) [] in
  (allow now l).1 = bool_decide (length (filter (fun x => (now - w < x)%Z) through) < m)%nat
  /\ forall i x y, through !! i = Some x -> through !! (i + m)%nat = Some y -> w <= y - x.
Proof.
  intros Hm Hw Hs. apply StronglySorted_app in Hs as (Hlast & Hs & _). pose proof (let_through_holds m w nows Hw Hs) as Hh.
  destruct (let_through nows (new m w) []) as [l through]. destruct Hh as (<- & Hwin & Hh & Hgap).
  split; [|intros i x y Hx Hy; by eapply Hgap]. destruct (Hh now) as (now0 & Hle & Hholds).
  { intros x Hx. apply Hlast; [done|by apply list_elem_of_singleton]. }
  destruct (allow_spec now0 now l through Hle) as (-> & _); [lia|done|]. unfold recent. by rewrite Hwin.
Qed.

Lemma limiter_limits_witness :
  (allow 4 (let_through [0; 1; 2; 4] (new 2 3) []).1).1 = true /\ (let_through [0; 1; 2; 4] (new 2 3) []).2 = [0; 1; 4].
Proof.
  assert (Hs : StronglySorted Z.le ([0; 1; 2; 4] ++ [4])) by (simpl; repeat constructor; lia).
  pose proof (limiter_limits 2 3 [0; 1; 2; 4] 4 ltac:(lia) ltac:(lia) Hs) as [Ha _].
  split; [exact Ha|vm_compute; reflexivity].
Defined.

(** Asked out of the order of time, the limiter can let through more than
    [max] in one window: a later time that comes first takes out of the queue
    what still counts for an earlier one that comes after it.  *)
Theorem limiter_out_of_order :
  (let_through [5; 5; 8; 7] (new 2 3) []).2 = [5; 5; 8; 7]
  /\ 2 < Z.of_nat (length (filter (fun x => 7 - 3 < x <= 7) (let_through [5; 5; 8; 7] (new 2 3) []).2)).
Proof. split; vm_compute; reflexivity. Qed.
