(* ===== verification/Admission.v ===== *)
(** * Places for connections, shared by the shards

    [crates/rurge-tun/src/tcp/admission.rs]: three counters that every shard
    raises and lowers in single atomic steps.  [claim] and [unclaim] are two
    steps each, so the steps of different shards come in between; [Steps] are
    the interleavings.  The counters are [usize]s, which wrap. *)

From S2P Require Import Prelude.
From stdpp Require Import relations.
Open Scope Z_scope.

Definition USIZE : Z := 18446744073709551616.

Record Admission := mkAdmission {
  max_sockets : Z;
  max_half_open : Z;
  max_dns_tcp : Z;
  sockets : Z;
  half_open : Z;
  dns_tcp : Z;
}.

Definition set_sockets (n : Z) (a : Admission) : Admission :=
  mkAdmission (max_sockets a) (max_half_open a) (max_dns_tcp a) n (half_open a) (dns_tcp a).
Definition set_half_open (n : Z) (a : Admission) : Admission :=
  mkAdmission (max_sockets a) (max_half_open a) (max_dns_tcp a) (sockets a) n (dns_tcp a).
Definition set_dns_tcp (n : Z) (a : Admission) : Admission :=
  mkAdmission (max_sockets a) (max_half_open a) (max_dns_tcp a) (sockets a) (half_open a) n.

Definition new (ms mh md : Z) : Admission := mkAdmission ms mh md 0 0 0.

(** [raise]: the new count, if it was under the cap. *)
Definition raise (count cap : Z) : option Z := if count <? cap then Some ((count + 1) mod USIZE) else None.

(** [fetch_sub(1)]. *)
Definition lower (count : Z) : Z := (count - 1) mod USIZE.

Definition release_half_open (a : Admission) : Admission := set_half_open (lower (half_open a)) a.
Definition release_socket (a : Admission) : Admission := set_sockets (lower (sockets a)) a.

(** [claim] without another shard in between. *)
Definition claim (a : Admission) : bool * Admission :=
  match raise (half_open a) (max_half_open a) with
  | None => (false, a)
  | Some n =>
      let a := set_half_open n a in
      match raise (sockets a) (max_sockets a) with
      | None => (false, release_half_open a)
      | Some n => (true, set_sockets n a)
      end
  end.

Definition unclaim (a : Admission) : Admission := release_socket (release_half_open a).

Definition claim_dns_tcp (a : Admission) : option Admission :=
  n ← raise (dns_tcp a) (max_dns_tcp a); Some (set_dns_tcp n a).

(** [Drop] of a [DnsPlace]. *)
Definition drop_dns_place (a : Admission) : Admission := set_dns_tcp (lower (dns_tcp a)) a.

(** ** Shards at work *)

(** Where a SYN or a connection is with its places: nothing claimed; the first
    of [claim]'s counts raised; both raised; only the half-open one left to give
    back; only the socket left. *)
Inductive Phase : Type := Idle | Raised | Claimed | HalfLeft | SocketLeft.

#[export] Instance Phase_eq_dec : EqDecision Phase.
Proof. solve_decision. Defined.

(** The connections in their phases, and the [DnsPlace]s held. *)
Record World := mkWorld { adm : Admission; phases : gmap nat Phase; places : nat }.

Definition phase_of (w : World) (i : nat) : Phase := default Idle (phases w !! i).

Definition in_phase (w : World) (i : nat) (p : Phase) (a : Admission) : World :=
  mkWorld a (<[i := p]> (phases w)) (places w).

Inductive step : World -> World -> Prop :=
(** [claim]: the half-open count, then the sockets' *)
| step_raise w i n : phase_of w i = Idle -> raise (half_open (adm w)) (max_half_open (adm w)) = Some n ->
    step w (in_phase w i Raised (set_half_open n (adm w)))
| step_claimed w i n : phase_of w i = Raised -> raise (sockets (adm w)) (max_sockets (adm w)) = Some n ->
    step w (in_phase w i Claimed (set_sockets n (adm w)))
| step_no_socket w i : phase_of w i = Raised -> raise (sockets (adm w)) (max_sockets (adm w)) = None ->
    step w (in_phase w i HalfLeft (adm w))
(** the handshake over, or [unclaim]'s first step: the half-open one first *)
| step_half w i : phase_of w i = Claimed -> step w (in_phase w i SocketLeft (release_half_open (adm w)))
(** the shard rebuilt: the socket first *)
| step_socket_first w i : phase_of w i = Claimed -> step w (in_phase w i HalfLeft (release_socket (adm w)))
| step_half_left w i : phase_of w i = HalfLeft -> step w (in_phase w i Idle (release_half_open (adm w)))
| step_socket_left w i : phase_of w i = SocketLeft -> step w (in_phase w i Idle (release_socket (adm w)))
| step_dns w a : claim_dns_tcp (adm w) = Some a -> step w (mkWorld a (phases w) (S (places w)))
| step_dns_drop w n : places w = S n -> step w (mkWorld (drop_dns_place (adm w)) (phases w) n).

Definition start (ms mh md : Z) : World := mkWorld (new ms mh md) ∅ 0.

(** ** The counters are the places held *)

Definition half (p : Phase) : bool := match p with Raised | Claimed | HalfLeft => true | _ => false end.
Definition socket (p : Phase) : bool := match p with Claimed | SocketLeft => true | _ => false end.

Definition held (f : Phase -> bool) (m : gmap nat Phase) : Z := Z.of_nat (size (filter (fun p => f p.2 = true) m)).

Definition b2z (b : bool) : Z := if b then 1 else 0.

Lemma held_insert f m i p : f Idle = false ->
  held f (<[i := p]> m) = held f m - b2z (f (default Idle (m !! i))) + b2z (f p).
Proof.
  intros Hidle. unfold held.
  assert (Hdel : Z.of_nat (size (filter (fun q => f q.2 = true) (delete i m)))
    = Z.of_nat (size (filter (fun q => f q.2 = true) m)) - b2z (f (default Idle (m !! i)))).
  { destruct (m !! i) as [q|] eqn:Hi; simpl.
    - rewrite <- (insert_delete_id m i q) at 2 by done. destruct (f q) eqn:Hq; simpl.
      + rewrite map_filter_insert_True by done. rewrite map_size_insert_None; [lia|].
        apply map_lookup_filter_None. left. apply lookup_delete_eq.
      + rewrite map_filter_insert_False by (simpl; congruence). rewrite delete_delete_eq. lia.
    - rewrite Hidle, delete_id by done. simpl. lia. }
  rewrite <- insert_delete_eq. destruct (f p) eqn:Hp; simpl.
  - rewrite map_filter_insert_True by done. rewrite map_size_insert_None; [lia|].
    apply map_lookup_filter_None. left. apply lookup_delete_eq.
  - rewrite map_filter_insert_False by (simpl; congruence). rewrite delete_delete_eq. lia.
Qed.

Lemma held_pos f m i : f (default Idle (m !! i)) = true -> f Idle = false -> 1 <= held f m.
Proof.
  intros Hf Hidle. destruct (m !! i) as [p|] eqn:Hi; simpl in Hf; [|congruence]. unfold held.
  assert (size (filter (fun p => f p.2 = true) m) <> 0%nat); [|lia].
  apply map_size_non_empty_iff. intros He. apply (f_equal (fun x => x !! i)) in He. rewrite lookup_empty in He.
  apply map_lookup_filter_None in He as [He|He]; [congruence|]. by apply (He p).
Qed.

Lemma held_nonneg f m : 0 <= held f m.
Proof. unfold held. lia. Qed.

Definition caps_ok (ms mh md : Z) : Prop := 0 <= ms < USIZE /\ 0 <= mh < USIZE /\ 0 <= md < USIZE.

Definition counts_ok (ms mh md : Z) (w : World) : Prop :=
  max_sockets (adm w) = ms /\ max_half_open (adm w) = mh /\ max_dns_tcp (adm w) = md
  /\ sockets (adm w) = held socket (phases w) /\ sockets (adm w) <= ms
  /\ half_open (adm w) = held half (phases w) /\ half_open (adm w) <= mh
  /\ dns_tcp (adm w) = Z.of_nat (places w) /\ dns_tcp (adm w) <= md.

Lemma raise_Some count cap n : 0 <= count -> cap < USIZE -> raise count cap = Some n -> n = count + 1 /\ n <= cap.
Proof.
  unfold raise. intros Hc Hcap. destruct (Z.ltb_spec count cap); [|done]. intros [= <-].
  rewrite Z.mod_small by lia. lia.
Qed.

Lemma lower_pos count : 1 <= count < USIZE -> lower count = count - 1.
Proof. intros Hc. unfold lower. rewrite Z.mod_small; lia. Qed.

Lemma step_counts ms mh md w w' : caps_ok ms mh md -> counts_ok ms mh md w -> step w w' -> counts_ok ms mh md w'.
Proof.
  intros (Hms & Hmh & Hmd) (Es & Eh & Ed & Hs & Hsm & Hh & Hhm & Hd & Hdm) Hstep.
  pose proof (held_nonneg socket (phases w)) as Ps. pose proof (held_nonneg half (phases w)) as Ph.
  assert (Hpos : forall i, (half (phase_of w i) = true -> 1 <= held half (phases w))
                        /\ (socket (phase_of w i) = true -> 1 <= held socket (phases w))).
  { intros i. split; intros Hp; (eapply held_pos; [exact Hp|done]). }
  destruct Hstep as [w i n Hi Hr|w i n Hi Hr|w i Hi Hr|w i Hi|w i Hi|w i Hi|w i Hi|w a Ha|w n Hn];
    try (specialize (Hpos i); rewrite Hi in Hpos; simpl in Hpos; destruct Hpos as [Hp1 Hp2]);
    unfold counts_ok, in_phase, release_half_open, release_socket, drop_dns_place, set_half_open, set_sockets, set_dns_tcp;
    cbn [adm phases places max_sockets max_half_open max_dns_tcp sockets half_open dns_tcp];
    try (rewrite !held_insert by done; unfold phase_of in Hi; rewrite Hi; simpl).
  - apply raise_Some in Hr as [-> Hn]; [|lia|lia]. repeat split; lia.
  - apply raise_Some in Hr as [-> Hn]; [|lia|lia]. repeat split; lia.
  - repeat split; lia.
  - specialize (Hp1 eq_refl). rewrite lower_pos by lia. repeat split; lia.
  - specialize (Hp2 eq_refl). rewrite lower_pos by lia. repeat split; lia.
  - specialize (Hp1 eq_refl). rewrite lower_pos by lia. repeat split; lia.
  - specialize (Hp2 eq_refl). rewrite lower_pos by lia. repeat split; lia.
  - unfold claim_dns_tcp in Ha. apply bind_Some in Ha as (n & Hr & [= <-]).
    apply raise_Some in Hr as [-> Hn]; [|lia|lia]. cbn. repeat split; lia.
  - rewrite lower_pos by lia. repeat split; lia.
Qed.

(** C11: however the steps of the shards interleave, the counters are the
    places held, neither count ever passes its cap, and none ever wraps; and
    [claim] with no other shard in between takes both places, exactly when both
    caps have room, or none.  *)
Theorem admission_caps ms mh md w : caps_ok ms mh md -> rtc step (start ms mh md) w ->
  sockets (adm w) = held socket (phases w) /\ 0 <= sockets (adm w) <= ms
  /\ half_open (adm w) = held half (phases w) /\ 0 <= half_open (adm w) <= mh
  /\ dns_tcp (adm w) = Z.of_nat (places w) /\ dns_tcp (adm w) <= md
  /\ claim (adm w) = (if (half_open (adm w) <? mh) && (sockets (adm w) <? ms)
                      then (true, mkAdmission ms mh md (sockets (adm w) + 1) (half_open (adm w) + 1) (dns_tcp (adm w)))
                      else (false, adm w)).
Proof.
  intros Hcaps Hr. assert (Hok : counts_ok ms mh md w).
  { revert Hr. apply (rtc_ind_r (R := step) (counts_ok ms mh md) (start ms mh md)); [|intros; by eapply step_counts].
    destruct Hcaps as (? & ? & ?). unfold counts_ok, start, new, held. cbn. repeat split; lia. }
  destruct Hcaps as (Cs & Ch & Cd). destruct Hok as (Es & Eh & Ed & Hs & Hsm & Hh & Hhm & Hd & Hdm).
  pose proof (held_nonneg socket (phases w)). pose proof (held_nonneg half (phases w)).
  repeat (split; [done || lia|]). unfold claim, raise. rewrite Eh. destruct (Z.ltb_spec (half_open (adm w)) mh) as [Hlt|]; [|done].
  cbn [andb]. rewrite (Z.mod_small (half_open (adm w) + 1)) by lia. cbn [sockets max_sockets set_half_open]. rewrite Es.
  destruct (Z.ltb_spec (sockets (adm w)) ms) as [Hlt'|].
  - rewrite Z.mod_small by lia. unfold set_sockets, set_half_open. cbn. by rewrite Es, Eh, Ed.
  - unfold release_half_open, set_half_open. cbn [half_open]. rewrite lower_pos by lia.
    replace (half_open (adm w) + 1 - 1) with (half_open (adm w)) by lia. by destruct (adm w).
Qed.

(** Two shards at the edge of a cap of one socket: the second gives back. *)
Lemma admission_caps_witness :
  exists w, rtc step (start 1 8 2) w /\ 0 <= half_open (adm w) <= 8 /\ 0 <= sockets (adm w) <= 1.
Proof.
  assert (Hr : rtc step (start 1 8 2) (in_phase (in_phase (in_phase (in_phase (start 1 8 2) 0 Raised (mkAdmission 1 8 2 0 1 0))
    1 Raised (mkAdmission 1 8 2 0 2 0)) 0 Claimed (mkAdmission 1 8 2 1 2 0)) 1 HalfLeft (mkAdmission 1 8 2 1 2 0))).
  { eapply rtc_l; [apply (step_raise _ 0 1); reflexivity|]. eapply rtc_l; [apply (step_raise _ 1 2); reflexivity|].
    eapply rtc_l; [apply (step_claimed _ 0 1); reflexivity|]. eapply rtc_l; [apply (step_no_socket _ 1); reflexivity|].
    apply rtc_refl. }
  eexists. split; [exact Hr|].
  destruct (admission_caps 1 8 2 _ ltac:(vm_compute; repeat split; discriminate) Hr) as (_ & Hs & _ & Hh & _).
  split; [exact Hh|exact Hs].
Defined.
