(* ===== verification/UdpTargets.v ===== *)
(** * The destinations of a UDP session

    [crates/rurge-tun/src/udp/targets.rs]: entries by endpoint, and the
    endpoint of each target.  Endpoints, targets and leases are of any types;
    times are numbers of nanoseconds. *)

From S2P Require Import Prelude.

Definition QUOTE_MAX : nat := 60 + 8.

(** [Quote]: an array of [QUOTE_MAX] bytes, and how many of them are used. *)
Record Quote := mkQuote { q_bytes : list Z; q_len : nat }.

Definition quote_of (headers : list Z) : Quote :=
  let len := Nat.min (length headers) QUOTE_MAX in
  mkQuote (take len headers ++ replicate (QUOTE_MAX - len) 0) len.

Definition as_slice (q : Quote) : list Z := take (q_len q) (q_bytes q).

Section targets.
Context {Endpoint Target Lease : Type} `{Countable Endpoint} `{Countable Target}.

Record Entry := mkEntry {
  target : Target;
  endpoint : Endpoint;
  quote : Quote;
  lease : option Lease;
  up : Z;
  down : Z;
}.

Definition new_entry (ep : Endpoint) (t : Target) (l : option Lease) (q : Quote) (now : Z) : Entry :=
  mkEntry t ep q l now now.

Definition sent (q : Quote) (now : Z) (e : Entry) : Entry :=
  mkEntry (target e) (endpoint e) q (lease e) now (down e).

Definition answered (now : Z) (e : Entry) : Entry :=
  mkEntry (target e) (endpoint e) (quote e) (lease e) (up e) now.

Record Targets := mkTargets {
  max : nat;
  by_endpoint_map : gmap Endpoint Entry;
  endpoints : gmap Target Endpoint;
}.

Definition new (max : nat) : Targets := mkTargets max ∅ ∅.

Definition is_full (ts : Targets) : bool := (max ts <=? size (by_endpoint_map ts))%nat.

Definition by_endpoint (ep : Endpoint) (ts : Targets) : option Entry := by_endpoint_map ts !! ep.

Definition by_target (t : Target) (ts : Targets) : option Entry :=
  ep ← endpoints ts !! t; by_endpoint_map ts !! ep.

(** What the callers of [by_endpoint] and [by_target] write through the
    reference they get: [Entry::sent] and [Entry::answered]. *)
Definition update (f : Entry -> Entry) (ep : Endpoint) (ts : Targets) : Targets :=
  mkTargets (max ts) (alter f ep (by_endpoint_map ts)) (endpoints ts).

Definition insert_entry (e : Entry) (ts : Targets) : Targets :=
  mkTargets (max ts) (<[endpoint e := e]> (by_endpoint_map ts)) (<[target e := endpoint e]> (endpoints ts)).

Definition keep (now idle : Z) (e : Entry) : bool := sat_sub now (Z.max (up e) (down e)) <? idle.

Definition sweep (now idle : Z) (ts : Targets) : Targets :=
  mkTargets (max ts)
    (filter (fun p => keep now idle p.2 = true) (by_endpoint_map ts))
    (fold_right (fun p m => if keep now idle p.2 then m else delete (target p.2) m) (endpoints ts)
       (map_to_list (by_endpoint_map ts))).

Definition clear (ts : Targets) : Targets := mkTargets (max ts) ∅ ∅.

(** ** The two maps are one *)

Definition targets_ok (ts : Targets) : Prop :=
  (size (by_endpoint_map ts) <= max ts)%nat
  /\ (forall ep e, by_endpoint_map ts !! ep = Some e -> endpoint e = ep /\ endpoints ts !! target e = Some ep)
  /\ (forall t ep, endpoints ts !! t = Some ep -> exists e, by_endpoint_map ts !! ep = Some e /\ target e = t).

(** What a session does with its destinations. *)
Inductive Op : Type :=
| Sent (ep : Endpoint) (q : Quote) (now : Z)
| Answered (t : Target) (now : Z)
| Insert (ep : Endpoint) (t : Target) (l : option Lease) (q : Quote) (now : Z)
| Sweep (now idle : Z)
| Clear.

(** The callers look for room before they insert, and insert what is not
    there. *)
Definition allowed (ts : Targets) (o : Op) : Prop :=
  match o with
  | Insert ep t _ _ _ => is_full ts = false /\ by_endpoint ep ts = None /\ endpoints ts !! t = None
  | _ => True
  end.

Definition op (ts : Targets) (o : Op) : Targets :=
  match o with
  | Sent ep q now => update (sent q now) ep ts
  | Answered t now =>
      match endpoints ts !! t with
      | Some ep => update (answered now) ep ts
      | None => ts
      end
  | Insert ep t l q now => insert_entry (new_entry ep t l q now) ts
  | Sweep now idle => sweep now idle ts
  | Clear => clear ts
  end.

Inductive session : Targets -> Prop :=
| session_new n : session (new n)
| session_op ts o : session ts -> allowed ts o -> session (op ts o).

Lemma update_ok f ep ts : (forall e, target (f e) = target e /\ endpoint (f e) = endpoint e) -> targets_ok ts -> targets_ok (update f ep ts).
Proof.
  intros Hf (Hsz & Hep & Ht). split; [|split]; simpl.
  - rewrite <- (size_dom (D := gset Endpoint)), dom_alter_L, size_dom. done.
  - intros ep' e He. apply lookup_alter_Some in He as [(-> & e0 & He0 & ->)|[Hne He]]; [|by apply Hep].
    destruct (Hf e0) as [-> ->]. by apply Hep.
  - intros t ep' Hl. destruct (Ht t ep' Hl) as (e & He & Hte). destruct (decide (ep' = ep)) as [->|Hne].
    + exists (f e). rewrite lookup_alter_eq, He. split; [done|]. by destruct (Hf e) as [-> _].
    + exists e. by rewrite lookup_alter_ne.
Qed.

Lemma insert_ok e ts : targets_ok ts -> is_full ts = false -> by_endpoint_map ts !! endpoint e = None ->
  endpoints ts !! target e = None -> targets_ok (insert_entry e ts).
Proof.
  intros (Hsz & Hep & Ht) Hroom Hno Hnot. unfold is_full in Hroom. apply Nat.leb_gt in Hroom. split; [|split]; simpl.
  - rewrite map_size_insert_None by done. lia.
  - intros ep' e' [[<- <-]|[Hne He]]%lookup_insert_Some; [by rewrite lookup_insert_eq|].
    destruct (Hep _ _ He) as [-> Hl]. rewrite lookup_insert_ne; [done|]. congruence.
  - intros t ep' [[<- <-]|[Hne Hl]]%lookup_insert_Some; [exists e; by rewrite lookup_insert_eq|].
    destruct (Ht _ _ Hl) as (e' & He' & Hte). exists e'. rewrite lookup_insert_ne by congruence. done.
Qed.

(** What [retain] takes out of [endpoints]. *)
Lemma swept_endpoints now idle (l : list (Endpoint * Entry)) (m : gmap Target Endpoint) t ep :
  fold_right (fun p m => if keep now idle p.2 then m else delete (target p.2) m) m l !! t = Some ep
  <-> m !! t = Some ep /\ forall p, p ∈ l -> target p.2 = t -> keep now idle p.2 = true.
Proof.
  induction l as [|p l IH]; simpl; [split; [intros Hm; split; [done|by intros ? ?%elem_of_nil]|by intros [? _]]|].
  destruct (keep now idle p.2) eqn:Hk.
  - rewrite IH. split; intros [Hm Hall]; (split; [done|]); intros q.
    + intros [->|Hq]%elem_of_cons Ht; [done|by apply Hall].
    + intros Hq Ht. apply Hall; [by right|done].
  - rewrite lookup_delete_Some, IH. split.
    + intros (Hne & Hm & Hall). split; [done|]. intros q [->|Hq]%elem_of_cons Ht; [done|by apply Hall].
    + intros [Hm Hall]. split; [|split; [done|]].
      * intros Ht. rewrite (Hall p) in Hk; [done|left|done].
      * intros q Hq Ht. apply Hall; [by right|done].
Qed.

Lemma sweep_ok now idle ts : targets_ok ts -> targets_ok (sweep now idle ts).
Proof.
  intros (Hsz & Hep & Ht). split; [|split]; simpl.
  - etrans; [|exact Hsz]. apply map_subseteq_size, map_filter_subseteq.
  - intros ep e [He Hk]%map_lookup_filter_Some. simpl in Hk. destruct (Hep _ _ He) as [Hend Hl]. split; [done|].
    apply swept_endpoints. split; [done|]. intros [ep' e'] Hp%elem_of_map_to_list Hte. simpl in *.
    destruct (Hep _ _ Hp) as [_ Hl']. congruence.
  - intros t ep Hl. apply swept_endpoints in Hl as [Hl Hall]. destruct (Ht _ _ Hl) as (e & He & Hte). exists e.
    split; [|done]. apply map_lookup_filter_Some. split; [done|]. simpl. apply (Hall (ep, e)); [by apply elem_of_map_to_list|done].
Qed.

Lemma session_ok ts : session ts -> targets_ok ts.
Proof.
  induction 1 as [n|ts o _ IH Ha].
  - split; [|split]; simpl; [rewrite map_size_empty; lia|by intros ??; rewrite lookup_empty|by intros ??; rewrite lookup_empty].
  - destruct o as [ep q now|t now|ep t l q now|now idle|]; simpl.
    + by apply update_ok.
    + case_match; [by apply update_ok|done].
    + destruct Ha as (? & ? & ?). by apply insert_ok.
    + by apply sweep_ok.
    + split; [|split]; simpl; [rewrite map_size_empty; lia|by intros ??; rewrite lookup_empty|by intros ??; rewrite lookup_empty].
Qed.

(** Whatever a session does with its destinations, it has no more than it
    may; each is found by its endpoint and by its target, and what is found
    either way is one and the same entry; a sweep keeps exactly the destinations
    that had a datagram, either way, less than the idle time ago, and both maps
    forget the others.  *)
Theorem targets_consistent ts : session ts ->
  (size (by_endpoint_map ts) <= max ts)%nat
  /\ (forall ep e, by_endpoint ep ts = Some e -> endpoint e = ep /\ by_target (target e) ts = Some e)
  /\ (forall t e, by_target t ts = Some e -> target e = t /\ by_endpoint (endpoint e) ts = Some e)
  /\ (forall now idle t e, by_target t (sweep now idle ts) = Some e <->
        by_target t ts = Some e /\ sat_sub now (Z.max (up e) (down e)) < idle).
Proof.
  intros Hs. pose proof (session_ok ts Hs) as (Hsz & Hep & Ht). split; [done|]. split; [|split].
  - intros ep e He. destruct (Hep _ _ He) as [Hend Hl]. split; [done|]. unfold by_target. by rewrite Hl.
  - intros t e Hb. apply bind_Some in Hb as (ep & Hl & He). destruct (Ht _ _ Hl) as (e' & He' & Hte).
    destruct (Hep _ _ He) as [Hend _]. split; [congruence|]. unfold by_endpoint. congruence.
  - intros now idle t e. unfold by_target. rewrite !bind_Some. split.
    + intros (ep & Hl & He). apply swept_endpoints in Hl as [Hl _]. simpl in He.
      apply map_lookup_filter_Some in He as [He Hk]. unfold keep in Hk. simpl in Hk. split; [by exists ep|lia].
    + intros [(ep & Hl & He) Hk]. exists ep. destruct (Ht _ _ Hl) as (e' & He' & Hte).
      assert (Hkeep : keep now idle e = true) by (unfold keep; lia). split.
      * apply swept_endpoints. split; [done|]. intros [ep2 e2] Hp%elem_of_map_to_list Ht2. simpl in *.
        destruct (Hep _ _ Hp) as [_ Hl2]. rewrite Ht2 in Hl2. congruence.
      * apply map_lookup_filter_Some. done.
Qed.

End targets.

Lemma quote_of_slice headers : as_slice (quote_of headers) = take QUOTE_MAX headers.
Proof.
  unfold as_slice, quote_of. cbn [q_bytes q_len]. rewrite take_app_le by (rewrite length_take; lia).
  rewrite take_take. rewrite Nat.min_id. destruct (decide (length headers <= QUOTE_MAX)%nat).
  - rewrite Nat.min_l by done. rewrite !take_ge; done || lia.
  - by rewrite Nat.min_r by lia.
Qed.

Lemma targets_consistent_witness :
  let ts := op (op (new 2) (Insert 1 10 (@None unit) (quote_of [69; 0]) 0)) (Sent 1 (quote_of [69; 1]) 5) in
  (size (by_endpoint_map ts) <= 2)%nat /\ by_target 10 ts = Some (mkEntry 10 1 (quote_of [69; 1]) None 5 0)
  /\ by_target 10 (sweep 20 10 ts) = None.
Proof.
  split.
  - apply (targets_consistent (op (op (new 2) (Insert 1 10 (@None unit) (quote_of [69; 0]) 0)) (Sent 1 (quote_of [69; 1]) 5))).
    apply session_op; [apply session_op; [apply session_new|]|done]. vm_compute. repeat split.
  - split; vm_compute; reflexivity.
Defined.
