(* ===== verification/Auth.v ===== *)
(** * The ban table of the HTTP API

    [crates/rurge-api/src/auth.rs]: five failures of one source within ten
    minutes ban it for ten minutes; the table is bounded.  Sources are of any
    countable type; times are numbers of nanoseconds.  Of the sources touched
    longest ago any one may be the one that [min_by_key] meets first: the
    choice is the parameter [oldest]. *)

From S2P Require Import Prelude.

Definition BAN_FAILURES : nat := 5.
Definition BAN_WINDOW : Z := 600 * 1000000000.
Definition BAN_DURATION : Z := 600 * 1000000000.
Definition MAX_TRACKED : nat := 1024.

Record Entry := mkEntry { failures : list Z; banned_until : option Z; touched : Z }.

(** [ct_eq]: the xor of every two bytes, or'ed together in a byte. *)
Fixpoint differences (acc : Z) (a b : list Z) : Z :=
  match a, b with
  | x :: a, y :: b => differences (Z.lor acc (Z.lxor x y)) a b
  | _, _ => acc
  end.

Definition ct_eq (a b : list Z) : bool :=
  if negb (length a =? length b)%nat then false else differences 0 a b =? 0.

Definition key_matches (key presented : rstr) : bool := ct_eq (utf8_encode presented) (utf8_encode key).

Section table.
Context {Ip : Type} `{Countable Ip}.
Abbreviation Table := (gmap Ip Entry).
Context (oldest : Table -> option Ip).

Definition is_banned (ip : Ip) (now : Z) (t : Table) : bool * Table :=
  match t !! ip with
  | None => (false, t)
  | Some e =>
      match banned_until e with
      | Some until => if now <? until then (true, t) else (false, <[ip := mkEntry [] None (touched e)]> t)
      | None => (false, t)
      end
  end.

Definition evict (ip : Ip) (t : Table) : Table :=
  match t !! ip with
  | Some _ => t
  | None =>
      if decide (MAX_TRACKED <= size t)%nat then
        match oldest t with Some o => delete o t | None => t end
      else t
  end.

Definition record_failure (ip : Ip) (now : Z) (t : Table) : bool * Table :=
  let t := evict ip t in
  let e := default (mkEntry [] None now) (t !! ip) in
  let kept := drop_while (fun f => BAN_WINDOW <? sat_sub now f) (failures e) in
  let fs := kept ++ [now] in
  if decide (BAN_FAILURES <= length fs)%nat
  then (true, <[ip := mkEntry [] (Some (now + BAN_DURATION)) now]> t)
  else (false, <[ip := mkEntry fs (banned_until e) now]> t).

(** ** Attempts *)

(** [require_key], as far as the table goes: a banned source is turned away;
    one with a wrong key is recorded.  The two take the lock one after the
    other, so other requests may come in between: they are calls of their own. *)
Inductive Call : Type :=
| IsBanned (ip : Ip)
| RecordFailure (ip : Ip).

Definition call (t : Table) (nc : Z * Call) : Table :=
  match nc.2 with
  | IsBanned ip => (is_banned ip nc.1 t).2
  | RecordFailure ip => (record_failure ip nc.1 t).2
  end.

Definition calls (cs : list (Z * Call)) : Table := fold_left call cs ∅.

(** The failures of a source, in order. *)
Definition failures_of (ip : Ip) (cs : list (Z * Call)) : list Z :=
  omap (fun nc => match nc.2 with RecordFailure i => if decide (i = ip) then Some nc.1 else None | _ => None end) cs.

(** What [min_by_key] gives: of the entries, one touched longest ago. *)
Class OldestLaws := {
  oldest_none t : oldest t = None -> t = ∅;
  oldest_in t ip : oldest t = Some ip -> is_Some (t !! ip);
  oldest_least t ip e ip' e' : oldest t = Some ip -> t !! ip = Some e -> t !! ip' = Some e' -> touched e <= touched e';
}.

Context `{!OldestLaws}.

Lemma evict_spec ip t : (size t <= MAX_TRACKED)%nat ->
  evict ip t ⊆ t /\ evict ip t !! ip = t !! ip
  /\ (t !! ip = None -> (size (evict ip t) < MAX_TRACKED)%nat)
  /\ ((size t < MAX_TRACKED)%nat -> evict ip t = t).
Proof.
  intros Hsz. unfold evict. destruct (t !! ip) as [e|] eqn:He; [done|]. case_decide as Hfull.
  2:{ split; [done|]. split; [done|]. split; [lia|done]. }
  destruct (oldest t) as [o|] eqn:Ho.
  - split; [apply delete_subseteq|]. destruct (oldest_in _ _ Ho) as [eo Heo].
    split; [rewrite lookup_delete_ne; [done|congruence]|]. split; [|lia].
    intros _. rewrite map_size_delete_Some by (by eexists). unfold MAX_TRACKED in *. lia.
  - apply oldest_none in Ho. subst. rewrite map_size_empty in Hfull. unfold MAX_TRACKED in Hfull. lia.
Qed.

(** ** Bans are for five failures *)

(** Five failures of a source, the last at [t], all within the window. *)
Definition five_at (ip : Ip) (cs : list (Z * Call)) (t : Z) : Prop :=
  exists five, length five = BAN_FAILURES /\ five `sublist_of` failures_of ip cs
    /\ last five = Some t /\ Forall (fun f => t - BAN_WINDOW <= f) five.

(** What an entry is made of: failures that were, in order, since the last
    ban; and a ban for five failures. *)
Definition entry_ok (ip : Ip) (cs : list (Z * Call)) (e : Entry) : Prop :=
  failures e `sublist_of` failures_of ip cs
  /\ StronglySorted Z.le (failures e)
  /\ (length (failures e) < BAN_FAILURES)%nat
  /\ (forall until, banned_until e = Some until -> five_at ip cs (until - BAN_DURATION)).

Definition table_ok (cs : list (Z * Call)) (t : Table) : Prop :=
  (size t <= MAX_TRACKED)%nat /\ forall ip e, t !! ip = Some e -> entry_ok ip cs e.

Lemma failures_of_snoc ip cs nc : failures_of ip (cs ++ [nc]) = failures_of ip cs ++ failures_of ip [nc].
Proof. apply omap_app. Qed.

Lemma five_more ip cs nc t : five_at ip cs t -> five_at ip (cs ++ [nc]) t.
Proof.
  intros (five & Hl & Hs & Hlast & Hall). exists five. split; [done|]. split; [|done]. rewrite failures_of_snoc.
  by apply sublist_inserts_r.
Qed.

Lemma entry_more ip cs nc e : entry_ok ip cs e -> entry_ok ip (cs ++ [nc]) e.
Proof.
  intros (Hf & Hs & Hl & Hb). split; [rewrite failures_of_snoc; by apply sublist_inserts_r|].
  split; [done|]. split; [done|]. intros til Hu. by apply five_more, Hb.
Qed.

Lemma drop_while_sublist {A} (p : A -> bool) l : drop_while p l `sublist_of` l.
Proof. induction l as [|x l IH]; simpl; [done|]. destruct (p x); [by apply sublist_cons|done]. Qed.

Lemma sublist_sorted (l k : list Z) : l `sublist_of` k -> StronglySorted Z.le k -> StronglySorted Z.le l.
Proof.
  induction 1 as [|x l k Hs IH|x l k Hs IH]; intros Hk; [constructor|..]; apply StronglySorted_cons in Hk as [Hx Hk].
  - constructor; [by apply IH|]. rewrite Forall_forall in Hx. apply Forall_forall. intros y Hy. apply Hx.
    eapply elem_of_submseteq; [exact Hy|]. by apply sublist_submseteq.
  - by apply IH.
Qed.

Lemma kept_recent now l : StronglySorted Z.le l -> Forall (fun f => f <= now) l ->
  Forall (fun f => now - BAN_WINDOW <= f) (drop_while (fun f => BAN_WINDOW <? sat_sub now f) l).
Proof.
  intros Hs Hle. induction Hs as [|x l Hs IH Hx]; simpl; [constructor|]. apply Forall_cons in Hle as [Hxn Hle].
  destruct (Z.ltb_spec BAN_WINDOW (sat_sub now x)) as [Hlt|Hge]; [by apply IH|]. unfold sat_sub, BAN_WINDOW in *.
  constructor; [lia|]. eapply Forall_impl; [exact Hx|]. simpl. lia.
Qed.

Lemma record_ok cs t ip now : table_ok cs t -> (forall f, f ∈ failures_of ip cs -> f <= now) ->
  table_ok (cs ++ [(now, RecordFailure ip)]) (record_failure ip now t).2
  /\ ((record_failure ip now t).1 = true -> five_at ip (cs ++ [(now, RecordFailure ip)]) now).
Proof.
  intros [Hsz Hall] Hbefore. destruct (evict_spec ip t Hsz) as (Hsub & Hsame & Hroom & _).
  unfold record_failure. cbv zeta. set (t0 := evict ip t) in *. rewrite Hsame.
  set (cs' := cs ++ [(now, RecordFailure ip)]).
  assert (Hfs : failures_of ip cs' = failures_of ip cs ++ [now]).
  { unfold cs'. rewrite failures_of_snoc. simpl. by rewrite decide_True. }
  set (e := default (mkEntry [] None now) (t !! ip)).
  assert (He : entry_ok ip cs e).
  { subst e. destruct (t !! ip) as [e0|] eqn:He0; [by apply Hall|]. split; [apply sublist_nil_l|].
    split; [constructor|]. split; [simpl; unfold BAN_FAILURES; lia|done]. }
  destruct He as (Hf & Hs & Hl & Hb). set (kept := drop_while _ (failures e)).
  pose proof (drop_while_sublist (fun f => BAN_WINDOW <? sat_sub now f) (failures e)) as Hkept. fold kept in Hkept.
  assert (Hin : Forall (fun f => f <= now) (failures e)).
  { apply Forall_forall. intros f Hfin. apply Hbefore. eapply elem_of_submseteq; [exact Hfin|]. by apply sublist_submseteq. }
  assert (Hnew : kept ++ [now] `sublist_of` failures_of ip cs').
  { rewrite Hfs. apply sublist_app; [by etrans|done]. }
  assert (Hsorted : StronglySorted Z.le (kept ++ [now])).
  { apply StronglySorted_app_2; [|by eapply sublist_sorted|repeat constructor]. intros x y Hx ->%list_elem_of_singleton.
    rewrite Forall_forall in Hin. apply Hin. eapply elem_of_submseteq; [exact Hx|]. by apply sublist_submseteq. }
  assert (Hsize : forall e', (size (<[ip := e']> t0) <= MAX_TRACKED)%nat).
  { intros e'. rewrite map_size_insert, Hsame. destruct (t !! ip) as [e0|] eqn:He0; simpl.
    - pose proof (map_subseteq_size _ _ Hsub). lia.
    - specialize (Hroom eq_refl). lia. }
  assert (Hothers : forall e', entry_ok ip cs' e' -> table_ok cs' (<[ip := e']> t0)).
  { intros e' He'. split; [apply Hsize|]. intros ip' e2 [[<- <-]|[Hne He2]]%lookup_insert_Some; [done|].
    apply entry_more, Hall. by eapply lookup_weaken. }
  case_decide as Hfive; cbn [fst snd].
  - assert (Hat : five_at ip cs' now).
    { exists (kept ++ [now]). split; [|split; [done|split; [by rewrite last_snoc|]]].
      - pose proof (sublist_length _ _ Hkept) as Hkl. rewrite length_app in Hfive |- *. change (length [now]) with 1%nat in *. lia.
      - apply Forall_app_2; [by apply kept_recent|]. repeat constructor. unfold BAN_WINDOW. lia. }
    split; [|done]. apply Hothers. split; [apply sublist_nil_l|]. split; [constructor|].
    split; [simpl; unfold BAN_FAILURES; lia|]. intros til [= <-]. by replace (now + BAN_DURATION - BAN_DURATION) with now by lia.
  - split; [|done]. apply Hothers. split; [done|]. split; [done|]. split; [cbn [failures]; lia|].
    intros til Hu. apply five_more. by apply Hb.
Qed.

Lemma banned_ok cs t ip now : table_ok cs t -> table_ok (cs ++ [(now, IsBanned ip)]) (is_banned ip now t).2.
Proof.
  intros [Hsz Hall]. assert (Hsame : table_ok (cs ++ [(now, IsBanned ip)]) t).
  { split; [done|]. intros ip' e He. by apply entry_more, Hall. }
  unfold is_banned. destruct (t !! ip) as [e|] eqn:He; [|done]. destruct (banned_until e); [|done].
  case_match; [done|]. simpl. split; [by rewrite map_size_insert_Some by (by eexists)|].
  intros ip' e' [[<- <-]|[Hne He']]%lookup_insert_Some; [|by apply entry_more, Hall].
  split; [apply sublist_nil_l|]. split; [constructor|]. split; [simpl; unfold BAN_FAILURES; lia|done].
Qed.

Definition in_order (cs : list (Z * Call)) : Prop := StronglySorted Z.le (cs.*1).

Lemma failures_of_times ip cs f : f ∈ failures_of ip cs -> f ∈ cs.*1.
Proof.
  unfold failures_of. intros ([now c] & Hin & Hf)%list_elem_of_omap. destruct c; [done|].
  simpl in Hf. case_decide; [|done]. simplify_eq. apply list_elem_of_fmap. by exists (f, RecordFailure ip).
Qed.

Lemma calls_ok cs : in_order cs -> table_ok cs (calls cs).
Proof.
  unfold calls. induction cs as [|[now c] cs IH] using rev_ind; intros Ho.
  - split; [simpl; rewrite map_size_empty; lia|]. intros ip e. simpl. by rewrite lookup_empty.
  - unfold in_order in Ho. rewrite fmap_app in Ho. apply StronglySorted_app in Ho as (Hle & Ho & _).
    specialize (IH Ho). rewrite fold_left_app. simpl. unfold call. destruct c as [ip|ip]; cbn [fst snd].
    + by apply banned_ok.
    + apply record_ok; [done|]. intros f Hf%failures_of_times. apply Hle; [done|]. by apply list_elem_of_singleton.
Qed.

(** C12: a source is banned only for five failures of its own within ten
    minutes, and only for ten minutes from the last of them; and whatever comes,
    the table never tracks more sources than its bound.  *)
Theorem ban_is_earned cs ip now : in_order cs ->
  (size (calls cs) <= MAX_TRACKED)%nat
  /\ ((is_banned ip now (calls cs)).1 = true -> exists t, five_at ip cs t /\ now < t + BAN_DURATION).
Proof.
  intros Ho. destruct (calls_ok cs Ho) as [Hsz Hall]. split; [done|]. unfold is_banned.
  destruct (calls cs !! ip) as [e|] eqn:He; [|done]. destruct (banned_until e) as [until|] eqn:Hu; [|done].
  destruct (Z.ltb_spec now until); [|done]. intros _. destruct (Hall _ _ He) as (_ & _ & _ & Hb).
  exists (until - BAN_DURATION). split; [by apply Hb|lia].
Qed.

(** ** Five failures are a ban *)

(** A failure that starts a ban, with the last four within the window. *)
Lemma record_bans t ip now e : t !! ip = Some e -> (4 <= length (failures e))%nat ->
  Forall (fun f => now - f <= BAN_WINDOW) (failures e) ->
  record_failure ip now t = (true, <[ip := mkEntry [] (Some (now + BAN_DURATION)) now]> t).
Proof.
  intros He Hl Hall. unfold record_failure. cbv zeta. assert (evict ip t = t) as -> by (unfold evict; by rewrite He).
  rewrite He. simpl. rewrite drop_while_id.
  - rewrite decide_True; [done|]. rewrite length_app. unfold BAN_FAILURES. simpl. lia.
  - eapply Forall_impl; [exact Hall|]. intros f Hf. unfold sat_sub, BAN_WINDOW in *. simpl in Hf. lia.
Qed.

(** A source that is not banned and a failure that is not the fifth. *)
Lemma record_counts t ip now e : (size t < MAX_TRACKED)%nat -> default (mkEntry [] None now) (t !! ip) = e ->
  (length (failures e) < 4)%nat -> Forall (fun f => now - f <= BAN_WINDOW) (failures e) ->
  record_failure ip now t = (false, <[ip := mkEntry (failures e ++ [now]) (banned_until e) now]> t).
Proof.
  intros Hsz He Hl Hall. unfold record_failure. cbv zeta. destruct (evict_spec ip t ltac:(lia)) as (_ & _ & _ & ->); [|done].
  rewrite He. rewrite drop_while_id.
  - rewrite decide_False; [done|]. rewrite length_app. unfold BAN_FAILURES. simpl. lia.
  - eapply Forall_impl; [exact Hall|]. intros f Hf. unfold sat_sub, BAN_WINDOW in *. simpl in Hf. lia.
Qed.

(** A ban is kept by other sources' calls, while the table has room, and by
    the source's own questions. *)
Lemma ban_kept t ip until e nc : t !! ip = Some e -> banned_until e = Some until -> (size t < MAX_TRACKED)%nat ->
  nc.1 < until -> nc.2 <> RecordFailure ip ->
  call t nc !! ip = Some e.
Proof.
  intros He Hu Hsz Hnow Hother. unfold call. destruct nc as [now [i|i]]; cbn [fst snd] in *.
  - unfold is_banned. destruct (decide (i = ip)) as [->|Hne].
    + rewrite He, Hu. by rewrite (proj2 (Z.ltb_lt _ _)).
    + destruct (t !! i) as [ei|]; [|done]. destruct (banned_until ei); [|done]. case_match; [done|].
      simpl. by rewrite lookup_insert_ne.
  - assert (Hne : i <> ip) by congruence. unfold record_failure. cbv zeta.
    destruct (evict_spec i t ltac:(lia)) as (_ & _ & _ & ->); [|done]. case_decide; simpl; by rewrite lookup_insert_ne.
Qed.

(** Five failures of a source within ten minutes, with no other call in
    between, start a ban at the fifth, from an entry with no failures; and while
    the table has room the ban holds, whatever other sources do, until ten
    minutes after it.  *)
Theorem five_failures_ban t ip t1 t2 t3 t4 t5 others now :
  (size t + 1 < MAX_TRACKED)%nat -> t !! ip = None ->
  t1 <= t2 <= t3 -> t3 <= t4 <= t5 -> t5 - t1 <= BAN_WINDOW ->
  let banned := fold_left (fun t x => (record_failure ip x t).2) [t1; t2; t3; t4] t in
  (record_failure ip t5 banned).1 = true
  /\ (Forall (fun nc => nc.1 < t5 + BAN_DURATION /\ nc.2 <> RecordFailure ip) others ->
      (forall k, (size (fold_left call (take k others) (record_failure ip t5 banned).2) < MAX_TRACKED)%nat) ->
      now < t5 + BAN_DURATION ->
      (is_banned ip now (fold_left call others (record_failure ip t5 banned).2)).1 = true).
Proof.
  intros Hsz Hno H12 H34 Hwin. cbn [fold_left].
  assert (Hsize : forall e, (size (<[ip := e]> t) < MAX_TRACKED)%nat).
  { intros e. rewrite map_size_insert_None by done. lia. }
  rewrite (record_counts t ip t1 (mkEntry [] None t1)) by (simpl; try rewrite Hno; (lia || done || constructor)). cbn [snd failures banned_until app].
  rewrite (record_counts _ ip t2 (mkEntry [t1] None t1)); [|apply Hsize|by rewrite lookup_insert_eq|simpl; lia|repeat constructor; lia].
  cbn [snd failures banned_until app]. rewrite insert_insert_eq.
  rewrite (record_counts _ ip t3 (mkEntry [t1; t2] None t2)); [|apply Hsize|by rewrite lookup_insert_eq|simpl; lia|repeat constructor; lia].
  cbn [snd failures banned_until app]. rewrite insert_insert_eq.
  rewrite (record_counts _ ip t4 (mkEntry [t1; t2; t3] None t3)); [|apply Hsize|by rewrite lookup_insert_eq|simpl; lia|repeat constructor; lia].
  cbn [snd failures banned_until app]. rewrite insert_insert_eq.
  rewrite (record_bans _ ip t5 (mkEntry [t1; t2; t3; t4] None t4)); [|by rewrite lookup_insert_eq|simpl; lia|repeat constructor; lia].
  cbn [fst snd]. rewrite insert_insert_eq. split; [done|]. intros Hothers Hroom Hnow.
  set (e := mkEntry [] (Some (t5 + BAN_DURATION)) t5) in *.
  assert (Hkept : fold_left call others (<[ip := e]> t) !! ip = Some e).
  { assert (Hstart : <[ip := e]> t !! ip = Some e) by apply lookup_insert_eq. revert Hroom Hstart. generalize (<[ip := e]> t).
    induction Hothers as [|nc others [Hnc Hnr] _ IH]; intros t0 Hroom Hstart; [done|]. simpl. apply IH.
    - intros k. specialize (Hroom (S k)). done.
    - apply (ban_kept t0 ip (t5 + BAN_DURATION)); [done|done|exact (Hroom 0%nat)|done|done]. }
  unfold is_banned. rewrite Hkept. simpl. by rewrite (proj2 (Z.ltb_lt _ _)).
Qed.

End table.

(** ** A choice of the oldest *)

(** The first of the entries listed that was touched longest ago. *)
Definition least_touched {Ip : Type} (l : list (Ip * Entry)) : option (Ip * Entry) := min_by (fun p => touched p.2) l.

Lemma least_touched_spec {Ip : Type} (l : list (Ip * Entry)) : match least_touched l with
  | Some p => p ∈ l /\ forall q, q ∈ l -> touched p.2 <= touched q.2
  | None => l = []
  end.
Proof. apply (min_by_spec (fun p : Ip * Entry => touched p.2)). Qed.

Definition first_oldest `{Countable Ip} (t : gmap Ip Entry) : option Ip := fst <$> least_touched (map_to_list t).

#[export] Instance first_oldest_laws `{Countable Ip} : OldestLaws (first_oldest (Ip := Ip)).
Proof.
  split.
  - intros t Hn. unfold first_oldest in Hn. pose proof (least_touched_spec (map_to_list t)) as Hs.
    destruct (least_touched _); [done|]. by apply map_to_list_empty_iff.
  - intros t ip Ho. unfold first_oldest in Ho. pose proof (least_touched_spec (map_to_list t)) as Hs.
    destruct (least_touched _) as [[i e]|]; [|done]. simplify_eq/=. destruct Hs as [Hin _].
    apply elem_of_map_to_list in Hin. by eexists.
  - intros t ip e ip' e' Ho He He'. unfold first_oldest in Ho. pose proof (least_touched_spec (map_to_list t)) as Hs.
    destruct (least_touched _) as [[i ei]|]; [|done]. simplify_eq/=. destruct Hs as [Hin Hle].
    apply elem_of_map_to_list in Hin. simplify_eq. apply (Hle (ip', e')). by apply elem_of_map_to_list.
Qed.

Lemma ban_is_earned_witness :
  let cs := map (fun t => (t, RecordFailure 7)) [0; 1; 2; 3; 4] in
  exists t, five_at 7 cs t /\ 100 < t + BAN_DURATION.
Proof.
  apply (ban_is_earned first_oldest (map (fun t => (t, RecordFailure 7)) [0; 1; 2; 3; 4]) 7 100).
  - unfold in_order. simpl. repeat constructor; lia.
  - vm_compute. reflexivity.
Defined.

Lemma five_failures_ban_witness :
  let banned := fold_left (fun t x => (record_failure first_oldest 7 x t).2) [0; 1; 2; 3] ∅ in
  (is_banned 7 100 (fold_left (call first_oldest) [(5, RecordFailure 8)] (record_failure first_oldest 7 4 banned).2)).1 = true.
Proof.
  apply (five_failures_ban first_oldest ∅ 7 0 1 2 3 4 [(5, RecordFailure 8)] 100).
  - rewrite map_size_empty. unfold MAX_TRACKED. lia.
  - apply lookup_empty.
  - lia.
  - lia.
  - unfold BAN_WINDOW. lia.
  - repeat constructor; simpl; congruence.
  - intros [|[|k]]; apply Nat.leb_le; vm_compute; reflexivity.
  - unfold BAN_DURATION. lia.
Defined.

(** ** Keys *)

Lemma differences_zero acc a b : 0 <= acc -> bytes_ok a -> bytes_ok b -> length a = length b ->
  differences acc a b = 0 <-> acc = 0 /\ a = b.
Proof.
  intros Hacc Ha. revert acc b Hacc. induction Ha as [|x a Hx _ IH]; intros acc [|y b] Hacc Hb Hl; try done; simpl.
  { split; [done|by intros [? _]]. }
  apply Forall_cons in Hb as [Hy Hb]. simpl in Hl. unfold is_byte in *.
  assert (Hxy : 0 <= Z.lxor x y) by (apply Z.lxor_nonneg; lia).
  rewrite IH; [|by apply Z.lor_nonneg|done|lia]. rewrite Z.lor_eq_0_iff, Z.lxor_eq_0_iff. naive_solver.
Qed.

(** The comparison of keys that does not stop at the first difference
    answers whether they are the same.  *)
Lemma ct_eq_is_equality a b : bytes_ok a -> bytes_ok b -> ct_eq a b = bool_decide (a = b).
Proof.
  intros Ha Hb. unfold ct_eq. destruct (Nat.eqb_spec (length a) (length b)) as [Hl|Hl]; simpl.
  - destruct (Z.eqb_spec (differences 0 a b) 0) as [Hd|Hd].
    + apply differences_zero in Hd as [_ ->]; [|done..]. symmetry. by apply bool_decide_eq_true.
    + symmetry. apply bool_decide_eq_false. intros ->. apply Hd. by apply differences_zero.
  - symmetry. apply bool_decide_eq_false. congruence.
Qed.
