(* ===== verification/CaptureStore.v ===== *)
(** * The store of captured requests

    [crates/rurge-http/src/capture/store.rs], with the limits, the bodies and
    the parts of an entry that it costs from [capture/mod.rs]: a queue of
    entries, the bytes reserved for the bodies that are still coming, and a
    total that both together never pass.  Every operation runs under the one
    lock: operations of several requests are a list of operations, in the order
    they took it.  Texts are their bytes; the parts of an entry that the store
    does not read are of any type. *)

From S2P Require Import Prelude Bytes.

Definition ENTRY_OVERHEAD : Z := 7168.

Record Limits := mkLimits { total : Z; body : Z }.

Definition limits_new (total body : Z) : Limits := mkLimits total (Z.min body total).

Inductive Truncated : Type := Limit | Budget.

#[export] Instance Truncated_eq_dec : EqDecision Truncated.
Proof. solve_decision. Defined.

Record Body := mkBody { data : list Z; size_ : Z; truncated : option Truncated }.

(** The names and the values of the lines of a header set. *)
Abbreviation Headers := (list (list Z * list Z)).

Section store.
Context {Rest : Type}.

Record Entry := mkEntry {
  id : Z;
  session : list Z;
  method : list Z;
  url : list Z;
  request_headers : Headers;
  request_body : Body;
  response_headers : option Headers;
  response_body : Body;
  rule : option (list Z);
  policy : list (list Z);
  notes : list (list Z);
  error : option (list Z);
  rest : Rest;
}.

Definition head_cost (headers : Headers) : Z :=
  foldr Z.add 0 (map (fun h => zlen h.1 + zlen h.2 + 32) headers).

Definition opt_len (o : option (list Z)) : Z := match o with Some t => zlen t | None => 0 end.

Definition cost (e : Entry) : Z :=
  ENTRY_OVERHEAD + zlen (url e) + zlen (method e) + head_cost (request_headers e)
  + zlen (data (request_body e)) + zlen (data (response_body e))
  + match response_headers e with Some h => head_cost h | None => 0 end
  + opt_len (rule e) + opt_len (error e)
  + foldr Z.add 0 (map zlen (policy e)) + foldr Z.add 0 (map zlen (notes e)).

Record Inner := mkInner {
  queue : list (Entry * Z);
  kept : Z;
  reserved : Z;
  stored : Z;
  evicted : Z;
  dropped : Z;
  truncated_count : Z;
}.

Definition empty : Inner := mkInner [] 0 0 0 0 0 0.

(** [room]: what is left of the queue, its cost, and how many went. *)
Fixpoint room (q : list (Entry * Z)) (kept rest total gone : Z) : list (Entry * Z) * Z * Z :=
  if total <? kept + rest then
    match q with
    | [] => (q, kept, gone)
    | (_, cost) :: q => room q (kept - cost) rest total (gone + 1)
    end
  else (q, kept, gone).

Definition with_room (rest total : Z) (s : Inner) : Inner :=
  let '(q, k, gone) := room (queue s) (kept s) rest total 0 in
  mkInner q k (reserved s) (stored s) (evicted s + gone) (dropped s) (truncated_count s).

Definition reserve (n total : Z) (s : Inner) : bool * Inner :=
  if total <? reserved s + n then (false, s)
  else
    let s := with_room (reserved s + n) total s in
    (true, mkInner (queue s) (kept s) (reserved s + n) (stored s) (evicted s) (dropped s) (truncated_count s)).

(** [reserved -= held]. *)
Definition give_back (held : Z) (s : Inner) : Inner :=
  mkInner (queue s) (kept s) (reserved s - held) (stored s) (evicted s) (dropped s) (truncated_count s).

Definition is_truncated (b : Body) : bool := match truncated b with Some _ => true | None => false end.

Definition insert (e : Entry) (held total : Z) (s : Inner) : bool * Inner :=
  let s := give_back held s in
  let c := cost e in
  if total <? reserved s + c then
    (false, mkInner (queue s) (kept s) (reserved s) (stored s) (evicted s) (dropped s + 1) (truncated_count s))
  else
    let s := with_room (reserved s + c) total s in
    let t := is_truncated (request_body e) || is_truncated (response_body e) in
    (true, mkInner (queue s ++ [(e, c)]) (kept s + c) (reserved s) (stored s + 1) (evicted s) (dropped s)
             (if t then truncated_count s + 1 else truncated_count s)).

(** [clear]: how many entries went. *)
Definition clear (name : option (list Z)) (s : Inner) : Z * Inner :=
  match name with
  | None => (zlen (queue s), mkInner [] 0 (reserved s) (stored s) (evicted s) (dropped s) (truncated_count s))
  | Some name =>
      let stays k := negb (bool_decide (session k.1 = name)) in
      let q := List.filter stays (queue s) in
      let freed := foldr Z.add 0 (map snd (List.filter (fun k => negb (stays k)) (queue s))) in
      (zlen (queue s) - zlen q, mkInner q (kept s - freed) (reserved s) (stored s) (evicted s) (dropped s) (truncated_count s))
  end.

Record Status := mkStatus { st_limits : Limits; used : Z; entries : Z; st_stored : Z; st_evicted : Z; st_dropped : Z; st_truncated : Z }.

Definition status (l : Limits) (s : Inner) : Status :=
  mkStatus l (kept s + reserved s) (zlen (queue s)) (stored s) (evicted s) (dropped s) (truncated_count s).

Definition session_entries (name : list Z) (s : Inner) : list Entry :=
  map fst (List.filter (fun k => bool_decide (session k.1 = name)) (queue s)).

Definition entry (i : Z) (s : Inner) : option Entry :=
  fst <$> List.find (fun k => id k.1 =? i) (queue s).

(** The number of entries and the bytes of every session that has some. *)
Definition sessions (s : Inner) : gmap (list Z) (Z * Z) :=
  fold_left (fun m k =>
      let slot := default (0, 0) (m !! session k.1) in
      <[session k.1 := (slot.1 + 1, slot.2 + k.2)]> m) (queue s) ∅.

(** ** Bodies on their way *)

Record Taking := mkTaking { chunks : list (list Z); t_stored : Z; t_size : Z; t_truncated : option Truncated }.

Definition taking_empty : Taking := mkTaking [] 0 0 None.

Record Pending := mkPending { request : Taking; response : Taking; held : Z }.

Definition pending_new : Pending := mkPending taking_empty taking_empty 0.

(** [take]: the body, what is held, and the store. *)
Definition take_chunk (l : Limits) (t : Taking) (held : Z) (s : Inner) (d : list Z) : Taking * Z * Inner :=
  match d with
  | [] => (t, held, s)
  | _ =>
      let t := mkTaking (chunks t) (t_stored t) (t_size t + zlen d) (t_truncated t) in
      match t_truncated t with
      | Some _ => (t, held, s)
      | None =>
          let room := sat_sub (body l) (t_stored t) in
          let n := Z.min (zlen d) room in
          if n =? 0 then (mkTaking (chunks t) (t_stored t) (t_size t) (Some Limit), held, s)
          else
            let '(ok, s) := reserve n (total l) s in
            if negb ok then (mkTaking (chunks t) (t_stored t) (t_size t) (Some Budget), held, s)
            else
              (mkTaking (chunks t ++ [take (Z.to_nat n) d]) (t_stored t + n) (t_size t)
                 (if n <? zlen d then Some Limit else None), held + n, s)
      end
  end.

Definition finish (t : Taking) : Body := mkBody (concat (chunks t)) (t_size t) (t_truncated t).

Inductive Axis : Type := Request | Response.

#[export] Instance Axis_eq_dec : EqDecision Axis.
Proof. solve_decision. Defined.

Definition chunk (l : Limits) (axis : Axis) (d : list Z) (p : Pending) (s : Inner) : Pending * Inner :=
  match axis with
  | Request => let '(t, h, s) := take_chunk l (request p) (held p) s d in (mkPending t (response p) h, s)
  | Response => let '(t, h, s) := take_chunk l (response p) (held p) s d in (mkPending (request p) t h, s)
  end.

(** [commit]; [owned] copies the headers, which are values here.  The
    pending entry is gone with it, and holds nothing by then. *)
Definition commit (l : Limits) (make : Body -> Body -> Entry) (p : Pending) (s : Inner) : bool * Inner :=
  insert (make (finish (request p)) (finish (response p))) (held p) (total l) s.

(** [Drop] of a [Pending]. *)
Definition drop_pending (p : Pending) (s : Inner) : Inner := if 0 <? held p then give_back (held p) s else s.

(** ** Requests at work *)

Record World := mkWorld { inner : Inner; pendings : gmap nat Pending }.

Inductive Op : Type :=
| Begin (i : nat)
| Chunk (i : nat) (axis : Axis) (d : list Z)
| Commit (i : nat) (make : Body -> Body -> Entry)
| Drop (i : nat)
| Clear (name : option (list Z)).

Definition op (l : Limits) (w : World) (o : Op) : World :=
  match o with
  | Begin i => match pendings w !! i with
               | Some _ => w
               | None => mkWorld (inner w) (<[i := pending_new]> (pendings w))
               end
  | Chunk i axis d =>
      match pendings w !! i with
      | Some p => let '(p, s) := chunk l axis d p (inner w) in mkWorld s (<[i := p]> (pendings w))
      | None => w
      end
  | Commit i make =>
      match pendings w !! i with
      | Some p => mkWorld (commit l make p (inner w)).2 (delete i (pendings w))
      | None => w
      end
  | Drop i =>
      match pendings w !! i with
      | Some p => mkWorld (drop_pending p (inner w)) (delete i (pendings w))
      | None => w
      end
  | Clear name => mkWorld (clear name (inner w)).2 (pendings w)
  end.

Definition ops (l : Limits) (os : list Op) : World := fold_left (op l) os (mkWorld empty ∅).

(** The bytes of a body since its request began. *)
Definition came (i : nat) (axis : Axis) (alive : bool * list Z) (o : Op) : bool * list Z :=
  match o with
  | Begin j => if decide (j = i) then if alive.1 then alive else (true, []) else alive
  | Chunk j a d => if decide (j = i /\ a = axis) then (alive.1, alive.2 ++ d) else alive
  | Commit j _ | Drop j => if decide (j = i) then (false, []) else alive
  | Clear _ => alive
  end.

Definition bytes_of (i : nat) (axis : Axis) (os : list Op) : list Z := (fold_left (came i axis) os (false, [])).2.

(** ** The books *)

Definition costs (q : list (Entry * Z)) : Z := foldr Z.add 0 (map snd q).

Lemma costs_app q q' : costs (q ++ q') = costs q + costs q'.
Proof. unfold costs. induction q as [|x q IH]; simpl; [done|]. rewrite IH. lia. Qed.

Lemma sum_nonneg {A} (f : A -> Z) l : (forall x, 0 <= f x) -> 0 <= foldr Z.add 0 (map f l).
Proof. intros Hf. induction l as [|x l IH]; simpl; [lia|]. specialize (Hf x). lia. Qed.

Lemma cost_pos e : ENTRY_OVERHEAD <= cost e.
Proof.
  assert (Hh : forall h, 0 <= head_cost h).
  { intros h. apply sum_nonneg. intros [a b]. simpl. pose proof (zlen_nonneg a). pose proof (zlen_nonneg b). lia. }
  assert (Ho : forall o, 0 <= opt_len o) by (intros [t|]; simpl; [apply zlen_nonneg|lia]).
  assert (Hl : forall l : list (list Z), 0 <= foldr Z.add 0 (map zlen l)) by (intros l; apply sum_nonneg, zlen_nonneg).
  unfold cost. pose proof (zlen_nonneg (url e)). pose proof (zlen_nonneg (method e)). pose proof (Hh (request_headers e)).
  pose proof (zlen_nonneg (data (request_body e))). pose proof (zlen_nonneg (data (response_body e))).
  pose proof (Ho (rule e)). pose proof (Ho (error e)). pose proof (Hl (policy e)). pose proof (Hl (notes e)).
  assert (0 <= match response_headers e with Some h => head_cost h | None => 0 end) by (case_match; [apply Hh|lia]). lia.
Qed.

(** Every entry is kept with its cost. *)
Definition queue_ok (q : list (Entry * Z)) : Prop := Forall (fun k => k.2 = cost k.1) q.

Lemma costs_nonneg q : queue_ok q -> 0 <= costs q.
Proof.
  unfold costs. induction 1 as [|k q Hk _ IH]; simpl; [lia|]. pose proof (cost_pos k.1). unfold ENTRY_OVERHEAD in *. lia.
Qed.

(** [room] takes entries from the front, only as many as need be, and makes
    the room asked for when it can be made at all. *)
Lemma room_spec q rest total gone : queue_ok q -> rest <= total ->
  exists before after, q = before ++ after
    /\ room q (costs q) rest total gone = (after, costs after, gone + zlen before)
    /\ costs after + rest <= total
    /\ forall b, last before = Some b -> total < costs (b :: after) + rest.
Proof.
  intros Hq Hr. revert gone. induction Hq as [|[e c] q Hk Hq IH]; intros gone; simpl.
  - exists [], []. unfold costs. simpl. destruct (Z.ltb_spec total (0 + rest)); [lia|].
    split; [done|]. split; [by rewrite Z.add_0_r|]. split; [lia|done].
  - destruct (Z.ltb_spec total (costs ((e, c) :: q) + rest)) as [Hover|Hfits].
    + replace (costs ((e, c) :: q) - c) with (costs q) by (unfold costs; simpl; lia).
      destruct (IH (gone + 1)) as (before & after & -> & -> & Hfit & Hlast). exists ((e, c) :: before), after.
      split; [done|]. split; [rewrite zlen_cons; f_equal; lia|]. split; [done|].
      intros b Hb. destruct before as [|b0 before]; [|by apply Hlast]. simpl in *. by simplify_eq.
    + exists [], ((e, c) :: q). change (zlen (@nil (Entry * Z))) with 0. rewrite Z.add_0_r. done.
Qed.

(** What always holds of the store, with [held] bytes out for bodies. *)
Definition books (l : Limits) (out : Z) (s : Inner) : Prop :=
  queue_ok (queue s) /\ kept s = costs (queue s) /\ reserved s = out /\ 0 <= out
  /\ kept s + reserved s <= total l.

Lemma with_room_spec rest tot s : queue_ok (queue s) -> kept s = costs (queue s) -> rest <= tot ->
  exists before, queue s = before ++ queue (with_room rest tot s)
    /\ kept (with_room rest tot s) = costs (queue (with_room rest tot s))
    /\ kept (with_room rest tot s) + rest <= tot
    /\ evicted (with_room rest tot s) = evicted s + zlen before
    /\ (forall b, last before = Some b -> tot < costs (b :: queue (with_room rest tot s)) + rest).
Proof.
  intros Hq Hk Hr. unfold with_room. rewrite Hk. destruct (room_spec (queue s) rest tot 0 Hq Hr) as (before & after & Hs & -> & Hf & Hl).
  exists before. cbn [queue kept evicted]. done.
Qed.

Lemma with_room_same rest tot s : reserved (with_room rest tot s) = reserved s /\ stored (with_room rest tot s) = stored s
  /\ dropped (with_room rest tot s) = dropped s /\ truncated_count (with_room rest tot s) = truncated_count s.
Proof. unfold with_room. by destruct (room _ _ _ _ _) as [[q k] g]. Qed.

Lemma reserve_books l out n s : books l out s -> 0 <= n ->
  books l (if (reserve n (total l) s).1 then out + n else out) (reserve n (total l) s).2.
Proof.
  intros (Hq & Hk & Hr & Ho & Hu) Hn. unfold reserve. destruct (Z.ltb_spec (total l) (reserved s + n)) as [Hno|Hyes]; [done|].
  destruct (with_room_spec (reserved s + n) (total l) s Hq Hk Hyes) as (before & Hsplit & Hk' & Hfit & _).
  destruct (with_room_same (reserved s + n) (total l) s) as (Hres & _). cbn [fst snd].
  split; [|cbn [queue kept reserved]; repeat split; try lia]. rewrite Hsplit in Hq. by apply Forall_app in Hq as [_ Hq].
Qed.

Lemma give_back_books l out h s : books l out s -> 0 <= h <= out -> books l (out - h) (give_back h s).
Proof. intros (Hq & Hk & Hr & Ho & Hu) Hh. unfold give_back. split; [done|]. cbn [queue kept reserved]. repeat split; lia. Qed.

Lemma insert_books l out e h s : books l out s -> 0 <= h <= out -> books l (out - h) (insert e h (total l) s).2.
Proof.
  intros Hb Hh. pose proof (give_back_books l out h s Hb Hh) as (Hq & Hk & Hr & Ho & Hu). unfold insert. cbv zeta.
  set (s' := give_back h s) in *. destruct (Z.ltb_spec (total l) (reserved s' + cost e)) as [Hno|Hyes]; [done|].
  destruct (with_room_spec (reserved s' + cost e) (total l) s' Hq Hk Hyes) as (before & Hsplit & Hk' & Hfit & _).
  destruct (with_room_same (reserved s' + cost e) (total l) s') as (Hres & _).
  set (s2 := with_room _ _ _) in *. cbn [snd]. split; [|cbn [queue kept reserved]; repeat split; try lia].
  - cbn [queue]. rewrite Hsplit in Hq. apply Forall_app in Hq as [_ Hq]. apply Forall_app_2; [done|by repeat constructor].
  - rewrite costs_app. unfold costs at 2. simpl. lia.
Qed.

Lemma filter_costs f q : costs q = costs (List.filter f q) + costs (List.filter (fun k => negb (f k)) q).
Proof. unfold costs. induction q as [|k q IH]; simpl; [done|]. destruct (f k); simpl; lia. Qed.

Lemma filter_queue_ok f q : queue_ok q -> queue_ok (List.filter f q).
Proof. unfold queue_ok. intros Hq. apply List.Forall_forall. intros k [Hk _]%filter_In. rewrite List.Forall_forall in Hq. by apply Hq. Qed.

Lemma clear_books l out name s : books l out s -> books l out (clear name s).2.
Proof.
  intros (Hq & Hk & Hr & Ho & Hu). pose proof (costs_nonneg _ Hq). unfold clear. destruct name as [name|]; cbn [snd].
  - set (stays := fun k : Entry * Z => _). split; [by apply filter_queue_ok|]. cbn [kept queue reserved].
    pose proof (filter_costs stays (queue s)) as Hf. pose proof (costs_nonneg _ (filter_queue_ok (fun k => negb (stays k)) _ Hq)).
    subst stays; cbv beta in *; unfold costs in *. repeat split; lia.
  - split; [constructor|]. unfold costs in *. cbn. repeat split; lia.
Qed.

(** ** The bodies *)

(** A body on its way, of which [bytes] came so far. *)
Definition taking_ok (l : Limits) (bytes : list Z) (t : Taking) : Prop :=
  t_size t = zlen bytes /\ 0 <= t_stored t <= body l
  /\ concat (chunks t) = take (Z.to_nat (t_stored t)) bytes
  /\ t_stored t <= zlen bytes
  /\ match t_truncated t with
     | None => t_stored t = zlen bytes
     | Some Limit => t_stored t = body l /\ t_stored t < zlen bytes
     | Some Budget => t_stored t < body l /\ t_stored t < zlen bytes
     end.

Lemma taking_empty_ok l : 0 <= body l -> taking_ok l [] taking_empty.
Proof. intros Hl. unfold taking_ok, zlen. cbn. repeat split; lia. Qed.

Lemma take_more (n : Z) (b d : list Z) : 0 <= n <= zlen b -> take (Z.to_nat n) (b ++ d) = take (Z.to_nat n) b.
Proof. unfold zlen. intros Hn. by rewrite take_app_le by lia. Qed.

Lemma take_chunk_ok l bytes t h s d out : taking_ok l bytes t -> books l out s -> 0 <= body l ->
  let '(t', h', s') := take_chunk l t h s d in
  taking_ok l (bytes ++ d) t' /\ books l (out + (h' - h)) s' /\ h' - h = t_stored t' - t_stored t.
Proof.
  intros Hok Hb Hl. pose proof Hok as (Hsz & Hst & Hch & Hle & Htr).
  unfold take_chunk. destruct d as [|x d0]; [rewrite app_nil_r, Z.sub_diag, Z.add_0_r; split; [done|split; [done|lia]]|].
  set (d := x :: d0) in *. assert (Hd : 1 <= zlen d) by (unfold d; rewrite zlen_cons; pose proof (zlen_nonneg d0); lia).
  cbv zeta. cbn [t_truncated chunks t_stored t_size].
  assert (Hmore : take (Z.to_nat (t_stored t)) (bytes ++ d) = concat (chunks t)) by (rewrite take_more by lia; done).
  destruct (t_truncated t) as [[]|] eqn:Htt.
  - split; [|rewrite Z.sub_diag, Z.add_0_r; split; [done|cbn [t_stored]; lia]].
    unfold taking_ok. cbn [t_size t_stored chunks t_truncated]. rewrite Hmore, zlen_app. repeat split; try lia.
  - split; [|rewrite Z.sub_diag, Z.add_0_r; split; [done|cbn [t_stored]; lia]].
    unfold taking_ok. cbn [t_size t_stored chunks t_truncated]. rewrite Hmore, zlen_app. repeat split; try lia.
  - unfold sat_sub. destruct (Z.eqb_spec (Z.min (zlen d) (Z.max 0 (body l - t_stored t))) 0) as [H0|H0].
    { split; [|rewrite Z.sub_diag, Z.add_0_r; split; [done|cbn [t_stored]; lia]].
      unfold taking_ok. cbn [t_size t_stored chunks t_truncated]. rewrite Hmore, zlen_app. repeat split; try lia. }
    set (n := Z.min (zlen d) (Z.max 0 (body l - t_stored t))) in *. assert (Hn : 0 < n <= zlen d /\ t_stored t + n <= body l) by lia.
    pose proof (reserve_books l out n s Hb ltac:(lia)) as Hb'. destruct (reserve n (total l) s) as [ok s'] eqn:Hr.
    cbn [fst snd] in Hb'. destruct ok; cbn [negb].
    + split; [|split; [|cbn [t_stored]; lia]]; [|by replace (out + (h + n - h)) with (out + n) by lia].
      unfold taking_ok. cbn [t_size t_stored chunks t_truncated]. rewrite zlen_app. split; [lia|]. split; [lia|]. split; [|split; [lia|]].
      * rewrite concat_app. cbn [concat]. rewrite app_nil_r, Hch. rewrite Htr.
        replace (Z.to_nat (zlen bytes + n)) with (length bytes + Z.to_nat n)%nat by (unfold zlen; lia).
        rewrite take_app_add. f_equal. apply take_ge. unfold zlen. lia.
      * destruct (Z.ltb_spec n (zlen d)); lia.
    + split; [|rewrite Z.sub_diag, Z.add_0_r; split; [done|cbn [t_stored]; lia]].
      unfold taking_ok. cbn [t_size t_stored chunks t_truncated]. rewrite Hmore, zlen_app. repeat split; try lia.
Qed.

Definition pending_ok (l : Limits) (req resp : list Z) (p : Pending) : Prop :=
  taking_ok l req (request p) /\ taking_ok l resp (response p) /\ held p = t_stored (request p) + t_stored (response p).

Definition held_all (m : gmap nat Pending) : Z := map_fold (fun _ p acc => held p + acc) 0 m.

Lemma held_all_insert m i p : m !! i = None -> held_all (<[i := p]> m) = held p + held_all m.
Proof. intros Hi. unfold held_all. rewrite map_fold_insert_L; [done| |done]. intros. lia. Qed.

Lemma held_all_delete m i p : m !! i = Some p -> held_all m = held p + held_all (delete i m).
Proof. intros Hi. unfold held_all. rewrite (map_fold_delete_L _ _ i p); [done| |done]. intros. lia. Qed.

Lemma held_all_update m i p p' : m !! i = Some p -> held_all (<[i := p']> m) = held_all m - held p + held p'.
Proof.
  intros Hi. rewrite (held_all_delete m i p Hi). rewrite <- insert_delete_eq, held_all_insert by apply lookup_delete_eq. lia.
Qed.

Definition all_ok (l : Limits) (os : list Op) (w : World) : Prop :=
  books l (held_all (pendings w)) (inner w)
  /\ forall i, match pendings w !! i with
              | Some p => pending_ok l (bytes_of i Request os) (bytes_of i Response os) p
                          /\ forall a, (fold_left (came i a) os (false, [])).1 = true
              | None => forall a, (fold_left (came i a) os (false, [])).1 = false
              end.

Lemma bytes_of_snoc i a os o : bytes_of i a (os ++ [o]) = (came i a (fold_left (came i a) os (false, [])) o).2.
Proof. unfold bytes_of. by rewrite fold_left_app. Qed.

(** An operation on one request says nothing of another. *)
Definition about (o : Op) (i : nat) : bool :=
  match o with
  | Begin j | Chunk j _ _ | Commit j _ | Drop j => bool_decide (j = i)
  | Clear _ => false
  end.

Lemma came_other i a st o : about o i = false -> came i a st o = st.
Proof. destruct o; simpl; try done; intros Hne%bool_decide_eq_false; by rewrite decide_False by naive_solver. Qed.

Lemma all_ok_step l os w o s' m' : all_ok l os w ->
  books l (held_all m') s' ->
  (forall i, about o i = false -> m' !! i = pendings w !! i) ->
  (forall i, about o i = true -> match m' !! i with
     | Some p => pending_ok l (bytes_of i Request (os ++ [o])) (bytes_of i Response (os ++ [o])) p
                 /\ forall a, (came i a (fold_left (came i a) os (false, [])) o).1 = true
     | None => forall a, (came i a (fold_left (came i a) os (false, [])) o).1 = false
     end) ->
  all_ok l (os ++ [o]) (mkWorld s' m').
Proof.
  intros [Hb Hall] Hb' Hother Hit. split; [done|]. intros i. cbn [pendings].
  destruct (about o i) eqn:Ho.
  - specialize (Hit i Ho). destruct (m' !! i); [|intros a; rewrite fold_left_app; apply Hit].
    destruct Hit as [Hp Ha]. split; [done|]. intros a. rewrite fold_left_app. apply Ha.
  - rewrite Hother by done. specialize (Hall i).
    assert (Hsame : forall a, fold_left (came i a) (os ++ [o]) (false, []) = fold_left (came i a) os (false, [])).
    { intros a. rewrite fold_left_app. simpl. by apply came_other. }
    destruct (pendings w !! i) as [p|]; [|intros a; by rewrite Hsame].
    unfold bytes_of. rewrite !Hsame. destruct Hall as [Hp Ha]. split; [done|]. intros a. by rewrite Hsame.
Qed.

Lemma op_same l os w o : all_ok l os w -> (forall i, about o i = true -> forall a st, st.1 = match pendings w !! i with Some _ => true | None => false end ->
    (came i a st o).1 = st.1 /\ (st.1 = true -> came i a st o = st)) -> all_ok l (os ++ [o]) w.
Proof.
  intros Hok Hsame. destruct w as [s m]. pose proof Hok as [Hb Hall]. apply (all_ok_step l os (mkWorld s m)); [done|done|done|].
  intros i Hi. specialize (Hall i). specialize (Hsame i Hi). cbn [pendings] in *. destruct (m !! i) as [p|].
  - destruct Hall as [Hp Ha]. split.
    + rewrite !bytes_of_snoc. destruct (Hsame Request _ (Ha Request)) as [_ ->]; [|done]. destruct (Hsame Response _ (Ha Response)) as [_ ->]; done.
    + intros a. destruct (Hsame a _ (Ha a)) as [-> _]. apply Ha.
  - intros a. destruct (Hsame a _ (Hall a)) as [-> _]. apply Hall.
Qed.

Lemma chunk_ok l os w i p axis d : 0 <= body l -> all_ok l os w -> pendings w !! i = Some p ->
  all_ok l (os ++ [Chunk i axis d]) (op l w (Chunk i axis d)).
Proof.
  intros Hl Hok Hp. pose proof Hok as [Hb Hall]. specialize (Hall i). rewrite Hp in Hall.
  destruct Hall as [(Hreq & Hresp & Hheld) Halive]. simpl. rewrite Hp.
  assert (Hcame : forall a, (came i a (fold_left (came i a) os (false, [])) (Chunk i axis d)).1 = true).
  { intros a. specialize (Halive a). simpl. by case_decide. }
  assert (Hbytes : forall a, bytes_of i a (os ++ [Chunk i axis d]) = if decide (axis = a) then bytes_of i a os ++ d else bytes_of i a os).
  { intros a. rewrite bytes_of_snoc. simpl. unfold bytes_of. destruct (decide (axis = a)).
    - by rewrite decide_True.
    - by rewrite decide_False by naive_solver. }
  destruct axis; cbn [chunk].
  - pose proof (take_chunk_ok l _ _ (held p) _ d _ Hreq Hb Hl) as Htake.
    destruct (take_chunk l (request p) (held p) (inner w) d) as [[t h] s]. destruct Htake as (Ht & Hb' & Hh).
    apply (all_ok_step l os w); [done| | |].
    + rewrite (held_all_update _ _ p) by done. cbn [held]. by replace (held_all (pendings w) - held p + h) with (held_all (pendings w) + (h - held p)) by lia.
    + intros j Hj%bool_decide_eq_false. by rewrite lookup_insert_ne.
    + intros j <-%bool_decide_eq_true. rewrite lookup_insert_eq. split; [|done]. rewrite !Hbytes. simpl.
      split; [done|]. split; [done|]. cbn [held request response]. lia.
  - pose proof (take_chunk_ok l _ _ (held p) _ d _ Hresp Hb Hl) as Htake.
    destruct (take_chunk l (response p) (held p) (inner w) d) as [[t h] s]. destruct Htake as (Ht & Hb' & Hh).
    apply (all_ok_step l os w); [done| | |].
    + rewrite (held_all_update _ _ p) by done. cbn [held]. by replace (held_all (pendings w) - held p + h) with (held_all (pendings w) + (h - held p)) by lia.
    + intros j Hj%bool_decide_eq_false. by rewrite lookup_insert_ne.
    + intros j <-%bool_decide_eq_true. rewrite lookup_insert_eq. split; [|done]. rewrite !Hbytes. simpl.
      split; [done|]. split; [done|]. cbn [held request response]. lia.
Qed.

Lemma pending_held l a b p : pending_ok l a b p -> 0 <= held p.
Proof. intros ((_ & H1 & _) & (_ & H2 & _) & ->). lia. Qed.

Lemma held_all_nonneg l os w : all_ok l os w -> forall i, 0 <= held_all (delete i (pendings w)).
Proof.
  intros [_ Hall] i. assert (Hm : forall j p, delete i (pendings w) !! j = Some p -> 0 <= held p).
  { intros j p [Hne Hj]%lookup_delete_Some. specialize (Hall j). rewrite Hj in Hall. destruct Hall as [Hp _]. by eapply pending_held. }
  revert Hm. generalize (delete i (pendings w)). intros m. induction m as [|j p m Hj IH] using map_ind; intros Hm; [done|].
  rewrite held_all_insert by done. assert (0 <= held_all m).
  { apply IH. intros k q Hk. apply (Hm k). apply lookup_insert_Some. right. split; [congruence|done]. }
  specialize (Hm j p). rewrite lookup_insert_eq in Hm. specialize (Hm eq_refl). lia.
Qed.

(** A request that ends, its bytes given back. *)
Lemma end_ok l os w i p o s' : all_ok l os w -> pendings w !! i = Some p -> (forall j, about o j = bool_decide (i = j)) ->
  (forall a st, came i a st o = (false, [])) -> books l (held_all (pendings w) - held p) s' ->
  all_ok l (os ++ [o]) (mkWorld s' (delete i (pendings w))).
Proof.
  intros Hok Hp Habout Hcame Hb. apply (all_ok_step l os w); [done| | |].
  - rewrite (held_all_delete _ i p Hp) in Hb. by replace (held p + held_all (delete i (pendings w)) - held p) with (held_all (delete i (pendings w))) in Hb by lia.
  - intros j Hj. rewrite Habout in Hj. apply bool_decide_eq_false in Hj. by rewrite lookup_delete_ne.
  - intros j Hj. rewrite Habout in Hj. apply bool_decide_eq_true in Hj as <-. rewrite lookup_delete_eq. intros a. by rewrite Hcame.
Qed.

Lemma op_ok l os w o : 0 <= body l -> all_ok l os w -> all_ok l (os ++ [o]) (op l w o).
Proof.
  intros Hl Hok. pose proof Hok as [Hb Hall]. destruct o as [i|i axis d|i make|i|name]; simpl.
  - pose proof (Hall i) as Hi. destruct (pendings w !! i) as [p|] eqn:Hp.
    + apply op_same; [done|]. intros j <-%bool_decide_eq_true a st. rewrite Hp. intros Hst. simpl.
      rewrite decide_True by done. by rewrite Hst.
    + apply (all_ok_step l os w); [done| | |].
      * rewrite held_all_insert by done. exact Hb.
      * intros j Hj%bool_decide_eq_false. by rewrite lookup_insert_ne.
      * intros j <-%bool_decide_eq_true. rewrite lookup_insert_eq. rewrite !bytes_of_snoc. simpl. rewrite !decide_True, !Hi by done.
        split; [|intros a; rewrite decide_True by done; by rewrite Hi]. split; [by apply taking_empty_ok|]. split; [by apply taking_empty_ok|done].
  - pose proof (Hall i) as Hi. destruct (pendings w !! i) as [p|] eqn:Hp.
    + pose proof (chunk_ok l os w i p axis d Hl Hok Hp) as Hc. simpl in Hc. by rewrite Hp in Hc.
    + apply op_same; [done|]. intros j <-%bool_decide_eq_true a st. rewrite Hp. intros Hst. simpl. case_decide; simpl; [|done].
      split; [done|congruence].
  - destruct (pendings w !! i) as [p|] eqn:Hp.
    + apply (end_ok l os w i p); [done|done|done|intros a st; simpl; by rewrite decide_True|].
      apply insert_books; [done|]. specialize (Hall i). rewrite Hp in Hall. destruct Hall as [Hpo _].
      pose proof (pending_held _ _ _ _ Hpo). pose proof (held_all_nonneg l os w Hok i). rewrite (held_all_delete _ i p Hp). lia.
    + apply op_same; [done|]. intros j <-%bool_decide_eq_true a st. rewrite Hp. intros Hst. simpl. rewrite decide_True by done.
      split; [done|congruence].
  - destruct (pendings w !! i) as [p|] eqn:Hp.
    + apply (end_ok l os w i p); [done|done|done|intros a st; simpl; by rewrite decide_True|].
      specialize (Hall i). rewrite Hp in Hall. destruct Hall as [Hpo _].
      pose proof (pending_held _ _ _ _ Hpo). pose proof (held_all_nonneg l os w Hok i) as Hn. unfold drop_pending.
      destruct (Z.ltb_spec 0 (held p)); [apply give_back_books; [done|rewrite (held_all_delete _ i p Hp); lia]|].
      by replace (held_all (pendings w) - held p) with (held_all (pendings w)) by lia.
    + apply op_same; [done|]. intros j <-%bool_decide_eq_true a st. rewrite Hp. intros Hst. simpl. rewrite decide_True by done.
      split; [done|congruence].
  - destruct w as [s m]. apply (all_ok_step l os (mkWorld s m)); [done| |done|done]. by apply clear_books.
Qed.

Lemma ops_ok l os : 0 <= body l -> 0 <= total l -> all_ok l os (ops l os).
Proof.
  intros Hl Ht. unfold ops. induction os as [|o os IH] using rev_ind.
  - split; [|intros i; simpl; by rewrite lookup_empty]. change (held_all (pendings (mkWorld empty ∅))) with 0.
    split; [constructor|]. unfold costs. simpl. repeat split; try lia; try done.
  - rewrite fold_left_app. by apply op_ok.
Qed.

(** C13: however the operations of any requests interleave, the store's books
    are right: what it says it keeps is what the entries cost, what it says is
    reserved is what the bodies still coming hold, both together never pass the
    total, and no count ever falls below nothing; and every body still coming is
    a prefix of the bytes that came, its size all of them, within the body
    limit: all of it when it is not truncated, exactly up to the limit when it is
    said to be cut by the limit, and less when it is said to be cut for room.  *)
Theorem capture_books l os : 0 <= body l -> 0 <= total l ->
  let w := ops l os in
  used (status l (inner w)) = costs (queue (inner w)) + held_all (pendings w)
  /\ used (status l (inner w)) <= total l /\ 0 <= kept (inner w) /\ 0 <= reserved (inner w)
  /\ forall i p, pendings w !! i = Some p ->
       held p = zlen (data (finish (request p))) + zlen (data (finish (response p)))
       /\ forall axis, let b := finish (match axis with Request => request p | Response => response p end) in
           let bytes := bytes_of i axis os in
           data b = take (length (data b)) bytes /\ size_ b = zlen bytes /\ zlen (data b) <= body l
           /\ match truncated b with
              | None => data b = bytes
              | Some Limit => zlen (data b) = body l /\ body l < zlen bytes
              | Some Budget => zlen (data b) < body l /\ zlen (data b) < zlen bytes
              end.
Proof.
  intros Hl Ht w. destruct (ops_ok l os Hl Ht) as [(Hq & Hk & Hr & Ho & Hu) Hall]. fold w in Hq, Hk, Hr, Ho, Hu, Hall.
  pose proof (costs_nonneg _ Hq). unfold status. cbn [used]. repeat (split; [lia|]). intros i p Hp.
  specialize (Hall i). rewrite Hp in Hall. destruct Hall as [(Hreq & Hresp & Hheld) _].
  assert (Htaking : forall bytes t, taking_ok l bytes t -> zlen (data (finish t)) = t_stored t
    /\ data (finish t) = take (length (data (finish t))) bytes /\ size_ (finish t) = zlen bytes /\ zlen (data (finish t)) <= body l
    /\ match truncated (finish t) with
       | None => data (finish t) = bytes
       | Some Limit => zlen (data (finish t)) = body l /\ body l < zlen bytes
       | Some Budget => zlen (data (finish t)) < body l /\ zlen (data (finish t)) < zlen bytes
       end).
  { intros bytes t (Hsz & Hst & Hch & Hle & Htr). unfold finish. cbn [data size_ truncated].
    assert (Hlen : zlen (concat (chunks t)) = t_stored t) by (rewrite Hch; unfold zlen in *; rewrite length_take; lia).
    split; [done|]. split; [rewrite Hch at 1; f_equal; unfold zlen in Hlen; lia|]. split; [done|]. split; [lia|].
    destruct (t_truncated t) as [[]|]; [lia|lia|]. rewrite Hch, Htr. apply take_ge. unfold zlen. lia. }
  split.
  - destruct (Htaking _ _ Hreq) as [-> _]. by destruct (Htaking _ _ Hresp) as [-> _].
  - intros []; by apply Htaking.
Qed.

(** A request that ends is stored exactly when its entry fits with what
    the other bodies hold, evicting entries from the oldest on, each only when
    there was no room with it; else it is counted as dropped and nothing is
    evicted for it.  *)
Theorem commit_evicts_oldest l os i p make : 0 <= body l -> 0 <= total l -> pendings (ops l os) !! i = Some p ->
  let s := inner (ops l os) in
  let e := make (finish (request p)) (finish (response p)) in
  let others := held_all (delete i (pendings (ops l os))) in
  let '(ok, s') := commit l make p s in
  ok = (others + cost e <=? total l)
  /\ if ok then
       exists before after, queue s = before ++ after /\ queue s' = after ++ [(e, cost e)]
         /\ evicted s' = evicted s + zlen before /\ stored s' = stored s + 1 /\ dropped s' = dropped s
         /\ (forall b, last before = Some b -> total l < b.2 + costs after + others + cost e)
     else queue s' = queue s /\ evicted s' = evicted s /\ stored s' = stored s /\ dropped s' = dropped s + 1.
Proof.
  intros Hl Ht Hp. cbv zeta. pose proof (ops_ok l os Hl Ht) as [(Hq & Hk & Hr & Ho & Hu) _].
  set (s := inner (ops l os)) in *. set (e := make _ _). rewrite (held_all_delete _ i p Hp) in Hr.
  set (others := held_all (delete i (pendings (ops l os)))) in *. unfold commit, insert. cbv zeta. fold e.
  set (s0 := give_back (held p) s). assert (Hr0 : reserved s0 = others) by (cbn; lia). rewrite Hr0.
  destruct (Z.ltb_spec (total l) (others + cost e)) as [Hno|Hyes].
  - rewrite (proj2 (Z.leb_gt _ _)) by lia. done.
  - rewrite (proj2 (Z.leb_le _ _)) by lia. split; [done|].
    destruct (with_room_spec (others + cost e) (total l) s0 Hq Hk Hyes) as (before & Hsplit & Hk' & Hfit & Hev & Hlast).
    destruct (with_room_same (others + cost e) (total l) s0) as (_ & Hst & Hdr & _).
    exists before, (queue (with_room (others + cost e) (total l) s0)). cbn [queue evicted stored dropped].
    split; [done|]. split; [done|]. split; [done|]. split; [by rewrite Hst|]. split; [by rewrite Hdr|].
    intros b Hb. specialize (Hlast b Hb). unfold costs in *. simpl in Hlast. lia.
Qed.

End store.

(** Two requests in a store with room for little more than one entry: the
    second pushes the first out. *)
Definition sample_entry (i : Z) (req resp : Body) : Entry (Rest := unit) :=
  mkEntry i (lit "s") (lit "GET") (lit "http://a/") [(lit "host", lit "a")] req None resp None [] [] None tt.

Definition sample_ops : list (Op (Rest := unit)) :=
  [Begin 1; Chunk 1 Request [1; 2; 3]; Begin 2; Chunk 2 Response [4; 5; 6; 7; 8]; Commit 1 (sample_entry 1)].

Lemma capture_books_witness :
  let l := limits_new 9000 4 in
  used (status l (inner (ops l sample_ops))) <= 9000.
Proof.
  apply (capture_books (limits_new 9000 4) sample_ops); vm_compute; discriminate.
Defined.

Lemma commit_evicts_oldest_witness :
  let l := limits_new 9000 4 in
  exists p, pendings (ops l sample_ops) !! 2%nat = Some p /\
    let '(ok, s') := commit l (sample_entry 2) p (inner (ops l sample_ops)) in
    ok = true /\ map (fun k => id k.1) (queue s') = [2] /\ evicted s' = 1.
Proof.
  exists (mkPending taking_empty (mkTaking [[4; 5; 6; 7]] 4 5 (Some Limit)) 4).
  assert (Hp : pendings (ops (limits_new 9000 4) sample_ops) !! 2%nat
    = Some (mkPending taking_empty (mkTaking [[4; 5; 6; 7]] 4 5 (Some Limit)) 4)) by (vm_compute; reflexivity).
  split; [exact Hp|].
  pose proof (commit_evicts_oldest (limits_new 9000 4) sample_ops 2%nat _ (sample_entry 2)
    ltac:(vm_compute; discriminate) ltac:(vm_compute; discriminate) Hp) as Hc.
  cbv zeta in Hc |- *. destruct (commit _ _ _ _) as [ok s'] eqn:Hcommit. destruct Hc as [Hok _].
  split; [rewrite Hok; vm_compute; reflexivity|]. vm_compute in Hcommit. injection Hcommit as <- <-. split; reflexivity.
Defined.
