(* ===== verification/AnyTlsPadding.v ===== *)
(** * AnyTLS padding

    [crates/rurge-proto/src/anytls/padding.rs] and the frames of
    [anytls/frame.rs]: a padding scheme as a server pushes it, and the records a
    write becomes under it.  MD5 is not here: the digest of a scheme is the
    parameter [md5].  The random sizes are drawn by [pick], which carries a
    state. *)

From S2P Require Import Prelude Bytes.

Definition DEFAULT_SCHEME : rstr :=
  join_with 10 (map lit ["stop=8"; "0=30-30"; "1=100-400"; "2=400-500,c,500-1000,c,500-1000,c,500-1000,c,500-1000";
    "3=9-9,500-1000"; "4=500-1000"; "5=500-1000"; "6=500-1000"; "7=500-1000"]%string).

Definition MAX_TEXT : Z := 8192.
Definition MAX_STOP : Z := 256.
Definition MAX_ENTRIES : Z := 64.
Definition MAX_SIZE : Z := 16384.

Inductive Entry : Type :=
| Size (min max : Z)
| Check_.

Inductive Piece : Type :=
| PSize (n : Z)
| PCheck.

Record Scheme := mkScheme { md5_ : rstr; stop_ : Z; packets : gmap Z (list Entry) }.

(** [str::parse] into a [u32]: an optional plus sign, then digits, at least
    one, of a number that fits. *)
Definition parse_u32 (s : rstr) : option Z :=
  let digits := match s with c :: rest => if c =? 43 then rest else s | [] => [] end in
  match digits with
  | [] => None
  | _ => if forallb is_digit digits && (digits_value digits <=? u32_max) then Some (digits_value digits) else None
  end.

Definition parse_entry (text : rstr) : option Entry :=
  if decide (text = lit "c") then Some Check_
  else
    '(a, b) ← split_once 45 text;
    a ← parse_u32 a;
    b ← parse_u32 b;
    let lo := Z.min a b in
    let hi := Z.max a b in
    if (1 <=? lo) && (hi <=? MAX_SIZE) then Some (Size lo hi) else None.

(** One line of [Scheme::parse]; [None] refuses the scheme. *)
Definition parse_line (acc : option Z * gmap Z (list Entry)) (line : rstr) : option (option Z * gmap Z (list Entry)) :=
  let '(stop, packets) := acc in
  match split_once 61 line with
  | None => Some acc
  | Some (key, value) =>
      if decide (key = lit "stop") then
        s ← parse_u32 value;
        if s <=? MAX_STOP then Some (Some s, packets) else None
      else
        match parse_u32 key with
        | Some packet =>
            entries ← mapM parse_entry (split_on 44 value);
            if MAX_ENTRIES <? zlen entries then None else Some (stop, <[packet := entries]> packets)
        | None => Some acc
        end
  end.

Fixpoint parse_lines (acc : option Z * gmap Z (list Entry)) (lines : list rstr) : option (option Z * gmap Z (list Entry)) :=
  match lines with
  | [] => Some acc
  | line :: lines => acc ← parse_line acc line; parse_lines acc lines
  end.

Section scheme.
Context (md5 : list Z -> list Z).

(** [{b:02x}] *)
Definition hex_digit (n : Z) : Z := if n <? 10 then 48 + n else 87 + n.
Definition hex_byte (b : Z) : rstr := [hex_digit (b / 16); hex_digit (b mod 16)].

Definition parse (raw : list Z) : option Scheme :=
  if MAX_TEXT <? zlen raw then None
  else
    text ← utf8_decode raw;
    '(stop, packets) ← parse_lines (None, ∅) (split_on 10 text);
    stop ← stop;
    Some (mkScheme (flat_map hex_byte (md5 raw)) stop packets).

End scheme.

(** ** The records of a write *)

Definition HEADER : Z := 7.
Definition WASTE : Z := 0.

Definition push (out : list Z) (command stream : Z) (data : list Z) : list Z :=
  out ++ [command] ++ be32 stream ++ be16 (zlen data mod 65536) ++ data.

Definition frame (command stream : Z) (data : list Z) : list Z := push [] command stream data.

Definition parse_header (header : list Z) : option (Z * Z * Z) :=
  match header with
  | [c; s0; s1; s2; s3; l0; l1] => Some (c, of_be32 s0 s1 s2 s3, of_be16 l0 l1)
  | _ => None
  end.

Definition waste (len : Z) : list Z := frame WASTE 0 (replicate (Z.to_nat len) 0).

Section pick.
Context {R : Type} (pick : Z -> R -> Z * R).

Definition draw (e : Entry) (r : R) : Piece * R :=
  match e with
  | Check_ => (PCheck, r)
  | Size min max => if min =? max then (PSize min, r) else let '(n, r) := pick (max - min) r in (PSize (min + n), r)
  end.

Fixpoint draws (es : list Entry) (r : R) : list Piece * R :=
  match es with
  | [] => ([], r)
  | e :: es => let '(p, r) := draw e r in let '(ps, r) := draws es r in (p :: ps, r)
  end.

Definition pieces (s : Scheme) (packet : Z) (r : R) : list Piece * R :=
  match packets s !! packet with
  | None => ([], r)
  | Some es => draws es r
  end.

Definition auth_padding (s : Scheme) (r : R) : Z * R :=
  let '(ps, r) := pieces s 0 r in
  (match ps with PSize n :: _ => n | _ => 0 end, r).

End pick.

(** The loop of [shape]: the records, and the payload left after the list. *)
Fixpoint shape_pieces (ps : list Piece) (payload : list Z) (records : list (list Z)) : list (list Z) * list Z :=
  match ps with
  | [] => (records, payload)
  | PCheck :: ps => match payload with [] => (records, payload) | _ => shape_pieces ps payload records end
  | PSize size :: ps =>
      if size <? zlen payload then
        shape_pieces ps (drop (Z.to_nat size) payload) (records ++ [take (Z.to_nat size) payload])
      else
        match payload with
        | [] => shape_pieces ps [] (records ++ [waste size])
        | _ =>
            let fill := size - (zlen payload + HEADER) in
            let record := if 0 <? fill then payload ++ waste fill else payload in
            shape_pieces ps [] (records ++ [record])
        end
  end.

Definition shape (ps : list Piece) (payload : list Z) : list (list Z) :=
  let '(records, payload) := shape_pieces ps payload [] in
  match payload with [] => records | _ => records ++ [payload] end.

(** ** Schemes within the bounds *)

Definition entry_ok (e : Entry) : Prop :=
  match e with Size min max => 1 <= min <= max /\ max <= MAX_SIZE | Check_ => True end.

Definition packets_ok (m : gmap Z (list Entry)) : Prop :=
  forall packet es, m !! packet = Some es -> es <> [] /\ zlen es <= MAX_ENTRIES /\ Forall entry_ok es.

Definition scheme_ok (s : Scheme) : Prop := 0 <= stop_ s <= MAX_STOP /\ packets_ok (packets s).

Lemma digits_nonneg s : forallb is_digit s = true -> 0 <= digits_value s.
Proof.
  intros Hs. rewrite forallb_forall in Hs. unfold digits_value.
  enough (H : forall v, 0 <= v -> 0 <= fold_left (fun v c => v * 10 + (c - 48)) s v) by (apply H; lia).
  induction s as [|c s IH]; intros v Hv; simpl; [done|]. apply IH.
  - intros x Hx. apply Hs. by right.
  - specialize (Hs c (or_introl eq_refl)). unfold is_digit in Hs. lia.
Qed.

Lemma parse_u32_range s v : parse_u32 s = Some v -> 0 <= v <= u32_max.
Proof.
  unfold parse_u32. set (digits := match s with c :: rest => if c =? 43 then rest else s | [] => [] end).
  clearbody digits. intros Hv. destruct digits as [|d digits]; [done|].
  destruct (forallb is_digit (d :: digits)) eqn:Hd; [|done]. cbn [andb] in Hv.
  destruct (Z.leb_spec (digits_value (d :: digits)) u32_max); [|done]. simplify_eq. split; [by apply digits_nonneg|done].
Qed.

Lemma parse_entry_ok text e : parse_entry text = Some e -> entry_ok e.
Proof.
  unfold parse_entry. case_decide; [by intros [= <-]|]. intros He.
  apply bind_Some in He as ([a b] & _ & He). apply bind_Some in He as (x & _ & He). apply bind_Some in He as (y & _ & He).
  cbv zeta in He. destruct (_ && _) eqn:Hc; [|done]. simplify_eq. simpl. lia.
Qed.

Lemma parse_line_ok stop ps line stop' ps' : packets_ok ps -> (forall s, stop = Some s -> 0 <= s <= MAX_STOP) ->
  parse_line (stop, ps) line = Some (stop', ps') ->
  packets_ok ps' /\ forall s, stop' = Some s -> 0 <= s <= MAX_STOP.
Proof.
  intros Hp Hs. unfold parse_line. destruct (split_once 61 line) as [[key value]|]; [|by intros [= <- <-]].
  case_decide.
  - intros Hl. apply bind_Some in Hl as (v & Hv & Hl). apply parse_u32_range in Hv.
    destruct (Z.leb_spec v MAX_STOP); [|done]. simplify_eq. split; [done|]. intros s [= <-]. lia.
  - destruct (parse_u32 key) as [packet|]; [|by intros [= <- <-]]. intros Hl. apply bind_Some in Hl as (es & Hes & Hl).
    destruct (Z.ltb_spec MAX_ENTRIES (zlen es)); [done|]. simplify_eq. split; [|done].
    intros k l [[<- <-]|[Hne Hl]]%lookup_insert_Some; [|by eapply Hp]. split; [|split; [done|]].
    + intros ->. apply mapM_Some_1, Forall2_length in Hes. destruct (split_on 44 value) eqn:Hsp; [by apply split_on_not_nil in Hsp|done].
    + apply mapM_Some_1 in Hes. clear -Hes. induction Hes; constructor; [by eapply parse_entry_ok|done].
Qed.

Lemma parse_lines_ok lines stop ps stop' ps' : packets_ok ps -> (forall s, stop = Some s -> 0 <= s <= MAX_STOP) ->
  parse_lines (stop, ps) lines = Some (stop', ps') ->
  packets_ok ps' /\ forall s, stop' = Some s -> 0 <= s <= MAX_STOP.
Proof.
  revert stop ps. induction lines as [|line lines IH]; intros stop ps Hp Hs Hl; simpl in Hl; [by simplify_eq|].
  apply bind_Some in Hl as ([stop1 ps1] & H1 & Hl). apply parse_line_ok in H1 as [Hp1 Hs1]; [|done..]. by eapply IH.
Qed.

Lemma parse_ok md5 raw s : parse md5 raw = Some s -> scheme_ok s.
Proof.
  unfold parse. destruct (MAX_TEXT <? zlen raw); [done|]. intros Hs. apply bind_Some in Hs as (text & _ & Hs).
  apply bind_Some in Hs as ([stop ps] & Hl & Hs). apply bind_Some in Hs as (st & -> & Hs). simplify_eq.
  apply parse_lines_ok in Hl as [Hp Hst]; [|by intros ??; rewrite lookup_empty|done]. split; simpl; [by apply Hst|done].
Qed.

(** ** What is drawn *)

Definition piece_ok (p : Piece) : Prop := match p with PSize n => 1 <= n <= MAX_SIZE | PCheck => True end.

Section drawn.
Context {R : Type} (pick : Z -> R -> Z * R) (Hpick : forall n r, 0 < n -> 0 <= (pick n r).1 < n).

Lemma draws_ok es r : Forall entry_ok es -> Forall piece_ok (draws pick es r).1.
Proof using Hpick.
  intros Hes. revert r. induction Hes as [|e es He _ IH]; intros r; simpl; [constructor|].
  destruct (draw pick e r) as [p r'] eqn:Hd. specialize (IH r'). destruct (draws pick es r') as [ps r2]. constructor; [|done].
  destruct e as [min max|]; simpl in Hd; [|by simplify_eq]. simpl in He.
  destruct (Z.eqb_spec min max) as [Heq|Hne]; [simplify_eq; simpl; lia|].
  destruct (pick (max - min) r) as [n r3] eqn:Hn. simplify_eq. simpl. pose proof (Hpick (max - min) r ltac:(lia)) as Hr.
  rewrite Hn in Hr. simpl in Hr. lia.
Qed.

Lemma pieces_ok s packet r : scheme_ok s -> Forall piece_ok (pieces pick s packet r).1.
Proof using Hpick.
  intros [_ Hp]. unfold pieces. destruct (packets s !! packet) as [es|] eqn:He; [|constructor].
  apply draws_ok. by eapply Hp.
Qed.

End drawn.

(** ** What a write becomes *)

(** The bytes sent are the payload, then waste. *)
Lemma shape_pieces_spec ps payload records : Forall piece_ok ps ->
  exists sent left fills, shape_pieces ps payload records = (records ++ sent, left)
    /\ concat sent ++ left = payload ++ flat_map waste fills
    /\ (left <> [] -> fills = [])
    /\ Forall (fun n => 0 < n <= MAX_SIZE) fills
    /\ Forall (fun r => 0 < zlen r <= MAX_SIZE + HEADER) sent.
Proof.
  intros Hps. revert payload records. induction Hps as [|p ps Hp Hps IH]; intros payload records; simpl.
  { exists [], payload, []. rewrite !app_nil_r. repeat split; try constructor. }
  destruct p as [size|]; simpl in Hp.
  2:{ destruct payload as [|b payload]; [|apply IH]. exists [], [], []. rewrite app_nil_r. repeat split; try constructor. }
  assert (Hwaste : forall n, 0 <= n -> zlen (waste n) = n + HEADER).
  { intros n Hn. unfold waste, frame, push. rewrite !zlen_app, be32_len, be16_len. unfold zlen. rewrite length_replicate. simpl. unfold HEADER. lia. }
  destruct (Z.ltb_spec size (zlen payload)) as [Hlong|Hshort].
  - destruct (IH (drop (Z.to_nat size) payload) (records ++ [take (Z.to_nat size) payload])) as (sent & left & fills & -> & Hc & Hl & Hf & Hr).
    exists (take (Z.to_nat size) payload :: sent), left, fills. rewrite <- app_assoc. split; [done|]. split; [|split; [done|split; [done|]]].
    + cbn [concat]. rewrite <- app_assoc, Hc, app_assoc. by rewrite take_drop.
    + constructor; [|done]. unfold zlen in *. rewrite length_take. unfold HEADER. lia.
  - destruct payload as [|b payload0].
    + destruct (IH [] (records ++ [waste size])) as (sent & left & fills & -> & Hc & Hl & Hf & Hr).
      exists (waste size :: sent), left, (size :: fills). rewrite <- app_assoc. split; [done|].
      assert (Hleft : left = []).
      { destruct left as [|x left]; [done|]. rewrite (Hl ltac:(done)) in Hc. simpl in Hc. by apply app_eq_nil in Hc as [_ ?]. }
      subst left. split; [|split; [done|split; [constructor; [lia|done]|]]].
      * cbn [concat flat_map app]. rewrite app_nil_r in Hc |- *. by rewrite Hc.
      * constructor; [|done]. rewrite Hwaste by lia. unfold HEADER. lia.
    + set (payload := b :: payload0) in *. assert (Hpos : 0 < zlen payload) by (unfold payload; rewrite zlen_cons; pose proof (zlen_nonneg payload0); lia).
      set (fill := size - (zlen payload + HEADER)).
      destruct (IH [] (records ++ [if 0 <? fill then payload ++ waste fill else payload])) as (sent & left & fills & -> & Hc & Hl & Hf & Hr).
      assert (Hleft : left = []).
      { destruct left as [|x left]; [done|]. rewrite (Hl ltac:(done)) in Hc. simpl in Hc. by apply app_eq_nil in Hc as [_ ?]. }
      subst left. eexists ((if 0 <? fill then payload ++ waste fill else payload) :: sent), [], (if 0 <? fill then fill :: fills else fills).
      rewrite <- app_assoc. split; [done|]. rewrite app_nil_r in Hc |- *. destruct (Z.ltb_spec 0 fill) as [Hfill|Hno].
      * split; [cbn [concat flat_map]; by rewrite <- app_assoc, Hc|]. split; [done|]. split; [constructor; [unfold fill, HEADER in *; lia|done]|].
        constructor; [|done]. rewrite zlen_app, Hwaste by lia. unfold fill, HEADER in *. lia.
      * split; [cbn [concat]; by rewrite Hc|]. split; [done|]. split; [done|]. constructor; [|done]. unfold HEADER. lia.
Qed.

(** What the other end reads: frame after frame. *)
Fixpoint read_frames (fuel : nat) (bytes : list Z) : option (list (Z * Z * list Z)) :=
  match fuel with
  | O => None
  | S fuel =>
      match bytes with
      | [] => Some []
      | _ =>
          header ← get_range bytes 0 HEADER;
          '(c, s, len) ← parse_header header;
          data ← get_range bytes HEADER (HEADER + len);
          fs ← read_frames fuel (drop (Z.to_nat (HEADER + len)) bytes);
          Some ((c, s, data) :: fs)
      end
  end.

Definition frame_ok (f : Z * Z * list Z) : Prop := 0 <= f.1.2 <= u32_max /\ zlen f.2 <= u16_max.

Definition frame_of (f : Z * Z * list Z) : list Z := frame f.1.1 f.1.2 f.2.

Definition waste_frame (n : Z) : Z * Z * list Z := (WASTE, 0, replicate (Z.to_nat n) 0).

Lemma read_frames_frames fuel fs : Forall frame_ok fs -> (length fs < fuel)%nat ->
  read_frames fuel (flat_map frame_of fs) = Some fs.
Proof.
  intros Hfs. revert fuel. induction Hfs as [|[[c s] d] fs [Hs Hd] _ IH]; intros fuel Hf; (destruct fuel as [|fuel]; [simpl in Hf; lia|]); [done|].
  simpl in Hs, Hd. pose proof (zlen_nonneg d). cbn [read_frames flat_map].
  set (h := [c] ++ be32 s ++ be16 (zlen d mod 65536)).
  assert (Hfr : frame_of (c, s, d) ++ flat_map frame_of fs = h ++ d ++ flat_map frame_of fs).
  { unfold frame_of, frame, push, h. cbn [fst snd app]. rewrite <- !app_assoc. done. }
  rewrite Hfr. assert (Hh : zlen h = HEADER) by done.
  destruct (h ++ d ++ flat_map frame_of fs) as [|b bs] eqn:Hcons; [done|]. rewrite <- Hcons.
  rewrite get_range_app_l by (rewrite ?Hh; unfold HEADER; lia).
  replace (get_range h 0 HEADER) with (Some h).
  2:{ symmetry. rewrite get_range_Some by (rewrite ?Hh; unfold HEADER; lia). f_equal. }
  assert (Hph : parse_header h = Some (c, s, zlen d)).
  { unfold h, be32, be16. cbn [app parse_header]. rewrite of_be32_be by done. unfold u16_max in Hd.
    rewrite (Z.mod_small (zlen d) 65536) by lia. by rewrite of_be16_be by (unfold u16_max; lia). }
  cbn [mbind option_bind]. rewrite Hph. cbn [mbind option_bind]. rewrite <- Hh. rewrite get_range_mid. cbn [mbind option_bind].
  replace (Z.to_nat (zlen h + zlen d)) with (length (h ++ d)) by (rewrite length_app; unfold zlen; lia).
  rewrite app_assoc, drop_app_length. rewrite IH by (simpl in Hf; lia). done.
Qed.

(** A padding scheme that is accepted is within its bounds, whatever bytes
    it was read from; and under it, whatever sizes are drawn, a write of whole
    frames reads, at the other end, as those frames followed by waste frames only,
    in records that are not empty and, but for the last, no longer than the
    largest size and a header.  *)
Theorem padded_write_reads_back {R : Type} (pick : Z -> R -> Z * R) md5 raw s packet r fs :
  (forall n r, 0 < n -> 0 <= (pick n r).1 < n) -> parse md5 raw = Some s -> Forall frame_ok fs ->
  let records := shape (pieces pick s packet r).1 (flat_map frame_of fs) in
  scheme_ok s
  /\ (exists fills, Forall (fun n => 0 < n <= MAX_SIZE) fills
       /\ forall fuel, (length fs + length fills < fuel)%nat ->
           read_frames fuel (concat records) = Some (fs ++ map waste_frame fills))
  /\ exists sent last_, records = sent ++ last_ /\ (length last_ <= 1)%nat /\ Forall (fun r => 0 < zlen r) records
      /\ Forall (fun r => zlen r <= MAX_SIZE + HEADER) sent.
Proof.
  intros Hpick Hparse Hfs records. pose proof (parse_ok _ _ _ Hparse) as Hok. split; [done|].
  pose proof (pieces_ok pick Hpick s packet r Hok) as Hps.
  destruct (shape_pieces_spec _ (flat_map frame_of fs) [] Hps) as (sent & left & fills & Hshape & Hc & Hl & Hf & Hr).
  unfold records, shape. rewrite Hshape. cbn [app]. split.
  - exists fills. split; [done|]. intros fuel Hfuel.
    assert (Hbytes : concat (match left with [] => sent | _ => sent ++ [left] end) = flat_map frame_of (fs ++ map waste_frame fills)).
    { rewrite flat_map_app, (flat_map_concat_map frame_of (map _ _)), map_map, <- (flat_map_concat_map _ fills).
      change (fun x => frame_of (waste_frame x)) with waste. rewrite <- Hc.
      destruct left; [by rewrite app_nil_r|]. rewrite concat_app. simpl. by rewrite app_nil_r. }
    rewrite Hbytes. apply read_frames_frames; [|rewrite length_app, length_map; lia].
    apply Forall_app_2; [done|]. apply Forall_forall. intros f (n & -> & Hn)%list_elem_of_fmap.
    rewrite Forall_forall in Hf. specialize (Hf n Hn). unfold frame_ok, waste_frame, zlen. simpl. rewrite length_replicate.
    unfold u32_max, u16_max, MAX_SIZE in *. lia.
  - exists sent, (match left with [] => [] | _ => [left] end). split; [destruct left; [by rewrite app_nil_r|done]|].
    split; [destruct left; simpl; lia|]. split.
    + assert (Hpos : Forall (fun r => 0 < zlen r) sent) by (eapply Forall_impl; [exact Hr|simpl; lia]).
      destruct left as [|x left]; [done|]. apply Forall_app_2; [done|]. constructor; [|constructor].
      rewrite zlen_cons. pose proof (zlen_nonneg left). lia.
    + eapply Forall_impl; [exact Hr|simpl; lia].
Qed.

Definition sample_md5 (raw : list Z) : list Z := replicate 16 (zlen raw mod 256).

Lemma padded_write_reads_back_witness :
  exists s, parse sample_md5 DEFAULT_SCHEME = Some s /\ scheme_ok s
    /\ map zlen (shape (pieces (fun n r => (0, r)) s 2 tt).1 (frame 2 1 (replicate 500 7))) = [400; 500].
Proof.
  destruct (parse sample_md5 DEFAULT_SCHEME) as [s|] eqn:Hs; [|vm_compute in Hs; discriminate].
  exists s. split; [done|].
  destruct (padded_write_reads_back (fun (n : Z) (r : unit) => (0, r)) sample_md5 DEFAULT_SCHEME s 2 tt [(2, 1, replicate 500 7)]) as [Hok _].
  - intros n r Hn. simpl. lia.
  - exact Hs.
  - repeat constructor; vm_compute; discriminate.
  - split; [exact Hok|]. vm_compute in Hs. injection Hs as <-. vm_compute. reflexivity.
Defined.
