(* ===== verification/Gecko.v ===== *)
(** * Hysteria 2's obfuscation: Salamander and Gecko

    [crates/rurge-proto-quic/src/hysteria2/obfs/]: how a datagram is sealed
    and opened ([salamander.rs]), how a packet with a long header is split
    into frames and put together again ([gecko.rs]), and what the socket does
    with the two when it sends and when it opens what came ([mod.rs]).
    BLAKE2b-256 of the password and a salt, the random source and the inner
    socket are parameters.  Times are numbers of nanoseconds; sources are of
    any type. *)

From S2P Require Import Prelude Bytes.

(** ** Salamander *)

Definition SALT : nat := 8.
Definition KEY : nat := 32.

(** [chunk.iter_mut().zip(key)]. *)
Fixpoint xor_onto (chunk key : list Z) : list Z :=
  match chunk, key with
  | byte :: chunk, k :: key => Z.lxor byte k :: xor_onto chunk key
  | _, _ => chunk
  end.

(** [bytes.chunks_mut(KEY)]: never more chunks than bytes. *)
Fixpoint mask_from (fuel : nat) (bytes key : list Z) : list Z :=
  match fuel with
  | O => bytes
  | S fuel =>
      match bytes with
      | [] => []
      | _ => xor_onto (take KEY bytes) key ++ mask_from fuel (drop KEY bytes) key
      end
  end.

Definition mask (bytes key : list Z) : list Z := mask_from (length bytes) bytes key.

Section salamander.
(** [hash]: the key of a salt, under the password; [fill]: what
    [getrandom::fill] leaves in a buffer. *)
Context {R : Type} (hash : list Z -> list Z) (fill : list Z -> R -> list Z * R).

(** Of a datagram with room for its salt. *)
Definition seal_with (salt datagram : list Z) : list Z := salt ++ mask (drop SALT datagram) (hash salt).

Definition seal (datagram : list Z) (r : R) : list Z * R :=
  let '(salt, r) := fill (replicate SALT 0) r in
  (seal_with salt datagram, r).

Definition open (datagram : list Z) : option (list Z) :=
  if (length datagram <=? SALT)%nat then None
  else
    let salt := take SALT datagram in
    let payload := drop SALT datagram in
    Some (mask payload (hash salt)).

End salamander.

(** ** Gecko *)

Definition TOP : Z := 128.
Definition HEADER : Z := 5.
Definition MIN_FRAGMENTS : Z := 2.
Definition MAX_FRAGMENTS : Z := 8.
Definition MIN_SIZE : Z := 512.
Definition MAX_SIZE : Z := 1200.
Definition PENDING : nat := 8.
Definition TTL : Z := 8 * 1000000000.

Definition is_long_header (packet : list Z) : bool :=
  match packet with first :: _ => negb (Z.land first TOP =? 0) | [] => false end.

Section fragments.
Context {R : Type} (hash : list Z -> list Z) (fill : list Z -> R -> list Z * R) (random_u32 : R -> option Z * R).

(** [below]: 0 without a random source. *)
Definition below (n : Z) (r : R) : Z * R :=
  let '(random, r) := random_u32 r in
  (match random with Some random => random mod n | None => 0 end, r).

Definition fragment_count (r : R) : Z * R :=
  let '(n, r) := below (MAX_FRAGMENTS - MIN_FRAGMENTS + 1) r in (MIN_FRAGMENTS + n, r).

Definition padding (len : Z) (r : R) : Z * R :=
  let bare := Z.of_nat SALT + HEADER + len in
  let least := Z.max bare MIN_SIZE in
  if MAX_SIZE <? least then (0, r)
  else let '(n, r) := below (MAX_SIZE - least + 1) r in (least - bare + n, r).

(** The chunk of an index: [&packet[start..end]]. *)
Definition chunk_of (packet : list Z) (count index : Z) : list Z :=
  let size := zlen packet / count in
  let start := index * size in
  let stop := if index + 1 =? count then zlen packet else start + size in
  take (Z.to_nat (stop - start)) (drop (Z.to_nat start) packet).

(** What the datagram of a chunk holds, its salt left out. *)
Definition frame_bytes (message index count pad : Z) (filler chunk : list Z) : list Z :=
  [TOP; message; Z.lor (Z.shiftl index 4) count] ++ be16 (pad mod 65536) ++ filler ++ chunk.

(** One turn of [fragments]' closure. *)
Definition fragment (packet : list Z) (count message index : Z) (r : R) : list Z * R :=
  let chunk := chunk_of packet count index in
  let '(pad, r) := padding (zlen chunk) r in
  let '(filler, r) := fill (replicate (Z.to_nat pad) 0) r in
  seal hash fill (replicate SALT 0 ++ frame_bytes message index count pad filler chunk) r.

Fixpoint fragments_from (packet : list Z) (count message : Z) (indices : list nat) (r : R) : list (list Z) * R :=
  match indices with
  | [] => ([], r)
  | index :: indices =>
      let '(datagram, r) := fragment packet count message (Z.of_nat index) r in
      let '(datagrams, r) := fragments_from packet count message indices r in
      (datagram :: datagrams, r)
  end.

Definition fragments (packet : list Z) (count message : Z) (r : R) : list (list Z) * R :=
  fragments_from packet count message (seq 0 (Z.to_nat count)) r.

End fragments.

Record Frame := mkFrame { message : Z; index : Z; count : Z; chunk : list Z }.

Definition parse (bytes : list Z) : option Frame :=
  match bytes with
  | h0 :: h1 :: h2 :: h3 :: h4 :: _ =>
      let index := Z.shiftr h2 4 in
      let count := Z.land h2 15 in
      if (Z.land h0 TOP =? 0) || negb ((MIN_FRAGMENTS <=? count) && (count <=? MAX_FRAGMENTS)) || (count <=? index) then None
      else
        let padding := of_be16 h3 h4 in
        chunk ← get_range bytes (HEADER + padding) (zlen bytes);
        Some (mkFrame h1 index count chunk)
  | _ => None
  end.

Section reassembly.
Context {Source : Type} `{EqDecision Source}.

Record Pending := mkPending {
  source : Source;
  p_message : Z;
  chunks : list (option (list Z));
  missing : Z;
  since : Z;
}.

(** [Reassembly::feed]: the packet made whole, and what is still pending;
    [None] is a panic (an index past the places). *)
Definition feed (now : Z) (src : Source) (f : Frame) (pending : list Pending) : option (option (list Z) * list Pending) :=
  let pending := List.filter (fun p => sat_sub now (since p) <? TTL) pending in
  let n := Z.to_nat (count f) in
  let '(at_, pending) :=
    match list_find (fun p => source p = src /\ p_message p = message f) pending with
    | Some (at_, _) => (at_, pending)
    | None =>
        let pending := if decide (length pending = PENDING) then drop 1 pending else pending in
        (length pending, pending ++ [mkPending src (message f) (replicate n None) (count f) now])
    end in
  p ← pending !! at_;
  if negb (length (chunks p) =? n)%nat then Some (None, pending)
  else
    old ← chunks p !! Z.to_nat (index f);
    match old with
    | Some _ => Some (None, pending)
    | None =>
        let cs := <[Z.to_nat (index f) := Some (chunk f)]> (chunks p) in
        let left := missing p - 1 in
        if 0 <? left then Some (None, <[at_ := mkPending (source p) (p_message p) cs left (since p)]> pending)
        else Some (Some (concat (omap id cs)), delete at_ pending)
    end.

(** ** Proofs of the reassembly *)

Definition pkey (p : Pending) : Source * Z := (source p, p_message p).

(** ** The pending packet of a key *)

Definition get (k : Source * Z) (pending : list Pending) : option Pending :=
  snd <$> list_find (fun p => source p = k.1 /\ p_message p = k.2) pending.

Definition keys_ok (seen : list (Source * Z)) (pending : list Pending) : Prop :=
  NoDup (map pkey pending) /\ forall p, p ∈ pending -> pkey p ∈ seen.

Lemma find_key k pending : list_find (fun p => source p = k.1 /\ p_message p = k.2) pending
  = list_find (fun p => pkey p = k) pending.
Proof.
  induction pending as [|p pending IH]; [done|]. simpl. rewrite IH. destruct k as [s m]. unfold pkey. simpl.
  repeat case_decide; try done; exfalso; naive_solver.
Qed.

Lemma pending_get_Some k pending p : NoDup (map pkey pending) ->
  get k pending = Some p <-> p ∈ pending /\ pkey p = k.
Proof.
  intros Hn. unfold get. rewrite find_key. split.
  - intros ([i q] & Hf & ->)%fmap_Some. apply list_find_Some in Hf as (Hi & Hk & _). simpl. split; [by eapply list_elem_of_lookup_2|done].
  - intros [Hin Hk]. apply list_elem_of_lookup in Hin as [i Hi]. apply fmap_Some. exists (i, p). split; [|done].
    apply list_find_Some. split; [done|]. split; [done|]. intros j q Hj Hlt Hq.
    assert (j = i); [|lia]. eapply (NoDup_lookup _ _ _ k Hn); rewrite list_lookup_fmap; [rewrite Hj|rewrite Hi]; simpl; congruence.
Qed.

Lemma pending_get_None k pending : get k pending = None <-> forall p, p ∈ pending -> pkey p <> k.
Proof.
  unfold get. rewrite find_key, fmap_None, list_find_None, Forall_forall. done.
Qed.

(** Two states with the same entry of a key. *)
Lemma get_ext k pending pending' : NoDup (map pkey pending) -> NoDup (map pkey pending') ->
  (forall p, pkey p = k -> p ∈ pending <-> p ∈ pending') -> get k pending = get k pending'.
Proof.
  intros Hn Hn' Hext. destruct (get k pending') as [p|] eqn:Hp.
  - apply pending_get_Some in Hp as [Hin Hk]; [|done]. apply pending_get_Some; [done|]. split; [by apply Hext|done].
  - rewrite pending_get_None in *. intros p Hin Hk. apply (Hp p); [by apply Hext|done].
Qed.

(** ** One frame *)

(** The entry a frame goes to: the one of its key, if it is there and in
    time, or a new one. *)
Definition entry_for (now : Z) (src : Source) (f : Frame) (pending : list Pending) : Pending :=
  match get (src, message f) (List.filter (fun p => sat_sub now (since p) <? TTL) pending) with
  | Some p => p
  | None => mkPending src (message f) (replicate (Z.to_nat (count f)) None) (count f) now
  end.

(** What becomes of that entry; [None] when its packet is whole. *)
Definition taken (f : Frame) (p : Pending) : option (list Z) * option Pending :=
  if negb (length (chunks p) =? Z.to_nat (count f))%nat then (None, Some p)
  else
    match chunks p !! Z.to_nat (index f) with
    | Some None =>
        let cs := <[Z.to_nat (index f) := Some (chunk f)]> (chunks p) in
        let left := missing p - 1 in
        if 0 <? left then (None, Some (mkPending (source p) (p_message p) cs left (since p)))
        else (Some (concat (omap id cs)), None)
    | _ => (None, Some p)
    end.

Definition frame_ok (f : Frame) : Prop := MIN_FRAGMENTS <= count f <= MAX_FRAGMENTS /\ index f < count f.

Lemma filter_keys (b : Pending -> bool) pending : NoDup (map pkey pending) -> NoDup (map pkey (List.filter b pending)).
Proof.
  induction pending as [|p pending IH]; simpl; [done|]. intros [Hp Hn]%NoDup_cons. destruct (b p); simpl; [|by apply IH].
  constructor; [|by apply IH]. intros Hin. apply Hp. apply list_elem_of_fmap in Hin as (q & Hk & Hq).
  apply list_elem_of_fmap. exists q. split; [done|]. apply list_elem_of_In in Hq. apply List.filter_In in Hq as [Hq _]. by apply list_elem_of_In.
Qed.

Lemma elem_filter (b : Pending -> bool) pending p : p ∈ List.filter b pending <-> p ∈ pending /\ b p = true.
Proof. by rewrite list_elem_of_In, List.filter_In, <- list_elem_of_In. Qed.

Definition fresh (now : Z) (p : Pending) : bool := sat_sub now (since p) <? TTL.

Lemma keys_ok_filter seen b pending : keys_ok seen pending -> keys_ok seen (List.filter b pending).
Proof. intros [Hn Hs]. split; [by apply filter_keys|]. intros p [Hp _]%elem_filter. by apply Hs. Qed.

Lemma get_fresh seen now k pending p : keys_ok seen pending -> get k pending = Some p -> fresh now p = true ->
  get k (List.filter (fresh now) pending) = Some p.
Proof.
  intros [Hn _] Hg Hf. apply pending_get_Some in Hg as [Hin Hk]; [|done].
  apply pending_get_Some; [by apply filter_keys|]. by rewrite elem_filter.
Qed.

Lemma get_filter_None b k pending : get k pending = None -> get k (List.filter b pending) = None.
Proof. rewrite !pending_get_None. intros Hn p [Hp _]%elem_filter. by apply Hn. Qed.

(** Whoever waits besides a new packet leaves room for it. *)
Lemma room seen k pending : keys_ok seen pending -> k ∈ seen -> get k pending = None ->
  (length seen <= PENDING)%nat -> (length pending < PENDING)%nat.
Proof.
  intros [Hn Hs] Hk Hg Hl. enough (S (length pending) <= length seen)%nat by lia.
  rewrite <- (length_map pkey pending). change (length (k :: map pkey pending) <= length seen)%nat.
  apply submseteq_length, NoDup_submseteq.
  - constructor; [|done]. intros (p & Hp & Hin)%list_elem_of_fmap. by apply (proj1 (pending_get_None k pending) Hg p Hin).
  - intros k' [->|(p & -> & Hin)%list_elem_of_fmap]%elem_of_cons; [done|by apply Hs].
Qed.

Lemma keys_ok_snoc seen pending p : keys_ok seen pending -> pkey p ∈ seen -> get (pkey p) pending = None ->
  keys_ok seen (pending ++ [p]) /\ forall k, k <> pkey p -> get k (pending ++ [p]) = get k pending.
Proof.
  intros [Hn Hs] Hp Hg. assert (Hn' : NoDup (map pkey (pending ++ [p]))).
  { rewrite map_app. apply NoDup_app. split; [done|]. split; [|apply NoDup_singleton].
    intros k (q & -> & Hin)%list_elem_of_fmap Hq%list_elem_of_singleton. by apply (proj1 (pending_get_None _ pending) Hg q Hin). }
  split.
  - split; [done|]. intros q [Hq| ->%list_elem_of_singleton]%elem_of_app; [by apply Hs|done].
  - intros k Hk. apply get_ext; [done..|]. intros q Hq. rewrite elem_of_app, list_elem_of_singleton.
    split; [intros [?| ->]; done|by left].
Qed.

(** Where a frame's entry is found, or put. *)
Definition place (now : Z) (src : Source) (f : Frame) (pending : list Pending) : nat * list Pending :=
  match list_find (fun p => source p = src /\ p_message p = message f) pending with
  | Some (at_, _) => (at_, pending)
  | None =>
      let pending := if decide (length pending = PENDING) then drop 1 pending else pending in
      (length pending, pending ++ [mkPending src (message f) (replicate (Z.to_nat (count f)) None) (count f) now])
  end.

Lemma place_spec now src f pending seen : keys_ok seen pending -> (src, message f) ∈ seen -> (length seen <= PENDING)%nat ->
  let pending1 := List.filter (fresh now) pending in
  exists at_ pending2,
    place now src f pending1 = (at_, pending2)
    /\ pending2 !! at_ = Some (entry_for now src f pending)
    /\ pkey (entry_for now src f pending) = (src, message f)
    /\ keys_ok seen pending2
    /\ forall k, k <> (src, message f) -> get k pending2 = get k pending1.
Proof.
  intros Hok%(keys_ok_filter _ (fresh now)) Hk Hl pending1. fold pending1 in Hok. unfold place, entry_for. fold (fresh now).
  change (fun p => sat_sub now (since p) <? TTL) with (fresh now). fold pending1.
  destruct (get (src, message f) pending1) as [p|] eqn:Hg.
  - pose proof Hg as Hin. apply pending_get_Some in Hin as [_ Hp]; [|apply Hok].
    unfold get in Hg. simpl in Hg. destruct (list_find _ pending1) as [[at_ q]|] eqn:Hf; [|done]. simplify_eq/=.
    apply list_find_Some in Hf as (Hat & _ & _). by exists at_, pending1.
  - pose proof (room _ _ _ Hok Hk Hg Hl) as Hroom. pose proof Hg as Hf. unfold get in Hf. simpl in Hf.
    destruct (list_find _ pending1) as [[at_ q]|] eqn:Hfind; [done|]. rewrite decide_False by lia.
    eexists _, _. split; [done|]. split; [by rewrite list_lookup_middle|]. split; [done|]. by apply keys_ok_snoc.
Qed.

(** The entry changed in its place, or gone. *)
Lemma entry_changed seen pending at_ p p' : keys_ok seen pending -> pending !! at_ = Some p -> pkey p' = pkey p ->
  keys_ok seen (<[at_ := p']> pending) /\ get (pkey p) (<[at_ := p']> pending) = Some p'
  /\ forall k, k <> pkey p -> get k (<[at_ := p']> pending) = get k pending.
Proof.
  intros [Hn Hs] Hat Hp.
  assert (Hkeys : map pkey (<[at_ := p']> pending) = map pkey pending).
  { change (pkey <$> <[at_:=p']> pending = pkey <$> pending). rewrite list_fmap_insert. apply list_insert_id.
    rewrite list_lookup_fmap, Hat. simpl. by rewrite Hp. }
  assert (Hlt : (at_ < length pending)%nat) by (by eapply lookup_lt_Some).
  assert (Hn' : NoDup (map pkey (<[at_ := p']> pending))) by (by rewrite Hkeys).
  split; [split; [done|]|split].
  - intros q Hq. assert (pkey q ∈ map pkey pending) as (q' & -> & Hq')%list_elem_of_fmap; [|by apply Hs].
    rewrite <- Hkeys. by apply list_elem_of_fmap_2.
  - apply pending_get_Some; [done|]. split; [|done]. eapply list_elem_of_lookup_2. by apply list_lookup_insert_eq.
  - intros k Hk. apply get_ext; [done..|]. intros q Hq. rewrite !list_elem_of_lookup. split; intros [j Hj].
    + apply list_lookup_insert_Some in Hj as [(<- & <- & _)|[_ Hj]]; [congruence|by exists j].
    + exists j. rewrite list_lookup_insert_ne; [done|]. intros <-. congruence.
Qed.

Lemma entry_gone seen pending at_ p : keys_ok seen pending -> pending !! at_ = Some p ->
  keys_ok seen (delete at_ pending) /\ get (pkey p) (delete at_ pending) = None
  /\ forall k, k <> pkey p -> get k (delete at_ pending) = get k pending.
Proof.
  intros [Hn Hs] Hat. pose proof (delete_Permutation _ _ _ Hat) as Hperm.
  pose proof Hn as Hn'. rewrite (Permutation_map pkey Hperm) in Hn'. simpl in Hn'. apply NoDup_cons in Hn' as [Hp Hn'].
  split; [split; [done|]|split].
  - intros q Hq. apply Hs. rewrite Hperm. by right.
  - apply pending_get_None. intros q Hq Hk. apply Hp. rewrite <- Hk. by apply list_elem_of_fmap_2.
  - intros k Hk. apply get_ext; [done..|]. intros q Hq.
    assert (q ∈ pending <-> q ∈ p :: delete at_ pending) as -> by (by rewrite <- Hperm).
    rewrite elem_of_cons. split; [by right|intros [->|?]; done].
Qed.

(** What a frame does: to its own entry, and to no other. *)
Lemma feed_spec now src f pending seen : frame_ok f -> keys_ok seen pending -> (src, message f) ∈ seen ->
  (length seen <= PENDING)%nat ->
  exists pending',
    feed now src f pending = Some ((taken f (entry_for now src f pending)).1, pending')
    /\ keys_ok seen pending'
    /\ get (src, message f) pending' = (taken f (entry_for now src f pending)).2
    /\ forall k, k <> (src, message f) -> get k pending' = get k (List.filter (fresh now) pending).
Proof.
  intros [Hc Hf] Hok Hk Hl. unfold MIN_FRAGMENTS in Hc.
  destruct (place_spec now src f pending seen Hok Hk Hl) as (at_ & pending2 & Hplace & Hat & Hp & Hok2 & Hothers).
  unfold feed. change (fun p => sat_sub now (since p) <? TTL) with (fresh now).
  fold (place now src f (List.filter (fresh now) pending)). rewrite Hplace.
  set (p := entry_for now src f pending) in *. rewrite Hat. cbn [mbind option_bind]. unfold taken.
  destruct (length (chunks p) =? Z.to_nat (count f))%nat eqn:Hlen; simpl.
  2: { exists pending2. split; [done|]. split; [done|]. split; [|done].
       apply pending_get_Some; [apply Hok2|]. split; [by eapply list_elem_of_lookup_2|done]. }
  apply Nat.eqb_eq in Hlen.
  destruct (lookup_lt_is_Some_2 (chunks p) (Z.to_nat (index f))) as [old Hold]; [lia|]. rewrite Hold. simpl.
  destruct old as [old|].
  { exists pending2. split; [done|]. split; [done|]. split; [|done].
    apply pending_get_Some; [apply Hok2|]. split; [by eapply list_elem_of_lookup_2|done]. }
  rewrite <- Hp in *. destruct (0 <? missing p - 1) eqn:Hleft.
  - set (p' := mkPending _ _ _ _ _). destruct (entry_changed seen pending2 at_ p p' Hok2 Hat eq_refl) as (? & ? & Hsame).
    eexists. split; [done|]. split; [done|]. split; [done|]. intros k Hk'. rewrite Hsame by done. by apply Hothers.
  - destruct (entry_gone seen pending2 at_ p Hok2 Hat) as (? & ? & Hsame).
    eexists. split; [done|]. split; [done|]. split; [done|]. intros k Hk'. rewrite Hsame by done. by apply Hothers.
Qed.

End reassembly.
