(* ===== verification/Obfs.v ===== *)
(** * Hysteria 2's obfuscated socket

    [crates/rurge-proto-quic/src/hysteria2/obfs/mod.rs]: what the socket hands
    to the inner one when it sends, and what it makes of a datagram that came.
    The inner socket is a parameter with a state of its own; the loop of
    [poll_recv] over quinn's buffers is left out, the opening of each of its
    datagrams is [receive]. *)

From S2P Require Import Prelude Bytes Gecko.

(** What the inner socket's [try_send] says. *)
Inductive SendResult := Sent | WouldBlock | Failed.

Section socket.
Context {R W Source : Type} `{EqDecision Source}.
Context (hash : list Z -> list Z) (fill : list Z -> R -> list Z * R) (random_u32 : R -> option Z * R).
Context (inner : list Z -> W -> SendResult * W).

(** Whether it blocks: any other failure loses the datagram. *)
Definition send (datagram : list Z) (w : W) : bool * W :=
  let '(sent, w) := inner datagram w in
  match sent with
  | WouldBlock => (true, w)
  | Sent | Failed => (false, w)
  end.

Fixpoint send_fragments (n : nat) (datagrams : list (list Z)) (w : W) : bool * W :=
  match datagrams with
  | [] => (false, w)
  | datagram :: datagrams =>
      let '(blocked, w) := send datagram w in
      if blocked then ((n =? 0)%nat, w) else send_fragments (S n) datagrams w
  end.

(** [try_send]: whether it blocks, the message of the next packet, the inner
    socket. *)
Definition try_send (messages : option Z) (packet : list Z) (w : W) (r : R) : bool * option Z * W * R :=
  match messages, is_long_header packet with
  | Some message, true =>
      let '(count, r) := fragment_count random_u32 r in
      let '(datagrams, r) := fragments hash fill random_u32 packet count message r in
      let '(blocked, w) := send_fragments 0 datagrams w in
      (blocked, Some ((message + 1) mod 256), w, r)
  | _, _ =>
      let '(datagram, r) := seal hash fill (replicate SALT 0 ++ packet) r in
      let '(blocked, w) := send datagram w in
      (blocked, messages, w, r)
  end.

(** [Obfuscated::open], at a time; the outer [None] is a panic. *)
Definition receive (gecko : bool) (now : Z) (src : Source) (datagram : list Z) (reassembly : list (@Pending Source))
  : option (option (list Z) * list Pending) :=
  match open hash datagram with
  | None => Some (None, reassembly)
  | Some packet =>
      if negb gecko || negb (is_long_header packet) then Some (Some packet, reassembly)
      else
        match parse packet with
        | None => Some (None, reassembly)
        | Some frame => feed now src frame reassembly
        end
  end.

(** Datagrams one after the other: when each came, from where, and what it
    made whole. *)
Definition Arrival : Type := Z * Source * list Z.

Fixpoint receives (gecko : bool) (arrivals : list Arrival) (reassembly : list (@Pending Source))
  : option (list (option (list Z)) * list Pending) :=
  match arrivals with
  | [] => Some ([], reassembly)
  | (now, src, datagram) :: arrivals =>
      '(out, reassembly) ← receive gecko now src datagram reassembly;
      '(outs, reassembly) ← receives gecko arrivals reassembly;
      Some (out :: outs, reassembly)
  end.

(** The frame a datagram brings, and the packet it is a part of. *)
Definition frame_of (datagram : list Z) : option Frame :=
  packet ← open hash datagram;
  if is_long_header packet then parse packet else None.

Definition part_of (a : Arrival) : option (Source * Z) :=
  f ← frame_of a.2; Some (a.1.2, message f).

(** What the parts of one packet made whole, in the order they came. *)
Definition own (k : Source * Z) (arrivals : list Arrival) : list Arrival :=
  filter (fun a => part_of a = Some k) arrivals.

Definition own_outs (k : Source * Z) (arrivals : list Arrival) (outs : list (option (list Z))) : list (option (list Z)) :=
  snd <$> filter (fun ao : Arrival * option (list Z) => part_of ao.1 = Some k) (zip arrivals outs).

End socket.

(** A socket that takes everything: the datagrams it took. *)
Definition log (datagram : list Z) (w : list (list Z)) : SendResult * list (list Z) := (Sent, w ++ [datagram]).

(** ** Sealing and opening *)

Lemma xor_onto_length chunk key : length (xor_onto chunk key) = length chunk.
Proof. revert key. induction chunk as [|b chunk IH]; intros [|k key]; simpl; try done. by rewrite IH. Qed.

Lemma xor_onto_twice chunk key : xor_onto (xor_onto chunk key) key = chunk.
Proof.
  revert key. induction chunk as [|b chunk IH]; intros [|k key]; simpl; try done.
  by rewrite IH, Z.lxor_assoc, Z.lxor_nilpotent, Z.lxor_0_r.
Qed.

Lemma mask_from_length fuel bytes key : length (mask_from fuel bytes key) = length bytes.
Proof.
  revert bytes. induction fuel as [|fuel IH]; intros bytes; [done|]. simpl. destruct bytes as [|b bytes]; [done|].
  rewrite length_app, xor_onto_length, IH, length_take, length_drop. lia.
Qed.

Lemma mask_length bytes key : length (mask bytes key) = length bytes.
Proof. apply mask_from_length. Qed.

Lemma mask_from_twice fuel bytes key : (length bytes <= fuel)%nat ->
  mask_from fuel (mask_from fuel bytes key) key = bytes.
Proof.
  revert bytes. induction fuel as [|fuel IH]; intros bytes Hl; [done|]. destruct bytes as [|b bytes]; [done|].
  set (l := b :: bytes) in *. change (mask_from (S fuel) l key) with (xor_onto (take KEY l) key ++ mask_from fuel (drop KEY l) key).
  set (m := xor_onto _ _ ++ _).
  assert (Hm : mask_from (S fuel) m key = xor_onto (take KEY m) key ++ mask_from fuel (drop KEY m) key).
  { simpl. destruct m as [|c m'] eqn:Em; [|done]. apply (f_equal length) in Em. subst m. rewrite length_app, xor_onto_length, length_take in Em.
    simpl in Em. unfold KEY in Em. lia. }
  rewrite Hm. destruct (decide (KEY <= length l)%nat) as [Hk|Hk].
  - assert (Hx : length (xor_onto (take KEY l) key) = KEY) by (rewrite xor_onto_length, length_take; lia).
    unfold m. rewrite take_app_length', drop_app_length' by done. rewrite xor_onto_twice, IH; [by rewrite take_drop|].
    rewrite length_drop. unfold KEY in *. lia.
  - unfold m. rewrite (drop_ge l), (take_ge l) by lia. replace (mask_from fuel [] key) with (@nil Z) by (by destruct fuel).
    rewrite app_nil_r, take_ge, drop_ge by (rewrite xor_onto_length; lia).
    rewrite xor_onto_twice. destruct fuel; by rewrite app_nil_r.
Qed.

Lemma open_seal hash salt payload : length salt = SALT -> payload <> [] ->
  open hash (seal_with hash salt (replicate SALT 0 ++ payload)) = Some payload.
Proof.
  intros Hs Hp. unfold open, seal_with. rewrite length_app, Hs, mask_length, length_drop, length_app, length_replicate.
  destruct (Nat.leb_spec (SALT + (SALT + length payload - SALT)) SALT) as [Hle|_].
  { destruct payload; [done|]. unfold SALT in Hle. simpl in Hle. lia. }
  rewrite take_app_length', !drop_app_length' by (by rewrite ?length_replicate).
  unfold mask at 1. rewrite mask_length. unfold mask. rewrite mask_from_twice; done.
Qed.

(** ** The fragments of a packet *)

Section sender.
Context {R : Type} (hash : list Z -> list Z) (fill : list Z -> R -> list Z * R) (random_u32 : R -> option Z * R).
Hypothesis fill_length : forall buf r, length (fill buf r).1 = length buf.

Lemma below_range n r : 0 < n -> 0 <= (below random_u32 n r).1 < n.
Proof.
  intros Hn. unfold below. destruct (random_u32 r) as [[random|] r']; simpl; [|lia]. by apply Z.mod_pos_bound.
Qed.

Lemma fragment_count_range r : MIN_FRAGMENTS <= (fragment_count random_u32 r).1 <= MAX_FRAGMENTS.
Proof.
  unfold fragment_count. pose proof (below_range (MAX_FRAGMENTS - MIN_FRAGMENTS + 1) r) as Hb.
  destruct (below random_u32 _ r) as [n r']. simpl in *. unfold MAX_FRAGMENTS, MIN_FRAGMENTS in *. lia.
Qed.

Lemma padding_range len r : 0 <= len ->
  let pad := (padding random_u32 len r).1 in
  let size := Z.of_nat SALT + HEADER + pad + len in
  0 <= pad <= MAX_SIZE /\ MIN_SIZE <= size /\ (size <= MAX_SIZE \/ pad = 0).
Proof.
  intros Hlen. unfold padding. set (least := Z.max (Z.of_nat SALT + HEADER + len) MIN_SIZE).
  destruct (Z.ltb_spec MAX_SIZE least) as [Hl|Hl]; simpl.
  - subst least. unfold MAX_SIZE, MIN_SIZE, HEADER, SALT in *. lia.
  - pose proof (below_range (MAX_SIZE - least + 1) r ltac:(lia)) as Hb.
    destruct (below random_u32 _ r) as [n r']. simpl in *. subst least. unfold MAX_SIZE, MIN_SIZE, HEADER, SALT in *. lia.
Qed.

(** The size of a fragment's datagram: between the two bounds, or, for a
    chunk too long for that, without padding. *)
Definition size_ok (chunk : list Z) (datagram : list Z) : Prop :=
  MIN_SIZE <= zlen datagram
  /\ (zlen datagram <= MAX_SIZE \/ zlen datagram = Z.of_nat SALT + HEADER + zlen chunk).

Lemma parse_frame_bytes message index count pad filler chunk : 0 <= index < count -> MIN_FRAGMENTS <= count <= MAX_FRAGMENTS ->
  zlen filler = pad -> pad <= u16_max ->
  parse (frame_bytes message index count pad filler chunk) = Some (mkFrame message index count chunk).
Proof.
  unfold MIN_FRAGMENTS, MAX_FRAGMENTS. intros Hi Hc Hf Hp. pose proof (zlen_nonneg filler) as Hpos.
  assert (Hlor : Z.lor (Z.shiftl index 4) count = index * 16 + count) by (apply (lor_shiftl_add index count 4); lia).
  unfold frame_bytes, parse, be16. rewrite Hlor. cbn [app].
  replace (Z.shiftr (index * 16 + count) 4) with index
    by (rewrite Z.shiftr_div_pow2 by lia; change (2 ^ 4) with 16; Z.div_mod_to_equations; lia).
  replace (Z.land (index * 16 + count) 15) with count
    by (rewrite (Z.land_ones _ 4) by lia; change (2 ^ 4) with 16; Z.div_mod_to_equations; lia).
  change (Z.land TOP TOP =? 0) with false. unfold MIN_FRAGMENTS, MAX_FRAGMENTS.
  rewrite (proj2 (Z.leb_le 2 count)), (proj2 (Z.leb_le count 8)), (proj2 (Z.leb_gt count index)) by lia. simpl.
  rewrite (Z.mod_small pad 65536) by (unfold u16_max in *; lia). rewrite of_be16_be by lia.
  rewrite get_range_Some; [|unfold HEADER; lia| |lia].
  2: { rewrite !zlen_cons, zlen_app, Hf. unfold HEADER. pose proof (zlen_nonneg chunk). lia. }
  simpl. do 2 f_equal. unfold HEADER. replace (Z.to_nat (5 + pad)) with (5 + length filler)%nat by (unfold zlen in *; lia).
  simpl. rewrite drop_app_length. apply take_ge. rewrite !zlen_cons, zlen_app. unfold zlen in *. lia.
Qed.

(** A fragment opens to its frame, and has its size. *)
Lemma fragment_opens packet count message index r : 0 <= index < count -> MIN_FRAGMENTS <= count <= MAX_FRAGMENTS ->
  let datagram := (fragment hash fill random_u32 packet count message index r).1 in
  frame_of hash datagram = Some (mkFrame message index count (chunk_of packet count index))
  /\ size_ok (chunk_of packet count index) datagram.
Proof.
  intros Hi Hc. unfold fragment. set (chunk := chunk_of packet count index).
  pose proof (padding_range (zlen chunk) r (zlen_nonneg _)) as Hpad. destruct (padding random_u32 (zlen chunk) r) as [pad r1].
  simpl in Hpad. destruct Hpad as (Hpad & Hmin & Hmax).
  pose proof (fill_length (replicate (Z.to_nat pad) 0) r1) as Hfill. destruct (fill (replicate _ 0) r1) as [filler r2].
  simpl in Hfill. rewrite length_replicate in Hfill.
  assert (Hz : zlen filler = pad) by (unfold zlen; lia).
  unfold seal. pose proof (fill_length (replicate SALT 0) r2) as Hsalt. destruct (fill (replicate SALT 0) r2) as [salt r3].
  cbn [fst] in *. rewrite length_replicate in Hsalt. split.
  - unfold frame_of. rewrite open_seal by (exact Hsalt || done). cbn [mbind option_bind].
    change (is_long_header _) with true. cbn iota. apply parse_frame_bytes; try done. unfold u16_max, MAX_SIZE in *. lia.
  - unfold size_ok. assert (zlen (seal_with hash salt (replicate SALT 0 ++ frame_bytes message index count pad filler chunk))
      = Z.of_nat SALT + HEADER + pad + zlen chunk) as ->; [|lia].
    unfold seal_with. rewrite zlen_app. unfold zlen at 1 2. rewrite Hsalt, mask_length. simpl. rewrite length_app. unfold zlen, HEADER, SALT in *. lia.
Qed.

Lemma fragments_open packet count message r : MIN_FRAGMENTS <= count <= MAX_FRAGMENTS ->
  let datagrams := (fragments hash fill random_u32 packet count message r).1 in
  map (frame_of hash) datagrams
    = map (fun i => Some (mkFrame message (Z.of_nat i) count (chunk_of packet count (Z.of_nat i)))) (seq 0 (Z.to_nat count))
  /\ Forall (fun d => exists i, size_ok (chunk_of packet count i) d) datagrams.
Proof.
  intros Hc. unfold fragments.
  assert (Hin : Forall (fun i => (i < Z.to_nat count)%nat) (seq 0 (Z.to_nat count))).
  { apply Forall_forall. intros i Hi%elem_of_seq. lia. }
  revert r. induction Hin as [|i rest Hi _ IH]; intros r; [by split|]. cbn [fragments_from map].
  pose proof (fragment_opens packet count message (Z.of_nat i) r ltac:(lia) Hc) as Hf.
  destruct (fragment _ _ _ _ _ _ _ r) as [d r1]. simpl in Hf. destruct Hf as [Hf Hs].
  specialize (IH r1). destruct (fragments_from _ _ _ _ _ _ _ r1) as [ds r2]. simpl in *. destruct IH as [-> Hall].
  rewrite Hf. split; [done|]. constructor; [by eexists|done].
Qed.

End sender.

(** The chunks put one after the other are the packet. *)
Lemma chunk_size_le (packet : list Z) count : 0 < count -> count * (zlen packet / count) <= zlen packet.
Proof. intros Hc. apply Z.mul_div_le. done. Qed.

Lemma chunks_before (packet : list Z) count n : 0 < count -> Z.of_nat n < count ->
  concat (map (fun i => chunk_of packet count (Z.of_nat i)) (seq 0 n)) = take (n * Z.to_nat (zlen packet / count)) packet.
Proof.
  intros Hc Hn. pose proof (chunk_size_le packet count Hc) as Hs.
  assert (0 <= zlen packet / count) by (apply Z.div_pos; [apply zlen_nonneg|done]).
  induction n as [|n IH]; [done|]. rewrite seq_S, map_app, concat_app, IH by lia. simpl. rewrite app_nil_r.
  unfold chunk_of. rewrite (proj2 (Z.eqb_neq _ _)) by lia. set (s := zlen packet / count) in *.
  replace (Z.to_nat (Z.of_nat n * s + s - Z.of_nat n * s)) with (Z.to_nat s) by lia.
  replace (Z.to_nat (Z.of_nat n * s)) with (n * Z.to_nat s)%nat by nia.
  rewrite take_take_drop. f_equal. lia.
Qed.

Lemma chunks_whole (packet : list Z) count : 0 < count ->
  concat (map (fun i => chunk_of packet count (Z.of_nat i)) (seq 0 (Z.to_nat count))) = packet.
Proof.
  intros Hc. destruct (Z.to_nat count) as [|n] eqn:Hn; [lia|].
  rewrite seq_S, map_app, concat_app, chunks_before by lia. simpl. rewrite app_nil_r.
  unfold chunk_of. rewrite (proj2 (Z.eqb_eq _ _)) by lia. pose proof (chunk_size_le packet count Hc) as Hs.
  assert (0 <= zlen packet / count) by (apply Z.div_pos; [apply zlen_nonneg|done]). set (s := zlen packet / count) in *.
  replace (Z.to_nat (Z.of_nat n * s)) with (n * Z.to_nat s)%nat by nia.
  rewrite (take_ge (drop _ _)); [apply take_drop|]. rewrite length_drop. unfold zlen in *. nia.
Qed.

(** ** A packet's parts, in any order *)

Section receiver.
Context {Source : Type} `{EqDecision Source}.
Context (hash : list Z -> list Z).
Context (packet : list Z) (count_ message_ : Z) (src : Source) (t0 : Z).
Hypothesis count_ok : MIN_FRAGMENTS <= count_ <= MAX_FRAGMENTS.

Definition part (i : nat) : Frame := mkFrame message_ (Z.of_nat i) count_ (chunk_of packet count_ (Z.of_nat i)).
Definition places : nat := Z.to_nat count_.

(** The places of a packet some of whose parts came. *)
Definition filled (got : list nat) : list (option (list Z)) :=
  map (fun i => if decide (i ∈ got) then Some (chunk (part i)) else None) (seq 0 places).

(** What waits of the packet once [got] came. *)
Definition waits (got : list nat) (pending : list (@Pending Source)) : Prop :=
  if decide (got = [] \/ length got = places) then Gecko.get (src, message_) pending = None
  else exists since, t0 <= since
    /\ Gecko.get (src, message_) pending = Some (mkPending src message_ (filled got) (count_ - Z.of_nat (length got)) since).

(** What the rest of the parts make whole: nothing, until the last. *)
Definition expected (rest : list nat) : list (option (list Z)) :=
  match rest with
  | [] => []
  | _ :: rest => replicate (length rest) None ++ [Some packet]
  end.

Lemma filled_lookup got i : (i < places)%nat -> filled got !! i = Some (if decide (i ∈ got) then Some (chunk (part i)) else None).
Proof.
  intros Hi. unfold filled. change (map ?f ?l) with (f <$> l). rewrite list_lookup_fmap, lookup_seq_lt by done. done.
Qed.

Lemma filled_length got : length (filled got) = places.
Proof. unfold filled. by rewrite length_map, length_seq. Qed.

Lemma filled_nil : filled [] = replicate places None.
Proof.
  apply list_eq. intros i. destruct (decide (i < places)%nat) as [Hi|Hi].
  - rewrite filled_lookup, lookup_replicate_2 by done. by rewrite decide_False by set_solver.
  - rewrite !lookup_ge_None_2; [done|..]; rewrite ?length_replicate, ?filled_length; lia.
Qed.

Lemma filled_insert got i : (i < places)%nat -> <[i := Some (chunk (part i))]> (filled got) = filled (i :: got).
Proof.
  intros Hi. apply list_eq. intros j. destruct (decide (j < places)%nat) as [Hj|Hj].
  - rewrite (filled_lookup (i :: got)) by done. destruct (decide (i = j)) as [->|Hne].
    + rewrite list_lookup_insert_eq by (by rewrite filled_length). rewrite decide_True; [done|left].
    + rewrite list_lookup_insert_ne by done. rewrite filled_lookup by done.
      destruct (decide (j ∈ got)); [rewrite decide_True|rewrite decide_False]; try done; set_solver.
  - rewrite !lookup_ge_None_2; [done|..]; rewrite ?length_insert, filled_length; lia.
Qed.

Lemma filled_all got : got ≡ₚ seq 0 places -> concat (omap id (filled got)) = packet.
Proof.
  intros Hp. rewrite <- (chunks_whole packet count_) at 1 by (unfold MIN_FRAGMENTS in *; lia). f_equal. unfold filled, places.
  assert (Hin : Forall (fun i => i ∈ got) (seq 0 (Z.to_nat count_))).
  { apply Forall_forall. intros i Hi. by rewrite Hp. }
  induction Hin as [|i rest Hi _ IH]; [done|]. simpl. rewrite decide_True by done. simpl. f_equal. exact IH.
Qed.

Lemma expected_cons j rest :
  expected (j :: rest) = match rest with [] => Some packet | _ => None end :: expected rest.
Proof. destruct rest as [|j' rest]; [done|]. simpl. done. Qed.

(** The time is up for none of a packet's parts. *)
Lemma in_time now (p : @Pending Source) : now < t0 + TTL -> t0 <= since p -> fresh now p = true.
Proof. intros Hn Hs. unfold fresh, sat_sub, TTL in *. lia. Qed.

Lemma taken_part got j since_ : (got ++ [j]) ⊆+ seq 0 places ->
  taken (part j) (mkPending (Source := Source) src message_ (filled got) (count_ - Z.of_nat (length got)) since_)
  = if decide (S (length got) = places) then (Some packet, None)
    else (None, Some (mkPending src message_ (filled (j :: got)) (count_ - Z.of_nat (length (j :: got))) since_)).
Proof.
  intros Hsub. assert (Hn : NoDup (got ++ [j])) 
    by (pose proof (NoDup_seq 0 places) as Hs; destruct (submseteq_Permutation _ _ Hsub) as [l Hp];
        rewrite Hp in Hs; by apply NoDup_app in Hs as [? _]).
  assert (Hj : (j ∉ got)) by (apply NoDup_app in Hn as (_ & Hd & _); intros Hin; apply (Hd j Hin); by left).
  assert (Hlt : (j < places)%nat).
  { assert (j ∈ seq 0 places) as Hin%elem_of_seq; [|lia]. eapply elem_of_submseteq; [|exact Hsub]. set_solver. }
  pose proof (submseteq_length _ _ Hsub) as Hlen. rewrite length_app, length_seq in Hlen. simpl in Hlen.
  unfold taken. cbn [chunks count index part missing source p_message since]. rewrite filled_length. unfold places in *.
  rewrite Nat.eqb_refl, Nat2Z.id. cbn [negb]. rewrite filled_lookup, decide_False by done.
  pose proof (filled_insert got j Hlt) as Hins. cbn beta iota zeta. rewrite Hins. destruct (decide (S (length got) = Z.to_nat count_)) as [He|He].
  - rewrite (proj2 (Z.ltb_ge _ _)) by lia. do 2 f_equal. apply filled_all.
    apply submseteq_length_Permutation; [|rewrite length_seq; simpl; unfold places; lia].
    etransitivity; [|exact Hsub]. apply Permutation_submseteq, Permutation_cons_append.
  - rewrite (proj2 (Z.ltb_lt _ _)) by lia. do 3 f_equal. cbn [length]. lia.
Qed.

(** The entry a part of the packet goes to. *)
Lemma entry_of_part now got j pending seen : keys_ok seen pending -> now < t0 + TTL -> t0 <= now ->
  (length got < places)%nat -> waits got pending ->
  exists since_, t0 <= since_ /\ entry_for now src (part j) pending
    = mkPending src message_ (filled got) (count_ - Z.of_nat (length got)) since_.
Proof.
  intros Hok Hnow H0 Hgot Hw. unfold entry_for. change (fun p => sat_sub now (since p) <? TTL) with (fresh (Source := Source) now).
  cbn [message part count]. unfold waits in Hw. destruct (decide _) as [[->|Hc]|Hc]; [|lia|].
  - rewrite get_filter_None by done. exists now. split; [lia|]. f_equal; [|simpl; lia].
    symmetry. apply filled_nil.
  - destruct Hw as (since_ & Hs & Hg). rewrite (get_fresh _ _ _ _ _ Hok Hg) by (by apply in_time). by exists since_.
Qed.

Lemma own_step now got j rest pending seen : keys_ok seen pending -> (src, message_) ∈ seen -> (length seen <= PENDING)%nat ->
  t0 <= now < t0 + TTL -> got ++ j :: rest ≡ₚ seq 0 places -> waits got pending ->
  exists pending', feed now src (part j) pending = Some (match rest with [] => Some packet | _ => None end, pending')
    /\ keys_ok seen pending' /\ waits (j :: got) pending'.
Proof.
  intros Hok Hk Hl Hnow Hp Hw. pose proof (Permutation_length Hp) as Hlen. rewrite length_app, length_seq in Hlen. simpl in Hlen.
  assert (Hsub : got ++ [j] ⊆+ seq 0 places).
  { rewrite <- Hp. apply submseteq_skips_l, submseteq_skip, submseteq_nil_l. }
  destruct (entry_of_part now got j pending seen) as (since_ & Hs & He); [done|lia|lia|lia|done|].
  destruct (feed_spec now src (part j) pending seen) as (pending' & Hf & Hok' & Hg & _); [|done..|].
  { assert (j ∈ seq 0 places) as Hj%elem_of_seq by (rewrite <- Hp; set_solver).
    split; [done|]. cbn [index count part]. unfold places in *. lia. }
  rewrite He, (taken_part got j since_ Hsub) in Hf, Hg. exists pending'. unfold waits.
  destruct (decide (S (length got) = places)) as [Hall|Hall]; cbn [fst snd] in Hf, Hg.
  - destruct rest; [|simpl in Hlen; lia]. split; [done|]. split; [done|]. rewrite decide_True by (right; simpl; lia). exact Hg.
  - destruct rest as [|j' rest]; [simpl in Hlen; lia|]. split; [done|]. split; [done|].
    rewrite decide_False by (intros [?|?]; [done|simpl in *; lia]). by exists since_.
Qed.

(** What is no part of the packet leaves it alone. *)
Lemma waits_filter now got pending seen : keys_ok seen pending -> now < t0 + TTL -> waits got pending ->
  waits got (List.filter (fresh now) pending).
Proof.
  intros Hok Hnow. unfold waits. destruct (decide _); [by apply get_filter_None|].
  intros (since_ & Hs & Hg). exists since_. split; [done|]. eapply get_fresh; [done..|]. by apply in_time.
Qed.

Lemma parse_frame_ok bytes f : parse bytes = Some f -> frame_ok f.
Proof.
  unfold parse. destruct bytes as [|h0 [|h1 [|h2 [|h3 [|h4 bytes]]]]]; try done.
  destruct (_ || _ || _) eqn:Hc; [done|]. intros (c & _ & [= <-])%bind_Some. unfold frame_ok. simpl. lia.
Qed.

Lemma other_step a got pending seen : keys_ok seen pending -> (length seen <= PENDING)%nat ->
  a.1.1 < t0 + TTL -> (forall k, part_of hash a = Some k -> k ∈ seen) -> part_of hash a <> Some (src, message_) -> waits got pending ->
  exists out pending', receive hash true a.1.1 a.1.2 a.2 pending = Some (out, pending') /\ keys_ok seen pending' /\ waits got pending'.
Proof.
  destruct a as [[now s] d]. unfold part_of, frame_of, receive. simpl. intros Hok Hl Hnow Hk Hne Hw.
  destruct (open hash d) as [p|]; [|by eexists _, _]. simpl in Hk, Hne. destruct (is_long_header p); [|by eexists _, _].
  destruct (parse p) as [f|] eqn:Hf; [|by eexists _, _]. simpl in *.
  destruct (feed_spec now s f pending seen) as (pending' & -> & Hok' & _ & Hs); [by eapply parse_frame_ok|done|by apply Hk|done|].
  eexists _, _. split; [done|]. split; [done|]. unfold waits. rewrite Hs by congruence. by eapply waits_filter.
Qed.

(** The frame that a datagram of the packet is taken for. *)
Lemma receive_part (a : Arrival (Source := Source)) j pending : frame_of hash a.2 = Some (part j) ->
  receive hash true a.1.1 a.1.2 a.2 pending = feed a.1.1 a.1.2 (part j) pending.
Proof.
  unfold frame_of, receive. destruct (open hash a.2) as [p|]; [|done]. simpl. destruct (is_long_header p); [|done]. by intros ->.
Qed.

(** Any arrivals: the parts of the packet that are yet to come, and others. *)
Lemma receives_parts (arrivals : list (Arrival (Source := Source))) seen : (src, message_) ∈ seen -> (length seen <= PENDING)%nat ->
  Forall (fun a => t0 <= a.1.1 < t0 + TTL /\ forall k, part_of hash a = Some k -> k ∈ seen) arrivals ->
  forall got rest pending, keys_ok seen pending -> got ++ rest ≡ₚ seq 0 places -> waits got pending ->
  map (fun a => frame_of hash a.2) (own hash (src, message_) arrivals) = map (fun i => Some (part i)) rest ->
  exists outs pending', receives hash true arrivals pending = Some (outs, pending')
    /\ own_outs hash (src, message_) arrivals outs = expected rest /\ waits (reverse rest ++ got) pending'.
Proof.
  intros Hk Hl. induction 1 as [|a arrivals [Ht Hseen] _ IH]; intros got rest pending Hok Hp Hw Hown.
  { destruct rest; [|done]. by exists [], pending. }
  unfold own in Hown. rewrite filter_cons in Hown. destruct (decide (part_of hash a = Some (src, message_))) as [Ha|Ha].
  - destruct rest as [|j rest]; [done|]. injection Hown as Hj Hown.
    assert (Hsrc : a.1.2 = src) by (unfold part_of in Ha; rewrite Hj in Ha; simpl in Ha; congruence).
    destruct (own_step a.1.1 got j rest pending seen) as (pending1 & Hf & Hok1 & Hw1); [done..|].
    destruct (IH (j :: got) rest pending1) as (outs & pending' & Hr & Ho & Hw'); [done| |done|done|].
    { rewrite <- Hp. simpl. apply Permutation_middle. }
    pose proof (receive_part a j pending Hj) as Hrec. rewrite Hsrc in Hrec. rewrite Hf in Hrec.
    destruct a as [[now s] d]. simpl in *. subst s. exists (match rest with [] => Some packet | _ => None end :: outs), pending'.
    rewrite Hrec. simpl. rewrite Hr. split; [done|]. split.
    + unfold own_outs. simpl. rewrite filter_cons, decide_True by done. rewrite fmap_cons. fold (own_outs hash (src, message_) arrivals outs).
      rewrite Ho. symmetry. apply (expected_cons j).
    + rewrite reverse_cons, <- app_assoc. done.
  - destruct (other_step a got pending seen) as (out & pending1 & Hrec & Hok1 & Hw1); [done|done|lia|done|done|done|].
    destruct (IH got rest pending1) as (outs & pending' & Hr & Ho & Hw'); [done..|].
    destruct a as [[now s] d]. simpl in *. exists (out :: outs), pending'. rewrite Hrec. simpl. rewrite Hr. split; [done|].
    split; [|done]. unfold own_outs. simpl. by rewrite filter_cons, decide_False.
Qed.

End receiver.

(** ** Sent and received *)

Lemma send_fragments_log n datagrams w : send_fragments log n datagrams w = (false, w ++ datagrams).
Proof.
  revert n w. induction datagrams as [|d datagrams IH]; intros n w; simpl; [by rewrite app_nil_r|].
  by rewrite IH, <- app_assoc.
Qed.

Section sent.
Context {R Source : Type} `{EqDecision Source}.
Context (hash : list Z -> list Z) (fill : list Z -> R -> list Z * R) (random_u32 : R -> option Z * R).
Hypothesis fill_length : forall buf r, length (fill buf r).1 = length buf.

(** The datagrams a packet goes in, through a socket that takes them. *)
Definition sent (messages : option Z) (packet : list Z) (r : R) : list (list Z) :=
  (try_send hash fill random_u32 log messages packet [] r).1.2.

(** A packet that goes whole comes whole, at once. *)
Lemma whole_packet_arrives messages packet r now (src : Source) pending : packet <> [] ->
  messages = None \/ is_long_header packet = false ->
  exists datagram, sent messages packet r = [datagram]
    /\ receive hash (bool_decide (is_Some messages)) now src datagram pending = Some (Some packet, pending).
Proof.
  intros Hp Hm. unfold sent, try_send.
  assert (Hopen : forall salt, length salt = SALT -> open hash (seal_with hash salt (replicate SALT 0 ++ packet)) = Some packet)
    by (intros salt Hs; by apply open_seal).
  assert (Hw : negb (bool_decide (is_Some messages)) || negb (is_long_header packet) = true).
  { destruct Hm as [-> | ->]; [done|by rewrite orb_true_r]. }
  pose proof (fill_length (replicate SALT 0) r) as Hs. unfold seal. destruct (fill (replicate SALT 0) r) as [salt r'] eqn:Hf.
  cbn [fst] in Hs. rewrite length_replicate in Hs.
  exists (seal_with hash salt (replicate SALT 0 ++ packet)). split.
  - destruct Hm as [-> | ->]; [done|]. by destruct messages.
  - unfold receive. rewrite Hopen by done. by rewrite Hw.
Qed.

(** C14: Every long-header packet goes in 2 to 8 datagrams of 512 to 1200 bytes
    (more only where a chunk leaves no room for padding), whatever the random
    numbers; and in whatever order they come, mixed with any other datagrams,
    as long as parts of no more than eight packets come and all of them within
    the eight seconds, each of the first makes nothing whole and the last
    makes whole exactly the packet, once. *)
Theorem fragmented_packet_arrives message packet r (src : Source) t0 seen pending (arrivals : list Arrival) :
  is_long_header packet = true ->
  keys_ok seen pending -> Gecko.get (src, message) pending = None -> (length seen <= PENDING)%nat ->
  Forall (fun a => t0 <= a.1.1 < t0 + TTL /\ forall k, part_of hash a = Some k -> k ∈ seen) arrivals ->
  map snd (own hash (src, message) arrivals) ≡ₚ sent (Some message) packet r ->
  (2 <= length (sent (Some message) packet r) <= 8)%nat
  /\ Forall (fun d => exists i, size_ok (chunk_of packet (Z.of_nat (length (sent (Some message) packet r))) i) d) (sent (Some message) packet r)
  /\ exists outs pending', receives hash true arrivals pending = Some (outs, pending')
      /\ own_outs hash (src, message) arrivals outs = replicate (length (sent (Some message) packet r) - 1) None ++ [Some packet]
      /\ Gecko.get (src, message) pending' = None.
Proof.
  intros Hlong Hok Hg Hl Harr Hperm. unfold sent, try_send in *. rewrite Hlong in *.
  pose proof (fragment_count_range random_u32 r) as Hc. destruct (fragment_count random_u32 r) as [count r1]. simpl in Hc.
  pose proof (fragments_open hash fill random_u32 fill_length packet count message r1 Hc) as Hf.
  destruct (fragments hash fill random_u32 packet count message r1) as [ds r2]. simpl in Hf. destruct Hf as [Hf Hsizes].
  rewrite send_fragments_log in *. cbn [fst snd app] in *.
  assert (Hlen : length ds = Z.to_nat count) by (rewrite <- (length_map (frame_of hash)), Hf; by rewrite length_map, length_seq).
  rewrite Hlen, Z2Nat.id by (unfold MIN_FRAGMENTS in Hc; lia). unfold MIN_FRAGMENTS, MAX_FRAGMENTS in Hc. split; [lia|]. split; [done|].
  apply (Permutation_map (frame_of hash)) in Hperm. rewrite Hf, map_map in Hperm.
  apply Permutation_map_inv in Hperm as (rest & Hown & Hrest).
  assert (Hn : length rest = Z.to_nat count) by (rewrite <- (Permutation_length Hrest); apply length_seq).
  destruct (own hash (src, message) arrivals) as [|a own_] eqn:Howns; [destruct rest; [simpl in Hn; lia|done]|].
  assert (Ha : a ∈ own hash (src, message) arrivals) by (rewrite Howns; left). unfold own in Ha. apply list_elem_of_filter in Ha as [Hkey Ha].
  assert (Hk : (src, message) ∈ seen) by (rewrite Forall_forall in Harr; by apply (Harr a Ha)).
  destruct (receives_parts hash packet count message src t0 Hc arrivals seen Hk Hl Harr [] rest pending Hok) as (outs & pending' & Hr & Ho & Hw).
  - by rewrite <- Hrest.
  - unfold waits. by rewrite decide_True by (by left).
  - rewrite Howns. exact Hown.
  - exists outs, pending'. split; [done|]. split.
    + rewrite Ho. destruct rest as [|j rest]; [simpl in Hn; lia|]. simpl in Hn |- *. by replace (Z.to_nat count - 1)%nat with (length rest) by lia.
    + unfold waits in Hw. rewrite decide_True in Hw; [done|]. right. unfold places. by rewrite app_nil_r, length_reverse.
Qed.

End sent.

(** Two parts, the second first, and a datagram that is no frame between. *)
Definition sample_hash (salt : list Z) : list Z := map (fun i => Z.of_nat i * 7 + hd 0 salt) (seq 0 32).
Definition sample_fill (buf : list Z) (r : Z) : list Z * Z := (map (fun i => (r + Z.of_nat i) mod 256) (seq 0 (length buf)), r + 1).
Definition sample_random (r : Z) : option Z * Z := (Some r, r + 1).
Definition sample_packet : list Z := [195; 1; 2; 3; 4; 5; 6].
Definition sample_sent : list (list Z) := sent sample_hash sample_fill sample_random (Some 9) sample_packet 14.
Definition sample_arrivals : list (Arrival (Source := Z)) :=
  match sample_sent with
  | [a; b] => [(5, 1, b); (6, 1, [0; 0; 0; 0; 0; 0; 0; 0; 1]); (7, 1, a)]
  | _ => []
  end.

Lemma fragmented_packet_arrives_witness :
  exists outs pending', receives sample_hash true sample_arrivals [] = Some (outs, pending')
    /\ own_outs sample_hash (1, 9) sample_arrivals outs = [None; Some sample_packet] /\ Gecko.get (1, 9) pending' = None.
Proof.
  apply (fragmented_packet_arrives (R := Z) (Source := Z) sample_hash sample_fill sample_random
    ltac:(intros buf r; simpl; by rewrite length_map, length_seq) 9 sample_packet 14 1 0 [(1, 9)] [] sample_arrivals).
  - reflexivity.
  - split; [constructor|]. intros p Hp. inversion Hp.
  - reflexivity.
  - unfold PENDING. simpl. lia.
  - assert (forallb (fun a => (a.1.1 <? 10) && (0 <=? a.1.1) && match part_of sample_hash a with Some k => bool_decide (k = (1, 9)) | None => true end)
      sample_arrivals = true) as Hall by (vm_compute; reflexivity).
    apply Forall_forall. intros a Ha%list_elem_of_In. rewrite forallb_forall in Hall. specialize (Hall a Ha).
    apply andb_prop in Hall as [Ht Hk]. unfold TTL. split; [lia|]. intros k Hp. rewrite Hp in Hk.
    apply bool_decide_eq_true in Hk as ->. left.
  - assert (map snd (own sample_hash (1, 9) sample_arrivals) = reverse sample_sent) as -> by (vm_compute; reflexivity).
    apply reverse_Permutation.
Defined.
