(* ===== verification/IpIndex.v ===== *)
(** * The index of IP networks

    [crates/rurge-rules/src/ip_index.rs]: two prefix tries, one per family.
    The networks ([ipnet]) and the trie ([prefix_trie]) are not part of the
    repository: what the index uses of them is the class [Nets], with what
    they document in [NetLaws]; [pair_nets] is an implementation to evaluate
    with. *)

From S2P Require Import Prelude FakeIpAddr.

(** ** The two crates *)

(** Networks of one family, and a map from networks to numbers.  An address
    is its bits. *)
Class Nets := {
  Net : Type;
  contains : Net -> Z -> bool;
  trunc : Net -> Net;
  prefix_len : Net -> Z;
  host_net : Z -> Net;
  NetMap : Type;
  nm_empty : NetMap;
  nm_get : NetMap -> Net -> option Z;
  nm_insert : NetMap -> Net -> Z -> option Z * NetMap;
  nm_get_lpm : NetMap -> Net -> option (Net * Z);
}.

Class NetLaws `{Nets} := {
  Net_eq_dec :: EqDecision Net;
  trunc_contains n ip : contains (trunc n) ip = contains n ip;
  nm_get_empty n : nm_get nm_empty n = None;
  nm_insert_old m n e : (nm_insert m n e).1 = nm_get m n;
  nm_get_insert m n e n' : nm_get (nm_insert m n e).2 n' = if decide (n = n') then Some e else nm_get m n';
  (** [get_lpm] of a host's network: the longest network in the map that
      contains the host. *)
  nm_lpm_some m ip n e : nm_get_lpm m (host_net ip) = Some (n, e) ->
    nm_get m n = Some e /\ contains n ip = true
    /\ forall n' e', nm_get m n' = Some e' -> contains n' ip = true -> prefix_len n' <= prefix_len n;
  nm_lpm_none m ip : nm_get_lpm m (host_net ip) = None ->
    forall n e, nm_get m n = Some e -> contains n ip = false;
}.

(** ** The index *)

Section index.
Context {N4 N6 : Nets}.

Record IpIndex := mkIpIndex { v4 : @NetMap N4; v6 : @NetMap N6; len : Z }.

Definition empty : IpIndex := mkIpIndex nm_empty nm_empty 0.

(** The body that [add_v4] and [add_v6] share: the map and the length. *)
Definition add_net {N : Nets} (net : Net) (entry : Z) (m : NetMap) (len : Z) : NetMap * Z :=
  let net := trunc net in
  let insert :=
    let '(old, m) := nm_insert m net entry in
    (m, match old with None => len + 1 | Some _ => len end) in
  match nm_get m net with
  | Some existing => if existing <=? entry then (m, len) else insert
  | None => insert
  end.

Definition add_v4 (net : @Net N4) (entry : Z) (x : IpIndex) : IpIndex :=
  let '(m, l) := add_net net entry (v4 x) (len x) in mkIpIndex m (v6 x) l.

Definition add_v6 (net : @Net N6) (entry : Z) (x : IpIndex) : IpIndex :=
  let '(m, l) := add_net net entry (v6 x) (len x) in mkIpIndex (v4 x) m l.

Definition is_empty (x : IpIndex) : bool := len x =? 0.

Definition lookup_v4 (x : IpIndex) (ip : Z) : option Z := snd <$> nm_get_lpm (v4 x) (host_net ip).
Definition lookup_v6 (x : IpIndex) (ip : Z) : option Z := snd <$> nm_get_lpm (v6 x) (host_net ip).

Definition lookup (x : IpIndex) (ip : IpAddr) : option Z :=
  match ip with
  | V4 ip => lookup_v4 x ip
  | V6 ip => lookup_v6 x ip
  end.

End index.
Arguments IpIndex N4 N6 : clear implicits.

(** ** What is found *)

(** The map of one family after networks were added: for each of them, the
    smallest of its entries. *)
Definition holds `{Nets} (nets : list (Net * Z)) (m : NetMap) : Prop :=
  (forall n e, nm_get m n = Some e ->
     (exists net, (net, e) ∈ nets /\ trunc net = n) /\ forall net e', (net, e') ∈ nets -> trunc net = n -> e <= e')
  /\ forall net e, (net, e) ∈ nets -> is_Some (nm_get m (trunc net)).

Lemma holds_empty `{NetLaws} : holds [] nm_empty.
Proof. split; [intros n e; by rewrite nm_get_empty|by intros ? ? ?%elem_of_nil]. Qed.

Lemma holds_kept `{NetLaws} nets m net e old : holds nets m -> nm_get m (trunc net) = Some old -> old <= e ->
  holds (nets ++ [(net, e)]) m.
Proof.
  intros [Hs Hc] Ho Hle. split.
  - intros n e0 Hn. destruct (Hs n e0 Hn) as [(net0 & Hin & Ht) Hmin]. split.
    + exists net0. split; [apply elem_of_app; by left|done].
    + intros net1 e1 [Hin1|[= -> ->]%list_elem_of_singleton]%elem_of_app Ht1; [by eapply Hmin|].
      assert (e0 = old) by congruence. lia.
  - intros net1 e1 [Hin1|[= -> ->]%list_elem_of_singleton]%elem_of_app; [by eapply Hc|by rewrite Ho].
Qed.

Lemma holds_inserted `{NetLaws} nets m net e : holds nets m -> (forall old, nm_get m (trunc net) = Some old -> e <= old) ->
  holds (nets ++ [(net, e)]) (nm_insert m (trunc net) e).2.
Proof.
  intros [Hs Hc] Ho. split.
  - intros n e0. rewrite nm_get_insert. case_decide as Hn.
    + intros [= <-]. split; [exists net; split; [apply elem_of_app; right; left|done]|].
      intros net1 e1 [Hin1|[= -> ->]%list_elem_of_singleton]%elem_of_app Ht1; [|lia].
      destruct (Hc net1 e1 Hin1) as [old Hold]. rewrite Ht1, <- Hn in Hold.
      destruct (Hs _ _ Hold) as [_ Hmin]. specialize (Hmin net1 e1 Hin1 ltac:(congruence)). specialize (Ho _ Hold). lia.
    + intros Hg. destruct (Hs n e0 Hg) as [(net0 & Hin & Ht) Hmin]. split.
      * exists net0. split; [apply elem_of_app; by left|done].
      * intros net1 e1 [Hin1|[= -> ->]%list_elem_of_singleton]%elem_of_app Ht1; [by eapply Hmin|done].
  - intros net1 e1 [Hin1|[= -> ->]%list_elem_of_singleton]%elem_of_app; rewrite nm_get_insert; case_decide as Hn; try done.
    by eapply Hc.
Qed.

Lemma holds_has `{L : NetLaws} nets m n e : holds nets m -> nm_get m n = Some e -> nets <> [].
Proof. intros [Hs _] Hg ->. destruct (Hs _ _ Hg) as [(net & Hin & _) _]. by apply elem_of_nil in Hin. Qed.

Lemma add_net_holds `{L : NetLaws} nets m net e l : holds nets m ->
  holds (nets ++ [(net, e)]) (add_net net e m l).1
  /\ ((add_net net e m l).2 = l /\ nets <> [] \/ (add_net net e m l).2 = l + 1).
Proof.
  intros Hm. unfold add_net. pose proof (nm_insert_old m (trunc net) e) as Hold.
  pose proof (holds_inserted nets m net e Hm) as Hi. destruct (nm_insert m (trunc net) e) as [o m']. simpl in Hold, Hi. subst o.
  destruct (nm_get m (trunc net)) as [old|] eqn:Hg; [destruct (Z.leb_spec old e)|]; simpl.
  - split; [by eapply holds_kept|]. left. split; [done|by eapply holds_has].
  - split; [apply Hi; intros ? [= <-]; lia|]. left. split; [done|by eapply holds_has].
  - split; [by apply Hi|by right].
Qed.

Section built.
Context {N4 N6 : Nets} `{!@NetLaws N4, !@NetLaws N6}.

(** The networks of an index, and whether it has any. *)
Definition index_holds (nets4 : list (@Net N4 * Z)) (nets6 : list (@Net N6 * Z)) (x : IpIndex N4 N6) : Prop :=
  holds nets4 (v4 x) /\ holds nets6 (v6 x) /\ 0 <= len x /\ (len x = 0 <-> nets4 = [] /\ nets6 = []).

Lemma index_holds_empty : index_holds [] [] empty.
Proof. split; [apply holds_empty|]. split; [apply holds_empty|]. simpl. split; [lia|done]. Qed.

Lemma snoc_not_nil {A} (l : list A) x : l ++ [x] <> [].
Proof. by destruct l. Qed.

Lemma add_v4_holds nets4 nets6 x net e : index_holds nets4 nets6 x ->
  index_holds (nets4 ++ [(net, e)]) nets6 (add_v4 net e x).
Proof.
  intros (H4 & H6 & Hl & Hz). unfold add_v4. destruct (add_net_holds nets4 (v4 x) net e (len x) H4) as [Hh Hlen].
  destruct (add_net net e (v4 x) (len x)) as [m l]. simpl in *. split; [done|]. split; [done|].
  cbn [len]. split; [destruct Hlen as [[-> _]| ->]; lia|]. split; [|by intros [?%snoc_not_nil _]]. intros Hl0. destruct Hlen as [[Heq Hne]|]; [|lia].
  exfalso. apply Hne, Hz. lia.
Qed.

Lemma add_v6_holds nets4 nets6 x net e : index_holds nets4 nets6 x ->
  index_holds nets4 (nets6 ++ [(net, e)]) (add_v6 net e x).
Proof.
  intros (H4 & H6 & Hl & Hz). unfold add_v6. destruct (add_net_holds nets6 (v6 x) net e (len x) H6) as [Hh Hlen].
  destruct (add_net net e (v6 x) (len x)) as [m l]. simpl in *. split; [done|]. split; [done|].
  cbn [len]. split; [destruct Hlen as [[-> _]| ->]; lia|]. split; [|by intros [_ ?%snoc_not_nil]]. intros Hl0. destruct Hlen as [[Heq Hne]|]; [|lia].
  exfalso. apply Hne, Hz. lia.
Qed.

End built.

(** A look-up finds the smallest entry of the longest network around the
    address, and nothing when no network contains it. *)
Lemma lookup_map `{L : NetLaws} nets m ip : holds nets m ->
  match snd <$> nm_get_lpm m (host_net ip) with
  | Some e => exists net, (net, e) ∈ nets /\ contains net ip = true
      /\ (forall net' e', (net', e') ∈ nets -> contains net' ip = true -> prefix_len (trunc net') <= prefix_len (trunc net))
      /\ (forall net' e', (net', e') ∈ nets -> trunc net' = trunc net -> e <= e')
  | None => forall net e, (net, e) ∈ nets -> contains net ip = false
  end.
Proof.
  intros [Hs Hc]. destruct (nm_get_lpm m (host_net ip)) as [[n e]|] eqn:Hl; simpl.
  - apply nm_lpm_some in Hl as (Hg & Hn & Hmax). destruct (Hs _ _ Hg) as [(net & Hin & Ht) Hmin].
    exists net. split; [done|]. split; [by rewrite <- trunc_contains, Ht|]. split.
    + intros net' e' Hin' Hc'. destruct (Hc net' e' Hin') as [e0 Hg']. rewrite Ht. eapply Hmax; [exact Hg'|]. by rewrite trunc_contains.
    + intros net' e' Hin' Ht'. eapply Hmin; [done|congruence].
  - intros net e Hin. destruct (Hc net e Hin) as [e0 Hg]. rewrite <- trunc_contains. by eapply nm_lpm_none.
Qed.

(** ** An implementation to evaluate with

    Networks of [w] bits as an address and a length, the map as a list. *)

Section pairs.
Context (w : Z).

Definition low (n : Z * Z) : Z := Z.max 0 (w - n.2).
Definition pair_contains (n : Z * Z) (ip : Z) : bool := Z.shiftr ip (low n) =? Z.shiftr n.1 (low n).
Definition pair_trunc (n : Z * Z) : Z * Z := (Z.shiftl (Z.shiftr n.1 (low n)) (low n), n.2).

(** The longest of the networks around an address. *)
Fixpoint longest_around (nets : list (Z * Z * Z)) (ip : Z) : option (Z * Z * Z) :=
  match nets with
  | [] => None
  | (n, e) :: nets =>
      if pair_contains n ip then
        match longest_around nets ip with
        | Some (n', e') => if n.2 <? n'.2 then Some (n', e') else Some (n, e)
        | None => Some (n, e)
        end
      else longest_around nets ip
  end.

Lemma longest_around_spec nets ip :
  match longest_around nets ip with
  | Some (n, e) => (n, e) ∈ nets /\ pair_contains n ip = true
      /\ forall n' e', (n', e') ∈ nets -> pair_contains n' ip = true -> n'.2 <= n.2
  | None => forall n e, (n, e) ∈ nets -> pair_contains n ip = false
  end.
Proof.
  induction nets as [|[n e] nets IH]; simpl; [by intros n e ?%elem_of_nil|].
  destruct (pair_contains n ip) eqn:Hn; destruct (longest_around nets ip) as [[n0 e0]|].
  - destruct IH as (Hin & Hc & Hmax). destruct (Z.ltb_spec n.2 n0.2); (split; [by constructor|split; [done|]]).
    + intros n' e' [[= -> ->]|Hn']%elem_of_cons Hc'; [lia|by eapply Hmax].
    + intros n' e' [[= -> ->]|Hn']%elem_of_cons Hc'; [lia|]. specialize (Hmax n' e' Hn' Hc'). lia.
  - split; [left|]. split; [done|]. intros n' e' [[= -> ->]|Hn']%elem_of_cons Hc'; [lia|]. by rewrite (IH n' e' Hn') in Hc'.
  - destruct IH as (Hin & Hc & Hmax). split; [by right|]. split; [done|].
    intros n' e' [[= -> ->]|Hn']%elem_of_cons Hc'; [congruence|by eapply Hmax].
  - intros n' e' [[= -> ->]|Hn']%elem_of_cons; [done|by eapply IH].
Qed.

Definition pair_nets : Nets := {|
  Net := Z * Z;
  contains := pair_contains;
  trunc := pair_trunc;
  prefix_len := snd;
  host_net ip := (ip, w);
  NetMap := gmap (Z * Z) Z;
  nm_empty := ∅;
  nm_get m n := m !! n;
  nm_insert m n e := (m !! n, <[n := e]> m);
  nm_get_lpm m h := longest_around (map_to_list m) h.1;
|}.

#[export] Instance pair_nets_laws : @NetLaws pair_nets.
Proof.
  refine (@Build_NetLaws pair_nets (prod_eq_dec (A := Z) (B := Z)) _ _ _ _ _ _); simpl.
  - intros [a l] ip. unfold pair_contains, pair_trunc, low. simpl.
    by rewrite Z.shiftr_shiftl_l, Z.sub_diag, Z.shiftl_0_r by lia.
  - intros n. apply lookup_empty.
  - done.
  - intros m n e n'. rewrite lookup_insert. by case_decide.
  - intros m ip n e Hl. pose proof (longest_around_spec (map_to_list m) ip) as Hs. rewrite Hl in Hs.
    destruct Hs as (Hin%elem_of_map_to_list & Hc & Hmax). split; [done|]. split; [done|].
    intros n' e' Hn'. by apply (Hmax n' e'), elem_of_map_to_list.
  - intros m ip Hl n e Hn. pose proof (longest_around_spec (map_to_list m) ip) as Hs. rewrite Hl in Hs.
    by apply (Hs n e), elem_of_map_to_list.
Qed.

End pairs.
