(* ===== verification/RuleMatcher.v ===== *)
(** * Matching one rule

    [crates/rurge-rules/src/matcher.rs], with the session it looks at
    ([rurge-config/src/session.rs]), port and subnet expressions
    ([rule.rs], [policy.rs]) and the evaluation of a compiled set
    ([rurge-rules/src/set.rs]).  The regular expressions, the IP networks, the
    parser of IP addresses and the databases are parameters.  A set is looked
    at through its handle: [sets] is what the handles hold while a rule is
    evaluated. *)

From S2P Require Import Prelude FakeIpAddr DomainIndex Glob IpIndex.

(** ** What a rule looks at *)

Inductive Transport := Tcp | Udp.

Inductive HostnameType := IPv4 | IPv6 | DomainType | Simple.

Inductive ProtocolKind :=
  PHttp | PHttps | PTcp | PUdp | PQuic | PStun | PMtProto | PDoh | PDoh3 | PDoq | PDot | PDns.

Inductive HostName := DomainName (d : rstr) | IpLiteral (ip : IpAddr).

#[export] Instance HostnameType_eq_dec : EqDecision HostnameType.
Proof. solve_decision. Defined.
#[export] Instance ProtocolKind_eq_dec : EqDecision ProtocolKind.
Proof. solve_decision. Defined.

Record ProcessInfo := mkProcess { pid : option Z; p_name : rstr; path : option rstr }.

(** [local], [listener] and [device], which no rule looks at, are left out. *)
Record SessionInfo := mkSession {
  src_ip : IpAddr;
  src_port : Z;
  in_port : Z;
  dst_host : HostName;
  dst_port : Z;
  transport : Transport;
  protocol : option ProtocolKind;
  sni : option rstr;
  http_host : option rstr;
  user_agent : option rstr;
  url : option rstr;
  process : option ProcessInfo;
}.

Definition as_domain (h : HostName) : option rstr := match h with DomainName d => Some d | IpLiteral _ => None end.
Definition as_ip (h : HostName) : option IpAddr := match h with DomainName _ => None | IpLiteral ip => Some ip end.

Definition hostname_type (s : SessionInfo) : HostnameType :=
  match dst_host s with
  | IpLiteral (V4 _) => IPv4
  | IpLiteral (V6 _) => IPv6
  | DomainName d => if negb (existsb (fun c => c =? 46) d) then Simple else DomainType
  end.

Inductive PortExpr := Single (p : Z) | Range (a b : Z) | Gt (p : Z) | Lt (p : Z) | Ge (p : Z) | Le (p : Z).

Definition port_matches (e : PortExpr) (port : Z) : bool :=
  match e with
  | Single p => port =? p
  | Range a b => (a <=? port) && (port <=? b)
  | Gt p => p <? port
  | Lt p => port <? p
  | Ge p => p <=? port
  | Le p => port <=? p
  end.

(** [Glob::matches], which always ends. *)
Definition glob_matches (g : Glob) (s : rstr) : bool := default false (Glob.matches g s).

(** ** The network of the machine *)

Inductive NetKind := KWifi | KWired | KOther.
Inductive NetType := NWifi | NWired | NCellular.
#[export] Instance NetKind_eq_dec : EqDecision NetKind.
Proof. solve_decision. Defined.

Record Primary := mkPrimary { interface : rstr; net_kind : NetKind; routers : list IpAddr }.
Record WifiLink := mkWifi { w_interface : rstr; ssid : option rstr; bssid : option rstr }.
Record NetworkFacts := mkFacts { primary : option Primary; wifi : option WifiLink }.

Inductive SubnetExpr :=
| Ssid (g : Glob) | Bssid (g : Glob) | Router (ip : IpAddr) | NetworkType (t : NetType)
| Mccmnc (t : rstr) | Bare (t : rstr).

Definition SSID_GLOB : GlobOptions := mkGlobOptions false false.

Definition is_some_and {A} (o : option A) (p : A -> bool) : bool := match o with Some x => p x | None => false end.

(** [SubnetExpr::matches]; [parse_ip] is [str::parse::<IpAddr>]. *)
Definition subnet_matches (parse_ip : rstr -> option IpAddr) (e : SubnetExpr) (facts : NetworkFacts) (wifi_always_match : bool) : bool :=
  let wifi :=
    match wifi facts with
    | Some link =>
        if wifi_always_match || is_some_and (primary facts) (fun p => bool_decide (interface p = w_interface link)) then Some link else None
    | None => None
    end in
  let ssid := link ← wifi; ssid link in
  let bssid := link ← wifi; bssid link in
  let routers := match primary facts with Some p => routers p | None => [] end in
  match e with
  | Ssid glob => is_some_and ssid (glob_matches glob)
  | Bssid glob => is_some_and bssid (glob_matches glob)
  | Router ip => bool_decide (ip ∈ routers)
  | NetworkType NWifi => is_some_and (primary facts) (fun p => bool_decide (net_kind p = KWifi))
  | NetworkType NWired => is_some_and (primary facts) (fun p => bool_decide (net_kind p = KWired))
  | NetworkType NCellular | Mccmnc _ => false
  | Bare text =>
      if existsb (fun c => (c =? 42) || (c =? 63)) text then
        is_some_and ssid (fun ssid => match Glob.new text SSID_GLOB with Ok glob => glob_matches glob ssid | Err _ => false end)
      else
        bool_decide (ssid = Some text)
        || is_some_and bssid (fun bssid => bool_decide (to_ascii_lowercase bssid = to_ascii_lowercase text))
        || is_some_and (parse_ip text) (fun ip => bool_decide (ip ∈ routers))
  end.

(** ** Verdicts *)

Inductive Verdict := Match | NoMatch | NeedsResolve | NeedsProcess | NeedsConnection.

#[export] Instance Verdict_eq_dec : EqDecision Verdict.
Proof. solve_decision. Defined.

(** [Verdict::from]. *)
Definition from_bool (b : bool) : Verdict := if b then Match else NoMatch.

Definition still_needs (connection process resolve : bool) : option Verdict :=
  if connection then Some NeedsConnection
  else if process then Some NeedsProcess
  else if resolve then Some NeedsResolve
  else None.

Record ResolvedAddrs := mkResolved { r_v4 : list Z; r_v6 : list Z }.

Inductive GeoResult (T : Type) := NotLoaded | Unknown | Known (t : T).
Arguments NotLoaded {T}.
Arguments Unknown {T}.
Arguments Known {T} t.

#[export] Instance GeoResult_eq_dec {T} `{EqDecision T} : EqDecision (GeoResult T).
Proof. solve_decision. Defined.

Record SubRuleHit := mkHit { set : rstr; hit_entry : rstr }.

Inductive ProcessState := NotAsked | Asked (found : option ProcessInfo).

(** What is not part of the repository: the country and the AS number of an
    address, regular expressions ([None]: an error while matching), networks,
    the parser of addresses; and whether the host is Windows. *)
Class Deps := {
  Nets4 :: Nets;
  Nets6 :: Nets;
  Regex : Type;
  is_match : Regex -> rstr -> option bool;
  parse_ip : rstr -> option IpAddr;
  windows : bool;
}.

(** The [&dyn GeoLookup] of an evaluation. *)
Record GeoLookup := mkGeo { geo_country : IpAddr -> GeoResult (Z * Z); geo_asn : IpAddr -> GeoResult Z }.

(** The state of one evaluation.  [set_depth] is not here: [eval] is given how
    many levels of sets are left. *)
Record EvalCtx := mkCtx {
  resolved : option ResolvedAddrs;
  asked : ProcessState;
  notes : list rstr;
  sub_hit : option SubRuleHit;
  before_connection : bool;
  country_cache : option (IpAddr * GeoResult (Z * Z));
  asn_cache : option (IpAddr * GeoResult Z);
}.

(** [EvalCtx::new]. *)
Definition new_ctx : EvalCtx := mkCtx None NotAsked [] None false None None.

Definition set_resolved (r : option ResolvedAddrs) (c : EvalCtx) : EvalCtx :=
  mkCtx r (asked c) (notes c) (sub_hit c) (before_connection c) (country_cache c) (asn_cache c).
Definition set_asked (p : ProcessState) (c : EvalCtx) : EvalCtx :=
  mkCtx (resolved c) p (notes c) (sub_hit c) (before_connection c) (country_cache c) (asn_cache c).
Definition set_notes (n : list rstr) (c : EvalCtx) : EvalCtx :=
  mkCtx (resolved c) (asked c) n (sub_hit c) (before_connection c) (country_cache c) (asn_cache c).
Definition set_hit (h : option SubRuleHit) (c : EvalCtx) : EvalCtx :=
  mkCtx (resolved c) (asked c) (notes c) h (before_connection c) (country_cache c) (asn_cache c).
Definition set_before (b : bool) (c : EvalCtx) : EvalCtx :=
  mkCtx (resolved c) (asked c) (notes c) (sub_hit c) b (country_cache c) (asn_cache c).
Definition set_country_cache (x : option (IpAddr * GeoResult (Z * Z))) (c : EvalCtx) : EvalCtx :=
  mkCtx (resolved c) (asked c) (notes c) (sub_hit c) (before_connection c) x (asn_cache c).
Definition set_asn_cache (x : option (IpAddr * GeoResult Z)) (c : EvalCtx) : EvalCtx :=
  mkCtx (resolved c) (asked c) (notes c) (sub_hit c) (before_connection c) (country_cache c) x.

Definition country (geo : GeoLookup) (ip : IpAddr) (c : EvalCtx) : GeoResult (Z * Z) * EvalCtx :=
  match country_cache c with
  | Some (cached_ip, code) =>
      if decide (cached_ip = ip) then (code, c) else (geo_country geo ip, set_country_cache (Some (ip, geo_country geo ip)) c)
  | None => (geo_country geo ip, set_country_cache (Some (ip, geo_country geo ip)) c)
  end.

Definition asn (geo : GeoLookup) (ip : IpAddr) (c : EvalCtx) : GeoResult Z * EvalCtx :=
  match asn_cache c with
  | Some (cached_ip, n) =>
      if decide (cached_ip = ip) then (n, c) else (geo_asn geo ip, set_asn_cache (Some (ip, geo_asn geo ip)) c)
  | None => (geo_asn geo ip, set_asn_cache (Some (ip, geo_asn geo ip)) c)
  end.

(** [in_branches]: a hit stays only if the branches matched. *)
Definition in_branches (eval : EvalCtx -> Verdict * EvalCtx) (c : EvalCtx) : Verdict * EvalCtx :=
  let found := sub_hit c in
  let '(verdict, c) := eval (set_hit None c) in
  match verdict, sub_hit c with
  | Match, Some _ => (verdict, c)
  | _, _ => (verdict, set_hit found c)
  end.

(** ** Rules *)

Inductive InternalSet := System | Lan.
Inductive ResourceRef := Internal (s : InternalSet) | Inline (name : rstr) | File (path : rstr) | Url (url : rstr).
Inductive SetKind := RuleSetKind | DomainSetKind.

Inductive ProcessPattern := PName (g : Glob) | PPath (g : Glob) | PPrefix (p : rstr).

Section rules.
Context {D : Deps}.

Inductive IpNet := Net4 (n : @Net Nets4) | Net6 (n : @Net Nets6).

(** [IpNet::contains]: of the same family. *)
Definition net_contains (net : IpNet) (ip : IpAddr) : bool :=
  match net, ip with
  | Net4 n, V4 ip => contains n ip
  | Net6 n, V6 ip => contains n ip
  | _, _ => false
  end.

Inductive RuleKind :=
| KDomain (d : rstr) | KDomainSuffix (d : rstr) | KDomainKeyword (k : rstr) | KDomainWildcard (g : Glob) | KDomainSet (r : ResourceRef)
| KIpCidr (n : @Net Nets4) | KIpCidr6 (n : @Net Nets6)
| KGeoIp (code : rstr) | KGeoIpUnknown | KIpAsn (n : Z) | KIpAsnUnknown
| KUserAgent (g : Glob) | KUrlRegex (p : Regex) | KProcessName (p : ProcessPattern)
| KDestPort (p : PortExpr) | KSrcPort (p : PortExpr) | KInPort (p : PortExpr) | KSrcIp (n : IpNet)
| KDeviceName (g : Glob) | KMacAddress (m : rstr) | KProtocol (p : ProtocolKind) | KHostnameType (t : HostnameType) | KSubnet (e : SubnetExpr)
| KCellularRadio (t : rstr) | KCellularCarrier (t : rstr)
| KAnd (subs : list SubRule) | KOr (subs : list SubRule) | KNot (sub : SubRule)
| KScript (s : rstr) | KRuleSet (r : ResourceRef) | KFinal
with SubRule :=
| mkSubRule (kind : RuleKind) (no_resolve extended_matching : bool) (raw : rstr).

Definition sub_kind (r : SubRule) : RuleKind := match r with mkSubRule k _ _ _ => k end.
Definition sub_no_resolve (r : SubRule) : bool := match r with mkSubRule _ n _ _ => n end.
Definition sub_extended (r : SubRule) : bool := match r with mkSubRule _ _ e _ => e end.
Definition sub_raw (r : SubRule) : rstr := match r with mkSubRule _ _ _ raw => raw end.

(** A [SetRef] is the handle of a set. *)
Inductive Matcher :=
| Domain (d : rstr) | DomainSuffix (d : rstr) | DomainKeyword (k : rstr) | DomainWildcard (g : Glob)
| IpCidr (n : @Net Nets4) | IpCidr6 (n : @Net Nets6)
| GeoIp (code : Z * Z) | GeoIpUnknown | IpAsn (n : Z) | IpAsnUnknown
| UserAgent (g : Glob) | UrlRegex (p : Regex) | ProcessName (p : ProcessPattern)
| DestPort (p : PortExpr) | SrcPort (p : PortExpr) | InPort (p : PortExpr) | SrcIp (n : IpNet)
| Protocol (p : ProtocolKind) | IsHostnameType (t : HostnameType) | Subnet (e : SubnetExpr)
| And (subs : list CompiledSubRule) | Or (subs : list CompiledSubRule) | Not (sub : CompiledSubRule)
| InSet (handle : Z)
| Unsupported (kind : rstr) | Never | Final
with CompiledSubRule :=
| mkSub (matcher : Matcher) (no_resolve extended : bool) (raw : rstr).

Definition matcher (r : CompiledSubRule) : Matcher := match r with mkSub m _ _ _ => m end.
Definition no_resolve (r : CompiledSubRule) : bool := match r with mkSub _ n _ _ => n end.
Definition extended (r : CompiledSubRule) : bool := match r with mkSub _ _ e _ => e end.

(** ** Compiling *)

Definition to_ascii_uppercase_byte (b : Z) : Z := if is_lower b then b - 32 else b.

Definition normalize_process_path_for (windows : bool) (path : rstr) : rstr :=
  if windows then to_ascii_lowercase (map (fun c => if c =? 47 then 92 else c) path) else path.

Definition compile_process_pattern (windows : bool) (p : ProcessPattern) : ProcessPattern :=
  match p with
  | PPath g =>
      let normalized := normalize_process_path_for windows (Glob.source g) in
      PPath (match Glob.new normalized (mkGlobOptions windows false) with Ok g' => g' | Err _ => g end)
  | PName g =>
      if windows then PName (match Glob.new (Glob.source g) (mkGlobOptions true false) with Ok g' => g' | Err _ => g end)
      else p
  | PPrefix _ => p
  end.

(** [Matcher::compile]; [lookup_set] is the [SetLookup]. *)
Fixpoint compile (lookup_set : ResourceRef -> SetKind -> Z) (kind : RuleKind) : Matcher :=
  let compile_subrule (sub : SubRule) := match sub with mkSubRule k n e raw => mkSub (compile lookup_set k) n e raw end in
  match kind with
  | KDomain d => Domain (to_ascii_lowercase d)
  | KDomainSuffix d => DomainSuffix (to_ascii_lowercase (drop_while (fun c => c =? 46) d))
  | KDomainKeyword k => DomainKeyword (to_ascii_lowercase k)
  | KDomainWildcard g => DomainWildcard g
  | KDomainSet r => InSet (lookup_set r DomainSetKind)
  | KIpCidr n => IpCidr n
  | KIpCidr6 n => IpCidr6 n
  | KGeoIp code =>
      match utf8_encode (trim code) with
      | [a; b] => GeoIp (to_ascii_uppercase_byte a, to_ascii_uppercase_byte b)
      | _ => Never
      end
  | KGeoIpUnknown => GeoIpUnknown
  | KIpAsn n => IpAsn n
  | KIpAsnUnknown => IpAsnUnknown
  | KUserAgent g => UserAgent g
  | KUrlRegex p => UrlRegex p
  | KProcessName p => ProcessName (compile_process_pattern windows p)
  | KDestPort p => DestPort p
  | KSrcPort p => SrcPort p
  | KInPort p => InPort p
  | KSrcIp n => SrcIp n
  | KDeviceName _ => Unsupported (lit "DEVICE-NAME")
  | KMacAddress _ => Unsupported (lit "MAC-ADDRESS")
  | KProtocol p => Protocol p
  | KHostnameType t => IsHostnameType t
  | KSubnet expr => Subnet expr
  | KCellularRadio _ | KCellularCarrier _ => Never
  | KAnd subs => And (map compile_subrule subs)
  | KOr subs => Or (map compile_subrule subs)
  | KNot sub => Not (compile_subrule sub)
  | KScript _ => Unsupported (lit "SCRIPT")
  | KRuleSet r => InSet (lookup_set r RuleSetKind)
  | KFinal => Final
  end.

Definition compile_subrule (lookup_set : ResourceRef -> SetKind -> Z) (sub : SubRule) : CompiledSubRule :=
  match sub with mkSubRule k n e raw => mkSub (compile lookup_set k) n e raw end.

(** ** What the matchers read *)

Fixpoint starts_with (s prefix : rstr) : bool :=
  match prefix, s with
  | [], _ => true
  | a :: prefix, b :: s => (a =? b) && starts_with s prefix
  | _ :: _, [] => false
  end.

Definition ends_with (s suffix : rstr) : bool := starts_with (reverse s) (reverse suffix).

Fixpoint has_substring (s k : rstr) : bool :=
  starts_with s k || match s with [] => false | _ :: s => has_substring s k end.

(** [str::find] of a text: where it begins. *)
Fixpoint find_str (s k : rstr) : option nat :=
  if starts_with s k then Some O else match s with [] => None | _ :: s => S <$> find_str s k end.

Definition domain_targets (s : SessionInfo) (extended : bool) : list rstr :=
  option_list (as_domain (dst_host s))
  ++ (if extended then option_list (sni s) else [])
  ++ (if extended then option_list (http_host s) else []).

Definition is_suffix (host suffix : rstr) : bool :=
  bool_decide (host = suffix)
  || ((length suffix <? length host)%nat && ends_with host suffix
      && bool_decide (host !! (length host - length suffix - 1)%nat = Some 46)).

Inductive Family := FamilyV4 | FamilyV6 | FamilyAny.

Definition of_family (family : Family) (ip : IpAddr) : bool :=
  match family, ip with
  | FamilyV4, V4 _ | FamilyV6, V6 _ | FamilyAny, _ => true
  | _, _ => false
  end.

Definition target_ip (s : SessionInfo) (c : EvalCtx) (no_resolve : bool) (family : Family) : res Verdict IpAddr :=
  match as_ip (dst_host s) with
  | Some ip => if of_family family ip then Ok ip else Err NoMatch
  | None =>
      if before_connection c then Err NeedsConnection
      else
        match resolved c with
        | None => Err (if no_resolve then NoMatch else NeedsResolve)
        | Some r =>
            let pick :=
              match family with
              | FamilyV4 => V4 <$> head (r_v4 r)
              | FamilyV6 => V6 <$> head (r_v6 r)
              | FamilyAny => match head (r_v4 r) with Some v => Some (V4 v) | None => V6 <$> head (r_v6 r) end
              end in
            ok_or NoMatch pick
        end
  end.

(** [str::rsplit_once(c)]. *)
Definition rsplit_once (c : Z) (s : rstr) : option (rstr * rstr) :=
  '(a, b) ← split_once c (reverse s); Some (reverse b, reverse a).

Definition replace_url_host (url host : rstr) : option rstr :=
  at_ ← find_str url (lit "://");
  let scheme_end := (at_ + 3)%nat in
  let rest := drop scheme_end url in
  let auth_end := default (length rest) (find_str rest (lit "/")) in
  let authority := take auth_end rest in
  let port :=
    '(_, p) ← rsplit_once 58 authority;
    if bool_decide (p <> []) && forallb is_digit p then Some p else None in
  Some (take scheme_end url ++ host ++ match port with Some p => 58 :: p | None => [] end ++ drop auth_end rest).

Definition regex_matches (p : Regex) (s : rstr) : bool := default false (is_match p s).

Definition process_matches_for (windows : bool) (pattern : ProcessPattern) (p : ProcessInfo) : bool :=
  match pattern with
  | PName g => glob_matches g (p_name p)
  | PPath g => is_some_and (path p) (fun path => glob_matches g (normalize_process_path_for windows path))
  | PPrefix prefix =>
      is_some_and (path p) (fun path =>
        starts_with (normalize_process_path_for windows path) (normalize_process_path_for windows prefix))
  end.

Definition needs_the_connection (m : Matcher) : bool :=
  match m with
  | DestPort _ | SrcPort _ | InPort _ | Protocol _ | UserAgent _ | UrlRegex _ => true
  | _ => false
  end.

Definition note_of (kind : rstr) : rstr :=
  kind ++ lit " rules are not supported in this version; treated as no match".

End rules.
