(* ===== verification/RuleEval.v ===== *)
(** * Evaluating a rule

    [Matcher::eval] of [crates/rurge-rules/src/matcher.rs] and
    [CompiledSet::eval] of [set.rs], which call each other through the handles
    of the sets.  What they compute is the subject of [RuleSays.v]. *)

From S2P Require Import Prelude FakeIpAddr DomainIndex Glob IpIndex RuleMatcher.

Definition MAX_NESTING : nat := 8.

(** [CompiledSet]; its [kind], [needs_dns] and [version] are not read here. *)
Record CompiledSet `{Deps} := mkSet {
  name : rstr;
  needs_dns : bool;
  set_extended : bool;
  domains : DomainIndex;
  ips : IpIndex Nets4 Nets6;
  ips_resolve : bool;
  asns : gmap Z Z;
  asns_resolve : bool;
  linear : list (Z * CompiledSubRule);
  entries : list rstr;
}.

Arguments mkSet {_} name needs_dns set_extended domains ips ips_resolve asns asns_resolve linear entries.

Record SetVerdict := mkSetVerdict { verdict : Verdict; v_entry : option rstr }.

(** ** The branches of a logical rule *)

Section branches.
Context {D : Deps} (eval : CompiledSubRule -> EvalCtx -> Verdict * EvalCtx).

(** The loop of [AND]. *)
Fixpoint and_loop (subs : list CompiledSubRule) (needs_connection needs_process needs_resolve : bool) (c : EvalCtx) : Verdict * EvalCtx :=
  match subs with
  | [] => (default Match (still_needs needs_connection needs_process needs_resolve), c)
  | sub :: subs =>
      let '(v, c) := eval sub c in
      match v with
      | NoMatch => (NoMatch, c)
      | NeedsConnection => and_loop subs true needs_process needs_resolve c
      | NeedsProcess => and_loop subs needs_connection true needs_resolve c
      | NeedsResolve => and_loop subs needs_connection needs_process true c
      | Match => and_loop subs needs_connection needs_process needs_resolve c
      end
  end.

(** The loop of [OR]. *)
Fixpoint or_loop (subs : list CompiledSubRule) (needs_connection needs_process needs_resolve : bool) (c : EvalCtx) : Verdict * EvalCtx :=
  match subs with
  | [] => (default NoMatch (still_needs needs_connection needs_process needs_resolve), c)
  | sub :: subs =>
      let '(v, c) := eval sub c in
      match v with
      | Match => (Match, c)
      | NeedsConnection => or_loop subs true needs_process needs_resolve c
      | NeedsProcess => or_loop subs needs_connection true needs_resolve c
      | NeedsResolve => or_loop subs needs_connection needs_process true c
      | NoMatch => or_loop subs needs_connection needs_process needs_resolve c
      end
  end.

End branches.

Section eval.
Context {D : Deps} (geo : GeoLookup) (network : option (NetworkFacts * bool)).

(** ** One rule *)

(** What a [Set] matcher calls of the set behind a handle: [name] and [eval]. *)
Definition SetCalls : Type :=
  (Z -> rstr) * (Z -> SessionInfo -> EvalCtx -> bool -> bool -> SetVerdict * EvalCtx).

Definition ip_verdict (r : res Verdict IpAddr) (test : IpAddr -> bool) : Verdict :=
  match r with
  | Ok ip => from_bool (test ip)
  | Err v => v
  end.

Definition geo_verdict {T} (lookup : IpAddr -> EvalCtx -> GeoResult T * EvalCtx) (test : GeoResult T -> bool)
    (r : res Verdict IpAddr) (c : EvalCtx) : Verdict * EvalCtx :=
  match r with
  | Ok ip => let '(g, c) := lookup ip c in (from_bool (test g), c)
  | Err v => (v, c)
  end.

Definition url_verdict (s : SessionInfo) (p : Regex) (extended : bool) : Verdict :=
  match url s with
  | None => NoMatch
  | Some url =>
      if regex_matches p url then Match
      else if extended then
        from_bool (existsb (fun host => is_some_and (replace_url_host url host) (regex_matches p))
          (option_list (sni s) ++ option_list (http_host s)))
      else NoMatch
  end.

Definition process_verdict (s : SessionInfo) (c : EvalCtx) (pp : ProcessPattern) : Verdict :=
  match process s, asked c with
  | Some given, _ => from_bool (process_matches_for windows pp given)
  | None, NotAsked => NeedsProcess
  | None, Asked found => from_bool (is_some_and found (process_matches_for windows pp))
  end.

Definition protocol_matches (s : SessionInfo) (k : ProtocolKind) : bool :=
  bool_decide (protocol s = Some k)
  || match k, transport s with
     | PTcp, Tcp | PUdp, Udp => true
     | _, _ => false
     end.

(** [Matcher::eval]; [sets] is [None] when the sets are nested too deep. *)
Fixpoint meval (sets : option SetCalls) (m : Matcher) (s : SessionInfo) (c : EvalCtx) (no_resolve extended : bool) {struct m}
  : Verdict * EvalCtx :=
  if before_connection c && needs_the_connection m then (NeedsConnection, c)
  else
    match m with
    | Domain d => (from_bool (existsb (fun h => bool_decide (h = d)) (domain_targets s extended)), c)
    | DomainSuffix d => (from_bool (existsb (fun h => is_suffix h d) (domain_targets s extended)), c)
    | DomainKeyword k => (from_bool (existsb (fun h => has_substring h k) (domain_targets s extended)), c)
    | DomainWildcard g => (from_bool (existsb (fun h => glob_matches g h) (domain_targets s extended)), c)
    | IpCidr net => (ip_verdict (target_ip s c no_resolve FamilyV4) (net_contains (Net4 net)), c)
    | IpCidr6 net => (ip_verdict (target_ip s c no_resolve FamilyV6) (net_contains (Net6 net)), c)
    | GeoIp code => geo_verdict (country geo) (fun g => bool_decide (g = Known code)) (target_ip s c no_resolve FamilyAny) c
    | GeoIpUnknown => geo_verdict (country geo) (fun g => bool_decide (g = Unknown)) (target_ip s c no_resolve FamilyAny) c
    | IpAsn n => geo_verdict (asn geo) (fun g => bool_decide (g = Known n)) (target_ip s c no_resolve FamilyAny) c
    | IpAsnUnknown => geo_verdict (asn geo) (fun g => bool_decide (g = Unknown)) (target_ip s c no_resolve FamilyAny) c
    | UserAgent g => (from_bool (is_some_and (user_agent s) (glob_matches g)), c)
    | UrlRegex p => (url_verdict s p extended, c)
    | ProcessName pp => (process_verdict s c pp, c)
    | DestPort p => (from_bool (port_matches p (dst_port s)), c)
    | SrcPort p => (from_bool (port_matches p (src_port s)), c)
    | InPort p => (from_bool (port_matches p (in_port s)), c)
    | SrcIp net => (from_bool (net_contains net (src_ip s)), c)
    | Protocol k => (from_bool (protocol_matches s k), c)
    | IsHostnameType t => (from_bool (bool_decide (hostname_type s = t)), c)
    | Subnet expr =>
        (from_bool (is_some_and network (fun '(facts, always) => subnet_matches parse_ip expr facts always)), c)
    | And subs =>
        in_branches (and_loop (fun sub c => let '(mkSub m nr ext _) := sub in meval sets m s c nr ext) subs false false false) c
    | Or subs =>
        in_branches (or_loop (fun sub c => let '(mkSub m nr ext _) := sub in meval sets m s c nr ext) subs false false false) c
    | Not (mkSub m nr ext _) =>
        let found := sub_hit c in
        let '(v, c) := meval sets m s (set_hit None c) nr ext in
        let c := set_hit found c in
        match v with
        | Match => (NoMatch, c)
        | NoMatch => (Match, c)
        | NeedsConnection | NeedsResolve | NeedsProcess => (v, c)
        end
    | InSet h =>
        match sets with
        | None => (NoMatch, c)
        | Some (name_of, eval_of) =>
            let '(v, c) := eval_of h s c no_resolve extended in
            (verdict v,
             match verdict v with
             | Match => set_hit (Some (mkHit (name_of h) (default [] (v_entry v)))) c
             | _ => c
             end)
        end
    | Unsupported kind => (NoMatch, set_notes (notes c ++ [note_of kind]) c)
    | Never => (NoMatch, c)
    | Final => (Match, c)
    end.

(** ** A compiled set *)

(** [CompiledSet::entry] and [CompiledSet::hit]. *)
Definition entry (set : CompiledSet) (i : Z) : rstr := default [] (entries set !! Z.to_nat i).
Definition hit (set : CompiledSet) (i : Z) : SetVerdict := mkSetVerdict Match (Some (entry set i)).

Definition domains_empty (x : DomainIndex) : bool := bool_decide (keys x = []).

(** The first target the index has; a look-up never panics. *)
Fixpoint domain_hit (x : DomainIndex) (targets : list rstr) : option Z :=
  match targets with
  | [] => None
  | t :: targets =>
      match DomainIndex.lookup x t with
      | Some (Some h) => Some (DomainIndex.entry h)
      | _ => domain_hit x targets
      end
  end.

(** What a part of a set still waits for: connection, process, addresses. *)
Record Needs := mkNeeds { n_connection : bool; n_process : bool; n_resolve : bool }.

Definition needs_verdict (v : Verdict) (n : Needs) : Needs :=
  match v with
  | NeedsConnection => mkNeeds true (n_process n) (n_resolve n)
  | NeedsProcess => mkNeeds (n_connection n) true (n_resolve n)
  | NeedsResolve => mkNeeds (n_connection n) (n_process n) true
  | Match | NoMatch => n
  end.

(** The [linear] entries in order: the entry that matched, or what the ones
    that did not wait for. *)
Fixpoint linear_eval (sets : option SetCalls) (rules : list (Z * CompiledSubRule)) (s : SessionInfo) (nr ext : bool) (n : Needs) (c : EvalCtx)
  : (Z + Needs) * EvalCtx :=
  match rules with
  | [] => (inr n, c)
  | (i, rule) :: rules =>
      let '(v, c) := meval sets (matcher rule) s c (nr || no_resolve rule) (ext || extended rule) in
      match v with
      | Match => (inl i, c)
      | _ => linear_eval sets rules s nr ext (needs_verdict v n) c
      end
  end.

(** The [IP-ASN] lines that name a number. *)
Definition asns_eval (set : CompiledSet) (s : SessionInfo) (nr : bool) (n : Needs) (c : EvalCtx) : (Z + Needs) * EvalCtx :=
  if bool_decide (asns set = ∅) then (inr n, c)
  else
    match target_ip s c (nr || negb (asns_resolve set)) FamilyAny with
    | Ok ip =>
        let '(g, c) := asn geo ip c in
        match g with
        | Known a => (match asns set !! a with Some i => inl i | None => inr n end, c)
        | _ => (inr n, c)
        end
    | Err v => (inr (needs_verdict v n), c)
    end.

Fixpoint ips_eval (set : CompiledSet) (families : list Family) (s : SessionInfo) (nr : bool) (n : Needs) (c : EvalCtx) : Z + Needs :=
  match families with
  | [] => inr n
  | family :: families =>
      match target_ip s c (nr || negb (ips_resolve set)) family with
      | Ok ip =>
          match IpIndex.lookup (ips set) ip with
          | Some i => inl i
          | None => ips_eval set families s nr n c
          end
      | Err v => ips_eval set families s nr (needs_verdict v n) c
      end
  end.

(** [CompiledSet::eval]. *)
Definition set_eval (sets : option SetCalls) (set : CompiledSet) (s : SessionInfo) (c : EvalCtx) (nr ext : bool) : SetVerdict * EvalCtx :=
  let found := if domains_empty (domains set) then None else domain_hit (domains set) (domain_targets s (ext || set_extended set)) in
  match found with
  | Some i => (hit set i, c)
  | None =>
      let '(r, c) := linear_eval sets (linear set) s nr ext (mkNeeds false false false) c in
      match r with
      | inl i => (hit set i, c)
      | inr n =>
          let '(r, c) := asns_eval set s nr n c in
          match r with
          | inl i => (hit set i, c)
          | inr n =>
              match (if is_empty (ips set) then inr n else ips_eval set [FamilyV4; FamilyV6] s nr n c) with
              | inl i => (hit set i, c)
              | inr n => (mkSetVerdict (default NoMatch (still_needs (n_connection n) (n_process n) (n_resolve n))) None, c)
              end
          end
      end
  end.

(** ** The two together *)

(** What the handles hold. *)
Context (handles : Z -> CompiledSet).

(** The calls of a set when [depth] levels of sets are left. *)
Fixpoint set_calls (depth : nat) : option SetCalls :=
  match depth with
  | O => None
  | S depth => Some (fun h => name (handles h), fun h s c nr ext => set_eval (set_calls depth) (handles h) s c nr ext)
  end.

(** [Matcher::eval] outside any set: [set_depth] is 0. *)
Definition eval (m : Matcher) (s : SessionInfo) (c : EvalCtx) (no_resolve extended : bool) : Verdict * EvalCtx :=
  meval (set_calls MAX_NESTING) m s c no_resolve extended.

End eval.
