(* ===== verification/RuleSays.v ===== *)
(** * What a rule says

    The meaning of the matchers of [RuleMatcher.v], without caches, notes,
    hits, loops that stop early or counters of depth, and the proof that
    [eval] ([RuleEval.v]) says it ([eval_tells]).  A verdict that waits is a
    truth value between no and yes: [all_of] and [any_of] are its conjunction
    and disjunction, whatever the order. *)

From S2P Require Import Prelude FakeIpAddr DomainIndex Glob IpIndex RuleMatcher RuleEval.

Definition is_v (v w : Verdict) : bool := bool_decide (v = w).

Definition waits (vs : list Verdict) (otherwise : Verdict) : Verdict :=
  default otherwise (still_needs (existsb (is_v NeedsConnection) vs) (existsb (is_v NeedsProcess) vs) (existsb (is_v NeedsResolve) vs)).

Definition all_of (vs : list Verdict) : Verdict := if existsb (is_v NoMatch) vs then NoMatch else waits vs Match.
Definition any_of (vs : list Verdict) : Verdict := if existsb (is_v Match) vs then Match else waits vs NoMatch.
Definition negated (v : Verdict) : Verdict := match v with Match => NoMatch | NoMatch => Match | _ => v end.

Lemma existsb_is v vs : existsb (is_v v) vs = bool_decide (v ∈ vs).
Proof.
  apply Bool.eq_iff_eq_true. rewrite bool_decide_eq_true, existsb_exists. split.
  - intros (w & Hw & Hv). apply bool_decide_eq_true in Hv as ->. by apply list_elem_of_In.
  - intros Hv. exists v. split; [by apply list_elem_of_In|]. by apply bool_decide_eq_true.
Qed.

(** Only which verdicts there are counts. *)
Lemma any_of_ext vs vs' : (forall v, v <> NoMatch -> v ∈ vs <-> v ∈ vs') -> any_of vs = any_of vs'.
Proof.
  intros H. assert (He : forall v, v <> NoMatch -> existsb (is_v v) vs = existsb (is_v v) vs').
  { intros v Hv. rewrite !existsb_is. by apply bool_decide_ext, H. }
  unfold any_of, waits. by rewrite !He.
Qed.

Section says.
Context {D : Deps} (geo : GeoLookup) (network : option (NetworkFacts * bool)).

Definition SetSays : Type := Z -> SessionInfo -> EvalCtx -> bool -> bool -> Verdict.

Fixpoint says (in_set : SetSays) (m : Matcher) (s : SessionInfo) (c : EvalCtx) (nr ext : bool) {struct m} : Verdict :=
  if before_connection c && needs_the_connection m then NeedsConnection
  else
    let sub_says := fun sub => let '(mkSub m nr ext _) := sub in says in_set m s c nr ext in
    let target := target_ip s c nr in
    match m with
    | Domain d => from_bool (existsb (fun h => bool_decide (h = d)) (domain_targets s ext))
    | DomainSuffix d => from_bool (existsb (fun h => is_suffix h d) (domain_targets s ext))
    | DomainKeyword k => from_bool (existsb (fun h => has_substring h k) (domain_targets s ext))
    | DomainWildcard g => from_bool (existsb (glob_matches g) (domain_targets s ext))
    | IpCidr net => ip_verdict (target FamilyV4) (net_contains (Net4 net))
    | IpCidr6 net => ip_verdict (target FamilyV6) (net_contains (Net6 net))
    | GeoIp code => ip_verdict (target FamilyAny) (fun ip => bool_decide (geo_country geo ip = Known code))
    | GeoIpUnknown => ip_verdict (target FamilyAny) (fun ip => bool_decide (geo_country geo ip = Unknown))
    | IpAsn n => ip_verdict (target FamilyAny) (fun ip => bool_decide (geo_asn geo ip = Known n))
    | IpAsnUnknown => ip_verdict (target FamilyAny) (fun ip => bool_decide (geo_asn geo ip = Unknown))
    | UserAgent g => from_bool (is_some_and (user_agent s) (glob_matches g))
    | UrlRegex p => url_verdict s p ext
    | ProcessName pp => process_verdict s c pp
    | DestPort p => from_bool (port_matches p (dst_port s))
    | SrcPort p => from_bool (port_matches p (src_port s))
    | InPort p => from_bool (port_matches p (in_port s))
    | SrcIp net => from_bool (net_contains net (src_ip s))
    | Protocol k => from_bool (protocol_matches s k)
    | IsHostnameType t => from_bool (bool_decide (hostname_type s = t))
    | Subnet expr => from_bool (is_some_and network (fun '(facts, always) => subnet_matches parse_ip expr facts always))
    | And subs => all_of (map sub_says subs)
    | Or subs => any_of (map sub_says subs)
    | Not sub => negated (sub_says sub)
    | InSet h => in_set h s c nr ext
    | Unsupported _ | Never => NoMatch
    | Final => Match
    end.

Definition sub_says (in_set : SetSays) (sub : CompiledSubRule) (s : SessionInfo) (c : EvalCtx) : Verdict :=
  says in_set (matcher sub) s c (no_resolve sub) (extended sub).

(** A set says what any of its parts says. *)
Definition ips_says (set : CompiledSet) (s : SessionInfo) (c : EvalCtx) (nr : bool) (family : Family) : Verdict :=
  ip_verdict (target_ip s c (nr || negb (ips_resolve set)) family) (fun ip => bool_decide (is_Some (IpIndex.lookup (ips set) ip))).

Definition asns_says (set : CompiledSet) (s : SessionInfo) (c : EvalCtx) (nr : bool) : Verdict :=
  ip_verdict (target_ip s c (nr || negb (asns_resolve set)) FamilyAny)
    (fun ip => match geo_asn geo ip with Known a => bool_decide (is_Some (asns set !! a)) | _ => false end).

Definition domains_say (set : CompiledSet) (s : SessionInfo) (ext : bool) : Verdict :=
  from_bool (bool_decide (is_Some (domain_hit (domains set) (domain_targets s (ext || set_extended set))))).

Definition linear_says (in_set : SetSays) (set : CompiledSet) (s : SessionInfo) (c : EvalCtx) (nr ext : bool) : list Verdict :=
  map (fun r : Z * CompiledSubRule => says in_set (matcher r.2) s c (nr || no_resolve r.2) (ext || extended r.2)) (linear set).

Definition set_says (in_set : SetSays) (set : CompiledSet) (s : SessionInfo) (c : EvalCtx) (nr ext : bool) : Verdict :=
  any_of
    ((if domains_empty (domains set) then [] else [domains_say set s ext])
     ++ linear_says in_set set s c nr ext
     ++ (if bool_decide (asns set = ∅) then [] else [asns_says set s c nr])
     ++ (if is_empty (ips set) then [] else [ips_says set s c nr FamilyV4; ips_says set s c nr FamilyV6])).

(** A set nested too deep says no. *)
Fixpoint sets_say (handles : Z -> CompiledSet) (depth : nat) : SetSays :=
  fun h s c nr ext =>
    match depth with
    | O => NoMatch
    | S depth => set_says (sets_say handles depth) (handles h) s c nr ext
    end.

End says.

(** ** Matchers by induction *)

Definition no_branches `{Deps} (m : Matcher) : Prop :=
  match m with And _ | Or _ | Not _ => False | _ => True end.

Section matcher_induction.
Context {D : Deps} (P : Matcher -> Prop).
Hypothesis Hand : forall subs, Forall (fun r => P (matcher r)) subs -> P (And subs).
Hypothesis Hor : forall subs, Forall (fun r => P (matcher r)) subs -> P (Or subs).
Hypothesis Hnot : forall sub, P (matcher sub) -> P (Not sub).
Hypothesis Hleaf : forall m, no_branches m -> P m.

Lemma matcher_tree : forall m, P m.
Proof.
  fix IH 1. intros m. destruct m as [| | | | | | | | | | | | | | | | | | | |subs|subs|[m nr ext raw]| | | |];
    try (apply Hleaf; exact I).
  - apply Hand. induction subs as [|[m nr ext raw] subs IHs]; constructor; [apply IH|exact IHs].
  - apply Hor. induction subs as [|[m nr ext raw] subs IHs]; constructor; [apply IH|exact IHs].
  - apply Hnot, IH.
Qed.

End matcher_induction.

Definition simple `{Deps} (m : Matcher) : Prop := match m with And _ | Or _ | Not _ | InSet _ => False | _ => True end.

(** ** What two evaluations have in common

    A relation of verdicts that the connectives keep holds between what a rule
    says to two sessions, once it holds for the matchers that have no parts
    and for the indices of the sets. *)

Section transport.
Context {D : Deps} (geo : GeoLookup) (network : option (NetworkFacts * bool)) (handles : Z -> CompiledSet).
Context (R : Verdict -> Verdict -> Prop) (s s' : SessionInfo) (c c' : EvalCtx).
Hypothesis R_no : R NoMatch NoMatch.
Hypothesis R_all : forall vs vs', Forall2 R vs vs' -> R (all_of vs) (all_of vs').
Hypothesis R_any : forall vs vs', Forall2 R vs vs' -> R (any_of vs) (any_of vs').
Hypothesis R_negated : forall v v', R v v' -> R (negated v) (negated v').
Hypothesis R_leaf : forall in_set in_set' m nr ext, simple m ->
  R (says geo network in_set m s c nr ext) (says geo network in_set' m s' c' nr ext).
Hypothesis R_ips : forall set nr family, R (ips_says set s c nr family) (ips_says set s' c' nr family).
Hypothesis R_asns : forall set nr, R (asns_says geo set s c nr) (asns_says geo set s' c' nr).
Hypothesis R_domains : forall set ext, R (domains_say set s ext) (domains_say set s' ext).

Lemma says_R in_set in_set' : (forall h nr ext, R (in_set h s c nr ext) (in_set' h s' c' nr ext)) ->
  forall m nr ext, R (says geo network in_set m s c nr ext) (says geo network in_set' m s' c' nr ext).
Proof.
  intros Hset m. induction m as [subs IH|subs IH|[m nr0 ext0 raw] IH|m Hm] using matcher_tree; intros nr ext.
  - simpl. rewrite !andb_false_r. apply R_all. induction IH as [|[m nr0 ext0 raw] subs Hm _ IHs]; constructor; [apply Hm|exact IHs].
  - simpl. rewrite !andb_false_r. apply R_any. induction IH as [|[m nr0 ext0 raw] subs Hm _ IHs]; constructor; [apply Hm|exact IHs].
  - simpl. rewrite !andb_false_r. apply R_negated, IH.
  - destruct m; try done; try (apply R_leaf; exact I). simpl. rewrite !andb_false_r. apply Hset.
Qed.

Lemma set_says_R in_set in_set' : (forall h nr ext, R (in_set h s c nr ext) (in_set' h s' c' nr ext)) ->
  forall set nr ext, R (set_says geo network in_set set s c nr ext) (set_says geo network in_set' set s' c' nr ext).
Proof.
  intros Hset set nr ext. apply R_any. repeat apply Forall2_app.
  - case_match; constructor; [apply R_domains|constructor].
  - unfold linear_says. induction (linear set) as [|[i r] rules IH]; constructor; [by apply says_R|exact IH].
  - case_match; constructor; [apply R_asns|constructor].
  - case_match; repeat constructor; apply R_ips.
Qed.

Lemma sets_say_R depth h nr ext : R (sets_say geo network handles depth h s c nr ext) (sets_say geo network handles depth h s' c' nr ext).
Proof. revert h nr ext. induction depth as [|depth IH]; intros h nr ext; [apply R_no|]. simpl. by apply set_says_R. Qed.

Lemma says_transport depth m nr ext :
  R (says geo network (sets_say geo network handles depth) m s c nr ext) (says geo network (sets_say geo network handles depth) m s' c' nr ext).
Proof. apply says_R. intros. apply sets_say_R. Qed.

End transport.

(** ** Only what is known counts *)

Definition knows (c c' : EvalCtx) : Prop :=
  resolved c = resolved c' /\ asked c = asked c' /\ before_connection c = before_connection c'.

Lemma knows_refl c : knows c c.
Proof. done. Qed.

Lemma knows_trans c c' c'' : knows c c' -> knows c' c'' -> knows c c''.
Proof. unfold knows. intuition congruence. Qed.

Lemma target_ip_knows s c c' nr family : knows c c' -> target_ip s c nr family = target_ip s c' nr family.
Proof. intros (Hr & _ & Hb). unfold target_ip. by rewrite Hr, Hb. Qed.

Lemma target_ip_err s c nr family v : target_ip s c nr family = Err v -> v = NoMatch \/ v = NeedsResolve \/ v = NeedsConnection.
Proof. unfold target_ip, ok_or. intros Ht. repeat case_match; simplify_eq/=; auto; destruct nr; auto. Qed.

(** An IP rule waits for the connection, or for the addresses, or knows what
    address of its family there is. *)
Lemma target_ip_three s c :
  (forall nr family, target_ip s c nr family = Err NeedsConnection)
  \/ (forall nr family, target_ip s c nr family = Err (if nr then NoMatch else NeedsResolve))
  \/ exists known : Family -> option IpAddr,
       (forall nr family, target_ip s c nr family = ok_or NoMatch (known family))
       /\ forall family ip, known family = Some ip -> of_family family ip = true.
Proof.
  unfold target_ip. destruct (as_ip (dst_host s)) as [ip|].
  - right. right. exists (fun family => if of_family family ip then Some ip else None). split.
    + intros nr family. by destruct (of_family family ip).
    + intros family ip' Hip. destruct (of_family family ip) eqn:Hf; by simplify_eq.
  - destruct (before_connection c); [by left|]. destruct (resolved c) as [r|]; [|by right; left].
    right. right. eexists. split; [done|]. intros family ip Hip. cbv beta in Hip. destruct family; [..|by destruct ip]; simpl in Hip.
    + apply fmap_Some in Hip as (x & _ & ->). done.
    + apply fmap_Some in Hip as (x & _ & ->). done.
Qed.

Section known.
Context {D : Deps} (geo : GeoLookup) (network : option (NetworkFacts * bool)).

Lemma says_leaf_knows s c c' in_set in_set' m nr ext : knows c c' -> simple m ->
  says geo network in_set m s c nr ext = says geo network in_set' m s c' nr ext.
Proof.
  intros Hk Hm. pose proof (target_ip_knows s c c' nr) as Ht. destruct Hk as (Hr & Ha & Hb).
  destruct m; try done; simpl; rewrite Hb; try done; rewrite ?Ht by done; try done.
  unfold process_verdict. by rewrite Ha.
Qed.

Lemma says_knows s c c' in_set : knows c c' -> (forall h nr ext, in_set h s c nr ext = in_set h s c' nr ext) ->
  forall m nr ext, says geo network in_set m s c nr ext = says geo network in_set m s c' nr ext.
Proof.
  intros Hk Hset. apply (says_R geo network eq s s c c'); try done.
  - intros vs vs' Hvs. apply list_eq_Forall2 in Hvs. by rewrite Hvs.
  - intros vs vs' Hvs. apply list_eq_Forall2 in Hvs. by rewrite Hvs.
  - by intros v v' ->.
  - intros. by apply says_leaf_knows.
Qed.

End known.

(** ** [eval] says it *)

Section agreement.
Context {D : Deps} (geo : GeoLookup) (network : option (NetworkFacts * bool)).

(** What the caches hold is what the databases say. *)
Definition caches_ok (c : EvalCtx) : Prop :=
  (forall ip v, country_cache c = Some (ip, v) -> v = geo_country geo ip)
  /\ (forall ip v, asn_cache c = Some (ip, v) -> v = geo_asn geo ip).

(** A verdict and the context it leaves, from context [c]. *)
Definition tells (v : Verdict) (c : EvalCtx) (r : Verdict * EvalCtx) : Prop :=
  r.1 = v /\ knows c r.2 /\ caches_ok r.2.

Lemma caches_hit h c : caches_ok c -> caches_ok (set_hit h c).
Proof. done. Qed.

Lemma country_tells ip c : caches_ok c ->
  (country geo ip c).1 = geo_country geo ip /\ knows c (country geo ip c).2 /\ caches_ok (country geo ip c).2.
Proof.
  intros Hok. pose proof Hok as [Hc Ha]. unfold country. destruct (country_cache c) as [[ip' v]|] eqn:Hcc; [case_decide as Hip|]; simpl.
  - subst. split; [by apply Hc|done].
  - split; [done|]. split; [done|]. split; [by intros ? ? [= <- <-]|done].
  - split; [done|]. split; [done|]. split; [by intros ? ? [= <- <-]|done].
Qed.

Lemma asn_tells ip c : caches_ok c ->
  (asn geo ip c).1 = geo_asn geo ip /\ knows c (asn geo ip c).2 /\ caches_ok (asn geo ip c).2.
Proof.
  intros Hok. pose proof Hok as [Hc Ha]. unfold asn. destruct (asn_cache c) as [[ip' v]|] eqn:Hcc; [case_decide as Hip|]; simpl.
  - subst. split; [by apply Ha|done].
  - split; [done|]. split; [done|]. split; [done|by intros ? ? [= <- <-]].
  - split; [done|]. split; [done|]. split; [done|by intros ? ? [= <- <-]].
Qed.

Lemma geo_verdict_tells {T} (lookup : IpAddr -> EvalCtx -> GeoResult T * EvalCtx) (table : IpAddr -> GeoResult T) test r c :
  (forall ip, caches_ok c -> (lookup ip c).1 = table ip /\ knows c (lookup ip c).2 /\ caches_ok (lookup ip c).2) -> caches_ok c ->
  tells (ip_verdict r (fun ip => test (table ip))) c (geo_verdict lookup test r c).
Proof.
  intros Hl Hc. destruct r as [ip|v]; simpl; [|done]. destruct (Hl ip Hc) as (Hv & Hk & Hok).
  destruct (lookup ip c) as [g c']. simpl in *. by subst.
Qed.

Lemma in_branches_tells v f c : tells v (set_hit None c) (f (set_hit None c)) -> tells v c (in_branches f c).
Proof.
  intros (Hv & Hk & Hok). unfold in_branches. destruct (f (set_hit None c)) as [w c']. simpl in *. subst w.
  destruct v; try done. by destruct (sub_hit c').
Qed.

(** The loops, from what they have counted already. *)
Lemma and_loop_tells (ev : CompiledSubRule -> EvalCtx -> Verdict * EvalCtx) (says1 : CompiledSubRule -> Verdict) c0 subs :
  Forall (fun sub => forall c, knows c0 c -> caches_ok c -> tells (says1 sub) c (ev sub c)) subs ->
  forall nc np nr c, knows c0 c -> caches_ok c ->
  tells (if existsb (is_v NoMatch) (map says1 subs) then NoMatch
         else default Match (still_needs (nc || existsb (is_v NeedsConnection) (map says1 subs))
                (np || existsb (is_v NeedsProcess) (map says1 subs)) (nr || existsb (is_v NeedsResolve) (map says1 subs))))
    c (and_loop ev subs nc np nr c).
Proof.
  induction 1 as [|sub subs Hs _ IH]; intros nc np nr c Hk Hc; simpl; [by rewrite !orb_false_r|].
  destruct (Hs c Hk Hc) as (Hv & Hk' & Hc'). destruct (ev sub c) as [v c']. simpl in Hv, Hk', Hc'. subst v.
  assert (Hk2 : knows c0 c') by (by eapply knows_trans).
  assert (Hstep : forall w r, tells w c' r -> tells w c r)
    by (intros w r (? & ? & ?); split; [done|]; split; [by eapply knows_trans|done]).
  destruct (says1 sub); try done; apply Hstep; rewrite ?orb_true_r; by apply IH.
Qed.

Lemma or_loop_tells (ev : CompiledSubRule -> EvalCtx -> Verdict * EvalCtx) (says1 : CompiledSubRule -> Verdict) c0 subs :
  Forall (fun sub => forall c, knows c0 c -> caches_ok c -> tells (says1 sub) c (ev sub c)) subs ->
  forall nc np nr c, knows c0 c -> caches_ok c ->
  tells (if existsb (is_v Match) (map says1 subs) then Match
         else default NoMatch (still_needs (nc || existsb (is_v NeedsConnection) (map says1 subs))
                (np || existsb (is_v NeedsProcess) (map says1 subs)) (nr || existsb (is_v NeedsResolve) (map says1 subs))))
    c (or_loop ev subs nc np nr c).
Proof.
  induction 1 as [|sub subs Hs _ IH]; intros nc np nr c Hk Hc; simpl; [by rewrite !orb_false_r|].
  destruct (Hs c Hk Hc) as (Hv & Hk' & Hc'). destruct (ev sub c) as [v c']. simpl in Hv, Hk', Hc'. subst v.
  assert (Hk2 : knows c0 c') by (by eapply knows_trans).
  assert (Hstep : forall w r, tells w c' r -> tells w c r)
    by (intros w r (? & ? & ?); split; [done|]; split; [by eapply knows_trans|done]).
  destruct (says1 sub); try done; apply Hstep; rewrite ?orb_true_r; by apply IH.
Qed.

(** The calls of the sets say what [in_set] says. *)
Definition calls_tell (sets : option SetCalls) (in_set : SetSays) : Prop :=
  (forall h s c c' nr ext, knows c c' -> in_set h s c nr ext = in_set h s c' nr ext)
  /\ match sets with
     | None => forall h s c nr ext, in_set h s c nr ext = NoMatch
     | Some (_, ev) => forall h s c nr ext, caches_ok c ->
         tells (in_set h s c nr ext) c (verdict (ev h s c nr ext).1, (ev h s c nr ext).2)
     end.

Lemma leaf_tells sets in_set m s c nr ext : simple m -> caches_ok c ->
  tells (says geo network in_set m s c nr ext) c (meval geo network sets m s c nr ext).
Proof.
  intros Hm Hc. destruct m; try done; simpl;
    try (destruct (before_connection c); [done|]; done); rewrite ?andb_false_r; try done.
  1, 2: apply (geo_verdict_tells (country geo) (geo_country geo)); [intros; by apply country_tells|done].
  1, 2: apply (geo_verdict_tells (asn geo) (geo_asn geo)); [intros; by apply asn_tells|done].
Qed.

Lemma meval_tells sets in_set m : calls_tell sets in_set -> forall s c nr ext, caches_ok c ->
  tells (says geo network in_set m s c nr ext) c (meval geo network sets m s c nr ext).
Proof.
  intros [Hresp Hcalls]. induction m as [subs IH|subs IH|[m nr0 ext0 raw] IH|m Hm] using matcher_tree; intros s c nr ext Hc.
  - simpl. rewrite andb_false_r. apply in_branches_tells.
    apply (and_loop_tells _ (fun sub => let '(mkSub m nr ext _) := sub in says geo network in_set m s c nr ext) c);
      [|done|by apply caches_hit]. eapply Forall_impl; [exact IH|].
    intros [m nr0 ext0 raw] Hm c' Hk Hc'. simpl in Hm. rewrite (says_knows geo network s c c' in_set Hk) by (intros; by apply Hresp). by apply Hm.
  - simpl. rewrite andb_false_r. apply in_branches_tells.
    apply (or_loop_tells _ (fun sub => let '(mkSub m nr ext _) := sub in says geo network in_set m s c nr ext) c);
      [|done|by apply caches_hit]. eapply Forall_impl; [exact IH|].
    intros [m nr0 ext0 raw] Hm c' Hk Hc'. simpl in Hm. rewrite (says_knows geo network s c c' in_set Hk) by (intros; by apply Hresp). by apply Hm.
  - simpl. rewrite andb_false_r. destruct (IH s (set_hit None c) nr0 ext0) as (Hv & Hk & Hc'); [done|].
    simpl in Hv, Hk, Hc'. destruct (meval geo network sets m s (set_hit None c) nr0 ext0) as [v c']. simpl in *.
    rewrite (says_knows geo network s (set_hit None c) c in_set) in Hv by (done || (intros; by apply Hresp)). subst v.
    by destruct (says geo network in_set m s c nr0 ext0).
  - destruct m; try done; try (apply leaf_tells; done). simpl. rewrite andb_false_r. destruct sets as [[nm ev]|].
    + destruct (Hcalls handle s c nr ext Hc) as (Hv & Hk & Hc'). destruct (ev handle s c nr ext) as [w c']. simpl in *.
      rewrite <- Hv. split; [done|]. by destruct (verdict w).
    + by rewrite Hcalls.
Qed.

End agreement.

(** ** A set says what one of its parts says *)

Section sets.
Context {D : Deps} (geo : GeoLookup) (network : option (NetworkFacts * bool)).
Context (sets : option SetCalls) (in_set : SetSays) (Hcalls : calls_tell geo sets in_set).

(** What waits after parts that say [vs]. *)
Definition needs_of (vs : list Verdict) (n : Needs) : Needs :=
  mkNeeds (n_connection n || existsb (is_v NeedsConnection) vs) (n_process n || existsb (is_v NeedsProcess) vs)
    (n_resolve n || existsb (is_v NeedsResolve) vs).

Lemma needs_of_nil n : needs_of [] n = n.
Proof. unfold needs_of. simpl. rewrite !orb_false_r. by destruct n. Qed.

Lemma needs_of_app a b n : needs_of (a ++ b) n = needs_of b (needs_of a n).
Proof. unfold needs_of. simpl. by rewrite !existsb_app, !orb_assoc. Qed.

Lemma needs_of_one v n : needs_of [v] n = needs_verdict v n.
Proof. destruct n, v; unfold needs_of; simpl; by rewrite ?orb_false_r, ?orb_true_r. Qed.

Lemma needs_of_cons v vs n : needs_of (v :: vs) n = needs_of vs (needs_verdict v n).
Proof. rewrite <- needs_of_one, <- needs_of_app. done. Qed.

(** The outcome of a part whose lines say [vs]: an entry that is there for a
    reason, or what the lines wait for. *)
Definition part_tells (vs : list Verdict) (why : Z -> Prop) (n : Needs) (r : Z + Needs) : Prop :=
  match r with
  | inl i => existsb (is_v Match) vs = true /\ why i
  | inr n' => existsb (is_v Match) vs = false /\ n' = needs_of vs n
  end.

Definition linear_reason (rules : list (Z * CompiledSubRule)) (s : SessionInfo) (c : EvalCtx) (nr ext : bool) (i : Z) : Prop :=
  exists rule, (i, rule) ∈ rules /\ says geo network in_set (matcher rule) s c (nr || no_resolve rule) (ext || extended rule) = Match.

Lemma linear_tells c0 rules s nr ext n c : knows c0 c -> caches_ok geo c ->
  let r := linear_eval geo network sets rules s nr ext n c in
  part_tells (map (fun r : Z * CompiledSubRule => says geo network in_set (matcher r.2) s c0 (nr || no_resolve r.2) (ext || extended r.2)) rules)
    (linear_reason rules s c0 nr ext) n r.1
  /\ knows c0 r.2 /\ caches_ok geo r.2.
Proof.
  revert n c. induction rules as [|[i rule] rules IH]; intros n c Hk Hc; simpl; [by rewrite needs_of_nil|].
  destruct (meval_tells geo network sets in_set (matcher rule) Hcalls s c (nr || no_resolve rule) (ext || extended rule) Hc) as (Hv & Hk' & Hc').
  rewrite <- (says_knows geo network s c0 c in_set Hk) in Hv by (intros; by apply Hcalls).
  destruct (meval geo network sets (matcher rule) s c _ _) as [v c1]. simpl in Hv, Hk', Hc'. subst v.
  assert (Hk1 : knows c0 c1) by (by eapply knows_trans).
  destruct (IH (needs_verdict (says geo network in_set (matcher rule) s c0 (nr || no_resolve rule) (ext || extended rule)) n) c1 Hk1 Hc') as (Hp & Hk2 & Hc2).
  destruct (says geo network in_set (matcher rule) s c0 _ _) eqn:Hs; simpl.
  1: { split; [|done]. split; [done|]. exists rule. split; [left|done]. }
  all: simpl in Hp; split; [|done]; destruct (linear_eval _ _ _ _ _ _ _ _ _) as [[j|n'] c2]; simpl in *;
    [destruct Hp as (? & rule' & ? & ?); split; [done|exists rule'; split; [by right|done]]
    |destruct Hp as (? & ->); split; [done|]; by rewrite needs_of_cons].
Qed.

Definition asns_reason (set : CompiledSet) (s : SessionInfo) (c : EvalCtx) (nr : bool) (i : Z) : Prop :=
  exists ip a, target_ip s c (nr || negb (asns_resolve set)) FamilyAny = Ok ip /\ geo_asn geo ip = Known a /\ asns set !! a = Some i.

Lemma asns_tells c0 set s nr n c : knows c0 c -> caches_ok geo c ->
  let r := asns_eval geo set s nr n c in
  part_tells (if bool_decide (asns set = ∅) then [] else [asns_says geo set s c0 nr]) (asns_reason set s c0 nr) n r.1
  /\ knows c0 r.2 /\ caches_ok geo r.2.
Proof.
  intros Hk Hc. unfold asns_eval. case_bool_decide as He; [simpl; by rewrite needs_of_nil|].
  rewrite <- (target_ip_knows s c0 c _ _ Hk). unfold asns_says.
  destruct (target_ip s c0 (nr || negb (asns_resolve set)) FamilyAny) as [ip|v] eqn:Ht; simpl.
  - destruct (asn_tells geo ip c Hc) as (Hv & Hk' & Hc'). destruct (asn geo ip c) as [g c1]. simpl in Hv, Hk', Hc'. subst g.
    assert (Hk1 : knows c0 c1) by (by eapply knows_trans).
    destruct (geo_asn geo ip) as [| |a] eqn:Ha; simpl; rewrite ?needs_of_one; try done.
    destruct (asns set !! a) as [i|] eqn:Hi; simpl; rewrite ?needs_of_one; [|done]. split; [|done]. split; [done|]. by exists ip, a.
  - split; [|done]. destruct v; try by rewrite needs_of_one.
    by destruct (target_ip_err _ _ _ _ _ Ht) as [|[|]].
Qed.

Definition ips_reason (set : CompiledSet) (s : SessionInfo) (c : EvalCtx) (nr : bool) (i : Z) : Prop :=
  exists family ip, family <> FamilyAny /\ target_ip s c (nr || negb (ips_resolve set)) family = Ok ip /\ IpIndex.lookup (ips set) ip = Some i.

Lemma ips_tells c0 set families s nr n c : knows c0 c -> Forall (fun family => family <> FamilyAny) families ->
  part_tells (map (ips_says set s c0 nr) families) (ips_reason set s c0 nr) n (ips_eval set families s nr n c).
Proof.
  intros Hk Hf. revert n. induction Hf as [|family families Hne _ IH]; intros n; [simpl; by rewrite needs_of_nil|].
  cbn [ips_eval map]. rewrite <- (target_ip_knows s c0 c _ _ Hk). unfold ips_says at 1.
  destruct (target_ip s c0 (nr || negb (ips_resolve set)) family) as [ip|v] eqn:Ht; simpl.
  - destruct (IpIndex.lookup (ips set) ip) as [i|] eqn:Hi.
    + split; [done|]. by exists family, ip.
    + specialize (IH n). by destruct (ips_eval _ _ _ _ _ _).
  - specialize (IH (needs_verdict v n)). destruct (target_ip_err _ _ _ _ _ Ht) as [->|[-> | ->]];
      destruct (ips_eval _ _ _ _ _ _); simpl in *; rewrite ?needs_of_cons; done.
Qed.

(** Why a set reports an entry. *)
Definition set_reason (set : CompiledSet) (s : SessionInfo) (c : EvalCtx) (nr ext : bool) (i : Z) : Prop :=
  domain_hit (domains set) (domain_targets s (ext || set_extended set)) = Some i
  \/ linear_reason (linear set) s c nr ext i \/ asns_reason set s c nr i \/ ips_reason set s c nr i.

Definition set_tells (set : CompiledSet) (s : SessionInfo) (c : EvalCtx) (nr ext : bool) (r : SetVerdict * EvalCtx) : Prop :=
  tells geo (set_says geo network in_set set s c nr ext) c (verdict r.1, r.2)
  /\ (verdict r.1 = Match -> exists i, r.1 = hit set i /\ set_reason set s c nr ext i).

Lemma any_of_match vs : existsb (is_v Match) vs = true -> any_of vs = Match.
Proof. unfold any_of. by intros ->. Qed.

Lemma any_of_needs vs : existsb (is_v Match) vs = false ->
  any_of vs = default NoMatch (let n := needs_of vs (mkNeeds false false false) in still_needs (n_connection n) (n_process n) (n_resolve n)).
Proof. unfold any_of. by intros ->. Qed.

Lemma hit_tells set s c nr ext i c' : set_says geo network in_set set s c nr ext = Match -> knows c c' -> caches_ok geo c' ->
  set_reason set s c nr ext i -> set_tells set s c nr ext (hit set i, c').
Proof. intros Hs Hk Hc Hi. split; [done|]. intros _. by exists i. Qed.

Lemma ips_part_tells c0 set s nr n c : knows c0 c ->
  part_tells (if is_empty (ips set) then [] else [ips_says set s c0 nr FamilyV4; ips_says set s c0 nr FamilyV6]) (ips_reason set s c0 nr) n
    (if is_empty (ips set) then inr n else ips_eval set [FamilyV4; FamilyV6] s nr n c).
Proof. intros Hk. destruct (is_empty (ips set)); [simpl; by rewrite needs_of_nil|]. apply (ips_tells c0 set [FamilyV4; FamilyV6]); [done|by repeat constructor]. Qed.

Lemma domains_part set s ext (found := if domains_empty (domains set) then None else domain_hit (domains set) (domain_targets s (ext || set_extended set))) :
  let vs := if domains_empty (domains set) then [] else [domains_say set s ext] in
  match found with
  | Some i => existsb (is_v Match) vs = true /\ domain_hit (domains set) (domain_targets s (ext || set_extended set)) = Some i
  | None => existsb (is_v Match) vs = false /\ forall n, needs_of vs n = n
  end.
Proof.
  subst found. unfold domains_say. destruct (domains_empty (domains set)); [split; [done|apply needs_of_nil]|].
  destruct (domain_hit _ _); [done|]. split; [done|]. intros n. by rewrite needs_of_one.
Qed.

Lemma set_eval_tells set s c nr ext : caches_ok geo c -> set_tells set s c nr ext (set_eval geo network sets set s c nr ext).
Proof.
  intros Hc. unfold set_eval. pose proof (domains_part set s ext) as Hp0. cbv zeta in Hp0.
  assert (Hfound : forall vs, existsb (is_v Match) vs = true -> (forall v, v ∈ vs ->
    v ∈ (if domains_empty (domains set) then [] else [domains_say set s ext]) ++ linear_says geo network in_set set s c nr ext
        ++ (if bool_decide (asns set = ∅) then [] else [asns_says geo set s c nr])
        ++ (if is_empty (ips set) then [] else [ips_says set s c nr FamilyV4; ips_says set s c nr FamilyV6])) ->
    set_says geo network in_set set s c nr ext = Match).
  { intros vs Hm Hin. apply any_of_match. apply existsb_exists in Hm as (v & Hv & Hm). apply existsb_exists. exists v. split; [|done].
    apply list_elem_of_In, Hin. by apply list_elem_of_In. }
  destruct (if domains_empty (domains set) then None else _) as [i|]; destruct Hp0 as [Hm0 Hp0].
  { apply hit_tells; [|done|done|by left]. apply (Hfound _ Hm0). set_solver. }
  destruct (linear_tells c (linear set) s nr ext (mkNeeds false false false) c (knows_refl c) Hc) as (Hp1 & Hk1 & Hc1).
  fold (linear_says geo network in_set set s c nr ext) in Hp1.
  destruct (linear_eval _ _ _ _ _ _ _ _ _) as [[i|n1] c1]; simpl in Hp1, Hk1, Hc1; destruct Hp1 as [Hm1 Hp1].
  { apply hit_tells; [|done|done|right; by left]. apply (Hfound _ Hm1). set_solver. }
  destruct (asns_tells c set s nr n1 c1 Hk1 Hc1) as (Hp2 & Hk2 & Hc2).
  destruct (asns_eval _ _ _ _ _ _) as [[i|n2] c2]; simpl in Hp2, Hk2, Hc2; destruct Hp2 as [Hm2 Hp2].
  { apply hit_tells; [|done|done|right; right; by left]. apply (Hfound _ Hm2). set_solver. }
  pose proof (ips_part_tells c set s nr n2 c2 Hk2) as Hp3.
  destruct (if is_empty (ips set) then inr _ else _) as [i|n3]; destruct Hp3 as [Hm3 Hp3].
  { apply hit_tells; [|done|done|right; right; by right]. apply (Hfound _ Hm3). set_solver. }
  subst n1 n2 n3. split; [split; [|done]|].
  - unfold set_says. simpl. rewrite any_of_needs by (by rewrite !existsb_app, Hm0, Hm1, Hm2, Hm3). cbn zeta. by rewrite !needs_of_app, Hp0.
  - simpl. unfold still_needs. by repeat case_match.
Qed.

End sets.

(** ** [eval] *)

Section whole.
Context {D : Deps} (geo : GeoLookup) (network : option (NetworkFacts * bool)) (handles : Z -> CompiledSet).

Lemma sets_say_knows depth h s c c' nr ext : knows c c' ->
  sets_say geo network handles depth h s c nr ext = sets_say geo network handles depth h s c' nr ext.
Proof.
  intros Hk. apply (sets_say_R geo network handles eq s s c c'); try done.
  - intros vs vs' Hvs. apply list_eq_Forall2 in Hvs. by rewrite Hvs.
  - intros vs vs' Hvs. apply list_eq_Forall2 in Hvs. by rewrite Hvs.
  - by intros v v' ->.
  - intros. by apply says_leaf_knows.
  - intros. unfold ips_says. by rewrite (target_ip_knows s c c').
  - intros. unfold asns_says. by rewrite (target_ip_knows s c c').
Qed.

Lemma set_calls_tell depth : calls_tell geo (set_calls geo network handles depth) (sets_say geo network handles depth).
Proof.
  induction depth as [|depth IH].
  - split; [by intros; apply (sets_say_knows 0)|done].
  - split; [by intros; apply (sets_say_knows (S depth))|]. simpl. intros h s c nr ext Hc.
    by destruct (set_eval_tells geo network _ _ IH (handles h) s c nr ext Hc).
Qed.

(** What a rule says, with all of the sets there. *)
Definition rule_says (m : Matcher) (s : SessionInfo) (c : EvalCtx) (nr ext : bool) : Verdict :=
  says geo network (sets_say geo network handles MAX_NESTING) m s c nr ext.

Lemma eval_tells m s c nr ext : caches_ok geo c -> tells geo (rule_says m s c nr ext) c (eval geo network handles m s c nr ext).
Proof. apply meval_tells, set_calls_tell. Qed.

Lemma rule_says_knows m s c c' nr ext : knows c c' -> rule_says m s c nr ext = rule_says m s c' nr ext.
Proof. intros Hk. apply says_knows; [done|]. intros. by apply sets_say_knows. Qed.

End whole.

(** ** What knowing more changes

    How the verdict of a rule ([RuleSays.v]) moves when the process, the
    addresses or the connection become known: what is asked for is not asked
    for again, and a verdict that did not wait for it stays. *)

(** *** The connectives *)

Lemma waits_choice vs o : waits vs o = o \/ waits vs o ∈ vs.
Proof.
  unfold waits. rewrite !existsb_is. unfold still_needs. repeat case_bool_decide; auto.
Qed.

Lemma all_of_choice vs : all_of vs = Match \/ all_of vs ∈ vs.
Proof. unfold all_of. rewrite existsb_is. case_bool_decide; [by right|apply waits_choice]. Qed.

Lemma any_of_choice vs : any_of vs = NoMatch \/ any_of vs ∈ vs.
Proof. unfold any_of. rewrite existsb_is. case_bool_decide; [by right|apply waits_choice]. Qed.

(** [w] goes before whatever else [vs] waits for. *)
Definition first_wait (w : Verdict) (vs : list Verdict) : Prop :=
  w = NeedsConnection \/ (w = NeedsProcess /\ NeedsConnection ∉ vs).

Lemma waits_first w vs o : first_wait w vs -> w ∈ vs -> waits vs o = w.
Proof.
  intros Hw Hin. unfold waits, still_needs. rewrite !existsb_is.
  destruct Hw as [->|[-> Hn]]; [by rewrite bool_decide_eq_true_2|]. by rewrite bool_decide_eq_false_2, bool_decide_eq_true_2.
Qed.

(** A verdict that may still be [w], and is the other when it is not. *)
Definition upto (w v v' : Verdict) : Prop := v = w \/ v = v'.

Lemma upto_same w vs vs' : Forall2 (upto w) vs vs' -> w ∉ vs -> vs = vs'.
Proof.
  induction 1 as [|v v' l l' Hv _ IH]; [done|]. intros [Hv' Hn]%not_elem_of_cons.
  destruct Hv as [->| ->]; [done|]. by rewrite (IH Hn).
Qed.

Lemma upto_keeps w vs vs' v : Forall2 (upto w) vs vs' -> v <> w -> v ∈ vs -> v ∈ vs'.
Proof.
  intros Hvs Hn. induction Hvs as [|a a' l l' Ha _ IH]; [done|]. rewrite !elem_of_cons. intros [->|Hin]; [|right; by apply IH].
  left. by destruct Ha.
Qed.

Section upto.
Context (w : Verdict) (vs vs' : list Verdict) (Hw : first_wait w vs) (Hvs : Forall2 (upto w) vs vs').

Lemma wait_not_settled : w <> Match /\ w <> NoMatch.
Proof. by destruct Hw as [->|[-> _]]. Qed.

(** The verdict [stop] ends a connective at once. *)
Lemma upto_connective stop o : stop <> w ->
  upto w (if existsb (is_v stop) vs then stop else waits vs o) (if existsb (is_v stop) vs' then stop else waits vs' o).
Proof.
  intros Hs. rewrite !existsb_is. destruct (decide (w ∈ vs)) as [Hin|Hn].
  - case_bool_decide as Hstop; [right; by rewrite bool_decide_eq_true_2 by (by eapply upto_keeps)|]. left. by apply waits_first.
  - right. by rewrite <- (upto_same _ _ _ Hvs Hn).
Qed.

Lemma upto_all : upto w (all_of vs) (all_of vs').
Proof. apply upto_connective. by destruct wait_not_settled. Qed.

Lemma upto_any : upto w (any_of vs) (any_of vs').
Proof. apply upto_connective. by destruct wait_not_settled. Qed.

End upto.

(** *** What a rule may wait for *)

Section waiting.
Context {D : Deps} (geo : GeoLookup) (network : option (NetworkFacts * bool)) (handles : Z -> CompiledSet).

(** What is not known yet. *)
Definition may_wait (s : SessionInfo) (c : EvalCtx) (v : Verdict) : Prop :=
  match v with
  | Match | NoMatch => True
  | NeedsConnection => before_connection c = true
  | NeedsProcess => asked c = NotAsked /\ process s = None
  | NeedsResolve => resolved c = None
  end.

Lemma may_from_bool s c b : may_wait s c (from_bool b).
Proof. by destruct b. Qed.

Lemma may_target s c nr family test : may_wait s c (ip_verdict (target_ip s c nr family) test).
Proof.
  unfold target_ip. destruct (as_ip (dst_host s)); [case_match; simpl; [apply may_from_bool|done]|].
  destruct (before_connection c) eqn:Hb; [done|]. destruct (resolved c) eqn:Hr; [|by destruct nr].
  unfold ok_or. case_match; simpl; [apply may_from_bool|done].
Qed.

Lemma may_process s c pp : may_wait s c (process_verdict s c pp).
Proof.
  unfold process_verdict. destruct (process s) eqn:Hp; [apply may_from_bool|].
  destruct (asked c) eqn:Ha; [done|apply may_from_bool].
Qed.

Lemma may_leaf s c in_set m nr ext : simple m -> may_wait s c (says geo network in_set m s c nr ext).
Proof.
  intros Hm. destruct m; try done; simpl; destruct (before_connection c) eqn:Hb; simpl; try done;
    auto using may_from_bool, may_target, may_process.
  unfold url_verdict. repeat case_match; auto using may_from_bool; done.
Qed.

Lemma may_all s c vs : Forall (may_wait s c) vs -> may_wait s c (all_of vs).
Proof. intros Hvs. destruct (all_of_choice vs) as [->|Hin]; [done|]. by eapply Forall_forall in Hin. Qed.

Lemma may_any s c vs : Forall (may_wait s c) vs -> may_wait s c (any_of vs).
Proof. intros Hvs. destruct (any_of_choice vs) as [->|Hin]; [done|]. by eapply Forall_forall in Hin. Qed.

Lemma may_negated s c v : may_wait s c v -> may_wait s c (negated v).
Proof. by destruct v. Qed.

(** A rule waits only for what is not known. *)
Lemma rule_may_wait m s c nr ext : may_wait s c (rule_says geo network handles m s c nr ext).
Proof.
  pose proof (fun vs vs' => Forall2_Forall_l (fun v _ : Verdict => may_wait s c v) (may_wait s c) vs vs') as Hl.
  apply (says_transport geo network handles (fun v _ => may_wait s c v) s s c c); try done.
  - intros vs vs' Hvs. apply may_all, (Hl _ vs'); [done|]. by apply Forall_true.
  - intros vs vs' Hvs. apply may_any, (Hl _ vs'); [done|]. by apply Forall_true.
  - intros v _. apply may_negated.
  - intros. by apply may_leaf.
  - intros. apply may_target.
  - intros. apply may_target.
  - intros. apply may_from_bool.
Qed.

(** *** Asking for the process *)

Lemma upto_connected w s c vs vs' :
  Forall2 (fun v v' => may_wait s c v /\ upto w v v') vs vs' -> before_connection c = false ->
  Forall (may_wait s c) vs /\ Forall2 (upto w) vs vs' /\ (w = NeedsProcess -> first_wait w vs).
Proof.
  intros Hvs Hb. assert (Hm : Forall (may_wait s c) vs) by (induction Hvs as [|? ? ? ? []]; by constructor).
  split; [done|]. split; [induction Hvs as [|? ? ? ? []]; constructor; [done|]; by apply IHHvs; inversion Hm|].
  intros ->. right. split; [done|]. intros Hin. eapply Forall_forall in Hin; [|done]. simpl in Hin. congruence.
Qed.

Lemma asking_process m s c p nr ext : before_connection c = false -> asked c = NotAsked ->
  upto NeedsProcess (rule_says geo network handles m s c nr ext) (rule_says geo network handles m s (set_asked p c) nr ext).
Proof.
  intros Hb Ha.
  refine (proj2 (says_transport geo network handles (fun v v' => may_wait s c v /\ upto NeedsProcess v v') s s c (set_asked p c)
    _ _ _ _ _ _ _ _ MAX_NESTING m nr ext)).
  - split; [done|by right].
  - intros vs vs' Hvs. destruct (upto_connected _ _ _ _ _ Hvs Hb) as (Hm & Hu & Hf). split; [by apply may_all|]. apply upto_all; auto.
  - intros vs vs' Hvs. destruct (upto_connected _ _ _ _ _ Hvs Hb) as (Hm & Hu & Hf). split; [by apply may_any|]. apply upto_any; auto.
  - intros v v' [Hm [->| ->]]; (split; [by apply may_negated|]); [by left|by right].
  - intros in_set in_set' m' nr' ext' Hm. split; [by apply may_leaf|].
    destruct m'; try done; try (right; reflexivity). simpl. rewrite !andb_false_r. unfold process_verdict.
    destruct (process s); [by right|]. rewrite Ha. by left.
  - intros. split; [apply may_target|]. by right.
  - intros. split; [apply may_target|]. by right.
  - intros. split; [apply may_from_bool|]. by right.
Qed.

(** *** Without the connection *)

(** Two sessions that agree on what is known of a DNS query. *)
Definition same_query (s s' : SessionInfo) : Prop :=
  dst_host s = dst_host s' /\ src_ip s = src_ip s' /\ process s = process s' /\ sni s = sni s' /\ http_host s = http_host s'.

Lemma target_upto s s' c nr family test : dst_host s = dst_host s' -> before_connection c = true ->
  upto NeedsConnection (ip_verdict (target_ip s c nr family) test) (ip_verdict (target_ip s' (set_before false c) nr family) test).
Proof. intros He Hb. unfold target_ip. rewrite <- He, Hb. case_match; [by right|by left]. Qed.

Lemma connecting m s s' c nr ext : same_query s s' -> before_connection c = true ->
  upto NeedsConnection (rule_says geo network handles m s c nr ext) (rule_says geo network handles m s' (set_before false c) nr ext).
Proof.
  intros (Hd & Hs & Hp & Hn & Hh) Hb. apply (says_transport geo network handles (upto NeedsConnection) s s').
  - by right.
  - intros. apply upto_all; [by left|done].
  - intros. apply upto_any; [by left|done].
  - intros v v' [->| ->]; [by left|by right].
  - intros in_set in_set' m' nr' ext' Hm.
    assert (domain_targets s ext' = domain_targets s' ext') as Ht by (unfold domain_targets; by rewrite Hd, Hn, Hh).
    destruct m'; try done; simpl; rewrite Hb; simpl; rewrite ?Ht; auto using target_upto; try (by right); try (by left).
    + right. unfold process_verdict. by rewrite Hp.
    + right. by rewrite Hs.
    + right. unfold hostname_type. by rewrite Hd.
  - intros. by apply target_upto.
  - intros. by apply target_upto.
  - intros. right. unfold domains_say, domain_targets. by rewrite Hd, Hn, Hh.
Qed.

End waiting.
