(* ===== verification/RuleSet.v ===== *)
(** * Compiling a set

    [CompiledSet::compile] of [crates/rurge-rules/src/set.rs]: the lines of a
    rule set or a domain set sorted into a domain index, an IP index, a table
    of AS numbers and what is left, in order.  [set_is_its_lines]: what the
    compiled set says is what its lines say one by one, and what it reports is
    a line that matches. *)

From S2P Require Import Prelude FakeIpAddr DomainIndex Glob IpIndex RuleMatcher RuleEval RuleSays.

Section compile.
Context {D : Deps} (lookup_set : ResourceRef -> SetKind -> Z).

Inductive SetLine := RuleLine (sub : SubRule) | DomainLine (name : rstr) (suffix : bool).

Definition is_domain_rule (kind : RuleKind) : bool :=
  match kind with
  | KDomain _ | KDomainSuffix _ | KDomainKeyword _ | KDomainWildcard _ | KDomainSet _ => true
  | _ => false
  end.

(** The kinds that may ask for addresses once compiled. *)
Definition may_need_dns (kind : RuleKind) : bool :=
  match kind with
  | KGeoIp _ | KGeoIpUnknown | KIpAsnUnknown | KRuleSet _ | KDomainSet _ | KAnd _ | KOr _ | KNot _ => true
  | _ => false
  end.

Definition carries_extended (line : SetLine) : bool :=
  match line with
  | RuleLine sub => sub_extended sub && is_domain_rule (sub_kind sub)
  | DomainLine _ _ => false
  end.

(** What [compile] has built so far. *)
Record Building := mkBuilding {
  b_domains : list Item;
  b_ips : IpIndex Nets4 Nets6;
  b_linear : list (Z * CompiledSubRule);
  b_entries : list rstr;
  b_needs_dns : bool;
  b_ips_resolve : bool;
  b_asns : gmap Z Z;
  b_asns_resolve : bool;
}.

Definition new_building : Building := mkBuilding [] IpIndex.empty [] [] false false ∅ false.

Definition push_entry (e : rstr) (b : Building) : Building :=
  mkBuilding (b_domains b) (b_ips b) (b_linear b) (b_entries b ++ [e]) (b_needs_dns b) (b_ips_resolve b) (b_asns b) (b_asns_resolve b).
Definition with_domains (d : list Item) (b : Building) : Building :=
  mkBuilding d (b_ips b) (b_linear b) (b_entries b) (b_needs_dns b) (b_ips_resolve b) (b_asns b) (b_asns_resolve b).
Definition with_ips (x : IpIndex Nets4 Nets6) (no_resolve : bool) (b : Building) : Building :=
  mkBuilding (b_domains b) x (b_linear b) (b_entries b) (b_needs_dns b || negb no_resolve) (b_ips_resolve b || negb no_resolve) (b_asns b) (b_asns_resolve b).
Definition with_asns (m : gmap Z Z) (no_resolve : bool) (b : Building) : Building :=
  mkBuilding (b_domains b) (b_ips b) (b_linear b) (b_entries b) (b_needs_dns b || negb no_resolve) (b_ips_resolve b) m (b_asns_resolve b || negb no_resolve).
Definition with_linear (l : list (Z * CompiledSubRule)) (dns : bool) (b : Building) : Building :=
  mkBuilding (b_domains b) (b_ips b) l (b_entries b) (b_needs_dns b || dns) (b_ips_resolve b) (b_asns b) (b_asns_resolve b).

(** One turn of the loop. *)
Definition compile_line (extended : bool) (i : Z) (line : SetLine) (b : Building) : Building :=
  match line with
  | DomainLine name suffix =>
      if suffix then push_entry (46 :: name) (with_domains (add_suffix name i (b_domains b)) b)
      else push_entry name (with_domains (add_exact name i (b_domains b)) b)
  | RuleLine sub =>
      let b := push_entry (sub_raw sub) b in
      match sub_kind sub with
      | KDomain d => with_domains (add_exact d i (b_domains b)) b
      | KDomainSuffix d => with_domains (add_suffix d i (b_domains b)) b
      | KIpCidr net => with_ips (add_v4 net i (b_ips b)) (sub_no_resolve sub) b
      | KIpCidr6 net => with_ips (add_v6 net i (b_ips b)) (sub_no_resolve sub) b
      | KIpAsn n =>
          with_asns (match b_asns b !! n with Some _ => b_asns b | None => <[n := i]> (b_asns b) end) (sub_no_resolve sub) b
      | other =>
          let '(mkSub m nr e raw) := compile_subrule lookup_set sub in
          let rule := mkSub m nr (e || (extended && is_domain_rule other)) raw in
          with_linear (b_linear b ++ [(i, rule)]) (negb (sub_no_resolve sub) && may_need_dns other) b
      end
  end.

(** [u32::try_from(i)] panics past 32 bits. *)
Fixpoint compile_lines (extended : bool) (i : Z) (lines : list SetLine) (b : Building) : option Building :=
  match lines with
  | [] => Some b
  | line :: lines =>
      if i <=? u32_max then compile_lines extended (i + 1) lines (compile_line extended i line b) else None
  end.

(** [CompiledSet::compile]; [None] is a panic. *)
Definition compile_set (set_name : rstr) (lines : list SetLine) : option CompiledSet :=
  let extended := existsb carries_extended lines in
  b ← compile_lines extended 0 lines new_building;
  d ← DomainIndex.build (b_domains b);
  Some (mkSet set_name (b_needs_dns b) extended d (b_ips b) (b_ips_resolve b) (b_asns b) (b_asns_resolve b) (b_linear b) (b_entries b)).

(** [CompiledSet::empty]. *)
Definition empty_set (set_name : rstr) : CompiledSet :=
  mkSet set_name false false (mkIndex [] [] []) IpIndex.empty false ∅ false [] [].

(** ** The lines, sorted *)

Definition name_of (p : Z * SetLine) : option Name :=
  match p.2 with
  | DomainLine name suffix => Some (mkName name p.1 (if suffix then Suffix else Exact))
  | RuleLine (mkSubRule (KDomain d) _ _ _) => Some (mkName d p.1 Exact)
  | RuleLine (mkSubRule (KDomainSuffix d) _ _ _) => Some (mkName d p.1 Suffix)
  | _ => None
  end.

Definition net4_of (p : Z * SetLine) : option (@Net Nets4 * Z) :=
  match p.2 with RuleLine (mkSubRule (KIpCidr net) _ _ _) => Some (net, p.1) | _ => None end.

Definition net6_of (p : Z * SetLine) : option (@Net Nets6 * Z) :=
  match p.2 with RuleLine (mkSubRule (KIpCidr6 net) _ _ _) => Some (net, p.1) | _ => None end.

Definition asn_of (p : Z * SetLine) : option (Z * Z) :=
  match p.2 with RuleLine (mkSubRule (KIpAsn n) _ _ _) => Some (n, p.1) | _ => None end.

Definition indexed (kind : RuleKind) : bool :=
  match kind with KDomain _ | KDomainSuffix _ | KIpCidr _ | KIpCidr6 _ | KIpAsn _ => true | _ => false end.

Definition linear_of (extended : bool) (p : Z * SetLine) : option (Z * CompiledSubRule) :=
  match p.2 with
  | RuleLine (mkSubRule kind nr e raw) =>
      if indexed kind then None else Some (p.1, mkSub (compile lookup_set kind) nr (e || (extended && is_domain_rule kind)) raw)
  | _ => None
  end.

Definition asks (p : Z * SetLine) : bool := match p.2 with RuleLine sub => negb (sub_no_resolve sub) | _ => false end.

Definition text_of (line : SetLine) : rstr :=
  match line with
  | RuleLine sub => sub_raw sub
  | DomainLine name true => 46 :: name
  | DomainLine name false => name
  end.

(** ** What a line says *)

(** A line on its own, in a set that is [extended] or not. *)
Definition line_says (geo : GeoLookup) (network : option (NetworkFacts * bool)) (in_set : SetSays)
    (set_extended : bool) (line : SetLine) (s : SessionInfo) (c : EvalCtx) (nr ext : bool) : Verdict :=
  let names k d := from_bool (existsb (fun h => bool_decide (host_match k d h)) (domain_targets s (ext || set_extended))) in
  match line with
  | DomainLine name suffix => names (if suffix then Suffix else Exact) name
  | RuleLine (mkSubRule kind nr' e _) =>
      match kind with
      | KDomain d => names Exact d
      | KDomainSuffix d => names Suffix d
      | _ => says geo network in_set (compile lookup_set kind) s c (nr || nr') (ext || (e || (set_extended && is_domain_rule kind)))
      end
  end.

(** ** What was built *)

Fixpoint numbered (i : Z) (lines : list SetLine) : list (Z * SetLine) :=
  match lines with
  | [] => []
  | line :: lines => (i, line) :: numbered (i + 1) lines
  end.

Definition some {A} (o : option A) : bool := match o with Some _ => true | None => false end.

Definition asks_ip (p : Z * SetLine) : bool := (some (net4_of p) || some (net6_of p)) && asks p.
Definition asks_asn (p : Z * SetLine) : bool := some (asn_of p) && asks p.

Record built_ok `{!@NetLaws Nets4, !@NetLaws Nets6} (extended : bool) (ps : list (Z * SetLine)) (b : Building) : Prop := mkBuilt {
  bo_domains : b_domains b = built (omap name_of ps);
  bo_ips : index_holds (omap net4_of ps) (omap net6_of ps) (b_ips b);
  bo_linear : b_linear b = omap (linear_of extended) ps;
  bo_entries : b_entries b = map (fun p => text_of p.2) ps;
  bo_ips_resolve : b_ips_resolve b = existsb asks_ip ps;
  bo_asns : forall a i, b_asns b !! a = Some i -> (a, i) ∈ omap asn_of ps;
  bo_asns_all : forall a i, (a, i) ∈ omap asn_of ps -> is_Some (b_asns b !! a);
  bo_asns_resolve : b_asns_resolve b = existsb asks_asn ps;
}.

Context `{!@NetLaws Nets4, !@NetLaws Nets6}.

Lemma built_ok_new extended : built_ok extended [] new_building.
Proof.
  split; try done; [apply index_holds_empty|..].
  - by intros a i ?%elem_of_nil.
Qed.

Lemma built_snoc names n : built (names ++ [n]) = add (name_kind n) (name_domain n) (name_entry n) (built names).
Proof. unfold built. by rewrite fold_left_app. Qed.

Lemma compile_line_ok extended ps b i line : built_ok extended ps b ->
  built_ok extended (ps ++ [(i, line)]) (compile_line extended i line b).
Proof.
  intros [Hd Hi Hl He Hr Ha Haa Har].
  destruct line as [[kind nr e raw]|nm sfx]; [destruct kind|destruct sfx]; split; simpl;
    rewrite ?omap_app, ?map_app, ?existsb_app; simpl; rewrite ?app_nil_r, ?orb_false_r; simpl; try done;
    try (rewrite built_snoc, Hd; done);
    try (rewrite Hl; done); try (rewrite He; done); try (rewrite Hr; done); try (rewrite Har; done).
  - by apply add_v4_holds.
  - by apply add_v6_holds.
  - intros a j. destruct (b_asns b !! n) eqn:Hn; [intros Hj; apply elem_of_app; left; by apply Ha|].
    rewrite lookup_insert. case_decide as Ha'; [intros [= ->]; subst; apply elem_of_app; right; left|].
    intros Hj. apply elem_of_app. left. by apply Ha.
  - intros a j [Hj|[= -> ->]%list_elem_of_singleton]%elem_of_app; destruct (b_asns b !! n) eqn:Hn;
      rewrite ?lookup_insert, ?Hn; try case_decide; try done; by eapply Haa.
Qed.

Lemma compile_lines_ok extended i lines ps b : built_ok extended ps b -> i + Z.of_nat (length lines) <= u32_max ->
  exists b', compile_lines extended i lines b = Some b' /\ built_ok extended (ps ++ numbered i lines) b'.
Proof.
  revert i ps b. induction lines as [|line lines IH]; intros i ps b Hb Hlen; cbn [compile_lines numbered length] in *.
  - exists b. by rewrite app_nil_r.
  - rewrite (proj2 (Z.leb_le _ _)) by lia. destruct (IH (i + 1) (ps ++ [(i, line)]) (compile_line extended i line b)) as (b' & Hc & Hb').
    + by apply compile_line_ok.
    + lia.
    + exists b'. by rewrite <- app_assoc in Hb'.
Qed.

Lemma numbered_lookup i lines p : p ∈ numbered i lines -> i <= p.1 < i + Z.of_nat (length lines) /\ lines !! Z.to_nat (p.1 - i) = Some p.2.
Proof.
  revert i. induction lines as [|line lines IH]; intros i; simpl; [by intros ?%elem_of_nil|].
  intros [->|Hp]%elem_of_cons; simpl.
  - split; [lia|]. by rewrite Z.sub_diag.
  - destruct (IH _ Hp) as [Hr Hl]. split; [lia|]. replace (Z.to_nat (p.1 - i)) with (S (Z.to_nat (p.1 - (i + 1)))) by lia. done.
Qed.

Lemma numbered_snd i lines : map snd (numbered i lines) = lines.
Proof. revert i. induction lines as [|line lines IH]; intros i; [done|]. simpl. by rewrite IH. Qed.

Lemma numbered_names lines : Z.of_nat (length lines) < u32_max ->
  Forall (fun n => name_entry n < NO_ENTRY) (omap name_of (numbered 0 lines)).
Proof.
  intros Hlen. apply Forall_forall. intros n (p & Hp & Hn)%list_elem_of_omap. destruct (numbered_lookup _ _ _ Hp) as [Hr _].
  assert (name_entry n = p.1) as ->; [|unfold NO_ENTRY; lia].
  unfold name_of in Hn. by repeat case_match; simplify_eq/=.
Qed.

(** A set compiles, and is what its lines make it. *)
Lemma compile_set_ok set_name lines : Z.of_nat (length lines) < u32_max ->
  exists set b, compile_set set_name lines = Some set
    /\ built_ok (existsb carries_extended lines) (numbered 0 lines) b
    /\ DomainIndex.build (b_domains b) = Some (domains set)
    /\ ips set = b_ips b /\ ips_resolve set = b_ips_resolve b /\ asns set = b_asns b /\ asns_resolve set = b_asns_resolve b
    /\ linear set = b_linear b /\ entries set = b_entries b /\ set_extended set = existsb carries_extended lines /\ name set = set_name.
Proof.
  intros Hlen. destruct (compile_lines_ok (existsb carries_extended lines) 0 lines [] new_building) as (b & Hb & Hok);
    [apply built_ok_new|lia|]. simpl in Hok. unfold compile_set. rewrite Hb. cbn [mbind option_bind].
  rewrite (bo_domains _ _ _ Hok). destruct (index_finds (omap name_of (numbered 0 lines))) as (idx & Hidx & _); [by apply numbered_names|].
  rewrite Hidx. eexists _, b. split; [done|]. split; [done|]. rewrite (bo_domains _ _ _ Hok). by repeat split.
Qed.

(** ** What was built says what the lines say *)

Section lines.
Context (geo : GeoLookup) (network : option (NetworkFacts * bool)) (in_set : SetSays).
Context (s : SessionInfo) (c : EvalCtx) (nr ext : bool) (set : CompiledSet) (lines : list SetLine) (b : Building).
Context (Hok : built_ok (set_extended set) (numbered 0 lines) b).
Context (Hidx : DomainIndex.build (b_domains b) = Some (domains set)).
Context (Hips : ips set = b_ips b) (Hipr : ips_resolve set = b_ips_resolve b) (Hasns : asns set = b_asns b) (Hasr : asns_resolve set = b_asns_resolve b).
Context (Hlin : linear set = b_linear b) (Hlen : Z.of_nat (length lines) < u32_max).

Abbreviation ps := (numbered 0 lines).
Abbreviation says_line p := (line_says geo network in_set (set_extended set) (snd p) s c nr ext).

(** A line of names says yes when one of the targets has the name. *)
Lemma name_line p n : name_of p = Some n -> says_line p
  = from_bool (existsb (fun h => bool_decide (host_match (name_kind n) (name_domain n) h)) (domain_targets s (ext || set_extended set))).
Proof.
  destruct p as [i [[[] ? ? ?]|nm []]]; intros [= <-]; done.
Qed.

Lemma domain_hit_spec targets :
  match domain_hit (domains set) targets with
  | Some i => exists n t, n ∈ omap name_of ps /\ t ∈ targets /\ host_match (name_kind n) (name_domain n) t /\ name_entry n = i
  | None => forall n t, n ∈ omap name_of ps -> t ∈ targets -> ~ host_match (name_kind n) (name_domain n) t
  end.
Proof.
  destruct (index_finds (omap name_of ps) (numbered_names lines Hlen)) as (idx & Hb & Hl). rewrite <- (bo_domains _ _ _ Hok), Hidx in Hb. injection Hb as <-.
  induction targets as [|t targets IH]; simpl; [by intros n t _ ?%elem_of_nil|].
  destruct (Hl t) as (h & -> & Hspec). destruct h as [h|].
  - destruct Hspec as [(n & Hn & Hm & He & _) _]. exists n, t. split; [done|]. split; [left|done].
  - destruct (domain_hit (domains set) targets) as [i|].
    + destruct IH as (n & t' & Hn & Ht & Hm & He). exists n, t'. split; [done|]. split; [by right|done].
    + intros n t' Hn [->|Ht]%elem_of_cons; [by apply Hspec|by apply IH].
Qed.

Lemma domains_empty_hit targets : domains_empty (domains set) = true -> domain_hit (domains set) targets = None.
Proof.
  unfold domains_empty. intros He%bool_decide_eq_true. induction targets as [|t targets IH]; [done|]. simpl. by rewrite lookup_no_keys.
Qed.

(** A part of the set has a verdict other than no exactly when a line of its
    kind has. *)
Definition same_as (vs : list Verdict) (of_kind : Z * SetLine -> bool) : Prop :=
  forall v, v <> NoMatch -> v ∈ vs <-> exists p, p ∈ ps /\ of_kind p = true /\ says_line p = v.

Lemma domains_same : same_as (if domains_empty (domains set) then [] else [domains_say set s ext]) (fun p => some (name_of p)).
Proof.
  intros v Hv. pose proof (domain_hit_spec (domain_targets s (ext || set_extended set))) as Hspec.
  assert (Hd : v ∈ (if domains_empty (domains set) then [] else [domains_say set s ext])
    <-> v = Match /\ is_Some (domain_hit (domains set) (domain_targets s (ext || set_extended set)))).
  { destruct (domains_empty (domains set)) eqn:He.
    - rewrite domains_empty_hit by done. split; [by intros ?%elem_of_nil|by intros [_ [? ?]]].
    - rewrite list_elem_of_singleton. unfold domains_say. case_bool_decide as Hs; simpl; split; naive_solver. }
  rewrite Hd. clear Hd. split.
  - intros [-> [i Hi]]. rewrite Hi in Hspec. destruct Hspec as (n & t & (p & Hp & Hn)%list_elem_of_omap & Ht & Hm & _).
    exists p. split; [done|]. split; [by rewrite Hn|]. rewrite (name_line p n Hn).
    rewrite (proj2 (existsb_exists _ _)); [done|]. exists t. split; [by apply list_elem_of_In|by apply bool_decide_eq_true].
  - intros (p & Hp & Hs & <-). destruct (name_of p) as [n|] eqn:Hn; [|done]. rewrite (name_line p n Hn) in Hv |- *.
    destruct (existsb _ _) eqn:He; [|done]. split; [done|]. apply existsb_exists in He as (t & Ht%list_elem_of_In & Hm%bool_decide_eq_true).
    destruct (domain_hit _ _); [done|]. exfalso. eapply Hspec; [|exact Ht|exact Hm]. apply list_elem_of_omap. by exists p.
Qed.

Lemma linear_same : same_as (linear_says geo network in_set set s c nr ext) (fun p => some (linear_of (set_extended set) p)).
Proof.
  intros v Hv. unfold linear_says. rewrite Hlin, (bo_linear _ _ _ Hok). rewrite list_elem_of_fmap. split.
  - intros ([i r] & -> & (p & Hp & Hl)%list_elem_of_omap). exists p. split; [done|]. rewrite Hl. split; [done|].
    destruct p as [j [[kind nr' e raw]|]]; [|done]. unfold linear_of in Hl. simpl in Hl.
    destruct (indexed kind) eqn:Hi; [done|]. injection Hl as <- <-. simpl. by destruct kind.
  - intros (p & Hp & Hs & <-). destruct (linear_of (set_extended set) p) as [[i r]|] eqn:Hl; [|done].
    exists (i, r). split; [|apply list_elem_of_omap; by exists p].
    destruct p as [j [[kind nr' e raw]|]]; [|done]. unfold linear_of in Hl. simpl in Hl.
    destruct (indexed kind) eqn:Hi; [done|]. injection Hl as <- <-. simpl. by destruct kind.
Qed.

(** A line about addresses, whose test is [test]. *)
Lemma asn_line p n i : asn_of p = Some (n, i) ->
  says_line p = ip_verdict (target_ip s c (nr || negb (asks p)) FamilyAny) (fun ip => bool_decide (geo_asn geo ip = Known n)).
Proof. destruct p as [j [[[] nr' e raw]|]]; intros [= <- <-]. unfold asks. simpl. by rewrite andb_false_r, negb_involutive. Qed.

Lemma net4_line p n i : net4_of p = Some (n, i) ->
  says_line p = ip_verdict (target_ip s c (nr || negb (asks p)) FamilyV4) (net_contains (Net4 n)).
Proof. destruct p as [j [[[] nr' e raw]|]]; intros [= <- <-]. unfold asks. simpl. by rewrite andb_false_r, negb_involutive. Qed.

Lemma net6_line p n i : net6_of p = Some (n, i) ->
  says_line p = ip_verdict (target_ip s c (nr || negb (asks p)) FamilyV6) (net_contains (Net6 n)).
Proof. destruct p as [j [[[] nr' e raw]|]]; intros [= <- <-]. unfold asks. simpl. by rewrite andb_false_r, negb_involutive. Qed.

Lemma asns_empty : asns set = ∅ <-> forall p, p ∈ ps -> asn_of p = None.
Proof.
  rewrite Hasns. split.
  - intros He p Hp. destruct (asn_of p) as [[a i]|] eqn:Ha; [|done].
    assert ((a, i) ∈ omap asn_of ps) as Hin by (apply list_elem_of_omap; by exists p).
    destruct (bo_asns_all _ _ _ Hok a i Hin) as [j Hj]. by rewrite He, lookup_empty in Hj.
  - intros Hno. apply map_empty. intros a. destruct (b_asns b !! a) as [i|] eqn:Ha; [|done].
    apply (bo_asns _ _ _ Hok) in Ha as (p & Hp & Hpa)%list_elem_of_omap. by rewrite Hno in Hpa.
Qed.

(** The lines that wait for addresses, one by one and all together. *)
Lemma asks_some (of_kind : Z * SetLine -> bool) (all : bool) : all = existsb (fun p => of_kind p && asks p) ps ->
  forall v, v <> NoMatch ->
    (exists p, p ∈ ps /\ of_kind p = true /\ (if nr || negb (asks p) then NoMatch else NeedsResolve) = v)
    <-> (exists p, p ∈ ps /\ of_kind p = true) /\ (if nr || negb all then NoMatch else NeedsResolve) = v.
Proof.
  intros -> v Hv. destruct nr; simpl; [naive_solver|]. split.
  - intros (p & Hp & Hk & Ha). split; [by exists p|]. destruct (asks p) eqn:Hq; simpl in Ha; [|congruence].
    rewrite (proj2 (existsb_exists _ _)); [done|]. exists p. split; [by apply list_elem_of_In|by rewrite Hk, Hq].
  - intros [_ Ha]. destruct (existsb _ ps) eqn:He; simpl in Ha; [|congruence].
    apply existsb_exists in He as (p & Hp%list_elem_of_In & [Hk Hq]%andb_true_iff). exists p. by rewrite Hq.
Qed.

Lemma asns_same : same_as (if bool_decide (asns set = ∅) then [] else [asns_says geo set s c nr]) (fun p => some (asn_of p)).
Proof.
  intros v Hv. assert (Hd : v ∈ (if bool_decide (asns set = ∅) then [] else [asns_says geo set s c nr])
    <-> (exists p, p ∈ ps /\ some (asn_of p) = true) /\ asns_says geo set s c nr = v).
  { case_bool_decide as He.
    - split; [by intros ?%elem_of_nil|]. intros [(p & Hp & Ha) _]. rewrite (proj1 asns_empty He p Hp) in Ha. done.
    - rewrite list_elem_of_singleton. split; [intros ->|by intros [_ ->]]. split; [|done].
      destruct (decide (Exists (fun p => some (asn_of p) = true) ps)) as [Hx|Hx]; [by apply Exists_exists in Hx|].
      exfalso. apply He, asns_empty. intros p Hp. rewrite <- Forall_Exists_neg, Forall_forall in Hx. specialize (Hx p Hp). by destruct (asn_of p). }
  rewrite Hd. clear Hd. unfold asns_says. rewrite Hasr, (bo_asns_resolve _ _ _ Hok).
  assert (Hl : forall p, p ∈ ps -> some (asn_of p) = true -> exists n i, asn_of p = Some (n, i) /\ says_line p
    = ip_verdict (target_ip s c (nr || negb (asks p)) FamilyAny) (fun ip => bool_decide (geo_asn geo ip = Known n))).
  { intros p Hp Hs. destruct (asn_of p) as [[n i]|] eqn:Ha; [|done]. exists n, i. split; [done|]. by eapply asn_line. }
  destruct (target_ip_three s c) as [Ht|[Ht|(known & Ht & _)]]; rewrite Ht; simpl.
  - split; [intros [(p & Hp & Hs) <-]|intros (p & Hp & Hs & <-)].
    + exists p. split; [done|]. split; [done|]. destruct (Hl p Hp Hs) as (n & i & _ & ->). by rewrite Ht.
    + split; [by exists p|]. destruct (Hl p Hp Hs) as (n & i & _ & ->). by rewrite Ht.
  - rewrite <- (asks_some (fun p => some (asn_of p)) _ eq_refl v Hv). split; intros (p & Hp & Hs & Hq); exists p; (split; [done|]; split; [done|]);
      destruct (Hl p Hp Hs) as (n & i & _ & He); rewrite He in *; rewrite Ht in *; done.
  - destruct (known FamilyAny) as [ip|] eqn:Hk; simpl.
    2: { split; [by intros [_ <-]|]. intros (p & Hp & Hs & <-). destruct (Hl p Hp Hs) as (n & i & _ & He). rewrite He, Ht, Hk in Hv. done. }
    split.
    + intros [_ Hm]. destruct (geo_asn geo ip) as [| |a] eqn:Ha; simpl in Hm; try congruence. case_bool_decide as Hi; simpl in Hm; [|congruence].
      destruct Hi as [i Hi]. rewrite Hasns in Hi. apply (bo_asns _ _ _ Hok) in Hi as (p & Hp & Hpa)%list_elem_of_omap.
      exists p. split; [done|]. split; [by rewrite Hpa|]. rewrite (asn_line p a i Hpa), Ht, Hk. simpl. by rewrite bool_decide_eq_true_2.
    + intros (p & Hp & Hs & <-). split; [by exists p|]. destruct (Hl p Hp Hs) as (n & i & Hpa & He). rewrite He, Ht, Hk in *. simpl in *.
      case_bool_decide as Hn; simpl in *; [|done]. rewrite Hn. rewrite bool_decide_eq_true_2; [done|].
      rewrite Hasns. eapply (bo_asns_all _ _ _ Hok n i). apply list_elem_of_omap. by exists p.
Qed.

Definition ip_line (p : Z * SetLine) : bool := some (net4_of p) || some (net6_of p).

Lemma ip_line_says p : ip_line p = true ->
  (exists n i, net4_of p = Some (n, i) /\ says_line p = ip_verdict (target_ip s c (nr || negb (asks p)) FamilyV4) (net_contains (Net4 n)))
  \/ (exists n i, net6_of p = Some (n, i) /\ says_line p = ip_verdict (target_ip s c (nr || negb (asks p)) FamilyV6) (net_contains (Net6 n))).
Proof.
  unfold ip_line. intros Hs. destruct (net4_of p) as [[n i]|] eqn:H4.
  - left. exists n, i. split; [done|]. by eapply net4_line.
  - destruct (net6_of p) as [[n i]|] eqn:H6; [|done]. right. exists n, i. split; [done|]. by eapply net6_line.
Qed.

Lemma ips_empty : is_empty (ips set) = true <-> forall p, p ∈ ps -> ip_line p = false.
Proof.
  rewrite Hips. destruct (bo_ips _ _ _ Hok) as (_ & _ & _ & Hz). unfold is_empty. rewrite Z.eqb_eq, Hz. split.
  - intros [H4 H6] p Hp. unfold ip_line. destruct (net4_of p) as [x|] eqn:Hx.
    + assert (x ∈ omap net4_of ps) as Hin by (apply list_elem_of_omap; by exists p). rewrite H4 in Hin. by apply elem_of_nil in Hin.
    + destruct (net6_of p) as [x|] eqn:Hx'; [|done].
      assert (x ∈ omap net6_of ps) as Hin by (apply list_elem_of_omap; by exists p). rewrite H6 in Hin. by apply elem_of_nil in Hin.
  - intros Hno. split; apply elem_of_nil_inv; intros x (p & Hp & Hx)%list_elem_of_omap; specialize (Hno p Hp); unfold ip_line in Hno;
      rewrite Hx in Hno; by rewrite ?orb_true_r in Hno.
Qed.

(** The two look-ups: some line of the family contains the address. *)
Lemma lookup_line ip : is_Some (IpIndex.lookup (ips set) ip) <->
  match ip with
  | V4 x => exists p n i, p ∈ ps /\ net4_of p = Some (n, i) /\ contains n x = true
  | V6 x => exists p n i, p ∈ ps /\ net6_of p = Some (n, i) /\ contains n x = true
  end.
Proof.
  rewrite Hips. destruct (bo_ips _ _ _ Hok) as (H4 & H6 & _ & _). destruct ip as [x|x]; simpl; unfold lookup_v4, lookup_v6.
  - pose proof (lookup_map _ _ x H4) as Hl. destruct (snd <$> _) as [e|].
    + split; [intros _|by eexists]. destruct Hl as (n & (p & Hp & Hn)%list_elem_of_omap & Hc & _). by exists p, n, e.
    + split; [by intros [? ?]|]. intros (p & n & i & Hp & Hn & Hc). rewrite (Hl n i) in Hc; [done|]. apply list_elem_of_omap. by exists p.
  - pose proof (lookup_map _ _ x H6) as Hl. destruct (snd <$> _) as [e|].
    + split; [intros _|by eexists]. destruct Hl as (n & (p & Hp & Hn)%list_elem_of_omap & Hc & _). by exists p, n, e.
    + split; [by intros [? ?]|]. intros (p & n & i & Hp & Hn & Hc). rewrite (Hl n i) in Hc; [done|]. apply list_elem_of_omap. by exists p.
Qed.

Lemma ips_same : same_as (if is_empty (ips set) then [] else [ips_says set s c nr FamilyV4; ips_says set s c nr FamilyV6]) ip_line.
Proof.
  intros v Hv. assert (Hd : v ∈ (if is_empty (ips set) then [] else [ips_says set s c nr FamilyV4; ips_says set s c nr FamilyV6])
    <-> (exists p, p ∈ ps /\ ip_line p = true) /\ (ips_says set s c nr FamilyV4 = v \/ ips_says set s c nr FamilyV6 = v)).
  { destruct (is_empty (ips set)) eqn:He.
    - split; [by intros ?%elem_of_nil|]. intros [(p & Hp & Ha) _]. by rewrite (proj1 ips_empty He p Hp) in Ha.
    - rewrite !elem_of_cons, elem_of_nil. split; [|naive_solver]. intros Hor. split; [|naive_solver].
      destruct (decide (Exists (fun p => ip_line p = true) ps)) as [Hx|Hx]; [by apply Exists_exists in Hx|].
      exfalso. rewrite (proj2 ips_empty) in He; [done|]. intros p Hp. rewrite <- Forall_Exists_neg, Forall_forall in Hx. specialize (Hx p Hp). by destruct (ip_line p). }
  rewrite Hd. clear Hd. unfold ips_says. rewrite Hipr, (bo_ips_resolve _ _ _ Hok).
  destruct (target_ip_three s c) as [Ht|[Ht|(known & Ht & Hfam)]]; rewrite !Ht; simpl.
  - split; [intros [(p & Hp & Hs) Hq]|intros (p & Hp & Hs & <-)].
    + exists p. split; [done|]. split; [done|]. destruct (ip_line_says p Hs) as [(n & i & _ & ->)|(n & i & _ & ->)]; rewrite Ht; naive_solver.
    + split; [by exists p|]. destruct (ip_line_says p Hs) as [(n & i & _ & ->)|(n & i & _ & ->)]; rewrite Ht; by left.
  - rewrite (ltac:(tauto) : forall P : Prop, P \/ P <-> P). rewrite <- (asks_some ip_line _ eq_refl v Hv). split; intros (p & Hp & Hs & Hq); exists p; (split; [done|]; split; [done|]);
      destruct (ip_line_says p Hs) as [(n & i & _ & He)|(n & i & _ & He)]; rewrite He in *; rewrite Ht in *; done.
  - assert (Hmatch : forall family, ip_verdict (ok_or NoMatch (known family)) (fun ip => bool_decide (is_Some (IpIndex.lookup (ips set) ip))) = v
      <-> v = Match /\ exists ip, known family = Some ip /\ is_Some (IpIndex.lookup (ips set) ip)).
    { intros family. destruct (known family) as [ip|]; simpl; [case_bool_decide|]; simpl; naive_solver. }
    rewrite !Hmatch. split.
    + intros [_ [(-> & ip & Hk & Hl)|(-> & ip & Hk & Hl)]]; pose proof (Hfam _ _ Hk) as Hf; destruct ip as [x|x]; try done;
        apply lookup_line in Hl as (p & n & i & Hp & Hn & Hc); exists p; (split; [done|]); unfold ip_line; rewrite Hn, ?orb_true_r;
        (split; [done|]); [rewrite (net4_line p n i Hn)|rewrite (net6_line p n i Hn)]; rewrite Ht, Hk; simpl; by rewrite Hc.
    + intros (p & Hp & Hs & <-). split; [by exists p|].
      destruct (ip_line_says p Hs) as [(n & i & Hn & He)|(n & i & Hn & He)]; rewrite He, Ht in *; [left|right].
      * destruct (known FamilyV4) as [ip|] eqn:Hk; [|done]. pose proof (Hfam _ _ Hk). destruct ip as [x|x]; [|done]. simpl in *.
        destruct (contains n x) eqn:Hc; [|done]. split; [done|]. exists (V4 x). split; [done|]. apply lookup_line. by exists p, n, i.
      * destruct (known FamilyV6) as [ip|] eqn:Hk; [|done]. pose proof (Hfam _ _ Hk). destruct ip as [x|x]; [done|]. simpl in *.
        destruct (contains n x) eqn:Hc; [|done]. split; [done|]. exists (V6 x). split; [done|]. apply lookup_line. by exists p, n, i.
Qed.

(** Every line is of one of the four kinds. *)
Lemma set_says_lines : set_says geo network in_set set s c nr ext
  = any_of (map (fun line => line_says geo network in_set (set_extended set) line s c nr ext) lines).
Proof.
  unfold set_says. apply any_of_ext. intros v Hv. rewrite !elem_of_app, (domains_same v Hv), (linear_same v Hv), (asns_same v Hv), (ips_same v Hv).
  assert (Hmap : map (fun line => line_says geo network in_set (set_extended set) line s c nr ext) lines = map (fun p => says_line p) ps)
    by (rewrite <- (numbered_snd 0 lines) at 1; by rewrite map_map).
  rewrite Hmap, list_elem_of_fmap. split.
  - intros [(p & ? & ? & ?)|[(p & ? & ? & ?)|[(p & ? & ? & ?)|(p & ? & ? & ?)]]]; exists p; done.
  - intros (p & -> & Hp). assert (Hkind : some (name_of p) = true \/ some (linear_of (set_extended set) p) = true \/ some (asn_of p) = true \/ ip_line p = true).
    { destruct p as [i [[[] ? ? ?]|]]; simpl; auto. }
    destruct Hkind as [?|[?|[?|?]]]; [left|right; left|right; right; left|right; right; right]; by exists p.
Qed.

Context (Hent : entries set = b_entries b).

(** The line an entry stands for. *)
Definition reported (i : Z) : Prop :=
  exists line, lines !! Z.to_nat i = Some line /\ entry set i = text_of line
    /\ line_says geo network in_set (set_extended set) line s c nr ext = Match.

Lemma reported_line p : p ∈ ps -> says_line p = Match -> reported p.1.
Proof.
  intros Hp Hs. destruct (numbered_lookup _ _ _ Hp) as [Hr Hl]. rewrite Z.sub_0_r in Hl. exists p.2. split; [done|]. split; [|done].
  unfold entry. rewrite Hent, (bo_entries _ _ _ Hok), <- map_map, numbered_snd.
  change (map text_of lines) with (text_of <$> lines). by rewrite list_lookup_fmap, Hl.
Qed.

Lemma known_says (nr' : bool) family ip test : target_ip s c nr' family = Ok ip ->
  forall nr', ip_verdict (target_ip s c nr' family) test = from_bool (test ip).
Proof.
  intros Hip nr0. destruct (target_ip_three s c) as [Ht|[Ht|(known & Ht & _)]]; rewrite Ht in *; [done|by destruct nr'|].
  destruct (known family); by simplify_eq/=.
Qed.

Lemma reason_reported i : set_reason geo network in_set set s c nr ext i -> reported i.
Proof.
  intros [Hd|[(rule & Hr & Hs)|[(ip & a & Ht & Ha & Hi)|(family & ip & Hne & Ht & Hi)]]].
  - pose proof (domain_hit_spec (domain_targets s (ext || set_extended set))) as Hspec. rewrite Hd in Hspec.
    destruct Hspec as (n & t & (p & Hp & Hn)%list_elem_of_omap & Htt & Hm & <-).
    assert (name_entry n = p.1) as -> by (unfold name_of in Hn; by repeat case_match; simplify_eq/=).
    apply reported_line; [done|]. rewrite (name_line p n Hn), (proj2 (existsb_exists _ _)); [done|].
    exists t. split; [by apply list_elem_of_In|by apply bool_decide_eq_true].
  - rewrite Hlin, (bo_linear _ _ _ Hok) in Hr. apply list_elem_of_omap in Hr as (p & Hp & Hl).
    destruct p as [j [[kind nr' e raw]|]]; [|done]. unfold linear_of in Hl. simpl in Hl.
    destruct (indexed kind) eqn:Hi; [done|]. injection Hl as <- <-. apply (reported_line (j, RuleLine (mkSubRule kind nr' e raw)) Hp).
    simpl in *. by destruct kind.
  - rewrite Hasns in Hi. apply (bo_asns _ _ _ Hok) in Hi as (p & Hp & Hpa)%list_elem_of_omap.
    assert (i = p.1) as -> by (unfold asn_of in Hpa; by repeat case_match; simplify_eq/=).
    apply reported_line; [done|]. rewrite (asn_line p a _ Hpa), (known_says _ _ _ _ Ht). by rewrite bool_decide_eq_true_2.
  - destruct (bo_ips _ _ _ Hok) as (H4 & H6 & _ & _). rewrite Hips in Hi.
    destruct (target_ip_three s c) as [Ht'|[Ht'|(known & Ht' & Hfam)]]; rewrite Ht' in Ht; [done|by repeat case_match|].
    destruct (known family) as [ip'|] eqn:Hk; [|done]. simplify_eq/=. pose proof (Hfam _ _ Hk) as Hf. pose proof (Ht' nr family) as Hok'. rewrite Hk in Hok'. simpl in Hok'.
    destruct ip as [x|x]; simpl in Hi; unfold lookup_v4, lookup_v6 in Hi.
    + pose proof (lookup_map _ _ x H4) as Hl. rewrite Hi in Hl. destruct Hl as (n & (p & Hp & Hn)%list_elem_of_omap & Hc & _).
      assert (i = p.1) as -> by (unfold net4_of in Hn; by repeat case_match; simplify_eq/=).
      apply reported_line; [done|]. rewrite (net4_line p n _ Hn).
      rewrite (known_says _ _ _ _ (ltac:(by destruct family) : target_ip s c nr FamilyV4 = Ok (V4 x))). simpl. by rewrite Hc.
    + pose proof (lookup_map _ _ x H6) as Hl. rewrite Hi in Hl. destruct Hl as (n & (p & Hp & Hn)%list_elem_of_omap & Hc & _).
      assert (i = p.1) as -> by (unfold net6_of in Hn; by repeat case_match; simplify_eq/=).
      apply reported_line; [done|]. rewrite (net6_line p n _ Hn).
      rewrite (known_says _ _ _ _ (ltac:(by destruct family) : target_ip s c nr FamilyV6 = Ok (V6 x))). simpl. by rewrite Hc.
Qed.

End lines.

End compile.

(** C15: a set file compiles (below 2^32 lines), and the compiled set — domain
    index, IP index, table of AS numbers, linear rest — says exactly what its
    lines say one by one: yes if one of them says yes, else what one of them
    waits for (the connection before the process before the addresses), else
    no.  The entry it reports on a match is the text of a line of the file
    that matches, and the evaluation learns nothing by it. *)
Theorem set_is_its_lines `{D : Deps} `{!@NetLaws Nets4, !@NetLaws Nets6} lookup_set geo network handles depth set_name lines s c nr ext :
  Z.of_nat (length lines) < u32_max -> caches_ok geo c ->
  exists set, compile_set lookup_set set_name lines = Some set /\
  let says := fun line => line_says lookup_set geo network (sets_say geo network handles depth) (existsb carries_extended lines) line s c nr ext in
  let r := set_eval geo network (set_calls geo network handles depth) set s c nr ext in
  verdict r.1 = any_of (map says lines)
  /\ (verdict r.1 = Match -> exists i line, lines !! i = Some line /\ says line = Match /\ v_entry r.1 = Some (text_of line))
  /\ knows c r.2 /\ caches_ok geo r.2.
Proof.
  intros Hlen Hc. destruct (compile_set_ok lookup_set set_name lines Hlen)
    as (set & b & Hset & Hok & Hidx & Hips & Hipr & Has & Hasr & Hlin & Hent & Hext & _).
  exists set. split; [done|]. cbv zeta. rewrite <- Hext in *.
  destruct (set_eval_tells geo network _ _ (set_calls_tell geo network handles depth) set s c nr ext Hc) as ((Hv & Hk & Hc') & Hr).
  simpl in Hv, Hk, Hc'. rewrite Hv. split; [by eapply set_says_lines|]. split; [|done].
  intros Hm. rewrite <- Hv in Hm. destruct (Hr Hm) as (i & -> & Hi).
  eapply reason_reported in Hi as (line & Hl & He & Hs); [|done..]. exists (Z.to_nat i), line. split; [done|]. split; [done|]. simpl. by rewrite He.
Qed.

(** A set of a name, two networks and an AS number. *)
#[export] Instance sample_deps : Deps := {|
  Nets4 := pair_nets 32;
  Nets6 := pair_nets 128;
  Regex := rstr;
  is_match p s := Some (has_substring s p);
  parse_ip _ := None;
  windows := false;
|}.

Definition sample_geo : GeoLookup := mkGeo (fun _ => NotLoaded) (fun _ => Known 64500).

Definition sample_lines : list SetLine :=
  [DomainLine (lit "example.com") true;
   RuleLine (mkSubRule (KIpCidr (167772160, 8)) true false (lit "IP-CIDR,10.0.0.0/8,no-resolve"));
   RuleLine (mkSubRule (KIpAsn 64500) false false (lit "IP-ASN,64500"))].

Definition sample_session (host : HostName) : SessionInfo :=
  mkSession (V4 2130706433) 40000 6152 host 443 Tcp None None None None None None.

Lemma set_is_its_lines_witness :
  exists set, compile_set (fun _ _ => 0) (lit "s") sample_lines = Some set
    /\ verdict (set_eval sample_geo None (set_calls sample_geo None (fun _ => empty_set []) 1) set
         (sample_session (DomainName (lit "www.example.com"))) new_ctx false false).1 = Match
    /\ verdict (set_eval sample_geo None (set_calls sample_geo None (fun _ => empty_set []) 1) set
         (sample_session (DomainName (lit "example.org"))) new_ctx false false).1 = NeedsResolve
    /\ (set_eval sample_geo None (set_calls sample_geo None (fun _ => empty_set []) 1) set
         (sample_session (IpLiteral (V4 167772161))) new_ctx false false).1 = mkSetVerdict Match (Some (lit "IP-ASN,64500")).
Proof.
  destruct (set_is_its_lines (D := sample_deps) (fun _ _ => 0) sample_geo None (fun _ => empty_set []) 1 (lit "s") sample_lines
    (sample_session (DomainName (lit "www.example.com"))) new_ctx false false) as (set & Hset & Hv & _).
  - reflexivity.
  - by split.
  - exists set. split; [exact Hset|]. split; [rewrite Hv; vm_compute; reflexivity|].
    vm_compute in Hset. injection Hset as <-. split; vm_compute; reflexivity.
Defined.
