(* ===== verification/RuleEngine.v ===== *)
(** * The rule engine

    [crates/rurge-rules/src/engine.rs] and [pre_matching.rs]: the rules of a
    profile compiled up to FINAL and evaluated in order, with the process and
    the addresses asked for only when a rule needs them.  The hit counters and
    the flags of what was logged are a state beside the engine; the questions
    put to the resolver and to the process lookup are listed.  Traces, raw
    texts, spans and the keeping alive of the set registry are left out. *)

From S2P Require Import Prelude FakeIpAddr DomainIndex Glob IpIndex RuleMatcher RuleEval RuleSays.

Inductive Builtin :=
  Direct | Reject | RejectDrop | RejectNoDrop | RejectTinyGif | Cellular | CellularOnly | Hybrid | NoHybrid.

Definition is_reject (b : Builtin) : bool :=
  match b with Reject | RejectDrop | RejectNoDrop | RejectTinyGif => true | _ => false end.

Inductive PolicyRef := BuiltinRef (b : Builtin) | Named (n : rstr) | Device (n : rstr).

Record RuleParams := mkParams { p_no_resolve : bool; dns_failed : bool; extended_matching : bool; pre_matching : bool }.

Record Rule `{Deps} := mkRule { kind : RuleKind; policy : PolicyRef; params : RuleParams }.
Arguments mkRule {_} kind policy params.

Record CompiledRule `{Deps} := mkCompiled { index : nat; r_matcher : Matcher; r_policy : PolicyRef; r_params : RuleParams }.
Arguments mkCompiled {_} index r_matcher r_policy r_params.

Inductive ResolveError := Timeout | EmptyAnswer | Failed (e : rstr).

Inductive OutboundMode := ModeDirect | ModeProxy (p : PolicyRef) | ModeRule.

Inductive Outcome := Policy (p : PolicyRef) | DnsFailed.

Inductive Reason :=
  OutboundModeDirect | OutboundModeProxy | ByRule | ByFinal | DnsFailedFallback | ByDnsFailed | PreMatching.

Record Decision := mkDecision {
  outcome : Outcome;
  reason : Reason;
  matched : option nat;
  sub_rule : option SubRuleHit;
  d_resolved : option ResolvedAddrs;
  d_notes : list rstr;
}.

Definition bypass (p : PolicyRef) (reason : Reason) : Decision := mkDecision (Policy p) reason None None None [].

(** [hits] and [warned] of each compiled rule. *)
Record Counters := mkCounters { hits : list Z; warned : list bool }.

(** What is asked of the world. *)
Inductive Question := AskProcess | AskResolve (host : rstr).

#[export] Instance Question_eq_dec : EqDecision Question.
Proof. solve_decision. Defined.

Section engine.
Context {D : Deps}.

(** [RuleEngine]; [e_handles] is what the handles of its sets hold. *)
Record RuleEngine := mkEngine {
  rules : list CompiledRule;
  final_pos : nat;
  e_geo : GeoLookup;
  e_facts : NetworkFacts;
  wifi_always_match : bool;
  pre_positions : list nat;
  e_handles : Z -> CompiledSet;
}.

(** ** Building *)

Definition is_final (r : Rule) : bool := match kind r with KFinal => true | _ => false end.

(** [Config::first_final] and [Config::effective_final]. *)
Definition first_final (rs : list Rule) : option nat := fst <$> list_find (fun r => is_final r = true) rs.
Definition effective_final (rs : list Rule) : option nat :=
  (fun k => length rs - 1 - k)%nat <$> (fst <$> list_find (fun r => is_final r = true) (reverse rs)).

Definition compile_rule (lookup_set : ResourceRef -> SetKind -> Z) (i : nat) (r : Rule) : CompiledRule :=
  mkCompiled i (compile lookup_set (kind r)) (policy r) (params r).

(** [PreMatchingSet::extract]. *)
Definition extract (rs : list CompiledRule) : list nat :=
  fst <$> filter (fun p : nat * CompiledRule => pre_matching (r_params p.2) = true) (imap pair rs).

(** [RuleEngine::build], on a network that [with_network] gave it; [None] is
    the error of a profile without FINAL. *)
Definition build (lookup_set : ResourceRef -> SetKind -> Z) (rs : list Rule) (geo : GeoLookup) (facts : NetworkFacts) (always : bool)
    (handles : Z -> CompiledSet) : option RuleEngine :=
  first ← first_final rs;
  last ← effective_final rs;
  final ← rs !! last;
  let compiled := imap (compile_rule lookup_set) (take first rs) ++ [compile_rule lookup_set last final] in
  Some (mkEngine compiled (length compiled - 1) geo facts always (extract compiled) handles).

(** ** Evaluating *)

Definition u64 (n : Z) : Z := n mod 2 ^ 64.

(** [hits.fetch_add(1)]. *)
Definition count_hit (pos : nat) (k : Counters) : Counters := mkCounters (alter (fun n => u64 (n + 1)) pos (hits k)) (warned k).

(** [collect_notes]. *)
Definition collect_notes (pos : nat) (k : Counters) (c : EvalCtx) (notes : list rstr) : Counters * EvalCtx * list rstr :=
  match RuleMatcher.notes c with
  | [] => (k, c, notes)
  | new =>
      let was := default false (warned k !! pos) in
      let k := mkCounters (hits k) (<[pos := true]> (warned k)) in
      if was then (k, set_notes [] c, notes) else (k, set_notes [] c, notes ++ new)
  end.

Section run.
Context (e : RuleEngine) (s : SessionInfo).
(** What the resolver and the process lookup answer. *)
Context (resolve : rstr -> res ResolveError ResolvedAddrs) (find_process : option ProcessInfo).
Context (show_error : ResolveError -> rstr).

Definition network : option (NetworkFacts * bool) := Some (e_facts e, wifi_always_match e).

Definition eval_as (rule : CompiledRule) (no_resolve : bool) (c : EvalCtx) : Verdict * EvalCtx :=
  eval (e_geo e) network (e_handles e) (r_matcher rule) s c no_resolve (extended_matching (r_params rule)).

Definition eval_rule (rule : CompiledRule) (c : EvalCtx) : Verdict * EvalCtx := eval_as rule (p_no_resolve (r_params rule)) c.

Definition is_reject_policy (p : PolicyRef) : bool := match p with BuiltinRef b => is_reject b | _ => false end.

Definition pre_matches (rule : CompiledRule) (c : EvalCtx) : bool * EvalCtx :=
  let '(v, c) := eval_as rule true c in
  (bool_decide (v = Match) && is_reject_policy (r_policy rule), c).

(** [pre_pass]; the outer [None] is an index past the rules. *)
Fixpoint pre_pass (positions : list nat) (c : EvalCtx) (notes : list rstr) (k : Counters)
  : option (option Decision * EvalCtx * list rstr * Counters) :=
  match positions with
  | [] => Some (None, c, notes, k)
  | pos :: positions =>
      rule ← rules e !! pos;
      let '(m, c) := pre_matches rule (set_hit None c) in
      let '(k, c, notes) := collect_notes pos k c notes in
      if m then
        Some (Some (mkDecision (Policy (r_policy rule)) PreMatching (Some (index rule)) (sub_hit c) None notes), c, notes, count_hit pos k)
      else pre_pass positions c notes k
  end.

Definition final_rule : option CompiledRule := rules e !! final_pos e.

Definition dns_failed_decision (rule : CompiledRule) (c : EvalCtx) (notes : list rstr) (k : Counters) : option (Decision * Counters) :=
  f ← final_rule;
  if dns_failed (r_params f) then
    Some (mkDecision (Policy (r_policy f)) DnsFailedFallback (Some (index f)) None (resolved c) notes, count_hit (final_pos e) k)
  else Some (mkDecision DnsFailed ByDnsFailed (Some (index rule)) None None notes, k).

Definition host : rstr := default [] (as_domain (dst_host s)).

Definition failed_note (err : ResolveError) : rstr := lit "DNS lookup for " ++ host ++ lit " failed: " ++ show_error err.

(** What a rule comes to: it matched, it did not, or the lookup failed. *)
Inductive Step := Matched | Passed | LookupFailed (err : ResolveError).

(** One rule of the loop: its verdict, with the process and the addresses
    asked for when it needs them. *)
Definition step (rule : CompiledRule) (c : EvalCtx) : Step * EvalCtx * list Question :=
  let '(v, c) := eval_rule rule (set_hit None c) in
  let '(v, c, q) :=
    match v with
    | NeedsProcess => let '(v, c) := eval_rule rule (set_asked (Asked find_process) c) in (v, c, [AskProcess])
    | _ => (v, c, [])
    end in
  let matched v := match v with Match => Matched | _ => Passed end in
  match v with
  | NeedsResolve =>
      let q := q ++ [AskResolve host] in
      match resolve host with
      | Ok addrs => let '(v, c) := eval_rule rule (set_resolved (Some addrs) c) in (matched v, c, q)
      | Err err => (LookupFailed err, c, q)
      end
  | _ => (matched v, c, q)
  end.

(** The loop over the rules from position [pos]. *)
Fixpoint run_rules (pos : nat) (rs : list CompiledRule) (c : EvalCtx) (notes : list rstr) (k : Counters) : option (Decision * Counters * list Question) :=
  match rs with
  | [] =>
      f ← final_rule;
      Some (mkDecision (Policy (r_policy f)) ByFinal (Some (index f)) None (resolved c) notes, k, [])
  | rule :: rs =>
      let '(st, c, q) := step rule c in
      match st with
      | LookupFailed err =>
          let '(k, c, notes) := collect_notes pos k c (notes ++ [failed_note err]) in
          '(d, k) ← dns_failed_decision rule c notes k;
          Some (d, k, q)
      | Matched =>
          let '(k, c, notes) := collect_notes pos k c notes in
          Some (mkDecision (Policy (r_policy rule)) (if (pos =? final_pos e)%nat then ByFinal else ByRule) (Some (index rule)) (sub_hit c) (resolved c) notes,
                count_hit pos k, q)
      | Passed =>
          let '(k, c, notes) := collect_notes pos k c notes in
          '(d, k, q') ← run_rules (S pos) rs c notes k;
          Some (d, k, q ++ q')
      end
  end.

(** [run]. *)
Definition run (mode : OutboundMode) (k : Counters) : option (Decision * Counters * list Question) :=
  match mode with
  | ModeDirect => Some (bypass (BuiltinRef Direct) OutboundModeDirect, k, [])
  | ModeProxy p => Some (bypass p OutboundModeProxy, k, [])
  | ModeRule =>
      '(pre, c, notes, k) ← pre_pass (pre_positions e) new_ctx [] k;
      match pre with
      | Some d => Some (d, k, [])
      | None => run_rules 0 (rules e) c notes k
      end
  end.

(** ** Before the connection *)

Inductive PreMatchLayer := Dns | Syn.

(** The loop of [first_pre_hit]: notes are dropped, nothing is counted. *)
Fixpoint first_pre_hit_from (positions : list nat) (c : EvalCtx) : option (option (nat * CompiledRule * option SubRuleHit)) :=
  match positions with
  | [] => Some None
  | pos :: positions =>
      rule ← rules e !! pos;
      let '(m, c) := pre_matches rule (set_hit None c) in
      let c := set_notes [] c in
      if m then Some (Some (pos, rule, sub_hit c)) else first_pre_hit_from positions c
  end.

Definition first_pre_hit (layer : PreMatchLayer) : option (option (nat * CompiledRule * option SubRuleHit)) :=
  first_pre_hit_from (pre_positions e) (set_before (match layer with Dns => true | Syn => false end) new_ctx).

Record PreMatch := mkPreMatch { pm_rule : nat; pm_policy : PolicyRef; pm_sub_rule : option SubRuleHit }.

(** [pre_match] and [pre_refuses]. *)
Definition pre_match (layer : PreMatchLayer) (k : Counters) : option (option PreMatch * Counters) :=
  h ← first_pre_hit layer;
  match h with
  | Some (pos, rule, sub) => Some (Some (mkPreMatch (index rule) (r_policy rule) sub), count_hit pos k)
  | None => Some (None, k)
  end.

Definition pre_refuses : option bool :=
  h ← first_pre_hit Syn; Some (match h with Some _ => true | None => false end).

End run.

End engine.
