(* ===== verification/RuleEngineProps.v ===== *)
(** * The engine finds the first rule that does not say no

    The lazy evaluation of [RuleEngine.v] — ask for the process when a rule
    waits for it, then for the addresses, evaluate again — against an eager
    reading of the rules: the process is known to all of them, the addresses
    from the first rule on that needs them. *)

From S2P Require Import Prelude FakeIpAddr DomainIndex Glob IpIndex RuleMatcher RuleEval RuleSays RuleEngine RuleSet.

(** The first element, with its place, of which [P] holds. *)
Definition first_at {A} (P : nat -> A -> bool) (l : list A) (o : option (nat * A)) : Prop :=
  match o with
  | Some (j, x) => l !! j = Some x /\ P j x = true /\ forall i y, (i < j)%nat -> l !! i = Some y -> P i y = false
  | None => forall i y, l !! i = Some y -> P i y = false
  end.

Lemma first_at_here {A} (P : nat -> A -> bool) x l : P O x = true -> first_at P (x :: l) (Some (O, x)).
Proof. intros Hp. split; [done|]. split; [done|]. lia. Qed.

Lemma first_at_later {A} (P : nat -> A -> bool) x l o : P O x = false -> first_at (fun i => P (S i)) l o ->
  first_at P (x :: l) (prod_map S id <$> o).
Proof.
  intros Hp. destruct o as [[j y]|]; simpl.
  - intros (Hl & Hy & Hf). split; [done|]. split; [done|]. intros [|i] z Hi Hz; [by simplify_eq/=|]. apply (Hf i); [lia|done].
  - intros Hf [|i] z Hz; [by simplify_eq/=|]. by apply (Hf i).
Qed.

Lemma first_at_unique {A} (P : nat -> A -> bool) l o o' : first_at P l o -> first_at P l o' -> o = o'.
Proof.
  destruct o as [[j x]|], o' as [[j' x']|]; simpl; [|naive_solver congruence..]. intros (Hl & Hp & Hf) (Hl' & Hp' & Hf').
  destruct (Nat.lt_trichotomy j j') as [Hlt|[->|Hlt]]; [|by simplify_eq|].
  - specialize (Hf' _ _ Hlt Hl). congruence.
  - specialize (Hf _ _ Hlt Hl'). congruence.
Qed.

(** ** Building *)

Definition is_final_rule `{Deps} (r : CompiledRule) : bool := match r_matcher r with Final => true | _ => false end.

(** What [build] makes of a profile: FINAL is the last rule and the only one
    of its kind, and the pre-matching positions are the flagged rules. *)
Record engine_ok `{Deps} (e : RuleEngine) : Prop := {
  ok_final : exists front f, rules e = front ++ [f] /\ final_pos e = length front /\ is_final_rule f = true
                             /\ Forall (fun r => is_final_rule r = false) front;
  ok_pre : pre_positions e = extract (rules e);
}.

Lemma compiled_final `{Deps} lookup_set i r : is_final_rule (compile_rule lookup_set i r) = is_final r.
Proof. destruct r as [[] p q]; simpl; try done. unfold is_final_rule. simpl. by repeat case_match. Qed.

Lemma list_find_take {A} (P : A -> Prop) `{forall x, base.Decision (P x)} l i x :
  list_find P l = Some (i, x) -> Forall (fun y => ~ P y) (take i l).
Proof.
  intros (_ & _ & Hf)%list_find_Some. apply Forall_lookup. intros j y Hy. apply lookup_take_Some in Hy as [Hy Hj]. by eapply Hf.
Qed.

Lemma find_final `{Deps} rs i : first_final rs = Some i ->
  exists r, rs !! i = Some r /\ is_final r = true /\ Forall (fun r => is_final r <> true) (take i rs).
Proof.
  unfold first_final. intros ([j r] & Hf & ->)%fmap_Some. exists r. pose proof (list_find_take _ _ _ _ Hf) as Ht.
  apply list_find_Some in Hf as (Hl & Hr & _). done.
Qed.

Lemma find_last_final `{Deps} rs i : effective_final rs = Some i ->
  exists r, rs !! i = Some r /\ is_final r = true /\ Forall (fun r => is_final r <> true) (drop (S i) rs).
Proof.
  unfold effective_final. intros (k & ([j r] & Hf & ->)%fmap_Some & ->)%fmap_Some. exists r. simpl.
  pose proof (list_find_take _ _ _ _ Hf) as Ht. apply list_find_Some in Hf as (Hl & Hr & _).
  pose proof (lookup_lt_Some _ _ _ Hl) as Hlt. rewrite length_reverse in Hlt. split; [|split; [done|]].
  - rewrite reverse_lookup in Hl by done. rewrite <- Hl. f_equal. lia.
  - rewrite take_reverse in Ht. rewrite Forall_reverse in Ht. replace (S (length rs - 1 - j)) with (length rs - j)%nat by lia. exact Ht.
Qed.

Lemma final_exists `{Deps} rs r : r ∈ rs -> is_final r = true -> is_Some (first_final rs) /\ is_Some (effective_final rs).
Proof.
  intros Hr Hf. unfold first_final, effective_final. rewrite !fmap_is_Some. split; eapply list_find_elem_of; try done.
  by apply elem_of_reverse.
Qed.

Lemma build_gives `{Deps} lookup_set rs geo facts always handles e : build lookup_set rs geo facts always handles = Some e ->
  exists first last f, rules e = imap (compile_rule lookup_set) (take first rs) ++ [compile_rule lookup_set last f]
    /\ rs !! last = Some f /\ is_final f = true /\ (first <= last)%nat
    /\ Forall (fun r => is_final r <> true) (take first rs) /\ Forall (fun r => is_final r <> true) (drop (S last) rs)
    /\ engine_ok e.
Proof.
  unfold build. intros Hb. destruct (first_final rs) as [first|] eqn:Hfirst; [|done]. destruct (effective_final rs) as [last|] eqn:Hlast; [|done].
  apply find_final in Hfirst as (r & Hr & Hrf & Hbefore). apply find_last_final in Hlast as (f & Hf & Hff & Hafter).
  simpl in Hb. rewrite Hf in Hb. injection Hb as <-. simpl. exists first, last, f. split; [done|]. split; [done|]. split; [done|].
  split; [|split; [done|split; [done|split]]]; simpl.
  - destruct (decide (first <= last)%nat) as [|Hlt]; [done|]. rewrite Forall_lookup in Hbefore. exfalso.
    apply (Hbefore last f); [|done]. apply lookup_take_Some. split; [done|lia].
  - eexists _, _. split; [done|]. rewrite length_app. simpl. split; [lia|]. rewrite compiled_final. split; [done|].
    apply Forall_lookup. intros i x Hx. rewrite list_lookup_imap in Hx. apply fmap_Some in Hx as (y & Hy & ->). rewrite compiled_final.
    rewrite Forall_lookup in Hbefore. apply not_true_is_false. by eapply Hbefore.
  - done.
Qed.

(** ** What the rules say *)

Section eager.
Context {D : Deps} (e : RuleEngine) (s : SessionInfo).
Context (resolve : rstr -> res ResolveError ResolvedAddrs) (find_process : option ProcessInfo) (show_error : ResolveError -> rstr).

Definition says_as (r : CompiledRule) (nr : bool) (c : EvalCtx) : Verdict :=
  rule_says (e_geo e) (network e) (e_handles e) (r_matcher r) s c nr (extended_matching (r_params r)).

Definition own_says (r : CompiledRule) (c : EvalCtx) : Verdict := says_as r (p_no_resolve (r_params r)) c.

(** A flagged rule that refuses knowing [c] only. *)
Definition refuses (c : EvalCtx) (r : CompiledRule) : bool :=
  pre_matching (r_params r) && (bool_decide (says_as r true c = Match) && is_reject_policy (r_policy r)).

(** With the process known, and the addresses as given. *)
Definition informed (addrs : option ResolvedAddrs) : EvalCtx := set_resolved addrs (set_asked (Asked find_process) new_ctx).

Definition needs (r : CompiledRule) : bool := bool_decide (own_says r (informed None) = NeedsResolve).

Definition answer : option ResolvedAddrs := match resolve (host s) with Ok addrs => Some addrs | Err _ => None end.

(** The addresses there are once the rules [seen] were reached. *)
Definition addrs_by (seen : list CompiledRule) : option ResolvedAddrs := if existsb needs seen then answer else None.

(** What the rule at [j] says when it is reached. *)
Definition verdict_at (j : nat) (r : CompiledRule) : Verdict := own_says r (informed (addrs_by (take (S j) (rules e)))).

(** A rule that waits for the addresses first does not wait for the process
    once they are there. *)
Definition settles (r : CompiledRule) : Prop :=
  forall addrs, resolve (host s) = Ok addrs -> own_says r new_ctx = NeedsResolve ->
    own_says r (set_resolved (Some addrs) new_ctx) <> NeedsProcess.

(** The same as a test. *)
Definition settles_now (r : CompiledRule) : bool :=
  match resolve (host s) with
  | Ok addrs => negb (bool_decide (own_says r new_ctx = NeedsResolve) && bool_decide (own_says r (set_resolved (Some addrs) new_ctx) = NeedsProcess))
  | Err _ => true
  end.

Lemma settles_test rs : forallb settles_now rs = true -> Forall settles rs.
Proof.
  intros Hrs. apply Forall_forall. intros r Hr addrs Ha Hn Hp. rewrite forallb_forall in Hrs. specialize (Hrs r). apply list_elem_of_In in Hr.
  specialize (Hrs Hr). unfold settles_now in Hrs. rewrite Ha, Hn, Hp in Hrs. done.
Qed.

(** ** The pre-pass *)

Lemma eval_as_tells r nr c : caches_ok (e_geo e) c -> tells (e_geo e) (says_as r nr c) c (eval_as e s r nr c).
Proof. apply eval_tells. Qed.

Lemma pre_matches_spec r c : caches_ok (e_geo e) c ->
  (pre_matches e s r c).1 = bool_decide (says_as r true c = Match) && is_reject_policy (r_policy r)
  /\ knows c (pre_matches e s r c).2 /\ caches_ok (e_geo e) (pre_matches e s r c).2.
Proof.
  intros Hc. unfold pre_matches. destruct (eval_as_tells r true c Hc) as (Hv & Hk & Hok).
  destruct (eval_as e s r true c) as [v c']. simpl in *. by subst v.
Qed.

Lemma collect_notes_spec pos k c ns : caches_ok (e_geo e) c -> let '(k', c', _) := collect_notes pos k c ns in
  hits k' = hits k /\ knows c c' /\ caches_ok (e_geo e) c'.
Proof. intros Hc. unfold collect_notes. destruct (RuleMatcher.notes c); [done|]. by destruct (default false _). Qed.

Lemma says_as_knows r nr c c' : knows c c' -> says_as r nr c = says_as r nr c'.
Proof. apply rule_says_knows. Qed.

Lemma refuses_knows r c c' : knows c c' -> refuses c r = refuses c' r.
Proof. intros Hk. unfold refuses. by rewrite (says_as_knows _ _ _ _ Hk). Qed.

(** The flagged rules of a list that begins at position [n]. *)
Definition flagged_from (n : nat) (rs : list CompiledRule) : list nat :=
  fst <$> filter (fun p : nat * CompiledRule => pre_matching (r_params p.2) = true) (imap (fun i r => (n + i, r)%nat) rs).

Lemma flagged_cons n r rs :
  flagged_from n (r :: rs) = (if pre_matching (r_params r) then [n] else []) ++ flagged_from (S n) rs.
Proof.
  unfold flagged_from. rewrite imap_cons, filter_cons. simpl. rewrite Nat.add_0_r.
  assert (imap ((fun i r => (n + i, r)%nat) ∘ S) rs = imap (fun i r => (S n + i, r)%nat) rs) as -> by (apply imap_ext; intros; simpl; f_equal; lia).
  by destruct (pre_matching (r_params r)); [rewrite decide_True by done|rewrite decide_False by done].
Qed.

Lemma extract_flagged rs : extract rs = flagged_from 0 rs.
Proof. reflexivity. Qed.

Definition bump (pos : nat) (l : list Z) : list Z := alter (fun n => u64 (n + 1)) pos l.

(** What the pre-pass over the rules [rs] from position [n] on comes to. *)
Definition pre_passed (n : nat) (rs : list CompiledRule) (k : Counters)
    (result : option (option Decision * EvalCtx * list rstr * Counters)) : Prop :=
  exists o c' ns' k', result = Some (o, c', ns', k') /\ knows new_ctx c' /\ caches_ok (e_geo e) c' /\
  exists found, first_at (fun _ => refuses new_ctx) rs found /\
  match found with
  | Some (j, r) =>
      exists sub, o = Some (mkDecision (Policy (r_policy r)) PreMatching (Some (index r)) sub None ns') /\ hits k' = bump (n + j) (hits k)
  | None => o = None /\ hits k' = hits k
  end.

Lemma pre_passed_over n r rs k k0 result : refuses new_ctx r = false -> hits k0 = hits k ->
  pre_passed (S n) rs k0 result -> pre_passed n (r :: rs) k result.
Proof.
  intros Hr Hh (o & c' & ns' & k' & Hp & Hk' & Hc' & found & Hf & Ho). exists o, c', ns', k'. split; [done|]. split; [done|]. split; [done|].
  exists (prod_map S id <$> found). split; [by apply first_at_later|]. rewrite Hh in Ho.
  destruct found as [[j r']|]; [|done]. simpl in *. by rewrite <- plus_n_Sm.
Qed.

Lemma pre_pass_spec : forall rs n c ns k, drop n (rules e) = rs -> knows new_ctx c -> caches_ok (e_geo e) c ->
  pre_passed n rs k (pre_pass e s (flagged_from n rs) c ns k).
Proof.
  induction rs as [|r rs IH]; intros n c ns k Hrs Hk Hc.
  { exists None, c, ns, k. split; [done|]. split; [done|]. split; [done|]. by exists None. }
  assert (Hat : rules e !! n = Some r) by (rewrite <- (Nat.add_0_r n), <- lookup_drop; by rewrite Hrs).
  assert (Hnext : drop (S n) (rules e) = rs) by (rewrite <- (Nat.add_1_r n), <- drop_drop; by rewrite Hrs).
  rewrite flagged_cons. destruct (pre_matching (r_params r)) eqn:Hflag;
    [|apply (pre_passed_over _ _ _ k k); [unfold refuses; by rewrite Hflag|done|by apply IH]].
  simpl. rewrite Hat. simpl.
  destruct (pre_matches_spec r (set_hit None c) Hc) as (Hm & Hk1 & Hc1). destruct (pre_matches e s r (set_hit None c)) as [m c1]. simpl in *.
  pose proof (collect_notes_spec n k c1 ns Hc1) as Hn. destruct (collect_notes n k c1 ns) as [[k2 c2] ns2]. destruct Hn as (Hh & Hk2 & Hc2).
  assert (Hk3 : knows new_ctx c2) by (eapply knows_trans; [exact Hk|]; eapply knows_trans; [exact Hk1|exact Hk2]).
  assert (Hm' : m = refuses new_ctx r).
  { unfold refuses. rewrite Hflag, Hm. by rewrite (says_as_knows _ _ new_ctx (set_hit None c)) by exact Hk. }
  rewrite Hm'. destruct (refuses new_ctx r) eqn:Hr; [|apply (pre_passed_over _ _ _ k k2); [done|done|by apply IH]].
  eexists _, _, _, _. split; [done|]. split; [done|]. split; [done|]. exists (Some (O, r)). split; [by apply first_at_here|].
  eexists. split; [done|]. simpl. by rewrite Hh, Nat.add_0_r.
Qed.

(** The same walk without notes and counters. *)
Lemma first_pre_hit_spec c0 : forall rs n c, drop n (rules e) = rs -> knows c0 c -> caches_ok (e_geo e) c ->
  exists found, first_at (fun _ => refuses c0) rs found /\
  exists sub, first_pre_hit_from e s (flagged_from n rs) c = Some ((fun '(j, r) => ((n + j)%nat, r, sub)) <$> found).
Proof.
  induction rs as [|r rs IH]; intros n c Hrs Hk Hc; [by exists None; split; [|exists None]|].
  assert (Hat : rules e !! n = Some r) by (rewrite <- (Nat.add_0_r n), <- lookup_drop; by rewrite Hrs).
  assert (Hnext : drop (S n) (rules e) = rs) by (rewrite <- (Nat.add_1_r n), <- drop_drop; by rewrite Hrs).
  assert (Hover : forall c, refuses c0 r = false -> knows c0 c -> caches_ok (e_geo e) c ->
    exists found, first_at (fun _ => refuses c0) (r :: rs) found /\
    exists sub, first_pre_hit_from e s (flagged_from (S n) rs) c = Some ((fun '(j, r) => ((n + j)%nat, r, sub)) <$> found)).
  { intros c1 Hr Hk1 Hc1. destruct (IH (S n) c1 Hnext Hk1 Hc1) as (found & Hf & sub & Hh). exists (prod_map S id <$> found).
    split; [by apply first_at_later|]. exists sub. rewrite Hh. destruct found as [[j r']|]; [|done]. simpl. by rewrite <- plus_n_Sm. }
  rewrite flagged_cons. destruct (pre_matching (r_params r)) eqn:Hflag; [|apply Hover; [unfold refuses; by rewrite Hflag|done..]].
  simpl. rewrite Hat. simpl.
  destruct (pre_matches_spec r (set_hit None c) Hc) as (Hm & Hk1 & Hc1). destruct (pre_matches e s r (set_hit None c)) as [m c1]. simpl in *.
  assert (Hm' : m = refuses c0 r).
  { unfold refuses. rewrite Hflag, Hm. by rewrite (says_as_knows _ _ c0 (set_hit None c)) by exact Hk. }
  rewrite Hm'. destruct (refuses c0 r) eqn:Hr; [|apply Hover; [done|by eapply knows_trans|done]].
  exists (Some (O, r)). split; [by apply first_at_here|]. eexists. simpl. by rewrite Nat.add_0_r.
Qed.

(** ** One rule *)

(** The context of a session with a connection. *)
Definition in_run (c : EvalCtx) : Prop :=
  before_connection c = false /\ caches_ok (e_geo e) c /\ (asked c = NotAsked \/ asked c = Asked find_process).

(** The questions of one rule. *)
Definition questions (c c' : EvalCtx) (lookup : bool) (q : list Question) : Prop :=
  exists p, q = p ++ (if lookup then [AskResolve (host s)] else [])
    /\ ((p = [] /\ (asked c = NotAsked <-> asked c' = NotAsked))
        \/ (p = [AskProcess] /\ asked c = NotAsked /\ asked c' <> NotAsked /\ process s = None)).

Lemma knows_informed c : in_run c -> asked c <> NotAsked -> knows c (informed (resolved c)).
Proof. intros (Hb & _ & [Ha|Ha]) Hn; [done|]. by split; [|split]. Qed.

Lemma own_says_knows r c c' : knows c c' -> own_says r c = own_says r c'.
Proof. apply says_as_knows. Qed.

Lemma own_upto r c : in_run c -> upto NeedsProcess (own_says r c) (own_says r (informed (resolved c))).
Proof.
  intros Hc. pose proof Hc as (Hb & _ & [Ha|Ha]).
  - unfold own_says. rewrite <- (says_as_knows r _ (set_asked (Asked find_process) c) (informed (resolved c))) by (by split; [|split]).
    by apply asking_process.
  - right. apply says_as_knows, knows_informed; [done|]. by rewrite Ha.
Qed.

Lemma in_run_knows c c' : in_run c -> knows c c' -> caches_ok (e_geo e) c' -> in_run c'.
Proof. intros (Hb & _ & Ha) (_ & Ha' & Hb') Hc. unfold in_run. rewrite <- Hb', <- Ha'. done. Qed.

Lemma eval_rule_spec r c : in_run c -> let '(v, c') := eval_rule e s r c in v = own_says r c /\ knows c c' /\ in_run c'.
Proof.
  intros Hc. pose proof Hc as (Hb & Hok & Ha). destruct (eval_as_tells r (p_no_resolve (r_params r)) c Hok) as (Hv & Hk & Hok').
  unfold eval_rule. destruct (eval_as e s r (p_no_resolve (r_params r)) c) as [v c']. simpl in *.
  split; [done|]. split; [done|]. by eapply in_run_knows.
Qed.

(** The verdict once the process was asked for, if it had to be. *)
Definition with_process (r : CompiledRule) (c : EvalCtx) : Verdict * EvalCtx * list Question :=
  let '(v, c) := eval_rule e s r (set_hit None c) in
  match v with
  | NeedsProcess => let '(v, c) := eval_rule e s r (set_asked (Asked find_process) c) in (v, c, [AskProcess])
  | _ => (v, c, [])
  end.

Lemma with_process_spec r c : in_run c -> let '(v, c', q) := with_process r c in
  v = own_says r (informed (resolved c)) /\ resolved c' = resolved c /\ in_run c' /\ questions c c' false q
  /\ (asked c' = NotAsked -> knows c c' /\ own_says r c = v).
Proof.
  intros Hc. unfold with_process. pose proof (eval_rule_spec r (set_hit None c) Hc) as Hv.
  destruct (eval_rule e s r (set_hit None c)) as [v c1]. destruct Hv as (-> & Hk & Hc1). rewrite (own_says_knows r (set_hit None c) c) by done.
  pose proof (own_upto r c Hc) as Hu. pose proof Hk as (Hr & Ha & Hb). simpl in Hr, Ha, Hb.
  destruct (decide (own_says r c = NeedsProcess)) as [Hp|Hp].
  - rewrite Hp. pose proof (rule_may_wait (e_geo e) (network e) (e_handles e) (r_matcher r) s c (p_no_resolve (r_params r)) (extended_matching (r_params r))) as Hw.
    change (may_wait s c (own_says r c)) in Hw. rewrite Hp in Hw. destruct Hw as [Hna Hns].
    assert (Hc2 : in_run (set_asked (Asked find_process) c1)) by (destruct Hc1 as (? & ? & ?); split; [done|]; split; [done|by right]).
    pose proof (eval_rule_spec r _ Hc2) as Hv2. destruct (eval_rule e s r (set_asked (Asked find_process) c1)) as [v2 c3].
    destruct Hv2 as (-> & Hk2 & Hc3). pose proof Hk2 as (Hr2 & Ha2 & Hb2). simpl in Hr2, Ha2, Hb2.
    split; [|split; [congruence|split; [done|split]]].
    + apply says_as_knows. destruct Hc1 as (Hb1 & _). by split; [|split].
    + exists [AskProcess]. split; [done|]. right. split; [done|]. split; [done|]. split; [by rewrite <- Ha2|done].
    + by rewrite <- Ha2.
  - destruct Hu as [?|Hu]; [done|].
    assert (match own_says r c with
            | NeedsProcess => let '(v, c) := eval_rule e s r (set_asked (Asked find_process) c1) in (v, c, [AskProcess])
            | _ => (own_says r c, c1, [])
            end = (own_says r c, c1, [])) as -> by (by destruct (own_says r c)).
    split; [done|]. split; [done|]. split; [done|]. split; [|done]. exists []. split; [done|]. left. split; [done|]. by rewrite Ha.
Qed.

Lemma step_unfold r c : step e s resolve find_process r c =
  let '(v, c, q) := with_process r c in
  let matched v := match v with Match => Matched | _ => Passed end in
  match v with
  | NeedsResolve =>
      let q := q ++ [AskResolve (host s)] in
      match resolve (host s) with
      | Ok addrs => let '(v, c) := eval_rule e s r (set_resolved (Some addrs) c) in (matched v, c, q)
      | Err err => (LookupFailed err, c, q)
      end
  | _ => (matched v, c, q)
  end.
Proof.
  unfold step, with_process. destruct (eval_rule e s r (set_hit None c)) as [v c1].
  by destruct v.
Qed.

(** The verdict of a rule that knows what it needs. *)
Lemma informed_says r addrs : own_says r (informed addrs) = Match \/ own_says r (informed addrs) = NoMatch
  \/ (own_says r (informed addrs) = NeedsResolve /\ addrs = None).
Proof.
  pose proof (rule_may_wait (e_geo e) (network e) (e_handles e) (r_matcher r) s (informed addrs) (p_no_resolve (r_params r)) (extended_matching (r_params r))) as Hw.
  change (may_wait s (informed addrs) (own_says r (informed addrs))) in Hw.
  destruct (own_says r (informed addrs)); simpl in Hw; try done; [by left|by right; left|by right; right|by destruct Hw].
Qed.

(** What a rule comes to, from addresses [before] to addresses [after]. *)
Definition stepped (r : CompiledRule) (before after : option ResolvedAddrs) (st : Step) : Prop :=
  match st with
  | Matched => own_says r (informed after) = Match
  | Passed => own_says r (informed after) = NoMatch
  | LookupFailed err => before = None /\ own_says r (informed None) = NeedsResolve /\ resolve (host s) = Err err
  end.

Lemma questions_lookup c c1 c2 q : questions c c1 false q -> asked c2 = asked c1 -> questions c c2 true (q ++ [AskResolve (host s)]).
Proof. intros (p & -> & Hp) Ha. exists p. rewrite app_nil_r. split; [done|]. by rewrite Ha. Qed.

Lemma step_spec r c : in_run c -> (resolved c = None -> settles r) -> let '(st, c', q) := step e s resolve find_process r c in
  let lookup := match resolved c with Some _ => false | None => needs r end in
  in_run c' /\ resolved c' = (if lookup then answer else resolved c) /\ questions c c' lookup q /\ stepped r (resolved c) (resolved c') st.
Proof.
  intros Hc Hs. rewrite step_unfold. pose proof (with_process_spec r c Hc) as Hw. destruct (with_process r c) as [[v c1] q].
  destruct Hw as (-> & Hr & Hc1 & Hq & Hna).
  destruct (informed_says r (resolved c)) as [Hv|[Hv|[Hv Hres]]].
  - rewrite Hv. assert (Hl : match resolved c with Some _ => false | None => needs r end = false).
    { destruct (resolved c); [done|]. unfold needs. by rewrite Hv. }
    rewrite Hl. split; [done|]. split; [done|]. split; [done|]. simpl. by rewrite Hr.
  - rewrite Hv. assert (Hl : match resolved c with Some _ => false | None => needs r end = false).
    { destruct (resolved c); [done|]. unfold needs. by rewrite Hv. }
    rewrite Hl. split; [done|]. split; [done|]. split; [done|]. simpl. by rewrite Hr.
  - rewrite Hv. rewrite Hres in *. assert (Hn : needs r = true) by (unfold needs; by rewrite Hv).
    rewrite Hn. unfold answer. destruct (resolve (host s)) as [addrs|err] eqn:Ha.
    + assert (Hc2 : in_run (set_resolved (Some addrs) c1)) by exact Hc1.
      pose proof (eval_rule_spec r _ Hc2) as He. destruct (eval_rule e s r (set_resolved (Some addrs) c1)) as [v c2].
      destruct He as (Hv2 & Hk2 & Hc3). pose proof Hk2 as (Hr2 & Ha2 & _). simpl in Hr2, Ha2.
      split; [done|]. split; [done|]. split; [by eapply questions_lookup|].
      assert (v = own_says r (informed (Some addrs))) as Hv3.
      { destruct (own_upto r _ Hc2) as [Hnp|Hu]; [|by rewrite Hv2, Hu]. exfalso. pose proof Hc1 as (Hb1 & _ & [Hask|Hask]).
        - destruct (Hna Hask) as (Hk & Hown). apply (Hs eq_refl addrs Ha).
          + rewrite <- Hv, <- Hown. symmetry. apply says_as_knows. destruct Hk as (_ & Hk & Hkb). split; [done|]. split; simpl; congruence.
          + rewrite <- Hnp. apply says_as_knows. by split; [|split].
        - rewrite (own_says_knows r _ (informed (Some addrs))) in Hnp by (by split; [|split]).
          destruct (informed_says r (Some addrs)) as [H|[H|[H _]]]; congruence. }
      rewrite Hv3 in *. rewrite <- Hr2. simpl. destruct (informed_says r (Some addrs)) as [H|[H|[_ H]]]; [by rewrite H..|done].
    + split; [done|]. split; [done|]. split; [by eapply questions_lookup|]. done.
Qed.

(** ** All of them *)

(** The decision of the rule at [j], the first that does not say no, and the
    counter it raises: it matched, or the look-up it needed failed, which is
    for FINAL ([f]) to settle. *)
Definition decision_at (f : CompiledRule) (j : nat) (r : CompiledRule) (sub : option SubRuleHit) (ns : list rstr) : Decision * option nat :=
  match verdict_at j r with
  | Match => (mkDecision (Policy (r_policy r)) (if (j =? final_pos e)%nat then ByFinal else ByRule) (Some (index r)) sub
                (addrs_by (take (S j) (rules e))) ns, Some j)
  | _ => if dns_failed (r_params f) then (mkDecision (Policy (r_policy f)) DnsFailedFallback (Some (index f)) None None ns, Some (final_pos e))
         else (mkDecision DnsFailed ByDnsFailed (Some (index r)) None None ns, None)
  end.

Definition not_no (j : nat) (r : CompiledRule) : bool := bool_decide (verdict_at j r <> NoMatch).

Definition bump_at (o : option nat) (l : list Z) : list Z := match o with Some pos => bump pos l | None => l end.

(** The questions after [seen], with the rules [now] reached. *)
Definition asked_for (c : EvalCtx) (seen now : list CompiledRule) (q : list Question) : Prop :=
  NoDup q /\ (AskProcess ∈ q -> asked c = NotAsked /\ process s = None)
  /\ forall h, AskResolve h ∈ q <-> h = host s /\ existsb needs seen = false /\ existsb needs now = true.

Definition decided (f : CompiledRule) (c : EvalCtx) (seen rs : list CompiledRule) (k : Counters) (result : option (Decision * Counters * list Question)) : Prop :=
  exists d k' q j r sub ns, result = Some (d, k', q)
    /\ first_at (fun i => not_no (length seen + i)) rs (Some (j, r))
    /\ d = (decision_at f (length seen + j) r sub ns).1
    /\ hits k' = bump_at (decision_at f (length seen + j) r sub ns).2 (hits k)
    /\ asked_for c seen (take (S j) rs) q.

Lemma wanted_app seen r : existsb needs (seen ++ [r]) = existsb needs seen || needs r.
Proof. rewrite existsb_app. simpl. by rewrite orb_false_r. Qed.

(** Between two rules: the addresses are those of the rules that were seen,
    and no look-up failed. *)
Definition between (seen : list CompiledRule) (c : EvalCtx) : Prop :=
  in_run c /\ resolved c = addrs_by seen /\ (existsb needs seen = true -> is_Some answer).

Lemma lookup_wanted seen c r : between seen c ->
  match resolved c with Some _ => false | None => needs r end = negb (existsb needs seen) && needs r
  /\ (if negb (existsb needs seen) && needs r then answer else resolved c) = addrs_by (seen ++ [r]).
Proof.
  intros (_ & -> & Ha). unfold addrs_by. rewrite wanted_app. destruct (existsb needs seen) eqn:Hw; simpl; [|done].
  destruct (Ha eq_refl) as [a Ha']. by rewrite Ha'.
Qed.

Lemma addrs_stay seen r : addrs_by (seen ++ [r]) = None -> addrs_by seen = None.
Proof. unfold addrs_by. rewrite wanted_app. destruct (existsb needs seen); simpl; done. Qed.

Lemma addrs_here seen r rs : rules e = seen ++ r :: rs -> take (S (length seen)) (rules e) = seen ++ [r].
Proof.
  intros ->. change (r :: rs) with ([r] ++ rs). rewrite app_assoc, take_app_length'; [done|]. rewrite length_app. simpl. lia.
Qed.

Lemma verdict_here seen r rs : rules e = seen ++ r :: rs -> verdict_at (length seen) r = own_says r (informed (addrs_by (seen ++ [r]))).
Proof. intros Hr. unfold verdict_at. by rewrite (addrs_here _ _ _ Hr). Qed.

Lemma asked_here c c' seen r q : questions c c' (negb (existsb needs seen) && needs r) q -> asked_for c seen [r] q.
Proof.
  intros (p & -> & Hp). unfold asked_for. simpl. rewrite orb_false_r.
  assert (Hl : forall h, AskResolve h ∈ p ++ (if negb (existsb needs seen) && needs r then [AskResolve (host s)] else [])
    <-> h = host s /\ existsb needs seen = false /\ needs r = true).
  { intros h. destruct Hp as [[-> _]|(-> & _)]; destruct (existsb needs seen), (needs r); simpl; set_solver. }
  split; [|split; [|done]]; destruct Hp as [[-> _]|(-> & Ha & _ & Hs)]; destruct (existsb needs seen), (needs r); simpl;
    try (repeat constructor; set_solver); set_solver.
Qed.

Lemma asked_more c c' seen r now q q' : questions c c' (negb (existsb needs seen) && needs r) q ->
  asked_for c' (seen ++ [r]) now q' -> asked_for c seen (r :: now) (q ++ q').
Proof.
  intros Hq (Hd' & Hp' & Hr'). destruct (asked_here _ _ _ _ _ Hq) as (Hd & Hp & Hr). destruct Hq as (p & -> & Hcases).
  assert (Hpr : AskProcess ∈ p ++ (if negb (existsb needs seen) && needs r then [AskResolve (host s)] else []) -> asked c' <> NotAsked).
  { intros Hin. destruct Hcases as [[-> _]|(_ & _ & Hn & _)]; [|done]. simpl in Hin. case_match; set_solver. }
  split; [|split].
  - apply NoDup_app. split; [done|]. split; [|done]. intros [|h] Hx Hx'.
    + destruct (Hp' Hx') as [Ha _]. by apply Hpr.
    + apply Hr in Hx as (_ & _ & Hn). simpl in Hn. rewrite orb_false_r in Hn. apply Hr' in Hx' as (_ & Hw & _). rewrite wanted_app, Hn, orb_true_r in Hw. done.
  - intros [Hin|Hin]%elem_of_app; [by apply Hp|]. destruct (Hp' Hin) as [Ha Hs]. split; [|done].
    destruct Hcases as [[_ Hiff]|(_ & Ha' & _)]; [by apply Hiff|done].
  - intros h. rewrite elem_of_app, Hr, Hr', wanted_app. simpl. destruct (existsb needs seen), (needs r); simpl; naive_solver.
Qed.

Lemma dns_failed_spec f r c ns k : final_rule e = Some f -> resolved c = None -> exists d k',
  dns_failed_decision e r c ns k = Some (d, k')
  /\ (if dns_failed (r_params f) then (mkDecision (Policy (r_policy f)) DnsFailedFallback (Some (index f)) None None ns, Some (final_pos e))
      else (mkDecision DnsFailed ByDnsFailed (Some (index r)) None None ns, None)) = (d, if dns_failed (r_params f) then Some (final_pos e) else None)
  /\ hits k' = bump_at (if dns_failed (r_params f) then Some (final_pos e) else None) (hits k).
Proof. intros Hf Hr. unfold dns_failed_decision. rewrite Hf, Hr. simpl. destruct (dns_failed (r_params f)); by eexists _, _. Qed.

Lemma between_next seen c c1 c2 k pos ns r q : between seen c -> in_run c1 -> questions c c1 (negb (existsb needs seen) && needs r) q ->
  resolved c1 = addrs_by (seen ++ [r]) -> own_says r (informed (resolved c1)) = NoMatch ->
  (collect_notes pos k c1 ns).1.2 = c2 -> between (seen ++ [r]) c2.
Proof.
  intros (_ & _ & Hans) Hc1 Hq Hres1 Hst Hn. pose proof (collect_notes_spec pos k c1 ns (proj1 (proj2 Hc1))) as Hk.
  destruct (collect_notes pos k c1 ns) as [[k2 c2'] ns2]. simpl in Hn. subst c2'. destruct Hk as (_ & Hk & Hok).
  split; [by eapply in_run_knows|]. split; [by rewrite <- (proj1 Hk)|]. rewrite wanted_app. intros [Hw|Hw]%orb_true_iff; [by apply Hans|].
  destruct (existsb needs seen) eqn:Hw'; [by apply Hans|]. unfold addrs_by in Hres1. rewrite wanted_app, Hw', Hw in Hres1. simpl in Hres1.
  destruct answer; [done|]. exfalso. rewrite Hres1 in Hst. unfold needs in Hw. by rewrite Hst in Hw.
Qed.

Lemma decided_later f c c1 c2 seen r rs k k2 ns pos q result : verdict_at (length seen) r = NoMatch ->
  in_run c1 -> questions c c1 (negb (existsb needs seen) && needs r) q -> collect_notes pos k c1 ns = (k2, c2, result.1) ->
  decided f c2 (seen ++ [r]) rs k2 result.2 ->
  decided f c seen (r :: rs) k ('(d, k, q') ← result.2; Some (d, k, q ++ q')).
Proof.
  destruct result as [ns2 result]. simpl. intros Hv Hc1 Hq Hn (d & k' & q' & j & r' & sub & ns' & -> & (Hl1 & Hl2 & Hl3) & Hd & Hhits & Hasked).
  pose proof (collect_notes_spec pos k c1 ns (proj1 (proj2 Hc1))) as Hk. rewrite Hn in Hk. destruct Hk as (Hh & Hk & _).
  rewrite length_app, Nat.add_1_r in Hd, Hhits, Hl2, Hl3. exists d, k', (q ++ q'), (S j), r', sub, ns'. split; [done|].
  rewrite <- plus_n_Sm. rewrite Hh in Hhits. split; [|split; [done|split; [done|]]].
  - apply (first_at_later _ _ _ (Some (j, r'))); [unfold not_no; by rewrite Nat.add_0_r, Hv|].
    split; [done|]. split; [by rewrite <- plus_n_Sm|]. intros i y Hi Hy. rewrite <- plus_n_Sm. by apply (Hl3 i).
  - apply (asked_more _ c2); [|done]. destruct Hq as (p & Hp & Hcase). exists p. by rewrite <- (proj1 (proj2 Hk)).
Qed.

Lemma decided_here f c seen r rs k d k' q sub ns :
  rules e = seen ++ r :: rs -> verdict_at (length seen) r <> NoMatch -> asked_for c seen [r] q ->
  decision_at f (length seen) r sub ns = d -> hits k' = bump_at d.2 (hits k) ->
  decided f c seen (r :: rs) k (Some (d.1, k', q)).
Proof.
  intros Hrs Hv Hq Hd Hh. exists d.1, k', q, O, r, sub, ns. rewrite Nat.add_0_r, Hd. split; [done|].
  split; [apply first_at_here; unfold not_no; rewrite Nat.add_0_r; by apply bool_decide_eq_true|]. split; [done|]. by split.
Qed.

(** The rules from the one after [seen] on. *)
Lemma run_rules_spec f : final_rule e = Some f -> forall rs seen c ns k, rules e = seen ++ rs -> Exists (fun r => is_final_rule r = true) rs ->
  (resolved c = None -> Forall settles rs) -> between seen c ->
  decided f c seen rs k (run_rules e s resolve find_process show_error (length seen) rs c ns k).
Proof.
  intros Hf. induction rs as [|r rs IH]; intros seen c ns k Hrs Hfin Hset Hbt; [by inversion Hfin|].
  pose proof Hbt as (Hc & Hres & Hans). cbn [run_rules].
  pose proof (step_spec r c Hc (fun Hn => Forall_inv (Hset Hn))) as Hstep. destruct (step e s resolve find_process r c) as [[st c1] q].
  destruct (lookup_wanted seen c r Hbt) as [Hl Ha]. cbv zeta in Hstep. rewrite Hl, Ha in Hstep. destruct Hstep as (Hc1 & Hres1 & Hq & Hst).
  pose proof (asked_here _ _ _ _ _ Hq) as Hasked.
  pose proof (verdict_here _ _ _ Hrs) as Hv. rewrite <- Hres1 in Hv.
  pose proof (fun ns => collect_notes_spec (length seen) k c1 ns (proj1 (proj2 Hc1))) as Hn.
  destruct st as [| |err]; cbn [stepped] in Hst.
  - specialize (Hn ns). destruct (collect_notes (length seen) k c1 ns) as [[k2 c2] ns2]. destruct Hn as (Hh & Hk2 & _). rewrite Hst in Hv.
    eapply (decided_here f _ _ r _ _ (_, Some (length seen)) _ _ (sub_hit c2) ns2); [done|by rewrite Hv|done| |simpl; by rewrite Hh].
    unfold decision_at. rewrite Hv, (addrs_here _ _ _ Hrs). by rewrite <- (proj1 Hk2), Hres1.
  - rewrite Hst in Hv. pose proof (between_next seen c c1 _ k (length seen) ns r q Hbt Hc1 Hq Hres1 Hst eq_refl) as Hnext.
    destruct (collect_notes (length seen) k c1 ns) as [[k2 c2] ns2] eqn:Hcn. simpl in Hnext.
    apply (decided_later f c c1 c2 seen r rs k k2 ns (length seen) q (ns2, _)); [done..|]. simpl.
    replace (S (length seen)) with (length (seen ++ [r])) by (rewrite length_app; simpl; lia).
    apply IH; [by rewrite <- app_assoc| | |done].
    2: { intros Hnone. destruct Hnext as (_ & Hr2 & _). rewrite Hr2 in Hnone. rewrite Hres in Hset. exact (Forall_inv_tail (Hset (addrs_stay _ _ Hnone))). }
    apply Exists_cons in Hfin as [Hfin|Hfin]; [|done]. exfalso. unfold is_final_rule in Hfin. unfold own_says, says_as in Hst.
    destruct (r_matcher r); done.
  - destruct Hst as (Hnone & Hneed & Herr). specialize (Hn (ns ++ [failed_note s show_error err])).
    destruct (collect_notes (length seen) k c1 _) as [[k2 c2] ns2]. destruct Hn as (Hh & Hk2 & _).
    assert (Hres2 : resolved c1 = None).
    { rewrite Hres1. unfold addrs_by, answer. rewrite Herr. by destruct (existsb needs (seen ++ [r])). }
    rewrite Hres2, Hneed in Hv.
    destruct (dns_failed_spec f r c2 ns2 k2 Hf) as (d & k' & Hd & Hdec & Hh'); [by rewrite <- (proj1 Hk2)|].
    rewrite Hd. eapply (decided_here f _ _ r _ _ (d, _) _ _ None ns2); [done|by rewrite Hv|done| |simpl; rewrite Hh'; by rewrite Hh].
    unfold decision_at. by rewrite Hv.
Qed.

End eager.

(** The loop always comes to a decision, and not to one of the pre-pass. *)
Lemma run_rules_total `{D : Deps} e s resolve find_process show_error f : final_rule e = Some f -> forall rs pos c ns k,
  exists d k' q, run_rules e s resolve find_process show_error pos rs c ns k = Some (d, k', q) /\ reason d <> PreMatching.
Proof.
  intros Hf. induction rs as [|r rs IH]; intros pos c ns k; cbn [run_rules]; [rewrite Hf; by eexists _, _, _|].
  destruct (step e s resolve find_process r c) as [[[| |err] c1] q].
  - destruct (collect_notes pos k c1 ns) as [[k2 c2] ns2]. eexists _, _, _. split; [done|]. simpl. by destruct (_ =? _)%nat.
  - destruct (collect_notes pos k c1 ns) as [[k2 c2] ns2]. destruct (IH (S pos) c2 ns2 k2) as (d & k' & q' & -> & Hd). by eexists _, _, _.
  - destruct (collect_notes pos k c1 _) as [[k2 c2] ns2]. unfold dns_failed_decision. rewrite Hf. simpl.
    destruct (dns_failed (r_params f)); by eexists _, _, _.
Qed.

Lemma run_total `{D : Deps} e s resolve find_process show_error k : engine_ok e ->
  exists d k' q, run e s resolve find_process show_error ModeRule k = Some (d, k', q)
  /\ exists found, first_at (fun _ => refuses e s new_ctx) (rules e) found /\ (reason d = PreMatching <-> is_Some found).
Proof.
  intros [(front & f & Hrules & Hpos & _) Hpre].
  assert (Hat : final_rule e = Some f) by (unfold final_rule; rewrite Hrules, Hpos; by apply list_lookup_middle).
  simpl. rewrite Hpre, extract_flagged.
  destruct (pre_pass_spec e s (rules e) O new_ctx [] k eq_refl (knows_refl _)) as (o & c & ns & k1 & Hp & _ & _ & found & Hfound & Ho); [done|].
  rewrite Hp. simpl. destruct found as [[j r]|].
  - destruct Ho as (sub & -> & _). eexists _, _, _. split; [done|]. eexists. split; [done|]. by split.
  - destruct Ho as [-> _]. destruct (run_rules_total e s resolve find_process show_error f Hat (rules e) O c ns k1) as (d & k' & q & Hrun & Hd).
    exists d, k', q. split; [done|]. exists None. split; [done|]. split; [done|]. by intros [? ?].
Qed.

(** ** A rule that comes to wait for the process too late *)

Section late.
Context {D : Deps} (e : RuleEngine) (s : SessionInfo).
Context (resolve : rstr -> res ResolveError ResolvedAddrs) (find_process : option ProcessInfo) (show_error : ResolveError -> rstr).

Abbreviation says := (own_says e s).
Abbreviation known := (informed find_process).

(** Nothing has been asked for yet. *)
Definition unasked (c : EvalCtx) : Prop := knows new_ctx c /\ caches_ok (e_geo e) c.

Lemma unasked_new : unasked new_ctx.
Proof. by split; [apply knows_refl|]. Qed.

Lemma unasked_in_run c : unasked c -> in_run e find_process c.
Proof. intros ((_ & Ha & Hb) & Hok). split; [done|]. split; [done|by left]. Qed.

(** What is said knowing nothing is said knowing the process. *)
Lemma says_informed r : says r new_ctx <> NeedsProcess -> says r (known None) = says r new_ctx.
Proof. intros Hn. by destruct (own_upto e s find_process r new_ctx (unasked_in_run _ unasked_new)). Qed.

Lemma step_over r c : unasked c -> says r new_ctx = NoMatch -> exists c', step e s resolve find_process r c = (Passed, c', []) /\ unasked c'.
Proof.
  intros [Hk Hok] Hr. rewrite step_unfold. unfold with_process. pose proof (eval_rule_spec e s find_process r (set_hit None c) (unasked_in_run _ (conj Hk Hok))) as Hv.
  destruct (eval_rule e s r (set_hit None c)) as [v c1]. destruct Hv as (-> & Hk1 & _ & Hok1 & _). rewrite <- (own_says_knows e s r new_ctx) by done. rewrite Hr.
  exists c1. split; [done|]. split; [by eapply knows_trans|done].
Qed.

Lemma rules_over front rest : Forall (fun r => says r new_ctx = NoMatch) front -> forall pos c ns k, unasked c ->
  exists c' ns' k', unasked c' /\ hits k' = hits k
  /\ run_rules e s resolve find_process show_error pos (front ++ rest) c ns k = run_rules e s resolve find_process show_error (pos + length front) rest c' ns' k'.
Proof.
  induction 1 as [|r front Hr _ IH]; intros pos c ns k Hc; [exists c, ns, k; by rewrite Nat.add_0_r|]. cbn [app run_rules].
  destruct (step_over r c Hc Hr) as (c1 & -> & Hk1 & Hok1). pose proof (collect_notes_spec e pos k c1 ns Hok1) as Hn. destruct (collect_notes pos k c1 ns) as [[k2 c2] ns2]. destruct Hn as (Hh & Hk2 & Hok2).
  destruct (IH (S pos) c2 ns2 k2) as (c' & ns' & k' & Hc' & Hh' & ->); [split; [by eapply knows_trans|done]|]. exists c', ns', k'. split; [done|]. split; [congruence|].
  cbn [length]. rewrite <- plus_n_Sm. change (S pos + length front)%nat with (S (pos + length front)). by destruct (run_rules _ _ _ _ _ _ rest c' ns' k') as [[[d k''] q]|].
Qed.

(** The rule waits for the addresses, and with them for the process. *)
Definition late (r : CompiledRule) (addrs : ResolvedAddrs) : Prop :=
  says r new_ctx = NeedsResolve /\ resolve (host s) = Ok addrs /\ says r (set_resolved (Some addrs) new_ctx) = NeedsProcess.

Lemma late_step r addrs c : unasked c -> late r addrs ->
  exists c', step e s resolve find_process r c = (Passed, c', [AskResolve (host s)]) /\ in_run e find_process c' /\ resolved c' = Some addrs /\ asked c' = NotAsked.
Proof.
  intros [Hk Hok] (Hr & Ha & Hp). rewrite step_unfold. unfold with_process. pose proof (eval_rule_spec e s find_process r (set_hit None c) (unasked_in_run _ (conj Hk Hok))) as Hv.
  destruct (eval_rule e s r (set_hit None c)) as [v c1]. destruct Hv as (-> & Hk1 & Hc1). rewrite <- (own_says_knows e s r new_ctx) by done. rewrite Hr, Ha.
  pose proof (eval_rule_spec e s find_process r (set_resolved (Some addrs) c1) Hc1) as Hv. destruct (eval_rule e s r (set_resolved (Some addrs) c1)) as [v c2]. destruct Hv as (-> & Hk2 & Hc2).
  assert (Hk3 : knows new_ctx c1) by (by eapply knows_trans). destruct Hk3 as (_ & Hask & Hbef).
  rewrite <- (own_says_knows e s r (set_resolved (Some addrs) new_ctx)) by (by split; [|split]). rewrite Hp. exists c2. split; [done|]. split; [done|]. destruct Hk2 as (Hr2 & Ha2 & _). simpl in *. split; congruence.
Qed.

(** Had the process been asked for before. *)
Lemma asked_step r addrs : late r addrs -> says r (known (Some addrs)) = Match ->
  (step e s resolve find_process r (set_asked (Asked find_process) new_ctx)).1.1 = Matched.
Proof.
  intros (Hr & Ha & Hp) Hm. rewrite step_unfold. assert (Hc : in_run e find_process (set_asked (Asked find_process) new_ctx)) by (split; [done|]; split; [done|by right]).
  pose proof (with_process_spec e s find_process r _ Hc) as Hw. destruct (with_process e s find_process r _) as [[v c1] q]. destruct Hw as (-> & _ & (Hb1 & Hok1 & Hask) & (p & _ & Hq) & _). change (resolved (set_asked (Asked find_process) new_ctx)) with (@None ResolvedAddrs).
  rewrite says_informed, Hr, Ha by congruence. assert (Hask1 : asked c1 = Asked find_process) by (destruct Hask as [Hn|]; [|done]; exfalso; simpl in Hq; destruct Hq as [[_ Hq]|(_ & Hq & _)]; [by apply Hq in Hn|done]).
  assert (Hc1 : in_run e find_process (set_resolved (Some addrs) c1)) by (split; [done|]; split; [done|by right]).
  pose proof (eval_rule_spec e s find_process r _ Hc1) as Hv. destruct (eval_rule e s r (set_resolved (Some addrs) c1)) as [v c2]. destruct Hv as (-> & _).
  rewrite <- (own_says_knows e s r (known (Some addrs))) by (by split; [|split]). by rewrite Hm.
Qed.

(** The rules before, and this one, as they are with everything known. *)
Lemma needed_from front r addrs : Forall (fun r => says r new_ctx = NoMatch) front -> late r addrs ->
  existsb (needs e s find_process) front = false /\ needs e s find_process r = true.
Proof.
  intros Hf (Hr & _). split.
  - apply not_true_is_false. intros (x & Hin & Hx)%existsb_exists. rewrite Forall_forall in Hf. pose proof (Hf x (proj2 (list_elem_of_In _ _) Hin)) as Hn. unfold needs in Hx. apply bool_decide_eq_true in Hx. rewrite says_informed in Hx; congruence.
  - unfold needs. rewrite says_informed by congruence. by rewrite bool_decide_true.
Qed.

(** It is the one that decides as [engine_decides] has it, if it says yes. *)
Lemma late_decides front r rear addrs : rules e = front ++ r :: rear -> Forall (fun r => says r new_ctx = NoMatch) front -> late r addrs -> says r (known (Some addrs)) = Match ->
  first_at (not_no e s resolve find_process) (rules e) (Some (length front, r)).
Proof.
  intros Hrs Hf Hl Hm. destruct (needed_from front r addrs Hf Hl) as [Hn Hnr]. destruct Hl as (Hr & Ha & Hp). split; [by rewrite Hrs, list_lookup_middle|]. split.
  - unfold not_no. apply bool_decide_eq_true. rewrite (verdict_here e s resolve find_process front r rear Hrs). unfold addrs_by. rewrite existsb_app. cbn [existsb]. rewrite Hnr, orb_true_r. unfold answer. rewrite Ha. congruence.
  - intros i x Hi Hx. rewrite Hrs, lookup_app_l in Hx by done. unfold not_no. apply bool_decide_eq_false. intros Hno. apply Hno. unfold verdict_at, addrs_by.
    assert (existsb (needs e s find_process) (take (S i) (rules e)) = false) as ->.
    { apply not_true_is_false. intros (y & Hin & Hy)%existsb_exists. rewrite Hrs, take_app_le in Hin by lia. apply not_true_iff_false in Hn. apply Hn. apply existsb_exists. exists y. split; [|done]. apply list_elem_of_In. rewrite <- (take_drop (S i) front). apply elem_of_app. left. by apply list_elem_of_In. }
    rewrite Forall_forall in Hf. pose proof (Hf x (list_elem_of_lookup_2 _ _ _ Hx)) as Hn'. by rewrite says_informed, Hn' by congruence.
Qed.

(** What the run comes to: the rules behind. *)
Lemma late_run front r rear addrs : engine_ok e -> rules e = front ++ r :: rear -> Forall (fun r => refuses e s new_ctx r = false) (rules e) ->
  Forall (fun r => says r new_ctx = NoMatch) front -> late r addrs -> forall k, exists f ns0 c k1,
  rules e !! final_pos e = Some f /\ hits k1 = hits k /\ asked c = NotAsked
  /\ (exists result, run e s resolve find_process show_error ModeRule k = ('(d, k', q) ← result; Some (d, k', AskResolve (host s) :: q))
        /\ result = run_rules e s resolve find_process show_error (S (length front)) rear c ns0 k1
        /\ decided e s resolve find_process f c (front ++ [r]) rear k1 result).
Proof.
  intros [(fr & f & Hrules & Hpos & Hf & Hnf) Hpre] Hrs Hno Hfront Hl k. assert (Hat : rules e !! final_pos e = Some f) by (rewrite Hrules, Hpos; by apply list_lookup_middle).
  destruct (pre_pass_spec e s (rules e) O new_ctx [] k eq_refl (knows_refl _)) as (o & c & ns & k1 & Hp & Hk & Hok & found & (Hfound & Ho)); [done|].
  destruct found as [[j x]|]; [destruct Hfound as (Hl1 & Hl2 & _); rewrite Forall_forall in Hno; pose proof (Hno x (list_elem_of_lookup_2 _ _ _ Hl1)); congruence|]. destruct Ho as [-> Hh].
  destruct (rules_over front (r :: rear) Hfront O c ns k1 (conj Hk Hok)) as (c1 & ns1 & k2 & Hc1 & Hh1 & Hrun).
  destruct (late_step r addrs c1 Hc1 Hl) as (c2 & Hstep & Hc2 & Hr2 & Ha2). pose proof (collect_notes_spec e (length front) k2 c2 ns1 (proj1 (proj2 Hc2))) as Hn.
  destruct (collect_notes (length front) k2 c2 ns1) as [[k3 c3] ns3] eqn:Hcn. destruct Hn as (Hh3 & Hk3 & Hok3).
  exists f, ns3, c3, k3. split; [done|]. split; [congruence|]. split; [by rewrite <- (proj1 (proj2 Hk3))|]. eexists. split; [|split; [reflexivity|]].
  - simpl. rewrite Hpre, extract_flagged, Hp. simpl. rewrite Hrs, Hrun. cbn [Nat.add run_rules]. rewrite Hstep, Hcn. done.
  - destruct (needed_from front r addrs Hfront Hl) as [Hnf' Hnr]. destruct Hl as (Hr & Ha & _). assert (Hans : answer s resolve = Some addrs) by (unfold answer; by rewrite Ha).
    assert (Haddr : addrs_by e s resolve find_process (front ++ [r]) = Some addrs) by (unfold addrs_by; rewrite existsb_app; cbn [existsb]; by rewrite Hnr, orb_true_r).
    replace (S (length front)) with (length (front ++ [r])) by (rewrite length_app; simpl; lia).
    assert (Hres3 : resolved c3 = Some addrs) by (by rewrite <- (proj1 Hk3)).
    apply run_rules_spec; [done|by rewrite <- app_assoc| |by rewrite Hres3|].
    + assert (Hex : Exists (fun r => is_final_rule r = true) (front ++ r :: rear)) by (rewrite <- Hrs, Hrules; apply Exists_app; right; by constructor).
      apply Exists_app in Hex as [Hex|Hex]; [exfalso|apply Exists_cons in Hex as [Hex|Hex]; [exfalso|done]].
      * apply Exists_exists in Hex as (x & Hx & Hfin). rewrite Forall_forall in Hfront. specialize (Hfront x Hx). unfold is_final_rule in Hfin. unfold own_says, says_as in Hfront. destruct (r_matcher x); done.
      * unfold is_final_rule in Hex. unfold own_says, says_as in Hr. destruct (r_matcher r); done.
    + split; [by eapply in_run_knows|]. split; [by rewrite Haddr|]. intros _. by eexists.
Qed.
End late.

(** C16: the engine built from a profile with a FINAL decides every session,
    whatever the look-ups answer.  If a flagged REJECT rule matches knowing
    neither process nor addresses, the first of them decides and nothing is
    asked.  Otherwise the first rule decides that does not say no when the
    process is known and the addresses are from the first rule on that needs
    them: with its policy if it says yes; as FINAL's dns-failed has it if the
    look-up failed.  Exactly the counter of the rule whose policy is taken is
    raised (modulo 2^64); the process is asked for at most once and only if the session has
    none, the host is looked up once if a rule up to the deciding one needs
    it, and otherwise never.  The rules are supposed not to wait for the
    process only after the addresses came (see [late_process_is_missed]). *)
Theorem engine_decides `{D : Deps} lookup_set rs geo facts always handles e s resolve find_process show_error k :
  build lookup_set rs geo facts always handles = Some e ->
  Forall (settles e s resolve) (rules e) ->
  exists d k' q, run e s resolve find_process show_error ModeRule k = Some (d, k', q) /\
  exists found, first_at (fun _ => refuses e s new_ctx) (rules e) found /\
  match found with
  | Some (j, r) => hits k' = bump j (hits k) /\ q = [] /\
      exists sub ns, d = mkDecision (Policy (r_policy r)) PreMatching (Some (index r)) sub None ns
  | None => exists f j r sub ns, rules e !! final_pos e = Some f
      /\ first_at (not_no e s resolve find_process) (rules e) (Some (j, r))
      /\ d = (decision_at e s resolve find_process f j r sub ns).1
      /\ hits k' = bump_at (decision_at e s resolve find_process f j r sub ns).2 (hits k)
      /\ NoDup q /\ (AskProcess ∈ q -> process s = None)
      /\ forall h, AskResolve h ∈ q <-> h = host s /\ existsb (needs e s find_process) (take (S j) (rules e)) = true
  end.
Proof.
  intros Hb Hset. apply build_gives in Hb as (_ & _ & _ & _ & _ & _ & _ & _ & _ & [(front & f & Hrules & Hpos & Hf & _) Hpre]).
  assert (Hat : rules e !! final_pos e = Some f) by (rewrite Hrules, Hpos; by apply list_lookup_middle).
  simpl. rewrite Hpre, extract_flagged.
  destruct (pre_pass_spec e s (rules e) O new_ctx [] k eq_refl (knows_refl _)) as (o & c & ns & k1 & Hp & Hk & Hc & found & Hfound & Ho); [done|].
  rewrite Hp. simpl. destruct found as [[j r]|].
  - destruct Ho as (sub & -> & Hh). exists (mkDecision (Policy (r_policy r)) PreMatching (Some (index r)) sub None ns), k1, []. split; [done|]. exists (Some (j, r)).
    split; [done|]. split; [done|]. split; [done|]. by exists sub, ns.
  - destruct Ho as [-> Hh].
    assert (Hbt : between e s resolve find_process [] c).
    { destruct Hk as (Hr & Ha & Hbc). split; [split; [done|split; [done|by left]]|]. by split. }
    destruct (run_rules_spec e s resolve find_process show_error f Hat (rules e) [] c ns k1 eq_refl)
      as (d & k' & q & j & r & sub & ns' & Hrun & Hfirst & Hd & Hhits & Hnd & Hproc & Hres); [| done | done |].
    { rewrite Hrules. apply Exists_app. right. by constructor. }
    exists d, k', q. split; [exact Hrun|]. exists None. split; [done|]. exists f, j, r, sub, ns'. rewrite Hh in Hhits. split; [done|]. split; [exact Hfirst|].
    split; [done|]. split; [done|]. split; [done|]. split; [by intros Hin; destruct (Hproc Hin)|]. intros h. rewrite Hres. simpl. naive_solver.
Qed.

(** ** Before the connection *)

(** What refuses a query refuses every session that asks for the same. *)
Lemma refuses_query `{D : Deps} e s s' r : same_query s s' -> refuses e s (set_before true new_ctx) r = true -> refuses e s' new_ctx r = true.
Proof.
  intros Hq (Hf & (Hm%bool_decide_eq_true & Hp)%andb_true_iff)%andb_true_iff. unfold refuses. rewrite Hf, Hp, andb_true_r. apply bool_decide_eq_true.
  destruct (connecting (e_geo e) (network e) (e_handles e) (r_matcher r) s s' (set_before true new_ctx) true (extended_matching (r_params r)) Hq eq_refl) as [Hn|He];
    change (set_before false (set_before true new_ctx)) with new_ctx in *; unfold says_as in Hm |- *; congruence.
Qed.

Lemma first_at_earlier {A} (P Q : A -> bool) l found found' j x : (forall x, P x = true -> Q x = true) ->
  first_at (fun _ => P) l found -> first_at (fun _ => Q) l found' -> found = Some (j, x) ->
  exists j' x', found' = Some (j', x') /\ (j' <= j)%nat.
Proof.
  intros Hpq Hf Hf' ->. destruct Hf as (Hl & Hp & _). apply Hpq in Hp. destruct found' as [[j' x']|].
  - exists j', x'. split; [done|]. destruct Hf' as (_ & _ & Hno). destruct (decide (j < j')%nat) as [Hlt|]; [|lia].
    specialize (Hno j x Hlt Hl). simpl in Hno. congruence.
  - specialize (Hf' j x Hl). simpl in Hf'. congruence.
Qed.

(** Refusing early is sound.  If a DNS query is refused before there is a
    connection, then every session to that name, whatever its ports,
    transport, protocol and HTTP request, is refused when its connection
    opens, by that rule or an earlier one; and a session is refused when its
    connection opens exactly when the evaluation of the rules, which always
    comes to a decision, refuses it in the pre-pass.  Every refusal is by a
    rule flagged pre-matching with a policy of the REJECT family. *)
Theorem early_refusals_hold `{D : Deps} lookup_set rs geo facts always handles e s s' :
  build lookup_set rs geo facts always handles = Some e -> same_query s s' ->
  exists o o', first_pre_hit e s Dns = Some o /\ first_pre_hit e s' Syn = Some o'
    /\ (forall pos r sub, o = Some (pos, r, sub) -> rules e !! pos = Some r /\ pre_matching (r_params r) = true /\ is_reject_policy (r_policy r) = true
         /\ exists pos' r' sub', o' = Some (pos', r', sub') /\ (pos' <= pos)%nat)
    /\ (forall resolve find_process show_error k, exists d k' q, run e s' resolve find_process show_error ModeRule k = Some (d, k', q)
         /\ (reason d = PreMatching <-> pre_refuses e s' = Some true)).
Proof.
  intros Hb Hq. apply build_gives in Hb as (_ & _ & _ & _ & _ & _ & _ & _ & _ & Hok). pose proof (ok_pre e Hok) as Hpre.
  destruct (first_pre_hit_spec e s (set_before true new_ctx) (rules e) O (set_before true new_ctx) eq_refl (knows_refl _))
    as (found & Hf & sub & Hd); [done|].
  destruct (first_pre_hit_spec e s' (set_before false new_ctx) (rules e) O (set_before false new_ctx) eq_refl (knows_refl _))
    as (found' & Hf' & sub' & Hs); [done|].
  unfold first_pre_hit, pre_refuses, first_pre_hit. rewrite Hpre, extract_flagged, Hd, Hs. eexists _, _. split; [done|]. split; [done|]. split.
  - intros pos r sub0 Ho. destruct found as [[j r0]|]; [|done]. simpl in Ho. injection Ho as <- <- <-.
    destruct (first_at_earlier _ (refuses e s' (set_before false new_ctx)) _ _ found' j r0 (fun x => refuses_query e s s' x Hq) Hf Hf' eq_refl) as (j' & r' & -> & Hle).
    destruct Hf as (Hl & Hr & _). unfold refuses in Hr. apply andb_true_iff in Hr as [Hr1 [_ Hr2]%andb_true_iff].
    split; [done|]. split; [done|]. split; [done|]. by exists j', r', sub'.
  - intros resolve find_process show_error k. destruct (run_total e s' resolve find_process show_error k Hok) as (d & k' & q & Hrun & found2 & Hf2 & Hd2).
    exists d, k', q. split; [done|]. rewrite Hd2. simpl.
    assert (found2 = found') as -> by (by eapply first_at_unique).
    destruct found' as [[j r]|]; simpl; split; try done; by intros [? ?].
Qed.

(** ** Examples *)

Lemma fmap_at {A B} (f : A -> B) o x y : f <$> o = Some y -> o = Some x -> f x = y.
Proof. intros Hf ->. by injection Hf. Qed.

Definition sample_engine (rs : list Rule) : option RuleEngine :=
  build (fun _ _ => 0) rs sample_geo (mkFacts None None) false (fun _ => empty_set []).

Definition plain : RuleParams := mkParams false false false false.

Definition curl : ProcessInfo := mkProcess (Some 7) (lit "curl") (Some (lit "/usr/bin/curl")).

(** Every name is at 10.0.0.1. *)
Definition ten : rstr -> res ResolveError ResolvedAddrs := fun _ => Ok (mkResolved [167772161] []).

Definition from_usr : RuleKind := KProcessName (PPrefix (lit "/usr")).

(** A process and a network refused, the second by its address; ads refused
    ahead of everything. *)
Definition sample_rules : list Rule :=
  [mkRule (KProcessName (PPrefix (lit "/opt"))) (BuiltinRef Reject) plain;
   mkRule (KIpCidr (167772160, 8)) (Named (lit "Proxy")) plain;
   mkRule (KDomainSuffix (lit "ads.example")) (BuiltinRef RejectDrop) (mkParams false false false true);
   mkRule KFinal (BuiltinRef Direct) plain].

Lemma engine_decides_witness : exists e d k' q, sample_engine sample_rules = Some e
  /\ run e (sample_session (DomainName (lit "example.com"))) ten (Some curl) (fun _ => []) ModeRule (mkCounters [0; 0; 0; 0] [false; false; false; false])
     = Some (d, k', q)
  /\ outcome d = Policy (Named (lit "Proxy")) /\ hits k' = [0; 1; 0; 0] /\ NoDup q.
Proof.
  assert (Hc : (fun e => (forallb (settles_now e (sample_session (DomainName (lit "example.com"))) ten) (rules e),
      (fun r => (outcome r.1.1, hits r.1.2, r.2)) <$>
        run e (sample_session (DomainName (lit "example.com"))) ten (Some curl) (fun _ => []) ModeRule (mkCounters [0; 0; 0; 0] [false; false; false; false])))
      <$> sample_engine sample_rules
    = Some (true, Some (Policy (Named (lit "Proxy")), [0; 1; 0; 0], [AskProcess; AskResolve (lit "example.com")]))) by (vm_compute; reflexivity).
  destruct (sample_engine sample_rules) as [e|] eqn:Hb; [|discriminate Hc]. simpl in Hc. injection Hc as Hs Hc.
  destruct (engine_decides _ sample_rules _ _ _ _ e (sample_session (DomainName (lit "example.com"))) ten (Some curl) (fun _ => [])
    (mkCounters [0; 0; 0; 0] [false; false; false; false]) Hb (settles_test _ _ _ _ Hs)) as (d & k' & q & Hrun & found & Hfound & Hd).
  exists e, d, k', q. split; [reflexivity|]. split; [exact Hrun|].
  simpl in Hrun. rewrite Hrun in Hc. injection Hc as Ho Hh Hq. split; [exact Ho|]. split; [exact Hh|].
  destruct found as [[j r]|]; [destruct Hd as (_ & Hq' & _); rewrite Hq' in Hq; discriminate Hq|].
  destruct Hd as (f & j & r & sub & ns & _ & _ & _ & _ & Hnd & _). exact Hnd.
Defined.

Definition query : SessionInfo := mkSession (V4 1) 0 0 (DomainName (lit "x.ads.example")) 0 Udp None None None None None None.
Definition query_refused (e : RuleEngine) : bool := match first_pre_hit e query Dns with Some (Some _) => true | _ => false end.

Lemma early_refusals_hold_witness : exists e o', sample_engine sample_rules = Some e
  /\ first_pre_hit e query Dns <> Some None
  /\ first_pre_hit e (mkSession (V4 1) 5 6152 (DomainName (lit "x.ads.example")) 443 Tcp None None None None None None) Syn = Some (Some o').
Proof.
  assert (Hc : query_refused <$> sample_engine sample_rules = Some true) by (vm_compute; reflexivity).
  destruct (sample_engine sample_rules) as [e|] eqn:Hb; [|discriminate Hc]. injection Hc as Hc.
  destruct (early_refusals_hold _ sample_rules _ _ _ _ e
    query
    (mkSession (V4 1) 5 6152 (DomainName (lit "x.ads.example")) 443 Tcp None None None None None None) Hb) as (o & o' & Ho & Ho' & Href & _).
  - repeat split.
  - destruct o as [[[pos r] sub]|]; [|unfold query_refused in Hc; rewrite Ho in Hc; discriminate Hc].
    destruct (Href pos r sub eq_refl) as (_ & _ & _ & pos' & r' & sub' & He & _). subst o'.
    exists e, (pos', r', sub'). split; [reflexivity|]. split; [rewrite Ho; discriminate|exact Ho'].
Defined.

(** *** A process that is waited for too late

    [OR,((AND,((IP-CIDR,10.0.0.0/8,no-resolve),(PROCESS-NAME,/usr))),(IP-CIDR,192.168.0.0/16))]
    for a name at 10.0.0.1: before the addresses are known the first branch
    says no, so the rule waits for the addresses only; with them it waits for
    the process, which is then not asked for. *)
Definition late_rules : list Rule :=
  [mkRule (KOr [mkSubRule (KAnd [mkSubRule (KIpCidr (167772160, 8)) true false []; mkSubRule from_usr false false []]) false false [];
                mkSubRule (KIpCidr (3232235520, 16)) false false []])
     (BuiltinRef Reject) plain;
   mkRule KFinal (BuiltinRef Direct) plain].

(** What the rule at 0 says once everything is known, and what the session
    comes to without and with its process. *)
Definition late_outcome (e : RuleEngine) :=
  let s := sample_session (DomainName (lit "example.com")) in
  let carrying := mkSession (src_ip s) (src_port s) (in_port s) (dst_host s) (dst_port s) (transport s) None None None None None (Some curl) in
  let run s := run e s ten (Some curl) (fun _ => []) ModeRule (mkCounters [0; 0] [false; false]) in
  ((fun r => verdict_at e s ten (Some curl) 0 r) <$> rules e !! O,
   (fun r => (outcome r.1.1, r.2)) <$> run s,
   (fun r => (outcome r.1.1, r.2)) <$> run carrying).


