(* ===== verification/AutoGroups.v ===== *)
(** * Automatic groups

    [crates/rurge-policy/src/auto.rs]: how a [url-test], [fallback] or
    [load-balance] group picks from the test results of its members, and the
    state the automatic groups keep over the generations of a profile — the
    overrides, the member [url-test] holds, the last rounds of tests, the
    rounds asked for and the network epoch.  Durations and instants are
    nanoseconds; [Instant::now()] is an argument.  [TestBook] and [SmartBook],
    which the struct only carries, are not here; the channel to the scheduler
    is in [AutoRounds.v].  Logging is left out. *)

From S2P Require Import Prelude FakeIpAddr Glob RuleMatcher.

(** [GroupKind] of [rurge-config/src/policy.rs]. *)
Inductive GroupKind := Select | UrlTest | Fallback | LoadBalance | Smart | SubnetGroup.

#[export] Instance GroupKind_eq_dec : EqDecision GroupKind.
Proof. solve_decision. Defined.

(** [TestOpts] of [rurge-config/src/spec/group.rs]. *)
Record TestOpts := mkTestOpts {
  interval : Z;
  tolerance : Z;
  timeout : option Z;
  evaluate_before_use : bool;
  persistent : bool;
}.

#[export] Instance TestOpts_eq_dec : EqDecision TestOpts.
Proof. solve_decision. Defined.

Record SubnetSpec := mkSubnetSpec { conditions : list (SubnetExpr * rstr); default_policy : rstr }.

Record Span := mkSpan { span_file : rstr; span_line : Z }.

(** [GroupSpec]; [others] are its fields that the policies never read, only
    compare: what it imports, its relay, its priorities, whether it is hidden. *)
Record GroupSpec {Others : Type} := mkGroupSpec {
  g_name : rstr;
  g_kind : GroupKind;
  g_members : list rstr;
  g_test : TestOpts;
  g_subnet : option SubnetSpec;
  others : Others;
  span : Span;
}.
Arguments GroupSpec : clear implicits.
Arguments mkGroupSpec {Others} g_name g_kind g_members g_test g_subnet others span.

Definition without_span {O} (s : GroupSpec O) : GroupSpec O :=
  mkGroupSpec (g_name s) (g_kind s) (g_members s) (g_test s) (g_subnet s) (others s) (mkSpan [] 0).

(** ** Picking by the tests *)

(** [Untested] is [Standing::Unknown]. *)
Inductive Standing := Passed (score : Z) | Failed | Untested.

#[export] Instance Standing_eq_dec : EqDecision Standing.
Proof. solve_decision. Defined.

(** [Standing::passes]. *)
Definition passes (s : Standing) (opts : TestOpts) : option Z :=
  match s with
  | Passed score =>
      match timeout opts with
      | Some t => if score <? t then Some score else None
      | None => Some score
      end
  | _ => None
  end.

Definition does_pass (opts : TestOpts) (m : rstr * Standing) : bool := match passes m.2 opts with Some _ => true | None => false end.

(** The loop of [url_test] for the fastest member. *)
Fixpoint fastest (opts : TestOpts) (members : list (rstr * Standing)) (best : option (rstr * Z)) : option (rstr * Z) :=
  match members with
  | [] => best
  | (name, standing) :: members =>
      let best :=
        match passes standing opts with
        | Some score =>
            match best with
            | Some (_, b) => if score <? b then Some (name, score) else best
            | None => Some (name, score)
            end
        | None => best
        end in
      fastest opts members best
  end.

Definition find_member (members : list (rstr * Standing)) (name : rstr) : option Standing :=
  snd <$> (snd <$> list_find (fun m : rstr * Standing => m.1 = name) members).

Definition url_test (members : list (rstr * Standing)) (current : option rstr) (opts : TestOpts) : option rstr :=
  match fastest opts members None with
  | None => fst <$> head members
  | Some (best, best_score) =>
      let held := name ← current; standing ← find_member members name; score ← passes standing opts; Some (name, score) in
      match held with
      | Some (name, score) => if sat_sub score best_score <=? tolerance opts then Some name else Some best
      | None => Some best
      end
  end.

Definition fallback (members : list (rstr * Standing)) (opts : TestOpts) : option rstr :=
  match list_find (fun m => does_pass opts m = true) members with
  | Some (_, m) => Some m.1
  | None => fst <$> head members
  end.

(** [load_balance]; [hash] is what the fixed hasher makes of a host (not
    specified by the standard library), [random] the number drawn. *)
Definition load_balance (hash : rstr -> Z) (random : Z) (members : list (rstr * Standing)) (opts : TestOpts) (host : option rstr) : option rstr :=
  let passing := fst <$> filter (fun m => does_pass opts m = true) members in
  let candidates := match passing with [] => fst <$> members | _ => passing end in
  match candidates with
  | [] => None
  | _ =>
      let index := match host, persistent opts with Some host, true => hash host | _, _ => random end in
      candidates !! Z.to_nat (index mod Z.of_nat (length candidates))
  end.

(** ** State *)

#[export] Instance Glob_eq_dec : EqDecision Glob.
Proof. solve_decision. Defined.
#[export] Instance NetType_eq_dec : EqDecision NetType.
Proof. solve_decision. Defined.
#[export] Instance SubnetExpr_eq_dec : EqDecision SubnetExpr.
Proof. solve_decision. Defined.
#[export] Instance SubnetSpec_eq_dec : EqDecision SubnetSpec.
Proof. solve_decision. Defined.
#[export] Instance Span_eq_dec : EqDecision Span.
Proof. solve_decision. Defined.
#[export] Instance GroupSpec_eq_dec {O} `{EqDecision O} : EqDecision (GroupSpec O).
Proof. solve_decision. Defined.

Section state.
Context {O : Type} `{EqDecision O}.

Record Override := mkOverride { o_member : rstr; o_spec : GroupSpec O; o_warned : bool }.

(** [State]. *)
Record State := mkState {
  overrides : gmap rstr Override;
  picks : gmap rstr rstr;
  rounds : gmap rstr Z;
  requested : gset rstr;
  epoch : Z;
  cleared : gmap rstr Z;
}.

Definition new_state : State := mkState ∅ ∅ ∅ ∅ 0 ∅.

Definition set_overrides (x : gmap rstr Override) (s : State) : State := mkState x (picks s) (rounds s) (requested s) (epoch s) (cleared s).
Definition set_picks (x : gmap rstr rstr) (s : State) : State := mkState (overrides s) x (rounds s) (requested s) (epoch s) (cleared s).
Definition set_rounds (x : gmap rstr Z) (s : State) : State := mkState (overrides s) (picks s) x (requested s) (epoch s) (cleared s).
Definition set_requested (x : gset rstr) (s : State) : State := mkState (overrides s) (picks s) (rounds s) x (epoch s) (cleared s).
Definition set_epoch (x : Z) (s : State) : State := mkState (overrides s) (picks s) (rounds s) (requested s) x (cleared s).
Definition set_cleared (x : gmap rstr Z) (s : State) : State := mkState (overrides s) (picks s) (rounds s) (requested s) (epoch s) x.

(** The first half of [wake]: whether the group was not asked for already. *)
Definition request (group : rstr) (s : State) : bool * State :=
  if decide (group ∈ requested s) then (false, s) else (true, set_requested ({[group]} ∪ requested s) s).

(** One group of [round_ended]. *)
Definition end_round_of (began now : Z) (group : rstr) (s : State) : State :=
  let s :=
    match cleared s !! group with
    | Some c => if c <=? began then set_rounds (<[group := now]> (rounds s)) s else s
    | None => set_rounds (<[group := now]> (rounds s)) s
    end in
  set_requested (requested s ∖ {[group]}) s.

Definition round_ended (groups : list rstr) (began now : Z) (s : State) : State :=
  foldl (fun s group => end_round_of began now group s) s groups.

Definition last_round (group : rstr) (s : State) : option Z := rounds s !! group.

Definition set_override (spec : GroupSpec O) (member : rstr) (s : State) : State :=
  set_overrides (<[g_name spec := mkOverride member (without_span spec) false]> (overrides s)) s.

Definition clear_override (group : rstr) (s : State) : bool * State :=
  (bool_decide (is_Some (overrides s !! group)), set_overrides (delete group (overrides s)) s).

Definition override_of (group : rstr) (members : list rstr) (s : State) : option rstr * State :=
  match overrides s !! group with
  | None => (None, s)
  | Some o =>
      if decide (o_member o ∈ members) then (Some (o_member o), s)
      else if o_warned o then (None, s)
      else (None, set_overrides (<[group := mkOverride (o_member o) (o_spec o) true]> (overrides s)) s)
  end.

Definition pick (group : rstr) (s : State) : option rstr := picks s !! group.

Definition set_pick (group member : rstr) (s : State) : State :=
  match picks s !! group with
  | Some m => if decide (m = member) then s else set_picks (<[group := member]> (picks s)) s
  | None => set_picks (<[group := member]> (picks s)) s
  end.

(** Of specs of the same name the last counts, as a map is collected. *)
Definition by_name (groups : list (GroupSpec O)) : gmap rstr (GroupSpec O) :=
  foldl (fun m g => <[g_name g := without_span g]> m) ∅ groups.

(** The part of a map whose keys are names of [groups]. *)
Definition kept {A : Type} (groups : gmap rstr (GroupSpec O)) (m : gmap rstr A) : gmap rstr A :=
  filter (fun p : rstr * A => is_Some (groups !! p.1)) m.

Definition retain (groups : list (GroupSpec O)) (s : State) : State :=
  let names := by_name groups in
  mkState (filter (fun p : rstr * Override => names !! p.1 = Some (o_spec p.2)) (overrides s))
    (kept names (picks s)) (kept names (rounds s)) (requested s) (epoch s) (kept names (cleared s)).

(** One group of [network_changed]. *)
Definition change_group (epoch : Z) (group : GroupSpec O) (s : State) : State :=
  match g_kind group with
  | UrlTest | Fallback | LoadBalance =>
      set_cleared (<[g_name group := epoch]> (cleared s)) (set_rounds (delete (g_name group) (rounds s)) s)
  | SubnetGroup => set_overrides (delete (g_name group) (overrides s)) s
  | Select | Smart => s
  end.

(** The epoch is a 64-bit counter. *)
Definition network_changed (groups : list (GroupSpec O)) (s : State) : State :=
  let epoch := (epoch s + 1) mod 2 ^ 64 in
  foldl (fun s group => change_group epoch group s) (set_epoch epoch s) groups.

End state.

Arguments Override : clear implicits.
Arguments State : clear implicits.

(** ** What the automatic groups pick
    The members that [url_test], [fallback] and [load_balance]
    ([AutoGroups.v]) pick, told from the test results. *)

(** *** The fastest member *)

(** [m] is no faster than [b]; strictly slower. *)
Definition no_faster (opts : TestOpts) (b : Z) (m : rstr * Standing) : Prop := forall b', passes m.2 opts = Some b' -> b <= b'.
Definition slower (opts : TestOpts) (b : Z) (m : rstr * Standing) : Prop := forall b', passes m.2 opts = Some b' -> b < b'.

(** The result of the loop that began with [best]. *)
Definition fastest_of (opts : TestOpts) (members : list (rstr * Standing)) (best r : option (rstr * Z)) : Prop :=
  match r with
  | None => best = None /\ Forall (fun m => does_pass opts m = false) members
  | Some (name, b) =>
      (best = Some (name, b) /\ Forall (no_faster opts b) members)
      \/ exists before st after, members = before ++ (name, st) :: after /\ passes st opts = Some b
         /\ (forall n0 b0, best = Some (n0, b0) -> b < b0) /\ Forall (slower opts b) before /\ Forall (no_faster opts b) after
  end.

(** A member that is not faster than what there is. *)
Lemma fastest_skip opts m members best r : (forall n b, best = Some (n, b) -> no_faster opts b m) -> (best = None -> does_pass opts m = false) ->
  fastest_of opts members best r -> fastest_of opts (m :: members) best r.
Proof.
  intros Hslow Hno. destruct r as [[name b]|]; simpl.
  - intros [[Hb Hall]|(before & st & after & -> & Hp & Hbest & Hbe & Haf)].
    + left. split; [done|]. constructor; [|done]. by eapply Hslow.
    + right. exists (m :: before), st, after. split; [done|]. split; [done|]. split; [done|]. split; [|done]. constructor; [|done].
      intros b' Hb'. destruct best as [[n0 b0]|].
      * specialize (Hslow _ _ eq_refl b' Hb'). specialize (Hbest _ _ eq_refl). lia.
      * specialize (Hno eq_refl). unfold does_pass in Hno. by rewrite Hb' in Hno.
  - intros [-> Hall]. split; [done|]. constructor; [by apply Hno|done].
Qed.

(** A member that is. *)
Lemma fastest_take opts name st score members best r : passes st opts = Some score -> (forall n0 b0, best = Some (n0, b0) -> score < b0) ->
  fastest_of opts members (Some (name, score)) r -> fastest_of opts ((name, st) :: members) best r.
Proof.
  intros Hp Hlt H. destruct r as [[name' b]|]; simpl in *; [|by destruct H]. right.
  destruct H as [[[= <- <-] Hall]|(before & st' & after & -> & Hb & Hbest & Hbe & Haf)].
  - exists [], st, members. by repeat split.
  - specialize (Hbest _ _ eq_refl). exists ((name, st) :: before), st', after. split; [done|]. split; [done|]. split.
    + intros n0 b0 Hn0. specialize (Hlt _ _ Hn0). lia.
    + split; [|done]. constructor; [|done]. intros b' Hb'. simpl in Hb'. simplify_eq. lia.
Qed.

Lemma fastest_spec opts members best : fastest_of opts members best (fastest opts members best).
Proof.
  revert best. induction members as [|[name st] members IH]; intros best; cbn [fastest].
  { destruct best as [[name b]|]; [left|]; split; done. }
  destruct (passes st opts) as [score|] eqn:Hp.
  - destruct best as [[n0 b0]|]; [destruct (Z.ltb_spec score b0)|].
    + apply (fastest_take _ _ _ score); [done|by intros ? ? [= <- <-]|apply IH].
    + apply fastest_skip; [|done|apply IH]. intros ? ? [= <- <-] b' Hb'. simpl in Hb'. simplify_eq. lia.
    + by apply (fastest_take _ _ _ score).
  - apply fastest_skip; [|intros _; unfold does_pass; simpl; by rewrite Hp|apply IH]. intros n b _ b' Hb'. simpl in Hb'. congruence.
Qed.

(** *** The member held *)

Lemma find_member_spec members name st : NoDup (fst <$> members) -> find_member members name = Some st <-> (name, st) ∈ members.
Proof.
  intros Hnd. unfold find_member. destruct (list_find _ members) as [[i [n s]]|] eqn:Hf; simpl.
  - apply list_find_Some in Hf as (Hi & Hn & _). simpl in Hn. subst n. split.
    + intros [= ->]. by eapply list_elem_of_lookup_2.
    + intros [j Hj]%list_elem_of_lookup. assert (i = j) as ->; [|congruence].
      eapply (NoDup_lookup (fst <$> members)); [done|rewrite list_lookup_fmap, Hi; done|by rewrite list_lookup_fmap, Hj].
  - apply list_find_None in Hf. split; [done|]. intros Hin. rewrite Forall_forall in Hf. by specialize (Hf _ Hin).
Qed.

Lemma passing_found opts members name b : fastest opts members None = Some (name, b) ->
  exists st, (name, st) ∈ members /\ passes st opts = Some b /\ forall m, m ∈ members -> no_faster opts b m.
Proof.
  intros Hf. pose proof (fastest_spec opts members None) as Hs. rewrite Hf in Hs.
  destruct Hs as [[? _]|(before & st & after & -> & Hp & _ & Hbe & Haf)]; [done|]. exists st. split; [set_solver|]. split; [done|].
  rewrite Forall_forall in Hbe, Haf. intros m [Hm|[->|Hm]%elem_of_cons]%elem_of_app.
  - intros b' Hb'. specialize (Hbe m Hm b' Hb'). lia.
  - intros b' Hb'. simpl in Hb'. simplify_eq. lia.
  - by apply Haf.
Qed.

Definition held_score (opts : TestOpts) (members : list (rstr * Standing)) (current : option rstr) : option (rstr * Z) :=
  name ← current; standing ← find_member members name; score ← passes standing opts; Some (name, score).

Lemma url_test_unfold members current opts : url_test members current opts =
  match fastest opts members None with
  | None => fst <$> head members
  | Some (best, best_score) =>
      match held_score opts members current with
      | Some (name, score) => if sat_sub score best_score <=? tolerance opts then Some name else Some best
      | None => Some best
      end
  end.
Proof. reflexivity. Qed.

Lemma held_score_spec opts members current name s : NoDup (fst <$> members) ->
  held_score opts members current = Some (name, s) <-> current = Some name /\ exists st, (name, st) ∈ members /\ passes st opts = Some s.
Proof.
  intros Hnd. unfold held_score. destruct current as [c|]; simpl; [|naive_solver]. split.
  - destruct (find_member members c) as [st|] eqn:Hf; simpl; [|done]. destruct (passes st opts) as [s'|] eqn:Hp; simpl; [|done].
    intros [= -> ->]. split; [done|]. exists st. split; [by apply find_member_spec|done].
  - intros [[= ->] (st & Hin & Hp)]. apply find_member_spec in Hin; [|done]. rewrite Hin. simpl. by rewrite Hp.
Qed.

(** Whom [url_test] picks when somebody passes. *)
Lemma url_test_passing members current opts name b0 s0 : NoDup (fst <$> members) -> 0 <= tolerance opts ->
  fastest opts members None = Some (b0, s0) -> url_test members current opts = Some name ->
  exists st s, (name, st) ∈ members /\ passes st opts = Some s
    /\ s <= s0 + (if decide (current = Some name) then tolerance opts else 0)
    /\ forall c sc, held_score opts members current = Some (c, sc) -> sc <= s0 + tolerance opts -> name = c.
Proof.
  intros Hnd Htol Hf. rewrite url_test_unfold, Hf. destruct (passing_found _ _ _ _ Hf) as (st0 & Hin0 & Hp0 & Hmin).
  destruct (held_score opts members current) as [[c sc]|] eqn:Hh.
  - apply held_score_spec in Hh as [-> (st & Hin & Hp)]; [|done]. pose proof (Hmin _ Hin sc Hp) as Hle.
    unfold sat_sub. destruct (Z.leb_spec (Z.max 0 (sc - s0)) (tolerance opts)); intros [= <-].
    + exists st, sc. rewrite decide_True by done. repeat split; [done|done|lia|]. by intros ? ? [= <- <-].
    + exists st0, s0. split; [done|]. split; [done|]. split; [case_decide; lia|]. intros ? ? [= <- <-]. lia.
  - intros [= <-]. exists st0, s0. split; [done|]. split; [done|]. split; [case_decide; lia|done].
Qed.

Lemma url_test_again members current opts name : NoDup (fst <$> members) -> 0 <= tolerance opts ->
  url_test members current opts = Some name -> url_test members (Some name) opts = Some name.
Proof.
  intros Hnd Htol Hu. destruct (fastest opts members None) as [[b0 s0]|] eqn:Hf; [|by rewrite url_test_unfold, Hf in *].
  destruct (url_test_passing _ _ _ _ _ _ Hnd Htol Hf Hu) as (st & s & Hin & Hp & Hle & _).
  rewrite url_test_unfold, Hf. rewrite (proj2 (held_score_spec opts members (Some name) name s Hnd)) by eauto.
  unfold sat_sub. destruct (Z.leb_spec (Z.max 0 (s - s0)) (tolerance opts)); [done|]. exfalso. case_decide; lia.
Qed.

(** *** The three groups *)

Lemma fallback_spec members opts name : fallback members opts = Some name ->
  (exists before st after, members = before ++ (name, st) :: after /\ does_pass opts (name, st) = true /\ Forall (fun m => does_pass opts m = false) before)
  \/ (Forall (fun m => does_pass opts m = false) members /\ Some name = fst <$> head members).
Proof.
  unfold fallback. destruct (list_find _ members) as [[i [n st]]|] eqn:Hf.
  - apply list_find_Some in Hf as (Hi & Hp & Hno). intros [= <-]. left. exists (take i members), st, (drop (S i) members).
    split; [by rewrite take_drop_middle|]. split; [done|]. apply Forall_lookup. intros j m [Hj Hlt]%lookup_take_Some.
    apply not_true_is_false. by eapply Hno.
  - apply list_find_None in Hf. intros <-. right. split; [|done]. eapply Forall_impl; [exact Hf|]. intros m. apply not_true_is_false.
Qed.

(** Those a [load-balance] group draws from. *)
Definition candidates (members : list (rstr * Standing)) (opts : TestOpts) : list rstr :=
  match fst <$> filter (fun m => does_pass opts m = true) members with [] => fst <$> members | passing => passing end.

Lemma load_balance_unfold hash random members opts host : candidates members opts <> [] ->
  load_balance hash random members opts host
  = candidates members opts !! Z.to_nat ((match host, persistent opts with Some h, true => hash h | _, _ => random end) mod Z.of_nat (length (candidates members opts))).
Proof. unfold load_balance, candidates. by destruct (fst <$> filter _ members) as [|p ps]; [destruct (fst <$> members)|]. Qed.

Lemma draw {A : Type} (l : list A) z : l <> [] -> exists x, l !! Z.to_nat (z mod Z.of_nat (length l)) = Some x /\ x ∈ l.
Proof.
  intros Hl. assert (0 < Z.of_nat (length l)) by (destruct l; simpl; [done|lia]).
  destruct (lookup_lt_is_Some_2 l (Z.to_nat (z mod Z.of_nat (length l)))) as [x Hx].
  { pose proof (Z.mod_pos_bound z (Z.of_nat (length l))). lia. }
  exists x. split; [done|]. by eapply list_elem_of_lookup_2.
Qed.

Lemma drawn {A : Type} (l : list A) x : x ∈ l -> exists z, 0 <= z < Z.of_nat (length l) /\ l !! Z.to_nat (z mod Z.of_nat (length l)) = Some x.
Proof.
  intros [i Hi]%list_elem_of_lookup. pose proof (lookup_lt_Some _ _ _ Hi). exists (Z.of_nat i). split; [lia|].
  by rewrite Z.mod_small, Nat2Z.id by lia.
Qed.

Lemma candidates_spec members opts name : name ∈ candidates members opts <->
  exists st, (name, st) ∈ members /\ (does_pass opts (name, st) = true \/ Forall (fun m => does_pass opts m = false) members).
Proof.
  unfold candidates. pose proof (fun m => list_elem_of_filter (fun m => does_pass opts m = true) members m) as Hfil.
  destruct (filter _ members) as [|p ps] eqn:Hf.
  - change (match fst <$> [] with [] => fst <$> members | passing => passing end) with (fst <$> members). assert (Hno : Forall (fun m => does_pass opts m = false) members).
    { apply Forall_forall. intros m Hm. apply not_true_is_false. intros Hp. by apply (not_elem_of_nil m), Hfil. }
    rewrite list_elem_of_fmap. split; [intros ([n st] & -> & Hin); eauto|]. intros (st & Hin & _). by exists (name, st).
  - change (match fst <$> p :: ps with [] => fst <$> members | passing => passing end) with (fst <$> p :: ps). rewrite list_elem_of_fmap. split.
    + intros ([n st] & -> & [Hp Hin]%Hfil). eauto.
    + intros (st & Hin & Hcase). exists (name, st). split; [done|]. apply Hfil. split; [|done].
      destruct Hcase as [|Hno]; [done|]. exfalso. destruct (proj1 (Hfil p) ltac:(by left)) as [Hp Hpin]. rewrite Forall_forall in Hno.
      specialize (Hno p Hpin). congruence.
Qed.


