(* ===== verification/AutoRounds.v ===== *)
(** * Rounds of tests

    The state of [AutoGroups.v] among the calls that reach it at the same
    time: dials that ask for rounds ([AutoGroups::wake], whose two locks are
    two steps), the scheduler that connects and receives the requests
    ([AutoGroups::connect], [Engine::start_tests]), the rounds that run on
    tasks of their own ([PolicyRegistry::round]), a changed network and a new
    generation of the profile.  Each step of [step] is one hold of the lock. *)

From S2P Require Import Prelude RuleMatcher AutoGroups.

(** A round under way: the groups it covers and the epoch it began in. *)
Record Round := mkRound { r_groups : list rstr; began : Z }.

Inductive Event (O : Type) :=
| Wake (group : rstr)                           (* a dial asks: the first lock *)
| Send (i : nat)                                (* the second lock of the [i]th such call *)
| Connect                                       (* the scheduler comes *)
| Receive                                       (* it takes a request and spawns a task *)
| Begin (i : nat) (groups : list rstr)          (* the [i]th such task reads the epoch *)
| Test (groups : list rstr)                     (* a round the control plane asks for *)
| End_ (i : nat) (now : Z)                      (* the [i]th round ends *)
| Change (groups : list (GroupSpec O))          (* the network changed *)
| Retain (groups : list (GroupSpec O)).         (* a new generation *)
Arguments Wake {O} group.
Arguments Send {O} i.
Arguments Connect {O}.
Arguments Receive {O}.
Arguments Begin {O} i groups.
Arguments Test {O} groups.
Arguments End_ {O} i now.
Arguments Change {O} groups.
Arguments Retain {O} groups.

Section rounds.
Context {O : Type} `{EqDecision O}.

Record World := mkWorld {
  st : State O;
  waking : list rstr;               (* calls of [wake] between their two locks *)
  channel : option (list rstr);     (* what the scheduler has not received yet *)
  spawned : list rstr;
  running : list Round;
}.

Definition new_world : World := mkWorld new_state [] None [] [].

(** One step; [None]: it cannot be taken now. *)
Definition step (e : Event O) (w : World) : option World :=
  match e with
  | Wake group =>
      let '(new, s) := request group (st w) in
      Some (mkWorld s (if new then waking w ++ [group] else waking w) (channel w) (spawned w) (running w))
  | Send i =>
      group ← waking w !! i;
      Some (mkWorld (st w) (delete i (waking w)) ((fun q => q ++ [group]) <$> channel w) (spawned w) (running w))
  | Connect => Some (mkWorld (st w) (waking w) (Some (elements (requested (st w)))) (spawned w) (running w))
  | Receive =>
      q ← channel w;
      match q with
      | group :: q => Some (mkWorld (st w) (waking w) (Some q) (spawned w ++ [group]) (running w))
      | [] => None
      end
  | Begin i groups =>
      group ← spawned w !! i;
      if decide (group ∈ groups) then
        Some (mkWorld (st w) (waking w) (channel w) (delete i (spawned w)) (running w ++ [mkRound groups (epoch (st w))]))
      else None
  | Test groups => Some (mkWorld (st w) (waking w) (channel w) (spawned w) (running w ++ [mkRound groups (epoch (st w))]))
  | End_ i now =>
      r ← running w !! i;
      Some (mkWorld (round_ended (r_groups r) (began r) now (st w)) (waking w) (channel w) (spawned w) (delete i (running w)))
  | Change groups => Some (mkWorld (network_changed groups (st w)) (waking w) (channel w) (spawned w) (running w))
  | Retain groups => Some (mkWorld (retain groups (st w)) (waking w) (channel w) (spawned w) (running w))
  end.

Fixpoint steps (es : list (Event O)) (w : World) : option World :=
  match es with
  | [] => Some w
  | e :: es => w ← step e w; steps es w
  end.

(** ** No request is lost *)

(** Somebody will see to the request of [group]. *)
Definition seen_to (w : World) (group : rstr) : Prop :=
  match channel w with
  | None => True
  | Some q => group ∈ waking w \/ group ∈ q \/ group ∈ spawned w \/ exists r, r ∈ running w /\ group ∈ r_groups r
  end.

Definition requests_ok (w : World) : Prop := forall group, group ∈ requested (st w) -> seen_to w group.

(** What the steps that see to requests use up. *)
Definition work (w : World) : nat :=
  (4 * length (waking w) + 3 * length (default [] (channel w)) + 2 * length (spawned w) + length (running w))%nat.

(** A step of the scheduler, of its tasks, or the second half of a [wake]. *)
Definition scheduled (e : Event O) : bool :=
  match e with Send _ | Receive | Begin _ _ | End_ _ _ => true | _ => false end.

Lemma round_ended_requested groups b now (s : State O) : requested (round_ended groups b now s) = requested s ∖ list_to_set groups.
Proof.
  unfold round_ended. revert s. induction groups as [|g groups IH]; intros s; [set_solver|]. cbn [foldl]. rewrite IH.
  assert (requested (end_round_of b now g s) = requested s ∖ {[g]}) as ->; [|set_solver].
  unfold end_round_of. cbv zeta. destruct (cleared s !! g); [case_match|]; done.
Qed.

Lemma network_changed_requested groups (s : State O) : requested (network_changed groups s) = requested s.
Proof.
  unfold network_changed. cbv zeta. generalize ((epoch s + 1) mod 2 ^ 64); intros ep. change (requested s) with (requested (set_epoch ep s)). generalize (set_epoch ep s). clear s.
  induction groups as [|g groups IH]; intros s; [done|]. simpl. rewrite IH. unfold change_group. by destruct (g_kind g).
Qed.

Lemma elem_of_delete {A : Type} (l : list A) i x y : l !! i = Some x -> y ∈ l -> y = x \/ y ∈ delete i l.
Proof.
  intros Hx Hy. rewrite <- (take_drop_middle l i x Hx) in Hy. rewrite delete_take_drop. set_solver.
Qed.

Lemma work_delete {A : Type} (l : list A) i x : l !! i = Some x -> S (length (delete i l)) = length l.
Proof. intros Hx. rewrite length_delete by done. pose proof (lookup_lt_Some _ _ _ Hx). lia. Qed.

Lemma step_requests_ok e w w' : step e w = Some w' -> requests_ok w -> requests_ok w'.
Proof.
  intros Hs Hok group. specialize (Hok group). unfold seen_to in *. destruct e; simpl in Hs.
  - unfold request in Hs. case_decide as Hd; simplify_eq/=; [done|]. destruct (channel w); [|done]. set_solver.
  - destruct (waking w !! i) as [g|] eqn:Hi; simplify_eq/=. destruct (channel w) as [q|]; [|done]. simpl. intros Hg.
    destruct (Hok Hg) as [Hw|[Hq|Hr]]; [|set_solver|tauto]. destruct (elem_of_delete _ _ _ _ Hi Hw); set_solver.
  - simplify_eq/=. intros Hg. right. left. by apply elem_of_elements.
  - destruct (channel w) as [[|g q]|]; simplify_eq/=. set_solver.
  - destruct (spawned w !! i) as [g|] eqn:Hi; simpl in Hs; [|done]. case_decide as Hd; simplify_eq/=. destruct (channel w) as [q|]; [|done].
    intros Hg. destruct (Hok Hg) as [Hw|[Hq|[Hsp|(r & Hr & Hrg)]]]; [tauto|tauto| |].
    + destruct (elem_of_delete _ _ _ _ Hi Hsp) as [->|]; [|tauto]. right. right. right. exists (mkRound groups (epoch (st w))). set_solver.
    + right. right. right. exists r. set_solver.
  - simplify_eq/=. destruct (channel w) as [q|]; [|done]. intros Hg. destruct (Hok Hg) as [Hw|[Hq|[Hsp|(r & Hr & Hrg)]]]; [tauto..|].
    right. right. right. exists r. set_solver.
  - destruct (running w !! i) as [r|] eqn:Hi; simplify_eq/=. destruct (channel w) as [q|]; [|done]. rewrite round_ended_requested.
    intros [Hg Hng]%elem_of_difference. destruct (Hok Hg) as [Hw|[Hq|[Hsp|(r' & Hr & Hrg)]]]; [tauto..|]. right. right. right. exists r'.
    split; [|done]. destruct (elem_of_delete _ _ _ _ Hi Hr) as [->|]; [|done]. set_solver.
  - simplify_eq/=. by rewrite network_changed_requested.
  - by simplify_eq/=.
Qed.

(** Each step towards the end of the requests uses up work and asks for
    nothing new. *)
Lemma scheduled_works e w w' : scheduled e = true -> step e w = Some w' ->
  (work w' < work w)%nat /\ requested (st w') ⊆ requested (st w) /\ (is_Some (channel w) -> is_Some (channel w')).
Proof.
  intros He Hs. unfold work. destruct e; try done; simpl in Hs.
  - destruct (waking w !! i) as [g|] eqn:Hi; simplify_eq/=. pose proof (work_delete _ _ _ Hi).
    destruct (channel w); simpl; rewrite ?length_app; simpl; (split; [lia|]); split; [done|by eauto|done|done].
  - destruct (channel w) as [[|g q]|]; simplify_eq/=. rewrite length_app. simpl. split; [lia|]. by split.
  - destruct (spawned w !! i) as [g|] eqn:Hi; simpl in Hs; [|done]. case_decide; simplify_eq/=. pose proof (work_delete _ _ _ Hi).
    rewrite length_app. simpl. split; [lia|]. by split.
  - destruct (running w !! i) as [r|] eqn:Hi; simplify_eq/=. pose proof (work_delete _ _ _ Hi). rewrite round_ended_requested.
    split; [lia|]. split; [set_solver|done].
Qed.

(** While something is asked for, such a step can be taken. *)
Lemma requests_progress w : requests_ok w -> is_Some (channel w) -> requested (st w) <> ∅ ->
  exists e, scheduled e = true /\ is_Some (step e w).
Proof.
  intros Hok [q Hq] Hne. apply set_choose_L in Hne as [g Hg]. specialize (Hok g Hg). unfold seen_to in Hok. rewrite Hq in Hok.
  destruct Hok as [[i Hi]%list_elem_of_lookup|[Hin|[[i Hi]%list_elem_of_lookup|(r & [i Hi]%list_elem_of_lookup & _)]]].
  - exists (Send i). simpl. by rewrite Hi.
  - exists Receive. simpl. rewrite Hq. by destruct q; [inversion Hin|].
  - exists (Begin i [g]). simpl. rewrite Hi. simpl. rewrite decide_True by set_solver. by eauto.
  - exists (End_ i 0). simpl. by rewrite Hi.
Qed.

Lemma steps_requests_ok es w w' : steps es w = Some w' -> requests_ok w -> requests_ok w'.
Proof.
  revert w. induction es as [|e es IH]; intros w Hs Hok; simpl in Hs; [by simplify_eq|].
  destruct (step e w) as [w1|] eqn:He; [|done]. eapply IH; [done|]. by eapply step_requests_ok.
Qed.

Lemma new_requests_ok : requests_ok new_world.
Proof. intros g Hg. done. Qed.

Lemma steps_scheduled es w w' : forallb scheduled es = true -> steps es w = Some w' -> is_Some (channel w) ->
  (length es + work w' <= work w)%nat /\ is_Some (channel w') /\ requested (st w') ⊆ requested (st w).
Proof.
  revert w. induction es as [|e es IH]; intros w Hall Hs Hc; simpl in *; [by simplify_eq|].
  apply andb_true_iff in Hall as [He Hall]. destruct (step e w) as [w1|] eqn:Hw; [|done]. simpl in Hs.
  destruct (scheduled_works e w w1 He Hw) as (Hlt & Hsub & Hch). destruct (IH w1 Hall Hs (Hch Hc)) as (Hle & Hc' & Hsub').
  split; [lia|]. split; [done|]. set_solver.
Qed.

(** C19: no request for a round of tests is lost, and each is answered.
    However dials, the scheduler, its tasks, rounds, network changes and new
    generations interleave up to a point where the scheduler is connected:
    from there the second halves of the calls of wake, the scheduler and its
    tasks take at most [work] steps between them; when they have nothing left
    to do, no group is waiting for a round; and until then one of them can
    take a step. *)
Theorem requests_are_answered es w : steps es new_world = Some w -> is_Some (channel w) ->
  forall es' w', forallb scheduled es' = true -> steps es' w = Some w' ->
    (length es' <= work w)%nat /\ requested (st w') ⊆ requested (st w)
    /\ (requested (st w') = ∅ \/ exists e, scheduled e = true /\ is_Some (step e w')).
Proof.
  intros Hs Hc es' w' Hall Hs'. destruct (steps_scheduled es' w w' Hall Hs' Hc) as (Hle & Hc' & Hsub).
  split; [lia|]. split; [done|]. destruct (decide (requested (st w') = ∅)) as [|Hne]; [by left|]. right.
  apply requests_progress; [|done|done]. eapply steps_requests_ok; [done|]. eapply steps_requests_ok; [done|apply new_requests_ok].
Qed.

(** ** What the last round of a group is

    The same steps without epochs: a round under way knows of which groups it
    no longer is a round of tests, since the network changed. *)

Record ARound := mkARound { a_groups : list rstr; stale : gset rstr }.
Record AWorld := mkAWorld { times : gmap rstr Z; under_way : list ARound }.

Definition by_tests (k : GroupKind) : bool := match k with UrlTest | Fallback | LoadBalance => true | _ => false end.

Definition retested (groups : list (GroupSpec O)) : gset rstr :=
  list_to_set (g_name <$> filter (fun g => by_tests (g_kind g) = true) groups).

Definition record_round (r : ARound) (now : Z) (m : gmap rstr Z) : gmap rstr Z :=
  foldl (fun m g => if decide (g ∈ stale r) then m else <[g := now]> m) m (a_groups r).

Definition astep (e : Event O) (a : AWorld) : option AWorld :=
  match e with
  | Begin _ groups | Test groups => Some (mkAWorld (times a) (under_way a ++ [mkARound groups ∅]))
  | End_ i now => r ← under_way a !! i; Some (mkAWorld (record_round r now (times a)) (delete i (under_way a)))
  | Change groups =>
      Some (mkAWorld (filter (fun p : rstr * Z => p.1 ∉ retested groups) (times a))
        ((fun r => mkARound (a_groups r) (retested groups ∪ stale r)) <$> under_way a))
  | Retain groups =>
      Some (mkAWorld (kept (by_name groups) (times a))
        ((fun r => mkARound (a_groups r) (filter (fun g => is_Some (by_name groups !! g)) (stale r))) <$> under_way a))
  | Wake _ | Send _ | Connect | Receive => Some a
  end.

Fixpoint asteps (es : list (Event O)) (a : AWorld) : option AWorld :=
  match es with
  | [] => Some a
  | e :: es => a ← astep e a; asteps es a
  end.

(** A round of the concrete world is one of the abstract world. *)
Definition same_round (s : State O) (r : Round) (ar : ARound) : Prop :=
  r_groups r = a_groups ar /\ began r <= epoch s
  /\ forall g, g ∈ stale ar <-> exists c, cleared s !! g = Some c /\ began r < c.

Definition sim (n : Z) (w : World) (a : AWorld) : Prop :=
  times a = rounds (st w) /\ Forall2 (same_round (st w)) (running w) (under_way a)
  /\ 0 <= epoch (st w) <= n /\ (forall g c, cleared (st w) !! g = Some c -> c <= epoch (st w)).

Lemma retested_cons g x groups : g ∈ retested (x :: groups) <-> (by_tests (g_kind x) = true /\ g = g_name x) \/ g ∈ retested groups.
Proof. unfold retested. rewrite !elem_of_list_to_set, !list_elem_of_fmap. setoid_rewrite list_elem_of_filter. set_solver. Qed.

(** What a change takes from group [g] when it asks for new tests of [names]. *)
Definition changed_to {A : Type} (P : Prop) `{base.Decision P} (new old : option A) : option A := if decide P then new else old.

Lemma change_group_spec ep x (s : State O) g :
  epoch (change_group ep x s) = epoch s
  /\ rounds (change_group ep x s) !! g = changed_to (by_tests (g_kind x) = true /\ g = g_name x) None (rounds s !! g)
  /\ cleared (change_group ep x s) !! g = changed_to (by_tests (g_kind x) = true /\ g = g_name x) (Some ep) (cleared s !! g).
Proof.
  unfold changed_to, change_group. destruct (decide (by_tests (g_kind x) = true /\ g = g_name x)) as [[Hk ->]|Hn].
  - destruct (g_kind x); try done; simpl; by rewrite lookup_delete_eq, lookup_insert_eq.
  - destruct (g_kind x); try done; simpl in *; (assert (g <> g_name x) by tauto); by rewrite lookup_delete_ne, lookup_insert_ne.
Qed.

Lemma change_fold ep groups (s : State O) : let s' := foldl (fun s g => change_group ep g s) s groups in
  epoch s' = epoch s
  /\ forall g, rounds s' !! g = changed_to (g ∈ retested groups) None (rounds s !! g)
    /\ cleared s' !! g = changed_to (g ∈ retested groups) (Some ep) (cleared s !! g).
Proof.
  revert s. induction groups as [|x groups IH]; intros s; cbn [foldl].
  { split; [done|]. intros g. unfold changed_to. by rewrite !decide_False by set_solver. }
  destruct (IH (change_group ep x s)) as (He & Hg). split; [by rewrite He; apply (change_group_spec ep x s [])|]. intros g.
  destruct (Hg g) as [-> ->]. destruct (change_group_spec ep x s g) as (_ & -> & ->). unfold changed_to.
  split; repeat case_decide; try done; exfalso; rewrite retested_cons in *; tauto.
Qed.

Lemma end_fold groups b now (s : State O) : 
  epoch (round_ended groups b now s) = epoch s /\ cleared (round_ended groups b now s) = cleared s
  /\ forall ar, a_groups ar = groups -> (forall g, g ∈ stale ar <-> exists c, cleared s !! g = Some c /\ b < c) ->
     rounds (round_ended groups b now s) = record_round ar now (rounds s).
Proof.
  unfold round_ended, record_round. revert s. induction groups as [|g groups IH]; intros s; cbn [foldl].
  { split; [done|]. split; [done|]. by intros ar ->. }
  assert (He : epoch (end_round_of b now g s) = epoch s /\ cleared (end_round_of b now g s) = cleared s).
  { unfold end_round_of. cbv zeta. destruct (cleared s !! g); [case_match|]; done. }
  destruct He as [He Hc]. destruct (IH (end_round_of b now g s)) as (He' & Hc' & Hr). split; [congruence|]. split; [congruence|].
  intros ar Ha Hst. rewrite Ha. cbn [foldl]. rewrite (Hr (mkARound groups (stale ar))); [|done|by rewrite Hc]. simpl. f_equal.
  unfold end_round_of. cbv zeta. destruct (cleared s !! g) as [c|] eqn:Hcg.
  - destruct (Z.leb_spec c b).
    + rewrite decide_False; [done|]. rewrite Hst. intros (c' & Hc1 & Hlt). simplify_eq. lia.
    + rewrite decide_True; [done|]. rewrite Hst. by exists c.
  - rewrite decide_False; [done|]. rewrite Hst. naive_solver.
Qed.

Lemma same_round_keep (s s' : State O) r ar : epoch s <= epoch s' -> cleared s' = cleared s -> same_round s r ar -> same_round s' r ar.
Proof. intros He Hc (Hg & Hb & Hs). split; [done|]. split; [lia|]. by rewrite Hc. Qed.

Lemma new_round_same groups (s : State O) : (forall g c, cleared s !! g = Some c -> c <= epoch s) -> same_round s (mkRound groups (epoch s)) (mkARound groups ∅).
Proof.
  intros Hc. split; [done|]. split; [simpl; lia|]. intros g. simpl. split; [set_solver|]. intros (c & Hcg & Hlt). apply Hc in Hcg. lia.
Qed.

Lemma sim_begin n w a st' groups : st' = st w -> sim n w a ->
  forall wk ch sp, sim n (mkWorld st' wk ch sp (running w ++ [mkRound groups (epoch (st w))])) (mkAWorld (times a) (under_way a ++ [mkARound groups ∅])).
Proof.
  intros -> (Ht & Hr & He & Hc) wk ch sp. split; [done|]. simpl. split; [|done]. apply Forall2_app; [done|]. constructor; [by apply new_round_same|constructor].
Qed.

Lemma Forall2_delete {A B : Type} (R : A -> B -> Prop) l k i : Forall2 R l k -> Forall2 R (delete i l) (delete i k).
Proof. intros HR. rewrite !delete_take_drop. apply Forall2_app; [by apply Forall2_take|by apply Forall2_drop]. Qed.

Lemma sim_end n w a i r now : running w !! i = Some r -> sim n w a -> exists a', astep (End_ i now) a = Some a' /\
  forall wk ch sp, sim n (mkWorld (round_ended (r_groups r) (began r) now (st w)) wk ch sp (delete i (running w))) a'.
Proof.
  intros Hi (Ht & Hr & He & Hc). destruct (Forall2_lookup_l _ _ _ _ _ Hr Hi) as (ar & Har & Hg & Hb & Hs).
  destruct (end_fold (r_groups r) (began r) now (st w)) as (He' & Hc' & Hr'). simpl. rewrite Har. simpl. eexists. split; [done|]. intros wk ch sp.
  split; [|split; [|split]]; simpl.
  - by rewrite (Hr' ar), Ht.
  - apply Forall2_delete. eapply Forall2_impl; [exact Hr|]. intros x y. apply same_round_keep; [lia|done].
  - lia.
  - rewrite Hc', He'. exact Hc.
Qed.

Lemma sim_change n w a groups : sim n w a -> n + 1 < 2 ^ 64 -> exists a', astep (Change groups) a = Some a' /\
  sim (n + 1) (mkWorld (network_changed groups (st w)) (waking w) (channel w) (spawned w) (running w)) a'.
Proof.
  intros (Ht & Hr & He & Hc) Hn. eexists. split; [done|]. unfold network_changed. cbv zeta. rewrite Z.mod_small by lia.
  destruct (change_fold (epoch (st w) + 1) groups (set_epoch (epoch (st w) + 1) (st w))) as (He' & Hg). simpl in He', Hg.
  split; [|split; [|split]]; simpl.
  - apply map_eq. intros g. destruct (Hg g) as [-> _]. unfold changed_to. rewrite Ht, map_lookup_filter. destruct (rounds (st w) !! g); simpl; by repeat case_guard || case_decide.
  - apply Forall2_fmap_r. eapply Forall2_impl; [exact Hr|]. intros r ar (Hgr & Hb & Hs). split; [done|]. split; [lia|].
    intros g. simpl. destruct (Hg g) as [_ ->]. unfold changed_to. rewrite elem_of_union, Hs. case_decide.
    + split; [intros _; eexists; split; [done|lia]|by left].
    + naive_solver.
  - lia.
  - intros g c. destruct (Hg g) as [_ ->]. unfold changed_to. case_decide; [intros [= <-]; lia|]. intros Hcg. apply Hc in Hcg. lia.
Qed.

Lemma kept_lookup {A : Type} (names : gmap rstr (GroupSpec O)) (m : gmap rstr A) g x :
  kept names m !! g = Some x <-> m !! g = Some x /\ is_Some (names !! g).
Proof. unfold kept. by rewrite map_lookup_filter_Some. Qed.

Lemma sim_retain n w a groups : sim n w a -> exists a', astep (Retain groups) a = Some a' /\
  sim n (mkWorld (retain groups (st w)) (waking w) (channel w) (spawned w) (running w)) a'.
Proof.
  intros (Ht & Hr & He & Hc). eexists. split; [done|]. split; [|split; [|split]]; simpl; [by rewrite Ht| |done|].
  - apply Forall2_fmap_r. eapply Forall2_impl; [exact Hr|]. intros r ar (Hgr & Hb & Hs). split; [done|]. split; [done|].
    intros g. simpl. rewrite elem_of_filter, Hs. setoid_rewrite kept_lookup. naive_solver.
  - intros g c [Hcg _]%kept_lookup. by apply (Hc g).
Qed.

Lemma request_same group (s : State O) : let s' := (request group s).2 in epoch s' = epoch s /\ rounds s' = rounds s /\ cleared s' = cleared s.
Proof. unfold request. by case_decide. Qed.

Lemma sim_same n w a s' wk ch sp : sim n w a -> epoch s' = epoch (st w) -> rounds s' = rounds (st w) -> cleared s' = cleared (st w) ->
  sim n (mkWorld s' wk ch sp (running w)) a.
Proof.
  intros (Ht & Hr & He & Hc) H1 H2 H3. split; [simpl; congruence|]. split; [|split; simpl; [lia|by rewrite H1, H3]].
  eapply Forall2_impl; [exact Hr|]. intros x y. simpl. apply same_round_keep; [lia|done].
Qed.

Lemma step_sim e w w' a n : step e w = Some w' -> sim n w a -> n + 1 < 2 ^ 64 -> exists a', astep e a = Some a' /\ sim (n + 1) w' a'.
Proof.
  intros Hs Hsim Hn. assert (Hup : forall w a, sim n w a -> sim (n + 1) w a) by (intros ? ? (? & ? & ? & ?); split; [done|]; split; [done|]; split; [lia|done]).
  destruct e; simpl in Hs.
  - destruct (request group (st w)) as [new s'] eqn:Hr. simplify_eq/=. pose proof (request_same group (st w)) as Hq. rewrite Hr in Hq.
    destruct Hq as (He & Hq & Hc). exists a. split; [done|]. apply Hup. by apply sim_same.
  - destruct (waking w !! i); simplify_eq/=. exists a. split; [done|]. apply Hup. by apply sim_same.
  - simplify_eq/=. exists a. split; [done|]. apply Hup. by apply sim_same.
  - destruct (channel w) as [[|g q]|]; simplify_eq/=. exists a. split; [done|]. apply Hup. by apply sim_same.
  - destruct (spawned w !! i); simpl in Hs; [|done]. case_decide; simplify_eq/=. eexists. split; [done|]. apply Hup. by apply sim_begin.
  - simplify_eq/=. eexists. split; [done|]. apply Hup. by apply sim_begin.
  - destruct (running w !! i) as [r|] eqn:Hi; simplify_eq/=. destruct (sim_end n w a i r now Hi Hsim) as (a' & Ha & Hs'). exists a'.
    split; [done|]. apply Hup, Hs'.
  - simplify_eq/=. by apply sim_change.
  - simplify_eq/=. destruct (sim_retain n w a groups Hsim) as (a' & Ha & Hs'). exists a'. split; [done|]. by apply Hup.
Qed.

Lemma steps_sim es w w' a n : steps es w = Some w' -> sim n w a -> n + Z.of_nat (length es) < 2 ^ 64 ->
  exists a', asteps es a = Some a' /\ sim (n + Z.of_nat (length es)) w' a'.
Proof.
  revert w a n. induction es as [|e es IH]; intros w a n Hs Hsim Hn; cbn [length] in *.
  { simplify_eq/=. exists a. split; [done|]. by rewrite Z.add_0_r. }
  simpl in Hs. destruct (step e w) as [w1|] eqn:He; [|done]. simpl in Hs. destruct (step_sim e w w1 a n He Hsim ltac:(lia)) as (a1 & Ha & Hs1).
  destruct (IH w1 a1 (n + 1) Hs Hs1 ltac:(lia)) as (a' & Ha' & Hs'). exists a'. simpl. rewrite Ha. split; [done|].
  replace (n + Z.of_nat (S (length es))) with (n + 1 + Z.of_nat (length es)) by lia. exact Hs'.
Qed.

(** What the groups keep as their last rounds is what it says, in every
    interleaving of dials, rounds, network changes and new generations (fewer
    than 2^64 steps): the epochs tell exactly which rounds under way a
    network change has overtaken.  A round that ends gives its time to each
    group it covers, except those whose tests a change took from it since it
    began (and that every profile since has had); a change takes the last
    round from every group that picks by its tests, and a new generation from
    those it no longer has. *)
Theorem last_rounds_are_current es w : steps es new_world = Some w -> Z.of_nat (length es) < 2 ^ 64 ->
  exists a, asteps es (mkAWorld ∅ []) = Some a
    /\ (forall group, last_round group (st w) = times a !! group)
    /\ map r_groups (running w) = map a_groups (under_way a).
Proof.
  intros Hs Hn. destruct (steps_sim es new_world w (mkAWorld ∅ []) 0 Hs) as (a & Ha & Ht & Hr & _).
  - split; [done|]. split; [constructor|]. split; [simpl; lia|]. intros g c Hc. simpl in Hc. by rewrite lookup_empty in Hc.
  - lia.
  - exists a. split; [done|]. split; [intros group; unfold last_round; by rewrite Ht|].
    clear -Hr. induction Hr as [|r ar l k (Hg & _) _ IH]; [done|]. simpl. by rewrite Hg, IH.
Qed.

End rounds.

(** A round overtaken by a network change, and another after it. *)
Definition sample_group : GroupSpec unit :=
  mkGroupSpec (lit "G") UrlTest [lit "a"] (mkTestOpts 600 100 None false false) None tt (mkSpan [] 1).

Definition sample_events : list (Event unit) :=
  [Wake (lit "G"); Connect; Send 0; Receive; Begin 0 [lit "G"]; Change [sample_group]; End_ 0 5;
   Wake (lit "G"); Receive; Begin 0 [lit "G"]].

Lemma requests_are_answered_witness : exists w, steps sample_events new_world = Some w /\
  forall es' w', forallb scheduled es' = true -> steps es' w = Some w' ->
    (length es' <= 5)%nat /\ (requested (st w') = ∅ \/ exists e, scheduled e = true /\ is_Some (step e w')).
Proof.
  destruct (steps sample_events new_world) as [w|] eqn:Hw; [|vm_compute in Hw; discriminate Hw]. exists w. split; [reflexivity|].
  assert (Hc : (fun w => (channel w, work w)) <$> steps sample_events new_world = Some (Some [], 5%nat)) by (vm_compute; reflexivity).
  rewrite Hw in Hc. injection Hc as Hch Hwork. intros es' w' Hall Hs.
  destruct (requests_are_answered sample_events w Hw (ex_intro _ [] Hch) es' w' Hall Hs) as (Hle & _ & Hor).
  rewrite Hwork in Hle. split; [exact Hle|exact Hor].
Defined.

Lemma last_rounds_are_current_witness : exists w a, steps (sample_events ++ [End_ 0 9]) new_world = Some w
  /\ last_round (lit "G") (st w) = Some 9 /\ asteps (sample_events ++ [End_ 0 9]) (mkAWorld ∅ []) = Some a /\ times a !! lit "G" = Some 9.
Proof.
  destruct (steps (sample_events ++ [End_ 0 9]) new_world) as [w|] eqn:Hw; [|vm_compute in Hw; discriminate Hw].
  destruct (last_rounds_are_current (sample_events ++ [End_ 0 9]) w Hw) as (a & Ha & Hl & _); [reflexivity|].
  assert (Hc : (fun w => last_round (lit "G") (st w)) <$> steps (sample_events ++ [End_ 0 9]) new_world = Some (Some 9)) by (vm_compute; reflexivity).
  rewrite Hw in Hc. injection Hc as Hc. exists w, a. split; [reflexivity|]. split; [exact Hc|]. split; [exact Ha|]. rewrite <- Hl. exact Hc.
Defined.
