(* ===== verification/F64.v ===== *)
(** * Floating-point numbers and durations

    Rust's [f64] as the binary64 of the Standard Library's [SpecFloat] — its
    operations round to nearest, ties to even — and the conversions of
    [std::time::Duration] used with it.  Then what the scores rely on:
    conversions and products of numbers that are not negative are not negative
    and not NaN, and multiplying by a factor from 1 on does not lower a number. *)

From Stdlib Require Import SpecFloat.
From S2P Require Import Prelude.

Definition f64 : Type := spec_float.
Definition prec : Z := 53.
Definition emax : Z := 1024.

Definition f64_add : f64 -> f64 -> f64 := SFadd prec emax.
Definition f64_mul : f64 -> f64 -> f64 := SFmul prec emax.
Definition f64_div : f64 -> f64 -> f64 := SFdiv prec emax.
Definition f64_le : f64 -> f64 -> bool := SFleb.
Definition f64_lt : f64 -> f64 -> bool := SFltb.
Definition f64_neg : f64 -> f64 := SFopp.

(** An integer as a [f64] (nearest even past 53 bits). *)
Definition f64_of (n : Z) : f64 := binary_normalize prec emax n 0 false.

(** [f64::total_cmp]: the order of the bits, with -NaN left out. *)
Definition f64_key (x : f64) : Z :=
  match x with
  | S754_zero false => 0
  | S754_zero true => -1
  | S754_finite false m e => (e + 1074) * 2 ^ 52 + Z.pos m
  | S754_finite true m e => - ((e + 1074) * 2 ^ 52 + Z.pos m) - 1
  | S754_infinity false => 2047 * 2 ^ 52
  | S754_infinity true => - (2047 * 2 ^ 52) - 1
  | S754_nan => 2047 * 2 ^ 52 + 2 ^ 51
  end.

(** ** Durations: nanoseconds *)

Definition SECOND : Z := 1000000000.

(** [Duration::as_secs_f64]. *)
Definition as_secs_f64 (d : Z) : f64 := f64_add (f64_of (d / SECOND)) (f64_div (f64_of (d mod SECOND)) (f64_of SECOND)).

(** To the nearest integer, ties to even, of [n / 2 ^ k]. *)
Definition round_half_even (n k : Z) : Z :=
  let q := n / 2 ^ k in
  let r := n mod 2 ^ k in
  match 2 * r ?= 2 ^ k with
  | Lt => q
  | Gt => q + 1
  | Eq => if Z.even q then q else q + 1
  end.

(** [Duration::from_secs_f64]; [None] is its panic: negative, not a number,
    or 2^64 seconds and more. *)
Definition from_secs_f64 (x : f64) : option Z :=
  let checked ns := if ns / SECOND <? 2 ^ 64 then Some ns else None in
  match x with
  | S754_zero _ => Some 0
  | S754_finite false m e =>
      if 0 <=? e then checked (Z.pos m * SECOND * 2 ^ e) else checked (round_half_even (Z.pos m * SECOND) (- e))
  | _ => None
  end.

(** ** Rounding *)

(** Zero, positive or infinite, as a rounded number is written. *)
Definition positive_ok (x : f64) : Prop :=
  match x with
  | S754_zero s | S754_infinity s => s = false
  | S754_finite s m e => s = false /\ fexp prec emax (Zdigits2 (Z.pos m) + e) = e /\ e <= emax - prec
  | S754_nan => False
  end.

Lemma digits_spec m : 2 ^ (Zdigits2 (Z.pos m) - 1) <= Z.pos m < 2 ^ Zdigits2 (Z.pos m).
Proof.
  simpl. induction m as [m IH|m IH|]; simpl; [| |simpl; lia];
    rewrite Pos2Z.inj_succ, Z.sub_1_r, Z.pred_succ, Z.pow_succ_r by lia;
    (assert (2 ^ Z.pos (digits2_pos m) = 2 * 2 ^ (Z.pos (digits2_pos m) - 1)) by (rewrite <- Z.pow_succ_r by lia; f_equal; lia)); lia.
Qed.

Lemma digits_pos m : 1 <= Zdigits2 (Z.pos m).
Proof. simpl. lia. Qed.

Lemma digits_unique m d : 0 < d -> 2 ^ (d - 1) <= Z.pos m < 2 ^ d -> Zdigits2 (Z.pos m) = d.
Proof.
  intros Hd Hm. pose proof (digits_spec m) as Hs. pose proof (digits_pos m).
  destruct (Z.lt_trichotomy (Zdigits2 (Z.pos m)) d) as [Hlt|[|Hlt]]; [|done|].
  - assert (2 ^ Zdigits2 (Z.pos m) <= 2 ^ (d - 1)) by (apply Z.pow_le_mono_r; lia). lia.
  - assert (2 ^ d <= 2 ^ (Zdigits2 (Z.pos m) - 1)) by (apply Z.pow_le_mono_r; lia). lia.
Qed.

Lemma digits_le m k : 0 <= k -> Z.pos m < 2 ^ k -> Zdigits2 (Z.pos m) <= k.
Proof.
  intros Hk Hm. pose proof (digits_spec m) as [Hs _]. pose proof (digits_pos m). destruct (Z.le_gt_cases (Zdigits2 (Z.pos m)) k) as [|Hlt]; [done|].
  assert (2 ^ k <= 2 ^ (Zdigits2 (Z.pos m) - 1)) by (apply Z.pow_le_mono_r; lia). lia.
Qed.

Lemma digits_ge m k : 0 <= k -> 2 ^ k <= Z.pos m -> k < Zdigits2 (Z.pos m).
Proof.
  intros Hk Hm. pose proof (digits_spec m) as [_ Hs]. pose proof (digits_pos m). destruct (Z.le_gt_cases (Zdigits2 (Z.pos m)) k) as [Hle|]; [|done].
  assert (2 ^ Zdigits2 (Z.pos m) <= 2 ^ k) by (apply Z.pow_le_mono_r; lia). lia.
Qed.

Lemma shr_1_m r : 0 <= shr_m r -> shr_m (shr_1 r) = shr_m r / 2.
Proof.
  destruct r as [m b s]. simpl. intros Hm. rewrite <- Z.div2_div. destruct m as [|[m|m|]|m]; try done.
Qed.

Lemma iter_pos_iter {A : Type} (f : A -> A) (p : positive) (x : A) : SpecFloat.iter_pos f p x = Pos.iter f x p.
Proof.
  revert x. induction p as [p IH|p IH|]; intros x; simpl; [| |done]; rewrite !IH; [|done].
  by rewrite !Pos.iter_swap.
Qed.

Lemma shr_spec r e n : 0 <= shr_m r -> 0 <= n -> shr_m (shr r e n).1 = shr_m r / 2 ^ n /\ (shr r e n).2 = e + n.
Proof.
  intros Hr Hn. destruct n as [|p|p]; [|clear Hn|lia]; simpl; [split; [by rewrite Z.div_1_r|lia]|]. split; [|done].
  rewrite iter_pos_iter. refine (Pos.iter_ind _ _ _ (fun p r' => shr_m r' = shr_m r / 2 ^ Z.pos p) _ _ p).
  - by apply shr_1_m.
  - intros p' r' IH. rewrite shr_1_m, IH by (rewrite IH; apply Z.div_pos; lia).
    by rewrite Pos2Z.inj_succ, Z.pow_succ_r, Z.mul_comm, Z.div_div by lia.
Qed.

Lemma shr_nonpos r e n : n <= 0 -> shr r e n = (r, e).
Proof. by destruct n. Qed.

Lemma round_nearest_even_near q l : q <= round_nearest_even q l <= q + 1.
Proof. destruct l as [|[| |]]; simpl; [lia| |lia|lia]. destruct (Z.even q); lia. Qed.

Lemma shr_record_of_loc_m m l : shr_m (shr_record_of_loc m l) = m.
Proof. by destruct l as [|[| |]]. Qed.

Abbreviation fexp64 := (fexp prec emax).

Lemma fexp64_def e : fexp64 e = Z.max (e - 53) (-1074).
Proof. reflexivity. Qed.

(** The first rounding: the mantissa cut to its place, up to one. *)
Lemma first_shift m e l : fexp64 (Zdigits2 (Z.pos m) + e) >= e ->
  let n := fexp64 (Zdigits2 (Z.pos m) + e) - e in
  let '(r, e') := shr_fexp prec emax (Z.pos m) e l in
  e' = e + n /\ shr_m r = Z.pos m / 2 ^ n.
Proof.
  intros Hn n. unfold shr_fexp. pose proof (shr_spec (shr_record_of_loc (Z.pos m) l) e n) as Hs. rewrite shr_record_of_loc_m in Hs.
  fold n. destruct (shr _ e n) as [r e']. simpl in Hs. destruct Hs; [lia|lia|done].
Qed.

(** What is left has at most 53 bits, or is 2^53. *)
Lemma first_shift_bits m e : fexp64 (Zdigits2 (Z.pos m) + e) >= e ->
  let t := fexp64 (Zdigits2 (Z.pos m) + e) in
  Z.pos m / 2 ^ (t - e) < 2 ^ 53 /\ (-1074 < t -> 2 ^ 52 <= Z.pos m / 2 ^ (t - e)) /\ -1074 <= t.
Proof.
  intros Hn t. pose proof (digits_spec m) as [Hlo Hhi]. set (d := Zdigits2 (Z.pos m)) in *. pose proof (digits_pos m) as Hd. fold d in Hd.
  assert (Ht : t = Z.max (d + e - 53) (-1074)) by reflexivity. assert (0 < 2 ^ (t - e)) by (apply Z.pow_pos_nonneg; lia).
  split; [|split; [|lia]].
  - apply Z.div_lt_upper_bound; [done|]. rewrite <- Z.pow_add_r by lia. eapply Z.lt_le_trans; [exact Hhi|]. apply Z.pow_le_mono_r; lia.
  - intros Hgt. apply Z.div_le_lower_bound; [done|]. rewrite <- Z.pow_add_r by lia. etrans; [|exact Hlo]. apply Z.pow_le_mono_r; lia.
Qed.

(** The second: nothing to do below 2^53 bits. *)
Lemma second_shift_none q t : Z.pos q < 2 ^ 53 -> (-1074 < t -> 2 ^ 52 <= Z.pos q) -> -1074 <= t ->
  fexp64 (Zdigits2 (Z.pos q) + t) = t.
Proof.
  intros Hhi Hlo Ht. pose proof (digits_le q 53 ltac:(lia) Hhi). pose proof (digits_pos q). rewrite fexp64_def.
  destruct (Z.eq_dec t (-1074)) as [->|]; [lia|]. pose proof (digits_ge q 52 ltac:(lia) (Hlo ltac:(lia))). lia.
Qed.

(** The rounded number: the exponent is the place or one more, and the
    mantissa is not below what was cut. *)
Definition rounded (m : positive) (e : Z) (x : f64) : Prop :=
  let t := fexp64 (Zdigits2 (Z.pos m) + e) in
  match x with
  | S754_zero s => s = false /\ Z.pos m / 2 ^ (t - e) = 0
  | S754_finite s m' e' => s = false /\ (fexp64 (Zdigits2 (Z.pos m') + e') = e' /\ e' <= emax - prec)
      /\ ((e' = t /\ Z.pos m / 2 ^ (t - e) <= Z.pos m') \/ e' = t + 1)
  | S754_infinity s => s = false
  | S754_nan => False
  end.

Lemma shr_none q t : fexp64 (Zdigits2 q + t) = t -> shr_fexp prec emax q t loc_Exact = ({| shr_m := q; shr_r := false; shr_s := false |}, t).
Proof. intros Hf. unfold shr_fexp. rewrite Hf, Z.sub_diag. reflexivity. Qed.

Lemma round_spec m e l : fexp64 (Zdigits2 (Z.pos m) + e) >= e -> rounded m e (binary_round_aux prec emax false (Z.pos m) e l).
Proof.
  intros Hn. pose proof (first_shift m e l Hn) as Hfirst. destruct (first_shift_bits m e Hn) as (Hhi & Hlo & Ht).
  unfold binary_round_aux. destruct (shr_fexp prec emax (Z.pos m) e l) as [r e'] eqn:Hr. destruct Hfirst as [He' Hm].
  set (t := fexp64 (Zdigits2 (Z.pos m) + e)) in *. replace e' with t in * by lia. clear He' Hr.
  pose proof (round_nearest_even_near (shr_m r) (loc_of_shr_record r)) as Hq. set (q := round_nearest_even _ _) in *. rewrite Hm in Hq.
  assert (Hm0 : 0 <= Z.pos m / 2 ^ (t - e)) by (apply Z.div_pos; [lia|apply Z.pow_pos_nonneg; lia]).
  unfold rounded. fold t. destruct (Z.eq_dec q (2 ^ 53)) as [Hbig|Hsmall].
  - clearbody q. subst q. unfold shr_fexp. cbn [shr_record_of_loc].
    assert (Hf : fexp64 (Zdigits2 (2 ^ 53) + t) = t + 1) by (rewrite fexp64_def; change (Zdigits2 (2 ^ 53)) with 54; lia).
    rewrite Hf. replace (t + 1 - t) with 1 by lia.
    change (shr {| shr_m := 2 ^ 53; shr_r := false; shr_s := false |} t 1) with ({| shr_m := Z.pos 4503599627370496; shr_r := false; shr_s := false |}, t + 1).
    cbv beta iota. cbn [shr_m]. destruct (Z.leb_spec (t + 1) (emax - prec)); [|done]. split; [done|]. split; [|by right].
    change (Zdigits2 (Z.pos 4503599627370496)) with 53. rewrite fexp64_def. lia.
  - clearbody q. destruct q as [|q|q]; [| |lia].
    + unfold shr_fexp. rewrite shr_nonpos by (rewrite fexp64_def; change (Zdigits2 0) with 0; lia). cbn [shr_record_of_loc shr_m].
      split; [done|lia].
    + rewrite shr_none by (apply second_shift_none; [lia| |lia]; intros; specialize (Hlo ltac:(lia)); lia). cbn [shr_m].
      destruct (Z.leb_spec t (emax - prec)); [|done]. split; [done|]. split; [|left; lia]. split; [|done].
      apply second_shift_none; [lia| |lia]. intros. specialize (Hlo ltac:(lia)). lia.
Qed.

Lemma rounded_ok m e x : rounded m e x -> positive_ok x.
Proof. destruct x; simpl; tauto. Qed.

(** ** The operations *)

(** A factor: positive, finite and as a rounded number is written. *)
Definition factor_ok (x : f64) : Prop :=
  match x with S754_finite false m e => fexp64 (Zdigits2 (Z.pos m) + e) = e | _ => False end.

Lemma digits_mul a b : Zdigits2 (Z.pos a) + Zdigits2 (Z.pos b) - 1 <= Zdigits2 (Z.pos (a * b)).
Proof.
  pose proof (digits_spec a) as [Ha _]. pose proof (digits_spec b) as [Hb _]. pose proof (digits_pos a). pose proof (digits_pos b).
  assert (Hab : 2 ^ (Zdigits2 (Z.pos a) - 1 + (Zdigits2 (Z.pos b) - 1)) <= Z.pos (a * b)).
  { rewrite Z.pow_add_r, Pos2Z.inj_mul by lia. apply Z.mul_le_mono_nonneg; [|done| |done]; apply Z.pow_nonneg; lia. }
  pose proof (digits_ge (a * b) (Zdigits2 (Z.pos a) - 1 + (Zdigits2 (Z.pos b) - 1)) ltac:(lia) Hab). lia.
Qed.

(** A number as it is written fills its 53 bits, or has the least exponent. *)
Lemma canonical_cases m e : fexp64 (Zdigits2 (Z.pos m) + e) = e -> Zdigits2 (Z.pos m) = 53 \/ e = -1074.
Proof. rewrite fexp64_def. lia. Qed.

Lemma mul_place a ea b eb : fexp64 (Zdigits2 (Z.pos a) + ea) = ea -> fexp64 (Zdigits2 (Z.pos b) + eb) = eb ->
  fexp64 (Zdigits2 (Z.pos (a * b)) + (ea + eb)) >= ea + eb.
Proof.
  intros Ha Hb. pose proof (digits_mul a b). pose proof (digits_pos a). pose proof (digits_pos b).
  apply canonical_cases in Ha as [|]; apply canonical_cases in Hb as [|]; rewrite fexp64_def; lia.
Qed.

Lemma mul_ok x f : positive_ok x -> factor_ok f -> positive_ok (f64_mul x f).
Proof.
  intros Hx Hf. destruct f as [| | |[] mf ef]; try done. simpl in Hf. destruct x as [s|s| |s m e]; simpl in Hx; [by subst..|done|].
  destruct Hx as (-> & Hx & _). unfold f64_mul. simpl. eapply rounded_ok, round_spec, mul_place; done.
Qed.

(** Multiplying by a factor from 1 up to 2 does not lower a number. *)
Lemma mul_grows x c : positive_ok x -> 2 ^ 52 <= Z.pos c < 2 ^ 53 -> f64_le x (f64_mul x (S754_finite false c (-52))) = true.
Proof.
  intros Hx Hc. assert (Hdc : Zdigits2 (Z.pos c) = 53) by (apply digits_unique; [lia|exact Hc]).
  assert (Hf : fexp64 (Zdigits2 (Z.pos c) + -52) = -52) by (rewrite fexp64_def; lia).
  destruct x as [s|s| |s m e]; cbn [positive_ok] in Hx; [by subst..|done|]. destruct Hx as (-> & Hx & _). unfold f64_mul, f64_le. cbn [SFmul xorb].
  pose proof (round_spec (m * c) (e + -52) loc_Exact (mul_place _ _ _ _ Hx Hf)) as Hr. set (y := binary_round_aux _ _ _ _ _ _) in *. clearbody y.
  unfold rounded in Hr. set (t := fexp64 (Zdigits2 (Z.pos (m * c)) + (e + -52))) in *.
  assert (Hm : forall n, 52 <= n -> n <= 52 -> Z.pos m <= Z.pos (m * c) / 2 ^ n).
  { intros n H1 H2. replace n with 52 by lia. apply Z.div_le_lower_bound; [done|]. rewrite Pos2Z.inj_mul, Z.mul_comm. apply Z.mul_le_mono_nonneg_l; lia. }
  assert (Ht : e <= t).
  { subst t. pose proof (digits_mul m c) as Hd. rewrite Hdc in Hd. rewrite fexp64_def in Hx. rewrite fexp64_def. lia. }
  destruct y as [s|s| |s m' e']; [| | done|].
  - destruct Hr as [_ Hz]. destruct (Z.eq_dec t e) as [Heq|].
    + specialize (Hm (t - (e + -52)) ltac:(lia) ltac:(lia)). lia.
    + assert (Hlo : 0 < Z.pos (m * c) / 2 ^ (t - (e + -52))).
      { destruct (first_shift_bits (m * c) (e + -52) (mul_place _ _ _ _ Hx Hf)) as (_ & Hlo & Hmin). fold t in Hlo, Hmin.
        assert (-1074 <= e) by (rewrite fexp64_def in Hx; lia). specialize (Hlo ltac:(lia)). lia. }
      lia.
  - by subst.
  - destruct Hr as (-> & _ & Hcase). unfold SFleb, SFcompare. destruct Hcase as [[-> Hle]| ->].
    + destruct (Z.compare_spec e t); [|done|lia]. specialize (Hm (t - (e + -52)) ltac:(lia) ltac:(lia)).
      change (Pos.compare_cont Eq m m') with (Pos.compare m m'). destruct (Pos.compare_spec m m'); [done|done|lia].
    + destruct (Z.compare_spec e (t + 1)); [lia|done|lia].
Qed.

Lemma iter_xO m p : Z.pos (Pos.iter xO m p) = Z.pos m * 2 ^ Z.pos p.
Proof.
  refine (Pos.iter_ind _ _ _ (fun p m' => Z.pos m' = Z.pos m * 2 ^ Z.pos p) _ _ p); [lia|].
  intros p' m' IH. rewrite Pos2Z.inj_succ, Z.pow_succ_r by lia. lia.
Qed.

Lemma digits_shift m k : 0 <= k -> forall m', Z.pos m' = Z.pos m * 2 ^ k -> Zdigits2 (Z.pos m') = Zdigits2 (Z.pos m) + k.
Proof.
  intros Hk m' Hm'. pose proof (digits_spec m) as [Hlo Hhi]. pose proof (digits_pos m). apply digits_unique; [lia|]. rewrite Hm'.
  replace (Zdigits2 (Z.pos m) + k - 1) with (Zdigits2 (Z.pos m) - 1 + k) by lia. rewrite !Z.pow_add_r by lia.
  assert (0 < 2 ^ k) by (apply Z.pow_pos_nonneg; lia). split; [by apply Z.mul_le_mono_pos_r|by apply Z.mul_lt_mono_pos_r].
Qed.

Lemma align_place m e : let '(m', e') := shl_align m e (fexp64 (Zdigits2 (Z.pos m) + e)) in
  e' = Z.min e (fexp64 (Zdigits2 (Z.pos m) + e)) /\ fexp64 (Zdigits2 (Z.pos m') + e') = fexp64 (Zdigits2 (Z.pos m) + e).
Proof.
  unfold shl_align. set (t := fexp64 _). destruct (t - e) as [|p|p] eqn:Hd; [split; [lia|done]..|].
  pose proof (digits_shift m (Z.pos p) ltac:(lia) _ (iter_xO m p)) as Hdig. split; [lia|]. rewrite Hdig. unfold t. f_equal. lia.
Qed.

Lemma binary_round_ok m e : positive_ok (binary_round prec emax false m e).
Proof.
  unfold binary_round. pose proof (align_place m e) as Ha. change (Z.pos (digits2_pos m)) with (Zdigits2 (Z.pos m)).
  destruct (shl_align m e _) as [m' e']. destruct Ha as [He Hf]. eapply rounded_ok, round_spec. rewrite Hf. lia.
Qed.

Lemma f64_of_ok n : 0 <= n -> positive_ok (f64_of n).
Proof. intros Hn. unfold f64_of. destruct n; [done|apply binary_round_ok|lia]. Qed.

Lemma f64_add_ok x y : positive_ok x -> positive_ok y -> positive_ok (f64_add x y).
Proof.
  intros Hx Hy. unfold f64_add. destruct x as [s|s| |s m e], y as [s'|s'| |s' m' e']; simpl in Hx, Hy |- *; subst; try done.
  destruct Hx as [-> _], Hy as [-> _]. simpl. apply binary_round_ok.
Qed.

(** A mantissa in its place stays as it is. *)
Lemma round_exact m e : fexp64 (Zdigits2 (Z.pos m) + e) = e -> e <= emax - prec ->
  binary_round_aux prec emax false (Z.pos m) e loc_Exact = S754_finite false m e.
Proof.
  intros Hf He. unfold binary_round_aux. rewrite (shr_none _ _ Hf). cbn [shr_m loc_of_shr_record round_nearest_even]. rewrite (shr_none _ _ Hf).
  cbn [shr_m]. by rewrite (proj2 (Z.leb_le _ _) He).
Qed.

(** A number of nanoseconds below a second is exact. *)
Lemma small_place n : 0 < n < SECOND -> exists m e, f64_of n = S754_finite false m e /\ Zdigits2 (Z.pos m) = 53 /\ -60 <= e <= -23.
Proof.
  intros Hn. destruct n as [|p|p]; [lia| |lia]. unfold f64_of. simpl. unfold binary_round.
  pose proof (align_place p 0) as Ha. change (Z.pos (digits2_pos p)) with (Zdigits2 (Z.pos p)). pose proof (digits_pos p).
  pose proof (digits_le p 30 ltac:(lia) ltac:(unfold SECOND in Hn; lia)). destruct (shl_align p 0 _) as [m' e'].
  destruct Ha as [He Hf]. assert (Hz : fexp64 (Zdigits2 (Z.pos p) + 0) = Zdigits2 (Z.pos p) - 53) by (rewrite fexp64_def; lia).
  rewrite Hz in He, Hf. exists m', e'. assert (Hd : Zdigits2 (Z.pos m') = 53) by (rewrite fexp64_def in Hf; lia).
  split; [|split; [done|lia]]. apply round_exact; [|unfold emax, prec; lia]. rewrite fexp64_def. lia.
Qed.

Lemma nanos_ok n : 0 <= n < SECOND -> positive_ok (f64_div (f64_of n) (f64_of SECOND)).
Proof.
  intros Hn. change (f64_of SECOND) with (S754_finite false 8388608000000000 (-23)). destruct (Z.eq_dec n 0) as [->|Hn0]; [done|].
  destruct (small_place n ltac:(lia)) as (m & e & -> & Hd & He). unfold f64_div. cbn [SFdiv xorb]. unfold SFdiv_core_binary.
  rewrite Hd. change (Zdigits2 8388608000000000) with 53.
  assert (Hmin : Z.min (fexp64 (53 + e - (53 + -23))) (e - -23) = e - 30) by (rewrite fexp64_def; lia). rewrite Hmin.
  replace (e - -23 - (e - 30)) with 53 by lia. cbv iota. rewrite Z.shiftl_mul_pow2 by lia. pose proof (digits_spec m) as [Hlo _]. rewrite Hd in Hlo.
  assert (Hq : 2 ^ 52 <= Z.pos m * 2 ^ 53 / 8388608000000000) by (apply Z.div_le_lower_bound; lia).
  unfold Z.div in Hq. destruct (Z.div_eucl (Z.pos m * 2 ^ 53) 8388608000000000) as [q r]. destruct q as [|q|q]; [lia| |lia].
  eapply rounded_ok, round_spec. pose proof (digits_ge q 52 ltac:(lia) Hq). rewrite fexp64_def. lia.
Qed.

(** A duration in seconds is a number that is not negative. *)
Lemma as_secs_ok d : 0 <= d -> positive_ok (as_secs_f64 d).
Proof.
  intros Hd. apply f64_add_ok; [apply f64_of_ok, Z.div_pos; [done|unfold SECOND; lia]|apply nanos_ok, Z.mod_pos_bound]. unfold SECOND. lia.
Qed.

(** ** The order *)

(** Between numbers that are not negative the order is that of their bits,
    which are those of one number. *)
Lemma key_finite m e : fexp64 (Zdigits2 (Z.pos m) + e) = e -> 0 < Z.pos m < 2 ^ 53 /\ (e = -1074 \/ (-1074 < e /\ 2 ^ 52 <= Z.pos m)).
Proof.
  intros Hf. pose proof (digits_spec m) as [Hlo Hhi]. rewrite fexp64_def in Hf. split.
  - split; [lia|]. eapply Z.lt_le_trans; [exact Hhi|]. apply Z.pow_le_mono_r; lia.
  - destruct (Z.eq_dec e (-1074)); [by left|right]. split; [lia|]. etrans; [|exact Hlo]. apply Z.pow_le_mono_r; lia.
Qed.

Lemma f64_le_key x y : positive_ok x -> positive_ok y -> f64_le x y = (f64_key x <=? f64_key y).
Proof.
  intros Hx Hy. destruct x as [s|s| |s m e], y as [s'|s'| |s' m' e']; cbn [positive_ok] in Hx, Hy; try done; subst; try reflexivity;
    unfold f64_le, SFleb, SFcompare, f64_key; repeat match goal with H : _ = false /\ fexp64 _ = _ /\ _ |- _ =>
      let Hf := fresh in destruct H as (-> & Hf & ?); apply key_finite in Hf end; unfold emax, prec in *; symmetry; try (apply Z.leb_le; lia); try (apply Z.leb_gt; lia).
  destruct (Z.compare_spec e e') as [<-|Hlt|Hlt]; [|apply Z.leb_le; lia|apply Z.leb_gt; lia].
  change (Pos.compare_cont Eq m m') with (Pos.compare m m'). destruct (Pos.compare_spec m m') as [<-|Hlt|Hlt]; [apply Z.leb_le; lia| apply Z.leb_le; lia|apply Z.leb_gt; lia].
Qed.

Lemma f64_key_inj x y : positive_ok x -> positive_ok y -> f64_key x = f64_key y -> x = y.
Proof.
  intros Hx Hy. destruct x as [s|s| |s m e], y as [s'|s'| |s' m' e']; cbn [positive_ok] in Hx, Hy; try done; subst; try reflexivity;
    unfold f64_key; repeat match goal with H : _ = false /\ fexp64 _ = _ /\ _ |- _ =>
      let Hf := fresh in destruct H as (-> & Hf & ?); apply key_finite in Hf end; unfold emax, prec in *; intros Heq; try lia.
  assert (e = e') as -> by lia. assert (Z.pos m = Z.pos m') as [= ->] by lia. done.
Qed.
