(* ===== verification/F64Bounds.v ===== *)
(** * How large a floating-point number gets

    Of [F64.v]: rounding does not lift a number over a bound that a double holds,
    so that sums, products and quotients stay below the bounds of the exact ones.
    A bound is a whole number; values are compared in units so small that every
    double, and every exact product and quotient of two, is a whole number of
    them. *)

From Stdlib Require Import SpecFloat.
From S2P Require Import Prelude F64.

(** The units: [2 ^ PLACE] of them are one. *)
Definition PLACE : Z := 3000.
Definition at_value (m e : Z) : Z := m * 2 ^ (e + PLACE).

(** A whole number that a double holds, far from the largest. *)
Definition fits (b : Z) : Prop := exists m e, 0 <= m <= 2 ^ 53 /\ 0 <= e <= 900 /\ b = m * 2 ^ e.

(** A number from zero up to [b]. *)
Definition at_most (x : f64) (b : Z) : Prop :=
  match x with
  | S754_zero s => s = false /\ 0 <= b
  | S754_finite s m e => s = false /\ (fexp prec emax (Zdigits2 (Z.pos m) + e) = e /\ e <= emax - prec) /\ at_value (Z.pos m) e <= at_value b 0
  | _ => False
  end.

(** A finite number from [b] on. *)
Definition at_least (x : f64) (b : Z) : Prop :=
  match x with
  | S754_finite s m e => s = false /\ (fexp prec emax (Zdigits2 (Z.pos m) + e) = e /\ e <= emax - prec) /\ at_value b 0 <= at_value (Z.pos m) e
  | _ => False
  end.

#[local] Abbreviation fexp64 := (fexp prec emax).

Lemma at_most_ok x b : at_most x b -> positive_ok x.
Proof. destruct x; simpl; tauto. Qed.

Lemma pow_pos n : 0 <= n -> 0 < 2 ^ n.
Proof. intros. by apply Z.pow_pos_nonneg. Qed.

Lemma value_le b b' e : 0 <= e + PLACE -> b <= b' -> at_value b e <= at_value b' e.
Proof. intros He Hb. unfold at_value. apply Z.mul_le_mono_nonneg_r; [|done]. pose proof (pow_pos _ He). lia. Qed.

Lemma at_most_more x b b' : at_most x b -> b <= b' -> at_most x b'.
Proof. destruct x as [s|s| |s m e]; simpl; try tauto; [intros [-> Hs] Hb; split; [done|lia]|]. intros (H1 & H2 & H3) Hb. split; [done|]. split; [done|]. etrans; [exact H3|]. apply value_le; [unfold PLACE; lia|done]. Qed.

Lemma at_most_zero b : 0 <= b -> at_most (S754_zero false) b.
Proof. done. Qed.

(** The least place of a double is far above the units. *)
Lemma place_low m e : fexp64 (Zdigits2 (Z.pos m) + e) = e -> -1074 <= e.
Proof. rewrite fexp64_def. intros. lia. Qed.

Lemma value_shift m e k : 0 <= k -> 0 <= e + PLACE -> at_value m (e + k) = at_value (m * 2 ^ k) e.
Proof. intros Hk He. unfold at_value. replace (e + k + PLACE) with (k + (e + PLACE)) by lia. rewrite Z.pow_add_r by lia. lia. Qed.

Lemma value_down c t : t <= 0 -> 0 <= t + PLACE -> at_value c 0 = at_value (c * 2 ^ (- t)) t.
Proof. intros. rewrite <- value_shift by lia. f_equal. lia. Qed.

Lemma value_up q t : 0 <= t -> at_value q t = at_value (q * 2 ^ t) 0.
Proof. intros. rewrite <- value_shift by (unfold PLACE; lia). f_equal. Qed.

(** ** Shifting what is divisible loses nothing *)

Lemma shr_exact x e n : 0 <= x -> 0 <= n -> x mod 2 ^ n = 0 ->
  (shr {| shr_m := x; shr_r := false; shr_s := false |} e n).1 = {| shr_m := x / 2 ^ n; shr_r := false; shr_s := false |}.
Proof.
  intros Hx Hn. destruct n as [|p|p]; [|clear Hn|lia]; simpl; [by rewrite Z.div_1_r|]. rewrite iter_pos_iter.
  refine (Pos.iter_ind _ _ _ (fun p r' => x mod 2 ^ Z.pos p = 0 -> r' = {| shr_m := x / 2 ^ Z.pos p; shr_r := false; shr_s := false |}) _ _ p).
  - intros Hm. change (2 ^ 1) with 2 in *. assert (Heven : x = 2 * (x / 2)) by (pose proof (Z.div_mod x 2 ltac:(lia)); lia). destruct x as [|[x|x|]|x]; try done; [lia|]. simpl. f_equal. rewrite (Pos2Z.inj_xO x), Z.mul_comm, Z.div_mul by lia. done.
  - intros p' r' IH Hm. rewrite Pos2Z.inj_succ, Z.pow_succ_r in * by lia. set (k := 2 ^ Z.pos p') in *. assert (Hk : 0 < k) by (apply pow_pos; lia).
    assert (H0 : x mod k = 0). { apply Z.mod_divide in Hm; [|lia]. destruct Hm as (z & ->). replace (z * (2 * k)) with (z * 2 * k) by lia. apply Z.mod_mul. lia. }
    rewrite (IH H0). rewrite (Z.mul_comm 2 k), <- Z.div_div by lia. assert (Heven : x / k = 2 * (x / k / 2)).
    { rewrite Z.div_div by lia. apply Z.mod_divide in Hm; [|lia]. destruct Hm as (z & ->). replace (z * (2 * k)) with (z * 2 * k) by lia. rewrite Z.div_mul by lia. replace (z * 2 * k) with (z * (k * 2)) by lia. rewrite Z.div_mul by lia. lia. }
    assert (0 <= x / k) by (by apply Z.div_pos). clear IH Hm H0. destruct (x / k) as [|[y|y|]|y]; [done|lia| |done|lia].
    simpl. f_equal. rewrite (Pos2Z.inj_xO y), Z.mul_comm, Z.div_mul by lia. done.
Qed.

#[local] Instance location_eq_dec : EqDecision location.
Proof. solve_decision. Defined.

(** ** Rounding *)

(** The whole number that what was cut is not above. *)
Definition ceiling (q : Z) (l : location) : Z := match l with loc_Exact => q | _ => q + 1 end.

Lemma ceiling_ge q l : q <= ceiling q l.
Proof. destruct l; simpl; lia. Qed.

(** A bound is on the grid that a number below it is rounded to. *)
Lemma on_grid b t : fits b -> -1074 <= t -> (-1074 < t -> at_value (2 ^ 52) t <= at_value b 0) -> exists z, at_value b 0 = at_value z t.
Proof.
  intros (m & e & Hm & He & ->) Ht Hv. assert (Hb : at_value (m * 2 ^ e) 0 = at_value m e) by (by rewrite <- (value_shift m 0 e) by (unfold PLACE; lia)). rewrite Hb in *.
  assert (Hle : t <= e -> exists z, at_value m e = at_value z t) by (intros Hte; exists (m * 2 ^ (e - t)); rewrite <- value_shift by (unfold PLACE; lia); f_equal; lia).
  destruct (Z.le_gt_cases t e) as [|Hgt]; [by apply Hle|]. specialize (Hv ltac:(lia)). exists (2 ^ 52). apply Z.le_antisymm; [|done].
  unfold at_value. transitivity (2 ^ 53 * 2 ^ (e + PLACE)); [apply Z.mul_le_mono_nonneg_r; [apply Z.pow_nonneg; lia|lia]|]. rewrite <- !Z.pow_add_r by (unfold PLACE; lia). apply Z.pow_le_mono_r; unfold PLACE; lia.
Qed.

(** Where a mantissa of 53 bits at most, or one more, comes to stand. *)
Definition landed (q t : Z) : f64 :=
  match q with
  | Z.pos m =>
      if q =? 2 ^ 53 then if t + 1 <=? emax - prec then S754_finite false 4503599627370496 (t + 1) else S754_infinity false
      else if t <=? emax - prec then S754_finite false m t else S754_infinity false
  | _ => S754_zero false
  end.

(** The rounded number: what was cut, or one more unless nothing was cut off. *)
Record lands (q e : Z) (l : location) (x : f64) : Prop := {
  lands_low : -1074 <= fexp64 (Zdigits2 q + e);
  lands_at : exists q', x = landed q' (fexp64 (Zdigits2 q + e)) /\ 0 <= q' <= 2 ^ 53 /\ (-1074 < fexp64 (Zdigits2 q + e) -> 2 ^ 52 <= q')
    /\ q / 2 ^ (fexp64 (Zdigits2 q + e) - e) <= q' <= q / 2 ^ (fexp64 (Zdigits2 q + e) - e) + 1
    /\ (l = loc_Exact -> q mod 2 ^ (fexp64 (Zdigits2 q + e) - e) = 0 -> q' = q / 2 ^ (fexp64 (Zdigits2 q + e) - e));
}.

Lemma cut_bits q e (t := fexp64 (Zdigits2 q + e)) : 0 <= q -> t >= e -> 0 <= q / 2 ^ (t - e) < 2 ^ 53 /\ (-1074 < t -> 2 ^ 52 <= q / 2 ^ (t - e)) /\ -1074 <= t.
Proof.
  intros Hq Ht. split; [split; [apply Z.div_pos; [done|apply pow_pos; lia]|]|].
  all: destruct q as [|m|m]; [|destruct (first_shift_bits m e Ht) as (H1 & H2 & H3); done|lia].
  - by rewrite Z.div_0_l by (apply Z.pow_nonzero; lia).
  - subst t. rewrite fexp64_def in *. change (Zdigits2 0) with 0 in *. split; lia.
Qed.

Lemma cut_first q e l (t := fexp64 (Zdigits2 q + e)) : 0 <= q -> t >= e -> exists r, shr_fexp prec emax q e l = (r, t) /\ shr_m r = q / 2 ^ (t - e)
  /\ (l = loc_Exact -> q mod 2 ^ (t - e) = 0 -> loc_of_shr_record r = loc_Exact).
Proof.
  intros Hq Ht. unfold shr_fexp. fold t. pose proof (shr_spec (shr_record_of_loc q l) e (t - e)) as Hs. rewrite shr_record_of_loc_m in Hs. destruct Hs as [Hm He]; [done|lia|].
  pose proof (shr_exact q e (t - e) Hq ltac:(lia)) as Hx. destruct (shr (shr_record_of_loc q l) e (t - e)) as [r e'] eqn:Hr. simpl in Hm, He. exists r. split; [f_equal; lia|]. split; [done|].
  intros -> Hmod. specialize (Hx Hmod). cbn [shr_record_of_loc] in Hr. rewrite Hr in Hx. simpl in Hx. by subst r.
Qed.

(** A mantissa that fits stays in its place. *)
Lemma lands_second q t : 0 <= q <= 2 ^ 53 -> (-1074 < t -> 2 ^ 52 <= q) -> -1074 <= t ->
  (let '(r, e) := shr_fexp prec emax q t loc_Exact in
   match shr_m r with Z0 => S754_zero false | Z.pos m => if Z.leb e (emax - prec) then S754_finite false m e else S754_infinity false | _ => S754_nan end) = landed q t.
Proof.
  intros Hq Hlo Ht. destruct (Z.eq_dec q (2 ^ 53)) as [->|Hne].
  - unfold shr_fexp. cbn [shr_record_of_loc]. assert (Hf : fexp64 (Zdigits2 (2 ^ 53) + t) = t + 1) by (rewrite fexp64_def; change (Zdigits2 (2 ^ 53)) with 54; lia). rewrite Hf. replace (t + 1 - t) with 1 by lia.
    change (shr {| shr_m := 2 ^ 53; shr_r := false; shr_s := false |} t 1) with ({| shr_m := Z.pos 4503599627370496; shr_r := false; shr_s := false |}, t + 1). reflexivity.
  - destruct q as [|m|m]; [| |lia].
    + unfold shr_fexp. rewrite shr_nonpos by (rewrite fexp64_def; change (Zdigits2 0) with 0; lia). done.
    + rewrite shr_none by (apply second_shift_none; [lia| |lia]; intros; specialize (Hlo ltac:(lia)); lia). cbn [shr_m landed]. by rewrite (proj2 (Z.eqb_neq _ _)) by done.
Qed.

Lemma round_lands q e l : 0 <= q -> fexp64 (Zdigits2 q + e) >= e -> lands q e l (binary_round_aux prec emax false q e l).
Proof.
  intros Hq Ht. destruct (cut_bits q e Hq Ht) as (Hbits & Hlo & Hmin). destruct (cut_first q e l Hq Ht) as (r & Hr & Hm & Hx). split; [done|]. set (t := fexp64 (Zdigits2 q + e)) in *.
  pose proof (round_nearest_even_near (shr_m r) (loc_of_shr_record r)) as Hn. rewrite Hm in Hn. exists (round_nearest_even (shr_m r) (loc_of_shr_record r)).
  assert (Hb : 0 <= round_nearest_even (shr_m r) (loc_of_shr_record r) <= 2 ^ 53) by (rewrite Hm; lia). assert (Hl : -1074 < t -> 2 ^ 52 <= round_nearest_even (shr_m r) (loc_of_shr_record r)) by (intros; rewrite Hm; specialize (Hlo ltac:(lia)); lia).
  split; [|split; [done|split; [done|split; [by rewrite Hm|]]]].
  - unfold binary_round_aux. rewrite Hr. apply (lands_second _ t Hb Hl Hmin).
  - intros Hl0 Hmod. by rewrite (Hx Hl0 Hmod), Hm.
Qed.

Lemma landed_ok q t : 0 <= q <= 2 ^ 53 -> (-1074 < t -> 2 ^ 52 <= q) -> -1074 <= t -> positive_ok (landed q t).
Proof.
  intros Hq Hlo Ht. destruct q as [|m|m]; [done| |done]. cbn [landed]. destruct (Z.eqb_spec (Z.pos m) (2 ^ 53)).
  - destruct (Z.leb_spec (t + 1) (emax - prec)); [|done]. simpl. split; [done|]. split; [|done]. change (Z.pos (digits2_pos 4503599627370496)) with 53. rewrite fexp64_def. lia.
  - destruct (Z.leb_spec t (emax - prec)); [|done]. split; [done|]. split; [|done]. apply second_shift_none; lia.
Qed.

Lemma round_ok q e l : 0 <= q -> fexp64 (Zdigits2 q + e) >= e -> positive_ok (binary_round_aux prec emax false q e l).
Proof. intros Hq Ht. destruct (round_lands q e l Hq Ht) as [Hmin (q' & -> & Hb & Hlo & _)]. by apply landed_ok. Qed.

(** What lands below a bound is below it. *)
Lemma landed_le q t b : 0 <= q <= 2 ^ 53 -> (-1074 < t -> 2 ^ 52 <= q) -> -1074 <= t -> fits b -> at_value q t <= at_value b 0 -> at_most (landed q t) b.
Proof.
  intros Hq Hlo Ht Hb Hv. pose proof Hb as (m & e & Hm & He & Hbe).
  assert (Hsmall : t <= 902). {
    destruct (Z.le_gt_cases t 902) as [|Hgt]; [done|]. exfalso. specialize (Hlo ltac:(lia)). assert (at_value (2 ^ 52) t <= at_value b 0) as Hc by (etrans; [|exact Hv]; apply value_le; [unfold PLACE; lia|done]).
    assert (at_value b 0 <= 2 ^ 953 * 2 ^ PLACE) as Hc2. { unfold at_value. rewrite Z.add_0_l. apply Z.mul_le_mono_nonneg_r; [apply Z.pow_nonneg; lia|]. rewrite Hbe. replace 953 with (53 + 900) by lia. rewrite Z.pow_add_r by lia. apply Z.mul_le_mono_nonneg; [lia|lia|apply Z.pow_nonneg; lia|apply Z.pow_le_mono_r; lia]. }
    assert (at_value (2 ^ 52) t = 2 ^ (52 + t) * 2 ^ PLACE) as Hc3 by (unfold at_value; rewrite <- !Z.pow_add_r by (unfold PLACE; lia); f_equal; lia).
    rewrite Hc3 in Hc. assert (Hpow : 2 ^ 953 * 2 ^ PLACE < 2 ^ (52 + t) * 2 ^ PLACE); [|lia]. apply Z.mul_lt_mono_pos_r; [apply pow_pos; unfold PLACE; lia|]. apply Z.pow_lt_mono_r; lia. }
  assert (Hb0 : 0 <= b) by (subst b; apply Z.mul_nonneg_nonneg; [lia|apply Z.pow_nonneg; lia]).
  pose proof (landed_ok q t Hq Hlo Ht) as Hok. destruct q as [|p|p]; [done| |lia]. revert Hok. cbn [landed]. destruct (Z.eqb_spec (Z.pos p) (2 ^ 53)) as [Hp|Hp].
  - rewrite (proj2 (Z.leb_le _ _)) by (unfold emax, prec; lia). intros (_ & Hok). split; [done|]. split; [done|]. etrans; [|exact Hv]. rewrite Hp. rewrite value_shift by (unfold PLACE; lia). apply value_le; [unfold PLACE; lia|]. lia.
  - rewrite (proj2 (Z.leb_le _ _)) by (unfold emax, prec; lia). intros (_ & Hok). done.
Qed.

(** Rounding does not lift a number over a bound. *)
Lemma round_le q e l b : 0 <= q -> 0 <= e + PLACE -> fexp64 (Zdigits2 q + e) >= e -> fits b -> at_value (ceiling q l) e <= at_value b 0 -> at_most (binary_round_aux prec emax false q e l) b.
Proof.
  intros Hq He Ht Hb Hv. destruct (round_lands q e l Hq Ht) as [Hmin (q' & -> & Hb' & Hlo & Hnear & Hx)]. set (t := fexp64 (Zdigits2 q + e)) in *. apply landed_le; try done.
  destruct (cut_bits q e Hq Ht) as (_ & Hbits & _). fold t in Hbits. set (k := 2 ^ (t - e)) in *. assert (Hk : 0 < k) by (apply pow_pos; lia).
  assert (Hcut : at_value (q / k) t <= at_value q e). { replace t with (e + (t - e)) at 1 by lia. rewrite value_shift by lia. fold k. apply value_le; [done|]. rewrite Z.mul_comm. by apply Z.mul_div_le. }
  pose proof (ceiling_ge q l) as Hceil. assert (Hqv : at_value q e <= at_value b 0) by (etrans; [|exact Hv]; by apply value_le).
  destruct (decide (l = loc_Exact /\ q mod k = 0)) as [[Hl Hmod]|Hnot]; [rewrite (Hx Hl Hmod); lia|].
  assert (Hlt : at_value (q / k) t < at_value b 0).
  { eapply Z.lt_le_trans; [|exact Hv]. replace t with (e + (t - e)) by lia. rewrite value_shift by lia. fold k. unfold at_value. apply Z.mul_lt_mono_pos_r; [by apply pow_pos|].
    pose proof (Z.div_mod q k ltac:(lia)). pose proof (Z.mod_pos_bound q k Hk). destruct (decide (l = loc_Exact)) as [->|Hl]; [simpl; assert (q mod k <> 0) by tauto; lia|]. destruct l; [done|]. simpl. lia. }
  destruct (on_grid b t Hb Hmin) as (z & Hz).
  { intros Hgt. etrans; [|exact Hqv]. etrans; [|exact Hcut]. apply value_le; [unfold PLACE; lia|]. by apply Hbits. }
  rewrite Hz in *. unfold at_value in Hlt. apply Z.mul_lt_mono_pos_r in Hlt; [|apply pow_pos; unfold PLACE; lia]. apply value_le; [unfold PLACE; lia|lia].
Qed.

(** ** The operations *)

Lemma value_pos m e : 0 < m -> 0 <= e + PLACE -> 0 < at_value m e.
Proof. intros Hm He. unfold at_value. apply Z.mul_pos_pos; [done|by apply pow_pos]. Qed.

Lemma at_most_nonneg x b : at_most x b -> 0 <= b.
Proof.
  destruct x as [s|s| |s m e]; simpl; try tauto. intros (_ & (Hf & _) & Hv). apply place_low in Hf. pose proof (value_pos (Z.pos m) e ltac:(lia) ltac:(unfold PLACE; lia)) as Hp.
  destruct (Z.le_gt_cases 0 b) as [|Hb]; [done|]. pose proof (value_le b 0 0 ltac:(unfold PLACE; lia) ltac:(lia)). unfold at_value in *. lia.
Qed.

Lemma mul_le x y a c : at_most x a -> at_most y c -> fits (a * c) -> at_most (f64_mul x y) (a * c).
Proof.
  intros Hx Hy Hf. pose proof (at_most_nonneg _ _ Hx). pose proof (at_most_nonneg _ _ Hy). assert (0 <= a * c) by (by apply Z.mul_nonneg_nonneg).
  destruct x as [s|s| |s m e], y as [s'|s'| |s' m' e']; simpl in Hx, Hy; try done; try (destruct Hx as [-> _], Hy as [-> _]; done).
  destruct Hx as (-> & (Hx & _) & Hvx), Hy as (-> & (Hy & _) & Hvy). pose proof (place_low _ _ Hx). pose proof (place_low _ _ Hy). unfold f64_mul. cbn [SFmul xorb].
  apply round_le; [lia|unfold PLACE; lia|by apply mul_place|done|]. cbn [ceiling].
  assert (Hprod : at_value (Z.pos m) e * at_value (Z.pos m') e' <= at_value a 0 * at_value c 0) by (apply Z.mul_le_mono_nonneg; try done; apply Z.lt_le_incl, value_pos; unfold PLACE; lia).
  unfold at_value in *. rewrite !Z.add_0_l in *. apply (Z.mul_le_mono_pos_r _ _ (2 ^ PLACE)); [apply pow_pos; unfold PLACE; lia|].
  replace (Z.pos (m * m') * 2 ^ (e + e' + PLACE) * 2 ^ PLACE) with (Z.pos m * 2 ^ (e + PLACE) * (Z.pos m' * 2 ^ (e' + PLACE))); [replace (a * c * 2 ^ PLACE * 2 ^ PLACE) with (a * 2 ^ PLACE * (c * 2 ^ PLACE)) by ring; exact Hprod|].
  rewrite Pos2Z.inj_mul. rewrite <- (Z.mul_assoc (Z.pos m * Z.pos m')), <- Z.pow_add_r by (unfold PLACE; lia). replace (e + e' + PLACE + PLACE) with ((e + PLACE) + (e' + PLACE)) by lia. rewrite (Z.pow_add_r 2 (e + PLACE) (e' + PLACE)) by (unfold PLACE; lia). ring.
Qed.

(** A whole number of places, rounded. *)
Lemma align_value m e : -1074 <= e -> let '(m', e') := shl_align m e (fexp64 (Zdigits2 (Z.pos m) + e)) in at_value (Z.pos m') e' = at_value (Z.pos m) e /\ -1074 <= e'.
Proof.
  intros He. unfold shl_align. assert (Hlow : -1074 <= fexp64 (Zdigits2 (Z.pos m) + e)) by (rewrite fexp64_def; lia). set (t := fexp64 _) in *. destruct (t - e) as [|p|p] eqn:Hd; [done..|]. split; [|done].
  rewrite iter_xO. rewrite <- value_shift by (unfold PLACE; lia). f_equal. lia.
Qed.

Lemma binary_round_le m e b : -1074 <= e -> fits b -> at_value (Z.pos m) e <= at_value b 0 -> at_most (binary_round prec emax false m e) b.
Proof.
  intros He Hb Hv. unfold binary_round. pose proof (align_place m e) as Ha. pose proof (align_value m e He) as Hal. change (Z.pos (digits2_pos m)) with (Zdigits2 (Z.pos m)).
  destruct (shl_align m e _) as [m' e']. destruct Ha as [He' Hf], Hal as [Hval Hlow]. apply round_le; [lia|unfold PLACE; lia| |done|cbn [ceiling]; by rewrite Hval]. rewrite Hf. lia.
Qed.

Lemma f64_of_le n b : 0 <= n <= b -> fits b -> at_most (f64_of n) b.
Proof.
  intros Hn Hb. unfold f64_of. destruct n as [|m|m]; [simpl; split; [done|lia]| |lia]. apply binary_round_le; [lia|done|]. apply value_le; [unfold PLACE; lia|lia].
Qed.

Lemma shl_align_fst m e e' : e' <= e -> Z.pos (shl_align m e e').1 = Z.pos m * 2 ^ (e - e').
Proof.
  intros He. unfold shl_align. destruct (e' - e) as [|p|p] eqn:Hd; [replace (e - e') with 0 by lia; simpl; lia|lia|]. cbn [fst]. rewrite iter_xO. do 2 f_equal. lia.
Qed.

Lemma add_le x y a c : at_most x a -> at_most y c -> fits (a + c) -> at_most (f64_add x y) (a + c).
Proof.
  intros Hx Hy Hf. pose proof (at_most_nonneg _ _ Hx). pose proof (at_most_nonneg _ _ Hy).
  destruct x as [s|s| |s m e], y as [s'|s'| |s' m' e']; try done.
  - destruct Hx as [-> _], Hy as [-> _]. simpl. split; [done|lia].
  - simpl in Hx. destruct Hx as [-> _]. change (f64_add (S754_zero false) (S754_finite s' m' e')) with (S754_finite s' m' e'). eapply at_most_more; [exact Hy|lia].
  - simpl in Hy. destruct Hy as [-> _]. change (f64_add (S754_finite s m e) (S754_zero false)) with (S754_finite s m e). eapply at_most_more; [exact Hx|lia].
  - destruct Hx as (-> & (Hx & _) & Hvx), Hy as (-> & (Hy & _) & Hvy). pose proof (place_low _ _ Hx). pose proof (place_low _ _ Hy). unfold f64_add. cbn [SFadd cond_Zopp]. set (ez := Z.min e e').
    pose proof (shl_align_fst m e ez ltac:(lia)) as Hs1. pose proof (shl_align_fst m' e' ez ltac:(lia)) as Hs2. set (m1 := (shl_align m e ez).1) in *. set (m2 := (shl_align m' e' ez).1) in *.
    change (at_most (binary_round prec emax false (m1 + m2) ez) (a + c)). apply binary_round_le; [lia|done|].
    assert (Hs : forall z w, at_value (z + w) ez = at_value z ez + at_value w ez) by (intros; unfold at_value; lia). rewrite Pos2Z.inj_add, Hs, Hs1, Hs2, <- !value_shift by (unfold PLACE; lia).
    replace (ez + (e - ez)) with e by lia. replace (ez + (e' - ez)) with e' by lia. unfold at_value in *. rewrite !Z.add_0_l in *. lia.
Qed.

(** A quotient, cut. *)
Lemma div_cut m1 e1 m2 e2 : fexp64 (Zdigits2 (Z.pos m1) + e1) = e1 -> fexp64 (Zdigits2 (Z.pos m2) + e2) = e2 -> e1 <= emax - prec -> e2 <= emax - prec ->
  let '(q, e, l) := SFdiv_core_binary prec emax (Z.pos m1) e1 (Z.pos m2) e2 in
  exists s r, 0 <= s /\ e = e1 - e2 - s /\ Z.pos m1 * 2 ^ s = Z.pos m2 * q + r /\ 0 <= r < Z.pos m2 /\ 0 <= q /\ 0 <= e + PLACE /\ fexp64 (Zdigits2 q + e) >= e /\ (r = 0 -> l = loc_Exact)
    /\ (-1074 < e -> 2 ^ 52 * Z.pos m2 <= Z.pos m1 * 2 ^ s).
Proof.
  intros H1 H2 Hm1 Hm2. unfold SFdiv_core_binary. set (d1 := Zdigits2 (Z.pos m1)) in *. set (d2 := Zdigits2 (Z.pos m2)) in *. pose proof (place_low _ _ H1) as L1. pose proof (place_low _ _ H2) as L2. fold d1 in H1. fold d2 in H2.
  set (e := Z.min (fexp64 (d1 + e1 - (d2 + e2))) (e1 - e2)). set (s := e1 - e2 - e). assert (Hs : 0 <= s) by (subst s e; lia). unfold emax, prec in Hm1, Hm2.
  assert (He : -3000 <= e) by (subst e; rewrite fexp64_def; lia).
  replace (match s with Z0 => Z.pos m1 | Z.pos _ => Z.shiftl (Z.pos m1) s | Z.neg _ => 0 end) with (Z.pos m1 * 2 ^ s) by (destruct s; [lia|rewrite Z.shiftl_mul_pow2 by lia; done|lia]).
  pose proof (Z_div_mod (Z.pos m1 * 2 ^ s) (Z.pos m2) ltac:(lia)) as Hdiv. destruct (Z.div_eucl (Z.pos m1 * 2 ^ s) (Z.pos m2)) as [q r]. destruct Hdiv as [Heq Hr]. exists s, r.
  assert (Hq : 0 <= q) by (assert (0 < 2 ^ s) by (by apply pow_pos); nia). split; [done|]. split; [subst s; lia|]. split; [done|]. split; [done|]. split; [done|]. split; [unfold PLACE; lia|].
  pose proof (digits_spec m1) as [Hlo1 Hhi1]. pose proof (digits_spec m2) as [Hlo2 Hhi2]. fold d1 in Hlo1, Hhi1. fold d2 in Hlo2, Hhi2. pose proof (digits_pos m1). pose proof (digits_pos m2). fold d1 in H. fold d2 in H0.
  assert (Hbits : d1 + s - d2 <= Zdigits2 q).
  { destruct (Z.le_gt_cases (d1 + s - d2) 0) as [|Hgt]; [destruct q as [|p|p]; [done|pose proof (digits_pos p); lia|lia]|].
    assert (Hqq : 2 ^ (d1 + s - d2 - 1) <= q). {
      destruct (Z.le_gt_cases (2 ^ (d1 + s - d2 - 1)) q) as [|Hlt]; [done|]. exfalso. assert (Z.pos m1 * 2 ^ s < Z.pos m2 * 2 ^ (d1 + s - d2 - 1)) by nia.
      assert (2 ^ (d1 - 1) * 2 ^ s <= Z.pos m1 * 2 ^ s) by (apply Z.mul_le_mono_nonneg_r; [by apply Z.pow_nonneg|done]).
      assert (Z.pos m2 * 2 ^ (d1 + s - d2 - 1) < 2 ^ d2 * 2 ^ (d1 + s - d2 - 1)) by (apply Z.mul_lt_mono_pos_r; [apply pow_pos; lia|done]).
      rewrite <- Z.pow_add_r in * by lia. replace (d2 + (d1 + s - d2 - 1)) with (d1 - 1 + s) in * by lia. lia. }
    destruct q as [|p|p]; [pose proof (pow_pos (d1 + s - d2 - 1) ltac:(lia)); lia| |lia]. pose proof (digits_ge p (d1 + s - d2 - 1) ltac:(lia) Hqq). lia. }
  split; [rewrite fexp64_def; assert (e <= fexp64 (d1 + e1 - (d2 + e2))) as He' by (subst e; lia); rewrite fexp64_def in He'; lia|]. split.
  - intros ->. unfold new_location, new_location_even, new_location_odd. by destruct (Z.even _).
  - intros Hgt. assert (He' : e <= d1 + e1 - (d2 + e2) - 53) by (subst e; rewrite fexp64_def in *; lia). assert (53 + d2 <= d1 + s) by lia.
    transitivity (2 ^ 52 * 2 ^ d2); [apply Z.mul_le_mono_nonneg_l; lia|]. transitivity (2 ^ (d1 - 1) * 2 ^ s); [rewrite <- !Z.pow_add_r by lia; apply Z.pow_le_mono_r; lia|]. apply Z.mul_le_mono_nonneg_r; [by apply Z.pow_nonneg|done].
Qed.

Lemma div_ok x y c : positive_ok x -> at_least y c -> positive_ok (f64_div x y).
Proof.
  intros Hx Hy. destruct y as [s'|s'| |s' m' e']; try done. destruct Hy as (-> & (Hy & Hey) & _). destruct x as [s|s| |s m e]; simpl in Hx; [by subst..|done|]. destruct Hx as (-> & Hx & Hex).
  unfold f64_div. cbn [SFdiv xorb]. pose proof (div_cut m e m' e' Hx Hy Hex Hey) as Hc. destruct (SFdiv_core_binary _ _ _ _ _ _) as [[q e0] l]. destruct Hc as (s & r & _ & _ & _ & _ & Hq & _ & Ht & _). by apply round_ok.
Qed.

Lemma div_le x y b c : 0 < c -> fits b -> at_most x (b * c) -> at_least y c -> at_most (f64_div x y) b.
Proof.
  intros Hc Hb Hx Hy. destruct y as [s'|s'| |s' m' e']; try done. destruct Hy as (-> & (Hy & Hey) & Hvy). assert (Hb0 : 0 <= b) by (destruct Hb as (mb & eb & Hmb & Heb & ->); apply Z.mul_nonneg_nonneg; [lia|apply Z.pow_nonneg; lia]).
  destruct x as [s|s| |s m e]; try done; [destruct Hx as [-> _]; done|]. destruct Hx as (-> & (Hx & Hex) & Hvx). pose proof (place_low _ _ Hx) as L1. pose proof (place_low _ _ Hy) as L2.
  unfold f64_div. cbn [SFdiv xorb]. pose proof (div_cut m e m' e' Hx Hy Hex Hey) as Hcut. destruct (SFdiv_core_binary _ _ _ _ _ _) as [[q e0] l]. destruct Hcut as (s & r & Hs & He0 & Heq & Hr & Hq & Hplace & Ht & Hexact & Hbig).
  unfold emax, prec in Hex, Hey. assert (HP : 0 <= PLACE) by (unfold PLACE; lia). pose proof (pow_pos _ HP) as HPp. pose proof (pow_pos _ Hplace) as Hep.
  assert (Hquot : (Z.pos m * 2 ^ s) * 2 ^ (e0 + PLACE) <= (b * 2 ^ PLACE) * Z.pos m').
  { assert (Hraw : at_value (Z.pos m) e <= b * at_value (Z.pos m') e') by (etrans; [exact Hvx|]; unfold at_value at 1; replace (b * c * 2 ^ (0 + PLACE)) with (b * at_value c 0) by (unfold at_value; lia); by apply Z.mul_le_mono_nonneg_l).
    unfold at_value in Hraw. apply (Z.mul_le_mono_pos_r _ _ (2 ^ (e' + PLACE))); [apply pow_pos; unfold PLACE; lia|].
    replace (Z.pos m * 2 ^ s * 2 ^ (e0 + PLACE) * 2 ^ (e' + PLACE)) with (Z.pos m * 2 ^ (e + PLACE) * 2 ^ PLACE); [replace (b * 2 ^ PLACE * Z.pos m' * 2 ^ (e' + PLACE)) with (b * (Z.pos m' * 2 ^ (e' + PLACE)) * 2 ^ PLACE) by ring; by apply Z.mul_le_mono_nonneg_r; [lia|]|].
    rewrite <- !Z.mul_assoc, <- !Z.pow_add_r by (unfold PLACE in *; lia). do 2 f_equal. lia. }
  apply round_le; [done|done|done|done|]. assert (Hm' : 0 < Z.pos m') by lia.
  assert (Hqle : q * 2 ^ (e0 + PLACE) <= b * 2 ^ PLACE) by (apply (Z.mul_le_mono_pos_r _ _ (Z.pos m')); [done|]; etrans; [|exact Hquot]; rewrite Heq; nia).
  destruct (Z.eq_dec r 0) as [Hr0|Hr0]; [rewrite (Hexact Hr0); unfold at_value; cbn [ceiling]; by rewrite Z.add_0_l|].
  assert (Hlt : q * 2 ^ (e0 + PLACE) < b * 2 ^ PLACE) by (apply (Z.mul_lt_mono_pos_r (Z.pos m')); [done|]; eapply Z.lt_le_trans; [|exact Hquot]; rewrite Heq; nia).
  assert (Hgrid : exists z, at_value b 0 = at_value z e0).
  { destruct (Z.le_gt_cases (-1074) e0) as [Hlo|Hlo]; [|exists (b * 2 ^ (- e0)); rewrite <- value_shift by lia; f_equal; lia]. apply on_grid; [done|done|]. intros Hgt. specialize (Hbig Hgt). unfold at_value. rewrite Z.add_0_l.
    apply (Z.mul_le_mono_pos_r _ _ (Z.pos m')); [done|]. etrans; [|exact Hquot]. replace (2 ^ 52 * 2 ^ (e0 + PLACE) * Z.pos m') with (2 ^ 52 * Z.pos m' * 2 ^ (e0 + PLACE)) by ring. apply Z.mul_le_mono_nonneg_r; lia. }
  destruct Hgrid as (z & Hz). rewrite Hz. unfold at_value in Hz. rewrite Z.add_0_l in Hz. rewrite Hz in Hlt. apply Z.mul_lt_mono_pos_r in Hlt; [|done]. apply value_le; [done|]. destruct l; simpl; lia.
Qed.


(** What lands from a bound on is finite and from it on. *)
Lemma landed_ge q t b c : 0 < c -> 0 <= q <= 2 ^ 53 -> -1074 <= t -> at_value c 0 <= at_value q t -> at_most (landed q t) b -> at_least (landed q t) c.
Proof.
  intros Hc Hq Ht Hv Hm. assert (Hq0 : 0 < q). { destruct (Z.eq_dec q 0) as [->|]; [|lia]. pose proof (value_pos c 0 Hc ltac:(unfold PLACE; lia)). unfold at_value in *. lia. }
  destruct q as [|p|p]; [lia| |lia]. cbn [landed] in *. destruct (Z.eqb_spec (Z.pos p) (2 ^ 53)) as [Hp|Hp].
  - destruct (t + 1 <=? emax - prec); [|done]. destruct Hm as (_ & Hok & _). split; [done|]. split; [done|]. etrans; [exact Hv|]. rewrite Hp. rewrite value_shift by (unfold PLACE; lia). apply value_le; [unfold PLACE; lia|]. lia.
  - destruct (t <=? emax - prec); [|done]. destruct Hm as (_ & Hok & _). done.
Qed.

Lemma binary_round_ge m e b c : 0 < c <= 2 ^ 52 -> -1074 <= e -> at_value c 0 <= at_value (Z.pos m) e -> at_most (binary_round prec emax false m e) b -> at_least (binary_round prec emax false m e) c.
Proof.
  intros Hc He Hv. unfold binary_round. pose proof (align_place m e) as Ha. pose proof (align_value m e He) as Hal. change (Z.pos (digits2_pos m)) with (Zdigits2 (Z.pos m)).
  destruct (shl_align m e _) as [m' e']. destruct Ha as [He' Hf], Hal as [Hval Hlow]. rewrite <- Hval in Hv. assert (Hplace : fexp64 (Zdigits2 (Z.pos m') + e') >= e') by (rewrite Hf; lia). clear Hval He Hf He' m e. rename m' into m, e' into e.
  destruct (round_lands (Z.pos m) e loc_Exact ltac:(lia) Hplace) as [Hmin (q & -> & Hb & Hlo & Hnear & _)]. set (t := fexp64 (Zdigits2 (Z.pos m) + e)) in *. intros Hm. apply (landed_ge q t b c); [lia|done|done| |exact Hm].
  destruct (Z.le_gt_cases t 0) as [Hneg|Hpos].
  - rewrite (value_down c t) by (unfold PLACE; lia). apply value_le; [unfold PLACE; lia|]. etrans; [|exact (proj1 Hnear)]. apply Z.div_le_lower_bound; [apply pow_pos; lia|].
    assert (He0 : e <= 0) by lia. rewrite (value_down c e) in Hv by (unfold PLACE; lia). unfold at_value in Hv. apply Z.mul_le_mono_pos_r in Hv; [|apply pow_pos; unfold PLACE; lia].
    etrans; [|exact Hv]. rewrite (Z.mul_comm (2 ^ (t - e))), <- Z.mul_assoc, <- Z.pow_add_r by lia. by replace (- t + (t - e)) with (- e) by lia.
  - specialize (Hlo ltac:(lia)). rewrite (value_up q t) by lia. apply value_le; [unfold PLACE; lia|]. assert (1 <= 2 ^ t) by (pose proof (pow_pos t ltac:(lia)); lia). nia.
Qed.

(** One more is at least one. *)
Lemma add_one_least x b : at_most x b -> fits (b + 1) -> at_least (f64_add x (f64_of 1)) 1.
Proof.
  intros Hx Hf. pose proof (add_le x (f64_of 1) b 1 Hx) as Hm. assert (H1 : at_most (f64_of 1) 1) by (apply f64_of_le; [lia|exists 1, 0; lia]). specialize (Hm H1 Hf). revert Hm. clear H1.
  change (f64_of 1) with (S754_finite false 4503599627370496 (-52)). destruct x as [s|s| |s m e]; try done.
  - destruct Hx as (-> & (Hx & _) & _). pose proof (place_low _ _ Hx) as L. unfold f64_add. cbn [SFadd cond_Zopp]. set (ez := Z.min e (-52)).
    pose proof (shl_align_fst 4503599627370496 (-52) ez ltac:(lia)) as Hs2. set (m1 := (shl_align m e ez).1) in *. set (m2 := (shl_align 4503599627370496 (-52) ez).1) in *.
    change (at_most (binary_round prec emax false (m1 + m2) ez) (b + 1) -> at_least (binary_round prec emax false (m1 + m2) ez) 1). apply binary_round_ge; [lia|lia|].
    rewrite (value_down 1 ez) by (unfold PLACE; lia). apply value_le; [unfold PLACE; lia|]. rewrite Pos2Z.inj_add, Hs2. change 4503599627370496 with (2 ^ 52). rewrite <- Z.pow_add_r by lia. replace (52 + (-52 - ez)) with (- ez) by lia. lia.
Qed.

(** ** Durations *)

Lemma fits_small b : 0 <= b <= 2 ^ 53 -> fits b.
Proof. intros Hb. exists b, 0. lia. Qed.

Lemma fits_shift m e : 0 <= m <= 2 ^ 53 -> 0 <= e <= 900 -> fits (m * 2 ^ e).
Proof. intros. by exists m, e. Qed.

(** A number of seconds that a [Duration] holds. *)
Lemma from_secs_fits x b : at_most x b -> b < 2 ^ 63 -> exists ns, from_secs_f64 x = Some ns.
Proof.
  intros Hx Hb. pose proof (at_most_nonneg _ _ Hx) as Hb0. destruct x as [s|s| |s m e]; try done; [by eexists|]. destruct Hx as (-> & (Hx & _) & Hv). pose proof (place_low _ _ Hx) as L. unfold from_secs_f64. unfold at_value in Hv. rewrite Z.add_0_l in Hv.
  assert (Hsec : SECOND = 1000000000) by reflexivity. destruct (Z.leb_spec 0 e) as [He|He].
  - rewrite Z.pow_add_r in Hv by (unfold PLACE; lia). rewrite Z.mul_assoc in Hv. apply Z.mul_le_mono_pos_r in Hv; [|apply pow_pos; unfold PLACE; lia].
    replace (Z.pos m * SECOND * 2 ^ e) with (Z.pos m * 2 ^ e * SECOND) by ring. rewrite Z.div_mul by lia. rewrite (proj2 (Z.ltb_lt _ _)) by lia. by eexists.
  - assert (Hk : 0 < 2 ^ (- e)) by (apply pow_pos; lia). assert (Hm : Z.pos m <= b * 2 ^ (- e)).
    { apply (Z.mul_le_mono_pos_r _ _ (2 ^ (e + PLACE))); [apply pow_pos; unfold PLACE; lia|]. rewrite <- Z.mul_assoc, <- Z.pow_add_r by (unfold PLACE; lia). by replace (- e + (e + PLACE)) with PLACE by lia. }
    assert (Hq : Z.pos m * SECOND / 2 ^ (- e) <= b * SECOND) by (apply Z.div_le_upper_bound; nia). assert (Hr : round_half_even (Z.pos m * SECOND) (- e) <= b * SECOND + 1) by (unfold round_half_even; cbv zeta; repeat case_match; lia).
    assert (Hlt : round_half_even (Z.pos m * SECOND) (- e) / SECOND < 2 ^ 64) by (apply Z.div_lt_upper_bound; lia). apply Z.ltb_lt in Hlt. rewrite Hlt. by eexists.
Qed.

(** A duration in seconds. *)
Lemma as_secs_le d s : 0 <= d < s * SECOND -> s <= 2 ^ 53 -> at_most (as_secs_f64 d) s.
Proof.
  intros Hd Hs. assert (Hsec : SECOND = 1000000000) by reflexivity. unfold as_secs_f64. assert (Hq : 0 <= d / SECOND <= s - 1) by (split; [apply Z.div_pos; lia|assert (d / SECOND < s) by (apply Z.div_lt_upper_bound; lia); lia]).
  replace s with (s - 1 + 1) by lia. apply add_le; [apply f64_of_le; [done|apply fits_small; lia]| |apply fits_small; lia]. pose proof (Z.mod_pos_bound d SECOND ltac:(lia)).
  apply (div_le _ _ 1 SECOND); [lia|apply fits_small; lia|apply f64_of_le; [lia|apply fits_small; lia]|]. change (f64_of SECOND) with (S754_finite false 8388608000000000 (-23)). split; [done|]. split; [done|].
  unfold at_value. replace (0 + PLACE) with (23 + (-23 + PLACE)) by lia. rewrite (Z.pow_add_r 2 23) by (unfold PLACE; lia). lia.
Qed.

(** ** Signs *)

Lemma round_opp q e l : binary_round_aux prec emax true q e l = SFopp (binary_round_aux prec emax false q e l).
Proof. unfold binary_round_aux. destruct (shr_fexp prec emax q e l) as [r e1]. destruct (shr_fexp prec emax _ e1 loc_Exact) as [r2 e2]. destruct (shr_m r2); [done| |done]. by destruct (e2 <=? emax - prec). Qed.

(** What is taken from zero, divided, is not above zero. *)
Lemma neg_div_le x y c : positive_ok x -> at_least y c -> f64_le (f64_div (f64_neg x) y) (S754_zero false) = true.
Proof.
  intros Hx Hy. assert (Hopp : f64_div (f64_neg x) y = f64_neg (f64_div x y)).
  { destruct y as [s'|s'| |s' m' e']; try done. destruct Hy as (-> & _). destruct x as [s|s| |s m e]; simpl in Hx; [by subst..|done|]. destruct Hx as (-> & _). unfold f64_div, f64_neg. cbn [SFopp SFdiv xorb negb].
    destruct (SFdiv_core_binary _ _ _ _ _ _) as [[q e0] l]. apply round_opp. }
  rewrite Hopp. pose proof (div_ok x y c Hx Hy) as Hp. destruct (f64_div x y) as [s|s| |s m e]; simpl in Hp; [by subst..|done|]. by destruct Hp as (-> & _).
Qed.
