(* ===== verification/SmartSites.v ===== *)
(** * What smart groups remember of sites

    [Sites] of [crates/rurge-policy/src/smart.rs]: the last outcome of each
    policy at each site, in tables with bounds.  Instants are nanoseconds; the
    clock that orders the uses of the sites does not reach 2^64. *)

From S2P Require Import Prelude.

Definition SITE_MEMORY : Z := 3600 * 1000000000.
Definition SITES : nat := 4096.
Definition POLICIES_PER_SITE : nat := 16.
Definition USAGE_WINDOW : Z := 600 * 1000000000.
Definition USAGE_BUCKET : Z := 60 * 1000000000.

(** ** Sites *)

(** A policy, whether it worked, and when. *)
Definition Outcome : Type := rstr * bool * Z.

Record Site := mkSite { used : Z; policies : list Outcome }.
Record Sites := mkSites { hosts : gmap rstr Site; clock : Z }.

Definition new_sites : Sites := mkSites ∅ 0.

Record SiteMemory := mkMemory { worked : list rstr; failed : list rstr }.

Definition fresh (now at_ : Z) : bool := sat_sub now at_ <? SITE_MEMORY.

(** The least recently used site goes when a new one comes to a full table. *)
Definition make_room (host : rstr) (m : gmap rstr Site) : gmap rstr Site :=
  match m !! host with
  | Some _ => m
  | None =>
      if decide (SITES <= size m)%nat then
        match min_by (fun p => used p.2) (map_to_list m) with
        | Some (oldest, _) => delete oldest m
        | None => m
        end
      else m
  end.

(** [Sites::remember]: whether the site remembered a failure. *)
Definition remember (host policy : rstr) (it_worked : bool) (now : Z) (s : Sites) : bool * Sites :=
  let clock := clock s + 1 in
  let hosts := make_room host (hosts s) in
  let site := default (mkSite clock []) (hosts !! host) in
  let failed_here := existsb (fun o : Outcome => negb o.1.2 && fresh now o.2) (policies site) in
  let ps := filter (fun o : Outcome => o.1.1 <> policy /\ fresh now o.2 = true) (policies site) ++ [(policy, it_worked, now)] in
  let ps := if decide (POLICIES_PER_SITE < length ps)%nat then tail ps else ps in
  (failed_here, mkSites (<[host := mkSite clock ps]> hosts) clock).

(** [Sites::read]. *)
Definition read (host : rstr) (now : Z) (s : Sites) : SiteMemory * Sites :=
  let clock := clock s + 1 in
  match hosts s !! host with
  | None => (mkMemory [] [], mkSites (hosts s) clock)
  | Some site =>
      let kept := filter (fun o : Outcome => fresh now o.2 = true) (policies site) in
      (mkMemory ((fun o => o.1.1) <$> filter (fun o : Outcome => o.1.2 = true) kept) ((fun o => o.1.1) <$> filter (fun o : Outcome => o.1.2 = false) kept),
       mkSites (<[host := mkSite clock (policies site)]> (hosts s)) clock)
  end.

(** The part of [SmartBook::retain] about the sites. *)
Definition retain_sites (keep : rstr -> bool) (s : Sites) : Sites :=
  mkSites ((fun site => mkSite (used site) (filter (fun o : Outcome => keep o.1.1 = true) (policies site))) <$> hosts s) (clock s).

(** ** What is remembered *)

Inductive Call := Remember (host policy : rstr) (it_worked : bool) | Read (host : rstr) | RetainSites (keep : rstr -> bool).

Definition call (s : Sites) (c : Z * Call) : Sites :=
  match c.2 with
  | Remember host policy it_worked => (remember host policy it_worked c.1 s).2
  | Read host => (read host c.1 s).2
  | RetainSites keep => retain_sites keep s
  end.

Definition calls (cs : list (Z * Call)) : Sites := foldl call new_sites cs.

(** The last outcome of a policy at a host; [past] is the latest call first. *)
Fixpoint last_outcome (past : list (Z * Call)) (host policy : rstr) : option (bool * Z) :=
  match past with
  | [] => None
  | (t, c) :: past =>
      match c with
      | Remember h p w => if decide (h = host /\ p = policy) then Some (w, t) else last_outcome past host policy
      | RetainSites keep => if keep policy then last_outcome past host policy else None
      | Read _ => last_outcome past host policy
      end
  end.

Definition hosts_of (cs : list (Z * Call)) : gset rstr :=
  list_to_set (omap (fun c : Z * Call => match c.2 with Remember h _ _ => Some h | _ => None end) cs).

Definition policies_of (host : rstr) (cs : list (Z * Call)) : gset rstr :=
  list_to_set (omap (fun c : Z * Call => match c.2 with Remember h p _ => if decide (h = host) then Some p else None | _ => None end) cs).

(** Few enough sites and policies for nothing to be forgotten before its time. *)
Definition within_room (cs : list (Z * Call)) : Prop :=
  (size (hosts_of cs) <= SITES)%nat /\ forall host, (size (policies_of host cs) <= POLICIES_PER_SITE)%nat.

(** The sites hold the last outcomes of [past], the fresh ones at [now] all. *)
Record holds (past : list (Z * Call)) (now : Z) (s : Sites) : Prop := {
  h_sound : forall host site o, hosts s !! host = Some site -> o ∈ policies site -> last_outcome past host o.1.1 = Some (o.1.2, o.2);
  h_names : forall host site, hosts s !! host = Some site -> NoDup ((fun o : Outcome => o.1.1) <$> policies site);
  h_all : forall host policy w at_, last_outcome past host policy = Some (w, at_) -> fresh now at_ = true ->
            exists site, hosts s !! host = Some site /\ (policy, w, at_) ∈ policies site;
  h_hosts : forall host, is_Some (hosts s !! host) -> host ∈ hosts_of past;
  h_past : forall host policy w at_, last_outcome past host policy = Some (w, at_) -> at_ <= now /\ policy ∈ policies_of host past;
}.

Lemma fresh_later now now' at_ : at_ <= now <= now' -> fresh now' at_ = true -> fresh now at_ = true.
Proof. unfold fresh, sat_sub. lia. Qed.

Lemma hosts_of_cons t c past : hosts_of ((t, c) :: past) = match c with Remember h _ _ => {[h]} ∪ hosts_of past | _ => hosts_of past end.
Proof. unfold hosts_of. by destruct c. Qed.

Lemma policies_of_cons host t c past : policies_of host ((t, c) :: past) =
  match c with Remember h p _ => if decide (h = host) then {[p]} ∪ policies_of host past else policies_of host past | _ => policies_of host past end.
Proof. unfold policies_of. destruct c; try done. simpl. by case_decide. Qed.

Lemma room_for host past now s : holds past now s -> (size ({[host]} ∪ hosts_of past) <= SITES)%nat -> make_room host (hosts s) = hosts s.
Proof.
  intros Hs Hsz. unfold make_room. destruct (hosts s !! host) as [site|] eqn:Hh; [done|]. rewrite decide_False; [done|].
  intros Hfull. assert (Hlt : (size (dom (hosts s)) < size ({[host]} ∪ hosts_of past))%nat).
  { apply subset_size. split; [intros h [x Hx]%elem_of_dom; apply elem_of_union_r, (h_hosts _ _ _ Hs); by eauto|].
    intros Hsub. assert (host ∈ dom (hosts s)) as [x Hx]%elem_of_dom by (apply Hsub; set_solver). congruence. }
  rewrite size_dom in Hlt. lia.
Qed.

Lemma short_enough (ps : list Outcome) (names : gset rstr) : NoDup ((fun o : Outcome => o.1.1) <$> ps) ->
  (forall o, o ∈ ps -> o.1.1 ∈ names) -> (size names <= POLICIES_PER_SITE)%nat -> (length ps <= POLICIES_PER_SITE)%nat.
Proof.
  intros Hnd Hin Hsz. etrans; [|exact Hsz]. rewrite <- (length_fmap (fun o : Outcome => o.1.1)), <- (size_list_to_set (C := gset rstr)) by done.
  apply subseteq_size. intros x Hx. apply elem_of_list_to_set, list_elem_of_fmap in Hx as (o & -> & Ho). by apply Hin.
Qed.

Lemma NoDup_fmap_filter {A B : Type} (f : A -> B) (P : A -> Prop) `{forall x, Decision (P x)} l : NoDup (f <$> l) -> NoDup (f <$> filter P l).
Proof.
  induction l as [|x l IH]; [done|]. rewrite fmap_cons, NoDup_cons, filter_cons. intros [Hx Hl]. case_decide; [|by apply IH].
  rewrite fmap_cons, NoDup_cons. split; [|by apply IH]. intros (y & Heq & [_ Hy]%list_elem_of_filter)%list_elem_of_fmap.
  apply Hx. rewrite Heq. by apply list_elem_of_fmap_2.
Qed.

(** The outcomes at a site, none when it is not there. *)
Definition outcomes (s : Sites) (host : rstr) : list Outcome := match hosts s !! host with Some site => policies site | None => [] end.

Lemma outcomes_sound past now s host o : holds past now s -> o ∈ outcomes s host -> last_outcome past host o.1.1 = Some (o.1.2, o.2).
Proof. intros Hs Ho. unfold outcomes in Ho. destruct (hosts s !! host) eqn:Hh; [by eapply h_sound|by inversion Ho]. Qed.

Lemma outcomes_names past now s host : holds past now s -> NoDup ((fun o : Outcome => o.1.1) <$> outcomes s host).
Proof. intros Hs. unfold outcomes. destruct (hosts s !! host) eqn:Hh; [by eapply h_names|constructor]. Qed.

Lemma outcomes_all past now s host policy w at_ : holds past now s -> last_outcome past host policy = Some (w, at_) -> fresh now at_ = true ->
  (policy, w, at_) ∈ outcomes s host.
Proof. intros Hs Hl Hf. destruct (h_all _ _ _ Hs _ _ _ _ Hl Hf) as (site & Hh & Hin). unfold outcomes. by rewrite Hh. Qed.

(** What [remember] puts at the site, when nothing has to go. *)
Lemma remember_gives past now s host policy w t : holds past now s -> now <= t ->
  (size ({[host]} ∪ hosts_of past) <= SITES)%nat -> (size ({[policy]} ∪ policies_of host past) <= POLICIES_PER_SITE)%nat ->
  remember host policy w t s
  = (existsb (fun o : Outcome => negb o.1.2 && fresh t o.2) (outcomes s host),
     mkSites (<[host := mkSite (clock s + 1) (filter (fun o : Outcome => o.1.1 <> policy /\ fresh t o.2 = true) (outcomes s host) ++ [(policy, w, t)])]> (hosts s))
       (clock s + 1))
  /\ NoDup ((fun o : Outcome => o.1.1) <$> filter (fun o : Outcome => o.1.1 <> policy /\ fresh t o.2 = true) (outcomes s host) ++ [(policy, w, t)]).
Proof.
  intros Hs Ht Hsz Hps. set (kept := filter _ (outcomes s host)).
  assert (Hnd : NoDup ((fun o : Outcome => o.1.1) <$> kept ++ [(policy, w, t)])).
  { rewrite fmap_app. apply NoDup_app. split; [|split; [|apply NoDup_singleton]].
    - apply NoDup_fmap_filter. by eapply outcomes_names.
    - intros x (o & -> & [[Hn _] _]%list_elem_of_filter)%list_elem_of_fmap Hx. set_solver. }
  assert (Hlen : (length (kept ++ [(policy, w, t)]) <= POLICIES_PER_SITE)%nat).
  { apply (short_enough _ ({[policy]} ∪ policies_of host past)); [done| |done]. intros o [Ho|Ho]%elem_of_app; [|set_solver].
    apply list_elem_of_filter in Ho as [_ Ho]. apply elem_of_union_r. eapply (h_past _ _ _ Hs), outcomes_sound; done. }
  split; [|done]. unfold remember. rewrite (room_for _ _ _ _ Hs Hsz).
  assert (policies (default (mkSite (clock s + 1) []) (hosts s !! host)) = outcomes s host) as -> by (unfold outcomes; by destruct (hosts s !! host)).
  fold kept. by rewrite decide_False by lia.
Qed.

Lemma remember_tells past now s host t : holds past now s -> now <= t ->
  existsb (fun o : Outcome => negb o.1.2 && fresh t o.2) (outcomes s host) = true
  <-> exists p at_, last_outcome past host p = Some (false, at_) /\ fresh t at_ = true.
Proof.
  intros Hs Ht. rewrite existsb_exists. split.
  - intros ([[p it] at_] & Hin & [Hw Hf]%andb_true_iff). apply list_elem_of_In in Hin. exists p, at_. split; [|done].
    pose proof (outcomes_sound _ _ _ _ _ Hs Hin) as Hl. simpl in *. by destruct it.
  - intros (p & at_ & Hl & Hf). exists (p, false, at_). split; [|done]. apply list_elem_of_In. eapply outcomes_all; [done..|].
    eapply fresh_later; [|done]. split; [by eapply h_past|done].
Qed.

Lemma last_outcome_remember past t host policy w h p : last_outcome ((t, Remember host policy w) :: past) h p
  = if decide (host = h /\ policy = p) then Some (w, t) else last_outcome past h p.
Proof. reflexivity. Qed.

Lemma remember_holds past now s host policy w t : holds past now s -> now <= t ->
  (size ({[host]} ∪ hosts_of past) <= SITES)%nat -> (size ({[policy]} ∪ policies_of host past) <= POLICIES_PER_SITE)%nat ->
  holds ((t, Remember host policy w) :: past) t (remember host policy w t s).2.
Proof.
  intros Hs Ht Hsz Hps. destruct (remember_gives _ _ _ host policy w t Hs Ht Hsz Hps) as [-> Hnd]. split; cbn [hosts snd].
  - intros h site o. rewrite lookup_insert, last_outcome_remember. case_decide as Hh.
    + subst h. intros [= <-]. simpl. intros [Ho|Ho]%elem_of_app.
      * apply list_elem_of_filter in Ho as [[Hn _] Ho]. rewrite decide_False by naive_solver. by eapply outcomes_sound.
      * apply list_elem_of_singleton in Ho as ->. by rewrite decide_True.
    + intros Hsite Ho. rewrite decide_False by naive_solver. by eapply h_sound.
  - intros h site. rewrite lookup_insert. case_decide; [by intros [= <-]|by apply (h_names _ _ _ Hs)].
  - intros h p w' at_. rewrite last_outcome_remember, lookup_insert. case_decide as Hhp.
    + destruct Hhp as [<- <-]. intros [= <- <-] _. rewrite decide_True by done. eexists. split; [done|]. simpl. set_solver.
    + intros Hl Hf. assert (Hf' : fresh now at_ = true) by (eapply fresh_later; [|done]; split; [by eapply h_past|done]).
      case_decide as Hh; [|by eapply h_all]. subst h. eexists. split; [done|]. simpl. apply elem_of_app. left. apply list_elem_of_filter.
      split; [by naive_solver|]. by eapply outcomes_all.
  - intros h. rewrite lookup_insert, hosts_of_cons. case_decide; [set_solver|]. intros Hh. apply elem_of_union_r. by apply (h_hosts _ _ _ Hs).
  - intros h p w' at_. rewrite last_outcome_remember, policies_of_cons. case_decide as Hhp.
    + destruct Hhp as [<- <-]. intros [= <- <-]. rewrite decide_True by done. split; [lia|set_solver].
    + intros Hl. destruct (h_past _ _ _ Hs _ _ _ _ Hl). split; [lia|]. case_decide; set_solver.
Qed.

Lemma read_holds past now s host t : holds past now s -> now <= t -> holds ((t, Read host) :: past) t (read host t s).2.
Proof.
  intros Hs Ht. assert (Hsame : forall h, policies <$> hosts (read host t s).2 !! h = policies <$> hosts s !! h).
  { intros h. unfold read. destruct (hosts s !! host) as [site|] eqn:Hh; [|done]. simpl. rewrite lookup_insert. case_decide; [subst; by rewrite Hh|done]. }
  assert (Hback : forall h site, hosts (read host t s).2 !! h = Some site -> exists site', hosts s !! h = Some site' /\ policies site' = policies site).
  { intros h site Hx. specialize (Hsame h). rewrite Hx in Hsame. symmetry in Hsame. apply fmap_Some in Hsame as (site' & ? & ?). eauto. }
  split; cbn [last_outcome].
  - intros h site o (site' & Hx & <-)%Hback. by apply (h_sound _ _ _ Hs).
  - intros h site (site' & Hx & <-)%Hback. by apply (h_names _ _ _ Hs h).
  - intros h p w at_ Hl Hf. destruct (h_all _ _ _ Hs h p w at_ Hl) as (site & Hx & Hin).
    { eapply fresh_later; [|done]. split; [by eapply h_past|done]. }
    specialize (Hsame h). rewrite Hx in Hsame. apply fmap_Some in Hsame as (site' & ? & Heq). exists site'. split; [done|]. by rewrite <- Heq.
  - intros h [site (site' & Hx & _)%Hback]. rewrite hosts_of_cons. apply (h_hosts _ _ _ Hs). by eauto.
  - intros h p w at_ Hl. destruct (h_past _ _ _ Hs _ _ _ _ Hl). rewrite policies_of_cons. split; [lia|done].
Qed.

Lemma retain_holds past now s keep t : holds past now s -> now <= t -> holds ((t, RetainSites keep) :: past) t (retain_sites keep s).
Proof.
  intros Hs Ht. assert (Hback : forall h site, hosts (retain_sites keep s) !! h = Some site ->
    exists site', hosts s !! h = Some site' /\ policies site = filter (fun o : Outcome => keep o.1.1 = true) (policies site')).
  { intros h site Hx. unfold retain_sites in Hx. simpl in Hx. rewrite lookup_fmap in Hx. apply fmap_Some in Hx as (site' & ? & ->). eauto. }
  split; cbn [last_outcome].
  - intros h site o (site' & Hx & ->)%Hback [Hk Ho]%list_elem_of_filter. rewrite Hk. by eapply h_sound.
  - intros h site (site' & Hx & ->)%Hback. apply NoDup_fmap_filter. by eapply (h_names _ _ _ Hs).
  - intros h p w at_. destruct (keep p) eqn:Hk; [|done]. intros Hl Hf. destruct (h_all _ _ _ Hs h p w at_ Hl) as (site & Hx & Hin).
    { eapply fresh_later; [|done]. split; [by eapply h_past|done]. }
    exists (mkSite (used site) (filter (fun o : Outcome => keep o.1.1 = true) (policies site))). split; [|simpl; by apply list_elem_of_filter].
    unfold retain_sites. simpl. by rewrite lookup_fmap, Hx.
  - intros h [site (site' & Hx & _)%Hback]. rewrite hosts_of_cons. apply (h_hosts _ _ _ Hs). by eauto.
  - intros h p w at_. destruct (keep p); [|done]. intros Hl. destruct (h_past _ _ _ Hs _ _ _ _ Hl). rewrite policies_of_cons. split; [lia|done].
Qed.

(** ** Any calls *)

(** Calls one after the other in time, the last not after [now]. *)
Definition in_order (cs : list (Z * Call)) (now : Z) : Prop := StronglySorted Z.le ((fst <$> cs) ++ [now]).

Lemma sorted_snoc (l : list Z) x y : StronglySorted Z.le ((l ++ [x]) ++ [y]) -> StronglySorted Z.le (l ++ [x]) /\ x <= y.
Proof.
  induction l as [|z l IH]; simpl.
  - intros [_ Hxy]%StronglySorted_inv. split; [by repeat constructor|]. by inversion Hxy.
  - intros [Hs Hz]%StronglySorted_inv. destruct (IH Hs) as [Hs' Hxy]. split; [|done]. constructor; [done|].
    apply Forall_app in Hz as [Hz _]. done.
Qed.

Lemma hosts_of_app cs ds : hosts_of (cs ++ ds) = hosts_of cs ∪ hosts_of ds.
Proof. unfold hosts_of. by rewrite omap_app, list_to_set_app_L. Qed.

Lemma policies_of_app host cs ds : policies_of host (cs ++ ds) = policies_of host cs ∪ policies_of host ds.
Proof. unfold policies_of. by rewrite omap_app, list_to_set_app_L. Qed.

Lemma hosts_of_reverse cs : hosts_of (reverse cs) = hosts_of cs.
Proof. induction cs as [|c cs IH]; [done|]. rewrite reverse_cons, hosts_of_app, IH. change (c :: cs) with ([c] ++ cs). rewrite (hosts_of_app [c]). set_solver. Qed.

Lemma policies_of_reverse host cs : policies_of host (reverse cs) = policies_of host cs.
Proof. induction cs as [|c cs IH]; [done|]. rewrite reverse_cons, policies_of_app, IH. change (c :: cs) with ([c] ++ cs). rewrite (policies_of_app host [c]). set_solver. Qed.

Lemma within_room_app cs ds : within_room (cs ++ ds) -> within_room cs.
Proof.
  intros [Hh Hp]. split.
  - etrans; [|exact Hh]. rewrite hosts_of_app. apply subseteq_size. set_solver.
  - intros host. etrans; [|exact (Hp host)]. rewrite policies_of_app. apply subseteq_size. set_solver.
Qed.

Lemma room_to_remember cs t host policy w : within_room (cs ++ [(t, Remember host policy w)]) ->
  (size ({[host]} ∪ hosts_of (reverse cs)) <= SITES)%nat /\ (size ({[policy]} ∪ policies_of host (reverse cs)) <= POLICIES_PER_SITE)%nat.
Proof.
  intros [Hh Hp]. specialize (Hp host). rewrite hosts_of_app in Hh. rewrite policies_of_app, (policies_of_cons host t) in Hp.
  rewrite decide_True in Hp by done. rewrite hosts_of_reverse, policies_of_reverse. rewrite (hosts_of_cons t) in Hh. split.
  - etrans; [|exact Hh]. apply subseteq_size. set_solver.
  - etrans; [|exact Hp]. apply subseteq_size. set_solver.
Qed.

Lemma holds_nothing now : holds [] now new_sites.
Proof.
  split; simpl; [intros ? ? ?; by rewrite lookup_empty|intros ? ?; by rewrite lookup_empty|done| |done].
  intros ? [? Hx]. by rewrite lookup_empty in Hx.
Qed.

Lemma holds_later past now now' s : holds past now s -> now <= now' -> holds past now' s.
Proof.
  intros [H1 H2 H3 H4 H5] Hle. split; try done.
  - intros h p w at_ Hl Hf. apply (H3 h p w at_ Hl). eapply fresh_later; [|done]. split; [by eapply H5|done].
  - intros h p w at_ Hl. destruct (H5 _ _ _ _ Hl). split; [lia|done].
Qed.

Lemma calls_hold cs now : in_order cs now -> within_room cs -> holds (reverse cs) now (calls cs).
Proof.
  revert now. induction cs as [|[t c] cs IH] using rev_ind; intros now Hord Hroom; [apply holds_nothing|].
  unfold in_order in Hord. rewrite fmap_app in Hord. apply sorted_snoc in Hord as [Hord Hle]. simpl in Hle.
  unfold calls. rewrite foldl_snoc, reverse_snoc. fold (calls cs). pose proof (IH t Hord (within_room_app _ _ Hroom)) as Hs.
  apply (holds_later _ t); [|done]. destruct c as [host policy w|host|keep]; unfold call; cbn [fst snd].
  - destruct (room_to_remember _ _ _ _ _ Hroom). by eapply remember_holds.
  - by eapply read_holds.
  - by eapply retain_holds.
Qed.

(** The tables never grow past their bounds. *)
Definition bounded (s : Sites) : Prop :=
  (size (hosts s) <= SITES)%nat /\ forall host site, hosts s !! host = Some site -> (length (policies site) <= POLICIES_PER_SITE)%nat.

Lemma make_room_bounded host m : (size m <= SITES)%nat ->
  make_room host m ⊆ m /\ (m !! host = None -> (size (make_room host m) < SITES)%nat).
Proof.
  intros Hsz. unfold make_room. destruct (m !! host) eqn:Hh; [done|]. case_decide; [|split; [done|lia]].
  pose proof (min_by_spec (fun p : rstr * Site => used p.2) (map_to_list m)) as Hmin. destruct (min_by _ _) as [[o site]|].
  - destruct Hmin as [Hin%elem_of_map_to_list _]. split; [apply delete_subseteq|]. intros _. rewrite map_size_delete_Some by eauto. unfold SITES in *. lia.
  - apply map_to_list_empty_iff in Hmin. subst. rewrite map_size_empty in *. unfold SITES in *. lia.
Qed.

Lemma call_bounded s c : bounded s -> bounded (call s c).
Proof.
  intros [Hsz Hps]. destruct c as [t [host policy w|host|keep]]; unfold call; cbn [fst snd].
  - unfold remember. destruct (make_room_bounded host (hosts s) Hsz) as [Hsub Hroom]. cbn [snd hosts].
    set (site := default _ _). assert (Hsite : (length (policies site) <= POLICIES_PER_SITE)%nat).
    { subst site. destruct (make_room host (hosts s) !! host) eqn:Hh; simpl; [|unfold POLICIES_PER_SITE; lia]. eapply (Hps host), lookup_weaken; done. }
    split; cbn [hosts].
    + rewrite map_size_insert. destruct (make_room host (hosts s) !! host) eqn:Hh; [by etrans; [apply map_subseteq_size|]|].
      destruct (hosts s !! host) eqn:Hh'; [|specialize (Hroom eq_refl); lia]. exfalso. unfold make_room in Hh. by rewrite Hh', Hh' in Hh.
    + intros h x. rewrite lookup_insert. case_decide; [|intros Hx; eapply (Hps h), lookup_weaken; done]. intros [= <-]. cbn [policies].
      case_decide as Hlen; [|lia]. assert (Htl : forall l : list Outcome, length (tail l) = (length l - 1)%nat) by (intros [|x0 l]; simpl; lia). rewrite Htl, length_app. cbn [length].
      pose proof (length_filter (fun o : Outcome => o.1.1 <> policy /\ fresh t o.2 = true) (policies site)). lia.
  - unfold read. destruct (hosts s !! host) as [site|] eqn:Hh; [|done]. split; cbn [hosts snd].
    + by rewrite map_size_insert_Some by eauto.
    + intros h x. rewrite lookup_insert. case_decide; [intros [= <-]; cbn [policies]; by eapply Hps|apply Hps].
  - split; cbn [hosts retain_sites]; [by rewrite map_size_fmap|]. intros h x. rewrite lookup_fmap. intros (y & Hy & ->)%fmap_Some. cbn [policies].
    etrans; [apply length_filter|by apply (Hps h)].
Qed.

Lemma calls_bounded cs : bounded (calls cs).
Proof.
  unfold calls. assert (bounded new_sites) as Hb by (split; [cbn [hosts new_sites]; rewrite map_size_empty; unfold SITES; lia|intros ? ? Hx; cbn [hosts new_sites] in Hx; by rewrite lookup_empty in Hx]).
  revert Hb. generalize new_sites. induction cs as [|c cs IH]; intros s Hs; [done|]. by apply IH, call_bounded.
Qed.

(** A failure of [policy] at [host] that is remembered and less than an hour
    old at [now]. *)
Definition blames (cs : list (Z * Call)) (host : rstr) (now : Z) (policy : rstr) : Prop :=
  exists at_, last_outcome (reverse cs) host policy = Some (false, at_) /\ now - at_ < SITE_MEMORY.

(** C21: whatever was reported, read and retained before, the tables keep
    their bounds (4096 sites, 16 policies each).  While no more sites and
    policies were named than that, and in the order of time, what a site
    remembers is the last outcome of each policy there: a failure is excused
    exactly when the last outcome there of some policy, the failing one
    included, is a failure less than an hour old — so that a site that stays
    down costs one penalty in all — and a dial reads exactly the policies
    whose last outcome within the hour worked, and those whose failed. *)
Theorem sites_remember_last_outcomes cs host policy it_worked now :
  bounded (calls cs)
  /\ (in_order cs now -> within_room (cs ++ [(now, Remember host policy it_worked)]) ->
      ((remember host policy it_worked now (calls cs)).1 = true <-> exists p, blames cs host now p)
      /\ (forall p, p ∈ failed (read host now (calls cs)).1 <-> blames cs host now p)
      /\ (forall p, p ∈ worked (read host now (calls cs)).1
            <-> exists at_, last_outcome (reverse cs) host p = Some (true, at_) /\ now - at_ < SITE_MEMORY)).
Proof.
  split; [apply calls_bounded|]. intros Hord Hroom. pose proof (calls_hold cs now Hord (within_room_app _ _ Hroom)) as Hs.
  assert (Hfresh : forall p w at_, last_outcome (reverse cs) host p = Some (w, at_) -> fresh now at_ = true <-> now - at_ < SITE_MEMORY).
  { intros p w at_ Hl. destruct (h_past _ _ _ Hs _ _ _ _ Hl) as [Hle _]. unfold fresh, sat_sub, SITE_MEMORY in *. rewrite Z.ltb_lt. lia. }
  assert (Hread : forall p w, p ∈ ((fun o : Outcome => o.1.1) <$> filter (fun o : Outcome => o.1.2 = w) (filter (fun o : Outcome => fresh now o.2 = true) (outcomes (calls cs) host)))
    <-> exists at_, last_outcome (reverse cs) host p = Some (w, at_) /\ now - at_ < SITE_MEMORY).
  { intros p w. rewrite list_elem_of_fmap. setoid_rewrite list_elem_of_filter. setoid_rewrite list_elem_of_filter. split.
    - intros ([[q it] at_] & -> & Hit & Hf & Hin). simpl in *. subst it. pose proof (outcomes_sound _ _ _ _ _ Hs Hin) as Hl. exists at_.
      split; [done|]. by eapply Hfresh.
    - intros (at_ & Hl & Hlt). exists (p, w, at_). split; [done|]. split; [done|]. apply (Hfresh _ _ _ Hl) in Hlt. split; [done|]. by eapply outcomes_all. }
  split; [|split].
  - destruct (room_to_remember _ _ _ _ _ Hroom) as [Hh Hp]. destruct (remember_gives _ now _ host policy it_worked now Hs ltac:(lia) Hh Hp) as [-> _].
    cbn [fst]. rewrite (remember_tells _ now _ _ _ Hs) by lia. split.
    + intros (p & at_ & Hl & Hf). exists p, at_. split; [done|]. by eapply Hfresh.
    + intros (p & at_ & Hl & Hlt). exists p, at_. split; [done|]. by eapply Hfresh.
  - intros p. specialize (Hread p false). unfold blames. rewrite <- Hread. unfold read, outcomes. by destruct (hosts (calls cs) !! host).
  - intros p. specialize (Hread p true). rewrite <- Hread. unfold read, outcomes. by destruct (hosts (calls cs) !! host).
Qed.

(** ** An hour at one site *)

Lemma size_named {A : Type} (f : A -> option rstr) (l : list A) : (size (list_to_set (omap f l) : gset rstr) <= length l)%nat.
Proof.
  induction l as [|x l IH]; [done|]. cbn [omap list_omap length]. destruct (f x); [|lia]. cbn [list_to_set].
  rewrite size_union_alt. etrans; [apply Nat.add_le_mono_l, subseteq_size, subseteq_difference_l; reflexivity|]. rewrite size_singleton. exact (le_n_S _ _ IH).
Qed.

Lemma few_calls cs : (length cs <= 16)%nat -> within_room cs.
Proof. intros Hl. split; [|intros host]; (etrans; [apply size_named|unfold SITES, POLICIES_PER_SITE; lia]). Qed.

(** One policy fails, another works, the first fails again. *)
Definition sample_calls : list (Z * Call) := [(0, Remember [104] [65] false); (5, Remember [104] [66] true)].

Lemma sites_remember_last_outcomes_witness :
  (remember [104] [65] false 10 (calls sample_calls)).1 = true
  /\ [66] ∈ worked (read [104] 10 (calls sample_calls)).1.
Proof.
  destruct (proj2 (sites_remember_last_outcomes sample_calls [104] [65] false 10)) as (Hexc & _ & Hw).
  - unfold in_order, sample_calls. simpl. repeat (constructor; try lia).
  - apply few_calls. simpl. lia.
  - split; [apply Hexc; exists [65]; exists 0; split; [vm_compute; reflexivity|reflexivity]|].
    apply Hw. exists 5. split; [vm_compute; reflexivity|reflexivity].
Defined.
