(* ===== verification/SmartRank.v ===== *)
(** * How a dial ranks the members of a smart group

    [rank] and [sample] of [crates/rurge-policy/src/smart.rs].  Scores and
    instants are nanoseconds, the products of scores and factors [f64]s.  A
    sort by a tuple sorts by the list of its parts: the tuples end in the
    index, so that no two are equal.  [None] is a panic. *)

From Stdlib Require Import SpecFloat.
From S2P Require Import Prelude F64 SmartSites.

(** What is known of a member. *)
Inductive Health :=
  | Healthy (score : Z)
  | Unknown (failures : Z)
  | Failed (score : option Z).

#[export] Instance Health_eq_dec : EqDecision Health.
Proof. solve_decision. Defined.

Record Candidate := mkCandidate { name : rstr; health : Health; factor : f64 }.

Record Ranking := mkRanking { the_pick : rstr; retry : list rstr }.

#[export] Instance Ranking_eq_dec : EqDecision Ranking.
Proof. solve_decision. Defined.

(** The constants 1.2 and 2.0. *)
Definition PREFERRED : f64 := S754_finite false 5404319552844595 (-52).
Definition SITE_PREFERRED : f64 := S754_finite false 4503599627370496 (-51).
Definition ROUND_SAMPLE : nat := 12.

(** ** Sorting by tuples *)

Fixpoint lex_le (a b : list Z) : bool :=
  match a, b with
  | [], _ => true
  | _ :: _, [] => false
  | x :: a, y :: b => (x <? y) || ((x =? y) && lex_le a b)
  end.

Definition by_key {A : Type} (key : A -> list Z) (x y : A) : Prop := lex_le (key x) (key y) = true.

#[export] Instance by_key_dec {A : Type} (key : A -> list Z) x y : base.Decision (by_key key x y).
Proof. unfold by_key. apply _. Defined.

(** [sort_by_key]. *)
Definition sort_by_key {A : Type} (key : A -> list Z) (l : list A) : list A := merge_sort (by_key key) l.

(** The tuple parts: an index, and an [Option], with [None] first. *)
Definition index (i : nat) : Z := Z.of_nat i.
Definition option_key (o : option Z) : list Z := match o with None => [0] | Some x => [1; x] end.
Definition is_none (o : option Z) : Z := match o with None => 1 | Some _ => 0 end.

(** ** Ranking *)

(** [best * SITE_PREFERRED], [best * PREFERRED]. *)
Definition within (best : f64) (by_ : f64) (score : f64) : bool := f64_le score (f64_mul best by_).

Fixpoint take_while {A : Type} (p : A -> bool) (l : list A) : list A :=
  match l with
  | [] => []
  | x :: l => if p x then x :: take_while p l else []
  end.

Definition is_at (names : list rstr) (candidates : list Candidate) (i : nat) : bool :=
  match candidates !! i with Some c => bool_decide (name c ∈ names) | None => false end.

Definition healthy_score (c : Candidate) : option f64 :=
  match health c with Healthy score => Some (f64_mul (as_secs_f64 score) (factor c)) | _ => None end.

Definition rank (candidates : list Candidate) (site : SiteMemory) (pick_at : nat -> nat) : option (option Ranking) :=
  let enumerated := imap pair candidates in
  let healthy := sort_by_key (fun x : nat * f64 => [f64_key x.2; index x.1])
    (omap (fun ic => score ← healthy_score ic.2; Some (ic.1, score)) enumerated) in
  let unknown := sort_by_key (fun x : nat * Z => [x.2; index x.1])
    (omap (fun ic => match health ic.2 with Unknown failures => Some (ic.1, failures) | _ => None end) enumerated) in
  let failed := sort_by_key (fun x : nat * option Z => is_none x.2 :: option_key x.2 ++ [index x.1])
    (omap (fun ic => match health ic.2 with Failed score => Some (ic.1, score) | _ => None end) enumerated) in
  let failed_here := is_at (SmartSites.failed site) candidates in
  let worked_here := is_at (worked site) candidates in
  let line := (fst <$> healthy) ++ (fst <$> unknown) ++ (fst <$> failed) in
  let order := filter (fun i => failed_here i = false) line ++ filter (fun i => failed_here i = true) line in
  let usable := filter (fun x : nat * f64 => failed_here x.1 = false) healthy in
  let known :=
    '(_, best) ← head healthy;
    x ← head (filter (fun x : nat * f64 => worked_here x.1 && within best SITE_PREFERRED x.2 = true) usable);
    Some x.1 in
  let ranking (pick : nat) : option (option Ranking) :=
    c ← candidates !! pick;
    retry ← mapM (fun i => name <$> candidates !! i) (filter (fun i => i <> pick) order);
    Some (Some (mkRanking (name c) retry)) in
  match known, head usable with
  | Some i, _ => ranking i
  | None, Some (_, best) =>
      let preferred := fst <$> take_while (fun x : nat * f64 => within best PREFERRED x.2) usable in
      i ← preferred !! Nat.min (pick_at (length preferred)) (length preferred - 1);
      ranking i
  | None, None => match head order with Some i => ranking i | None => Some None end
  end.

(** The members a round of tests of a big group takes. *)
Definition sample (members most_used : list rstr) (tested_at : rstr -> option Z) : list rstr :=
  if decide (length members <= ROUND_SAMPLE)%nat then members
  else
    let out := take (ROUND_SAMPLE / 2) (filter (.∈ members) most_used) in
    let rest := omap (fun im : nat * rstr => if decide (im.2 ∈ out) then None else Some (tested_at im.2, im.1)) (imap pair members) in
    let sorted := sort_by_key (fun x : option Z * nat => option_key x.1 ++ [index x.2]) rest in
    out ++ omap (fun x : option Z * nat => members !! x.2) (take (ROUND_SAMPLE - length out) sorted).

(** ** The reference: one line, sorted once *)

Definition class_key (c : Candidate) : list Z :=
  match health c with
  | Healthy score => [0; f64_key (f64_mul (as_secs_f64 score) (factor c))]
  | Unknown failures => [1; failures]
  | Failed score => 2 :: is_none score :: option_key score
  end.

(** Failed at the site, then healthy, unknown or failed, then the score, the
    failures or the score of the failed, then the order of the group. *)
Definition place (cs : list Candidate) (site : SiteMemory) (i : nat) : list Z :=
  (if is_at (SmartSites.failed site) cs i then 1 else 0) :: from_option class_key [] (cs !! i) ++ [index i].

Definition score_at (cs : list Candidate) (i : nat) : option f64 := c ← cs !! i; healthy_score c.

Definition near (cs : list Candidate) (by_ : f64) (best : option f64) (i : nat) : bool :=
  match best, score_at cs i with Some best, Some score => within best by_ score | _, _ => false end.

(** Every member in one line; the pick is the first that worked at the site
    and is within twice the best score, else one of those within 1.2 times
    the best usable score, else the first. *)
Definition rank_ref (cs : list Candidate) (site : SiteMemory) (pick_at : nat -> nat) : option Ranking :=
  let line := sort_by_key (place cs site) (seq 0 (length cs)) in
  let name_at i := from_option name [] (cs !! i) in
  match line with
  | [] => None
  | first :: _ =>
      let usable := filter (fun i => is_Some (score_at cs i) /\ is_at (SmartSites.failed site) cs i = false) line in
      let known := filter (fun i => is_at (worked site) cs i && near cs SITE_PREFERRED (min_by f64_key (omap healthy_score cs)) i = true) usable in
      let preferred := filter (fun i => near cs PREFERRED (head usable ≫= score_at cs) i = true) usable in
      let pick := default (default first (preferred !! Nat.min (pick_at (length preferred)) (length preferred - 1))) (head known) in
      Some (mkRanking (name_at pick) (name_at <$> filter (fun i => i <> pick) line))
  end.

(** ** The order of the tuples *)

Lemma lex_le_app p a b : lex_le (p ++ a) (p ++ b) = lex_le a b.
Proof. induction p as [|x p IH]; [done|]. simpl. by rewrite Z.ltb_irrefl, Z.eqb_refl. Qed.

Lemma lex_le_total a b : lex_le a b = true \/ lex_le b a = true.
Proof.
  revert b. induction a as [|x a IH]; intros [|y b]; simpl; auto. rewrite !orb_true_iff, !andb_true_iff, !Z.ltb_lt, !Z.eqb_eq.
  destruct (Z.lt_trichotomy x y) as [|[<-|]]; [auto| |auto]. destruct (IH b); auto.
Qed.

Lemma lex_le_trans a b c : lex_le a b = true -> lex_le b c = true -> lex_le a c = true.
Proof.
  revert b c. induction a as [|x a IH]; intros [|y b] [|z c]; simpl; try done. rewrite !orb_true_iff, !andb_true_iff, !Z.ltb_lt, !Z.eqb_eq.
  intros [|[-> ?]] [|[-> ?]]; [left; lia..|]. right. split; [done|]. by eapply IH.
Qed.

Lemma lex_le_antisym a b : lex_le a b = true -> lex_le b a = true -> a = b.
Proof.
  revert b. induction a as [|x a IH]; intros [|y b]; simpl; try done. rewrite !orb_true_iff, !andb_true_iff, !Z.ltb_lt, !Z.eqb_eq.
  intros [|[-> ?]] [|[? ?]]; try lia. f_equal. by apply IH.
Qed.

#[export] Instance by_key_total {A : Type} (key : A -> list Z) : Total (by_key key).
Proof. intros x y. apply lex_le_total. Qed.

#[export] Instance by_key_trans {A : Type} (key : A -> list Z) : Transitive (by_key key).
Proof. intros x y z. apply lex_le_trans. Qed.

Lemma sort_by_key_perm {A : Type} (key : A -> list Z) l : sort_by_key key l ≡ₚ l.
Proof. apply merge_sort_Permutation. Qed.

Lemma elem_of_sort {A : Type} (key : A -> list Z) l x : x ∈ sort_by_key key l <-> x ∈ l.
Proof. by rewrite sort_by_key_perm. Qed.

Lemma sort_by_key_sorted {A : Type} (key : A -> list Z) l : StronglySorted (by_key key) (sort_by_key key l).
Proof. apply (StronglySorted_merge_sort _). Qed.

(** A sorted list by distinct keys is the sort of each of its permutations. *)
Lemma sort_by_key_unique {A : Type} (key : A -> list Z) l l' : (forall x y, key x = key y -> x = y) ->
  StronglySorted (by_key key) l -> l ≡ₚ l' -> l = sort_by_key key l'.
Proof.
  intros Hinj Hs Hp. assert (AntiSymm (=) (by_key key)) by (intros x y ? ?; by apply Hinj, lex_le_antisym).
  apply (StronglySorted_unique (by_key key)); [done|apply sort_by_key_sorted|]. by rewrite sort_by_key_perm.
Qed.

(** A sort by the end of a key sorts by the key. *)
Lemma sorted_fmap {A B : Type} (key : A -> list Z) (K : B -> list Z) (f : A -> B) p l :
  (forall x, x ∈ l -> K (f x) = p ++ key x) -> StronglySorted (by_key key) l -> StronglySorted (by_key K) (f <$> l).
Proof.
  intros HK. induction 1 as [|x l Hs IH Hx]; simpl; [constructor|]. constructor.
  - apply IH. intros y Hy. apply HK. by right.
  - rewrite Forall_fmap, Forall_forall in *. intros y Hy. unfold by_key. simpl. rewrite (HK x) by left. rewrite (HK y) by (by right). rewrite lex_le_app. by apply Hx.
Qed.

Lemma sorted_filter {A : Type} (R : A -> A -> Prop) (P : A -> Prop) `{!forall x, base.Decision (P x)} l :
  StronglySorted R l -> StronglySorted R (filter P l).
Proof.
  induction 1 as [|x l Hs IH Hx]; [constructor|]. rewrite filter_cons. case_decide; [|done]. constructor; [done|].
  apply Forall_forall. intros y [_ Hy]%list_elem_of_filter. rewrite Forall_forall in Hx. by apply Hx.
Qed.
