(* ===== verification/SmartPick.v ===== *)
(** * The ranking of a smart group is one line, sorted once

    [rank] of [SmartRank.v] never panics and equals the reference [rank_ref]:
    the members in one line, sorted by one key, and the pick the first of the
    line in the widest band that has any. *)

From Stdlib Require Import SpecFloat.
From S2P Require Import Prelude F64 SmartSites SmartRank.

(** What the parser of the groups lets through: scores are durations, and
    factors finite and above zero. *)
Definition can_rank (c : Candidate) : Prop :=
  factor_ok (factor c) /\ match health c with Healthy score => 0 <= score | _ => True end.

Lemma healthy_score_ok c score : can_rank c -> healthy_score c = Some score -> positive_ok score.
Proof.
  unfold healthy_score. intros [Hf Hh]. destruct (health c); intros [= <-]. apply mul_ok; [|done]. by apply as_secs_ok.
Qed.

(** ** Lists *)

Lemma elem_of_enumerated {A : Type} (l : list A) x : x ∈ imap pair l <-> l !! x.1 = Some x.2.
Proof. rewrite elem_of_lookup_imap. split; [intros (i & y & -> & Hi); exact Hi|intros Hx; exists x.1, x.2; by destruct x]. Qed.

Lemma fst_enumerated {A : Type} (l : list A) : fst <$> imap pair l = seq 0 (length l).
Proof.
  apply list_eq. intros i. rewrite list_lookup_fmap, list_lookup_imap. destruct (l !! i) eqn:Hi; simpl; symmetry.
  - apply lookup_seq. apply lookup_lt_Some in Hi. lia.
  - apply lookup_ge_None. rewrite length_seq. by apply lookup_ge_None in Hi.
Qed.

Lemma filter_fst {A B : Type} (P : A -> Prop) `{!forall x, base.Decision (P x)} (l : list (A * B)) :
  filter P (fst <$> l) = fst <$> filter (fun x : A * B => P x.1) l.
Proof. induction l as [|x l IH]; [done|]. rewrite fmap_cons, !filter_cons. case_decide; [by rewrite IH|done]. Qed.

Lemma filter_weaker {A : Type} (P Q : A -> Prop) `{!forall x, base.Decision (P x), !forall x, base.Decision (Q x)} (l : list A) :
  (forall x, x ∈ l -> P x <-> Q x) -> filter P l = filter Q l.
Proof.
  induction l as [|x l IH]; intros HPQ; [done|]. rewrite !filter_cons. rewrite IH by (intros; apply HPQ; by right).
  specialize (HPQ x ltac:(left)). repeat case_decide; tauto.
Qed.

Lemma take_while_filter {A : Type} (p : A -> bool) (R : A -> A -> Prop) l : StronglySorted R l ->
  (forall x y, x ∈ l -> y ∈ l -> R x y -> p y = true -> p x = true) -> take_while p l = filter (fun x => p x = true) l.
Proof.
  induction 1 as [|x l Hs IH Hx]; intros Hp; [done|]. simpl. rewrite filter_cons. rewrite Forall_forall in Hx. destruct (p x) eqn:Hpx; simpl.
  - f_equal. apply IH. intros y z ? ?. apply Hp; by right.
  - symmetry. apply filter_none, Forall_forall. intros y Hy Hpy. rewrite (Hp x y) in Hpx; [done|left|by right|by apply Hx|done].
Qed.

Lemma mapM_all {A B : Type} (f : A -> option B) (g : A -> B) l : (forall x, x ∈ l -> f x = Some (g x)) -> mapM f l = Some (g <$> l).
Proof. intros Hf. apply mapM_Some_2. induction l as [|x l IH]; constructor; [apply Hf; left|apply IH; intros; apply Hf; by right]. Qed.

(** ** The line *)

Section Line.
Context (cs : list Candidate) (site : SiteMemory).

Definition healthies : list (nat * f64) := omap (fun ic : nat * Candidate => score ← healthy_score ic.2; Some (ic.1, score)) (imap pair cs).
Definition unknowns : list (nat * Z) := omap (fun ic : nat * Candidate => match health ic.2 with Unknown failures => Some (ic.1, failures) | _ => None end) (imap pair cs).
Definition faileds : list (nat * option Z) := omap (fun ic : nat * Candidate => match health ic.2 with Failed score => Some (ic.1, score) | _ => None end) (imap pair cs).

Definition healthy_line : list (nat * f64) := sort_by_key (fun x : nat * f64 => [f64_key x.2; index x.1]) healthies.
Definition the_line : list nat := (fst <$> healthy_line)
  ++ (fst <$> sort_by_key (fun x : nat * Z => [x.2; index x.1]) unknowns)
  ++ (fst <$> sort_by_key (fun x : nat * option Z => is_none x.2 :: option_key x.2 ++ [index x.1]) faileds).

(** Where a member stands but for the site. *)
Definition tail_place (i : nat) : list Z := from_option class_key [] (cs !! i) ++ [index i].

Lemma elem_of_healthies x : x ∈ healthy_line <-> score_at cs x.1 = Some x.2.
Proof.
  unfold healthy_line, healthies. rewrite sort_by_key_perm, list_elem_of_omap. setoid_rewrite elem_of_enumerated. unfold score_at. destruct x as [i s]. simpl. split.
  - intros ([j c] & Hi & Hs). simpl in *. destruct (healthy_score c) eqn:Hc; simplify_eq/=. by rewrite Hi.
  - destruct (cs !! i) as [c|] eqn:Hi; simpl; [|done]. intros Hs. exists (i, c). simpl. by rewrite Hs.
Qed.

Lemma line_perm : the_line ≡ₚ seq 0 (length cs).
Proof.
  unfold the_line, healthy_line. rewrite !sort_by_key_perm, <- (fst_enumerated cs). unfold healthies, unknowns, faileds, healthy_score.
  induction (imap pair cs) as [|[i c] l IH]; [done|]. simpl. rewrite <- IH. destruct (health c); simpl; by rewrite ?Permutation_middle, ?app_assoc.
Qed.

Lemma line_sorted : StronglySorted (by_key tail_place) the_line.
Proof.
  assert (HH : forall x, x ∈ healthies -> tail_place x.1 = [0] ++ [f64_key x.2; index x.1]).
  { intros [i s] ([j c] & Hi%elem_of_enumerated & Hs)%list_elem_of_omap. simpl in *. unfold healthy_score in Hs. destruct (health c) eqn:Hc; simplify_eq/=.
    unfold tail_place. rewrite Hi. simpl. unfold class_key. by rewrite Hc. }
  assert (HU : forall x, x ∈ unknowns -> tail_place x.1 = [1] ++ [x.2; index x.1]).
  { intros [i s] ([j c] & Hi%elem_of_enumerated & Hs)%list_elem_of_omap. simpl in *. destruct (health c) eqn:Hc; simplify_eq/=.
    unfold tail_place. rewrite Hi. simpl. unfold class_key. by rewrite Hc. }
  assert (HF : forall x, x ∈ faileds -> tail_place x.1 = [2] ++ is_none x.2 :: option_key x.2 ++ [index x.1]).
  { intros [i s] ([j c] & Hi%elem_of_enumerated & Hs)%list_elem_of_omap. simpl in *. destruct (health c) eqn:Hc; simplify_eq/=.
    unfold tail_place. rewrite Hi. simpl. unfold class_key. by rewrite Hc. }
  unfold the_line, healthy_line. repeat apply StronglySorted_app_2; try (eapply sorted_fmap; [|apply sort_by_key_sorted]; intros x Hx%elem_of_sort; eauto).
  - intros ? ? (x & -> & Hx%elem_of_sort)%list_elem_of_fmap [(y & -> & Hy%elem_of_sort)%list_elem_of_fmap|(y & -> & Hy%elem_of_sort)%list_elem_of_fmap]%elem_of_app; unfold by_key.
    + by rewrite (HH _ Hx), (HU _ Hy).
    + by rewrite (HH _ Hx), (HF _ Hy).
  - intros ? ? (x & -> & Hx%elem_of_sort)%list_elem_of_fmap (y & -> & Hy%elem_of_sort)%list_elem_of_fmap. unfold by_key. by rewrite (HU _ Hx), (HF _ Hy).
Qed.

Definition failed_here (i : nat) : bool := is_at (SmartSites.failed site) cs i.
Definition the_order : list nat := filter (fun i => failed_here i = false) the_line ++ filter (fun i => failed_here i = true) the_line.

Lemma order_perm : the_order ≡ₚ the_line.
Proof.
  unfold the_order. induction the_line as [|i l IH]; [done|]. rewrite !filter_cons. destruct (failed_here i); simpl; [by rewrite <- Permutation_middle, IH|by rewrite IH].
Qed.

Lemma order_ref : the_order = sort_by_key (place cs site) (seq 0 (length cs)).
Proof.
  apply sort_by_key_unique.
  - intros i j. unfold place. intros Hij. assert (Hl : last (from_option class_key [] (cs !! i) ++ [index i]) = last (from_option class_key [] (cs !! j) ++ [index j])) by congruence.
    rewrite !last_snoc in Hl. unfold index in Hl. injection Hl. lia.
  - unfold the_order. apply StronglySorted_app_2.
    + intros i j [Hi _]%list_elem_of_filter [Hj _]%list_elem_of_filter. unfold by_key, place. fold (failed_here i) (failed_here j). by rewrite Hi, Hj.
    + rewrite <- (list_fmap_id (filter _ the_line)). eapply (sorted_fmap tail_place); [|apply sorted_filter, line_sorted].
      intros i [Hf _]%list_elem_of_filter. unfold id, place. fold (failed_here i). rewrite Hf. exact (eq_refl ([_] ++ tail_place i)).
    + rewrite <- (list_fmap_id (filter _ the_line)). eapply (sorted_fmap tail_place); [|apply sorted_filter, line_sorted].
      intros i [Hf _]%list_elem_of_filter. unfold id, place. fold (failed_here i). rewrite Hf. exact (eq_refl ([_] ++ tail_place i)).
  - by rewrite order_perm, line_perm.
Qed.

Definition usable : list (nat * f64) := filter (fun x : nat * f64 => failed_here x.1 = false) healthy_line.

Lemma not_healthy {A : Type} (f : nat * Candidate -> option (nat * A)) (key : nat * A -> list Z) i :
  (forall ic, fst <$> f ic = None \/ (fst <$> f ic = Some ic.1 /\ healthy_score ic.2 = None)) ->
  i ∈ fst <$> sort_by_key key (omap f (imap pair cs)) -> score_at cs i = None.
Proof.
  intros Hf ([j s] & -> & (ic & Hic%elem_of_enumerated & Hs)%elem_of_sort%list_elem_of_omap)%list_elem_of_fmap.
  destruct (Hf ic) as [Hn|[Hn Hh]]; rewrite Hs in Hn; simplify_eq/=. unfold score_at. by rewrite Hic.
Qed.

Lemma usable_ref : fst <$> usable = filter (fun i => is_Some (score_at cs i) /\ is_at (SmartSites.failed site) cs i = false) the_order.
Proof.
  unfold the_order. rewrite filter_app. rewrite (filter_none _ (filter (fun i => failed_here i = true) _)), app_nil_r.
  2: { apply Forall_forall. intros i [Hf _]%list_elem_of_filter [_ Hf']. unfold failed_here in Hf. congruence. }
  rewrite list_filter_filter. unfold the_line. rewrite !filter_app, !(filter_none _ (fst <$> sort_by_key _ _)), !app_nil_r.
  - rewrite filter_fst. unfold usable. f_equal. apply filter_weaker. intros x Hx. unfold failed_here.
    split; [|tauto]. intros Hf. split; [|done]. split; [|done]. apply elem_of_healthies in Hx. by rewrite Hx.
  - apply Forall_forall. intros i Hi [[[s Hs] _] _]. eapply (not_healthy _ _ _) in Hi; [congruence|]. intros [j c]. unfold healthy_score. simpl. destruct (health c); auto.
  - apply Forall_forall. intros i Hi [[[s Hs] _] _]. eapply (not_healthy _ _ _) in Hi; [congruence|]. intros [j c]. unfold healthy_score. simpl. destruct (health c); auto.
Qed.

Context (Hcs : Forall can_rank cs).

Lemma score_ok i s : score_at cs i = Some s -> positive_ok s.
Proof.
  unfold score_at. destruct (cs !! i) as [c|] eqn:Hi; simpl; [|done]. rewrite Forall_lookup in Hcs. intros Hs. eapply healthy_score_ok, Hs. by eapply Hcs.
Qed.

Lemma healthy_sorted : StronglySorted (fun x y : nat * f64 => f64_key x.2 <= f64_key y.2) healthy_line.
Proof.
  pose proof (sort_by_key_sorted (fun x : nat * f64 => [f64_key x.2; index x.1]) healthies) as Hs. fold healthy_line in Hs.
  induction Hs as [|x l Hs IH Hx]; constructor; [done|]. eapply Forall_impl; [exact Hx|]. intros y. unfold by_key. simpl. lia.
Qed.

(** The head of the healthy has the best score of all. *)
Lemma best_score : min_by f64_key (omap healthy_score cs) = snd <$> head healthy_line.
Proof.
  assert (Hin : forall s, s ∈ omap healthy_score cs <-> exists i, (i, s) ∈ healthy_line).
  { intros s. rewrite list_elem_of_omap. setoid_rewrite elem_of_healthies. unfold score_at. simpl. split.
    - intros (c & [i Hi]%list_elem_of_lookup & Hs). exists i. by rewrite Hi.
    - intros (i & Hs). destruct (cs !! i) as [c|] eqn:Hi; [|done]. exists c. split; [by eapply list_elem_of_lookup_2|done]. }
  pose proof (min_by_spec f64_key (omap healthy_score cs)) as Hmin. pose proof healthy_sorted as Hs. destruct healthy_line as [|[i s] l] eqn:Hl; simpl.
  - destruct (min_by _ _); [|done]. destruct Hmin as [Hm _]. apply Hin in Hm as (i & Hi). by apply elem_of_nil in Hi.
  - destruct (min_by _ _) as [m|]; [|exfalso; assert (s ∈ omap healthy_score cs) as Hx by (apply Hin; exists i; left); rewrite Hmin in Hx; by apply elem_of_nil in Hx].
    destruct Hmin as [Hm Hle]. f_equal. pose proof (proj1 (Hin m) Hm) as (j & Hj). apply StronglySorted_inv in Hs as [_ Hall]. rewrite Forall_forall in Hall.
    assert (Hok : forall k t, (k, t) ∈ (i, s) :: l -> positive_ok t) by (intros k t Ht; rewrite <- Hl in Ht; apply elem_of_healthies in Ht; by eapply score_ok).
    apply f64_key_inj; [by eapply Hok|eapply (Hok i); left|]. apply Z.le_antisymm; [apply Hle, Hin; exists i; left|].
    apply elem_of_cons in Hj as [[= -> ->]|Hj]; [done|]. exact (Hall _ Hj).
Qed.

Lemma usable_score x : x ∈ usable -> score_at cs x.1 = Some x.2.
Proof. intros [_ Hx]%list_elem_of_filter. by apply elem_of_healthies. Qed.

Lemma near_usable by_ best x : x ∈ usable -> near cs by_ (Some best) x.1 = within best by_ x.2.
Proof. intros Hx. unfold near. by rewrite (usable_score _ Hx). Qed.

Lemma known_ref :
  ('(_, best) ← head healthy_line;
   x ← head (filter (fun x : nat * f64 => is_at (worked site) cs x.1 && within best SITE_PREFERRED x.2 = true) usable);
   Some x.1)
  = head (filter (fun i => is_at (worked site) cs i && near cs SITE_PREFERRED (min_by f64_key (omap healthy_score cs)) i = true) (fst <$> usable)).
Proof.
  rewrite best_score, filter_fst. unfold usable. destruct healthy_line as [|[b best] l] eqn:Hl; [done|]. cbn [head fmap option_fmap option_map snd mbind option_bind].
  rewrite <- Hl. fold usable.
  rewrite (filter_weaker _ (fun x : nat * f64 => is_at (worked site) cs x.1 && near cs SITE_PREFERRED (Some best) x.1 = true) usable); [by destruct (filter _ usable)|].
  intros x Hx. cbn beta. by rewrite (near_usable _ _ _ Hx).
Qed.

Lemma PREFERRED_grows x : positive_ok x -> f64_le x (f64_mul x PREFERRED) = true.
Proof. intros Hx. by apply mul_grows. Qed.

Lemma preferred_ref b best us : usable = (b, best) :: us ->
  fst <$> take_while (fun x : nat * f64 => within best PREFERRED x.2) usable
  = filter (fun i => near cs PREFERRED (head (fst <$> usable) ≫= score_at cs) i = true) (fst <$> usable).
Proof.
  intros Hu. assert (Hb : head (fst <$> usable) ≫= score_at cs = Some best) by (rewrite Hu; apply (usable_score (b, best)); rewrite Hu; left).
  rewrite Hb, filter_fst. rewrite (take_while_filter _ (fun x y : nat * f64 => f64_key x.2 <= f64_key y.2)).
  - f_equal. apply filter_weaker. intros x Hx. by rewrite (near_usable _ _ _ Hx).
  - apply sorted_filter, healthy_sorted.
  - assert (Hbest : positive_ok (f64_mul best PREFERRED)).
    { apply mul_ok; [|done]. apply (score_ok b), (usable_score (b, best)). rewrite Hu. left. }
    intros x y Hx Hy Hle. unfold within. pose proof (score_ok _ _ (usable_score _ Hx)). pose proof (score_ok _ _ (usable_score _ Hy)).
    rewrite !f64_le_key, !Z.leb_le by done. lia.
Qed.

Lemma preferred_some b best us k : usable = (b, best) :: us ->
  let preferred := fst <$> take_while (fun x : nat * f64 => within best PREFERRED x.2) usable in
  is_Some (preferred !! Nat.min k (length preferred - 1)).
Proof.
  intros Hu preferred. apply lookup_lt_is_Some. assert (0 < length preferred)%nat; [|lia]. unfold preferred. rewrite Hu. cbn [take_while snd].
  unfold within at 1. rewrite PREFERRED_grows; [simpl; lia|]. apply (score_ok b), (usable_score (b, best)). rewrite Hu. left.
Qed.

(** What [rank] ends with once it has the pick. *)
Definition ranking (pick : nat) : option (option Ranking) :=
  c ← cs !! pick;
  retry ← mapM (fun i => name <$> cs !! i) (filter (fun i => i <> pick) the_order);
  Some (Some (mkRanking (name c) retry)).

Definition name_at (i : nat) : rstr := from_option name [] (cs !! i).

Lemma order_range i : i ∈ the_order -> exists c, cs !! i = Some c.
Proof. rewrite order_perm, line_perm, elem_of_seq. intros Hi. apply lookup_lt_is_Some. lia. Qed.

Lemma ranking_ref pick : pick ∈ the_order ->
  ranking pick = Some (Some (mkRanking (name_at pick) (name_at <$> filter (fun i => i <> pick) the_order))).
Proof.
  intros Hp. unfold ranking. rewrite (mapM_all _ name_at).
  - unfold name_at at 2. destruct (order_range _ Hp) as [c ->]. done.
  - intros i [_ Hi]%list_elem_of_filter. unfold name_at. by destruct (order_range _ Hi) as [c ->].
Qed.

Lemma usable_in_order x : x ∈ usable -> x.1 ∈ the_order.
Proof.
  intros Hx. assert (Hin : x.1 ∈ fst <$> usable) by (apply list_elem_of_fmap; eauto). rewrite usable_ref in Hin. by apply list_elem_of_filter in Hin as [_ Hin].
Qed.
End Line.

Definition unfold_rank (cs : list Candidate) (site : SiteMemory) (pick_at : nat -> nat) :
  rank cs site pick_at =
  match (('(_, best) ← head (healthy_line cs);
     x ← head (filter (fun x : nat * f64 => is_at (worked site) cs x.1 && within best SITE_PREFERRED x.2 = true) (usable cs site));
     Some x.1) : option nat), head (usable cs site) with
  | Some i, _ => ranking cs site i
  | None, Some (_, best) =>
      let preferred := fst <$> take_while (fun x : nat * f64 => within best PREFERRED x.2) (usable cs site) in
      i ← preferred !! Nat.min (pick_at (length preferred)) (length preferred - 1);
      ranking cs site i
  | None, None => match head (the_order cs site) with Some i => ranking cs site i | None => Some None end
  end := eq_refl.

Lemma remove_perm (i : nat) l : NoDup l -> i ∈ l -> i :: filter (fun j => j <> i) l ≡ₚ l.
Proof.
  induction 1 as [|j l Hj Hn IH]; intros Hi; [by apply elem_of_nil in Hi|]. rewrite filter_cons. case_decide as Hji.
  - apply elem_of_cons in Hi as [->|Hi]; [done|]. rewrite Permutation_swap. f_equiv. by apply IH.
  - assert (j = i) as -> by (destruct (decide (j = i)); tauto). f_equiv. rewrite filter_all; [done|]. apply Forall_forall. by intros k Hk ->.
Qed.

Lemma names_perm cs site pick : pick ∈ the_order cs site -> name_at cs pick :: (name_at cs <$> filter (fun i => i <> pick) (the_order cs site)) ≡ₚ name <$> cs.
Proof.
  intros Hp. assert (Hperm : the_order cs site ≡ₚ seq 0 (length cs)) by (by rewrite order_perm, line_perm).
  assert (Hn : NoDup (the_order cs site)) by (rewrite Hperm; apply NoDup_seq). rewrite <- fmap_cons, (remove_perm _ _ Hn Hp), Hperm.
  replace (name_at cs <$> seq 0 (length cs)) with (name <$> cs); [done|]. apply list_eq. intros i. rewrite !list_lookup_fmap. destruct (cs !! i) as [c|] eqn:Hi.
  - rewrite lookup_seq_lt by (by apply lookup_lt_Some in Hi). simpl. unfold name_at. by rewrite Hi.
  - rewrite lookup_seq_ge; [done|]. by apply lookup_ge_None.
Qed.

(** The reference, with its choice named. *)
Definition chosen (cs : list Candidate) (site : SiteMemory) (pick_at : nat -> nat) (first : nat) : nat :=
  let preferred := filter (fun i => near cs PREFERRED (head (fst <$> usable cs site) ≫= score_at cs) i = true) (fst <$> usable cs site) in
  default (default first (preferred !! Nat.min (pick_at (length preferred)) (length preferred - 1)))
    (head (filter (fun i => is_at (worked site) cs i && near cs SITE_PREFERRED (min_by f64_key (omap healthy_score cs)) i = true) (fst <$> usable cs site))).

Lemma rank_ref_chosen cs site pick_at : rank_ref cs site pick_at =
  match head (the_order cs site) with
  | None => None
  | Some first => let pick := chosen cs site pick_at first in
      Some (mkRanking (name_at cs pick) (name_at cs <$> filter (fun i => i <> pick) (the_order cs site)))
  end.
Proof. unfold rank_ref, chosen. rewrite <- order_ref, usable_ref. by destruct (the_order cs site). Qed.

Lemma rank_chooses cs site pick_at first : Forall can_rank cs -> head (the_order cs site) = Some first ->
  rank cs site pick_at = ranking cs site (chosen cs site pick_at first) /\ chosen cs site pick_at first ∈ the_order cs site.
Proof.
  intros Hcs Hf. rewrite unfold_rank, known_ref, Hf by done. unfold chosen. set (known := filter (fun i => is_at (worked site) cs i && _ = true) _).
  assert (Hk : forall i, i ∈ fst <$> usable cs site -> i ∈ the_order cs site) by (intros i (x & -> & Hx)%list_elem_of_fmap; by apply usable_in_order).
  destruct (head known) as [i|] eqn:Hkn; cbn [default from_option id].
  - split; [done|]. apply Hk. subst known. destruct (filter _ _) as [|j l] eqn:Hl; [done|]. injection Hkn as ->.
    assert (Hi : i ∈ i :: l) by left. rewrite <- Hl in Hi. by apply list_elem_of_filter in Hi as [_ Hi].
  - destruct (usable cs site) as [|[b best] us] eqn:Hu.
    + simpl. split; [done|]. destruct (the_order cs site); simplify_eq/=. left.
    + cbn [head]. rewrite <- Hu. pose proof (preferred_ref cs site Hcs b best us Hu) as Hpref. cbn zeta. rewrite Hpref.
      destruct (preferred_some cs site Hcs b best us (pick_at (length (fst <$> take_while (fun x : nat * f64 => within best PREFERRED x.2) (usable cs site)))) Hu) as [i Hi].
      rewrite Hpref in Hi. rewrite Hi. cbn [mbind option_bind default from_option id]. split; [done|]. apply Hk. rewrite <- Hu.
      apply list_elem_of_lookup_2 in Hi. by apply list_elem_of_filter in Hi as [_ Hi].
Qed.

Lemma rank_total cs site pick_at : Forall can_rank cs -> rank cs site pick_at = Some (rank_ref cs site pick_at).
Proof.
  intros Hcs. rewrite rank_ref_chosen. destruct (head (the_order cs site)) as [first|] eqn:Hf.
  - destruct (rank_chooses cs site pick_at first Hcs Hf) as [-> Hin]. by rewrite ranking_ref.
  - assert (Hc : length (the_order cs site) = length cs) by (by rewrite order_perm, line_perm, length_seq). destruct (the_order cs site); [|done].
    by destruct cs.
Qed.

(** C20: a dial's ranking of the members of a smart group never panics — the
    best usable member is always in the band the random pick is from — and is
    the reference: the members stand in one line, sorted once — those that
    failed at the site last of all, else the healthy by score, the unknown by
    failures, the failed with those that have a score first — and the pick is
    the first that worked at the site within twice the best score, else one of
    the usable within 1.2 times the best usable, else the first in line.  The
    pick and the others to try are the group's members, each once. *)
Theorem ranking_is_one_line cs site pick_at : Forall can_rank cs ->
  rank cs site pick_at = Some (rank_ref cs site pick_at)
  /\ match rank_ref cs site pick_at with
     | Some r => the_pick r :: retry r ≡ₚ name <$> cs
     | None => cs = []
     end.
Proof.
  intros Hcs. split; [by apply rank_total|]. rewrite rank_ref_chosen. destruct (head (the_order cs site)) as [first|] eqn:Hf.
  - destruct (rank_chooses cs site pick_at first Hcs Hf) as [_ Hin]. cbn [the_pick retry]. by apply names_perm.
  - assert (Hc : length (the_order cs site) = length cs) by (by rewrite order_perm, line_perm, length_seq). destruct (the_order cs site); [|done].
    by destruct cs.
Qed.

(** One member failed at the site; of the two others the slower worked there. *)
Definition sample_members : list Candidate :=
  let one := S754_finite false 4503599627370496 (-52) in
  [mkCandidate [65] (Healthy 100000000) one; mkCandidate [66] (Failed None) one; mkCandidate [67] (Healthy 150000000) one; mkCandidate [68] (Healthy 50000000) one].

Lemma ranking_is_one_line_witness :
  rank sample_members (mkMemory [[67]] [[68]]) (fun _ => 7%nat) = Some (Some (mkRanking [65] [[67]; [66]; [68]]))
  /\ the_pick (mkRanking [65] [[67]; [66]; [68]]) :: [[67]; [66]; [68]] ≡ₚ name <$> sample_members.
Proof.
  assert (Hc : Forall can_rank sample_members) by (repeat constructor; vm_compute; congruence).
  destruct (ranking_is_one_line sample_members (mkMemory [[67]] [[68]]) (fun _ => 7%nat) Hc) as [Heq Hp].
  assert (Hv : rank_ref sample_members (mkMemory [[67]] [[68]]) (fun _ => 7%nat) = Some (mkRanking [65] [[67]; [66]; [68]])) by (vm_compute; reflexivity).
  rewrite Hv in Heq, Hp. split; [exact Heq|exact Hp].
Defined.
