(* ===== verification/SmartBook.v ===== *)
(** * What the smart groups know of their members

    [Record], [Usage] and [SmartBook] of [crates/rurge-policy/src/smart.rs]:
    the score of a policy from its samples and penalties, which fade, its run
    of failures, the uses of a group's members a minute a bucket.  An outbound
    is what its address is: a value compared by equality.  [f64::exp2], whose
    precision is the platform's, is an argument.  [None] is the panic of
    [Duration::from_secs_f64]: for the first 2^32 calls, of latencies below 2^28
    seconds, it is not met ([call_fits]), since sums and penalties stay bounded.  A
    count of uses stays below 2^32. *)

From Stdlib Require Import SpecFloat.
From S2P Require Import Prelude F64 F64Bounds SmartSites SmartRank.

Definition MILLISECOND : Z := 1000000.
Definition HALF_LIFE : Z := 5 * 60 * SECOND.
Definition PENALTY : Z := 800 * MILLISECOND.
Definition FAILED_SCORE : Z := 3000 * MILLISECOND.
Definition FAILED_IN_A_ROW : Z := 3.

Definition f64_zero : f64 := S754_zero false.
Definition f64_one : f64 := f64_of 1.

(** [Duration::as_secs_f64] times 1000. *)
Definition millis (d : Z) : f64 := f64_mul (as_secs_f64 d) (f64_of 1000).

Record Record_ {O : Type} := mkRecord {
  outbound : O;
  sum : f64;
  weight : f64;
  sampled : option Z;
  penalty : f64;
  penalized : option Z;
  failures : Z;
  reported : bool;
}.
Arguments Record_ : clear implicits.
Arguments mkRecord {O} outbound sum weight sampled penalty penalized failures reported.

Definition new_record {O : Type} (outbound : O) : Record_ O :=
  mkRecord outbound f64_zero f64_zero None f64_zero None 0 false.

(** ** Usage *)

(** The buckets, oldest first: when each starts and its counts. *)
Definition Usage : Type := list (Z * gmap rstr Z).

(** A bucket for the minute that begins. *)
Definition with_bucket (now : Z) (u : Usage) : Usage :=
  let due := match last u with Some b => USAGE_BUCKET <=? sat_sub now b.1 | None => true end in
  if due then u ++ [(now, ∅)] else u.

Definition usage_add (member : rstr) (now : Z) (u : Usage) : Usage :=
  let u := with_bucket now (drop_while (fun b : Z * gmap rstr Z => USAGE_WINDOW <=? sat_sub now b.1) u) in
  match last u with
  | Some (start, bucket) => removelast u ++ [(start, <[member := default 0 (bucket !! member) + 1]> bucket)]
  | None => u
  end.

Definition usage_count (member : rstr) (now : Z) (u : Usage) : Z :=
  foldr Z.add 0 (omap (fun b : Z * gmap rstr Z => b.2 !! member) (filter (fun b : Z * gmap rstr Z => (sat_sub now b.1 <? USAGE_WINDOW) = true) u)).

(** ** The book *)

Record SmartBook {O : Type} := mkBook { records : gmap rstr (Record_ O); sites : Sites; usage : gmap rstr Usage }.
Arguments SmartBook : clear implicits.
Arguments mkBook {O} records sites usage.

Definition new_book {O : Type} : SmartBook O := mkBook ∅ new_sites ∅.

Section Book.
Context {O : Type} `{!EqDecision O} (exp2 : f64 -> f64).

(** How much of what was known at [since] still counts. *)
Definition fade (since now : Z) : f64 := exp2 (f64_div (f64_neg (as_secs_f64 (sat_sub now since))) (as_secs_f64 HALF_LIFE)).

Definition record_sample (ms : f64) (now : Z) (r : Record_ O) : Record_ O :=
  let '(sum, weight) := match sampled r with
    | Some at_ => let f := fade at_ now in (f64_mul (sum r) f, f64_mul (weight r) f)
    | None => (sum r, weight r)
    end in
  mkRecord (outbound r) (f64_add sum ms) (f64_add weight f64_one) (Some now) (penalty r) (penalized r) 0 (reported r).

Definition penalty_at (now : Z) (r : Record_ O) : f64 :=
  match penalized r with Some at_ => f64_mul (penalty r) (fade at_ now) | None => f64_zero end.

Definition record_failure (now : Z) (r : Record_ O) : Record_ O :=
  mkRecord (outbound r) (sum r) (weight r) (sampled r) (f64_add (penalty_at now r) (millis PENALTY)) (Some now)
    (Z.min u32_max (failures r + 1)) (reported r).

Definition record_health (now : Z) (r : Record_ O) : option Health :=
  score ← (if f64_lt f64_zero (weight r)
    then Some <$> from_secs_f64 (f64_div (f64_add (f64_div (sum r) (weight r)) (penalty_at now r)) (f64_of 1000))
    else Some None : option (option Z));
  Some (if (FAILED_IN_A_ROW <=? failures r) || match score with Some s => FAILED_SCORE <=? s | None => false end then Failed score
        else match score with Some s => Healthy s | None => Unknown (failures r) end).

Definition is_failed (h : Health) : bool := match h with Failed _ => true | _ => false end.

(** A record about another outbound starts over. *)
Definition record_of (records : gmap rstr (Record_ O)) (policy : rstr) (o : O) : Record_ O :=
  match records !! policy with
  | Some r => if decide (outbound r = o) then r else new_record o
  | None => new_record o
  end.

Definition set_reported (by_session : bool) (r : Record_ O) : Record_ O :=
  mkRecord (outbound r) (sum r) (weight r) (sampled r) (penalty r) (penalized r) (failures r) (reported r || by_session).

(** [SmartBook::change]: the book and what is said of a flip. *)
Definition change (policy : rstr) (o : O) (now : Z) (by_session : bool) (f : Record_ O -> Record_ O) (b : SmartBook O) :
    option (option bool * SmartBook O) :=
  let r := set_reported by_session (record_of (records b) policy o) in
  was ← (is_failed <$> record_health now r);
  let r := f r in
  is_ ← (is_failed <$> record_health now r);
  Some (if xorb was is_ && reported r then Some is_ else None, mkBook (<[policy := r]> (records b)) (sites b) (usage b)).

Definition book_sample (policy : rstr) (o : O) (latency now : Z) (b : SmartBook O) : option (SmartBook O) :=
  snd <$> change policy o now false (record_sample (millis latency) now) b.

Definition book_failure (policy : rstr) (o : O) (now : Z) (b : SmartBook O) : option (SmartBook O) :=
  snd <$> change policy o now false (record_failure now) b.

Definition book_health (policy : rstr) (o : O) (now : Z) (b : SmartBook O) : option Health :=
  match records b !! policy with
  | Some r => if decide (outbound r = o) then record_health now r else Some (Unknown 0)
  | None => Some (Unknown 0)
  end.

Definition set_sites (b : SmartBook O) (s : Sites) : SmartBook O := mkBook (records b) s (usage b).

Definition report_success (policy : rstr) (o : O) (host : option rstr) (latency now : Z) (b : SmartBook O) : option (SmartBook O) :=
  b ← (snd <$> change policy o now true (record_sample (millis latency) now) b);
  Some (match host with Some host => set_sites b (remember host policy true now (sites b)).2 | None => b end).

Definition report_failure (policy : rstr) (o : O) (host : option rstr) (now : Z) (b : SmartBook O) : option (SmartBook O) :=
  let '(excused, b) := match host with
    | Some host => let '(excused, s) := remember host policy false now (sites b) in (excused, set_sites b s)
    | None => (false, b)
    end in
  if excused : bool then Some b else snd <$> change policy o now true (record_failure now) b.

(** [SmartBook::site], [used], [most_used], [retain]. *)
Definition book_site (host : rstr) (now : Z) (b : SmartBook O) : SiteMemory * SmartBook O :=
  let '(m, s) := read host now (sites b) in (m, set_sites b s).

Definition book_used (group member : rstr) (now : Z) (b : SmartBook O) : SmartBook O :=
  mkBook (records b) (sites b) (<[group := usage_add member now (default [] (usage b !! group))]> (usage b)).

Definition most_used (group : rstr) (members : list rstr) (now : Z) (b : SmartBook O) : list rstr :=
  match usage b !! group with
  | None => []
  | Some u =>
      let used := filter (fun x : Z * nat => (0 <? x.1) = true) (imap (fun i m => (usage_count m now u, i)) members) in
      omap (fun x : Z * nat => members !! x.2) (sort_by_key (fun x : Z * nat => [- x.1; index x.2]) used)
  end.

Definition retain (keep : rstr -> bool) (b : SmartBook O) : SmartBook O :=
  mkBook (filter (fun p : rstr * Record_ O => keep p.1 = true) (records b)) (retain_sites keep (sites b))
    (filter (fun p : rstr * Usage => keep p.1 = true) (usage b)).

(** [TestSink::tested]: a pass is a sample, a failure a failure. *)
Definition tested (policy : rstr) (o : O) (outcome : option Z) (at_ : Z) (b : SmartBook O) : option (SmartBook O) :=
  match outcome with Some score => book_sample policy o score at_ b | None => book_failure policy o at_ b end.
End Book.

(** ** What failures cost, and what the counts of uses hold
    Of [SmartBook.v]: a site that stays down costs one penalty in all, and the
    uses counted are those of the last ten minutes, but for the minute of a
    bucket. *)

(** *** A site that stays down *)

(** The last outcome at [host] is a failure at [t]. *)
Definition down (host : rstr) (t : Z) (s : Sites) : Prop :=
  exists site ps policy, hosts s !! host = Some site /\ policies site = ps ++ [(policy, false, t)].

Lemma remember_down host policy now s : down host now (remember host policy false now s).2.
Proof.
  unfold remember. cbn [snd]. set (site := default _ _). case_decide as Hlen.
  - set (l := filter _ (policies site)) in *. destruct l as [|o l]; [unfold POLICIES_PER_SITE in Hlen; simpl in Hlen; lia|].
    exists (mkSite (clock s + 1) (l ++ [(policy, false, now)])), l, policy. simpl. by rewrite lookup_insert_eq.
  - eexists _, (filter _ (policies site)), policy. cbn [hosts policies]. by rewrite lookup_insert_eq.
Qed.

Lemma remember_excuses host policy now t s : down host t s -> now - t < SITE_MEMORY -> (remember host policy false now s).1 = true.
Proof.
  intros (site & ps & q & Hs & Hps) Hlt. unfold remember. cbn [fst]. unfold make_room. rewrite Hs, Hs. cbn [default from_option id]. rewrite Hps.
  apply existsb_exists. exists (q, false, t). split; [apply in_app_iff; right; by left|]. simpl. unfold fresh, sat_sub. unfold SITE_MEMORY in *. lia.
Qed.

Section Down.
Context {O : Type} `{!EqDecision O} (exp2 : f64 -> f64).

(** Failures at one site, each less than an hour after the one before. *)
Fixpoint report_all (host : rstr) (reports : list (rstr * O * Z)) (b : SmartBook O) : option (SmartBook O) :=
  match reports with
  | [] => Some b
  | (policy, o, now) :: reports => b ← report_failure exp2 policy o (Some host) now b; report_all host reports b
  end.

Fixpoint within_the_hour (t : Z) (reports : list (rstr * O * Z)) : Prop :=
  match reports with
  | [] => True
  | (_, _, now) :: reports => now - t < SITE_MEMORY /\ within_the_hour now reports
  end.

Lemma change_keeps policy o now by_session f (b b' : SmartBook O) said : change exp2 policy o now by_session f b = Some (said, b') ->
  sites b' = sites b /\ usage b' = usage b /\ records b' = <[policy := f (set_reported by_session (record_of (records b) policy o))]> (records b).
Proof. unfold change. intros Hc. inv_option. by simplify_eq/=. Qed.

Lemma report_failure_down policy o host now (b b' : SmartBook O) : report_failure exp2 policy o (Some host) now b = Some b' -> down host now (sites b').
Proof.
  unfold report_failure. pose proof (remember_down host policy now (sites b)) as Hd. destruct (remember host policy false now (sites b)) as [excused s].
  destruct excused; [by intros [= <-]|]. intros Hr. apply fmap_Some in Hr as ([said b1] & Hc & ->). apply change_keeps in Hc as (Hs & _). simpl in *. by rewrite Hs.
Qed.

Lemma report_excused policy o host now t (b : SmartBook O) : down host t (sites b) -> now - t < SITE_MEMORY ->
  exists s, report_failure exp2 policy o (Some host) now b = Some (set_sites b s) /\ down host now s.
Proof.
  intros Hd Hlt. unfold report_failure. pose proof (remember_down host policy now (sites b)) as Hd'. pose proof (remember_excuses host policy now t _ Hd Hlt) as He.
  destruct (remember host policy false now (sites b)) as [excused s]. simpl in *. subst. by exists s.
Qed.

End Down.

(** Three sessions fail at one site, through two policies, half an hour apart. *)
Definition three_failures : list (rstr * Z * Z) := [([66], 2, 1800 * SECOND); ([65], 1, 3600 * SECOND); ([66], 2, 5400 * SECOND)].


(** *** The uses counted *)

(** Uses, a member at an instant each. *)
Abbreviation Use := (rstr * Z)%type.

Definition uses_of (uses : list Use) : Usage := foldl (fun u x => usage_add x.1 x.2 u) [] uses.

Definition in_time (uses : list Use) (now : Z) : Prop := StronglySorted Z.le ((snd <$> uses) ++ [now]).

(** The uses of a member whose instant satisfies [p]. *)
Definition how_many (member : rstr) (p : Z -> bool) (uses : list Use) : Z :=
  Z.of_nat (length (filter (fun x : Use => x.1 = member /\ p x.2 = true) uses)).

(** A bucket with the uses it counts. *)
Abbreviation Group := (Z * list Use)%type.

Definition counts (m : gmap rstr Z) (uses : list Use) : Prop := forall member, default 0 (m !! member) = how_many member (fun _ => true) uses.

Definition group_ok (b : Z * gmap rstr Z) (g : Group) : Prop :=
  b.1 = g.1 /\ counts b.2 g.2 /\ Forall (fun x : Use => g.1 <= x.2 < g.1 + USAGE_BUCKET) g.2.

(** At the last use, at [now]: the buckets hold the uses but those dropped,
    long ago, in groups a minute or more apart. *)
Record grouped (uses : list Use) (now : Z) (u : Usage) (gs : list Group) : Prop := {
  gr_uses : exists dropped, uses = dropped ++ (gs ≫= snd) /\ Forall (fun x : Use => x.2 < now - USAGE_WINDOW + USAGE_BUCKET) dropped;
  gr_ok : Forall2 group_ok u gs;
  gr_apart : StronglySorted (fun x y : Z => x + USAGE_BUCKET <= y) (fst <$> gs);
  gr_recent : Forall (fun g : Group => now - USAGE_WINDOW < g.1 <= now) gs;
}.

Lemma how_many_app member p xs ys : how_many member p (xs ++ ys) = how_many member p xs + how_many member p ys.
Proof. unfold how_many. rewrite filter_app, length_app. lia. Qed.

Lemma how_many_nonneg member p xs : 0 <= how_many member p xs.
Proof. unfold how_many. lia. Qed.

Lemma how_many_le member p q xs : Forall (fun x : Use => p x.2 = true -> q x.2 = true) xs -> how_many member p xs <= how_many member q xs.
Proof.
  unfold how_many. intros Hpq. induction Hpq as [|x xs Hx Hxs IH]; [done|]. rewrite !filter_cons. repeat case_decide; simpl; try lia. tauto.
Qed.

Lemma how_many_none member p xs : Forall (fun x : Use => p x.2 = false) xs -> how_many member p xs = 0.
Proof.
  unfold how_many. induction 1 as [|x xs Hx Hxs IH]; [done|]. rewrite filter_cons, decide_False; [done|]. intros [_ Hp]. congruence.
Qed.

Lemma drop_while_ok (p : Z -> bool) u gs : Forall2 group_ok u gs ->
  Forall2 group_ok (drop_while (fun b : Z * gmap rstr Z => p b.1) u) (drop_while (fun g : Group => p g.1) gs).
Proof. induction 1 as [|b g u gs Hg Hu IH]; simpl; [constructor|]. destruct Hg as (Hb & ?) eqn:?. rewrite Hb. destruct (p g.1); [done|by constructor]. Qed.

(** What is old goes. *)
Lemma drop_grouped uses now now' u gs : grouped uses now u gs -> now <= now' ->
  let old (t : Z) := USAGE_WINDOW <=? sat_sub now' t in
  grouped uses now' (drop_while (fun b : Z * gmap rstr Z => old b.1) u) (drop_while (fun g : Group => old g.1) gs).
Proof.
  intros [(dropped & -> & Hd) Hok Ha Hr] Hle old. destruct (drop_while_split (fun g : Group => old g.1) gs) as (k & Hk & Hold).
  rewrite Forall_forall in Hold. split.
  - exists (dropped ++ (k ≫= snd)). split; [rewrite Hk at 1; by rewrite bind_app, app_assoc|]. apply Forall_app. split; [eapply Forall_impl; [exact Hd|]; simpl; lia|].
    apply Forall_forall. intros x (g & Hx & Hg)%list_elem_of_bind. specialize (Hold g Hg). unfold old, sat_sub in Hold. assert (Hin : g ∈ gs) by (rewrite Hk; apply elem_of_app; by left).
    apply list_elem_of_lookup in Hin as [i Hi]. destruct (Forall2_lookup_r _ _ _ _ _ Hok Hi) as (b & _ & _ & _ & Ht).
    rewrite Forall_forall in Ht. specialize (Ht x Hx). unfold USAGE_WINDOW, USAGE_BUCKET in *. lia.
  - by apply (drop_while_ok old).
  - rewrite Hk, fmap_app in Ha. by apply StronglySorted_app_1_r in Ha.
  - destruct (drop_while (fun g : Group => old g.1) gs) as [|g l] eqn:Hl; [constructor|]. pose proof (drop_while_head (fun g : Group => old g.1) gs g ltac:(by rewrite Hl)) as Hg.
    rewrite Hk, fmap_app in Ha. apply StronglySorted_app_1_r in Ha. rewrite fmap_cons in Ha. apply StronglySorted_inv in Ha as [_ Ha]. rewrite Forall_fmap in Ha.
    rewrite Hk in Hr. apply Forall_app in Hr as [_ Hr]. pose proof (Forall_inv Hr) as Hg'. simpl in Hg'. unfold old, sat_sub, USAGE_WINDOW, USAGE_BUCKET in *.
    constructor; [lia|]. apply Forall_inv_tail in Hr. rewrite Forall_forall in Ha, Hr |- *. intros x Hx. specialize (Ha x Hx). specialize (Hr x Hx). simpl in *. lia.
Qed.

(** A bucket for the minute that begins. *)
Lemma due_grouped uses now u gs : grouped uses now u gs -> Forall (fun g : Group => g.1 <= now) gs ->
  exists gi g, grouped uses now (with_bucket now u) (gi ++ [g]) /\ now < g.1 + USAGE_BUCKET.
Proof.
  intros Hg Hle. unfold with_bucket. set (due := match last u with Some b => _ | None => _ end). pose proof (gr_ok _ _ _ _ Hg) as Hok. destruct due eqn:Hdue; subst due.
  - exists gs, (now, []). split; [|simpl; unfold USAGE_BUCKET; lia]. destruct Hg as [(dropped & -> & Hd) _ Ha Hr]. split.
    + exists dropped. split; [|done]. rewrite bind_app. simpl. by rewrite !app_nil_r.
    + apply Forall2_app; [done|]. constructor; [|constructor]. split; [done|]. split; [|constructor]. intros m. simpl. by rewrite lookup_empty.
    + rewrite fmap_app. apply StronglySorted_app_2; [|done|by repeat constructor]. intros x y Hx Hy%list_elem_of_singleton. simpl in Hy. subst y.
      destruct u as [|b u _] using rev_ind; [apply Forall2_nil_inv_l in Hok; subst; by apply elem_of_nil in Hx|]. rewrite last_snoc in Hdue.
      apply Forall2_app_inv_l in Hok as (gi & gl & _ & Hb & ->). apply Forall2_cons_inv_l in Hb as (g & l & Hb & Hl & ->). apply Forall2_nil_inv_l in Hl as ->.
      destruct Hb as [Hb _]. rewrite fmap_app in Hx, Ha. assert (x <= g.1).
      { apply elem_of_app in Hx as [Hx|Hx%list_elem_of_singleton]; [|simpl in Hx; lia]. assert (x + USAGE_BUCKET <= g.1) by (eapply (StronglySorted_app_1_elem_of _ _ _ _ _ Ha Hx); left).
        unfold USAGE_BUCKET in *. lia. }
      rewrite Hb in Hdue. unfold sat_sub in Hdue. unfold USAGE_BUCKET in *. lia.
    + apply Forall_app. split; [done|]. constructor; [simpl; unfold USAGE_WINDOW; lia|constructor].
  - destruct u as [|b u _] using rev_ind; [done|]. rewrite last_snoc in Hdue.
    apply Forall2_app_inv_l in Hok as (gi & gl & _ & Hb & ->). apply Forall2_cons_inv_l in Hb as (g & l & Hb & Hl & ->). apply Forall2_nil_inv_l in Hl as ->.
    exists gi, g. split; [done|]. destruct Hb as [Hb _]. rewrite Hb in Hdue. unfold sat_sub in Hdue. lia.
Qed.

Lemma add_grouped uses member now now' u gs : grouped uses now u gs -> now <= now' ->
  exists gs', grouped (uses ++ [(member, now')]) now' (usage_add member now' u) gs'.
Proof.
  intros Hg Hle. apply (drop_grouped _ _ now') in Hg; [|done]. assert (Hr := Hg). apply gr_recent in Hr. unfold usage_add. cbv zeta. set (u1 := drop_while _ u) in *. set (gs1 := drop_while _ gs) in *.
  assert (Hr' : Forall (fun g : Group => g.1 <= now') gs1) by (eapply Forall_impl; [exact Hr|]; simpl; lia).
  destruct (due_grouped _ _ _ _ Hg Hr') as (gi & g & Hg2 & Hnow). set (u2 := with_bucket now' u1) in *. clearbody u1 gs1 u2.
  destruct Hg2 as [(dropped & Hu & Hd) Hok Ha Hrec]. apply Forall2_app_inv_r in Hok as (ui & ul & Hi & Hl & ->).
  apply Forall2_cons_inv_r in Hl as ([start bucket] & l & (Hs & Hc & Ht) & Hl & ->). apply Forall2_nil_inv_r in Hl as ->. rewrite last_snoc, removelast_last. simpl in Hs. subst start.
  exists (gi ++ [(g.1, g.2 ++ [(member, now')])]). split.
  - exists dropped. split; [|done]. rewrite Hu, !bind_app. simpl. by rewrite !app_nil_r, !app_assoc.
  - apply Forall2_app; [done|]. constructor; [|constructor]. split; [done|]. split; simpl.
    + intros m. rewrite how_many_app, <- (Hc m). unfold how_many at 1. rewrite filter_cons. rewrite lookup_insert. simpl. repeat case_decide; subst; simpl; try tauto; lia.
    + apply Forall_app. split; [done|]. constructor; [|constructor]. simpl. apply Forall_app in Hrec as [_ Hrec]. apply Forall_inv in Hrec. lia.
  - rewrite fmap_app in *. done.
  - apply Forall_app in Hrec as [H1 H2]. apply Forall_app. split; [done|]. constructor; [by apply Forall_inv in H2|constructor].
Qed.

Lemma in_time_snoc uses x now : in_time (uses ++ [x]) now -> in_time uses x.2 /\ x.2 <= now.
Proof. unfold in_time. rewrite fmap_app. apply sorted_snoc. Qed.

(** The buckets of any uses, as of the last. *)
Lemma uses_grouped uses now : in_time uses now -> exists at_ gs, at_ <= now /\ grouped uses at_ (uses_of uses) gs.
Proof.
  revert now. induction uses as [|[member t] uses IH] using rev_ind; intros now Ht.
  - exists now, []. split; [done|]. split; [by exists []|constructor..].
  - apply in_time_snoc in Ht as [Ht Hle]. simpl in *. destruct (IH t Ht) as (at_ & gs & Hat & Hg). unfold uses_of. rewrite foldl_snoc. fold (uses_of uses).
    destruct (add_grouped _ member _ t _ _ Hg Hat) as [gs' Hg']. by exists t, gs'.
Qed.

(** The groups that count at [now], and what they count. *)
Definition counted (now : Z) (g : Group) : bool := sat_sub now g.1 <? USAGE_WINDOW.

Lemma usage_count_groups member now u gs : Forall2 group_ok u gs ->
  usage_count member now u = how_many member (fun _ => true) ((filter (fun g : Group => counted now g = true) gs) ≫= snd).
Proof.
  unfold usage_count, counted. induction 1 as [|[start bucket] g u gs (Hs & Hc & _) Hu IH]; [done|]. simpl in Hs. subst start.
  rewrite filter_cons, (filter_cons _ (g.1, bucket)). cbn [fst].
  destruct (sat_sub now g.1 <? USAGE_WINDOW); [rewrite !decide_True by done|rewrite !decide_False by done; exact IH].
  cbn [omap list_omap]. rewrite bind_cons, how_many_app, <- IH. specialize (Hc member). cbn [snd] in Hc |- *. rewrite <- Hc. by destruct (bucket !! member).
Qed.

(** Of the groups in order, the young uses are in those that count, and those
    count no old ones. *)
Lemma counted_between member now u gs : Forall2 group_ok u gs -> Forall (fun g : Group => g.1 <= now) gs ->
  let count := how_many member (fun _ => true) (filter (fun g : Group => counted now g = true) gs ≫= snd) in
  how_many member (fun t => now - t <? USAGE_WINDOW - USAGE_BUCKET) (gs ≫= snd) <= count
  /\ count <= how_many member (fun t => now - t <? USAGE_WINDOW) (gs ≫= snd).
Proof.
  intros Hok Hr. cbv zeta. induction Hok as [|b g u gs (_ & _ & Ht) Hu IH]; [done|]. apply Forall_cons in Hr as [Hg Hr]. specialize (IH Hr).
  rewrite filter_cons, !bind_cons, !how_many_app. destruct (counted now g) eqn:Hc; unfold counted, sat_sub in Hc.
  - rewrite decide_True, bind_cons, how_many_app by done. assert (Hup : how_many member (fun _ => true) g.2 <= how_many member (fun t => now - t <? USAGE_WINDOW) g.2).
    { apply how_many_le. eapply Forall_impl; [exact Ht|]. simpl. unfold USAGE_WINDOW, USAGE_BUCKET in *. lia. }
    assert (how_many member (fun t => now - t <? USAGE_WINDOW - USAGE_BUCKET) g.2 <= how_many member (fun _ => true) g.2) by (apply how_many_le, Forall_true; done).
    lia.
  - rewrite decide_False, (how_many_none _ (fun t => now - t <? USAGE_WINDOW - USAGE_BUCKET) g.2); [pose proof (how_many_nonneg member (fun t => now - t <? USAGE_WINDOW) g.2); lia| |done].
    eapply Forall_impl; [exact Ht|]. simpl. unfold USAGE_WINDOW, USAGE_BUCKET in *. lia.
Qed.

Lemma apart_length (l : list Z) start now : StronglySorted (fun x y : Z => x + USAGE_BUCKET <= y) (start :: l) -> Forall (fun t : Z => t <= now) (start :: l) ->
  start + Z.of_nat (length l) * USAGE_BUCKET <= now.
Proof.
  revert start. induction l as [|y l IH]; intros start [Hx Hs]%StronglySorted_cons [Hle Hall]%Forall_cons; [simpl; lia|].
  specialize (IH y Hs Hall). apply Forall_inv in Hx. cbn [length]. lia.
Qed.

(** The counts of a group's uses: whatever uses came, in the order of
    time, a count at [now] holds every use of the member in the last nine
    minutes and none older than ten, and at most ten buckets are kept. *)
Theorem usage_counts_the_window uses member now : in_time uses now ->
  how_many member (fun t => now - t <? USAGE_WINDOW - USAGE_BUCKET) uses <= usage_count member now (uses_of uses)
  /\ usage_count member now (uses_of uses) <= how_many member (fun t => now - t <? USAGE_WINDOW) uses
  /\ (length (uses_of uses) <= 10)%nat.
Proof.
  intros Ht. destruct (uses_grouped _ _ Ht) as (at_ & gs & Hle & [(dropped & Hu & Hd) Hok Ha Hr]).
  rewrite (usage_count_groups _ _ _ _ Hok). rewrite Hu at 1 2. rewrite !how_many_app. rewrite (how_many_none _ _ dropped).
  2: { eapply Forall_impl; [exact Hd|]. simpl. unfold USAGE_WINDOW, USAGE_BUCKET in *. lia. }
  assert (Hpast : Forall (fun g : Group => g.1 <= now) gs) by (eapply Forall_impl; [exact Hr|]; simpl; lia).
  destruct (counted_between member now _ _ Hok Hpast) as [Hlow Hup]. pose proof (how_many_nonneg member (fun t => now - t <? USAGE_WINDOW) dropped).
  split; [lia|]. split; [lia|]. rewrite (Forall2_length _ _ _ Hok). destruct gs as [|g gs]; [simpl; lia|].
  rewrite fmap_cons in Ha. pose proof (apart_length _ _ at_ Ha) as Hlen. rewrite length_fmap, <- fmap_cons, Forall_fmap in Hlen.
  specialize (Hlen ltac:(eapply Forall_impl; [exact Hr|]; simpl; lia)). apply Forall_inv in Hr. cbn [length fst] in *. unfold USAGE_WINDOW, USAGE_BUCKET in *. lia.
Qed.

(** Two uses a minute for some minutes; at the end the first is old. *)
Definition sample_uses : list Use := [([65], 0); ([65], 30 * SECOND); ([66], 70 * SECOND); ([65], 500 * SECOND); ([65], 630 * SECOND)].

Lemma usage_counts_the_window_witness :
  usage_count [65] (650 * SECOND) (uses_of sample_uses) = 2
  /\ how_many [65] (fun t => 650 * SECOND - t <? USAGE_WINDOW - USAGE_BUCKET) sample_uses <= usage_count [65] (650 * SECOND) (uses_of sample_uses).
Proof.
  split; [vm_compute; reflexivity|]. apply (usage_counts_the_window sample_uses [65] (650 * SECOND)).
  unfold in_time, sample_uses, SECOND. simpl. repeat (constructor; try lia).
Defined.

(** ** Every score is one that a [Duration] holds
    Of the calls that change a book: sums, weights and penalties stay so small that
    no score is too long for [Duration::from_secs_f64]. *)

(** The latencies that are measured: below 2^28 seconds, eight years. *)
Definition LONGEST : Z := 2 ^ 28.

(** How many calls a book takes before a bound may be passed. *)
Definition MANY : Z := 2 ^ 32.

(** What is documented of [f64::exp2]: two to a power not above zero is between zero
    and one. *)
Definition exp2_law (exp2 : f64 -> f64) : Prop := forall x, f64_le x f64_zero = true -> at_most (exp2 x) 1.

(** A call. *)
Inductive BookCall {O : Type} :=
  | CSample (policy : rstr) (o : O) (latency now : Z)
  | CFailure (policy : rstr) (o : O) (now : Z)
  | CSuccess (policy : rstr) (o : O) (host : option rstr) (latency now : Z)
  | CFailed (policy : rstr) (o : O) (host : option rstr) (now : Z)
  | CTested (policy : rstr) (o : O) (outcome : option Z) (at_ : Z)
  | CSite (host : rstr) (now : Z)
  | CUsed (group member : rstr) (now : Z)
  | CRetain (keep : rstr -> bool).
Arguments BookCall : clear implicits.

Definition latency_ok (latency : Z) : Prop := 0 <= latency < LONGEST * SECOND.

Definition call_ok {O : Type} (c : BookCall O) : Prop :=
  match c with
  | CSample _ _ latency _ | CSuccess _ _ _ latency _ => latency_ok latency
  | CTested _ _ outcome _ => match outcome with Some score => latency_ok score | None => True end
  | _ => True
  end.

Section Fits.
Context {O : Type} `{!EqDecision O} (exp2 : f64 -> f64).

Definition book_call (c : BookCall O) (b : SmartBook O) : option (SmartBook O) :=
  match c with
  | CSample policy o latency now => book_sample exp2 policy o latency now b
  | CFailure policy o now => book_failure exp2 policy o now b
  | CSuccess policy o host latency now => report_success exp2 policy o host latency now b
  | CFailed policy o host now => report_failure exp2 policy o host now b
  | CTested policy o outcome at_ => tested exp2 policy o outcome at_ b
  | CSite host now => Some (book_site host now b).2
  | CUsed group member now => Some (book_used group member now b)
  | CRetain keep => Some (retain keep b)
  end.

(** A record after [n] calls: at most [n] samples of 2^38 milliseconds, and [n]
    penalties of 1024. *)
Record record_fits (n : Z) (r : Record_ O) : Prop := {
  fits_sum : at_most (sum r) (n * 2 ^ 38);
  fits_weight : at_most (weight r) n;
  fits_sampled : weight r = f64_zero \/ at_least (weight r) 1;
  fits_penalty : at_most (penalty r) (n * 2 ^ 10);
}.

Definition book_fits (n : Z) (b : SmartBook O) : Prop := forall policy r, records b !! policy = Some r -> record_fits n r.

Lemma record_fits_more n n' r : n <= n' -> record_fits n r -> record_fits n' r.
Proof. intros Hn [H1 H2 H3 H4]. split; [| |done|]; (eapply at_most_more; [eassumption|lia]). Qed.

Lemma record_fits_new n o : 0 <= n -> record_fits n (new_record o).
Proof. intros Hn. split; simpl; try (split; [done|lia]). by left. Qed.

Lemma fits_times n k : 0 <= n <= 2 ^ 53 -> 0 <= k <= 900 -> fits (n * 2 ^ k).
Proof. apply fits_shift. Qed.

Lemma millis_fits latency : latency_ok latency -> at_most (millis latency) (2 ^ 38).
Proof.
  intros Hl. apply (at_most_more _ (LONGEST * 1000)); [|unfold LONGEST; lia]. apply mul_le; [apply as_secs_le; [exact Hl|unfold LONGEST; lia]|apply f64_of_le; [lia|apply fits_small; lia]|apply fits_small; unfold LONGEST; lia].
Qed.

Lemma penalty_fits : at_most (millis PENALTY) (2 ^ 10).
Proof.
  apply (at_most_more _ (1 * 1000)); [|lia]. apply mul_le; [apply as_secs_le; [unfold PENALTY, MILLISECOND, SECOND; lia|lia]|apply f64_of_le; [lia|apply fits_small; lia]|apply fits_small; lia].
Qed.

Lemma one_least b : b = 1 -> at_least (f64_of b) 1.
Proof. intros ->. apply (add_one_least (S754_zero false) 0); [done|apply fits_small; lia]. Qed.

Context (Hexp : exp2_law exp2).

Lemma fade_fits since now : at_most (fade exp2 since now) 1.
Proof.
  apply Hexp. apply (neg_div_le _ _ 1); [apply as_secs_ok; unfold sat_sub; lia|].
  change (as_secs_f64 HALF_LIFE) with (S754_finite false 5277655813324800 (-44)). split; [done|]. split; [done|]. rewrite (value_down 1 (-44)) by (unfold PLACE; lia). apply value_le; [unfold PLACE; lia|lia].
Qed.

Lemma faded x n since now : at_most x n -> fits n -> at_most (f64_mul x (fade exp2 since now)) n.
Proof. intros Hx Hf. rewrite <- (Z.mul_1_r n). apply mul_le; [done|apply fade_fits|by rewrite Z.mul_1_r]. Qed.

Lemma sample_fits n ms now r : 0 <= n < MANY -> at_most ms (2 ^ 38) -> record_fits n r -> record_fits (n + 1) (record_sample exp2 ms now r).
Proof.
  intros Hn Hms [H1 H2 H3 H4]. unfold MANY in Hn. assert (Hsum : forall x, at_most x (n * 2 ^ 38) -> at_most (f64_add x ms) ((n + 1) * 2 ^ 38)).
  { intros x Hx. replace ((n + 1) * 2 ^ 38) with (n * 2 ^ 38 + 2 ^ 38) by lia. apply add_le; [done|done|]. replace (n * 2 ^ 38 + 2 ^ 38) with ((n + 1) * 2 ^ 38) by lia. apply fits_times; lia. }
  assert (Hweight : forall x, at_most x n -> at_most (f64_add x f64_one) (n + 1) /\ at_least (f64_add x f64_one) 1).
  { intros x Hx. split; [apply add_le; [done|apply f64_of_le; [lia|apply fits_small; lia]|apply fits_small; lia]|apply (add_one_least _ n); [done|apply fits_small; lia]]. }
  assert (Hpen : at_most (penalty r) ((n + 1) * 2 ^ 10)) by (eapply at_most_more; [exact H4|lia]).
  unfold record_sample. destruct (sampled r) as [at_|]; split; cbn [sum weight penalty]; try done; try (right; apply Hweight); try apply Hweight; try apply Hsum; try done; apply faded; try done; [apply fits_times; lia|apply fits_small; lia..].
Qed.

Lemma penalty_at_fits n now r : 0 <= n <= MANY -> record_fits n r -> at_most (penalty_at exp2 now r) (n * 2 ^ 10).
Proof.
  intros Hn [_ _ _ H4]. unfold MANY in Hn. unfold penalty_at. destruct (penalized r); [apply faded; [done|apply fits_times; lia]|]. simpl. split; [done|lia].
Qed.

Lemma failure_fits n now r : 0 <= n < MANY -> record_fits n r -> record_fits (n + 1) (record_failure exp2 now r).
Proof.
  intros Hn Hr. pose proof (penalty_at_fits n now r ltac:(lia) Hr) as Hp. destruct (record_fits_more n (n + 1) r ltac:(lia) Hr) as [H1 H2 H3 H4]. unfold MANY in Hn. split; cbn [sum weight penalty record_failure]; [done..|].
  replace ((n + 1) * 2 ^ 10) with (n * 2 ^ 10 + 2 ^ 10) by lia. apply add_le; [done|apply penalty_fits|]. replace (n * 2 ^ 10 + 2 ^ 10) with ((n + 1) * 2 ^ 10) by lia. apply fits_times; lia.
Qed.

(** The score of a record is one that a [Duration] holds. *)
Lemma health_fits n now r : 0 <= n <= MANY -> record_fits n r -> exists h, record_health exp2 now r = Some h.
Proof.
  intros Hn Hr. pose proof (penalty_at_fits n now r Hn Hr) as Hp. destruct Hr as [H1 H2 H3 H4]. unfold MANY in Hn. unfold record_health. destruct (f64_lt f64_zero (weight r)) eqn:Hw; [|by eexists].
  destruct H3 as [H3|H3]; [by rewrite H3 in Hw|].
  assert (Hq : at_most (f64_div (sum r) (weight r)) (n * 2 ^ 38)) by (apply (div_le _ _ _ 1); [lia|apply fits_times; lia|by rewrite Z.mul_1_r|done]).
  assert (Htotal : at_most (f64_add (f64_div (sum r) (weight r)) (penalty_at exp2 now r)) (2 ^ 70 + 2 ^ 70)).
  { apply add_le; [eapply at_most_more; [exact Hq|lia]|eapply at_most_more; [exact Hp|lia]|]. change (2 ^ 70 + 2 ^ 70) with (2 * 2 ^ 70). apply fits_times; lia. }
  destruct (from_secs_fits (f64_div (f64_add (f64_div (sum r) (weight r)) (penalty_at exp2 now r)) (f64_of 1000)) (2 ^ 62)) as (ns & ->); [|lia|by eexists].
  apply (div_le _ _ (2 ^ 62) 1000); [lia|by apply (fits_times 1 62); lia|eapply at_most_more; [exact Htotal|lia]|].
  change (f64_of 1000) with (S754_finite false 8796093022208000 (-43)). split; [done|]. split; [done|]. rewrite (value_down 1000 (-43)) by (unfold PLACE; lia). apply value_le; [unfold PLACE; lia|lia].
Qed.

Lemma record_of_fits n b policy o : 0 <= n -> book_fits n b -> record_fits n (record_of (records b) policy o).
Proof.
  intros Hn Hb. unfold record_of. destruct (records b !! policy) as [r|] eqn:Hr; [|by apply record_fits_new]. case_decide; [by eapply Hb|by apply record_fits_new].
Qed.

Lemma reported_fits n s r : record_fits n r -> record_fits n (set_reported s r).
Proof. by intros [H1 H2 H3 H4]. Qed.

Lemma change_fits n policy o now by_session f b : 0 <= n < MANY -> book_fits n b -> (forall r, record_fits n r -> record_fits (n + 1) (f r)) ->
  exists said b', change exp2 policy o now by_session f b = Some (said, b') /\ book_fits (n + 1) b'.
Proof.
  intros Hn Hb Hf. unfold change. pose proof (reported_fits n by_session _ (record_of_fits n b policy o ltac:(lia) Hb)) as Hr. set (r := set_reported by_session _) in *.
  destruct (health_fits n now r ltac:(lia) Hr) as (h & ->). destruct (health_fits (n + 1) now (f r) ltac:(lia) (Hf r Hr)) as (h' & ->). eexists _, _. split; [done|].
  intros q x. cbn [records]. rewrite lookup_insert. case_decide; [intros [= <-]; by apply Hf|]. intros Hx. eapply record_fits_more; [|by eapply Hb]. lia.
Qed.

Lemma book_fits_more n n' b : n <= n' -> book_fits n b -> book_fits n' b.
Proof. intros Hn Hb policy r Hr. eapply record_fits_more; [exact Hn|by eapply Hb]. Qed.

Lemma call_fits n c b : 0 <= n < MANY -> book_fits n b -> call_ok c -> exists b', book_call c b = Some b' /\ book_fits (n + 1) b'.
Proof.
  intros Hn Hb Hc. assert (Hsample : forall policy o latency now s, latency_ok latency -> exists said b', change exp2 policy o now s (record_sample exp2 (millis latency) now) b = Some (said, b') /\ book_fits (n + 1) b').
  { intros policy o latency now s Hl. apply change_fits; [done|done|]. intros r. apply sample_fits; [done|by apply millis_fits]. }
  assert (Hfail : forall policy o now s b, book_fits n b -> exists said b', change exp2 policy o now s (record_failure exp2 now) b = Some (said, b') /\ book_fits (n + 1) b').
  { intros policy o now s b0 Hb0. apply change_fits; [done|done|]. intros r. by apply failure_fits. }
  pose proof (book_fits_more n (n + 1) b ltac:(lia) Hb) as Hmore.
  destruct c as [policy o latency now|policy o now|policy o host latency now|policy o host now|policy o outcome at_|host now|group member now|keep]; cbn [book_call call_ok] in *.
  - unfold book_sample. destruct (Hsample policy o latency now false Hc) as (said & b' & -> & Hb'). by eexists.
  - unfold book_failure. destruct (Hfail policy o now false b Hb) as (said & b' & -> & Hb'). by eexists.
  - unfold report_success. destruct (Hsample policy o latency now true Hc) as (said & b' & -> & Hb'). eexists. split; [done|]. by destruct host.
  - unfold report_failure. destruct host as [host|].
    + destruct (remember host policy false now (sites b)) as [[|] s]; [by eexists|]. destruct (Hfail policy o now true (set_sites b s) Hb) as (said & b' & -> & Hb'). by eexists.
    + destruct (Hfail policy o now true b Hb) as (said & b' & -> & Hb'). by eexists.
  - unfold tested. destruct outcome as [score|]; [unfold book_sample; destruct (Hsample policy o score at_ false Hc) as (said & b' & -> & Hb')|unfold book_failure; destruct (Hfail policy o at_ false b Hb) as (said & b' & -> & Hb')]; by eexists.
  - eexists. split; [done|]. unfold book_site. by destruct (read host now (sites b)).
  - by eexists.
  - eexists. split; [done|]. intros q r. cbn [retain records]. intros [Hr _]%map_lookup_filter_Some. by eapply Hmore.
Qed.

Lemma book_health_fits n policy o now b : 0 <= n <= MANY -> book_fits n b -> exists h, book_health exp2 policy o now b = Some h.
Proof.
  intros Hn Hb. unfold book_health. destruct (records b !! policy) as [r|] eqn:Hr; [|by eexists]. case_decide; [|by eexists]. by apply (health_fits n); [|eapply Hb].
Qed.
End Fits.

Lemma book_fits_new {O : Type} n : book_fits n (@new_book O).
Proof. intros policy r. unfold new_book. cbn [records]. by rewrite lookup_empty. Qed.
