(* ===== verification/PolicyRegistry.v ===== *)
(** * From names to outbounds

    [PolicyRegistry] of [crates/rurge-policy/src/registry.rs] once it is
    built: how a name resolves through groups, how a group chooses its member
    — as a dial ([live]) or as the control plane looks — what the tests say
    of a name, and which groups and policies a round of tests covers.

    A call that changes the automatic groups or the smart groups' book takes
    and returns both ([Live]); [None] is a panic.  Test results, the network,
    the selections, the clock and the random numbers are those of the moment
    of the call.  [MAX_DEPTH] is 16: a depth above it is [room = 0], so that
    [room] is both the guard of the code and what the recursion decreases.
    Building the registry, its lines and its outbounds are left out, and so is
    the logging. *)

From S2P Require Import Prelude RuleMatcher RuleEngine F64 SmartSites SmartRank SmartBook AutoGroups.

(** [RejectKind] of [crates/rurge-proto/src/outbound.rs]. *)
Inductive RejectKind := KReject | KDrop | KNoDrop | KTinyGif.

Definition from_builtin (b : Builtin) : option RejectKind :=
  match b with
  | Reject => Some KReject
  | RejectDrop => Some KDrop
  | RejectNoDrop => Some KNoDrop
  | RejectTinyGif => Some KTinyGif
  | _ => None
  end.

(** ** The names of the built-in policies *)

Definition BUILTIN_NAMES : list (rstr * Builtin) :=
  [(lit "DIRECT", Direct); (lit "REJECT", Reject); (lit "REJECT-DROP", RejectDrop); (lit "REJECT-NO-DROP", RejectNoDrop);
   (lit "REJECT-TINYGIF", RejectTinyGif); (lit "CELLULAR", Cellular); (lit "CELLULAR-ONLY", CellularOnly); (lit "HYBRID", Hybrid); (lit "NO-HYBRID", NoHybrid)].

Definition builtin_parse (name : rstr) : option Builtin := snd <$> (snd <$> list_find (fun p : rstr * Builtin => p.1 = name) BUILTIN_NAMES).

Definition builtin_name (b : Builtin) : rstr :=
  lit match b with
  | Direct => "DIRECT" | Reject => "REJECT" | RejectDrop => "REJECT-DROP" | RejectNoDrop => "REJECT-NO-DROP" | RejectTinyGif => "REJECT-TINYGIF"
  | Cellular => "CELLULAR" | CellularOnly => "CELLULAR-ONLY" | Hybrid => "HYBRID" | NoHybrid => "NO-HYBRID"
  end.

Definition reject_name (k : RejectKind) : rstr :=
  lit match k with KReject => "REJECT" | KDrop => "REJECT-DROP" | KNoDrop => "REJECT-NO-DROP" | KTinyGif => "REJECT-TINYGIF" end.

Fixpoint strip_prefix (p s : rstr) : option rstr :=
  match p, s with
  | [], _ => Some s
  | c :: p, d :: s => if c =? d then strip_prefix p s else None
  | _ :: _, [] => None
  end.

Definition parse_ref (s : rstr) : PolicyRef :=
  let s := trim s in
  match builtin_parse s with
  | Some b => BuiltinRef b
  | None => match strip_prefix (lit "DEVICE:") s with Some d => Device (trim d) | None => Named s end
  end.

(** ** The table *)

Inductive Terminal := ToDirect | ToReject (k : RejectKind).

Inductive TerminalKind := EndsDirect | EndsReject | EndsProxy.

#[export] Instance TerminalKind_eq_dec : EqDecision TerminalKind.
Proof. solve_decision. Defined.

Inductive EmptyGroup := EmptyDirect | EmptyReject.

Inductive Note :=
  | NoteUnsupported (what : rstr)
  | NoteCycle (cycle : rstr)
  | NoteEmpty (substituted : bool).

(** The fingerprint of an outbound is of the building. *)
Inductive Entry {O Others : Type} :=
  | Alias (t : Terminal)
  | Outbound (o : O) (proxy : bool)
  | Unsupported (keyword what : rstr)
  | Group (spec : GroupSpec Others) (members : list rstr) (cycle : option rstr) (factors : list f64).
Arguments Entry : clear implicits.

Record TestSpec {U : Type} := mkTest { mode : option U; test_timeout : Z; test_key : Z }.
Arguments TestSpec : clear implicits.
Arguments mkTest {U} mode test_timeout test_key.

Record SmartPick := mkSmartPick { sp_group : rstr; sp_member : rstr; sp_retry : list rstr }.

Record Resolution {O : Type} := mkResolution {
  chain : list rstr;
  to : O;
  terminal : TerminalKind;
  note : option Note;
  pending : option rstr;
  smart_pick : option SmartPick;
}.
Arguments Resolution : clear implicits.
Arguments mkResolution {O} chain to terminal note pending smart_pick.

Record Choice := mkChoice { member : rstr; c_pending : bool; c_retry : option (list rstr) }.

Definition plain (m : rstr) : Choice := mkChoice m false None.

Definition MAX_DEPTH : nat := 16.
Definition ROUND_INTERVAL : Z := 5 * 60 * SECOND.

(** The registry, and the moment it is asked at. *)
Record Registry {O Others U : Type} := mkRegistry {
  entries : gmap rstr (Entry O Others);
  order : list rstr;
  direct : O;
  rejects : RejectKind -> O;
  selections : gmap rstr rstr;
  empty_group : EmptyGroup;
  tests : gmap rstr (TestSpec U);
  wifi_always_match : bool;
  (* the moment *)
  network : NetworkFacts;
  now : Z;
  outcome : rstr -> Z -> option (option Z);       (* [TestBook::outcome]: a score, or a failure *)
  tested : rstr -> Z -> option Z;                 (* [TestBook::result]'s [at] *)
  draw : nat -> Z;                                (* the number drawn for a choice at a depth *)
  (* the platform *)
  parse_ip : rstr -> option FakeIpAddr.IpAddr;
  exp2 : f64 -> f64;
  hash : rstr -> Z;
}.
Arguments Registry : clear implicits.

(** What a call may change. *)
Record Live {O Others : Type} := mkLive { auto : State Others; smart : SmartBook O }.
Arguments Live : clear implicits.
Arguments mkLive {O Others} auto smart.

(** ** Calls that change the state *)

Definition Call (O Others A : Type) : Type := Live O Others -> option (A * Live O Others).

Section Registry.
Context {O Others U : Type} `{!EqDecision O} `{!EqDecision Others}.

#[local] Abbreviation M := (Call O Others).

#[export] Instance call_ret : MRet M := fun A x w => Some (x, w).
#[export] Instance call_fmap : FMap M := fun A B f m w => match m w with Some (x, w) => Some (f x, w) | None => None end.
#[export] Instance call_bind : MBind M := fun A B f m w => match m w with Some (x, w) => f x w | None => None end.

Definition get : M (Live O Others) := fun w => Some (w, w).
Definition panic {A : Type} : M A := fun _ => None.
Definition of_option {A : Type} (o : option A) : M A := fun w => (fun x => (x, w)) <$> o.
Definition on_auto {A : Type} (f : State Others -> A * State Others) : M A := fun w => let '(x, s) := f (auto w) in Some (x, mkLive s (smart w)).
Definition on_smart {A : Type} (f : SmartBook O -> A * SmartBook O) : M A := fun w => let '(x, b) := f (smart w) in Some (x, mkLive (auto w) b).
Definition when_ (b : bool) (m : M unit) : M unit := if b then m else mret tt.

(** The list function of a loop whose body is a call. *)
Fixpoint traverse {A B : Type} (f : A -> M B) (l : list A) : M (list B) :=
  match l with
  | [] => mret []
  | x :: l => y ← f x; ys ← traverse f l; mret (y :: ys)
  end.

Variable R : Registry O Others U.

(** [AutoGroups::wake]: what it sends is in [AutoRounds.v]. *)
Definition wake (group : rstr) : M unit := on_auto (fun s => (tt, (request group s).2)).

(** ** Tests *)

Definition test_slot (name : rstr) : option (rstr * TestSpec U) :=
  policy ← match entries R !! name with
    | Some (Alias ToDirect) | Some (Outbound _ _) => Some name
    | Some _ => None
    | None => match parse_ref name with
        | BuiltinRef b => match from_builtin b with None => Some (lit "DIRECT") | Some _ => None end
        | _ => None
        end
    end;
  test ← tests R !! policy;
  _ ← mode test;
  Some (policy, test).

Definition leaf_standing (name : rstr) : Standing :=
  match test_slot name with
  | Some (policy, test) =>
      match outcome R policy (test_key test) with
      | Some (Some score) => Passed score
      | Some None => AutoGroups.Failed
      | None => Untested
      end
  | None => AutoGroups.Failed
  end.

Definition tested_at (name : rstr) : option Z := '(policy, test) ← test_slot name; tested R policy (test_key test).

(** ** Choosing a member *)

Definition is_group (name : rstr) : bool := match entries R !! name with Some (Group _ _ _ _) => true | _ => false end.

(** The condition of a [subnet] group the network meets first, whose policy
    is a member; else its default. *)
Definition subnet_policy (members : list rstr) (subnet : SubnetSpec) : rstr :=
  match list_find (fun c : SubnetExpr * rstr => bool_decide (c.2 ∈ members) && subnet_matches (parse_ip R) c.1 (network R) (wifi_always_match R) = true) (conditions subnet) with
  | Some (_, (_, policy)) => policy
  | None => default_policy subnet
  end.

Definition candidate (mf : rstr * f64) : M (option Candidate) :=
  match entries R !! mf.1 with
  | Some (Outbound o _) =>
      w ← get;
      health ← of_option (book_health (exp2 R) mf.1 o (now R) (smart w));
      mret (Some (mkCandidate mf.1 health mf.2))
  | _ => mret None
  end.

Definition is_unknown (h : Health) : bool := match h with Unknown _ => true | _ => false end.

(** The rounds that are due. *)
Definition is_due (last : option Z) (interval : Z) : bool := match last with Some t => interval <=? sat_sub (now R) t | None => true end.

(** The [smart] branch of [choose], past the override. *)
Definition choose_smart (group : rstr) (host : option rstr) (live : bool) (number : Z) (spec : GroupSpec Others) (members : list rstr) (factors : list f64) :
    M (option Choice) :=
  candidates ← (omap id <$> traverse candidate (zip members factors) : M (list Candidate));
  if bool_decide (candidates = []) then mret (plain <$> head members)
  else if negb live then
    w ← get;
    match most_used group members (now R) (smart w) with
    | m :: _ => mret (Some (plain m))
    | [] => r ← of_option (rank candidates (mkMemory [] []) (fun _ => 0%nat)); mret (plain ∘ the_pick <$> r)
    end
  else
    w ← get;
    let last := last_round group (auto w) in
    let unknown := existsb (fun c => is_unknown (health c) && bool_decide (is_Some (test_slot (SmartRank.name c)))) candidates in
    _ ← when_ (unknown || is_due last ROUND_INTERVAL) (wake group);
    site ← match host with Some host => on_smart (book_site host (now R)) | None => mret (mkMemory [] []) end;
    r ← of_option (rank candidates site (fun n => Z.to_nat (number mod Z.of_nat (Nat.max n 1))));
    mret ((fun r => mkChoice (the_pick r) (evaluate_before_use (g_test spec) && bool_decide (last = None)) (Some (retry r))) <$> r).

(** The branch of the groups that pick by their tests, past the override. *)
Definition choose_by_tests (standing_of : rstr -> M Standing) (group : rstr) (host : option rstr) (live : bool) (number : Z) (spec : GroupSpec Others) (members : list rstr) :
    M (option Choice) :=
  w ← get;
  let last := last_round group (auto w) in
  let wants := live && evaluate_before_use (g_test spec) && bool_decide (last = None) in
  standings ← traverse (fun m => s ← standing_of m; mret (m, s)) members;
  let untested := existsb (fun ms : rstr * Standing => bool_decide (ms.2 = Untested) && negb (is_group ms.1)) standings in
  _ ← when_ (live && (untested || is_due last (interval (g_test spec)))) (wake group);
  w ← get;
  member ← match g_kind spec with
    | UrlTest =>
        match url_test standings (pick group (auto w)) (g_test spec) with
        | Some p => _ ← when_ live (on_auto (fun s => (tt, set_pick group p s))); mret (Some p)
        | None => mret None
        end
    | Fallback => mret (fallback standings (g_test spec))
    | _ => mret (if live then load_balance (hash R) number standings (g_test spec) host else fallback standings (g_test spec))
    end;
  mret ((fun m => mkChoice m wants None) <$> member).

(** [choose]; [standing_of] is [standing] one level deeper. *)
Definition choose (standing_of : rstr -> M Standing) (group : rstr) (host : option rstr) (live : bool) (number : Z) : M (option Choice) :=
  match entries R !! group with
  | Some (Group spec members _ factors) =>
      match g_kind spec with
      | Select =>
          let selected := match selections R !! group with Some m => if bool_decide (m ∈ members) then Some m else None | None => None end in
          mret (plain <$> match selected with Some m => Some m | None => head members end)
      | kind =>
          override ← on_auto (override_of group members);
          match override, kind with
          | Some m, _ => mret (Some (plain m))
          | None, Smart => choose_smart group host live number spec members factors
          | None, SubnetGroup =>
              match members with
              | [] => mret None
              | _ => mret ((fun subnet => plain (subnet_policy members subnet)) <$> g_subnet spec)
              end
          | None, _ => choose_by_tests standing_of group host live number spec members
          end
      end
  | _ => mret None
  end.

(** The average of scores; [None] is the overflow of a [Duration]. *)
Definition average (scores : list Z) : option Z :=
  let sum := foldr Z.add 0 scores in
  if sum / SECOND <? 2 ^ 64 then Some (sum / Z.of_nat (length scores)) else None.

(** [standing]. *)
Fixpoint standing (room : nat) (name : rstr) : M Standing :=
  match room with
  | 0%nat => mret AutoGroups.Failed
  | S room =>
      match parse_ref name with
      | Named n =>
          match entries R !! n with
          | Some (Group spec members cycle _) =>
              if bool_decide (is_Some cycle) then mret AutoGroups.Failed
              else if bool_decide (g_kind spec = LoadBalance) then
                all ← traverse (standing room) members;
                match omap (fun s => passes s (g_test spec)) all with
                | [] => mret (if forallb (fun s => bool_decide (s = Untested)) all then Untested else AutoGroups.Failed)
                | passing => score ← of_option (average passing); mret (Passed score)
                end
              else
                c ← choose (standing room) n None false 0;
                match c with Some c => standing room (member c) | None => mret Untested end
          | _ => mret (leaf_standing name)
          end
      | _ => mret (leaf_standing name)
      end
  end.

(** [choose] at a depth, and [current_member]. *)
Definition choose_at (room : nat) (group : rstr) (host : option rstr) (live : bool) : M (option Choice) :=
  choose (standing room) group host live (draw R (MAX_DEPTH - room)%nat).

Definition current_member (group : rstr) : M (option rstr) :=
  c ← choose_at MAX_DEPTH group None false; mret (member <$> c).

(** ** Resolving *)

Definition done (chain : list rstr) (o : O) (t : TerminalKind) (note : option Note) : Resolution O := mkResolution chain o t note None None.

Definition rejected (chain : list rstr) (note : option Note) : Resolution O :=
  done (chain ++ [reject_name KReject]) (rejects R KReject) EndsReject note.

Definition device (name : rstr) (chain : list rstr) : Resolution O :=
  rejected (chain ++ [lit "DEVICE:" ++ name]) (Some (NoteUnsupported (lit "DEVICE"))).

Definition builtin (b : Builtin) (chain : list rstr) : Resolution O :=
  let chain := chain ++ [builtin_name b] in
  match b with
  | Direct => done chain (direct R) EndsDirect None
  | _ => match from_builtin b with
      | Some kind => done chain (rejects R kind) EndsReject None
      | None => done (chain ++ [lit "DIRECT"]) (direct R) EndsDirect None
      end
  end.

Definition empty_resolution (chain : list rstr) (empty : EmptyGroup) : Resolution O :=
  match empty with
  | EmptyDirect => done (chain ++ [lit "DIRECT"]) (direct R) EndsDirect (Some (NoteEmpty true))
  | EmptyReject => rejected chain (Some (NoteEmpty false))
  end.

Definition set_pending (g : rstr) (r : Resolution O) : Resolution O := mkResolution (chain r) (to r) (terminal r) (note r) (Some g) (smart_pick r).
Definition set_smart (p : SmartPick) (r : Resolution O) : Resolution O := mkResolution (chain r) (to r) (terminal r) (note r) (pending r) (Some p).

(** What a group adds to the resolution of its member. *)
Definition through (name : rstr) (c : Choice) (r : Resolution O) : Resolution O :=
  let r := if c_pending c then set_pending name r else r in
  match c_retry c with Some retry => set_smart (mkSmartPick name (member c) retry) r | None => r end.

(** [named]. *)
Fixpoint named (room : nat) (name : rstr) (chain : list rstr) (empty : EmptyGroup) (host : option rstr) (live : bool) : M (Resolution O) :=
  let chain := chain ++ [name] in
  match room with
  | 0%nat => mret (rejected chain None)
  | S room =>
      match entries R !! name with
      | None => mret (rejected chain None)
      | Some (Alias ToDirect) => mret (done (chain ++ [lit "DIRECT"]) (direct R) EndsDirect None)
      | Some (Alias (ToReject kind)) => mret (done (chain ++ [reject_name kind]) (rejects R kind) EndsReject None)
      | Some (Outbound o true) => mret (done chain o EndsProxy None)
      | Some (Outbound o false) => mret (done (chain ++ [lit "DIRECT"]) o EndsDirect None)
      | Some (Unsupported keyword what) => mret (rejected (chain ++ [lit "!unsupported:" ++ keyword]) (Some (NoteUnsupported what)))
      | Some (Group _ _ (Some cycle) _) => mret (rejected chain (Some (NoteCycle cycle)))
      | Some (Group _ _ None _) =>
          c ← choose_at room name host live;
          match c with
          | Some c =>
              r ← match parse_ref (member c) with
                | BuiltinRef b => mret (builtin b chain)
                | Device d => mret (device d chain)
                | Named n => named room n chain empty host live
                end;
              mret (through name c r)
          | None => mret (empty_resolution chain empty)
          end
      end
  end.

(** Depth 0. *)
Definition TOP : nat := S MAX_DEPTH.

Definition resolve_with (policy : PolicyRef) (host : option rstr) : M (Resolution O) :=
  match policy with
  | BuiltinRef b => mret (builtin b [])
  | Device name => mret (device name [])
  | Named name => named TOP name [] (empty_group R) host true
  end.

Definition resolve (policy : PolicyRef) : M (Resolution O) := resolve_with policy None.
Definition resolve_relay (name : rstr) : M (Resolution O) := named TOP name [] EmptyReject None true.
Definition relay_now (name : rstr) : M (Resolution O) := named TOP name [] EmptyReject None false.
Definition resolve_member (name : rstr) : M (Resolution O) := named TOP name [] (empty_group R) None true.

(** ** Rounds of tests *)

(** [smart_health], and what [available] keeps. *)
Definition smart_health (m : rstr) : M Health :=
  match entries R !! m with
  | Some (Outbound o _) => w ← get; of_option (book_health (exp2 R) m o (now R) (smart w))
  | _ => mret (SmartRank.Failed None)
  end.

Definition is_healthy (h : Health) : bool := match h with Healthy _ => true | _ => false end.

Definition kept_members (marks : list (rstr * bool)) : list rstr := omap (fun x : rstr * bool => if x.2 then Some x.1 else None) marks.

Definition available (group : rstr) : M (list rstr) :=
  match entries R !! group with
  | Some (Group spec members _ _) =>
      if bool_decide (g_kind spec = Smart) then
        kept_members <$> traverse (fun m => h ← smart_health m; mret (m, is_healthy h)) members
      else
        kept_members <$> traverse (fun m => s ← standing MAX_DEPTH m; mret (m, bool_decide (is_Some (passes s (g_test spec))))) members
  | _ => mret []
  end.

(** [gather]: the groups a round covers and the policies it tests. *)
Fixpoint gather (room : nat) (group : rstr) (acc : list rstr * list rstr) : list rstr * list rstr :=
  match room with
  | 0%nat => acc
  | S room =>
      if bool_decide (group ∈ acc.1) then acc
      else match entries R !! group with
        | Some (Group _ members cycle _) =>
            let acc := (acc.1 ++ [group], acc.2) in
            if bool_decide (is_Some cycle) then acc
            else foldl (fun acc m =>
                if is_group m then gather room m acc
                else if bool_decide (m ∈ acc.2) then acc else (acc.1, acc.2 ++ [m])) acc members
        | _ => acc
        end
  end.

(** [sample_of]. *)
Definition sample_of (group : rstr) : M (option (list rstr)) :=
  match entries R !! group with
  | Some (Group spec members _ _) =>
      if negb (bool_decide (g_kind spec = Smart)) then mret None
      else
        let testable := filter (fun m => is_Some (test_slot m)) members in
        if bool_decide (length testable <= ROUND_SAMPLE)%nat then mret None
        else w ← get; mret (Some (sample testable (most_used group testable (now R) (smart w)) tested_at))
  | _ => mret None
  end.

(** What a round of [group] covers and tests: [test_group], [test_round]. *)
Definition round_of (groups : list rstr) (group : rstr) : list rstr := match groups with [] => [group] | _ => groups end.

Definition group_round (group : rstr) : list rstr * list rstr :=
  let '(groups, policies) := gather TOP group ([], []) in (round_of groups group, policies).

Definition round_plan (group : rstr) : M (list rstr * list rstr) :=
  s ← sample_of group;
  mret match s with Some policies => ([group], policies) | None => group_round group end.

(** [network_changed]: what the automatic groups hear of it. *)
Definition group_spec (name : rstr) : option (GroupSpec Others) := match entries R !! name with Some (Group spec _ _ _) => Some spec | _ => None end.

Definition group_names : list rstr := filter (fun n => is_group n = true) (order R).

Definition registry_network_changed : M unit := on_auto (fun s => (tt, network_changed (omap group_spec group_names) s)).
End Registry.

(** ** A small registry

    [G] takes the fastest of [A] and the group [H]; [H] is a smart group of
    [A]; [S] leads to DIRECT. *)

Definition a_group (name : rstr) (kind : GroupKind) (members : list rstr) : Entry Z unit :=
  Group (mkGroupSpec name kind members (mkTestOpts 600 100 None true false) None tt (mkSpan [] 0)) members None (map (fun _ => f64_one) members).

Definition sample_registry : Registry Z unit unit :=
  mkRegistry _ _ _
    (list_to_map [([65], Outbound 7 true); ([71], a_group [71] UrlTest [[65]; [72]]); ([72], a_group [72] Smart [[65]]); ([83], a_group [83] Select [lit "DIRECT"])])
    [[65]; [71]; [72]; [83]] 1 (fun _ => 0) ∅ EmptyDirect {[ [65] := mkTest (Some tt) 5 0 ]} false
    (mkFacts None None) 1000 (fun _ _ => Some (Some 50)) (fun _ _ => Some 900) (fun _ => 3)
    (fun _ => None) (fun _ => f64_one) (fun _ => 0).

Definition sample_live : Live Z unit := mkLive new_state new_book.
