(* ===== verification/PolicyWalk.v ===== *)
(** * Where a name leads

    Of [PolicyRegistry.v]: a resolution walks from group to member until a
    policy that is none, and ends as that policy's entry says; a relay never
    ends at DIRECT for want of members. *)

From S2P Require Import Prelude RuleMatcher RuleEngine F64 SmartSites SmartRank SmartPick SmartBook AutoGroups PolicyRegistry.

Section Walk.
Context {O Others U : Type} `{!EqDecision O} `{!EqDecision Others}.

#[local] Abbreviation M := (Call O Others).

(** ** Calls *)

Lemma bind_Some {A B : Type} (m : M A) (f : A -> M B) w r : (m ≫= f) w = Some r <-> exists x w1, m w = Some (x, w1) /\ f x w1 = Some r.
Proof.
  unfold mbind, call_bind. destruct (m w) as [[x w1]|]; split; [|intros (y & w2 & [= <- <-] & Hf); done| |by intros (? & ? & ? & _)]; [|done].
  intros Hf. by exists x, w1.
Qed.

Lemma fmap_call {A B : Type} (m : M A) (f : A -> B) w r : (f <$> m) w = Some r <-> exists x w1, m w = Some (x, w1) /\ r = (f x, w1).
Proof.
  unfold fmap, call_fmap. destruct (m w) as [[x w1]|]; split; [|intros (y & w2 & [= <- <-] & ->); done| |by intros (? & ? & ? & _)]; [|done].
  intros [= <-]. by exists x, w1.
Qed.

Lemma traverse_Forall2 {A B : Type} (f : A -> M B) l w ys w' : traverse f l w = Some (ys, w') -> Forall2 (fun x y => exists w1 w2, f x w1 = Some (y, w2)) l ys.
Proof.
  revert w ys. induction l as [|x l IH]; intros w ys; simpl; [by intros [= <- <-]|].
  intros (y & w1 & Hy & (zs & w2 & Hz & [= <- <-])%bind_Some)%bind_Some. constructor; [by exists w, w1|by eapply IH].
Qed.

(** Pairing every element with what a call says of it keeps the elements. *)
Lemma traverse_pairs {A B : Type} (f : A -> M B) l w ys w' : traverse (fun x => y ← f x; mret (x, y)) l w = Some (ys, w') -> fst <$> ys = l.
Proof.
  intros Ht%traverse_Forall2. induction Ht as [|x y l ys (w1 & w2 & Hy) _ IH]; [done|].
  apply bind_Some in Hy as (z & w3 & _ & [= <- <-]). cbn. f_equal. exact IH.
Qed.
End Walk.

(** Takes a call that returned apart. *)
Ltac inv_call :=
  repeat match goal with
  | H : (_ ≫= _) _ = Some _ |- _ => let x := fresh "x" in let w := fresh "w" in let Hm := fresh "Hm" in apply bind_Some in H as (x & w & Hm & H)
  | H : (_ <$> _) _ = Some (_, _) |- _ => let x := fresh "x" in let w := fresh "w" in let Hm := fresh "Hm" in apply fmap_call in H as (x & w & Hm & H)
  | H : mret _ _ = Some _ |- _ => injection H as ? ?; subst
  | H : get ?w = Some (_, _) |- _ => injection H as ? ?; subst
  | H : of_option ?o _ = Some (_, _) |- _ => unfold of_option in H; destruct o eqn:?; [injection H as ? ?; subst|discriminate H]
  end.

(** ** What a choice offers *)

Lemma fastest_in opts members best name score : fastest opts members best = Some (name, score) -> name ∈ fst <$> members \/ best = Some (name, score).
Proof.
  revert best. induction members as [|[n s] members IH]; intros best; simpl; [by right|]. intros Hf. apply IH in Hf as [Hf|Hf]; [left; by right|].
  destruct (passes s opts) as [score'|]; [|by right]. destruct best as [[b bs]|]; [destruct (score' <? bs)|]; simplify_eq; [left; left|by right|left; left].
Qed.

Lemma head_in {A : Type} (l : list A) x : head l = Some x -> x ∈ l.
Proof. destruct l; intros [= <-]. left. Qed.

Lemma first_in (members : list (rstr * Standing)) name : fst <$> head members = Some name -> name ∈ fst <$> members.
Proof. intros (m & Hm%head_in & ->)%fmap_Some. apply list_elem_of_fmap. by exists m. Qed.

Lemma url_test_in members current opts name : url_test members current opts = Some name -> name ∈ fst <$> members.
Proof.
  unfold url_test. destruct (fastest opts members None) as [[best score]|] eqn:Hf; [|apply first_in].
  apply fastest_in in Hf as [Hf|]; [|done]. destruct current as [cur|]; simpl; [|by intros [= <-]]. unfold find_member.
  destruct (list_find _ members) as [[i m]|] eqn:Hl; simpl; [|by intros [= <-]]. destruct (passes m.2 opts); simpl; [|by intros [= <-]].
  case_match; intros [= <-]; [|done]. apply list_find_Some in Hl as (Hl & Hm & _). apply list_elem_of_fmap. exists m. split; [done|]. by eapply list_elem_of_lookup_2.
Qed.

Lemma fallback_in members opts name : fallback members opts = Some name -> name ∈ fst <$> members.
Proof.
  unfold fallback. destruct (list_find _ members) as [[i m]|] eqn:Hl; [|apply first_in]. intros [= <-]. apply list_find_Some in Hl as (Hl & _).
  apply list_elem_of_fmap. exists m. split; [done|]. by eapply list_elem_of_lookup_2.
Qed.

Lemma load_balance_in hash number members opts host name : load_balance hash number members opts host = Some name -> name ∈ fst <$> members.
Proof.
  unfold load_balance. set (passing := fst <$> filter _ members). set (candidates := match passing with [] => _ | _ => _ end).
  assert (Hc : candidates ⊆ fst <$> members).
  { subst candidates. destruct passing eqn:Hp; [done|]. rewrite <- Hp. subst passing. intros x (m & -> & [_ Hm]%list_elem_of_filter)%list_elem_of_fmap. apply list_elem_of_fmap. by exists m. }
  destruct candidates eqn:Heq; [done|]. rewrite <- Heq in *. intros Hl%list_elem_of_lookup_2. by apply Hc.
Qed.

Lemma override_in {Others : Type} group members (s s' : State Others) m : override_of group members s = (Some m, s') -> m ∈ members.
Proof. unfold override_of. repeat case_match; intros [= <- <-]; try done. Qed.

Lemma ranking_names cs site pick r : ranking cs site pick = Some (Some r) -> the_pick r :: retry r ⊆ SmartRank.name <$> cs.
Proof.
  unfold ranking. destruct (cs !! pick) as [c|] eqn:Hc; simpl; [|done]. destruct (mapM _ _) as [names|] eqn:Hm; simpl; [|done]. intros [= <-]. simpl.
  intros x [->|Hx]%elem_of_cons; [apply list_elem_of_fmap; exists c; split; [done|by eapply list_elem_of_lookup_2]|].
  apply mapM_Some_1, Forall2_flip in Hm. apply list_elem_of_lookup in Hx as [i Hx]. destruct (Forall2_lookup_l _ _ _ _ _ Hm Hx) as (j & _ & Hj).
  apply fmap_Some in Hj as (c' & Hj & ->). apply list_elem_of_fmap. exists c'. split; [done|by eapply list_elem_of_lookup_2].
Qed.

Lemma rank_names cs site pick_at r : rank cs site pick_at = Some (Some r) -> the_pick r :: retry r ⊆ SmartRank.name <$> cs.
Proof.
  rewrite unfold_rank. cbv zeta. repeat case_match; try done; try apply ranking_names. destruct (_ !! _); [apply ranking_names|done].
Qed.

Lemma most_used_in {O : Type} group members now (b : SmartBook O) m : m ∈ most_used group members now b -> m ∈ members.
Proof. unfold most_used. case_match; [|by intros ?%elem_of_nil]. intros (x & _ & Hx)%list_elem_of_omap. by eapply list_elem_of_lookup_2. Qed.

(** ** Choices *)

Section Choices.
Context {O Others U : Type} `{!EqDecision O} `{!EqDecision Others} (R : Registry O Others U).

#[local] Abbreviation M := (Call O Others).

(** A member, or what a [subnet] group has for its default. *)
Definition offered (spec : GroupSpec Others) (members : list rstr) (m : rstr) : Prop :=
  m ∈ members \/ (g_kind spec = SubnetGroup /\ default_policy <$> g_subnet spec = Some m).

Lemma candidates_names members factors cs w w' :
  (omap id <$> traverse (candidate R) (zip members factors) : M (list Candidate)) w = Some (cs, w') -> SmartRank.name <$> cs ⊆ members.
Proof.
  intros (l & w1 & Ht%traverse_Forall2 & [= -> ->])%fmap_call x (c & -> & Hc)%list_elem_of_fmap. apply list_elem_of_omap in Hc as (oc & Hoc & Hid). unfold id in Hid. subst oc.
  apply list_elem_of_lookup in Hoc as [i Hi]. destruct (Forall2_lookup_r _ _ _ _ _ Ht Hi) as ([m f] & Hmf & w2 & w3 & Hcand).
  assert (Hm : m ∈ members) by (apply list_elem_of_lookup_2 in Hmf; by apply elem_of_zip_l in Hmf). unfold candidate in Hcand. simpl in Hcand.
  repeat case_match; inv_call; by simplify_eq.
Qed.

Lemma choose_smart_offers group host live number spec members factors w c w' :
  choose_smart R group host live number spec members factors w = Some (Some c, w') ->
  member c ∈ members /\ (forall retry, c_retry c = Some retry -> retry ⊆ members).
Proof.
  unfold choose_smart. intros Hc. apply bind_Some in Hc as (cs & w1 & Hcs%candidates_names & Hc).
  case_bool_decide; [injection Hc as Hc _; apply fmap_Some in Hc as (m & Hm%head_in & ->); by split|].
  destruct live; simpl in Hc.
  - inv_call. destruct x2 as [r|]; simplify_eq/=. pose proof (rank_names _ _ _ _ Heqo) as Hr. split; [apply Hcs, Hr; left|].
    intros retry [= <-] x Hx. apply Hcs, Hr. by right.
  - inv_call. pose proof (fun m => most_used_in group members (now R) (smart w0) m) as Hin. destruct (most_used group members (now R) (smart w0)) as [|m l].
    + inv_call. destruct x as [r|]; simplify_eq/=. split; [|done]. apply Hcs. pose proof (rank_names _ _ _ _ Heqo) as Hr. apply Hr. left.
    + inv_call. simplify_eq/=. split; [|done]. apply Hin. left.
Qed.

Lemma choose_by_tests_offers standing_of group host live number spec members w c w' :
  choose_by_tests R standing_of group host live number spec members w = Some (Some c, w') -> member c ∈ members /\ c_retry c = None.
Proof.
  unfold choose_by_tests. intros Hc. apply bind_Some in Hc as (w1 & w2 & _ & Hc). cbv zeta in Hc. apply bind_Some in Hc as (standings & w3 & Hs%traverse_pairs & Hc).
  apply bind_Some in Hc as (? & w4 & _ & Hc). apply bind_Some in Hc as (w5 & w6 & _ & Hc). apply bind_Some in Hc as (m & w7 & Hm & Hc).
  inv_call. destruct m as [m|]; simplify_eq/=. split; [|done].
  assert (Hl : forall (o : option rstr) (w w' : Live O Others), (mret o : M (option rstr)) w = Some (Some m, w') -> o = Some m) by (by intros o ? ? [= -> _]).
  destruct (g_kind spec); try (apply Hl in Hm); try (by eapply fallback_in); try (destruct live; [by eapply load_balance_in|by eapply fallback_in]).
  destruct (url_test _ _ _) as [p|] eqn:Hu; inv_call; simplify_eq. by eapply url_test_in.
Qed.

Lemma choose_offers standing_of group host live number w c w' : choose R standing_of group host live number w = Some (Some c, w') ->
  exists spec members cycle factors, entries R !! group = Some (Group spec members cycle factors) /\ offered spec members (member c)
    /\ (forall retry, c_retry c = Some retry -> g_kind spec = Smart /\ retry ⊆ members).
Proof.
  unfold choose. destruct (entries R !! group) as [[| | |spec members cycle factors]|] eqn:Hg; try done. intros Hc. exists spec, members, cycle, factors. split; [done|].
  destruct (g_kind spec) eqn:Hk.
  1: { injection Hc as Hc _. apply fmap_Some in Hc as (m & Hm & ->). split; [left|done]. destruct (selections R !! group) as [s|]; [|by apply head_in].
       case_bool_decide; [by injection Hm as ->|by apply head_in]. }
  all: apply bind_Some in Hc as ([o|] & w1 & Ho & Hc); cbn beta iota in Hc;
    [injection Hc as <- _; unfold on_auto in Ho; destruct (override_of _ _ _) as [x s] eqn:Hov; injection Ho as -> _; apply override_in in Hov; split; [by left|done]|].
  1-3: apply choose_by_tests_offers in Hc as [Hc Hr]; rewrite Hr; split; [by left|done].
  - apply choose_smart_offers in Hc as [Hc Hr]. split; [by left|eauto].
  - destruct members as [|m members]; [done|]. injection Hc as Hc _. apply fmap_Some in Hc as (subnet & Hs & ->). split; [|done]. unfold offered, plain, subnet_policy. cbn [member].
    destruct (list_find _ _) as [[i [e policy]]|] eqn:Hl; [left|right; by rewrite Hs].
    apply list_find_Some in Hl as (_ & Hp & _). apply andb_true_iff in Hp as [Hp _]. by apply bool_decide_eq_true in Hp.
Qed.
End Choices.

(** ** The walk *)

Section Names.
Context {O Others U : Type} `{!EqDecision O} `{!EqDecision Others} (R : Registry O Others U).

#[local] Abbreviation M := (Call O Others).

(** [next] is named by what the group [n], on no cycle, offers. *)
Definition leads (n : rstr) (to_ : PolicyRef) : Prop :=
  exists spec members factors m, entries R !! n = Some (Group spec members None factors) /\ offered spec members m /\ parse_ref m = to_.

(** From a name through [ns], itself first, to the last of them. *)
Inductive walk : rstr -> list rstr -> rstr -> Prop :=
  | walk_here n : walk n [n] n
  | walk_on n next ns last : leads n (Named next) -> walk next ns last -> walk n (n :: ns) last.

(** What a resolution says but for the groups' own additions. *)
Definition core (r : Resolution O) : list rstr * O * TerminalKind * option Note := (chain r, to r, terminal r, note r).

(** How a walk along [ns] ends at [p], with [room] levels left there. *)
Definition ends (empty : EmptyGroup) (room : nat) (ns : list rstr) (p : rstr) (r : Resolution O) : Prop :=
  match room, entries R !! p with
  | 0%nat, _ | S _, None => core r = core (rejected R ns None)
  | S _, Some (Alias ToDirect) => core r = (ns ++ [lit "DIRECT"], direct R, EndsDirect, None)
  | S _, Some (Alias (ToReject k)) => core r = (ns ++ [reject_name k], rejects R k, EndsReject, None)
  | S _, Some (Outbound o true) => core r = (ns, o, EndsProxy, None)
  | S _, Some (Outbound o false) => core r = (ns ++ [lit "DIRECT"], o, EndsDirect, None)
  | S _, Some (Unsupported keyword what) => core r = core (rejected R (ns ++ [lit "!unsupported:" ++ keyword]) (Some (NoteUnsupported what)))
  | S _, Some (Group _ _ (Some cycle) _) => core r = core (rejected R ns (Some (NoteCycle cycle)))
  | S _, Some (Group _ _ None _) =>
      (exists b, leads p (BuiltinRef b) /\ core r = core (builtin R b ns))
      \/ (exists d, leads p (Device d) /\ core r = core (device R d ns))
      \/ core r = core (empty_resolution R ns empty)
  end.

(** A group that holds the dial back, and a smart group that was dialled. *)
Definition additions_ok (ns : list rstr) (r : Resolution O) : Prop :=
  (forall g, pending r = Some g -> g ∈ ns)
  /\ (forall sp, smart_pick r = Some sp -> exists spec members factors, sp_group sp ∈ ns
       /\ entries R !! sp_group sp = Some (Group spec members None factors) /\ g_kind spec = Smart /\ sp_member sp ∈ members /\ sp_retry sp ⊆ members).

Lemma core_done ns o t nt r : r = done ns o t nt -> core r = (ns, o, t, nt).
Proof. by intros ->. Qed.

Lemma core_through name c r : core (through name c r) = core r.
Proof. unfold through. by destruct (c_pending c), (c_retry c). Qed.

Lemma through_ok name ns c r spec members factors : additions_ok ns r -> name ∈ ns ->
  entries R !! name = Some (Group spec members None factors) -> (forall retry, c_retry c = Some retry -> g_kind spec = Smart /\ retry ⊆ members /\ member c ∈ members) ->
  additions_ok ns (through name c r).
Proof.
  intros [Hp Hs] Hin He Hc. unfold through. split.
  - intros g. destruct (c_pending c), (c_retry c); simpl; try apply Hp; by intros [= <-].
  - intros sp. destruct (c_retry c) as [retry|]; [|by destruct (c_pending c); simpl; apply Hs]. destruct (Hc retry eq_refl) as (? & ? & ?).
    simpl. intros [= <-]. exists spec, members, factors. by simpl.
Qed.

Lemma additions_none ns r : pending r = None -> smart_pick r = None -> additions_ok ns r.
Proof. intros Hp Hs. split; [intros g; by rewrite Hp|intros sp; by rewrite Hs]. Qed.

Lemma additions_more n ns r : additions_ok ns r -> additions_ok (n :: ns) r.
Proof.
  intros [Hp Hs]. split; [intros g Hg; right; by apply Hp|]. intros sp Hsp. destruct (Hs sp Hsp) as (spec & members & factors & Hin & Hr).
  exists spec, members, factors. split; [by right|done].
Qed.

(** [named] walks. *)
Lemma named_walks room name chain0 empty host live w r w' : named R room name chain0 empty host live w = Some (r, w') ->
  exists ns p, walk name ns p /\ (length ns <= S room)%nat /\ ends empty (S room - length ns) (chain0 ++ ns) p r /\ additions_ok ns r.
Proof.
  revert name chain0 w r w'. induction room as [|room IH]; intros name chain0 w r w'; cbn [named].
  { intros [= <- _]. exists [name], name. split; [constructor|]. split; [simpl; lia|]. split; [done|]. by apply additions_none. }
  assert (Hend : ends empty (S room) (chain0 ++ [name]) name r -> pending r = None -> smart_pick r = None ->
    exists ns p, walk name ns p /\ (length ns <= S (S room))%nat /\ ends empty (S (S room) - length ns) (chain0 ++ ns) p r /\ additions_ok ns r).
  { intros He Hp Hs. exists [name], name. split; [constructor|]. split; [simpl; lia|]. split; [done|]. by apply additions_none. }
  unfold ends in Hend. destruct (entries R !! name) as [[[|k]|o [|]|keyword what|spec members [cycle|] factors]|] eqn:He; try (intros [= <- _]; by apply Hend).
  clear Hend. intros Hc. apply bind_Some in Hc as ([c|] & w1 & Hch & Hc).
  2: { injection Hc as <- _. exists [name], name. split; [constructor|]. split; [simpl; lia|]. split.
       - unfold ends. simpl. rewrite He. right. by right.
       - apply additions_none; by destruct empty. }
  apply bind_Some in Hc as (r1 & w2 & Hr1 & Hc). injection Hc as <- _.
  destruct (choose_offers _ _ _ _ _ _ _ _ _ Hch) as (spec' & members' & cycle' & factors' & He' & Hoff & Hret). rewrite He in He'. injection He' as <- <- <- <-.
  assert (Hlead : forall to_, parse_ref (member c) = to_ -> leads name to_) by (intros to_ Hto; by exists spec, members, factors, (member c)).
  assert (Hretry : forall retry, c_retry c = Some retry -> g_kind spec = Smart /\ retry ⊆ members /\ member c ∈ members).
  { intros retry Hr. destruct (Hret _ Hr) as [Hk Hsub]. split; [done|]. split; [done|]. destruct Hoff as [|[Hk' _]]; [done|congruence]. }
  destruct (parse_ref (member c)) as [b|next|d] eqn:Hp.
  - injection Hr1 as <- _. exists [name], name. split; [constructor|]. split; [simpl; lia|]. split.
    + unfold ends. simpl. rewrite He. left. exists b. split; [by apply Hlead|]. by rewrite core_through.
    + eapply through_ok; [|left|done|done]. apply additions_none; by destruct b.
  - destruct (IH _ _ _ _ _ Hr1) as (ns & p & Hw & Hlen & Hends & Hadd). exists (name :: ns), p. split; [by apply (walk_on _ next); [apply Hlead|]|].
    split; [simpl; lia|]. split.
    + cbn [length]. replace (S (S room) - S (length ns))%nat with (S room - length ns)%nat by lia. rewrite <- app_assoc in Hends. revert Hends. unfold ends.
      by rewrite core_through.
    + eapply through_ok; [by apply additions_more|left|done|done].
  - injection Hr1 as <- _. exists [name], name. split; [constructor|]. split; [simpl; lia|]. split.
    + unfold ends. simpl. rewrite He. right. left. exists d. split; [by apply Hlead|]. by rewrite core_through.
    + eapply through_ok; [|left|done|done]. by apply additions_none.
Qed.

(** DIRECT is reached on purpose. *)
Definition meant_direct (p : rstr) (r : Resolution O) : Prop :=
  (exists o, entries R !! p = Some (Outbound o false) /\ to r = o)
  \/ (to r = direct R /\ (entries R !! p = Some (Alias ToDirect) \/ exists b, leads p (BuiltinRef b) /\ from_builtin b = None)).

Lemma ends_direct empty room ns p r : ends empty room ns p r -> terminal r = EndsDirect ->
  meant_direct p r \/ (empty = EmptyDirect /\ note r = Some (NoteEmpty true) /\ to r = direct R).
Proof.
  unfold ends, meant_direct, core. destruct room as [|room]; [intros [= _ _ -> _]; done|].
  destruct (entries R !! p) as [[[|k]|o [|]|keyword what|spec members [cycle|] factors]|] eqn:He; try (intros [= _ _ -> _]; done).
  - intros [= _ -> _ _] _. left. right. auto.
  - intros [= _ -> _ _] _. left. left. by exists o.
  - intros [(b & Hl & Hc)|[(d & _ & [= _ _ -> _])|Hc]] Ht; [|done|].
    + left. right. rewrite Ht in Hc. destruct b; simpl in Hc; injection Hc as _ ->; try done; (split; [done|right; eexists; split; [exact Hl|done]]).
    + right. rewrite Ht in Hc. destruct empty; simpl in Hc; [by injection Hc as _ -> ->|done].
Qed.

(** What a name leads to.  A resolution that returns has walked from the
    name, group by group — each on no cycle, each leading to one of its
    members (a subnet group also to its default) — at most 18 names (and refuses
    at the last of those), to a last
    one, and says what that one's entry is: its outbound, a refusal (not
    there, not implemented, a cycle, too deep), a built-in policy the last
    group leads to, or what stands for a group without members.  The chain is
    the names walked; a group that holds the dial back is one of them, and a
    smart group that was dialled picks and retries its own members only. *)
Theorem names_lead_on name host w r w' : resolve_with R (Named name) host w = Some (r, w') ->
  exists ns p, walk name ns p /\ (length ns <= S TOP)%nat /\ ends (empty_group R) (S TOP - length ns) ns p r /\ additions_ok ns r.
Proof.
  intros Hr. unfold resolve_with in Hr. exact (named_walks _ _ _ _ _ _ _ _ _ Hr).
Qed.

(** C23: a relay is never bypassed: when the policy another one is dialled
    through resolves to a direct connection, for a dial or for a look at it,
    the walk has ended at a policy that is direct by its own definition or at
    a group that leads to a built-in one; a group without members, a cycle, a
    missing or unsupported policy refuses, whatever stands for an empty group
    elsewhere. *)
Theorem relays_are_not_bypassed name w r w' :
  (resolve_relay R name w = Some (r, w') \/ relay_now R name w = Some (r, w')) -> terminal r = EndsDirect ->
  exists ns p, walk name ns p /\ meant_direct p r.
Proof.
  intros Hr Ht. assert (exists live, named R TOP name [] EmptyReject None live w = Some (r, w')) as [live Hn] by (destruct Hr as [Hr|Hr]; [exists true|exists false]; exact Hr).
  destruct (named_walks _ _ _ _ _ _ _ _ _ Hn) as (ns & p & Hw & _ & He & _). exists ns, p. split; [done|].
  by destruct (ends_direct _ _ _ _ _ He Ht) as [|[? _]].
Qed.
End Names.

(** The small registry: [G] dials [A]; as a relay [S] leads to DIRECT. *)
Lemma names_lead_on_witness : exists r w', resolve_with sample_registry (Named [71]) None sample_live = Some (r, w') /\ chain r = [[71]; [65]]
  /\ exists ns p, walk sample_registry [71] ns p /\ (length ns <= S TOP)%nat /\ ends sample_registry EmptyDirect (S TOP - length ns) ns p r /\ additions_ok sample_registry ns r.
Proof.
  assert (Hc : (fun x : Resolution Z * Live Z unit => chain x.1) <$> resolve_with sample_registry (Named [71]) None sample_live = Some [[71]; [65]]) by (vm_compute; reflexivity).
  destruct (resolve_with sample_registry (Named [71]) None sample_live) as [[r w']|] eqn:Hr; [|discriminate Hc].
  injection Hc as Hc. exists r, w'. split; [reflexivity|]. split; [exact Hc|]. exact (names_lead_on sample_registry [71] None sample_live r w' Hr).
Defined.

Lemma relays_are_not_bypassed_witness : exists r w', relay_now sample_registry [83] sample_live = Some (r, w') /\ terminal r = EndsDirect
  /\ exists ns p, walk sample_registry [83] ns p /\ meant_direct sample_registry p r.
Proof.
  assert (Hc : (fun x : Resolution Z * Live Z unit => terminal x.1) <$> relay_now sample_registry [83] sample_live = Some EndsDirect) by (vm_compute; reflexivity).
  destruct (relay_now sample_registry [83] sample_live) as [[r w']|] eqn:Hr; [|discriminate Hc].
  injection Hc as Hc. exists r, w'. split; [reflexivity|]. split; [exact Hc|]. exact (relays_are_not_bypassed sample_registry [83] sample_live r w' (or_intror Hr) Hc).
Defined.
