(* ===== verification/PolicyTotal.v ===== *)
(** * A look leaves no trace

    Of [PolicyRegistry.v]: the control plane's calls — [live] false — change
    nothing but whether an override that is gone was said to be, and nothing
    depends on that: dials go after a look where they would have gone
    without.  A round's policies are those under its groups.  And dials return,
    whatever has happened to the groups and to the book of scores before. *)

From S2P Require Import Prelude RuleMatcher RuleEngine F64 F64Bounds SmartSites SmartRank SmartPick SmartBook AutoGroups PolicyRegistry PolicyWalk.

Section Views.
Context {O Others U : Type} `{!EqDecision O} `{!EqDecision Others}.

#[local] Abbreviation M := (Call O Others).

(** A state but for what was said. *)
Definition erase (s : State Others) : State Others :=
  set_overrides ((fun o => mkOverride (o_member o) (o_spec o) false) <$> overrides s) s.

(** The states no call can tell apart. *)
Definition alike (w w' : Live O Others) : Prop := erase (auto w) = erase (auto w') /\ smart w = smart w'.

#[export] Instance alike_equivalence : Equivalence alike.
Proof. split; [done|intros w w' [H1 H2]; split; congruence|intros w w' w'' [H1 H2] [H3 H4]; split; congruence]. Qed.

Definition same_answer {A : Type} (r r' : option (A * Live O Others)) : Prop :=
  match r, r' with
  | Some (x, w), Some (y, w') => x = y /\ alike w w'
  | None, None => True
  | _, _ => False
  end.

(** Calls that answer alike in states that are, and calls that leave the state
    as it was. *)
Definition related {A : Type} (m m' : M A) : Prop := forall w w', alike w w' -> same_answer (m w) (m' w').
Definition quiet {A : Type} (m : M A) : Prop := forall w x w', m w = Some (x, w') -> alike w w'.

Lemma related_ret {A : Type} (x : A) : related (mret x) (mret x).
Proof. by intros w w' Hw. Qed.

Lemma related_bind {A B : Type} (m m' : M A) (f f' : A -> M B) : related m m' -> (forall x, related (f x) (f' x)) -> related (m ≫= f) (m' ≫= f').
Proof.
  intros Hm Hf w w' Hw. specialize (Hm w w' Hw). unfold mbind, call_bind. destruct (m w) as [[x w1]|], (m' w') as [[y w1']|]; try done.
  destruct Hm as [-> Hw1]. by apply Hf.
Qed.

Lemma related_fmap {A B : Type} (m m' : M A) (f : A -> B) : related m m' -> related (f <$> m) (f <$> m').
Proof.
  intros Hm w w' Hw. specialize (Hm w w' Hw). unfold fmap, call_fmap. destruct (m w) as [[x w1]|], (m' w') as [[y w1']|]; try done.
  by destruct Hm as [-> Hw1].
Qed.

Lemma related_get {B : Type} (f f' : Live O Others -> M B) : (forall w w', alike w w' -> related (f w) (f' w')) -> related (get ≫= f) (get ≫= f').
Proof. intros Hf w w' Hw. unfold mbind, call_bind, get. by apply Hf. Qed.

Lemma related_of_option {A : Type} (o : option A) : related (of_option o) (of_option o).
Proof. intros w w' Hw. by destruct o. Qed.

Lemma related_traverse {A B : Type} (f f' : A -> M B) l : (forall x, related (f x) (f' x)) -> related (traverse f l) (traverse f' l).
Proof.
  intros Hf. induction l as [|x l IH]; [apply related_ret|]. simpl. apply related_bind; [done|]. intros y. apply related_bind; [done|]. intros ys. apply related_ret.
Qed.

Lemma related_on_auto {A : Type} (f : State Others -> A * State Others) :
  (forall s s', erase s = erase s' -> (f s).1 = (f s').1 /\ erase (f s).2 = erase (f s').2) -> related (on_auto f) (on_auto f).
Proof.
  intros Hf w w' [Ha Hs]. unfold on_auto. destruct (Hf _ _ Ha) as [H1 H2]. destruct (f (auto w)) as [x s], (f (auto w')) as [x' s']. simpl in *. by subst.
Qed.

Lemma related_on_smart {A : Type} (f : SmartBook O -> A * SmartBook O) : related (on_smart f) (on_smart f).
Proof. intros w w' [Ha Hs]. unfold on_smart. rewrite Hs. destruct (f (smart w')). done. Qed.

Lemma related_when b (m m' : M unit) : related m m' -> related (when_ b m) (when_ b m').
Proof. intros Hm. destruct b; [done|apply related_ret]. Qed.

Lemma quiet_ret {A : Type} (x : A) : quiet (mret x).
Proof. by intros w y w' [= _ ->]. Qed.

Lemma quiet_bind {A B : Type} (m : M A) (f : A -> M B) : quiet m -> (forall x, quiet (f x)) -> quiet (m ≫= f).
Proof. intros Hm Hf w y w' (x & w1 & H1%Hm & H2%Hf)%bind_Some. by etrans. Qed.

Lemma quiet_fmap {A B : Type} (m : M A) (f : A -> B) : quiet m -> quiet (f <$> m).
Proof. intros Hm w y w' (x & w1 & H1%Hm & [= -> ->])%fmap_call. done. Qed.

Lemma quiet_get : quiet get.
Proof. by intros w y w' [= _ ->]. Qed.

Lemma quiet_of_option {A : Type} (o : option A) : quiet (of_option o).
Proof. destruct o; [apply quiet_ret|done]. Qed.

Lemma quiet_traverse {A B : Type} (f : A -> M B) l : (forall x, quiet (f x)) -> quiet (traverse f l).
Proof. intros Hf. induction l as [|x l IH]; [apply quiet_ret|]. simpl. apply quiet_bind; [done|]. intros y. apply quiet_bind; [done|]. intros ys. apply quiet_ret. Qed.

(** ** The groups' state *)

Lemma alike_rounds w w' group : alike w w' -> last_round group (auto w) = last_round group (auto w').
Proof. intros [Ha _]. unfold last_round. by injection Ha as _ _ ->. Qed.

Lemma alike_picks w w' group : alike w w' -> pick group (auto w) = pick group (auto w').
Proof. intros [Ha _]. unfold pick. by injection Ha as _ ->. Qed.

Lemma erase_override_of group members (s : State Others) : erase (override_of group members s).2 = erase s.
Proof.
  unfold override_of. destruct (overrides s !! group) as [o|] eqn:Ho; [|done]. case_decide; [done|]. destruct (o_warned o); [done|].
  unfold erase, set_overrides. cbn [snd overrides picks rounds requested epoch cleared]. f_equal. rewrite fmap_insert. cbn [o_member o_spec].
  by rewrite insert_id by (by rewrite lookup_fmap, Ho).
Qed.

Lemma override_of_erased group members (s s' : State Others) : erase s = erase s' ->
  (override_of group members s).1 = (override_of group members s').1 /\ erase (override_of group members s).2 = erase (override_of group members s').2.
Proof.
  intros He. rewrite !erase_override_of. split; [|done]. unfold override_of. injection He as Ho _ _ _ _ _.
  assert (Hg : (fun o => mkOverride (o_member o) (o_spec o) false) <$> overrides s !! group = (fun o => mkOverride (o_member o) (o_spec o) false) <$> overrides s' !! group) by (rewrite <- !lookup_fmap; by rewrite Ho).
  destruct (overrides s !! group) as [[m sp wr]|], (overrides s' !! group) as [[m' sp' wr']|]; simplify_eq/=; [|done].
  case_decide; [done|]. by destruct wr, wr'.
Qed.

Lemma request_erased group (s s' : State Others) : erase s = erase s' -> erase (request group s).2 = erase (request group s').2.
Proof.
  intros He. assert (Hc : forall t : State Others, erase (request group t).2 = (request group (erase t)).2) by (intros t; unfold request; simpl; by case_decide).
  by rewrite !Hc, He.
Qed.

Lemma set_pick_erased group m (s s' : State Others) : erase s = erase s' -> erase (set_pick group m s) = erase (set_pick group m s').
Proof.
  intros He. assert (Hc : forall t : State Others, erase (set_pick group m t) = set_pick group m (erase t)) by (intros t; unfold set_pick; simpl; repeat case_match; done).
  by rewrite !Hc, He.
Qed.

(** ** The registry's calls *)

Variable R : Registry O Others U.

Lemma related_wake group : related (wake group) (wake group).
Proof. apply related_on_auto. intros s s' He. split; [done|by apply request_erased]. Qed.

Lemma related_set_pick group m : related (on_auto (fun s : State Others => (tt, set_pick group m s))) (on_auto (fun s => (tt, set_pick group m s))).
Proof. apply related_on_auto. intros s s' He. split; [done|by apply set_pick_erased]. Qed.

Lemma related_candidate mf : related (candidate R mf) (candidate R mf).
Proof.
  unfold candidate. case_match; try apply related_ret. case_match; try apply related_ret. apply related_get. intros w w' [_ ->].
  apply related_bind; [apply related_of_option|]. intros h. apply related_ret.
Qed.

Lemma related_choose_smart group host live number spec members factors :
  related (choose_smart R group host live number spec members factors) (choose_smart R group host live number spec members factors).
Proof.
  unfold choose_smart. apply related_bind; [apply related_fmap, related_traverse; intros; apply related_candidate|]. intros cs.
  case_bool_decide; [apply related_ret|]. destruct live; simpl; apply related_get; intros w w' Hw.
  - rewrite (alike_rounds _ _ _ Hw). apply related_bind; [apply related_when, related_wake|]. intros _.
    apply related_bind; [destruct host; [apply related_on_smart|apply related_ret]|]. intros site. apply related_bind; [apply related_of_option|]. intros r. apply related_ret.
  - destruct Hw as [_ ->]. destruct (most_used _ _ _ _); [|apply related_ret]. apply related_bind; [apply related_of_option|]. intros r. apply related_ret.
Qed.

Lemma related_choose_by_tests standing_of group host live number spec members : (forall m, related (standing_of m) (standing_of m)) ->
  related (choose_by_tests R standing_of group host live number spec members) (choose_by_tests R standing_of group host live number spec members).
Proof.
  intros Hst. unfold choose_by_tests. apply related_get. intros w w' Hw. rewrite (alike_rounds _ _ _ Hw).
  apply related_bind; [apply related_traverse; intros m; apply related_bind; [done|]; intros s; apply related_ret|]. intros standings.
  apply related_bind; [apply related_when, related_wake|]. intros _. apply related_get. intros w1 w1' Hw1. rewrite (alike_picks _ _ _ Hw1).
  apply related_bind; [|intros m; apply related_ret]. destruct (g_kind spec); try apply related_ret. destruct (url_test _ _ _); [|apply related_ret].
  apply related_bind; [apply related_when, related_set_pick|]. intros _. apply related_ret.
Qed.

Lemma related_choose standing_of group host live number : (forall m, related (standing_of m) (standing_of m)) ->
  related (choose R standing_of group host live number) (choose R standing_of group host live number).
Proof.
  intros Hst. unfold choose. destruct (entries R !! group) as [[| | |spec members cycle factors]|]; try apply related_ret.
  assert (Ho : related (on_auto (override_of group members)) (on_auto (override_of group members))) by (apply related_on_auto, override_of_erased).
  destruct (g_kind spec); [apply related_ret|..]; (apply related_bind; [exact Ho|]; intros [m|]; [apply related_ret|]);
    try (by apply related_choose_by_tests); [apply related_choose_smart|]. destruct members; apply related_ret.
Qed.

Lemma related_standing room name : related (standing R room name) (standing R room name).
Proof.
  revert name. induction room as [|room IH]; intros name; [apply related_ret|]. cbn [standing]. destruct (parse_ref name); try apply related_ret.
  destruct (entries R !! n) as [[| | |spec members cycle factors]|]; try apply related_ret. case_bool_decide; [apply related_ret|]. case_bool_decide.
  - apply related_bind; [by apply related_traverse|]. intros all. destruct (omap _ all); [apply related_ret|]. apply related_bind; [apply related_of_option|]. intros s. apply related_ret.
  - apply related_bind; [by apply related_choose|]. intros [c|]; [apply IH|apply related_ret].
Qed.

Lemma related_named room name chain empty host live : related (named R room name chain empty host live) (named R room name chain empty host live).
Proof.
  revert name chain. induction room as [|room IH]; intros name chain; [apply related_ret|]. cbn [named].
  destruct (entries R !! name) as [[[|k]|o [|]|keyword what|spec members [cycle|] factors]|]; try apply related_ret.
  apply related_bind; [apply related_choose, related_standing|]. intros [c|]; [|apply related_ret]. apply related_bind; [|intros r; apply related_ret].
  destruct (parse_ref (member c)); [apply related_ret|apply IH|apply related_ret].
Qed.

(** ** Looks *)

Lemma quiet_override group members : quiet (on_auto (override_of group members) : M (option rstr)).
Proof.
  intros w x w'. unfold on_auto. pose proof (erase_override_of group members (auto w)) as He. destruct (override_of group members (auto w)) as [o s].
  intros [= _ <-]. by split.
Qed.

Lemma quiet_candidate mf : quiet (candidate R mf).
Proof.
  unfold candidate. case_match; try apply quiet_ret. case_match; try apply quiet_ret. apply quiet_bind; [apply quiet_get|]. intros w.
  apply quiet_bind; [apply quiet_of_option|]. intros h. apply quiet_ret.
Qed.

Lemma quiet_choose standing_of group host number : (forall m, quiet (standing_of m)) -> quiet (choose R standing_of group host false number).
Proof.
  intros Hst. unfold choose. destruct (entries R !! group) as [[| | |spec members cycle factors]|]; try apply quiet_ret.
  assert (Ht : quiet (choose_by_tests R standing_of group host false number spec members)).
  { unfold choose_by_tests. apply quiet_bind; [apply quiet_get|]. intros w. apply quiet_bind; [apply quiet_traverse; intros m; apply quiet_bind; [done|]; intros s; apply quiet_ret|].
    intros standings. apply quiet_bind; [apply quiet_ret|]. intros _. apply quiet_bind; [apply quiet_get|]. intros w'. apply quiet_bind; [|intros m; apply quiet_ret].
    destruct (g_kind spec); try apply quiet_ret. destruct (url_test _ _ _); [|apply quiet_ret]. apply quiet_bind; [apply quiet_ret|]. intros _. apply quiet_ret. }
  assert (Hs : quiet (choose_smart R group host false number spec members factors)).
  { unfold choose_smart. apply quiet_bind; [apply quiet_fmap, quiet_traverse, quiet_candidate|]. intros cs. case_bool_decide; [apply quiet_ret|]. simpl.
    apply quiet_bind; [apply quiet_get|]. intros w. destruct (most_used _ _ _ _); [|apply quiet_ret]. apply quiet_bind; [apply quiet_of_option|]. intros r. apply quiet_ret. }
  destruct (g_kind spec); [apply quiet_ret|..]; (apply quiet_bind; [apply quiet_override|]; intros [m|]; [apply quiet_ret|]); try done.
  destruct members; apply quiet_ret.
Qed.

Lemma quiet_standing room name : quiet (standing R room name).
Proof.
  revert name. induction room as [|room IH]; intros name; [apply quiet_ret|]. cbn [standing]. destruct (parse_ref name); try apply quiet_ret.
  destruct (entries R !! n) as [[| | |spec members cycle factors]|]; try apply quiet_ret. case_bool_decide; [apply quiet_ret|]. case_bool_decide.
  - apply quiet_bind; [by apply quiet_traverse|]. intros all. destruct (omap _ all); [apply quiet_ret|]. apply quiet_bind; [apply quiet_of_option|]. intros s. apply quiet_ret.
  - apply quiet_bind; [by apply quiet_choose|]. intros [c|]; [apply IH|apply quiet_ret].
Qed.

Lemma quiet_named room name chain empty host : quiet (named R room name chain empty host false).
Proof.
  revert name chain. induction room as [|room IH]; intros name chain; [apply quiet_ret|]. cbn [named].
  destruct (entries R !! name) as [[[|k]|o [|]|keyword what|spec members [cycle|] factors]|]; try apply quiet_ret.
  apply quiet_bind; [apply quiet_choose, quiet_standing|]. intros [c|]; [|apply quiet_ret]. apply quiet_bind; [|intros r; apply quiet_ret].
  destruct (parse_ref (member c)); [apply quiet_ret|apply IH|apply quiet_ret].
Qed.

Lemma quiet_available group : quiet (available R group).
Proof.
  unfold available. destruct (entries R !! group) as [[| | |spec members cycle factors]|]; try apply quiet_ret. case_bool_decide; apply quiet_fmap, quiet_traverse; intros m.
  - apply quiet_bind; [|intros h; apply quiet_ret]. unfold smart_health. case_match; try apply quiet_ret. case_match; try apply quiet_ret.
    apply quiet_bind; [apply quiet_get|]. intros w. apply quiet_of_option.
  - apply quiet_bind; [apply quiet_standing|]. intros s. apply quiet_ret.
Qed.

Lemma quiet_current_member group : quiet (current_member R group).
Proof. apply quiet_bind; [apply quiet_choose, quiet_standing|]. intros c. apply quiet_ret. Qed.

Lemma related_resolve policy host : related (resolve_with R policy host) (resolve_with R policy host).
Proof. destruct policy; [apply related_ret|apply related_named|apply related_ret]. Qed.

(** The control plane's calls. *)
Inductive looked (w w' : Live O Others) : Prop :=
  | looked_relay name r : relay_now R name w = Some (r, w') -> looked w w'
  | looked_member group m : current_member R group w = Some (m, w') -> looked w w'
  | looked_available group ms : available R group w = Some (ms, w') -> looked w w'.

(** A look leaves no trace.  Asking where a relay leads, what a group
    points at, or which members pass changes nothing but whether the override
    a group no longer offers was said to be gone; no test is asked for, no held
    member moves.  And no dial can tell: after any number of looks every
    policy, for every host, resolves to the same — panics included — as it
    would have, and leaves states a dial cannot tell apart either. *)
Theorem looks_leave_no_trace w w' : rtc looked w w' ->
  alike w w' /\ forall policy host, same_answer (resolve_with R policy host w) (resolve_with R policy host w').
Proof.
  intros Hl. assert (Ha : alike w w').
  { induction Hl as [w|w w1 w' Hone _ IH]; [done|]. etrans; [|exact IH].
    destruct Hone as [name r Hr|group m Hr|group ms Hr]; [by eapply quiet_named|by eapply quiet_current_member|by eapply quiet_available]. }
  split; [done|]. intros policy host. by apply related_resolve.
Qed.
End Views.

(** The control plane asks where [G] points; then it is dialled. *)
Lemma looks_leave_no_trace_witness : exists w', current_member sample_registry [71] sample_live = Some (Some [65], w')
  /\ same_answer (resolve_with sample_registry (Named [71]) None sample_live) (resolve_with sample_registry (Named [71]) None w').
Proof.
  assert (Hc : (fun x : option rstr * Live Z unit => x.1) <$> current_member sample_registry [71] sample_live = Some (Some [65])) by (vm_compute; reflexivity).
  destruct (current_member sample_registry [71] sample_live) as [[m w']|] eqn:Hr; [|discriminate Hc]. injection Hc as Hm. simpl in Hm. exists w'. split; [by rewrite Hm|].
  refine (proj2 (looks_leave_no_trace sample_registry sample_live w' _) (Named [71]) None). apply rtc_once. exact (looked_member sample_registry sample_live w' [71] m Hr).
Defined.

(** ** What a round of tests covers
    [gather] of [PolicyRegistry.v] lists every group under a group, once, and
    every policy under those, once. *)

Section Rounds.
Context {O Others U : Type} (R : Registry O Others U).

Abbreviation Acc := (list rstr * list rstr)%type.

(** [m] is a member of the group [g], which is on no cycle. *)
Definition under (g m : rstr) : Prop := exists spec members factors, entries R !! g = Some (Group spec members None factors) /\ m ∈ members.

(** The groups under a group, itself first. *)
Definition reaches : rstr -> rstr -> Prop := rtc (fun g m => under g m /\ is_group R m = true).

(** What a group asks for is there. *)
Definition covered (acc : Acc) (g : rstr) : Prop := forall m, under g m -> if is_group R m then m ∈ acc.1 else m ∈ acc.2.

(** What visiting under [g] does to the lists. *)
Record visits (g : rstr) (acc acc' : Acc) : Prop := {
  v_groups : acc.1 ⊆ acc'.1;
  v_policies : acc.2 ⊆ acc'.2;
  v_nodup : NoDup acc.1 -> NoDup acc.2 -> NoDup acc'.1 /\ NoDup acc'.2;
  v_new_groups : forall x, x ∈ acc'.1 -> x ∈ acc.1 \/ (reaches g x /\ is_group R x = true);
  v_new_policies : forall p, p ∈ acc'.2 -> p ∈ acc.2 \/ (is_group R p = false /\ exists h, reaches g h /\ under h p);
  v_covered : forall x, x ∈ acc'.1 -> x ∈ acc.1 \/ x = g \/ covered acc' x;
}.

Lemma covered_mono acc acc' g : acc.1 ⊆ acc'.1 -> acc.2 ⊆ acc'.2 -> covered acc g -> covered acc' g.
Proof. intros H1 H2 Hc m Hm. specialize (Hc m Hm). destruct (is_group R m); set_solver. Qed.

Lemma visits_refl g acc : visits g acc acc.
Proof. split; auto. Qed.

Lemma visits_trans g a b c : visits g a b -> visits g b c -> visits g a c.
Proof.
  intros [a1 a2 a3 a4 a5 a6] [b1 b2 b3 b4 b5 b6]. split.
  - by etrans.
  - by etrans.
  - intros H1 H2. destruct (a3 H1 H2). auto.
  - intros x [Hx|Hx]%b4; [by apply a4|by right].
  - intros p [Hp|Hp]%b5; [by apply a5|by right].
  - intros x [Hx|Hx]%b6; [|by right]. destruct (a6 x Hx) as [|[|Hc]]; [by left|by right; left|]. right. right. by eapply covered_mono.
Qed.

(** A visit of a group's member that covers it is a visit of the group. *)
Lemma visits_member g m acc acc' : under g m -> is_group R m = true -> visits m acc acc' -> m ∈ acc.1 \/ covered acc' m -> visits g acc acc'.
Proof.
  intros Hm Hg [a1 a2 a3 a4 a5 a6] Hc. split; try done.
  - intros x [|[Hr Hx]]%a4; [by left|]. right. split; [|done]. by eapply rtc_l.
  - intros p [|(Hp & h & Hr & Hh)]%a5; [by left|]. right. split; [done|]. exists h. split; [by eapply rtc_l|done].
  - intros x Hx. destruct (a6 x Hx) as [|[->|]]; [by left| |by right; right]. destruct Hc; [by left|by right; right].
Qed.

(** A policy is noted once. *)
Lemma visits_policy g m acc : under g m -> is_group R m = false -> visits g acc (if bool_decide (m ∈ acc.2) then acc else (acc.1, acc.2 ++ [m])).
Proof.
  intros Hm Hg. case_bool_decide as Hin; [apply visits_refl|]. split; simpl; [done|set_solver| |auto| |auto].
  - intros H1 H2. split; [done|]. apply NoDup_app. split; [done|]. split; [set_solver|]. apply NoDup_singleton.
  - intros p [Hp| ->%list_elem_of_singleton]%elem_of_app; [by left|]. right. split; [done|]. exists g. split; [apply rtc_refl|done].
Qed.

Lemma is_group_entry g : is_group R g = true -> exists spec members cycle factors, entries R !! g = Some (Group spec members cycle factors).
Proof. unfold is_group. repeat case_match; try done. eauto. Qed.

Section Height.
(** The groups on no cycle are at most so deep. *)
Context (height : rstr -> nat) (Hheight : forall g m, under g m -> is_group R m = true -> (height m < height g)%nat).

Lemma gather_visits room g acc : is_group R g = true -> (height g < room)%nat ->
  let acc' := gather R room g acc in
  visits g acc acc' /\ g ∈ acc'.1 /\ (g ∈ acc.1 \/ covered acc' g).
Proof.
  revert g acc. induction room as [|room IH]; intros g acc Hg Hh; [lia|]. cbn [gather]. case_bool_decide as Hin; [split; [apply visits_refl|auto]|].
  destruct (is_group_entry g Hg) as (spec & members & cycle & factors & He). rewrite He. set (acc0 := (acc.1 ++ [g], acc.2)).
  assert (H0 : visits g acc acc0).
  { split; simpl; [set_solver|done| | |auto|]; [intros H1 H2; split; [|done]; apply NoDup_app; split; [done|split; [set_solver|apply NoDup_singleton]]|..].
    - intros x [Hx| ->%list_elem_of_singleton]%elem_of_app; [by left|]. right. split; [apply rtc_refl|done].
    - intros x [Hx| ->%list_elem_of_singleton]%elem_of_app; auto. }
  assert (Hg0 : g ∈ acc0.1) by (simpl; set_solver). destruct cycle as [c|].
  { rewrite bool_decide_true by eauto. split; [done|]. split; [done|]. right. intros m (? & ? & ? & He' & _). congruence. }
  rewrite bool_decide_false by (intros [? ?]; done).
  assert (Hfold : forall ms acc1, (forall m, m ∈ ms -> under g m) -> let acc2 := foldl (fun acc m => if is_group R m then gather R room m acc
      else if bool_decide (m ∈ acc.2) then acc else (acc.1, acc.2 ++ [m])) acc1 ms in
    visits g acc1 acc2 /\ forall m, m ∈ ms -> if is_group R m then m ∈ acc2.1 else m ∈ acc2.2).
  { induction ms as [|m ms IHms]; intros acc1 Hms; [split; [apply visits_refl|by intros m ?%elem_of_nil]|]. cbn [foldl].
    set (acc1' := if is_group R m then _ else _). assert (Hone : visits g acc1 acc1' /\ if is_group R m then m ∈ acc1'.1 else m ∈ acc1'.2).
    { subst acc1'. assert (Hum : under g m) by (apply Hms; left). destruct (is_group R m) eqn:Hm.
      - assert (height m < room)%nat by (specialize (Hheight g m Hum Hm); lia). destruct (IH m acc1 Hm H) as (Hv & Hmin & Hc).
        split; [by eapply visits_member|done].
      - split; [by apply visits_policy|]. case_bool_decide; [done|]. simpl. set_solver. }
    destruct Hone as [Hv Hin1]. destruct (IHms acc1' ltac:(intros; apply Hms; by right)) as [Hv' Hin2]. split; [by eapply visits_trans|].
    intros x [->|Hx]%elem_of_cons; [|by apply Hin2]. destruct Hv' as [H1 H2 _ _ _ _]. destruct (is_group R m); [by apply H1|by apply H2]. }
  destruct (Hfold members acc0) as [Hv Hall]; [intros m Hm; by exists spec, members, factors|]. split; [by eapply visits_trans|].
  split; [by apply (v_groups _ _ _ Hv)|]. right. intros m (spec' & members' & factors' & He' & Hm). rewrite He in He'. injection He' as <- <- <-. by apply Hall.
Qed.
End Height.

(** A round of a group covers all of it.  Where the groups on no cycle are
    nested no deeper than the code follows — some height falls from a group to
    the groups in it, and the group's is at most 16 — the groups a round ends
    for are exactly the ones under the group, itself included, each once, and
    the policies it tests exactly the members of those that are no groups,
    each once; a name that is no group gives a round that ends for that name
    alone and tests nothing, so that its request does not stand for ever. *)
Theorem rounds_cover_their_groups (height : rstr -> nat) group :
  (forall g m, under g m -> is_group R m = true -> (height m < height g)%nat) -> (height group <= MAX_DEPTH)%nat ->
  let '(groups, policies) := group_round R group in
  NoDup groups /\ NoDup policies
  /\ (forall g, g ∈ groups <-> g = group \/ (reaches group g /\ is_group R g = true))
  /\ (forall p, p ∈ policies <-> is_group R p = false /\ exists g, reaches group g /\ under g p).
Proof.
  intros Hheight Hh. unfold group_round. destruct (is_group R group) eqn:Hg.
  - destruct (gather_visits height Hheight TOP group ([], []) Hg ltac:(unfold TOP; lia)) as (Hv & Hin & Hc).
    destruct (gather R TOP group ([], [])) as [gs ps]. destruct Hv as [_ _ Hn Hgs Hps Hcov]. simpl in *.
    assert (Hclosed : forall g, reaches group g -> is_group R g = true -> g ∈ gs /\ covered (gs, ps) g).
    { intros g Hr _. assert (Hcg : forall x, x ∈ gs -> covered (gs, ps) x).
      { intros x Hx. destruct (Hcov x Hx) as [Hn0|[->|Hcx]]; [by apply elem_of_nil in Hn0| |done]. destruct Hc as [Hn0|]; [by apply elem_of_nil in Hn0|done]. }
      assert (Hg' : g ∈ gs); [|auto]. clear Hcov Hps Hgs Hn Hc Hh Hg. induction Hr as [x|x y z [Hu Hy] Hr IH]; [done|]. apply IH. specialize (Hcg x Hin y Hu). by rewrite Hy in Hcg. }
    assert (Hne : round_of gs group = gs) by (destruct gs; [by apply elem_of_nil in Hin|done]). rewrite Hne.
    destruct (Hn ltac:(constructor) ltac:(constructor)) as [H1 H2]. split; [done|]. split; [done|]. split.
    + intros g. split; [intros Hx; destruct (Hgs g Hx) as [Hx0|]; [by apply elem_of_nil in Hx0|by right]|]. intros [->|[Hr Hx]]; [done|]. by apply Hclosed.
    + intros p. split; [intros Hx; destruct (Hps p Hx) as [Hx0|]; [by apply elem_of_nil in Hx0|done]|]. intros (Hp & g & Hr & Hu).
      assert (Hgg : is_group R g = true) by (unfold is_group; destruct Hu as (? & ? & ? & -> & _); done).
      destruct (Hclosed g Hr Hgg) as [_ Hcg]. specialize (Hcg p Hu). by rewrite Hp in Hcg.
  - assert (Hgat : gather R TOP group ([], []) = ([], [])).
    { cbn [gather TOP]. rewrite bool_decide_false by apply not_elem_of_nil. unfold is_group in Hg. destruct (entries R !! group) as [[]|]; done. }
    rewrite Hgat. simpl. split; [apply NoDup_singleton|]. split; [constructor|].
    assert (Hno : forall x, under group x -> False) by (intros x (? & ? & ? & He & _); unfold is_group in Hg; by rewrite He in Hg).
    split.
    + intros g. rewrite list_elem_of_singleton. split; [by left|]. intros [|[Hr Hx]]; [done|]. inversion Hr as [|? y ? [Hu _]]; subst; [done|]. by apply Hno in Hu.
    + intros p. split; [by intros ?%elem_of_nil|]. intros (_ & g & Hr & Hu). inversion Hr as [|? y ? [Hu' _]]; subst; [by apply Hno in Hu|by apply Hno in Hu'].
Qed.
End Rounds.

(** A round of [G] is one of [H] too, and tests [A] once. *)
Definition sample_height (g : rstr) : nat := if decide (g = [71]) then 1 else 0.

Lemma rounds_cover_their_groups_witness : group_round sample_registry [71] = ([[71]; [72]], [[65]])
  /\ forall p, p ∈ [[65]] <-> is_group sample_registry p = false /\ exists g, reaches sample_registry [71] g /\ under sample_registry g p.
Proof.
  assert (Hr : group_round sample_registry [71] = ([[71]; [72]], [[65]])) by (vm_compute; reflexivity). split; [exact Hr|].
  pose proof (rounds_cover_their_groups sample_registry sample_height [71]) as Ht. rewrite Hr in Ht. apply Ht; [|unfold sample_height; vm_compute; lia].
  intros g m (spec & members & factors & He & Hm) Hg. revert He. unfold sample_registry. cbn [entries list_to_map foldr fst snd].
  intros He. repeat match goal with H : <[_:=_]> _ !! _ = Some _ |- _ => apply lookup_insert_Some in H as [[<- H]|[_ H]] end; try done.
  all: injection He as <- <- <-; repeat (apply elem_of_cons in Hm as [->|Hm]; [try (vm_compute in Hg; discriminate Hg); vm_compute; lia|]); by apply elem_of_nil in Hm.
Defined.

(** ** Dials always return
    Of [PolicyRegistry.v] and [SmartBook.v]: whatever was reported of the members, no
    resolution panics, whatever the state of the groups. *)

Section Total.
Context {O Others U : Type} `{!EqDecision O} `{!EqDecision Others} (R : Registry O Others U).

#[local] Abbreviation M := (Call O Others).

(** Every record of the smart groups' book has a score a [Duration] holds. *)
Definition scores_fit (w : Live O Others) : Prop := forall policy o, exists h, book_health (exp2 R) policy o (now R) (smart w) = Some h.

(** The factors are what the parser lets through; no test took longer than
    [longest], so that the scores of a group's members can be added up. *)
Record registry_ok (longest : Z) : Prop := {
  ok_longest : 0 <= longest;
  ok_scores : forall policy key score, outcome R policy key = Some (Some score) -> 0 <= score <= longest;
  ok_groups : forall name spec members cycle factors, entries R !! name = Some (Group spec members cycle factors) ->
    Forall factor_ok factors /\ Z.of_nat (length members) * longest < 2 ^ 64 * SECOND;
}.

(** The records of two states are the same. *)
Definition same_records (w w' : Live O Others) : Prop := records (smart w') = records (smart w).

Lemma scores_fit_same w w' : same_records w w' -> scores_fit w -> scores_fit w'.
Proof. intros Hr Hw policy o. destruct (Hw policy o) as (h & Hh). exists h. unfold book_health in *. by rewrite Hr. Qed.

(** A call that returns, with what [Q] says, and leaves the records as they are. *)
Definition returns {A : Type} (Q : A -> Prop) (m : M A) : Prop := forall w, scores_fit w -> exists x w', m w = Some (x, w') /\ same_records w w' /\ Q x.

Lemma returns_ret {A : Type} (Q : A -> Prop) x : Q x -> returns Q (mret x).
Proof. intros Hx w Hw. by exists x, w. Qed.

Lemma returns_bind {A B : Type} (P : A -> Prop) (Q : B -> Prop) (m : M A) (f : A -> M B) : returns P m -> (forall x, P x -> returns Q (f x)) -> returns Q (m ≫= f).
Proof.
  intros Hm Hf w Hw. destruct (Hm w Hw) as (x & w1 & Hx & Hw1 & HP). destruct (Hf x HP w1 (scores_fit_same _ _ Hw1 Hw)) as (y & w2 & Hy & Hw2 & HQ).
  exists y, w2. split; [|split; [unfold same_records in *; congruence|done]]. unfold mbind, call_bind. by rewrite Hx.
Qed.

Lemma returns_get {B : Type} (Q : B -> Prop) (f : Live O Others -> M B) : (forall w, scores_fit w -> returns Q (f w)) -> returns Q (get ≫= f).
Proof. intros Hf w Hw. by apply Hf. Qed.

Lemma returns_fmap {A B : Type} (P : A -> Prop) (Q : B -> Prop) (m : M A) (f : A -> B) : returns P m -> (forall x, P x -> Q (f x)) -> returns Q (f <$> m).
Proof.
  intros Hm Hf w Hw. destruct (Hm w Hw) as (x & w1 & Hx & Hw1 & HP). exists (f x), w1. split; [unfold fmap, call_fmap; by rewrite Hx|auto].
Qed.

Lemma returns_some {A : Type} (Q : A -> Prop) (o : option A) x : o = Some x -> Q x -> returns Q (of_option o).
Proof. intros -> Hx. by apply returns_ret. Qed.

Lemma returns_any {A : Type} (Q : A -> Prop) (m : M A) : returns Q m -> returns (fun _ => True) m.
Proof. intros Hm w Hw. destruct (Hm w Hw) as (x & w' & ? & ? & _). by exists x, w'. Qed.

Lemma returns_traverse {A B : Type} (Q : B -> Prop) (f : A -> M B) l : (forall x, x ∈ l -> returns Q (f x)) ->
  returns (fun ys => Forall Q ys /\ length ys = length l) (traverse f l).
Proof.
  induction l as [|x l IH]; intros Hf; [by apply returns_ret|]. simpl. eapply returns_bind; [apply Hf; left|]. intros y Hy.
  eapply returns_bind; [apply IH; intros; apply Hf; by right|]. intros ys [Hys Hlen]. apply returns_ret. split; [by constructor|simpl; lia].
Qed.

Lemma returns_on_auto {A : Type} (f : State Others -> A * State Others) : returns (fun _ => True) (on_auto f).
Proof. intros w Hw. unfold on_auto. destruct (f (auto w)) as [x s]. by exists x, (mkLive s (smart w)). Qed.

Lemma returns_when b (m : M unit) : returns (fun _ => True) m -> returns (fun _ => True) (when_ b m).
Proof. intros Hm. destruct b; [done|by apply returns_ret]. Qed.

Lemma returns_site host : returns (fun _ => True) (on_smart (book_site host (now R)) : M SiteMemory).
Proof.
  intros w Hw. unfold on_smart, book_site. destruct (read host (now R) (sites (smart w))) as [m s]. eexists _, _. split; [done|]. by split.
Qed.

(** *** Scores *)

Lemma from_secs_nonneg x d : from_secs_f64 x = Some d -> 0 <= d.
Proof.
  unfold from_secs_f64. destruct x as [s|s| |[] m e]; try done; [by intros [= <-]|]. assert (0 <= Z.pos m * SECOND) by (unfold SECOND; lia).
  destruct (0 <=? e) eqn:He; case_match; intros [= <-].
  - apply Z.mul_nonneg_nonneg; [done|]. apply Z.pow_nonneg. lia.
  - unfold round_half_even. assert (0 <= Z.pos m * SECOND / 2 ^ (- e)) by (apply Z.div_pos; [done|apply Z.pow_pos_nonneg; lia]). cbv zeta. repeat case_match; lia.
Qed.

Lemma health_score policy o (b : SmartBook O) s : book_health (exp2 R) policy o (now R) b = Some (Healthy s) -> 0 <= s.
Proof.
  unfold book_health, record_health. intros Hh. case_match; [|done]. case_decide; [|done]. destruct (f64_lt _ _); cbn [fmap option_fmap option_map] in Hh.
  - destruct (from_secs_f64 _) as [d|] eqn:Hd; [|done]. apply from_secs_nonneg in Hd. simpl in Hh. case_match; [done|]. by injection Hh as <-.
  - simpl in Hh. by case_match.
Qed.

Lemma sum_bounds (l : list Z) (longest : Z) : Forall (fun x => 0 <= x <= longest) l -> 0 <= foldr Z.add 0 l <= Z.of_nat (length l) * longest.
Proof. induction 1 as [|x l Hx Hl IH]; simpl; [lia|]. lia. Qed.

Lemma average_fits l longest : l <> [] -> Forall (fun x => 0 <= x <= longest) l -> Z.of_nat (length l) * longest < 2 ^ 64 * SECOND ->
  exists a, average l = Some a /\ 0 <= a <= longest.
Proof.
  intros Hne Hl Hfit. pose proof (sum_bounds _ _ Hl) as Hs. unfold average. cbv zeta. set (sum := foldr Z.add 0 l) in *.
  assert (sum / SECOND < 2 ^ 64) as Hlt%Z.ltb_lt by (apply Z.div_lt_upper_bound; [done|lia]). rewrite Hlt. eexists. split; [done|].
  assert (0 < Z.of_nat (length l)) by (destruct l; [done|simpl; lia]). split; [apply Z.div_pos; lia|]. apply Z.div_le_upper_bound; lia.
Qed.

(** *** The calls *)

Context (longest : Z) (Hok : registry_ok longest).

Definition standing_ok (s : Standing) : Prop := match s with Passed score => 0 <= score <= longest | _ => True end.

Lemma leaf_standing_ok name : standing_ok (leaf_standing R name).
Proof.
  unfold leaf_standing. destruct (test_slot R name) as [[policy test]|]; [|done]. destruct (outcome R policy (test_key test)) as [[score|]|] eqn:Ho; try done.
  by eapply (ok_scores _ Hok).
Qed.

Lemma candidate_returns mf : factor_ok mf.2 -> returns (fun oc => forall c, oc = Some c -> can_rank c) (candidate R mf).
Proof.
  intros Hf. unfold candidate. destruct (entries R !! mf.1) as [[|o proxy| |]|]; try (by apply returns_ret). apply returns_get. intros w Hw.
  destruct (Hw mf.1 o) as [h Hh]. eapply returns_bind; [eapply (returns_some (fun h' => h' = h)); done|]. intros h' ->. apply returns_ret. intros c [= <-].
  split; [done|]. simpl. destruct h; [by eapply health_score|done|done].
Qed.

Lemma choose_smart_returns group host live number spec members factors : Forall factor_ok factors ->
  returns (fun _ => True) (choose_smart R group host live number spec members factors).
Proof.
  intros Hf. unfold choose_smart. eapply (returns_bind (Forall can_rank)).
  { eapply returns_fmap; [eapply (returns_traverse (fun oc => forall c, oc = Some c -> can_rank c))|].
    - intros [m f] Hmf. apply candidate_returns. simpl. apply elem_of_zip_r in Hmf. rewrite Forall_forall in Hf. by apply Hf.
    - intros ocs [Hall _]. rewrite Forall_forall in Hall. apply Forall_forall. intros c (oc & Hoc & Hid)%list_elem_of_omap. unfold id in Hid. subst. by apply (Hall _ Hoc). }
  intros cs Hcs. case_bool_decide; [by apply returns_ret|]. destruct live; simpl; apply returns_get; intros w Hw.
  - eapply returns_bind; [apply returns_when, returns_on_auto|]. intros _ _. eapply returns_bind; [destruct host; [apply returns_site|by apply (returns_ret (fun _ => True))]|].
    intros site _. eapply returns_bind; [eapply (returns_some (fun _ => True)); [by apply rank_total|done]|]. intros r _. by apply returns_ret.
  - destruct (most_used _ _ _ _); [|by apply returns_ret]. eapply returns_bind; [eapply (returns_some (fun _ => True)); [by apply rank_total|done]|]. intros r _. by apply returns_ret.
Qed.

Lemma choose_returns standing_of group host live number : (forall m, returns standing_ok (standing_of m)) -> returns (fun _ => True) (choose R standing_of group host live number).
Proof.
  intros Hst. unfold choose. destruct (entries R !! group) as [[| | |spec members cycle factors]|] eqn:He; try (by apply returns_ret).
  destruct (ok_groups _ Hok _ _ _ _ _ He) as [Hf _].
  assert (Ht : returns (fun _ => True) (choose_by_tests R standing_of group host live number spec members)).
  { unfold choose_by_tests. apply returns_get. intros w Hw. eapply returns_bind; [eapply (returns_traverse (fun _ => True)); intros m _; eapply returns_bind; [apply Hst|]; intros s _; by apply returns_ret|].
    intros standings _. eapply returns_bind; [apply returns_when, returns_on_auto|]. intros _ _. apply returns_get. intros w' _. eapply (returns_bind (fun _ => True)); [|intros m _; by apply returns_ret].
    destruct (g_kind spec); try (by apply returns_ret). destruct (url_test _ _ _); [|by apply returns_ret]. eapply returns_bind; [apply returns_when, returns_on_auto|]. intros _ _. by apply returns_ret. }
  destruct (g_kind spec); [by apply returns_ret|..]; (eapply returns_bind; [apply returns_on_auto|]; intros [m|] _; [by apply returns_ret|]); try done.
  - by apply choose_smart_returns.
  - destruct members; by apply returns_ret.
Qed.

Lemma standing_returns room name : returns standing_ok (standing R room name).
Proof.
  revert name. induction room as [|room IH]; intros name; [by apply returns_ret|]. cbn [standing]. pose proof (leaf_standing_ok name) as Hleaf.
  destruct (parse_ref name); try (by apply returns_ret). destruct (entries R !! n) as [[| | |spec members cycle factors]|] eqn:He; try (by apply returns_ret).
  case_bool_decide; [by apply returns_ret|]. case_bool_decide.
  - eapply returns_bind; [apply (returns_traverse standing_ok); intros; apply IH|]. intros all [Hall Hlen]. destruct (ok_groups _ Hok _ _ _ _ _ He) as [_ Hfit].
    assert (Hp : Forall (fun x => 0 <= x <= longest) (omap (fun s => passes s (g_test spec)) all)).
    { rewrite Forall_forall in Hall. apply Forall_forall. intros x (s & Hs & Hx)%list_elem_of_omap. specialize (Hall s Hs). unfold passes in Hx. destruct s; [|done|done]. repeat case_match; simplify_eq; exact Hall. }
    assert (Hl : (length (omap (fun s => passes s (g_test spec)) all) <= length members)%nat).
    { rewrite <- Hlen. clear. induction all as [|s all IH]; [done|]. cbn [omap list_omap length]. destruct (passes s (g_test spec)); cbn [length]; [by apply le_n_S|by apply Nat.le_le_succ_r]. }
    destruct (omap _ all) as [|s ss]; [apply returns_ret; by case_match|]. destruct (average_fits (s :: ss) longest ltac:(done) Hp) as (a & Ha & Hbound).
    { pose proof (ok_longest _ Hok). eapply Z.le_lt_trans; [|exact Hfit]. apply Z.mul_le_mono_nonneg_r; lia. }
    eapply returns_bind; [eapply (returns_some (fun a' => a' = a)); done|]. intros a' ->. by apply returns_ret.
  - eapply returns_bind; [apply choose_returns, IH|]. intros [c|] _; [apply IH|by apply returns_ret].
Qed.

Lemma named_returns room name chain empty host live : returns (fun _ => True) (named R room name chain empty host live).
Proof.
  revert name chain. induction room as [|room IH]; intros name chain; [by apply returns_ret|]. cbn [named].
  destruct (entries R !! name) as [[[|k]|o [|]|keyword what|spec members [cycle|] factors]|]; try (by apply returns_ret).
  eapply returns_bind; [apply choose_returns; intros; apply standing_returns|]. intros [c|] _; [|by apply returns_ret].
  eapply (returns_bind (fun _ => True)); [|intros r _; by apply returns_ret]. destruct (parse_ref (member c)); [by apply returns_ret|apply IH|by apply returns_ret].
Qed.

(** A dial returns. *)
Lemma dial_returns policy host w : scores_fit w -> exists r w', resolve_with R policy host w = Some (r, w') /\ same_records w w'.
Proof.
  intros Hw. destruct policy as [b|name|d]; [by exists (builtin R b []), w| |by exists (device R d []), w].
  destruct (named_returns TOP name [] (empty_group R) host true w Hw) as (r & w' & Hr & Hw' & _). by exists r, w'.
Qed.
End Total.

(** *** What happens to a program's policies *)

Section Happens.
Context {O Others U : Type} `{!EqDecision O} `{!EqDecision Others} (exp2_ : f64 -> f64).

(** A call of the book, a dial by the registry of the moment, or anything at all
    that befalls the state of the groups. *)
Inductive Happening :=
  | Called (c : BookCall O)
  | Dialled (R : Registry O Others U) (policy : PolicyRef) (host : option rstr)
  | Befell (s : State Others).

Definition happen (h : Happening) (w : Live O Others) : option (Live O Others) :=
  match h with
  | Called c => b ← book_call exp2_ c (smart w); Some (mkLive (auto w) b)
  | Dialled R policy host => snd <$> resolve_with R policy host w
  | Befell s => Some (mkLive s (smart w))
  end.

Fixpoint happens (hs : list Happening) (w : Live O Others) : option (Live O Others) :=
  match hs with
  | [] => Some w
  | h :: hs => w ← happen h w; happens hs w
  end.

(** A registry that can be dialled by. *)
Definition can_dial (R : Registry O Others U) : Prop := exp2 R = exp2_ /\ exists longest, registry_ok R longest.

Definition happening_ok (h : Happening) : Prop :=
  match h with
  | Called c => call_ok c
  | Dialled R _ _ => can_dial R
  | Befell _ => True
  end.

Context (Hexp : exp2_law exp2_).

Lemma fits_scores n (R : Registry O Others U) w : 0 <= n <= MANY -> exp2 R = exp2_ -> book_fits n (smart w) -> scores_fit R w.
Proof. intros Hn Hr Hb policy o. rewrite Hr. by apply (book_health_fits exp2_ Hexp n). Qed.

Lemma happen_fits n h w : 0 <= n < MANY -> book_fits n (smart w) -> happening_ok h -> exists w', happen h w = Some w' /\ book_fits (n + 1) (smart w').
Proof.
  intros Hn Hb Hh. pose proof (book_fits_more n (n + 1) (smart w) ltac:(lia) Hb) as Hmore. destruct h as [c|R policy host|s]; cbn [happen happening_ok] in *.
  - destruct (call_fits exp2_ Hexp n c (smart w) Hn Hb Hh) as (b & -> & Hb'). by eexists.
  - destruct Hh as (Hr & longest & Hok). destruct (dial_returns R longest Hok policy host w) as (r & w' & -> & Hs); [by apply (fits_scores n); [lia| |]|]. exists w'. split; [done|]. unfold book_fits. by rewrite Hs.
  - by eexists.
Qed.

Lemma happens_fits hs : forall n w, 0 <= n -> n + Z.of_nat (length hs) <= MANY -> book_fits n (smart w) -> Forall happening_ok hs ->
  exists w', happens hs w = Some w' /\ book_fits (n + Z.of_nat (length hs)) (smart w').
Proof.
  induction hs as [|h hs IH]; intros n w Hn Hm Hb Hok; cbn [happens length] in *; [exists w; split; [done|by rewrite Z.add_0_r]|]. apply Forall_cons in Hok as [Hh Hok].
  destruct (happen_fits n h w ltac:(lia) Hb Hh) as (w1 & -> & Hb1). cbn [mbind option_bind]. destruct (IH (n + 1) w1 ltac:(lia) ltac:(lia) Hb1 Hok) as (w' & Hw' & Hb'). exists w'. split; [done|]. by replace (n + Z.of_nat (S (length hs))) with (n + 1 + Z.of_nat (length hs)) by lia.
Qed.

(** C24: dials always return.  Start with a book of nothing; let any 2^32 things
    happen at most, in any order and at any instants: samples, failures, outcomes of
    sessions and tests, looks at sites, uses, forgetting, dials by whatever registry
    there is, and any change at all to the state of the groups.  Nothing of it
    panics, every policy has a health at every instant, and then every policy
    resolves for every host — cycles, missing names, groups nested too deep and empty
    groups included —, leaving the records as they are.  The latencies are below 2^28
    seconds; a registry's factors are what the parser lets through and the scores of
    its tests can be added up over a group; [exp2] of what is not above zero is from
    zero to one, as documented. *)
Theorem dials_always_return hs s : Forall happening_ok hs -> Z.of_nat (length hs) <= MANY ->
  exists w, happens hs (mkLive s new_book) = Some w
    /\ (forall policy o now, exists h, book_health exp2_ policy o now (smart w) = Some h)
    /\ (forall R policy host, can_dial R -> exists r w', resolve_with R policy host w = Some (r, w') /\ records (smart w') = records (smart w)).
Proof.
  intros Hok Hm. destruct (happens_fits hs 0 (mkLive s new_book) ltac:(lia) ltac:(lia) (book_fits_new 0) Hok) as (w & Hw & Hb). exists w. split; [done|]. split.
  - intros policy o now. apply (book_health_fits exp2_ Hexp (0 + Z.of_nat (length hs))); [lia|done].
  - intros R policy host (Hr & longest & Hreg). apply (dial_returns R longest Hreg). by apply (fits_scores (0 + Z.of_nat (length hs))); [lia| |].
Qed.
End Happens.

(** The small registry, dialled while nothing is known, and when a member was slow
    and has failed. *)
Lemma dials_always_return_witness : exists w r w', happens (exp2 sample_registry)
    [Dialled sample_registry (Named [71]) None; Called (CSample [65] 7 (40 * SECOND) 0); Called (CFailure [65] 7 5)] sample_live = Some w
  /\ resolve_with sample_registry (Named [71]) None w = Some (r, w').
Proof.
  assert (Hdial : can_dial (exp2 sample_registry) sample_registry).
  { split; [reflexivity|]. exists 50. split; [lia|by intros policy key score [= <-]|]. intros name spec members cycle factors. unfold sample_registry. cbn [entries list_to_map foldr fst snd].
    intros Hg. repeat match goal with H : <[_:=_]> _ !! _ = Some _ |- _ => apply lookup_insert_Some in H as [[<- H]|[_ H]] end; try done.
    all: injection Hg as _ <- _ <-; split; [repeat constructor|vm_compute; reflexivity]. }
  destruct (@dials_always_return Z unit unit _ (exp2 sample_registry)) with (hs := [Dialled sample_registry (Named [71]) None; Called (CSample [65] 7 (40 * SECOND) 0); Called (CFailure [65] 7 5)]) (s := auto sample_live) as (w & Hw & _ & Hd).
  - intros x _. apply f64_of_le; [lia|apply fits_small; lia].
  - repeat (apply Forall_cons; split); [exact Hdial|cbn; unfold latency_ok, LONGEST, SECOND; lia|exact I|by apply Forall_nil].
  - unfold MANY. cbn [length]. lia.
  - destruct (Hd sample_registry (Named [71]) None Hdial) as (r & w' & Hr & _). exists w, r, w'. split; [exact Hw|exact Hr].
Defined.
