(* ===== verification/TestBook.v ===== *)
(** * Results of the connectivity tests

    [TestBook] of [crates/rurge-policy/src/testbook.rs]: results by policy and
    by what the policy is (its key), the tests running, who waits for which,
    which results are kept and what the sink hears — when asks, ends of tests
    and deaths of their tasks come in any order.  A test is named by the number of
    its channel.  A step is one hold of the lock on the running tests, or one
    call after it: the task of a test that has ended takes the lock ([End_]), lets it
    go, tells the sink if its result was kept ([Tell]) and sends to those who wait
    ([Send]), and anything may happen in between.  The sink is set.  What a test
    measures, the semaphore and the observer are left out. *)

From S2P Require Import Prelude.

(** [Err]'s text is [None]. *)
Record TestResult := mkResult { r_outcome : option Z; r_at : Z }.

#[export] Instance TestResult_eq_dec : EqDecision TestResult.
Proof. solve_decision. Defined.

(** What is tested: a policy, as its key says it is. *)
Abbreviation Case := (rstr * Z)%type.
Abbreviation Entry := (Case * nat * TestResult)%type.

Record Book := mkBook {
  results : gmap rstr (Z * TestResult);
  running : gmap rstr (Z * nat);         (* the key and the channel *)
  tasks : gmap nat Case;                 (* the tests whose task holds its sender *)
  ended : gmap nat (TestResult * bool);  (* of these, the ended ones: what they say, and whether the sink is to be told *)
  sent : gmap nat TestResult;            (* what a channel was sent *)
  waiting : list (Case * nat);           (* who asked for what, and the channel they watch *)
  kept : list Entry;                     (* every result that was kept, in order *)
  told : list Entry;                     (* what the sink was told, in order *)
  next : nat;
}.

Definition new_tests : Book := mkBook ∅ ∅ ∅ ∅ ∅ [] [] [] 0.

(** [result], [outcome]. *)
Definition result (policy : rstr) (key : Z) (b : Book) : option TestResult :=
  match results b !! policy with Some (k, r) => if decide (k = key) then Some r else None | None => None end.

Definition outcome (policy : rstr) (key : Z) (b : Book) : option (option Z) := r_outcome <$> result policy key b.

Inductive Event :=
  | Ask (case : Case)                            (* [test], to where it starts to wait *)
  | End_ (c : nat) (outcome : option Z) (at_ : Z) (* [run], when its test has ended: the hold of the lock *)
  | Tell (c : nat)                               (* its [sink.tested] *)
  | Send (c : nat)                               (* its [tx.send], the last it does *)
  | Die (c : nat)                                (* its task ends without a result *)
  | Invalidate.

Definition set_waiting (b : Book) (case : Case) (c : nat) : Book :=
  mkBook (results b) (running b) (tasks b) (ended b) (sent b) (waiting b ++ [(case, c)]) (kept b) (told b) (next b).

(** A new channel, and the task that tests. *)
Definition begin_test (case : Case) (b : Book) : Book :=
  mkBook (results b) (<[case.1 := (case.2, next b)]> (running b)) (<[next b := case]> (tasks b)) (ended b) (sent b) (waiting b) (kept b) (told b) (S (next b)).

Definition ask (case : Case) (b : Book) : Book :=
  let begin_ := set_waiting (begin_test case b) case (next b) in
  match running b !! case.1 with
  | Some (key, c) => if decide (key = case.2 /\ is_Some (tasks b !! c)) then set_waiting b case c else begin_
  | None => begin_
  end.

Definition end_test (c : nat) (case : Case) (r : TestResult) (b : Book) : Book :=
  let is_running := match running b !! case.1 with Some (_, c') => bool_decide (c' = c) | None => false end in
  if is_running then
    mkBook (<[case.1 := (case.2, r)]> (results b)) (delete case.1 (running b)) (tasks b) (<[c := (r, true)]> (ended b)) (sent b) (waiting b) (kept b ++ [(case, c, r)]) (told b) (next b)
  else mkBook (results b) (running b) (tasks b) (<[c := (r, false)]> (ended b)) (sent b) (waiting b) (kept b) (told b) (next b).

Definition tell (c : nat) (case : Case) (r : TestResult) (b : Book) : Book :=
  mkBook (results b) (running b) (tasks b) (<[c := (r, false)]> (ended b)) (sent b) (waiting b) (kept b) (told b ++ [(case, c, r)]) (next b).

Definition send_result (c : nat) (r : TestResult) (b : Book) : Book :=
  mkBook (results b) (running b) (delete c (tasks b)) (delete c (ended b)) (<[c := r]> (sent b)) (waiting b) (kept b) (told b) (next b).

(** [None]: no such step. *)
Definition step (e : Event) (b : Book) : option Book :=
  match e with
  | Ask case => Some (ask case b)
  | End_ c o t => case ← tasks b !! c; match ended b !! c with Some _ => None | None => Some (end_test c case (mkResult o t) b) end
  | Tell c => case ← tasks b !! c; match ended b !! c with Some (r, true) => Some (tell c case r b) | _ => None end
  | Send c => match ended b !! c with Some (r, false) => Some (send_result c r b) | _ => None end
  | Die c => _ ← tasks b !! c; Some (mkBook (results b) (running b) (delete c (tasks b)) (delete c (ended b)) (sent b) (waiting b) (kept b) (told b) (next b))
  | Invalidate => Some (mkBook ∅ (running b) (tasks b) (ended b) (sent b) (waiting b) (kept b) (told b) (next b))
  end.

Fixpoint steps (es : list Event) (b : Book) : option Book :=
  match es with
  | [] => Some b
  | e :: es => b ← step e b; steps es b
  end.

(** ** Who wins *)

(** What a step begins. *)
Definition started (e : Event) (b b' : Book) : list Case :=
  match e with Ask case => if decide (next b' = next b) then [] else [case] | _ => [] end.

(** The tests begun, in order: their numbers count them. *)
Fixpoint begun (es : list Event) (b : Book) : list Case :=
  match es with
  | [] => []
  | e :: es => match step e b with Some b' => started e b b' ++ begun es b' | None => [] end
  end.

(** No test of the policy was begun after the [c]th. *)
Definition latest (all : list Case) (c : nat) (policy : rstr) : Prop := forall c' case, all !! c' = Some case -> case.1 = policy -> (c' <= c)%nat.

(** The policy and the number of an entry. *)
Abbreviation policy_of x := (x.1.1.1).
Abbreviation number_of x := (x.1.2).

Record ok (all : list Case) (b : Book) : Prop := {
  ok_next : next b = length all;
  ok_tasks : forall c case, tasks b !! c = Some case -> all !! c = Some case;
  ok_running : forall p k c, running b !! p = Some (k, c) -> all !! c = Some (p, k) /\ latest all c p;
  ok_running_open : forall p k c, running b !! p = Some (k, c) -> ended b !! c = None /\ forall x, x ∈ kept b -> number_of x <> c;
  ok_latest : forall c case, tasks b !! c = Some case -> ended b !! c = None -> latest all c case.1 -> running b !! case.1 = Some (case.2, c);
  ok_ended : forall c r t, ended b !! c = Some (r, t) -> is_Some (tasks b !! c);
  ok_sent : forall c r, sent b !! c = Some r -> tasks b !! c = None /\ (c < length all)%nat;
  ok_waiting : forall case c, (case, c) ∈ waiting b -> all !! c = Some case;
  ok_kept : forall case c r, (case, c, r) ∈ kept b -> all !! c = Some case /\ (tasks b !! c = None \/ exists t, ended b !! c = Some (r, t));
  ok_kept_order : StronglySorted (fun x y : Entry => policy_of x = policy_of y -> (number_of x < number_of y)%nat) (kept b);
  ok_results : forall p k r, results b !! p = Some (k, r) -> exists c, (p, k, c, r) ∈ kept b /\ forall case' c' r', (case', c', r') ∈ kept b -> case'.1 = p -> (c' <= c)%nat;
  ok_told : forall x, x ∈ told b -> x ∈ kept b /\ (tasks b !! number_of x = None \/ ended b !! number_of x = Some (x.2, false));
  ok_told_once : NoDup ((fun x : Entry => number_of x) <$> told b);
  ok_untold : forall c r, ended b !! c = Some (r, true) -> exists case, all !! c = Some case /\ (case, c, r) ∈ kept b;
  ok_done : forall case c r, (case, c, r) ∈ kept b -> ended b !! c = Some (r, false) -> (case, c, r) ∈ told b;
  ok_sent_told : forall case c r r', (case, c, r) ∈ kept b -> sent b !! c = Some r' -> r' = r /\ (case, c, r) ∈ told b;
}.

Lemma ok_new : ok [] new_tests.
Proof.
  split; simpl; try done; try (intros *; rewrite ?lookup_empty; done); try (intros *; by intros ?%elem_of_nil); constructor.
Qed.

Lemma latest_app all case c p : case.1 <> p -> latest all c p -> latest (all ++ [case]) c p.
Proof.
  intros Hne Hl c' case' Hc'. apply lookup_app_Some in Hc' as [Hc'|[_ Hc']]; [by eapply Hl|]. apply list_lookup_singleton_Some in Hc' as [_ <-]. done.
Qed.

Lemma latest_last all case : latest (all ++ [case]) (length all) case.1.
Proof. intros c' case' Hc' _. apply lookup_lt_Some in Hc'. rewrite length_app in Hc'. simpl in Hc'. lia. Qed.

Lemma latest_before all case c p : latest (all ++ [case]) c p -> latest all c p.
Proof. intros Hl c' case' Hc'. apply (Hl c'). by apply lookup_app_l_Some. Qed.

Lemma ok_set_waiting all b case c : ok all b -> all !! c = Some case -> ok all (set_waiting b case c).
Proof.
  intros [] Hc. split; simpl; try done. intros case' c' [Hw|[= -> ->]%list_elem_of_singleton]%elem_of_app; [by eauto|done].
Qed.

Lemma ok_begin all b case : ok all b -> ok (all ++ [case]) (begin_test case b).
Proof.
  intros Hok. pose proof (ok_next _ _ Hok) as Hn. assert (Hold : forall c case', all !! c = Some case' -> (all ++ [case]) !! c = Some case') by (intros; by apply lookup_app_l_Some).
  assert (Hnew : (all ++ [case]) !! next b = Some case) by (by rewrite Hn, lookup_app_r, Nat.sub_diag).
  assert (Hfresh : forall c case', all !! c = Some case' -> c <> next b) by (intros c case' Hc ->; apply lookup_lt_Some in Hc; lia).
  assert (Hkf : forall x, x ∈ kept b -> number_of x <> next b) by (intros [[case' c'] r'] Hx; destruct (ok_kept _ _ Hok _ _ _ Hx) as [Hc _]; by eapply Hfresh).
  assert (Hef : ended b !! next b = None). { destruct (ended b !! next b) as [[r t]|] eqn:He; [|done]. destruct (ok_ended _ _ Hok _ _ _ He) as [case' Ht]. by destruct (Hfresh _ _ (ok_tasks _ _ Hok _ _ Ht)). }
  split; simpl.
  - rewrite length_app, Hn. simpl. lia.
  - intros c case'. rewrite lookup_insert. case_decide; [intros [= <-]; by subst|]. intros Hc. by apply Hold, (ok_tasks _ _ Hok).
  - intros p k c. rewrite lookup_insert. case_decide as Hp; [intros [= <- <-]; subst; split; [by destruct case|rewrite Hn; apply latest_last]|].
    intros Hr. destruct (ok_running _ _ Hok _ _ _ Hr) as [Hc Hl]. split; [by apply Hold|by apply latest_app].
  - intros p k c. rewrite lookup_insert. case_decide; [intros [= <- <-]; done|by apply (ok_running_open _ _ Hok)].
  - intros c case'. rewrite !lookup_insert. case_decide as Hc; [intros [= <-]; subst; by rewrite decide_True by done|]. intros Ht He Hl. case_decide as Hp.
    + exfalso. specialize (Hl (next b) case Hnew Hp). pose proof (ok_tasks _ _ Hok _ _ Ht) as Hx. apply lookup_lt_Some in Hx. lia.
    + apply (ok_latest _ _ Hok); [done|done|by eapply latest_before].
  - intros c r t He. rewrite lookup_insert. case_decide; [by eexists|by apply (ok_ended _ _ Hok _ _ _ He)].
  - intros c r Hs. destruct (ok_sent _ _ Hok _ _ Hs) as [Ht Hlt]. rewrite lookup_insert_ne by lia. rewrite length_app. split; [done|lia].
  - intros case' c Hw. by apply Hold, (ok_waiting _ _ Hok).
  - intros case' c r Ht. pose proof (Hkf _ Ht) as Hc. destruct (ok_kept _ _ Hok _ _ _ Ht) as [H1 H2]. split; [by apply Hold|]. simpl in Hc. by rewrite lookup_insert_ne.
  - apply (ok_kept_order _ _ Hok).
  - apply (ok_results _ _ Hok).
  - intros x Hx. destruct (ok_told _ _ Hok _ Hx) as [Hk H2]. split; [done|]. rewrite lookup_insert_ne; [done|]. intros He. by apply (Hkf x Hk).
  - apply (ok_told_once _ _ Hok).
  - intros c r He. destruct (ok_untold _ _ Hok _ _ He) as (case' & Hc & Hk). exists case'. split; [by apply Hold|done].
  - apply (ok_done _ _ Hok).
  - apply (ok_sent_told _ _ Hok).
Qed.

(** The entry of a test that is kept is one of a kind. *)
Lemma kept_unique all b case c r case' r' : ok all b -> (case, c, r) ∈ kept b -> (case', c, r') ∈ kept b -> case' = case /\ r' = r.
Proof.
  intros Hok H1 H2. destruct (ok_kept _ _ Hok _ _ _ H1) as [Hc _]. destruct (ok_kept _ _ Hok _ _ _ H2) as [Hc' _]. assert (case' = case) as -> by congruence. split; [done|].
  pose proof (ok_kept_order _ _ Hok) as Ho. apply list_elem_of_lookup in H1 as [i Hi]. apply list_elem_of_lookup in H2 as [j Hj]. destruct (Nat.lt_trichotomy i j) as [Hij|[->|Hij]]; [|congruence|].
  - pose proof (sorted_lookup _ _ Ho _ _ _ _ Hi Hj Hij eq_refl) as Hlt. simpl in Hlt. lia.
  - pose proof (sorted_lookup _ _ Ho _ _ _ _ Hj Hi Hij eq_refl) as Hlt. simpl in Hlt. lia.
Qed.

Lemma ok_end_kept all b c case r : ok all b -> tasks b !! c = Some case -> running b !! case.1 = Some (case.2, c) ->
  ok all (mkBook (<[case.1 := (case.2, r)]> (results b)) (delete case.1 (running b)) (tasks b) (<[c := (r, true)]> (ended b)) (sent b) (waiting b) (kept b ++ [(case, c, r)]) (told b) (next b)).
Proof.
  intros Hok Ht Hr. destruct (ok_running _ _ Hok _ _ _ Hr) as [Hc Hl]. assert (Hc' : all !! c = Some case) by (by destruct case). destruct (ok_running_open _ _ Hok _ _ _ Hr) as [He Hold].
  assert (Hup : forall case' c' r', (case', c', r') ∈ kept b -> case'.1 = case.1 -> (c' < c)%nat).
  { intros case' c' r' Hin Hp. pose proof (Hold _ Hin) as Hne. simpl in Hne. destruct (ok_kept _ _ Hok _ _ _ Hin) as [Hx _]. specialize (Hl c' case' Hx Hp). lia. }
  assert (Hother : forall p k c', p <> case.1 -> running b !! p = Some (k, c') -> c' <> c).
  { intros p k c' Hp Hr' ->. destruct (ok_running _ _ Hok _ _ _ Hr') as [Hx _]. rewrite Hc' in Hx. injection Hx as ->. done. }
  split; simpl.
  - by apply ok_next.
  - by apply ok_tasks.
  - intros p k c'. rewrite lookup_delete. case_decide; [done|]. by apply ok_running.
  - intros p k c'. rewrite lookup_delete. case_decide as Hp; [done|]. intros Hr'. pose proof (Hother p k c' ltac:(congruence) Hr') as Hne. rewrite lookup_insert_ne by congruence. destruct (ok_running_open _ _ Hok _ _ _ Hr') as [H1 H2]. split; [done|].
    intros x [Hx| ->%list_elem_of_singleton]%elem_of_app; [by apply H2|]. simpl. congruence.
  - intros c' case'. rewrite lookup_insert, lookup_delete. intros Ht'. case_decide as Hcc; [done|]. intros He' Hl'. pose proof (ok_latest _ _ Hok _ _ Ht' He' Hl') as Hr'. case_decide as Hp; [|done]. exfalso. rewrite <- Hp, Hr in Hr'. injection Hr' as _ ->. done.
  - intros c' r' t. rewrite lookup_insert. case_decide; [intros _; subst; by eexists|]. apply (ok_ended _ _ Hok).
  - apply (ok_sent _ _ Hok).
  - apply (ok_waiting _ _ Hok).
  - intros case' c' r' [Hin|[= -> -> ->]%list_elem_of_singleton]%elem_of_app; [|split; [done|]; right; exists true; by rewrite lookup_insert_eq]. destruct (ok_kept _ _ Hok _ _ _ Hin) as [Hx Hs]. split; [done|].
    pose proof (Hold _ Hin) as Hne. simpl in Hne. by rewrite lookup_insert_ne by congruence.
  - apply StronglySorted_app_2; [|by apply (ok_kept_order _ _ Hok)|by repeat constructor]. intros [[case' c'] r'] y Hin ->%list_elem_of_singleton Hp. simpl in *. by eapply Hup.
  - intros p k r'. rewrite lookup_insert. case_decide as Hp.
    + intros [= <- <-]. subst. exists c. split; [apply elem_of_app; right; destruct case; by left|].
      intros case' c' r' [Hin|[= -> -> ->]%list_elem_of_singleton]%elem_of_app Hpp; [specialize (Hup _ _ _ Hin Hpp); lia|done].
    + intros Hres. destruct (ok_results _ _ Hok _ _ _ Hres) as (c1 & Hin & Hmax). exists c1. split; [apply elem_of_app; by left|].
      intros case' c' r1 [Hin'|[= -> -> ->]%list_elem_of_singleton]%elem_of_app Hpp; [by eapply Hmax|done].
  - intros x Hx. destruct (ok_told _ _ Hok _ Hx) as [Hk Hs]. pose proof (Hold _ Hk) as Hne. split; [apply elem_of_app; by left|]. by rewrite lookup_insert_ne by congruence.
  - apply (ok_told_once _ _ Hok).
  - intros c' r'. rewrite lookup_insert. case_decide; [intros [= <-]; subst; exists case; split; [done|]; apply elem_of_app; right; by left|]. intros Hs. destruct (ok_untold _ _ Hok _ _ Hs) as (case' & H1 & H2). exists case'. split; [done|]. apply elem_of_app. by left.
  - intros case' c' r' Hin. rewrite lookup_insert. case_decide; [done|]. apply elem_of_app in Hin as [Hin|[= -> -> ->]%list_elem_of_singleton]; [by apply (ok_done _ _ Hok)|done].
  - intros case' c' r1 r2 [Hin|[= -> -> ->]%list_elem_of_singleton]%elem_of_app Hs; [by eapply (ok_sent_told _ _ Hok)|]. destruct (ok_sent _ _ Hok _ _ Hs) as [Hn _]. congruence.
Qed.

Lemma ok_end_lost all b c case r : ok all b -> tasks b !! c = Some case -> ended b !! c = None -> running b !! case.1 <> Some (case.2, c) ->
  ok all (mkBook (results b) (running b) (tasks b) (<[c := (r, false)]> (ended b)) (sent b) (waiting b) (kept b) (told b) (next b)).
Proof.
  intros Hok Ht He Hr. pose proof (ok_tasks _ _ Hok _ _ Ht) as Hc.
  assert (Hother : forall p k c', running b !! p = Some (k, c') -> c' <> c).
  { intros p k c' Hr' ->. destruct (ok_running _ _ Hok _ _ _ Hr') as [Hx _]. rewrite Hc in Hx. injection Hx as ->. done. }
  assert (Hk : forall case' c' r', (case', c', r') ∈ kept b -> c' <> c).
  { intros case' c' r' Hin ->. destruct (ok_kept _ _ Hok _ _ _ Hin) as [_ [Hn|[t Ht']]]; congruence. }
  destruct Hok as [H1 H2 H3 H4 H5 H6 H7 H8 H9 H10 H11 H12 H13 H14 H15 H16]. split; simpl; try done.
  - intros p k c' Hr'. destruct (H4 _ _ _ Hr') as [? ?]. rewrite lookup_insert_ne by (intros ->; by eapply Hother). done.
  - intros c' case' Ht'. rewrite lookup_insert. case_decide; [done|]. by apply H5.
  - intros c' r' t. rewrite lookup_insert. case_decide; [intros _; subst; by eexists|]. apply H6.
  - intros case' c' r' Hin. rewrite lookup_insert_ne by (intros ->; by eapply Hk). by apply H9.
  - intros [[case' c'] r'] Hx. destruct (H12 _ Hx) as [Hin Hs]. split; [done|]. simpl in *. by rewrite lookup_insert_ne by (intros ->; by eapply Hk).
  - intros c' r'. rewrite lookup_insert. case_decide; [done|]. apply H14.
  - intros case' c' r' Hin. rewrite lookup_insert_ne by (intros ->; by eapply Hk). by apply H15.
Qed.

Lemma ok_tell all b c case r : ok all b -> tasks b !! c = Some case -> ended b !! c = Some (r, true) -> ok all (tell c case r b).
Proof.
  intros Hok Ht He. pose proof (ok_tasks _ _ Hok _ _ Ht) as Hc. destruct (ok_untold _ _ Hok _ _ He) as (case' & Hc' & Hin). assert (case' = case) as -> by congruence.
  pose proof (kept_unique all b case c r) as Hu.
  assert (Hr : forall p k c', running b !! p = Some (k, c') -> c' <> c) by (intros p k c' Hr' ->; destruct (ok_running_open _ _ Hok _ _ _ Hr') as [Hn _]; congruence).
  assert (Hfresh : forall x, x ∈ told b -> number_of x <> c) by (intros x Hx Hxc; destruct (ok_told _ _ Hok _ Hx) as [_ [Hn|Hn]]; congruence).
  pose proof Hok as [H1 H2 H3 H4 H5 H6 H7 H8 H9 H10 H11 H12 H13 H14 H15 H16]. split; simpl; try done.
  - intros p k c' Hr'. destruct (H4 _ _ _ Hr') as [? ?]. rewrite lookup_insert_ne by (intros ->; by eapply Hr). done.
  - intros c' case' Ht'. rewrite lookup_insert. case_decide; [done|]. by apply H5.
  - intros c' r' t. rewrite lookup_insert. case_decide; [intros _; subst; by eexists|]. apply H6.
  - intros case' c' r' Hk. destruct (H9 _ _ _ Hk) as [Hx Hs]. split; [done|]. rewrite lookup_insert. case_decide; [|done]. subst. destruct (Hu case' r' Hok Hin Hk) as [-> ->]. right. by eexists.
  - intros x [Hx| ->%list_elem_of_singleton]%elem_of_app; [|split; [done|]; right; simpl; by rewrite lookup_insert_eq]. destruct (H12 _ Hx) as [Hk Hs]. split; [done|]. by rewrite lookup_insert_ne by (intros Hxc; by apply (Hfresh x Hx)).
  - rewrite fmap_app. apply NoDup_app. split; [done|]. split; [|by apply NoDup_singleton]. intros n Hn Hnc. apply list_elem_of_fmap in Hn as (x & -> & Hx). apply list_elem_of_singleton in Hnc. by apply (Hfresh x Hx).
  - intros c' r'. rewrite lookup_insert. case_decide; [done|]. apply H14.
  - intros case' c' r' Hk. rewrite lookup_insert. case_decide; [intros [= <-]; subst; destruct (Hu case' r Hok Hin Hk) as [-> _]; apply elem_of_app; right; by left|]. intros Hs. apply elem_of_app. left. by apply H15.
  - intros case' c' r1 r2 Hk Hs. destruct (H16 _ _ _ _ Hk Hs) as [? ?]. split; [done|]. apply elem_of_app. by left.
Qed.

(** A task ends, having sent [so] to its channel. *)
Lemma ok_gone all b c case so : ok all b -> tasks b !! c = Some case -> so = sent b \/ (exists r, ended b !! c = Some (r, false) /\ so = <[c := r]> (sent b)) ->
  ok all (mkBook (results b) (running b) (delete c (tasks b)) (delete c (ended b)) so (waiting b) (kept b) (told b) (next b)).
Proof.
  intros Hok Ht Hso. pose proof (ok_tasks _ _ Hok _ _ Ht) as Hc. assert (Hnosent : sent b !! c = None) by (destruct (sent b !! c) eqn:Hs; [apply (ok_sent _ _ Hok) in Hs as [Hn _]; congruence|done]).
  pose proof Hok as [H1 H2 H3 H4 H5 H6 H7 H8 H9 H10 H11 H12 H13 H14 H15 H16]. split; simpl; try done.
  - intros c' case'. rewrite lookup_delete. case_decide; [done|]. by apply H2.
  - intros p k c' Hr'. destruct (H4 _ _ _ Hr') as [He ?]. split; [|done]. rewrite lookup_delete. by case_decide.
  - intros c' case'. rewrite !lookup_delete. case_decide; [done|]. by apply H5.
  - intros c' r t. rewrite !lookup_delete. case_decide; [done|]. apply H6.
  - intros c' r Hs. rewrite lookup_delete. case_decide; [subst; split; [done|by apply lookup_lt_Some in Hc]|]. destruct Hso as [-> |(r0 & _ & ->)]; [by apply (H7 _ _ Hs)|]. rewrite lookup_insert_ne in Hs by done. by apply (H7 _ _ Hs).
  - intros case' c' r Hk. destruct (H9 _ _ _ Hk) as [Hx Hs]. split; [done|]. rewrite !lookup_delete. case_decide; [by left|done].
  - intros x Hx. destruct (H12 _ Hx) as [Hk Hs]. split; [done|]. rewrite !lookup_delete. case_decide; [by left|done].
  - intros c' r. rewrite lookup_delete. case_decide; [done|]. apply H14.
  - intros case' c' r Hk. rewrite lookup_delete. case_decide; [done|]. by apply H15.
  - intros case' c' r r' Hk Hs. destruct Hso as [-> |(r0 & He & ->)]; [by eapply H16|]. rewrite lookup_insert in Hs. case_decide; [|by eapply H16]. subst. injection Hs as <-.
    destruct (H9 _ _ _ Hk) as [_ [Hn|[t Hk']]]; [congruence|]. assert (r0 = r) as -> by congruence. split; [done|]. by apply H15.
Qed.

(** A test is kept exactly when no other of its policy was begun after it. *)
Lemma end_test_spec all b c case r : ok all b -> tasks b !! c = Some case -> ended b !! c = None ->
  (latest all c case.1 /\ running b !! case.1 = Some (case.2, c)
   /\ end_test c case r b = mkBook (<[case.1 := (case.2, r)]> (results b)) (delete case.1 (running b)) (tasks b) (<[c := (r, true)]> (ended b)) (sent b) (waiting b) (kept b ++ [(case, c, r)]) (told b) (next b))
  \/ (~ latest all c case.1 /\ running b !! case.1 <> Some (case.2, c)
   /\ end_test c case r b = mkBook (results b) (running b) (tasks b) (<[c := (r, false)]> (ended b)) (sent b) (waiting b) (kept b) (told b) (next b)).
Proof.
  destruct case as [p k0]. intros Hok Ht He. pose proof (ok_tasks _ _ Hok _ _ Ht) as Hc. unfold end_test. cbn [fst snd]. destruct (running b !! p) as [[k c']|] eqn:Hr.
  - destruct (ok_running _ _ Hok _ _ _ Hr) as [Hx Hl]. case_bool_decide as Hcc.
    + subst. rewrite Hc in Hx. injection Hx as ->. left. done.
    + right. split; [|split; [congruence|done]]. intros Hl'. pose proof (ok_latest _ _ Hok _ _ Ht He Hl') as Hr'. simpl in Hr'. rewrite Hr in Hr'. by injection Hr' as _ ->.
  - right. split; [|done]. intros Hl'. pose proof (ok_latest _ _ Hok _ _ Ht He Hl') as Hr'. simpl in Hr'. congruence.
Qed.

Lemma ok_ask all b case : ok all b -> ok (all ++ started (Ask case) b (ask case b)) (ask case b).
Proof.
  intros Hok. assert (Hbegin : ok (all ++ [case]) (set_waiting (begin_test case b) case (next b))).
  { apply ok_set_waiting; [by apply ok_begin|]. rewrite (ok_next _ _ Hok). by rewrite lookup_app_r, Nat.sub_diag. }
  unfold ask, started. destruct (running b !! case.1) as [[k c]|] eqn:Hr; [destruct (decide (k = case.2 /\ is_Some (tasks b !! c))) as [Hk|Hk]|]; cbn [next set_waiting begin_test].
  - rewrite decide_True, app_nil_r by done. apply ok_set_waiting; [done|]. destruct Hk as [-> _]. destruct (ok_running _ _ Hok _ _ _ Hr). by destruct case.
  - rewrite decide_False by lia. done.
  - rewrite decide_False by lia. done.
Qed.

Lemma ok_step all e b b' : ok all b -> step e b = Some b' -> ok (all ++ started e b b') b'.
Proof.
  intros Hok. destruct e as [case|c o t|c|c|c|]; simpl; rewrite ?app_nil_r.
  - intros [= <-]. by apply ok_ask.
  - destruct (tasks b !! c) as [case|] eqn:Ht; [|done]. simpl. destruct (ended b !! c) eqn:He; [done|]. intros [= <-].
    destruct (end_test_spec all b c case (mkResult o t) Hok Ht He) as [(_ & Hr & ->)|(_ & Hr & ->)]; [by apply ok_end_kept|by eapply ok_end_lost].
  - destruct (tasks b !! c) as [case|] eqn:Ht; [|done]. simpl. destruct (ended b !! c) as [[r [|]]|] eqn:He; try done. intros [= <-]. by apply ok_tell.
  - destruct (ended b !! c) as [[r [|]]|] eqn:He; try done. intros [= <-]. destruct (ok_ended _ _ Hok _ _ _ He) as [case Ht]. eapply ok_gone; [done|done|]. right. by eexists.
  - destruct (tasks b !! c) as [case|] eqn:Ht; [|done]. intros [= <-]. eapply ok_gone; [done|done|by left].
  - intros [= <-]. destruct Hok. split; simpl; done.
Qed.

Lemma steps_ok es all b b' : ok all b -> steps es b = Some b' -> ok (all ++ begun es b) b'.
Proof.
  revert all b. induction es as [|e es IH]; intros all b Hok; simpl; [intros [= <-]; by rewrite app_nil_r|].
  destruct (step e b) as [b1|] eqn:He; [|done]. simpl. rewrite app_assoc. apply IH. by apply ok_step.
Qed.

Definition sample_tests : list Event := [Ask ([65], 1); Ask ([65], 2); End_ 1 (Some 30) 7; Tell 1; Send 1].

(** C25: the results kept are those of the tests begun last.  In any order of
    asks, ends, tellings, deaths and invalidations, the steps of a test's end apart: a
    test that ends now is kept exactly when no test of its policy was begun after
    it — a test superseded by another definition's undoes nothing, whichever ends
    last; results of a policy are kept in the order the tests were begun, and the
    book's result is the last kept of it.  The sink is told of a result that was
    kept, once, and before anybody who waits for it hears of it, but not always in
    the order of the keeping; what was kept and not told is still to be told, or its
    task has died.  Whoever waits watches a test of the very policy and definition
    asked for; and asking for what the latest test of a policy, not ended yet, is
    testing begins no other. *)
Theorem latest_tests_are_kept es b : steps es new_tests = Some b ->
  let all := begun es new_tests in
  (forall c o t b', step (End_ c o t) b = Some b' -> exists case, all !! c = Some case /\ told b' = told b /\
     if bool_decide (running b !! case.1 = Some (case.2, c))
     then latest all c case.1 /\ kept b' = kept b ++ [(case, c, mkResult o t)] /\ result case.1 case.2 b' = Some (mkResult o t)
     else ~ latest all c case.1 /\ kept b' = kept b /\ results b' = results b)
  /\ StronglySorted (fun x y : Entry => policy_of x = policy_of y -> (number_of x < number_of y)%nat) (kept b)
  /\ (forall p k r, result p k b = Some r -> exists c, (p, k, c, r) ∈ kept b /\ forall case c' r', (case, c', r') ∈ kept b -> case.1 = p -> (c' <= c)%nat)
  /\ ((forall x, x ∈ told b -> x ∈ kept b) /\ NoDup ((fun x : Entry => number_of x) <$> told b))
  /\ (forall case c r, (case, c, r) ∈ kept b -> (case, c, r) ∈ told b \/ ended b !! c = Some (r, true) \/ (tasks b !! c = None /\ sent b !! c = None))
  /\ (forall case c r r', (case, c, r) ∈ kept b -> sent b !! c = Some r' -> r' = r /\ (case, c, r) ∈ told b)
  /\ (forall case c, (case, c) ∈ waiting b -> all !! c = Some case)
  /\ (forall c case, tasks b !! c = Some case -> ended b !! c = None -> latest all c case.1 -> ask case b = set_waiting b case c).
Proof.
  intros Hs all. pose proof (steps_ok es [] new_tests b ok_new Hs) as Hok. simpl in Hok. fold all in Hok. split; [|split; [|split; [|split; [|split; [|split; [|split]]]]]].
  - intros c o t b'. simpl. destruct (tasks b !! c) as [case|] eqn:Ht; [|done]. simpl. destruct (ended b !! c) eqn:He; [done|]. intros [= <-]. exists case. split; [by apply (ok_tasks _ _ Hok)|].
    destruct (end_test_spec all b c case (mkResult o t) Hok Ht He) as [(Hl & Hr & ->)|(Hl & Hr & ->)]; (split; [done|]).
    + rewrite bool_decide_true by done. split; [done|]. split; [done|]. unfold result. simpl. by rewrite lookup_insert_eq, decide_True.
    + rewrite bool_decide_false by done. done.
  - apply (ok_kept_order _ _ Hok).
  - intros p k r. unfold result. destruct (results b !! p) as [[k' r']|] eqn:Hr; [|done]. case_decide; [|done]. subst. intros [= ->]. by apply (ok_results _ _ Hok).
  - split; [intros x Hx; by apply (ok_told _ _ Hok)|apply (ok_told_once _ _ Hok)].
  - intros case c r Hk. destruct (ok_kept _ _ Hok _ _ _ Hk) as [_ [Hn|[[|] He]]]; [|by right; left|left; by apply (ok_done _ _ Hok)].
    destruct (sent b !! c) as [r'|] eqn:Hse; [left; by eapply (ok_sent_told _ _ Hok)|]. by right; right.
  - apply (ok_sent_told _ _ Hok).
  - apply (ok_waiting _ _ Hok).
  - intros c case Ht He Hl. unfold ask. rewrite (ok_latest _ _ Hok _ _ Ht He Hl). rewrite decide_True; [done|]. split; [done|by eexists].
Qed.

(** The definition changed while its test was running: the new one's result is
    kept, and the old one's, which ends later, is not. *)
Lemma latest_tests_are_kept_witness : exists b, steps sample_tests new_tests = Some b /\ result [65] 2 b = Some (mkResult (Some 30) 7)
  /\ exists b', step (End_ 0 None 9) b = Some b' /\ results b' = results b.
Proof.
  destruct (steps sample_tests new_tests) as [b|] eqn:Hs; [|vm_compute in Hs; discriminate Hs]. exists b. split; [reflexivity|].
  destruct (latest_tests_are_kept sample_tests b Hs) as (Hend & _). assert (Hb := Hs). vm_compute in Hb. injection Hb as Hb. subst b. split; [vm_compute; reflexivity|].
  eexists. split; [vm_compute; reflexivity|]. destruct (Hend 0%nat None 9 _ eq_refl) as (case & Hc & _ & Hk). vm_compute in Hc. injection Hc as <-.
  revert Hk. rewrite bool_decide_false by (vm_compute; discriminate). intros (_ & _ & Hr). vm_compute. reflexivity.
Defined.

(** Two tests of one policy, of one definition even, run at once when the
    definition changes and changes back. *)
Theorem two_tests_at_once : exists es b, steps es new_tests = Some b /\ tasks b !! 0%nat = Some ([65], 1) /\ tasks b !! 2%nat = Some ([65], 1).
Proof. exists [Ask ([65], 1); Ask ([65], 2); Ask ([65], 1)]. eexists. split; [vm_compute; reflexivity|]. split; vm_compute; reflexivity. Qed.

(** The sink may hear of a later test first: the task of the earlier one, whose
    result was kept first, comes to tell after it. *)
Theorem later_test_told_first : exists es b, steps es new_tests = Some b
  /\ kept b = [([65], 1, 0%nat, mkResult (Some 30) 7); ([65], 1, 1%nat, mkResult None 9)] /\ told b = reverse (kept b).
Proof. exists [Ask ([65], 1); End_ 0 (Some 30) 7; Ask ([65], 1); End_ 1 None 9; Tell 1; Tell 0]. eexists. split; [vm_compute; reflexivity|]. split; vm_compute; reflexivity. Qed.
