(* ===== verification/GroupCycles.v ===== *)
(** * Cycles of groups

    [group_cycles], [on_cycles], [group_graph] and [shortest_cycle] of
    [crates/rurge-policy/src/assemble.rs].  Nodes are positions; [on_cycles]
    is the iterative algorithm of Tarjan, its vectors kept as they are, a
    vector used as a stack with its top first.  [usize::MAX], the mark of a
    node not reached, is [None].  [None] is a panic — an index out of range, an
    [expect] — or fuel that is not enough. *)

From S2P Require Import Prelude.

(** [v[i] = x]. *)
Definition set_at {A : Type} (l : list A) (i : nat) (x : A) : option (list A) := _ ← l !! i; Some (<[i := x]> l).

Record Tarjan := mkTarjan {
  index : list (option nat);
  low : list nat;
  on_stack : list bool;
  stack : list nat;
  cyclic : list bool;
  next : nat;
  work : list (nat * nat);   (* a node, and how many of its edges were followed *)
}.

Definition start (n : nat) : Tarjan := mkTarjan (replicate n None) (replicate n 0%nat) (replicate n false) [] (replicate n false) 0 [].

(** A node is reached. *)
Definition visit (w : nat) (s : Tarjan) : option Tarjan :=
  index' ← set_at (index s) w (Some (next s));
  low' ← set_at (low s) w (next s);
  on_stack' ← set_at (on_stack s) w true;
  Some (mkTarjan index' low' on_stack' (w :: stack s) (cyclic s) (S (next s)) ((w, 0%nat) :: work s)).

Definition set_low (v l : nat) (s : Tarjan) : option Tarjan :=
  low' ← set_at (low s) v l;
  Some (mkTarjan (index s) low' (on_stack s) (stack s) (cyclic s) (next s) (work s)).

Definition set_work (k : list (nat * nat)) (s : Tarjan) : Tarjan :=
  mkTarjan (index s) (low s) (on_stack s) (stack s) (cyclic s) (next s) k.

(** The loop that takes a component off the stack: the component, what is
    left, and the marks. *)
Fixpoint pop_to (v : nat) (stack : list nat) (marks : list bool) (component : list nat) : option (list nat * list nat * list bool) :=
  match stack with
  | [] => None
  | w :: stack =>
      marks ← set_at marks w false;
      let component := component ++ [w] in
      if decide (w = v) then Some (component, stack, marks) else pop_to v stack marks component
  end.

Fixpoint set_all {A : Type} (l : list A) (ws : list nat) (x : A) : option (list A) :=
  match ws with
  | [] => Some l
  | w :: ws => l ← set_at l w x; set_all l ws x
  end.

Section Graph.
Context (adj : list (list nat)).

(** An edge is followed. *)
Definition follow (v followed w : nat) (rest : list (nat * nat)) (s : Tarjan) : option Tarjan :=
  let s := set_work ((v, S followed) :: rest) s in
  seen ← index s !! w;
  match seen with
  | None => visit w s
  | Some i =>
      on ← on_stack s !! w;
      if on : bool then l ← low s !! v; set_low v (Nat.min l i) s else Some s
  end.

(** All edges of a node were followed. *)
Definition finish (v : nat) (rest : list (nat * nat)) (s : Tarjan) : option Tarjan :=
  let s := set_work rest s in
  s ← match rest with
    | (u, _) :: _ => lu ← low s !! u; lv ← low s !! v; set_low u (Nat.min lu lv) s
    | [] => Some s
    end;
  l ← low s !! v;
  i ← index s !! v;
  if decide (Some l = i) then
    '(component, stack', marks) ← pop_to v (stack s) (on_stack s) [];
    edges ← adj !! v;
    let round := bool_decide (1 < length component)%nat || bool_decide (v ∈ (edges : list nat)) in
    cyclic' ← set_all (cyclic s) component round;
    Some (mkTarjan (index s) (low s) marks stack' cyclic' (next s) (work s))
  else Some s.

(** One turn of the loop, the work not being done. *)
Definition turn (v followed : nat) (rest : list (nat * nat)) (s : Tarjan) : option Tarjan :=
  edges ← adj !! v;
  match edges !! followed with
  | Some w => follow v followed w rest s
  | None => finish v rest s
  end.

Fixpoint search (fuel : nat) (s : Tarjan) : option Tarjan :=
  match work s with
  | [] => Some s
  | (v, followed) :: rest =>
      match fuel with
      | 0%nat => None
      | S fuel => s ← turn v followed rest s; search fuel s
      end
  end.

(** Every edge is followed once and every node finished once. *)
Definition enough : nat := sum_list_with (fun ws => S (length ws)) adj.

Fixpoint from_roots (roots : list nat) (s : Tarjan) : option Tarjan :=
  match roots with
  | [] => Some s
  | root :: roots =>
      seen ← index s !! root;
      s ← match seen with Some _ => Some s | None => s ← visit root s; search enough s end;
      from_roots roots s
  end.

Definition on_cycles : option (list bool) := cyclic <$> from_roots (seq 0 (length adj)) (start (length adj)).
End Graph.

(** ** Cycles written out *)

(** The walk back along the parents; [fuel] bounds it. *)
Fixpoint walk_back (fuel : nat) (parent : list (option nat)) (start at_ : nat) (path : list nat) : option (list nat) :=
  if decide (at_ = start) then Some path
  else match fuel with
    | 0%nat => None
    | S fuel => p ← parent !! at_; at_ ← p; walk_back fuel parent start at_ (path ++ [at_])
    end.

(** The edges of one node: the cycle found, or the parents and the queue. *)
Fixpoint scan (start v : nat) (ws : list nat) (parent : list (option nat)) (queue : list nat) : option (list nat + list (option nat) * list nat) :=
  match ws with
  | [] => Some (inr (parent, queue))
  | w :: ws =>
      if decide (w = start) then path ← walk_back (length parent) parent start v [v]; Some (inl (reverse path))
      else
        p ← parent !! w;
        match p with
        | None => scan start v ws (<[w := Some v]> parent) (queue ++ [w])
        | Some _ => scan start v ws parent queue
        end
  end.

Fixpoint breadth_first (fuel : nat) (adj : list (list nat)) (start : nat) (parent : list (option nat)) (queue : list nat) : option (list nat) :=
  match queue with
  | [] => Some [start]
  | v :: queue =>
      match fuel with
      | 0%nat => None
      | S fuel =>
          ws ← adj !! v;
          r ← scan start v ws parent queue;
          match r with inl path => Some path | inr (parent, queue) => breadth_first fuel adj start parent queue end
      end
  end.

Definition shortest_cycle (adj : list (list nat)) (start : nat) : option (list nat) :=
  breadth_first (S (length adj)) adj start (replicate (length adj) None) [start].

(** From its least node on: the same cycle is the same list. *)
Definition rotated (path : list nat) : option (list nat) :=
  min_pos ← min_by (fun p => Z.of_nat (default 0%nat (path !! p))) (seq 0 (length path));
  Some (drop min_pos path ++ take min_pos path).

Definition group_graph (names : list rstr) (edges : list (list rstr)) : list (list nat) :=
  let index : gmap rstr nat := list_to_map (reverse (imap (fun i n => (n, i)) names)) in
  map (fun ns : list rstr => omap (fun n => index !! n) ns) edges.

(** The cycles of the nodes that lie on one, each once. *)
Fixpoint cycles_of (adj : list (list nat)) (nodes : list nat) (seen : list (list nat)) : option (list (list nat)) :=
  match nodes with
  | [] => Some seen
  | i :: nodes =>
      path ← shortest_cycle adj i;
      path ← rotated path;
      cycles_of adj nodes (if decide (path ∈ seen) then seen else seen ++ [path])
  end.

Definition group_cycles (names : list rstr) (edges : list (list rstr)) : option (list (list rstr)) :=
  let adj := group_graph names edges in
  cyclic ← on_cycles adj;
  let nodes := omap (fun ib : nat * bool => if ib.2 then Some ib.1 else None) (imap pair cyclic) in
  cycles ← cycles_of adj nodes [];
  mapM (fun path => ns ← mapM (fun n => names !! n) path; first ← head ns; Some (ns ++ [first])) cycles.
