(* ===== verification/CyclesNamed.v ===== *)
(** * The groups on a cycle are found

    [on_cycles] of [GroupCycles.v]: the loop ends, no index is out of range,
    and a node is marked exactly when a way along the edges leads from it back
    to it.  The stack of nodes is, frame by frame of the work, a segment of
    finished nodes that lead to the frame's node and back. *)

From S2P Require Import Prelude GroupCycles.

Section Tarjan.
Context (adj : list (list nat)) (Hadj : forall v ws w, adj !! v = Some ws -> w ∈ ws -> (w < length adj)%nat).

Abbreviation n := (length adj).

Definition edge (x y : nat) : Prop := exists ws, adj !! x = Some ws /\ y ∈ ws.
Abbreviation leads := (rtc edge).
Definition on_a_cycle (x : nat) : Prop := tc edge x x.

Definition ix (s : Tarjan) (x i : nat) : Prop := index s !! x = Some (Some i).
Definition seen (s : Tarjan) (x : nat) : Prop := exists i, ix s x i.

(** An edge to [y] does not go below [l] on the stack. *)
Definition target (s : Tarjan) (l y : nat) : Prop := seen s y /\ forall i, y ∈ stack s -> ix s y i -> (l <= i)%nat.

(** The edges of the nodes of a segment, and the followed ones of [v]. *)
Definition edges_ok (s : Tarjan) (v f : nat) (seg : list nat) (l : nat) : Prop :=
  (forall x y, x ∈ seg -> edge x y -> target s l y) /\ (forall ws k y, adj !! v = Some ws -> (k < f)%nat -> ws !! k = Some y -> target s l y).

(** The low point of [v]: a node on the stack, not above [v], that it leads to. *)
Definition low_ok (s : Tarjan) (v l : nat) : Prop :=
  exists i y, ix s v i /\ (l <= i)%nat /\ y ∈ stack s /\ ix s y l /\ leads v y.

Record frame_ok (s : Tarjan) (v f : nat) (seg : list nat) : Prop := {
  fr_to : forall x, x ∈ seg -> leads v x;
  fr_back : forall x, x ∈ seg -> leads x v;
  fr_count : exists ws, adj !! v = Some ws /\ (f <= length ws)%nat;
  fr_low : exists l, low s !! v = Some l /\ low_ok s v l /\ edges_ok s v f seg l;
}.

Inductive frames (s : Tarjan) : list (nat * nat) -> list nat -> Prop :=
  | frames_nil : frames s [] []
  | frames_cons v f work seg stack : frames s work stack -> frame_ok s v f seg -> (forall u, fst <$> head work = Some u -> edge u v) ->
      frames s ((v, f) :: work) (seg ++ v :: stack).

(** A node above another on the stack was reached later. *)
Definition above (s : Tarjan) (x y : nat) : Prop := forall i j, ix s x i -> ix s y j -> (j < i)%nat.

(** All but the frames. *)
Record base (s : Tarjan) : Prop := {
  b_index : length (index s) = n;
  b_low : length (low s) = n;
  b_on : length (on_stack s) = n;
  b_cyclic : length (cyclic s) = n;
  b_stack : forall x, on_stack s !! x = Some true <-> x ∈ stack s;
  b_seen : forall x, x ∈ stack s -> seen s x;
  b_sorted : StronglySorted (above s) (stack s);
  b_inj : forall x y i, ix s x i -> ix s y i -> x = y;
  b_next : forall x i, ix s x i -> (i < next s)%nat;
  b_done : forall x y, seen s x -> x ∉ stack s -> edge x y -> seen s y /\ y ∉ stack s;
  b_flag : forall x, seen s x -> x ∉ stack s -> exists b, cyclic s !! x = Some b /\ (b = true <-> on_a_cycle x);
}.

Definition good (s : Tarjan) : Prop := base s /\ frames s (work s) (stack s).

(** ** Facts of a state *)

Lemma sorted_mono {A} (R R' : A -> A -> Prop) l : (forall x y, x ∈ l -> y ∈ l -> R x y -> R' x y) -> StronglySorted R l -> StronglySorted R' l.
Proof.
  intros H Hs. induction Hs as [|x l Hs IH Hx]; [constructor|]. rewrite Forall_forall in Hx. constructor.
  - apply IH. intros; apply H; [by right..|done].
  - apply Forall_forall. intros y Hy. apply H; [by left|by right|by apply Hx].
Qed.

Lemma ix_fun s x i j : ix s x i -> ix s x j -> i = j.
Proof. unfold ix. congruence. Qed.

Lemma seen_lt s x : base s -> seen s x -> (x < n)%nat.
Proof. intros Hb [i Hi]. rewrite <- (b_index _ Hb). by eapply lookup_lt_Some. Qed.

Lemma edge_lt x y : edge x y -> (y < n)%nat.
Proof. intros (ws & Hw & Hy). by eapply Hadj. Qed.

Lemma way_lt x y : tc edge x y -> (y < n)%nat.
Proof. by induction 1 as [x y He%edge_lt|]. Qed.

Lemma target_le s l l' y : target s l y -> (l' <= l)%nat -> target s l' y.
Proof. intros [Hs Ht] Hl. split; [done|]. intros i Hy Hi. specialize (Ht i Hy Hi). lia. Qed.

Lemma edges_ok_mono s s' v f seg l l' : edges_ok s v f seg l -> (l' <= l)%nat -> (forall y, target s l y -> target s' l y) -> edges_ok s' v f seg l'.
Proof. intros [H1 H2] Hl Ht. split; intros; eapply target_le; eauto. Qed.

(** What is on the stack above and below a node. *)
Lemma stack_split s seg v stk : base s -> stack s = seg ++ v :: stk ->
  (forall x, x ∈ seg -> above s x v) /\ (forall x, x ∈ stk -> above s v x) /\ (forall x y, x ∈ seg -> y ∈ stk -> above s x y).
Proof.
  intros Hb Hst. pose proof (b_sorted _ Hb) as Hs. rewrite Hst in Hs. apply StronglySorted_app in Hs as (H1 & _ & H2).
  apply StronglySorted_cons in H2 as [H2 _]. rewrite Forall_forall in H2. split; [intros; apply H1; [done|left]|]. split; [done|]. intros; apply H1; [done|by right].
Qed.

(** Everything on the stack leads to the top of the work. *)
Lemma leads_to_top s u f work stk x : frames s ((u, f) :: work) stk -> x ∈ stk -> leads x u.
Proof.
  remember ((u, f) :: work) as k eqn:Hk. intros Hf. revert u f work Hk. induction Hf as [|v g work' seg stk Hf IH Hv Hp]; intros u f work Hk; [done|].
  injection Hk as -> -> ->. intros [Hx|[Hx|Hx]%elem_of_cons]%elem_of_app; [by eapply fr_back|by rewrite Hx|].
  destruct work as [|[u' f'] work']; [inversion Hf; subst; by apply elem_of_nil in Hx|]. etrans; [by eapply IH|]. by apply rtc_once, Hp.
Qed.

(** A frame of one state is a frame of another that changed nothing of it. *)
Lemma frame_mono s s' v f seg : frame_ok s v f seg ->
  (forall x i, ix s x i -> ix s' x i) -> low s' !! v = low s !! v -> (forall l y, target s l y -> target s' l y) ->
  (forall i y l, ix s v i -> (l <= i)%nat -> ix s y l -> y ∈ stack s -> y ∈ stack s') -> frame_ok s' v f seg.
Proof.
  intros [H1 H2 H3 (l & Hl & (i & y & Hi & Hle & Hy & Hyl & Hr) & He)] Hix Hlow Ht Hw. split; [done..|]. exists l. rewrite Hlow. split; [done|].
  split; [|eapply edges_ok_mono; [done|done|apply Ht]]. exists i, y. split; [by apply Hix|]. split; [done|]. split; [by eapply Hw|]. split; [by apply Hix|done].
Qed.

Lemma frames_mono s s' work stk : frames s work stk ->
  (forall x i, ix s x i -> ix s' x i) ->
  (forall v, v ∈ fst <$> work -> low s' !! v = low s !! v) ->
  (forall l y, target s l y -> target s' l y) ->
  (forall v i y l, v ∈ fst <$> work -> ix s v i -> (l <= i)%nat -> ix s y l -> y ∈ stack s -> y ∈ stack s') -> frames s' work stk.
Proof.
  intros Hf Hix Hlow Ht Hw. induction Hf as [|v f work seg stk Hf IH Hv Hp]; [constructor|].
  constructor; [|eapply frame_mono; [done|done|apply Hlow|done|intros i y l; apply (Hw v i y l)]; rewrite fmap_cons; left|done].
  apply IH; [intros u Hu; apply Hlow|intros u i y l Hu; apply (Hw u i y l)]; rewrite fmap_cons; by right.
Qed.

(** The nodes of the work are on the stack. *)
Lemma work_on_stack s work stk v : frames s work stk -> v ∈ fst <$> work -> v ∈ stk.
Proof.
  induction 1 as [|u f work seg stk Hf IH Hu Hp]; [by intros ?%elem_of_nil|]. rewrite fmap_cons. intros [->|Hv]%elem_of_cons; set_solver.
Qed.

Lemma stack_nodup s : base s -> NoDup (stack s).
Proof.
  intros Hb. pose proof (b_sorted _ Hb) as Hs. pose proof (b_seen _ Hb) as Hi. induction Hs as [|x xs Hs IH Hx]; [constructor|].
  constructor; [|apply IH; intros; apply Hi; by right]. intros Hin. rewrite Forall_forall in Hx. destruct (Hi x) as [i Hxi]; [left|]. specialize (Hx x Hin i i Hxi Hxi). lia.
Qed.

Lemma work_nodup s work stk : frames s work stk -> NoDup stk -> NoDup (fst <$> work).
Proof.
  induction 1 as [|u f work seg stk Hf IH Hu Hp]; [constructor|]. intros (_ & _ & [Hn Hd]%NoDup_cons)%NoDup_app. rewrite fmap_cons. constructor; [|by apply IH].
  intros Hin. by apply Hn, (work_on_stack _ _ _ _ Hf).
Qed.

Lemma frames_inv s v f rest stk : frames s ((v, f) :: rest) stk -> exists seg stk', stk = seg ++ v :: stk' /\ frames s rest stk' /\ frame_ok s v f seg /\ (forall u, fst <$> head rest = Some u -> edge u v).
Proof. inversion 1; subst. eauto 10. Qed.

(** ** One turn *)

Lemma set_at_some {A} (l : list A) i x : (i < length l)%nat -> set_at l i x = Some (<[i := x]> l).
Proof. intros [y Hy]%lookup_lt_is_Some. unfold set_at. by rewrite Hy. Qed.

Lemma base_work k s : base s -> base (set_work k s).
Proof. by intros []. Qed.

Lemma frames_work k s work stk : frames s work stk -> frames (set_work k s) work stk.
Proof. intros Hf. by eapply frames_mono. Qed.

(** An edge more is followed, to a node that does not go below the low point. *)
Lemma frames_follow s v f rest stk ws w : frames s ((v, f) :: rest) stk -> adj !! v = Some ws -> ws !! f = Some w ->
  (forall l, low s !! v = Some l -> low_ok s v l -> target s l w) -> frames s ((v, S f) :: rest) stk.
Proof.
  intros (seg & stk' & -> & Hf & [H1 H2 (ws' & Hws' & Hc) (l & Hl & Hok & He1 & He2)] & Hp)%frames_inv Hws Hw Ht. replace ws' with ws in * by congruence.
  constructor; [done| |done]. split; [done|done| |].
  - exists ws. split; [done|]. by apply lookup_lt_Some in Hw.
  - exists l. split; [done|]. split; [done|]. split; [done|]. intros ws2 k y Hws2 Hk Hy. replace ws2 with ws in * by congruence.
    destruct (decide (k = f)) as [->|Hn]; [replace y with w by congruence; by apply Ht|]. eapply He2; [done| |done]. lia.
Qed.

Definition lowered (v l : nat) (s : Tarjan) : Tarjan := mkTarjan (index s) (<[v := l]> (low s)) (on_stack s) (stack s) (cyclic s) (next s) (work s).

Lemma set_low_some v l s : base s -> (v < n)%nat -> set_low v l s = Some (lowered v l s) /\ base (lowered v l s).
Proof.
  intros Hb Hv. split; [unfold set_low; rewrite set_at_some; [done|by rewrite (b_low _ Hb)]|]. destruct Hb. split; simpl; try done. by rewrite length_insert.
Qed.

Lemma frame_lowered s u l v f seg : u <> v -> frame_ok s v f seg -> frame_ok (lowered u l s) v f seg.
Proof. intros Hn Hf. eapply frame_mono; [done|done| |done|done]. simpl. by apply list_lookup_insert_ne. Qed.

Lemma frames_lower s v f rest stk l l' : frames s ((v, f) :: rest) stk -> NoDup stk -> low s !! v = Some l -> (l' <= l)%nat -> low_ok s v l' ->
  frames (lowered v l' s) ((v, f) :: rest) stk.
Proof.
  intros Hfr Hd Hl Hle Hok. pose proof (work_nodup _ _ _ Hfr Hd) as Hnd. rewrite fmap_cons in Hnd. apply NoDup_cons in Hnd as [Hn _].
  apply frames_inv in Hfr as (seg & stk' & -> & Hf & [H1 H2 H3 (l1 & Hl1 & _ & He)] & Hp). replace l1 with l in * by congruence.
  constructor; [|split; [done..|]|done].
  - eapply frames_mono; [done|done| |done|done]. intros u Hu. simpl. apply list_lookup_insert_ne. by intros <-.
  - exists l'. split; [simpl; apply list_lookup_insert_eq; by eapply lookup_lt_Some|]. split; [done|]. by eapply edges_ok_mono.
Qed.

(** *** A node is reached *)

Definition visited (w : nat) (s : Tarjan) : Tarjan :=
  mkTarjan (<[w := Some (next s)]> (index s)) (<[w := next s]> (low s)) (<[w := true]> (on_stack s)) (w :: stack s) (cyclic s) (S (next s)) ((w, 0%nat) :: work s).

Lemma visit_some w s : base s -> (w < n)%nat -> visit w s = Some (visited w s).
Proof. intros [H1 H2 H3 _ _ _ _ _ _ _ _] Hw. unfold visit. rewrite !set_at_some by congruence. done. Qed.

Lemma ix_visited w s x i : base s -> index s !! w = Some None -> ix (visited w s) x i <-> (x = w /\ i = next s) \/ ix s x i.
Proof.
  intros Hb Hw. unfold ix. simpl. destruct (decide (x = w)) as [->|Hn].
  - rewrite list_lookup_insert_eq by (by eapply lookup_lt_Some). rewrite Hw. split; [intros [= <-]; by left|by intros [[_ ->]|?]].
  - rewrite list_lookup_insert_ne by done. split; [by right|by intros [[? _]|?]].
Qed.

Lemma seen_visited w s x : base s -> index s !! w = Some None -> seen (visited w s) x <-> x = w \/ seen s x.
Proof.
  intros Hb Hw. split.
  - intros [i [[-> ->]|Hi]%ix_visited]; [by left|right; by exists i|done|done].
  - intros [->|[i Hi]]; eexists; apply ix_visited; eauto.
Qed.

Lemma not_seen w s : index s !! w = Some None -> ~ seen s w.
Proof. intros Hw [i Hi]. unfold ix in Hi. congruence. Qed.

Lemma target_visited w s l y : base s -> index s !! w = Some None -> target s l y -> target (visited w s) l y.
Proof.
  intros Hb Hw [Hs Ht]. pose proof (not_seen _ _ Hw). assert (y <> w) by (by intros ->).
  split; [apply seen_visited; eauto|]. intros i [?|Hy]%elem_of_cons [[? _]|Hi]%ix_visited; try done. by apply Ht.
Qed.

Lemma base_visited w s : base s -> index s !! w = Some None -> base (visited w s).
Proof.
  intros Hb Hw. pose proof (not_seen _ _ Hw) as Hns. assert (Hws : w ∉ stack s) by (intros H; by apply Hns, (b_seen _ Hb)).
  pose proof Hb as []. split; simpl; try (by rewrite length_insert); try done.
  - intros x. rewrite elem_of_cons, <- b_stack0. destruct (decide (x = w)) as [->|Hn]; [|rewrite list_lookup_insert_ne by done; naive_solver].
    rewrite list_lookup_insert_eq; [naive_solver|]. rewrite b_on0, <- b_index0. by eapply lookup_lt_Some.
  - intros x [->|Hx]%elem_of_cons; apply seen_visited; eauto.
  - apply StronglySorted_cons. split.
    + apply Forall_forall. intros x Hx i j [[_ ->]|Hi]%ix_visited [[-> _]|Hj]%ix_visited; try done; [by eapply b_next0|by destruct Hns; exists i].
    + eapply sorted_mono; [|done]. intros x y Hx Hy Hab i j [[-> _]|Hi]%ix_visited [[-> _]|Hj]%ix_visited; try done. by apply Hab.
  - intros x y i [[-> ->]|Hx]%ix_visited [[-> Hi]|Hy]%ix_visited; try done; [apply b_next0 in Hy; lia|subst; apply b_next0 in Hx; lia|by eapply b_inj0].
  - intros x i [[_ ->]|Hx]%ix_visited; [lia|apply b_next0 in Hx; lia|done|done].
  - intros x y [->|Hx]%seen_visited Hn He; [set_solver| |done|done]. destruct (b_done0 x y Hx) as [H1 H2]; [set_solver|done|].
    split; [apply seen_visited; eauto|]. intros [->|?]%elem_of_cons; done.
  - intros x [->|Hx]%seen_visited Hn; [set_solver| |done|done]. apply b_flag0; [done|set_solver].
Qed.

Lemma frames_visited w s k stk : base s -> index s !! w = Some None -> frames s k stk -> (forall v, v ∈ fst <$> k -> v ∈ stack s) -> frames (visited w s) k stk.
Proof.
  intros Hb Hw Hf Hk. eapply frames_mono; [done| | | |].
  - intros x i Hi. apply ix_visited; eauto.
  - intros v Hv. simpl. apply list_lookup_insert_ne. intros <-. apply (not_seen _ _ Hw), (b_seen _ Hb). by apply Hk.
  - intros. by apply target_visited.
  - intros. simpl. by right.
Qed.

(** The new node is the top frame. *)
Lemma good_visited w s k : base s -> index s !! w = Some None -> frames (visited w s) k (stack s) -> (forall u, fst <$> head k = Some u -> edge u w) ->
  frames (visited w s) ((w, 0%nat) :: k) (stack (visited w s)).
Proof.
  intros Hb Hw Hf Hp. assert (Hlt : (w < n)%nat) by (rewrite <- (b_index _ Hb); by eapply lookup_lt_Some).
  apply (frames_cons _ w 0 k [] (stack s)); [done| |done]. split; [by intros x ?%elem_of_nil..| |].
  - destruct (lookup_lt_is_Some_2 adj w Hlt) as [ws Hws]. exists ws. split; [done|lia].
  - exists (next s). split; [simpl; apply list_lookup_insert_eq; by rewrite (b_low _ Hb)|]. split.
    + exists (next s), w. assert (Hi : ix (visited w s) w (next s)) by (apply ix_visited; eauto). split; [done|]. split; [done|]. split; [by left|]. by split.
    + split; [by intros x y ?%elem_of_nil|]. intros ws k0 y _ Hk. lia.
Qed.

(** *** A node is finished *)

Lemma low_ok_le s v l i : low_ok s v l -> ix s v i -> (l <= i)%nat.
Proof. intros (j & y & Hj & Hle & _) Hi. by rewrite (ix_fun _ _ _ _ Hi Hj). Qed.

(** The low point of the node above becomes at most that of the node. *)
Lemma parent_lowered s v f u fu rest lv : base s -> frames s ((v, f) :: (u, fu) :: rest) (stack s) -> low s !! v = Some lv ->
  exists lu, low s !! u = Some lu /\ set_low u (Nat.min lu lv) s = Some (lowered u (Nat.min lu lv) s) /\ base (lowered u (Nat.min lu lv) s)
    /\ frames (lowered u (Nat.min lu lv) s) ((v, f) :: (u, fu) :: rest) (stack s)
    /\ low (lowered u (Nat.min lu lv) s) !! v = Some lv /\ low (lowered u (Nat.min lu lv) s) !! u = Some (Nat.min lu lv).
Proof.
  intros Hb Hfr Hlv. pose proof (stack_nodup _ Hb) as Hd. pose proof (work_nodup _ _ _ Hfr Hd) as [Hvu _]%NoDup_cons.
  assert (Hne : u <> v) by (intros ->; apply Hvu; left).
  apply frames_inv in Hfr as (seg & stk & Hst & Hf & Hfv & Hp). pose proof Hf as Hf'. apply frames_inv in Hf' as (segu & stku & Hst' & _ & Hfu & _).
  rewrite Hst in Hd. apply NoDup_app in Hd as (_ & _ & [_ Hd]%NoDup_cons).
  destruct (fr_low _ _ _ _ Hfu) as (lu & Hlu & (iu & yu & Hiu & Hle & Hyu) & _). destruct (fr_low _ _ _ _ Hfv) as (lv' & Hlv' & (iv & y & Hiv & Hle' & Hy) & _).
  replace lv' with lv in * by congruence. exists lu. split; [done|].
  assert (Hun : (u < n)%nat) by (eapply seen_lt; [done|by exists iu]).
  destruct (set_low_some u (Nat.min lu lv) s Hb Hun) as [Hs1 Hb1]. split; [done|]. split; [done|].
  split; [|split; [simpl; by rewrite list_lookup_insert_ne|simpl; apply list_lookup_insert_eq; by eapply lookup_lt_Some]].
  rewrite Hst. constructor; [|by apply frame_lowered|done]. apply frames_lower with lu; [done|done|done|lia|].
  destruct (Nat.min_spec lu lv) as [[_ ->]|[Hl ->]]; [by exists iu, yu|]. exists iu, y. split; [done|]. split; [lia|]. destruct Hy as (? & ? & Hr).
  split; [done|]. split; [done|]. eapply rtc_l; [by apply Hp|done].
Qed.

(** A node that leads further up the stack joins the segment of its parent. *)
Lemma merged s v f rest ws l i : base s -> frames s ((v, f) :: rest) (stack s) -> adj !! v = Some ws -> (length ws <= f)%nat ->
  low s !! v = Some l -> ix s v i -> l <> i -> (forall u fu rest', rest = (u, fu) :: rest' -> exists lu, low s !! u = Some lu /\ (lu <= l)%nat) ->
  frames s rest (stack s).
Proof.
  intros Hb (seg & stk & Hst & Hf & [H1 H2 _ (l' & Hl' & Hok & He1 & He2)] & Hp)%frames_inv Hws Hlen Hl Hi Hne Hpar. replace l' with l in * by congruence.
  destruct Hok as (i' & y & Hi' & Hle & Hy & Hyl & Hr). replace i' with i in * by (by eapply ix_fun).
  destruct (stack_split _ _ _ _ Hb Hst) as (Hab1 & _ & _). assert (Hyk : y ∈ stk).
  { rewrite Hst in Hy. apply elem_of_app in Hy as [Hy|[->|Hy]%elem_of_cons]; [specialize (Hab1 y Hy l i Hyl Hi); lia|by rewrite (ix_fun _ _ _ _ Hi Hyl) in Hne|done]. }
  destruct rest as [|[u fu] rest]; [inversion Hf; subst; by apply elem_of_nil in Hyk|]. destruct (Hpar u fu rest eq_refl) as (lu & Hlu & Hlul).
  assert (Hvu : leads v u) by (etrans; [done|by eapply leads_to_top]). assert (Huv : leads u v) by (by apply rtc_once, Hp).
  apply frames_inv in Hf as (segu & stku & -> & Hf & [G1 G2 G3 (lu' & Hlu' & Gok & Ge1 & Ge2)] & Gp). replace lu' with lu in * by congruence.
  rewrite Hst. replace (seg ++ v :: segu ++ u :: stku) with ((seg ++ v :: segu) ++ u :: stku) by (by rewrite <- app_assoc).
  constructor; [done| |done]. split; [| |done|exists lu; split; [done|]; split; [done|]; split; [|done]].
  - intros x [Hx|[->|Hx]%elem_of_cons]%elem_of_app; [etrans; eauto|done|by apply G1].
  - intros x [Hx|[->|Hx]%elem_of_cons]%elem_of_app; [etrans; eauto|done|by apply G2].
  - intros x z [Hx|[->|Hx]%elem_of_cons]%elem_of_app Hez; [eapply target_le; eauto| |by eapply Ge1].
    destruct Hez as (ws' & Hws' & [k Hk]%list_elem_of_lookup). replace ws' with ws in * by congruence.
    eapply target_le; [eapply He2; [done| |done]|done]. apply lookup_lt_Some in Hk. lia.
Qed.

(** *** A component is taken off *)

Lemma set_all_some {A} (l : list A) ws b : (forall w, w ∈ ws -> (w < length l)%nat) ->
  exists l', set_all l ws b = Some l' /\ length l' = length l /\ (forall x, x ∈ ws -> l' !! x = Some b) /\ (forall x, x ∉ ws -> l' !! x = l !! x).
Proof.
  revert l. induction ws as [|w ws IH]; intros l Hl; simpl.
  - exists l. repeat split; [by intros x ?%elem_of_nil].
  - assert (Hw : (w < length l)%nat) by (apply Hl; left). rewrite set_at_some by done. simpl.
    destruct (IH (<[w := b]> l)) as (l' & -> & Hlen & H1 & H2); [intros x Hx; rewrite length_insert; apply Hl; by right|]. rewrite length_insert in Hlen.
    exists l'. split; [done|]. split; [done|]. split.
    + intros x [->|Hx]%elem_of_cons; [|by apply H1]. destruct (decide (w ∈ ws)) as [Hin|Hin]; [by apply H1|]. rewrite H2 by done. by apply list_lookup_insert_eq.
    + intros x [Hn Hx]%not_elem_of_cons. rewrite H2 by done. by apply list_lookup_insert_ne.
Qed.

Lemma pop_to_some v seg stk marks acc : v ∉ seg -> (forall w, w ∈ seg ++ [v] -> (w < length marks)%nat) ->
  exists marks', pop_to v (seg ++ v :: stk) marks acc = Some (acc ++ seg ++ [v], stk, marks') /\ length marks' = length marks
    /\ (forall x, x ∈ seg ++ [v] -> marks' !! x = Some false) /\ (forall x, x ∉ seg ++ [v] -> marks' !! x = marks !! x).
Proof.
  intros Hv Hl. destruct (set_all_some marks (seg ++ [v]) false Hl) as (marks' & Hs & Hrest). exists marks'. split; [|done]. clear Hrest.
  revert marks acc Hl Hs. induction seg as [|w seg IH]; intros marks acc Hl Hs; simpl in *.
  - rewrite set_at_some in Hs |- * by (apply Hl; left). simpl in *. rewrite decide_True by done. by injection Hs as <-.
  - apply not_elem_of_cons in Hv as [Hvw Hv]. rewrite set_at_some in Hs |- * by (apply Hl; left). simpl in *. rewrite decide_False by done.
    rewrite (IH Hv (<[w := false]> marks) (acc ++ [w])); [by rewrite <- app_assoc|intros x Hx; rewrite length_insert; apply Hl; by right|done].
Qed.

Lemma done_closed s x y : base s -> seen s x -> x ∉ stack s -> leads x y -> seen s y /\ y ∉ stack s.
Proof. intros Hb Hs Hn Hr. induction Hr as [x|x z y Hxz Hzy IH]; [done|]. destruct (b_done _ Hb x z) as [? ?]; eauto. Qed.

(** What a component is: closed but for nodes done, all of it one round. *)
Lemma component_flag s v f seg stk ws i x : base s -> stack s = seg ++ v :: stk -> frame_ok s v f seg -> low s !! v = Some i -> ix s v i ->
  adj !! v = Some ws -> (length ws <= f)%nat -> x ∈ seg ++ [v] ->
  (bool_decide (1 < length (seg ++ [v]))%nat || bool_decide (v ∈ ws) = true <-> on_a_cycle x).
Proof.
  intros Hb Hst [H1 H2 _ (l & Hl & _ & He1 & He2)] Hlow Hi Hws Hlen Hx. replace l with i in * by congruence. rewrite orb_true_iff, !bool_decide_eq_true.
  destruct (stack_split _ _ _ _ Hb Hst) as (Hab1 & Hab2 & _).
  assert (Hround : forall y, y ∈ seg -> y <> v) by (intros y Hy ->; specialize (Hab1 v Hy i i Hi Hi); lia).
  assert (Htc : forall a b, a <> b -> leads a b -> leads b a -> tc edge a a) by (intros a b Hab [->|Hr]%rtc_tc Hr'; [done|by eapply tc_rtc_r]).
  destruct seg as [|y seg].
  - apply list_elem_of_singleton in Hx as ->. simpl. split.
    + intros [?|Hv]; [lia|]. apply tc_once. by exists ws.
    + intros Hc. right. assert (Hfirst : exists y, edge v y /\ leads y v) by (inversion Hc; subst; [by exists v|eexists; split; [done|by apply tc_rtc]]).
      destruct Hfirst as (y & (ws' & Hws' & Hy) & Hyv). replace ws' with ws in * by congruence. pose proof Hy as Hy'. apply list_elem_of_lookup in Hy' as [k Hk].
      destruct (He2 ws k y Hws) as [[j Hj] Ht]; [apply lookup_lt_Some in Hk; lia|done|].
      destruct (decide (y ∈ stack s)) as [Hin|Hout].
      * specialize (Ht j Hin Hj). rewrite Hst in Hin. apply elem_of_cons in Hin as [->|Hin]; [done|]. specialize (Hab2 y Hin i j Hi Hj). lia.
      * destruct (done_closed s y v) as [_ Hd]; [done|by exists j|done|done|]. rewrite Hst in Hd. set_solver.
  - split; [intros _|intros _; left; simpl; rewrite length_app; simpl; lia]. unfold on_a_cycle.
    apply elem_of_app in Hx as [Hx|Hx%list_elem_of_singleton].
    + eapply (Htc x v); [by apply Hround|by apply H2|by apply H1].
    + subst x. eapply (Htc v y); [intros <-; eapply Hround; [left|done]|apply H1; left|apply H2; left].
Qed.

Definition popped (stk : list nat) (marks cyc : list bool) (s : Tarjan) : Tarjan := mkTarjan (index s) (low s) marks stk cyc (next s) (work s).

Lemma popped_good s v f rest ws i : base s -> frames s ((v, f) :: rest) (stack s) -> low s !! v = Some i -> ix s v i -> adj !! v = Some ws -> (length ws <= f)%nat ->
  exists c stk marks cyc, pop_to v (stack s) (on_stack s) [] = Some (c, stk, marks)
    /\ set_all (cyclic s) c (bool_decide (1 < length c)%nat || bool_decide (v ∈ ws)) = Some cyc
    /\ base (popped stk marks cyc s) /\ frames (popped stk marks cyc s) rest stk.
Proof.
  intros Hb (seg & stk & Hst & Hf & Hfv & Hp)%frames_inv Hl Hi Hws Hlen. destruct (stack_split _ _ _ _ Hb Hst) as (Hab1 & Hab2 & _).
  pose proof (fun x => component_flag s v f seg stk ws i x Hb Hst Hfv Hl Hi Hws Hlen) as Hflag.
  assert (Hvs : v ∉ seg) by (intros Hin; specialize (Hab1 v Hin i i Hi Hi); lia).
  assert (Hstk : forall x, x ∈ stack s <-> x ∈ seg ++ [v] \/ x ∈ stk) by (intros x; rewrite Hst; set_solver).
  assert (Hlt : forall x, x ∈ seg ++ [v] -> (x < n)%nat) by (intros x Hx; apply (seen_lt s); [done|]; apply (b_seen _ Hb), Hstk; by left).
  destruct (pop_to_some v seg stk (on_stack s) [] Hvs) as (marks & Hpop & Hm1 & Hm2 & Hm3); [intros; rewrite (b_on _ Hb); by apply Hlt|].
  destruct (set_all_some (cyclic s) (seg ++ [v]) (bool_decide (1 < length (seg ++ [v]))%nat || bool_decide (v ∈ ws))) as (cyc & Hset & Hc1 & Hc2 & Hc3); [intros; rewrite (b_cyclic _ Hb); by apply Hlt|].
  rewrite Hst. simpl in Hpop. exists (seg ++ [v]), stk, marks, cyc. split; [done|]. split; [done|].
  pose proof (stack_nodup _ Hb) as Hd. rewrite Hst in Hd.
  assert (Hapart : forall x, x ∈ seg ++ [v] -> x ∉ stk) by (apply NoDup_app in Hd as (_ & Hd1 & [Hd2 _]%NoDup_cons); set_solver).
  assert (Hout : forall x y, x ∈ seg ++ [v] -> edge x y -> target s i y).
  { destruct (fr_low _ _ _ _ Hfv) as (l & Hl' & _ & He1 & He2). replace l with i in * by congruence. intros x y [Hx|Hx%list_elem_of_singleton]%elem_of_app He; [by eapply He1|subst x].
    destruct He as (ws' & Hws' & [k Hk]%list_elem_of_lookup). replace ws' with ws in * by congruence. eapply He2; [done| |done]. apply lookup_lt_Some in Hk. lia. }
  pose proof Hb as []. split.
  - split; simpl; try done; try congruence.
    + intros x. destruct (decide (x ∈ seg ++ [v])) as [Hx|Hx]; [rewrite Hm2 by done; split; [done|intros Hk; by destruct (Hapart x Hx)]|].
      rewrite Hm3 by done. rewrite b_stack0, Hstk. naive_solver.
    + intros x Hx. apply b_seen0, Hstk. by right.
    + rewrite Hst in b_sorted0. apply StronglySorted_app in b_sorted0 as (_ & _ & [_ Hs]%StronglySorted_cons). apply (sorted_mono (above s)); [by intros x y _ _ H|done].
    + intros x y Hx Hn He. destruct (decide (x ∈ seg ++ [v])) as [Hin|Hin].
      * destruct (Hout x y Hin He) as [[j Hj] Ht]. split; [by exists j|]. intros Hk. specialize (Ht j). rewrite Hstk in Ht. specialize (Ht (or_intror Hk) Hj). specialize (Hab2 y Hk i j Hi Hj). lia.
      * destruct (b_done0 x y) as [? Hy]; [done|rewrite Hstk; naive_solver|done|]. split; [done|]. rewrite Hstk in Hy. naive_solver.
    + intros x Hx Hn. destruct (decide (x ∈ seg ++ [v])) as [Hin|Hin]; [rewrite Hc2 by done; eauto|]. rewrite Hc3 by done. apply b_flag0; [done|]. rewrite Hstk. naive_solver.
  - eapply frames_mono; [exact Hf|done|done| |].
    + intros l y [Hs Ht]. split; [done|]. intros j Hy. apply Ht, Hstk. by right.
    + intros u j y l Hu Hj Hle Hyl Hy. simpl. apply Hstk in Hy as [Hy|Hy]; [|done]. pose proof (work_on_stack _ _ _ _ Hf Hu) as Huk.
      specialize (Hab2 u Huk i j Hi Hj). apply elem_of_app in Hy as [Hy| ->%list_elem_of_singleton]; [specialize (Hab1 y Hy l i Hyl Hi); lia|rewrite (ix_fun _ _ _ _ Hyl Hi) in Hle; lia].
Qed.

(** *** What is left to do *)

Definition todo (k : list (nat * nat)) : nat := sum_list_with (fun vf : nat * nat => S (length (default [] (adj !! vf.1)) - vf.2)) k.
Definition unseen (idx : list (option nat)) (g : list (list nat)) : nat :=
  sum_list_with (fun p : option nat * list nat => match p.1 with None => S (length p.2) | Some _ => 0%nat end) (zip idx g).
Definition left_to_do (s : Tarjan) : nat := (todo (work s) + unseen (index s) adj)%nat.

Lemma unseen_insert idx g w i ws : idx !! w = Some None -> g !! w = Some ws -> unseen idx g = (S (length ws) + unseen (<[w := Some i]> idx) g)%nat.
Proof.
  revert g w. induction idx as [|o idx IH]; intros [|es g] [|w] Hi Hg; try done; simpl in Hi, Hg.
  - injection Hi as ->. injection Hg as ->. done.
  - change (unseen (o :: idx) (es :: g)) with ((match o with None => S (length es) | Some _ => 0 end) + unseen idx g)%nat.
    change (unseen (<[S w := Some i]> (o :: idx)) (es :: g)) with ((match o with None => S (length es) | Some _ => 0 end) + unseen (<[w := Some i]> idx) g)%nat.
    rewrite (IH g w) by done. lia.
Qed.

Lemma unseen_start : unseen (replicate n None) adj = enough adj.
Proof. unfold enough, unseen. clear Hadj. induction adj as [|ws g IH]; [done|]. simpl. by rewrite IH. Qed.

Lemma left_visited w s : base s -> index s !! w = Some None -> left_to_do (visited w s) = left_to_do s.
Proof.
  intros Hb Hw. assert (Hlt : (w < n)%nat) by (rewrite <- (b_index _ Hb); by eapply lookup_lt_Some).
  destruct (lookup_lt_is_Some_2 adj w Hlt) as [ws Hws]. unfold left_to_do. rewrite (unseen_insert (index s) adj w (next s) ws) by done.
  unfold todo. simpl. rewrite Hws. simpl. lia.
Qed.

(** ** The loop *)

(** What a turn keeps. *)
Definition after (s s' : Tarjan) : Prop := good s' /\ S (left_to_do s') = left_to_do s /\ (forall x, seen s x -> seen s' x).

Lemma follow_good s v f w rest ws : good s -> work s = (v, f) :: rest -> adj !! v = Some ws -> ws !! f = Some w -> exists s', follow v f w rest s = Some s' /\ after s s'.
Proof.
  intros [Hb Hf] Hk Hws Hw. rewrite Hk in Hf. assert (Hvw : edge v w) by (exists ws; split; [done|by eapply list_elem_of_lookup_2]).
  pose proof (edge_lt _ _ Hvw) as Hlt. pose proof (lookup_lt_Some _ _ _ Hw) as Hflt. set (s0 := set_work ((v, S f) :: rest) s).
  assert (Hb0 : base s0) by (by apply base_work). assert (Hf0 : frames s0 ((v, f) :: rest) (stack s0)) by (by apply frames_work).
  assert (Hleft : S (left_to_do s0) = left_to_do s) by (unfold left_to_do; rewrite Hk; unfold todo; simpl; rewrite Hws; simpl; lia).
  assert (Hv0 : forall i, ix s0 v i -> (i < next s0)%nat) by apply b_next, Hb0.
  unfold follow. fold s0. destruct (lookup_lt_is_Some_2 (index s0) w) as [o Ho]; [by rewrite (b_index _ Hb0)|]. rewrite Ho. cbn [mbind option_bind]. destruct o as [i|].
  - destruct (lookup_lt_is_Some_2 (on_stack s0) w) as [on Hon]; [by rewrite (b_on _ Hb0)|]. rewrite Hon. cbn [mbind option_bind]. destruct on.
    + apply (b_stack _ Hb0) in Hon. pose proof Hf0 as Hf0'. apply frames_inv in Hf0' as (seg & stk & Hst & _ & Hfv & _).
      destruct (fr_low _ _ _ _ Hfv) as (l & Hl & (iv & y & Hiv & Hle & Hy) & _). rewrite Hl. cbn [mbind option_bind].
      destruct (set_low_some v (Nat.min l i) s0 Hb0) as [-> Hb1]; [eapply seen_lt; [done|by exists iv]|]. eexists. split; [done|]. split; [split; [done|]|done].
      eapply frames_follow; [apply frames_lower with l; [exact Hf0|by apply stack_nodup|done|lia|]|done|done|].
      * destruct (Nat.min_spec l i) as [[_ ->]|[Hli ->]]; [by exists iv, y|]. exists iv, w. split; [done|]. split; [lia|]. split; [done|]. split; [done|by apply rtc_once].
      * intros l' Hl' _. simpl in Hl'. rewrite list_lookup_insert_eq in Hl' by (by eapply lookup_lt_Some). injection Hl' as <-. split; [by exists i|].
        intros j _ Hj. rewrite (ix_fun _ _ _ _ Hj Ho). lia.
    + eexists. split; [done|]. split; [split; [done|]|done]. eapply frames_follow; [done..|]. intros l _ _. split; [by exists i|].
      intros j Hin. apply (b_stack _ Hb0) in Hin. congruence.
  - rewrite visit_some by done. eexists. split; [done|]. split; [split; [by apply base_visited|]|split; [by rewrite left_visited|intros x Hx; apply seen_visited; eauto]].
    change (work (visited w s0)) with ((w, 0%nat) :: (v, S f) :: rest). apply good_visited; [done|done| |by intros u [= <-]].
    eapply frames_follow; [apply frames_visited; [done..|]|done|done|].
    + intros u Hu. by eapply work_on_stack.
    + intros l _ (iv & y & Hiv & Hle & _). split; [apply seen_visited; eauto|]. intros j _ [[_ ->]|Hj]%ix_visited; [|by destruct (not_seen _ _ Ho); exists j|done|done].
      apply ix_visited in Hiv as [[-> ->]|Hiv]; [done| |done|done]. specialize (Hv0 iv Hiv). lia.
Qed.

(** Once the parent has taken the low point over. *)
Definition settle (v : nat) (s : Tarjan) : option Tarjan :=
  l ← low s !! v;
  i ← index s !! v;
  if decide (Some l = i) then
    '(component, stack', marks) ← pop_to v (stack s) (on_stack s) [];
    edges ← adj !! v;
    let round := bool_decide (1 < length component)%nat || bool_decide (v ∈ (edges : list nat)) in
    cyclic' ← set_all (cyclic s) component round;
    Some (popped stack' marks cyclic' s)
  else Some s.

Lemma settle_good s v f ws l : base s -> frames s ((v, f) :: work s) (stack s) -> adj !! v = Some ws -> (length ws <= f)%nat -> low s !! v = Some l ->
  (forall u fu rest', work s = (u, fu) :: rest' -> exists lu, low s !! u = Some lu /\ (lu <= l)%nat) ->
  exists s', settle v s = Some s' /\ good s' /\ work s' = work s /\ index s' = index s.
Proof.
  intros Hb Hf Hws Hlen Hl Hpar. pose proof Hf as Hf'. apply frames_inv in Hf' as (seg & stk & Hst & _ & Hfv & _).
  destruct (fr_low _ _ _ _ Hfv) as (l' & Hl' & (i & y & Hi & _) & _). unfold settle. rewrite Hl. cbn [mbind option_bind]. rewrite Hi. cbn [mbind option_bind].
  destruct (decide (Some l = Some i)) as [[= ->]|Hne].
  - destruct (popped_good s v f (work s) ws i) as (c & stk' & marks & cyc & Hpop & Hset & Hb' & Hf'); [done..|]. rewrite Hpop. cbn [mbind option_bind].
    rewrite Hws. cbn [mbind option_bind]. rewrite Hset. cbn [mbind option_bind]. by eexists.
  - exists s. split; [done|]. split; [split; [done|]|done]. apply (merged s v f (work s) ws l i); try done. congruence.
Qed.

Lemma finish_good s v f rest ws : good s -> work s = (v, f) :: rest -> adj !! v = Some ws -> (length ws <= f)%nat -> exists s', finish adj v rest s = Some s' /\ after s s'.
Proof.
  intros [Hb Hf] Hk Hws Hlen. rewrite Hk in Hf. set (s0 := set_work rest s).
  assert (Hb0 : base s0) by (by apply base_work). assert (Hf0 : frames s0 ((v, f) :: rest) (stack s0)) by (by apply frames_work).
  assert (Hleft : S (left_to_do s0) = left_to_do s) by (unfold left_to_do; rewrite Hk; unfold todo; simpl; rewrite Hws; simpl; lia).
  pose proof Hf0 as Hf0'. apply frames_inv in Hf0' as (seg & stk & Hst & _ & Hfv & _). destruct (fr_low _ _ _ _ Hfv) as (l & Hl & _). clear Hfv.
  assert (Hpar : exists s1, match rest with (u, _) :: _ => lu ← low s0 !! u; lv ← low s0 !! v; set_low u (Nat.min lu lv) s0 | [] => Some s0 end = Some s1
    /\ base s1 /\ frames s1 ((v, f) :: work s1) (stack s1) /\ low s1 !! v = Some l /\ work s1 = rest /\ index s1 = index s0
    /\ (forall u fu rest', rest = (u, fu) :: rest' -> exists lu, low s1 !! u = Some lu /\ (lu <= l)%nat)).
  { destruct rest as [|[u fu] rest']; [by exists s0|]. destruct (parent_lowered s0 v f u fu rest' l Hb0 Hf0 Hl) as (lu & Hlu & Hs1 & Hb1 & Hf1 & Hl1 & Hlu1).
    rewrite Hlu, Hl. cbn [mbind option_bind]. rewrite Hs1. eexists. split; [done|]. repeat (split; [done|]). intros u2 fu2 r2 [= <- <- <-]. eexists. split; [done|]. lia. }
  destruct Hpar as (s1 & Hs1 & Hb1 & Hf1 & Hl1 & Hk1 & Hi1 & Hpar). destruct (settle_good s1 v f ws l Hb1 Hf1 Hws Hlen Hl1) as (s2 & Hs2 & Hg2 & Hk2 & Hi2); [by rewrite Hk1|].
  exists s2. split; [unfold finish; fold s0; rewrite Hs1; exact Hs2|]. split; [done|]. split.
  - rewrite <- Hleft. unfold left_to_do. by rewrite Hk2, Hk1, Hi2, Hi1.
  - intros x [i Hi]. exists i. unfold ix. by rewrite Hi2, Hi1.
Qed.

Lemma turn_good s v f rest : good s -> work s = (v, f) :: rest -> exists s', turn adj v f rest s = Some s' /\ after s s'.
Proof.
  intros Hg Hk. assert (Hv : exists ws, adj !! v = Some ws).
  { destruct Hg as [_ Hf]. rewrite Hk in Hf. apply frames_inv in Hf as (seg & stk & _ & _ & [_ _ (ws & Hws & _) _] & _). by exists ws. }
  destruct Hv as [ws Hws]. unfold turn. rewrite Hws. cbn [mbind option_bind]. destruct (ws !! f) as [w|] eqn:Hw; [by eapply follow_good|].
  eapply finish_good; [done..|]. by apply lookup_ge_None.
Qed.

Lemma search_good fuel s : good s -> (left_to_do s <= fuel)%nat -> exists s', search adj fuel s = Some s' /\ good s' /\ work s' = [] /\ (left_to_do s' <= left_to_do s)%nat /\ (forall x, seen s x -> seen s' x).
Proof.
  revert s. induction fuel as [|fuel IH]; intros s Hg Hl; (destruct (work s) as [|[v f] rest] eqn:Hk; [exists s; simpl; by rewrite Hk|]).
  - unfold left_to_do in Hl. rewrite Hk in Hl. unfold todo in Hl. simpl in Hl. lia.
  - destruct (turn_good s v f rest Hg Hk) as (s1 & Hs1 & Hg1 & Hl1 & Hm1). destruct (IH s1 Hg1) as (s2 & Hs2 & Hg2 & Hk2 & Hl2 & Hm2); [lia|].
    exists s2. simpl. rewrite Hk, Hs1. simpl. split; [done|]. split; [done|]. split; [done|]. split; [lia|]. eauto.
Qed.

Lemma from_roots_good roots s : good s -> work s = [] -> (left_to_do s <= enough adj)%nat -> (forall r, r ∈ roots -> (r < n)%nat) ->
  exists s', from_roots adj roots s = Some s' /\ good s' /\ work s' = [] /\ (forall x, seen s x -> seen s' x) /\ (forall r, r ∈ roots -> seen s' r).
Proof.
  revert s. induction roots as [|r roots IH]; intros s Hg Hk Hl Hr; simpl.
  - exists s. repeat (split; [done|]). by intros x ?%elem_of_nil.
  - pose proof Hg as [Hb Hf]. rewrite Hk in Hf. destruct (lookup_lt_is_Some_2 (index s) r) as [o Ho]; [rewrite (b_index _ Hb); apply Hr; left|]. rewrite Ho. simpl.
    assert (Hstep : exists s1, match o with Some _ => Some s | None => s ← visit r s; search adj (enough adj) s end = Some s1
      /\ good s1 /\ work s1 = [] /\ (left_to_do s1 <= enough adj)%nat /\ (forall x, seen s x -> seen s1 x) /\ seen s1 r).
    { destruct o as [i|]; [exists s; repeat (split; [done|]); by exists i|]. rewrite visit_some by (done || (apply Hr; left)). simpl.
      destruct (search_good (enough adj) (visited r s)) as (s1 & Hs1 & Hg1 & Hk1 & Hl1 & Hm1).
      - split; [by apply base_visited|]. change (work (visited r s)) with ((r, 0%nat) :: work s). rewrite Hk. apply good_visited; [done|done| |done].
        inversion Hf. constructor.
      - by rewrite left_visited.
      - rewrite left_visited in Hl1 by done. exists s1. split; [done|]. split; [done|]. split; [done|]. split; [lia|]. split; [intros x Hx|]; apply Hm1, seen_visited; eauto. }
    destruct Hstep as (s1 & -> & Hg1 & Hk1 & Hl1 & Hm1 & Hs1). simpl. destruct (IH s1 Hg1 Hk1 Hl1) as (s2 & Hs2 & Hg2 & Hk2 & Hm2 & Hr2); [intros; apply Hr; by right|].
    exists s2. split; [done|]. split; [done|]. split; [done|]. split; [eauto|]. intros x [->|Hx]%elem_of_cons; eauto.
Qed.

Lemma start_good : good (start n).
Proof.
  assert (Hno : forall x i, ~ ix (start n) x i) by (intros x i Hi; unfold ix in Hi; simpl in Hi; by apply lookup_replicate in Hi as [? _]).
  split; [split; simpl; try (by rewrite length_replicate)|constructor].
  - intros x. rewrite lookup_replicate, elem_of_nil. naive_solver.
  - by intros x ?%elem_of_nil.
  - constructor.
  - intros x y i Hi. by destruct (Hno x i).
  - intros x i Hi. by destruct (Hno x i).
  - intros x y [i Hi]. by destruct (Hno x i).
  - intros x [i Hi]. by destruct (Hno x i).
Qed.

(** The marks are right. *)
Lemma on_cycles_spec : exists marks, on_cycles adj = Some marks /\ length marks = n /\ forall x, marks !! x = Some true <-> on_a_cycle x.
Proof.
  destruct (from_roots_good (seq 0 n) (start n) start_good) as (s & Hs & [Hb Hf] & Hk & _ & Hr); [done| |intros r Hr%elem_of_seq; lia|].
  { unfold left_to_do. simpl. by rewrite unseen_start. }
  exists (cyclic s). unfold on_cycles. rewrite Hs. split; [done|]. split; [apply Hb|]. intros x. rewrite Hk in Hf. assert (Hst : stack s = []) by (by inversion Hf).
  assert (Hflag : (x < n)%nat -> exists b, cyclic s !! x = Some b /\ (b = true <-> on_a_cycle x)).
  { intros Hx. apply b_flag; [done|apply Hr, elem_of_seq; lia|rewrite Hst; by intros ?%elem_of_nil]. }
  split.
  - intros Hx. destruct Hflag as (b & Hb' & Hc); [rewrite <- (b_cyclic _ Hb); by eapply lookup_lt_Some|]. apply Hc. congruence.
  - intros Hx. destruct Hflag as (b & Hb' & Hc); [|rewrite Hb'; f_equal; by apply Hc]. by eapply way_lt.
Qed.
(** The marks [on_cycles] gives are right, and it gives them for every
    graph: no index is out of range, no [expect] fails, the loop ends; a node is
    marked exactly when a way along the edges, of one edge or more, leads from it
    back to it. *)
Theorem groups_on_a_cycle_are_found : exists marks, on_cycles adj = Some marks /\ length marks = n /\ forall x, marks !! x = Some true <-> on_a_cycle x.
Proof. exact on_cycles_spec. Qed.
End Tarjan.

Lemma groups_on_a_cycle_are_found_witness : exists marks, on_cycles [[1; 2]; [2]; [1; 3]; [3]; [0]]%nat = Some marks /\ length marks = 5%nat
  /\ forall x, marks !! x = Some true <-> on_a_cycle [[1; 2]; [2]; [1; 3]; [3]; [0]]%nat x.
Proof.
  apply (groups_on_a_cycle_are_found [[1; 2]; [2]; [1; 3]; [3]; [0]]%nat). intros v ws w Hws Hw. simpl.
  repeat (destruct v as [|v]; [injection Hws as <-; set_unfold; lia|]). done.
Defined.

(** ** The cycles that are reported
    [shortest_cycle] and [group_cycles] of [GroupCycles.v]: the walk breadth
    first finds a shortest way from a node back to itself, and the cycles reported
    are cycles of the groups, every group on a cycle being on one of them. *)

Section Cycles.
Context (adj : list (list nat)) (Hadj : forall v ws w, adj !! v = Some ws -> w ∈ ws -> (w < length adj)%nat).

Abbreviation n := (length adj).
Abbreviation edge := (CyclesNamed.edge adj).

(** The nodes of a way from [a], the last of them [x]. *)
Inductive way (a : nat) : nat -> list nat -> Prop :=
  | way_start : way a a [a]
  | way_on x l y : way a x l -> edge x y -> way a y (l ++ [y]).

Section Breadth.
Context (a : nat).

(** The state of the walk: the nodes taken from the queue, the queue, the
    parents, and how far a node is from [a]. *)
Record walk (d : nat -> nat) (parent : list (option nat)) (taken queue : list nat) : Prop := {
  w_length : length parent = n;
  w_nodup : NoDup (taken ++ queue);
  w_range : forall x, x ∈ taken ++ queue -> (x < n)%nat;
  w_start : d a = 0%nat;
  w_parent : forall x p, parent !! x = Some (Some p) -> x <> a /\ x ∈ taken ++ queue /\ p ∈ taken ++ queue /\ edge p x /\ d x = S (d p);
  w_found : forall x, x ∈ taken ++ queue -> x = a \/ exists p, parent !! x = Some (Some p);
  w_in : a ∈ taken ++ queue;
  w_depth : forall x, x ∈ taken ++ queue -> (d x < length (taken ++ queue))%nat;
  w_sorted : StronglySorted (fun x y => (d x <= d y)%nat) queue;
  w_near : forall x y, head queue = Some x -> y ∈ taken ++ queue -> (d y <= S (d x))%nat;
  w_closed : forall x y, x ∈ taken -> edge x y -> y <> a /\ y ∈ taken ++ queue /\ (d y <= S (d x))%nat;
}.

Lemma walk_back_spec d parent taken queue fuel at_ path : walk d parent taken queue -> at_ ∈ taken ++ queue -> (d at_ <= fuel)%nat ->
  exists l, walk_back fuel parent a at_ path = Some (path ++ l) /\ way a at_ (reverse (at_ :: l)) /\ length l = d at_.
Proof.
  intros Hw. revert at_ path. induction fuel as [|fuel IH]; intros x path Hx Hd; simpl.
  - destruct (w_found _ _ _ _ Hw x Hx) as [->|[p Hp]]; [|apply (w_parent _ _ _ _ Hw) in Hp; lia].
    rewrite decide_True by done. exists []. rewrite app_nil_r. split; [done|]. split; [constructor|]. by rewrite (w_start _ _ _ _ Hw).
  - destruct (decide (x = a)) as [->|Hn]; [exists []; rewrite app_nil_r; split; [done|]; split; [constructor|by rewrite (w_start _ _ _ _ Hw)]|].
    destruct (w_found _ _ _ _ Hw x Hx) as [->|[p Hp]]; [done|]. rewrite Hp. simpl.
    apply (w_parent _ _ _ _ Hw) in Hp as (_ & _ & Hpin & He & Hdx). destruct (IH p (path ++ [p])) as (l & -> & Hl & Hlen); [done|lia|].
    exists (p :: l). rewrite <- app_assoc. split; [done|]. rewrite (reverse_cons (p :: l)). split; [by constructor 2 with p|]. simpl. lia.
Qed.

(** What is left in the queue is as far as any way. *)
Lemma walk_reaches d parent taken queue k x : walk d parent taken queue -> nsteps edge k a x ->
  x ∈ taken /\ (d x <= k)%nat \/ exists y, y ∈ queue /\ (d y <= k)%nat.
Proof.
  intros Hw. revert x. induction k as [|k IH]; intros x Hs.
  - assert (x = a) as -> by (by inversion Hs). pose proof (w_in _ _ _ _ Hw) as Hin. rewrite elem_of_app in Hin. pose proof (w_start _ _ _ _ Hw) as H0. destruct Hin; [left; split; [done|lia]|right; exists a; split; [done|lia]].
  - apply nsteps_inv_r in Hs as (y & Hs & He). destruct (IH y Hs) as [[Hy Hd]|(z & Hz & Hd)]; [|right; exists z; split; [done|lia]].
    destruct (w_closed _ _ _ _ Hw y x Hy He) as (_ & [Hx|Hx]%elem_of_app & Hdx); [left; split; [done|lia]|right; exists x; split; [done|lia]].
Qed.

(** The path is a way round, and no way round is shorter. *)
Definition shortest_round (path : list nat) : Prop :=
  (exists v, way a v path /\ edge v a) /\ forall k, nsteps edge (S k) a a -> (length path <= S k)%nat.

Lemma depth_lt d parent taken queue x : walk d parent taken queue -> x ∈ taken ++ queue -> (d x < n)%nat.
Proof.
  intros Hw Hx. pose proof (w_depth _ _ _ _ Hw x Hx). assert (length (taken ++ queue) <= n)%nat; [|lia].
  rewrite <- (length_seq n 0). apply submseteq_length, NoDup_submseteq; [apply Hw|]. intros y Hy. apply elem_of_seq. pose proof (w_range _ _ _ _ Hw y Hy). lia.
Qed.

Lemma round_found d parent taken v queue : walk d parent taken (v :: queue) -> edge v a ->
  exists path, walk_back (length parent) parent a v [v] = Some path /\ shortest_round (reverse path).
Proof.
  intros Hw He. assert (Hv : v ∈ taken ++ v :: queue) by set_solver. pose proof (depth_lt _ _ _ _ v Hw Hv).
  destruct (walk_back_spec _ _ _ _ (length parent) v [v] Hw Hv) as (l & Hl & Hway & Hlen); [rewrite (w_length _ _ _ _ Hw); lia|].
  exists (v :: l). split; [done|]. split; [by exists v|]. intros k (x & Hs & Hx)%nsteps_inv_r. rewrite length_reverse. simpl.
  destruct (walk_reaches _ _ _ _ k x Hw Hs) as [[Hin Hd]|(y & Hin & Hd)]; [by destruct (w_closed _ _ _ _ Hw x a Hin Hx)|].
  apply elem_of_cons in Hin as [->|Hin]; [lia|]. pose proof (w_sorted _ _ _ _ Hw) as [_ Hy]%StronglySorted_inv. rewrite Forall_forall in Hy. specialize (Hy y Hin). simpl in Hy. lia.
Qed.

Definition deeper (d : nat -> nat) (w k x : nat) : nat := if decide (x = w) then k else d x.

(** A new node is queued. *)
Lemma walk_add d parent taken v q w : walk d parent taken (v :: q) -> edge v w -> w <> a -> parent !! w = Some None ->
  walk (deeper d w (S (d v))) (<[w := Some v]> parent) taken (v :: q ++ [w]).
Proof.
  intros Hw He Hwa Hp. assert (Hnew : w ∉ taken ++ v :: q) by (intros Hin; destruct (w_found _ _ _ _ Hw w Hin) as [?|[p Hp']]; [done|congruence]).
  assert (Hold : forall x, x ∈ taken ++ v :: q -> deeper d w (S (d v)) x = d x) by (intros x Hx; apply decide_False; by intros ->).
  assert (Hnw : deeper d w (S (d v)) w = S (d v)) by (by apply decide_True).
  assert (Heq : taken ++ v :: q ++ [w] = (taken ++ v :: q) ++ [w]) by (by rewrite <- app_assoc).
  assert (Hv : v ∈ taken ++ v :: q) by set_solver. pose proof (w_near _ _ _ _ Hw v) as Hnear. pose proof (w_depth _ _ _ _ Hw) as Hdep.
  assert (Hin : forall x, x ∈ taken ++ v :: q ++ [w] -> x ∈ taken ++ v :: q \/ x = w) by (intros x; rewrite Heq; set_solver).
  pose proof Hw as []. split.
  - by rewrite length_insert.
  - rewrite Heq. apply NoDup_app. split; [done|]. split; [set_solver|apply NoDup_singleton].
  - intros x [Hx| ->]%Hin; [by apply w_range0|by eapply edge_lt].
  - by rewrite Hold.
  - intros x p Hxp. rewrite Heq. destruct (decide (x = w)) as [->|Hn].
    + rewrite list_lookup_insert_eq in Hxp by (by eapply lookup_lt_Some). injection Hxp as <-. rewrite Hnw, Hold by done. set_solver.
    + rewrite list_lookup_insert_ne in Hxp by done. apply w_parent0 in Hxp as (? & ? & ? & ? & ?). rewrite !Hold by done. set_solver.
  - intros x [Hx| ->]%Hin.
    + destruct (decide (x = w)) as [->|Hn]; [done|]. rewrite list_lookup_insert_ne by done. by apply w_found0.
    + right. exists v. apply list_lookup_insert_eq. by eapply lookup_lt_Some.
  - rewrite Heq. set_solver.
  - rewrite Heq. intros x Hx. rewrite length_app. simpl. rewrite <- Heq in Hx. apply Hin in Hx as [Hx| ->]; [rewrite Hold by done; specialize (Hdep x Hx); lia|].
    rewrite Hnw. specialize (Hdep v Hv). lia.
  - change (v :: q ++ [w]) with ((v :: q) ++ [w]). apply StronglySorted_app. split; [|split; [|repeat constructor]].
    + intros x y Hx ->%list_elem_of_singleton. rewrite Hnw, Hold by set_solver. apply Hnear; [done|set_solver].
    + eapply sorted_mono; [|done]. intros x y Hx Hy ?. by rewrite !Hold by set_solver.
  - intros x y [= <-] [Hy| ->]%Hin; rewrite (Hold v) by done; [rewrite Hold by done; by apply Hnear|by rewrite Hnw].
  - intros x y Hx Hxy. destruct (w_closed0 x y Hx Hxy) as (? & ? & ?). rewrite !Hold by set_solver. rewrite Heq. set_solver.
Qed.

(** The head of the queue is done. *)
Lemma walk_take d parent taken v q : walk d parent taken (v :: q) -> (forall y, edge v y -> y <> a /\ y ∈ taken ++ v :: q /\ (d y <= S (d v))%nat) -> walk d parent (taken ++ [v]) q.
Proof.
  intros [] Hv. assert (Heq : (taken ++ [v]) ++ q = taken ++ v :: q) by (by rewrite <- app_assoc). apply StronglySorted_inv in w_sorted0 as [Hs Hle]. rewrite Forall_forall in Hle.
  split; rewrite ?Heq; try done.
  - intros x y Hx Hy. specialize (w_near0 v y eq_refl Hy). destruct q as [|z q]; [done|]. injection Hx as ->. specialize (Hle x ltac:(left)). simpl in Hle. lia.
  - intros x y [Hx| ->%list_elem_of_singleton]%elem_of_app Hxy; [by apply w_closed0|by apply Hv].
Qed.

Lemma scan_spec taken v ws : forall before d parent q, walk d parent taken (v :: q) -> adj !! v = Some (before ++ ws) ->
  (forall y, y ∈ before -> y <> a /\ y ∈ taken ++ v :: q /\ (d y <= S (d v))%nat) ->
  (exists path, scan a v ws parent q = Some (inl path) /\ shortest_round path)
  \/ (exists parent' q' d', scan a v ws parent q = Some (inr (parent', q')) /\ walk d' parent' (taken ++ [v]) q').
Proof.
  induction ws as [|w ws IH]; intros before d parent q Hw Hv Hb; simpl.
  - right. exists parent, q, d. split; [done|]. apply walk_take; [done|]. intros y (ws' & Hws' & Hy). rewrite Hv, app_nil_r in Hws'. injection Hws' as <-. by apply Hb.
  - assert (He : edge v w) by (exists (before ++ w :: ws); split; [done|set_solver]). destruct (decide (w = a)) as [->|Hn].
    + left. destruct (round_found _ _ _ _ _ Hw He) as (path & Hp & Hr). rewrite Hp. simpl. by eexists.
    + assert (Hwn : (w < n)%nat) by (by eapply edge_lt). destruct (lookup_lt_is_Some_2 parent w) as [o Ho]; [by rewrite (w_length _ _ _ _ Hw)|]. rewrite Ho. simpl.
      assert (Hv' : adj !! v = Some ((before ++ [w]) ++ ws)) by (by rewrite <- app_assoc). destruct o as [p|].
      * apply (IH (before ++ [w]) d); [done|done|]. intros y [Hy| ->%list_elem_of_singleton]%elem_of_app; [by apply Hb|]. split; [done|].
        apply (w_parent _ _ _ _ Hw) in Ho as (_ & Hin & _). split; [done|]. by apply (w_near _ _ _ _ Hw).
      * apply (IH (before ++ [w]) (deeper d w (S (d v)))); [by apply walk_add|done|]. unfold deeper. intros y Hy.
        assert (v <> w) by (intros ->; destruct (w_found _ _ _ _ Hw w) as [?|[p Hp]]; [set_solver|done|congruence]). rewrite (decide_False (P := v = w)) by done.
        destruct (decide (y = w)) as [->|Hne]; [split; [done|]; split; [set_solver|done]|]. destruct (Hb y) as (? & Hin & ?); [set_solver|]. split; [done|]. split; [set_solver|done].
Qed.

Lemma taken_short d parent taken queue : walk d parent taken queue -> (length taken <= n)%nat.
Proof.
  intros Hw. rewrite <- (length_seq n 0). apply submseteq_length, NoDup_submseteq; [by pose proof (w_nodup _ _ _ _ Hw) as [? _]%NoDup_app|].
  intros y Hy. apply elem_of_seq. pose proof (w_range _ _ _ _ Hw y). set_solver by lia.
Qed.

Lemma breadth_first_spec fuel : forall d parent taken queue, walk d parent taken queue -> (n < fuel + length taken)%nat -> on_a_cycle adj a ->
  exists path, breadth_first fuel adj a parent queue = Some path /\ shortest_round path.
Proof.
  induction fuel as [|fuel IH]; intros d parent taken queue Hw Hf Hc; [pose proof (taken_short _ _ _ _ Hw); lia|].
  destruct queue as [|v q]; simpl.
  - exfalso. apply tc_nsteps in Hc as (k & Hk & Hs). destruct k as [|k]; [lia|]. apply nsteps_inv_r in Hs as (x & Hs & Hx).
    destruct (walk_reaches _ _ _ _ k x Hw Hs) as [[Hin _]|(y & Hy & _)]; [by destruct (w_closed _ _ _ _ Hw x a Hin Hx)|by apply elem_of_nil in Hy].
  - destruct (lookup_lt_is_Some_2 adj v) as [ws Hws]; [apply (w_range _ _ _ _ Hw); set_solver|]. rewrite Hws. simpl.
    destruct (scan_spec taken v ws [] d parent q Hw Hws) as [(path & -> & Hr)|(parent' & q' & d' & -> & Hw')]; [by intros y ?%elem_of_nil|simpl; by eexists|].
    simpl. eapply IH; [done|rewrite length_app; simpl; lia|done].
Qed.

Lemma walk_init : (a < n)%nat -> walk (fun _ => 0%nat) (replicate n None) [] [a].
Proof.
  intros Ha. assert (Hno : forall x p, replicate n (@None nat) !! x <> Some (Some p)) by (intros x p Hx; by apply lookup_replicate in Hx as [? _]).
  split; simpl; try done.
  - by rewrite length_replicate.
  - apply NoDup_singleton.
  - by intros x ->%list_elem_of_singleton.
  - intros x p Hx. by apply Hno in Hx.
  - intros x ->%list_elem_of_singleton. by left.
  - left.
  - intros; lia.
  - repeat constructor.
  - intros; lia.
  - by intros x y ?%elem_of_nil.
Qed.

Lemma shortest_cycle_spec : on_a_cycle adj a -> exists path, shortest_cycle adj a = Some path /\ shortest_round path.
Proof. intros Hc. eapply breadth_first_spec; [apply walk_init; by eapply way_lt|simpl; lia|done]. Qed.
End Breadth.

(** *** The cycles reported *)

(** Nodes each with an edge to the next. *)
Fixpoint chain (l : list nat) : Prop :=
  match l with x :: ((y :: _) as l') => edge x y /\ chain l' | _ => True end.

(** A way round, its first node not repeated. *)
Definition round (path : list nat) : Prop := exists first, head path = Some first /\ chain (path ++ [first]).

Lemma chain_app l x k : chain (l ++ x :: k) <-> chain (l ++ [x]) /\ chain (x :: k).
Proof. induction l as [|y [|z l] IH]; simpl in *; [naive_solver|naive_solver|]. rewrite IH. naive_solver. Qed.

Lemma chain_snoc l x y : chain (l ++ [x; y]) <-> chain (l ++ [x]) /\ edge x y.
Proof. rewrite chain_app. simpl. naive_solver. Qed.

Lemma way_chain a x l : way a x l -> head l = Some a /\ chain l /\ exists l', l = l' ++ [x].
Proof.
  induction 1 as [|x l y Hw (Hh & Hc & l' & ->) He]; [split; [done|]; split; [done|]; by exists []|]. split; [by destruct l'|].
  split; [|by eexists]. rewrite <- app_assoc. by apply chain_snoc.
Qed.

Lemma way_round a x l : way a x l -> edge x a -> round l.
Proof. intros (Hh & Hc & l' & ->)%way_chain He. exists a. split; [done|]. rewrite <- app_assoc. by apply chain_snoc. Qed.

(** A round from another of its nodes on. *)
Lemma round_app l k : round (l ++ k) -> round (k ++ l).
Proof.
  destruct l as [|x l], k as [|y k]; simpl; rewrite ?app_nil_r; try done. intros (f & [= <-] & Hc). exists y. split; [done|].
  change ((x :: l ++ y :: k) ++ [x]) with (x :: (l ++ y :: k) ++ [x]) in Hc. rewrite <- app_assoc in Hc. change (x :: l ++ (y :: k) ++ [x]) with ((x :: l) ++ y :: (k ++ [x])) in Hc.
  apply chain_app in Hc as [H1 H2]. change ((y :: k ++ x :: l) ++ [y]) with (((y :: k) ++ x :: l) ++ [y]). rewrite <- app_assoc.
  change ((y :: k) ++ (x :: l) ++ [y]) with ((y :: k) ++ x :: (l ++ [y])). by apply chain_app.
Qed.

Lemma rotated_round path : round path -> exists path', rotated path = Some path' /\ round path' /\ (forall x, x ∈ path' <-> x ∈ path).
Proof.
  intros Hr. unfold rotated. destruct path as [|x path]; [by destruct Hr as (? & ? & _)|].
  pose proof (min_by_spec (fun p => Z.of_nat (default 0%nat ((x :: path) !! p))) (seq 0 (length (x :: path)))) as Hm.
  destruct (min_by _ _) as [p|]; [|done]. cbn [mbind option_bind]. eexists. split; [done|].
  split; [apply round_app; by rewrite take_drop|]. intros y. pose proof (elem_of_app (take p (x :: path)) (drop p (x :: path)) y) as Ht. rewrite take_drop in Ht. rewrite Ht, elem_of_app. naive_solver.
Qed.

Lemma round_lt path x : round path -> x ∈ path -> (x < n)%nat.
Proof.
  intros (f & Hf & Hc) Hx. apply list_elem_of_split in Hx as (l & k & ->).
  assert (Hpre : forall y l k, chain ((y :: l) ++ x :: k) -> (x < n)%nat).
  { clear - Hadj. intros y l k Hc. apply chain_app in Hc as [Hc _]. revert y Hc. induction l as [|z l IH]; intros y Hc; [by destruct Hc as [He _]; eapply edge_lt|]. eapply (IH z), Hc. }
  destruct l as [|y l]; [|eapply (Hpre y l (k ++ [f])); by rewrite <- app_assoc in Hc]. injection Hf as <-.
  destruct k as [|y k]; [destruct Hc as [He _]; by eapply edge_lt|]. eapply (Hpre x (y :: k) []). exact Hc.
Qed.

Lemma cycles_of_spec nodes seen : (forall x, x ∈ nodes -> on_a_cycle adj x) -> (forall p, p ∈ seen -> round p) ->
  exists cycles, cycles_of adj nodes seen = Some cycles /\ (forall p, p ∈ cycles -> round p) /\ (forall p, p ∈ seen -> p ∈ cycles)
    /\ forall x, x ∈ nodes -> exists p, p ∈ cycles /\ x ∈ p.
Proof.
  revert seen. induction nodes as [|x nodes IH]; intros seen Hc Hs; simpl.
  - exists seen. split; [done|]. split; [done|]. split; [done|]. by intros x ?%elem_of_nil.
  - destruct (shortest_cycle_spec x) as (path & -> & (v & Hw & He) & _); [apply Hc; left|]. simpl.
    destruct (rotated_round path (way_round _ _ _ Hw He)) as (path' & -> & Hr & Hin). simpl. set (seen' := if decide (path' ∈ seen) then seen else seen ++ [path']).
    assert (Hs' : forall p, p ∈ seen' <-> p ∈ seen \/ p = path') by (intros p; unfold seen'; destruct (decide (path' ∈ seen)); set_solver).
    destruct (IH seen') as (cycles & -> & H1 & H2 & H3); [intros; apply Hc; by right|intros p [Hp| ->]%Hs'; [by apply Hs|done]|].
    exists cycles. split; [done|]. split; [done|]. split; [intros p Hp; apply H2, Hs'; by left|]. intros y [->|Hy]%elem_of_cons; [|by apply H3].
    exists path'. split; [apply H2, Hs'; by right|]. apply Hin. apply way_chain in Hw as (Hh & _). destruct path as [|z path]; [done|]. injection Hh as ->. left.
Qed.
End Cycles.

(** *** By name *)

Abbreviation node_of names := (list_to_map (reverse (imap (fun i n => (n, i)) names)) : gmap rstr nat).

Lemma node_of_names (names : list rstr) g i : node_of names !! g = Some i -> names !! i = Some g.
Proof. intros Hi%elem_of_list_to_map_2. apply elem_of_reverse, elem_of_lookup_imap in Hi as (j & g' & [= -> ->] & Hg). done. Qed.

Lemma node_of_some (names : list rstr) g i : NoDup names -> names !! i = Some g -> node_of names !! g = Some i.
Proof.
  intros Hn Hg. apply elem_of_list_to_map_1.
  - rewrite reverse_Permutation, fmap_imap. replace (imap _ names) with names; [done|]. apply list_eq. intros j. rewrite list_lookup_imap. by destruct (names !! j).
  - apply elem_of_reverse, elem_of_lookup_imap. by exists i, g.
Qed.

(** An edge leads from a group to each group it names. *)
Lemma group_graph_edge names edges x y : NoDup names -> edge (group_graph names edges) x y <-> exists es g, edges !! x = Some es /\ g ∈ es /\ names !! y = Some g.
Proof.
  intros Hn. unfold edge, group_graph. split.
  - intros (ws & Hws & Hy). rewrite list_lookup_fmap in Hws. destruct (edges !! x) as [es|] eqn:Hes; [|done]. injection Hws as <-.
    apply list_elem_of_omap in Hy as (g & Hg & Hi). exists es, g. split; [done|]. split; [done|]. by apply node_of_names.
  - intros (es & g & Hes & Hg & Hy). rewrite list_lookup_fmap, Hes. eexists. split; [done|]. apply list_elem_of_omap. exists g. split; [done|]. by apply node_of_some.
Qed.

Lemma group_graph_range names edges v ws w : length names = length edges -> group_graph names edges !! v = Some ws -> w ∈ ws -> (w < length (group_graph names edges))%nat.
Proof.
  unfold group_graph. intros Hl Hv Hw. rewrite list_lookup_fmap in Hv. destruct (edges !! v) as [es|]; [|done]. injection Hv as <-.
  apply list_elem_of_omap in Hw as (g & _ & Hi%node_of_names%lookup_lt_Some). rewrite length_fmap. lia.
Qed.

Lemma names_of_round (names : list rstr) p : (forall x, x ∈ p -> (x < length names)%nat) -> exists ns, mapM (fun n => names !! n) p = Some ns.
Proof.
  intros Hp. apply mapM_is_Some. apply Forall_forall. intros x Hx. by apply lookup_lt_is_Some, Hp.
Qed.

(** C26: [group_cycles] returns, and what it reports is the cycles: each is a way
    round the groups, written with its first group at the end again, and every
    group on a cycle is on one of those reported. *)
Theorem cycles_are_reported names edges : length names = length edges ->
  exists cycles, group_cycles names edges = Some cycles
  /\ (forall c, c ∈ cycles -> exists p first, head p = Some first /\ chain (group_graph names edges) (p ++ [first]) /\ mapM (fun n => names !! n) (p ++ [first]) = Some c)
  /\ (forall x g, on_a_cycle (group_graph names edges) x -> names !! x = Some g -> exists c, c ∈ cycles /\ g ∈ c).
Proof.
  intros Hl. set (adj := group_graph names edges). assert (Hadj : forall v ws w, adj !! v = Some ws -> w ∈ ws -> (w < length adj)%nat) by (intros v ws w; by apply group_graph_range).
  destruct (on_cycles_spec adj Hadj) as (marks & Hm & Hlen & Hmarks). unfold group_cycles. fold adj. rewrite Hm. cbn [mbind option_bind].
  set (nodes := omap _ _). assert (Hnodes : forall x, x ∈ nodes <-> on_a_cycle adj x).
  { intros x. rewrite <- Hmarks. unfold nodes. rewrite list_elem_of_omap. split.
    - intros ([y b] & (i & b' & [= -> ->] & Hb)%elem_of_lookup_imap & Hs). destruct b'; [|done]. by injection Hs as ->.
    - intros Hx. exists (x, true). split; [|done]. apply elem_of_lookup_imap. by exists x, true. }
  destruct (cycles_of_spec adj Hadj nodes []) as (paths & -> & Hr & _ & Hon); [intros x; apply Hnodes|by intros p ?%elem_of_nil|]. cbn [mbind option_bind].
  assert (Hlt : forall p x, p ∈ paths -> x ∈ p -> (x < length names)%nat).
  { intros p x Hp Hx. pose proof (round_lt adj Hadj p x (Hr p Hp) Hx) as H. unfold adj, group_graph in H. rewrite length_fmap in H. lia. }
  assert (Hwritten : forall p, p ∈ paths -> exists first c, head p = Some first /\ mapM (fun n => names !! n) (p ++ [first]) = Some c /\ (ns ← mapM (fun n => names !! n) p; first ← head ns; Some (ns ++ [first])) = Some c).
  { intros p Hp. destruct (Hr p Hp) as (first & Hf & _). destruct (names_of_round names p) as [ns Hns]; [intros x; by apply Hlt|]. destruct p as [|y p]; [done|]. injection Hf as ->.
    pose proof Hns as Hns'. simpl in Hns'. destruct (names !! first) as [g|] eqn:Hg; [|done]. destruct (mapM (fun n => names !! n) p) as [gs|] eqn:Hgs; [|done]. injection Hns' as <-.
    exists first, (g :: gs ++ [g]). split; [done|]. split; [|by rewrite Hns]. apply mapM_Some_2, Forall2_cons; split; [done|]. apply Forall2_app; [by apply mapM_Some|by repeat constructor]. }
  set (write := fun path : list nat => ns ← mapM (fun n => names !! n) path; first ← head ns; Some (ns ++ [first])) in *.
  destruct (proj2 (mapM_is_Some write paths)) as [cycles Hc]; [apply Forall_forall; intros p Hp; destruct (Hwritten p Hp) as (? & c & _ & _ & Hc); by exists c|].
  exists cycles. split; [exact Hc|]. apply mapM_Some in Hc. split.
  - intros c [i Hi]%list_elem_of_lookup. destruct (Forall2_lookup_r _ _ _ _ _ Hc Hi) as (p & Hp%list_elem_of_lookup_2 & Hpc).
    destruct (Hwritten p Hp) as (first & c' & Hf & Hm' & Hw). exists p, first. destruct (Hr p Hp) as (f & Hf' & Hch). replace f with first in Hch by congruence.
    split; [done|]. split; [done|]. by rewrite Hm', <- Hw, <- Hpc.
  - intros x g Hx Hg. destruct (Hon x) as (p & Hp & Hxp); [by apply Hnodes|]. pose proof Hp as [i Hi]%list_elem_of_lookup.
    destruct (Forall2_lookup_l _ _ _ _ _ Hc Hi) as (c & Hci%list_elem_of_lookup_2 & Hpc). exists c. split; [done|].
    destruct (Hwritten p Hp) as (first & c' & _ & Hm' & Hw). assert (c' = c) as -> by (unfold write in Hpc; congruence).
    apply mapM_Some in Hm'. apply list_elem_of_lookup in Hxp as [j Hj]. destruct (Forall2_lookup_l _ _ _ j x Hm') as (g' & Hg' & Hx'); [by apply lookup_app_l_Some|].
    simpl in Hx'. replace g with g' by congruence. by apply list_elem_of_lookup_2 in Hg'.
Qed.

Lemma cycles_are_reported_witness : exists cycles, group_cycles [[80]; [81]; [65]] [[[81]; [66]]; [[80]]; [[80]]] = Some cycles
  /\ (forall c, c ∈ cycles -> exists p first, head p = Some first /\ chain (group_graph [[80]; [81]; [65]] [[[81]; [66]]; [[80]]; [[80]]]) (p ++ [first])
      /\ mapM (fun n => [[80]; [81]; [65]] !! n) (p ++ [first]) = Some c)
  /\ (forall x g, on_a_cycle (group_graph [[80]; [81]; [65]] [[[81]; [66]]; [[80]]; [[80]]]) x -> [[80]; [81]; [65]] !! x = Some g -> exists c, c ∈ cycles /\ g ∈ c).
Proof. apply (cycles_are_reported [[80]; [81]; [65]] [[[81]; [66]]; [[80]]; [[80]]]). reflexivity. Defined.

Example cycles_example : on_cycles [[1; 2]; [2]; [1; 3]; [3]; [0]]%nat = Some [false; true; true; true; false]
  /\ group_cycles [[80]; [81]; [65]] [[[81]; [66]]; [[80]]; [[80]]] = Some [[[80]; [81]; [80]]].
Proof. split; vm_compute; reflexivity. Qed.
