(* ===== verification/RouteSet.v ===== *)
(** * The routes into the adapter

    [crates/rurge-platform/src/route/set.rs]: the set of routes that base
    prefixes, holes and included prefixes add up to.  The networks are the ipnet
    crate's: what the code uses of them is the class [Routes], what they
    document [RouteLaws]; [prefixes] is an implementation to evaluate with.  An
    address is its bits.  The functions written out for each family are one
    here.  [None] is fuel that is not enough, which [compute] never meets. *)

From S2P Require Import Prelude FakeIpAddr.

(** ** The crate's networks *)

(** Networks of one family, of [width] bits: [covers] is [contains] of an address, [within] of a
    network; [subnets] is an iterator that ends, or an error; [net_le] their
    order. *)
Class Routes (width : Z) := {
  Net : Type;
  Net_eq_dec :: EqDecision Net;
  new_assert : Z -> Z -> Net;
  covers : Net -> Z -> bool;
  within : Net -> Net -> bool;
  prefix_len : Net -> Z;
  trunc : Net -> Net;
  subnets : Net -> Z -> option (list Net);
  aggregate : list Net -> list Net;
  net_le : Net -> Net -> Prop;
  net_le_dec :: RelDecision net_le;
}.

(** What is documented of them.  [aggregate] covers what it
    is given, and no address more but perhaps the last of all. *)
Class RouteLaws {width} (N : Routes width) := {
  prefix_len_range n : 0 <= prefix_len n <= width;
  covers_new addr len ip : 0 <= len <= width -> covers (new_assert addr len) ip = (Z.shiftr ip (width - len) =? Z.shiftr addr (width - len));
  within_spec a b : within a b = true <-> prefix_len a <= prefix_len b /\ exists ip, covers a ip = true /\ covers b ip = true;
  within_covers a b ip : within a b = true -> covers b ip = true -> covers a ip = true;
  trunc_covers n ip : covers (trunc n) ip = covers n ip;
  halves n : prefix_len n < width -> exists a b, subnets n (prefix_len n + 1) = Some [a; b] /\ prefix_len a = prefix_len n + 1 /\ prefix_len b = prefix_len n + 1
    /\ forall ip, covers n ip = covers a ip || covers b ip;
  aggregate_more ns ip : existsb (fun n => covers n ip) ns = true -> existsb (fun n => covers n ip) (aggregate ns) = true;
  aggregate_only ns ip : ip <> 2 ^ width - 1 -> existsb (fun n => covers n ip) (aggregate ns) = true -> existsb (fun n => covers n ip) ns = true;
}.

Section Family.
Context {width : Z} {N : Routes width}.

(** [complement_v4] and [complement_v6]. *)
Fixpoint complement (fuel : nat) (net : Net) (holes out : list Net) : option (list Net) :=
  if existsb (fun hole => within hole net) holes then Some out
  else if negb (existsb (fun hole => within net hole) holes) then Some (out ++ [net])
  else match fuel with
    | 0%nat => None
    | S fuel =>
        match subnets net (prefix_len net + 1) with
        | Some nets => foldl (fun out half => out ← out; complement fuel half holes out) (Some out) nets
        | None => Some out
        end
    end.

(** A network has as many halvings as bits its prefix leaves. *)
Definition halvings (net : Net) : nat := Z.to_nat (width - prefix_len net).

(** The loops over networks that take the complement of each. *)
Definition complements (nets holes : list Net) : option (list Net) :=
  foldl (fun out net => out ← out; complement (halvings net) net holes out) (Some []) nets.

(** [sorted]. *)
Definition sorted (nets : list Net) : list Net := merge_sort net_le nets.

(** The new networks that the old do not have. *)
Definition beyond (old new : list Net) : list Net := sorted (List.filter (fun net => negb (bool_decide (net ∈ old))) new).
End Family.

(** ** The route set *)

Section Routes.
Context {N4 : Routes 32} {N6 : Routes 128}.

Abbreviation Net4 := (@Net 32 N4).
Abbreviation Net6 := (@Net 128 N6).

(** [ipnet::IpNet]. *)
Inductive IpNet :=
| Net4_ (net : Net4)
| Net6_ (net : Net6).

Record RouteInputs := mkInputs {
  ipv6 : bool;
  excluded : list IpNet;
  included : list IpNet;
  external : list IpAddr;
  explicit_space : bool;
  class_e : bool;
}.

Record RouteSet := mkRoutes { v4 : list Net4; v6 : list Net6 }.

Definition ipv4 (a b c d : Z) : Z := a * 2 ^ 24 + b * 2 ^ 16 + c * 2 ^ 8 + d.
(** An IPv6 address by its first two groups, the others zero. *)
Definition ipv6_of (a b : Z) : Z := a * 2 ^ 112 + b * 2 ^ 96.

Definition SPACE_V4 : Net4 := new_assert (ipv4 198 18 0 0) 15.
Definition SPACE_V6 : Net6 := new_assert (ipv6_of 0xfd00 0x6152) 64.

Definition BASE_V4 : list Net4 :=
  [new_assert (ipv4 1 0 0 0) 8; new_assert (ipv4 2 0 0 0) 7; new_assert (ipv4 4 0 0 0) 6; new_assert (ipv4 8 0 0 0) 5;
   new_assert (ipv4 16 0 0 0) 4; new_assert (ipv4 32 0 0 0) 3; new_assert (ipv4 64 0 0 0) 2; new_assert (ipv4 128 0 0 0) 1].

Definition BASE_V6 : list Net6 :=
  [new_assert (ipv6_of 0x0100 0) 8; new_assert (ipv6_of 0x0200 0) 7; new_assert (ipv6_of 0x0400 0) 6; new_assert (ipv6_of 0x0800 0) 5;
   new_assert (ipv6_of 0x1000 0) 4; new_assert (ipv6_of 0x2000 0) 3; new_assert (ipv6_of 0x4000 0) 2; new_assert (ipv6_of 0x8000 0) 1;
   new_assert (ipv6_of 0x0064 0xff9b) 96].

Definition BROADCAST_V4 : Z := ipv4 255 255 255 255.
Definition CLASS_E : Net4 := new_assert (ipv4 240 0 0 0) 4.

Definition ALWAYS_V4 : list Net4 :=
  [new_assert (ipv4 127 0 0 0) 8; new_assert (ipv4 169 254 0 0) 16; new_assert (ipv4 224 0 0 0) 4; new_assert BROADCAST_V4 32].
Definition ALWAYS_V6 : list Net6 := [new_assert (ipv6_of 0xfe80 0) 10; new_assert (ipv6_of 0xff00 0) 8].

Definition base (ipv6 : bool) : list Net4 * list Net6 := (BASE_V4, if ipv6 then BASE_V6 else []).

Definition strip_space_v4 (holes : list Net4) : option (list Net4) := complements holes [SPACE_V4].
Definition strip_space_v6 (holes : list Net6) : option (list Net6) := complements holes [SPACE_V6].

(** The networks of a family among some, truncated. *)
Definition nets_v4 (nets : list IpNet) : list Net4 := omap (fun n => match n with Net4_ net => Some (trunc net) | Net6_ _ => None end) nets.
Definition nets_v6 (nets : list IpNet) : list Net6 := omap (fun n => match n with Net6_ net => Some (trunc net) | Net4_ _ => None end) nets.

(** The addresses of a family, as networks of their own. *)
Definition hosts_v4 (ips : list IpAddr) : list Net4 := omap (fun ip => match ip with V4 ip => Some (new_assert ip 32) | V6 _ => None end) ips.
Definition hosts_v6 (ips : list IpAddr) : list Net6 := omap (fun ip => match ip with V6 ip => Some (new_assert ip 128) | V4 _ => None end) ips.

Definition holes_v4 (inputs : RouteInputs) : option (list Net4) :=
  strip_space_v4 (ALWAYS_V4 ++ nets_v4 (excluded inputs) ++ hosts_v4 (external inputs)).
Definition holes_v6 (inputs : RouteInputs) : option (list Net6) :=
  strip_space_v6 (ALWAYS_V6 ++ nets_v6 (excluded inputs) ++ hosts_v6 (external inputs)).

(** From the networks of the family to its routes: what the space and the edge
    of [aggregate] and Windows make of them. *)
Definition finish_v4 (inputs : RouteInputs) (v4 : list Net4) : option (list Net4) :=
  let v4 := List.filter (fun net => negb (within SPACE_V4 net)) v4 in
  let v4 := if explicit_space inputs then v4 ++ [SPACE_V4] else v4 in
  let covered := existsb (fun net => covers net BROADCAST_V4) v4 in
  let v4 := aggregate v4 in
  v4 ← if covered then Some v4 else complements v4 [new_assert BROADCAST_V4 32];
  if negb (class_e inputs) then complements v4 [CLASS_E] else Some v4.

Definition finish_v6 (inputs : RouteInputs) (v6 : list Net6) : list Net6 :=
  let v6 := List.filter (fun net => negb (within SPACE_V6 net)) v6 in
  let v6 := if explicit_space inputs then (if ipv6 inputs then v6 ++ [SPACE_V6] else v6) else v6 in
  aggregate v6.

Definition compute (inputs : RouteInputs) : option RouteSet :=
  let '(base_v4, base_v6) := base (ipv6 inputs) in
  holes_v4 ← holes_v4 inputs;
  v4 ← complements base_v4 holes_v4;
  v6 ← if ipv6 inputs then holes_v6 ← holes_v6 inputs; complements base_v6 holes_v6 else Some [];
  let v4 := v4 ++ nets_v4 (included inputs) in
  let v6 := if ipv6 inputs then v6 ++ nets_v6 (included inputs) else v6 in
  v4 ← finish_v4 inputs v4;
  Some (mkRoutes v4 (finish_v6 inputs v6)).

Definition diff (old new : RouteSet) : RouteSet * RouteSet :=
  (mkRoutes (beyond (v4 old) (v4 new)) (beyond (v6 old) (v6 new)), mkRoutes (beyond (v4 new) (v4 old)) (beyond (v6 new) (v6 old))).

Definition contains (r : RouteSet) (ip : IpAddr) : bool :=
  match ip with
  | V4 ip => covers SPACE_V4 ip || existsb (fun net => covers net ip) (v4 r)
  | V6 ip => covers SPACE_V6 ip || existsb (fun net => covers net ip) (v6 r)
  end.

Definition len (r : RouteSet) : nat := (length (v4 r) + length (v6 r))%nat.
Definition is_empty (r : RouteSet) : bool := bool_decide (v4 r = []) && bool_decide (v6 r = []).
End Routes.

(** ** What the route set covers
    [RouteSet.v] against what a profile asks for: an address goes into the
    adapter exactly when it is in rurge's space, or the profile includes it, or
    the base prefixes have it and nothing excludes it. *)

(** Some network covers the address. *)
Abbreviation covered ns ip := (existsb (fun n => covers n ip) ns).

Section Complement.
Context {width : Z} {N : Routes width} {L : RouteLaws N}.

Lemma within_iff a b : within a b = true <-> prefix_len a <= prefix_len b /\ exists ip, covers a ip = true /\ covers b ip = true.
Proof. apply within_spec. Qed.

(** A network that meets a hole is inside it, or the hole inside the network. *)
Lemma meets hole net ip : covers hole ip = true -> covers net ip = true -> within hole net = true \/ within net hole = true.
Proof. intros Hh Hn. destruct (Z.le_ge_cases (prefix_len hole) (prefix_len net)); [left|right]; apply within_iff; eauto. Qed.

Lemma covered_true ns ip : covered ns ip = true <-> exists n, n ∈ ns /\ covers n ip = true.
Proof. rewrite existsb_exists. split; intros (n & Hn & Hc); exists n; (split; [by apply list_elem_of_In|done]). Qed.

Lemma covered_app ns ms ip : covered (ns ++ ms) ip = covered ns ip || covered ms ip.
Proof. apply existsb_app. Qed.

(** The complement covers what the network covers and no hole does; with the
    halvings the network has left it always returns. *)
Lemma complement_spec fuel holes : forall net out, (halvings net <= fuel)%nat ->
  exists out', complement fuel net holes out = Some (out ++ out') /\ forall ip, covered out' ip = covers net ip && negb (covered holes ip).
Proof.
  induction fuel as [fuel IH] using lt_wf_ind. intros net out Hf.
  assert (Hbase : forall r, (existsb (fun hole => within hole net) holes = true -> r = Some out) ->
    (existsb (fun hole => within hole net) holes = false -> existsb (fun hole => within net hole) holes = false -> r = Some (out ++ [net])) ->
    (existsb (fun hole => within hole net) holes = false -> existsb (fun hole => within net hole) holes = true ->
      exists out', r = Some (out ++ out') /\ forall ip, covered out' ip = covers net ip && negb (covered holes ip)) ->
    exists out', r = Some (out ++ out') /\ forall ip, covered out' ip = covers net ip && negb (covered holes ip)).
  { intros r H1 H2 H3. destruct (existsb (fun hole => within hole net) holes) eqn:E1.
    - exists []. rewrite app_nil_r. split; [by apply H1|]. intros ip. simpl. destruct (covers net ip) eqn:Hc; [|done]. simpl. symmetry. apply negb_false_iff, covered_true.
      apply existsb_exists in E1 as (h & Hh & Hw). exists h. split; [by apply list_elem_of_In|by eapply within_covers].
    - destruct (existsb (fun hole => within net hole) holes) eqn:E2; [by apply H3|]. exists [net]. split; [by apply H2|]. intros ip. simpl. rewrite orb_false_r.
      destruct (covers net ip) eqn:Hc; [|done]. simpl. symmetry. apply negb_true_iff, not_true_iff_false. intros (h & Hh & Hhc)%covered_true.
      destruct (meets _ _ _ Hhc Hc) as [Hw|Hw]; [rewrite <- not_true_iff_false in E1; apply E1|rewrite <- not_true_iff_false in E2; apply E2];
        apply existsb_exists; exists h; (split; [by apply list_elem_of_In|done]). }
  apply Hbase; clear Hbase.
  - intros E1. destruct fuel; simpl; by rewrite E1.
  - intros E1 E2. destruct fuel; simpl; by rewrite E1, E2.
  - intros E1 E2. assert (Hlt : prefix_len net < width).
    { apply existsb_exists in E2 as (h & Hh & Hw). pose proof (prefix_len_range h). destruct (Z.lt_ge_cases (prefix_len net) width); [done|]. exfalso.
      apply not_true_iff_false in E1. apply E1, existsb_exists. exists h. split; [done|]. apply within_iff in Hw as (Hle & ip & H1 & H2). apply within_iff. split; [lia|eauto]. }
    destruct (halves net Hlt) as (a & b & Hs & Ha & Hb & Hab). destruct fuel as [|fuel]; [unfold halvings in Hf; lia|]. cbn [complement]. rewrite E1, E2. cbn [negb]. rewrite Hs. cbn [foldl mbind option_bind].
    destruct (IH fuel ltac:(lia) a out) as (oa & -> & Hoa); [unfold halvings in *; lia|]. cbn [mbind option_bind].
    destruct (IH fuel ltac:(lia) b (out ++ oa)) as (ob & -> & Hob); [unfold halvings in *; lia|]. exists (oa ++ ob). rewrite app_assoc. split; [done|].
    intros ip. rewrite covered_app, Hoa, Hob, Hab. by destruct (covers a ip), (covers b ip), (covered holes ip).
Qed.

Lemma complements_spec nets holes : exists out, complements nets holes = Some out /\ forall ip, covered out ip = covered nets ip && negb (covered holes ip).
Proof.
  unfold complements. assert (H : forall out, exists out', foldl (fun out net => out ← out; complement (halvings net) net holes out) (Some out) nets = Some (out ++ out')
    /\ forall ip, covered out' ip = covered nets ip && negb (covered holes ip)); [|by apply (H [])].
  induction nets as [|net nets IH]; intros out; simpl; [exists []; by rewrite app_nil_r|].
  destruct (complement_spec (halvings net) holes net out) as (o1 & -> & H1); [done|]. destruct (IH (out ++ o1)) as (o2 & -> & H2).
  exists (o1 ++ o2). rewrite app_assoc. split; [done|]. intros ip. rewrite covered_app, H1, H2. by destruct (covers net ip), (covered nets ip), (covered holes ip).
Qed.
End Complement.

(** *** What a profile asks for *)

Definition between (first last ip : Z) : bool := (first <=? ip) && (ip <=? last).

(** The addresses of a prefix are a range. *)
Lemma covers_range {width} {N : Routes width} {L : RouteLaws N} a len ip : 0 <= len <= width -> a mod 2 ^ (width - len) = 0 ->
  covers (new_assert a len) ip = between a (a + 2 ^ (width - len) - 1) ip.
Proof.
  intros Hl Ha. rewrite covers_new by done. rewrite !Z.shiftr_div_pow2 by lia. set (p := 2 ^ (width - len)) in *. assert (0 < p) by (apply Z.pow_pos_nonneg; lia).
  unfold between. apply eq_true_iff_eq. rewrite andb_true_iff, Z.eqb_eq, !Z.leb_le. pose proof (Z.div_mod a p ltac:(lia)). pose proof (Z.div_mod ip p ltac:(lia)).
  pose proof (Z.mod_pos_bound ip p ltac:(lia)). split; nia.
Qed.

Lemma covers_host {width} {N : Routes width} {L : RouteLaws N} a ip : 0 <= width -> covers (new_assert a width) ip = (ip =? a).
Proof. intros Hw. rewrite covers_new by lia. by rewrite Z.sub_diag, !Z.shiftr_0_r. Qed.

Section Wanted.
Context {N4 : Routes 32} {N6 : Routes 128}.

Definition asked_v4 (nets : list (IpNet)) (ip : Z) : bool := existsb (fun n => match n with Net4_ net => covers net ip | Net6_ _ => false end) nets.
Definition asked_v6 (nets : list (IpNet)) (ip : Z) : bool := existsb (fun n => match n with Net6_ net => covers net ip | Net4_ _ => false end) nets.

Definition loopback_v4 := between (ipv4 127 0 0 0) (ipv4 127 255 255 255).
Definition link_local_v4 := between (ipv4 169 254 0 0) (ipv4 169 254 255 255).
Definition multicast_v4 := between (ipv4 224 0 0 0) (ipv4 239 255 255 255).
Definition space_v4 := between (ipv4 198 18 0 0) (ipv4 198 19 255 255).

(** Whether traffic to an IPv4 address is to go into the adapter. *)
Definition wanted_v4 (inputs : RouteInputs) (ip : Z) : bool :=
  space_v4 ip
  || (class_e inputs || (ip <? ipv4 240 0 0 0))
     && (asked_v4 (included inputs) ip
         || (ipv4 1 0 0 0 <=? ip)
            && negb (loopback_v4 ip || link_local_v4 ip || multicast_v4 ip || (ip =? ipv4 255 255 255 255)
                     || asked_v4 (excluded inputs) ip || bool_decide (V4 ip ∈ external inputs))).

Definition link_local_v6 := between (ipv6_of 0xfe80 0) (ipv6_of 0xfec0 0 - 1).
Definition multicast_v6 := between (ipv6_of 0xff00 0) (2 ^ 128 - 1).
Definition nat64 := between (ipv6_of 0x0064 0xff9b) (ipv6_of 0x0064 0xff9b + 2 ^ 32 - 1).
Definition space_v6 := between (ipv6_of 0xfd00 0x6152) (ipv6_of 0xfd00 0x6152 + 2 ^ 64 - 1).

(** The same for an IPv6 address. *)
Definition wanted_v6 (inputs : RouteInputs) (ip : Z) : bool :=
  space_v6 ip
  || ipv6 inputs
     && (asked_v6 (included inputs) ip
         || ((ipv6_of 0x0100 0 <=? ip) || nat64 ip)
            && negb (link_local_v6 ip || multicast_v6 ip || asked_v6 (excluded inputs) ip || bool_decide (V6 ip ∈ external inputs))).
End Wanted.

(** The numbers of a goal. *)
Ltac numbers := repeat match goal with
  | |- context [ipv4 ?a ?b ?c ?d] => let v := eval vm_compute in (ipv4 a b c d) in change (ipv4 a b c d) with v
  | |- context [ipv6_of ?a ?b] => let v := eval vm_compute in (ipv6_of a b) in change (ipv6_of a b) with v
  | |- context [2 ^ ?b] => let v := eval vm_compute in (2 ^ b) in change (2 ^ b) with v
  end.
Ltac range L := repeat first [rewrite (covers_range (L := L)) by (first [split; discriminate|reflexivity])].

Section Compute.
Context {N4 : Routes 32} {N6 : Routes 128} {L4 : RouteLaws N4} {L6 : RouteLaws N6}.

Lemma space_v4_covers ip : covers SPACE_V4 ip = space_v4 ip.
Proof. unfold SPACE_V4. range L4. reflexivity. Qed.

Lemma space_v6_covers ip : covers SPACE_V6 ip = space_v6 ip.
Proof. unfold SPACE_V6. range L6. reflexivity. Qed.

Lemma class_e_covers ip : 0 <= ip < 2 ^ 32 -> covers CLASS_E ip = negb (ip <? ipv4 240 0 0 0).
Proof. intros Hip. unfold CLASS_E. range L4. unfold between. apply eq_true_iff_eq. rewrite andb_true_iff, !Z.leb_le, negb_true_iff, Z.ltb_ge. revert Hip. numbers. lia. Qed.

Lemma base_v4_covers ip : 0 <= ip < 2 ^ 32 -> covered BASE_V4 ip = (ipv4 1 0 0 0 <=? ip).
Proof.
  intros Hip. unfold BASE_V4. cbn [existsb]. range L4. unfold between. apply eq_true_iff_eq. rewrite !orb_true_iff, !andb_true_iff, !Z.leb_le. revert Hip. numbers. lia.
Qed.

Lemma base_v6_covers ip : 0 <= ip < 2 ^ 128 -> covered BASE_V6 ip = (ipv6_of 0x0100 0 <=? ip) || nat64 ip.
Proof.
  intros Hip. unfold BASE_V6. cbn [existsb]. range L6. unfold nat64, between. apply eq_true_iff_eq. rewrite !orb_true_iff, !andb_true_iff, !Z.leb_le. revert Hip. numbers. lia.
Qed.

Lemma always_v4_covers ip : covered ALWAYS_V4 ip = loopback_v4 ip || link_local_v4 ip || multicast_v4 ip || (ip =? ipv4 255 255 255 255).
Proof. unfold ALWAYS_V4. cbn [existsb]. rewrite (covers_host (L := L4)) by lia. range L4. by rewrite orb_false_r, !orb_assoc. Qed.

Lemma always_v6_covers ip : covered ALWAYS_V6 ip = link_local_v6 ip || multicast_v6 ip.
Proof. unfold ALWAYS_V6. cbn [existsb]. range L6. by rewrite orb_false_r. Qed.

Lemma nets_v4_covers nets ip : covered (nets_v4 nets) ip = asked_v4 nets ip.
Proof. induction nets as [|[n|n] nets IH]; [done| |exact IH]. change (nets_v4 (Net4_ n :: nets)) with (trunc n :: nets_v4 nets). cbn [existsb]. by rewrite trunc_covers, IH. Qed.

Lemma nets_v6_covers nets ip : covered (nets_v6 nets) ip = asked_v6 nets ip.
Proof. induction nets as [|[n|n] nets IH]; [done|exact IH|]. change (nets_v6 (Net6_ n :: nets)) with (trunc n :: nets_v6 nets). cbn [existsb]. by rewrite trunc_covers, IH. Qed.

Lemma hosts_v4_cover ips ip : covered (hosts_v4 ips) ip = bool_decide (V4 ip ∈ ips).
Proof.
  induction ips as [|[a|a] ips IH].
  - symmetry. apply bool_decide_eq_false_2. set_solver.
  - change (hosts_v4 (V4 a :: ips)) with (new_assert a 32 :: hosts_v4 ips). cbn [existsb]. rewrite IH, (covers_host (L := L4)) by lia.
    apply eq_true_iff_eq. rewrite orb_true_iff, Z.eqb_eq, !bool_decide_eq_true, elem_of_cons. naive_solver.
  - change (hosts_v4 (V6 a :: ips)) with (hosts_v4 ips). rewrite IH. apply bool_decide_ext. rewrite elem_of_cons. naive_solver.
Qed.

Lemma hosts_v6_cover ips ip : covered (hosts_v6 ips) ip = bool_decide (V6 ip ∈ ips).
Proof.
  induction ips as [|[a|a] ips IH].
  - symmetry. apply bool_decide_eq_false_2. set_solver.
  - change (hosts_v6 (V4 a :: ips)) with (hosts_v6 ips). rewrite IH. apply bool_decide_ext. rewrite elem_of_cons. naive_solver.
  - change (hosts_v6 (V6 a :: ips)) with (new_assert a 128 :: hosts_v6 ips). cbn [existsb]. rewrite IH, (covers_host (L := L6)) by lia.
    apply eq_true_iff_eq. rewrite orb_true_iff, Z.eqb_eq, !bool_decide_eq_true, elem_of_cons. naive_solver.
Qed.

Lemma holes_v4_cover inputs : exists holes, holes_v4 inputs = Some holes /\ forall ip, space_v4 ip = false -> covered holes ip =
  loopback_v4 ip || link_local_v4 ip || multicast_v4 ip || (ip =? ipv4 255 255 255 255) || asked_v4 (excluded inputs) ip || bool_decide (V4 ip ∈ external inputs).
Proof.
  unfold holes_v4, strip_space_v4. destruct (complements_spec (ALWAYS_V4 ++ nets_v4 (excluded inputs) ++ hosts_v4 (external inputs)) [SPACE_V4]) as (holes & -> & Hc).
  exists holes. split; [done|]. intros ip Hs. rewrite Hc, !covered_app, always_v4_covers, nets_v4_covers, hosts_v4_cover. cbn [existsb]. rewrite space_v4_covers, Hs. by rewrite andb_true_r, !orb_assoc.
Qed.

Lemma holes_v6_cover inputs : exists holes, holes_v6 inputs = Some holes /\ forall ip, space_v6 ip = false -> covered holes ip =
  link_local_v6 ip || multicast_v6 ip || asked_v6 (excluded inputs) ip || bool_decide (V6 ip ∈ external inputs).
Proof.
  unfold holes_v6, strip_space_v6. destruct (complements_spec (ALWAYS_V6 ++ nets_v6 (excluded inputs) ++ hosts_v6 (external inputs)) [SPACE_V6]) as (holes & -> & Hc).
  exists holes. split; [done|]. intros ip Hs. rewrite Hc, !covered_app, always_v6_covers, nets_v6_covers, hosts_v6_cover. cbn [existsb]. rewrite space_v6_covers, Hs. by rewrite andb_true_r, !orb_assoc.
Qed.

(** Dropping the networks inside a prefix changes nothing outside it. *)
Lemma dropped {width} {N : Routes width} {L : RouteLaws N} space nets ip : covers space ip = false -> covered (List.filter (fun net => negb (within space net)) nets) ip = covered nets ip.
Proof.
  intros Hs. induction nets as [|net nets IH]; [done|]. cbn [List.filter]. destruct (within space net) eqn:Hw; cbn [negb existsb]; rewrite IH; [|done].
  destruct (covers net ip) eqn:Hc; [|done]. by rewrite (within_covers _ _ _ Hw Hc) in Hs.
Qed.

Lemma finish_v4_covers inputs nets : exists nets', finish_v4 inputs nets = Some nets' /\ forall ip, 0 <= ip < 2 ^ 32 -> space_v4 ip = false ->
  covered nets' ip = (class_e inputs || (ip <? ipv4 240 0 0 0)) && covered nets ip.
Proof.
  unfold finish_v4. set (ns := if explicit_space inputs then _ else _).
  assert (Hns : forall ip, space_v4 ip = false -> covered ns ip = covered nets ip).
  { intros ip Hs. subst ns. rewrite <- space_v4_covers in Hs. destruct (explicit_space inputs); rewrite ?covered_app, dropped by done; [|done]. cbn [existsb]. by rewrite Hs, !orb_false_r. }
  assert (Hagg : exists ag, (if covered ns BROADCAST_V4 then Some (aggregate ns) else complements (aggregate ns) [new_assert BROADCAST_V4 32]) = Some ag
    /\ forall ip, covered ag ip = covered ns ip).
  { assert (Hother : forall ip, ip <> BROADCAST_V4 -> covered (aggregate ns) ip = covered ns ip).
    { intros ip Hip. apply eq_true_iff_eq. split; [by apply aggregate_only|apply aggregate_more]. }
    destruct (covered ns BROADCAST_V4) eqn:Hb.
    - eexists. split; [done|]. intros ip. destruct (decide (ip = BROADCAST_V4)) as [->|Hn]; [|by apply Hother]. rewrite Hb. by apply aggregate_more.
    - destruct (complements_spec (aggregate ns) [new_assert BROADCAST_V4 32]) as (ag & -> & Hag). exists ag. split; [done|]. intros ip. rewrite Hag. cbn [existsb].
      rewrite (covers_host (L := L4)) by lia. destruct (Z.eqb_spec ip BROADCAST_V4) as [->|Hn]; [by rewrite andb_false_r|]. by rewrite andb_true_r, Hother. }
  destruct Hagg as (ag & Hag & Hcag). cbv zeta. rewrite Hag. cbn [mbind option_bind]. destruct (class_e inputs); cbn [negb].
  - exists ag. split; [done|]. intros ip _ Hs. by rewrite Hcag, Hns.
  - destruct (complements_spec ag [CLASS_E]) as (out & -> & Hout). exists out. split; [done|]. intros ip Hip Hs. rewrite Hout, Hcag, Hns by done. cbn [existsb].
    rewrite class_e_covers by done. by rewrite orb_false_r, negb_involutive, andb_comm.
Qed.

Lemma finish_v6_covers inputs nets ip : ip <> 2 ^ 128 - 1 -> space_v6 ip = false -> covered (finish_v6 inputs nets) ip = covered nets ip.
Proof.
  intros Hip Hs. unfold finish_v6. transitivity (covered (if explicit_space inputs then if ipv6 inputs then List.filter (fun net => negb (within SPACE_V6 net)) nets ++ [SPACE_V6]
    else List.filter (fun net => negb (within SPACE_V6 net)) nets else List.filter (fun net => negb (within SPACE_V6 net)) nets) ip).
  - apply eq_true_iff_eq. split; [by apply aggregate_only|apply aggregate_more].
  - rewrite <- space_v6_covers in Hs. destruct (explicit_space inputs), (ipv6 inputs); rewrite ?covered_app, dropped by done; try done. cbn [existsb]. by rewrite Hs, !orb_false_r.
Qed.

Lemma compute_spec inputs : exists r, compute inputs = Some r
  /\ (forall ip, 0 <= ip < 2 ^ 32 -> contains r (V4 ip) = wanted_v4 inputs ip)
  /\ (forall ip, 0 <= ip < 2 ^ 128 - 1 -> contains r (V6 ip) = wanted_v6 inputs ip).
Proof.
  unfold compute, base. cbv zeta. destruct (holes_v4_cover inputs) as (h4 & -> & Hh4). cbn [mbind option_bind].
  destruct (complements_spec BASE_V4 h4) as (c4 & -> & Hc4). cbn [mbind option_bind].
  assert (H6 : exists c6, (if ipv6 inputs then h ← holes_v6 inputs; complements (if ipv6 inputs then BASE_V6 else []) h else Some []) = Some c6
    /\ forall ip, 0 <= ip < 2 ^ 128 -> space_v6 ip = false -> covered c6 ip = ipv6 inputs && (((ipv6_of 0x0100 0 <=? ip) || nat64 ip)
            && negb (link_local_v6 ip || multicast_v6 ip || asked_v6 (excluded inputs) ip || bool_decide (V6 ip ∈ external inputs)))).
  { destruct (ipv6 inputs); [|by exists []]. destruct (holes_v6_cover inputs) as (h6 & -> & Hh6). cbn [mbind option_bind]. destruct (complements_spec BASE_V6 h6) as (c6 & -> & Hc6).
    exists c6. split; [done|]. intros ip Hip Hs. by rewrite Hc6, base_v6_covers, Hh6 by done. }
  destruct H6 as (c6 & -> & Hc6). cbn [mbind option_bind]. destruct (finish_v4_covers inputs (c4 ++ nets_v4 (included inputs))) as (f4 & -> & Hf4). cbn [mbind option_bind].
  eexists. split; [done|]. split; intros ip Hip; cbn [contains v4 v6].
  - rewrite space_v4_covers. unfold wanted_v4. destruct (space_v4 ip) eqn:Hs; [done|]. cbn [orb]. rewrite Hf4 by done. f_equal.
    rewrite covered_app, nets_v4_covers, Hc4, base_v4_covers, Hh4 by done. apply orb_comm.
  - rewrite space_v6_covers. unfold wanted_v6. destruct (space_v6 ip) eqn:Hs; [done|]. cbn [orb]. rewrite finish_v6_covers by (done || lia).
    specialize (Hc6 ip ltac:(lia) Hs). destruct (ipv6 inputs); [|done]. rewrite covered_app, nets_v6_covers, Hc6. cbn [andb]. apply orb_comm.
Qed.
(** What is included is wanted, whatever else holds of it. *)
Lemma asked_elem_v4 nets net ip : Net4_ net ∈ nets -> covers net ip = true -> asked_v4 nets ip = true.
Proof. intros Hin Hc. apply existsb_exists. exists (Net4_ net). by rewrite <- list_elem_of_In. Qed.

Lemma asked_elem_v6 nets net ip : Net6_ net ∈ nets -> covers net ip = true -> asked_v6 nets ip = true.
Proof. intros Hin Hc. apply existsb_exists. exists (Net6_ net). by rewrite <- list_elem_of_In. Qed.

Lemma included_wanted_v4 inputs net ip : Net4_ net ∈ included inputs -> covers net ip = true -> class_e inputs = true \/ ip < ipv4 240 0 0 0 -> wanted_v4 inputs ip = true.
Proof. intros Hin Hc He. unfold wanted_v4. rewrite (asked_elem_v4 _ _ _ Hin Hc). cbn [orb]. apply orb_true_iff. right. rewrite andb_true_r. apply orb_true_iff. destruct He; [by left|right; lia]. Qed.

Lemma included_wanted_v6 inputs net ip : Net6_ net ∈ included inputs -> covers net ip = true -> ipv6 inputs = true -> wanted_v6 inputs ip = true.
Proof. intros Hin Hc Hon. unfold wanted_v6. by rewrite (asked_elem_v6 _ _ _ Hin Hc), Hon, orb_true_r. Qed.
End Compute.

(** Going from one set to another by their difference. *)
Lemma beyond_elem {width} {N : Routes width} old new net : net ∈ beyond old new <-> net ∈ new /\ net ∉ old.
Proof.
  unfold beyond, sorted. rewrite merge_sort_Permutation. rewrite list_elem_of_In, filter_In, <- list_elem_of_In, negb_true_iff, bool_decide_eq_false. done.
Qed.

Lemma diff_leads {N4 : Routes 32} {N6 : Routes 128} old new net : net ∈ v4 new <-> net ∈ v4 old /\ net ∉ v4 (diff old new).2 \/ net ∈ v4 (diff old new).1.
Proof. simpl. rewrite !beyond_elem. destruct (decide (net ∈ v4 old)), (decide (net ∈ v4 new)); naive_solver. Qed.

(** *** An implementation of the crate's networks *)

Section Prefixes.
Context (width : Z).

Definition bits (n : Z * Z) : Z := Z.max 0 (Z.min (Z.max 0 width) n.2).
Definition shift (n : Z * Z) : Z := Z.max 0 width - bits n.

#[export] Instance prefixes : Routes (Z.max 0 width) := {
  Net := Z * Z;
  new_assert addr len := (addr, len);
  covers n ip := Z.shiftr ip (shift n) =? Z.shiftr n.1 (shift n);
  within a b := (bits a <=? bits b) && (Z.shiftr b.1 (shift a) =? Z.shiftr a.1 (shift a));
  prefix_len := bits;
  trunc n := (Z.shiftl (Z.shiftr n.1 (shift n)) (shift n), n.2);
  subnets n len := if decide (len = bits n + 1 /\ len <= Z.max 0 width)
    then Some [(Z.shiftl (Z.shiftr n.1 (shift n)) (shift n), len); (Z.shiftl (Z.shiftr n.1 (shift n)) (shift n) + 2 ^ (shift n - 1), len)] else None;
  aggregate ns := ns;
  net_le a b := a.1 <= b.1;
  net_le_dec a b := Z_le_dec a.1 b.1;
}.

Lemma shift_coarser a b ip jp : bits a <= bits b -> Z.shiftr ip (shift b) = Z.shiftr jp (shift b) -> Z.shiftr ip (shift a) = Z.shiftr jp (shift a).
Proof.
  intros Hle H. unfold shift in *. replace (Z.max 0 width - bits a) with ((Z.max 0 width - bits b) + (bits b - bits a)) by lia.
  rewrite <- !Z.shiftr_shiftr by lia. by rewrite H.
Qed.

Lemma half_split a k ip : 0 < k -> let base := Z.shiftl (Z.shiftr a k) k in
  (Z.shiftr ip k =? Z.shiftr a k) = (Z.shiftr ip (k - 1) =? Z.shiftr base (k - 1)) || (Z.shiftr ip (k - 1) =? Z.shiftr (base + 2 ^ (k - 1)) (k - 1)).
Proof.
  intros Hk base. assert (0 < 2 ^ (k - 1)) by (apply Z.pow_pos_nonneg; lia). assert (Hp : 2 ^ k = 2 * 2 ^ (k - 1)) by (rewrite <- Z.pow_succ_r by lia; f_equal; lia).
  subst base. rewrite Z.shiftl_mul_pow2 by lia. rewrite !Z.shiftr_div_pow2 by lia. rewrite Hp. set (p := 2 ^ (k - 1)) in *. set (q := a / (2 * p)).
  replace (q * (2 * p)) with (2 * q * p) by lia. rewrite Z.div_mul by lia. replace (2 * q * p + p) with ((2 * q + 1) * p) by lia. rewrite Z.div_mul by lia.
  replace (ip / (2 * p)) with (ip / p / 2) by (rewrite Z.div_div by lia; f_equal; lia). apply eq_true_iff_eq. rewrite orb_true_iff, !Z.eqb_eq. generalize (ip / p) q. clear. intros x y. pose proof (Z.div_mod x 2 ltac:(lia)). pose proof (Z.mod_pos_bound x 2 ltac:(lia)). lia.
Qed.

#[export] Instance prefixes_laws : RouteLaws prefixes.
Proof.
  assert (Hb : forall n, 0 <= bits n <= Z.max 0 width) by (intros n; unfold bits; lia). split; cbn [covers within prefix_len trunc subnets aggregate new_assert prefixes Net].
  - apply Hb.
  - intros addr len ip Hl. unfold shift, bits. simpl. by replace (Z.max 0 (Z.min (Z.max 0 width) len)) with len by lia.
  - intros a b. rewrite andb_true_iff, Z.leb_le, Z.eqb_eq. split.
    + intros [Hle H]. split; [done|]. exists b.1. by rewrite !Z.eqb_eq.
    + intros [Hle (ip & H1 & H2)]. rewrite !Z.eqb_eq in *. split; [done|]. rewrite <- H1. symmetry. by eapply shift_coarser.
  - intros a b ip. rewrite andb_true_iff, Z.leb_le, !Z.eqb_eq. intros [Hle H] Hc. rewrite <- H. by eapply shift_coarser.
  - intros n ip. replace (shift (Z.shiftl (Z.shiftr n.1 (shift n)) (shift n), n.2)) with (shift n) by done. specialize (Hb n). simpl.
    rewrite Z.shiftr_shiftl_l by (unfold shift; lia). by rewrite Z.sub_diag, Z.shiftl_0_r.
  - intros n Hlt. rewrite decide_True by lia. do 2 eexists. split; [done|].
    assert (Hnew : forall x, bits (x, bits n + 1) = bits n + 1) by (intros x; specialize (Hb n); unfold bits in *; simpl; lia). split; [apply Hnew|]. split; [apply Hnew|].
    intros ip. assert (Hs : forall x, shift (x, bits n + 1) = shift n - 1) by (intros x; unfold shift; rewrite Hnew; lia). rewrite !Hs. apply half_split. unfold shift. lia.
  - done.
  - done.
Qed.
End Prefixes.

(** C27: the routes a profile asks for: [compute] returns, and for every IPv4
    address — the last one, where [aggregate] cannot be told, included — and every
    IPv6 address but the last, traffic goes into the adapter exactly when the
    address is in rurge's own space, or it is one the platform routes and the
    profile includes it or it is neither below the base prefixes, nor loopback,
    link-local, multicast or broadcast, nor excluded, nor an external program's.
    So whatever the profile includes goes in, excluded or not, and loopback,
    link-local, multicast and broadcast too, against the comment that these never
    go in whatever the profile says: only rurge's own space ahead of it and a
    platform that routes no 240.0.0.0/4 are above [tun-included-routes]. *)
Theorem routes_cover_what_is_asked {N4 : Routes 32} {N6 : Routes 128} {L4 : RouteLaws N4} {L6 : RouteLaws N6} inputs : exists r, compute inputs = Some r
  /\ (forall ip, 0 <= ip < 2 ^ 32 -> contains r (V4 ip) = wanted_v4 inputs ip)
  /\ (forall ip, 0 <= ip < 2 ^ 128 - 1 -> contains r (V6 ip) = wanted_v6 inputs ip)
  /\ (forall net ip, Net4_ net ∈ included inputs -> covers net ip = true -> 0 <= ip < 2 ^ 32 -> class_e inputs = true \/ ip < ipv4 240 0 0 0 -> contains r (V4 ip) = true)
  /\ (forall net ip, Net6_ net ∈ included inputs -> covers net ip = true -> 0 <= ip < 2 ^ 128 - 1 -> ipv6 inputs = true -> contains r (V6 ip) = true).
Proof.
  destruct (compute_spec inputs) as (r & Hr & H4 & H6). exists r. split_and!; [done|done|done| |].
  - intros net ip Hin Hc Hip Hclass. rewrite H4 by done. by eapply included_wanted_v4.
  - intros net ip Hin Hc Hip Hon. rewrite H6 by done. by eapply included_wanted_v6.
Qed.

#[export] Instance prefixes_v4 : Routes 32 := prefixes 32.
#[export] Instance prefixes_v6 : Routes 128 := prefixes 128.

(** A profile that excludes 10.0.0.0/8 and includes 10.1.0.0/16, and loopback. *)
Lemma routes_cover_what_is_asked_witness (inputs := mkInputs true [Net4_ (ipv4 10 0 0 0, 8)] [Net4_ (ipv4 10 1 0 0, 16); Net4_ (ipv4 127 0 0 0, 8)] [V4 (ipv4 203 0 113 7)] false false) :
  exists r, compute inputs = Some r
  /\ (forall ip, 0 <= ip < 2 ^ 32 -> contains r (V4 ip) = wanted_v4 inputs ip)
  /\ (forall ip, 0 <= ip < 2 ^ 128 - 1 -> contains r (V6 ip) = wanted_v6 inputs ip)
  /\ contains r (V4 (ipv4 127 0 0 1)) = true.
Proof.
  destruct (routes_cover_what_is_asked (L4 := prefixes_laws 32) (L6 := prefixes_laws 128) inputs) as (r & Hr & H4 & H6 & Hin & _). exists r. split; [exact Hr|]. split; [exact H4|]. split; [exact H6|].
  apply (Hin (ipv4 127 0 0 0, 8)); [apply list_elem_of_In; simpl; tauto|reflexivity|split; [discriminate|reflexivity]|right; reflexivity].
Defined.

(** A profile that excludes 10.0.0.0/8 but for 10.1.0.0/16. *)
Example routes_example (inputs := mkInputs false [Net4_ (ipv4 10 0 0 0, 8)] [Net4_ (ipv4 10 1 0 0, 16)] [] false true) :
  (fun r => (length (v4 r), contains r (V4 (ipv4 10 0 0 1)), contains r (V4 (ipv4 10 1 2 3)), contains r (V4 (ipv4 8 8 8 8)))) <$> compute inputs = Some (58%nat, false, true, true).
Proof. vm_compute. reflexivity. Qed.
