(* ===== verification/TlsHello.v ===== *)
(** * Telling what a connection begins with

    [crates/rurge-http/src/tls.rs] and [sniff.rs]: a ClientHello read out of
    the handshake bytes that TLS records carry ([parse_client_hello],
    [reassemble]), what the first bytes of a connection are ([judge]), and the
    loop that judges while bytes come ([sniff]).  A reader that advances answers
    what is left.  An outer [None] of [walk] is fuel that is not enough. *)

From S2P Require Import Prelude Bytes.

Definition CLIENT_HELLO : Z := 1.
Definition HANDSHAKE_RECORD : Z := 0x16.
Definition MAX_RECORD : Z := 16384.
Definition HANDSHAKE_HEADER : Z := 4.
Definition MAX_SESSION_ID : Z := 32.
Definition EXT_SERVER_NAME : Z := 0.
Definition EXT_ALPN : Z := 16.

Record ClientHello := mkHello { sni : option rstr; alpn : list (list Z) }.

#[export] Instance ClientHello_eq_dec : EqDecision ClientHello.
Proof. solve_decision. Defined.

(** ** [Reader] *)

Definition u8 (rest : list Z) : option (Z * list Z) :=
  match rest with first :: rest => Some (first, rest) | [] => None end.

Definition take_ (n : Z) (rest : list Z) : option (list Z * list Z) :=
  if n <=? zlen rest then Some (take (Z.to_nat n) rest, drop (Z.to_nat n) rest) else None.

Definition u16 (rest : list Z) : option (Z * list Z) :=
  '(bytes, rest) ← take_ 2 rest;
  match bytes with [a; b] => Some (of_be16 a b, rest) | _ => None end.

Definition u24_of (a b c : Z) : Z := Z.lor (Z.lor (Z.shiftl a 16) (Z.shiftl b 8)) c.

Definition u24 (rest : list Z) : option (Z * list Z) :=
  '(bytes, rest) ← take_ 3 rest;
  match bytes with [a; b; c] => Some (u24_of a b c, rest) | _ => None end.

(** ** The ClientHello *)

(** The loop over the names of a list. *)
Fixpoint first_name (fuel : nat) (entries : list Z) (name : option (list Z)) (seen : bool) : option (option (list Z)) :=
  match entries with
  | [] => Some name
  | _ =>
      match fuel with
      | 0%nat => None
      | S fuel =>
          '(kind, entries) ← u8 entries;
          '(len, entries) ← u16 entries;
          '(bytes, entries) ← take_ len entries;
          if (kind =? 0) && negb seen then first_name fuel entries (Some bytes) true else first_name fuel entries name seen
      end
  end.

Definition read_server_name (body : list Z) : option (option rstr) :=
  '(names, rest) ← u16 body;
  '(entries, rest) ← take_ names rest;
  if negb (bool_decide (rest = [])) then None
  else
    name ← first_name (length entries) entries None false;
    match name with
    | None => Some None
    | Some name =>
        if bool_decide (name = []) || negb (forallb (fun b => b <? 128) name) then Some None
        else s ← utf8_decode name; Some (Some (to_ascii_lowercase s))
    end.

(** The loop over the protocols of a list. *)
Fixpoint protocols (fuel : nat) (entries : list Z) (alpn : list (list Z)) : option (list (list Z)) :=
  match entries with
  | [] => Some alpn
  | _ =>
      match fuel with
      | 0%nat => None
      | S fuel =>
          '(len, entries) ← u8 entries;
          if len =? 0 then None
          else '(bytes, entries) ← take_ len entries; protocols fuel entries (alpn ++ [bytes])
      end
  end.

Definition read_alpn (body : list Z) : option (list (list Z)) :=
  '(names, rest) ← u16 body;
  '(entries, rest) ← take_ names rest;
  if negb (bool_decide (rest = [])) then None else protocols (length entries) entries [].

Fixpoint read_extensions (fuel : nat) (block : list Z) (server_name has_alpn : bool) (hello : ClientHello) : option ClientHello :=
  match block with
  | [] => Some hello
  | _ =>
      match fuel with
      | 0%nat => None
      | S fuel =>
          '(kind, block) ← u16 block;
          '(len, block) ← u16 block;
          '(body, block) ← take_ len block;
          if (kind =? EXT_SERVER_NAME) && negb server_name then
            name ← read_server_name body; read_extensions fuel block true has_alpn (mkHello name (alpn hello))
          else if (kind =? EXT_ALPN) && negb has_alpn then
            names ← read_alpn body; read_extensions fuel block server_name true (mkHello (sni hello) names)
          else read_extensions fuel block server_name has_alpn hello
      end
  end.

Definition read_client_hello (body : list Z) : option ClientHello :=
  '(_, r) ← take_ 2 body;
  '(_, r) ← take_ 32 r;
  '(session, r) ← u8 r;
  if session >? MAX_SESSION_ID then None else
  '(_, r) ← take_ session r;
  '(suites, r) ← u16 r;
  if (suites <? 2) || negb (suites mod 2 =? 0) then None else
  '(_, r) ← take_ suites r;
  '(compression, r) ← u8 r;
  if compression <? 1 then None else
  '(_, r) ← take_ compression r;
  match r with
  | [] => Some (mkHello None [])
  | _ =>
      '(extensions, r) ← u16 r;
      '(block, r) ← take_ extensions r;
      if negb (bool_decide (r = [])) then None else read_extensions (length block) block false false (mkHello None [])
  end.

Definition parse_client_hello (message : list Z) : option ClientHello :=
  '(kind, r) ← u8 message;
  if negb (kind =? CLIENT_HELLO) then None else
  '(len, r) ← u24 r;
  if negb (len + HANDSHAKE_HEADER =? zlen message) then None else
  '(body, r) ← take_ len r;
  read_client_hello body.

(** ** The records *)

Inductive Reassembled := Hello (hello : ClientHello) | NeedMore (n : Z) | Other.

Definition wanted (handshake : list Z) : Z :=
  match handshake with
  | _ :: a :: b :: c :: _ => HANDSHAKE_HEADER + u24_of a b c
  | _ => HANDSHAKE_HEADER
  end.

Definition need (limit n : Z) : Reassembled := if n >? limit then Other else NeedMore n.

(** Fewer than five bytes: they must still fit a handshake record. *)
Definition header_fits (rest : list Z) : bool :=
  forallb (fun ib : nat * Z =>
    match ib.1 with
    | 0%nat => ib.2 =? HANDSHAKE_RECORD
    | 1%nat => ib.2 =? 3
    | 2%nat => ib.2 <=? 4
    | _ => true
    end) (imap pair rest).

(** The length of a record that may carry a ClientHello, from its header. *)
Definition record_len (kind major minor l1 l2 : Z) : option Z :=
  let len := of_be16 l1 l2 in
  if negb (kind =? HANDSHAKE_RECORD) || negb (major =? 3) || (minor >? 4) || negb ((1 <=? len) && (len <=? MAX_RECORD)) then None else Some len.

(** What the handshake bytes so far come to, when their header is there and
    they are no ClientHello or a whole one. *)
Definition look (limit : Z) (handshake : list Z) : option Reassembled :=
  match handshake with
  | first :: _ :: _ :: _ :: _ =>
      if negb (first =? CLIENT_HELLO) then Some Other
      else
        let total := wanted handshake in
        if total >? limit then Some Other
        else if total <=? zlen handshake then
          Some (match parse_client_hello (take (Z.to_nat total) handshake) with Some hello => Hello hello | None => Other end)
        else None
  | _ => None
  end.

(** One turn of the loop of [reassemble], at a record: what it returns, or where
    the next record is and the handshake bytes until there.  [need] is what a
    wait comes to. *)
Definition turn (need : Z -> Reassembled) (limit : Z) (prefix : list Z) (at_ : Z) (handshake : list Z) : Reassembled + Z * list Z :=
  if zlen prefix <? at_ then inl Other
  else
    let rest := drop (Z.to_nat at_) prefix in
    match rest with
    | kind :: major :: minor :: l1 :: l2 :: payload =>
        match record_len kind major minor l1 l2 with
        | None => inl Other
        | Some len =>
            let record_end := at_ + 5 + len in
            let before := zlen handshake in
            let handshake := handshake ++ take (Z.to_nat (Z.min len (zlen payload))) payload in
            match look limit handshake with
            | Some r => inl r
            | None =>
                if zlen prefix <? record_end then
                  let end_ := at_ + 5 + (wanted handshake - before) in
                  inl (if end_ <=? record_end then need end_ else need (end_ + 5))
                else inr (record_end, handshake)
            end
        end
    | _ => inl (if header_fits rest then need (at_ + 5 + (wanted handshake - zlen handshake)) else Other)
    end.

Fixpoint walk (need : Z -> Reassembled) (limit : Z) (fuel : nat) (prefix : list Z) (at_ : Z) (handshake : list Z) : option Reassembled :=
  match turn need limit prefix at_ handshake with
  | inl r => Some r
  | inr (at_, handshake) => match fuel with 0%nat => None | S fuel => walk need limit fuel prefix at_ handshake end
  end.

Definition reassemble (prefix : list Z) (limit : Z) : option Reassembled := walk (need limit) limit (length prefix) prefix 0 [].

(** ** Judging *)

Definition MAX_PREFIX : Z := 64 * 1024.
Definition MAX_METHOD : nat := 20.

Inductive Judged := JNeedMore (n : Z) | JTls (hello : ClientHello) | JHttp | JOther.

Fixpoint judge_from (i : nat) (prefix rest : list Z) : Judged :=
  match rest with
  | [] => JNeedMore (zlen prefix + 1)
  | byte :: rest =>
      if byte =? 32 then
        if (i =? 0)%nat || (MAX_METHOD <? i)%nat then JOther
        else if bool_decide (take i prefix = lit "PRI") then JOther else JHttp
      else
        let fits := is_upper byte || (byte =? 45) || (byte =? 95) in
        if negb fits || (MAX_METHOD <=? i)%nat then JOther else judge_from (S i) prefix rest
  end.

Definition judge_http (prefix : list Z) : Judged := judge_from 0 prefix prefix.

Definition judge (prefix : list Z) : option Judged :=
  match prefix with
  | [] => Some (JNeedMore 1)
  | first :: _ =>
      if first =? 0x16 then
        r ← reassemble prefix MAX_PREFIX;
        Some (match r with Hello hello => JTls hello | NeedMore n => JNeedMore n | Other => JOther end)
      else Some (judge_http prefix)
  end.

(** ** While the bytes come *)

Inductive Sniffed := STls (hello : ClientHello) | SHttp | SOther | Timeout | Closed | Failed.

(** What a fill of the buffer came to; no bytes are the end of the stream. *)
Inductive Fill := Bytes_ (bytes : list Z) | TimedOut | Broke.

(** [sniff], on the fills there will be; an outer [None] when they are too few
    to tell. *)
Fixpoint sniff (fills : list Fill) (buffered : list Z) (enough : Z) : option Sniffed :=
  let wait (enough : Z) :=
    match fills with
    | [] => None
    | TimedOut :: _ => Some Timeout
    | Broke :: _ => Some Failed
    | Bytes_ bytes :: fills => if bool_decide (bytes = []) then Some Closed else sniff fills (buffered ++ bytes) enough
    end in
  if enough <=? zlen buffered then
    j ← judge buffered;
    match j with
    | JNeedMore n => wait n
    | JTls hello => Some (STls hello)
    | JHttp => Some SHttp
    | JOther => Some SOther
    end
  else wait enough.
