(* ===== verification/TlsJudge.v ===== *)
(** * Putting records together, as more of them come

    Of the walk over the records in [TlsHello.v]: it ends, no message is whole
    before the bytes it lacks have come, and what a prefix comes to stays for
    every longer one ([walk_more]). *)

From S2P Require Import Prelude Bytes TlsHello.

(** The bytes a handshake message lacks. *)
Definition lacks (hs : list Z) : Z := wanted hs - zlen hs.

Lemma u24_nonneg a b c : is_byte a -> is_byte b -> is_byte c -> 0 <= u24_of a b c.
Proof. unfold is_byte, u24_of. intros. rewrite !Z.lor_nonneg, !Z.shiftl_nonneg. lia. Qed.

Lemma wanted_least hs : bytes_ok hs -> HANDSHAKE_HEADER <= wanted hs.
Proof.
  intros Hb. destruct hs as [|x [|a [|b [|c hs]]]]; simpl; try (unfold HANDSHAKE_HEADER; lia).
  inversion Hb as [|? ? _ Hb1]; subst. inversion Hb1 as [|? ? Ha Hb2]; subst. inversion Hb2 as [|? ? Hb' Hb3]; subst. inversion Hb3; subst.
  pose proof (u24_nonneg a b c). unfold HANDSHAKE_HEADER in *. naive_solver lia.
Qed.

(** More bytes do not make the message shorter. *)
Lemma wanted_mono hs more : bytes_ok (hs ++ more) -> wanted hs <= wanted (hs ++ more).
Proof.
  intros Hb. destruct hs as [|x [|a [|b [|c hs]]]]; try apply (wanted_least _ Hb). simpl. lia.
Qed.

Lemma wanted_fixed hs more : 4 <= zlen hs -> wanted (hs ++ more) = wanted hs.
Proof. destruct hs as [|x [|a [|b [|c hs]]]]; unfold zlen; simpl; done || lia. Qed.

Lemma short_wanted hs : zlen hs < 4 -> wanted hs = 4.
Proof. destruct hs as [|x [|a [|b [|c hs]]]]; unfold zlen; simpl; done || lia. Qed.

(** ** The handshake bytes so far *)

Lemma look_short limit hs : zlen hs < 4 -> look limit hs = None.
Proof. destruct hs as [|x [|a [|b [|c hs]]]]; unfold zlen; simpl; done || lia. Qed.

Lemma look_long limit hs : 4 <= zlen hs -> look limit hs =
  if negb (default 0 (head hs) =? CLIENT_HELLO) then Some Other else if wanted hs >? limit then Some Other
  else if wanted hs <=? zlen hs then Some (match parse_client_hello (take (Z.to_nat (wanted hs)) hs) with Some hello => Hello hello | None => Other end) else None.
Proof. destruct hs as [|x [|a [|b [|c hs]]]]; unfold zlen; simpl; done || lia. Qed.

Lemma look_more limit hs more r : look limit hs = Some r -> look limit (hs ++ more) = Some r.
Proof.
  intros Hr. destruct (Z.lt_ge_cases (zlen hs) 4) as [Hs|Hs]; [by rewrite look_short in Hr|]. pose proof (zlen_nonneg more).
  rewrite look_long in Hr by done. rewrite look_long, wanted_fixed by (rewrite ?zlen_app; lia). replace (head (hs ++ more)) with (head hs) by (destruct hs; [done|done]).
  destruct (negb _); [done|]. destruct (wanted hs >? limit); [done|]. destruct (Z.leb_spec (wanted hs) (zlen hs)); [|done].
  rewrite zlen_app. destruct (Z.leb_spec (wanted hs) (zlen hs + zlen more)); [|lia]. rewrite take_app_le; [done|]. unfold zlen in *. lia.
Qed.

Lemma look_none limit hs : look limit hs = None -> 0 < lacks hs.
Proof.
  unfold lacks. destruct (Z.lt_ge_cases (zlen hs) 4) as [Hs|Hs]; [intros _; rewrite short_wanted by done; lia|]. rewrite look_long by done.
  destruct (negb _); [done|]. destruct (wanted hs >? limit); [done|]. destruct (Z.leb_spec (wanted hs) (zlen hs)); [done|]. intros _. lia.
Qed.

Lemma look_hello limit hs r : look limit hs = Some r -> r = Other \/ (lacks hs <= 0 /\ exists h, r = Hello h).
Proof.
  unfold lacks. destruct (Z.lt_ge_cases (zlen hs) 4) as [Hs|Hs]; [by rewrite look_short|]. rewrite look_long by done.
  destruct (negb _); [intros [= <-]; by left|]. destruct (wanted hs >? limit); [intros [= <-]; by left|]. destruct (Z.leb_spec (wanted hs) (zlen hs)); [|done].
  intros [= <-]. destruct (parse_client_hello _); [right; split; [lia|by eexists]|by left].
Qed.

(** The message lacks at most as much less as there is more. *)
Lemma lacks_app hs more : bytes_ok (hs ++ more) -> lacks hs - zlen more <= lacks (hs ++ more).
Proof. intros Hb. unfold lacks. rewrite zlen_app. pose proof (wanted_mono hs more Hb). lia. Qed.

(** ** The walk *)

Section Walk.
Context (limit : Z).

Abbreviation raw := (walk NeedMore limit).

Lemma zlen_drop {A} n (l : list A) : 0 <= n <= zlen l -> zlen (drop (Z.to_nat n) l) = zlen l - n.
Proof. unfold zlen. rewrite length_drop. lia. Qed.

Lemma zlen_take {A} n (l : list A) : 0 <= n <= zlen l -> zlen (take (Z.to_nat n) l) = n.
Proof. unfold zlen. rewrite length_take. lia. Qed.

(** The turn at a record. *)
Inductive Turn (p : list Z) (at_ : Z) (hs : list Z) : Reassembled + Z * list Z -> Prop :=
  | Turn_header : zlen p < at_ + 5 -> Turn p at_ hs (inl (if header_fits (drop (Z.to_nat at_) p) then NeedMore (at_ + 5 + lacks hs) else Other))
  | Turn_record k ma mi l1 l2 payload r : drop (Z.to_nat at_) p = k :: ma :: mi :: l1 :: l2 :: payload -> zlen p = at_ + 5 + zlen payload ->
      match record_len k ma mi l1 l2 with
      | None => r = inl Other
      | Some len => 1 <= len <= MAX_RECORD /\
          let piece := take (Z.to_nat (Z.min len (zlen payload))) payload in
          match look limit (hs ++ piece) with
          | Some s => r = inl s
          | None => if zlen payload <? len then
                let end_ := at_ + 5 + zlen piece + lacks (hs ++ piece) in r = inl (NeedMore (if end_ <=? at_ + 5 + len then end_ else end_ + 5))
              else r = inr (at_ + 5 + len, hs ++ piece)
          end
      end -> Turn p at_ hs r.

Lemma record_len_range k ma mi l1 l2 len : record_len k ma mi l1 l2 = Some len -> 1 <= len <= MAX_RECORD.
Proof. unfold record_len. destruct (_ || _) eqn:H; [done|]. intros [= <-]. apply orb_false_iff in H as [_ H]. lia. Qed.

Lemma turn_spec p at_ hs : 0 <= at_ <= zlen p -> Turn p at_ hs (turn NeedMore limit p at_ hs).
Proof.
  intros Hat. unfold turn. destruct (Z.ltb_spec (zlen p) at_); [lia|]. cbv zeta. pose proof (zlen_drop at_ p Hat) as Hlen.
  destruct (drop (Z.to_nat at_) p) as [|k [|ma [|mi [|l1 [|l2 payload]]]]] eqn:Hd;
    try (pose proof (Turn_header p at_ hs) as HT; rewrite Hd in HT; apply HT; unfold zlen in *; simpl in Hlen; lia).
  eapply (Turn_record p at_ hs k ma mi l1 l2 payload); [exact Hd| |].
  - unfold zlen in *. simpl in Hlen. lia.
  - assert (Hp : zlen p = at_ + 5 + zlen payload) by (unfold zlen in *; simpl in Hlen; lia). destruct (record_len k ma mi l1 l2) as [len|] eqn:Hr; [|done].
    pose proof (record_len_range _ _ _ _ _ _ Hr) as Hrange. split; [done|]. cbv zeta. set (piece := take _ payload). destruct (look limit (hs ++ piece)); [done|].
    rewrite Hp. destruct (Z.ltb_spec (zlen payload) len); destruct (Z.ltb_spec (at_ + 5 + zlen payload) (at_ + 5 + len)); try lia; [|done].
    unfold lacks. rewrite zlen_app. replace (at_ + 5 + zlen piece + (wanted (hs ++ piece) - (zlen hs + zlen piece))) with (at_ + 5 + (wanted (hs ++ piece) - zlen hs)) by lia.
    by destruct (_ <=? _).
Qed.

Definition fine (p : list Z) (at_ : Z) (hs : list Z) : Prop := bytes_ok p /\ bytes_ok hs /\ 0 <= at_ <= zlen p /\ 0 < lacks hs.

Lemma bytes_drop p n : bytes_ok p -> bytes_ok (drop n p).
Proof. apply Forall_drop. Qed.

Lemma payload_ok p at_ k ma mi l1 l2 payload : bytes_ok p -> drop (Z.to_nat at_) p = k :: ma :: mi :: l1 :: l2 :: payload -> bytes_ok payload.
Proof. intros Hp Hd. pose proof (bytes_drop p (Z.to_nat at_) Hp) as Hb. rewrite Hd in Hb. unfold bytes_ok in *. rewrite !Forall_cons in Hb. naive_solver. Qed.

(** A record that is there in full leads to the next. *)
Lemma fine_next p at_ hs payload len : fine p at_ hs -> (exists k ma mi l1 l2, drop (Z.to_nat at_) p = k :: ma :: mi :: l1 :: l2 :: payload) ->
  zlen p = at_ + 5 + zlen payload -> 1 <= len <= zlen payload -> look limit (hs ++ take (Z.to_nat len) payload) = None ->
  fine p (at_ + 5 + len) (hs ++ take (Z.to_nat len) payload).
Proof.
  intros (Hp & Hh & Hat & Hl) (k & ma & mi & l1 & l2 & Hd) Hlen Hr Hlook. split; [done|]. split; [|split; [lia|by eapply look_none]].
  apply Forall_app. split; [done|]. apply Forall_take. exact (payload_ok _ _ _ _ _ _ _ _ Hp Hd).
Qed.

Lemma records_walk_total fuel : forall p at_ hs, fine p at_ hs -> zlen p - at_ <= Z.of_nat fuel -> exists r, raw fuel p at_ hs = Some r.
Proof.
  induction fuel as [|fuel IH]; intros p at_ hs Hf Hfuel; pose proof Hf as (Hp & Hh & Hat & Hl); cbn [walk]; destruct (turn_spec p at_ hs Hat) as [Hs|k ma mi l1 l2 payload r Hd Hlen Hr];
    try (by eexists); pose proof (zlen_nonneg payload); [lia|].
  destruct (record_len k ma mi l1 l2) as [len|]; [|subst r; by eexists]. destruct Hr as [Hrange Hr]. cbv zeta in Hr. destruct (look limit _) eqn:Hlook; [subst r; by eexists|].
  destruct (Z.ltb_spec (zlen payload) len); subst r; [by eexists|]. rewrite Z.min_l in * by lia. apply IH; [|lia]. apply fine_next; [done|eauto 10|done|lia|done].
Qed.

(** A message is not whole before the bytes it lacks have come, each record
    with a header of five. *)
Lemma walk_bound fuel : forall p at_ hs r, fine p at_ hs -> raw fuel p at_ hs = Some r ->
  match r with Hello _ => at_ + 5 + lacks hs <= zlen p | NeedMore n => at_ + 5 + lacks hs <= n /\ zlen p < n | Other => True end.
Proof.
  induction fuel as [|fuel IH]; intros p at_ hs r Hf Hw; pose proof Hf as (Hp & Hh & Hat & Hl); cbn [walk] in Hw; destruct (turn_spec p at_ hs Hat) as [Hs|k ma mi l1 l2 payload s Hd Hlen Hr];
    try (injection Hw as <-; destruct (header_fits _); [lia|done]); pose proof (zlen_nonneg payload);
    (destruct (record_len k ma mi l1 l2) as [len|]; [|subst s; by injection Hw as <-]); destruct Hr as [Hrange Hr]; cbv zeta in Hr;
    pose proof (payload_ok _ _ _ _ _ _ _ _ Hp Hd) as Hpay;
    assert (Hlacks := lacks_app hs (take (Z.to_nat (Z.min len (zlen payload))) payload) (Forall_app_2 _ _ _ Hh (Forall_take _ _ _ Hpay)));
    rewrite zlen_take in Hlacks, Hr by lia;
    (destruct (look limit _) as [u|] eqn:Hlook; [subst s; injection Hw as <-; apply look_hello in Hlook as [->|(Hn & h & ->)]; [done|lia]|]);
    pose proof (look_none _ _ Hlook); (destruct (Z.ltb_spec (zlen payload) len); subst s; [injection Hw as <-; destruct (Z.leb_spec (at_ + 5 + Z.min len (zlen payload) + lacks (hs ++ take (Z.to_nat (Z.min len (zlen payload))) payload)) (at_ + 5 + len)); lia|]); [done|].
  rewrite Z.min_l in * by lia. assert (Hf' : fine p (at_ + 5 + len) (hs ++ take (Z.to_nat len) payload)) by (apply fine_next; [done|eauto 10|done|lia|done]).
  specialize (IH _ _ _ _ Hf' Hw). destruct r; [lia|lia|done].
Qed.

(** A header that starts badly is bad. *)
Lemma bad_start rest q : header_fits rest = false -> header_fits (rest ++ q) = false.
Proof. unfold header_fits. rewrite imap_app, forallb_app. by intros ->. Qed.

Lemma header_bad k ma mi l1 l2 payload n : header_fits (take n (k :: ma :: mi :: l1 :: l2 :: payload)) = false -> (n <= 5)%nat -> record_len k ma mi l1 l2 = None.
Proof.
  intros Hb Hn. assert (Hf : header_fits [k; ma; mi; l1; l2] = false).
  { replace [k; ma; mi; l1; l2] with (take n (k :: ma :: mi :: l1 :: l2 :: payload) ++ drop n [k; ma; mi; l1; l2]); [by apply bad_start|].
    do 6 (destruct n as [|n]; [done|]). lia. }
  unfold header_fits in Hf. simpl in Hf. unfold record_len. rewrite !andb_true_r in Hf.
  apply andb_false_iff in Hf as [->|Hf]; [done|]. apply andb_false_iff in Hf as [->|Hf]; [by rewrite orb_true_r|]. replace (mi >? 4) with true by lia. by rewrite !orb_true_r.
Qed.

(** What a longer prefix comes to. *)
Definition settled (r r' : Reassembled) (len : Z) : Prop :=
  match r with
  | NeedMore n => len < n -> r' = Other \/ exists n', r' = NeedMore n' /\ n <= n'
  | _ => r' = r
  end.

Lemma settled_bound p at_ hs r' fuel n : fine p at_ hs -> raw fuel p at_ hs = Some r' -> n <= at_ + 5 + lacks hs -> settled (NeedMore n) r' (zlen p).
Proof.
  intros Hf Hw Hn Hlt. pose proof (walk_bound _ _ _ _ _ Hf Hw) as Hb. destruct r' as [h|n'|]; [lia|right; exists n'; split; [done|lia]|by left].
Qed.

(** The record of a prefix that ends in it, in a longer one. *)
Lemma settled_partial p q at_ hs payload len n r' fuel (piece := take (Z.to_nat (Z.min len (zlen (payload ++ q)))) (payload ++ q)) :
  fine (p ++ q) at_ hs -> bytes_ok payload -> bytes_ok q -> zlen p = at_ + 5 + zlen payload -> zlen payload < len -> 0 < lacks (hs ++ payload) ->
  n = (let end_ := zlen p + lacks (hs ++ payload) in if end_ <=? at_ + 5 + len then end_ else end_ + 5) ->
  match look limit (hs ++ piece) with
  | Some s => r' = s
  | None => if zlen (payload ++ q) <? len then let end_ := at_ + 5 + zlen piece + lacks (hs ++ piece) in r' = NeedMore (if end_ <=? at_ + 5 + len then end_ else end_ + 5)
      else fine (p ++ q) (at_ + 5 + len) (hs ++ piece) /\ raw fuel (p ++ q) (at_ + 5 + len) (hs ++ piece) = Some r'
  end -> settled (NeedMore n) r' (zlen (p ++ q)).
Proof.
  intros (_ & Hh & _) Hpay Hq Hp Hpart Hl Hn Hr Hlt. rewrite zlen_app in Hlt. pose proof (zlen_nonneg q). pose proof (zlen_nonneg payload).
  set (more := take (Z.to_nat (Z.min (len - zlen payload) (zlen q))) q). assert (Hmore : zlen more = Z.min (len - zlen payload) (zlen q)) by (apply zlen_take; lia).
  assert (Hpiece : piece = payload ++ more).
  { subst piece more. rewrite zlen_app, take_app_ge by (unfold zlen in *; lia). do 2 f_equal. unfold zlen in *. lia. }
  assert (Hlk : lacks (hs ++ payload) - zlen more <= lacks (hs ++ piece)).
  { rewrite Hpiece, app_assoc. apply lacks_app. unfold bytes_ok in *. repeat apply Forall_app_2; [done|done|by apply Forall_take]. }
  assert (Hzp : zlen piece = zlen payload + zlen more) by (by rewrite Hpiece, zlen_app). cbv zeta in Hn, Hr. rewrite zlen_app in Hr.
  destruct (look limit (hs ++ piece)) as [s|] eqn:Hlook.
  - subst r'. apply look_hello in Hlook as [->|(Hw & h & ->)]; [by left|]. exfalso. destruct (Z.leb_spec (zlen p + lacks (hs ++ payload)) (at_ + 5 + len)); lia.
  - destruct (Z.ltb_spec (zlen payload + zlen q) len).
    + right. eexists. split; [exact Hr|]. destruct (Z.leb_spec (zlen p + lacks (hs ++ payload)) (at_ + 5 + len)), (Z.leb_spec (at_ + 5 + zlen piece + lacks (hs ++ piece)) (at_ + 5 + len)); lia.
    + destruct Hr as [Hf Hw]. eapply settled_bound; [exact Hf|exact Hw| |by rewrite zlen_app]. destruct (Z.leb_spec (zlen p + lacks (hs ++ payload)) (at_ + 5 + len)); lia.
Qed.

Lemma fine_more p q at_ hs : fine p at_ hs -> bytes_ok q -> fine (p ++ q) at_ hs.
Proof. intros (Hp & Hh & Hat & Hl) Hq. pose proof (zlen_nonneg q). split; [by apply Forall_app_2|]. split; [done|]. rewrite zlen_app. split; [lia|done]. Qed.

Lemma drop_more {A} n (p q : list A) : 0 <= n <= zlen p -> drop (Z.to_nat n) (p ++ q) = drop (Z.to_nat n) p ++ q.
Proof. intros Hn. apply drop_app_le. unfold zlen in Hn. lia. Qed.

(** The turn of a longer prefix at the same record. *)
Lemma turn_more p q at_ hs k ma mi l1 l2 payload s : fine p at_ hs -> bytes_ok q -> drop (Z.to_nat at_) p = k :: ma :: mi :: l1 :: l2 :: payload ->
  Turn (p ++ q) at_ hs s ->
  match record_len k ma mi l1 l2 with
  | None => s = inl Other
  | Some len =>
      let piece := take (Z.to_nat (Z.min len (zlen (payload ++ q)))) (payload ++ q) in
      match look limit (hs ++ piece) with
      | Some u => s = inl u
      | None => if zlen (payload ++ q) <? len then
            let end_ := at_ + 5 + zlen piece + lacks (hs ++ piece) in s = inl (NeedMore (if end_ <=? at_ + 5 + len then end_ else end_ + 5))
          else s = inr (at_ + 5 + len, hs ++ piece) /\ fine (p ++ q) (at_ + 5 + len) (hs ++ piece)
      end
  end.
Proof.
  intros Hf Hq Hd Ht. pose proof (fine_more _ q _ _ Hf Hq) as Hf'. destruct Hf as (Hp & Hh & Hat & Hl). pose proof (drop_more at_ p q Hat) as Hdq. rewrite Hd in Hdq.
  destruct Ht as [Hs|k' ma' mi' l1' l2' payload' s Hd' Hlen Hr].
  - exfalso. pose proof (zlen_drop at_ (p ++ q)) as Hz. rewrite Hdq in Hz. destruct Hf' as (_ & _ & Hat' & _). specialize (Hz Hat'). unfold zlen in *. simpl in Hz. lia.
  - rewrite Hdq in Hd'. injection Hd' as <- <- <- <- <- <-. destruct (record_len k ma mi l1 l2) as [len|]; [|done]. destruct Hr as [Hrange Hr]. cbv zeta in *.
    destruct (look limit _) eqn:Hlook; [done|]. destruct (Z.ltb_spec (zlen (payload ++ q)) len); [done|]. split; [done|]. rewrite Z.min_l in * by lia.
    apply fine_next; [done|by exists k, ma, mi, l1, l2|done|lia|done].
Qed.

(** What a walk comes to is what its turn does. *)
Lemma walk_turn fuel p at_ hs r : raw fuel p at_ hs = Some r ->
  turn NeedMore limit p at_ hs = inl r \/ exists a h f, turn NeedMore limit p at_ hs = inr (a, h) /\ fuel = S f /\ raw f p a h = Some r.
Proof. destruct fuel as [|f]; simpl; destruct (turn NeedMore limit p at_ hs) as [s|[a h]]; intros Hr; [injection Hr as <-; by left|done|injection Hr as <-; by left|right; by exists a, h, f]. Qed.

(** A prefix that ends in a header. *)
Lemma more_header p q at_ hs fuel r' : fine p at_ hs -> bytes_ok q -> zlen p < at_ + 5 -> raw fuel (p ++ q) at_ hs = Some r' ->
  settled (if header_fits (drop (Z.to_nat at_) p) then NeedMore (at_ + 5 + lacks hs) else Other) r' (zlen (p ++ q)).
Proof.
  intros Hf Hq Hshort Hw. pose proof (fine_more _ q _ _ Hf Hq) as Hf'. destruct Hf as (Hp & Hh & Hat & Hl). pose proof (drop_more at_ p q Hat) as Hdq.
  destruct (header_fits (drop (Z.to_nat at_) p)) eqn:Hfit; [by eapply settled_bound|]. simpl. apply walk_turn in Hw. destruct Hf' as (_ & _ & Hat' & _).
  destruct (turn_spec (p ++ q) at_ hs Hat') as [Hs|k ma mi l1 l2 payload s Hd Hlen Hr].
  - rewrite Hdq, bad_start in Hw by done. destruct Hw as [[= <-]|(? & ? & ? & ? & _)]; done.
  - rewrite Hdq in Hd. rewrite (header_bad k ma mi l1 l2 payload (length (drop (Z.to_nat at_) p))) in Hr.
    + subst s. destruct Hw as [[= <-]|(? & ? & ? & ? & _)]; done.
    + by rewrite <- Hd, take_app_length.
    + pose proof (zlen_drop at_ p Hat). unfold zlen in *. lia.
Qed.

Lemma walk_more fuel : forall p at_ hs r, fine p at_ hs -> raw fuel p at_ hs = Some r ->
  forall q fuel' r', bytes_ok q -> raw fuel' (p ++ q) at_ hs = Some r' -> settled r r' (zlen (p ++ q)).
Proof.
  induction fuel as [fuel IH] using lt_wf_ind. intros p at_ hs r Hf Hw q fuel' r' Hq Hw'. pose proof (fine_more _ q _ _ Hf Hq) as Hf'. pose proof Hf as (Hp & Hh & Hat & Hl).
  destruct Hf' as (_ & _ & Hat' & _). pose proof (turn_spec (p ++ q) at_ hs Hat') as Ht'. apply walk_turn in Hw. pose proof (turn_spec p at_ hs Hat) as Ht.
  remember (turn NeedMore limit p at_ hs) as s eqn:Hs. destruct Ht as [Hshort|k ma mi l1 l2 payload s Hd Hlen Hr].
  - destruct Hw as [[= <-]|(? & ? & ? & ? & _)]; [by eapply more_header|done].
  - pose proof (turn_more p q at_ hs k ma mi l1 l2 payload _ Hf Hq Hd Ht') as Hm. pose proof Hw' as Hw2. apply walk_turn in Hw'. clear Ht' Hs.
    destruct (record_len k ma mi l1 l2) as [len|]; [|subst s; rewrite Hm in Hw'; destruct Hw as [[= <-]|(? & ? & ? & ? & _)], Hw' as [[= <-]|(? & ? & ? & ? & _)]; done].
    destruct Hr as [Hrange Hr]. cbv zeta in Hr, Hm. pose proof (payload_ok _ _ _ _ _ _ _ _ Hp Hd) as Hpay. pose proof (zlen_nonneg payload). pose proof (zlen_nonneg q).
    destruct (Z.lt_ge_cases (zlen payload) len) as [Hpart|Hfull].
    + rewrite Z.min_r in Hr by lia. rewrite take_ge in Hr by (unfold zlen; lia).
      destruct (look limit (hs ++ payload)) as [u|] eqn:Hlook.
      * subst s. destruct Hw as [[= <-]|(? & ? & ? & ? & _)]; [|done].
        assert (Hlook' : look limit (hs ++ take (Z.to_nat (Z.min len (zlen (payload ++ q)))) (payload ++ q)) = Some u).
        { rewrite take_app_ge by (rewrite zlen_app; unfold zlen in *; lia). rewrite app_assoc. by apply look_more. }
        rewrite Hlook' in Hm. rewrite Hm in Hw'. destruct Hw' as [[= <-]|(? & ? & ? & ? & _)]; [|done]. by apply look_hello in Hlook as [->|(_ & h & ->)].
      * rewrite (proj2 (Z.ltb_lt _ _)) in Hr by done. subst s. destruct Hw as [[= <-]|(? & ? & ? & ? & _)]; [|done].
        eapply (settled_partial p q at_ hs payload len _ r' (pred fuel')); [split; [by apply Forall_app_2|done]|done|done|done|done|by eapply look_none|by rewrite <- Hlen|].
        cbv zeta. destruct (look limit (hs ++ take (Z.to_nat (Z.min len (zlen (payload ++ q)))) (payload ++ q))) as [u|]; [rewrite Hm in Hw'; destruct Hw' as [[= <-]|(? & ? & ? & ? & _)]; done|].
        destruct (zlen (payload ++ q) <? len); [rewrite Hm in Hw'; destruct Hw' as [[= <-]|(? & ? & ? & ? & _)]; done|]. destruct Hm as [Hm Hfine]. split; [done|].
        rewrite Hm in Hw'. destruct Hw' as [?|(a & h & f & [= <- <-] & -> & Hw')]; [done|exact Hw'].
    + assert (Hpiece : take (Z.to_nat (Z.min len (zlen (payload ++ q)))) (payload ++ q) = take (Z.to_nat (Z.min len (zlen payload))) payload).
      { rewrite zlen_app, !Z.min_l by lia. apply take_app_le. unfold zlen in Hfull. lia. }
      rewrite Hpiece in Hm. destruct (look limit _) as [u|] eqn:Hlook.
      * subst s. rewrite Hm in Hw'. destruct Hw as [[= <-]|(? & ? & ? & ? & _)], Hw' as [[= <-]|(? & ? & ? & ? & _)]; try done. by apply look_hello in Hlook as [->|(_ & h & ->)].
      * rewrite (proj2 (Z.ltb_ge _ _)) in Hr by done. rewrite (proj2 (Z.ltb_ge (zlen (payload ++ q)) _)) in Hm by (rewrite zlen_app; lia). destruct Hm as [Hm _].
        subst s. rewrite Hm in Hw'. destruct Hw as [?|(a & h & f & [= <- <-] & -> & Hw)]; [done|]. destruct Hw' as [?|(a & h & f' & [= <- <-] & -> & Hw')]; [done|].
        eapply (IH f); [lia| |exact Hw|done|exact Hw']. rewrite Z.min_l in * by lia. apply fine_next; [done|eauto 10|done|lia|done].
Qed.
End Walk.

(** ** Judging does not depend on how the bytes come
    Of [judge] and [sniff] ([TlsHello.v]): a judgement stands for every longer
    prefix, and [sniff] says of a connection what [judge] says of all its
    bytes. *)

(** *** The whole judgement *)

Definition cap (limit : Z) (r : Reassembled) : Reassembled := match r with NeedMore n => need limit n | _ => r end.

Lemma turn_need limit p at_ hs : turn (need limit) limit p at_ hs = match turn NeedMore limit p at_ hs with inl r => inl (cap limit r) | inr x => inr x end.
Proof.
  unfold turn. destruct (zlen p <? at_); [done|]. cbv zeta. set (w := wanted hs - zlen hs). set (fits := header_fits _).
  destruct (drop (Z.to_nat at_) p) as [|k [|ma [|mi [|l1 [|l2 payload]]]]]; try (by destruct fits). clear fits. destruct (record_len k ma mi l1 l2) as [len|]; [|done].
  destruct (look limit _) as [r|] eqn:Hl; [|destruct (zlen p <? at_ + 5 + len); [|done]; by destruct (_ <=? _)]. by apply look_hello in Hl as [->|(_ & h & ->)].
Qed.

Lemma walk_need limit fuel p at_ hs : walk (need limit) limit fuel p at_ hs = cap limit <$> walk NeedMore limit fuel p at_ hs.
Proof.
  revert at_ hs. induction fuel as [|fuel IH]; intros at_ hs; cbn [walk]; rewrite turn_need; destruct (turn NeedMore limit p at_ hs) as [r|[a h]]; done || apply IH.
Qed.

Lemma fine_start p : bytes_ok p -> fine p 0 [].
Proof. intros Hp. split; [done|]. split; [constructor|]. split; [pose proof (zlen_nonneg p); lia|]. unfold lacks. simpl. unfold HANDSHAKE_HEADER, zlen. simpl. lia. Qed.

Lemma reassemble_spec p limit : bytes_ok p -> exists r, walk NeedMore limit (length p) p 0 [] = Some r /\ reassemble p limit = Some (cap limit r).
Proof.
  intros Hp. destruct (records_walk_total limit (length p) p 0 [] (fine_start p Hp)) as [r Hr]; [unfold zlen; lia|]. exists r. split; [done|]. unfold reassemble. by rewrite walk_need, Hr.
Qed.

(** The judgement of a prefix and of a longer one. *)
Definition stays (j j' : Judged) (len : Z) : Prop :=
  match j with
  | JNeedMore n => len < n -> j' = JOther \/ exists n', j' = JNeedMore n' /\ n <= n'
  | _ => j' = j
  end.

Lemma judge_from_more i pre rest q : length pre = i -> stays (judge_from i (pre ++ rest) rest) (judge_from i (pre ++ rest ++ q) (rest ++ q)) (zlen (pre ++ rest ++ q)).
Proof.
  revert i pre. induction rest as [|b rest IH]; intros i pre Hi.
  - simpl. rewrite app_nil_r. intros Hlt. rewrite zlen_app in Hlt. destruct q as [|x q]; [|unfold zlen in Hlt; simpl in Hlt; lia]. right. simpl. rewrite app_nil_r. eexists. split; [done|lia].
  - cbn [judge_from app]. rewrite !take_app_le, !(take_ge pre) by lia. destruct (b =? 32); [destruct (_ || _); [done|by destruct (bool_decide _)]|].
    destruct (_ || _); [done|]. specialize (IH (S i) (pre ++ [b])). rewrite <- !app_assoc in IH. apply IH. rewrite length_app. simpl. lia.
Qed.

Lemma judge_from_need i pre rest n : length pre = i -> (i <= MAX_METHOD)%nat -> judge_from i (pre ++ rest) rest = JNeedMore n -> n = zlen (pre ++ rest) + 1 /\ n <= MAX_PREFIX.
Proof.
  revert i pre. induction rest as [|b rest IH]; intros i pre Hi Hle.
  - intros [= <-]. split; [done|]. rewrite app_nil_r. unfold zlen, MAX_PREFIX, MAX_METHOD in *. lia.
  - cbn [judge_from]. destruct (b =? 32); [destruct (_ || _); [done|by destruct (bool_decide _)]|]. destruct (negb _ || _) eqn:Hfit; [done|]. apply orb_false_iff in Hfit as [_ Hm]. apply Nat.leb_gt in Hm.
    intros Hj. replace (pre ++ b :: rest) with ((pre ++ [b]) ++ rest) in * by (by rewrite <- app_assoc). apply (IH (S i) (pre ++ [b])); [rewrite length_app; simpl; lia|lia|done].
Qed.

Lemma judge_total p : bytes_ok p -> exists j, judge p = Some j.
Proof.
  intros Hp. unfold judge. destruct p as [|b p]; [by eexists|]. destruct (b =? 22); [|by eexists]. destruct (reassemble_spec (b :: p) MAX_PREFIX Hp) as (r & _ & ->). by eexists.
Qed.

Lemma judge_need p n : bytes_ok p -> judge p = Some (JNeedMore n) -> zlen p < n <= MAX_PREFIX.
Proof.
  intros Hp. unfold judge. destruct p as [|b p]; [intros [= <-]; unfold zlen, MAX_PREFIX; simpl; lia|]. destruct (b =? 22).
  - destruct (reassemble_spec (b :: p) MAX_PREFIX Hp) as (r & Hr & ->). cbn [mbind option_bind]. intros [= Hj]. pose proof (walk_bound _ _ _ _ _ _ (fine_start _ Hp) Hr) as Hb.
    destruct r as [h|m|]; simpl in Hj; try done. unfold need in Hj. destruct (m >? MAX_PREFIX) eqn:Hm; [done|]. injection Hj as <-. lia.
  - intros [= Hj]. unfold judge_http in Hj. destruct (judge_from_need 0 [] (b :: p) n eq_refl ltac:(unfold MAX_METHOD; lia) Hj) as [-> ?]. simpl in *. lia.
Qed.

Lemma judge_more p q j j' : bytes_ok (p ++ q) -> zlen (p ++ q) <= MAX_PREFIX -> judge p = Some j -> judge (p ++ q) = Some j' -> stays j j' (zlen (p ++ q)).
Proof.
  intros Hb Hlen Hj Hj'. pose proof (proj1 (Forall_app _ _ _) Hb) as [Hp Hq]. destruct p as [|b p].
  - injection Hj as <-. simpl in Hj'. intros Hlt. destruct q; [|rewrite app_nil_l, zlen_cons in Hlt; pose proof (zlen_nonneg q); lia]. injection Hj' as <-. right. eexists. split; [done|lia].
  - unfold judge in Hj, Hj'. cbn [app] in Hj'. destruct (b =? 22).
    + destruct (reassemble_spec (b :: p) MAX_PREFIX Hp) as (r & Hr & Hre). rewrite Hre in Hj. destruct (reassemble_spec ((b :: p) ++ q) MAX_PREFIX Hb) as (r' & Hr' & Hre'). cbn [app] in Hre'. rewrite Hre' in Hj'.
      pose proof (walk_more _ _ _ _ _ _ (fine_start _ Hp) Hr q _ _ Hq Hr') as Hs. cbn [mbind option_bind] in Hj, Hj'. injection Hj as <-. injection Hj' as <-.
      pose proof (walk_bound _ _ _ _ _ _ (fine_start _ Hb) Hr') as Hb'. destruct r as [h|n|]; simpl in Hs; [by subst r'| |by subst r']. simpl. unfold need. destruct (n >? MAX_PREFIX) eqn:Hn; simpl.
      * cbn [app] in Hlen. destruct (Hs ltac:(lia)) as [->|(n' & -> & Hn')]; [done|]. simpl. unfold need. by replace (n' >? MAX_PREFIX) with true by lia.
      * cbn [app]. intros Hlt. destruct (Hs Hlt) as [->|(n' & -> & Hn')]; [by left|]. simpl. unfold need. destruct (n' >? MAX_PREFIX); [by left|right; by exists n'].
    + injection Hj as <-. injection Hj' as <-. apply (judge_from_more 0 [] (b :: p) q eq_refl).
Qed.

(** *** While the bytes come *)

(** What [sniff] has told when [chunks] have come, one with every fill, and the
    judgement of all of them is [j]: a ClientHello and HTTP are told at once; what
    begins nothing is told too, or is still to be told because a judgement of fewer
    bytes asked for more than there are. *)
Definition told (chunks : list (list Z)) (j : Judged) (v : option Sniffed) : Prop :=
  match j with
  | JTls hello => v = Some (STls hello)
  | JHttp => v = Some SHttp
  | JNeedMore _ => v = None
  | JOther => v = Some SOther
      \/ v = None /\ exists d1 d2 n, chunks = d1 ++ d2 /\ judge (concat d1) = Some (JNeedMore n) /\ zlen (concat chunks) < n <= MAX_PREFIX
  end.

(** What becomes of an untold connection when no bytes come: nothing yet, a timeout, a
    failure, the end of the stream. *)
Definition no_bytes (later : list Fill) : Prop := match later with Bytes_ bytes :: _ => bytes = [] | _ => True end.

Definition cut_short (later : list Fill) : option Sniffed :=
  match later with [] => None | TimedOut :: _ => Some Timeout | Broke :: _ => Some Failed | Bytes_ _ :: _ => Some Closed end.

(** [sniff] on the fills behind those that brought [chunks]. *)
Definition goes_on (v : option Sniffed) (sniffed : list Fill -> option Sniffed) : Prop :=
  match v with Some s => forall later, sniffed later = Some s | None => forall later, no_bytes later -> sniffed later = cut_short later end.

Lemma bytes_concat chunks : bytes_ok (concat chunks) -> forall d1 d2, chunks = d1 ++ d2 -> bytes_ok (concat d1).
Proof. intros Hb d1 d2 ->. rewrite concat_app in Hb. by apply Forall_app in Hb as [? _]. Qed.

(** Nothing came, and the judgement waits for bytes. *)
Lemma untold done_ enough j : bytes_ok (concat done_) -> zlen (concat done_) <= MAX_PREFIX -> judge (concat done_) = Some j ->
  (exists d1 d2, done_ = d1 ++ d2 /\ judge (concat d1) = Some (JNeedMore enough)) -> zlen (concat done_) < enough -> told done_ j None.
Proof.
  intros Hb Hlen Hj (d1 & d2 & Hd & Hp) Hlt. pose proof (bytes_concat _ Hb _ _ Hd) as Hb1. pose proof (judge_need _ _ Hb1 Hp) as Hn.
  pose proof Hj as Hj'. pose proof Hb as Hb'. pose proof Hlen as Hlen'. rewrite Hd, concat_app in Hj', Hb', Hlen'. pose proof (judge_more _ _ _ _ Hb' Hlen' Hp Hj') as Hs. simpl in Hs. rewrite <- concat_app, <- Hd in Hs.
  destruct (Hs Hlt) as [->|(n' & -> & _)]; [|done]. right. split; [done|]. exists d1, d2, enough. split; [done|]. split; [done|lia].
Qed.

Lemma sniff_told chunks : forall done_ enough j, bytes_ok (concat (done_ ++ chunks)) -> zlen (concat (done_ ++ chunks)) <= MAX_PREFIX -> Forall (fun c => c <> []) chunks ->
  judge (concat (done_ ++ chunks)) = Some j -> (zlen (concat done_) < enough -> exists d1 d2, done_ = d1 ++ d2 /\ judge (concat d1) = Some (JNeedMore enough)) ->
  exists v, told (done_ ++ chunks) j v /\ goes_on v (fun later => sniff (map Bytes_ chunks ++ later) (concat done_) enough).
Proof.
  induction chunks as [|c chunks IH]; intros done_ enough j Hb Hlen Hne Hj Hen; pose proof (bytes_concat _ Hb _ _ eq_refl) as Hbd.
  - rewrite app_nil_r in *. destruct (Z.leb_spec enough (zlen (concat done_))) as [Hle|Hlt].
    + assert (Hwait : forall n, j = JNeedMore n -> goes_on None (fun later => sniff ([] ++ later) (concat done_) enough)).
      { intros n -> later Hno. destruct later as [|[b| |] later]; cbn [app sniff]; rewrite (proj2 (Z.leb_le _ _)), Hj by done; simpl; try done. simpl in Hno. by rewrite bool_decide_eq_true_2. }
      destruct j as [n|h| |]; [exists None; split; [done|by eapply Hwait]|exists (Some (STls h))|exists (Some SHttp)|exists (Some SOther)]; (split; [by (done || left)|]);
        intros [|[b| |] later]; cbn [map app sniff]; by rewrite (proj2 (Z.leb_le _ _)), Hj by done.
    + exists None. split; [by eapply untold; eauto|]. intros [|[b| |] later] Hno; cbn [map app sniff]; rewrite (proj2 (Z.leb_gt _ _)) by done; try done. simpl in Hno. by rewrite bool_decide_eq_true_2.
  - inversion Hne as [|? ? Hc Hne']; subst. rewrite (cons_middle c done_ chunks), app_assoc in *.
    assert (Hwait : forall n, zlen (concat done_) < n -> (exists d1 d2, done_ = d1 ++ d2 /\ judge (concat d1) = Some (JNeedMore n)) ->
      exists v, told ((done_ ++ [c]) ++ chunks) j v /\ goes_on v (fun later => sniff (map Bytes_ chunks ++ later) (concat done_ ++ c) n)).
    { intros n Hn (d1 & d2 & -> & Hp). destruct (IH ((d1 ++ d2) ++ [c]) n j Hb Hlen Hne' Hj) as (v & Hv & Hgo).
      - intros _. exists d1, (d2 ++ [c]). by rewrite app_assoc.
      - exists v. split; [done|]. rewrite (concat_app (d1 ++ d2)), (concat_cons c), app_nil_r in Hgo. exact Hgo. }
    cbn [map app sniff]. rewrite (bool_decide_eq_false_2 _ Hc). destruct (Z.leb_spec enough (zlen (concat done_))) as [Hle|Hlt]; [|by apply Hwait; auto].
    destruct (judge_total _ Hbd) as [jb Hjb]. rewrite Hjb. cbn [mbind option_bind]. rewrite <- app_assoc in Hb, Hlen, Hj. rewrite concat_app in Hb, Hlen, Hj. pose proof (judge_more _ _ _ _ Hb Hlen Hjb Hj) as Hs.
    destruct jb as [n|h| |]; simpl in Hs; [|subst j; eexists (Some _); split; [simpl; eauto|done]..].
    apply Hwait; [by apply judge_need in Hjb as [? _]|]. exists done_, []. by rewrite app_nil_r.
Qed.

(** C28: however the first bytes of a connection come, in pieces of any size up
    to the 64 KiB that are read, [sniff] says what [judge] says of all of them, and
    says it with the fill that decides: when the judgement of what has come is a
    ClientHello or HTTP it has told just that; when it waits for bytes, nothing;
    when it is something else it has told that, or tells it later: a judgement of an
    earlier fill asked for more bytes than there are yet, never beyond the 64 KiB.
    As [chunks] may end at any fill, this holds at each.  What has been told stands
    whatever comes later; while nothing has been told, the end of the stream, a
    timeout and a failure say so. *)
Theorem sniffing_is_judging chunks : bytes_ok (concat chunks) -> zlen (concat chunks) <= MAX_PREFIX -> Forall (fun c => c <> []) chunks ->
  exists j, judge (concat chunks) = Some j /\ let v := sniff (map Bytes_ chunks) [] 0 in
    told chunks j v
    /\ (forall s later, v = Some s -> sniff (map Bytes_ chunks ++ later) [] 0 = Some s)
    /\ (forall later, v = None -> no_bytes later -> sniff (map Bytes_ chunks ++ later) [] 0 = cut_short later).
Proof.
  intros Hb Hlen Hne. destruct (judge_total _ Hb) as [j Hj]. exists j. split; [done|].
  destruct (sniff_told chunks [] 0 j Hb Hlen Hne Hj) as (v & Hv & Hgo); [done|]. simpl app in Hv. simpl concat in Hgo.
  assert (Heq : sniff (map Bytes_ chunks) [] 0 = v) by (rewrite <- (app_nil_r (map _ _)); destruct v; apply (Hgo []); done).
  cbv zeta. rewrite Heq. split; [done|]. split; [intros s later ->; apply Hgo|intros later ->; apply Hgo].
Qed.

Definition slow_hello : list (list Z) := [[22; 3]; [1; 0; 2; 1]; [0; 22; 3; 1; 0; 3; 0]; [0; 7; 9]].

(** A message begun in one record and ended in the next: nothing is told until its
    last byte, and a peer that is done before is closed. *)
Lemma sniffing_is_judging_witness : bytes_ok (concat slow_hello) /\ sniff (map Bytes_ slow_hello) [] 0 = Some SOther
  /\ sniff (map Bytes_ (take 3 slow_hello) ++ [Bytes_ []]) [] 0 = Some Closed.
Proof.
  assert (Hb : bytes_ok (concat slow_hello)) by (apply bytes_okb_spec; reflexivity). split; [exact Hb|].
  destruct (sniffing_is_judging slow_hello) as (j & Hj & Ht & _); [exact Hb|vm_compute; discriminate|repeat constructor; discriminate|].
  destruct (sniffing_is_judging (take 3 slow_hello)) as (j' & Hj' & Ht' & _ & Hc); [apply bytes_okb_spec; reflexivity|vm_compute; discriminate|repeat constructor; discriminate|].
  split; [vm_compute; reflexivity|]. apply (Hc [Bytes_ []]); [vm_compute; reflexivity|reflexivity].
Defined.
