(* ===== verification/TlsReads.v ===== *)
(** * A ClientHello is read back

    Of [TlsHello.v]: a ClientHello as RFC 8446 writes it, sent in TLS records cut
    anywhere, is judged to be that ClientHello, with its first host name and its
    protocols. *)

From S2P Require Import Prelude Bytes TlsHello TlsJudge.

(** ** How it is written *)

Definition be24 (v : Z) : list Z := [v / 65536 mod 256; v / 256 mod 256; v mod 256].

(** Bytes after their length, in one, two or three bytes. *)
Definition vec8 (b : list Z) : list Z := zlen b :: b.
Definition vec16 (b : list Z) : list Z := be16 (zlen b) ++ b.
Definition vec24 (b : list Z) : list Z := be24 (zlen b) ++ b.

(** An extension: server names with their types, protocols, or another. *)
Inductive Ext := ServerName (names : list (Z * list Z)) | Alpn (protocols : list (list Z)) | OtherExt (kind : Z) (body : list Z).

Definition ext_kind (e : Ext) : Z := match e with ServerName _ => 0 | Alpn _ => 16 | OtherExt kind _ => kind end.
Definition write_name (n : Z * list Z) : list Z := n.1 :: vec16 n.2.
Definition ext_body (e : Ext) : list Z :=
  match e with
  | ServerName names => vec16 (concat (map write_name names))
  | Alpn protocols => vec16 (concat (map vec8 protocols))
  | OtherExt _ body => body
  end.
Definition write_ext (e : Ext) : list Z := be16 (ext_kind e) ++ vec16 (ext_body e).

Record Written := mkWritten {
  version : list Z;
  random : list Z;
  session : list Z;
  suites : list Z;
  compression : list Z;
  extensions : option (list Ext);
}.

Definition write_body (w : Written) : list Z :=
  version w ++ random w ++ vec8 (session w) ++ vec16 (suites w) ++ vec8 (compression w)
  ++ match extensions w with Some es => vec16 (concat (map write_ext es)) | None => [] end.
Definition write_hello (w : Written) : list Z := CLIENT_HELLO :: vec24 (write_body w).

(** What is read of it. *)
Definition host_of (names : list (Z * list Z)) : option rstr :=
  n ← snd <$> head (List.filter (fun n => n.1 =? 0) names);
  if bool_decide (n = []) || negb (forallb (fun b => b <? 128) n) then None else Some (to_ascii_lowercase n).

Definition first_server_name (es : list Ext) : option rstr :=
  e ← head (List.filter (fun e => match e with ServerName _ => true | _ => false end) es);
  match e with ServerName names => host_of names | _ => None end.
Definition first_alpn (es : list Ext) : list (list Z) :=
  match head (List.filter (fun e => match e with Alpn _ => true | _ => false end) es) with Some (Alpn protocols) => protocols | _ => [] end.

Definition hello_of (w : Written) : ClientHello :=
  match extensions w with Some es => mkHello (first_server_name es) (first_alpn es) | None => mkHello None [] end.

(** What makes it well formed: bytes, and lengths within their fields. *)
Definition fits (max : Z) (b : list Z) : Prop := bytes_ok b /\ zlen b <= max.
Definition name_ok (n : Z * list Z) : Prop := is_byte n.1 /\ fits 65535 n.2.
Definition ext_ok (e : Ext) : Prop :=
  zlen (ext_body e) <= 65535 /\
  match e with
  | ServerName names => Forall name_ok names /\ zlen (concat (map write_name names)) <= 65535
  | Alpn protocols => Forall (fun p => p <> [] /\ fits 255 p) protocols /\ zlen (concat (map vec8 protocols)) <= 65535
  | OtherExt kind body => kind <> 0 /\ kind <> 16 /\ 0 <= kind <= 65535 /\ bytes_ok body
  end.
Record written_ok (w : Written) : Prop := {
  ok_version : fits 2 (version w) /\ zlen (version w) = 2;
  ok_random : fits 32 (random w) /\ zlen (random w) = 32;
  ok_session : fits 32 (session w);
  ok_suites : fits 65535 (suites w) /\ 2 <= zlen (suites w) /\ zlen (suites w) mod 2 = 0;
  ok_compression : fits 255 (compression w) /\ 1 <= zlen (compression w);
  ok_extensions : forall es, extensions w = Some es -> Forall ext_ok es /\ zlen (concat (map write_ext es)) <= 65535;
}.

(** ** Reading what was written *)

Lemma take_read b rest : take_ (zlen b) (b ++ rest) = Some (b, rest).
Proof.
  unfold take_. rewrite (proj2 (Z.leb_le _ _)) by (rewrite zlen_app; pose proof (zlen_nonneg rest); lia).
  replace (Z.to_nat (zlen b)) with (length b) by (unfold zlen; lia). by rewrite take_app_length, drop_app_length.
Qed.

Lemma u16_read v rest : 0 <= v <= 65535 -> u16 (be16 v ++ rest) = Some (v, rest).
Proof.
  intros Hv. unfold u16. replace 2 with (zlen (be16 v)) by apply be16_len. rewrite take_read. cbn [mbind option_bind]. unfold be16. by rewrite of_be16_be.
Qed.

Lemma u24_of_be v : 0 <= v < 2 ^ 24 -> u24_of (v / 65536 mod 256) (v / 256 mod 256) (v mod 256) = v.
Proof.
  intros Hv. unfold u24_of. rewrite <- Z.lor_assoc. rewrite (lor_shiftl_add (v / 256 mod 256) _ 8) by (pose proof (Z.mod_pos_bound v 256); lia).
  assert (H1 : 0 <= v mod 256 < 256) by (apply Z.mod_pos_bound; lia). assert (H2 : 0 <= v / 256 mod 256 < 256) by (apply Z.mod_pos_bound; lia).
  rewrite lor_shiftl_add by lia. pose proof (Z.div_mod v 256 ltac:(lia)). pose proof (Z.div_mod (v / 256) 256 ltac:(lia)). rewrite Z.div_div in * by lia. change (256 * 256) with 65536 in *.
  rewrite (Z.mod_small (v / 65536) 256); [lia|]. split; [apply Z.div_pos; lia|]. apply Z.div_lt_upper_bound; lia.
Qed.

Lemma u24_read v rest : 0 <= v < 2 ^ 24 -> u24 (be24 v ++ rest) = Some (v, rest).
Proof. intros Hv. unfold u24. change 3 with (zlen (be24 v)). rewrite take_read. cbn [mbind option_bind]. unfold be24. by rewrite u24_of_be. Qed.

Lemma vec16_read b rest : zlen b <= 65535 -> ('(n, r) ← u16 (vec16 b ++ rest); take_ n r) = Some (b, rest).
Proof. intros Hb. unfold vec16. rewrite <- app_assoc, u16_read by (pose proof (zlen_nonneg b); lia). cbn [mbind option_bind]. apply take_read. Qed.

(** The names of a list: the first of type 0, unless one was seen. *)
Lemma name_step fuel kind b rest name seen : zlen b <= 65535 -> first_name (S fuel) (write_name (kind, b) ++ rest) name seen =
  if (kind =? 0) && negb seen then first_name fuel rest (Some b) true else first_name fuel rest name seen.
Proof.
  intros Hb. unfold write_name. cbn [fst snd app first_name u8 mbind option_bind]. unfold vec16. rewrite <- app_assoc, u16_read by (pose proof (zlen_nonneg b); lia). cbn [mbind option_bind].
  rewrite take_read. done.
Qed.

Lemma first_name_read names : forall fuel name seen, Forall name_ok names -> (length names <= fuel)%nat ->
  first_name fuel (concat (map write_name names)) name seen = Some (if seen then name else match head (List.filter (fun n => n.1 =? 0) names) with Some n => Some n.2 | None => name end).
Proof.
  induction names as [|[kind n] names IH]; intros fuel name seen Hok Hf; [by destruct fuel, seen|]. apply Forall_cons in Hok as [(Hk & Hb & Hn) Hok]. simpl in Hn.
  destruct fuel as [|fuel]; [simpl in Hf; lia|]. cbn [map concat length] in *. rewrite name_step by done. cbn [List.filter fst]. destruct (kind =? 0), seen; simpl; by rewrite IH by (done || lia).
Qed.

Lemma entries_length {A} (f : A -> list Z) l : (forall x, f x <> []) -> (length l <= length (concat (map f l)))%nat.
Proof. intros Hf. induction l as [|x l IH]; simpl; [lia|]. rewrite length_app. specialize (Hf x). destruct (f x); simpl; [done|lia]. Qed.

Lemma utf8_ascii n : forallb (fun b => b <? 128) n = true -> bytes_ok n -> utf8_decode n = Some n.
Proof.
  intros Hn Hb. apply utf8_decode_ascii. apply Forall_forall. intros x Hx. rewrite forallb_forall in Hn. unfold bytes_ok in Hb. rewrite Forall_forall in Hb.
  specialize (Hn x (proj1 (list_elem_of_In _ _) Hx)). specialize (Hb x Hx). unfold is_byte, is_ascii in *. lia.
Qed.

Lemma server_name_read names : Forall name_ok names -> zlen (concat (map write_name names)) <= 65535 -> read_server_name (ext_body (ServerName names)) = Some (host_of names).
Proof.
  intros Hok Hlen. unfold read_server_name, ext_body. pose proof (vec16_read (concat (map write_name names)) [] Hlen) as Hr. rewrite app_nil_r in Hr.
  destruct (u16 _) as [[v rest]|]; [|done]. cbn [mbind option_bind] in *. rewrite Hr. cbn [mbind option_bind]. rewrite bool_decide_eq_true_2 by done. cbn [negb].
  rewrite first_name_read; [|done|by apply entries_length]. cbn [mbind option_bind]. unfold host_of.
  destruct (head (List.filter (fun n => n.1 =? 0) names)) as [[k n]|] eqn:Hh; [|done]. cbn [fmap option_fmap option_map snd mbind option_bind].
  destruct (bool_decide (n = []) || negb (forallb (fun b => b <? 128) n)) eqn:Hc; [done|]. apply orb_false_iff in Hc as [_ Hc]. apply negb_false_iff in Hc.
  rewrite utf8_ascii; [done|done|]. assert (Hin : (k, n) ∈ names).
  { apply list_elem_of_In. eapply proj1, filter_In. destruct (List.filter _ names) as [|y ys] eqn:E; [done|]. injection Hh as ->. rewrite E. by left. }
  rewrite Forall_forall in Hok. apply (Hok _ Hin).
Qed.

Lemma protocols_read ps : forall fuel acc, Forall (fun p => p <> [] /\ fits 255 p) ps -> (length ps <= fuel)%nat -> protocols fuel (concat (map vec8 ps)) acc = Some (acc ++ ps).
Proof.
  induction ps as [|p ps IH]; intros fuel acc Hok Hf; [destruct fuel; simpl; by rewrite app_nil_r|]. apply Forall_cons in Hok as [(Hp & _ & Hlen) Hok].
  destruct fuel as [|fuel]; [simpl in Hf; lia|]. cbn [map concat length] in *. unfold vec8 at 1. cbn [app protocols u8 mbind option_bind].
  destruct (Z.eqb_spec (zlen p) 0) as [H0|_]; [destruct p; [done|]; unfold zlen in H0; simpl in H0; lia|]. rewrite take_read. cbn [mbind option_bind]. rewrite IH by (done || lia). by rewrite <- app_assoc.
Qed.

Lemma alpn_read ps : Forall (fun p => p <> [] /\ fits 255 p) ps -> zlen (concat (map vec8 ps)) <= 65535 -> read_alpn (ext_body (Alpn ps)) = Some ps.
Proof.
  intros Hok Hlen. unfold read_alpn, ext_body. pose proof (vec16_read (concat (map vec8 ps)) [] Hlen) as Hr. rewrite app_nil_r in Hr.
  destruct (u16 _) as [[v rest]|]; [|done]. cbn [mbind option_bind] in *. rewrite Hr. cbn [mbind option_bind]. rewrite bool_decide_eq_true_2 by done. cbn [negb].
  by rewrite protocols_read; [|done|by apply entries_length].
Qed.

(** ** The extensions *)

Lemma ext_step fuel e rest sn al hello : zlen (ext_body e) <= 65535 -> 0 <= ext_kind e <= 65535 -> read_extensions (S fuel) (write_ext e ++ rest) sn al hello =
  if (ext_kind e =? EXT_SERVER_NAME) && negb sn then name ← read_server_name (ext_body e); read_extensions fuel rest true al (mkHello name (alpn hello))
  else if (ext_kind e =? EXT_ALPN) && negb al then names ← read_alpn (ext_body e); read_extensions fuel rest sn true (mkHello (sni hello) names)
  else read_extensions fuel rest sn al hello.
Proof.
  intros Hb Hk. unfold write_ext. rewrite <- app_assoc. cbn [read_extensions]. destruct (be16 (ext_kind e) ++ vec16 (ext_body e) ++ rest) eqn:E; [by unfold be16 in E|]. rewrite <- E. clear E.
  rewrite u16_read by done. cbn [mbind option_bind]. unfold vec16. rewrite <- app_assoc, u16_read by (pose proof (zlen_nonneg (ext_body e)); lia). cbn [mbind option_bind].
  by rewrite take_read.
Qed.

Lemma ext_kind_range e : ext_ok e -> 0 <= ext_kind e <= 65535.
Proof. intros [_ H]. destruct e; simpl; [lia|lia|naive_solver]. Qed.

Lemma extensions_read es : forall fuel sn al hello, Forall ext_ok es -> (length es <= fuel)%nat ->
  read_extensions fuel (concat (map write_ext es)) sn al hello =
  Some (mkHello (if sn then sni hello else match head (List.filter (fun e => match e with ServerName _ => true | _ => false end) es) with Some _ => first_server_name es | None => sni hello end)
                (if al then alpn hello else match head (List.filter (fun e => match e with Alpn _ => true | _ => false end) es) with Some _ => first_alpn es | None => alpn hello end)).
Proof.
  induction es as [|e es IH]; intros fuel sn al hello Hok Hf; [destruct fuel, sn, al, hello; done|]. apply Forall_cons in Hok as [He Hok].
  destruct fuel as [|fuel]; [simpl in Hf; lia|]. cbn [map concat length] in *. rewrite ext_step by (apply He || by apply ext_kind_range). destruct He as [_ He].
  destruct e as [names|ps|kind body]; cbn [ext_kind].
  - change (0 =? EXT_SERVER_NAME) with true. change (0 =? EXT_ALPN) with false. cbn [andb]. destruct sn; cbn [negb]; [rewrite IH by (done || lia); done|].
    rewrite server_name_read by apply He. cbn [mbind option_bind]. rewrite IH by (done || lia). done.
  - change (16 =? EXT_SERVER_NAME) with false. change (16 =? EXT_ALPN) with true. cbn [andb]. destruct al; cbn [negb]; [rewrite IH by (done || lia); done|].
    rewrite alpn_read by apply He. cbn [mbind option_bind]. rewrite IH by (done || lia). done.
  - destruct He as (H0 & H16 & _). unfold EXT_SERVER_NAME, EXT_ALPN. rewrite !(proj2 (Z.eqb_neq _ _)) by done. cbn [andb]. by rewrite IH by (done || lia).
Qed.

(** ** The message *)

Lemma hello_read w : written_ok w -> parse_client_hello (write_hello w) = Some (hello_of w) /\ 4 <= zlen (write_hello w) /\ wanted (write_hello w) = zlen (write_hello w).
Proof.
  intros [[_ Hv] [_ Hr] [_ Hs] ([_ Hsu] & Hsu2 & Hsum) ([_ Hc] & Hc1) He]. set (body := write_body w).
  assert (Hbody : 0 <= zlen body < 2 ^ 24).
  { split; [apply zlen_nonneg|]. unfold body, write_body, vec8, vec16. repeat rewrite ?zlen_app, ?zlen_cons, ?be16_len. rewrite Hv, Hr.
    destruct (extensions w) as [es|]; [repeat rewrite ?zlen_app, ?be16_len; specialize (He es eq_refl) as [_ He]; lia|change (zlen (@nil Z)) with 0; lia]. }
  assert (Hlen : zlen (write_hello w) = zlen body + 4).
  { unfold write_hello, vec24. fold body. rewrite zlen_cons, zlen_app. change (zlen (be24 (zlen body))) with 3. lia. }
  split; [|split; [lia|rewrite Hlen; unfold wanted, write_hello, vec24, be24; cbn [app]; fold body; rewrite u24_of_be by done; unfold HANDSHAKE_HEADER; lia]].
  unfold parse_client_hello. rewrite Hlen. unfold write_hello, vec24. fold body. cbn [u8 mbind option_bind]. change (negb (CLIENT_HELLO =? CLIENT_HELLO)) with false. cbv iota.
  rewrite u24_read by done. cbn [mbind option_bind]. unfold HANDSHAKE_HEADER. rewrite Z.eqb_refl. cbn [negb]. pose proof (take_read body []) as Ht. rewrite app_nil_r in Ht. rewrite Ht. cbn [mbind option_bind].
  unfold read_client_hello, body, write_body. rewrite <- Hv at 1. rewrite take_read. cbn [mbind option_bind]. rewrite <- Hr at 1. rewrite take_read. cbn [mbind option_bind].
  unfold vec8. cbn [app u8 mbind option_bind]. unfold MAX_SESSION_ID. replace (zlen (session w) >? 32) with false by lia. rewrite take_read. cbn [mbind option_bind].
  unfold vec16 at 1. rewrite <- app_assoc, u16_read by lia. cbn [mbind option_bind]. replace ((zlen (suites w) <? 2) || negb (zlen (suites w) mod 2 =? 0)) with false by (rewrite Hsum; lia).
  rewrite take_read. cbn [mbind option_bind app u8]. replace (zlen (compression w) <? 1) with false by lia. rewrite take_read. cbn [mbind option_bind]. unfold hello_of.
  destruct (extensions w) as [es|]; [|done]. destruct (He es eq_refl) as [Hok Hel]. destruct (vec16 (concat (map write_ext es))) as [|b r] eqn:E; [by unfold vec16, be16 in E|]. rewrite <- E. clear E.
  pose proof (vec16_read (concat (map write_ext es)) [] Hel) as Hx. rewrite app_nil_r in Hx. destruct (u16 _) as [[v rest]|]; [|done]. cbn [mbind option_bind] in *. rewrite Hx. cbn [mbind option_bind].
  rewrite bool_decide_eq_true_2 by done. cbn [negb]. rewrite extensions_read; [|done|by apply entries_length]. cbn [sni alpn]. unfold first_server_name, first_alpn.
  do 2 f_equal; by destruct (head (List.filter _ es)).
Qed.

(** ** The records *)

(** A handshake record of a version. *)
Definition write_record (r : Z * list Z) : list Z := HANDSHAKE_RECORD :: 3 :: r.1 :: vec16 r.2.
Definition record_ok (r : Z * list Z) : Prop := 0 <= r.1 <= 4 /\ 1 <= zlen r.2 <= MAX_RECORD.

Section Records.
Context (limit : Z) (m more : list Z) (Hwant : wanted m = zlen m) (Hfour : 4 <= zlen m) (Hfirst : head m = Some CLIENT_HELLO) (Hlim : zlen m <= limit).

Lemma look_part hs rest : hs ++ rest = m ++ more ->
  look limit hs = if zlen m <=? zlen hs then Some (match parse_client_hello m with Some h => Hello h | None => Other end) else None.
Proof.
  intros Heq. destruct (Z.lt_ge_cases (zlen hs) 4) as [Hs|Hs]; [rewrite look_short by done; by rewrite (proj2 (Z.leb_gt _ _)) by lia|]. rewrite look_long by done.
  assert (Hw : wanted hs = zlen m) by (by rewrite <- (wanted_fixed hs rest), Heq, wanted_fixed by done).
  assert (Hh : head hs = Some CLIENT_HELLO).
  { destruct hs as [|x hs]; [unfold zlen in Hs; simpl in Hs; lia|]. destruct m as [|y m']; [done|]. injection Heq as -> _. exact Hfirst. }
  rewrite Hh, Hw. cbn [default]. change (negb (CLIENT_HELLO =? CLIENT_HELLO)) with false. cbv iota. replace (zlen m >? limit) with false by lia. destruct (Z.leb_spec (zlen m) (zlen hs)) as [Hle|]; [|done].
  replace (take (Z.to_nat (zlen m)) hs) with m; [done|]. transitivity (take (Z.to_nat (zlen m)) (hs ++ rest)); [|apply take_app_le; unfold zlen in *; lia].
  rewrite Heq. replace (Z.to_nat (zlen m)) with (length m) by (unfold zlen; lia). by rewrite take_app_length.
Qed.

Lemma turn_record pre r rest hs : record_ok r -> turn NeedMore limit (pre ++ write_record r ++ rest) (zlen pre) hs =
  match look limit (hs ++ r.2) with Some s => inl s | None => inr (zlen (pre ++ write_record r), hs ++ r.2) end.
Proof.
  intros [Hv Hl]. unfold turn. pose proof (zlen_nonneg rest). pose proof (zlen_nonneg pre).
  assert (Hrec : zlen (write_record r) = 5 + zlen r.2) by (unfold write_record, vec16; rewrite !zlen_cons, zlen_app, be16_len; lia).
  rewrite (proj2 (Z.ltb_ge _ _)) by (rewrite !zlen_app; lia). cbv zeta. replace (Z.to_nat (zlen pre)) with (length pre) by (unfold zlen; lia). rewrite drop_app_length.
  unfold write_record at 1, vec16, be16. cbn [app]. unfold record_len. rewrite of_be16_be by (unfold MAX_RECORD, u16_max in *; lia).
  change (negb (HANDSHAKE_RECORD =? HANDSHAKE_RECORD) || negb (3 =? 3)) with false. replace (r.1 >? 4) with false by lia. replace (negb ((1 <=? zlen r.2) && (zlen r.2 <=? MAX_RECORD))) with false by lia. cbn [orb].
  rewrite Z.min_l by (rewrite zlen_app; lia). replace (Z.to_nat (zlen r.2)) with (length r.2) by (unfold zlen; lia). rewrite take_app_length. destruct (look limit (hs ++ r.2)); [done|].
  rewrite (proj2 (Z.ltb_ge _ _)) by (rewrite !zlen_app; lia). do 2 f_equal. rewrite zlen_app. lia.
Qed.

Lemma records_read rs : forall fuel pre rest hs, Forall record_ok rs -> (length rs <= fuel)%nat -> hs ++ concat (map snd rs) = m ++ more -> zlen hs < zlen m ->
  walk NeedMore limit fuel (pre ++ concat (map write_record rs) ++ rest) (zlen pre) hs = Some (match parse_client_hello m with Some h => Hello h | None => Other end).
Proof.
  induction rs as [|r rs IH]; intros fuel pre rest hs Hok Hf Heq Hlt.
  - exfalso. simpl in Heq. rewrite app_nil_r in Heq. rewrite Heq, zlen_app in Hlt. pose proof (zlen_nonneg more). lia.
  - apply Forall_cons in Hok as [Hr Hok]. destruct fuel as [|fuel]; [simpl in Hf; lia|]. cbn [map concat length walk] in *. rewrite <- app_assoc, turn_record by done.
    rewrite app_assoc in Heq. rewrite (look_part _ _ Heq). destruct (Z.leb_spec (zlen m) (zlen (hs ++ r.2))); [done|].
    rewrite app_assoc. apply IH; [done|lia|done|done].
Qed.
End Records.

Lemma records_length rs : Forall record_ok rs -> (length rs <= length (concat (map write_record rs)))%nat.
Proof. intros _. by apply entries_length. Qed.

Lemma hello_in_records w rs more rest limit : written_ok w -> zlen (write_hello w) <= limit -> Forall record_ok rs -> concat (map snd rs) = write_hello w ++ more ->
  walk NeedMore limit (length (concat (map write_record rs) ++ rest)) (concat (map write_record rs) ++ rest) 0 [] = Some (Hello (hello_of w)).
Proof.
  intros Hw Hlim Hok Heq. destruct (hello_read w Hw) as (Hp & H4 & Hwant).
  rewrite (records_read limit (write_hello w) more Hwant H4 eq_refl Hlim rs _ [] rest []); [by rewrite Hp|done| |done|unfold zlen in *; simpl in *; lia].
  pose proof (records_length rs Hok). rewrite length_app. lia.
Qed.

Lemma judge_records w rs more rest : written_ok w -> zlen (write_hello w) <= MAX_PREFIX -> Forall record_ok rs -> concat (map snd rs) = write_hello w ++ more ->
  judge (concat (map write_record rs) ++ rest) = Some (JTls (hello_of w)).
Proof.
  intros Hw Hlim Hok Heq. pose proof (hello_in_records w rs more rest MAX_PREFIX Hw Hlim Hok Heq) as Hwalk. destruct rs as [|r rs]; [done|].
  unfold judge. destruct (concat (map write_record (r :: rs)) ++ rest) as [|b l] eqn:E; [done|]. assert (b = 22) as -> by (by injection E as <- _). cbn [Z.eqb Pos.eqb].
  unfold reassemble. rewrite walk_need, Hwalk. done.
Qed.

(** A ClientHello sent is the ClientHello read: written as RFC 8446 has it,
    with any extensions in any order, cut into handshake records anywhere —
    inside its header too — and followed by anything, it is judged to be TLS with
    its first host name, lowercased, and its protocols; and [sniff] says so
    however the bytes come. *)
Theorem hello_reads_back w rs more rest chunks : written_ok w -> zlen (write_hello w) <= MAX_PREFIX -> Forall record_ok rs -> concat (map snd rs) = write_hello w ++ more ->
  concat chunks = concat (map write_record rs) ++ rest -> bytes_ok (concat chunks) -> zlen (concat chunks) <= MAX_PREFIX -> Forall (fun c => c <> []) chunks ->
  judge (concat chunks) = Some (JTls (hello_of w)) /\ sniff (map Bytes_ chunks ++ [Bytes_ []]) [] 0 = Some (STls (hello_of w)).
Proof.
  intros Hw Hlim Hok Heq Hcat Hb Hlen Hne. assert (Hj : judge (concat chunks) = Some (JTls (hello_of w))) by (rewrite Hcat; by eapply judge_records). split; [done|].
  destruct (sniff_told chunks [] 0 _ Hb Hlen Hne Hj) as (v & Hv & Hgo); [done|]. simpl concat in Hgo. destruct v as [s|]; [|done]. injection Hv as <-. apply (Hgo [Bytes_ []]).
Qed.

Definition a_hello : Written := mkWritten [3; 3] (replicate 32 7) [1; 2] [19; 1; 19; 2] [0]
  (Some [OtherExt 10 [0; 2; 0; 29]; ServerName [(0, [69; 120; 46; 99; 111; 109])]; Alpn [[104; 50]; [104; 116; 116; 112]]]).

Lemma hello_reads_back_witness (rs := [(1, take 3 (write_hello a_hello)); (3, drop 3 (write_hello a_hello))]) (all := concat (map write_record rs) ++ [1; 2; 3])
  (chunks := [take 2 all; take 40 (drop 2 all); drop 42 all]) :
  judge (concat chunks) = Some (JTls (hello_of a_hello)) /\ sniff (map Bytes_ chunks ++ [Bytes_ []]) [] 0 = Some (STls (hello_of a_hello)).
Proof.
  apply (hello_reads_back a_hello rs [] [1; 2; 3] chunks).
  - assert (Hb : forall l, bytes_okb l = true -> bytes_ok l) by (intros l; apply bytes_okb_spec).
    split; [..|intros es [= <-]]; repeat first [apply conj | apply Hb; reflexivity | discriminate | reflexivity | constructor].
  - vm_compute. discriminate.
  - repeat constructor; vm_compute; discriminate.
  - vm_compute. reflexivity.
  - vm_compute. reflexivity.
  - apply bytes_okb_spec. vm_compute. reflexivity.
  - vm_compute. discriminate.
  - repeat constructor; vm_compute; discriminate.
Defined.

Example a_hello_says : hello_of a_hello = mkHello (Some (lit "ex.com")) [lit "h2"; lit "http"].
Proof. vm_compute. reflexivity. Qed.
