(* ===== verification/Requirement.v ===== *)
(** * Requirement expressions

    [crates/rurge-config/src/requirement.rs]: the tokens, the parser and the
    meaning of the expression that decides whether a line of a profile holds on
    this machine, and where a line carries one.  What is alphabetic outside ASCII
    is Unicode's ([Letters]), regular expressions are fancy_regex's.  The position
    in the tokens is what is left of them.  An outer [None] is fuel that is not
    enough, which never happens ([Requirement] is total: [RequirementProps.v]). *)

From S2P Require Import Prelude Glob RuleMatcher.

(** [char::is_alphabetic] and [char::is_alphanumeric]. *)
Class Letters := { is_alphabetic : Z -> bool; is_alphanumeric : Z -> bool }.

(** What Unicode says of ASCII. *)
Class LetterLaws `{Letters} := {
  ascii_alphabetic c : 0 <= c < 128 -> is_alphabetic c = is_upper c || is_lower c;
  ascii_alphanumeric c : 0 <= c < 128 -> is_alphanumeric c = is_upper c || is_lower c || is_digit c;
}.

Definition upper_char (c : Z) : Z := if is_lower c then c - 32 else c.
Definition to_ascii_uppercase (s : rstr) : rstr := map upper_char s.
Definition eq_ignore_ascii_case (s t : rstr) : bool := bool_decide (to_ascii_lowercase s = to_ascii_lowercase t).

Inductive ReqError :=
| UnterminatedString | BadNumber (n : rstr) | UnexpectedChar (c : Z) | ExpectedParen | UnknownVariable (name : rstr) | UnexpectedOperator (op : rstr)
| ExpectedValue | UnknownOperator (op : rstr) | ExpectedString | ExpectedOperator (name : rstr) | UnexpectedToken | UnexpectedEnd | EmptyExpression | TrailingTokens
| UnterminatedQuoted | MissingExpression.

Record Environment := mkEnv { core_version : Z; system : rstr; system_version : rstr; device_model : rstr; language : rstr; device_name : rstr }.

Inductive Var := CoreVersion | System | SystemVersion | DeviceModel | Language | DeviceName.
Inductive Value := Int (n : Z) | Str (s : rstr).
Inductive CmpOp := Eq | Ne | Gt | Ge | Lt | Le.
Inductive StrOp := BeginsWith | Contains | EndsWith | Like | Matches.
Inductive Expr := ECmp (v : Var) (op : CmpOp) (x : Value) | EStr (v : Var) (op : StrOp) (s : rstr) | And (a b : Expr) | Or (a b : Expr) | Not (a : Expr).

Definition var_parse (ident : rstr) : option Var :=
  let u := to_ascii_uppercase ident in
  if bool_decide (u = lit "CORE_VERSION") then Some CoreVersion
  else if bool_decide (u = lit "SYSTEM") then Some System
  else if bool_decide (u = lit "SYSTEM_VERSION") then Some SystemVersion
  else if bool_decide (u = lit "DEVICE_MODEL") then Some DeviceModel
  else if bool_decide (u = lit "LANGUAGE") then Some Language
  else if bool_decide (u = lit "DEVICE_NAME") then Some DeviceName
  else None.

(** [u64 as i64] wraps. *)
Definition as_i64 (n : Z) : Z := (n + 2 ^ 63) mod 2 ^ 64 - 2 ^ 63.

Definition var_value (v : Var) (env : Environment) : Value :=
  match v with
  | CoreVersion => Int (as_i64 (core_version env))
  | System => Str (system env)
  | SystemVersion => Str (system_version env)
  | DeviceModel => Str (device_model env)
  | Language => Str (language env)
  | DeviceName => Str (device_name env)
  end.

(** ** Tokens *)

Inductive Tok := TIdent (s : rstr) | TNum (n : Z) | TStr (s : rstr) | TOp (op : rstr) | LParen | RParen.

#[export] Instance Tok_eq_dec : EqDecision Tok.
Proof. solve_decision. Defined.

Definition OPS : list rstr := map lit ["=="; "!="; "<>"; ">="; "=>"; "<="; "=<"; "&&"; "||"; "="; ">"; "<"; "!"]%string.

Definition i64_max : Z := 9223372036854775807.

(** [str::parse::<i64>]. *)
Definition parse_i64 (s : rstr) : option Z :=
  let digits (s : rstr) := if bool_decide (s = []) || negb (forallb is_digit s) then None else Some (digits_value s) in
  n ← match s with
    | [] => None
    | c :: rest => if c =? 45 then Z.opp <$> digits rest else if c =? 43 then digits rest else digits s
    end;
  if (- i64_max - 1 <=? n) && (n <=? i64_max) then Some n else None.

Fixpoint take_while {A} (p : A -> bool) (l : list A) : list A :=
  match l with [] => [] | x :: l => if p x then x :: take_while p l else [] end.

Definition is_quote (c : Z) : bool := (c =? 39) || (c =? 34).

Section Parse.
Context {L : Letters}.

Definition starts_ident (c : Z) : bool := is_alphabetic c || (c =? 95).
Definition in_ident (c : Z) : bool := is_alphanumeric c || (c =? 95).

(** The token at the start of some text that is not white space, and the text
    after it. *)
Definition next_tok (c : Z) (rest : rstr) : res ReqError (Tok * rstr) :=
  if c =? 40 then Ok (LParen, rest)
  else if c =? 41 then Ok (RParen, rest)
  else if is_quote c then
    match drop_while (fun x => negb (x =? c)) rest with
    | [] => Err UnterminatedString
    | _ :: after => Ok (TStr (take_while (fun x => negb (x =? c)) rest), after)
    end
  else if is_digit c then
    let n := c :: take_while is_digit rest in
    match parse_i64 n with Some v => Ok (TNum v, drop_while is_digit rest) | None => Err (BadNumber n) end
  else if starts_ident c then Ok (TIdent (c :: take_while in_ident rest), drop_while in_ident rest)
  else match List.find (fun op => starts_with (take 2 (c :: rest)) op) OPS with
    | Some op => Ok (TOp op, drop (length op) (c :: rest))
    | None => Err (UnexpectedChar c)
    end.

Fixpoint tokenize_from (fuel : nat) (src : rstr) (toks : list Tok) : option (res ReqError (list Tok)) :=
  match src with
  | [] => Some (Ok toks)
  | c :: rest =>
      match fuel with
      | 0%nat => None
      | S fuel =>
          if is_whitespace c then tokenize_from fuel rest toks
          else match next_tok c rest with
            | Ok (tok, rest) => tokenize_from fuel rest (toks ++ [tok])
            | Err e => Some (Err e)
            end
      end
  end.

Definition tokenize (src : rstr) : option (res ReqError (list Tok)) := tokenize_from (length src) src [].

(** ** The parser *)

(** What a parser leaves: an error, or an expression and the tokens left. *)
Definition Parsed : Type := option (res ReqError (Expr * list Tok)).

Definition then_ (p : Parsed) (k : Expr -> list Tok -> Parsed) : Parsed :=
  match p with Some (Ok (e, toks)) => k e toks | p => p end.

Definition is_op (op : string) (t : Tok) : bool := bool_decide (t = TOp (lit op)).
Definition is_keyword (kw : string) (t : Tok) : bool := match t with TIdent i => eq_ignore_ascii_case i (lit kw) | _ => false end.

Section Levels.
Context (primary : list Tok -> Parsed).

Fixpoint not_ (toks : list Tok) : Parsed :=
  match toks with
  | t :: rest => if is_op "!" t || is_keyword "NOT" t then then_ (not_ rest) (fun e toks => Some (Ok (Not e, toks))) else primary toks
  | [] => primary toks
  end.

Fixpoint and_loop (fuel : nat) (left : Expr) (toks : list Tok) : Parsed :=
  match toks with
  | t :: rest =>
      if is_op "&&" t || is_keyword "AND" t then
        match fuel with
        | 0%nat => None
        | S fuel => then_ (not_ rest) (fun right toks => and_loop fuel (And left right) toks)
        end
      else Some (Ok (left, toks))
  | [] => Some (Ok (left, toks))
  end.

Definition and_ (toks : list Tok) : Parsed := then_ (not_ toks) (fun left rest => and_loop (length toks) left rest).

Fixpoint or_loop (fuel : nat) (left : Expr) (toks : list Tok) : Parsed :=
  match toks with
  | t :: rest =>
      if is_op "||" t || is_keyword "OR" t then
        match fuel with
        | 0%nat => None
        | S fuel => then_ (and_ rest) (fun right toks => or_loop fuel (Or left right) toks)
        end
      else Some (Ok (left, toks))
  | [] => Some (Ok (left, toks))
  end.

Definition or_ (toks : list Tok) : Parsed := then_ (and_ toks) (fun left rest => or_loop (length toks) left rest).
End Levels.

Definition cmp_op (op : rstr) : option CmpOp :=
  if bool_decide (op = lit "==") || bool_decide (op = lit "=") then Some Eq
  else if bool_decide (op = lit "!=") || bool_decide (op = lit "<>") then Some Ne
  else if bool_decide (op = lit ">") then Some Gt
  else if bool_decide (op = lit ">=") || bool_decide (op = lit "=>") then Some Ge
  else if bool_decide (op = lit "<") then Some Lt
  else if bool_decide (op = lit "<=") || bool_decide (op = lit "=<") then Some Le
  else None.

Definition str_op (kw : rstr) : option StrOp :=
  let u := to_ascii_uppercase kw in
  if bool_decide (u = lit "BEGINSWITH") then Some BeginsWith
  else if bool_decide (u = lit "CONTAINS") then Some Contains
  else if bool_decide (u = lit "ENDSWITH") then Some EndsWith
  else if bool_decide (u = lit "LIKE") then Some Like
  else if bool_decide (u = lit "MATCHES") then Some Matches
  else None.

(** [i64::to_string]. *)
Definition show_i64 (n : Z) : rstr := if n <? 0 then 45 :: dec_digits 20 (- n) else dec_digits 20 n.

(** A comparison, from its variable on. *)
Definition comparison (name : rstr) (toks : list Tok) : res ReqError (Expr * list Tok) :=
  match var_parse name with
  | None => Err (UnknownVariable name)
  | Some v =>
      match toks with
      | TOp op :: toks =>
          match cmp_op op with
          | None => Err (UnexpectedOperator op)
          | Some op =>
              match toks with
              | TNum n :: toks => Ok (ECmp v op (Int n), toks)
              | (TStr s | TIdent s) :: toks => Ok (ECmp v op (Str s), toks)
              | _ => Err ExpectedValue
              end
          end
      | TIdent kw :: toks =>
          match str_op kw with
          | None => Err (UnknownOperator (to_ascii_uppercase kw))
          | Some op =>
              match toks with
              | (TStr s | TIdent s) :: toks => Ok (EStr v op s, toks)
              | TNum n :: toks => Ok (EStr v op (show_i64 n), toks)
              | _ => Err ExpectedString
              end
          end
      | _ => Err (ExpectedOperator name)
      end
  end.

Fixpoint primary (fuel : nat) (toks : list Tok) : Parsed :=
  match toks with
  | LParen :: rest =>
      match fuel with
      | 0%nat => None
      | S fuel => then_ (or_ (primary fuel) rest) (fun e toks => match toks with RParen :: toks => Some (Ok (e, toks)) | _ => Some (Err ExpectedParen) end)
      end
  | TIdent name :: rest => Some (comparison name rest)
  | _ :: _ => Some (Err UnexpectedToken)
  | [] => Some (Err UnexpectedEnd)
  end.

Definition parse (src : rstr) : option (res ReqError Expr) :=
  toks ← tokenize (trim src);
  match toks with
  | Err e => Some (Err e)
  | Ok [] => Some (Err EmptyExpression)
  | Ok toks =>
      r ← or_ (primary (length toks)) toks;
      Some (match r with Err e => Err e | Ok (e, []) => Ok e | Ok _ => Err TrailingTokens end)
  end.
End Parse.

(** ** Meaning *)

(** [str::cmp]: the bytes of UTF-8 order as the characters do. *)
Fixpoint str_cmp (s t : rstr) : Datatypes.comparison :=
  match s, t with
  | [], [] => Datatypes.Eq
  | [], _ :: _ => Datatypes.Lt
  | _ :: _, [] => Datatypes.Gt
  | a :: s, b :: t => match Z.compare a b with Datatypes.Eq => str_cmp s t | c => c end
  end.

Definition value_str (v : Value) : rstr := match v with Int n => show_i64 n | Str s => s end.

Definition cmp_holds (op : CmpOp) (ord : Datatypes.comparison) : bool :=
  match op, ord with
  | Eq, Datatypes.Eq | Ge, Datatypes.Eq | Le, Datatypes.Eq => true
  | Ne, Datatypes.Lt | Lt, Datatypes.Lt | Le, Datatypes.Lt => true
  | Ne, Datatypes.Gt | Gt, Datatypes.Gt | Ge, Datatypes.Gt => true
  | _, _ => false
  end.

Section Eval.
(** [fancy_regex]: a pattern compiled, and whether it matches, or an error. *)
Context (regex : rstr -> option (rstr -> option bool)).

Definition eval_cmp (v : Var) (op : CmpOp) (rhs : Value) (env : Environment) : bool :=
  match var_value v env, rhs with
  | Int a, Int b => cmp_holds op (Z.compare a b)
  | Int a, Str b => match parse_i64 (trim b) with Some b => cmp_holds op (Z.compare a b) | None => false end
  | Str a, _ => cmp_holds op (str_cmp a (value_str rhs))
  end.

Definition eval_str (v : Var) (op : StrOp) (rhs : rstr) (env : Environment) : bool :=
  let lhs := value_str (var_value v env) in
  match op with
  | BeginsWith => starts_with lhs rhs
  | Contains => has_substring lhs rhs
  | EndsWith => ends_with lhs rhs
  | Like => match Glob.new rhs (mkGlobOptions false false) with Ok g => default false (Glob.matches g lhs) | Err _ => false end
  | Matches => match regex rhs with Some is_match => default false (is_match lhs) | None => false end
  end.

Fixpoint eval (e : Expr) (env : Environment) : bool :=
  match e with
  | And a b => eval a env && eval b env
  | Or a b => eval a env || eval b env
  | Not a => negb (eval a env)
  | ECmp v op rhs => eval_cmp v op rhs env
  | EStr v op rhs => eval_str v op rhs env
  end.
End Eval.

(** ** Where a line carries one *)

Definition SIMPLIFIED : list (rstr * rstr) :=
  [(lit "IOS-ONLY", lit "SYSTEM == 'iOS'"); (lit "LINUX-ONLY", lit "SYSTEM == 'Linux'"); (lit "MACOS-ONLY", lit "SYSTEM == 'macOS'");
   (lit "TVOS-ONLY", lit "SYSTEM == 'tvOS'"); (lit "WINDOWS-ONLY", lit "SYSTEM == 'Windows'")].

Definition REQUIREMENT : rstr := lit "REQUIREMENT".
Definition HASH : rstr := lit "#!".
Definition SLASHES : rstr := lit "//!".

(** [str::strip_prefix] and [str::strip_suffix] of a text. *)
Definition strip_prefix_str (s prefix : rstr) : option rstr := if starts_with s prefix then Some (drop (length prefix) s) else None.
Definition strip_suffix_str (s suffix : rstr) : option rstr := if ends_with s suffix then Some (take (length s - length suffix) s) else None.

Definition is_requirement_prefix (line : rstr) : bool :=
  match strip_prefix_str line HASH with
  | Some rest => starts_with rest REQUIREMENT || existsb (fun te : rstr * rstr => starts_with rest te.1) SIMPLIFIED
  | None => false
  end.

Definition not_space (c : Z) : bool := negb (is_whitespace c).

(** The expression at the start of a text: in quotes, or a word. *)
Definition take_expr (rest : rstr) : res ReqError (rstr * rstr) :=
  let rest := drop_while is_whitespace rest in
  match rest with
  | 34 :: inner => match split_once 34 inner with Some (expr, after) => Ok (expr, after) | None => Err UnterminatedQuoted end
  | [] => Err MissingExpression
  | _ => Ok (take_while not_space rest, drop_while not_space rest)
  end.

Definition is_ascii_whitespace (c : Z) : bool := (c =? 32) || (c =? 9) || (c =? 10) || (c =? 12) || (c =? 13).

(** The loop of [find_suffix_marker], at position [i]; [prev] is the character
    before, [skip] that a backslash took this one. *)
Fixpoint suffix_marker_from (i : nat) (line : rstr) (marker : rstr) (in_quotes skip : bool) (prev : option Z) (found : option nat) : option nat :=
  match line with
  | [] => found
  | c :: rest =>
      if skip then suffix_marker_from (S i) rest marker in_quotes false (Some c) found
      else if in_quotes then
        if c =? 92 then suffix_marker_from (S i) rest marker true true (Some c) found
        else suffix_marker_from (S i) rest marker (negb (c =? 34)) false (Some c) found
      else if c =? 34 then suffix_marker_from (S i) rest marker true false (Some c) found
      else
        let prev_is_space := match prev with Some p => is_ascii_whitespace p | None => false end in
        suffix_marker_from (S i) rest marker false false (Some c) (if prev_is_space && starts_with line marker then Some i else found)
  end.

Definition find_suffix_marker (line marker : rstr) : option nat := suffix_marker_from 0 line marker false false None None.

(** The first of some attempts that is one. *)
Fixpoint first_of {A} (l : list (option A)) : option A :=
  match l with [] => None | Some x :: _ => Some x | None :: l => first_of l end.

Definition starts_blank (s : rstr) : bool := match s with [] => true | c :: _ => is_whitespace c end.
Definition ends_blank (s : rstr) : bool := match last s with Some c => is_whitespace c | None => false end.

(** [split_line_slice], and [split_line]: the content is a value here. *)
Definition split_line (line : rstr) : res ReqError (option rstr * rstr) :=
  let line := trim line in
  match strip_prefix_str line (HASH ++ REQUIREMENT) with
  | Some rest => do? ec <- take_expr rest; Ok (Some ec.1, trim ec.2)
  | None =>
      match first_of (map (fun te : rstr * rstr =>
          rest ← strip_prefix_str line (HASH ++ te.1);
          if starts_blank rest then Some (te.2, trim rest) else None) SIMPLIFIED) with
      | Some (expr, content) => Ok (Some expr, content)
      | None =>
          match first_of (map (fun marker : rstr => pos ← find_suffix_marker line marker; Some (marker, pos)) [HASH ++ REQUIREMENT; SLASHES ++ REQUIREMENT]) with
          | Some (marker, pos) =>
              let expr := trim (drop (pos + length marker) line) in
              if bool_decide (expr = []) then Err MissingExpression
              else
                let expr := default expr (e ← strip_prefix_str expr [34]; strip_suffix_str e [34]) in
                Ok (Some expr, trim (take pos line))
          | None =>
              match first_of (flat_map (fun te : rstr * rstr => map (fun prefix : rstr =>
                  body ← strip_suffix_str line (prefix ++ te.1);
                  if ends_blank body then Some (te.2, trim body) else None) [HASH; SLASHES]) SIMPLIFIED) with
              | Some (expr, content) => Ok (Some expr, content)
              | None => Ok (None, line)
              end
          end
      end
  end.

(** The letters of ASCII alone: an instance to evaluate with. *)
#[export] Instance ascii_letters : Letters := {
  is_alphabetic c := is_upper c || is_lower c;
  is_alphanumeric c := is_upper c || is_lower c || is_digit c;
}.
#[export] Instance ascii_letter_laws : LetterLaws.
Proof. split; done. Qed.

Example parse_example : parse (lit "CORE_VERSION>=20 && (SYSTEM = 'iOS' || not System = macOS)") =
  Some (Ok (And (ECmp CoreVersion Ge (Int 20)) (Or (ECmp System Eq (Str (lit "iOS"))) (Not (ECmp System Eq (Str (lit "macOS"))))))).
Proof. vm_compute. reflexivity. Qed.

Example split_example : split_line (lit "  DOMAIN,a.com,DIRECT #!REQUIREMENT SYSTEM=='iOS' ") = Ok (Some (lit "SYSTEM=='iOS'"), lit "DOMAIN,a.com,DIRECT")
  /\ split_line (lit "#!MACOS-ONLY FINAL,DIRECT") = Ok (Some (lit "SYSTEM == 'macOS'"), lit "FINAL,DIRECT").
Proof. split; vm_compute; reflexivity. Qed.
