(* ===== verification/RequirementProps.v ===== *)
(** * Requirement expressions are read back

    Of [Requirement.v]: the parser always returns, and an expression written with
    no more parentheses than the precedence of NOT over AND over OR needs, both to
    the left, is read back. *)

From S2P Require Import Prelude RuleMatcher Requirement.

(** ** The parser returns *)

Lemma drop_while_length {A} (p : A -> bool) l : (length (drop_while p l) <= length l)%nat.
Proof. induction l as [|x l IH]; simpl; [lia|]. destruct (p x); simpl; lia. Qed.

Section Total.
Context {L : Letters}.

Lemma next_tok_shorter c rest tok after : next_tok c rest = Ok (tok, after) -> (length after <= length rest)%nat.
Proof.
  unfold next_tok. destruct (c =? 40); [by intros [= _ <-]|]. destruct (c =? 41); [by intros [= _ <-]|]. destruct (is_quote c).
  { pose proof (drop_while_length (fun x => negb (x =? c)) rest) as Hl. destruct (drop_while _ rest); [done|]. intros [= _ <-]. simpl in Hl. lia. }
  destruct (is_digit c). { destruct (parse_i64 _); [|done]. intros [= _ <-]. apply drop_while_length. }
  destruct (starts_ident c). { intros [= _ <-]. apply drop_while_length. }
  destruct (List.find _ OPS) as [op|] eqn:Hf; [|done]. intros [= _ <-]. apply find_some in Hf as [Hin _].
  rewrite length_drop. simpl. assert (1 <= length op)%nat; [|lia]. repeat destruct Hin as [<-|Hin]; simpl; try lia. done.
Qed.

Lemma tokenize_total fuel src toks : (length src <= fuel)%nat -> exists r, tokenize_from fuel src toks = Some r.
Proof.
  revert src toks. induction fuel as [|fuel IH]; intros [|c src] toks Hl; simpl in *; [eauto|lia|eauto|]. destruct (is_whitespace c); [apply IH; lia|].
  destruct (next_tok c src) as [[tok after]|e] eqn:Hn; [|eauto]. apply next_tok_shorter in Hn. apply IH. lia.
Qed.

(** A parser that returns on at most [n] tokens, having taken one at least. *)
Definition returns (n : nat) (p : list Tok -> Parsed) : Prop :=
  forall toks, (length toks <= n)%nat -> exists r, p toks = Some r /\ forall e rest, r = Ok (e, rest) -> (length rest < length toks)%nat.

Lemma not_returns n p : returns n p -> returns n (not_ p).
Proof.
  intros Hp toks. induction toks as [|t toks IH]; intros Hl; [by apply Hp|]. cbn [not_]. destruct (is_op "!" t || is_keyword "NOT" t); [|by apply Hp].
  destruct (IH ltac:(simpl in Hl; lia)) as (r & -> & Hr). destruct r as [[e rest]|e]; simpl; eexists; (split; [done|]); [|done]. intros e' rest' [= <- <-]. specialize (Hr e rest eq_refl). lia.
Qed.

Lemma and_loop_returns n p fuel left toks : returns n p -> (length toks <= n)%nat -> (length toks <= fuel)%nat ->
  exists r, and_loop p fuel left toks = Some r /\ forall e rest, r = Ok (e, rest) -> (length rest <= length toks)%nat.
Proof.
  intros Hp. revert left toks. induction fuel as [|fuel IH]; intros left [|t toks] Hn Hf; simpl in Hn, Hf; try lia; cbn [and_loop]; try (eexists; split; [done|]; by intros e rest [= _ <-]).
  destruct (is_op "&&" t || is_keyword "AND" t); [|eexists; split; [done|]; by intros e rest [= _ <-]].
  destruct (not_returns n p Hp toks ltac:(lia)) as (r & -> & Hr). destruct r as [[e rest]|e]; [|eexists; by split]. simpl. specialize (Hr e rest eq_refl).
  destruct (IH (And left e) rest) as (r & -> & Hr'); [lia..|]. eexists. split; [done|]. intros e' rest' Heq. specialize (Hr' e' rest' Heq). lia.
Qed.

Lemma and_returns n p : returns n p -> returns n (and_ p).
Proof.
  intros Hp toks Hl. unfold and_. destruct (not_returns n p Hp toks Hl) as (r & -> & Hr). destruct r as [[e rest]|e]; [|eexists; by split]. simpl. specialize (Hr e rest eq_refl).
  destruct (and_loop_returns n p (length toks) e rest Hp) as (r & -> & Hr'); [lia..|]. eexists. split; [done|]. intros e' rest' Heq. specialize (Hr' e' rest' Heq). lia.
Qed.

Lemma or_loop_returns n p fuel left toks : returns n p -> (length toks <= n)%nat -> (length toks <= fuel)%nat ->
  exists r, or_loop p fuel left toks = Some r /\ forall e rest, r = Ok (e, rest) -> (length rest <= length toks)%nat.
Proof.
  intros Hp. revert left toks. induction fuel as [|fuel IH]; intros left [|t toks] Hn Hf; simpl in Hn, Hf; try lia; cbn [or_loop]; try (eexists; split; [done|]; by intros e rest [= _ <-]).
  destruct (is_op "||" t || is_keyword "OR" t); [|eexists; split; [done|]; by intros e rest [= _ <-]].
  destruct (and_returns n p Hp toks ltac:(lia)) as (r & -> & Hr). destruct r as [[e rest]|e]; [|eexists; by split]. simpl. specialize (Hr e rest eq_refl).
  destruct (IH (Or left e) rest) as (r & -> & Hr'); [lia..|]. eexists. split; [done|]. intros e' rest' Heq. specialize (Hr' e' rest' Heq). lia.
Qed.

Lemma or_returns n p : returns n p -> returns n (or_ p).
Proof.
  intros Hp toks Hl. unfold or_. destruct (and_returns n p Hp toks Hl) as (r & -> & Hr). destruct r as [[e rest]|e]; [|eexists; by split]. simpl. specialize (Hr e rest eq_refl).
  destruct (or_loop_returns n p (length toks) e rest Hp) as (r & -> & Hr'); [lia..|]. eexists. split; [done|]. intros e' rest' Heq. specialize (Hr' e' rest' Heq). lia.
Qed.

Lemma comparison_shorter name toks e rest : comparison name toks = Ok (e, rest) -> (length rest < length toks)%nat.
Proof.
  unfold comparison. destruct (var_parse name); [|done]. destruct toks as [|[kw|n|s|op| |] [|[x|m|x|y| |] toks]]; simpl; try done; try (by destruct (str_op kw)); try (by destruct (cmp_op op)).
  all: try (destruct (str_op kw); [|done]); try (destruct (cmp_op op); [|done]); intros [= _ <-]; lia.
Qed.

Lemma primary_returns n : returns n (primary n).
Proof.
  induction n as [|n IH]; intros toks Hl; (destruct toks as [|t toks]; [eexists; by split|]); [simpl in Hl; lia|]. destruct t as [name|m|s|op| |]; cbn [primary]; try (eexists; by split).
  - eexists. split; [done|]. intros e rest Hc. apply comparison_shorter in Hc. simpl. lia.
  - simpl in Hl. destruct (or_returns n _ IH toks ltac:(lia)) as (r & -> & Hr). destruct r as [[e rest]|e]; [|eexists; by split]. simpl. specialize (Hr e rest eq_refl).
    destruct rest as [|[]]; simpl in *; eexists; (split; [done|]); try done. intros e' rest' [= <- <-]. lia.
Qed.

Lemma parse_total src : exists r, parse src = Some r.
Proof.
  unfold parse, tokenize. destruct (tokenize_total (length (trim src)) (trim src) []) as (toks & ->); [done|]. simpl. destruct toks as [[|t toks]|e]; [eauto| |eauto].
  destruct (or_returns _ _ (primary_returns (length (t :: toks))) (t :: toks)) as (r & -> & _); [done|]. simpl. destruct r as [[e [|? ?]]|e]; eauto.
Qed.
End Total.

(** ** How an expression is written *)

Definition var_name (v : Var) : rstr :=
  match v with
  | CoreVersion => lit "CORE_VERSION" | System => lit "SYSTEM" | SystemVersion => lit "SYSTEM_VERSION"
  | DeviceModel => lit "DEVICE_MODEL" | Language => lit "LANGUAGE" | DeviceName => lit "DEVICE_NAME"
  end.
Definition cmp_name (op : CmpOp) : rstr :=
  match op with Eq => lit "==" | Ne => lit "!=" | Gt => lit ">" | Ge => lit ">=" | Lt => lit "<" | Le => lit "<=" end.
Definition str_name (op : StrOp) : rstr :=
  match op with BeginsWith => lit "BEGINSWITH" | Contains => lit "CONTAINS" | EndsWith => lit "ENDSWITH" | Like => lit "LIKE" | Matches => lit "MATCHES" end.
Definition value_tok (x : Value) : Tok := match x with Int n => TNum n | Str s => TStr s end.

Definition wrap (b : bool) (toks : list Tok) : list Tok := if b then LParen :: toks ++ [RParen] else toks.

(** At a level: 0 where OR may stand, 1 where AND may, 2 where NOT may, 3 where
    only a comparison or parentheses may. *)
Fixpoint print (level : nat) (e : Expr) : list Tok :=
  match e with
  | Or a b => wrap (0 <? level)%nat (print 0 a ++ TOp (lit "||") :: print 1 b)
  | And a b => wrap (1 <? level)%nat (print 1 a ++ TOp (lit "&&") :: print 2 b)
  | Not a => wrap (2 <? level)%nat (TOp (lit "!") :: print 2 a)
  | ECmp v op x => [TIdent (var_name v); TOp (cmp_name op); value_tok x]
  | EStr v op s => [TIdent (var_name v); TIdent (str_name op); TStr s]
  end.

Definition show_tok (t : Tok) : rstr :=
  match t with
  | TIdent s => s
  | TNum n => show_i64 n
  | TStr s => if bool_decide (39 ∈ s) then 34 :: s ++ [34] else 39 :: s ++ [39]
  | TOp op => op
  | LParen => [40]
  | RParen => [41]
  end.

(** Tokens with a space between. *)
Fixpoint text (toks : list Tok) : rstr :=
  match toks with [] => [] | [t] => show_tok t | t :: toks => show_tok t ++ 32 :: text toks end.

Definition show (e : Expr) : rstr := text (print 0 e).

(** What can be written: a number that is not negative, a text without one of
    the two quotes. *)
Definition quotable (s : rstr) : Prop := 39 ∉ s \/ 34 ∉ s.
Fixpoint writable (e : Expr) : Prop :=
  match e with
  | ECmp _ _ (Int n) => 0 <= n <= i64_max
  | ECmp _ _ (Str s) | EStr _ _ s => quotable s
  | And a b | Or a b => writable a /\ writable b
  | Not a => writable a
  end.

(** ** The tokens are parsed back *)

Section Levels.
Context {L : Letters}.

Definition no_and (rest : list Tok) : Prop := match rest with t :: _ => is_op "&&" t || is_keyword "AND" t = false | [] => True end.
Definition no_or (rest : list Tok) : Prop := match rest with t :: _ => is_op "||" t || is_keyword "OR" t = false | [] => True end.

Lemma comparison_cmp v op x rest : comparison (var_name v) (TOp (cmp_name op) :: value_tok x :: rest) = Ok (ECmp v op x, rest).
Proof. destruct v, op, x; reflexivity. Qed.

Lemma comparison_str v op s rest : comparison (var_name v) (TIdent (str_name op) :: TStr s :: rest) = Ok (EStr v op s, rest).
Proof. destruct v, op; reflexivity. Qed.

Lemma and_stops p fuel e rest : no_and rest -> and_loop p fuel e rest = Some (Ok (e, rest)).
Proof. destruct rest as [|t rest], fuel; simpl; try done; by intros ->. Qed.

Lemma or_stops p fuel e rest : no_or rest -> or_loop p fuel e rest = Some (Ok (e, rest)).
Proof. destruct rest as [|t rest], fuel; simpl; try done; by intros ->. Qed.

(** An expression at each level, whatever follows. *)
Definition at3 (e : Expr) : Prop := forall fuel rest, (length (print 3 e) <= fuel)%nat -> primary fuel (print 3 e ++ rest) = Some (Ok (e, rest)).
Definition at2 (e : Expr) : Prop := forall fuel rest, (length (print 2 e) <= fuel)%nat -> not_ (primary fuel) (print 2 e ++ rest) = Some (Ok (e, rest)).
Definition at1 (e : Expr) : Prop := forall fuel rest k, (length (print 1 e) <= fuel)%nat -> (length (print 1 e ++ rest) <= k)%nat ->
  exists k', (length rest <= k')%nat /\ then_ (not_ (primary fuel) (print 1 e ++ rest)) (fun left rest => and_loop (primary fuel) k left rest) = and_loop (primary fuel) k' e rest.
Definition at0 (e : Expr) : Prop := forall fuel rest k, (length (print 0 e) <= fuel)%nat -> no_and rest -> (length (print 0 e ++ rest) <= k)%nat ->
  exists k', (length rest <= k')%nat /\ then_ (and_ (primary fuel) (print 0 e ++ rest)) (fun left rest => or_loop (primary fuel) k left rest) = or_loop (primary fuel) k' e rest.

Lemma at1_and e fuel rest : at1 e -> (length (print 1 e) <= fuel)%nat -> no_and rest -> and_ (primary fuel) (print 1 e ++ rest) = Some (Ok (e, rest)).
Proof. intros H1 Hs Hr. unfold and_. destruct (H1 fuel rest _ Hs (Nat.le_refl _)) as (k' & _ & ->). by apply and_stops. Qed.

Lemma at0_or e fuel rest : at0 e -> (length (print 0 e) <= fuel)%nat -> no_and rest -> no_or rest -> or_ (primary fuel) (print 0 e ++ rest) = Some (Ok (e, rest)).
Proof. intros H0 Hs Hr Ho. unfold or_. destruct (H0 fuel rest _ Hs Hr (Nat.le_refl _)) as (k' & _ & ->). by apply or_stops. Qed.

(** In parentheses. *)
Lemma wrapped_at3 e : print 3 e = wrap true (print 0 e) -> at0 e -> at3 e.
Proof.
  intros Hp H0 fuel rest Hs. rewrite Hp in *. cbn [wrap app length] in *. rewrite length_app in Hs. destruct fuel as [|fuel]; [lia|]. cbn [primary].
  rewrite <- app_assoc, at0_or by (done || lia). done.
Qed.

(** What a level below reads, the level above does. *)
Lemma at3_at2 e : print 2 e = print 3 e -> (forall t, head (print 3 e) = Some t -> is_op "!" t || is_keyword "NOT" t = false) -> print 3 e <> [] -> at3 e -> at2 e.
Proof.
  intros Hp Hh Hne H3 fuel rest Hs. rewrite Hp in *. specialize (H3 fuel rest Hs). destruct (print 3 e) as [|t toks]; [done|]. cbn [app not_]. by rewrite Hh.
Qed.

Lemma at2_at1 e : print 1 e = print 2 e -> at2 e -> at1 e.
Proof. intros Hp H2 fuel rest k Hs Hk. rewrite Hp in *. rewrite H2 by done. simpl. exists k. split; [rewrite length_app in Hk; lia|done]. Qed.

Lemma at1_at0 e : print 0 e = print 1 e -> at1 e -> at0 e.
Proof. intros Hp H1 fuel rest k Hs Hr Hk. rewrite Hp in *. rewrite at1_and by done. simpl. exists k. split; [rewrite length_app in Hk; lia|done]. Qed.

Lemma and_at1 a b : at1 a -> at2 b -> at1 (And a b).
Proof.
  intros Ha Hb fuel rest k Hs Hk. change (print 1 (And a b)) with (print 1 a ++ TOp (lit "&&") :: print 2 b) in *. rewrite <- app_assoc in *. rewrite length_app in Hs. cbn [length] in Hs.
  destruct (Ha fuel ((TOp (lit "&&") :: print 2 b) ++ rest) k ltac:(lia) Hk) as (k1 & Hk1 & ->). cbn [app length] in *. destruct k1 as [|k1]; [lia|]. cbn [and_loop].
  change (is_op "&&" (TOp (lit "&&")) || is_keyword "AND" (TOp (lit "&&"))) with true. cbv iota. rewrite Hb by lia. simpl. exists k1. rewrite length_app in Hk1. split; [lia|done].
Qed.

Lemma or_at0 a b : at0 a -> at1 b -> at0 (Or a b).
Proof.
  intros Ha Hb fuel rest k Hs Hr Hk. change (print 0 (Or a b)) with (print 0 a ++ TOp (lit "||") :: print 1 b) in *. rewrite <- app_assoc in *. rewrite length_app in Hs. cbn [length] in Hs.
  destruct (Ha fuel ((TOp (lit "||") :: print 1 b) ++ rest) k ltac:(lia) eq_refl Hk) as (k1 & Hk1 & ->). cbn [app length] in *. destruct k1 as [|k1]; [lia|]. cbn [or_loop].
  change (is_op "||" (TOp (lit "||")) || is_keyword "OR" (TOp (lit "||"))) with true. cbv iota. rewrite at1_and by (done || lia). simpl. exists k1. rewrite length_app in Hk1. split; [lia|done].
Qed.

Lemma not_at2 a : at2 a -> at2 (Not a).
Proof.
  intros Ha fuel rest Hs. change (print 2 (Not a)) with (TOp (lit "!") :: print 2 a) in *. cbn [app length not_] in *.
  change (is_op "!" (TOp (lit "!")) || is_keyword "NOT" (TOp (lit "!"))) with true. cbv iota. rewrite Ha by lia. done.
Qed.

Lemma paren_head e : print 3 e = wrap true (print 0 e) -> (forall t, head (print 3 e) = Some t -> is_op "!" t || is_keyword "NOT" t = false) /\ print 3 e <> [].
Proof. intros ->. split; [by intros t [= <-]|done]. Qed.

Lemma wrapped_at2 e : print 3 e = wrap true (print 0 e) -> print 2 e = print 3 e -> at0 e -> at3 e /\ at2 e.
Proof. intros Hp H23 H0. assert (H3 : at3 e) by (by apply wrapped_at3). destruct (paren_head e Hp). split; [done|]. by apply at3_at2. Qed.

Lemma atom_levels e name toks : print 3 e = TIdent name :: toks -> print 2 e = print 3 e -> print 1 e = print 2 e -> print 0 e = print 1 e ->
  is_keyword "NOT" (TIdent name) = false -> at3 e -> at3 e /\ at2 e /\ at1 e /\ at0 e.
Proof.
  intros H3 H23 H12 H01 Hn A3. assert (A2 : at2 e) by (apply at3_at2; [done|rewrite H3; by intros t [= <-]|by rewrite H3|done]).
  assert (A1 : at1 e) by (by apply at2_at1). assert (A0 : at0 e) by (by apply at1_at0). done.
Qed.

(** Every expression is read at every level. *)
Lemma all_levels e : at3 e /\ at2 e /\ at1 e /\ at0 e.
Proof.
  induction e as [v op x|v op s|a (A3 & A2 & A1 & A0) b (B3 & B2 & B1 & B0)|a (A3 & A2 & A1 & A0) b (B3 & B2 & B1 & B0)|a (A3 & A2 & A1 & A0)].
  - eapply atom_levels; [done..|by destruct v|]. intros fuel rest Hs. destruct fuel; cbn [print app primary]; by rewrite comparison_cmp.
  - eapply atom_levels; [done..|by destruct v|]. intros fuel rest Hs. destruct fuel; cbn [print app primary]; by rewrite comparison_str.
  - assert (H1 : at1 (And a b)) by (by apply and_at1). assert (H0 : at0 (And a b)) by (by apply at1_at0). by destruct (wrapped_at2 (And a b)).
  - assert (H0 : at0 (Or a b)) by (by apply or_at0). destruct (wrapped_at2 (Or a b)) as [H3 H2]; [done|done|done|]. repeat split; try done. by apply at2_at1.
  - assert (H2 : at2 (Not a)) by (by apply not_at2). assert (H1 : at1 (Not a)) by (by apply at2_at1). assert (H0 : at0 (Not a)) by (by apply at1_at0).
    repeat split; try done. by apply wrapped_at3.
Qed.

Lemma tokens_read e : or_ (primary (length (print 0 e))) (print 0 e) = Some (Ok (e, [])).
Proof. destruct (all_levels e) as (_ & _ & _ & H0). rewrite <- (app_nil_r (print 0 e)) at 2. by apply at0_or. Qed.
End Levels.

(** ** The text is taken apart again *)

Section Lexer.
Context `{LL : LetterLaws}.

Definition edge (rest : rstr) : Prop := match rest with [] => True | c :: _ => c = 32 end.

Lemma take_while_app {A} (p : A -> bool) l rest : forallb p l = true -> (match rest with c :: _ => p c = false | [] => True end) -> take_while p (l ++ rest) = l /\ drop_while p (l ++ rest) = rest.
Proof.
  induction l as [|x l IH]; simpl; intros Hl Hr.
  - destruct rest as [|c rest]; simpl; [done|]. by rewrite Hr.
  - apply andb_true_iff in Hl as [Hx Hl]. rewrite Hx. destruct (IH Hl Hr) as [-> ->]. done.
Qed.

(** Names of capitals and underscores. *)
Definition capital (c : Z) : bool := is_upper c || (c =? 95).

Lemma capital_in c : capital c = true -> in_ident c = true.
Proof.
  unfold capital, in_ident. intros [Hc|Hc]%orb_true_iff; apply orb_true_iff; [left|by right]. unfold is_upper in Hc. rewrite ascii_alphanumeric by lia. unfold is_upper. lia.
Qed.

Lemma ident_read s rest : forallb capital s = true -> (exists c s', s = c :: s' /\ is_upper c = true) -> edge rest ->
  exists c after, s ++ rest = c :: after /\ is_whitespace c = false /\ next_tok c after = Ok (TIdent s, rest).
Proof.
  intros Hs (c & s' & -> & Hc) He. exists c, (s' ++ rest). split; [done|]. simpl in Hs. apply andb_true_iff in Hs as [_ Hs]. unfold is_upper in Hc. split; [unfold is_whitespace; lia|].
  unfold next_tok. replace (c =? 40) with false by lia. replace (c =? 41) with false by lia. replace (is_quote c) with false by (unfold is_quote; lia). replace (is_digit c) with false by (unfold is_digit; lia).
  assert (Hst : starts_ident c = true) by (unfold starts_ident; rewrite ascii_alphabetic by lia; unfold is_upper; lia). rewrite Hst.
  destruct (take_while_app in_ident s' rest) as [-> ->]; [| |done].
  - apply forallb_forall. intros x Hx. apply capital_in. rewrite forallb_forall in Hs. by apply Hs.
  - destruct rest as [|x rest]; [done|]. simpl in He. subst x. unfold in_ident. by rewrite ascii_alphanumeric by lia.
Qed.

Lemma num_read n rest : 0 <= n <= i64_max -> edge rest -> exists c after, show_i64 n ++ rest = c :: after /\ is_whitespace c = false /\ next_tok c after = Ok (TNum n, rest).
Proof.
  intros Hn He. unfold show_i64. replace (n <? 0) with false by lia.
  pose proof (dec_digits_digit 20 n ltac:(lia)) as Hd. pose proof (dec_digits_not_nil 20 n ltac:(lia)) as Hne. pose proof (dec_digits_value 20 n) as Hv.
  destruct (dec_digits 20 n) as [|c ds] eqn:E; [done|]. exists c, (ds ++ rest). split; [done|]. apply Forall_cons in Hd as [Hc Hd]. unfold is_digit in Hc. split; [unfold is_whitespace; lia|].
  unfold next_tok. replace (c =? 40) with false by lia. replace (c =? 41) with false by lia. replace (is_quote c) with false by (unfold is_quote; lia).
  replace (is_digit c) with true by (unfold is_digit; lia). cbv zeta. destruct (take_while_app is_digit ds rest) as [-> ->].
  - apply forallb_forall. intros x Hx. rewrite Forall_forall in Hd. apply Hd. by apply list_elem_of_In.
  - destruct rest as [|x rest]; [done|]. simpl in He. by subst x.
  - unfold parse_i64. assert (Hall : forallb is_digit (c :: ds) = true).
    { apply forallb_forall. intros x [<-|Hx]; [unfold is_digit; lia|]. rewrite Forall_forall in Hd. apply Hd. by apply list_elem_of_In. }
    assert (Hvn : digits_value (c :: ds) = n) by (apply Hv; unfold i64_max in *; lia).
    replace (c =? 45) with false by lia. replace (c =? 43) with false by lia. rewrite bool_decide_eq_false_2 by done. rewrite Hall, Hvn. cbn [negb orb mbind option_bind].
    by replace ((- i64_max - 1 <=? n) && (n <=? i64_max)) with true by (unfold i64_max in *; lia).
Qed.

Lemma str_read s rest : quotable s -> exists c after, show_tok (TStr s) ++ rest = c :: after /\ is_whitespace c = false /\ next_tok c after = Ok (TStr s, rest).
Proof.
  intros Hq. assert (Hread : forall q, (q = 39 \/ q = 34) -> q ∉ s -> exists c after, (q :: s ++ [q]) ++ rest = c :: after /\ is_whitespace c = false /\ next_tok c after = Ok (TStr s, rest)).
  { intros q Hqq Hns. exists q, ((s ++ [q]) ++ rest). split; [done|]. split; [by destruct Hqq as [-> | ->]|]. unfold next_tok.
    replace (q =? 40) with false by lia. replace (q =? 41) with false by lia. replace (is_quote q) with true by (unfold is_quote; lia).
    rewrite <- app_assoc. destruct (take_while_app (fun x => negb (x =? q)) s ([q] ++ rest)) as [-> ->].
    - apply forallb_forall. intros x Hx. destruct (Z.eqb_spec x q) as [->|]; [|done]. exfalso. apply Hns. by apply list_elem_of_In.
    - cbn [app]. by rewrite Z.eqb_refl.
    - done. }
  cbn [show_tok]. destruct (decide (39 ∈ s)) as [Hin|Hin]; [rewrite bool_decide_eq_true_2 by done|rewrite bool_decide_eq_false_2 by done; by apply Hread; [left|]].
  destruct Hq as [Hq|Hq]; [done|]. apply Hread; [by right|done].
Qed.

Lemma op_read op rest : op ∈ [lit "=="; lit "!="; lit ">"; lit ">="; lit "<"; lit "<="; lit "&&"; lit "||"; lit "!"]%string -> edge rest ->
  exists c after, op ++ rest = c :: after /\ is_whitespace c = false /\ next_tok c after = Ok (TOp op, rest).
Proof.
  intros Hop He. assert (Hno : forall c after, 0 <= c < 128 -> (is_upper c || is_lower c || (c =? 95) || is_digit c || is_quote c || (c =? 40) || (c =? 41)) = false ->
    next_tok c after = match List.find (fun op => starts_with (take 2 (c :: after)) op) OPS with Some op => Ok (TOp op, drop (length op) (c :: after)) | None => Err (UnexpectedChar c) end).
  { intros c after Hc Hn. rewrite !orb_false_iff in Hn. destruct Hn as ((((((H1 & H2) & H3) & H4) & H5) & H6) & H7). unfold next_tok, starts_ident. rewrite H7, H6, H5, H4, ascii_alphabetic by done.
    by rewrite H1, H2, H3. }
  vm_compute in Hop. destruct rest as [|x rest]; [|simpl in He; subst x].
  all: repeat (apply elem_of_cons in Hop as [->|Hop]; [eexists _, _; split; [reflexivity|]; split; [reflexivity|]; rewrite Hno by (split; discriminate || reflexivity); reflexivity|]); by apply elem_of_nil in Hop.
Qed.

(** A token of an expression that can be written. *)
Definition tok_ok (t : Tok) : Prop :=
  match t with
  | TIdent s => forallb capital s = true /\ exists c s', s = c :: s' /\ is_upper c = true
  | TNum n => 0 <= n <= i64_max
  | TStr s => quotable s
  | TOp op => op ∈ [lit "=="; lit "!="; lit ">"; lit ">="; lit "<"; lit "<="; lit "&&"; lit "||"; lit "!"]%string
  | LParen | RParen => True
  end.

Lemma tok_read t rest : tok_ok t -> edge rest -> exists c after, show_tok t ++ rest = c :: after /\ is_whitespace c = false /\ next_tok c after = Ok (t, rest).
Proof.
  intros Ht He. destruct t as [s|n|s|op| |]; cbn [show_tok] in *.
  - apply ident_read; [apply Ht..|done].
  - by apply num_read.
  - by apply str_read.
  - by apply op_read.
  - by eexists _, _.
  - by eexists _, _.
Qed.

Lemma text_read toks : forall fuel acc, Forall tok_ok toks -> (length (text toks) <= fuel)%nat -> tokenize_from fuel (text toks) acc = Some (Ok (acc ++ toks)).
Proof.
  induction toks as [|t toks IH]; intros fuel acc Hok Hf; [destruct fuel; cbn; by rewrite app_nil_r|]. apply Forall_cons in Hok as [Ht Hok].
  assert (Hrest : exists rest, text (t :: toks) = show_tok t ++ rest /\ edge rest /\ forall fuel acc, (length rest <= fuel)%nat -> tokenize_from fuel rest acc = Some (Ok (acc ++ toks))).
  { destruct toks as [|u toks]; [exists []; split; [cbn; by rewrite app_nil_r|]; split; [done|]; intros f a _; destruct f; cbn; by rewrite app_nil_r|].
    exists (32 :: text (u :: toks)). split; [done|]. split; [done|]. intros f a Hl. destruct f as [|f]; [simpl in Hl; lia|]. cbn [tokenize_from]. change (is_whitespace 32) with true. cbv iota. apply IH; [done|]. cbn [length] in Hl. lia. }
  destruct Hrest as (rest & Heq & He & Hr). rewrite Heq in *. destruct (tok_read t rest Ht He) as (c & after & Hc & Hw & Hn). rewrite Hc in *. cbn [length] in Hf. destruct fuel as [|fuel]; [lia|]. cbn [tokenize_from].
  rewrite Hw, Hn. apply next_tok_shorter in Hn. rewrite Hr by lia. by rewrite <- app_assoc.
Qed.

Lemma print_ok e : forall level, writable e -> Forall tok_ok (print level e).
Proof.
  assert (Hw : forall b toks, Forall tok_ok toks -> Forall tok_ok (wrap b toks)) by (intros [] toks Htk; [constructor; [done|]; apply Forall_app; split; [done|]; by repeat constructor|done]).
  assert (Hv : forall v, tok_ok (TIdent (var_name v))) by (intros []; (split; [done|by do 2 eexists])).
  induction e as [v op x|v op s|a IHa b IHb|a IHa b IHb|a IHa]; intros level; cbn [writable print]; intros Hok.
  - apply Forall_cons; split; [apply Hv|]. apply Forall_cons; split; [destruct op; cbn [tok_ok cmp_name]; set_solver|]. apply Forall_singleton. by destruct x.
  - apply Forall_cons; split; [apply Hv|]. apply Forall_cons; split; [destruct op; (split; [done|by do 2 eexists])|]. by apply Forall_singleton.
  - apply Hw, Forall_app. split; [apply IHa, Hok|]. apply Forall_cons; split; [cbn [tok_ok]; set_solver|apply IHb, Hok].
  - apply Hw, Forall_app. split; [apply IHa, Hok|]. apply Forall_cons; split; [cbn [tok_ok]; set_solver|apply IHb, Hok].
  - apply Hw. apply Forall_cons; split; [cbn [tok_ok]; set_solver|by apply IHa].
Qed.
End Lexer.

(** ** The text as a whole *)

Section ReadBack.
Context `{LL : LetterLaws}.

(** Text whose ends are not white space is its own trim. *)
Lemma trim_solid c s d t : c :: s = t ++ [d] -> is_whitespace c = false -> is_whitespace d = false -> trim (c :: s) = c :: s.
Proof.
  intros Heq Hc Hd. unfold trim, trim_by, trim_end_by. cbn [drop_while]. rewrite Hc, Heq, reverse_snoc. cbn [drop_while]. rewrite Hd, reverse_cons. by rewrite reverse_involutive.
Qed.

Lemma all_ends s : s <> [] -> Forall (fun c => is_whitespace c = false) s -> exists s' c, s = s' ++ [c] /\ is_whitespace c = false.
Proof. intros Hne Hs. destruct s as [|c s] using rev_ind; [done|]. apply Forall_app in Hs as [_ Hc]. apply Forall_inv in Hc. exists s, c. split; [reflexivity|exact Hc]. Qed.

Lemma tok_ends t : tok_ok t -> exists s c, show_tok t = s ++ [c] /\ is_whitespace c = false.
Proof.
  intros Ht. destruct t as [s|n|s|op| |]; cbn [show_tok tok_ok] in *.
  - destruct Ht as [Hs (c & s' & -> & _)]. apply all_ends; [done|]. apply Forall_forall. intros x Hx. rewrite forallb_forall in Hs. apply list_elem_of_In, Hs in Hx. unfold capital, is_upper in Hx. unfold is_whitespace. lia.
  - unfold show_i64. replace (n <? 0) with false by lia. apply all_ends; [apply dec_digits_not_nil; lia|]. eapply Forall_impl; [apply dec_digits_digit; lia|].
    intros x Hx. cbn beta in Hx. unfold is_digit in Hx. unfold is_whitespace. lia.
  - destruct (bool_decide (39 ∈ s)); [exists (34 :: s), 34|exists (39 :: s), 39]; done.
  - apply all_ends; [by repeat (apply elem_of_cons in Ht as [->|Ht]; [done|]); apply elem_of_nil in Ht|]. apply Forall_forall. intros x Hx. vm_compute in Ht.
    repeat (apply elem_of_cons in Ht as [->|Ht]; [by repeat (apply elem_of_cons in Hx as [->|Hx]; [done|]); apply elem_of_nil in Hx|]). by apply elem_of_nil in Ht.
  - by exists [], 40.
  - by exists [], 41.
Qed.

Lemma text_ends toks : toks <> [] -> Forall tok_ok toks -> exists s c, text toks = s ++ [c] /\ is_whitespace c = false.
Proof.
  induction toks as [|t [|u toks] IH]; intros Hne Hok; [done|apply Forall_inv in Hok; by apply tok_ends|]. apply Forall_cons in Hok as [_ Hok]. destruct (IH ltac:(done) Hok) as (s & c & Heq & Hc).
  exists (show_tok t ++ 32 :: s), c. split; [|done]. change (text (t :: u :: toks)) with (show_tok t ++ 32 :: text (u :: toks)). rewrite Heq. by rewrite <- app_assoc.
Qed.

Lemma text_starts t toks : tok_ok t -> exists c after, text (t :: toks) = c :: after /\ is_whitespace c = false.
Proof.
  intros Ht. destruct toks as [|u toks].
  - destruct (tok_read t [] Ht I) as (c & after & Heq & Hc & _). rewrite app_nil_r in Heq. by exists c, after.
  - destruct (tok_read t (32 :: text (u :: toks)) Ht eq_refl) as (c & after & Heq & Hc & _). by exists c, after.
Qed.

Lemma trim_text toks : toks <> [] -> Forall tok_ok toks -> trim (text toks) = text toks.
Proof.
  intros Hne Hok. destruct (text_ends toks Hne Hok) as (s & d & Hd & Hdw). destruct toks as [|t toks]; [done|]. apply Forall_cons in Hok as [Ht Hok].
  destruct (text_starts t toks Ht) as (c & after & Hc & Hcw). rewrite Hc in *. by eapply trim_solid.
Qed.

Lemma print_not_nil level e : print level e <> [].
Proof. revert level. induction e as [| |a IHa b IHb|a IHa b IHb|a IHa]; intros level; cbn [print]; try done; unfold wrap; case_match; try done; intros Hn; by apply app_eq_nil in Hn as [_ Hn]. Qed.

Lemma parse_show e : writable e -> parse (show e) = Some (Ok e).
Proof.
  intros Hw. unfold parse, show. pose proof (print_ok e 0 Hw) as Hok. pose proof (print_not_nil 0 e) as Hne. rewrite trim_text by done. unfold tokenize. rewrite text_read by done. cbn [app mbind option_bind].
  pose proof (tokens_read e) as Hr. destruct (print 0 e) as [|t toks]; [done|]. by rewrite Hr.
Qed.

(** C29: every text is parsed, to an expression or an error; and an expression
    written with parentheses only where the levels ask for them (OR below AND
    below NOT, both operators leaning left), a space between tokens and each
    text in a quote it does not contain, is parsed to itself. *)
Theorem requirements_read_back : (forall src, exists r, parse src = Some r) /\ (forall e, writable e -> parse (show e) = Some (Ok e)).
Proof. split; [exact parse_total|exact parse_show]. Qed.
End ReadBack.

(** Both operators, grouped against their levels, with a negation and both
    quotes. *)
Definition example_requirement : Expr :=
  And (Or (ECmp System Eq (Str (lit "macOS"))) (ECmp CoreVersion Ge (Int 22))) (Not (And (EStr DeviceName Like (lit "it's*")) (ECmp Language Ne (Str [])))).

Lemma requirements_read_back_witness :
  show example_requirement = lit "( SYSTEM == 'macOS' || CORE_VERSION >= 22 ) && ! ( DEVICE_NAME LIKE " ++ [34] ++ lit "it's*" ++ [34] ++ lit " && LANGUAGE != '' )"
  /\ writable example_requirement /\ parse (show example_requirement) = Some (Ok example_requirement).
Proof.
  assert (Hw : writable example_requirement).
  { repeat split; try (vm_compute; by left); try done; [left; vm_compute|right; vm_compute|left; vm_compute]; intros Hin; repeat (apply elem_of_cons in Hin as [Hin|Hin]; [done|]); by apply elem_of_nil in Hin. }
  split; [by vm_compute|]. split; [exact Hw|]. apply requirements_read_back. exact Hw.
Defined.
