(* ===== verification/Values.v ===== *)
(** * Values of a profile

    [crates/rurge-config/src/value.rs]: how a list is cut into items, how an item
    is read as a value or a parameter, how a line is cut into words, and the map of
    parameters.  Offsets count the bytes of UTF-8, as the source's do; [None] of an
    operation that slices a text or indexes a vector is a panic, which never
    happens ([ItemFields.v]). *)

From S2P Require Import Prelude Requirement.

(** ** Slices of a text *)

(** [&s[n..]]: [None] when [n] is past the end or inside a character. *)
Fixpoint drop_bytes (n : nat) (s : rstr) : option rstr :=
  match n, s with
  | 0%nat, _ => Some s
  | _, [] => None
  | _, c :: s => if (len_utf8 c <=? n)%nat then drop_bytes (n - len_utf8 c) s else None
  end.

(** [s.get(..n)]. *)
Fixpoint take_bytes (n : nat) (s : rstr) : option rstr :=
  match n, s with
  | 0%nat, _ => Some []
  | _, [] => None
  | _, c :: s => if (len_utf8 c <=? n)%nat then cons c <$> take_bytes (n - len_utf8 c) s else None
  end.

(** [usize - usize], which panics below zero. *)
Definition sub_ok (a b : nat) : option nat := if (b <=? a)%nat then Some (a - b)%nat else None.

(** [&s[a..b]]. *)
Definition str_slice (s : rstr) (a b : nat) : option rstr := n ← sub_ok b a; rest ← drop_bytes a s; take_bytes n rest.

(** ** Items *)

Inductive Mark := Comma (at_ width : nat) | Open | Close | EqAt (at_ : nat).

Record ItemSpan := mkSpan { start : nat; end_ : nat; sep_end : nat; eq : option nat }.

(** The first loop of [item_spans]: its variables; [skip] that a backslash took
    the next character with it. *)
Record Scan := mkScan { at_start : bool; seen_eq : bool; quote : option Z; skip : bool }.

Definition scan_start : Scan := mkScan true false None false.

(** What one character, at [i], does to them and notes. *)
Definition scan_char (wide : bool) (i : nat) (c : Z) (s : Scan) : Scan * option Mark :=
  let '(mkScan at_start seen_eq quote skip) := s in
  if skip then (mkScan at_start seen_eq quote false, None)
  else match quote with
  | Some q => if (q =? 34) && (c =? 92) then (mkScan at_start seen_eq quote true, None) else (mkScan at_start seen_eq (if c =? q then None else Some q) false, None)
  | None =>
      if at_start && is_whitespace c then (s, None)
      else if at_start && is_quote c then (mkScan false seen_eq (Some c) false, None)
      else if c =? 44 then (mkScan true false None false, Some (Comma i 1))
      else if (c =? 65292) && wide then (mkScan false seen_eq None false, Some (Comma i (len_utf8 65292)))
      else if c =? 40 then (mkScan true false None false, Some Open)
      else if c =? 41 then (mkScan false seen_eq None false, Some Close)
      else if (c =? 61) && negb seen_eq then (mkScan true true None false, Some (EqAt i))
      else (mkScan false seen_eq None false, None)
  end.

Fixpoint marks_from (wide : bool) (i : nat) (s : Scan) (text : rstr) : list Mark :=
  match text with
  | [] => []
  | c :: text => let '(s, m) := scan_char wide i c s in option_list m ++ marks_from wide (i + len_utf8 c) s text
  end.

(** [paired[k] = true]. *)
Definition set_paired (k : nat) (paired : list bool) : option (list bool) := _ ← paired !! k; Some (<[k := true]> paired).

(** The second loop, at the mark [k]. *)
Fixpoint pair_from (k : nat) (marks : list Mark) (open : list nat) (paired : list bool) : option (list bool) :=
  match marks with
  | [] => Some paired
  | Open :: marks => pair_from (S k) marks (k :: open) paired
  | Close :: marks =>
      match open with
      | o :: open => paired ← set_paired o paired; paired ← set_paired k paired; pair_from (S k) marks open paired
      | [] => pair_from (S k) marks [] paired
      end
  | _ :: marks => pair_from (S k) marks open paired
  end.

(** The third, and the span of what is left; [len] is that of the text. *)
Fixpoint spans_from (len k : nat) (marks : list Mark) (paired : list bool) (depth start : nat) (eq : option nat) : option (list ItemSpan) :=
  match marks with
  | [] => Some [mkSpan start len len eq]
  | Open :: marks => p ← paired !! k; spans_from len (S k) marks paired (if p : bool then S depth else depth) start eq
  | Close :: marks => p ← paired !! k; depth ← (if p : bool then sub_ok depth 1 else Some depth); spans_from len (S k) marks paired depth start eq
  | EqAt at_ :: marks => spans_from len (S k) marks paired depth start (if (depth =? 0)%nat then match eq with None => Some at_ | _ => eq end else eq)
  | Comma at_ width :: marks =>
      if (depth =? 0)%nat then cons (mkSpan start at_ (at_ + width) eq) <$> spans_from len (S k) marks paired depth (at_ + width) None
      else spans_from len (S k) marks paired depth start eq
  end.

Definition item_spans (text : rstr) (wide : bool) : option (list ItemSpan) :=
  let marks := marks_from wide 0 scan_start text in
  paired ← pair_from 0 marks [] (replicate (length marks) false);
  spans_from (str_len text) 0 marks paired 0 0 None.

Definition split_items (text : rstr) : option (list rstr) := spans ← item_spans text false; mapM (fun span => str_slice text (start span) (end_ span)) spans.

(** ** Quotes *)

(** The loop of [partner], at [i]. *)
Fixpoint partner_from (i : nat) (text : rstr) (quote : Z) (skip : bool) : option nat :=
  match text with
  | [] => None
  | c :: text =>
      let next := (i + len_utf8 c)%nat in
      if skip then partner_from next text quote false
      else if (quote =? 34) && (c =? 92) then partner_from next text quote true
      else if c =? quote then Some i
      else partner_from next text quote false
  end.

Definition partner (text : rstr) (quote : Z) : option nat := match text with [] => None | c :: text => partner_from (len_utf8 c) text quote false end.

Fixpoint unescape (inner : rstr) : rstr :=
  match inner with
  | [] => []
  | c :: rest =>
      if c =? 92 then
        match rest with
        | [] => [92]
        | d :: rest => if d =? 34 then 34 :: unescape rest else if d =? 92 then 92 :: unescape rest else 92 :: d :: unescape rest
        end
      else c :: unescape rest
  end.

Definition wholly_quoted (text : rstr) : option (option rstr) :=
  match text with
  | [] => Some None
  | quote :: _ =>
      if is_quote quote then
        match partner text quote with
        | None => Some None
        | Some at_ =>
            if negb (at_ =? str_len text - 1)%nat then Some None
            else inner ← str_slice text 1 (str_len text - 1); Some (Some (if quote =? 34 then unescape inner else inner))
        end
      else Some None
  end.

Definition unquote (text : rstr) : option rstr := default text <$> wholly_quoted text.

(** ** Fields *)

Record Field := mkField { text : rstr; param : option (rstr * rstr) }.

(** [read_field]; the inner [None] is an item that is dropped. *)
Definition read_field (item : rstr) (eq : option nat) : option (option Field) :=
  let trimmed := trim item in
  if bool_decide (trimmed = []) then Some None
  else
    whole ← wholly_quoted trimmed;
    match whole with
    | Some inner => Some (if bool_decide (inner = []) then None else Some (mkField inner None))
    | None =>
        with_param ← match eq with
          | None => Some None
          | Some at_ =>
              key ← take_bytes at_ item;
              let key := trim key in
              if bool_decide (key = []) then Some None
              else
                raw ← drop_bytes (at_ + 1) item;
                let raw := trim raw in
                whole ← wholly_quoted raw;
                Some (Some match whole with
                  | Some value => mkField (key ++ 61 :: value) (Some (key, value))
                  | None => mkField trimmed (Some (key, raw))
                  end)
          end;
        Some (Some (default (mkField trimmed None) with_param))
    end.

Definition span_field (text : rstr) (span : ItemSpan) : option (option Field) :=
  item ← str_slice text (start span) (end_ span);
  at_ ← match eq span with None => Some None | Some at_ => Some <$> sub_ok at_ (start span) end;
  read_field item at_.

Definition split_fields (text : rstr) : option (list Field) := spans ← item_spans text false; omap id <$> mapM (span_field text) spans.

Definition split_list (s : rstr) : option (list rstr) := map text <$> split_fields s.

(** ** Words *)

Record Word := mkWord { word_text : rstr; word_start : nat; word_end : nat; word_param : option (rstr * rstr); quoted : bool }.

Definition is_blank (c : Z) : bool := (c =? 32) || (c =? 9).

(** The inner loop of [split_words], at [i] before [rest]: where the word ends
    and its first [=]. *)
Fixpoint word_from (fuel len i : nat) (rest : rstr) (eq : option nat) (at_value_start : bool) : option (nat * option nat) :=
  match rest with
  | [] => Some (len, eq)
  | c :: after =>
      if is_blank c then Some (i, eq)
      else match fuel with
      | 0%nat => None
      | S fuel =>
          if at_value_start && is_quote c then
            match partner rest c with
            | Some at_ => after ← drop_bytes (at_ + 1) rest; word_from fuel len (i + at_ + 1) after eq false
            | None => Some (len, eq)
            end
          else if (c =? 61) && bool_decide (eq = None) then word_from fuel len (i + len_utf8 c) after (Some i) true
          else word_from fuel len (i + len_utf8 c) after eq false
      end
  end.

Definition read_word (raw : rstr) (start end_ : nat) (eq : option nat) : option Word :=
  whole ← wholly_quoted raw;
  let '(shown, quoted) := match whole with Some inner => (inner, true) | None => (raw, false) end in
  param ← match eq with
    | Some at_ =>
        if quoted : bool then Some None
        else
          at_ ← sub_ok at_ start;
          key ← take_bytes at_ raw;
          let key := trim key in
          if bool_decide (key = []) then Some None
          else value ← drop_bytes (at_ + 1) raw; value ← unquote (trim value); Some (Some (key, value))
    | None => Some None
    end;
  Some (mkWord shown start end_ param quoted).

Fixpoint words_from (fuel len i : nat) (rest : rstr) : option (list Word) :=
  match rest with
  | [] => Some []
  | c :: after =>
      match fuel with
      | 0%nat => None
      | S fuel =>
          if is_blank c then words_from fuel len (i + len_utf8 c) after
          else
            '(end_, eq) ← word_from (length rest) len i rest None true;
            n ← sub_ok end_ i;
            raw ← take_bytes n rest;
            word ← read_word raw i end_ eq;
            after ← drop_bytes n rest;
            cons word <$> words_from fuel len end_ after
      end
  end.

Definition split_words (s : rstr) : option (list Word) := words_from (length s) (str_len s) 0 s.

(** ** Prefixes, definitions and booleans *)

Definition starts_with_ci (s prefix : rstr) : bool :=
  match take_bytes (str_len prefix) s with Some head => eq_ignore_ascii_case head prefix | None => false end.

Definition strip_prefix_ci (s prefix : rstr) : option rstr :=
  match take_bytes (str_len prefix) s with
  | Some head => if eq_ignore_ascii_case head prefix then drop_bytes (str_len prefix) s else None
  | None => None
  end.

Definition split_definition (raw : rstr) : option (rstr * rstr) :=
  '(name, rest) ← split_once 61 raw;
  let name := trim name in
  if bool_decide (name = []) then None else Some (name, trim rest).

Definition parse_key_value (field : rstr) : option (rstr * rstr) := split_definition field.

Definition parse_bool (s : rstr) : option bool :=
  let s := to_ascii_lowercase (trim s) in
  if bool_decide (s ∈ [lit "true"; lit "1"; lit "yes"]) then Some true
  else if bool_decide (s ∈ [lit "false"; lit "0"; lit "no"]) then Some false
  else None.

(** [str::parse] of an unsigned integer. *)
Definition parse_uint (max : Z) (s : rstr) : option Z :=
  let digits := match s with 43 :: rest => rest | _ => s end in
  if bool_decide (digits = []) || negb (forallb is_digit digits) then None
  else if digits_value digits <=? max then Some (digits_value digits) else None.

(** ** Parameters *)

Record ParamMap := mkParams { entries : list (rstr * rstr) }.

Definition insert (m : ParamMap) (key value : rstr) : ParamMap := mkParams (entries m ++ [(to_ascii_lowercase (trim key), value)]).

Definition get (m : ParamMap) (key : rstr) : option rstr :=
  let key := to_ascii_lowercase key in snd <$> List.find (fun kv : rstr * rstr => bool_decide (kv.1 = key)) (entries m).

Definition get_all (m : ParamMap) (key : rstr) : list rstr :=
  let key := to_ascii_lowercase key in map snd (List.filter (fun kv : rstr * rstr => bool_decide (kv.1 = key)) (entries m)).

Definition contains (m : ParamMap) (key : rstr) : bool := match get m key with Some _ => true | None => false end.
Definition bool_ (m : ParamMap) (key : rstr) : option bool := v ← get m key; parse_bool v.
Definition u16 (m : ParamMap) (key : rstr) : option Z := v ← get m key; parse_uint u16_max v.
Definition u32 (m : ParamMap) (key : rstr) : option Z := v ← get m key; parse_uint u32_max v.
Definition len (m : ParamMap) : nat := length (entries m).
Definition is_empty (m : ParamMap) : bool := bool_decide (entries m = []).

Fixpoint from_fields_into (fields : list Field) (params : ParamMap) (positional : list rstr) : ParamMap * list rstr :=
  match fields with
  | [] => (params, positional)
  | field :: fields =>
      match param field with
      | Some (key, value) => from_fields_into fields (insert params key value) positional
      | None => from_fields_into fields params (positional ++ [text field])
      end
  end.

Definition from_fields (fields : list Field) : ParamMap * list rstr := from_fields_into fields (mkParams []) [].

Example list_example : split_list (lit "a, 'b, c', AND,((DOMAIN,x),(IP,y)), k = 'v'") = Some [lit "a"; lit "b, c"; lit "AND"; lit "((DOMAIN,x),(IP,y))"; lit "k=v"].
Proof. vm_compute. reflexivity. Qed.

Example words_example : option_map (map word_text) (split_words (lit "header-add  'a b' x=y 'z")) = Some [lit "header-add"; lit "a b"; lit "x=y"; lit "'z"].
Proof. vm_compute. reflexivity. Qed.
