(* ===== verification/ItemFields.v ===== *)
(** * Where a list is cut

    The parentheses that [item_spans] pairs on its stack are those with a balanced
    text between; the cuts are the commas outside quotes that no such pair
    encloses; and the items and the commas between are the whole text. *)

From S2P Require Import Prelude Requirement Values.

(** ** Slices at the ends of characters *)

Lemma len_utf8_pos c : (0 < len_utf8 c)%nat.
Proof. unfold len_utf8. repeat case_match; lia. Qed.

Lemma str_len_cons c s : str_len (c :: s) = (len_utf8 c + str_len s)%nat.
Proof. done. Qed.

Lemma str_len_app s t : str_len (s ++ t) = (str_len s + str_len t)%nat.
Proof. apply sum_list_with_app. Qed.

Lemma take_bytes_app s t : take_bytes (str_len s) (s ++ t) = Some s.
Proof.
  induction s as [|c s IH]; [by destruct t|]. rewrite str_len_cons. pose proof (len_utf8_pos c). destruct (len_utf8 c + str_len s)%nat eqn:E; [lia|].
  cbn [app take_bytes]. rewrite <- E. rewrite (proj2 (Nat.leb_le _ _)) by lia. replace (len_utf8 c + str_len s - len_utf8 c)%nat with (str_len s) by lia. by rewrite IH.
Qed.

Lemma drop_bytes_app s t : drop_bytes (str_len s) (s ++ t) = Some t.
Proof.
  induction s as [|c s IH]; [by destruct t|]. rewrite str_len_cons. pose proof (len_utf8_pos c). destruct (len_utf8 c + str_len s)%nat eqn:E; [lia|].
  cbn [app drop_bytes]. rewrite <- E. rewrite (proj2 (Nat.leb_le _ _)) by lia. by replace (len_utf8 c + str_len s - len_utf8 c)%nat with (str_len s) by lia.
Qed.

Lemma sub_ok_add a b : sub_ok (a + b) a = Some b.
Proof. unfold sub_ok. rewrite (proj2 (Nat.leb_le _ _)) by lia. f_equal. lia. Qed.

Lemma str_slice_mid a m b : str_slice (a ++ m ++ b) (str_len a) (str_len a + str_len m) = Some m.
Proof. unfold str_slice. rewrite sub_ok_add. cbn [mbind option_bind]. rewrite drop_bytes_app. cbn [mbind option_bind]. apply take_bytes_app. Qed.

(** ** The loop over the characters, in parts *)

Fixpoint after (wide : bool) (i : nat) (s : Scan) (text : rstr) : Scan :=
  match text with [] => s | c :: text => after wide (i + len_utf8 c) (scan_char wide i c s).1 text end.

Lemma marks_cons wide i s c text : marks_from wide i s (c :: text) = option_list (scan_char wide i c s).2 ++ marks_from wide (i + len_utf8 c) (scan_char wide i c s).1 text.
Proof. cbn [marks_from]. by destruct (scan_char wide i c s). Qed.

Lemma marks_app wide i s a b : marks_from wide i s (a ++ b) = marks_from wide i s a ++ marks_from wide (i + str_len a) (after wide i s a) b.
Proof.
  revert i s. induction a as [|c a IH]; intros i s; [cbn; by rewrite Nat.add_0_r|]. cbn [app]. rewrite !marks_cons, IH, str_len_cons, <- app_assoc. cbn [after]. do 2 f_equal. f_equal. lia.
Qed.

(** ** Pairs of parentheses *)

(** A run of marks whose parentheses pair up within it. *)
Inductive balanced : list Mark -> Prop :=
| balanced_nil : balanced []
| balanced_comma at_ w ms : balanced ms -> balanced (Comma at_ w :: ms)
| balanced_eq at_ ms : balanced ms -> balanced (EqAt at_ :: ms)
| balanced_group inner ms : balanced inner -> balanced ms -> balanced (Open :: inner ++ Close :: ms).

Lemma balanced_app a b : balanced a -> balanced b -> balanced (a ++ b).
Proof.
  induction 1 as [|? ? ms Hm IH|? ms Hm IH|inner ms Hi IHi Hm IH]; intros Hb; [done|constructor; by apply IH..|]. cbn [app]. rewrite <- app_assoc. constructor; [done|by apply IH].
Qed.

(** A parenthesis and its partner, in all the marks. *)
Definition matched (marks : list Mark) (o c : nat) : Prop :=
  exists pre inner post, marks = pre ++ Open :: inner ++ Close :: post /\ balanced inner /\ o = length pre /\ c = (o + 1 + length inner)%nat.

(** The mark [k] is in a group. *)
Definition enclosed (marks : list Mark) (k : nat) : Prop := exists o c, matched marks o c /\ (o < k < c)%nat.

(** The pairs the second loop finds. *)
Fixpoint pairs_from (k : nat) (marks : list Mark) (open : list nat) : list (nat * nat) :=
  match marks with
  | [] => []
  | Open :: marks => pairs_from (S k) marks (k :: open)
  | Close :: marks => match open with o :: open => (o, k) :: pairs_from (S k) marks open | [] => pairs_from (S k) marks [] end
  | _ :: marks => pairs_from (S k) marks open
  end.

(** The stack after some marks. *)
Fixpoint stack_after (k : nat) (marks : list Mark) (open : list nat) : list nat :=
  match marks with
  | [] => open
  | Open :: marks => stack_after (S k) marks (k :: open)
  | Close :: marks => stack_after (S k) marks (tail open)
  | _ :: marks => stack_after (S k) marks open
  end.

Lemma pairs_app k a b open : pairs_from k (a ++ b) open = pairs_from k a open ++ pairs_from (k + length a) b (stack_after k a open).
Proof.
  revert k open. induction a as [|m a IH]; intros k open; [cbn; by rewrite Nat.add_0_r|]. cbn [app length pairs_from stack_after]. rewrite <- Nat.add_succ_comm.
  destruct m; [apply IH|apply IH| |apply IH]. destruct open; cbn [app tail]; [apply IH|]. f_equal. apply IH.
Qed.

Lemma stack_app k a b open : stack_after k (a ++ b) open = stack_after (k + length a) b (stack_after k a open).
Proof. revert k open. induction a as [|m a IH]; intros k open; [cbn; by rewrite Nat.add_0_r|]. cbn [app length stack_after]. rewrite <- Nat.add_succ_comm. destruct m; apply IH. Qed.

(** A balanced run leaves the stack as it was. *)
Lemma stack_balanced b : balanced b -> forall k open, stack_after k b open = open.
Proof. induction 1 as [|? ? ms Hm IH|? ms Hm IH|inner ms Hi IHi Hm IH]; intros k open; cbn [stack_after]; [done|apply IH..|]. rewrite stack_app. cbn [stack_after]. rewrite IHi. apply IH. Qed.

(** So a parenthesis and its partner are a pair. *)
Lemma matched_pair marks o c : matched marks o c -> (o, c) ∈ pairs_from 0 marks [].
Proof.
  intros (pre & inner & post & -> & Hi & -> & ->). rewrite pairs_app. apply elem_of_app. right. cbn [pairs_from]. rewrite pairs_app. apply elem_of_app. right.
  rewrite stack_balanced by done. cbn [pairs_from]. apply elem_of_cons. left. f_equal. cbn. lia.
Qed.

(** The stack holds the parentheses without a partner so far: between each and
    the next, the run is balanced. *)
Inductive stacked (marks : list Mark) : nat -> list nat -> Prop :=
| stacked_nil k : stacked marks k []
| stacked_cons pre inner post k o open : marks = pre ++ Open :: inner ++ post -> balanced inner -> o = length pre -> k = (o + 1 + length inner)%nat -> stacked marks o open -> stacked marks k (o :: open).

Lemma balanced_end b m : balanced b -> (exists at_ w, m = Comma at_ w) \/ (exists at_, m = EqAt at_) -> balanced (b ++ [m]).
Proof. intros Hb Hm. apply balanced_app; [done|]. destruct Hm as [(at_ & w & ->)|(at_ & ->)]; repeat constructor. Qed.

Lemma stacked_next pre m post open : stacked (pre ++ m :: post) (length pre) open -> (exists at_ w, m = Comma at_ w) \/ (exists at_, m = EqAt at_) -> stacked (pre ++ m :: post) (S (length pre)) open.
Proof.
  intros Hs Hm. destruct open as [|o open]; [constructor|]. inversion Hs as [|pre' inner post' k o' open' Heq Hi Ho Hk Hs' H1 H2]; subst.
  assert (Hsp : pre = pre' ++ Open :: inner /\ m :: post = post').
  { apply app_inj_1; [rewrite length_app; cbn; lia|]. by rewrite Heq, <- app_assoc. }
  destruct Hsp as [-> <-]. econstructor; [|by apply balanced_end|done| |done].
  - by simplify_list_eq.
  - rewrite !length_app. cbn. lia.
Qed.

Lemma stacked_pop pre post o open : stacked (pre ++ Close :: post) (length pre) (o :: open) -> matched (pre ++ Close :: post) o (length pre) /\ stacked (pre ++ Close :: post) (S (length pre)) open.
Proof.
  intros Hs. inversion Hs as [|pre' inner post' k o' open' Heq Hi Ho Hk Hs' H1 H2]; subst.
  assert (Hsp : pre = pre' ++ Open :: inner /\ Close :: post = post').
  { apply app_inj_1; [rewrite length_app; cbn; lia|]. by rewrite Heq, <- app_assoc. }
  destruct Hsp as [-> <-]. split.
  - exists pre', inner, post. repeat split; [by simplify_list_eq|done|rewrite length_app; cbn; lia].
  - destruct open as [|o2 open]; [constructor|]. inversion Hs' as [|pre2 inner2 post2 k o' open' Heq2 Hi2 Ho2 Hk2 Hs2 H1 H2]; subst.
    rewrite <- app_assoc in Heq2. cbn [app] in Heq2.
    assert (Hsp : pre' = pre2 ++ Open :: inner2 /\ Open :: inner ++ Close :: post = post2).
    { apply app_inj_1; [rewrite length_app; cbn; lia|]. by rewrite Heq2, <- app_assoc. }
    destruct Hsp as [-> <-]. apply (stacked_cons _ pre2 (inner2 ++ Open :: inner ++ [Close]) post); [by simplify_list_eq| |done| |done].
    + apply balanced_app; [done|]. constructor; [done|constructor].
    + rewrite !length_app. cbn [length]. rewrite !length_app. cbn [length]. lia.
Qed.

Lemma stacked_open pre post open : stacked (pre ++ Open :: post) (length pre) open -> stacked (pre ++ Open :: post) (S (length pre)) (length pre :: open).
Proof. intros Hs. apply (stacked_cons _ pre [] post); [done|constructor|done|cbn; lia|done]. Qed.

Lemma pairs_matched ms : forall pre open o c, stacked (pre ++ ms) (length pre) open -> (o, c) ∈ pairs_from (length pre) ms open -> matched (pre ++ ms) o c.
Proof.
  induction ms as [|m ms IH]; intros pre open o c Hs Hin; [by apply elem_of_nil in Hin|].
  assert (Hstep : forall open, stacked (pre ++ m :: ms) (S (length pre)) open -> (o, c) ∈ pairs_from (S (length pre)) ms open -> matched (pre ++ m :: ms) o c).
  { intros open' Hs' Hin'. specialize (IH (pre ++ [m]) open' o c). rewrite <- app_assoc, length_app in IH. cbn [app length] in IH. rewrite Nat.add_1_r in IH. by apply IH. }
  destruct m as [at_ w| | |at_]; cbn [pairs_from] in Hin.
  - eapply Hstep; [|done]. apply stacked_next; eauto.
  - eapply Hstep; [|done]. by apply stacked_open.
  - destruct open as [|p open]; [by eapply Hstep; [constructor|]|]. apply stacked_pop in Hs as [Hm Hs]. apply elem_of_cons in Hin as [[= -> ->]|Hin]; [done|by eapply Hstep].
  - eapply Hstep; [|done]. apply stacked_next; eauto.
Qed.

(** The pairs are the parentheses that match. *)
Lemma pairs_spec marks o c : (o, c) ∈ pairs_from 0 marks [] <-> matched marks o c.
Proof. split; [|apply matched_pair]. intros Hin. by apply (pairs_matched marks [] [] o c); [constructor|]. Qed.

(** Every parenthesis is in one pair at most. *)
Lemma pairs_fst marks : forall k open, NoDup open -> Forall (fun o => o < k)%nat open ->
  NoDup (pairs_from k marks open).*1 /\ Forall (fun p => (p.1 ∈ open \/ k <= p.1)%nat /\ (k <= p.2)%nat /\ (p.1 < p.2)%nat) (pairs_from k marks open).
Proof.
  induction marks as [|m marks IH]; intros k open Hn Hf; [by split; constructor|].
  assert (Hf' : Forall (fun o => o < S k)%nat open) by (eapply Forall_impl; [exact Hf|]; cbn; lia).
  assert (Hsame : NoDup (pairs_from (S k) marks open).*1 /\ Forall (fun p => (p.1 ∈ open \/ k <= p.1)%nat /\ (k <= p.2)%nat /\ (p.1 < p.2)%nat) (pairs_from (S k) marks open)).
  { destruct (IH (S k) open Hn Hf') as [H1 H2]. split; [done|]. eapply Forall_impl; [exact H2|]. cbn. intros p. naive_solver lia. }
  destruct m as [at_ w| | |at_]; cbn [pairs_from]; [done| | |done].
  - destruct (IH (S k) (k :: open)) as [H1 H2].
    + constructor; [|done]. intros Hin. rewrite Forall_forall in Hf. apply Hf in Hin. lia.
    + constructor; [lia|done].
    + split; [done|]. eapply Forall_impl; [exact H2|]. cbn. intros p [[Hp|Hp] [H3 H4]]; [apply elem_of_cons in Hp as [->|Hp]|]; (split; [|lia]); [right; lia|by left|right; lia].
  - destruct open as [|o open]; [done|]. apply NoDup_cons in Hn as [Ho Hn]. apply Forall_cons in Hf' as [_ Hf']. apply Forall_cons in Hf as [Hok Hf].
    destruct (IH (S k) open Hn Hf') as [H1 H2]. cbn [fmap list_fmap fst]. split.
    + apply NoDup_cons. split; [|done]. intros Hin. apply list_elem_of_fmap in Hin as (p & Hp & Hin). rewrite Forall_forall in H2. destruct (H2 p Hin) as [[Hpo|Hpo] _]; rewrite <- Hp in Hpo; [done|lia].
    + constructor; [cbn; split; [left; by apply elem_of_cons; left|lia]|]. eapply Forall_impl; [exact H2|]. cbn. intros p [[Hp|Hp] [H3 H4]]; (split; [|lia]); [left; by apply elem_of_cons; right|right; lia].
Qed.

Lemma pairs_snd marks : forall k open, NoDup (pairs_from k marks open).*2 /\ Forall (fun c => k <= c)%nat (pairs_from k marks open).*2.
Proof.
  induction marks as [|m marks IH]; intros k open; [by split; constructor|].
  assert (Hsame : forall open, NoDup (pairs_from (S k) marks open).*2 /\ Forall (fun c => k <= c)%nat (pairs_from (S k) marks open).*2).
  { intros open'. destruct (IH (S k) open') as [H1 H2]. split; [done|]. eapply Forall_impl; [exact H2|]. cbn. lia. }
  destruct m; cbn [pairs_from]; try apply Hsame. destruct open as [|o open]; [apply Hsame|]. destruct (IH (S k) open) as [H1 H2]. cbn [fmap list_fmap snd]. split.
  - apply NoDup_cons. split; [|done]. intros Hin. rewrite Forall_forall in H2. apply H2 in Hin. lia.
  - constructor; [done|]. eapply Forall_impl; [exact H2|]. cbn. lia.
Qed.

(** ** The second loop marks the pairs *)

Definition in_pair (pairs : list (nat * nat)) (k : nat) : bool := existsb (fun p : nat * nat => (p.1 =? k)%nat || (p.2 =? k)%nat) pairs.

Lemma set_paired_ok k paired : (k < length paired)%nat -> set_paired k paired = Some (<[k := true]> paired).
Proof. intros Hk. unfold set_paired. by destruct (lookup_lt_is_Some_2 paired k Hk) as (b & ->). Qed.

Lemma pair_from_spec marks : forall k open paired, Forall (fun o => o < k)%nat open -> (k + length marks <= length paired)%nat ->
  exists paired', pair_from k marks open paired = Some paired' /\ length paired' = length paired
    /\ forall i b, paired !! i = Some b -> paired' !! i = Some (b || in_pair (pairs_from k marks open) i).
Proof.
  induction marks as [|m marks IH]; intros k open paired Hf Hl; cbn [pair_from pairs_from]; [exists paired; split; [done|]; split; [done|]; intros i b ->; by rewrite orb_false_r|]. cbn [length] in Hl.
  assert (Hf' : Forall (fun o => o < S k)%nat open) by (eapply Forall_impl; [exact Hf|]; cbn; lia).
  destruct m as [at_ w| | |at_]; [apply IH; [done|lia]|apply IH; [constructor; [lia|done]|lia]| |apply IH; [done|lia]].
  destruct open as [|o open]; [apply IH; [constructor|lia]|]. apply Forall_cons in Hf as [Ho Hf]. apply Forall_cons in Hf' as [_ Hf'].
  rewrite set_paired_ok by lia. cbn [mbind option_bind]. rewrite set_paired_ok by (rewrite length_insert; lia). cbn [mbind option_bind].
  destruct (IH (S k) open (<[k:=true]> (<[o:=true]> paired)) Hf') as (paired' & -> & Hlen & Hp); [rewrite !length_insert; lia|]. rewrite !length_insert in Hlen. exists paired'. split; [done|]. split; [done|].
  intros i b Hi. assert (Hil : (i < length paired)%nat) by (by eapply lookup_lt_Some). cbn [in_pair existsb fst snd].
  destruct (Nat.eqb_spec k i) as [->|Hk]; [rewrite (Hp i true) by (apply list_lookup_insert_eq; rewrite length_insert; lia); by rewrite !orb_true_r|].
  destruct (Nat.eqb_spec o i) as [->|Ho']; [rewrite (Hp i true) by (rewrite list_lookup_insert_ne by done; by apply list_lookup_insert_eq); by rewrite !orb_true_r|].
  rewrite (Hp i b) by (by rewrite !list_lookup_insert_ne by done). done.
Qed.

(** ** The depth counts the groups around a mark *)

Definition count {A} (p : A -> bool) (l : list A) : nat := length (List.filter p l).

Definition depth_at (pairs : list (nat * nat)) (k : nat) : nat := count (fun p : nat * nat => (p.1 <? k) && (k <=? p.2))%nat pairs.

Lemma depth_step pairs k : Forall (fun p => p.1 < p.2)%nat pairs ->
  (depth_at pairs (S k) + count (fun p : nat * nat => p.2 =? k) pairs = depth_at pairs k + count (fun p : nat * nat => p.1 =? k) pairs)%nat.
Proof.
  unfold depth_at, count. induction 1 as [|p pairs Hp Hf IH]; [done|]. cbn [List.filter].
  destruct (Nat.eqb_spec p.2 k), (Nat.eqb_spec p.1 k), (Nat.ltb_spec p.1 (S k)), (Nat.leb_spec (S k) p.2), (Nat.ltb_spec p.1 k), (Nat.leb_spec k p.2); cbn [andb length]; lia.
Qed.

Lemma count_key (f : nat * nat -> nat) pairs k : NoDup (f <$> pairs) -> count (fun p => f p =? k)%nat pairs = if existsb (fun p => f p =? k)%nat pairs then 1%nat else 0%nat.
Proof.
  unfold count. induction pairs as [|p pairs IH]; [done|]. cbn [fmap list_fmap List.filter existsb]. intros [Hp Hn]%NoDup_cons. specialize (IH Hn). destruct (Nat.eqb_spec (f p) k) as [<-|Hk]; [|done]. cbn [length orb].
  rewrite IH. destruct (existsb _ pairs) eqn:He; [|done]. exfalso. apply Hp. apply existsb_exists in He as (q & Hq & Heq). apply Nat.eqb_eq in Heq. rewrite <- Heq. apply list_elem_of_fmap. exists q. split; [done|]. by apply list_elem_of_In.
Qed.

(** ** The third loop reads the cuts off *)

Section Cuts.
Context (marks : list Mark) (len : nat).
Abbreviation pairs := (pairs_from 0 marks []).

Lemma pairs_lt : Forall (fun p => p.1 < p.2)%nat pairs.
Proof. destruct (pairs_fst marks 0 []) as [_ Hf]; [constructor|constructor|]. eapply Forall_impl; [exact Hf|]. cbn. lia. Qed.

Lemma pair_marks o c : (o, c) ∈ pairs -> marks !! o = Some Open /\ marks !! c = Some Close.
Proof.
  intros (pre & inner & post & Heq & Hi & -> & ->)%pairs_spec. rewrite Heq. split; [by rewrite lookup_app_r, Nat.sub_diag|]. rewrite lookup_app_r by lia. replace (length pre + 1 + length inner - length pre)%nat with (S (length inner)) by lia.
  change ((inner ++ Close :: post) !! length inner = Some Close). by rewrite lookup_app_r, Nat.sub_diag.
Qed.

Lemma exists_pair (f : nat * nat -> nat) k : existsb (fun p => f p =? k)%nat pairs = true -> exists o c, (o, c) ∈ pairs /\ f (o, c) = k.
Proof. intros ([o c] & Hp & Heq)%existsb_exists. exists o, c. split; [by apply list_elem_of_In|]. by apply Nat.eqb_eq. Qed.

(** The depth where there is no parenthesis stays; at one that is paired it
    goes up or down. *)
Lemma depth_next k : depth_at pairs (S k) = match marks !! k with
  | Some Open => if in_pair pairs k then S (depth_at pairs k) else depth_at pairs k
  | Some Close => if in_pair pairs k then (depth_at pairs k - 1)%nat else depth_at pairs k
  | _ => depth_at pairs k
  end /\ (marks !! k = Some Close -> in_pair pairs k = true -> (1 <= depth_at pairs k)%nat).
Proof.
  pose proof (depth_step pairs k pairs_lt) as Hd. destruct (pairs_fst marks 0 []) as [Hn1 _]; [constructor|constructor|]. destruct (pairs_snd marks 0 []) as [Hn2 _].
  rewrite (count_key snd pairs k Hn2), (count_key fst pairs k Hn1) in Hd.
  assert (Hin : in_pair pairs k = existsb (fun p => p.1 =? k)%nat pairs || existsb (fun p => p.2 =? k)%nat pairs).
  { unfold in_pair. clear. induction pairs as [|p l IH]; [done|]. cbn [existsb]. rewrite IH. destruct (p.1 =? k)%nat, (p.2 =? k)%nat; cbn [orb]; by rewrite ?orb_true_r. }
  assert (H1 : existsb (fun p => p.1 =? k)%nat pairs = true -> marks !! k = Some Open) by (intros (o & c & Hp & <-)%(exists_pair fst); by apply pair_marks in Hp as []).
  assert (H2 : existsb (fun p => p.2 =? k)%nat pairs = true -> marks !! k = Some Close) by (intros (o & c & Hp & <-)%(exists_pair snd); by apply pair_marks in Hp as []).
  rewrite Hin. destruct (existsb (fun p => p.1 =? k)%nat pairs), (existsb (fun p => p.2 =? k)%nat pairs); cbn [orb] in *.
  - rewrite H1 in H2 by done. by specialize (H2 eq_refl).
  - rewrite H1 by done. split; [lia|done].
  - rewrite H2 by done. split; [lia|intros; lia].
  - split; [|done]. destruct (marks !! k) as [[]|]; lia.
Qed.

Lemma depth_zero k : marks !! k <> Some Close -> (depth_at pairs k =? 0)%nat = false <-> enclosed marks k.
Proof.
  intros Hk. rewrite Nat.eqb_neq. unfold depth_at, count. split.
  - intros Hne. destruct (List.filter _ pairs) as [|[o c] l] eqn:E; [done|]. assert (Hin : In (o, c) (List.filter (fun p : nat * nat => (p.1 <? k) && (k <=? p.2))%nat pairs)) by (rewrite E; by left).
    apply filter_In in Hin as [Hin Hb]. apply list_elem_of_In in Hin. cbn [fst snd] in Hb. exists o, c. split; [by apply pairs_spec|]. destruct (pair_marks o c Hin) as [_ Hc]. assert (c <> k) by congruence. apply andb_true_iff in Hb as [Hb1%Nat.ltb_lt Hb2%Nat.leb_le]. lia.
  - intros (o & c & Hm & Hok). apply pairs_spec in Hm. assert (Hin : In (o, c) (List.filter (fun p : nat * nat => (p.1 <? k) && (k <=? p.2))%nat pairs)).
    { apply filter_In. split; [by apply list_elem_of_In|]. apply andb_true_iff. split; [apply Nat.ltb_lt|apply Nat.leb_le]; cbn [fst snd]; lia. }
    intros Hz. apply length_zero_iff_nil in Hz. by rewrite Hz in Hin.
Qed.

(** The spans, by what is enclosed: the reference. *)
Fixpoint cut_at (encl : nat -> bool) (k : nat) (ms : list Mark) (start : nat) (eq : option nat) : list ItemSpan :=
  match ms with
  | [] => [mkSpan start len len eq]
  | Comma at_ width :: ms => if encl k then cut_at encl (S k) ms start eq else mkSpan start at_ (at_ + width) eq :: cut_at encl (S k) ms (at_ + width) None
  | EqAt at_ :: ms => cut_at encl (S k) ms start (if encl k then eq else match eq with None => Some at_ | _ => eq end)
  | _ :: ms => cut_at encl (S k) ms start eq
  end.

Definition grouped (k : nat) : bool := negb (depth_at pairs k =? 0)%nat.

Lemma spans_from_cuts paired ms : (forall i b, replicate (length marks) false !! i = Some b -> paired !! i = Some (b || in_pair pairs i)) ->
  forall pre start eq, marks = pre ++ ms -> spans_from len (length pre) ms paired (depth_at pairs (length pre)) start eq = Some (cut_at grouped (length pre) ms start eq).
Proof.
  intros Hp. induction ms as [|m ms IH]; intros pre start eq Hm; [done|]. destruct (depth_next (length pre)) as [Hd Hpos].
  assert (Hk : marks !! length pre = Some m) by (by rewrite Hm, lookup_app_r, Nat.sub_diag). rewrite Hk in Hd, Hpos.
  assert (Hpk : paired !! length pre = Some (in_pair pairs (length pre))) by (apply (Hp _ false), lookup_replicate; split; [done|by eapply lookup_lt_Some]).
  assert (Hstep : forall start eq, spans_from len (S (length pre)) ms paired (depth_at pairs (S (length pre))) start eq = Some (cut_at grouped (S (length pre)) ms start eq)).
  { intros st e. specialize (IH (pre ++ [m]) st e). rewrite length_app, Nat.add_1_r in IH. apply IH. rewrite Hm. by simplify_list_eq. }
  destruct m as [at_ w| | |at_]; cbn [spans_from cut_at]; rewrite ?Hpk; cbn [mbind option_bind].
  - change (grouped (length pre)) with (negb (depth_at pairs (length pre) =? 0)%nat). rewrite <- Hd. destruct (depth_at pairs (S (length pre)) =? 0)%nat; cbn [negb]; by rewrite Hstep.
  - rewrite <- Hd. apply Hstep.
  - destruct (in_pair pairs (length pre)); cbn [mbind option_bind]; [|rewrite <- Hd; apply Hstep]. unfold sub_ok. rewrite (proj2 (Nat.leb_le _ _)) by (by apply Hpos). cbn [mbind option_bind]. rewrite <- Hd. apply Hstep.
  - change (grouped (length pre)) with (negb (depth_at pairs (length pre) =? 0)%nat). rewrite <- Hd. destruct (depth_at pairs (S (length pre)) =? 0)%nat; cbn [negb]; apply Hstep.
Qed.
End Cuts.

Lemma depth_at_0 pairs : depth_at pairs 0 = 0%nat.
Proof. unfold depth_at, count. induction pairs as [|p l IH]; [done|]. cbn [List.filter]. change (p.1 <? 0)%nat with false. exact IH. Qed.

Lemma item_spans_cuts text wide : let marks := marks_from wide 0 scan_start text in item_spans text wide = Some (cut_at (str_len text) (grouped marks) 0 marks 0 None).
Proof.
  intros marks. unfold item_spans. fold marks. destruct (pair_from_spec marks 0 [] (replicate (length marks) false)) as (paired & -> & Hl & Hp); [constructor|by rewrite length_replicate|]. cbn [mbind option_bind].
  pose proof (spans_from_cuts marks (str_len text) paired marks Hp [] 0 None eq_refl) as Hs. cbn [length] in Hs. by rewrite depth_at_0 in Hs.
Qed.

(** ** The items and the commas are the text *)

Definition is_comma (wide : bool) (c : Z) : bool := (c =? 44) || (c =? 65292) && wide.

(** The [=] noted for an item is one in it. *)
Definition starts_value (item : rstr) (start : nat) (eq : option nat) : Prop :=
  match eq with None => True | Some e => exists a b, item = a ++ 61 :: b /\ e = (start + str_len a)%nat end.

(** The spans of a text that stands after [pre]. *)
Inductive cut_up (wide : bool) : rstr -> rstr -> list ItemSpan -> Prop :=
| cut_last pre item eq : starts_value item (str_len pre) eq -> cut_up wide pre item [mkSpan (str_len pre) (str_len (pre ++ item)) (str_len (pre ++ item)) eq]
| cut_next pre item sep rest eq spans : starts_value item (str_len pre) eq -> is_comma wide sep = true -> cut_up wide (pre ++ item ++ [sep]) rest spans ->
    cut_up wide pre (item ++ sep :: rest) (mkSpan (str_len pre) (str_len (pre ++ item)) (str_len (pre ++ item) + len_utf8 sep) eq :: spans).

Lemma scan_mark wide i c s m : (scan_char wide i c s).2 = Some m -> (m = Comma i (len_utf8 c) /\ is_comma wide c = true) \/ (m = EqAt i /\ c = 61) \/ m = Open \/ m = Close.
Proof.
  unfold scan_char, is_comma. destruct s as [a e [q|] [|]]; cbn [snd]; try done; [by destruct ((q =? 34) && (c =? 92))|].
  destruct (a && is_whitespace c); [done|]. destruct (a && is_quote c); [done|]. destruct (Z.eqb_spec c 44) as [->|]; [intros [= <-]; by left|].
  destruct ((c =? 65292) && wide) eqn:Hc; [intros [= <-]; left; apply andb_true_iff in Hc as [->%Z.eqb_eq _]; done|]. destruct (c =? 40); [intros [= <-]; naive_solver|]. destruct (c =? 41); [intros [= <-]; naive_solver|].
  destruct ((c =? 61) && negb e) eqn:He; [intros [= <-]; apply andb_true_iff in He as [->%Z.eqb_eq _]; naive_solver|done].
Qed.

Lemma starts_value_more item c start eq : starts_value item start eq -> starts_value (item ++ [c]) start eq.
Proof. destruct eq as [e|]; [|done]. intros (a & b & -> & ->). exists a, (b ++ [c]). by simplify_list_eq. Qed.

Lemma cuts_up wide encl rest : forall s k pre item eq len, len = str_len (pre ++ item ++ rest) -> starts_value item (str_len pre) eq ->
  cut_up wide pre (item ++ rest) (cut_at len encl k (marks_from wide (str_len (pre ++ item)) s rest) (str_len pre) eq).
Proof.
  induction rest as [|c rest IH]; intros s k pre item eq len Hlen Hv.
  - cbn [marks_from cut_at]. rewrite app_nil_r in *. rewrite Hlen. by constructor.
  - rewrite marks_cons. set (s' := (scan_char wide (str_len (pre ++ item)) c s).1).
    assert (Hon : forall k eq, starts_value (item ++ [c]) (str_len pre) eq -> cut_up wide pre (item ++ c :: rest) (cut_at len encl k (marks_from wide (str_len (pre ++ item) + len_utf8 c) s' rest) (str_len pre) eq)).
    { intros k' eq' Hv'. specialize (IH s' k' pre (item ++ [c]) eq' len). rewrite <- !app_assoc in IH. cbn [app] in IH. rewrite (app_assoc pre item [c]), (str_len_app (pre ++ item) [c]) in IH.
      replace (str_len [c]) with (len_utf8 c) in IH by (cbn; lia). by apply IH. }
    destruct (scan_char wide (str_len (pre ++ item)) c s).2 as [m|] eqn:Hm; cbn [option_list option_rect app]; [|by apply Hon, starts_value_more].
    apply scan_mark in Hm as [[-> Hc]|[[-> ->]|[-> | ->]]]; cbn [cut_at].
    + destruct (encl k); [by apply Hon, starts_value_more|]. apply cut_next; [done|done|]. specialize (IH s' (S k) (pre ++ item ++ [c]) [] None len). rewrite app_nil_r in IH. cbn [app] in IH.
      replace (str_len (pre ++ item ++ [c])) with (str_len (pre ++ item) + len_utf8 c)%nat in IH by (rewrite (app_assoc pre item [c]), (str_len_app (pre ++ item) [c]); cbn; lia).
      apply IH; [|done]. rewrite Hlen. by simplify_list_eq.
    + apply Hon. destruct (encl k); [by apply starts_value_more|]. destruct eq as [e|]; [by apply starts_value_more|]. exists item, []. split; [done|apply str_len_app].
    + by apply Hon, starts_value_more.
    + by apply Hon, starts_value_more.
Qed.

Lemma item_spans_up text wide : exists spans, item_spans text wide = Some spans /\ cut_up wide [] text spans.
Proof. rewrite item_spans_cuts. eexists. split; [done|]. apply (cuts_up wide _ text scan_start 0 [] [] None); done. Qed.

(** The items, as slices: what stands between the commas. *)
Lemma slices_join pre s spans : cut_up false pre s spans -> exists items, mapM (fun span => str_slice (pre ++ s) (start span) (end_ span)) spans = Some items /\ items <> [] /\ join_with 44 items = s.
Proof.
  induction 1 as [pre item eq Hv|pre item sep rest eq spans Hv Hs Hc (items & Hm & Hne & <-)].
  - exists [item]. cbn. rewrite str_len_app. rewrite <- (app_nil_r item) at 1. rewrite str_slice_mid. done.
  - exists (item :: items). cbn [mapM start end_]. rewrite str_len_app, str_slice_mid. cbn [mbind option_bind].
    unfold is_comma in Hs. rewrite andb_false_r, orb_false_r in Hs. apply Z.eqb_eq in Hs. subst sep. rewrite <- !app_assoc in Hm. cbn [app] in Hm. rewrite Hm. cbn [mbind option_bind]. split; [done|]. split; [done|].
    destruct items as [|i items]; [done|]. by rewrite join_with_cons.
Qed.

(** C30: a list is cut into items without a panic: at the commas outside quotes
    that no pair of parentheses with a balanced run between encloses, and nowhere
    else; the items with the commas between them are the text, and the [=] noted
    of an item is one in it. *)
Theorem lists_are_cut_outside_groups text wide : let marks := marks_from wide 0 scan_start text in
  exists spans encl, item_spans text wide = Some spans /\ spans = cut_at (str_len text) encl 0 marks 0 None
    /\ (forall k, marks !! k <> Some Close -> encl k = true <-> enclosed marks k)
    /\ cut_up wide [] text spans
    /\ (exists items, split_items text = Some items /\ join_with 44 items = text).
Proof.
  intros marks. destruct (item_spans_up text wide) as (spans & Hs & Hu). exists spans, (grouped marks). split; [done|]. rewrite item_spans_cuts in Hs. split; [by injection Hs|].
  split; [intros k Hk; unfold grouped; rewrite negb_true_iff; by apply depth_zero|]. split; [done|]. unfold split_items. destruct (item_spans_up text false) as (spans' & -> & Hu'). cbn [mbind option_bind].
  apply slices_join in Hu' as (items & Hm & _ & Hj). by exists items.
Qed.

(** ** What the items of a list say
    Reading a list never panics, and a list of values and parameters, each written
    plainly or in quotes with white space around, reads back as them. *)

(** *** Quotes pair up *)

Lemma partner_from_spec q text : forall i skip at_, partner_from i text q skip = Some at_ -> exists a b, text = a ++ q :: b /\ at_ = (i + str_len a)%nat.
Proof.
  induction text as [|c text IH]; intros i skip at_; cbn [partner_from]; [done|].
  assert (Hon : forall skip, partner_from (i + len_utf8 c) text q skip = Some at_ -> exists a b, c :: text = a ++ q :: b /\ at_ = (i + str_len a)%nat).
  { intros sk Hp. apply IH in Hp as (a & b & -> & ->). exists (c :: a), b. split; [done|]. rewrite str_len_cons. lia. }
  destruct skip; [apply Hon|]. destruct ((q =? 34) && (c =? 92)); [apply Hon|]. destruct (Z.eqb_spec c q) as [->|]; [|apply Hon]. intros [= <-]. exists [], text. split; [done|cbn; lia].
Qed.

(** A text wholly in quotes is them and what is inside. *)
Lemma wholly_quoted_spec s : exists r, wholly_quoted s = Some r.
Proof.
  unfold wholly_quoted. destruct s as [|q s]; [eauto|]. destruct (is_quote q) eqn:Hq; [|eauto]. cbn [partner]. destruct (partner_from (len_utf8 q) s q false) as [at_|] eqn:Hp; [|eauto].
  destruct (at_ =? str_len (q :: s) - 1)%nat eqn:He; [|cbn; eauto]. cbn [negb]. apply partner_from_spec in Hp as (a & b & -> & ->). apply Nat.eqb_eq in He.
  assert (Hq1 : len_utf8 q = 1%nat) by (unfold is_quote in Hq; apply orb_true_iff in Hq as [->%Z.eqb_eq| ->%Z.eqb_eq]; done).
  rewrite str_len_cons, str_len_app, str_len_cons, Hq1 in He. destruct b as [|c b]; [|pose proof (len_utf8_pos c); rewrite str_len_cons in He; lia].
  pose proof (str_slice_mid [q] a [q]) as Hs. replace (str_len [q]) with 1%nat in Hs by (cbn; lia). rewrite str_len_cons, str_len_app, Hq1.
  replace (1 + (str_len a + str_len [q]) - 1)%nat with (1 + str_len a)%nat by (cbn; lia). cbn [app] in Hs. rewrite Hs. cbn. eauto.
Qed.

(** *** Nothing panics *)

Lemma read_field_total item eq : starts_value item 0 eq -> exists r, read_field item eq = Some r.
Proof.
  intros Hv. unfold read_field. case_bool_decide; [eauto|]. destruct (wholly_quoted_spec (trim item)) as ([inner|] & ->); cbn [mbind option_bind]; [eauto|].
  destruct eq as [e|]; cbn [mbind option_bind]; [|eauto]. destruct Hv as (a & b & -> & ->). rewrite Nat.add_0_l, take_bytes_app. cbn [mbind option_bind]. case_bool_decide; [cbn; eauto|].
  change (a ++ 61 :: b) with (a ++ [61] ++ b). rewrite (app_assoc a [61] b). replace (str_len a + 1)%nat with (str_len (a ++ [61])) by (by rewrite str_len_app). rewrite drop_bytes_app. cbn [mbind option_bind].
  destruct (wholly_quoted_spec (trim b)) as (r & ->). cbn. eauto.
Qed.

(** A field at its span: the [=] counted from its start. *)
Lemma span_field_at pre item post sep_end eq : starts_value item (str_len pre) eq ->
  exists eq', eq = (fun at_ => str_len pre + at_)%nat <$> eq' /\ starts_value item 0 eq' /\ span_field (pre ++ item ++ post) (mkSpan (str_len pre) (str_len (pre ++ item)) sep_end eq) = read_field item eq'.
Proof.
  intros Hv. unfold span_field. cbn [start end_ Values.eq]. rewrite str_len_app, str_slice_mid. cbn [mbind option_bind]. destruct eq as [e|]; cbn [mbind option_bind].
  - destruct Hv as (a & b & -> & ->). exists (Some (str_len a)). split; [done|]. split; [by exists a, b|]. rewrite sub_ok_add. done.
  - by exists None.
Qed.

Lemma fields_total pre s spans : cut_up false pre s spans -> exists fs, mapM (span_field (pre ++ s)) spans = Some fs.
Proof.
  induction 1 as [pre item eq Hv|pre item sep rest eq spans Hv Hs Hc (fs & Hm)].
  - destruct (span_field_at pre item [] (str_len (pre ++ item)) eq Hv) as (eq' & _ & Hv' & Hf). rewrite app_nil_r in Hf. cbn [mapM]. rewrite Hf. destruct (read_field_total item eq' Hv') as (r & ->). cbn. eauto.
  - cbn [mapM]. destruct (span_field_at pre item (sep :: rest) (str_len (pre ++ item) + len_utf8 sep) eq Hv) as (eq' & _ & Hv' & ->). destruct (read_field_total item eq' Hv') as (r & ->). cbn [mbind option_bind].
    rewrite <- !app_assoc in Hm. cbn [app] in Hm. rewrite Hm. cbn. eauto.
Qed.

Lemma split_fields_total s : exists fs, split_fields s = Some fs.
Proof. unfold split_fields. destruct (item_spans_up s false) as (spans & -> & Hu). cbn [mbind option_bind]. destruct (fields_total [] s spans Hu) as (fs & Hf). cbn [app] in Hf. rewrite Hf. cbn. eauto. Qed.

(** *** A list in parts *)

Definition shift_mark (n : nat) (m : Mark) : Mark := match m with Comma at_ w => Comma (n + at_) w | EqAt at_ => EqAt (n + at_) | m => m end.

Lemma scan_shift wide n i c s : scan_char wide (n + i) c s = ((scan_char wide i c s).1, shift_mark n <$> (scan_char wide i c s).2).
Proof. unfold scan_char. destruct s as [a e [q|] []]; repeat case_match; done. Qed.

Lemma marks_shift wide n s text : forall i, marks_from wide (n + i) s text = map (shift_mark n) (marks_from wide i s text).
Proof.
  revert s. induction text as [|c text IH]; intros s i; [done|]. rewrite !marks_cons, map_app, scan_shift. cbn [fst snd]. rewrite <- Nat.add_assoc, IH. f_equal. by destruct (scan_char wide i c s).2.
Qed.

Lemma after_shift wide s text : forall i j, after wide i s text = after wide j s text.
Proof.
  revert s. induction text as [|c text IH]; intros s i j; [done|]. cbn [after]. rewrite <- (Nat.add_0_r i), <- (Nat.add_0_r j). rewrite !(scan_shift wide _ 0). cbn [fst]. apply IH.
Qed.

(** Pairs go by the kinds of the marks only. *)
Lemma pairs_shift_mark n marks : forall k open, pairs_from k (map (shift_mark n) marks) open = pairs_from k marks open.
Proof. induction marks as [|m marks IH]; intros k open; [done|]. destruct m; cbn [map shift_mark pairs_from]; try apply IH. destruct open; [apply IH|]. f_equal. apply IH. Qed.

Lemma grouped_shift n marks k : grouped (map (shift_mark n) marks) k = grouped marks k.
Proof. unfold grouped. by rewrite pairs_shift_mark. Qed.

Definition up (n : nat) (p : nat * nat) : nat * nat := (n + p.1, n + p.2)%nat.

Lemma pairs_up n marks : forall k open, pairs_from (n + k) marks (map (Nat.add n) open) = map (up n) (pairs_from k marks open).
Proof.
  induction marks as [|m marks IH]; intros k open; [done|]. destruct m; cbn [pairs_from]; rewrite <- ?Nat.add_succ_r; try apply IH.
  - apply (IH (S k) (k :: open)).
  - destruct open as [|o open]; cbn [map]; rewrite <- ?Nat.add_succ_r; [apply (IH (S k) [])|]. f_equal. apply IH.
Qed.

Lemma depth_app p q k : depth_at (p ++ q) k = (depth_at p k + depth_at q k)%nat.
Proof. unfold depth_at, count. by rewrite List.filter_app, length_app. Qed.

Lemma depth_none pairs k : Forall (fun p => k <= p.1 \/ p.2 < k)%nat pairs -> depth_at pairs k = 0%nat.
Proof.
  unfold depth_at, count. induction 1 as [|p pairs Hp Hf IH]; [done|]. cbn [List.filter]. destruct (Nat.ltb_spec p.1 k), (Nat.leb_spec k p.2); cbn [andb]; try exact IH. lia.
Qed.

Lemma depth_up n pairs k : depth_at (map (up n) pairs) (n + k) = depth_at pairs k.
Proof.
  unfold depth_at, count. induction pairs as [|p pairs IH]; [done|]. cbn [map List.filter up fst snd].
  destruct (Nat.ltb_spec (n + p.1) (n + k)), (Nat.ltb_spec p.1 k), (Nat.leb_spec (n + k) (n + p.2)), (Nat.leb_spec k p.2); cbn [andb length]; lia.
Qed.

(** What is grouped in a balanced run, and after it. *)
Lemma grouped_app a b : balanced a -> forall k, grouped (a ++ b) k = if (k <? length a)%nat then grouped a k else grouped b (k - length a).
Proof.
  intros Ha k. unfold grouped. rewrite pairs_app, stack_balanced by done. cbn [Nat.add]. replace (pairs_from (length a) b []) with (map (up (length a)) (pairs_from 0 b [])) by (rewrite <- pairs_up; by rewrite Nat.add_0_r).
  rewrite depth_app. destruct (Nat.ltb_spec k (length a)) as [Hk|Hk].
  - rewrite (depth_none (map _ _)), Nat.add_0_r; [done|]. apply Forall_map, Forall_true. intros p. cbn. lia.
  - rewrite (depth_none (pairs_from 0 a [])).
    + cbn [Nat.add]. replace k with (length a + (k - length a))%nat at 1 by lia. by rewrite depth_up.
    + apply Forall_forall. intros [o c] Hp. right. destruct (pair_marks a o c Hp) as [_ Hc]. apply lookup_lt_Some in Hc. cbn [snd]. lia.
Qed.

(** *** Items that stand by themselves *)

Definition marks_of (s : rstr) : list Mark := marks_from false 0 scan_start s.

(** Its quotes are closed, its parentheses pair up, and its commas are inside
    them. *)
Definition whole (s : rstr) : Prop :=
  balanced (marks_of s) /\ (forall k at_ w, marks_of s !! k = Some (Comma at_ w) -> grouped (marks_of s) k = true)
  /\ quote (after false 0 scan_start s) = None /\ skip (after false 0 scan_start s) = false.

Fixpoint first_eq (encl : nat -> bool) (k : nat) (ms : list Mark) (eq : option nat) : option nat :=
  match ms with
  | [] => eq
  | EqAt at_ :: ms => first_eq encl (S k) ms (if encl k then eq else match eq with None => Some at_ | _ => eq end)
  | _ :: ms => first_eq encl (S k) ms eq
  end.

(** Where its value starts. *)
Definition eq_of (s : rstr) : option nat := first_eq (grouped (marks_of s)) 0 (marks_of s) None.

Lemma cut_run len encl ms a : forall k start eq, (forall j at_ w, a !! j = Some (Comma at_ w) -> encl (k + j)%nat = true) ->
  cut_at len encl k (a ++ ms) start eq = cut_at len encl (k + length a) ms start (first_eq encl k a eq).
Proof.
  induction a as [|m a IH]; intros k start eq Hc; [cbn; by rewrite Nat.add_0_r|]. cbn [app length]. rewrite <- Nat.add_succ_comm.
  assert (Hc' : forall j at_ w, a !! j = Some (Comma at_ w) -> encl (S k + j)%nat = true) by (intros j at_ w Hj; rewrite Nat.add_succ_comm; by apply (Hc (S j) at_ w)).
  destruct m as [at_ w| | |at_]; cbn [cut_at first_eq]; try (by apply IH). rewrite (eq_trans (f_equal encl (eq_sym (Nat.add_0_r k))) (Hc 0%nat at_ w eq_refl)). by apply IH.
Qed.

Lemma cut_ext len encl encl' ms : forall k k' start eq, (forall j, encl (k + j)%nat = encl' (k' + j)%nat) -> cut_at len encl k ms start eq = cut_at len encl' k' ms start eq.
Proof.
  induction ms as [|m ms IH]; intros k k' start eq He; [done|].
  assert (H0 : encl k = encl' k') by (specialize (He 0%nat); by rewrite !Nat.add_0_r in He). assert (Hs : forall j, encl (S k + j)%nat = encl' (S k' + j)%nat) by (intros j; specialize (He (S j)); by rewrite !Nat.add_succ_comm).
  destruct m; cbn [cut_at]; rewrite ?H0; try (by apply IH). destruct (encl' k'); [by apply IH|]. f_equal. by apply IH.
Qed.

Lemma first_eq_ext encl encl' n ms : forall k eq, (forall j, (j < length ms)%nat -> encl (k + j)%nat = encl' (k + j)%nat) ->
  first_eq encl k (map (shift_mark n) ms) (Nat.add n <$> eq) = Nat.add n <$> first_eq encl' k ms eq.
Proof.
  induction ms as [|m ms IH]; intros k eq He; [done|]. cbn [length] in He.
  assert (H0 : encl k = encl' k) by (specialize (He 0%nat); rewrite !Nat.add_0_r in He; apply He; lia).
  assert (Hs : forall j, (j < length ms)%nat -> encl (S k + j)%nat = encl' (S k + j)%nat) by (intros j Hj; rewrite !Nat.add_succ_comm; apply He; lia).
  destruct m; cbn [map shift_mark first_eq]; try (by apply IH). rewrite H0. rewrite <- IH by done. f_equal. by destruct (encl' k), eq.
Qed.

(** *** Items with commas between *)

Fixpoint spans_of (pre : rstr) (ws : list rstr) : list ItemSpan :=
  match ws with
  | [] => []
  | [w] => [mkSpan (str_len pre) (str_len (pre ++ w)) (str_len (pre ++ w)) (Nat.add (str_len pre) <$> eq_of w)]
  | w :: ws => mkSpan (str_len pre) (str_len (pre ++ w)) (str_len (pre ++ w) + 1) (Nat.add (str_len pre) <$> eq_of w) :: spans_of (pre ++ w ++ [44]) ws
  end.

Lemma shifted_comma n ms k at_ w : map (shift_mark n) ms !! k = Some (Comma at_ w) -> exists at_', ms !! k = Some (Comma at_' w).
Proof. change (map (shift_mark n) ms) with (shift_mark n <$> ms). rewrite list_lookup_fmap. destruct (ms !! k) as [[]|] eqn:E; cbn; try done. intros [= _ <-]. eauto. Qed.

Lemma balanced_shift n ms : balanced ms -> balanced (map (shift_mark n) ms).
Proof. induction 1; cbn [map shift_mark]; rewrite ?map_app; by constructor. Qed.

(** The comma after a whole item. *)
Lemma comma_after s i : quote s = None -> skip s = false -> scan_char false i 44 s = (scan_start, Some (Comma i 1)).
Proof. destruct s as [a e q sk]; cbn. intros -> ->. unfold scan_char. by rewrite !andb_false_r. Qed.

Lemma whole_run pre w ms : whole w -> let m := marks_from false (str_len pre) scan_start w in
  balanced m /\ forall start len, cut_at len (grouped (m ++ ms)) 0 (m ++ ms) start None = cut_at len (fun k => grouped ms (k - length m)%nat) (length m) ms start (Nat.add (str_len pre) <$> eq_of w).
Proof.
  intros (Hb & Hc & _ & _) m. assert (Hm : m = map (shift_mark (str_len pre)) (marks_of w)) by (unfold m; rewrite <- (Nat.add_0_r (str_len pre)) at 1; apply marks_shift).
  assert (Hbm : balanced m) by (rewrite Hm; by apply balanced_shift). split; [done|]. intros start len.
  assert (Hg : forall j, (j < length m)%nat -> grouped (m ++ ms) j = grouped (marks_of w) j).
  { intros j Hj. rewrite grouped_app by done. rewrite (proj2 (Nat.ltb_lt _ _)) by done. rewrite Hm. apply grouped_shift. }
  rewrite cut_run.
  - cbn [Nat.add]. replace (first_eq (grouped (m ++ ms)) 0 m None) with (Nat.add (str_len pre) <$> eq_of w).
    + apply cut_ext. intros j. rewrite grouped_app by done. by rewrite (proj2 (Nat.ltb_ge _ _)) by lia.
    + unfold eq_of. rewrite Hm at 2. symmetry. apply (first_eq_ext _ _ _ _ 0 None). intros j Hj. apply Hg. rewrite Hm, length_map. lia.
  - intros j at_ c Hj. rewrite Hg by (by eapply lookup_lt_Some). rewrite Hm in Hj. apply shifted_comma in Hj as (at_' & Hj). by eapply Hc.
Qed.

Lemma joined_cuts ws : forall pre len, Forall whole ws -> ws <> [] -> len = str_len (pre ++ join_with 44 ws) ->
  let m := marks_from false (str_len pre) scan_start (join_with 44 ws) in cut_at len (grouped m) 0 m (str_len pre) None = spans_of pre ws.
Proof.
  induction ws as [|w [|w' ws] IH]; intros pre len Hw Hne Hlen; [done| |].
  - apply Forall_inv in Hw. cbn [join_with spans_of] in *. cbv zeta. destruct (whole_run pre w [] Hw) as [_ Hc]. rewrite <- (app_nil_r (marks_from _ _ _ _)). rewrite Hc. cbn [cut_at]. by rewrite Hlen.
  - apply Forall_cons in Hw as [Hw Hws]. rewrite join_with_cons in *. cbv zeta.
    change (spans_of pre (w :: w' :: ws)) with (mkSpan (str_len pre) (str_len (pre ++ w)) (str_len (pre ++ w) + 1) (Nat.add (str_len pre) <$> eq_of w) :: spans_of (pre ++ w ++ [44]) (w' :: ws)).
    rewrite marks_app. destruct (whole_run pre w (marks_from false (str_len pre + str_len w) (after false (str_len pre) scan_start w) (44 :: join_with 44 (w' :: ws))) Hw) as [_ Hc].
    rewrite Hc. destruct Hw as (_ & _ & Hq & Hsk). rewrite (after_shift _ _ _ (str_len pre) 0), marks_cons, comma_after by done. cbn [fst snd option_list option_rect app cut_at].
    rewrite Nat.sub_diag. change (len_utf8 44) with 1%nat.
    set (m' := marks_from false (str_len pre + str_len w + 1) scan_start (join_with 44 (w' :: ws))).
    assert (Hg : forall k, grouped (Comma (str_len pre + str_len w) 1 :: m') k = if (k <? 1)%nat then false else grouped m' (k - 1)).
    { intros k. change (Comma (str_len pre + str_len w) 1 :: m') with ([Comma (str_len pre + str_len w) 1] ++ m'). by rewrite grouped_app by repeat constructor. }
    rewrite Hg. change (0 <? 1)%nat with true. cbv iota. rewrite <- str_len_app. f_equal.
    assert (Hpre : str_len (pre ++ w ++ [44]) = (str_len (pre ++ w) + 1)%nat) by (rewrite (app_assoc pre w [44]), (str_len_app (pre ++ w) [44]); cbn; lia).
    rewrite <- (IH (pre ++ w ++ [44]) len Hws ltac:(done)) by (rewrite Hlen; by simplify_list_eq). rewrite Hpre. unfold m'. rewrite <- str_len_app. apply cut_ext. intros j. rewrite str_len_app, Hg. rewrite (proj2 (Nat.ltb_ge _ _)) by lia. f_equal. lia.
Qed.

Lemma span_field_of pre w post se : span_field (pre ++ w ++ post) (mkSpan (str_len pre) (str_len (pre ++ w)) se (Nat.add (str_len pre) <$> eq_of w)) = read_field w (eq_of w).
Proof. unfold span_field. cbn [start end_ Values.eq]. rewrite str_len_app, str_slice_mid. cbn [mbind option_bind]. destruct (eq_of w) as [e|]; cbn [fmap option_fmap option_map]; [|done]. by rewrite sub_ok_add. Qed.

Lemma joined_fields ws : forall pre, ws <> [] -> mapM (span_field (pre ++ join_with 44 ws)) (spans_of pre ws) = mapM (fun w => read_field w (eq_of w)) ws.
Proof.
  induction ws as [|w [|w' ws] IH]; intros pre Hne; [done| |].
  - cbn [spans_of join_with mapM]. by rewrite <- (app_nil_r w) at 1; rewrite span_field_of.
  - rewrite join_with_cons. change (spans_of pre (w :: w' :: ws)) with (mkSpan (str_len pre) (str_len (pre ++ w)) (str_len (pre ++ w) + 1) (Nat.add (str_len pre) <$> eq_of w) :: spans_of (pre ++ w ++ [44]) (w' :: ws)).
    cbn [mapM]. rewrite span_field_of. cbn [mbind option_bind]. destruct (read_field w (eq_of w)) as [r|]; [|done]. cbn [mbind option_bind]. specialize (IH (pre ++ w ++ [44]) ltac:(done)). rewrite <- !app_assoc in IH. cbn [app] in IH. rewrite IH. done.
Qed.

(** Whole items, with commas between, are read one by one. *)
Lemma split_fields_joined ws : Forall whole ws -> ws <> [] -> split_fields (join_with 44 ws) = omap id <$> mapM (fun w => read_field w (eq_of w)) ws.
Proof.
  intros Hw Hne. unfold split_fields. rewrite item_spans_cuts. cbn [mbind option_bind]. f_equal. pose proof (joined_cuts ws [] (str_len (join_with 44 ws)) Hw Hne eq_refl) as Hc. cbn [str_len sum_list_with app] in Hc. cbv zeta in Hc. rewrite Hc.
  by apply (joined_fields ws []).
Qed.

(** *** How items are written *)

Fixpoint escape (s : rstr) : rstr := match s with [] => [] | c :: s => if (c =? 34) || (c =? 92) then 92 :: c :: escape s else c :: escape s end.

Inductive Item := IText (s : rstr) | IQuoted (s : rstr) | IParam (key value : rstr) | IQuotedParam (key value : rstr).

Definition in_quotes (s : rstr) : rstr := 34 :: escape s ++ [34].

Definition write (it : Item) : rstr :=
  match it with
  | IText s => s
  | IQuoted s => in_quotes s
  | IParam k v => k ++ 61 :: v
  | IQuotedParam k v => k ++ 61 :: in_quotes v
  end.

Definition field_of (it : Item) : Field :=
  match it with
  | IText s | IQuoted s => mkField s None
  | IParam k v | IQuotedParam k v => mkField (k ++ 61 :: v) (Some (k, v))
  end.

(** No white space at the ends. *)
Definition solid (s : rstr) : bool := match head s, last s with Some c, Some d => negb (is_whitespace c) && negb (is_whitespace d) | _, _ => true end.
Definition unquoted (s : rstr) : bool := match s with c :: _ => negb (is_quote c) | [] => true end.
Definition plain_char (c : Z) : bool := negb ((c =? 44) || (c =? 40) || (c =? 41) || (c =? 61)).

Definition key_ok (k : rstr) : Prop := k <> [] /\ solid k = true /\ unquoted k = true /\ forallb plain_char k = true.

(** What can be written which way: a plain text or value is one that does not
    look like another item. *)
Definition item_ok (it : Item) : Prop :=
  match it with
  | IText s => s <> [] /\ solid s = true /\ unquoted s = true /\ whole s /\ eq_of s = None
  | IQuoted s => s <> []
  | IParam k v => key_ok k /\ solid v = true /\ unquoted v = true /\ whole (k ++ 61 :: v)
  | IQuotedParam k v => key_ok k
  end.

(** *** The characters of an item *)

Lemma unescape_escape s : unescape (escape s) = s.
Proof.
  induction s as [|c s IH]; [done|]. cbn [escape]. destruct ((c =? 34) || (c =? 92)) eqn:Hc.
  - cbn [unescape]. change (92 =? 92) with true. cbv iota. rewrite IH. destruct (Z.eqb_spec c 34) as [->|]; [done|]. destruct (Z.eqb_spec c 92) as [->|]; [done|done].
  - cbn [unescape]. apply orb_false_iff in Hc as [_ ->]. by rewrite IH.
Qed.

Lemma partner_escaped s t : forall i, partner_from i (escape s ++ 34 :: t) 34 false = Some (i + str_len (escape s))%nat.
Proof.
  induction s as [|c s IH]; intros i; cbn [escape app partner_from]; [cbn; f_equal; lia|]. change (34 =? 34) with true. destruct ((c =? 34) || (c =? 92)) eqn:Hc; cbn [app partner_from andb].
  - change (92 =? 92) with true. change (34 =? 34) with true. cbv iota. cbn [andb]. rewrite IH, !str_len_cons. f_equal. lia.
  - apply orb_false_iff in Hc as [-> ->]. rewrite IH, str_len_cons. f_equal. lia.
Qed.

Lemma wholly_in_quotes s : wholly_quoted (in_quotes s) = Some (Some s).
Proof.
  unfold in_quotes, wholly_quoted. change (is_quote 34) with true. cbv iota. cbn [partner]. rewrite partner_escaped. change (len_utf8 34) with 1%nat. rewrite str_len_cons, str_len_app. change (len_utf8 34) with 1%nat. change (str_len [34]) with 1%nat.
  replace (1 + (str_len (escape s) + 1) - 1)%nat with (1 + str_len (escape s))%nat by lia. rewrite Nat.eqb_refl. cbn [negb].
  pose proof (str_slice_mid [34] (escape s) [34]) as Hs. change (str_len [34]) with 1%nat in Hs. cbn [app] in Hs. rewrite Hs. cbn [mbind option_bind]. change (34 =? 34) with true. cbv iota. by rewrite unescape_escape.
Qed.

Lemma unquoted_not_quoted s : unquoted s = true -> wholly_quoted s = Some None.
Proof. destruct s as [|c s]; [done|]. cbn. by intros ->%negb_true_iff. Qed.

Lemma drop_white l s : forallb is_whitespace l = true -> drop_while is_whitespace (l ++ s) = drop_while is_whitespace s.
Proof. induction l as [|c l IH]; [done|]. cbn. intros [-> Hl]%andb_true_iff. by apply IH. Qed.

Lemma all_reverse {A} (p : A -> bool) l : forallb p l = true -> forallb p (reverse l) = true.
Proof. rewrite !forallb_forall. intros Hl x Hx. apply Hl. apply list_elem_of_In, elem_of_reverse. by apply list_elem_of_In. Qed.

Lemma solid_drop c s : is_whitespace c = false -> drop_while is_whitespace (c :: s) = c :: s.
Proof. cbn. by intros ->. Qed.

Lemma trim_padded l s r : forallb is_whitespace l = true -> forallb is_whitespace r = true -> solid s = true -> trim (l ++ s ++ r) = s.
Proof.
  intros Hl Hr Hs. unfold trim, trim_by, trim_end_by. rewrite drop_white by done. destruct s as [|c s].
  - cbn [app]. rewrite (drop_while_nil _ r); [done|]. apply Forall_forall. intros x Hx. rewrite forallb_forall in Hr. apply Hr. by apply list_elem_of_In.
  - unfold solid in Hs. cbn [head] in Hs. destruct (last (c :: s)) as [d|] eqn:Hd; [|by apply last_None in Hd]. apply andb_true_iff in Hs as [Hc%negb_true_iff Hdw%negb_true_iff].
    cbn [app]. rewrite solid_drop by done. change (c :: s ++ r) with ((c :: s) ++ r). rewrite reverse_app, drop_white by (by apply all_reverse). apply last_Some in Hd as (t & Ht). rewrite Ht, reverse_snoc, solid_drop by done. by rewrite reverse_cons, reverse_involutive.
Qed.

Lemma trim_of_solid s : solid s = true -> trim s = s.
Proof. intros Hs. pose proof (trim_padded [] s [] eq_refl eq_refl Hs) as Ht. by rewrite app_nil_r in Ht. Qed.

Lemma after_app wide i s a b : after wide i s (a ++ b) = after wide (i + str_len a) (after wide i s a) b.
Proof. revert i s. induction a as [|c a IH]; intros i s; [cbn; by rewrite Nat.add_0_r|]. cbn [app after]. rewrite IH, str_len_cons. f_equal. lia. Qed.

(** White space around an item changes where its value starts, and no more. *)
Lemma scan_white_char i c s : is_whitespace c = true -> quote s = None -> skip s = false -> scan_char false i c s = (s, None).
Proof.
  intros Hc. destruct s as [a e q k]. cbn. intros -> ->. unfold scan_char. rewrite Hc. destruct a; [done|]. unfold is_whitespace in Hc.
  replace (c =? 44) with false by lia. rewrite andb_false_r. replace (c =? 40) with false by lia. replace (c =? 41) with false by lia. by replace (c =? 61) with false by lia.
Qed.

Lemma scan_white r : forallb is_whitespace r = true -> forall i s, quote s = None -> skip s = false -> marks_from false i s r = [] /\ after false i s r = s.
Proof.
  induction r as [|c r IH]; intros Hr i s Hq Hk; [done|]. cbn in Hr. apply andb_true_iff in Hr as [Hc Hr]. rewrite marks_cons. cbn [after]. rewrite scan_white_char by done. cbn [fst snd option_list option_rect app]. by apply IH.
Qed.

Lemma marks_padded l w r : forallb is_whitespace l = true -> forallb is_whitespace r = true -> whole w ->
  marks_of (l ++ w ++ r) = map (shift_mark (str_len l)) (marks_of w) /\ whole (l ++ w ++ r) /\ eq_of (l ++ w ++ r) = Nat.add (str_len l) <$> eq_of w.
Proof.
  intros Hl Hr (Hb & Hc & Hq & Hk).
  assert (Hw0 : forall i, after false i scan_start w = after false 0 scan_start w) by (intros i; apply after_shift).
  assert (Hm : marks_of (l ++ w ++ r) = map (shift_mark (str_len l)) (marks_of w)).
  { unfold marks_of. destruct (scan_white l Hl 0 scan_start eq_refl eq_refl) as [Hlm Hla]. rewrite marks_app, Hlm, Hla, marks_app, Hw0. destruct (scan_white r Hr (0 + str_len l + str_len w) _ Hq Hk) as [-> _]. cbn [app]. rewrite app_nil_r.
    rewrite <- (Nat.add_0_r (str_len l)) at 1. cbn [Nat.add]. apply (marks_shift false (str_len l) scan_start w 0). }
  split; [done|]. split.
  - unfold whole. rewrite Hm. split; [by apply balanced_shift|]. split.
    + intros k at_ c Hkm. rewrite grouped_shift. apply shifted_comma in Hkm as (at_' & Hkm). by eapply Hc.
    + rewrite !after_app. destruct (scan_white l Hl 0 scan_start eq_refl eq_refl) as [_ ->]. rewrite Hw0. by destruct (scan_white r Hr (0 + str_len l + str_len w) _ Hq Hk) as [_ ->].
  - unfold eq_of. rewrite Hm. apply (first_eq_ext _ _ _ _ 0 None). intros j _. apply grouped_shift.
Qed.

(** *** What each way of writing comes to *)

Lemma scan_quoted s : forall i a e, marks_from false i (mkScan a e (Some 34) false) (escape s) = [] /\ after false i (mkScan a e (Some 34) false) (escape s) = mkScan a e (Some 34) false.
Proof.
  induction s as [|c s IH]; intros i a e; [done|]. cbn [escape]. destruct ((c =? 34) || (c =? 92)) eqn:Hc; rewrite marks_cons; cbn [after].
  - change (scan_char false i 92 (mkScan a e (Some 34) false)) with (mkScan a e (Some 34) true, @None Mark). cbn [fst snd option_list option_rect app]. rewrite marks_cons. cbn [after].
    change (scan_char false (i + len_utf8 92) c (mkScan a e (Some 34) true)) with (mkScan a e (Some 34) false, @None Mark). cbn [fst snd option_list option_rect app]. apply IH.
  - apply orb_false_iff in Hc as [H1 H2]. assert (Hs : scan_char false i c (mkScan a e (Some 34) false) = (mkScan a e (Some 34) false, None)) by (unfold scan_char; by rewrite H2, H1, andb_false_r). rewrite Hs. cbn [fst snd option_list option_rect app]. apply IH.
Qed.

Lemma scan_in_quotes s i e : marks_from false i (mkScan true e None false) (in_quotes s) = [] /\ after false i (mkScan true e None false) (in_quotes s) = mkScan false e None false.
Proof.
  unfold in_quotes. rewrite marks_cons. cbn [after]. assert (Hs : scan_char false i 34 (mkScan true e None false) = (mkScan false e (Some 34) false, None)) by done. rewrite Hs. cbn [fst snd option_list option_rect app].
  rewrite marks_app, after_app. destruct (scan_quoted s (i + len_utf8 34) false e) as [-> ->]. done.
Qed.

Lemma scan_plain s : forallb plain_char s = true -> forall i e, marks_from false i (mkScan false e None false) s = [] /\ after false i (mkScan false e None false) s = mkScan false e None false.
Proof.
  induction s as [|c s IH]; intros Hs i e; [done|]. cbn [forallb] in Hs. apply andb_true_iff in Hs as [Hc Hs]. rewrite marks_cons. cbn [after]. unfold plain_char in Hc.
  assert (Hsc : scan_char false i c (mkScan false e None false) = (mkScan false e None false, None)).
  { unfold scan_char. cbn [andb]. replace (c =? 44) with false by lia. rewrite andb_false_r. replace (c =? 40) with false by lia. replace (c =? 41) with false by lia. by replace (c =? 61) with false by lia. }
  rewrite Hsc. cbn [fst snd option_list option_rect app]. by apply IH.
Qed.

Lemma scan_key k : key_ok k -> forall i, marks_from false i scan_start k = [] /\ after false i scan_start k = mkScan false false None false.
Proof.
  intros (Hne & Hs & Hu & Hp) i. destruct k as [|c k]; [done|]. rewrite marks_cons. cbn [after]. cbn [forallb] in Hp. apply andb_true_iff in Hp as [Hc Hp]. cbn [unquoted] in Hu. apply negb_true_iff in Hu.
  assert (Hw : is_whitespace c = false) by (unfold solid in Hs; cbn [head] in Hs; destruct (last (c :: k)) eqn:Hd; [|by apply last_None in Hd]; apply andb_true_iff in Hs as [Hs _]; by apply negb_true_iff).
  unfold plain_char in Hc. assert (Hsc : scan_char false i c scan_start = (mkScan false false None false, None)).
  { unfold scan_char, scan_start. rewrite Hw, Hu. cbn [andb]. replace (c =? 44) with false by lia. rewrite andb_false_r. replace (c =? 40) with false by lia. replace (c =? 41) with false by lia. by replace (c =? 61) with false by lia. }
  rewrite Hsc. cbn [fst snd option_list option_rect app]. by apply scan_plain.
Qed.

(** After a key and its [=]. *)
Lemma marks_param k v : key_ok k -> marks_of (k ++ 61 :: v) = EqAt (str_len k) :: marks_from false (str_len k + 1) (mkScan true true None false) v
  /\ after false 0 scan_start (k ++ 61 :: v) = after false (str_len k + 1) (mkScan true true None false) v.
Proof.
  intros Hk. unfold marks_of. rewrite marks_app, after_app. destruct (scan_key k Hk 0) as [-> ->]. rewrite marks_cons. cbn [after Nat.add app]. done.
Qed.

Lemma eq_of_param k v : key_ok k -> eq_of (k ++ 61 :: v) = Some (str_len k).
Proof.
  intros Hk. unfold eq_of. destruct (marks_param k v Hk) as [-> _]. cbn [first_eq]. unfold grouped at 2. rewrite depth_at_0. change (negb (0 =? 0)%nat) with false. cbv iota. generalize 1%nat, (marks_from false (str_len k + 1) (mkScan true true None false) v). intros n ms. revert n.
  generalize (grouped (EqAt (str_len k) :: ms)). intros encl. induction ms as [|m ms IH]; intros n; [done|]. destruct m; cbn [first_eq]; try apply IH. destruct (encl n); apply IH.
Qed.

Lemma eq_of_none s : marks_of s = [] -> eq_of s = None.
Proof. unfold eq_of. by intros ->. Qed.

Lemma whole_write it : item_ok it -> whole (write it).
Proof.
  destruct it as [s|s|k v|k v]; cbn [item_ok write]; [naive_solver| |naive_solver|]; intros Hk.
  - destruct (scan_in_quotes s 0 false) as [Hm Ha]. unfold whole, marks_of. unfold scan_start. rewrite Hm, Ha. split; [constructor|]. split; [done|done].
  - destruct (marks_param k (in_quotes v) Hk) as [Hm Ha]. destruct (scan_in_quotes v (str_len k + 1) true) as [Hm' Ha']. unfold whole. rewrite Hm, Ha, Hm', Ha'. split; [repeat constructor|]. split; [|done]. intros [|j] at_ w Hj; by destruct j || done.
Qed.

Lemma solid_cons c s d t : c :: s = t ++ [d] -> is_whitespace c = false -> is_whitespace d = false -> solid (c :: s) = true.
Proof. intros Heq Hc Hd. unfold solid. cbn [head]. rewrite Heq, last_snoc. by rewrite Hc, Hd. Qed.

Lemma solid_head c s : solid (c :: s) = true -> is_whitespace c = false.
Proof. unfold solid. cbn [head]. destruct (last (c :: s)) eqn:Hd; [|by apply last_None in Hd]. intros [Hs _]%andb_true_iff. by apply negb_true_iff. Qed.

Lemma solid_param k v : key_ok k -> solid v = true -> solid (k ++ 61 :: v) = true.
Proof.
  intros (Hne & Hs & _ & _) Hv. destruct k as [|c k]; [done|]. apply solid_head in Hs. destruct (last (61 :: v)) as [d|] eqn:Hd; [|by apply last_None in Hd].
  assert (Hdw : is_whitespace d = false).
  { destruct v as [|x v]; [by injection Hd as <-|]. unfold solid in Hv. cbn [head] in Hv. change (last (x :: v) = Some d) in Hd. rewrite Hd in Hv. apply andb_true_iff in Hv as [_ Hv]. by apply negb_true_iff. }
  apply last_Some in Hd as (t & Ht). rewrite Ht. apply (solid_cons c (k ++ t ++ [d]) d ((c :: k) ++ t)); [by simplify_list_eq|done|done].
Qed.

Lemma solid_write it : item_ok it -> solid (write it) = true.
Proof.
  assert (Hq : forall v, solid (in_quotes v) = true) by (intros v; by apply (solid_cons 34 (escape v ++ [34]) 34 (34 :: escape v))).
  destruct it as [s|s|k v|k v]; cbn [item_ok write]; [naive_solver|intros _; apply Hq| |]; intros Hk; apply solid_param; try apply Hk. apply Hq.
Qed.

(** A padded item reads as its field. *)
Lemma read_padded l it r : forallb is_whitespace l = true -> forallb is_whitespace r = true -> item_ok it -> read_field (l ++ write it ++ r) (Nat.add (str_len l) <$> eq_of (write it)) = Some (Some (field_of it)).
Proof.
  intros Hl Hr Hok. pose proof (solid_write it Hok) as Hs. unfold read_field. rewrite trim_padded by done.
  assert (Hparam : forall (k written : rstr), key_ok k -> write it = k ++ 61 :: written -> solid written = true ->
    take_bytes (str_len l + str_len k) (l ++ write it ++ r) = Some (l ++ k) /\ drop_bytes (str_len l + str_len k + 1) (l ++ write it ++ r) = Some (written ++ r) /\ trim (l ++ k) = k /\ trim (written ++ r) = written).
  { intros k written (Hne & Hk & _ & _) -> Hsw. rewrite <- str_len_app. split; [rewrite <- app_assoc, app_assoc; apply take_bytes_app|]. split.
    - replace (str_len (l ++ k) + 1)%nat with (str_len (l ++ k ++ [61])) by (rewrite (app_assoc l k [61]), (str_len_app (l ++ k) [61]); done). replace (l ++ (k ++ 61 :: written) ++ r) with ((l ++ k ++ [61]) ++ written ++ r) by (by simplify_list_eq). apply drop_bytes_app.
    - split; [|by apply (trim_padded [])]. pose proof (trim_padded l k [] Hl eq_refl Hk) as Ht. by rewrite app_nil_r in Ht. }
  destruct it as [s|s|k v|k v]; cbn [item_ok write field_of] in *.
  - destruct Hok as (Hne & _ & Hu & _ & ->). rewrite bool_decide_eq_false_2 by done. rewrite unquoted_not_quoted by done. done.
  - rewrite bool_decide_eq_false_2 by done. rewrite wholly_in_quotes. cbn [mbind option_bind]. by rewrite bool_decide_eq_false_2 by done.
  - destruct Hok as (Hk & Hsv & Hu & _). rewrite eq_of_param by done. rewrite bool_decide_eq_false_2 by (intros Hn; by apply app_eq_nil in Hn as [_ Hn]). destruct (Hparam k v Hk eq_refl Hsv) as (Ht & Hd & Htk & Htv). destruct Hk as (Hne & _ & Hku & _).
    rewrite unquoted_not_quoted by (by destruct k). cbn [mbind option_bind fmap option_fmap option_map]. rewrite Ht. cbn [mbind option_bind]. rewrite Htk, bool_decide_eq_false_2 by done. rewrite Hd. cbn [mbind option_bind]. by rewrite Htv, unquoted_not_quoted.
  - assert (Hsq : solid (in_quotes v) = true) by (by apply (solid_cons 34 (escape v ++ [34]) 34 (34 :: escape v))).
    rewrite eq_of_param by done. rewrite bool_decide_eq_false_2 by (intros Hn; by apply app_eq_nil in Hn as [_ Hn]). destruct (Hparam k _ Hok eq_refl Hsq) as (Ht & Hd & Htk & Htv). destruct Hok as (Hne & _ & Hku & _).
    rewrite unquoted_not_quoted by (by destruct k). cbn [mbind option_bind fmap option_fmap option_map]. rewrite Ht. cbn [mbind option_bind]. rewrite Htk, bool_decide_eq_false_2 by done. rewrite Hd. cbn [mbind option_bind]. by rewrite Htv, wholly_in_quotes.
Qed.

(** *** The list *)

(** An item with the white space around it. *)
Record Padded := mkPadded { before : rstr; item : Item; behind : rstr }.
Definition padded_ok (p : Padded) : Prop := forallb is_whitespace (before p) = true /\ forallb is_whitespace (behind p) = true /\ item_ok (item p).
Definition write_padded (p : Padded) : rstr := before p ++ write (item p) ++ behind p.

Lemma list_reads ps : ps <> [] -> Forall padded_ok ps -> split_fields (join_with 44 (map write_padded ps)) = Some (map (fun p => field_of (item p)) ps).
Proof.
  intros Hne Hok. rewrite split_fields_joined.
  - induction Hok as [|p ps (Hl & Hr & Hi) Hok IH]; [done|]. cbn [map mapM]. change (write_padded p) with (before p ++ write (item p) ++ behind p). destruct (marks_padded (before p) (write (item p)) (behind p) Hl Hr (whole_write _ Hi)) as (_ & _ & ->). rewrite read_padded by done. cbn [mbind option_bind].
    destruct ps as [|q ps]; [done|]. specialize (IH ltac:(done)). destruct (mapM _ (map write_padded (q :: ps))) as [fs|]; [|done]. cbn in *. injection IH as ->. done.
  - apply Forall_map. eapply Forall_impl; [exact Hok|]. intros p (Hl & Hr & Hi). by apply marks_padded; [done|done|apply whole_write].
  - by destruct ps.
Qed.

(** Reading a list never panics; and any values and parameters, each written
    plainly or in double quotes with its quotes and backslashes escaped, with any
    white space around and commas between, read back as they are, whatever the
    quotes and the groups hold. *)
Theorem fields_read_back : (forall s, exists fs, split_fields s = Some fs)
  /\ (forall ps, ps <> [] -> Forall padded_ok ps -> split_fields (join_with 44 (map write_padded ps)) = Some (map (fun p => field_of (item p)) ps)).
Proof. split; [exact split_fields_total|exact list_reads]. Qed.

(** A rule in parentheses, a text with a comma, and parameters. *)
Definition example_fields : list Padded :=
  [mkPadded [] (IText (lit "AND")) []; mkPadded [32] (IText (lit "((DOMAIN,a.com),(USER-AGENT,b*))")) []; mkPadded [32; 9] (IQuoted (lit "a,b\c")) [32];
   mkPadded [] (IParam (lit "url") (lit "http://x/?q=1")) [32]; mkPadded [] (IQuotedParam (lit "password") [34; 44; 92]) []].

Lemma fields_read_back_witness : example_fields <> [] /\ Forall padded_ok example_fields
  /\ split_fields (join_with 44 (map write_padded example_fields)) = Some (map (fun p => field_of (item p)) example_fields).
Proof.
  assert (Hok : Forall padded_ok example_fields).
  { assert (Hgroup : whole (lit "((DOMAIN,a.com),(USER-AGENT,b*))")).
    { split; [|split; [|by vm_compute]].
      - apply (balanced_group [Open; Comma 8 1; Close; Comma 15 1; Open; Comma 27 1; Close] []); [|constructor]. apply (balanced_group [Comma 8 1]); [repeat constructor|]. constructor. apply (balanced_group [Comma 27 1]); repeat constructor.
      - intros k at_ w Hk. vm_compute in Hk. do 9 (destruct k as [|k]; [try discriminate; reflexivity|]). discriminate. }
    assert (Hw : forall s, marks_of s = [] \/ (exists e, marks_of s = [EqAt e]) -> quote (after false 0 scan_start s) = None -> skip (after false 0 scan_start s) = false -> whole s).
    { intros s Hm Hq Hk. unfold whole. destruct Hm as [-> |(e & ->)]; (split; [repeat constructor|]; split; [|done]); [done|intros [|[|k]]; done]. }
    repeat (apply Forall_cons; split); [..|constructor]; (split; [reflexivity|]; split; [reflexivity|]); cbn [item item_ok].
    - split; [done|]. split; [done|]. split; [done|]. split; [|done]. apply Hw; [left; by vm_compute|done|done].
    - split; [done|]. split; [done|]. split; [done|]. split; [exact Hgroup|done].
    - done.
    - split; [by repeat split|]. split; [done|]. split; [done|]. apply Hw; [right; eexists; by vm_compute|done|done].
    - by repeat split. }
  split; [done|]. split; [exact Hok|]. apply fields_read_back; [done|exact Hok].
Defined.
