(* ===== verification/ProfileText.v ===== *)
(** * The text of a profile

    [crates/rurge-config/src/text/mod.rs], [reach.rs], [span.rs] and the [apply] of
    [requirement.rs]: from a text to sections and entries, and which of them hold on
    this machine.  Of a diagnostic its severity, its code and its place are here,
    its message and hint are not. *)

From S2P Require Import Prelude RuleMatcher Requirement Values.

(** ** Where a line comes from, and what it may do *)

Inductive Origin := Main | Include (file : rstr) | FromModule (name : rstr) | Remote (file : rstr) | Managed (file : rstr).
Inductive Reach := Anywhere | ManagedCopy | Nowhere.

#[export] Instance Reach_eq_dec : EqDecision Reach.
Proof. solve_decision. Defined.

Definition reach (o : Origin) : Reach :=
  match o with
  | Main | Include _ => Anywhere
  | Managed _ => ManagedCopy
  | FromModule _ | Remote _ => Nowhere
  end.

Record Refusal := mkRefusal { message : string; hint : string }.

Definition include_refusal (r : Reach) : option Refusal :=
  match r with
  | Anywhere => None
  | ManagedCopy => Some (mkRefusal "the downloaded copy of a managed profile cannot include a local file; the line is ignored" "to include a local file, load a profile without `#!MANAGED-CONFIG` that takes the downloaded parts in by `#!include`")
  | Nowhere => Some (mkRefusal "a downloaded file cannot include a local file; the line is ignored" "include the local file from the local profile instead")
  end.

Definition set_refusal (r : Reach) : option Refusal :=
  match r with
  | Anywhere => None
  | ManagedCopy => Some (mkRefusal "the downloaded copy of a managed profile cannot name a local file as a set" "name the set by a URL instead")
  | Nowhere => Some (mkRefusal "a downloaded file cannot name a local file as a set" "write the line in the local profile to use a local set")
  end.

Definition map_local_refusal (r : Reach) : option Refusal :=
  match r with
  | Anywhere => None
  | ManagedCopy => Some (mkRefusal "the downloaded copy of a managed profile cannot name a local file for Map Local; the line is ignored" "give `data` a URL instead")
  | Nowhere => Some (mkRefusal "a downloaded file cannot name a local file for Map Local; the line is ignored" "write the line in the local profile to map to a local file")
  end.

Definition policy_path_refusal (r : Reach) : option Refusal :=
  match r with
  | Anywhere => None
  | ManagedCopy => Some (mkRefusal "the downloaded copy of a managed profile cannot name a local file as `policy-path`; the parameter is ignored" "give `policy-path` a URL instead")
  | Nowhere => Some (mkRefusal "a downloaded file cannot name a local file as `policy-path`; the parameter is ignored" "define the group in the local profile to import policies from a local file")
  end.

(** ** Sections and entries *)

Record Span := mkSpan { file : rstr; line : Z }.
Inductive SectionKind := KeyValue | Ordered | Unknown.
Record Entry := mkEntry { raw : rstr; span : Span; origin : Origin; requirement : option rstr; disabled : bool }.
Record Section_ := mkSection { name : rstr; kind : SectionKind; sec_span : Span; entries : list Entry }.
Record Directive := mkDirective { dir_raw : rstr; dir_span : Span }.
Record Profile := mkProfile { main : option rstr; header : list Directive; sections : list Section_ }.

Inductive Severity := Info | Warning | Error.
Inductive Code := W_UNKNOWN_DIRECTIVE | W_LINE_OUTSIDE_SECTION | E_REQUIREMENT_SYNTAX | I_LINE_DISABLED | W_INCLUDE_SECTION_MISSING | W_REMOTE_LOCAL_ACCESS
| E_INCLUDE_CYCLE | E_INCLUDE_NOT_FOUND | W_INVALID_VALUE | W_REMOTE_INCLUDE_NOT_READ | W_RESOURCE_UNAVAILABLE | I_MANAGED_SOURCE | W_MANAGED_NOT_UPDATED.
Record Diagnostic := mkDiag { severity : Severity; code : Code; at_ : Span }.

Definition active_entries (s : Section_) : list Entry := List.filter (fun e => negb (disabled e)) (entries s).

Definition section (p : Profile) (wanted : rstr) : option Section_ := List.find (fun s => eq_ignore_ascii_case (name s) wanted) (sections p).
Definition sections_with_prefix (p : Profile) (prefix : rstr) : list Section_ := List.filter (fun s => starts_with_ci (name s) prefix) (sections p).

Definition KEY_VALUE_SECTIONS : list rstr :=
  map lit ["General"; "Proxy"; "Proxy Group"; "MITM"; "Keystore"; "Ponte"; "Testing"; "DHCP"; "Snell Server"; "MTProto"; "Replica"]%string.
Definition ORDERED_SECTIONS : list rstr :=
  map lit ["Rule"; "Host"; "URL Rewrite"; "Header Rewrite"; "Body Rewrite"; "Map Local"; "Panel"; "Port Forwarding"; "IP Rewrite"; "Script"; "SSID Setting"]%string.

Definition section_kind (name : rstr) : SectionKind :=
  if existsb (fun k => eq_ignore_ascii_case k name) KEY_VALUE_SECTIONS || starts_with_ci name (lit "WireGuard ") || starts_with_ci name (lit "Tailscale ") then KeyValue
  else if existsb (fun k => eq_ignore_ascii_case k name) ORDERED_SECTIONS || starts_with_ci name (lit "Ruleset ") then Ordered
  else Unknown.

(** ** Lines *)

Definition directive_char (c : Z) : bool := is_upper c || is_lower c || is_digit c || (c =? 45) || (c =? 95).

Definition directive_name (line : rstr) : rstr :=
  match strip_prefix_str line HASH with
  | None => []
  | Some rest => HASH ++ take_while directive_char rest
  end.

Definition unknown_directive (line : rstr) : rstr :=
  let name := directive_name line in
  if (str_len name - 2 <=? 32)%nat then lit "unknown directive ignored: " ++ name else lit "unknown directive ignored".

Definition is_comment (line : rstr) : bool :=
  (starts_with line (lit "#") && negb (starts_with line HASH)) || starts_with line (lit ";") || (starts_with line (lit "//") && negb (starts_with line SLASHES)).

(** Whether a comment starts at [rest], after white space. *)
Definition comment_here (rest : rstr) : bool :=
  starts_with rest (lit ";") || (starts_with rest (lit "#") && negb (starts_with rest HASH)) || (starts_with rest (lit "//") && negb (starts_with rest SLASHES)).

(** The loop of [strip_inline_comment]: [before] is the line before [rest]. *)
Fixpoint inline_from (before rest : rstr) (in_quotes skip : bool) : rstr :=
  match rest with
  | [] => before
  | c :: after =>
      if skip then inline_from (before ++ [c]) after in_quotes false
      else if in_quotes then
        if c =? 92 then inline_from (before ++ [c]) after true true else inline_from (before ++ [c]) after (negb (c =? 34)) false
      else if c =? 34 then inline_from (before ++ [c]) after true false
      else
        let prev_is_space := match last before with Some p => is_ascii_whitespace p | None => false end in
        if prev_is_space && comment_here rest then trim_end_by is_whitespace before else inline_from (before ++ [c]) after false false
  end.

Definition strip_inline_comment (line : rstr) : rstr := inline_from [] line false false.

Definition section_header (line : rstr) : option rstr :=
  inner ← strip_prefix_str line (lit "[");
  inner ← strip_suffix_str inner (lit "]");
  let inner := trim inner in
  if bool_decide (inner = []) then None else Some inner.

(** [str::lines]. *)
Definition chomp (line : rstr) : rstr := default line (strip_suffix 13 line).

Fixpoint lines_of (pieces : list rstr) : list rstr :=
  match pieces with
  | [] => []
  | [piece] => if bool_decide (piece = []) then [] else [piece]
  | piece :: pieces => chomp piece :: lines_of pieces
  end.

Definition lines (s : rstr) : list rstr := lines_of (split_on 10 s).

(** ** Parsing *)

(** The variables of [parse_str]. *)
Record Reading := mkReading { so_far : Profile; current : option Section_; diags : list Diagnostic }.

Definition push_section (p : Profile) (s : option Section_) : Profile :=
  match s with Some s => mkProfile (main p) (header p) (sections p ++ [s]) | None => p end.

Definition push_diag (r : Reading) (d : Diagnostic) : Reading := mkReading (so_far r) (current r) (diags r ++ [d]).

Definition push_entry (s : Section_) (e : Entry) : Section_ := mkSection (name s) (kind s) (sec_span s) (entries s ++ [e]).

(** [idx as u32 + 1]. *)
Definition line_number (idx : nat) : Z := Z.of_nat idx mod 2 ^ 32 + 1.

(** One line, the [idx]th. *)
Definition read_line (file : rstr) (origin : Origin) (idx : nat) (text : rstr) (r : Reading) : Reading :=
  let span := mkSpan file (line_number idx) in
  let trimmed := trim (trim_end_by (Z.eqb 13) text) in
  if bool_decide (trimmed = []) then r
  else match section_header trimmed with
  | Some name => mkReading (push_section (so_far r) (current r)) (Some (mkSection name (section_kind name) span [])) (diags r)
  | None =>
      if starts_with trimmed HASH && negb (starts_with trimmed (lit "#!include")) && negb (is_requirement_prefix trimmed) then
        match current r with
        | None => mkReading (mkProfile (main (so_far r)) (header (so_far r) ++ [mkDirective trimmed span]) (sections (so_far r))) None (diags r)
        | Some _ => push_diag r (mkDiag Warning W_UNKNOWN_DIRECTIVE span)
        end
      else if is_comment trimmed then r
      else match current r with
      | None => push_diag r (mkDiag Warning W_LINE_OUTSIDE_SECTION span)
      | Some sec =>
          match split_line (strip_inline_comment trimmed) with
          | Ok (requirement, body) =>
              if bool_decide (body = []) then r else mkReading (so_far r) (Some (push_entry sec (mkEntry body span origin requirement false))) (diags r)
          | Err _ => push_diag r (mkDiag Error E_REQUIREMENT_SYNTAX span)
          end
      end
  end.

Fixpoint read_lines (file : rstr) (origin : Origin) (idx : nat) (ls : list rstr) (r : Reading) : Reading :=
  match ls with [] => r | l :: ls => read_lines file origin (S idx) ls (read_line file origin idx l r) end.

Definition BOM : Z := 65279.

Definition parse_str (text file : rstr) (origin : Origin) : Profile * list Diagnostic :=
  let text := match text with c :: rest => if c =? BOM then rest else text | [] => [] end in
  let r := read_lines file origin 0 (lines text) (mkReading (mkProfile (Some file) [] []) None []) in
  (push_section (so_far r) (current r), diags r).

(** ** Requirements *)

Section Apply.
Context {L : Letters} (regex : rstr -> option (rstr -> option bool)) (env : Environment).

Definition disable (e : Entry) : Entry := mkEntry (raw e) (span e) (origin e) (requirement e) true.

Definition apply_entry (e : Entry) : option (Entry * list Diagnostic) :=
  match requirement e with
  | None => Some (e, [])
  | Some src =>
      expr ← parse src;
      Some match expr with
      | Ok expr => if eval regex expr env then (e, []) else (disable e, [mkDiag Info I_LINE_DISABLED (span e)])
      | Err _ => (disable e, [mkDiag Error E_REQUIREMENT_SYNTAX (span e)])
      end
  end.

(** [apply]; [None] is fuel of the parser, which is always enough. *)
Definition apply_section (s : Section_) : option (Section_ * list Diagnostic) :=
  es ← mapM apply_entry (entries s);
  Some (mkSection (name s) (kind s) (sec_span s) (map fst es), List.concat (map snd es)).

Definition apply (p : Profile) : option (Profile * list Diagnostic) :=
  ss ← mapM apply_section (sections p);
  Some (mkProfile (main p) (header p) (map fst ss), List.concat (map snd ss)).
End Apply.

Example parse_text_example :
  parse_str (lit "#!MANAGED-CONFIG https://x" ++ [10] ++ lit "[General]" ++ [13; 10] ++ lit "loglevel = notify // inline" ++ [10] ++ lit "[Rule]" ++ [10] ++ lit "FINAL,DIRECT #!MACOS-ONLY") (lit "t.conf") Main =
  (mkProfile (Some (lit "t.conf")) [mkDirective (lit "#!MANAGED-CONFIG https://x") (mkSpan (lit "t.conf") 1)]
     [mkSection (lit "General") KeyValue (mkSpan (lit "t.conf") 2) [mkEntry (lit "loglevel = notify") (mkSpan (lit "t.conf") 3) Main None false];
      mkSection (lit "Rule") Ordered (mkSpan (lit "t.conf") 4) [mkEntry (lit "FINAL,DIRECT") (mkSpan (lit "t.conf") 5) Main (Some (lit "SYSTEM == 'macOS'")) false]], []).
Proof. vm_compute. reflexivity. Qed.
