(* ===== verification/ProfileProps.v ===== *)
(** * What a profile text becomes

    Whatever the text, every section and entry read from it is well formed, says
    where it stands, in order, and carries the origin it was read with; and [apply]
    leaves exactly the lines whose requirement holds. *)

From S2P Require Import Prelude RuleMatcher Requirement RequirementProps Values ProfileText.

(** ** Trimmed texts *)

(** Not empty, and no white space at its ends. *)
Definition trimmed (s : rstr) : Prop := exists c s' d t, s = c :: s' /\ s = t ++ [d] /\ is_whitespace c = false /\ is_whitespace d = false.

Lemma trim_trimmed s : trim s <> [] -> trimmed (trim s).
Proof.
  unfold trim, trim_by, trim_end_by. intros Hne. set (l := drop_while is_whitespace s) in *. set (r := drop_while is_whitespace (reverse l)) in *.
  destruct r as [|d t] eqn:Er; [done|]. rewrite reverse_cons in *. pose proof (drop_while_head is_whitespace (reverse l) d) as Hd. fold r in Hd. rewrite Er in Hd. specialize (Hd eq_refl).
  destruct (drop_while_split is_whitespace (reverse l)) as (w & Hw & _). fold r in Hw. rewrite Er in Hw. assert (Hl : l = (reverse t ++ [d]) ++ reverse w) by (rewrite <- (reverse_involutive l), Hw, reverse_app, reverse_cons; done).
  destruct (reverse t ++ [d]) as [|c s'] eqn:Es; [done|]. exists c, s', d, (reverse t). split; [done|]. split; [done|]. split; [|done].
  apply (drop_while_head is_whitespace s). fold l. by rewrite Hl.
Qed.

Lemma trimmed_not_nil s : trimmed s -> s <> [].
Proof. by intros (c & s' & d & t & -> & _). Qed.

Lemma split_line_trimmed l requirement body : split_line l = Ok (requirement, body) -> body <> [] -> trimmed body.
Proof.
  assert (Hfirst : forall (f : list (option (rstr * rstr))), Forall (fun o => forall e b, o = Some (e, b) -> exists b', b = trim b') f -> forall e b, first_of f = Some (e, b) -> exists b', b = trim b').
  { intros f Hf. induction Hf as [|[[e0 b0]|] f Ho Hf IH]; intros e b; cbn [first_of]; [done| |apply IH]. intros [= <- <-]. by apply (Ho e0 b0). }
  assert (Hone : forall e b, Ok (requirement, body) = Ok (E := ReqError) (e, trim b) -> body <> [] -> trimmed body) by (intros e b [= -> ->] Hne; by apply trim_trimmed).
  unfold split_line. destruct (strip_prefix_str (trim l) (HASH ++ REQUIREMENT)) as [rest|].
  { destruct (take_expr rest) as [[e c]|]; cbn [res_bind]; [|done]. intros Heq. symmetry in Heq. by eapply Hone. }
  destruct (first_of (map _ SIMPLIFIED)) as [[e b]|] eqn:H1.
  { apply Hfirst in H1 as (b' & ->); [intros Heq; symmetry in Heq; by eapply Hone|]. apply Forall_map, Forall_true. intros te e' b'. destruct (strip_prefix_str _ _) as [rest|]; cbn [mbind option_bind]; [|done]. destruct (starts_blank rest); [|done]. intros [= _ <-]. eauto. }
  destruct (first_of (map _ [HASH ++ REQUIREMENT; _])) as [[marker pos]|].
  { case_bool_decide; [done|]. intros Heq. symmetry in Heq. by eapply Hone. }
  destruct (first_of (flat_map _ SIMPLIFIED)) as [[e b]|] eqn:H2; [|intros Heq; symmetry in Heq; by eapply Hone].
  apply Hfirst in H2 as (b' & ->); [intros Heq; symmetry in Heq; by eapply Hone|]. apply Forall_forall. intros o Ho e' b'. apply list_elem_of_In, in_flat_map in Ho as (te & _ & Ho). apply in_map_iff in Ho as (p & <- & _).
  destruct (strip_suffix_str _ _) as [bd|]; cbn [mbind option_bind]; [|done]. destruct (ends_blank bd); [|done]. intros [= _ <-]. eauto.
Qed.

(** ** A profile that was read *)

Section Read.
Context (file : rstr) (origin : Origin).

Definition entry_ok (e : Entry) : Prop := trimmed (raw e) /\ ProfileText.origin e = origin /\ ProfileText.file (span e) = file.

Definition section_ok (s : Section_) : Prop := trimmed (name s) /\ kind s = section_kind (name s) /\ ProfileText.file (sec_span s) = file /\ Forall entry_ok (entries s).

(** The lines of a section, and of a profile's sections, in order. *)
Definition section_lines (s : Section_) : list Z := line (sec_span s) :: map (fun e => line (span e)) (entries s).
Definition profile_lines (p : Profile) : list Z := List.concat (map section_lines (sections p)).

Definition fresh (s : Section_) : Prop := Forall (fun e => disabled e = false) (entries s).

Definition directive_ok (d : Directive) : Prop := trimmed (dir_raw d) /\ starts_with (dir_raw d) HASH = true /\ ProfileText.file (dir_span d) = file.

Record profile_ok (p : Profile) : Prop := {
  ok_main : main p = Some file;
  ok_header : Forall directive_ok (header p);
  ok_sections : Forall section_ok (sections p);
  ok_order : StronglySorted Z.lt (profile_lines p);
}.

(** What holds while the lines are read: the section at hand is like one that is
    done, and all lines so far are before [next]. *)
Record reading_ok (next : Z) (r : Reading) : Prop := {
  ok_so_far : profile_ok (push_section (so_far r) (current r));
  ok_fresh : Forall fresh (sections (push_section (so_far r) (current r)));
  ok_before : Forall (fun l => 0 < l < next) (profile_lines (push_section (so_far r) (current r)));
  ok_diags : Forall (fun d => ProfileText.file (at_ d) = file) (diags r);
}.

Lemma places_sorted (l : list Z) x : StronglySorted Z.lt l -> Forall (fun y => 0 < y < x) l -> StronglySorted Z.lt (l ++ [x]).
Proof.
  induction 1 as [|y l Hs IH Hy]; intros Hf; [repeat constructor|]. apply Forall_cons in Hf as [Hyx Hf]. cbn [app]. constructor; [by apply IH|]. apply Forall_app. split; [done|]. apply Forall_singleton. lia.
Qed.

Lemma lines_snoc p s : profile_lines (mkProfile (main p) (header p) (sections p ++ [s])) = profile_lines p ++ section_lines s.
Proof. unfold profile_lines. cbn [sections]. rewrite map_app, concat_app. cbn. by rewrite app_nil_r. Qed.

Lemma reading_later next next' r : next <= next' -> reading_ok next r -> reading_ok next' r.
Proof. intros Hle [H1 H2 H3 H4]. split; [done|done| |done]. eapply Forall_impl; [exact H3|]. cbn. lia. Qed.

Lemma read_diag next r d : ProfileText.file (at_ d) = file -> reading_ok next r -> reading_ok next (push_diag r d).
Proof. intros Hd [H1 H2 H3 H4]. split; [done|done|done|]. apply Forall_app. by split; [|apply Forall_singleton]. Qed.

(** A new section. *)
Lemma read_section next r nm : 0 < next -> trimmed nm -> reading_ok next r ->
  reading_ok (next + 1) (mkReading (push_section (so_far r) (current r)) (Some (mkSection nm (section_kind nm) (mkSpan file next) [])) (diags r)).
Proof.
  intros Hpos Hn [[H1 H2 H3 H4] Hf Hb Hd]. set (p := push_section (so_far r) (current r)) in *. set (s := mkSection nm (section_kind nm) (mkSpan file next) []). split; cbn [so_far current diags push_section].
  - split; cbn [main header sections]; [done|done| |].
    + apply Forall_app. split; [done|]. apply Forall_singleton. by repeat split.
    + rewrite lines_snoc. by apply places_sorted.
  - apply Forall_app. split; [done|]. apply Forall_singleton. constructor.
  - rewrite lines_snoc. apply Forall_app. split; [eapply Forall_impl; [exact Hb|]; cbn; lia|]. apply Forall_singleton. cbn. lia.
  - done.
Qed.

(** An entry more in the section at hand. *)
Lemma read_entry next p s d body req : 0 < next -> trimmed body -> reading_ok next (mkReading p (Some s) d) ->
  reading_ok (next + 1) (mkReading p (Some (push_entry s (mkEntry body (mkSpan file next) origin req false))) d).
Proof.
  intros Hpos Hbody [[H1 H2 H3 H4] Hf Hb Hd]. cbn [so_far current diags push_section main header sections] in *. set (e := mkEntry body (mkSpan file next) origin req false).
  assert (Hl : forall q, profile_lines (mkProfile (main q) (header q) (sections q ++ [push_entry s e])) = profile_lines (mkProfile (main q) (header q) (sections q ++ [s])) ++ [next]).
  { intros q. rewrite !lines_snoc. unfold section_lines, push_entry. cbn [sec_span entries]. rewrite map_app. by rewrite <- app_assoc. }
  apply Forall_app in H3 as [H3 Hs]. apply Forall_singleton in Hs as (Hs1 & Hs2 & Hs3 & Hs4). apply Forall_app in Hf as [Hf Hfs]. apply Forall_inv in Hfs. split; cbn [so_far current diags push_section].
  - split; cbn [main header sections]; [done|done| |].
    + apply Forall_app. split; [done|]. apply Forall_singleton. split; [done|]. split; [done|]. split; [done|]. cbn [entries push_entry]. apply Forall_app. split; [done|]. apply Forall_singleton. by repeat split.
    + rewrite Hl. by apply places_sorted.
  - apply Forall_app. split; [done|]. constructor; [|constructor]. unfold fresh. cbn [entries push_entry]. apply Forall_app. split; [done|]. by constructor; [|constructor].
  - rewrite Hl. apply Forall_app. split; [eapply Forall_impl; [exact Hb|]; cbn; lia|]. apply Forall_singleton. lia.
  - done.
Qed.

(** A directive before any section. *)
Lemma read_directive next p d text : trimmed text -> starts_with text HASH = true -> reading_ok next (mkReading p None d) ->
  reading_ok next (mkReading (mkProfile (main p) (header p ++ [mkDirective text (mkSpan file next)]) (sections p)) None d).
Proof.
  intros Ht Hs [[H1 H2 H3 H4] Hf Hb Hd]. cbn [so_far current diags push_section] in *. split; [|done|done|done]. split; [done| |done|done]. cbn [header]. apply Forall_app. split; [done|]. by apply Forall_singleton.
Qed.

Lemma header_trimmed l nm : section_header l = Some nm -> trimmed nm.
Proof.
  unfold section_header. destruct (strip_prefix_str l _) as [i|]; cbn [mbind option_bind]; [|done]. destruct (strip_suffix_str i _) as [i'|]; cbn [mbind option_bind]; [|done]. case_bool_decide as Hb; [done|]. intros [= <-]. by apply trim_trimmed.
Qed.

Lemma read_line_ok idx text r : reading_ok (line_number idx) r -> reading_ok (line_number idx + 1) (read_line file origin idx text r).
Proof.
  intros Hr. assert (Hpos : 0 < line_number idx) by (unfold line_number; pose proof (Z.mod_pos_bound (Z.of_nat idx) (2 ^ 32)); lia). assert (Hsame : reading_ok (line_number idx + 1) r) by (eapply reading_later; [|exact Hr]; lia).
  unfold read_line. case_bool_decide as Ht; [done|]. destruct (section_header _) as [nm|] eqn:Hh; [apply read_section; [done|by eapply header_trimmed|done]|].
  destruct (_ && negb (is_requirement_prefix _)) eqn:Hdir.
  - destruct r as [p [s|] d]; cbn [current so_far diags] in *; [by apply read_diag|]. apply andb_true_iff in Hdir as [Hdir _]. apply andb_true_iff in Hdir as [Hdir _]. eapply reading_later; [|apply read_directive; [by apply trim_trimmed|done|done]]. lia.
  - destruct (is_comment _); [done|]. destruct r as [p [s|] d]; cbn [current so_far diags] in *; [|by apply read_diag]. destruct (split_line _) as [[req body]|e] eqn:Hsl; [|by apply read_diag]. case_bool_decide; [done|]. apply read_entry; [done|by eapply split_line_trimmed|done].
Qed.

Lemma read_lines_ok ls : forall idx r, Z.of_nat (idx + length ls) <= 2 ^ 32 -> reading_ok (Z.of_nat idx + 1) r -> reading_ok (Z.of_nat (idx + length ls) + 1) (read_lines file origin idx ls r).
Proof.
  induction ls as [|l ls IH]; intros idx r Hn Hr; cbn [read_lines length] in *; [by rewrite Nat.add_0_r|]. rewrite <- Nat.add_succ_comm. apply IH; [lia|].
  assert (Hl : line_number idx = Z.of_nat idx + 1) by (unfold line_number; rewrite Z.mod_small; lia). replace (Z.of_nat (S idx) + 1) with (line_number idx + 1) by lia. apply read_line_ok. by rewrite Hl.
Qed.

(** The lines after the mark of the byte order. *)
Definition text_lines (text : rstr) : list rstr := lines (match text with c :: rest => if c =? BOM then rest else text | [] => [] end).

Lemma parse_str_ok text : Z.of_nat (length (text_lines text)) <= 2 ^ 32 ->
  let '(p, d) := parse_str text file origin in profile_ok p /\ Forall fresh (sections p) /\ Forall (fun l => 1 <= l <= Z.of_nat (length (text_lines text))) (profile_lines p) /\ Forall (fun d => ProfileText.file (at_ d) = file) d.
Proof.
  intros Hn. assert (H0 : reading_ok (Z.of_nat 0 + 1) (mkReading (mkProfile (Some file) [] []) None [])) by (split; [split|..]; constructor).
  pose proof (read_lines_ok (text_lines text) 0 _ Hn H0) as [H1 H2 H3 H4]. cbn [Nat.add] in H3. unfold parse_str. fold (text_lines text). split; [done|]. split; [done|]. split; [|done]. eapply Forall_impl; [exact H3|]. cbn. lia.
Qed.
End Read.

(** ** The lines that hold *)

Section Applied.
Context `{L : Letters} (regex : rstr -> option (rstr -> option bool)) (env : Environment).

(** Whether the requirement of a line is one, and holds. *)
Definition holds (e : Entry) : bool :=
  match requirement e with
  | None => true
  | Some src => match parse src with Some (Ok expr) => eval regex expr env | _ => false end
  end.

Definition marked (e : Entry) : Entry := if holds e then e else disable e.
Definition marked_section (s : Section_) : Section_ := mkSection (name s) (kind s) (sec_span s) (map marked (entries s)).
Definition marked_profile (p : Profile) : Profile := mkProfile (main p) (header p) (map marked_section (sections p)).

Lemma apply_entry_marks e : exists d, apply_entry regex env e = Some (marked e, d) /\ (d = [] <-> holds e = true) /\ Forall (fun d => at_ d = span e) d.
Proof.
  unfold apply_entry, marked, holds. destruct (requirement e) as [src|]; [|eexists; split; [done|]; split; [done|constructor]]. destruct (parse_total src) as ([ex|er] & ->); cbn [mbind option_bind].
  - destruct (eval regex ex env); eexists; (split; [done|]; split; [done|]); by repeat constructor.
  - eexists. split; [done|]. split; [done|]. by repeat constructor.
Qed.

Lemma mapM_marks {A B D} (f : A -> option (B * D)) (g : A -> B) l : (forall x, exists d, f x = Some (g x, d)) -> exists r, mapM f l = Some r /\ map fst r = map g l.
Proof.
  intros Hf. induction l as [|x l (r & Hr & Hm)]; [by exists []|]. destruct (Hf x) as (d & Hd). exists ((g x, d) :: r). cbn [mapM]. rewrite Hd. cbn [mbind option_bind]. rewrite Hr. cbn. by rewrite Hm.
Qed.

Lemma apply_marks p : exists d, apply regex env p = Some (marked_profile p, d).
Proof.
  assert (Hs : forall s, exists d, apply_section regex env s = Some (marked_section s, d)).
  { intros s. unfold apply_section. destruct (mapM_marks (apply_entry regex env) marked (entries s)) as (r & -> & Hr); [intros e; destruct (apply_entry_marks e) as (d & Hd & _); eauto|]. cbn [mbind option_bind]. rewrite Hr. eauto. }
  unfold apply. destruct (mapM_marks (apply_section regex env) marked_section (sections p) Hs) as (r & -> & Hr). cbn [mbind option_bind]. rewrite Hr. eauto.
Qed.

Lemma marked_same e : raw (marked e) = raw e /\ span (marked e) = span e /\ origin (marked e) = origin e.
Proof. unfold marked. by destruct (holds e). Qed.

Lemma marked_ok file o p : profile_ok file o p -> profile_ok file o (marked_profile p).
Proof.
  intros [H1 H2 H3 H4]. split; cbn [marked_profile main header sections]; [done|done| |].
  - apply Forall_map. eapply Forall_impl; [exact H3|]. intros s (Hn & Hk & Hf & He). split; [done|]. split; [done|]. split; [done|]. cbn [marked_section entries]. apply Forall_map. eapply Forall_impl; [exact He|]. intros e (Hr & Ho & Hs).
    unfold entry_ok. destruct (marked_same e) as (-> & -> & ->). done.
  - unfold profile_lines in *. cbn [marked_profile sections]. rewrite map_map. rewrite (map_ext _ section_lines); [done|]. intros s. unfold section_lines. cbn [marked_section sec_span entries]. f_equal. rewrite map_map. apply map_ext. intros e. by destruct (marked_same e) as (_ & -> & _).
Qed.

Lemma marked_active s : fresh s -> active_entries (marked_section s) = List.filter holds (entries s).
Proof.
  unfold fresh, active_entries. cbn [marked_section entries]. induction 1 as [|e es He Hes IH]; [done|]. cbn [map List.filter]. unfold marked at 1. destruct (holds e) eqn:Hh; [by rewrite He, IH; unfold marked; rewrite Hh|]. cbn [disable disabled negb]. exact IH.
Qed.
End Applied.

(** C31: a text read as a profile, of fewer lines than a u32 counts, is well formed
    whatever it says: every section has a name without white space around and the
    kind of its name, every entry a line that is not empty, its own origin and
    place, and the places are in the order of the text; and [apply] returns and
    keeps that, and leaves active exactly the lines whose requirement is an
    expression that holds. *)
Theorem profiles_are_well_formed `{L : Letters} regex env text file o (Hn : Z.of_nat (length (text_lines text)) <= 2 ^ 32) :
  let '(p, ds) := parse_str text file o in
  profile_ok file o p /\ Forall (fun l => 1 <= l <= Z.of_nat (length (text_lines text))) (profile_lines p) /\ Forall (fun d => ProfileText.file (at_ d) = file) ds
  /\ exists p' ds', apply regex env p = Some (p', ds') /\ profile_ok file o p' /\ map active_entries (sections p') = map (fun s => List.filter (holds regex env) (entries s)) (sections p).
Proof.
  pose proof (parse_str_ok file o text Hn) as Hp. destruct (parse_str text file o) as [p ds]. destruct Hp as (H1 & H2 & H3 & H4). split; [done|]. split; [done|]. split; [done|].
  destruct (apply_marks regex env p) as (ds' & Ha). exists (marked_profile regex env p), ds'. split; [done|]. split; [by apply marked_ok|]. cbn [marked_profile sections]. rewrite map_map. apply map_ext_in. intros s Hs. apply marked_active. rewrite Forall_forall in H2. apply H2. by apply list_elem_of_In.
Qed.

Definition sample_text : rstr := lit "[Rule]" ++ [10] ++ lit "FINAL,DIRECT #!MACOS-ONLY" ++ [10] ++ lit "#!REQUIREMENT bad FINAL,REJECT" ++ [10] ++ lit "// no more".
Definition sample_env : Environment := mkEnv 20 (lit "macOS") (lit "14.5") (lit "Mac15,6") (lit "zh-CN") (lit "test-mac").

Lemma profiles_are_well_formed_witness : Z.of_nat (length (text_lines sample_text)) <= 2 ^ 32 /\
  let '(p, ds) := parse_str sample_text (lit "t.conf") Main in
  profile_ok (lit "t.conf") Main p /\ Forall (fun l => 1 <= l <= Z.of_nat (length (text_lines sample_text))) (profile_lines p) /\ Forall (fun d => ProfileText.file (at_ d) = lit "t.conf") ds
  /\ exists p' ds', apply (fun _ => None) sample_env p = Some (p', ds') /\ profile_ok (lit "t.conf") Main p' /\ map active_entries (sections p') = map (fun s => List.filter (holds (fun _ => None) sample_env) (entries s)) (sections p).
Proof. split; [vm_compute; discriminate|]. apply (profiles_are_well_formed (fun _ => None) sample_env sample_text (lit "t.conf") Main). vm_compute. discriminate. Defined.
