(* ===== verification/Managed.v ===== *)
(** * Managed profiles

    [crates/rurge-config/src/managed.rs] and the data of [remote.rs]: the line that
    names where a profile is kept up to date from, the walk along the copies that
    were downloaded, and which text is in effect.  Links are the url crate's
    ([Urls]); a source answers a question by its number, for it may answer otherwise
    the next time.  Times are seconds. *)

From S2P Require Import Prelude RuleMatcher Requirement Values ProfileText.

(** ** Links and sources *)

(** What the code uses of [url::Url]. *)
Class Urls := {
  Url : Type;
  Url_eq_dec :: EqDecision Url;
  url_parse : rstr -> option Url;
  scheme : Url -> rstr;
  (** [set_fragment(None)] *)
  without_fragment : Url -> Url;
}.

(** [Remote]. *)
Inductive Answer := AText (text path : rstr) (fetched_at : Z) | AMissing (why : option rstr).

Inductive RemoteRole := RManaged | RManagedHop | RInclude.

#[export] Instance RemoteRole_eq_dec : EqDecision RemoteRole.
Proof. solve_decision. Defined.

Definition DEFAULT_INTERVAL : Z := 86400.
Definition SHORTEST_INTERVAL : Z := 60.
Definition MOST_CHANGES : nat := 8.

(** [str::split_whitespace]; [word] is the word at hand. *)
Fixpoint words_of (word s : rstr) : list rstr :=
  match s with
  | [] => if bool_decide (word = []) then [] else [word]
  | c :: s => if is_whitespace c then (if bool_decide (word = []) then words_of [] s else word :: words_of [] s) else words_of (word ++ [c]) s
  end.

Definition split_whitespace (s : rstr) : list rstr := words_of [] s.

Record ManagedConfig := mkManaged { url : rstr; interval : Z; strict : bool }.

Section Managed.
Context {U : Urls}.

Record RemoteRef := mkRef { ref_url : Url; role : RemoteRole; path : option rstr; ref_interval : Z; ref_strict : bool; lacks_section : bool }.

(** ** The line *)

Definition http_address (text : rstr) : option Url :=
  url ← url_parse text;
  if bool_decide (scheme url = lit "http") || bool_decide (scheme url = lit "https") then Some (without_fragment url) else None.

Record Line := mkLine { config : ManagedConfig; address : Url; line_span : Span }.

Definition invalid (span : Span) : Diagnostic := mkDiag Warning W_INVALID_VALUE span.

(** One parameter of the line. *)
Definition read_parameter (span : Span) (p : rstr) (cfg : ManagedConfig) : ManagedConfig * list Diagnostic :=
  match split_once 61 p with
  | Some (name, v) =>
      if bool_decide (name = lit "interval") then
        match parse_uint u64_max v with
        | Some s =>
            if s =? 0 then (cfg, [])
            else if s <? SHORTEST_INTERVAL then (mkManaged (url cfg) SHORTEST_INTERVAL (strict cfg), [invalid span])
            else (mkManaged (url cfg) s (strict cfg), [])
        | None => (cfg, [invalid span])
        end
      else if bool_decide (name = lit "strict") then
        match parse_bool v with Some b => (mkManaged (url cfg) (interval cfg) b, []) | None => (cfg, [invalid span]) end
      else (cfg, [invalid span])
  | None => (cfg, [invalid span])
  end.

Fixpoint read_parameters (span : Span) (ps : list rstr) (cfg : ManagedConfig) : ManagedConfig * list Diagnostic :=
  match ps with
  | [] => (cfg, [])
  | p :: ps => let '(cfg, d) := read_parameter span p cfg in let '(cfg, d') := read_parameters span ps cfg in (cfg, d ++ d')
  end.

Definition MANAGED_CONFIG : rstr := lit "#!MANAGED-CONFIG".

(** One directive: the line that is in force after it. *)
Definition find_in (d : Directive) (found : option Line) : option Line * list Diagnostic :=
  match strip_prefix_str (dir_raw d) MANAGED_CONFIG with
  | Some rest =>
      match split_whitespace rest with
      | [] => (found, [invalid (dir_span d)])
      | url :: parts =>
          match http_address url with
          | None => (found, [invalid (dir_span d)])
          | Some address => let '(cfg, ds) := read_parameters (dir_span d) parts (mkManaged url DEFAULT_INTERVAL false) in (Some (mkLine cfg address (dir_span d)), ds)
          end
      end
  | None => if starts_with (dir_raw d) (lit "#!FORBIDDEN-AUTO-UPGRADE") then (found, []) else (found, [mkDiag Warning W_UNKNOWN_DIRECTIVE (dir_span d)])
  end.

Fixpoint find_from (header : list Directive) (found : option Line) : option Line * list Diagnostic :=
  match header with
  | [] => (found, [])
  | d :: header => let '(found, ds) := find_in d found in let '(found, ds') := find_from header found in (found, ds ++ ds')
  end.

Definition find (header : list Directive) : option Line * list Diagnostic := find_from header None.

Definition parse_managed (header : list Directive) : option ManagedConfig * list Diagnostic := let '(line, ds) := find header in (config <$> line, ds).

(** ** The walk along the copies *)

Record Downloaded := mkDownloaded { profile : Profile; diagnostics : list Diagnostic; down_file : rstr }.
Record Stop := mkStop { stop_address : Url; stop_file : option rstr }.
Inductive End := NotFound (why : option rstr) | Found | NoLine | NoWayOut.
Record Held := mkHeld { copy : Downloaded; held_line : option Line }.
Record Walk := mkWalk { stops : list Stop; ended : End; last_held : option Held; newest : option Z }.

(** The source: the answer to the [n]th question. *)
Context (get : nat -> Url -> Answer).

(** [Option::max]. *)
Definition max_time (t : option Z) (u : Z) : option Z := Some (match t with Some t => Z.max t u | None => u end).

Definition read_copy (text path : rstr) : Held :=
  let '(p, ds) := parse_str text path (ProfileText.Managed path) in mkHeld (mkDownloaded p ds path) (find (header p)).1.

Fixpoint walk_from (fuel : nat) (at_ : Url) (stops : list Stop) (last : option Held) (newest : option Z) : option Walk :=
  match fuel with
  | 0%nat => None
  | S fuel =>
      match get (length stops) at_ with
      | AMissing why => Some (mkWalk (stops ++ [mkStop at_ None]) (NotFound why) last newest)
      | AText text path fetched_at =>
          let held := read_copy text path in
          let newest := max_time newest fetched_at in
          let stops := stops ++ [mkStop at_ (Some path)] in
          match address <$> held_line held with
          | None => Some (mkWalk stops NoLine (Some held) newest)
          | Some next =>
              if bool_decide (next = at_) then Some (mkWalk stops Found (Some held) newest)
              else if (MOST_CHANGES <? length stops)%nat || existsb (fun stop => bool_decide (stop_address stop = next)) stops then Some (mkWalk stops NoWayOut (Some held) newest)
              else walk_from fuel next stops (Some held) newest
          end
      end
  end.

Definition walk (start : Url) : option Walk := walk_from (S MOST_CHANGES) start [] None None.

(** ** The choice *)

Record Choice := mkChoice { chosen : option Downloaded; remote : list RemoteRef; said : list Diagnostic }.

(** Whether the user changed the local file after the last update. *)
Definition edited_since (modified newest : option Z) (now : Z) : bool :=
  match modified, newest with Some modified, Some newest => (newest <? modified) && (modified <=? now) | _, _ => false end.

Definition local_in_effect (w : Walk) (has_section : bool) (modified : option Z) (now : Z) : bool :=
  match last_held w with None => true | Some _ => false end || (has_section && edited_since modified (newest w) now).

(** What is said of the choice. *)
Definition say (span : Span) (w : Walk) (in_effect : bool) : list Diagnostic :=
  let info := mkDiag Info I_MANAGED_SOURCE span in
  (match ended w with NotFound _ => [mkDiag Warning W_RESOURCE_UNAVAILABLE span] | _ => [] end)
  ++ match last_held w with
     | None => []
     | Some _ =>
         if in_effect then [info]
         else [info]
           ++ (match stops w with {| stop_file := Some _ |} :: _ :: _ => [info] | _ => [] end)
           ++ match ended w with NoLine | NoWayOut => [mkDiag Warning W_MANAGED_NOT_UPDATED span] | _ => [] end
     end.

Definition is_no_line (e : End) : bool := match e with NoLine => true | _ => false end.

(** The [at_]th stop among [count]. *)
Definition stop_ref (updated : bool) (count : nat) (cfg : ManagedConfig) (at_ : nat) (stop : Stop) : RemoteRef :=
  let managed := updated && (at_ + 1 =? count)%nat in
  mkRef (stop_address stop) (if managed then RManaged else RManagedHop) (stop_file stop) (if managed then interval cfg else DEFAULT_INTERVAL) (managed && strict cfg) false.

Definition choose (local : Line) (has_section : bool) (modified : option Z) (now : Z) : option Choice :=
  w ← walk (address local);
  let in_effect := local_in_effect w has_section modified now in
  let updated := in_effect || negb (is_no_line (ended w)) in
  let line := default local (held ← (if in_effect then None else last_held w); held_line held) in
  Some (mkChoice (if in_effect then None else copy <$> last_held w)
    (imap (stop_ref updated (length (stops w)) (config line)) (stops w))
    (say (line_span local) w in_effect)).
End Managed.
