(* ===== verification/ManagedProps.v ===== *)
(** * Which text of a managed profile is in effect

    The walk along the copies ends, asks no address twice and stops where the last
    copy says; the choice keeps one address up to date, the last. *)

From S2P Require Import Prelude RuleMatcher Requirement Values ProfileText Managed.

Section Props.
Context {U : Urls} (get : nat -> Url -> Answer).

(** The copy found by the question [n]. *)
Definition held_at (n : nat) (stop : Stop) : option Held :=
  match get n (stop_address stop) with AText text path _ => Some (read_copy text path) | AMissing _ => None end.

(** The copy names another address. *)
Definition leads (n : nat) (stop : Stop) (next : Url) : Prop := (held ← held_at n stop; address <$> held_line held) = Some next /\ next <> stop_address stop.

Definition addresses (stops : list Stop) : list Url := map stop_address stops.

(** What the last of the stops, the [n]th, says. *)
Definition ends_at (stops : list Stop) (n : nat) (stop : Stop) (e : End) : Prop :=
  match e with
  | NotFound why => get n (stop_address stop) = AMissing why
  | NoLine => exists held, held_at n stop = Some held /\ held_line held = None
  | Found => (held ← held_at n stop; address <$> held_line held) = Some (stop_address stop)
  | NoWayOut => exists next, leads n stop next /\ (next ∈ addresses stops \/ length stops = S MOST_CHANGES)
  end.

(** The copies found on the way, in order. *)
Definition copies (stops : list Stop) : list Held := omap id (imap held_at stops).

(** When they were fetched. *)
Definition fetched_at (n : nat) (stop : Stop) : option Z := match get n (stop_address stop) with AText _ _ t => Some t | AMissing _ => None end.
Definition times (stops : list Stop) : list Z := omap id (imap fetched_at stops).
Definition newest_time (ts : list Z) : option Z := foldl max_time None ts.

(** A walk from an address as it should be: each stop leads to the next, the last
    says how it ended, and no address is asked for twice. *)
Record walked (start : Url) (w : Walk) : Prop := {
  walk_first : head (addresses (stops w)) = Some start;
  walk_len : (length (stops w) <= S MOST_CHANGES)%nat;
  walk_once : NoDup (addresses (stops w));
  walk_leads : forall i s s', stops w !! i = Some s -> stops w !! S i = Some s' -> leads i s (stop_address s');
  walk_end : exists n s, stops w !! n = Some s /\ S n = length (stops w) /\ ends_at (stops w) n s (ended w);
  walk_last : last_held w = last (copies (stops w));
  walk_newest : newest w = newest_time (times (stops w));
}.

(** What holds before each question: [at_] comes next. *)
Record walking (start at_ : Url) (stops : list Stop) (last_ : option Held) (newest : option Z) : Prop := {
  to_first : head (addresses stops ++ [at_]) = Some start;
  to_once : NoDup (addresses stops ++ [at_]);
  to_leads : forall i s, stops !! i = Some s -> leads i s (default at_ (stop_address <$> stops !! S i));
  to_last : last_ = last (copies stops);
  to_newest : newest = newest_time (times stops);
}.

Lemma copies_snoc stops s : copies (stops ++ [s]) = copies stops ++ option_list (held_at (length stops) s).
Proof. unfold copies. rewrite imap_app, omap_app. f_equal. cbn. rewrite Nat.add_0_r. by destruct (held_at (length stops) s). Qed.

Lemma times_snoc stops s : times (stops ++ [s]) = times stops ++ option_list (fetched_at (length stops) s).
Proof. unfold times. rewrite imap_app, omap_app. f_equal. cbn. rewrite Nat.add_0_r. by destruct (fetched_at (length stops) s). Qed.

Lemma newest_snoc stops s : newest_time (times (stops ++ [s])) = match fetched_at (length stops) s with Some t => max_time (newest_time (times stops)) t | None => newest_time (times stops) end.
Proof. rewrite times_snoc. unfold newest_time. rewrite foldl_app. by destruct (fetched_at (length stops) s). Qed.

Lemma addresses_snoc stops s : addresses (stops ++ [s]) = addresses stops ++ [stop_address s].
Proof. apply map_app. Qed.

(** A walk that ends here. *)
Lemma walk_ends start at_ stops last_ s e newest : walking start at_ stops last_ newest -> stop_address s = at_ -> (length stops <= MOST_CHANGES)%nat ->
  ends_at (stops ++ [s]) (length stops) s e -> walked start (mkWalk (stops ++ [s]) e (match held_at (length stops) s with Some h => Some h | None => last_ end) (match fetched_at (length stops) s with Some t => max_time newest t | None => newest end)).
Proof.
  intros [H1 H2 H3 H4 H5] Hs Hl He. split; cbn [Managed.stops ended last_held Managed.newest]; rewrite ?addresses_snoc, ?Hs; [done|rewrite length_app; cbn; lia|done| | | |].
  - intros i x x' Hi Hi'. apply lookup_snoc_Some in Hi' as [[Hlt Hi']|[Hlt Hi']].
    + rewrite lookup_app_l in Hi by lia. specialize (H3 i x Hi). by rewrite Hi' in H3.
    + subst x'. rewrite lookup_app_l in Hi by lia. specialize (H3 i x Hi). rewrite (lookup_ge_None_2 stops (S i)) in H3 by lia. by rewrite Hs.
  - exists (length stops), s. split; [by rewrite lookup_app_r, Nat.sub_diag|]. split; [rewrite length_app; cbn; lia|done].
  - rewrite copies_snoc, last_app. rewrite H4. by destruct (held_at (length stops) s).
  - rewrite newest_snoc. by rewrite H5.
Qed.

Lemma walk_from_ok start fuel : forall at_ stops last_ newest, walking start at_ stops last_ newest -> (length stops + fuel = S MOST_CHANGES)%nat -> (0 < fuel)%nat ->
  exists w, walk_from get fuel at_ stops last_ newest = Some w /\ walked start w.
Proof.
  induction fuel as [|fuel IH]; intros at_ stops last_ newest Hw Hl Hf; [lia|]. cbn [walk_from]. destruct (get (length stops) at_) as [text path fetched|why] eqn:Hg.
  - set (s := mkStop at_ (Some path)). assert (Hh : held_at (length stops) s = Some (read_copy text path)) by (unfold held_at; cbn [stop_address s]; by rewrite Hg).
    assert (Ht : fetched_at (length stops) s = Some fetched) by (unfold fetched_at; cbn [stop_address s]; by rewrite Hg).
    assert (Hend : forall e, ends_at (stops ++ [s]) (length stops) s e -> walked start (mkWalk (stops ++ [s]) e (Some (read_copy text path)) (max_time newest fetched))).
    { intros e He. pose proof (walk_ends start at_ stops last_ s e newest Hw eq_refl ltac:(lia) He) as Hd. by rewrite Hh, Ht in Hd. }
    destruct (address <$> held_line (read_copy text path)) as [next|] eqn:Hn.
    + case_bool_decide as Hsame; [eexists; split; [done|]; apply Hend; cbn [ends_at]; rewrite Hh; cbn [mbind option_bind]; by rewrite Hn, Hsame|].
      assert (Hleads : leads (length stops) s next) by (split; [rewrite Hh; exact Hn|done]).
      destruct ((MOST_CHANGES <? length (stops ++ [s]))%nat || _) eqn:Hstop.
      * eexists. split; [done|]. apply Hend. exists next. split; [done|]. apply orb_true_iff in Hstop as [Hmost%Nat.ltb_lt|Hseen].
        { right. rewrite length_app in *. cbn [length] in *. lia. }
        { left. apply existsb_exists in Hseen as (x & Hx & Heq). apply bool_decide_eq_true in Heq. subst next. apply list_elem_of_In. by apply in_map. }
      * apply orb_false_iff in Hstop as [Hmost%Nat.ltb_ge Hseen]. rewrite length_app in Hmost. cbn [length] in Hmost. apply IH; [|rewrite length_app; cbn; lia|lia].
        destruct Hw as [H1 H2 H3 H4 H5]. change [at_] with [stop_address s] in H1, H2. rewrite <- addresses_snoc in H1, H2. split.
        { by rewrite head_app, H1. }
        { apply NoDup_app. split; [done|]. split; [|apply NoDup_singleton]. intros y Hin ->%list_elem_of_singleton. apply list_elem_of_In, in_map_iff in Hin as (x & Hx & Hin). rewrite <- not_true_iff_false in Hseen. apply Hseen. apply existsb_exists. exists x. split; [done|]. by apply bool_decide_eq_true. }
        { intros i x Hi. apply lookup_snoc_Some in Hi as [[Hlt Hi]|[Hlt Hi]].
          - specialize (H3 i x Hi). destruct (decide (S i < length stops)%nat) as [Hlt'|Hge].
            + rewrite lookup_app_l by done. destruct (lookup_lt_is_Some_2 stops (S i) Hlt') as (y & Hy). by rewrite Hy in *.
            + rewrite (lookup_ge_None_2 stops) in H3 by lia. by replace (S i) with (length stops) by lia; rewrite lookup_app_r, Nat.sub_diag by lia.
          - subst. rewrite (lookup_ge_None_2 (stops ++ [s])) by (rewrite length_app; cbn; lia). done. }
        { rewrite copies_snoc, last_app, Hh. done. }
        { by rewrite newest_snoc, Ht, H5. }
    + eexists. split; [done|]. apply Hend. exists (read_copy text path). split; [done|]. by destruct (held_line (read_copy text path)).
  - eexists. split; [done|]. set (s := mkStop at_ None). assert (Hh : held_at (length stops) s = None) by (unfold held_at; cbn [stop_address s]; by rewrite Hg).
    assert (Ht : fetched_at (length stops) s = None) by (unfold fetched_at; cbn [stop_address s]; by rewrite Hg).
    pose proof (walk_ends start at_ stops last_ s (NotFound why) newest Hw eq_refl ltac:(lia) Hg) as Hd. by rewrite Hh, Ht in Hd.
Qed.

Lemma walk_ok start : exists w, walk get start = Some w /\ walked start w.
Proof. apply walk_from_ok; [|done|unfold MOST_CHANGES; lia]. split; [done|apply NoDup_singleton|done|done|done]. Qed.

(** ** The choice *)

Lemma newest_none ts : newest_time ts = None <-> ts = [].
Proof. unfold newest_time. split; [|by intros ->]. destruct ts as [|t ts] using rev_ind; [done|]. by rewrite foldl_app. Qed.

Lemma newest_bound ts m n : newest_time ts = Some n -> n < m <-> Forall (fun t => t < m) ts.
Proof.
  unfold newest_time. revert n. induction ts as [|t ts IH] using rev_ind; intros n; [done|]. rewrite foldl_app, Forall_app. cbn [foldl]. unfold max_time at 1. intros [= <-]. destruct (foldl max_time None ts) as [u|] eqn:E.
  - specialize (IH u eq_refl). rewrite <- IH. split; [intros H; split; [lia|constructor; [lia|constructor]]|intros [H1 H2]; apply Forall_inv in H2; lia].
  - apply newest_none in E. subst ts. split; [intros H; split; [constructor|by constructor; [|constructor]]|intros [_ H]; by apply Forall_inv in H].
Qed.

Lemma held_fetched n s : held_at n s = None <-> fetched_at n s = None.
Proof. unfold held_at, fetched_at. by destruct (get n (stop_address s)). Qed.

Lemma no_copies stops : copies stops = [] <-> times stops = [].
Proof.
  induction stops as [|s stops IH] using rev_ind; [done|]. rewrite copies_snoc, times_snoc. pose proof (held_fetched (length stops) s) as Hh. destruct (held_at (length stops) s), (fetched_at (length stops) s); cbn [option_list option_rect]; try naive_solver; rewrite ?app_nil_r; try done.
  split; intros H; by apply app_eq_nil in H as [_ H].
Qed.

(** The local file is the text in effect: no copy was found, or it says
    something and was changed after every copy was fetched, and not in the
    future. *)
Definition local_wins (stops : list Stop) (has_section : bool) (modified : option Z) (now : Z) : Prop :=
  copies stops = [] \/ (has_section = true /\ exists m, modified = Some m /\ m <= now /\ Forall (fun t => t < m) (times stops)).

Lemma local_in_effect_spec start w has_section modified now : walked start w -> local_in_effect w has_section modified now = true <-> local_wins (stops w) has_section modified now.
Proof.
  intros [_ _ _ _ _ Hl Hn]. unfold local_in_effect, local_wins. rewrite Hl, Hn. rewrite orb_true_iff, andb_true_iff. destruct (last (copies (stops w))) as [h|] eqn:Hc.
  - assert (Hne : copies (stops w) <> []) by (by intros Hz; rewrite Hz in Hc). assert (Ht : times (stops w) <> []) by (by rewrite <- no_copies). destruct (newest_time (times (stops w))) as [n|] eqn:Hnt; [|by apply newest_none in Hnt].
    unfold edited_since. destruct modified as [m|]; [|naive_solver]. pose proof (newest_bound _ m n Hnt) as Hb. rewrite andb_true_iff, Z.ltb_lt, Z.leb_le. naive_solver.
  - apply last_None in Hc. split; [by left|by left].
Qed.

(** What becomes of the stops. *)
Lemma refs_spec updated count cfg stops : map ref_url (imap (stop_ref updated count cfg) stops) = addresses stops
  /\ forall i r, imap (stop_ref updated count cfg) stops !! i = Some r -> (role r = RManaged <-> updated = true /\ S i = count)
     /\ (role r = RManaged -> ref_interval r = interval cfg /\ ref_strict r = strict cfg) /\ (role r <> RManaged -> role r = RManagedHop /\ ref_interval r = DEFAULT_INTERVAL /\ ref_strict r = false).
Proof.
  split.
  - unfold addresses. change (map ref_url (imap (stop_ref updated count cfg) stops)) with (ref_url <$> imap (stop_ref updated count cfg) stops). rewrite fmap_imap. apply list_eq. intros i. rewrite list_lookup_imap. change (map stop_address stops) with (stop_address <$> stops). rewrite list_lookup_fmap. by destruct (stops !! i).
  - intros i r Hr. rewrite list_lookup_imap in Hr. destruct (stops !! i) as [s|]; [|done]. injection Hr as <-. unfold stop_ref. cbn [role ref_interval ref_strict]. rewrite Nat.add_1_r. destruct updated, (Nat.eqb_spec (S i) count); cbn [andb]; naive_solver.
Qed.

(** C32: the walk along the copies of a managed profile ends, whatever the source
    answers: at most nine addresses, none twice, each the one the copy before it
    names, and the last tells why it is the last.  The local file is in effect when
    no copy was found, or when it has a section and was changed, not in the future,
    after every copy was fetched; the last copy found is otherwise.  Of the
    addresses the last alone is kept up to date, as the line in force says, unless
    its copy is in effect and has no line. *)
Theorem managed_text_is_chosen local has_section modified now :
  exists w c, walk get (address local) = Some w /\ walked (address local) w /\ choose get local has_section modified now = Some c
    /\ (local_wins (stops w) has_section modified now -> chosen c = None) /\ (~ local_wins (stops w) has_section modified now -> chosen c = copy <$> last (copies (stops w)))
    /\ map ref_url (remote c) = addresses (stops w)
    /\ exists cfg, (local_wins (stops w) has_section modified now -> cfg = config local)
       /\ (~ local_wins (stops w) has_section modified now -> cfg = config (default local (h ← last (copies (stops w)); held_line h)))
       /\ forall i r, remote c !! i = Some r -> (role r = RManaged <-> S i = length (stops w) /\ (local_wins (stops w) has_section modified now \/ ended w <> NoLine))
          /\ (role r = RManaged -> ref_interval r = interval cfg /\ ref_strict r = strict cfg) /\ (role r <> RManaged -> role r = RManagedHop /\ ref_interval r = DEFAULT_INTERVAL /\ ref_strict r = false).
Proof.
  destruct (walk_ok (address local)) as (w & Hw & Hok). exists w. unfold choose. rewrite Hw. cbn [mbind option_bind]. eexists. split; [done|]. split; [done|]. split; [done|]. cbn [chosen remote].
  pose proof (local_in_effect_spec (address local) w has_section modified now Hok) as He. destruct Hok as [_ _ _ _ _ Hl _]. rewrite Hl.
  assert (Hnl : is_no_line (ended w) = false <-> ended w <> NoLine) by (by destruct (ended w)). set (b := local_in_effect w has_section modified now) in *.
  destruct (refs_spec (b || negb (is_no_line (ended w))) (length (stops w)) (config (default local (h ← if b then None else last (copies (stops w)); held_line h))) (stops w)) as [Ha Hr].
  split; [intros Hw'; apply He in Hw'; by rewrite Hw'|]. split; [intros Hw'; rewrite <- He, not_true_iff_false in Hw'; by rewrite Hw'|]. split; [exact Ha|]. exists (config (default local (h ← if b then None else last (copies (stops w)); held_line h))). split; [|split; [|intros i r Hi; destruct (Hr i r Hi) as (H1 & H2 & H3)]].
  - intros Hw'. apply He in Hw'. by rewrite Hw'.
  - intros Hw'. rewrite <- He, not_true_iff_false in Hw'. by rewrite Hw'.
  - split; [|done]. rewrite H1, orb_true_iff, negb_true_iff. naive_solver.
Qed.
End Props.

