(* ===== verification/Include.v ===== *)
(** * Includes of a profile

    [crates/rurge-config/src/text/include.rs]: the expansion of [#!include] lines,
    from files of this machine and from texts that were downloaded.  The file system
    is a parameter ([Files]) that does not change while a profile is loaded; what is
    looked at on it is kept in [looked], as the source's tests keep it.  An outer
    [None] is a panic or fuel that is not enough, which [expand] never meets
    ([IncludeProps.v]). *)

From S2P Require Import Prelude RuleMatcher Requirement Values ProfileText Managed.

(** What the code uses of [std::path] and [std::fs]: a path is its text;
    [same_path] is [PathBuf]'s equality. *)
Class Files := {
  same_path : rstr -> rstr -> bool;
  is_absolute : rstr -> bool;
  join : rstr -> rstr -> rstr;
  canonicalize : rstr -> option rstr;
  read_to_string : rstr -> option rstr;
}.

Record IncludeOptions := mkOptions { base_dir : rstr; max_depth : nat; max_files : nat }.

Definition is_url (s : rstr) : bool := let l := to_ascii_lowercase s in starts_with l (lit "http://") || starts_with l (lit "https://").

Definition trim_end (s : rstr) : rstr := trim_end_by is_whitespace s.

Definition wildcard_prefix (section_name : rstr) : option rstr :=
  prefix ← strip_suffix 42 (trim_end section_name);
  if bool_decide (last prefix = Some 32) then Some prefix else None.

Definition INCLUDE : rstr := lit "#!include".

(** A look at the file system: a path resolved, a file read. *)
Inductive Look := Resolved (path : rstr) | ReadFile (path : rstr).

Section Include.
Context {U : Urls} {F : Files}.

(** [Visiting]. *)
Inductive Visiting := VFile (path : rstr) | VRemote (url : Url).

Definition same_place (a b : Visiting) : bool :=
  match a, b with
  | VFile p, VFile q => same_path p q
  | VRemote u, VRemote v => bool_decide (u = v)
  | _, _ => false
  end.

Record Included := mkIncluded { inc_profile : Profile; inc_file : rstr; tracked : option nat; sectionless : bool }.

(** [Expansion] and [Remotes]; [asked] counts the questions to the source. *)
Record Expansion := mkExpansion {
  out : list Diagnostic;
  stack : list Visiting;
  count : nat;
  refs : list RemoteRef;
  answers : list (Url * Answer);
  asked : nat;
  looked : list Look;
}.

Definition set_out (d : list Diagnostic) (st : Expansion) : Expansion := mkExpansion d (stack st) (count st) (refs st) (answers st) (asked st) (looked st).
Definition set_stack (s : list Visiting) (st : Expansion) : Expansion := mkExpansion (out st) s (count st) (refs st) (answers st) (asked st) (looked st).
Definition set_count (n : nat) (st : Expansion) : Expansion := mkExpansion (out st) (stack st) n (refs st) (answers st) (asked st) (looked st).
Definition set_refs (r : list RemoteRef) (st : Expansion) : Expansion := mkExpansion (out st) (stack st) (count st) r (answers st) (asked st) (looked st).
Definition set_answers (a : list (Url * Answer)) (n : nat) (st : Expansion) : Expansion := mkExpansion (out st) (stack st) (count st) (refs st) a n (looked st).
Definition look_at (l : Look) (st : Expansion) : Expansion := mkExpansion (out st) (stack st) (count st) (refs st) (answers st) (asked st) (looked st ++ [l]).

Definition report (d : Diagnostic) (st : Expansion) : Expansion := set_out (out st ++ [d]) st.

(** ** Remote files *)

Definition ask (get : nat -> Url -> Answer) (url : Url) (st : Expansion) : Answer * Expansion :=
  match List.find (fun ua : Url * Answer => bool_decide (ua.1 = url)) (answers st) with
  | Some ua => (ua.2, st)
  | None => let answer := get (asked st) url in (answer, set_answers (answers st ++ [(url, answer)]) (S (asked st)) st)
  end.

(** [Iterator::position]. *)
Fixpoint position {A} (p : A -> bool) (l : list A) : option nat :=
  match l with [] => None | x :: l => if p x then Some 0%nat else S <$> position p l end.

Definition track (url : Url) (path : option rstr) (interval : Z) (st : Expansion) : nat * Expansion :=
  match position (fun r => bool_decide (ref_url r = url)) (refs st) with
  | Some at_ => (at_, st)
  | None => (length (refs st), set_refs (refs st ++ [mkRef url RInclude path interval false false]) st)
  end.

(** [refs[at].lacks_section = true]. *)
Definition set_lacks_section (at_ : nat) (st : Expansion) : option Expansion :=
  r ← refs st !! at_;
  Some (set_refs (<[at_ := mkRef (ref_url r) (role r) (path r) (ref_interval r) (ref_strict r) true]> (refs st)) st).

(** ** Taking a text in *)

Definition canonical (p : rstr) (st : Expansion) : rstr * Expansion := (default p (canonicalize p), look_at (Resolved p) st).

Section Expand.
Context (opts : IncludeOptions) (remote : option (nat -> Url -> Answer)).

Definition admits (key : Visiting) (span : Span) (depth : nat) (st : Expansion) : bool * Expansion :=
  let refuse := report (mkDiag Error E_INCLUDE_CYCLE span) in
  if existsb (same_place key) (stack st) then (false, refuse st)
  else if (max_depth opts <=? depth)%nat then (false, refuse st)
  else if (max_files opts <=? count st)%nat then
    let st := set_count (S (count st)) st in
    (false, if (count st =? max_files opts + 1)%nat then refuse st else st)
  else (true, set_count (S (count st)) st).

(** The expansion of a text inside another, one level deeper. *)
Context (expand : Profile -> nat -> Expansion -> option (Profile * Expansion)).

(** A text that was read, expanded in turn while [key] is on the stack. *)
Definition expand_inside (key : Visiting) (p : Profile) (depth : nat) (st : Expansion) : option (Profile * Expansion) :=
  '(p, st) ← expand p (S depth) (set_stack (stack st ++ [key]) st);
  Some (p, set_stack (removelast (stack st)) st).

Definition take_in_local (target : rstr) (span : Span) (depth : nat) (st : Expansion) : option (option Included * Expansion) :=
  let path := if is_absolute target then target else join (base_dir opts) target in
  let '(key, st) := canonical path st in
  let '(admitted, st) := admits (VFile key) span depth st in
  if negb admitted then Some (None, st)
  else
    let st := look_at (ReadFile path) st in
    match read_to_string path with
    | None => Some (None, report (mkDiag Error E_INCLUDE_NOT_FOUND span) st)
    | Some text =>
        let '(p, sub_diags) := parse_str text path (Include path) in
        let st := set_out (out st ++ sub_diags) st in
        let sectionless := bool_decide (sections p = []) in
        '(p, st) ← expand_inside (VFile key) p depth st;
        Some (Some (mkIncluded p path None sectionless), st)
    end.

Definition take_in_remote (target : rstr) (span : Span) (depth : nat) (st : Expansion) : option (option Included * Expansion) :=
  match url_parse target with
  | None => Some (None, report (mkDiag Warning W_INVALID_VALUE span) st)
  | Some url =>
      let url := without_fragment url in
      match remote with
      | None => Some (None, report (mkDiag Warning W_REMOTE_INCLUDE_NOT_READ span) st)
      | Some get =>
          let '(admitted, st) := admits (VRemote url) span depth st in
          if negb admitted then Some (None, st)
          else
            let '(answer, st) := ask get url st in
            match answer with
            | AMissing _ =>
                let st := report (mkDiag Warning W_RESOURCE_UNAVAILABLE span) st in
                let '(_, st) := track url None DEFAULT_INTERVAL st in
                Some (None, st)
            | AText text path _ =>
                let '(p, sub_diags) := parse_str text path (Remote path) in
                let st := set_out (out st ++ sub_diags) st in
                let interval := match (parse_managed (header p)).1 with Some managed => interval managed | None => DEFAULT_INTERVAL end in
                let '(at_, st) := track url (Some path) interval st in
                let sectionless := bool_decide (sections p = []) in
                '(p, st) ← expand_inside (VRemote url) p depth st;
                Some (Some (mkIncluded p path (Some at_) sectionless), st)
            end
      end
  end.

Definition take_in (target : rstr) (span : Span) (depth : nat) (reach : Reach) (st : Expansion) : option (option Included * Expansion) :=
  if is_url target then take_in_remote target span depth st
  else match include_refusal reach with
  | Some _ => Some (None, report (mkDiag Warning W_REMOTE_LOCAL_ACCESS span) st)
  | None => take_in_local target span depth st
  end.

(** ** The lines of a section *)

(** What one target brings to a section: entries, or sections where its name
    ends in a wildcard. *)
Definition bring (section_name : rstr) (wildcard : option rstr) (span : Span) (included : Included) (st : Expansion) : option (list Entry * list Section_ * Expansion) :=
  match wildcard with
  | Some prefix =>
      match tracked included, sectionless included with
      | Some at_, true => st ← set_lacks_section at_ (report (mkDiag Warning W_INCLUDE_SECTION_MISSING span) st); Some ([], [], st)
      | _, _ => Some ([], sections_with_prefix (inc_profile included) prefix, st)
      end
  | None =>
      match section (inc_profile included) section_name with
      | Some s => Some (entries s, [], st)
      | None =>
          st ← match tracked included with Some at_ => set_lacks_section at_ st | None => Some st end;
          Some ([], [], report (mkDiag Warning W_INCLUDE_SECTION_MISSING span) st)
      end
  end.

Fixpoint take_targets (section_name : rstr) (wildcard : option rstr) (entry : Entry) (depth : nat) (targets : list rstr) (st : Expansion) : option (list Entry * list Section_ * Expansion) :=
  match targets with
  | [] => Some ([], [], st)
  | target :: targets =>
      '(included, st) ← take_in target (span entry) depth (reach (origin entry)) st;
      '(es, ss, st) ← match included with Some included => bring section_name wildcard (span entry) included st | None => Some ([], [], st) end;
      '(es', ss', st) ← take_targets section_name wildcard entry depth targets st;
      Some (es ++ es', ss ++ ss', st)
  end.

Fixpoint take_entries (section_name : rstr) (wildcard : option rstr) (depth : nat) (es : list Entry) (st : Expansion) : option (list Entry * list Section_ * Expansion) :=
  match es with
  | [] => Some ([], [], st)
  | entry :: es =>
      '(new, ss, st) ← match strip_prefix_str (raw entry) INCLUDE with
        | None => Some ([entry], [], st)
        | Some rest => targets ← split_list rest; take_targets section_name wildcard entry depth targets st
        end;
      '(new', ss', st) ← take_entries section_name wildcard depth es st;
      Some (new ++ new', ss ++ ss', st)
  end.

(** The sections that stay, and those appended. *)
Fixpoint take_sections (depth : nat) (ss : list Section_) (st : Expansion) : option (list Section_ * list Section_ * Expansion) :=
  match ss with
  | [] => Some ([], [], st)
  | s :: ss =>
      let wildcard := wildcard_prefix (name s) in
      '(es, appended, st) ← take_entries (name s) wildcard depth (entries s) st;
      '(kept, appended', st) ← take_sections depth ss st;
      Some ((match wildcard with Some _ => [] | None => [mkSection (name s) (kind s) (sec_span s) es] end) ++ kept, appended ++ appended', st)
  end.

Definition expand_with (p : Profile) (depth : nat) (st : Expansion) : option (Profile * Expansion) :=
  '(kept, appended, st) ← take_sections depth (sections p) st;
  Some (mkProfile (main p) (header p) (kept ++ appended), st).
End Expand.

(** [Expansion::expand]. *)
Fixpoint expand_from (opts : IncludeOptions) (remote : option (nat -> Url -> Answer)) (fuel : nat) (p : Profile) (depth : nat) (st : Expansion) : option (Profile * Expansion) :=
  match fuel with
  | 0%nat => None
  | S fuel => expand_with opts remote (expand_from opts remote fuel) p depth st
  end.

Definition expand (opts : IncludeOptions) (remote : option (nat -> Url -> Answer)) (p : Profile) (diags : list Diagnostic) : option (Profile * Expansion) :=
  let st := mkExpansion diags [] 0 [] [] 0 [] in
  let st := match main p with Some m => let '(key, st) := canonical m st in set_stack (stack st ++ [VFile key]) st | None => st end in
  expand_from opts remote (S (max_depth opts)) p 0 st.
End Include.
