(* ===== verification/IncludeProps.v ===== *)
(** * What an include takes in

    The expansion ends without a panic, within its bounds; a text that was
    downloaded never has a file of this machine looked at, at whatever depth; and
    every line of the result is a line of the profile or of a text that says where
    it was read. *)

From S2P Require Import Prelude RuleMatcher Requirement Values ItemFields ProfileText ProfileProps Managed Include.

(** ** Entries of a text *)

Definition profile_entries (p : Profile) : list Entry := List.concat (map entries (sections p)).

Lemma entries_push p s : profile_entries (push_section p (Some s)) = profile_entries p ++ entries s.
Proof. unfold profile_entries. cbn. rewrite map_app, concat_app. cbn. by rewrite app_nil_r. Qed.

Definition from (o : Origin) (e : Entry) : Prop := origin e = o.

Lemma read_line_from file o idx text r : Forall (from o) (profile_entries (push_section (so_far r) (current r))) ->
  Forall (from o) (profile_entries (push_section (so_far (read_line file o idx text r)) (current (read_line file o idx text r)))).
Proof.
  intros Hr. unfold read_line. case_bool_decide; [done|]. destruct (section_header _).
  { cbn [so_far current]. rewrite entries_push. cbn [entries]. by rewrite app_nil_r. }
  destruct r as [p [s|] d]; cbn [so_far current diags] in *; destruct (_ && negb (is_requirement_prefix _)); try done; destruct (is_comment _); try done.
  destruct (split_line _) as [[req body]|]; [|done]. case_bool_decide; [done|]. cbn [so_far current]. rewrite entries_push in *. cbn [push_entry entries]. rewrite app_assoc. apply Forall_app. split; [done|]. by constructor; [|constructor].
Qed.

Lemma parse_str_from text file o : Forall (from o) (profile_entries (parse_str text file o).1).
Proof.
  unfold parse_str. cbn [fst]. generalize 0%nat, (lines (match text with c :: rest => if c =? BOM then rest else text | [] => [] end)). intros idx ls.
  assert (H0 : Forall (from o) (profile_entries (push_section (so_far (mkReading (mkProfile (Some file) [] []) None [])) (current (mkReading (mkProfile (Some file) [] []) None []))))) by constructor.
  revert idx H0. generalize (mkReading (mkProfile (Some file) [] []) None []). induction ls as [|l ls IH]; intros r idx Hr; cbn [read_lines]; [done|]. by apply IH, read_line_from.
Qed.

Section Props.
Context {U : Urls} {F : Files} (opts : IncludeOptions) (remote : option (nat -> Url -> Answer)) (top : Profile).

(** ** Why a file is looked at *)

(** What the profile's own file has looked at. *)
Definition main_looks : list Look := match main top with Some m => [Resolved m] | None => [] end.

(** A line of the profile, or of a file that was read before. *)
Definition line_known (seen : list Look) (e : Entry) : Prop :=
  e ∈ profile_entries top \/ exists text file, read_to_string file = Some text /\ ReadFile file ∈ seen /\ e ∈ profile_entries (parse_str text file (ProfileText.Include file)).1.

Definition full_path (target : rstr) : rstr := if is_absolute target then target else join (base_dir opts) target.

(** A known line that may name local files includes this one. *)
Definition names (seen : list Look) (path : rstr) : Prop :=
  exists e rest ts t, line_known seen e /\ reach (origin e) = Anywhere /\ strip_prefix_str (raw e) INCLUDE = Some rest /\ split_list rest = Some ts
    /\ t ∈ ts /\ is_url t = false /\ path = full_path t.

Definition path_of (l : Look) : rstr := match l with Resolved path => path | ReadFile path => path end.

Definition justified (seen : list Look) : Prop := forall i l, seen !! i = Some l -> (i = 0%nat /\ main_looks = [l]) \/ names (take i seen) (path_of l).

(** A line that may name local files is known. *)
Definition sane (seen : list Look) (e : Entry) : Prop := reach (origin e) = Anywhere -> line_known seen e.

Lemma known_more seen more e : line_known seen e -> line_known (seen ++ more) e.
Proof. intros [Hin|(text & file & Hr & Hin & He)]; [by left|]. right. exists text, file. split; [done|]. split; [|done]. apply elem_of_app. by left. Qed.

Lemma sane_more seen more es : Forall (sane seen) es -> Forall (sane (seen ++ more)) es.
Proof. intros Hs. eapply Forall_impl; [exact Hs|]. intros e He Hr. by apply known_more, He. Qed.

Lemma names_more seen more path : names seen path -> names (seen ++ more) path.
Proof. intros (e & rest & ts & t & He & Hn). exists e, rest, ts, t. split; [by apply known_more|done]. Qed.

Lemma justified_look seen l : justified seen -> names seen (path_of l) -> justified (seen ++ [l]).
Proof.
  intros Hj Hn i l' Hl. apply lookup_snoc_Some in Hl as [[Hi Hl]|[-> <-]]; [|right; by rewrite take_app_length]. rewrite take_app_le by lia. by apply Hj.
Qed.

(** ** The books of an expansion *)

Definition is_read (l : Look) : bool := match l with ReadFile _ => true | Resolved _ => false end.
Definition reads (st : Expansion) : nat := length (List.filter is_read (looked st)).

(** The source is asked once for an address, an address is tracked once, and no
    more texts are read than are let in; [room] of those let in are still to
    read. *)
Record books (room : nat) (st : Expansion) : Prop := {
  books_once : NoDup (map fst (answers st));
  books_asked : asked st = length (answers st);
  books_answers : forall i u a, answers st !! i = Some (u, a) -> exists get, remote = Some get /\ a = get i u;
  books_refs : NoDup (map ref_url (refs st));
  books_room : (reads st + asked st + room <= Nat.min (count st) (max_files opts))%nat;
}.

(** What a part of the expansion does to its variables; [quiet] when it may not
    look at this machine. *)
Record steps (quiet : Prop) (st st' : Expansion) : Prop := {
  steps_stack : stack st' = stack st;
  steps_refs : (length (refs st) <= length (refs st'))%nat;
  steps_books : books 0 st -> books 0 st';
  steps_looked : quiet -> looked st' = looked st;
  steps_more : exists more, looked st' = looked st ++ more;
  steps_justified : justified (looked st) -> justified (looked st');
}.

(** Nothing is looked at. *)
Lemma steps_blind quiet st st' : stack st' = stack st -> (length (refs st) <= length (refs st'))%nat -> (books 0 st -> books 0 st') -> looked st' = looked st -> steps quiet st st'.
Proof. intros H1 H2 H3 H4. split; [done|done|done|done| |]; rewrite H4; [exists []; by rewrite app_nil_r|done]. Qed.

Lemma steps_refl quiet st : steps quiet st st.
Proof. by apply steps_blind. Qed.

Lemma steps_trans quiet st st' st'' : steps quiet st st' -> steps quiet st' st'' -> steps quiet st st''.
Proof. intros [A1 A2 A3 A4 [ma A5] A6] [B1 B2 B3 B4 [mb B5] B6]. split; [congruence|lia|auto| |exists (ma ++ mb); by rewrite B5, A5, app_assoc|auto]. intros Hq. rewrite B4 by done. by apply A4. Qed.

Lemma steps_weaken (quiet quiet' : Prop) st st' : (quiet' -> quiet) -> steps quiet st st' -> steps quiet' st st'.
Proof. intros Hq [A1 A2 A3 A4 A5 A6]. split; [done..| |done|done]. intros. by apply A4, Hq. Qed.

Lemma steps_sane quiet st st' es : steps quiet st st' -> Forall (sane (looked st)) es -> Forall (sane (looked st')) es.
Proof. intros [_ _ _ _ [more ->] _]. apply sane_more. Qed.

Lemma report_steps quiet d st : steps quiet st (report d st).
Proof. apply steps_blind; [done|done| |done]. by intros [H1 H2 H3 H4 H5]. Qed.

Lemma out_steps quiet d st : steps quiet st (set_out d st).
Proof. apply steps_blind; [done|done| |done]. by intros [H1 H2 H3 H4 H5]. Qed.

Lemma lacks_steps quiet at_ st : (at_ < length (refs st))%nat -> exists st', set_lacks_section at_ st = Some st' /\ steps quiet st st'.
Proof.
  intros Hat. unfold set_lacks_section. destruct (lookup_lt_is_Some_2 _ _ Hat) as (r & Hr). rewrite Hr. cbn [mbind option_bind]. eexists. split; [done|]. apply steps_blind; cbn [set_refs stack refs looked]; [done|by rewrite length_insert| |done].
  intros [H1 H2 H3 H4 H5]. split; cbn [set_refs answers asked refs count]; [done|done|done| |done].
  change (map ref_url (<[at_:=mkRef (ref_url r) (role r) (path r) (ref_interval r) (ref_strict r) true]> (refs st))) with (ref_url <$> <[at_:=mkRef (ref_url r) (role r) (path r) (ref_interval r) (ref_strict r) true]> (refs st)).
  rewrite list_fmap_insert. cbn [ref_url]. rewrite list_insert_id; [done|]. by rewrite list_lookup_fmap, Hr.
Qed.

Lemma position_none {A} (p : A -> bool) l : position p l = None -> forall x, x ∈ l -> p x = false.
Proof.
  induction l as [|y l IH]; cbn [position]; intros Hp x Hx; [by apply elem_of_nil in Hx|]. destruct (p y) eqn:Hy; [done|]. destruct (position p l); [done|]. apply elem_of_cons in Hx as [->|Hx]; [done|by apply IH].
Qed.

Lemma position_lt {A} (p : A -> bool) l i : position p l = Some i -> (i < length l)%nat.
Proof. revert i. induction l as [|y l IH]; intros i; cbn [position]; [done|]. destruct (p y); [intros [= <-]; cbn; lia|]. destruct (position p l) as [j|]; [|done]. intros [= <-]. specialize (IH j eq_refl). cbn. lia. Qed.

Lemma track_steps quiet url path interval st : let '(at_, st') := track url path interval st in steps quiet st st' /\ (at_ < length (refs st'))%nat.
Proof.
  unfold track. destruct (position _ (refs st)) as [at_|] eqn:Hp; [split; [apply steps_refl|by eapply position_lt]|]. split; [|cbn [set_refs refs]; rewrite length_app; cbn; lia].
  apply steps_blind; cbn [set_refs stack refs looked]; [done|rewrite length_app; lia| |done]. intros [H1 H2 H3 H4 H5]. split; cbn [set_refs answers asked refs count]; [done|done|done| |done].
  rewrite map_app. apply NoDup_app. split; [done|]. split; [|apply NoDup_singleton]. intros y Hy ->%list_elem_of_singleton. cbn [ref_url] in *. apply list_elem_of_In, in_map_iff in Hy as (r & Hr & Hin). apply list_elem_of_In in Hin. apply (position_none _ _ Hp) in Hin. by apply bool_decide_eq_false in Hin.
Qed.

(** Who is let in: below the depth and within the number of texts. *)
Lemma admits_steps key span depth st : let '(b, st') := admits opts key span depth st in
  if b : bool then (depth < max_depth opts)%nat /\ (count st < max_files opts)%nat /\ st' = set_count (S (count st)) st else forall quiet, steps quiet st st'.
Proof.
  unfold admits. destruct (existsb _ (stack st)); [intros q; apply report_steps|]. destruct (Nat.leb_spec (max_depth opts) depth) as [|Hd]; [intros q; apply report_steps|].
  destruct (Nat.leb_spec (max_files opts) (count st)) as [Hm|Hm]; [|done]. intros q.
  assert (Hc : steps q st (set_count (S (count st)) st)) by (apply steps_blind; [done|done| |done]; intros [H1 H2 H3 H4 H5]; split; cbn [set_count answers asked refs count] in *; try done; unfold reads in *; cbn [set_count looked]; lia).
  destruct (count _ =? _)%nat; [|done]. eapply steps_trans; [exact Hc|apply report_steps].
Qed.

Lemma let_in_books st : books 0 st -> (count st < max_files opts)%nat -> books 1 (set_count (S (count st)) st).
Proof. intros [H1 H2 H3 H4 H5] Hc. split; cbn [set_count answers asked refs count]; try done. unfold reads in *. cbn [set_count looked]. lia. Qed.

Lemma no_room st : books 1 st -> books 0 st.
Proof. intros [H1 H2 H3 H4 H5]. split; try done. lia. Qed.

Lemma read_books path st : books 1 st -> books 0 (look_at (ReadFile path) st).
Proof. intros [H1 H2 H3 H4 H5]. split; cbn [look_at answers asked refs count]; try done. unfold reads in *. cbn [look_at looked]. rewrite List.filter_app, length_app. cbn. lia. Qed.

Lemma resolve_books n path st : books n st -> books n (look_at (Resolved path) st).
Proof. intros [H1 H2 H3 H4 H5]. split; cbn [look_at answers asked refs count]; try done. unfold reads in *. cbn [look_at looked]. rewrite List.filter_app, length_app. cbn. lia. Qed.

(** One question to the source at most, and its answer is the source's. *)
Lemma ask_books get url st : remote = Some get -> books 1 st -> let '(a, st') := ask get url st in
  books 0 st' /\ stack st' = stack st /\ refs st' = refs st /\ looked st' = looked st /\ exists n, a = get n url.
Proof.
  intros Hr Hb. unfold ask. destruct (List.find _ (answers st)) as [[u a]|] eqn:Hf.
  - apply find_some in Hf as [Hin Hu]. cbn [fst] in Hu. apply bool_decide_eq_true in Hu. subst u. split; [by apply no_room|]. split; [done|]. split; [done|]. split; [done|]. apply list_elem_of_In, list_elem_of_lookup in Hin as (i & Hi). destruct (books_answers _ _ Hb i url a Hi) as (get' & Hg & ->). exists i. cbn [snd]. congruence.
  - destruct Hb as [H1 H2 H3 H4 H5]. split; [|cbn; eauto 10]. split; cbn [set_answers answers asked refs count]; [| | |done|unfold reads in *; cbn [set_answers looked]; lia].
    + rewrite map_app. apply NoDup_app. split; [done|]. split; [|apply NoDup_singleton]. intros y Hy ->%list_elem_of_singleton. cbn [fst] in Hy. apply list_elem_of_In, in_map_iff in Hy as (ua & Hua & Hin). apply (find_none _ _ Hf) in Hin. by apply bool_decide_eq_false in Hin.
    + rewrite length_app. cbn. lia.
    + intros i u a Hi. apply lookup_snoc_Some in Hi as [[_ Hi]|[-> [= <- <-]]]; [by apply H3|]. exists get. split; [done|]. by rewrite H2.
Qed.

(** ** Lines that say where they were read *)

Definition genuine (e : Entry) : Prop :=
  exists text file, e ∈ profile_entries (parse_str text file (origin e)).1 /\
    match origin e with
    | ProfileText.Include f => f = file /\ read_to_string file = Some text
    | ProfileText.Remote f => f = file /\ exists get n url t, remote = Some get /\ get n url = AText text file t
    | _ => False
    end.

Definition plain (e : Entry) : Prop := strip_prefix_str (raw e) INCLUDE = None.

(** No line that may name a file of this machine. *)
Definition no_local (p : Profile) : Prop := Forall (fun e => reach (origin e) <> Anywhere) (profile_entries p).

Definition taken (e : Entry) : Prop := plain e /\ genuine e.
Definition kept_or_taken (p : Profile) (e : Entry) : Prop := plain e /\ (e ∈ profile_entries p \/ genuine e).

(** What an expansion at a depth promises. *)
Definition expands (expand : Profile -> nat -> Expansion -> option (Profile * Expansion)) (depth : nat) : Prop :=
  forall p st, books 0 st -> Forall (sane (looked st)) (profile_entries p) -> exists p' st', expand p depth st = Some (p', st') /\ steps (no_local p) st st' /\ Forall (kept_or_taken p) (profile_entries p').

Section Level.
Context (expand : Profile -> nat -> Expansion -> option (Profile * Expansion)) (depth : nat).
Hypothesis Hexpand : (depth < max_depth opts)%nat -> expands expand (S depth).

Lemma stack_books n s st : books n st -> books n (set_stack s st).
Proof. by intros [H1 H2 H3 H4 H5]. Qed.

Lemma inside_ok key p st : (depth < max_depth opts)%nat -> books 0 st -> Forall (sane (looked st)) (profile_entries p) -> Forall genuine (profile_entries p) ->
  exists p' st', expand_inside expand key p depth st = Some (p', st') /\ steps (no_local p) st st' /\ Forall taken (profile_entries p').
Proof.
  intros Hd Hb Hsane Hg. unfold expand_inside. destruct (Hexpand Hd p (set_stack (stack st ++ [key]) st)) as (p' & st' & -> & [A1 A2 A3 A4 A5 A6] & Hq); [by apply stack_books|done|]. cbn [mbind option_bind]. eexists _, _. split; [done|]. split.
  - split; cbn [set_stack stack refs looked] in *; [rewrite A1; apply removelast_last|done| |done|done|done]. intros Hb'. apply stack_books, A3. by apply stack_books.
  - eapply Forall_impl; [exact Hq|]. intros e (Hp & [Hin|He]); (split; [done|]); [|done]. rewrite Forall_forall in Hg. by apply Hg.
Qed.

(** What is taken in. *)
Definition taken_in (st : Expansion) (r : option Included) : Prop :=
  forall inc, r = Some inc -> Forall taken (profile_entries (inc_profile inc)) /\ forall at_, tracked inc = Some at_ -> (at_ < length (refs st))%nat.

Lemma local_ok target span st : books 0 st -> names (looked st) (full_path target) -> exists r st', take_in_local opts expand target span depth st = Some (r, st') /\ steps False st st' /\ taken_in st' r.
Proof.
  intros Hb Hnames. unfold take_in_local, canonical. change (if is_absolute target then target else join (base_dir opts) target) with (full_path target). set (path := full_path target) in *. set (st1 := look_at (Resolved path) st). set (key := VFile (default path (canonicalize path))).
  assert (H1 : steps False st st1) by (split; [done|done|apply resolve_books|done|by eexists|intros Hj; by apply justified_look]). pose proof (admits_steps key span depth st1) as Ha. destruct (admits opts key span depth st1) as [[|] st2]; cbn [negb].
  - destruct Ha as (Hd & Hc & ->). set (st3 := look_at (ReadFile path) (set_count (S (count st1)) st1)). assert (Hb3 : books 0 st3) by (apply read_books, let_in_books; [by apply resolve_books|done]).
    assert (H3 : steps False st st3).
    { split; [done|done|done|done|exists [Resolved path; ReadFile path]; cbn; by rewrite <- app_assoc|]. intros Hj. apply justified_look; [by apply justified_look|by apply names_more]. } destruct (read_to_string path) as [text|] eqn:Hread; [|eexists _, _; split; [done|]; split; [eapply steps_trans; [exact H3|apply report_steps]|done]].
    pose proof (parse_str_from text path (ProfileText.Include path)) as Hfrom. destruct (parse_str text path (ProfileText.Include path)) as [p sub] eqn:Hp. cbn [fst] in Hfrom.
    destruct (inside_ok key p (set_out (out st3 ++ sub) st3)) as (p' & st' & -> & Hs & Ht); [done|by eapply steps_books; [apply (out_steps False)|]| | |].
    { apply Forall_forall. intros e He _. right. exists text, path. rewrite Hp. split; [done|]. split; [|done]. cbn. apply elem_of_app. right. by left. }
    { apply Forall_forall. intros e He. rewrite Forall_forall in Hfrom. specialize (Hfrom e He). unfold from in Hfrom. exists text, path. rewrite Hfrom, Hp. done. }
    cbn [mbind option_bind]. eexists _, _. split; [done|]. split; [|intros inc [= <-]; done]. eapply steps_trans; [exact H3|]. eapply steps_trans; [apply out_steps|]. eapply steps_weaken; [|exact Hs]. done.
  - eexists _, _. split; [done|]. split; [|done]. eapply steps_trans; [exact H1|apply Ha].
Qed.

Lemma remote_ok target span st : books 0 st -> exists r st', take_in_remote opts remote expand target span depth st = Some (r, st') /\ steps True st st' /\ taken_in st' r.
Proof.
  intros Hb. unfold take_in_remote. destruct (url_parse target) as [url|]; [|eexists _, _; split; [done|]; split; [apply report_steps|done]]. destruct remote as [get|] eqn:Hr; [|eexists _, _; split; [done|]; split; [apply report_steps|done]].
  set (u := without_fragment url). pose proof (admits_steps (VRemote u) span depth st) as Ha. destruct (admits opts (VRemote u) span depth st) as [[|] st2]; cbn [negb]; [|eexists _, _; split; [done|]; split; [apply Ha|done]].
  destruct Ha as (Hd & Hc & ->). pose proof (ask_books get u (set_count (S (count st)) st) Hr (let_in_books st Hb Hc)) as Hask. destruct (ask get u _) as [a st3]. destruct Hask as (Hb3 & Hs3 & Hf3 & Hl3 & n & Hn).
  assert (H3 : steps True st st3) by (apply steps_blind; [done|by rewrite Hf3|done|done]). destruct a as [text path t|why].
  - pose proof (parse_str_from text path (ProfileText.Remote path)) as Hfrom. destruct (parse_str text path (ProfileText.Remote path)) as [p sub] eqn:Hp. cbn [fst] in Hfrom. set (iv := match (parse_managed (header p)).1 with Some m => interval m | None => DEFAULT_INTERVAL end).
    pose proof (track_steps True u (Some path) iv (set_out (out st3 ++ sub) st3)) as Ht. destruct (track u (Some path) iv _) as [at_ st4]. destruct Ht as (Hs4 & Hat).
    assert (H4 : steps True st st4) by (eapply steps_trans; [exact H3|]; eapply steps_trans; [apply out_steps|exact Hs4]).
    destruct (inside_ok (VRemote u) p st4) as (p' & st' & -> & Hs & Ht); [done|by eapply steps_books| | |].
    { eapply Forall_impl; [exact Hfrom|]. intros e He Hr'. unfold from in He. rewrite He in Hr'. done. }
    { apply Forall_forall. intros e He. rewrite Forall_forall in Hfrom. specialize (Hfrom e He). unfold from in Hfrom. exists text, path. rewrite Hfrom, Hp. split; [done|]. split; [done|]. exists get, n, u, t. by rewrite Hr, Hn. }
    cbn [mbind option_bind]. eexists _, _. split; [done|]. split.
    + eapply steps_trans; [exact H4|]. eapply steps_weaken; [|exact Hs]. intros _. eapply Forall_impl; [exact Hfrom|]. intros e He. unfold from in He. by rewrite He.
    + intros inc [= <-]. split; [done|]. intros at' [= <-]. destruct Hs as [_ Hle _ _ _ _]. lia.
  - pose proof (track_steps True u None DEFAULT_INTERVAL (report (mkDiag Warning W_RESOURCE_UNAVAILABLE span) st3)) as Ht. destruct (track u None DEFAULT_INTERVAL _) as [at_ st4]. destruct Ht as (Hs4 & _).
    eexists _, _. split; [done|]. split; [|done]. eapply steps_trans; [exact H3|]. eapply steps_trans; [apply report_steps|exact Hs4].
Qed.

Lemma take_in_ok target span r st : books 0 st -> (r = Anywhere -> is_url target = false -> names (looked st) (full_path target)) -> exists i st', take_in opts remote expand target span depth r st = Some (i, st') /\ steps (r <> Anywhere) st st' /\ taken_in st' i.
Proof.
  intros Hb Hnames. unfold take_in. destruct (is_url target) eqn:Hu.
  - destruct (remote_ok target span st Hb) as (i & st' & -> & Hs & Ht). eexists _, _. split; [done|]. split; [|done]. eapply steps_weaken; [|exact Hs]. done.
  - destruct r; cbn [include_refusal]; [|eexists _, _; split; [done|]; split; [apply report_steps|done]..]. destruct (local_ok target span st Hb (Hnames eq_refl eq_refl)) as (i & st' & -> & Hs & Ht). eexists _, _. split; [done|]. split; [|done]. eapply steps_weaken; [|exact Hs]. intros Hn. by apply Hn.
Qed.

Lemma in_profile (s : Section_) p : s ∈ sections p -> forall e, e ∈ entries s -> e ∈ profile_entries p.
Proof. intros Hs e He. apply list_elem_of_In, in_concat. exists (entries s). split; [|by apply list_elem_of_In]. apply in_map. by apply list_elem_of_In. Qed.

Definition section_entries (ss : list Section_) : list Entry := List.concat (map entries ss).

Lemma bring_ok quiet nm wildcard span inc st : taken_in st (Some inc) -> exists es ss st', bring nm wildcard span inc st = Some (es, ss, st') /\ steps quiet st st' /\ Forall taken es /\ Forall taken (section_entries ss).
Proof.
  intros Ht. destruct (Ht inc eq_refl) as [Hg Hat]. rewrite Forall_forall in Hg. unfold bring. destruct wildcard as [prefix|].
  - assert (Hall : exists es ss st', Some ([], sections_with_prefix (inc_profile inc) prefix, st) = Some (es, ss, st') /\ steps quiet st st' /\ Forall taken es /\ Forall taken (section_entries ss)).
    { eexists _, _, _. split; [done|]. split; [apply steps_refl|]. split; [constructor|]. apply Forall_forall. intros e He. apply list_elem_of_In, in_concat in He as (es & Hes & He). apply in_map_iff in Hes as (s & <- & Hs). apply filter_In in Hs as [Hs _].
      apply Hg. eapply in_profile; [by apply list_elem_of_In|by apply list_elem_of_In]. }
    destruct (tracked inc) as [at_|] eqn:Htr, (sectionless inc); try exact Hall.
    destruct (lacks_steps quiet at_ (report (mkDiag Warning W_INCLUDE_SECTION_MISSING span) st)) as (st' & -> & Hs); [by apply Hat|]. cbn [mbind option_bind]. eexists _, _, _. split; [done|]. split; [eapply steps_trans; [apply report_steps|exact Hs]|]. split; constructor.
  - unfold section. destruct (List.find _ (sections (inc_profile inc))) as [s|] eqn:Hf.
    + apply find_some in Hf as [Hs _]. eexists _, _, _. split; [done|]. split; [apply steps_refl|]. split; [|constructor]. apply Forall_forall. intros e He. apply Hg. eapply in_profile; [by apply list_elem_of_In|done].
    + destruct (tracked inc) as [at_|] eqn:Htr; cbn [mbind option_bind].
      * destruct (lacks_steps quiet at_ st) as (st' & -> & Hs); [by apply Hat|]. cbn [mbind option_bind]. eexists _, _, _. split; [done|]. split; [eapply steps_trans; [exact Hs|apply report_steps]|]. split; constructor.
      * eexists _, _, _. split; [done|]. split; [apply report_steps|]. split; constructor.
Qed.

Lemma entries_app a b : section_entries (a ++ b) = section_entries a ++ section_entries b.
Proof. unfold section_entries. by rewrite map_app, concat_app. Qed.

Lemma targets_ok nm wildcard entry rest ts targets : strip_prefix_str (raw entry) INCLUDE = Some rest -> split_list rest = Some ts -> (forall t, t ∈ targets -> t ∈ ts) ->
  forall st, books 0 st -> sane (looked st) entry -> exists es ss st', take_targets opts remote expand nm wildcard entry depth targets st = Some (es, ss, st')
  /\ steps (reach (origin entry) <> Anywhere) st st' /\ Forall taken es /\ Forall taken (section_entries ss).
Proof.
  intros Hinc Hts. induction targets as [|target targets IH]; intros Hsub st Hb Hsane; cbn [take_targets].
  - eexists _, _, _. split; [done|]. split; [apply steps_refl|]. split; constructor.
  - destruct (take_in_ok target (span entry) (reach (origin entry)) st Hb) as (inc & st1 & -> & H1 & Ht).
    { intros Hr Hu. exists entry, rest, ts, target. split; [by apply Hsane|]. repeat (split; [done|]). split; [|done]. apply Hsub. by left. } cbn [mbind option_bind].
    assert (Hbr : exists es ss st2, match inc with Some inc => bring nm wildcard (span entry) inc st1 | None => Some ([], [], st1) end = Some (es, ss, st2) /\ steps (reach (origin entry) <> Anywhere) st1 st2 /\ Forall taken es /\ Forall taken (section_entries ss)).
    { destruct inc as [inc|]; [by apply bring_ok|]. eexists _, _, _. split; [done|]. split; [apply steps_refl|]. split; constructor. }
    destruct Hbr as (es & ss & st2 & -> & H2 & He & Hs). cbn [mbind option_bind]. assert (Hsane2 : sane (looked st2) entry) by (destruct H1 as [_ _ _ _ [m1 E1] _], H2 as [_ _ _ _ [m2 E2] _]; rewrite E2, E1; intros Hr; by apply known_more, known_more, Hsane).
    destruct (IH ltac:(intros t Hin; apply Hsub; by right) st2) as (es' & ss' & st3 & -> & H3 & He' & Hs'); [eapply steps_books; [exact H2|]; by eapply steps_books|done|]. cbn [mbind option_bind].
    eexists _, _, _. split; [done|]. split; [eapply steps_trans; [exact H1|]; by eapply steps_trans|]. split; [by apply Forall_app|]. rewrite entries_app. by apply Forall_app.
Qed.

(** What the lines [es] become: those of them that are no include, and lines
    taken in. *)
Definition line_or_taken (es : list Entry) (e : Entry) : Prop := plain e /\ (e ∈ es \/ genuine e).

Lemma taken_line es e : taken e -> line_or_taken es e.
Proof. intros [Hp Hg]. split; [done|by right]. Qed.

Lemma line_more (es es' : list Entry) e : (forall x, x ∈ es -> x ∈ es') -> line_or_taken es e -> line_or_taken es' e.
Proof. intros Hsub [Hp [Hin|Hg]]; (split; [done|]); [left; by apply Hsub|by right]. Qed.

Lemma entries_ok nm wildcard es : forall st, books 0 st -> Forall (sane (looked st)) es -> exists es' ss st', take_entries opts remote expand nm wildcard depth es st = Some (es', ss, st')
  /\ steps (Forall (fun e => reach (origin e) <> Anywhere) es) st st' /\ Forall (line_or_taken es) es' /\ Forall taken (section_entries ss).
Proof.
  induction es as [|entry es IH]; intros st Hb Hsane; cbn [take_entries].
  - eexists _, _, _. split; [done|]. split; [apply steps_refl|]. split; constructor.
  - apply Forall_cons in Hsane as [Hse Hsane]. assert (Hhd : exists new ss st1, match strip_prefix_str (raw entry) INCLUDE with None => Some ([entry], [], st) | Some rest => targets ← split_list rest; take_targets opts remote expand nm wildcard entry depth targets st end = Some (new, ss, st1)
      /\ steps (reach (origin entry) <> Anywhere) st st1 /\ Forall (line_or_taken (entry :: es)) new /\ Forall taken (section_entries ss)).
    { destruct (strip_prefix_str (raw entry) INCLUDE) as [rest|] eqn:Hp.
      - destruct (split_fields_total rest) as (fs & Hfs). assert (Hsp : split_list rest = Some (map text fs)) by (unfold split_list; by rewrite Hfs). rewrite Hsp. cbn [mbind option_bind]. destruct (targets_ok nm wildcard entry rest (map text fs) (map text fs) Hp Hsp (fun _ H => H) st Hb Hse) as (new & ss & st1 & -> & Hs & Hn & Hss). eexists _, _, _. split; [done|]. split; [done|]. split; [|done].
        eapply Forall_impl; [exact Hn|]. intros e. apply taken_line.
      - eexists _, _, _. split; [done|]. split; [apply steps_refl|]. split; [|constructor]. constructor; [|constructor]. split; [done|]. left. apply elem_of_cons. by left. }
    destruct Hhd as (new & ss & st1 & -> & H1 & Hn & Hss). cbn [mbind option_bind]. destruct (IH st1) as (new' & ss' & st2 & -> & H2 & Hn' & Hss'); [by eapply steps_books|by eapply steps_sane|]. cbn [mbind option_bind].
    eexists _, _, _. split; [done|]. split; [|split; [apply Forall_app; split; [done|]|rewrite entries_app; by apply Forall_app]].
    + eapply steps_trans; (eapply steps_weaken; [|eassumption]); intros Hq; apply Forall_cons in Hq as [Hq Hqs]; done.
    + eapply Forall_impl; [exact Hn'|]. intros e. apply line_more. intros x Hx. apply elem_of_cons. by right.
Qed.

Lemma sections_ok ss : forall st, books 0 st -> Forall (sane (looked st)) (section_entries ss) -> exists kept appended st', take_sections opts remote expand depth ss st = Some (kept, appended, st')
  /\ steps (Forall (fun e => reach (origin e) <> Anywhere) (section_entries ss)) st st' /\ Forall (line_or_taken (section_entries ss)) (section_entries (kept ++ appended)).
Proof.
  induction ss as [|s ss IH]; intros st Hb Hsane; cbn [take_sections].
  - eexists _, _, _. split; [done|]. split; [apply steps_refl|constructor].
  - apply Forall_app in Hsane as [Hsane Hsane']. destruct (entries_ok (name s) (wildcard_prefix (name s)) (entries s) st Hb Hsane) as (es & app & st1 & -> & H1 & He & Ha). cbn [mbind option_bind]. destruct (IH st1) as (kept & app' & st2 & -> & H2 & Hk); [by eapply steps_books|by eapply steps_sane|]. cbn [mbind option_bind].
    change (section_entries (s :: ss)) with (entries s ++ section_entries ss). eexists _, _, _. split; [done|]. split.
    + eapply steps_trans; (eapply steps_weaken; [|eassumption]); intros Hq; by apply Forall_app in Hq as [].
    + rewrite !entries_app in *. apply Forall_app in Hk as [Hk Hk'].
      assert (Hl : Forall (line_or_taken (entries s ++ section_entries ss)) es) by (eapply Forall_impl; [exact He|]; intros e; apply line_more; intros x Hx; apply elem_of_app; by left).
      assert (Hr : forall l, Forall (line_or_taken (section_entries ss)) l -> Forall (line_or_taken (entries s ++ section_entries ss)) l) by (intros l Hf; eapply Forall_impl; [exact Hf|]; intros e; apply line_more; intros x Hx; apply elem_of_app; by right).
      rewrite !Forall_app. split; [split; [|by apply Hr]|split; [|by apply Hr]].
      * destruct (wildcard_prefix (name s)); [constructor|]. unfold section_entries at 2. cbn [map List.concat entries]. by rewrite app_nil_r.
      * eapply Forall_impl; [exact Ha|]. intros e. apply taken_line.
Qed.

Lemma expand_with_ok : expands (expand_with opts remote expand) depth.
Proof.
  intros p st Hb Hsane. unfold expand_with. destruct (sections_ok (sections p) st Hb Hsane) as (kept & appended & st' & -> & Hs & Hl). cbn [mbind option_bind]. eexists _, _. split; [done|]. split; [exact Hs|exact Hl].
Qed.
End Level.

(** Enough fuel is one more than the levels left. *)
Lemma expand_from_ok fuel : forall depth, (max_depth opts < depth + fuel)%nat -> (0 < fuel)%nat -> expands (expand_from opts remote fuel) depth.
Proof.
  induction fuel as [|fuel IH]; intros depth Hd Hf; [lia|]. intros p st Hb Hsane. cbn [expand_from]. apply (expand_with_ok (expand_from opts remote fuel) depth); [|done|done]. intros Hlt. apply IH; lia.
Qed.

(** C33: expanding the includes of a profile ends, whatever files there are and
    whatever the source answers: it reads no more texts than the limit says, files
    and downloads together, asks for an address once at most and lists an address
    once.  No include is left, and every line is one of the profile's or stands in
    the text that its origin names, as the file system or the source gave it.  Every
    look at this machine has its line: but for the profile's own file, a path that is
    resolved or read is the target of an include that may name local files, on a line
    of the profile or of a file that was read before it.  A line of a downloaded text
    never is such a line, at whatever depth and in whatever profile; and a profile
    without such lines has nothing looked at but its own file. *)
Theorem includes_are_within_reach diags : exists p' st, expand opts remote top diags = Some (p', st)
  /\ (reads st + asked st <= max_files opts)%nat /\ NoDup (map fst (answers st)) /\ asked st = length (answers st) /\ NoDup (map ref_url (refs st))
  /\ Forall (kept_or_taken top) (profile_entries p') /\ justified (looked st)
  /\ (forall text path e, e ∈ profile_entries (parse_str text path (ProfileText.Remote path)).1 -> reach (origin e) <> Anywhere)
  /\ (no_local top -> looked st = main_looks).
Proof.
  unfold expand. set (st0 := mkExpansion diags [] 0 [] [] 0 []). set (st1 := match main top with Some m => _ | None => st0 end).
  assert (Hb : books 0 st1) by (unfold st1; destruct (main top) as [m|]; split; cbn; constructor || done || lia). assert (Hl : looked st1 = main_looks) by (unfold st1, main_looks; by destruct (main top)).
  assert (Hsane : Forall (sane (looked st1)) (profile_entries top)) by (apply Forall_forall; intros e He _; by left).
  destruct (expand_from_ok (S (max_depth opts)) 0 ltac:(lia) ltac:(lia) top st1 Hb Hsane) as (p' & st & -> & [_ _ Hbooks Hlook _ Hjust] & He). exists p', st. specialize (Hbooks Hb). destruct Hbooks as [H1 H2 H3 H4 H5].
  split; [done|]. split; [lia|]. split; [done|]. split; [done|]. split; [done|]. split; [done|]. split; [|split].
  - apply Hjust. rewrite Hl. unfold justified, main_looks. destruct (main top) as [m|]; intros [|i] l; cbn; try done. intros [= <-]. by left.
  - intros text path e Hin. pose proof (parse_str_from text path (ProfileText.Remote path)) as Hfrom. rewrite Forall_forall in Hfrom. by rewrite (Hfrom e Hin).
  - intros Hq. rewrite <- Hl. by apply Hlook.
Qed.
End Props.

(** *** An ordinary profile of this machine

    It includes a file and a download; the file includes another, the download one
    too, which is not looked at. *)

#[local] Instance try_urls : Urls := { Url := rstr; url_parse := Some; scheme _ := lit "http"; without_fragment u := u }.

Definition try_text (path : rstr) : option rstr :=
  if bool_decide (path = lit "/a") then Some (lit "[Rule]" ++ [10] ++ lit "#!include b")
  else if bool_decide (path = lit "/b") then Some (lit "[Rule]" ++ [10] ++ lit "FINAL,DIRECT") else None.

#[local] Instance try_files : Files := {
  same_path a b := bool_decide (a = b);
  is_absolute p := bool_decide (head p = Some 47);
  join base p := base ++ [47] ++ p;
  canonicalize := Some;
  read_to_string := try_text;
}.

Definition try_profile : Profile := (parse_str (lit "[Rule]" ++ [10] ++ lit "#!include /a, http://u") (lit "/m") ProfileText.Main).1.
Definition try_download : Answer := AText (lit "[Rule]" ++ [10] ++ lit "#!include /b" ++ [10] ++ lit "DOMAIN,x,REJECT") (lit "/cache") 0.

Example download_looks_at_nothing : (fun r => (looked r.2, map raw (profile_entries r.1)))
    <$> expand (mkOptions [] 8 64) (Some (fun _ _ => try_download)) try_profile []
  = Some ([Resolved (lit "/m"); Resolved (lit "/a"); ReadFile (lit "/a"); Resolved (lit "/b"); ReadFile (lit "/b")], [lit "FINAL,DIRECT"; lit "DOMAIN,x,REJECT"]).
Proof. vm_compute. reflexivity. Qed.
