(* ===== verification/Redact.v ===== *)
(** * The redacted profile

    [crates/rurge-config/src/redact.rs] and the kinds of policies of [policy.rs]:
    the text of a profile with its secrets replaced.  Positions are counted in
    characters but where they come from [Values.item_spans]; an outer [None] is a
    panic or fuel that is not enough, which is never met ([RedactTotal.v]). *)

From S2P Require Import Prelude RuleMatcher Requirement Values ProfileText Managed Include.

(** ** Lists of names *)

Definition names (l : list string) : list rstr := map lit l.

Definition SECRET_KEYS : list rstr := names ["password"; "ca-passphrase"; "ca-p12"; "private-key"; "psk"; "pre-shared-key"; "preshared-key"; "token"; "auth-key"; "proxy-test-url"; "internet-test-url"; "geoip-maxmind-url"; "secret"; "passphrase"].
Definition SECRET_PARAMS : list rstr := names ["password"; "passphrase"; "psk"; "private-key"; "pre-shared-key"; "preshared-key"; "base64"; "token"; "uuid"; "username"; "headers"; "ws-headers"; "ws-path"; "shadow-tls-password"; "salamander-password"; "gecko-password"; "policy-path"; "external-policy-modifier"; "test-url"; "url"; "args"; "argument"; "obfs-host"; "obfs-uri"].
Definition CONTROLLER_KEYS : list rstr := names ["http-api"; "external-controller-access"].
Definition LISTENER_KEYS : list rstr := names ["http-listen"; "socks5-listen"].
Definition DNS_KEYS : list rstr := names ["dns-server"; "encrypted-dns-server"; "doh-server"].
Definition READ_SCHEMES : list rstr := names ["http"; "https"; "h3"; "quic"; "tls"; "tcp"].
Definition STARS : rstr := lit "***".
Definition MANAGED_CONFIG : rstr := lit "#!MANAGED-CONFIG".

(** ** Characters and pieces *)

Definition is_blank (c : Z) : bool := is_whitespace c || (c =? 65279) || ((8203 <=? c) && (c <=? 8207)) || (c =? 8288).

(** The full-width signs an input method types. *)
Definition W_COMMA : Z := 65292.
Definition W_EQUALS : Z := 65309.
Definition W_COLON : Z := 65306.
Definition W_AT : Z := 65312.

Definition is_equals (c : Z) : bool := (c =? 61) || (c =? W_EQUALS).
Definition is_colon (c : Z) : bool := (c =? 58) || (c =? W_COLON).
Definition is_at (c : Z) : bool := (c =? 64) || (c =? W_AT).
Definition is_ascii_alnum (c : Z) : bool := is_upper c || is_lower c || is_digit c.

(** [trim_start] and [trim_end], [trim_start_matches] and the like, and what
    they take off. *)
Definition trim_start (s : rstr) : rstr := drop_while is_whitespace s.
Definition lead_by (p : Z -> bool) (s : rstr) : rstr := take_while p s.
Definition trail_by (p : Z -> bool) (s : rstr) : rstr := reverse (take_while p (reverse s)).
Definition lead (s : rstr) : rstr := lead_by is_whitespace s.
Definition trail (s : rstr) : rstr := trail_by is_whitespace s.

(** [str::find] of a character and of a text, as the text before and the text
    from there on. *)
Definition find_char (p : Z -> bool) (s : rstr) : option (rstr * rstr) :=
  match drop_while (fun c => negb (p c)) s with [] => None | rest => Some (take_while (fun c => negb (p c)) s, rest) end.

Fixpoint find_text (needle s : rstr) : option (rstr * rstr) :=
  if starts_with s needle then Some ([], s)
  else match s with
  | [] => None
  | c :: s => '(before, rest) ← find_text needle s; Some (c :: before, rest)
  end.

(** [str::strip_suffix] of one of two quotes. *)
Definition strip_quote_end (s : rstr) : rstr := match last s with Some c => if is_quote c then removelast s else s | None => s end.
Definition strip_quote_start (s : rstr) : rstr := match s with c :: rest => if is_quote c then rest else s | [] => [] end.

Definition is_none_or {A} (p : A -> bool) (o : option A) : bool := match o with Some x => p x | None => true end.

(** ** Policies that take a server *)

Inductive PolicyKind := KHttp | KHttps | KH2Connect | KSocks5 | KSocks5Tls | KShadowsocks | KSnell | KVmess | KTrojan | KTuic | KTuicV5 | KHysteria2 | KMasque | KAnyTls
| KTrustTunnel | KSsh | KWireGuard | KTailscale | KExternal | KDirect | KReject | KRejectDrop | KRejectNoDrop | KRejectTinyGif.

Definition POLICY_KEYWORDS : list (string * PolicyKind) :=
  [("http", KHttp); ("https", KHttps); ("h2-connect", KH2Connect); ("socks5", KSocks5); ("socks5-tls", KSocks5Tls); ("ss", KShadowsocks); ("custom", KShadowsocks); ("snell", KSnell); ("vmess", KVmess);
   ("trojan", KTrojan); ("tuic", KTuic); ("tuic-v5", KTuicV5); ("hysteria2", KHysteria2); ("masque", KMasque); ("anytls", KAnyTls); ("trust-tunnel", KTrustTunnel); ("ssh", KSsh);
   ("wireguard", KWireGuard); ("tailscale", KTailscale); ("external", KExternal); ("direct", KDirect); ("reject", KReject); ("reject-drop", KRejectDrop); ("reject-no-drop", KRejectNoDrop); ("reject-tinygif", KRejectTinyGif)]%string.

Definition kind_parse (keyword : rstr) : option PolicyKind :=
  let kw := to_ascii_lowercase (trim keyword) in snd <$> List.find (fun kv : string * PolicyKind => bool_decide (lit kv.1 = kw)) POLICY_KEYWORDS.

Definition is_builtin_alias (k : PolicyKind) : bool := match k with KDirect | KReject | KRejectDrop | KRejectNoDrop | KRejectTinyGif => true | _ => false end.
Definition takes_server (k : PolicyKind) : bool := negb (is_builtin_alias k) && match k with KWireGuard | KTailscale | KExternal => false | _ => true end.

Definition takes_server_type (keyword : rstr) : bool := match kind_parse (trim_by is_blank keyword) with Some kind => takes_server kind | None => false end.

Definition is_port (field : rstr) : bool := match parse_uint u16_max (trim_by is_blank field) with Some _ => true | None => false end.

(** ** Commas, as lists were read once *)

(** The loop of [next_comma]: the text before the comma and from it on. *)
Fixpoint next_comma_from (wide : bool) (depth : nat) (quote : option Z) (skip : bool) (value : rstr) : option (rstr * rstr) :=
  match value with
  | [] => None
  | c :: rest =>
      let on depth quote skip := '(before, after) ← next_comma_from wide depth quote skip rest; Some (c :: before, after) in
      if skip then on depth quote false
      else match quote with
      | Some q => if (c =? 92) && (q =? 34) then on depth quote true else on depth (if c =? q then None else Some q) false
      | None =>
          if is_quote c then on depth (Some c) false
          else if c =? 40 then on (S depth) None false
          else if c =? 41 then on (pred depth) None false
          else if (c =? 44) && (depth =? 0)%nat then Some ([], value)
          else if (c =? W_COMMA) && wide && (depth =? 0)%nat then Some ([], value)
          else on depth None false
      end
  end.

Definition next_comma (value : rstr) (wide : bool) : option (rstr * rstr) := next_comma_from wide 0 None false value.

(** [param_value_len]: the value itself. *)
Definition param_value (value : rstr) : rstr := match next_comma value false with Some (before, _) => before | None => value end.

(** ** Secrets by name *)

Definition is_name_boundary (c : Z) : bool := is_ascii_whitespace c || (c =? 44) || (c =? 40) || is_quote c || negb (c <? 128).

(** Whether a secret name stands right before a separator, anywhere; [head] is
    the text before, in lower case. *)
Fixpoint names_one (head lower : rstr) : bool :=
  match lower with
  | [] => false
  | c :: lower =>
      ((is_equals c || is_colon c) && (let head := strip_quote_end (trim_end head) in existsb (fun param => ends_with head param) SECRET_PARAMS))
      || names_one (head ++ [c]) lower
  end.

(** The loop of [redact_param], at [search]; what is not shown yet starts at
    [rest]. *)
Fixpoint redact_param_from (fuel : nat) (value param : rstr) (rest search : nat) (out : rstr) : option rstr :=
  let lower := to_ascii_lowercase value in
  match find_text param (drop search lower) with
  | None => Some (out ++ drop rest value)
  | Some (skipped, _) =>
      match fuel with
      | 0%nat => None
      | S fuel =>
          let start := (search + length skipped)%nat in
          let before := last (take start lower) in
          let after := strip_quote_start (drop (start + length param) value) in
          match trim_start after with
          | c :: tail =>
              if is_none_or is_name_boundary before && (is_equals c || is_colon c) then
                let tail_start := (length value - length tail)%nat in
                let tail_value := trim_start tail in
                let blank := if (match before with Some q => is_quote q | None => false end) then tail_value else param_value tail_value in
                let rest' := (tail_start + length (lead tail) + length blank)%nat in
                shown ← sub_ok tail_start rest;
                redact_param_from fuel value param rest' rest' (out ++ take shown (drop rest value) ++ lead tail ++ STARS ++ trail blank)
              else redact_param_from fuel value param rest (start + length param) out
          | [] => redact_param_from fuel value param rest (start + length param) out
          end
      end
  end.

Definition redact_param (value param : rstr) : option rstr := redact_param_from (S (length value)) value param 0 0 [].

Definition redact_by_name (text : rstr) : option rstr :=
  if negb (names_one [] (to_ascii_lowercase text)) then Some text
  else foldl (fun text param => text ← text; redact_param text param) (Some text) SECRET_PARAMS.

(** ** Keys *)

Definition plain_key (key : rstr) : rstr := to_ascii_lowercase (List.filter (fun c => negb ((c =? 45) || (c =? 95))) key).
Definition is_key (list_ : list rstr) (key : rstr) : bool := existsb (fun name => bool_decide (plain_key name = plain_key (trim_by is_blank key))) list_.

Inductive KeyKind := Secret | Wifi | Controller | Listener | Dns.
#[export] Instance KeyKind_eq_dec : EqDecision KeyKind.
Proof. solve_decision. Defined.

Definition is_name_char (c : Z) : bool := is_ascii_alnum c || (c =? 45) || (c =? 95).

Definition listed_key (text : rstr) : option (KeyKind * bool) :=
  let key := trim_end_by is_blank (strip_quote_end (trim_end_by is_blank text)) in
  let front := trim_end_by is_name_char key in
  let name := drop (length front) key in
  if bool_decide (name = []) || negb (is_none_or is_name_boundary (last front)) then None
  else
    kind ← (if is_key SECRET_KEYS name then Some Secret
      else if is_key (names ["wifi-access-http-auth"]) name then Some Wifi
      else if is_key CONTROLLER_KEYS name then Some Controller
      else if is_key LISTENER_KEYS name then Some Listener
      else if is_key DNS_KEYS name then Some Dns
      else None);
    Some (kind, bool_decide (trim_by is_blank text = name)).

Definition is_secret_key (key : rstr) : bool := match listed_key key with Some (kind, _) => negb (bool_decide (kind = Dns)) | None => false end.

Definition line_key (text : rstr) : option (KeyKind * bool) :=
  match listed_key text with Some (kind, alone) => if alone || negb (bool_decide (kind = Dns)) then Some (kind, alone) else None | None => None end.

Record KeyLine := mkKeyLine { key_kind : KeyKind; alone : bool; key_text : rstr; sep : Z; key_value : rstr }.

(** The first colon in [text] that stands behind a listed key; [before] is the
    line before [text], [tail] the line behind it. *)
Fixpoint colon_key (before text tail : rstr) : option KeyLine :=
  match text with
  | [] => None
  | c :: text =>
      match (if is_colon c then line_key before else None) with
      | Some (kind, alone) => Some (mkKeyLine kind alone before c (text ++ tail))
      | None => colon_key (before ++ [c]) text tail
      end
  end.

Definition key_line (line : rstr) : option KeyLine :=
  let '(front, rest) := default (line, []) (find_char is_equals line) in
  match colon_key [] front rest with
  | Some entry => Some entry
  | None =>
      match rest with
      | [] => None
      | sep :: value =>
          match next_comma front true with
          | Some _ => None
          | None => '(kind, alone) ← line_key front; Some (mkKeyLine kind alone front sep value)
          end
      end
  end.

Definition secret_key_without_value (core : rstr) : bool :=
  match key_line core with Some k => is_secret_key (key_text k) && bool_decide (trim_by is_blank (key_value k) = []) | None => false end.

(** ** Credentials in front of an address *)

(** The text before the last [@], and what is behind it. *)
Definition last_at (item : rstr) : option (rstr * rstr) :=
  match find_char is_at (reverse item) with
  | Some (behind, _ :: before) => Some (reverse before, reverse behind)
  | _ => None
  end.

Definition without_credentials (item : rstr) : rstr := match last_at item with Some (_, rest) => STARS ++ 64 :: rest | None => item end.

Definition is_scheme_char (c : Z) : bool := is_ascii_alnum c || (c =? 43) || (c =? 45) || (c =? 46).

(** [str::split_once] of a text. *)
Definition split_once_text (needle s : rstr) : option (rstr * rstr) := '(before, rest) ← find_text needle s; Some (before, drop (length needle) rest).

Definition url_without_credentials (url : rstr) : rstr :=
  match last_at url with
  | None => url
  | Some (before, rest) =>
      match split_once_text (lit "://") before with
      | Some (scheme, _) => if forallb is_scheme_char scheme then scheme ++ lit "://" ++ STARS ++ 64 :: rest else STARS ++ 64 :: rest
      | None => STARS ++ 64 :: rest
      end
  end.

Definition is_ascii_alpha (c : Z) : bool := is_upper c || is_lower c.

Definition scheme_before (head : rstr) : rstr :=
  let front := trim_end_by is_scheme_char head in drop_while (fun c => negb (is_ascii_alpha c)) (drop (length front) head).

Definition is_authority_end (c : Z) : bool := (c =? 47) || (c =? 63) || (c =? 35) || (c =? 44) || is_quote c || (c =? 41) || is_whitespace c.

Definition is_read_scheme (scheme : rstr) : bool := existsb (fun s => eq_ignore_ascii_case s scheme) READ_SCHEMES.

(** A text up to the first character of a kind, and from there on. *)
Definition cut_at_char (p : Z -> bool) (s : rstr) : rstr * rstr := (take_while (fun c => negb (p c)) s, drop_while (fun c => negb (p c)) s).

Fixpoint hide_url_credentials_from (fuel : nat) (rest out : rstr) : option rstr :=
  match find_text (lit "://") rest with
  | None => Some (out ++ rest)
  | Some (before, from) =>
      match fuel with
      | 0%nat => None
      | S fuel =>
          let after := drop 3 from in
          let out := out ++ before ++ lit "://" in
          let scheme := scheme_before before in
          if bool_decide (scheme <> []) && negb (is_read_scheme scheme) then
            let '(word, rest) := cut_at_char is_whitespace after in
            hide_url_credentials_from fuel rest (if bool_decide (word = []) then out else out ++ STARS)
          else
            let '(authority, tail) := cut_at_char is_authority_end after in
            hide_url_credentials_from fuel tail (out ++ match last_at authority with Some (_, host) => STARS ++ 64 :: host | None => authority end)
      end
  end.

Definition hide_url_credentials (text : rstr) : option rstr := hide_url_credentials_from (length text) text [].

Fixpoint hide_comment_links_from (fuel : nat) (rest out : rstr) : option rstr :=
  match find_text (lit "://") rest with
  | None => Some (out ++ rest)
  | Some (before, from) =>
      match fuel with
      | 0%nat => None
      | S fuel =>
          let after := drop 3 from in
          let out := out ++ before ++ lit "://" in
          if negb (is_read_scheme (scheme_before before)) then hide_comment_links_from fuel after out
          else
            let '(authority, tail) := cut_at_char is_authority_end after in
            let '(link, rest) := cut_at_char is_whitespace tail in
            hide_comment_links_from fuel rest (out ++ authority ++ (if bool_decide (link = []) then [] else 47 :: STARS))
      end
  end.

Definition hide_comment_links (text : rstr) : option rstr := hide_comment_links_from (length text) text [].

(** ** Regions of a list *)

Record Region := mkRegion { reg_start : nat; first_end : nat; reg_end : nat; reg_sep_end : nat }.

(** The spans that a reach takes along after the one at hand. *)
Fixpoint reach_over (reach : nat) (span : ItemSpan) (spans : list ItemSpan) : ItemSpan * list ItemSpan :=
  match spans with
  | next :: rest => if (end_ span <? reach)%nat then reach_over reach next rest else (span, spans)
  | [] => (span, [])
  end.

(** The end of the value that starts at [start], as lists were read once. *)
Definition comma_reach (text : rstr) (start : nat) (wide : bool) : option nat :=
  from ← drop_bytes start text;
  Some match next_comma from wide with Some (before, _) => (start + str_len before)%nat | None => str_len text end.

Fixpoint regions_from (fuel : nat) (text : rstr) (spans : list ItemSpan) : option (list Region) :=
  match spans with
  | [] => Some []
  | span :: spans =>
      match fuel with
      | 0%nat => None
      | S fuel =>
          reach ← comma_reach text (start span) false;
          let '(last, rest) := reach_over reach span spans in
          cons (mkRegion (start span) (end_ span) (end_ last) (sep_end last)) <$> regions_from fuel text rest
      end
  end.

Definition regions (text : rstr) : option (list Region) := spans ← item_spans text false; regions_from (length spans) text spans.

(** What each region of a text is shown as, with the separators between. *)
Definition show_regions (text : rstr) (shown : rstr -> nat -> option rstr) : option rstr :=
  rs ← regions text;
  parts ← mapM (fun r =>
    body ← str_slice text (reg_start r) (reg_end r);
    shown ← shown body (first_end r - reg_start r)%nat;
    sep ← str_slice text (reg_end r) (reg_sep_end r);
    Some (shown ++ sep)) rs;
  Some (List.concat parts).

Definition hide_listed (value : rstr) (shown : rstr -> rstr) : option rstr := show_regions value (fun item _ => Some (lead item ++ shown (trim_start item))).

Definition hide_include_links (targets : rstr) : option rstr :=
  show_regions targets (fun target _ => Some (if has_substring target (lit "://") then lead target ++ STARS ++ trail (trim_start target) else target)).

Definition hide_controller (value : rstr) : rstr :=
  let body := trim_start value in
  let text := trim_end body in
  lead value ++ (match last_at text with Some _ => without_credentials text | None => STARS end) ++ trail body.

Definition redact_key_line (entry : KeyLine) : option rstr :=
  let '(mkKeyLine kind alone key sep value) := entry in
  let front := key ++ [sep] in
  match kind with
  | Secret => Some (if alone then front ++ 32 :: STARS else front ++ lead value ++ STARS ++ trail (trim_start value))
  | Wifi => Some (front ++ lead value ++ match split_once 58 (trim_start value) with Some (user, _) => user ++ 58 :: STARS | None => STARS end)
  | Controller => Some (front ++ hide_controller value)
  | Listener => app front <$> hide_listed value without_credentials
  | Dns => app front <$> hide_listed value url_without_credentials
  end.

(** ** Items of a list *)

Definition secret_key (field : rstr) : option rstr :=
  '(key, _) ← parse_key_value field;
  if existsb (fun param => eq_ignore_ascii_case key param) SECRET_PARAMS then Some key else None.

Definition group_inside (item : rstr) : option rstr := inner ← strip_prefix_str (trim item) (lit "("); strip_suffix_str inner (lit ")").

(** [hide_value], with what [by_name] makes of an item without a secret key. *)
Definition hide_value (lead_ body trail_ : rstr) (key : option rstr) (by_name : option rstr) : option rstr :=
  match key with
  | Some key =>
      Some match split_once 61 body with
      | Some (name, value) => if bool_decide (trim name = key) then lead_ ++ name ++ 61 :: lead value ++ STARS ++ trail_ else lead_ ++ key ++ 61 :: STARS ++ trail_
      | None => lead_ ++ key ++ 61 :: STARS ++ trail_
      end
  | None => by_name
  end.

(** [blanks_around]. *)
Definition body_of (s : rstr) : rstr := trim_end (trim_start s).
Definition trail_of (s : rstr) : rstr := trail (trim_start s).

Definition redact_joined (region : rstr) (first_len : nat) : option rstr :=
  first ← take_bytes first_len region;
  fields ← split_list first;
  hide_value (lead region) (body_of region) (trail_of region) (f ← last fields; secret_key f) (redact_by_name region).

(** One item; [inner] redacts the items of a group, when it is not too deep. *)
Definition redact_item (inner : option (rstr -> option rstr)) (item : rstr) : option rstr :=
  fields ← split_list item;
  match last fields with
  | None => Some item
  | Some field =>
      let by_key := hide_value (lead item) (body_of item) (trail_of item) (secret_key field) (redact_by_name item) in
      match inner with
      | None => by_key
      | Some inner =>
          match (match group_inside (body_of item) with Some i => Some i | None => group_inside field end) with
          | None => by_key
          | Some inside =>
              redacted ← inner inside;
              Some (if bool_decide (redacted = inside) then item else lead item ++ 40 :: redacted ++ 41 :: trail_of item)
          end
      end
  end.

Definition MAX_GROUP_DEPTH : nat := 4.

(** [redact_items], with [left] levels of groups to follow. *)
Fixpoint redact_items (left_ : nat) (text : rstr) : option rstr :=
  show_regions text (fun body first_len =>
    if (first_len =? str_len body)%nat then redact_item (match left_ with 0%nat => None | S left_ => Some (redact_items left_) end) body
    else redact_joined body first_len).

(** ** The lines of a redacted profile

    The rest of [crates/rurge-config/src/redact.rs]: positional credentials, the
    entries and the directives, the parts of a line that the section parser takes
    off, and the profile. *)

(** *** Positional credentials *)

Definition is_param_name (name : rstr) : bool := bool_decide (name <> []) && forallb is_name_char name.

Definition is_named_param (token : rstr) : bool :=
  match token with
  | c :: _ => if is_quote c then false else
      match split_once 61 token with
      | Some (name, after) => is_param_name (trim name) && bool_decide (after <> []) && negb (forallb (Z.eqb 61) after)
      | None => false
      end
  | [] => false
  end.

Record FieldSpan := mkFieldSpan { fs_start : nat; fs_end : nat; fs_sep_end : nat; word : bool }.

Definition field_span (span : ItemSpan) : FieldSpan := mkFieldSpan (start span) (end_ span) (sep_end span) false.

(** [split_list(&value[span.start..span.end]).pop()]. *)
Definition read_span (value : rstr) (span : FieldSpan) : option (option rstr) :=
  item ← str_slice value (fs_start span) (fs_end span);
  fields ← split_list item;
  Some (last fields).

(** The first span that reads as a field: those before it, itself, those after
    it. *)
Fixpoint first_read (value : rstr) (before spans : list FieldSpan) : option (option (list FieldSpan * FieldSpan * rstr * list FieldSpan)) :=
  match spans with
  | [] => Some None
  | span :: spans =>
      field ← read_span value span;
      match field with
      | Some field => Some (Some (before, span, field, spans))
      | None => first_read value (before ++ [span]) spans
      end
  end.

(** The words of a first field, at [at_]: the last keeps the separator the field
    had. *)
Fixpoint words_from (fuel : nat) (at_ sep_end : nat) (rest : rstr) : option (list FieldSpan) :=
  match fuel with
  | 0%nat => None
  | S fuel =>
      let '(w, gap_rest) := cut_at_char is_whitespace (trim_start rest) in
      let word_len := (str_len (lead rest) + str_len w)%nat in
      let gap := str_len (lead gap_rest) in
      if (str_len rest <=? word_len + gap)%nat then Some [mkFieldSpan at_ (at_ + word_len) sep_end true]
      else cons (mkFieldSpan at_ (at_ + word_len) (at_ + word_len + gap) true) <$> words_from fuel (at_ + word_len + gap) sep_end (trim_start gap_rest)
  end.

(** The fields there are, in order. *)
Definition read_fields (value : rstr) (spans : list FieldSpan) : option (list rstr) := omap id <$> mapM (read_span value) spans.

Definition words_of_type_field (value : rstr) (spans : list FieldSpan) : option (list FieldSpan) :=
  first ← first_read value [] spans;
  match first with
  | None => Some spans
  | Some (before, span, field, behind) =>
      match split_whitespace field with
      | keyword :: _ :: _ =>
          if takes_server_type keyword then
            body ← str_slice value (fs_start span) (fs_end span);
            words ← words_from (S (length body)) (fs_start span) (fs_sep_end span) body;
            let split := before ++ words ++ behind in
            read ← read_fields value split;
            Some (if (match read !! 2%nat with Some field => is_port field | None => false end) then split else spans)
          else Some spans
      | _ => Some spans
      end
  end.

(** The spans that go with a field that is blanked. *)
Fixpoint fields_over (reach : nat) (span : FieldSpan) (spans : list FieldSpan) : FieldSpan * list FieldSpan :=
  match spans with
  | next :: rest => if (fs_end span <? reach)%nat then fields_over reach next rest else (span, spans)
  | [] => (span, [])
  end.

(** Whether the [index]th field is blanked. *)
Definition blanks (takes_server : bool) (index : nat) (tok field : rstr) : bool :=
  let stray_port := (index =? 3)%nat && takes_server && negb (is_port field) in
  ((3 <? index)%nat || stray_port) && negb (is_named_param (trim_end (trim_start tok))).

(** The loop over the fields, after [index] of them. *)
Fixpoint blank_fields (fuel : nat) (value : rstr) (takes_server : bool) (index : nat) (spans : list FieldSpan) : option rstr :=
  match spans with
  | [] => Some []
  | span :: behind =>
      match fuel with
      | 0%nat => None
      | S fuel =>
          tok ← str_slice value (fs_start span) (fs_end span);
          fields ← split_list tok;
          let '(index, blanked) := match last fields with Some field => (S index, blanks takes_server (S index) tok field) | None => (index, false) end in
          if negb blanked then
            shown ← str_slice value (fs_start span) (fs_sep_end span);
            app shown <$> blank_fields fuel value takes_server index behind
          else
            '(last_, behind) ← (if word span then Some (span, behind) else reach ← comma_reach value (fs_start span) true; Some (fields_over reach span behind));
            sep ← str_slice value (fs_end last_) (fs_sep_end last_);
            app (lead tok ++ STARS ++ sep) <$> blank_fields fuel value takes_server index behind
      end
  end.

Definition redact_positional_credentials (value : rstr) : option rstr :=
  spans ← item_spans value true;
  spans ← words_of_type_field value (map field_span spans);
  read ← read_fields value spans;
  let takes_server := match head read with Some keyword => takes_server_type keyword | None => false end in
  let port_third := match read !! 2%nat with Some field => is_port field | None => false end in
  if negb takes_server && negb port_third then Some value
  else blank_fields (length spans) value takes_server 0 spans.

Definition redact_definition (definition : rstr) : option rstr :=
  items ← redact_items MAX_GROUP_DEPTH definition;
  fields ← redact_positional_credentials items;
  hide_url_credentials fields.

(** *** Entries and directives *)

Definition redact_both_ways (line : rstr) : option rstr :=
  whole ← redact_definition line;
  match find_char is_equals whole with
  | Some (head_, sign :: tail) => app (head_ ++ [sign]) <$> redact_definition tail
  | _ => Some whole
  end.

Definition redact_entry (line : rstr) : option rstr :=
  match key_line line with
  | Some entry => redact_key_line entry
  | None =>
      match find_char is_equals line with
      | Some (key, sign :: value) =>
          spans ← item_spans key true;
          if (match next_comma key true with Some _ => true | None => false end) || (1 <? length spans)%nat then redact_both_ways line
          else app (key ++ [sign]) <$> redact_definition value
      | _ => redact_definition line
      end
  end.

(** [each_word]; [w] is the word at hand. *)
Fixpoint each_word_from (w text : rstr) (shown : rstr -> rstr) : rstr :=
  let flush := if bool_decide (w = []) then [] else shown w in
  match text with
  | [] => flush
  | c :: text => if is_whitespace c then flush ++ c :: each_word_from [] text shown else each_word_from (w ++ [c]) text shown
  end.

Definition each_word (text : rstr) (shown : rstr -> rstr) : rstr := each_word_from [] text shown.

Definition managed_word (w : rstr) : rstr :=
  let plain := match split_once 61 w with
    | Some (name, value) =>
        if bool_decide (name = lit "interval") then bool_decide (value <> []) && forallb is_digit value
        else if bool_decide (name = lit "strict") then bool_decide (value <> []) && forallb is_ascii_alpha value
        else false
    | None => false
    end in
  if plain then w else STARS.

Definition link_hidden (w : rstr) : rstr := if has_substring w (lit "://") then STARS else w.

Definition redact_directive (line : rstr) : option rstr :=
  let name := directive_name line in
  if bool_decide (name = MANAGED_CONFIG) then Some (name ++ each_word (drop (length name) line) managed_word)
  else
    shown ← redact_entry line;
    let name := directive_name shown in
    if bool_decide (name = []) then Some shown
    else
      let words := drop (length name) shown in
      if bool_decide (name = INCLUDE) then app name <$> hide_include_links words else Some (name ++ each_word words link_hidden).

Definition redact_core (core : rstr) : option rstr := if starts_with core HASH then redact_directive core else redact_entry core.

(** The loop of [managed_look_alike]: what of the line is behind the name. *)
Fixpoint look_alike (name line : rstr) : option rstr :=
  match name with
  | [] => Some line
  | m :: name' =>
      (fix go (line : rstr) : option rstr :=
        match line with
        | [] => None
        | c :: line => if (c =? 45) || (c =? 95) then go line else if lower_char c =? m then look_alike name' line else None
        end) line
  end.

Definition managed_look_alike (line : rstr) : option (rstr * rstr) :=
  let from := match line with 33 :: rest => rest | _ => line end in
  behind ← look_alike (lit "managedconfig") from;
  Some (take (length line - length behind) line, behind).

(** *** The parts of a line *)

(** [trim] of the part of a line that starts at [base], and where it starts. *)
Definition trim_at (base : nat) (s : rstr) : nat * rstr := (if bool_decide (trim s = []) then base else base + length (lead s), trim s)%nat.

(** [split_line_slice], with where in the line the content starts. *)
Definition split_line_at (line : rstr) : res ReqError (option rstr * (nat * rstr)) :=
  let '(base, line) := trim_at 0 line in
  match strip_prefix_str line (HASH ++ REQUIREMENT) with
  | Some rest => do? ec <- take_expr rest; Ok (Some ec.1, trim_at (base + (length line - length ec.2)) ec.2)
  | None =>
      match first_of (map (fun te : rstr * rstr =>
          rest ← strip_prefix_str line (HASH ++ te.1);
          if starts_blank rest then Some (te.2, trim_at (base + (length line - length rest)) rest) else None) SIMPLIFIED) with
      | Some (expr, content) => Ok (Some expr, content)
      | None =>
          match first_of (map (fun marker : rstr => pos ← find_suffix_marker line marker; Some (marker, pos)) [HASH ++ REQUIREMENT; SLASHES ++ REQUIREMENT]) with
          | Some (marker, pos) =>
              let expr := trim (drop (pos + length marker) line) in
              if bool_decide (expr = []) then Err MissingExpression
              else
                let expr := default expr (e ← strip_prefix_str expr [34]; strip_suffix_str e [34]) in
                Ok (Some expr, trim_at base (take pos line))
          | None =>
              match first_of (flat_map (fun te : rstr * rstr => map (fun prefix : rstr =>
                  body ← strip_suffix_str line (prefix ++ te.1);
                  if ends_blank body then Some (te.2, trim_at base body) else None) [HASH; SLASHES]) SIMPLIFIED) with
              | Some (expr, content) => Ok (Some expr, content)
              | None => Ok (None, (base, line))
              end
          end
      end
  end.

Definition comment_marker (line : rstr) : option nat := if is_comment line then Some (if starts_with line (lit "//") then 2%nat else 1%nat) else None.

Definition requirement_prefix (line : rstr) : option nat :=
  if negb (is_requirement_prefix line) then None
  else match split_line_at line with
  | Ok (Some _, (at_, _)) => if (0 <? at_)%nat then Some at_ else None
  | _ => None
  end.

Definition is_directive_line (line : rstr) : bool := starts_with line HASH && negb (starts_with line INCLUDE) && negb (is_requirement_prefix line).

(** What is taken off the front of a line: what is shown of it, what is left,
    and whether it is a comment. *)
Fixpoint strip_front (fuel : nat) (shown rest : rstr) (commented : bool) : option (rstr * rstr * bool) :=
  let shown := shown ++ lead_by is_blank rest in
  let rest := drop_while is_blank rest in
  match (match comment_marker rest with Some n => Some (n, true) | None => n ← requirement_prefix rest; Some (n, commented) end) with
  | None => Some (shown, rest, commented)
  | Some (kept, commented) => match fuel with 0%nat => None | S fuel => strip_front fuel (shown ++ take kept rest) (drop kept rest) commented end
  end.

Definition hide_comment_text (comment : rstr) : rstr :=
  let body := drop_while is_blank comment in
  let marker := if starts_with body (lit "//") then 2%nat else 1%nat in
  let text := drop marker body in
  let words := trim_end_by is_blank (drop_while is_blank text) in
  if bool_decide (words = []) then comment
  else lead_by is_blank comment ++ take marker body ++ lead_by is_blank text ++ STARS ++ drop (length words) (drop_while is_blank text).

Definition MAX_COMMENT_DEPTH : nat := 4.

(** [redact_content]; [inner] redacts a comment as a line, when it is not too
    deep. *)
Definition redact_content (inner : option (rstr -> option rstr)) (line : rstr) : option rstr :=
  let content := strip_inline_comment line in
  let '(start, end_) := match split_line_at content with Ok (_, (at_, body)) => (at_, at_ + length body)%nat | Err _ => (0, length content)%nat end in
  let core := take (end_ - start) (drop start line) in
  let comment := drop (length content) line in
  comment ← (if bool_decide (comment = []) then Some []
    else if secret_key_without_value core then Some (hide_comment_text comment)
    else match inner with
      | Some inner => inner comment
      | None => text ← redact_by_name comment; hide_comment_links text
      end);
  core ← redact_core core;
  behind ← redact_by_name (take (length content - end_) (drop end_ line));
  Some (take start line ++ core ++ behind ++ comment).

(** [redact_text], with [left_] levels of comments to follow. *)
Fixpoint redact_text (left_ : nat) (line : rstr) : option rstr :=
  '(shown, rest, commented) ← strip_front (length line) [] line false;
  part ← match (if commented : bool then managed_look_alike rest else None) with
    | Some (name, words) => Some (name ++ each_word words managed_word)
    | None => if is_directive_line rest then redact_directive rest else redact_content (match left_ with 0%nat => None | S left_ => Some (redact_text left_) end) rest
    end;
  part ← (if (commented : bool) then redact_by_name part else Some part);
  shown ← hide_url_credentials (shown ++ part);
  if (commented : bool) then hide_comment_links shown else Some shown.

Definition redact_body (line : rstr) : option rstr := redact_text MAX_COMMENT_DEPTH line.

Definition redact_line (line : rstr) : option rstr :=
  match strip_suffix 13 line with
  | Some rest => body ← redact_body rest; Some (body ++ [13])
  | None => redact_body line
  end.

Definition redact_profile (text : rstr) : option rstr := lines ← mapM redact_line (split_on 10 text); Some (join_with 10 lines).
