(* ===== verification/RedactTotal.v ===== *)
(** * Redaction always answers, line by line

    No slice of [crates/rurge-config/src/redact.rs] panics and none of its loops
    runs on, whatever the profile; and what is shown of a line is one line.  Both
    are carried together ([clean]) through the searches by name, the URLs, the
    regions of a list, the fields of a policy and the parts of a line. *)

From S2P Require Import Prelude RuleMatcher Requirement RequirementProps Values ItemFields ProfileText Managed Include Redact.

(** ** One line *)

Definition no_lf (s : rstr) : Prop := Forall (fun c => c <> 10) s.

(** What came out, and is one line. *)
Definition clean (o : option rstr) : Prop := exists out, o = Some out /\ no_lf out.

Create HintDb lf.

Lemma no_lf_nil : no_lf [].
Proof. constructor. Qed.

Lemma no_lf_cons c s : c <> 10 -> no_lf s -> no_lf (c :: s).
Proof. by constructor. Qed.

Lemma no_lf_app s t : no_lf s -> no_lf t -> no_lf (s ++ t).
Proof. apply Forall_app_2. Qed.

Lemma no_lf_take n s : no_lf s -> no_lf (take n s).
Proof. apply Forall_take. Qed.

Lemma no_lf_drop n s : no_lf s -> no_lf (drop n s).
Proof. apply Forall_drop. Qed.

Lemma no_lf_reverse s : no_lf s -> no_lf (reverse s).
Proof. unfold no_lf. by rewrite Forall_reverse. Qed.

Lemma no_lf_drop_while p s : no_lf s -> no_lf (drop_while p s).
Proof. induction 1; cbn [drop_while]; [constructor|]. case_match; [done|by constructor]. Qed.

Lemma no_lf_take_while p s : no_lf s -> no_lf (take_while p s).
Proof. induction 1; cbn [take_while]; [constructor|]. case_match; [by constructor|constructor]. Qed.

Lemma no_lf_stars : no_lf STARS.
Proof. by repeat constructor. Qed.

Lemma no_lf_colons : no_lf (lit "://").
Proof. by repeat constructor. Qed.

#[export] Hint Resolve no_lf_nil no_lf_cons no_lf_app no_lf_take no_lf_drop no_lf_reverse no_lf_drop_while no_lf_take_while no_lf_stars no_lf_colons : lf.
#[export] Hint Extern 1 (_ <> 10) => discriminate : lf.

Ltac lf := eauto 12 with lf.

Lemma no_lf_trim_end p s : no_lf s -> no_lf (trim_end_by p s).
Proof. unfold trim_end_by. lf. Qed.

Lemma no_lf_trim p s : no_lf s -> no_lf (trim_by p s).
Proof. unfold trim_by, trim_end_by. lf. Qed.

Lemma no_lf_lead s : no_lf s -> no_lf (lead s).
Proof. unfold lead, lead_by. lf. Qed.

Lemma no_lf_trail s : no_lf s -> no_lf (trail s).
Proof. unfold trail, trail_by. lf. Qed.

Lemma no_lf_trim_start s : no_lf s -> no_lf (trim_start s).
Proof. apply no_lf_drop_while. Qed.

Lemma no_lf_trimmed s : no_lf s -> no_lf (trim s).
Proof. apply no_lf_trim. Qed.

Lemma no_lf_end s : no_lf s -> no_lf (trim_end s).
Proof. apply no_lf_trim_end. Qed.

#[export] Hint Resolve no_lf_trim_end no_lf_trim no_lf_lead no_lf_trail no_lf_trim_start no_lf_trimmed no_lf_end : lf.

Lemma no_lf_split_once c s a b : split_once c s = Some (a, b) -> no_lf s -> no_lf a /\ no_lf b.
Proof.
  intros Hs Hl. revert a Hs. induction Hl as [|x s Hx Hl IH]; intros a; cbn [split_once]; [done|]. case_match; [by intros [= <- <-]; split; [constructor|]|].
  destruct (split_once c s) as [[a' b']|]; [|done]. intros [= <- <-]. destruct (IH a' eq_refl). by split; [constructor|].
Qed.

Lemma starts_with_le s prefix : starts_with s prefix = true -> (length prefix <= length s)%nat.
Proof. revert s. induction prefix as [|x prefix IH]; intros [|c s]; cbn [starts_with length]; try (intros; lia). intros [_ Hs]%andb_true_iff. apply IH in Hs. lia. Qed.

Lemma find_text_split needle s a rest : find_text needle s = Some (a, rest) -> s = a ++ rest /\ (length needle <= length rest)%nat.
Proof.
  revert a. induction s as [|c s IH]; intros a; cbn [find_text].
  - destruct (starts_with [] needle) eqn:Hs; [|done]. intros [= <- <-]. destruct needle; [done|done].
  - destruct (starts_with (c :: s) needle) eqn:Hs; [intros [= <- <-]; split; [done|by apply starts_with_le]|].
    cbn [mbind option_bind]. destruct (find_text needle s) as [[a' r']|]; cbn; [|done]. intros [= <- <-]. destruct (IH a' eq_refl) as [-> ?]. done.
Qed.

Lemma find_char_split p s a rest : find_char p s = Some (a, rest) -> s = a ++ rest /\ exists c t, rest = c :: t /\ p c = true.
Proof.
  unfold find_char. destruct (drop_while (fun c => negb (p c)) s) as [|c t] eqn:Hd; [done|]. intros [= <- <-]. split.
  - revert Hd. induction s as [|x s IH]; cbn [drop_while take_while]; [done|]. case_match; [intros; cbn; f_equal; by apply IH|by intros ->].
  - exists c, t. split; [done|]. pose proof (drop_while_head (fun c => negb (p c)) s c) as Hh. rewrite Hd in Hh. specialize (Hh eq_refl). by apply negb_false_iff in Hh.
Qed.

Lemma no_lf_find_text needle s a rest : find_text needle s = Some (a, rest) -> no_lf s -> no_lf a /\ no_lf rest.
Proof. intros [-> _]%find_text_split. apply Forall_app. Qed.

Lemma no_lf_find_char p s a rest : find_char p s = Some (a, rest) -> no_lf s -> no_lf a /\ no_lf rest.
Proof. intros [-> _]%find_char_split. apply Forall_app. Qed.

Lemma clean_some s : no_lf s -> clean (Some s).
Proof. by exists s. Qed.

Lemma clean_bind o f : clean o -> (forall s, no_lf s -> clean (f s)) -> clean (o ≫= f).
Proof. intros (s & -> & Hs) Hf. by apply Hf. Qed.

Lemma clean_app front o : no_lf front -> clean o -> clean (app front <$> o).
Proof. intros Hf (s & -> & Hs). exists (front ++ s). split; [done|]. lf. Qed.

#[export] Hint Resolve clean_some clean_bind clean_app : lf.

(** ** Secrets by name *)

Lemma length_lower s : length (to_ascii_lowercase s) = length s.
Proof. apply length_map. Qed.

Lemma drop_while_le {A} (p : A -> bool) (l : list A) : (length (drop_while p l) <= length l)%nat.
Proof. apply drop_while_length. Qed.

Lemma strip_quote_start_le s : (length (strip_quote_start s) <= length s)%nat.
Proof. destruct s as [|c s]; cbn; [lia|]. case_match; cbn; lia. Qed.

Lemma no_lf_strip_quote s : no_lf s -> no_lf (strip_quote_start s).
Proof. intros Hs. destruct Hs as [|c s Hc Hs]; cbn; [constructor|]. case_match; [done|by constructor]. Qed.

Lemma next_comma_split wide depth quote skip s a b : next_comma_from wide depth quote skip s = Some (a, b) -> s = a ++ b.
Proof.
  revert depth quote skip a. induction s as [|c s IH]; intros depth quote skip a; cbn [next_comma_from]; [done|].
  repeat case_match; try (by intros [= <- <-]); match goal with |- mbind _ ?e = _ -> _ => destruct e as [[a' b']|] eqn:He; cbn; [|done] end; intros [= <- <-]; cbn; f_equal; by eapply IH.
Qed.

Lemma param_value_split s : exists b, s = param_value s ++ b.
Proof. unfold param_value, next_comma. case_match; [case_match; eexists; by eapply next_comma_split|exists []; by rewrite app_nil_r]. Qed.

Lemma no_lf_param_value s : no_lf s -> no_lf (param_value s).
Proof. destruct (param_value_split s) as (b & Hb). rewrite Hb at 1. by intros [? _]%Forall_app. Qed.

Lemma take_drop_while {A} (p : A -> bool) (s : list A) : take_while p s ++ drop_while p s = s.
Proof. induction s as [|x s IH]; cbn; [done|]. case_match; cbn; [by f_equal|done]. Qed.

Lemma lead_rest s : lead s ++ trim_start s = s.
Proof. apply take_drop_while. Qed.

#[export] Hint Resolve no_lf_strip_quote no_lf_param_value : lf.

Lemma redact_param_clean fuel value param : (0 < length param)%nat -> no_lf value -> forall rest search out, (rest <= search)%nat -> (search <= length value)%nat -> (length value - search < fuel)%nat -> no_lf out ->
  clean (redact_param_from fuel value param rest search out).
Proof.
  intros Hp Hv. induction fuel as [|fuel IH]; intros rest search out Hr Hs Hf Ho; [lia|]. cbn [redact_param_from].
  destruct (find_text param (drop search (to_ascii_lowercase value))) as [[skipped found]|] eqn:He; [|lf]. apply find_text_split in He as [He Hl].
  apply (f_equal length) in He. rewrite length_drop, length_lower, length_app in He. set (start := (search + length skipped)%nat) in *.
  assert (Hon : clean (redact_param_from fuel value param rest (start + length param) out)) by (apply IH; lia || done).
  set (after := strip_quote_start (drop (start + length param) value)) in *.
  assert (Ht : no_lf (trim_start after)) by (unfold after; lf).
  assert (Hw : (length (trim_start after) <= length value - (start + length param))%nat).
  { rewrite <- length_drop. etrans; [apply drop_while_length|apply strip_quote_start_le]. }
  destruct (trim_start after) as [|c tail]; [done|]. cbn [length] in Hw. case_match; [|done]. apply Forall_cons in Ht as [_ Ht].
  unfold sub_ok. rewrite (proj2 (Nat.leb_le _ _)) by lia. cbn [mbind option_bind]. pose proof (f_equal length (lead_rest tail)) as Hlen. rewrite length_app in Hlen.
  set (blank := if _ : bool then trim_start tail else _).
  assert (Hb : (length blank <= length (trim_start tail))%nat /\ no_lf blank).
  { unfold blank. case_match; [split; [lia|lf]|]. split; [|lf]. destruct (param_value_split (trim_start tail)) as (b & Hb). rewrite Hb at 2. rewrite length_app. lia. }
  destruct Hb as [Hb Hbl]. apply IH; [lia|lia|lia|]. lf.
Qed.

Lemma redact_by_name_clean s : no_lf s -> clean (redact_by_name s).
Proof.
  intros Hs. unfold redact_by_name. case_match; [lf|]. assert (Hp : Forall (fun param => 0 < length param)%nat SECRET_PARAMS) by (repeat constructor). revert Hp. generalize SECRET_PARAMS. intros params Hp.
  assert (Ho : clean (Some s)) by lf. revert Ho. generalize (Some s). induction Hp as [|param params Hp Hps IH]; intros o Ho; cbn [foldl]; [done|]. apply IH. eapply clean_bind; [done|]. intros t Ht. apply redact_param_clean; [done|done|lia|lia|lia|lf].
Qed.

(** ** URLs *)

Lemma no_lf_cut p s : no_lf s -> no_lf (cut_at_char p s).1 /\ no_lf (cut_at_char p s).2.
Proof. split; cbn; lf. Qed.

Lemma no_lf_last_at s a b : last_at s = Some (a, b) -> no_lf s -> no_lf a /\ no_lf b.
Proof.
  unfold last_at. destruct (find_char is_at (reverse s)) as [[behind [|sign before]]|] eqn:Hf; [done| |done]. intros [= <- <-] Hs. apply no_lf_find_char in Hf as [Hb Ha]; [|lf]. apply Forall_cons in Ha as [_ Ha]. lf.
Qed.

(** What one URL leaves is shorter than the text, and clean. *)
Lemma link_rest p s before from : find_text (lit "://") s = Some (before, from) -> no_lf s ->
  no_lf before /\ no_lf (drop 3 from) /\ (length (drop 3 from) < length s)%nat /\ (length (cut_at_char p (drop 3 from)).2 < length s)%nat.
Proof.
  intros Hf Hs. pose proof (find_text_split _ _ _ _ Hf) as [-> Hl]. apply Forall_app in Hs as [Hb Hfr]. cbn [length lit] in Hl. change (3 <= length from)%nat in Hl.
  assert (Hd : (length (drop 3 from) < length (before ++ from))%nat) by (rewrite length_drop, length_app; lia). split; [done|]. split; [lf|]. split; [done|].
  eapply Nat.le_lt_trans; [|exact Hd]. apply drop_while_length.
Qed.

Lemma hide_url_clean fuel rest out : (length rest <= fuel)%nat -> no_lf rest -> no_lf out -> clean (hide_url_credentials_from fuel rest out).
Proof.
  revert rest out. induction fuel as [|fuel IH]; intros rest out Hf Hr Ho; cbn [hide_url_credentials_from]; destruct (find_text (lit "://") rest) as [[before from]|] eqn:He; try lf.
  - destruct (link_rest is_whitespace _ _ _ He Hr) as (_ & _ & Hl & _). lia.
  - case_match; [destruct (link_rest is_whitespace _ _ _ He Hr) as (Hb & Ha & _ & Hl)|destruct (link_rest is_authority_end _ _ _ He Hr) as (Hb & Ha & _ & Hl)];
      match goal with |- context [cut_at_char ?p ?s] => pose proof (no_lf_cut p s Ha) as [H1 H2]; destruct (cut_at_char p s) as [x y] end; cbn [fst snd] in *; apply IH; try lia; try done.
    + case_match; lf.
    + destruct (last_at x) as [[cred host]|] eqn:Hx; [apply no_lf_last_at in Hx as [_ Hh]; [|done]|]; lf.
Qed.

Lemma hide_links_clean fuel rest out : (length rest <= fuel)%nat -> no_lf rest -> no_lf out -> clean (hide_comment_links_from fuel rest out).
Proof.
  revert rest out. induction fuel as [|fuel IH]; intros rest out Hf Hr Ho; cbn [hide_comment_links_from]; destruct (find_text (lit "://") rest) as [[before from]|] eqn:He; try lf.
  - destruct (link_rest is_whitespace _ _ _ He Hr) as (_ & _ & Hl & _). lia.
  - destruct (link_rest is_authority_end _ _ _ He Hr) as (Hb & Ha & Hl & Hl2). case_match; [apply IH; [lia|done|lf]|].
    pose proof (no_lf_cut is_authority_end _ Ha) as [H1 H2]. destruct (cut_at_char is_authority_end (drop 3 from)) as [x y]. cbn [fst snd] in *.
    pose proof (no_lf_cut is_whitespace _ H2) as [H3 H4]. assert (Hy : (length (cut_at_char is_whitespace y).2 <= length y)%nat) by apply drop_while_length. destruct (cut_at_char is_whitespace y) as [l r]. cbn [fst snd] in *.
    apply IH; [lia|done|]. case_match; lf.
Qed.

Lemma hide_url_credentials_clean s : no_lf s -> clean (hide_url_credentials s).
Proof. intros Hs. apply hide_url_clean; [done|done|lf]. Qed.

Lemma hide_comment_links_clean s : no_lf s -> clean (hide_comment_links s).
Proof. intros Hs. apply hide_links_clean; [done|done|lf]. Qed.

#[export] Hint Resolve redact_by_name_clean hide_url_credentials_clean hide_comment_links_clean : lf.

(** ** Pieces of a text *)

(** Where the pieces of a text, after [pre], start and end and the separators
    after them end. *)
Inductive laid : rstr -> rstr -> list (nat * nat * nat) -> Prop :=
| laid_nil pre : laid pre [] []
| laid_next pre item sep rest l : laid (pre ++ item ++ sep) rest l -> laid pre (item ++ sep ++ rest) ((str_len pre, str_len (pre ++ item), str_len (pre ++ item ++ sep)) :: l).

Definition of_item (span : ItemSpan) : nat * nat * nat := (start span, end_ span, sep_end span).
Definition of_field (span : FieldSpan) : nat * nat * nat := (fs_start span, fs_end span, fs_sep_end span).

Lemma cut_laid wide pre s spans : cut_up wide pre s spans -> laid pre s (map of_item spans).
Proof.
  induction 1 as [pre item eq _|pre item sep rest eq spans _ _ _ IH]; cbn [map].
  - rewrite <- (app_nil_r item) at 1. change [] with ([] ++ [] : rstr) at 1. unfold of_item. cbn [start end_ sep_end]. replace (str_len (pre ++ item)) with (str_len (pre ++ item ++ [])) at 2 by (by rewrite app_nil_r). constructor. constructor.
  - change (sep :: rest) with ([sep] ++ rest). unfold of_item at 1. cbn [start end_ sep_end]. replace (str_len (pre ++ item) + len_utf8 sep)%nat with (str_len (pre ++ item ++ [sep])) by (rewrite (app_assoc pre item), (str_len_app (pre ++ item)); cbn; lia). by constructor.
Qed.

Lemma laid_app pre s1 l1 s2 l2 : laid pre s1 l1 -> laid (pre ++ s1) s2 l2 -> laid pre (s1 ++ s2) (l1 ++ l2).
Proof.
  induction 1 as [pre|pre item sep rest l Hl IH]; [by rewrite app_nil_r|]. intros H2. rewrite <- !app_assoc. cbn [app]. constructor. apply IH. by rewrite <- !app_assoc.
Qed.

Lemma laid_app_inv l1 l2 pre s : laid pre s (l1 ++ l2) -> exists s1 s2, s = s1 ++ s2 /\ laid pre s1 l1 /\ laid (pre ++ s1) s2 l2.
Proof.
  revert pre s. induction l1 as [|t l1 IH]; intros pre s; cbn [app].
  - intros H. exists [], s. split; [done|]. split; [constructor|]. by rewrite app_nil_r.
  - inversion 1 as [|pre' item sep rest l H']; subst. destruct (IH _ _ H') as (s1 & s2 & -> & H1 & H2). exists (item ++ sep ++ s1), s2. split; [by rewrite <- !app_assoc|]. split; [by constructor|]. by rewrite <- !app_assoc in H2.
Qed.

Lemma laid_inv pre s t l : laid pre s (t :: l) -> exists item sep rest, s = item ++ sep ++ rest /\ t = (str_len pre, str_len (pre ++ item), str_len (pre ++ item ++ sep)) /\ laid (pre ++ item ++ sep) rest l.
Proof. inversion 1; subst. eauto 10. Qed.

(** A slice between two ends of characters. *)
Lemma slice_mid pre m post : str_slice (pre ++ m ++ post) (str_len pre) (str_len (pre ++ m)) = Some m.
Proof. rewrite str_len_app. apply str_slice_mid. Qed.

Lemma slice_behind pre m post front : front = pre ++ m -> str_slice (front ++ post) (str_len pre) (str_len front) = Some m.
Proof. intros ->. rewrite <- app_assoc. apply slice_mid. Qed.

(** The pieces that a reach takes along, whatever the pieces are. *)
Section Over.
Context {A : Type} (at_ : A -> nat * nat * nat).

Fixpoint over (reach : nat) (span : A) (spans : list A) : A * list A :=
  match spans with
  | next :: rest => if ((at_ span).1.2 <? reach)%nat then over reach next rest else (span, spans)
  | [] => (span, [])
  end.

Lemma over_laid reach spans : forall pre span s, laid pre s (map at_ (span :: spans)) ->
  exists body sep rest, s = body ++ sep ++ rest /\ (at_ (over reach span spans).1).1.2 = str_len (pre ++ body) /\ (at_ (over reach span spans).1).2 = str_len (pre ++ body ++ sep)
    /\ laid (pre ++ body ++ sep) rest (map at_ (over reach span spans).2) /\ (length (over reach span spans).2 <= length spans)%nat
    /\ exists first more, body = first ++ more /\ (at_ span).1.2 = str_len (pre ++ first).
Proof.
  induction spans as [|next spans IH]; intros pre span s; cbn [map over].
  - intros (item & sep & rest & -> & Ht & H')%laid_inv. exists item, sep, rest. cbn [fst snd map length over]. rewrite Ht. cbn [fst snd]. split; [done|]. split; [done|]. split; [done|]. split; [done|]. split; [lia|]. exists item, []. by rewrite app_nil_r.
  - intros (item & sep & rest & -> & Ht & H')%laid_inv. rewrite Ht. cbn [fst snd]. case_match.
    + destruct (IH _ _ _ H') as (body & sep' & rest' & -> & He & Hse & Hl & Hn & _). exists (item ++ sep ++ body), sep', rest'. rewrite He, Hse. rewrite <- !app_assoc in Hl. rewrite <- !app_assoc.
      split; [done|]. split; [done|]. split; [done|]. split; [done|]. split; [cbn; lia|]. by exists item, (sep ++ body).
    + exists item, sep, rest. cbn [fst snd]. rewrite Ht. cbn [fst snd]. split; [done|]. split; [done|]. split; [done|]. split; [done|]. split; [cbn; lia|]. exists item, []. by rewrite app_nil_r.
Qed.
End Over.

Lemma reach_over_is reach spans : forall span, reach_over reach span spans = over of_item reach span spans.
Proof. induction spans as [|next spans IH]; intros span; cbn; [done|]. by rewrite IH. Qed.

Lemma fields_over_is reach spans : forall span, fields_over reach span spans = over of_field reach span spans.
Proof. induction spans as [|next spans IH]; intros span; cbn; [done|]. by rewrite IH. Qed.

Lemma comma_reach_ok pre s wide : exists n, comma_reach (pre ++ s) (str_len pre) wide = Some n.
Proof. unfold comma_reach. rewrite drop_bytes_app. cbn. eauto. Qed.

(** ** Regions *)

Inductive regioned : rstr -> rstr -> list Region -> Prop :=
| regioned_nil pre : regioned pre [] []
| regioned_next pre first more sep rest rs : regioned (pre ++ (first ++ more) ++ sep) rest rs ->
    regioned pre ((first ++ more) ++ sep ++ rest) (mkRegion (str_len pre) (str_len (pre ++ first)) (str_len (pre ++ first ++ more)) (str_len (pre ++ (first ++ more) ++ sep)) :: rs).

Lemma regions_from_ok fuel : forall pre s spans, (length spans <= fuel)%nat -> laid pre s (map of_item spans) -> exists rs, regions_from fuel (pre ++ s) spans = Some rs /\ regioned pre s rs.
Proof.
  induction fuel as [|fuel IH]; intros pre s [|span spans] Hf Hl; cbn [length] in Hf; try lia; cbn [regions_from]; try (inversion Hl; subst; exists []; by split; [|constructor]).
  assert (Hst : start span = str_len pre) by (by inversion Hl). rewrite Hst. destruct (comma_reach_ok pre s false) as (reach & ->). cbn [mbind option_bind]. rewrite reach_over_is.
  destruct (over_laid of_item reach spans pre span s Hl) as (body & sep & rest & -> & He & Hse & Hr & Hn & first & more & -> & Hfe). destruct (over of_item reach span spans) as [last_ tail]. unfold of_item in He, Hse, Hfe. cbn [fst snd] in *.
  destruct (IH (pre ++ (first ++ more) ++ sep) rest tail) as (rs & Hrs & Hreg); [lia|done|]. rewrite <- !app_assoc in Hrs. rewrite <- ?app_assoc. cbn [app] in *. rewrite Hrs. cbn. eexists. split; [done|].
  rewrite He, Hse, Hfe. pose proof (regioned_next _ _ _ _ _ _ Hreg) as Hg. rewrite <- !app_assoc in Hg. by rewrite <- ?app_assoc.
Qed.

Lemma regions_ok s : exists rs, regions s = Some rs /\ regioned [] s rs.
Proof. unfold regions. destruct (item_spans_up s false) as (spans & -> & Hu). cbn [mbind option_bind]. by apply (regions_from_ok _ [] s spans), cut_laid with (wide := false). Qed.

(** What is shown region by region, region by region. *)
Lemma shown_parts (shown : rstr -> nat -> option rstr) pre s rs : regioned pre s rs -> no_lf s -> (forall first more, no_lf (first ++ more) -> clean (shown (first ++ more) (str_len first))) ->
  exists parts, mapM (fun r =>
    body ← str_slice (pre ++ s) (reg_start r) (reg_end r);
    shown ← shown body (first_end r - reg_start r)%nat;
    sep ← str_slice (pre ++ s) (reg_end r) (reg_sep_end r);
    Some (shown ++ sep)) rs = Some parts /\ no_lf (List.concat parts).
Proof.
  intros Hr Hs Hf. induction Hr as [pre|pre first more sep rest rs Hr IH]; [exists []; by split; [|constructor]|].
  apply Forall_app in Hs as [Hb Hs]. apply Forall_app in Hs as [Hsep Hs]. destruct (IH Hs) as (parts & Hm & Hp). cbn [mapM reg_start first_end reg_end reg_sep_end].
  rewrite (slice_mid pre (first ++ more) (sep ++ rest)). cbn [mbind option_bind]. rewrite (str_len_app pre first). replace (str_len pre + str_len first - str_len pre)%nat with (str_len first) by lia.
  destruct (Hf first more Hb) as (t & -> & Ht). cbn [mbind option_bind].
  replace (pre ++ (first ++ more) ++ sep ++ rest) with ((pre ++ (first ++ more) ++ sep) ++ rest) by (by rewrite <- !app_assoc).
  rewrite (slice_behind (pre ++ first ++ more) sep rest (pre ++ (first ++ more) ++ sep)) by (by rewrite <- !app_assoc). cbn [mbind option_bind].
  rewrite Hm. cbn. eexists. split; [done|]. cbn. lf.
Qed.

Lemma show_regions_clean s shown : no_lf s -> (forall first more, no_lf (first ++ more) -> clean (shown (first ++ more) (str_len first))) -> clean (show_regions s shown).
Proof. intros Hs Hf. unfold show_regions. destruct (regions_ok s) as (rs & -> & Hr). cbn [mbind option_bind]. destruct (shown_parts shown [] s rs Hr Hs Hf) as (parts & Hm & Hp). cbn [app] in Hm. rewrite Hm. cbn. by exists (List.concat parts). Qed.

(** ** Fields of one line *)

Lemma no_lf_drop_bytes n s t : drop_bytes n s = Some t -> no_lf s -> no_lf t.
Proof. intros Hd Hs. revert n Hd. induction Hs as [|c s Hc Hs IH]; intros [|n]; cbn [drop_bytes]; [by intros [= <-]; constructor|done|by intros [= <-]; constructor|]. case_match; [apply IH|done]. Qed.

Lemma no_lf_take_bytes n s t : take_bytes n s = Some t -> no_lf s -> no_lf t.
Proof.
  intros Hd Hs. revert n t Hd. induction Hs as [|c s Hc Hs IH]; intros [|n] t; cbn [take_bytes]; [by intros [= <-]; constructor|done|by intros [= <-]; constructor|]. case_match; [|done].
  destruct (take_bytes (S n - len_utf8 c) s) as [u|] eqn:Hu; cbn; [|done]. intros [= <-]. constructor; [done|by eapply IH].
Qed.

Lemma no_lf_slice s a b t : str_slice s a b = Some t -> no_lf s -> no_lf t.
Proof. unfold str_slice. intros Hx Hs. destruct (sub_ok b a); cbn in Hx; [|done]. destruct (drop_bytes a s) as [u|] eqn:Hu; cbn in Hx; [|done]. eapply no_lf_take_bytes; [done|]. by eapply no_lf_drop_bytes. Qed.

Lemma no_lf_unescape s : no_lf s -> no_lf (unescape s).
Proof.
  intros Hs. remember (length s) as n eqn:Hn. revert s Hs Hn. induction n as [n IH] using lt_wf_ind. intros s Hs ->.
  destruct Hs as [|c s Hc Hs]; cbn [unescape]; [constructor|]. case_match; [|constructor; [done|by apply (IH (length s) ltac:(cbn; lia))]].
  destruct Hs as [|d s Hd Hs]; [by repeat constructor|]. pose proof (IH (length s) ltac:(cbn; lia) s Hs eq_refl). repeat case_match; repeat constructor; done.
Qed.

Lemma no_lf_wholly s inner : wholly_quoted s = Some (Some inner) -> no_lf s -> no_lf inner.
Proof.
  unfold wholly_quoted. destruct s as [|q s]; [done|]. case_match; [|done]. case_match; [|done]. case_match; [done|]. destruct (str_slice _ _ _) as [t|] eqn:Ht; cbn; [|done].
  intros [= <-] Hs. pose proof (no_lf_slice _ _ _ _ Ht Hs). case_match; [by apply no_lf_unescape|done].
Qed.

Lemma no_lf_read_field item eq f : read_field item eq = Some (Some f) -> no_lf item -> no_lf (text f).
Proof.
  unfold read_field. intros Hf Hi. case_bool_decide; [done|]. assert (Ht : no_lf (trim item)) by lf.
  destruct (wholly_quoted (trim item)) as [[inner|]|] eqn:Hw; cbn in Hf; [| |done].
  - case_bool_decide; simplify_eq. cbn. by eapply no_lf_wholly.
  - destruct eq as [e|]; cbn in Hf; [|by simplify_eq]. destruct (take_bytes e item) as [key|] eqn:Hk; cbn in Hf; [|done]. case_bool_decide; [by simplify_eq/=|].
    destruct (drop_bytes (e + 1) item) as [raw|] eqn:Hr; cbn in Hf; [|done]. pose proof (no_lf_take_bytes _ _ _ Hk Hi). pose proof (no_lf_drop_bytes _ _ _ Hr Hi).
    destruct (wholly_quoted (trim raw)) as [[value|]|] eqn:Hv; cbn in Hf; simplify_eq/=; [|done]. apply no_lf_wholly in Hv; [|lf]. lf.
Qed.

Lemma no_lf_fields s spans fs : mapM (span_field s) spans = Some fs -> no_lf s -> Forall (fun f => match f with Some f => no_lf (text f) | None => True end) fs.
Proof.
  intros Hm Hs. apply mapM_Some in Hm. induction Hm as [|span f spans fs Hf Hm IH]; constructor; [|done]. destruct f as [f|]; [|done].
  unfold span_field in Hf. destruct (str_slice s (start span) (end_ span)) as [item|] eqn:Hi; cbn in Hf; [|done]. pose proof (no_lf_slice _ _ _ _ Hi Hs).
  destruct (eq span) as [e|]; cbn in Hf; [destruct (sub_ok e (start span)); cbn in Hf; [|done]|]; by eapply no_lf_read_field.
Qed.

(** A list is read, and its fields are on its line. *)
Lemma split_list_ok s : exists fields, split_list s = Some fields /\ (no_lf s -> Forall no_lf fields).
Proof.
  destruct (split_fields_total s) as (fs & Hf). unfold split_list. rewrite Hf. cbn. eexists. split; [done|]. intros Hs. unfold split_fields in Hf.
  destruct (item_spans s false) as [spans|]; cbn in Hf; [|done]. destruct (mapM (span_field s) spans) as [os|] eqn:Hm; cbn in Hf; [|done]. simplify_eq. pose proof (no_lf_fields _ _ _ Hm Hs) as Hn.
  clear Hm. induction Hn as [|[f|] os Hn Hns IH]; [apply Forall_nil_2|by apply Forall_cons_2|done].
Qed.

(** ** Items *)

Lemma no_lf_secret_key field key : secret_key field = Some key -> no_lf field -> no_lf key.
Proof.
  unfold secret_key, parse_key_value, split_definition. intros Hk Hf. destruct (split_once 61 field) as [[name rest]|] eqn:Hs; cbn in Hk; [|done]. apply no_lf_split_once in Hs as [Hn _]; [|done].
  case_bool_decide; cbn in Hk; [done|]. case_match; simplify_eq. lf.
Qed.

Lemma hide_value_clean lead_ body trail_ key by_name : no_lf lead_ -> no_lf body -> no_lf trail_ -> (forall k, key = Some k -> no_lf k) -> clean by_name -> clean (hide_value lead_ body trail_ key by_name).
Proof.
  intros Hl Hb Ht Hk Hn. unfold hide_value. destruct key as [key|]; [|done]. specialize (Hk key eq_refl). apply clean_some. destruct (split_once 61 body) as [[name value]|] eqn:Hs; [|lf].
  apply no_lf_split_once in Hs as [? ?]; [|done]. case_bool_decide; lf.
Qed.

Lemma no_lf_group s inside : group_inside s = Some inside -> no_lf s -> no_lf inside.
Proof.
  unfold group_inside, strip_prefix_str, strip_suffix_str. intros Hg Hs. case_match; cbn in Hg; [|done]. case_match; [|done]. injection Hg as <-. lf.
Qed.

Lemma no_lf_body s : no_lf s -> no_lf (body_of s).
Proof. unfold body_of. lf. Qed.

Lemma no_lf_trail_of s : no_lf s -> no_lf (trail_of s).
Proof. unfold trail_of. lf. Qed.

#[export] Hint Resolve no_lf_body no_lf_trail_of : lf.

Lemma last_lf fields field : last fields = Some field -> Forall no_lf fields -> no_lf field.
Proof. intros Hl Hf. rewrite Forall_forall in Hf. apply Hf. apply last_Some in Hl as (l & ->). set_solver. Qed.

Lemma redact_joined_clean first more : no_lf (first ++ more) -> clean (redact_joined (first ++ more) (str_len first)).
Proof.
  intros Hs. unfold redact_joined. rewrite take_bytes_app. cbn [mbind option_bind]. destruct (split_list_ok first) as (fields & -> & Hf). cbn [mbind option_bind]. apply Forall_app in Hs as Hs'. destruct Hs' as [H1 _].
  apply hide_value_clean; [lf|lf|lf| |lf]. intros k Hk. destruct (last fields) as [f|] eqn:Hl; cbn in Hk; [|done]. eapply no_lf_secret_key; [done|]. eapply last_lf; [done|]. by apply Hf.
Qed.

Lemma redact_item_clean inner s : (forall f, inner = Some f -> forall t, no_lf t -> clean (f t)) -> no_lf s -> clean (redact_item inner s).
Proof.
  intros Hin Hs. unfold redact_item. destruct (split_list_ok s) as (fields & -> & Hf). cbn [mbind option_bind]. destruct (last fields) as [field|] eqn:Hl; [|lf]. specialize (Hf Hs). pose proof (last_lf _ _ Hl Hf) as Hfield.
  assert (Hk : clean (hide_value (lead s) (body_of s) (trail_of s) (secret_key field) (redact_by_name s))) by (apply hide_value_clean; [lf|lf|lf| |lf]; intros k Hk; by eapply no_lf_secret_key).
  destruct inner as [inner|]; [|done]. set (group := match group_inside (body_of s) with Some i => Some i | None => _ end). destruct group as [inside|] eqn:Hg; [|done].
  assert (Hi : no_lf inside). { unfold group in Hg. destruct (group_inside (body_of s)) as [i|] eqn:Hb; simplify_eq; eapply no_lf_group; try done; lf. }
  apply (clean_bind (inner inside)); [by apply (Hin inner)|]. intros redacted Hr. apply clean_some. case_bool_decide; [done|]. lf.
Qed.

Lemma redact_items_clean left_ s : no_lf s -> clean (redact_items left_ s).
Proof.
  revert s. induction left_ as [|left_ IH]; intros s Hs; cbn [redact_items]; apply show_regions_clean; try done; intros first more Hb; (case_match; [|by apply redact_joined_clean]).
  - by apply redact_item_clean.
  - apply redact_item_clean; [by intros f [= <-]|done].
Qed.

Lemma without_credentials_lf s : no_lf s -> no_lf (without_credentials s).
Proof. intros Hs. unfold without_credentials. destruct (last_at s) as [[a b]|] eqn:Hl; [|done]. apply no_lf_last_at in Hl as [_ ?]; lf. Qed.

Lemma url_without_credentials_lf s : no_lf s -> no_lf (url_without_credentials s).
Proof.
  intros Hs. unfold url_without_credentials. destruct (last_at s) as [[a b]|] eqn:Hl; [|done]. apply no_lf_last_at in Hl as [Ha ?]; [|done]. unfold split_once_text. destruct (find_text _ a) as [[scheme rest]|] eqn:Hf; cbn; [|lf].
  apply no_lf_find_text in Hf as [? _]; [|done]. case_match; lf.
Qed.

Lemma hide_listed_clean s shown : (forall t, no_lf t -> no_lf (shown t)) -> no_lf s -> clean (hide_listed s shown).
Proof. intros Hf Hs. apply show_regions_clean; [done|]. intros first more Hb. apply clean_some. pose proof (Hf (trim_start (first ++ more))). lf. Qed.

Lemma hide_include_clean s : no_lf s -> clean (hide_include_links s).
Proof. intros Hs. apply show_regions_clean; [done|]. intros first more Hb. apply clean_some. case_match; lf. Qed.

Lemma redact_key_line_clean entry : no_lf (key_text entry) -> sep entry <> 10 -> no_lf (key_value entry) -> clean (redact_key_line entry).
Proof.
  destruct entry as [kind al key sp value]. cbn. intros Hk Hsp Hv. assert (Hf : no_lf (key ++ [sp])) by lf. unfold redact_key_line. destruct kind.
  - apply clean_some. case_match; lf.
  - apply clean_some. destruct (split_once 58 (trim_start value)) as [[u p]|] eqn:Hs; [|lf]. apply no_lf_split_once in Hs as [? _]; lf.
  - apply clean_some. unfold hide_controller. pose proof (without_credentials_lf (trim_end (trim_start value))). case_match; lf.
  - apply clean_app; [done|]. by apply hide_listed_clean; [apply without_credentials_lf|].
  - apply clean_app; [done|]. by apply hide_listed_clean; [apply url_without_credentials_lf|].
Qed.

(** ** Positional credentials *)

Lemma str_len_nil s : str_len s = 0%nat -> s = [].
Proof. destruct s as [|c s]; [done|]. rewrite str_len_cons. pose proof (len_utf8_pos c). lia. Qed.

(** The words of a field, with what separates it from the next, are the field. *)
Lemma words_laid fuel : forall pre rest sep, (length rest < fuel)%nat -> exists ws, words_from fuel (str_len pre) (str_len (pre ++ rest ++ sep)) rest = Some ws /\ laid pre (rest ++ sep) (map of_field ws).
Proof.
  induction fuel as [|fuel IH]; intros pre rest sep Hf; [lia|]. cbn [words_from]. unfold cut_at_char.
  pose proof (lead_rest rest) as H1. pose proof (take_drop_while (fun c => negb (is_whitespace c)) (trim_start rest)) as H2. pose proof (drop_while_head is_whitespace rest) as Hh. fold (trim_start rest) in Hh.
  set (w := take_while _ (trim_start rest)) in *. set (gap_rest := drop_while _ (trim_start rest)) in *. pose proof (lead_rest gap_rest) as H3.
  assert (Hrest : rest = (lead rest ++ w) ++ lead gap_rest ++ trim_start gap_rest) by (rewrite H3, <- app_assoc, H2; done).
  assert (Hlen : str_len rest = (str_len (lead rest) + str_len w + str_len (lead gap_rest) + str_len (trim_start gap_rest))%nat) by (rewrite Hrest at 1; rewrite !str_len_app; lia).
  destruct (Nat.leb_spec (str_len rest) (str_len (lead rest) + str_len w + str_len (lead gap_rest))) as [Hle|Hlt].
  - assert (Ht : trim_start gap_rest = []) by (apply str_len_nil; lia). rewrite Ht, app_nil_r in Hrest. eexists. split; [done|]. cbn [map of_field fs_start fs_end fs_sep_end].
    unfold of_field. cbn [fs_start fs_end fs_sep_end].
    replace (str_len pre + (str_len (lead rest) + str_len w))%nat with (str_len (pre ++ lead rest ++ w)) by (rewrite !str_len_app; lia).
    pose proof (laid_next pre (lead rest ++ w) (lead gap_rest ++ sep) [] [] (laid_nil _)) as Hn. rewrite app_nil_r in Hn.
    assert (Hs : rest ++ sep = (lead rest ++ w) ++ lead gap_rest ++ sep) by (rewrite Hrest at 1; by rewrite <- !app_assoc). by rewrite Hs.
  - assert (Hw : w <> []).
    { intros Hw. destruct (trim_start rest) as [|c t] eqn:Ht; [|specialize (Hh c eq_refl); unfold w in Hw; cbn [take_while] in Hw; rewrite Hh in Hw; done].
      assert (Hg : gap_rest = []) by done. rewrite Hg in Hlt, Hlen. cbn in Hlt, Hlen. lia. }
    assert (Hl : (length (trim_start gap_rest) < fuel)%nat). { apply (f_equal length) in Hrest. rewrite !length_app in Hrest. destruct w; [done|]. cbn [length] in Hrest. lia. }
    destruct (IH (pre ++ (lead rest ++ w) ++ lead gap_rest) (trim_start gap_rest) sep Hl) as (ws & Hws & Hlaid).
    replace (str_len pre + (str_len (lead rest) + str_len w) + str_len (lead gap_rest))%nat with (str_len (pre ++ (lead rest ++ w) ++ lead gap_rest)) by (rewrite !str_len_app; lia).
    assert (Hs : pre ++ rest ++ sep = (pre ++ (lead rest ++ w) ++ lead gap_rest) ++ trim_start gap_rest ++ sep) by (rewrite Hrest at 1; by rewrite <- !app_assoc). rewrite Hs.
    rewrite Hws. cbn. eexists. split; [done|]. cbn [map]. unfold of_field at 1. cbn [fs_start fs_end fs_sep_end].
    replace (str_len pre + (str_len (lead rest) + str_len w))%nat with (str_len (pre ++ lead rest ++ w)) by (rewrite !str_len_app; lia).
    pose proof (laid_next pre (lead rest ++ w) (lead gap_rest) (trim_start gap_rest ++ sep) _ Hlaid) as Hn. assert (Hs' : rest ++ sep = (lead rest ++ w) ++ lead gap_rest ++ trim_start gap_rest ++ sep) by (rewrite Hrest at 1; by rewrite <- !app_assoc). by rewrite Hs'.
Qed.

(** The slices of a field. *)
Lemma field_slices pre item sep rest : str_slice (pre ++ item ++ sep ++ rest) (str_len pre) (str_len (pre ++ item)) = Some item
  /\ str_slice (pre ++ item ++ sep ++ rest) (str_len (pre ++ item)) (str_len (pre ++ item ++ sep)) = Some sep
  /\ str_slice (pre ++ item ++ sep ++ rest) (str_len pre) (str_len (pre ++ item ++ sep)) = Some (item ++ sep).
Proof.
  split; [apply slice_mid|]. split.
  - replace (pre ++ item ++ sep ++ rest) with ((pre ++ item ++ sep) ++ rest) by (by rewrite <- !app_assoc). apply slice_behind. by rewrite <- !app_assoc.
  - rewrite (app_assoc item sep rest). apply slice_mid.
Qed.

Lemma read_spans_ok pre s spans : laid pre s (map of_field spans) -> no_lf (pre ++ s) -> Forall (fun span => exists field, read_span (pre ++ s) span = Some field /\ forall f, field = Some f -> no_lf f) spans.
Proof.
  revert pre s. induction spans as [|span spans IH]; intros pre s Hl Hs; [constructor|]. cbn [map] in Hl. apply laid_inv in Hl as (item & sep & rest & -> & Ht & Hl).
  destruct (field_slices pre item sep rest) as (H1 & _). unfold of_field in Ht. injection Ht as Ha Hb Hc. constructor.
  - unfold read_span. rewrite Ha, Hb, H1. cbn [mbind option_bind]. destruct (split_list_ok item) as (fields & -> & Hf). cbn. eexists. split; [done|]. intros f Hlast. eapply last_lf; [done|]. apply Hf.
    unfold no_lf in *. rewrite !Forall_app in Hs. by destruct Hs as (_ & ? & _).
  - specialize (IH (pre ++ item ++ sep) rest Hl). rewrite <- !app_assoc in IH. by apply IH.
Qed.

Lemma read_fields_ok value spans : laid [] value (map of_field spans) -> no_lf value -> exists fields, read_fields value spans = Some fields.
Proof.
  intros Hl Hv. pose proof (read_spans_ok [] value spans Hl Hv) as Hr. cbn [app] in Hr. unfold read_fields. clear Hl. induction Hr as [|span spans (field & Hf & _) Hr (fields & IH)]; [cbn; eauto|].
  cbn [mapM]. rewrite Hf. cbn [mbind option_bind]. destruct (mapM (read_span value) spans) as [fs|]; cbn in *; [|done]. eauto.
Qed.

Lemma first_read_ok value spans : Forall (fun span => exists field, read_span value span = Some field /\ forall f, field = Some f -> no_lf f) spans -> forall before,
  first_read value before spans = Some None \/ exists b span field behind, first_read value before spans = Some (Some (b, span, field, behind)) /\ before ++ spans = b ++ span :: behind.
Proof.
  induction 1 as [|span spans (field & Hf & _) Hr IH]; intros before; cbn [first_read]; [by left|]. rewrite Hf. cbn [mbind option_bind]. destruct field as [field|].
  - right. by exists before, span, field, spans.
  - destruct (IH (before ++ [span])) as [Hn|(b & sp & fd & bh & Hb & He)]; [by left|]. right. exists b, sp, fd, bh. by rewrite <- app_assoc in He.
Qed.

Lemma words_of_type_ok value spans : laid [] value (map of_field spans) -> no_lf value -> exists spans', words_of_type_field value spans = Some spans' /\ laid [] value (map of_field spans').
Proof.
  intros Hl Hv. unfold words_of_type_field. pose proof (read_spans_ok [] value spans Hl Hv) as Hr. cbn [app] in Hr. destruct (first_read_ok value spans Hr []) as [->|(b & span & field & behind & -> & He)]; cbn [mbind option_bind]; [by exists spans|].
  destruct (split_whitespace field) as [|keyword [|w ws]]; [by exists spans|by exists spans|]. case_match; [|by exists spans]. cbn [app] in He. subst spans. rewrite map_app in Hl. cbn [map] in Hl.
  apply laid_app_inv in Hl as (s1 & s2 & -> & Hl1 & Hl2). apply laid_inv in Hl2 as (item & sep & rest & -> & Ht & Hl3). pose proof Ht as Hspan. unfold of_field in Ht. injection Ht as Ha Hb Hc. cbn [app] in *.
  destruct (field_slices s1 item sep rest) as (Hi & _). rewrite Ha, Hb, Hc, Hi. cbn [mbind option_bind]. destruct (words_laid (S (length item)) s1 item sep) as (words & -> & Hw); [lia|]. cbn [mbind option_bind].
  assert (Hsplit : laid [] (s1 ++ item ++ sep ++ rest) (map of_field (b ++ words ++ behind))).
  { rewrite !map_app. apply laid_app; [done|]. cbn [app]. rewrite (app_assoc item). by apply laid_app. }
  destruct (read_fields_ok _ _ Hsplit Hv) as (fields & ->). cbn [mbind option_bind]. eexists. split; [done|]. match goal with |- context [if ?b then _ else _] => destruct b end; [done|].
  rewrite map_app; apply laid_app; [done|]; cbn [app map]; rewrite Hspan; by constructor.
Qed.

Lemma blank_fields_clean fuel : forall pre s spans server index, (length spans <= fuel)%nat -> laid pre s (map of_field spans) -> no_lf (pre ++ s) -> clean (blank_fields fuel (pre ++ s) server index spans).
Proof.
  induction fuel as [|fuel IH]; intros pre s [|span behind] server index Hf Hl Hs; cbn [length] in Hf; try lia; cbn [blank_fields]; try lf.
  cbn [map] in Hl. pose proof (laid_inv _ _ _ _ Hl) as (item & sep & rest & -> & Ht & Hn). unfold of_field in Ht. injection Ht as Ha Hb Hc. destruct (field_slices pre item sep rest) as (H1 & H2 & H3).
  rewrite Ha, Hb, Hc, H1, H3. cbn [mbind option_bind]. destruct (split_list_ok item) as (fields & -> & _). cbn [mbind option_bind].
  assert (Hparts : no_lf item /\ no_lf sep). { unfold no_lf in *. rewrite !Forall_app in Hs. naive_solver. } destruct Hparts as [Hitem Hsep].
  assert (Hon : forall pre' rest' spans' index', pre ++ item ++ sep ++ rest = pre' ++ rest' -> (length spans' <= fuel)%nat -> laid pre' rest' (map of_field spans') -> clean (blank_fields fuel (pre ++ item ++ sep ++ rest) server index' spans')).
  { intros pre' rest' spans' index' He. rewrite He in *. intros. by apply IH. }
  match goal with |- context [match last fields with _ => _ end] => destruct (last fields) as [field|] end; cbn [negb].
  - destruct (blanks server (S index) item field); cbn [negb]; [|apply clean_app; [lf|]; apply (Hon (pre ++ item ++ sep) rest); [by rewrite <- !app_assoc|lia|done]].
    destruct (word span); cbn [mbind option_bind].
    + rewrite Hb, Hc, H2. cbn [mbind option_bind]. apply clean_app; [lf|]. apply (Hon (pre ++ item ++ sep) rest); [by rewrite <- !app_assoc|lia|done].
    + destruct (comma_reach_ok pre (item ++ sep ++ rest) true) as (reach & ->). cbn [mbind option_bind]. rewrite fields_over_is.
      destruct (over_laid of_field reach behind pre span _ Hl) as (body & sep' & rest' & He & Hend & Hse & Hr & Hlen & _). destruct (over of_field reach span behind) as [last_ tail]. unfold of_field in Hend, Hse. cbn [fst snd] in *. rewrite He, Hend, Hse in *.
      destruct (field_slices pre body sep' rest') as (_ & H4 & _). rewrite H4. cbn [mbind option_bind]. apply clean_app; [|apply (Hon (pre ++ body ++ sep') rest'); [by rewrite <- !app_assoc|lia|done]].
      assert (no_lf sep') by (unfold no_lf in *; rewrite !Forall_app in Hs; naive_solver). lf.
  - apply clean_app; [lf|]. apply (Hon (pre ++ item ++ sep) rest); [by rewrite <- !app_assoc|lia|done].
Qed.

Lemma redact_positional_clean s : no_lf s -> clean (redact_positional_credentials s).
Proof.
  intros Hs. unfold redact_positional_credentials. destruct (item_spans_up s true) as (spans & -> & Hu). cbn [mbind option_bind]. apply cut_laid in Hu.
  destruct (words_of_type_ok s (map field_span spans)) as (fields & -> & Hl); [by rewrite map_map|done|]. cbn [mbind option_bind]. destruct (read_fields_ok s fields Hl Hs) as (read & ->). cbn [mbind option_bind].
  case_match; [lf|]. by apply (blank_fields_clean (length fields) [] s).
Qed.

(** ** Entries and directives *)

Lemma redact_definition_clean s : no_lf s -> clean (redact_definition s).
Proof. intros Hs. unfold redact_definition. eapply clean_bind; [by apply redact_items_clean|]. intros t Ht. eapply clean_bind; [by apply redact_positional_clean|]. lf. Qed.

#[export] Hint Resolve redact_definition_clean : lf.

Lemma redact_both_ways_clean s : no_lf s -> clean (redact_both_ways s).
Proof.
  intros Hs. unfold redact_both_ways. eapply clean_bind; [lf|]. intros whole Hw. destruct (find_char is_equals whole) as [[front [|sign tail]]|] eqn:Hf; [lf| |lf].
  apply no_lf_find_char in Hf as [Hf Ht]; [|done]. apply Forall_cons in Ht as [? Ht]. apply clean_app; lf.
Qed.

Lemma colon_key_lf before text tail entry : colon_key before text tail = Some entry -> no_lf before -> no_lf text -> no_lf tail -> no_lf (key_text entry) /\ sep entry <> 10 /\ no_lf (key_value entry).
Proof.
  intros He Hb Ht Hl. revert before He Hb. induction Ht as [|c text Hc Ht IH]; intros before; cbn [colon_key]; [done|]. destruct (if is_colon c then line_key before else None) as [[kind al]|].
  - intros [= <-] Hb. cbn. split; [done|]. split; [done|]. lf.
  - intros He Hb. eapply IH; [done|]. lf.
Qed.

Lemma key_line_lf s entry : key_line s = Some entry -> no_lf s -> no_lf (key_text entry) /\ sep entry <> 10 /\ no_lf (key_value entry).
Proof.
  unfold key_line. intros He Hs. assert (Hparts : no_lf (default (s, []) (find_char is_equals s)).1 /\ no_lf (default (s, []) (find_char is_equals s)).2).
  { destruct (find_char is_equals s) as [[a b]|] eqn:Hf; cbn; [by eapply no_lf_find_char|]. by split; [|constructor]. }
  destruct (default (s, []) (find_char is_equals s)) as [front rest]. cbn [fst snd] in Hparts. destruct Hparts as [Hf Hr]. destruct (colon_key [] front rest) as [e|] eqn:Hc; [injection He as <-; eapply colon_key_lf; [done|lf|done|done]|].
  destruct Hr as [|sp value Hsp Hv]; [done|]. destruct (next_comma front true); [done|]. destruct (line_key front) as [[kind al]|]; cbn in He; [|done]. by injection He as <-.
Qed.

Lemma redact_entry_clean s : no_lf s -> clean (redact_entry s).
Proof.
  intros Hs. unfold redact_entry. destruct (key_line s) as [entry|] eqn:Hk; [destruct (key_line_lf _ _ Hk Hs) as (? & ? & ?); by apply redact_key_line_clean|].
  destruct (find_char is_equals s) as [[key [|sign value]]|] eqn:Hf; [lf| |lf]. apply no_lf_find_char in Hf as [Hf Ht]; [|done]. apply Forall_cons in Ht as [? Ht].
  destruct (item_spans_up key true) as (spans & -> & _). cbn [mbind option_bind]. case_match; [by apply redact_both_ways_clean|]. apply clean_app; lf.
Qed.

Lemma each_word_lf shown s : (forall t, no_lf t -> no_lf (shown t)) -> no_lf s -> no_lf (each_word s shown).
Proof.
  intros Hf Hs. unfold each_word. assert (Hw : no_lf []) by constructor. revert Hw. generalize (@nil Z). induction Hs as [|c s Hc Hs IH]; intros w Hw; cbn [each_word_from]; [case_bool_decide; [constructor|by apply Hf]|].
  case_match; [|apply IH; lf]. apply no_lf_app; [case_bool_decide; [constructor|by apply Hf]|]. apply no_lf_cons; [done|]. apply IH. constructor.
Qed.

Lemma managed_word_lf w : no_lf w -> no_lf (managed_word w).
Proof. intros Hw. unfold managed_word. case_match; lf. Qed.

Lemma link_hidden_lf w : no_lf w -> no_lf (link_hidden w).
Proof. intros Hw. unfold link_hidden. case_match; lf. Qed.

Lemma directive_name_lf s : no_lf s -> no_lf (directive_name s).
Proof. intros Hs. unfold directive_name, strip_prefix_str. case_match; [|constructor]. apply no_lf_app; [by repeat constructor|]. case_match; simplify_eq. lf. Qed.

#[export] Hint Resolve redact_entry_clean each_word_lf managed_word_lf link_hidden_lf directive_name_lf : lf.

Lemma redact_directive_clean s : no_lf s -> clean (redact_directive s).
Proof.
  intros Hs. unfold redact_directive. case_bool_decide; [apply clean_some, no_lf_app; [lf|]; apply each_word_lf; [apply managed_word_lf|lf]|].
  eapply clean_bind; [lf|]. intros shown Hsh. case_bool_decide; [lf|]. case_bool_decide; [apply clean_app; [lf|]; apply hide_include_clean; lf|]. apply clean_some, no_lf_app; [lf|]. apply each_word_lf; [apply link_hidden_lf|lf].
Qed.

Lemma redact_core_clean s : no_lf s -> clean (redact_core s).
Proof. intros Hs. unfold redact_core. case_match; [by apply redact_directive_clean|lf]. Qed.

(** ** The parts of a line *)

Lemma comment_marker_pos s n : comment_marker s = Some n -> (0 < n)%nat /\ s <> [].
Proof. unfold comment_marker. destruct (is_comment s) eqn:Hc; [|done]. intros [= <-]. split; [case_match; lia|]. by intros ->. Qed.

Lemma requirement_prefix_pos s n : requirement_prefix s = Some n -> (0 < n)%nat /\ s <> [].
Proof.
  unfold requirement_prefix. destruct (is_requirement_prefix s) eqn:Hp; [|done]. cbn [negb]. intros Hn. split; [|by intros ->]. repeat case_match; simplify_eq. by apply Nat.ltb_lt.
Qed.

Lemma strip_front_clean fuel : forall shown rest commented, (length rest <= fuel)%nat -> no_lf shown -> no_lf rest ->
  exists s r c, strip_front fuel shown rest commented = Some (s, r, c) /\ no_lf s /\ no_lf r.
Proof.
  induction fuel as [|fuel IH]; intros shown rest commented Hf Hs Hr; cbn [strip_front]; set (body := drop_while is_blank rest);
    assert (Hb : no_lf body) by (unfold body; lf); assert (Hsh : no_lf (shown ++ lead_by is_blank rest)) by (unfold lead_by; lf); assert (Hl : (length body <= length rest)%nat) by apply drop_while_length;
    destruct (match comment_marker body with Some n => Some (n, true) | None => n ← requirement_prefix body; Some (n, commented) end) as [[kept c]|] eqn:Hk; try (by eexists _, _, _).
  - exfalso. assert (Hn : body <> []); [|destruct body; [done|cbn in Hl; lia]].
    destruct (comment_marker body) eqn:Hc; [by apply comment_marker_pos in Hc as [_ ?]|]. destruct (requirement_prefix body) eqn:Hp; [by apply requirement_prefix_pos in Hp as [_ ?]|done].
  - assert (Hn : (0 < kept)%nat /\ body <> []).
    { destruct (comment_marker body) eqn:Hc; [simplify_eq; by apply comment_marker_pos|]. destruct (requirement_prefix body) eqn:Hp; cbn in Hk; [simplify_eq; by apply requirement_prefix_pos|done]. }
    apply IH; [|lf|lf]. rewrite length_drop. destruct body; [naive_solver|]. cbn [length] in *. lia.
Qed.

Lemma hide_comment_text_lf s : no_lf s -> no_lf (hide_comment_text s).
Proof. intros Hs. unfold hide_comment_text, lead_by. cbv zeta. case_bool_decide; [done|]. apply no_lf_app; [lf|]. apply no_lf_app; [lf|]. apply no_lf_app; lf. Qed.

Lemma redact_content_clean inner s : (forall f, inner = Some f -> forall t, no_lf t -> clean (f t)) -> no_lf s -> clean (redact_content inner s).
Proof.
  intros Hin Hs. unfold redact_content. destruct (match split_line_at (strip_inline_comment s) with Ok (_, (at_, body)) => (at_, at_ + length body)%nat | Err _ => (0, length (strip_inline_comment s))%nat end) as [st en].
  eapply clean_bind; [|intros comment Hc; eapply clean_bind; [apply redact_core_clean; lf|]; intros core Hcore; eapply clean_bind; [apply redact_by_name_clean; lf|]; intros behind Hb; apply clean_some; lf].
  case_bool_decide; [apply clean_some; lf|]. case_match; [apply clean_some, hide_comment_text_lf; lf|]. destruct inner as [inner|]; [apply (Hin inner eq_refl); lf|]. eapply clean_bind; [apply redact_by_name_clean; lf|]. lf.
Qed.

Lemma look_alike_suffix name s behind : look_alike name s = Some behind -> no_lf s -> no_lf behind.
Proof.
  revert s. induction name as [|m name IH]; intros s Hk Hs; cbn [look_alike] in Hk; [by injection Hk as <-|]. induction Hs as [|c s Hc Hs IHs]; [done|]. cbn in Hk. case_match; [by apply IHs|]. case_match; [by eapply IH|done].
Qed.

Lemma redact_text_clean left_ s : no_lf s -> clean (redact_text left_ s).
Proof.
  revert s. induction left_ as [|left_ IH]; intros s Hs; cbn [redact_text]; destruct (strip_front_clean (length s) [] s false) as (shown & rest & commented & -> & Hsh & Hr); try done; try (by constructor); cbn [mbind option_bind].
  all: eapply clean_bind; [|intros part Hp; eapply clean_bind; [|intros part' Hp'; eapply clean_bind; [apply hide_url_credentials_clean; lf|intros; case_match; lf]]; case_match; lf].
  all: destruct (if commented then managed_look_alike rest else None) as [[name words]|] eqn:Hm.
  1, 3: destruct commented; [|done]; unfold managed_look_alike in Hm; destruct (look_alike _ _) as [b|] eqn:Hb; cbn in Hm; [|done]; injection Hm as <- <-;
    apply look_alike_suffix in Hb; [|destruct rest as [|[|[]|] ?]; try done; repeat case_match; try done; by apply Forall_cons in Hr as [_ ?]]; apply clean_some, no_lf_app; [lf|]; apply each_word_lf; [apply managed_word_lf|done].
  all: destruct (is_directive_line rest); [by apply redact_directive_clean|]; apply redact_content_clean; [|done]; intros f Hf; simplify_eq; done.
Qed.

Lemma redact_line_clean s : no_lf s -> clean (redact_line s).
Proof.
  intros Hs. unfold redact_line, redact_body. destruct (strip_suffix 13 s) as [rest|] eqn:Hr; [|by apply redact_text_clean].
  assert (no_lf rest) by (unfold strip_suffix in Hr; repeat case_match; simplify_eq; lf). eapply clean_bind; [by apply redact_text_clean|]. intros body Hb. apply clean_some. lf.
Qed.

(** Redaction of a profile never panics or runs on, whatever the text: every
    line is shown, as one line, so that the lines of the redacted profile are those
    of the profile one by one and the numbers of a diagnostic still fit. *)
Theorem redaction_keeps_the_lines text : exists out, redact_profile text = Some out /\ Forall2 (fun line shown => redact_line line = Some shown) (split_on 10 text) (split_on 10 out).
Proof.
  unfold redact_profile. pose proof (split_on_pieces 10 text) as Hp. pose proof (split_on_not_nil 10 text) as Hne.
  assert (Hm : exists lines, mapM redact_line (split_on 10 text) = Some lines /\ Forall no_lf lines).
  { clear Hne. induction Hp as [|line lines Hl Hp (shown & Hm & Hs)]; [by exists []|]. cbn [mapM]. destruct (redact_line_clean line Hl) as (s & -> & Hs'). cbn [mbind option_bind]. rewrite Hm. cbn. eexists. split; [done|]. by constructor. }
  destruct Hm as (lines & Hm & Hl). rewrite Hm. cbn [mbind option_bind]. eexists. split; [done|]. apply mapM_Some in Hm.
  replace (split_on 10 (join_with 10 lines)) with lines; [done|]. symmetry. apply split_join; [|done]. intros ->. apply Forall2_nil_inv_r in Hm. done.
Qed.
