(* ===== verification/RedactProps.v ===== *)
(** * What is redacted does not tell the secret

    A list is redacted in regions: an item, with the items after it that the older
    reading of commas takes along.  A policy's line is shown the same whatever the
    regions that begin with a secret parameter are, and a line of a secret key
    whatever its value is.  Which items are left shown is told: a quote in the
    middle of a value takes items along and hides them too. *)

From S2P Require Import Prelude RuleMatcher Requirement RequirementProps Values ItemFields ProfileText Managed Include Redact RedactTotal.

Example redact_example : redact_profile (lit "[General]" ++ [10] ++ lit "http-api = s3cret@127.0.0.1:6171" ++ [10] ++ lit "HK = ss, 1.2.3.4, 8388, password=x1, udp-relay=true" ++ [13; 10] ++ lit "ProxyA = https, 1.2.3.4, 443, carol, trustno1 # https://u:p@h/t")
  = Some (lit "[General]" ++ [10] ++ lit "http-api = ***@127.0.0.1:6171" ++ [10] ++ lit "HK = ss, 1.2.3.4, 8388, password=***, udp-relay=true" ++ [13; 10] ++ lit "ProxyA = https, 1.2.3.4, 443, ***, *** # https://***@h/***").
Proof. vm_compute. reflexivity. Qed.

(** ** Commas, as lists were read once *)

(** What that reading's loop is left in after a text without a comma it would
    stop at. *)
Fixpoint comma_state (depth : nat) (quote : option Z) (skip : bool) (w : rstr) : option (nat * option Z * bool) :=
  match w with
  | [] => Some (depth, quote, skip)
  | c :: w =>
      if skip then comma_state depth quote false w
      else match quote with
      | Some q => if (c =? 92) && (q =? 34) then comma_state depth quote true w else comma_state depth (if c =? q then None else Some q) false w
      | None =>
          if is_quote c then comma_state depth (Some c) false w
          else if c =? 40 then comma_state (S depth) None false w
          else if c =? 41 then comma_state (pred depth) None false w
          else if (c =? 44) && (depth =? 0)%nat then None
          else comma_state depth None false w
      end
  end.

(** The text of one item by that reading too. *)
Definition settled (w : rstr) : bool := bool_decide (comma_state 0 None false w = Some (0%nat, None, false)).

Lemma comma_state_app a b : forall d q sk, comma_state d q sk (a ++ b) = '(d, q, sk) ← comma_state d q sk a; comma_state d q sk b.
Proof. induction a as [|c a IH]; intros d q sk; [done|]. cbn [app comma_state]. repeat case_match; try apply IH; done. Qed.

Lemma next_comma_run w rest : forall d q sk d' q' sk', comma_state d q sk w = Some (d', q', sk') ->
  next_comma_from false d q sk (w ++ rest) = '(a, b) ← next_comma_from false d' q' sk' rest; Some (w ++ a, b).
Proof.
  induction w as [|c w IH]; intros d q sk d' q' sk' Hw; cbn [comma_state] in Hw.
  - injection Hw as -> -> ->. cbn [app]. by destruct (next_comma_from false d' q' sk' rest) as [[a b]|].
  - cbn [app next_comma_from]. assert (Hon : forall d q sk, comma_state d q sk w = Some (d', q', sk') -> ('(a, b) ← next_comma_from false d q sk (w ++ rest); Some (c :: a, b)) = '(a, b) ← next_comma_from false d' q' sk' rest; Some (c :: w ++ a, b)).
    { intros d0 q0 sk0 H0. rewrite (IH _ _ _ _ _ _ H0). by destruct (next_comma_from false d' q' sk' rest) as [[a b]|]. }
    rewrite andb_false_r. repeat case_match; try (by apply Hon); done.
Qed.

Lemma settled_next w rest : settled w = true -> next_comma (w ++ 44 :: rest) false = Some (w, 44 :: rest) /\ next_comma w false = None.
Proof.
  intros Hw%bool_decide_eq_true. unfold next_comma. split.
  - rewrite (next_comma_run _ _ _ _ _ _ _ _ Hw). cbn. by rewrite app_nil_r.
  - rewrite <- (app_nil_r w). by rewrite (next_comma_run _ _ _ _ _ _ _ _ Hw).
Qed.

Lemma settled_white l d : forallb is_whitespace l = true -> comma_state d None false l = Some (d, None, false).
Proof.
  induction l as [|c l IH]; [done|]. cbn [forallb comma_state]. intros [Hc Hl]%andb_true_iff. unfold is_whitespace in Hc. unfold is_quote.
  replace ((c =? 39) || (c =? 34)) with false by lia. replace (c =? 40) with false by lia. replace (c =? 41) with false by lia. replace (c =? 44) with false by lia. by apply IH.
Qed.

Lemma escape_state v d : comma_state d (Some 34) false (escape v) = Some (d, Some 34, false).
Proof.
  induction v as [|c v IH]; [done|]. cbn [escape]. destruct ((c =? 34) || (c =? 92)) eqn:Hc.
  - cbn [comma_state]. change ((92 =? 92) && (34 =? 34)) with true. cbn [comma_state]. exact IH.
  - apply orb_false_iff in Hc as [H1 H2]. cbn [comma_state]. by rewrite H1, H2.
Qed.

Lemma in_quotes_state v d : comma_state d None false (in_quotes v) = Some (d, None, false).
Proof. unfold in_quotes. cbn [comma_state]. change (is_quote 34) with true. cbv iota. by rewrite comma_state_app, escape_state. Qed.

(** What the reading stops at, it stops at with more text behind. *)
Lemma next_comma_more x w : forall d q sk b r, next_comma_from false d q sk w = Some (b, r) -> w = b ++ r /\ next_comma_from false d q sk (w ++ x) = Some (b, r ++ x).
Proof.
  induction w as [|c w IH]; intros d q sk b r; cbn [next_comma_from app]; [done|].
  assert (Hon : forall d q sk, ('(a, b) ← next_comma_from false d q sk w; Some (c :: a, b)) = Some (b, r) -> c :: w = b ++ r /\ ('(a, b) ← next_comma_from false d q sk (w ++ x); Some (c :: a, b)) = Some (b, r ++ x)).
  { intros d0 q0 sk0. destruct (next_comma_from false d0 q0 sk0 w) as [[b' r']|] eqn:Hn; [|done]. intros [= <- <-]. destruct (IH _ _ _ _ _ Hn) as [-> ->]. done. }
  rewrite andb_false_r. repeat case_match; by (apply Hon || intros [= <- <-]).
Qed.

Lemma next_comma_none w : forall d q sk, next_comma_from false d q sk w = None -> exists s, comma_state d q sk w = Some s.
Proof.
  induction w as [|c w IH]; intros d q sk; cbn [next_comma_from comma_state]; [eauto|]. rewrite andb_false_r.
  assert (Hon : forall d q sk, ('(a, b) ← next_comma_from false d q sk w; Some (c :: a, b)) = None -> exists s, comma_state d q sk w = Some s) by (intros d0 q0 sk0; destruct (next_comma_from false d0 q0 sk0 w) as [[a b]|] eqn:Hn; [done|eauto]).
  repeat case_match; by try apply Hon.
Qed.

(** ** The regions of a list *)

(** Items that the reading of commas takes together: it stops behind the start of
    the last of them; or else it is through them all, and takes nothing along that
    follows. *)
Definition region_ends (ws : list rstr) (last_ : bool) : Prop :=
  match next_comma (join_with 44 ws) false with
  | Some (b, _) => removelast ws = [] \/ (str_len (join_with 44 (removelast ws)) < str_len b)%nat
  | None => last_ = true \/ settled (join_with 44 ws) = true
  end.

Definition is_end {A} (l : list A) : bool := match l with [] => true | _ => false end.

(** Lists cut in regions. *)
Fixpoint in_regions (gs : list (list rstr)) : Prop :=
  match gs with [] => True | g :: gs => g <> [] /\ region_ends g (is_end gs) /\ in_regions gs end.

Lemma join_app (g ws : list rstr) : g <> [] -> join_with 44 (g ++ ws) = join_with 44 g ++ match ws with [] => [] | _ => 44 :: join_with 44 ws end.
Proof.
  induction g as [|w [|w' g] IH]; intros Hne; [done|destruct ws; cbn [app join_with]; by rewrite ?app_nil_r|]. cbn [app]. rewrite !join_with_cons. cbn [app] in IH. rewrite IH by done. by rewrite <- app_assoc.
Qed.

Lemma join_concat gs : Forall (fun g => g <> []) gs -> join_with 44 (List.concat gs) = join_with 44 (map (join_with 44) gs).
Proof.
  induction 1 as [|g gs Hg Hgs IH]; [done|]. cbn [List.concat map]. rewrite join_app, IH by done. destruct gs as [|g' gs]; [cbn; by rewrite app_nil_r|]. cbn [List.concat map]. rewrite (join_with_cons 44 (join_with 44 g)).
  apply Forall_inv in Hgs. destruct g' as [|w g']; [done|]. done.
Qed.

Lemma in_regions_some gs : in_regions gs -> Forall (fun g => g <> []) gs.
Proof. induction gs as [|g gs IH]; [done|]. intros (Hg & _ & Hgs). constructor; auto. Qed.

Lemma removelast_join (w : rstr) ws : ws <> [] -> (str_len w <= str_len (join_with 44 (removelast (w :: ws))))%nat.
Proof. destruct ws as [|w' ws]; [done|]. intros _. change (removelast (w :: w' :: ws)) with (w :: removelast (w' :: ws)). destruct (removelast (w' :: ws)); [done|]. rewrite join_with_cons, str_len_app. lia. Qed.

(** Where the reading stops, from the start of a region. *)
Definition stops (rem : rstr) : nat := match next_comma rem false with Some (b, _) => str_len b | None => str_len rem end.

Lemma region_stops g ws : g <> [] -> region_ends g (is_end ws) -> let s := stops (join_with 44 (g ++ ws)) in
  (removelast g = [] \/ (str_len (join_with 44 (removelast g)) < s)%nat) /\ (ws = [] \/ (s <= str_len (join_with 44 g))%nat).
Proof.
  intros Hne Hr. unfold stops, region_ends in *. rewrite join_app by done. set (r := join_with 44 g) in *. set (x := match ws with [] => [] | _ => _ end).
  assert (Hlast : removelast g = [] \/ (str_len (join_with 44 (removelast g)) < str_len r)%nat).
  { destruct (decide (removelast g = [])) as [|Hg]; [by left|]. right. subst r. rewrite (app_removelast_last [] Hne) at 2. rewrite join_app by done. cbn [join_with]. rewrite str_len_app. cbn [str_len]. rewrite str_len_cons. pose proof (len_utf8_pos 44). lia. }
  destruct (next_comma r false) as [[b t]|] eqn:Hn.
  - destruct (next_comma_more x r _ _ _ _ _ Hn) as [Hb Hx]. unfold next_comma. rewrite Hx. split; [done|]. right. rewrite Hb, str_len_app. lia.
  - destruct ws as [|w ws]; [subst x; rewrite app_nil_r, Hn; split; [done|by left]|]. destruct Hr as [|Hr]; [done|]. subst x. destruct (settled_next r (join_with 44 (w :: ws)) Hr) as [-> _]. split; [done|by right].
Qed.

(** Every list is cut in regions, in one way that the loop finds. *)
Lemma region_found (todo : list rstr) : forall seen, seen <> [] ->
  (removelast seen = [] \/ forall b r, next_comma (join_with 44 seen) false = Some (b, r) -> (str_len (join_with 44 (removelast seen)) < str_len b)%nat) ->
  exists g ws, seen ++ todo = g ++ ws /\ g <> [] /\ region_ends g (is_end ws).
Proof.
  induction todo as [|w todo IH]; intros seen Hne Hp.
  - exists seen, []. split; [done|]. split; [done|]. unfold region_ends. destruct (next_comma _ false) as [[b r]|] eqn:Hn; [|by left]. destruct Hp as [|Hp]; [by left|]. right. by eapply Hp.
  - destruct (next_comma (join_with 44 seen) false) as [[b r]|] eqn:Hn.
    + exists seen, (w :: todo). split; [done|]. split; [done|]. unfold region_ends. rewrite Hn. destruct Hp as [|Hp]; [by left|]. right. by eapply Hp.
    + destruct (settled (join_with 44 seen)) eqn:Hs; [exists seen, (w :: todo); split; [done|]; split; [done|]; unfold region_ends; rewrite Hn; by right|].
      destruct (IH (seen ++ [w])) as (g & ws & Heq & Hg); [by destruct seen| |rewrite <- app_assoc in Heq; by exists g, ws]. right. intros b r. rewrite removelast_last, join_app by done. cbn [join_with].
      unfold next_comma in *. destruct (next_comma_none _ _ _ _ Hn) as ([[d q] sk] & Hst). rewrite (next_comma_run _ _ _ _ _ _ _ _ Hst). unfold settled in Hs. apply bool_decide_eq_false in Hs.
      assert (Hlt : forall o : option (rstr * rstr), ('(a, b) ← ('(a, b) ← o; Some (44 :: a, b)); Some (join_with 44 seen ++ a, b)) = Some (b, r) -> (str_len (join_with 44 seen) < str_len b)%nat).
      { intros [[a b']|]; [|done]. intros [= <- <-]. rewrite str_len_app, str_len_cons. pose proof (len_utf8_pos 44). lia. }
      cbn [next_comma_from]. rewrite andb_false_r. change (is_quote 44) with false. change (44 =? 40) with false. change (44 =? 41) with false. change (44 =? 92) with false. cbn [andb]. destruct sk; [apply Hlt|]. destruct q as [q|]; [apply Hlt|].
      destruct d as [|d]; [congruence|]. apply Hlt.
Qed.

Lemma regions_exist n : forall ws : list rstr, (length ws <= n)%nat -> exists gs, List.concat gs = ws /\ in_regions gs.
Proof.
  induction n as [|n IH]; intros [|w ws] Hn; cbn [length] in Hn; [by exists []|lia|by exists []|].
  destruct (region_found ws [w]) as (g & ws' & Heq & Hg & Hr); [done|by left|]. cbn [app] in Heq. destruct (IH ws') as (gs & Hgs & Hin).
  - apply (f_equal length) in Heq. rewrite length_app in Heq. cbn [length] in Heq. destruct g; [done|]. cbn [length] in Heq. lia.
  - exists (g :: gs). split; [cbn; by rewrite Hgs|]. split; [done|]. split; [|done]. destruct ws' as [|w' ws'], gs as [|[|? ?] gs]; done || (destruct Hin; done).
Qed.

(** ** A list is redacted region by region *)

(** The regions where [gs] are, behind [pre]. *)
Fixpoint group_regions (pre : rstr) (gs : list (list rstr)) : list Region :=
  match gs with
  | [] => []
  | g :: gs =>
      let end_ := str_len (pre ++ join_with 44 g) in
      mkRegion (str_len pre) (str_len (pre ++ default [] (head g))) end_ (if is_end gs then end_ else end_ + 1) :: group_regions (pre ++ join_with 44 g ++ [44]) gs
  end.

Lemma spans_of_cons pre w ws : spans_of pre (w :: ws) = Values.mkSpan (str_len pre) (str_len (pre ++ w)) (if is_end ws then str_len (pre ++ w) else str_len (pre ++ w) + 1) (Nat.add (str_len pre) <$> eq_of w) :: spans_of (pre ++ w ++ [44]) ws.
Proof. by destruct ws. Qed.

(** What a reach takes along. *)
Lemma reach_over_spans reach more ws : forall pre w span, end_ span = str_len (pre ++ w) -> sep_end span = (if is_end (more ++ ws) then str_len (pre ++ w) else str_len (pre ++ w) + 1)%nat ->
  (more = [] \/ (str_len (pre ++ join_with 44 (removelast (w :: more))) < reach)%nat) -> (ws = [] \/ (reach <= str_len (pre ++ join_with 44 (w :: more)))%nat) ->
  exists sp, reach_over reach span (spans_of (pre ++ w ++ [44]) (more ++ ws)) = (sp, spans_of (pre ++ join_with 44 (w :: more) ++ [44]) ws)
    /\ end_ sp = str_len (pre ++ join_with 44 (w :: more)) /\ sep_end sp = (if is_end ws then str_len (pre ++ join_with 44 (w :: more)) else str_len (pre ++ join_with 44 (w :: more)) + 1)%nat.
Proof.
  induction more as [|m more IH]; intros pre w span He Hs Hlo Hhi.
  - cbn [app join_with] in *. exists span. split; [|done]. destruct ws as [|w' ws]; [done|]. rewrite spans_of_cons. cbn [reach_over]. destruct Hhi as [|Hhi]; [done|]. by rewrite He, (proj2 (Nat.ltb_ge _ _)).
  - cbn [app]. rewrite spans_of_cons. cbn [reach_over]. destruct Hlo as [|Hlo]; [done|].
    assert (Hlt : (end_ span < reach)%nat) by (rewrite He; pose proof (removelast_join w (m :: more) ltac:(done)); rewrite str_len_app in *; lia).
    rewrite (proj2 (Nat.ltb_lt _ _)) by done. rewrite join_with_cons in *. replace (pre ++ w ++ 44 :: join_with 44 (m :: more)) with ((pre ++ w ++ [44]) ++ join_with 44 (m :: more)) in * by (by simplify_list_eq).
    replace (pre ++ (w ++ 44 :: join_with 44 (m :: more)) ++ [44]) with ((pre ++ w ++ [44]) ++ join_with 44 (m :: more) ++ [44]) by (by simplify_list_eq).
    eapply IH; [done|done| |done]. destruct more as [|m' more]; [by left|]. right. revert Hlo. change (removelast (w :: m :: m' :: more)) with (w :: m :: removelast (m' :: more)). change (removelast (m :: m' :: more)) with (m :: removelast (m' :: more)).
    rewrite join_with_cons. by simplify_list_eq.
Qed.

Lemma regions_joined gs : forall pre fuel, in_regions gs -> (length gs <= fuel)%nat ->
  regions_from fuel (pre ++ join_with 44 (List.concat gs)) (spans_of pre (List.concat gs)) = Some (group_regions pre gs).
Proof.
  induction gs as [|g gs IH]; intros pre [|fuel] Hin Hf; cbn [length] in Hf; try done; try lia. destruct Hin as (Hg & Hr & Hin). cbn [List.concat].
  assert (Hend : is_end gs = is_end (List.concat gs)) by (destruct gs as [|[|x g'] gs]; try done; by destruct Hin). rewrite Hend in Hr. pose proof (region_stops g (List.concat gs) Hg Hr) as [Hlo Hhi].
  destruct g as [|w more]; [done|]. set (ws := List.concat gs) in *. cbn [app]. rewrite spans_of_cons. cbn [regions_from start]. unfold comma_reach. rewrite drop_bytes_app. cbn [mbind option_bind].
  assert (Hreach : match next_comma (join_with 44 (w :: more ++ ws)) false with Some (b, _) => (str_len pre + str_len b)%nat | None => str_len (pre ++ join_with 44 (w :: more ++ ws)) end = (str_len pre + stops (join_with 44 ((w :: more) ++ ws)))%nat).
  { unfold stops. cbn [app]. rewrite str_len_app. by destruct (next_comma _ false) as [[b r]|]. }
  rewrite Hreach. match goal with |- context [reach_over ?r ?sp (spans_of _ _)] => destruct (reach_over_spans r more ws pre w sp) as (last_ & Hover & He & Hs) end; [done|done| | |].
  { destruct Hlo as [Hlo|Hlo]; [left; by destruct more|]. right. rewrite str_len_app. lia. }
  { destruct Hhi as [Hhi|Hhi]; [by left|right]. rewrite str_len_app. lia. }
  rewrite Hover. cbn [group_regions head default]. rewrite Hend, He, Hs. cbn [end_].
  specialize (IH (pre ++ join_with 44 (w :: more) ++ [44]) fuel Hin ltac:(lia)). fold ws in IH. destruct (decide (ws = [])) as [Hws|Hws].
  - destruct gs as [|g' gs]; [|destruct g' as [|x g']; [by destruct Hin|done]]. rewrite Hws. by destruct fuel.
  - change (w :: more ++ ws) with ((w :: more) ++ ws). rewrite (join_app (w :: more) ws) by done. destruct ws as [|w' ws']; [done|].
    replace (pre ++ join_with 44 (w :: more) ++ 44 :: join_with 44 (w' :: ws')) with ((pre ++ join_with 44 (w :: more) ++ [44]) ++ join_with 44 (w' :: ws')) by (by simplify_list_eq). rewrite IH. done.
Qed.

(** What a list's regions are shown as, with commas between. *)
Lemma shown_joined (shown : rstr -> nat -> option rstr) gs : forall pre, gs <> [] ->
  @List.concat Z <$> mapM (fun r =>
    body ← str_slice (pre ++ join_with 44 (map (join_with 44) gs)) (reg_start r) (reg_end r);
    shown ← shown body (first_end r - reg_start r)%nat;
    sep ← str_slice (pre ++ join_with 44 (map (join_with 44) gs)) (reg_end r) (reg_sep_end r);
    Some (shown ++ sep)) (group_regions pre gs)
  = join_with 44 <$> mapM (fun g => shown (join_with 44 g) (str_len (default [] (head g)))) gs.
Proof.
  induction gs as [|g [|g' gs] IH]; intros pre Hne; [done| |].
  - cbn [map join_with group_regions is_end mapM reg_start first_end reg_end reg_sep_end]. set (w := join_with 44 g). pose proof (field_slices pre w [] []) as (H1 & H2 & _). cbn [app] in H1, H2. rewrite !app_nil_r in H1. rewrite !app_nil_r in H2. rewrite H1, H2. cbn [mbind option_bind].
    rewrite (str_len_app pre (default [] (head g))). replace (str_len pre + str_len (default [] (head g)) - str_len pre)%nat with (str_len (default [] (head g))) by lia. destruct (shown w _) as [t|]; [|done]. cbn. by rewrite !app_nil_r.
  - assert (Hm : mapM (fun g => shown (join_with 44 g) (str_len (default [] (head g)))) (g :: g' :: gs) = t ← shown (join_with 44 g) (str_len (default [] (head g))); ts ← mapM (fun g => shown (join_with 44 g) (str_len (default [] (head g)))) (g' :: gs); Some (t :: ts)) by done. rewrite Hm. clear Hm.
    set (w := join_with 44 g) in *. specialize (IH (pre ++ w ++ [44]) ltac:(done)).
    destruct (mapM (fun g => shown (join_with 44 g) (str_len (default [] (head g)))) (g' :: gs)) as [ts|] eqn:Hts; cbn [map] in *; fold w; rewrite (join_with_cons 44 w); remember (join_with 44 (join_with 44 g' :: map (join_with 44) gs)) as tail_ eqn:Htail;
      remember (g' :: gs) as gs' eqn:Hgs'; cbn [group_regions mapM reg_start first_end reg_end reg_sep_end]; fold w; replace (is_end gs') with false by (by subst gs').
    all: pose proof (field_slices pre w [44] tail_) as (H1 & H2 & _); cbn [app] in H1, H2; replace (str_len (pre ++ w ++ [44])) with (str_len (pre ++ w) + 1)%nat in H2 by (rewrite (app_assoc pre w), (str_len_app (pre ++ w)); done); rewrite H1, H2; cbn [mbind option_bind].
    all: rewrite (str_len_app pre (default [] (head g))); replace (str_len pre + str_len (default [] (head g)) - str_len pre)%nat with (str_len (default [] (head g))) by lia; rewrite <- !app_assoc in IH; cbn [app] in IH.
    all: destruct (shown w (str_len (default [] (head g)))) as [t|]; [|done]; cbn [mbind option_bind]; destruct (mapM _ (group_regions (pre ++ w ++ [44]) gs')) as [parts|]; cbn [mbind option_bind fmap option_fmap option_map] in *; try done.
    injection IH as IH. apply mapM_Some, Forall2_length in Hts. destruct ts as [|t' ts]; [by subst gs'|]. cbn. f_equal. rewrite <- app_assoc. cbn [app]. by rewrite IH.
Qed.

(** Items of a list, written. *)
Definition pieces (g : list Padded) : list rstr := map write_padded g.

(** One region. *)
Definition show_region (left_ : nat) (g : list rstr) : option rstr :=
  if (str_len (default [] (head g)) =? str_len (join_with 44 g))%nat then redact_item (match left_ with 0%nat => None | S left_ => Some (redact_items left_) end) (join_with 44 g)
  else redact_joined (join_with 44 g) (str_len (default [] (head g))).

Lemma length_concat_le (gs : list (list rstr)) : in_regions gs -> (length gs <= length (List.concat gs))%nat.
Proof. induction gs as [|[|w g] gs IH]; [done|by intros [? _]|]. intros (_ & _ & Hin). cbn. rewrite length_app. specialize (IH Hin). lia. Qed.

Lemma redact_items_joined left_ gs : gs <> [] -> in_regions gs -> Forall (Forall whole) gs ->
  redact_items left_ (join_with 44 (List.concat gs)) = join_with 44 <$> mapM (show_region left_) gs.
Proof.
  intros Hne Hin Hw. assert (Hsome := in_regions_some _ Hin). assert (Hall : Forall whole (List.concat gs)) by (clear -Hw; induction Hw; [constructor|]; cbn; by apply Forall_app).
  assert (Hne' : List.concat gs <> []) by (destruct gs as [|[|w g] gs]; [done|by apply Forall_inv in Hsome|done]).
  assert (Hr : regions (join_with 44 (List.concat gs)) = Some (group_regions [] gs)).
  { unfold regions. rewrite item_spans_cuts. cbn [mbind option_bind]. pose proof (joined_cuts _ [] (str_len (join_with 44 (List.concat gs))) Hall Hne' eq_refl) as Hc. cbv zeta in Hc. cbn [str_len sum_list_with] in Hc. rewrite Hc.
    apply (regions_joined gs []); [done|]. etrans; [by apply length_concat_le|]. clear. generalize (List.concat gs) as ws. intros ws. generalize (@nil Z). induction ws as [|w ws IH]; intros pre; [done|]. rewrite spans_of_cons. cbn [length]. specialize (IH (pre ++ w ++ [44])). lia. }
  assert (Hshow : forall shown, show_regions (join_with 44 (List.concat gs)) shown = join_with 44 <$> mapM (fun g => shown (join_with 44 g) (str_len (default [] (head g)))) gs).
  { intros shown. unfold show_regions. rewrite Hr. cbn [mbind option_bind]. pose proof (shown_joined shown gs [] Hne) as Hj. cbn [app] in Hj. rewrite <- join_concat in Hj by done. etrans; [|exact Hj]. by destruct (mapM _ (group_regions [] gs)). }
  unfold show_region. destruct left_; cbn [redact_items]; by rewrite Hshow.
Qed.

(** ** Secret parameters *)

(** A name of [SECRET_PARAMS], in any case. *)
Definition secret_name (k : rstr) : bool := existsb (fun param => eq_ignore_ascii_case k param) SECRET_PARAMS.

(** The shown region that begins with the parameter [k]. *)
Definition hidden (g : list Padded) (k : rstr) : rstr := match head g, last g with Some p, Some l => before p ++ k ++ 61 :: STARS ++ behind l | _, _ => [] end.

(** A parameter's key and how its value is written. *)
Definition written (it : Item) : option (rstr * rstr) := match it with IParam k v => Some (k, v) | IQuotedParam k v => Some (k, in_quotes v) | _ => None end.

Lemma written_item it k w : written it = Some (k, w) -> item_ok it -> write it = k ++ 61 :: w /\ key_ok k /\ solid w = true.
Proof.
  destruct it as [s|s|k' v|k' v]; cbn; intros [= <- <-] Hok; (split; [done|]).
  - by destruct Hok as (Hk & Hs & _).
  - split; [done|]. by apply (solid_cons 34 (escape v ++ [34]) 34 (34 :: escape v)).
Qed.

Lemma key_plain k : key_ok k -> Forall (fun c => c <> 61) k.
Proof. intros (_ & _ & _ & Hp). apply Forall_forall. intros c Hc. rewrite forallb_forall in Hp. specialize (Hp c (proj1 (list_elem_of_In _ _) Hc)). unfold plain_char in Hp. lia. Qed.

Lemma no_group k s : key_ok k -> trim s = s -> (exists w, s = k ++ 61 :: w) -> group_inside s = None.
Proof.
  intros (Hne & _ & _ & Hp) Ht (w & ->). unfold group_inside. rewrite Ht. destruct k as [|c k]; [done|]. cbn [forallb] in Hp. apply andb_true_iff in Hp as [Hc _]. unfold plain_char in Hc. change (lit "(") with [40]. unfold strip_prefix_str. cbn [app starts_with]. replace (40 =? c) with false by lia. done.
Qed.

Lemma padded_parts l s r : forallb is_whitespace l = true -> forallb is_whitespace r = true -> solid s = true -> s <> [] -> lead (l ++ s ++ r) = l /\ trim_start (l ++ s ++ r) = s ++ r /\ body_of (l ++ s ++ r) = s /\ trail_of (l ++ s ++ r) = r.
Proof.
  intros Hl Hr Hs Hne. destruct s as [|c s]; [done|]. pose proof (solid_head _ _ Hs) as Hc.
  assert (H1 : lead (l ++ (c :: s) ++ r) = l /\ trim_start (l ++ (c :: s) ++ r) = (c :: s) ++ r) by (by apply take_while_app).
  destruct H1 as [H1 H2]. split; [done|]. split; [done|]. unfold body_of, trail_of. rewrite H2. unfold trim_end, trim_end_by, trail, trail_by. rewrite reverse_app.
  destruct (last (c :: s)) as [d|] eqn:Hd; [|by apply last_None in Hd]. assert (Hdw : is_whitespace d = false) by (unfold solid in Hs; rewrite Hd in Hs; cbn [head] in Hs; apply andb_true_iff in Hs as [_ Hs]; by apply negb_true_iff).
  apply last_Some in Hd as (t & Ht). rewrite Ht, reverse_snoc. destruct (take_while_app is_whitespace (reverse r) (d :: reverse t)) as [-> ->]; [by apply all_reverse|done|].
  rewrite reverse_involutive. split; [|done]. by rewrite reverse_cons, reverse_involutive.
Qed.

Lemma trim_field_body it : item_ok it -> trim (write it) = write it.
Proof. intros Hok. by apply trim_of_solid, solid_write. Qed.

Lemma secret_field p k w : padded_ok p -> written (item p) = Some (k, w) -> secret_name k = true ->
  split_list (write_padded p) = Some [text (field_of (item p))] /\ (exists v, text (field_of (item p)) = k ++ 61 :: v) /\ secret_key (text (field_of (item p))) = Some k.
Proof.
  intros Hp Hw Hk. destruct (written_item _ _ _ Hw (proj2 (proj2 Hp))) as (Hwr & Hkey & Hsw). pose proof Hkey as (Hne & Hks & _ & Hpl).
  assert (Htext : exists v, text (field_of (item p)) = k ++ 61 :: v) by (destruct (item p); cbn in *; simplify_eq; eauto). split; [|split; [done|]].
  - unfold split_list. pose proof (list_reads [p] ltac:(done) ltac:(by constructor)) as Hread. cbn [map join_with] in Hread. by rewrite Hread.
  - destruct Htext as (v & ->). unfold secret_key, parse_key_value, split_definition. rewrite split_once_app by (by apply key_plain). cbn [mbind option_bind]. rewrite trim_of_solid by done. rewrite bool_decide_eq_false_2 by done. cbv iota. cbn [mbind option_bind]. unfold secret_name in Hk. by rewrite Hk.
Qed.

(** A value that begins with no white space is hidden whole. *)
Lemma hide_secret l k w r by_name : key_ok k -> lead w = [] -> hide_value l (k ++ 61 :: w) r (Some k) by_name = Some (l ++ k ++ 61 :: STARS ++ r).
Proof.
  intros Hkey Hw. pose proof Hkey as (_ & Hks & _ & _). unfold hide_value. rewrite split_once_app by (by apply key_plain). rewrite trim_of_solid by done. by rewrite bool_decide_eq_true_2, Hw by done.
Qed.

Lemma solid_lead c w : is_whitespace c = false -> lead (c :: w) = [].
Proof. intros Hc. unfold lead, lead_by. cbn [take_while]. by rewrite Hc. Qed.

Lemma secret_item inner p k w : padded_ok p -> written (item p) = Some (k, w) -> secret_name k = true -> redact_item inner (write_padded p) = Some (hidden [p] k).
Proof.
  intros Hp Hw Hk. pose proof Hp as (Hl & Hr & Hi). destruct (written_item _ _ _ Hw Hi) as (Hwr & Hkey & Hsw). pose proof Hkey as (Hne & Hks & _ & Hpl).
  destruct (secret_field p k w Hp Hw Hk) as (Hfs & (v & Htext) & Hsk).
  unfold redact_item. rewrite Hfs. cbn [mbind option_bind last]. rewrite Htext in *.
  destruct (padded_parts (before p) (write (item p)) (behind p) Hl Hr (solid_write _ Hi)) as (H1 & H2 & H3 & H4); [rewrite Hwr; by destruct k|]. fold (write_padded p) in H1, H2, H3, H4. rewrite H1, H3, H4.
  rewrite Hsk. assert (Hv : hide_value (before p) (write (item p)) (behind p) (Some k) (redact_by_name (write_padded p)) = Some (hidden [p] k)).
  { rewrite Hwr. apply hide_secret; [done|]. destruct w as [|c w]; [done|]. by apply solid_lead, (solid_head c w). }
  rewrite Hv. destruct inner as [inner|]; [|done]. rewrite (no_group k) by (first [done|by apply trim_field_body|by exists w]).
  replace (group_inside (k ++ 61 :: v)) with (@None rstr); [done|]. symmetry. unfold group_inside. destruct k as [|c k]; [done|]. pose proof (solid_head _ _ Hks) as Hc. cbn [forallb] in Hpl. apply andb_true_iff in Hpl as [Hcp _].
  unfold trim, trim_by. cbn [app drop_while]. rewrite Hc. destruct (trim_end_by is_whitespace (c :: k ++ 61 :: v)) as [|d t] eqn:Ht; [done|].
  assert (Hd : d = c).
  { unfold trim_end_by in Ht. destruct (drop_while_split is_whitespace (reverse (c :: k ++ 61 :: v))) as (b & Hb & _). apply (f_equal reverse) in Hb. rewrite reverse_involutive, reverse_app, Ht in Hb. by injection Hb. }
  subst d. change (lit "(") with [40]. unfold strip_prefix_str. unfold plain_char in Hcp. cbn [starts_with]. replace (40 =? c) with false by lia. done.
Qed.

(** A secret name holds no quote. *)
Lemma secret_unquoted k : secret_name k = true -> forallb (fun c => negb (is_quote c)) k = true.
Proof.
  unfold secret_name. intros (param & Hin & Heq)%existsb_exists. unfold eq_ignore_ascii_case in Heq. apply bool_decide_eq_true in Heq.
  assert (Hall : forallb (fun param => forallb (fun c => negb (is_quote c)) (to_ascii_lowercase param)) SECRET_PARAMS = true) by (by vm_compute).
  rewrite forallb_forall in Hall. specialize (Hall param Hin). rewrite <- Heq in Hall. clear -Hall. unfold to_ascii_lowercase in Hall. induction k as [|c k IH]; [done|]. cbn [map forallb] in *. apply andb_true_iff in Hall as [Hc Hk]. rewrite IH by done.
  unfold is_quote, lower_char, is_upper in *. destruct ((c =? 39) || (c =? 34)) eqn:E; [|done]. exfalso. revert Hc. destruct (_ && _) eqn:E2; lia.
Qed.

Lemma plain_state k : forallb plain_char k = true -> forallb (fun c => negb (is_quote c)) k = true -> comma_state 0 None false k = Some (0%nat, None, false).
Proof.
  induction k as [|c k IH]; [done|]. cbn [forallb comma_state]. intros [Hc Hk]%andb_true_iff [Hq Hk']%andb_true_iff. apply negb_true_iff in Hq. rewrite Hq. unfold plain_char in Hc.
  replace (c =? 40) with false by lia. replace (c =? 41) with false by lia. replace (c =? 44) with false by lia. by apply IH.
Qed.

(** A parameter without a value takes no other item along. *)
Lemma empty_value p k : padded_ok p -> written (item p) = Some (k, []) -> secret_name k = true -> settled (write_padded p) = true.
Proof.
  intros (Hl & Hr & Hi) Hw Hk. destruct (written_item _ _ _ Hw Hi) as (Hwr & (_ & _ & _ & Hpl) & _). unfold settled, write_padded. apply bool_decide_eq_true. rewrite Hwr, comma_state_app, settled_white by done. cbn [mbind option_bind].
  rewrite <- app_assoc, comma_state_app, plain_state by (first [done|by apply secret_unquoted]). cbn [mbind option_bind app comma_state]. change (is_quote 61) with false. cbn. by apply settled_white.
Qed.

Lemma solid_app a x b : a <> [] -> b <> [] -> solid a = true -> solid b = true -> solid (a ++ x ++ b) = true.
Proof.
  intros Ha Hb Hsa Hsb. destruct a as [|c a]; [done|]. pose proof (solid_head _ _ Hsa) as Hc. destruct (last b) as [d|] eqn:Hd; [|by apply last_None in Hd]. pose proof Hd as Hd'. apply last_Some in Hd' as (b' & ->).
  assert (Hdw : is_whitespace d = false) by (unfold solid in Hsb; rewrite last_snoc in Hsb; destruct b' as [|y b']; cbn [app head] in Hsb; apply andb_true_iff in Hsb as [_ Hsb]; by apply negb_true_iff).
  apply (solid_cons c (a ++ x ++ b' ++ [d]) d (c :: a ++ x ++ b')); [|done|done]. by simplify_list_eq.
Qed.

Lemma write_some it : item_ok it -> write it <> [].
Proof. destruct it as [s|s|k v|k v]; cbn; [naive_solver|done| |]; intros Hk; [destruct Hk as ((Hne & _) & _)|destruct Hk as (Hne & _)]; by destruct k. Qed.

(** A region that begins with a secret parameter. *)
Lemma secret_region left_ p more k w last_ : Forall padded_ok (p :: more) -> region_ends (pieces (p :: more)) last_ -> written (item p) = Some (k, w) -> secret_name k = true ->
  show_region left_ (pieces (p :: more)) = Some (hidden (p :: more) k).
Proof.
  intros Hok Hends Hw Hk. pose proof (Forall_inv Hok) as Hp. pose proof (Forall_inv_tail Hok) as Hmore. unfold show_region. cbn [pieces map head from_option id].
  destruct (decide (more = [])) as [->|Hne]; [cbn [map join_with]; rewrite Nat.eqb_refl; by eapply secret_item|].
  destruct (exists_last Hne) as (mid & q & ->). apply Forall_app in Hmore as [_ Hq]. apply Forall_inv in Hq as (Hql & Hqr & Hqi).
  set (r := join_with 44 (write_padded p :: map write_padded (mid ++ [q]))).
  assert (Hr : exists x, r = write_padded p ++ 44 :: x ++ write (item q) ++ behind q).
  { subst r. rewrite map_app. cbn [map]. destruct mid as [|m mid]; cbn [map app]; [exists (before q); by rewrite join_with_cons|]. rewrite join_with_cons. change (write_padded m :: map write_padded mid ++ [write_padded q]) with ((write_padded m :: map write_padded mid) ++ [write_padded q]).
    rewrite join_app by done. exists (join_with 44 (write_padded m :: map write_padded mid) ++ 44 :: before q). cbn [join_with]. unfold write_padded at 3. by simplify_list_eq. }
  destruct Hr as (x & Hr). pose proof Hp as (Hl & Hrp & Hi). destruct (written_item _ _ _ Hw Hi) as (Hwr & Hkey & Hsw). pose proof Hkey as (Hkne & Hks & _ & _).
  assert (Hlong : (str_len (write_padded p) < str_len r)%nat) by (rewrite Hr, str_len_app, str_len_cons; pose proof (len_utf8_pos 44); lia).
  rewrite (proj2 (Nat.eqb_neq (str_len (write_padded p)) (str_len r))) by lia. unfold redact_joined. rewrite Hr, take_bytes_app. cbn [mbind option_bind]. destruct (secret_field p k w Hp Hw Hk) as (-> & _ & Hsk). cbn [mbind option_bind last]. rewrite Hsk. cbn [mbind option_bind].
  assert (Hwne : w <> []).
  { intros ->. pose proof (empty_value p k Hp Hw Hk) as Hset. unfold region_ends in Hends. cbn [pieces map] in Hends. fold r in Hends. destruct (settled_next (write_padded p) (x ++ write (item q) ++ behind q) Hset) as [Hn _].
    rewrite <- Hr in Hn. rewrite Hn in Hends. destruct Hends as [Hends|Hends].
    - rewrite map_app in Hends. cbn [map] in Hends. change (write_padded p :: map write_padded mid ++ [write_padded q]) with ((write_padded p :: map write_padded mid) ++ [write_padded q]) in Hends. by rewrite removelast_last in Hends.
    - pose proof (removelast_join (write_padded p) (map write_padded (mid ++ [q]))) as Hle. assert (map write_padded (mid ++ [q]) <> []) by (by destruct mid). specialize (Hle ltac:(done)). cbn [pieces map] in *. lia. }
  destruct w as [|c w]; [done|]. assert (Hreg : write_padded p ++ 44 :: x ++ write (item q) ++ behind q = before p ++ ((k ++ 61 :: c :: w) ++ (behind p ++ 44 :: x) ++ write (item q)) ++ behind q) by (unfold write_padded; rewrite Hwr; by simplify_list_eq).
  assert (Hkw : solid (k ++ 61 :: c :: w) = true) by (rewrite <- Hwr; by apply solid_write).
  destruct (padded_parts (before p) ((k ++ 61 :: c :: w) ++ (behind p ++ 44 :: x) ++ write (item q)) (behind q) Hl Hqr) as (H1 & _ & H3 & H4); [apply solid_app; [by destruct k|by apply write_some|done|by apply solid_write]|by destruct k|].
  rewrite Hreg, H1, H3, H4. rewrite <- app_assoc. cbn [app]. rewrite (hide_secret _ k (c :: w ++ _)); [|done|by apply solid_lead, (solid_head c w)].
  unfold hidden. cbn [head]. change (p :: mid ++ [q]) with ((p :: mid) ++ [q]). by rewrite last_snoc.
Qed.

(** ** Lines that differ in their secrets *)

(** A list of items in its regions. *)
Definition cut_in (gs : list (list Padded)) : Prop := gs <> [] /\ Forall (Forall padded_ok) gs /\ in_regions (map pieces gs).

(** The same region, or one of a secret parameter: with two values, and with what
    each takes along. *)
Definition hides (g h : list Padded) : Prop :=
  g = h \/ exists p ps q qs k v w, g = p :: ps /\ h = q :: qs /\ before p = before q /\ (behind <$> last g) = (behind <$> last h)
    /\ written (item p) = Some (k, v) /\ written (item q) = Some (k, w) /\ secret_name k = true.

(** The list as it is written. *)
Definition list_of (gs : list (list Padded)) : rstr := join_with 44 (List.concat (map pieces gs)).

Lemma in_regions_at gs g : in_regions gs -> g ∈ gs -> exists last_, region_ends g last_.
Proof. induction gs as [|g' gs IH]; [by intros _ ?%elem_of_nil|]. intros (_ & Hr & Hin) [->|Hg]%elem_of_cons; [eauto|auto]. Qed.

Lemma region_alike left_ gs hs g h : cut_in gs -> cut_in hs -> g ∈ gs -> h ∈ hs -> hides g h -> show_region left_ (pieces g) = show_region left_ (pieces h).
Proof.
  intros (_ & Hg1 & Hg2) (_ & Hh1 & Hh2) Hg Hh [->|(p & ps & q & qs & k & v & w & -> & -> & Hb & Hd & Hv & Hw & Hk)]; [done|]. rewrite Forall_forall in Hg1, Hh1.
  destruct (in_regions_at _ (pieces (p :: ps)) Hg2) as (l1 & R1); [by apply list_elem_of_In, in_map, list_elem_of_In|]. destruct (in_regions_at _ (pieces (q :: qs)) Hh2) as (l2 & R2); [by apply list_elem_of_In, in_map, list_elem_of_In|].
  rewrite (secret_region left_ p ps k v l1), (secret_region left_ q qs k w l2) by auto. unfold hidden. cbn [head]. rewrite Hb. destruct (last (p :: ps)) as [a|] eqn:Ha, (last (q :: qs)) as [b|] eqn:Hb'; cbn in Hd; try done. injection Hd as Hd. by rewrite Hd.
Qed.

Lemma items_alike left_ gs hs : Forall2 hides gs hs -> cut_in gs -> cut_in hs -> redact_items left_ (list_of gs) = redact_items left_ (list_of hs).
Proof.
  intros Hh Hg Hh'. assert (Hw : forall gs, cut_in gs -> Forall (Forall whole) (map pieces gs)).
  { intros ks (_ & Hok & _). apply Forall_map. eapply Forall_impl; [exact Hok|]. intros g Hg0. apply Forall_map. eapply Forall_impl; [exact Hg0|]. intros p (Hl & Hr & Hi). by apply marks_padded; [done|done|apply whole_write]. }
  assert (Hsome : forall gs, cut_in gs -> map pieces gs <> []) by (intros ks (Hne & _) Hn; by destruct ks).
  unfold list_of. rewrite (redact_items_joined left_ (map pieces gs)), (redact_items_joined left_ (map pieces hs)); [|by apply Hsome|by apply Hh'|by apply Hw|by apply Hsome|by apply Hg|by apply Hw]. f_equal.
  assert (Hall : forall g h, g ∈ gs -> h ∈ hs -> hides g h -> show_region left_ (pieces g) = show_region left_ (pieces h)) by (intros; by apply (region_alike left_ gs hs)). clear -Hh Hall.
  induction Hh as [|g h gs hs Hgh Hh IH]; [done|]. cbn [map mapM]. rewrite (Hall g h) by (done || by left). rewrite IH; [done|]. intros g' h' Hg' Hh'. apply Hall; by right.
Qed.

(** A name that is no listed key, and holds no comma. *)
Definition policy_name (name : rstr) : bool :=
  forallb (fun c => negb (is_equals c)) name && match key_line (name ++ [61]) with None => true | _ => false end && match next_comma name true with None => true | _ => false end
  && match item_spans name true with Some spans => (length spans <=? 1)%nat | None => false end.

Definition policy_line (name : rstr) (gs : list (list Padded)) : rstr := name ++ 61 :: list_of gs.

(** A key whose whole value is a secret, with nothing around it. *)
Definition key_of_secret (key : rstr) : bool :=
  forallb (fun c => negb (is_equals c || is_colon c)) key && match next_comma key true with None => true | _ => false end && match line_key key with Some (Secret, true) => true | _ => false end.

(** A line that the section parser hands on as it is: nothing stands in front of
    it, no comment and no requirement is taken off. *)
Definition handed_on (line : rstr) : bool :=
  match line with c :: _ => negb (is_blank c) | [] => false end && match comment_marker line with None => true | _ => false end && match requirement_prefix line with None => true | _ => false end
  && negb (starts_with line HASH) && bool_decide (strip_inline_comment line = line)
  && match split_line_at line with Ok (None, (at_, body)) => (at_ =? 0)%nat && bool_decide (body = line) | _ => false end
  && match strip_suffix 13 line with None => true | _ => false end.

Lemma handed_on_entry s : handed_on s = true -> redact_line s = shown ← redact_entry s; hide_url_credentials shown.
Proof.
  unfold handed_on. rewrite !andb_true_iff. intros ((((((Hb & Hc) & Hr) & Hh) & Hi) & Hs) & Hx). apply bool_decide_eq_true in Hi. apply negb_true_iff in Hh.
  unfold redact_line. destruct (strip_suffix 13 s); [done|]. unfold redact_body, MAX_COMMENT_DEPTH. cbn [redact_text].
  assert (Hf : strip_front (length s) [] s false = Some ([], s, false)).
  { destruct s as [|c s]; [done|]. apply negb_true_iff in Hb. destruct (comment_marker (c :: s)) eqn:Hcm; [done|]. destruct (requirement_prefix (c :: s)) eqn:Hrp; [done|]. unfold lead_by. cbn [length strip_front drop_while take_while]. unfold lead_by. cbn [take_while]. rewrite Hb, Hcm, Hrp. done. }
  rewrite Hf. cbn [mbind option_bind]. unfold is_directive_line. rewrite Hh. cbn [andb].
  assert (Hcontent : forall inner, redact_content inner s = redact_entry s).
  { intros inner. unfold redact_content. rewrite Hi. destruct (split_line_at s) as [[[e|] [at_ body]]|e]; try done. apply andb_true_iff in Hs as [->%Nat.eqb_eq ->%bool_decide_eq_true].
    cbn [Nat.add]. rewrite Nat.sub_0_r, drop_0, firstn_all, drop_all, bool_decide_eq_true_2 by done. cbn [mbind option_bind]. unfold redact_core. rewrite Hh, Nat.sub_diag. cbn [take app].
    destruct (redact_entry s) as [t|]; [|done]. cbn [mbind option_bind]. replace (redact_by_name []) with (Some (@nil Z)) by done. cbn [mbind option_bind]. by rewrite !app_nil_r. }
  rewrite Hcontent. destruct (redact_entry s) as [t|]; [|done]. cbn [mbind option_bind app]. by destruct (hide_url_credentials t).
Qed.

Lemma find_equals front v : forallb (fun c => negb (is_equals c)) front = true -> find_char is_equals (front ++ 61 :: v) = Some (front, 61 :: v).
Proof. intros Hf. unfold find_char. by destruct (take_while_app (fun c => negb (is_equals c)) front (61 :: v) Hf eq_refl) as [-> ->]. Qed.

Lemma colon_key_tail before text tail tail' : colon_key before text tail = None -> colon_key before text tail' = None.
Proof. revert before. induction text as [|c text IH]; intros before; cbn [colon_key]; [done|]. by destruct (if is_colon c then line_key before else None) as [[]|]; [|apply IH]. Qed.

Lemma policy_entry name v : policy_name name = true -> redact_entry (name ++ 61 :: v) = app (name ++ [61]) <$> redact_definition v.
Proof.
  unfold policy_name. rewrite !andb_true_iff. intros (((He & Hk) & Hc) & Hs). unfold redact_entry, key_line in *. rewrite (find_equals name []) in Hk by done. rewrite (find_equals name v) by done. cbn [from_option id] in Hk |- *.
  destruct (colon_key [] name [61]) eqn:Hck; [done|]. rewrite (colon_key_tail _ _ _ (61 :: v) Hck). destruct (next_comma name true); [done|].
  destruct (line_key name) as [[]|]; [done|]. cbn [mbind option_bind]. destruct (item_spans name true) as [spans|]; [|done]. cbn [mbind option_bind orb]. replace (1 <? length spans)%nat with false; [done|].
  symmetry. apply Nat.ltb_ge. by apply Nat.leb_le.
Qed.

Lemma colon_key_none before text tail : forallb (fun c => negb (is_equals c || is_colon c)) text = true -> colon_key before text tail = None.
Proof. revert before. induction text as [|c text IH]; intros before; cbn [colon_key forallb]; [done|]. intros [Hc Ht]%andb_true_iff. apply negb_true_iff, orb_false_iff in Hc as [_ ->]. by apply IH. Qed.

Lemma secret_entry key v : key_of_secret key = true -> redact_entry (key ++ 61 :: v) = Some (key ++ [61] ++ 32 :: STARS).
Proof.
  unfold key_of_secret. rewrite !andb_true_iff. intros ((He & Hc) & Hl). unfold redact_entry, key_line. rewrite find_equals.
  - cbn [from_option id]. rewrite colon_key_none by done. destruct (next_comma key true); [done|]. destruct (line_key key) as [[[] []]|]; try done. cbn. by rewrite <- app_assoc.
  - apply forallb_forall. intros c Hx. rewrite forallb_forall in He. specialize (He c Hx). apply negb_true_iff, orb_false_iff in He as [-> _]. done.
Qed.

Lemma items_in_regions (ps : list Padded) : exists gs, List.concat gs = ps /\ in_regions (map pieces gs).
Proof.
  destruct (regions_exist (length (map write_padded ps)) (map write_padded ps) (Nat.le_refl _)) as (gs & Hgs & Hin). revert ps Hgs Hin. intros ps Hgs Hin.
  assert (H : forall gs ps, List.concat gs = map write_padded ps -> exists ks, List.concat ks = ps /\ map pieces ks = gs).
  { clear. induction gs as [|g gs IH]; intros ps Hgs; cbn in Hgs; [destruct ps; [by exists []|done]|]. symmetry in Hgs. apply map_eq_app in Hgs as (a & b & -> & Ha & Hb). destruct (IH b (eq_sym Hb)) as (ks & <- & Hks). exists (a :: ks). cbn. by rewrite Hks, <- Ha. }
  destruct (H gs ps Hgs) as (ks & Hks & Heq). exists ks. by rewrite Heq.
Qed.

(** C34: a redacted line does not tell a secret.  A list is redacted in regions: an
    item, and the items behind it that the older reading of commas takes along, as
    it does from a quote in the middle of a value to the next; every list of items
    is cut in regions.  Two lines of a policy that the section parser hands on as
    they are, with the same name and the same regions but for those that begin with
    a secret parameter — its value, in quotes or not, and what it takes along —, are
    shown as the same text; and so are two lines of a key whose value is a secret,
    whatever the values.  The regions themselves are told: a value that takes items
    along hides them too, and one that does not leaves them shown.  The items are
    those that [write] writes: parameters without white space before the [=], and
    quotes and parentheses that pair up. *)
Theorem secrets_are_not_shown :
  (forall ps, exists gs, List.concat gs = ps /\ in_regions (map pieces gs))
  /\ (forall name gs hs, policy_name name = true -> Forall2 hides gs hs -> cut_in gs -> cut_in hs -> handed_on (policy_line name gs) = true -> handed_on (policy_line name hs) = true ->
    redact_line (policy_line name gs) = redact_line (policy_line name hs))
  /\ (forall key v w, key_of_secret key = true -> handed_on (key ++ 61 :: v) = true -> handed_on (key ++ 61 :: w) = true -> redact_line (key ++ 61 :: v) = redact_line (key ++ 61 :: w)).
Proof.
  split; [apply items_in_regions|split].
  - intros name gs hs Hn Hh Hg Hh' H1 H2. rewrite !handed_on_entry by done. unfold policy_line. rewrite !policy_entry by done. unfold redact_definition. by rewrite (items_alike _ gs hs).
  - intros key v w Hk H1 H2. rewrite !handed_on_entry by done. by rewrite !secret_entry.
Qed.

(** [HK = ss, h.example, 8388, password=…, tfo=true], with two passwords; and with
    two whose quote takes the last item along. *)
Definition front_items : list (list Padded) := [[mkPadded [32] (IText (lit "ss")) []]; [mkPadded [32] (IText (lit "h.example")) []]; [mkPadded [32] (IText (lit "8388")) []]].
Definition tfo : Padded := mkPadded [32] (IParam (lit "tfo") (lit "true")) [].
Definition other : Padded := mkPadded [32] (IText (lit "s3cret")) [].
Definition password (secret : Item) : Padded := mkPadded [32] secret [].

Lemma plain_by (s : rstr) : marks_of s = [] \/ (exists e, marks_of s = [EqAt e]) -> quote (after false 0 scan_start s) = None -> skip (after false 0 scan_start s) = false -> whole s.
Proof. intros Hm Hq Hk. unfold whole. destruct Hm as [-> |(e & ->)]; (split; [repeat constructor|]; split; [|done]); [done|intros [|[|k]]; done]. Qed.

Lemma plain_text l s r : forallb is_whitespace l = true -> forallb is_whitespace r = true -> s <> [] -> solid s = true -> unquoted s = true -> marks_of s = [] -> quote (after false 0 scan_start s) = None -> skip (after false 0 scan_start s) = false ->
  padded_ok (mkPadded l (IText s) r).
Proof. intros. split; [done|]. split; [done|]. cbn. split; [done|]. split; [done|]. split; [done|]. split; [apply plain_by; by try left|by apply eq_of_none]. Qed.

Lemma plain_param l k v r : forallb is_whitespace l = true -> forallb is_whitespace r = true -> key_ok k -> solid v = true -> unquoted v = true -> (exists e, marks_of (k ++ 61 :: v) = [EqAt e]) -> quote (after false 0 scan_start (k ++ 61 :: v)) = None -> skip (after false 0 scan_start (k ++ 61 :: v)) = false ->
  padded_ok (mkPadded l (IParam k v) r).
Proof. intros. split; [done|]. split; [done|]. cbn. split; [done|]. split; [done|]. split; [done|]. apply plain_by; by try right. Qed.

Lemma hides_front fs gs hs : Forall2 hides gs hs -> Forall2 hides (fs ++ gs) (fs ++ hs).
Proof. intros Hh. induction fs as [|g fs IH]; [done|]. constructor; [by left|done]. Qed.

(** A region that the reading of commas ends by itself. *)
Lemma ends_by ws last_ : match next_comma (join_with 44 ws) false with Some (b, _) => (str_len (join_with 44 (removelast ws)) <? str_len b)%nat | None => last_ || settled (join_with 44 ws) end = true -> region_ends ws last_.
Proof. unfold region_ends. destruct (next_comma _ false) as [[b r]|]; [intros H; right; by apply Nat.ltb_lt|]. by intros [->|H]%orb_true_iff; [left|right]. Qed.

Lemma secrets_are_not_shown_witness :
  redact_line (policy_line (lit "HK ") (front_items ++ [[password (IParam (lit "Password") (lit "hunter2"))]; [tfo]])) = redact_line (policy_line (lit "HK ") (front_items ++ [[password (IQuotedParam (lit "Password") (lit "a, b # c"))]; [tfo]]))
  /\ redact_line (policy_line (lit "HK ") (front_items ++ [[password (IParam (lit "Password") (lit "it's")); tfo]])) = redact_line (policy_line (lit "HK ") (front_items ++ [[password (IParam (lit "Password") (lit "isn't")); other]]))
  /\ redact_line (lit "psk " ++ 61 :: lit " x") = redact_line (lit "psk " ++ 61 :: lit " y, z").
Proof.
  assert (Hfront : Forall (Forall padded_ok) front_items) by (repeat (apply Forall_cons; split; [apply Forall_singleton; by apply plain_text|]); by apply Forall_nil).
  assert (Htfo : padded_ok tfo) by (apply plain_param; try done; by eexists).
  assert (Hother : padded_ok other) by (by apply plain_text).
  assert (Hparam : forall v, solid v = true -> unquoted v = true -> (exists e, marks_of (lit "Password" ++ 61 :: v) = [EqAt e]) -> quote (after false 0 scan_start (lit "Password" ++ 61 :: v)) = None -> skip (after false 0 scan_start (lit "Password" ++ 61 :: v)) = false -> padded_ok (password (IParam (lit "Password") v))) by (intros; by apply plain_param).
  assert (Hsecret : forall ps qs v w p q, written (item p) = Some (lit "Password", v) -> written (item q) = Some (lit "Password", w) -> before p = before q -> (behind <$> last (p :: ps)) = (behind <$> last (q :: qs)) -> hides (p :: ps) (q :: qs)).
  { intros ps qs v w p q Hv Hw Hb Hl. right. exists p, ps, q, qs, (lit "Password"), v, w. repeat (split; [done|]). by vm_compute. }
  assert (Hcut : forall gs, Forall (Forall padded_ok) gs -> in_regions (map pieces (front_items ++ gs)) -> cut_in (front_items ++ gs)) by (intros gs Hgs Hin; split; [done|]; split; [by apply Forall_app|done]).
  split; [|split].
  - apply (proj1 (proj2 secrets_are_not_shown)); [by vm_compute| | | |by vm_compute|by vm_compute].
    + apply hides_front. constructor; [by eapply Hsecret|]. constructor; [by left|constructor].
    + apply Hcut; [apply Forall_cons; split; [apply Forall_singleton, Hparam; try done; by eexists|by apply Forall_singleton, Forall_singleton]|]. repeat (split; [done|]; split; [apply ends_by; by vm_compute|]). done.
    + apply Hcut; [apply Forall_cons; split; [by apply Forall_singleton; repeat split|by apply Forall_singleton, Forall_singleton]|]. repeat (split; [done|]; split; [apply ends_by; by vm_compute|]). done.
  - apply (proj1 (proj2 secrets_are_not_shown)); [by vm_compute| | | |by vm_compute|by vm_compute].
    + apply hides_front. constructor; [by eapply Hsecret|constructor].
    + apply Hcut; [apply Forall_singleton, Forall_cons; split; [apply Hparam; try done; by eexists|by apply Forall_singleton]|]. repeat (split; [done|]; split; [apply ends_by; by vm_compute|]). done.
    + apply Hcut; [apply Forall_singleton, Forall_cons; split; [apply Hparam; try done; by eexists|by apply Forall_singleton]|]. repeat (split; [done|]; split; [apply ends_by; by vm_compute|]). done.
  - apply (proj2 (proj2 secrets_are_not_shown)); by vm_compute.
Defined.
