(* ===== verification/HostText.v ===== *)
(** * Hosts as texts and on the wire

    [HostName] of [crates/rurge-config/src/types.rs], the source that Hysteria 2
    names ([source] of [crates/rurge-proto-quic/src/hysteria2/udp.rs]) and the
    addresses of TUIC ([crates/rurge-proto-quic/src/tuic/addr.rs]).  How the
    standard library reads an address is written out; what names a domain on the
    wire ([wire_host]) is a parameter of [put]. *)

From S2P Require Import Prelude FakeIpAddr RuleMatcher Values.

(** ** [str::parse::<IpAddr>] *)

Definition to_digit (radix c : Z) : option Z :=
  let d := if is_digit c then c - 48 else if is_lower c then c - 87 else if is_upper c then c - 55 else radix in if d <? radix then Some d else None.

(** The digits of a number, [count] of them read; its end. *)
Fixpoint digits_from (radix max : Z) (most count : nat) (acc : Z) (s : rstr) : option (nat * Z * rstr) :=
  match s with
  | [] => Some (count, acc, [])
  | c :: rest =>
      match to_digit radix c with
      | None => Some (count, acc, s)
      | Some d => let acc := acc * radix + d in if (max <? acc) || (most <? S count)%nat then None else digits_from radix max most (S count) acc rest
      end
  end.

Definition read_number (radix max : Z) (most : nat) (zero_prefix : bool) (s : rstr) : option (Z * rstr) :=
  '(count, n, rest) ← digits_from radix max most 0 0 s;
  if (count =? 0)%nat then None
  else if negb zero_prefix && (match s with 48 :: _ => true | _ => false end) && (1 <? count)%nat then None
  else Some (n, rest).

(** [read_separator]. *)
Definition separated {A} (sep : Z) (i : nat) (read : rstr -> option (A * rstr)) (s : rstr) : option (A * rstr) :=
  if (i =? 0)%nat then read s else match s with c :: s => if c =? sep then read s else None | [] => None end.

Definition read_v4 (s : rstr) : option (Z * rstr) :=
  let octet i := separated 46 i (read_number 10 255 3 false) in
  '(a, s) ← octet 0%nat s; '(b, s) ← octet 1%nat s; '(c, s) ← octet 2%nat s; '(d, s) ← octet 3%nat s;
  Some (of_be32 a b c d, s).

(** [read_groups]: those read, whether an IPv4 address ended them, and the rest. *)
Fixpoint read_groups (left_ i limit : nat) (s : rstr) : list Z * bool * rstr :=
  match left_ with
  | 0%nat => ([], false, s)
  | S left_ =>
      match (if (S i <? limit)%nat then separated 58 i read_v4 s else None) with
      | Some (v4, rest) => ([Z.shiftr v4 16; v4 mod 65536], true, rest)
      | None =>
          match separated 58 i (read_number 16 65535 4 true) s with
          | Some (group, rest) => let '(groups, v4, rest) := read_groups left_ (S i) limit rest in (group :: groups, v4, rest)
          | None => ([], false, s)
          end
      end
  end.

Definition read_v6 (s : rstr) : option (Z * rstr) :=
  let '(head, v4, s) := read_groups 8 0 8 s in
  if (length head =? 8)%nat then Some (v6_new head, s)
  else if v4 then None
  else match s with
  | 58 :: 58 :: s =>
      let limit := (8 - (length head + 1))%nat in
      let '(tail, _, s) := read_groups limit 0 limit s in
      Some (v6_new (head ++ replicate (8 - length head - length tail) 0 ++ tail), s)
  | _ => None
  end.

Definition parse_ip (s : rstr) : option IpAddr :=
  '(ip, rest) ← match read_v4 s with Some (v4, rest) => Some (V4 v4, rest) | None => '(v6, rest) ← read_v6 s; Some (V6 v6, rest) end;
  if bool_decide (rest = []) then Some ip else None.

(** ** [HostName] *)

Definition host_parse (s : rstr) : HostName :=
  let s := trim s in
  let bare := default s (x ← Requirement.strip_prefix_str s [91]; Requirement.strip_suffix_str x [93]) in
  match parse_ip bare with Some ip => IpLiteral ip | None => DomainName (to_ascii_lowercase (trim_end_by (Z.eqb 46) bare)) end.

Definition is_simple (h : HostName) : bool := match h with DomainName d => negb (existsb (Z.eqb 46) d) | IpLiteral _ => false end.

Definition canonical (h : HostName) : HostName := match h with IpLiteral ip => IpLiteral (to_canonical ip) | name => name end.

(** [char::is_control]. *)
Definition is_control (c : Z) : bool := (c <=? 31) || ((127 <=? c) && (c <=? 159)).

Definition from_wire (s : rstr) : option HostName :=
  if existsb (fun c => is_control c || is_whitespace c) s then None
  else match host_parse s with DomainName [] => None | host => Some host end.

Record Target := mkTarget { host : HostName; port : Z }.

#[export] Instance HostName_eq_dec : EqDecision HostName.
Proof. solve_decision. Defined.
#[export] Instance Target_eq_dec : EqDecision Target.
Proof. solve_decision. Defined.

(** ** Hysteria 2's source *)

Definition source (address : list Z) : option Target :=
  text ← utf8_decode address;
  '(name, port) ← rsplit_once 58 text;
  host ← from_wire name;
  port ← parse_uint u16_max port;
  Some (mkTarget host port).

(** ** TUIC's addresses *)

Definition DOMAIN : Z := 0.
Definition IPV4 : Z := 1.
Definition IPV6 : Z := 2.
Definition NONE : Z := 255.

Inductive AddrError := Unsendable | TooLong.

(** The octets of an IPv6 address. *)
Definition octets6 (bits : Z) : list Z := flat_map be16 (segments bits).

(** [wire_host]: a domain's name as it goes out, for the names that can. *)
Definition put (wire_host : rstr -> option rstr) (target : Target) : res AddrError (list Z) :=
  do? host <- match host target with
    | IpLiteral (V4 v4) => Ok (IPV4 :: octets v4)
    | IpLiteral (V6 v6) => Ok (IPV6 :: octets6 v6)
    | DomainName d =>
        match wire_host d with
        | None => Err Unsendable
        | Some name => let name := utf8_encode name in if (length name <=? 255)%nat then Ok (DOMAIN :: Z.of_nat (length name) :: name) else Err TooLong
        end
    end;
  Ok (host ++ be16 (port target)).

(** The segments of the octets of an IPv6 address. *)
Fixpoint pairs (octets : list Z) : list Z := match octets with a :: b :: rest => of_be16 a b :: pairs rest | _ => [] end.

(** The inner [None] is no address. *)
Definition get (data : list Z) : option (option Target * nat) :=
  match data with
  | [] => None
  | kind :: rest =>
      if kind =? NONE then Some (None, 1%nat)
      else
        '(host, len) ← (if kind =? IPV4 then
            match slice rest 0 4 with Some [a; b; c; d] => Some (IpLiteral (V4 (of_be32 a b c d)), 4%nat) | _ => None end
          else if kind =? IPV6 then
            octets ← slice rest 0 16; Some (IpLiteral (to_canonical (V6 (v6_new (pairs octets)))), 16%nat)
          else if kind =? DOMAIN then
            match rest with
            | [] => None
            | n :: name => bytes ← slice name 0 (Z.to_nat n); text ← utf8_decode bytes; host ← from_wire text; Some (host, (1 + Z.to_nat n)%nat)
            end
          else None);
        match slice rest len 2 with Some [a; b] => Some (Some (mkTarget host (of_be16 a b)), (1 + len + 2)%nat) | _ => None end
  end.

Example hosts_example :
  (host_parse (lit " [::1] "), host_parse (lit "1.2.3.4"), host_parse (lit "::ffff:10.0.0.1"), host_parse (lit "1.2.3.04"), from_wire (lit "Example.TEST."), from_wire (lit "a b.test"), host_parse (lit "1:2:3:4:5:6:7::"), host_parse (lit "1::2:3:4:5:6:7:8"))
  = (IpLiteral (V6 1), IpLiteral (V4 16909060), IpLiteral (V6 281470849515521), DomainName (lit "1.2.3.04"), Some (DomainName (lit "example.test")), None, IpLiteral (V6 (v6_new [1; 2; 3; 4; 5; 6; 7; 0])), DomainName (lit "1::2:3:4:5:6:7:8")).
Proof. vm_compute. reflexivity. Qed.

Example source_example : source (utf8_encode (lit "[2001:db8::1]:443")) = Some (mkTarget (IpLiteral (V6 (v6_new [8193; 3512; 0; 0; 0; 0; 0; 1]))) 443) /\ source (utf8_encode (lit "a.example:+53")) = Some (mkTarget (DomainName (lit "a.example")) 53).
Proof. split; vm_compute; reflexivity. Qed.
