(* ===== verification/Hysteria2Udp.v ===== *)
(** * UDP over Hysteria 2

    [crates/rurge-proto-quic/src/hysteria2/udp.rs] and [varint.rs]: what a
    datagram goes out in, what comes in is read as, the reassembly of fragments
    and the sessions of a connection with the inboxes of their carriers
    ([carrier.rs]).  Binding a carrier to a connection and handing datagrams to
    QUIC are left out; the random packet id is an argument.  [None] of an operation
    is a panic. *)

From S2P Require Import Prelude FakeIpAddr RuleMatcher H3Frame HostText.

(** ** QUIC's integers, [varint.rs] *)

Definition varint_put (value : Z) : list Z :=
  if value <? 64 then be_bytes 1 value
  else if value <? 16384 then be_bytes 2 (Z.lor 16384 value)
  else if value <? 1073741824 then be_bytes 4 (Z.lor 2147483648 value)
  else be_bytes 8 (Z.lor 13835058055282163712 value).

Definition varint_size (first : Z) : nat := Z.to_nat (Z.shiftl 1 (Z.shiftr first 6)).

Definition varint_get (bytes : list Z) : option (Z * nat) :=
  first ← head bytes;
  let len := varint_size first in
  bytes ← slice bytes 0 len;
  Some (fold_left (fun value byte => Z.lor (Z.shiftl value 8 mod 2 ^ 64) byte) (drop 1 bytes) (Z.land (default 0 (head bytes)) 63), len).

(** ** The ids of the sessions *)

Definition MAX_FRAGMENTS : nat := 255.
Definition MAX_DATAGRAM : Z := 65535.
Definition FIXED : nat := 8.
Definition MAX_ADDRESS : nat := 2048.
Definition INBOX : nat := 64.

(** [next]: the id, and the count after it; 0 is counted over. *)
Fixpoint next_from (fuel : nat) (count : Z) : option (Z * Z) :=
  match fuel with
  | 0%nat => None
  | S fuel => let id := (count + 1) mod 2 ^ 32 in if id =? 0 then next_from fuel id else Some (id, id)
  end.

Definition next (count : Z) : option (Z * Z) := next_from 2 count.

(** ** Going out *)

Inductive SendError := NameTooLong | DatagramTooLong (most : nat).

(** [slice::chunks]. *)
Fixpoint chunks_from (fuel room : nat) (l : list Z) : list (list Z) :=
  match fuel, l with
  | S fuel, _ :: _ => take room l :: chunks_from fuel room (drop room l)
  | _, _ => []
  end.
Definition chunks (room : nat) (l : list Z) : list (list Z) := chunks_from (length l) room l.

Definition header (id : Z) (address : list Z) : list Z := be32 id ++ [0; 0; 0; 1] ++ varint_put (Z.of_nat (length address)) ++ address.

(** A fragment: the header with what it says of itself written over, and a
    chunk. *)
Definition fragment_of (header : list Z) (packet : Z) (count fragment : nat) (chunk : list Z) : list Z :=
  splice (splice (splice header 4 (be16 packet)) 6 [Z.of_nat fragment mod 256]) 7 [Z.of_nat count mod 256] ++ chunk.

Definition datagrams (packet id : Z) (address payload : list Z) (max : nat) : res SendError (list (list Z)) :=
  let header := header id address in
  if (length header + length payload <=? max)%nat then Ok [header ++ payload]
  else
    let room := (max - length header)%nat in
    if (room =? 0)%nat then Err NameTooLong
    else if (MAX_FRAGMENTS * room <? length payload)%nat then Err (DatagramTooLong (MAX_FRAGMENTS * room))
    else
      let parts := chunks room payload in
      Ok (imap (fragment_of header packet (Nat.div (length payload + (room - 1)) room)) parts).

(** ** Coming in *)

Record Message := mkMessage { m_session : Z; m_packet : Z; m_fragment : Z; m_fragments : Z; m_address : list Z; m_payload : list Z }.

Definition parse (datagram : list Z) : option Message :=
  fixed ← slice datagram 0 FIXED;
  '(len, n) ← varint_get (drop FIXED datagram);
  if negb ((1 <=? len) && (len <=? Z.of_nat MAX_ADDRESS)) then None
  else
    let start := (FIXED + n)%nat in
    let end_ := (start + Z.to_nat len)%nat in
    if (length datagram <? end_)%nat then None
    else match fixed with
    | [a; b; c; d; e; f; g; h] => Some (mkMessage (of_be32 a b c d) (of_be16 e f) g h (take (end_ - start) (drop start datagram)) (drop end_ datagram))
    | _ => None
    end.

Inductive Reassembly := Idle | Collecting (packet : Z) (parts : list (option (list Z))) (missing size : nat) | Over (packet fragments : Z).

Definition known (r : Reassembly) (m : Message) : bool :=
  match r with
  | Idle => false
  | Collecting packet parts _ _ => (packet =? m_packet m) && (length parts =? Z.to_nat (m_fragments m))%nat
  | Over packet fragments => (packet =? m_packet m) && (fragments =? m_fragments m)
  end.

Definition collect (m : Message) : Reassembly := let count := Z.to_nat (m_fragments m) in Collecting (m_packet m) (replicate count None) count 0.

(** [feed]: what the reassembly becomes, and the datagram that is whole. *)
Definition feed (r : Reassembly) (m : Message) : option (Reassembly * option (list Z)) :=
  let count := m_fragments m in
  if count <=? 1 then Some (r, Some (m_payload m))
  else if count <=? m_fragment m then Some (r, None)
  else
    let r := if known r m then r else collect m in
    match r with
    | Collecting packet parts missing size =>
        part ← parts !! Z.to_nat (m_fragment m);
        match part with
        | Some _ => Some (r, None)
        | None =>
            let size := (size + length (m_payload m))%nat in
            if MAX_DATAGRAM <? Z.of_nat size then Some (Over (m_packet m) count, None)
            else
              let parts := <[Z.to_nat (m_fragment m) := Some (m_payload m)]> parts in
              match missing with
              | 0%nat => None
              | 1%nat => Some (Over (m_packet m) count, Some (List.concat (omap id parts)))
              | S missing => Some (Collecting packet parts missing size, None)
              end
        end
    | _ => Some (r, None)
    end.

(** ** The sessions of a connection *)

Definition Packet : Type := list Z * Target.

(** [inbox] names the carrier's; the inboxes are those of all carriers. *)
Record Entry := mkEntry { inbox : nat; reassembly : Reassembly }.
Record Udp := mkUdp { sessions : gmap Z Entry; inboxes : gmap nat (list Packet) }.

(** [try_send]: into an inbox that is there and not full. *)
Definition try_send (i : nat) (p : Packet) (inboxes : gmap nat (list Packet)) : gmap nat (list Packet) :=
  match inboxes !! i with
  | Some waiting => if (length waiting <? INBOX)%nat then <[i := waiting ++ [p]]> inboxes else inboxes
  | None => inboxes
  end.

Fixpoint join_from (fuel : nat) (sessions : gmap Z Entry) (id count : Z) : option (Z * Z) :=
  match sessions !! id with
  | None => Some (id, count)
  | Some _ =>
      match fuel with
      | 0%nat => None
      | S fuel => '(id, count) ← next count; join_from fuel sessions id count
      end
  end.

(** [join]: the id, the sessions with it, and the count of the ids. *)
Definition join (u : Udp) (id : Z) (inbox : nat) (count : Z) : option (Z * Udp * Z) :=
  '(id, count) ← join_from (S (size (sessions u))) (sessions u) id count;
  Some (id, mkUdp (<[id := mkEntry inbox Idle]> (sessions u)) (inboxes u), count).

Definition leave (u : Udp) (id : Z) : Udp := mkUdp (delete id (sessions u)) (inboxes u).

Definition deliver (u : Udp) (datagram : list Z) : option Udp :=
  match parse datagram with
  | None => Some u
  | Some message =>
      match sessions u !! m_session message with
      | None => Some u
      | Some entry =>
          '(r, whole) ← feed (reassembly entry) message;
          let sessions := <[m_session message := mkEntry (inbox entry) r]> (sessions u) in
          Some match whole with
          | None => mkUdp sessions (inboxes u)
          | Some whole => mkUdp sessions (match source (m_address message) with Some from => try_send (inbox entry) (whole, from) (inboxes u) | None => inboxes u end)
          end
      end
  end.

Fixpoint deliver_all (u : Udp) (datagrams : list (list Z)) : option Udp := match datagrams with [] => Some u | d :: datagrams => u ← deliver u d; deliver_all u datagrams end.

(** [recv_from] with a buffer of [room] bytes: the packets too long for it are
    dropped; [None] while there is none. *)
Fixpoint recv_from (room : nat) (waiting : list Packet) : option Packet * list Packet :=
  match waiting with
  | [] => (None, [])
  | p :: waiting => if (length p.1 <=? room)%nat then (Some p, waiting) else recv_from room waiting
  end.
