(* ===== verification/Hysteria2Props.v ===== *)
(** * Datagrams over Hysteria 2 arrive

    Whatever comes, a connection's sessions take it without a panic; and what
    [datagrams] makes of a datagram, delivered in any order, any number of times
    and with anything else for other sessions between, is one datagram in its
    carrier's inbox once every fragment came. *)

From S2P Require Import Prelude FakeIpAddr RuleMatcher H3Frame H3FrameProps HostText Hysteria2Udp.

(** ** Integers *)

Lemma varint_put_is v : varint_put v = put_varint v.
Proof.
  unfold varint_put, put_varint. destruct (Z.ltb_spec v 64), (Z.leb_spec v 63); try lia; [done|]. destruct (Z.ltb_spec v 16384), (Z.leb_spec v 16383); try lia; [done|]. by destruct (Z.ltb_spec v 1073741824), (Z.leb_spec v 1073741823); try lia.
Qed.

Lemma varint_get_is bytes r : get_varint bytes = Some r -> varint_get bytes = Some r.
Proof.
  unfold get_varint, varint_get. destruct bytes as [|first bytes]; [done|]. change (varint_len (first :: bytes)) with (varint_size first). cbn [head mbind option_bind]. unfold slice. cbn [Nat.add drop].
  case_decide; [|done]. destruct (varint_size first) as [|n]; [done|]. by cbn [take mbind option_bind head drop default from_option].
Qed.

Lemma varint_reads v rest : 0 <= v < 2 ^ 62 -> varint_get (varint_put v ++ rest) = Some (v, length (varint_put v)).
Proof. intros Hv. apply varint_get_is. rewrite varint_put_is. apply get_put_varint. unfold VARINT_MAX. change (Z.shiftl 1 62) with (2 ^ 62). lia. Qed.

(** ** Messages read back *)

Lemma be32_reads v : 0 <= v < 2 ^ 32 -> of_be32 (Z.shiftr v 24 mod 256) (Z.shiftr v 16 mod 256) (Z.shiftr v 8 mod 256) (v mod 256) = v.
Proof.
  intros Hv. unfold of_be32. rewrite !Z.shiftr_div_pow2 by lia. change (2 ^ 24) with (256 * 256 * 256). change (2 ^ 16) with (256 * 256). change (2 ^ 8) with 256. rewrite <- !Z.div_div by lia.
  pose proof (Z.div_mod v 256 ltac:(lia)). pose proof (Z.div_mod (v / 256) 256 ltac:(lia)). pose proof (Z.div_mod (v / 256 / 256) 256 ltac:(lia)). rewrite (Z.mod_small (v / 256 / 256 / 256)); [lia|].
  rewrite !Z.div_div by lia. split; [apply Z.div_pos; lia|apply Z.div_lt_upper_bound; lia].
Qed.

Lemma be16_reads v : 0 <= v < 65536 -> of_be16 (Z.shiftr v 8 mod 256) (v mod 256) = v.
Proof. intros Hv. unfold of_be16. rewrite Z.shiftr_div_pow2 by lia. change (2 ^ 8) with 256. pose proof (Z.div_mod v 256 ltac:(lia)). rewrite (Z.mod_small (v / 256)); [lia|]. split; [apply Z.div_pos; lia|apply Z.div_lt_upper_bound; lia]. Qed.

(** What a message looks like. *)
Definition wire (id packet fragment count : Z) (address payload : list Z) : list Z :=
  be32 id ++ be16 packet ++ [fragment; count] ++ varint_put (Z.of_nat (length address)) ++ address ++ payload.

Lemma header_wire id address payload : header id address ++ payload = wire id 0 0 1 address payload.
Proof. unfold header, wire. by rewrite <- !app_assoc. Qed.

Lemma fragment_wire id address packet count fragment chunk : (fragment < 256)%nat -> (count < 256)%nat ->
  fragment_of (header id address) packet count fragment chunk = wire id packet (Z.of_nat fragment) (Z.of_nat count) address chunk.
Proof. intros Hf Hc. unfold fragment_of. rewrite !Z.mod_small by lia. unfold header, wire, splice, be32, be16. cbn [app take drop length Nat.add]. by rewrite drop_0, <- app_assoc. Qed.

Lemma parse_wire id packet fragment count address payload : 0 <= id < 2 ^ 32 -> 0 <= packet < 65536 -> (1 <= length address <= MAX_ADDRESS)%nat ->
  parse (wire id packet fragment count address payload) = Some (mkMessage id packet fragment count address payload).
Proof.
  intros Hid Hp Ha. unfold parse, wire. set (rest := varint_put _ ++ address ++ payload).
  assert (Hs : slice (be32 id ++ be16 packet ++ [fragment; count] ++ rest) 0 FIXED = Some (be32 id ++ be16 packet ++ [fragment; count])) by (unfold slice, FIXED, be32, be16; cbn [app length Nat.add take drop]; by rewrite decide_True by lia).
  rewrite Hs. cbn [mbind option_bind]. assert (Hd : drop FIXED (be32 id ++ be16 packet ++ [fragment; count] ++ rest) = rest) by done. rewrite Hd.
  unfold MAX_ADDRESS in *. assert (Hg : varint_get rest = Some (Z.of_nat (length address), length (varint_put (Z.of_nat (length address))))) by (apply varint_reads; lia). rewrite Hg. cbn [mbind option_bind]. rewrite Nat2Z.id. rewrite (proj2 (Z.leb_le 1 (Z.of_nat (length address)))), (proj2 (Z.leb_le (Z.of_nat (length address)) _)) by lia. cbn [andb negb].
  set (n := length (varint_put _)).
  assert (Hl : length (be32 id ++ be16 packet ++ [fragment; count] ++ rest) = (FIXED + n + length address + length payload)%nat) by (unfold rest, FIXED, be32, be16; rewrite !length_app; fold n; cbn [length]; lia).
  rewrite Hl. rewrite (proj2 (Nat.ltb_ge _ _)) by lia.
  assert (Hdrop : drop (FIXED + n) (be32 id ++ be16 packet ++ [fragment; count] ++ rest) = address ++ payload) by (rewrite <- drop_drop, Hd; apply drop_app_length).
  assert (Hend : drop (FIXED + n + length address) (be32 id ++ be16 packet ++ [fragment; count] ++ rest) = payload) by (rewrite <- drop_drop, Hdrop; apply drop_app_length).
  rewrite Hdrop, Hend. replace (FIXED + n + length address - (FIXED + n))%nat with (length address) by lia. rewrite take_app_length.
  unfold be32, be16. cbn [app]. by rewrite be32_reads, be16_reads.
Qed.

(** ** Chunks *)

Lemma chunks_from_ok fuel room l : (0 < room)%nat -> (length l <= fuel)%nat -> List.concat (chunks_from fuel room l) = l /\ Forall (fun c => (length c <= room)%nat) (chunks_from fuel room l) /\ (length (chunks_from fuel room l) * room < length l + room)%nat /\ (length l <= length (chunks_from fuel room l) * room)%nat.
Proof.
  intros Hr. revert l. induction fuel as [|fuel IH]; intros l Hl; [destruct l; [|cbn in Hl; lia]; cbn; by repeat split; [constructor|lia..]|]. destruct l as [|x l]; cbn [chunks_from]; [cbn; by repeat split; [constructor|lia..]|].
  destruct (IH (drop room (x :: l))) as (Hc & Hf & Hlt & Hle); [rewrite length_drop; cbn [length] in *; lia|]. rewrite length_drop in Hlt, Hle. cbn [List.concat length]. rewrite Hc. split; [apply take_drop|]. split; [constructor; [rewrite length_take; lia|done]|]. cbn [length] in *.
  set (m := length (chunks_from fuel room (drop room (x :: l)))) in *. split; [|lia]. destruct (Nat.le_gt_cases room (S (length l))) as [Hx|Hx]; [lia|]. assert (m = 0%nat) by nia. lia.
Qed.

Lemma chunks_ok room l : (0 < room)%nat -> List.concat (chunks room l) = l /\ Forall (fun c => (length c <= room)%nat) (chunks room l) /\ length (chunks room l) = Nat.div (length l + (room - 1)) room.
Proof.
  intros Hr. destruct (chunks_from_ok (length l) room l Hr ltac:(done)) as (Hc & Hf & Hlt & Hle). split; [done|]. split; [done|]. apply (Nat.div_unique _ _ _ (length l + (room - 1) - length (chunks room l) * room)); unfold chunks in *; lia.
Qed.

(** ** The parts of a datagram under way *)

Definition nones (ps : list (option (list Z))) : nat := length (List.filter (fun o : option (list Z) => match o with None => true | _ => false end) ps).
Definition bytes_in (ps : list (option (list Z))) : nat := sum_list_with (fun o : option (list Z) => match o with Some p => length p | None => 0%nat end) ps.

Lemma nones_insert ps i p : ps !! i = Some None -> nones ps = S (nones (<[i := Some p]> ps)) /\ bytes_in (<[i := Some p]> ps) = (bytes_in ps + length p)%nat.
Proof.
  revert i. induction ps as [|o ps IH]; intros [|i] Hi; cbn in Hi; simplify_eq.
  - unfold nones, bytes_in. cbn. split; [done|lia].
  - destruct (IH i Hi) as [Hn Hb]. change (<[S i := Some p]> (o :: ps)) with (o :: <[i := Some p]> ps). unfold nones, bytes_in in *. cbn [List.filter sum_list_with]. rewrite Hb. destruct o; cbn [length]; rewrite Hn; split; lia.
Qed.

Lemma nones_replicate n : nones (replicate n None) = n /\ bytes_in (replicate n None) = 0%nat.
Proof. induction n as [|n [IH1 IH2]]; [done|]. unfold nones, bytes_in in *. cbn. by rewrite IH1, IH2. Qed.

(** What a reassembly is at all times. *)
Definition reassembly_ok (r : Reassembly) : Prop := match r with Collecting _ ps missing _ => missing = nones ps /\ (0 < missing)%nat | _ => True end.

Lemma known_length r m packet ps missing size : (if known r m then r else collect m) = Collecting packet ps missing size -> length ps = Z.to_nat (m_fragments m).
Proof. destruct (known r m) eqn:Hk; intros He; [|unfold collect in He; injection He as <- <- <- <-; apply length_replicate]. subst r. cbn [known] in Hk. apply andb_true_iff in Hk as [_ Hk]. by apply Nat.eqb_eq. Qed.

Lemma feed_total r m : reassembly_ok r -> exists r' o, feed r m = Some (r', o) /\ reassembly_ok r'.
Proof.
  intros Hr. unfold feed. destruct (Z.leb_spec (m_fragments m) 1); [eauto|]. destruct (Z.leb_spec (m_fragments m) (m_fragment m)); [eauto|].
  assert (Hr' : reassembly_ok (if known r m then r else collect m)). { destruct (known r m); [done|]. unfold collect. cbn. destruct (nones_replicate (Z.to_nat (m_fragments m))) as [-> _]. split; [done|lia]. }
  pose proof (known_length r m) as Hlen. destruct (if known r m then r else collect m) as [|packet ps missing size|packet count]; [eauto| |eauto]. specialize (Hlen _ _ _ _ eq_refl).
  destruct (lookup_lt_is_Some_2 ps (Z.to_nat (m_fragment m))) as (part & Hp); [lia|]. rewrite Hp. cbn [mbind option_bind]. destruct part as [part|]; [eauto|]. case_match; [by eexists _, _|].
  destruct Hr' as [-> Hpos]. destruct (nones_insert ps _ (m_payload m) Hp) as [Hn _]. rewrite Hn. destruct (nones (<[Z.to_nat (m_fragment m):=Some (m_payload m)]> ps)) as [|k] eqn:Hk; [by eexists _, _|]. eexists _, _. split; [done|]. cbn. lia.
Qed.

Section Gather.
Context (session packet : Z) (address : list Z) (parts : list (list Z)).
Hypothesis Hparts : (2 <= length parts <= MAX_FRAGMENTS)%nat.
Hypothesis Hsize : Z.of_nat (length (List.concat parts)) <= MAX_DATAGRAM.

Definition message (i : nat) (p : list Z) : Message := mkMessage session packet (Z.of_nat i) (Z.of_nat (length parts)) address p.

Definition part_of (o : option (list Z)) (p : list Z) : Prop := o = None \/ o = Some p.

(** The parts that came, and what the reassembly is then: it began as one that
    knows nothing of the datagram. *)
Definition gathered (r : Reassembly) (ps : list (option (list Z))) : Prop :=
  Forall2 part_of ps parts
  /\ ((ps = replicate (length parts) None /\ reassembly_ok r /\ known r (message 0 []) = false)
      \/ ((0 < nones ps)%nat /\ r = Collecting packet ps (nones ps) (bytes_in ps))
      \/ (nones ps = 0%nat /\ r = Over packet (Z.of_nat (length parts)))).

Lemma bytes_within ps : Forall2 part_of ps parts -> (bytes_in ps <= length (List.concat parts))%nat.
Proof. clear. unfold bytes_in. induction 1 as [|o p ps qs [-> | ->] Hps IH]; cbn [sum_list_with List.concat]; [lia|rewrite length_app; lia|rewrite length_app; lia]. Qed.

Lemma all_came ps : Forall2 part_of ps parts -> nones ps = 0%nat -> List.concat (omap id ps) = List.concat parts.
Proof. clear. unfold nones. induction 1 as [|o p ps qs [-> | ->] Hps IH]; intros Hn; cbn in *; [done|lia|]. by rewrite IH. Qed.
(** One part more, or one that came already. *)
Lemma feed_part r ps i p : gathered r ps -> parts !! i = Some p ->
  exists r', feed r (message i p) = Some (r', if (0 <? nones ps)%nat && (nones (<[i := Some p]> ps) =? 0)%nat then Some (List.concat parts) else None) /\ gathered r' (<[i := Some p]> ps).
Proof.
  intros [Hps Hr] Hi. pose proof (lookup_lt_Some _ _ _ Hi) as Hlt. unfold feed, message. cbn [m_fragments m_fragment m_packet m_payload]. destruct Hparts as [Hp1 Hp2]. unfold MAX_FRAGMENTS in Hp2.
  rewrite (proj2 (Z.leb_gt _ _)) by lia. rewrite (proj2 (Z.leb_gt (Z.of_nat (length parts)) (Z.of_nat i))) by lia.
  assert (Hps' : Forall2 part_of (<[i := Some p]> ps) parts) by (rewrite <- (list_insert_id parts i p Hi); apply Forall2_insert; [done|by right]).
  destruct (Forall2_lookup_r _ _ _ _ _ Hps Hi) as (o & Ho & Hop). rewrite !Nat2Z.id.
  assert (Hbegun : (0 < nones ps)%nat -> (if known r (mkMessage session packet (Z.of_nat i) (Z.of_nat (length parts)) address p) then r else collect (mkMessage session packet (Z.of_nat i) (Z.of_nat (length parts)) address p)) = Collecting packet ps (nones ps) (bytes_in ps)).
  { intros Hn. destruct Hr as [(-> & _ & Hk)|[(_ & ->)|(Hz & _)]]; [| |lia].
    - destruct (nones_replicate (length parts)) as [-> ->]. replace (known r _) with false by (symmetry; exact Hk). unfold collect. cbn. by rewrite Nat2Z.id.
    - cbn [known m_packet m_fragments]. rewrite Z.eqb_refl, Nat2Z.id, (Forall2_length _ _ _ Hps), Nat.eqb_refl. done. }
  destruct (Nat.ltb_spec 0 (nones ps)) as [Hn|Hn]; cbn [andb].
  - rewrite Hbegun by done. rewrite Ho. cbn [mbind option_bind]. destruct Hop as [-> | ->].
    + destruct (nones_insert ps i p Ho) as [Hni Hbi]. pose proof (bytes_within _ Hps') as Hb. rewrite Hbi in Hb. rewrite (proj2 (Z.ltb_ge _ _)) by lia. rewrite Hni.
      destruct (nones (<[i := Some p]> ps)) as [|k] eqn:Hk; cbn [Nat.eqb].
      * eexists. rewrite (all_came _ Hps' Hk). split; [done|]. split; [done|]. right. right. by rewrite Hk.
      * eexists. split; [done|]. split; [done|]. right. left. rewrite Hk, Hbi. split; [lia|done].
    + rewrite (list_insert_id ps i (Some p)) by done. replace (nones ps =? 0)%nat with false by (symmetry; apply Nat.eqb_neq; lia). eexists. split; [done|]. split; [done|]. right. by left.
  - destruct Hr as [(-> & _)|[(? & _)|(Hz & ->)]]; [destruct (nones_replicate (length parts)); lia|lia|]. cbn [known m_packet m_fragments]. rewrite !Z.eqb_refl. cbn [andb].
    destruct Hop as [-> | ->]; [destruct (nones_insert ps i p Ho); lia|]. rewrite (list_insert_id ps i (Some p)) by done. eexists. split; [done|]. split; [done|]. right. by right.
Qed.

Lemma gathered_ok r ps : gathered r ps -> reassembly_ok r.
Proof. intros [_ [(_ & Hr & _)|[(? & ->)|(_ & ->)]]]; [done|done|done]. Qed.
End Gather.

(** ** The sessions *)

Definition udp_ok (u : Udp) : Prop := forall id e, sessions u !! id = Some e -> reassembly_ok (reassembly e).

Lemma deliver_total u d : udp_ok u -> exists u', deliver u d = Some u' /\ udp_ok u'.
Proof.
  intros Hu. unfold deliver. destruct (parse d) as [m|]; [|eauto]. destruct (sessions u !! m_session m) as [e|] eqn:He; [|eauto].
  destruct (feed_total (reassembly e) m (Hu _ _ He)) as (r & whole & -> & Hr). cbn [mbind option_bind]. eexists. split; [done|]. intros id' e'.
  destruct whole; cbn [sessions]; intros [[<- <-]|[_ Hl]]%lookup_insert_Some; try done; by eapply Hu.
Qed.

Lemma deliver_all_total u ds : udp_ok u -> exists u', deliver_all u ds = Some u' /\ udp_ok u'.
Proof. revert u. induction ds as [|d ds IH]; intros u Hu; cbn; [eauto|]. destruct (deliver_total u d Hu) as (u' & -> & Hu'). by apply IH. Qed.

(** No message of the session. *)
Definition foreign (id : Z) (d : list Z) : Prop := match parse d with Some m => m_session m <> id | None => True end.

#[export] Instance foreign_dec id d : Decision (foreign id d).
Proof. unfold foreign. destruct (parse d); apply _. Defined.

(** The inbox is the session's alone. *)
Definition alone (u : Udp) (id : Z) (i : nat) : Prop := forall id' e, id' <> id -> sessions u !! id' = Some e -> inbox e <> i.

Lemma deliver_foreign u d id i : foreign id d -> udp_ok u -> alone u id i -> exists u', deliver u d = Some u' /\ udp_ok u' /\ alone u' id i /\ sessions u' !! id = sessions u !! id /\ inboxes u' !! i = inboxes u !! i.
Proof.
  intros Hd Hu Ha. destruct (deliver_total u d Hu) as (u' & Hdel & Hu'). exists u'. split; [done|]. split; [done|]. unfold deliver in Hdel. unfold foreign in Hd. destruct (parse d) as [m|]; [|by injection Hdel as <-].
  destruct (sessions u !! m_session m) as [e|] eqn:He; [|by injection Hdel as <-]. destruct (feed (reassembly e) m) as [[r whole]|]; cbn in Hdel; [|done]. injection Hdel as <-. pose proof (Ha _ _ Hd He) as Hi.
  assert (Hal : alone (mkUdp (<[m_session m := mkEntry (inbox e) r]> (sessions u)) (inboxes u)) id i) by (intros id' e' Hne; cbn [sessions]; intros [[<- <-]|[_ Hl]]%lookup_insert_Some; [done|by eapply Ha]).
  destruct whole as [whole|]; [|by cbn; rewrite lookup_insert_ne]. split; [exact Hal|]. cbn. rewrite lookup_insert_ne by done. split; [done|]. destruct (source (m_address m)); [|done]. unfold try_send. repeat case_match; [by rewrite lookup_insert_ne|done|done].
Qed.

Lemma deliver_own u d m id i r r' whole (waiting : list Packet) : parse d = Some m -> m_session m = id -> udp_ok u -> alone u id i -> sessions u !! id = Some (mkEntry i r) -> inboxes u !! i = Some waiting -> feed r m = Some (r', whole) ->
  exists u', deliver u d = Some u' /\ udp_ok u' /\ alone u' id i /\ sessions u' !! id = Some (mkEntry i r')
    /\ inboxes u' !! i = Some (match whole, source (m_address m) with Some whole, Some from => if (length waiting <? INBOX)%nat then waiting ++ [(whole, from)] else waiting | _, _ => waiting end).
Proof.
  intros Hp Hid Hu Ha Hs Hw Hf. destruct (deliver_total u d Hu) as (u' & Hdel & Hu'). exists u'. split; [done|]. split; [done|]. unfold deliver in Hdel. rewrite Hp, Hid, Hs in Hdel. cbn [reassembly inbox] in Hdel. rewrite Hf in Hdel. cbn [mbind option_bind] in Hdel. injection Hdel as <-.
  assert (Hal : alone (mkUdp (<[id := mkEntry i r']> (sessions u)) (inboxes u)) id i) by (intros id' e' Hne; cbn [sessions]; intros [[<- <-]|[_ Hl]]%lookup_insert_Some; [done|by eapply Ha]).
  destruct whole as [whole|]; [|cbn [sessions inboxes]; by rewrite lookup_insert_eq]. split; [exact Hal|]. cbn [sessions inboxes]. rewrite lookup_insert_eq. split; [done|]. destruct (source (m_address m)); [|done]. unfold try_send. rewrite Hw. case_match; [by rewrite lookup_insert_eq|done].
Qed.

(** ** A datagram and what it goes out in *)

Lemma nones_zero ps : nones ps = 0%nat <-> Forall (fun o => o <> None) ps.
Proof. unfold nones. induction ps as [|[p|] ps IH]; cbn; [done| |]; rewrite Forall_cons; [naive_solver|]. split; [done|]. by intros [? _]. Qed.

Section Arrive.
Context (id packet : Z) (address : list Z) (parts : list (list Z)) (from : Target) (i : nat) (waiting : list Packet).
Hypothesis Hid : 0 <= id < 2 ^ 32.
Hypothesis Hpacket : 0 <= packet < 65536.
Hypothesis Haddress : (1 <= length address <= MAX_ADDRESS)%nat.
Hypothesis Hsource : source address = Some from.
Hypothesis Hparts : (2 <= length parts <= MAX_FRAGMENTS)%nat.
Hypothesis Hsize : Z.of_nat (length (List.concat parts)) <= MAX_DATAGRAM.
Hypothesis Hroom : (length waiting < INBOX)%nat.

Definition fragment (k : nat) (p : list Z) : list Z := wire id packet (Z.of_nat k) (Z.of_nat (length parts)) address p.

Lemma parse_fragment k p : parse (fragment k p) = Some (message id packet address parts k p).
Proof. by apply parse_wire. Qed.

Lemma fragment_inj k p k' p' : fragment k p = fragment k' p' -> k = k'.
Proof. intros He. pose proof (parse_fragment k p) as H1. rewrite He, parse_fragment in H1. injection H1 as H1 _. lia. Qed.

(** Where the connection is once the parts [ps] came. *)
Definition arriving (u : Udp) (ps : list (option (list Z))) : Prop :=
  udp_ok u /\ alone u id i /\ (exists r, sessions u !! id = Some (mkEntry i r) /\ gathered id packet address parts r ps)
  /\ inboxes u !! i = Some (if (nones ps =? 0)%nat then waiting ++ [(List.concat parts, from)] else waiting).

Lemma arrivals_gather arrivals : forall u ps, arriving u ps -> Forall (fun d => (exists k p, parts !! k = Some p /\ d = fragment k p) \/ foreign id d) arrivals ->
  exists u' ps', deliver_all u arrivals = Some u' /\ arriving u' ps' /\ forall k p, parts !! k = Some p -> ps' !! k = Some (Some p) <-> ps !! k = Some (Some p) \/ fragment k p ∈ arrivals.
Proof.
  induction arrivals as [|d arrivals IH]; intros u ps Hu Ha; cbn [deliver_all]; [exists u, ps; split; [done|]; split; [done|]; set_solver|]. apply Forall_cons in Ha as [Hd Ha]. destruct Hu as (Hok & Hal & (r & Hs & Hg) & Hi).
  destruct Hd as [(k & p & Hk & ->)|Hd].
  - destruct (feed_part id packet address parts Hparts Hsize r ps k p Hg Hk) as (r' & Hf & Hg').
    destruct (deliver_own u (fragment k p) _ id i r r' _ _ (parse_fragment k p) eq_refl Hok Hal Hs Hi Hf) as (u' & Hdel & Hok' & Hal' & Hs' & Hi').
    assert (Harr : arriving u' (<[k := Some p]> ps)).
    { split; [done|]. split; [done|]. split; [by exists r'|]. rewrite Hi'. cbn [m_address message]. rewrite Hsource. destruct (Forall2_lookup_r _ _ _ _ _ (proj1 Hg) Hk) as (o & Ho & Hop).
      destruct (Nat.ltb_spec 0 (nones ps)) as [Hn|Hn]; cbn [andb].
      - replace (nones ps =? 0)%nat with false by (symmetry; apply Nat.eqb_neq; lia). destruct (nones (<[k := Some p]> ps) =? 0)%nat; [|done]. by rewrite (proj2 (Nat.ltb_lt _ _)).
      - replace (nones ps) with 0%nat by lia. destruct Hop as [-> | ->]; [destruct (nones_insert ps k p Ho); lia|]. rewrite (list_insert_id ps k (Some p)) by done. by replace (nones ps) with 0%nat by lia. }
    destruct (IH u' _ Harr Ha) as (u'' & ps' & Hall & Harr' & Hiff). exists u'', ps'. rewrite Hdel. split; [done|]. split; [done|]. intros k' p' Hk'. rewrite Hiff by done. rewrite elem_of_cons.
    pose proof (lookup_lt_Some _ _ _ Hk). pose proof (Forall2_length _ _ _ (proj1 Hg)). destruct (decide (k' = k)) as [->|Hne].
    + rewrite Hk in Hk'. injection Hk' as <-. rewrite list_lookup_insert_eq by lia. naive_solver.
    + rewrite list_lookup_insert_ne by done. split; [naive_solver|]. intros [?|[He|?]]; [by left| |by right]. by apply fragment_inj in He.
  - destruct (deliver_foreign u d id i Hd Hok Hal) as (u' & Hdel & Hok' & Hal' & Hs' & Hi'). rewrite Hdel. cbn [mbind option_bind].
    destruct (IH u' ps) as (u'' & ps' & Hall & Harr' & Hiff); [|done|].
    + split; [done|]. split; [done|]. split; [exists r; by rewrite Hs'|by rewrite Hi'].
    + exists u'', ps'. split; [done|]. split; [done|]. intros k p Hk. rewrite Hiff by done. rewrite elem_of_cons. split; [naive_solver|]. intros [?|[<-|?]]; [by left| |by right].
      unfold foreign in Hd. rewrite parse_fragment in Hd. by cbn in Hd.
Qed.
End Arrive.

Lemma wire_length id packet fragment count address payload : length (wire id packet fragment count address payload) = (length (header id address) + length payload)%nat.
Proof. unfold wire, header, be32, be16. rewrite !length_app. cbn [length]. lia. Qed.

Lemma datagrams_are packet id address payload max ds : datagrams packet id address payload max = Ok ds ->
  Forall (fun d => (length d <= max)%nat) ds
  /\ (ds = [wire id 0 0 1 address payload]
      \/ exists parts, List.concat parts = payload /\ (2 <= length parts <= MAX_FRAGMENTS)%nat /\ ds = imap (fun k p => wire id packet (Z.of_nat k) (Z.of_nat (length parts)) address p) parts).
Proof.
  unfold datagrams. destruct (Nat.leb_spec (length (header id address) + length payload) max) as [Hle|Hgt].
  { intros Hd. assert (ds = [header id address ++ payload]) as -> by (by injection Hd as <-). rewrite header_wire. split; [|by left]. constructor; [|constructor]. by rewrite wire_length. }
  set (room := (max - length (header id address))%nat). destruct (Nat.eqb_spec room 0) as [|Hroom]; [done|]. unfold MAX_FRAGMENTS. destruct (Nat.ltb_spec (255 * room) (length payload)) as [|Hp]; [done|]. intros Hd. assert (ds = imap (fragment_of (header id address) packet (Nat.div (length payload + (room - 1)) room)) (chunks room payload)) as -> by (by injection Hd as <-). clear Hd.
  destruct (chunks_ok room payload ltac:(lia)) as (Hc & Hf & Hl). pose proof (chunks_from_ok (length payload) room payload ltac:(lia) ltac:(done)) as (_ & _ & Hlt & Hle). fold (chunks room payload) in Hlt, Hle. rewrite <- Hl.
  assert (Hn : (2 <= length (chunks room payload) <= 255)%nat) by (split; nia).
  assert (He : imap (fragment_of (header id address) packet (length (chunks room payload))) (chunks room payload) = imap (fun k p => wire id packet (Z.of_nat k) (Z.of_nat (length (chunks room payload))) address p) (chunks room payload)).
  { apply list_eq. intros k. rewrite !list_lookup_imap. destruct (chunks room payload !! k) as [p|] eqn:Hk; [|done]. apply lookup_lt_Some in Hk. cbn [fmap option_fmap option_map]. by rewrite fragment_wire by lia. }
  rewrite He. split; [|right; by exists (chunks room payload)]. apply Forall_lookup_2. intros k d. rewrite list_lookup_imap. destruct (chunks room payload !! k) as [p|] eqn:Hk; [|done]. cbn [fmap option_fmap option_map]. intros [= <-]. rewrite wire_length.
  pose proof (Forall_lookup_1 _ _ _ _ Hf Hk) as Hpl. cbn in Hpl. unfold room in Hpl. lia.
Qed.

Lemma all_foreign id i arrivals : forall u, udp_ok u -> alone u id i -> Forall (foreign id) arrivals -> exists u', deliver_all u arrivals = Some u' /\ inboxes u' !! i = inboxes u !! i.
Proof.
  induction arrivals as [|d arrivals IH]; intros u Hok Hal Ha; cbn [deliver_all]; [eauto|]. apply Forall_cons in Ha as [Hd Ha]. destruct (deliver_foreign u d id i Hd Hok Hal) as (u' & -> & Hok' & Hal' & _ & <-). by apply IH.
Qed.

Lemma whole_arrives id address payload from i r (waiting : list Packet) arrivals : 0 <= id < 2 ^ 32 -> (1 <= length address <= MAX_ADDRESS)%nat -> source address = Some from -> (length waiting < INBOX)%nat ->
  let d := wire id 0 0 1 address payload in forall u, udp_ok u -> alone u id i -> sessions u !! id = Some (mkEntry i r) -> inboxes u !! i = Some waiting -> Forall (fun a => a = d \/ foreign id a) arrivals -> NoDup (filter (fun a => a = d) arrivals) ->
  exists u', deliver_all u arrivals = Some u' /\ inboxes u' !! i = Some (if decide (d ∈ arrivals) then waiting ++ [(payload, from)] else waiting).
Proof.
  intros Hid Haddr Hsrc Hroom d. assert (Hp : parse d = Some (mkMessage id 0 0 1 address payload)) by (apply parse_wire; [done|lia|done]). assert (Hnf : ~ foreign id d) by (unfold foreign; rewrite Hp; cbn; by intros H).
  induction arrivals as [|a arrivals IH]; intros u Hok Hal Hs Hi Ha Hnd; cbn [deliver_all]; [exists u; split; [done|]; rewrite decide_False by set_solver; done|]. apply Forall_cons in Ha as [Hd Ha]. destruct (decide (a = d)) as [->|Hne].
  - rewrite filter_cons_True in Hnd by done. apply NoDup_cons in Hnd as [Hnot _]. destruct (deliver_own u d _ id i r r (Some payload) waiting Hp eq_refl Hok Hal Hs Hi) as (u' & -> & Hok' & Hal' & _ & Hi'); [by unfold feed|].
    cbn [mbind option_bind]. destruct (all_foreign id i arrivals u' Hok' Hal') as (u'' & -> & Hi''). { rewrite Forall_forall in Ha |- *. intros x Hx. destruct (Ha x Hx) as [->|]; [|done]. exfalso. apply Hnot. by apply list_elem_of_filter. }
    exists u''. split; [done|]. rewrite Hi'', Hi'. cbn [m_address]. rewrite Hsrc. rewrite (proj2 (Nat.ltb_lt _ _)) by done. by rewrite decide_True by set_solver.
  - destruct Hd as [|Hd]; [done|]. destruct (deliver_foreign u a id i Hd Hok Hal) as (u' & -> & Hok' & Hal' & Hs' & Hi'). cbn [mbind option_bind]. rewrite filter_cons_False in Hnd by done.
    destruct (IH u' Hok' Hal' ltac:(by rewrite Hs') ltac:(by rewrite Hi') Ha Hnd) as (u'' & -> & Hi''). exists u''. split; [done|]. rewrite Hi''. f_equal. apply decide_ext. set_solver.
Qed.

(** C36: a connection's sessions take whatever comes without a panic; and what a
    datagram of a session goes out in — each no longer than was asked for — brings
    it to the carrier's inbox as it was, with its source, exactly when all of it
    came, once however often its fragments are repeated, in any order and with
    anything that is not the session's between. *)
Theorem datagrams_arrive :
  (forall u ds, udp_ok u -> exists u', deliver_all u ds = Some u' /\ udp_ok u')
  /\ (forall packet id address payload max ds from u i r (waiting : list Packet) arrivals,
    0 <= id < 2 ^ 32 -> 0 <= packet < 65536 -> (1 <= length address <= MAX_ADDRESS)%nat -> source address = Some from -> Z.of_nat (length payload) <= MAX_DATAGRAM -> datagrams packet id address payload max = Ok ds ->
    udp_ok u -> sessions u !! id = Some (mkEntry i r) -> alone u id i -> inboxes u !! i = Some waiting -> (length waiting < INBOX)%nat ->
    known r (mkMessage id packet 0 (Z.of_nat (length ds)) address []) = false ->
    Forall (fun d => d ∈ ds \/ foreign id d) arrivals -> (length ds = 1%nat -> NoDup (filter (fun d => d ∈ ds) arrivals)) ->
    Forall (fun d => (length d <= max)%nat) ds
    /\ exists u', deliver_all u arrivals = Some u' /\ inboxes u' !! i = Some (if decide (Forall (fun d => d ∈ arrivals) ds) then waiting ++ [(payload, from)] else waiting)).
Proof.
  split; [intros u ds; apply deliver_all_total|]. intros packet id address payload max ds from u i r waiting arrivals Hid Hpk Haddr Hsrc Hsize Hds Hok Hs Hal Hi Hroom Hfresh Ha Hnd. apply datagrams_are in Hds as [Hlen Hds]. split; [done|].
  destruct Hds as [->|(parts & <- & Hparts & ->)].
  - destruct (whole_arrives id address payload from i r waiting arrivals Hid Haddr Hsrc Hroom u Hok Hal Hs Hi) as (u' & Hall & Hi').
    + eapply Forall_impl; [exact Ha|]. intros d [?%list_elem_of_singleton|]; auto.
    + specialize (Hnd eq_refl). erewrite list_filter_iff; [exact Hnd|]. intros d. cbn. by rewrite list_elem_of_singleton.
    + exists u'. split; [done|]. rewrite Hi'. f_equal. apply decide_ext. rewrite Forall_singleton. done.
  - rewrite length_imap in Hfresh. assert (Harr : arriving id packet address parts from i waiting u (replicate (length parts) None)).
    { split; [done|]. split; [done|]. destruct (nones_replicate (length parts)) as [-> _]. replace (length parts =? 0)%nat with false by (symmetry; apply Nat.eqb_neq; lia). split; [|done]. exists r. split; [done|]. split; [|left; split; [done|]; split; [exact (Hok _ _ Hs)|done]].
      clear. induction parts as [|p parts IH]; cbn; constructor; [by left|done]. }
    destruct (arrivals_gather id packet address parts from i waiting Hid Hpk Haddr Hsrc Hparts Hsize Hroom arrivals u _ Harr) as (u' & ps' & Hall & (_ & _ & (r' & _ & Hg) & Hi') & Hiff).
    + eapply Forall_impl; [exact Ha|]. intros d [Hd|]; [left|by right]. apply list_elem_of_lookup in Hd as (k & Hk). rewrite list_lookup_imap in Hk. destruct (parts !! k) as [p|] eqn:Hp; [|done]. injection Hk as <-. by exists k, p.
    + exists u'. split; [done|]. rewrite Hi'. f_equal. pose proof (proj1 Hg) as Hps. assert (Hz : nones ps' = 0%nat <-> Forall (fun d => d ∈ arrivals) (imap (fun k p => wire id packet (Z.of_nat k) (Z.of_nat (length parts)) address p) parts)).
      { rewrite nones_zero, !Forall_lookup. split.
        - intros Hn k d Hk. rewrite list_lookup_imap in Hk. destruct (parts !! k) as [p|] eqn:Hp; [|done]. injection Hk as <-. destruct (Forall2_lookup_r _ _ _ _ _ Hps Hp) as (o & Ho & Hop). specialize (Hn k o Ho).
          destruct Hop as [-> | ->]; [done|]. apply (Hiff k p Hp) in Ho as [Ho|]; [|done]. apply lookup_replicate in Ho as [? _]. done.
        - intros Hd k o Ho. destruct (Forall2_lookup_l _ _ _ _ _ Hps Ho) as (p & Hp & _). assert (Hx : ps' !! k = Some (Some p)) by (apply (Hiff k p Hp); right; apply (Hd k); rewrite list_lookup_imap, Hp; done). by simplify_eq. }
      destruct (Nat.eqb_spec (nones ps') 0) as [Hn|Hn]; [by rewrite decide_True by (by apply Hz)|rewrite decide_False; [done|]]. by rewrite <- Hz.
Qed.

(** Two fragments of a datagram from [1.2.3.4:53], the second first, repeated,
    with a message of another session between. *)
Definition example_address : list Z := utf8_encode (lit "1.2.3.4:53").
Definition example_payload : list Z := [1; 2; 3; 4; 5].
Definition example_datagrams : list (list Z) := match datagrams 7 1 example_address example_payload 22 with Ok ds => ds | Err _ => [] end.
Definition example_arrivals : list (list Z) := match example_datagrams with [a; b] => [b; wire 2 0 0 1 example_address [9]; b; a; a] | _ => [] end.
Definition example_udp : Udp := mkUdp {[ 1 := mkEntry 0 Idle; 2 := mkEntry 1 Idle ]} {[ 0%nat := []; 1%nat := [] ]}.

Lemma datagrams_arrive_witness : exists u', deliver_all example_udp example_arrivals = Some u' /\ inboxes u' !! 0%nat = Some ([(example_payload, mkTarget (IpLiteral (V4 16909060)) 53)] : list Packet).
Proof.
  destruct (proj2 datagrams_arrive 7 1 example_address example_payload 22%nat example_datagrams (mkTarget (IpLiteral (V4 16909060)) 53) example_udp 0%nat Idle [] example_arrivals) as [_ (u' & Hu & Hi)].
  - lia.
  - lia.
  - vm_compute. lia.
  - by vm_compute.
  - vm_compute. done.
  - by vm_compute.
  - intros id e. cbn [example_udp sessions]. intros [[<- <-]|[_ [<- <-]%lookup_singleton_Some]]%lookup_insert_Some; done.
  - by vm_compute.
  - intros id e Hne. cbn [example_udp sessions]. intros [[<- _]|[_ [<- <-]%lookup_singleton_Some]]%lookup_insert_Some; done.
  - by vm_compute.
  - cbn. unfold INBOX. lia.
  - by vm_compute.
  - apply (bool_decide_unpack _). by vm_compute.
  - intros H. by vm_compute in H.
  - exists u'. split; [exact Hu|]. rewrite Hi. by vm_compute.
Defined.
