(* ===== verification/TuicUdp.v ===== *)
(** * UDP over TUIC

    [crates/rurge-proto-quic/src/tuic/udp.rs]: the Packet commands of both
    versions, what a packet goes out in, what comes in is read as, the packets put
    together from their fragments, and a connection's associations with the
    inboxes of their carriers.  Binding a carrier to a connection and handing
    messages to QUIC are left out; the random source is a parameter.  [None] of an
    operation is a panic where its type does not say otherwise. *)

From S2P Require Import Prelude FakeIpAddr RuleMatcher HostText Hysteria2Udp.

Definition UNDER_WAY : nat := 8.
Definition HEADER : nat := 10.
Definition HEADER_V4 : nat := 8.
Definition PACKET : Z := 2.
Definition DISSOCIATE : Z := 3.
Definition HEARTBEAT : Z := 4.

Inductive Version := Tuic4 | Tuic5.
#[export] Instance Version_eq_dec : EqDecision Version.
Proof. solve_decision. Defined.

Definition version_byte (v : Version) : Z := match v with Tuic4 => 4 | Tuic5 => 5 end.

(** ** Going out *)

Inductive SendError := NoRoom | LongerThan (most : Z).

Definition encode (association packet fragments fragment : Z) (address payload : list Z) : list Z :=
  [version_byte Tuic5; PACKET] ++ be16 association ++ be16 packet ++ [fragments; fragment] ++ be16 (Z.of_nat (length payload) mod 65536) ++ address ++ payload.

(** The chunks, numbered; the first names the address. *)
Definition fragment_of (association packet : Z) (address : list Z) (fragments : Z) (fragment : nat) (chunk : list Z) : list Z :=
  encode association packet fragments (Z.of_nat fragment mod 256) (if (fragment =? 0)%nat then address else [NONE]) chunk.

Definition datagrams (association packet : Z) (address payload : list Z) (max : nat) : res SendError (list (list Z)) :=
  if (HEADER + length address + length payload <=? max)%nat then Ok [encode association packet 1 0 address payload]
  else
    let first := (max - (HEADER + length address))%nat in
    let rest := (max - (HEADER + 1))%nat in
    if (first =? 0)%nat || (rest =? 0)%nat then Err NoRoom
    else
      let longest := Z.min MAX_DATAGRAM (Z.of_nat (first + (MAX_FRAGMENTS - 1) * rest)) in
      if longest <? Z.of_nat (length payload) then Err (LongerThan longest)
      else
        let parts := take first payload :: chunks rest (drop first payload) in
        Ok (imap (fragment_of association packet address (Z.of_nat (length parts) mod 256)) parts).

Definition encode_v4 (association : Z) (address payload : list Z) : list Z :=
  [version_byte Tuic4; PACKET] ++ be32 association ++ be16 (Z.of_nat (length payload) mod 65536) ++ address ++ payload.

Definition datagram_v4 (association : Z) (address payload : list Z) (max : nat) : res SendError (list Z) :=
  let room := (max - (HEADER_V4 + length address))%nat in
  if (room <? length payload)%nat then Err (if (room =? 0)%nat then NoRoom else LongerThan (Z.of_nat room))
  else Ok (encode_v4 association address payload).

Definition dissociation (version : Version) (id : Z) : list Z :=
  [version_byte version; DISSOCIATE] ++ match version with Tuic4 => be32 id | Tuic5 => be16 (id mod 65536) end.

(** ** Coming in *)

Record Message := mkMessage { association : Z; packet : Z; fragments : Z; fragment : Z; m_source : option Target; payload : list Z }.

(** [None] is no packet. *)
Definition parse (version : Version) (data : list Z) : option Message :=
  let start := match version with Tuic4 => HEADER_V4 | Tuic5 => HEADER end in
  header ← slice data 0 start;
  '(association, packet, fragments, fragment, size) ←
    match version, header with
    | Tuic4, [v; t; a; b; c; d; e; f] => if (v =? 4) && (t =? PACKET) then Some (of_be32 a b c d, 0, 1, 0, of_be16 e f) else None
    | Tuic5, [v; t; a; b; c; d; e; f; g; h] => if (v =? 5) && (t =? PACKET) then Some (of_be16 a b, of_be16 c d, e, f, of_be16 g h) else None
    | _, _ => None
    end;
  '(source, len) ← get (drop start data);
  let start := (start + len)%nat in
  if negb (Z.of_nat (length data - start) =? size) then None
  else Some (mkMessage association packet fragments fragment source (drop start data)).

(** ** Packets put together *)

Record Partial := mkPartial { p_packet : Z; parts : list (option (list Z)); missing : nat; size : nat; p_source : option Target }.

Definition position (packet : Z) (under_way : list Partial) : option nat := fst <$> list_find (fun p => p_packet p = packet) under_way.

Definition blank (m : Message) : Partial := mkPartial (packet m) (replicate (Z.to_nat (fragments m)) None) (Z.to_nat (fragments m)) 0 None.

(** The packet's place among those under way, begun anew when it has none. *)
Definition place (q : list Partial) (m : Message) : list Partial * nat :=
  let begin_ q := let q := (if (length q =? UNDER_WAY)%nat then tail q else q) ++ [blank m] in (q, (length q - 1)%nat) in
  match position (packet m) q with
  | Some at_ => match q !! at_ with Some p => if (length (parts p) =? Z.to_nat (fragments m))%nat then (q, at_) else begin_ (delete at_ q) | None => begin_ q end
  | None => begin_ q
  end.

(** [feed]: those under way afterwards, and the packet that is whole. *)
Definition feed (q : list Partial) (m : Message) : option (list Partial * option Packet) :=
  let count := fragments m in
  if count <=? 1 then Some (q, (fun from => (payload m, from)) <$> m_source m)
  else if count <=? fragment m then Some (q, None)
  else
    let '(q, at_) := place q m in
    p ← q !! at_;
    part ← parts p !! Z.to_nat (fragment m);
    match part with
    | Some _ => Some (q, None)
    | None =>
        let size := (size p + length (payload m))%nat in
        if MAX_DATAGRAM <? Z.of_nat size then Some (delete at_ q, None)
        else
          let source := if fragment m =? 0 then m_source m else p_source p in
          let parts := <[Z.to_nat (fragment m) := Some (payload m)]> (parts p) in
          match missing p with
          | 0%nat => None
          | 1%nat => Some (delete at_ q, (fun from => (List.concat (omap id parts), from)) <$> source)
          | S missing => Some (<[at_ := mkPartial (p_packet p) parts missing size source]> q, None)
          end
    end.

(** ** The associations of a connection *)

Record Association := mkAssociation { inbox : nat; reassembly : list Partial }.

(** [relayed]: whether the server relayed anything; the inboxes are those of all
    carriers. *)
Record Udp := mkUdp { version : Version; by_id : gmap Z Association; next : Z; relayed : bool; inboxes : gmap nat (list Packet) }.

Section Join.
Context {R : Type} (random_u32 : R -> option Z * R).

(** The loop of [join]: [None] when no id was free, with the count of the ids. *)
Fixpoint join_from (fuel : nat) (version : Version) (by_id : gmap Z Association) (next : Z) (drawn : option Z) (r : R) : option Z * Z * R :=
  match fuel with
  | 0%nat => (None, next, r)
  | S fuel =>
      let '(id, r) := match version with
        | Tuic4 => match drawn with Some id => (id, r) | None => let '(random, r) := random_u32 r in (default next random, r) end
        | Tuic5 => (next, r)
        end in
      match by_id !! id with
      | None => (Some id, (next + 1) mod 65536, r)
      | Some _ => join_from fuel version by_id ((next + 1) mod 65536) None r
      end
  end.

Definition join (u : Udp) (inbox : nat) (r : R) : option Z * Udp * R :=
  let '(drawn, r) := match version u with Tuic4 => random_u32 r | Tuic5 => (None, r) end in
  let '(id, next, r) := join_from (Z.to_nat 65536) (version u) (by_id u) (next u) drawn r in
  (id, mkUdp (version u) (match id with Some id => <[id := mkAssociation inbox []]> (by_id u) | None => by_id u end) next (relayed u) (inboxes u), r).
End Join.

(** [leave]: what is queued for the server comes with it. *)
Definition leave (u : Udp) (id : Z) (dissociate : bool) : Udp * option (list Z) :=
  (mkUdp (version u) (delete id (by_id u)) (next u) (relayed u) (inboxes u), if dissociate then Some (dissociation (version u) id) else None).

Definition starts_with_heartbeat (version : Version) (data : list Z) : bool := bool_decide (take 2 data = [version_byte version; HEARTBEAT]).

Definition deliver (u : Udp) (data : list Z) : option Udp :=
  if starts_with_heartbeat (version u) data then Some u
  else match parse (version u) data with
  | None => Some u
  | Some message =>
      match by_id u !! association message with
      | None => Some (mkUdp (version u) (by_id u) (next u) true (inboxes u))
      | Some a =>
          '(q, answer) ← feed (reassembly a) message;
          Some (mkUdp (version u) (<[association message := mkAssociation (inbox a) q]> (by_id u)) (next u) true (match answer with Some answer => try_send (inbox a) answer (inboxes u) | None => inboxes u end))
      end
  end.

Fixpoint deliver_all (u : Udp) (data : list (list Z)) : option Udp := match data with [] => Some u | d :: data => u ← deliver u d; deliver_all u data end.
