(* ===== verification/TuicProps.v ===== *)
(** * Packets over TUIC arrive

    Whatever comes, a connection's associations take it without a panic and within
    their bounds; what is written is read back; and the packets of an association
    that go out under ids of their own, eight at most at a time, arrive whichever
    way their datagrams are interleaved. *)

From S2P Require Import Prelude FakeIpAddr RuleMatcher HostText Hysteria2Udp Hysteria2Props TuicUdp.

(** ** Addresses *)

Lemma slice_app (a b : list Z) i n s : slice a i n = Some s -> slice (a ++ b) i n = Some s.
Proof.
  unfold slice. rewrite length_app. case_decide as Hd; [|done]. rewrite decide_True by lia. intros [= <-]. f_equal.
  rewrite drop_app_le by lia. rewrite take_app_le; [done|]. rewrite length_drop. lia.
Qed.

(** What follows an address is not read. *)
Lemma get_app address r rest : get address = Some r -> get (address ++ rest) = Some r.
Proof.
  destruct address as [|kind address]; [done|]. cbn [get app]. case_match; [done|].
  assert (Hend : forall host len, match slice address len 2 with Some [a; b] => Some (Some (mkTarget host (of_be16 a b)), (1 + len + 2)%nat) | _ => None end = Some r ->
    match slice (address ++ rest) len 2 with Some [a; b] => Some (Some (mkTarget host (of_be16 a b)), (1 + len + 2)%nat) | _ => None end = Some r).
  { intros h len. destruct (slice address len 2) as [s|] eqn:Hs; [|done]. by rewrite (slice_app _ rest _ _ _ Hs). }
  destruct (kind =? IPV4); [|destruct (kind =? IPV6); [|destruct (kind =? DOMAIN); [|done]]].
  - destruct (slice address 0 4) as [s|] eqn:Hs; [|done]. rewrite (slice_app _ rest _ _ _ Hs). destruct s as [|? [|? [|? [|? [|]]]]]; try done. apply Hend.
  - destruct (slice address 0 16) as [s|] eqn:Hs; [|done]. rewrite (slice_app _ rest _ _ _ Hs). apply Hend.
  - destruct address as [|n name]; [done|]. cbn [app]. destruct (slice name 0 (Z.to_nat n)) as [s|] eqn:Hs; [|done]. rewrite (slice_app _ rest _ _ _ Hs). cbn [mbind option_bind].
    destruct (utf8_decode s) as [text|]; [|done]. cbn [mbind option_bind]. destruct (from_wire text) as [h|]; [|done]. apply Hend.
Qed.

(** ** What is written is read back *)

Lemma parse_v5 association packet n k address payload r : 0 <= association < 65536 -> 0 <= packet < 65536 -> Z.of_nat (length payload) <= MAX_DATAGRAM -> get address = Some (r, length address) ->
  parse Tuic5 (encode association packet n k address payload) = Some (mkMessage association packet n k r payload).
Proof.
  intros Ha Hp Hl Hg. unfold parse, encode. set (body := address ++ payload). unfold MAX_DATAGRAM in Hl. rewrite (Z.mod_small (Z.of_nat (length payload))) by lia.
  unfold be16. cbn [app]. unfold slice, HEADER. cbn [length Nat.add]. rewrite decide_True by lia. cbn [drop take mbind option_bind version_byte]. cbn [andb Z.eqb Pos.eqb PACKET].
  rewrite take_0, drop_0. cbn [mbind option_bind].   unfold body. rewrite (get_app _ _ payload Hg). cbn [mbind option_bind]. rewrite drop_app_length. rewrite !be16_reads by lia.
  replace (Z.of_nat _ =? Z.of_nat (length payload)) with true; [done|]. symmetry. rewrite Z.eqb_eq, length_app. lia.
Qed.

Lemma parse_v4 association address payload r : 0 <= association < 2 ^ 32 -> Z.of_nat (length payload) <= MAX_DATAGRAM -> get address = Some (r, length address) ->
  parse Tuic4 (encode_v4 association address payload) = Some (mkMessage association 0 1 0 r payload).
Proof.
  intros Ha Hl Hg. unfold parse, encode_v4. set (body := address ++ payload). unfold MAX_DATAGRAM in Hl. rewrite (Z.mod_small (Z.of_nat (length payload))) by lia.
  unfold be32, be16. cbn [app]. unfold slice, HEADER_V4. cbn [length Nat.add]. rewrite decide_True by lia. cbn [drop take mbind option_bind version_byte]. cbn [andb Z.eqb Pos.eqb PACKET].
  rewrite take_0, drop_0. cbn [mbind option_bind].   unfold body. rewrite (get_app _ _ payload Hg). cbn [mbind option_bind]. rewrite drop_app_length. rewrite be32_reads by done. rewrite be16_reads by lia.
  replace (Z.of_nat _ =? Z.of_nat (length payload)) with true; [done|]. symmetry. rewrite Z.eqb_eq, length_app. lia.
Qed.

(** The name an address is read back as: what is an IPv4 address is one, and a
    domain comes as the name it went out with. *)
Definition reads_as (wire_host : rstr -> option rstr) (h : HostName) : option HostName :=
  match h with IpLiteral ip => Some (IpLiteral (to_canonical ip)) | DomainName d => name ← wire_host d; from_wire name end.

Definition host_ok (wire_host : rstr -> option rstr) (h : HostName) : Prop :=
  match h with IpLiteral (V4 v4) => 0 <= v4 < 2 ^ 32 | IpLiteral (V6 v6) => 0 <= v6 < 2 ^ 128 | DomainName d => forall name, wire_host d = Some name -> Forall is_ascii name end.

Lemma pairs_octets6 bits : pairs (octets6 bits) = segments bits.
Proof.
  unfold octets6. assert (Hs : Forall (fun s => 0 <= s < 65536) (segments bits)) by (unfold segments; repeat constructor; apply Z.mod_pos_bound; lia).
  induction Hs as [|s l Hs _ IH]; [done|]. cbn [flat_map]. unfold be16 at 1. cbn [app pairs]. by rewrite IH, be16_reads.
Qed.

Lemma octets_read v rest : 0 <= v < 2 ^ 32 -> exists a b c d, octets v ++ rest = a :: b :: c :: d :: rest /\ of_be32 a b c d = v.
Proof. intros Hv. unfold octets. cbn [map app]. eexists _, _, _, _. split; [done|]. change (8 * 3) with 24. change (8 * 2) with 16. change (8 * 1) with 8. rewrite Z.mul_0_r, Z.shiftr_0_r. by apply be32_reads. Qed.

Lemma slice_front (a b : list Z) : slice (a ++ b) 0 (length a) = Some a.
Proof. unfold slice. rewrite length_app, decide_True by lia. by rewrite drop_0, take_app_length. Qed.

Lemma slice_port (a : list Z) p : slice (a ++ be16 p) (length a) 2 = Some (be16 p).
Proof. unfold slice. rewrite length_app, decide_True by (unfold be16; cbn; lia). by rewrite drop_app_length. Qed.

Lemma get_v6 os p : length os = 16%nat -> 0 <= p < 65536 -> get ((IPV6 :: os) ++ be16 p) = Some (Some (mkTarget (IpLiteral (to_canonical (V6 (v6_new (pairs os))))) p), length ((IPV6 :: os) ++ be16 p)).
Proof.
  intros Hl Hp. cbn [app get]. change (IPV6 =? NONE) with false. change (IPV6 =? IPV4) with false. change (IPV6 =? IPV6) with true. cbn iota. pose proof (slice_front os (be16 p)) as H6. pose proof (slice_port os p) as Hs. rewrite Hl in *. rewrite H6. cbn [mbind option_bind]. rewrite Hs.
  unfold be16 at 1. rewrite be16_reads by done. cbn [length]. rewrite length_app, Hl. done.
Qed.

Lemma ok_inj {A E} (a b : A) : @Ok E A a = Ok b -> a = b.
Proof. by intros [=]. Qed.

Lemma get_put wire_host target address h : put wire_host target = Ok address -> host_ok wire_host (host target) -> 0 <= port target < 65536 -> reads_as wire_host (host target) = Some h ->
  get address = Some (Some (mkTarget h (port target)), length address).
Proof.
  destruct target as [[d|[v4|v6]] port]; unfold put; cbn [host HostText.port host_ok reads_as]; intros Hput Hok Hport Hh.
  - destruct (wire_host d) as [name|]; [|done]. cbn [mbind option_bind] in Hh. pose proof (Hok _ eq_refl) as Ha. rewrite utf8_encode_ascii in Hput by done. destruct (Nat.leb_spec (length name) 255) as [Hle|]; [|done]. injection Hput as <-.
    cbn [get app Z.eqb DOMAIN NONE IPV4 IPV6]. rewrite Nat2Z.id, slice_front. cbn [mbind option_bind]. rewrite utf8_decode_ascii by done. cbn [mbind option_bind]. rewrite Hh. cbn [mbind option_bind].
    pose proof (slice_port (Z.of_nat (length name) :: name) port) as Hs. cbn [length app] in Hs. change (1 + length name)%nat with (S (length name)). rewrite Hs. unfold be16 at 1. rewrite be16_reads by done. cbn [length]. rewrite length_app. unfold be16. cbn [length]. repeat f_equal; lia.
  - assert (address = (IPV4 :: octets v4) ++ be16 port) as -> by (symmetry; apply (ok_inj (E := AddrError)); exact Hput). injection Hh as <-. cbn [app get]. cbn [Z.eqb Pos.eqb IPV4 NONE]. pose proof (slice_front (octets v4) (be16 port)) as H4. pose proof (slice_port (octets v4) port) as Hp. change (length (octets v4)) with 4%nat in *. rewrite H4. destruct (octets_read v4 [] Hok) as (a & b & c & e & He & <-). rewrite app_nil_r in He. rewrite He. cbn [mbind option_bind]. rewrite He in Hp. rewrite Hp. unfold be16 at 1. by rewrite be16_reads.
  - assert (address = (IPV6 :: octets6 v6) ++ be16 port) as -> by (symmetry; apply (ok_inj (E := AddrError)); exact Hput). assert (h = IpLiteral (to_canonical (V6 v6))) as -> by congruence.
    assert (Hl : length (octets6 v6) = 16%nat) by done. rewrite (get_v6 _ _ Hl Hport). by rewrite pairs_octets6, v6_new_segments.
Qed.

(** ** Packets under way *)

Definition partial_ok (p : Partial) : Prop := missing p = nones (parts p) /\ (0 < missing p)%nat /\ size p = bytes_in (parts p) /\ Z.of_nat (size p) <= MAX_DATAGRAM.

(** At most [UNDER_WAY], of different packets, of each something missing. *)
Definition queue_ok (q : list Partial) : Prop := (length q <= UNDER_WAY)%nat /\ Forall partial_ok q /\ NoDup (p_packet <$> q).

Lemma queue_ok_sublist q q' : q' `sublist_of` q -> queue_ok q -> queue_ok q'.
Proof.
  intros Hs (Hl & Hf & Hn). split; [apply sublist_length in Hs; lia|]. split; [rewrite Forall_forall in Hf |- *; intros p Hp; apply Hf; by eapply elem_of_sublist|]. eapply sublist_NoDup; [exact Hn|]. by apply fmap_sublist.
Qed.

Lemma queue_position_none q packet : position packet q = None -> packet ∉ p_packet <$> q.
Proof.
  unfold position. intros Hn Hin. apply list_elem_of_fmap in Hin as (p & -> & Hp). destruct (list_find_elem_of (fun x => p_packet x = p_packet p) q p Hp eq_refl) as (i & Hi). by rewrite Hi in Hn.
Qed.

Lemma queue_position_some q packet i : position packet q = Some i -> exists p, q !! i = Some p /\ p_packet p = packet.
Proof. unfold position. intros Hs. destruct (list_find _ q) as [[j p]|] eqn:Hf; [|done]. injection Hs as <-. apply list_find_Some in Hf as (Hj & Hp & _). by exists p. Qed.

Lemma blank_ok m : 1 < fragments m -> partial_ok (blank m).
Proof. intros Hm. unfold blank. destruct (nones_replicate (Z.to_nat (fragments m))) as [Hn Hb]. split; [done|]. split; [cbn; lia|]. split; [done|]. cbn. unfold MAX_DATAGRAM. lia. Qed.

Lemma begin_ok q m : 1 < fragments m -> queue_ok q -> packet m ∉ p_packet <$> q -> let q1 := if (length q =? UNDER_WAY)%nat then tail q else q in
  queue_ok (q1 ++ [blank m]) /\ (q1 ++ [blank m]) !! (length (q1 ++ [blank m]) - 1)%nat = Some (blank m).
Proof.
  intros Hm Hq Hn q1. assert (Hs : q1 `sublist_of` q) by (unfold q1; destruct (length q =? UNDER_WAY)%nat; [destruct q; [done|by apply sublist_cons]|done]).
  assert (Hl : (length q1 < UNDER_WAY)%nat) by (unfold q1; destruct (Nat.eqb_spec (length q) UNDER_WAY) as [He|]; destruct Hq as [? _]; [destruct q; cbn [tail length] in *; unfold UNDER_WAY in *; lia|lia]).
  destruct (queue_ok_sublist _ _ Hs Hq) as (_ & Hf & Hd). split; [|rewrite length_app; cbn [length]; rewrite Nat.add_sub; by apply list_lookup_middle].
  split; [rewrite length_app; cbn [length]; lia|]. split; [apply Forall_app; split; [done|by constructor; [apply blank_ok|]]|]. rewrite fmap_app. apply NoDup_app. split; [done|]. split; [|apply NoDup_singleton].
  intros x Hx Hb. apply list_elem_of_singleton in Hb as ->. apply Hn. eapply elem_of_sublist; [exact Hx|]. by apply fmap_sublist.
Qed.

Lemma place_ok q m : 1 < fragments m -> queue_ok q -> exists q' at_ p, place q m = (q', at_) /\ queue_ok q' /\ q' !! at_ = Some p /\ length (parts p) = Z.to_nat (fragments m).
Proof.
  intros Hm Hq. unfold place. destruct (position (packet m) q) as [at_|] eqn:Hp.
  - destruct (queue_position_some _ _ _ Hp) as (p & Hat & Hpk). rewrite Hat. destruct (Nat.eqb_spec (length (parts p)) (Z.to_nat (fragments m))) as [He|]; [by exists q, at_, p|].
    destruct (begin_ok (delete at_ q) m Hm) as [Hq' Hl]; [by eapply queue_ok_sublist; [apply sublist_delete|]| |].
    { destruct Hq as (_ & _ & Hd). rewrite (delete_Permutation _ _ _ Hat), fmap_cons, Hpk in Hd. by apply NoDup_cons in Hd as [? _]. }
    eexists _, _, _. split; [reflexivity|]. split; [exact Hq'|]. split; [exact Hl|]. cbn. apply length_replicate.
  - destruct (begin_ok q m Hm Hq (queue_position_none _ _ Hp)) as [Hq' Hl]. eexists _, _, _. split; [reflexivity|]. split; [exact Hq'|]. split; [exact Hl|]. cbn. apply length_replicate.
Qed.

Lemma queue_total q m : queue_ok q -> exists q' o, feed q m = Some (q', o) /\ queue_ok q'.
Proof.
  intros Hq. unfold feed. destruct (Z.leb_spec (fragments m) 1) as [|Hm]; [eauto|]. destruct (Z.leb_spec (fragments m) (fragment m)); [eauto|]. destruct (place_ok q m Hm Hq) as (q' & at_ & p & -> & Hq' & Hat & Hl). rewrite Hat. cbn [mbind option_bind].
  destruct (lookup_lt_is_Some_2 (parts p) (Z.to_nat (fragment m))) as (part & Hp); [lia|]. rewrite Hp. cbn [mbind option_bind]. destruct part as [part|]; [by eexists _, _|].
  assert (Hdel : queue_ok (delete at_ q')) by (eapply queue_ok_sublist; [apply sublist_delete|done]).
  destruct (Z.ltb_spec MAX_DATAGRAM (Z.of_nat (size p + length (payload m)))) as [|Hs]; [by eexists _, _|].
  destruct Hq' as (Hlen & Hf & Hd). destruct (Forall_lookup_1 _ _ _ _ Hf Hat) as (Hmis & Hpos & Hsz & _). destruct (nones_insert (parts p) _ (payload m) Hp) as [Hn Hb]. rewrite Hmis, Hn.
  destruct (nones (<[Z.to_nat (fragment m):=Some (payload m)]> (parts p))) as [|k] eqn:Hk; [by eexists _, _|]. eexists _, _. split; [done|]. split; [by rewrite length_insert|]. split.
  - apply Forall_insert; [done|]. split; [cbn [missing TuicUdp.parts]; by rewrite Hk|]. cbn [missing TuicUdp.parts TuicUdp.size]. split; [lia|]. split; [by rewrite Hb, Hsz|exact Hs].
  - rewrite list_fmap_insert. cbn [p_packet]. rewrite list_insert_id; [done|]. by rewrite list_lookup_fmap, Hat.
Qed.

(** ** The associations *)

Definition associations_ok (u : Udp) : Prop := forall id a, by_id u !! id = Some a -> queue_ok (reassembly a).

Lemma tuic_total u d : associations_ok u -> exists u', deliver u d = Some u' /\ associations_ok u'.
Proof.
  intros Hu. unfold deliver. case_match; [eauto|]. destruct (parse (version u) d) as [m|]; [|eauto]. destruct (by_id u !! association m) as [a|] eqn:Ha; [|by eexists].
  destruct (queue_total (reassembly a) m (Hu _ _ Ha)) as (q & o & -> & Hq). cbn [mbind option_bind]. eexists. split; [done|]. intros id b. cbn [by_id]. intros [[<- <-]|[_ Hl]]%lookup_insert_Some; [done|by eapply Hu].
Qed.

Lemma tuic_all_total u ds : associations_ok u -> exists u', deliver_all u ds = Some u' /\ associations_ok u'.
Proof. revert u. induction ds as [|d ds IH]; intros u Hu; cbn; [eauto|]. destruct (tuic_total u d Hu) as (u' & -> & Hu'). by apply IH. Qed.

(** No packet of the association. *)
Definition elsewhere (v : Version) (id : Z) (d : list Z) : Prop := match parse v d with Some m => association m <> id | None => True end.

#[export] Instance elsewhere_dec v id d : Decision (elsewhere v id d).
Proof. unfold elsewhere. destruct (parse v d); apply _. Defined.

(** The inbox is the association's alone. *)
Definition only (u : Udp) (id : Z) (i : nat) : Prop := forall id' a, id' <> id -> by_id u !! id' = Some a -> inbox a <> i.

Lemma deliver_elsewhere u d id i : elsewhere (version u) id d -> associations_ok u -> only u id i ->
  exists u', deliver u d = Some u' /\ associations_ok u' /\ only u' id i /\ version u' = version u /\ by_id u' !! id = by_id u !! id /\ inboxes u' !! i = inboxes u !! i.
Proof.
  intros Hd Hu Ha. destruct (tuic_total u d Hu) as (u' & Hdel & Hu'). exists u'. split; [done|]. split; [done|]. unfold deliver in Hdel. unfold elsewhere in Hd. destruct (starts_with_heartbeat (version u) d); [by injection Hdel as <-|]. destruct (parse (version u) d) as [m|]; [|by injection Hdel as <-].
  destruct (by_id u !! association m) as [a|] eqn:He; [|by injection Hdel as <-]. destruct (feed (reassembly a) m) as [[q answer]|]; cbn in Hdel; [|done]. injection Hdel as <-. pose proof (Ha _ _ Hd He) as Hi. cbn [by_id version inboxes].
  split; [|split; [done|split; [by rewrite lookup_insert_ne|]]].
  - intros id' b Hne. cbn [by_id]. intros [[<- <-]|[_ Hl]]%lookup_insert_Some; [done|by eapply Ha].
  - destruct answer; [|done]. unfold try_send. repeat case_match; [by rewrite lookup_insert_ne|done|done].
Qed.

Lemma not_heartbeat v d m : parse v d = Some m -> starts_with_heartbeat v d = false.
Proof.
  intros Hp. apply bool_decide_eq_false. intros Ht. destruct d as [|a [|b d]]; [destruct v; done|done|]. cbn [take] in Ht. injection Ht as -> ->. unfold parse in Hp.
  destruct (slice _ 0 _) as [s|] eqn:Hs in Hp; [|done]. cbn [mbind option_bind] in Hp.
  assert (exists r, s = version_byte v :: HEARTBEAT :: r) as [r ->].
  { unfold slice in Hs. case_decide; [|done]. injection Hs as <-. destruct v; cbn [take HEADER HEADER_V4]; by eexists. }
  clear Hs. destruct v; (destruct r as [|? [|? [|? [|? [|? [|? r]]]]]]; try done); destruct r as [|? [|? [|]]]; done.
Qed.

Lemma deliver_here u d m id i q q' answer (waiting : list Packet) : parse (version u) d = Some m -> association m = id -> associations_ok u -> only u id i -> by_id u !! id = Some (mkAssociation i q) -> inboxes u !! i = Some waiting -> feed q m = Some (q', answer) ->
  exists u', deliver u d = Some u' /\ associations_ok u' /\ only u' id i /\ version u' = version u /\ by_id u' !! id = Some (mkAssociation i q')
    /\ inboxes u' !! i = Some (match answer with Some answer => if (length waiting <? INBOX)%nat then waiting ++ [answer] else waiting | None => waiting end).
Proof.
  intros Hp Hid Hu Ha Hs Hw Hf. destruct (tuic_total u d Hu) as (u' & Hdel & Hu'). exists u'. split; [done|]. split; [done|]. unfold deliver in Hdel. rewrite (not_heartbeat _ _ _ Hp), Hp, Hid, Hs in Hdel. cbn [reassembly inbox] in Hdel. rewrite Hf in Hdel. cbn [mbind option_bind] in Hdel. injection Hdel as <-. cbn [by_id version inboxes].
  split; [|split; [done|split; [by rewrite lookup_insert_eq|]]].
  - intros id' b Hne. cbn [by_id]. intros [[<- <-]|[_ Hl]]%lookup_insert_Some; [done|by eapply Ha].
  - destruct answer; [|done]. unfold try_send. rewrite Hw. case_match; [by rewrite lookup_insert_eq|done].
Qed.

(** ** Packets of an association, and what came of them *)

Record Job := mkJob { j_packet : Z; j_address : list Z; j_from : Target; j_parts : list (list Z) }.

Definition job_ok (j : Job) : Prop :=
  0 <= j_packet j < 65536 /\ get (j_address j) = Some (Some (j_from j), length (j_address j)) /\ (1 <= length (j_parts j) <= MAX_FRAGMENTS)%nat /\ Z.of_nat (length (List.concat (j_parts j))) <= MAX_DATAGRAM.

Section Packets.
Context (id : Z) (jobs : list Job).
Hypothesis Hid : 0 <= id < 65536.
Hypothesis Hjobs : Forall job_ok jobs.
Hypothesis Hids : NoDup (j_packet <$> jobs).
Hypothesis Hmany : (length jobs <= UNDER_WAY)%nat.

Definition frame (j : Job) (k : nat) (p : list Z) : list Z := encode id (j_packet j) (Z.of_nat (length (j_parts j))) (Z.of_nat k) (if (k =? 0)%nat then j_address j else [NONE]) p.
Definition told (j : Job) (k : nat) (p : list Z) : Message := mkMessage id (j_packet j) (Z.of_nat (length (j_parts j))) (Z.of_nat k) (if (k =? 0)%nat then Some (j_from j) else None) p.

(** Of a job, the parts among what came; what is under way then, and what is
    whole. *)
Definition came_parts (came : list (list Z)) (j : Job) : list (option (list Z)) := imap (fun k p => if decide (frame j k p ∈ came) then Some p else None) (j_parts j).
Definition named (j : Job) (ps : list (option (list Z))) : option Target := match head ps with Some (Some _) => Some (j_from j) | _ => None end.
Definition under_way (j : Job) (ps : list (option (list Z))) : option Partial := if (0 <? nones ps)%nat && (nones ps <? length (j_parts j))%nat then Some (mkPartial (j_packet j) ps (nones ps) (bytes_in ps) (named j ps)) else None.
Definition whole (j : Job) (ps : list (option (list Z))) : option Packet := if (nones ps =? 0)%nat then Some (List.concat (j_parts j), j_from j) else None.

Lemma part_short (parts : list (list Z)) k p : parts !! k = Some p -> (length p <= length (List.concat parts))%nat.
Proof. revert k. induction parts as [|q parts IH]; intros [|k] Hk; cbn in *; [done|done|injection Hk as ->; rewrite length_app; lia|]. specialize (IH _ Hk). rewrite length_app. lia. Qed.

Lemma parse_frame j k p : job_ok j -> j_parts j !! k = Some p -> parse Tuic5 (frame j k p) = Some (told j k p).
Proof. intros (Hp & Hg & _ & Hl) Hk. apply part_short in Hk. unfold frame, told. apply parse_v5; [done|done|lia|]. by destruct (k =? 0)%nat. Qed.

Lemma frames_differ j k p j' k' p' : job_ok j -> job_ok j' -> j_parts j !! k = Some p -> j_parts j' !! k' = Some p' -> frame j k p = frame j' k' p' -> j_packet j = j_packet j' /\ k = k'.
Proof. intros Hj Hj' Hk Hk' He. pose proof (parse_frame j k p Hj Hk) as H1. rewrite He, (parse_frame j' k' p' Hj' Hk') in H1. unfold told in H1. assert (Hx : j_packet j' = j_packet j /\ Z.of_nat k' = Z.of_nat k) by (injection H1; intros; done). split; [symmetry; tauto|lia]. Qed.

Lemma came_parts_of came j : Forall2 part_of (came_parts came j) (j_parts j).
Proof.
  apply Forall2_same_length_lookup. unfold came_parts. rewrite length_imap. split; [done|]. intros k o p Ho Hp. rewrite list_lookup_imap, Hp in Ho. cbn in Ho. injection Ho as <-. unfold part_of. case_decide; auto.
Qed.

Lemma came_more came j k p : job_ok j -> j_parts j !! k = Some p -> came_parts (came ++ [frame j k p]) j = <[k := Some p]> (came_parts came j).
Proof.
  intros Hj Hk. apply list_eq. intros k'. unfold came_parts. destruct (decide (k' = k)) as [->|Hne].
  - rewrite list_lookup_insert_eq by (rewrite length_imap; by apply lookup_lt_Some in Hk). rewrite list_lookup_imap, Hk. cbn. rewrite decide_True; [done|]. apply elem_of_app. right. by apply list_elem_of_singleton.
  - rewrite list_lookup_insert_ne by done. rewrite !list_lookup_imap. destruct (j_parts j !! k') as [p'|] eqn:Hk'; [|done]. cbn. f_equal. rewrite (decide_ext _ (frame j k' p' ∈ came)); [done|].
    rewrite elem_of_app, list_elem_of_singleton. split; [|by left]. intros [?|He]; [done|]. destruct (frames_differ _ _ _ _ _ _ Hj Hj Hk' Hk He). done.
Qed.

Lemma came_same came j d : (forall k p, j_parts j !! k = Some p -> d <> frame j k p) -> came_parts (came ++ [d]) j = came_parts came j.
Proof.
  intros Hd. apply list_eq. intros k. unfold came_parts. rewrite !list_lookup_imap. destruct (j_parts j !! k) as [p|] eqn:Hk; [|done]. cbn. f_equal. apply decide_ext. rewrite elem_of_app, list_elem_of_singleton. split; [|by left]. intros [?|<-]; [done|]. by destruct (Hd k p Hk).
Qed.

Lemma none_came j : nones (came_parts [] j) = length (j_parts j) /\ bytes_in (came_parts [] j) = 0%nat.
Proof.
  replace (came_parts [] j) with (replicate (length (j_parts j)) (@None (list Z))); [apply nones_replicate|]. apply list_eq. intros k. unfold came_parts. rewrite list_lookup_imap. destruct (j_parts j !! k) as [p|] eqn:Hk.
  - rewrite lookup_replicate_2 by (by apply lookup_lt_Some in Hk). done.
  - apply lookup_ge_None in Hk. by apply lookup_replicate_None.
Qed.

Definition rows (came : list (list Z)) (js : list Job) : list Partial := omap (fun j => under_way j (came_parts came j)) js.

Lemma rows_same came came' js : (forall j, j ∈ js -> came_parts came' j = came_parts came j) -> rows came' js = rows came js.
Proof. unfold rows. induction js as [|j js IH]; intros Hs; [done|]. cbn. rewrite (Hs j) by set_solver. rewrite IH by set_solver. done. Qed.

Lemma rows_packets came js x : x ∈ rows came js -> exists j, j ∈ js /\ p_packet x = j_packet j /\ under_way j (came_parts came j) = Some x.
Proof. unfold rows. intros (j & Hj & Hx)%list_elem_of_omap. exists j. split; [done|]. split; [|done]. unfold under_way in Hx. case_match; [|done]. by injection Hx as <-. Qed.

Lemma rows_length came js : (length (rows came js) <= length js)%nat.
Proof. unfold rows. induction js as [|j js IH]; cbn; [lia|]. destruct (under_way _ _); cbn; lia. Qed.

(** Where the packet of a part is. *)
Lemma placed came q j others k p : jobs ≡ₚ j :: others -> q ≡ₚ rows came jobs -> (2 <= length (j_parts j))%nat -> (0 < nones (came_parts came j))%nat ->
  let ps := came_parts came j in
  exists q1 at_, place q (told j k p) = (q1, at_) /\ q1 !! at_ = Some (mkPartial (j_packet j) ps (nones ps) (bytes_in ps) (named j ps)) /\ delete at_ q1 ≡ₚ rows came others.
Proof.
  intros Hperm Hq Hn Hpos ps. pose proof Hids as Hd. rewrite Hperm, fmap_cons in Hd. apply NoDup_cons in Hd as [Hnot _].
  assert (Hq' : q ≡ₚ match under_way j ps with Some x => x :: rows came others | None => rows came others end).
  { rewrite Hq. unfold rows. rewrite Hperm. cbn. fold ps. by destruct (under_way j ps). }
  assert (Hother : forall x, x ∈ rows came others -> p_packet x <> j_packet j).
  { intros x Hx He. apply rows_packets in Hx as (j' & Hj' & Hp & _). apply Hnot. apply list_elem_of_fmap. exists j'. split; [congruence|done]. }
  unfold place. cbn [packet told fragments]. rewrite Nat2Z.id. unfold under_way in Hq'. rewrite (proj2 (Nat.ltb_lt 0 _)) in Hq' by done. cbn [andb] in Hq'. destruct (Nat.ltb_spec (nones ps) (length (j_parts j))) as [Hlt|Hge].
  - set (x := mkPartial _ _ _ _ _) in *. destruct (list_find_elem_of (fun y => p_packet y = j_packet j) q x) as ([i y] & Hi); [rewrite Hq'; by left|done|]. unfold position. rewrite Hi. cbn [fmap option_fmap option_map fst]. apply list_find_Some in Hi as (Hy & Hpk & _). rewrite Hy.
    assert (y = x) as ->. { apply list_elem_of_lookup_2 in Hy. rewrite Hq' in Hy. apply elem_of_cons in Hy as [->|Hy]; [done|]. by destruct (Hother _ Hy). }
    cbn [TuicUdp.parts x]. rewrite (proj2 (Nat.eqb_eq _ _)) by (unfold ps, came_parts; apply length_imap). exists q, i. split; [done|]. split; [done|]. apply (Permutation_cons_inv (a := x)). by rewrite <- Hq', <- delete_Permutation.
  - assert (Hp : position (j_packet j) q = None).
    { unfold position. destruct (list_find _ q) as [[i y]|] eqn:Hf; [|done]. apply list_find_Some in Hf as (Hy & Hpk & _). apply list_elem_of_lookup_2 in Hy. rewrite Hq' in Hy. by destruct (Hother _ Hy). }
    rewrite Hp. assert (Hlen : (length q < UNDER_WAY)%nat). { rewrite Hq'. pose proof (rows_length came others). rewrite Hperm in Hmany. cbn in Hmany. lia. }
    replace (length q =? UNDER_WAY)%nat with false by (symmetry; apply Nat.eqb_neq; lia). eexists _, _. split; [reflexivity|]. rewrite length_app. cbn [length]. rewrite Nat.add_sub.
    assert (Hnone : ps = replicate (length (j_parts j)) None).
    { pose proof (came_parts_of came j) as Hf. fold ps in Hf. clear - Hge Hf. induction Hf as [|o p ps parts [-> | ->] Hf IH]; [done| |].
      - unfold nones in *. cbn in *. f_equal. apply IH. lia.
      - unfold nones in Hge. cbn in Hge. pose proof (List.filter_length_le (fun o : option (list Z) => match o with None => true | _ => false end) ps). pose proof (Forall2_length _ _ _ Hf). lia. }
    split.
    + rewrite list_lookup_middle by done. unfold blank, told. cbn [fragments packet]. rewrite Nat2Z.id. destruct (nones_replicate (length (j_parts j))) as [Hr Hb]. rewrite Hnone, Hr, Hb. repeat f_equal. destruct (length (j_parts j)); [lia|done].
    + rewrite delete_middle. by rewrite app_nil_r.
Qed.

Lemma named_insert j ps k p : named j (<[k := Some p]> ps) = if (k =? 0)%nat then (if (0 <? length ps)%nat then Some (j_from j) else None) else named j ps.
Proof. destruct ps as [|o ps]; [by destruct k|]. by destruct k. Qed.

Lemma delete_insert_same {A} (l : list A) i x : delete i (<[i := x]> l) = delete i l.
Proof. by rewrite !delete_take_drop, take_insert_ge, drop_insert_lt by lia. Qed.

(** One part more of a packet. *)
Lemma feed_job came q j others k p : jobs ≡ₚ j :: others -> q ≡ₚ rows came jobs -> j_parts j !! k = Some p -> frame j k p ∉ came ->
  exists q', feed q (told j k p) = Some (q', whole j (came_parts (came ++ [frame j k p]) j)) /\ q' ≡ₚ rows (came ++ [frame j k p]) jobs /\ whole j (came_parts came j) = None.
Proof.
  intros Hperm Hq Hk Hnew. assert (Hj : job_ok j) by (rewrite Hperm in Hjobs; by apply Forall_inv in Hjobs). pose proof Hj as (_ & _ & Hn & Hsz). pose proof (lookup_lt_Some _ _ _ Hk) as Hlt. unfold MAX_FRAGMENTS in Hn.
  set (came' := came ++ [frame j k p]). set (ps := came_parts came j). assert (Hps' : came_parts came' j = <[k := Some p]> ps) by (by apply came_more).
  assert (Ho : ps !! k = Some None) by (unfold ps, came_parts; rewrite list_lookup_imap, Hk; cbn; by rewrite decide_False).
  destruct (nones_insert ps k p Ho) as [Hnn Hbb]. pose proof (bytes_within _ _ (came_parts_of came' j)) as Hb. rewrite Hps', Hbb in Hb.
  assert (Hrest : rows came' jobs ≡ₚ match under_way j (<[k := Some p]> ps) with Some x => x :: rows came others | None => rows came others end).
  { unfold rows at 1. rewrite Hperm. cbn. rewrite Hps'. change (omap (fun j => under_way j (came_parts came' j)) others) with (rows came' others). rewrite (rows_same came came' others); [by destruct (under_way j _)|].
    intros j' Hj'. apply came_same. intros k' p' Hk' He. rewrite Hperm in Hjobs, Hids. rewrite fmap_cons in Hids. apply NoDup_cons in Hids as [Hnot _]. apply Hnot. apply list_elem_of_fmap. exists j'. split; [|done].
    pose proof (Forall_inv_tail Hjobs) as Ht. rewrite Forall_forall in Ht. by destruct (frames_differ _ _ _ _ _ _ Hj (Ht _ Hj') Hk Hk' He). }
  assert (Hw : whole j ps = None) by (unfold whole; by rewrite Hnn). assert (Hpos : (0 < nones ps)%nat) by lia.
  assert (Hle : (nones (<[k := Some p]> ps) < length (j_parts j))%nat). { assert (Hl : (nones ps <= length ps)%nat) by apply List.filter_length_le. assert (length ps = length (j_parts j)) by apply length_imap. lia. }
  unfold feed. cbn [fragments fragment m_source payload told]. rewrite Hps'. unfold whole at 1. destruct (Nat.eq_dec (length (j_parts j)) 1%nat) as [H1|H1].
  - rewrite H1. assert (k = 0%nat) as -> by lia. assert (Hp : j_parts j = [p]) by (clear - H1 Hk; destruct (j_parts j) as [|p' [|]]; [done| |done]; cbn in Hk; by injection Hk as ->). rewrite Hp in Hle. replace (nones (<[0%nat:=Some p]> ps)) with 0%nat by (cbn in Hle; lia). rewrite Hp. cbn [Nat.eqb List.concat]. rewrite app_nil_r. exists q. change (Z.of_nat 1 <=? 1) with true. split; [done|]. split; [|done].
    rewrite Hq, Hrest. unfold under_way. replace (nones (<[0%nat:=Some p]> ps)) with 0%nat by (cbn in Hle; lia). cbn [Nat.ltb Nat.leb andb]. unfold rows. rewrite Hperm. cbn. fold ps. unfold under_way. rewrite Hp. replace (nones ps <? _)%nat with false; [by rewrite andb_false_r|]. symmetry. apply Nat.ltb_ge. cbn. lia.
  - rewrite (proj2 (Z.leb_gt _ _)) by lia. rewrite (proj2 (Z.leb_gt (Z.of_nat (length _)) (Z.of_nat k))) by lia. destruct (placed came q j others k p Hperm Hq ltac:(lia) Hpos) as (q1 & at_ & Hplace & Hat & Hdel). rewrite Hplace, Hat. fold ps. cbn [mbind option_bind TuicUdp.parts size missing p_packet p_source]. rewrite Nat2Z.id, Ho. cbn [mbind option_bind]. rewrite (proj2 (Z.ltb_ge _ _)) by lia. rewrite Hnn.
    assert (Hnamed : (if Z.of_nat k =? 0 then if (k =? 0)%nat then Some (j_from j) else None else named j ps) = named j (<[k := Some p]> ps)).
    { rewrite named_insert. replace (length ps) with (length (j_parts j)) by (symmetry; apply length_imap). rewrite (proj2 (Nat.ltb_lt 0 _)) by lia. destruct k; [done|]. by rewrite (proj2 (Z.eqb_neq _ _)) by lia. }
    rewrite Hnamed. destruct (nones (<[k := Some p]> ps)) as [|n] eqn:Hz; cbn [Nat.eqb].
    + assert (Hpsf : Forall2 part_of (<[k := Some p]> ps) (j_parts j)) by (rewrite <- Hps'; apply came_parts_of). rewrite (all_came _ _ Hpsf Hz). assert (Hsome : named j (<[k := Some p]> ps) = Some (j_from j)).
      { unfold named. pose proof (proj1 (nones_zero _) Hz) as Hall. destruct (<[k := Some p]> ps) as [|o ps'] eqn:He; [apply (f_equal length) in He; rewrite length_insert in He; assert (length ps = length (j_parts j)) by apply length_imap; cbn in He; lia|]. apply Forall_inv in Hall. cbn. by destruct o. }
      rewrite Hsome. cbn. eexists. split; [done|]. split; [|done]. rewrite Hdel, Hrest. unfold under_way. by rewrite Hz.
    + eexists. split; [done|]. split; [|done]. rewrite Hrest. unfold under_way. rewrite Hz. rewrite (proj2 (Nat.ltb_lt _ _)), (proj2 (Nat.ltb_lt _ _)) by lia. cbn [andb]. rewrite Hbb.
      rewrite (delete_Permutation (<[at_ := _]> q1) at_) by (apply list_lookup_insert_eq; by eapply lookup_lt_Some). rewrite delete_insert_same. by rewrite Hdel.
Qed.

Definition wholes (came : list (list Z)) (js : list Job) : list Packet := omap (fun j => whole j (came_parts came j)) js.

Lemma wholes_same came came' js : (forall j, j ∈ js -> came_parts came' j = came_parts came j) -> wholes came' js = wholes came js.
Proof. unfold wholes. induction js as [|j js IH]; intros Hs; [done|]. cbn. rewrite (Hs j) by set_solver. rewrite IH by set_solver. done. Qed.

Lemma wholes_length came js : (length (wholes came js) <= length js)%nat.
Proof. unfold wholes. induction js as [|j js IH]; cbn; [lia|]. destruct (whole _ _); cbn; lia. Qed.

Context (i : nat) (waiting : list Packet).
Hypothesis Hroom : (length waiting + length jobs <= INBOX)%nat.

(** Where the connection is once [came] came. *)
Definition reached (u : Udp) (came : list (list Z)) : Prop :=
  associations_ok u /\ only u id i /\ version u = Tuic5
  /\ (exists q, by_id u !! id = Some (mkAssociation i q) /\ q ≡ₚ rows came jobs)
  /\ exists out, inboxes u !! i = Some (waiting ++ out) /\ out ≡ₚ wholes came jobs.

Lemma job_in j : j ∈ jobs -> job_ok j.
Proof. intros Hj. rewrite Forall_forall in Hjobs. by apply Hjobs. Qed.

Lemma reached_elsewhere u came d : reached u came -> elsewhere Tuic5 id d -> exists u', deliver u d = Some u' /\ reached u' (came ++ [d]).
Proof.
  intros (Hok & Ho & Hv & (q & Ha & Hq) & out & Hi & Hout) Hd. destruct (deliver_elsewhere u d id i) as (u' & Hdel & Hok' & Ho' & Hv' & Ha' & Hi'); [by rewrite Hv|done|done|].
  exists u'. split; [done|]. assert (Hs : forall j, j ∈ jobs -> came_parts (came ++ [d]) j = came_parts came j). { intros j Hj. apply came_same. intros k p Hk ->. unfold elsewhere in Hd. rewrite (parse_frame j k p (job_in j Hj) Hk) in Hd. by apply Hd. }
  split; [done|]. split; [done|]. split; [congruence|]. split; [exists q; split; [congruence|by rewrite (rows_same came)]|exists out; split; [congruence|by rewrite (wholes_same came)]].
Qed.

Lemma reached_part u came j k p : reached u came -> j ∈ jobs -> j_parts j !! k = Some p -> frame j k p ∉ came -> exists u', deliver u (frame j k p) = Some u' /\ reached u' (came ++ [frame j k p]).
Proof.
  intros (Hok & Ho & Hv & (q & Ha & Hq) & out & Hi & Hout) Hj Hk Hnew. destruct (proj1 (elem_of_Permutation jobs j) Hj) as [others Hperm].
  destruct (feed_job came q j others k p Hperm Hq Hk Hnew) as (q' & Hf & Hq' & Hnone).
  destruct (deliver_here u (frame j k p) (told j k p) id i q q' (whole j (came_parts (came ++ [frame j k p]) j)) (waiting ++ out)) as (u' & Hdel & Hok' & Ho' & Hv' & Ha' & Hi'); [rewrite Hv; by apply parse_frame, Hk; apply job_in|done..|].
  exists u'. split; [done|]. split; [done|]. split; [done|]. split; [congruence|]. split; [by exists q'|].
  assert (Hw : wholes (came ++ [frame j k p]) jobs ≡ₚ match whole j (came_parts (came ++ [frame j k p]) j) with Some w => w :: wholes came others | None => wholes came others end).
  { unfold wholes at 1. rewrite Hperm. cbn. change (omap _ others) with (wholes (came ++ [frame j k p]) others). rewrite (wholes_same came _ others); [by destruct (whole _ _)|].
    intros j' Hj'. apply came_same. intros k' p' Hk' He. pose proof Hids as Hd. rewrite Hperm, fmap_cons in Hd. apply NoDup_cons in Hd as [Hnot _]. apply Hnot. apply list_elem_of_fmap. exists j'. split; [|done].
    assert (Hin : j' ∈ jobs) by (rewrite Hperm; by right). by destruct (frames_differ _ _ _ _ _ _ (job_in _ Hj) (job_in _ Hin) Hk Hk' He). }
  assert (Hout' : out ≡ₚ wholes came others). { rewrite Hout. unfold wholes at 1. rewrite Hperm. cbn. by rewrite Hnone. }
  destruct (whole j _) as [w|]; [|exists out; split; [done|by rewrite Hw]]. exists (out ++ [w]). rewrite app_assoc. split; [|rewrite Hw, Hout'; by rewrite Permutation_app_comm].
  rewrite Hi'. rewrite (proj2 (Nat.ltb_lt _ _)); [done|]. rewrite length_app, Hout'. pose proof (wholes_length came others). rewrite Hperm in Hroom. cbn in Hroom. lia.
Qed.

Lemma reached_all arrivals : forall u came, reached u came ->
  Forall (fun d => (exists j k p, j ∈ jobs /\ j_parts j !! k = Some p /\ d = frame j k p) \/ elsewhere Tuic5 id d) arrivals -> NoDup (filter (fun d => ~ elsewhere Tuic5 id d) arrivals) -> (forall d, d ∈ arrivals -> ~ elsewhere Tuic5 id d -> d ∉ came) ->
  exists u', deliver_all u arrivals = Some u' /\ reached u' (came ++ arrivals).
Proof.
  induction arrivals as [|d arrivals IH]; intros u came Hu Ha Hn Hnew; cbn [deliver_all]; [exists u; by rewrite app_nil_r|]. apply Forall_cons in Ha as [Hd Ha].
  assert (Hstep : exists u', deliver u d = Some u' /\ reached u' (came ++ [d])).
  { destruct (decide (elsewhere Tuic5 id d)) as [He|He]; [by apply reached_elsewhere|]. destruct Hd as [(j & k & p & Hj & Hk & ->)|]; [|done]. apply reached_part; try done. apply Hnew; [by left|done]. }
  destruct Hstep as (u' & -> & Hu'). cbn [mbind option_bind]. destruct (IH u' (came ++ [d]) Hu' Ha) as (u'' & Hall & Hr).
  - destruct (decide (elsewhere Tuic5 id d)) as [He|He]; [by rewrite filter_cons_False in Hn by tauto|]. rewrite filter_cons_True in Hn by done. by apply NoDup_cons in Hn as [_ ?].
  - intros x Hx Hne [Hc|<-%list_elem_of_singleton]%elem_of_app; [by apply (Hnew x); [right| |]|]. rewrite filter_cons_True in Hn by done. apply NoDup_cons in Hn as [Hnot _]. apply Hnot. by apply list_elem_of_filter.
  - exists u''. split; [done|]. by rewrite <- app_assoc in Hr.
Qed.
End Packets.

(** ** What packets go out in *)

Lemma encode_length association packet n k address payload : length (encode association packet n k address payload) = (HEADER + length address + length payload)%nat.
Proof. unfold encode, be16, HEADER. rewrite !length_app. cbn [length]. lia. Qed.

Lemma tuic_datagrams_are id packet address payload max ds from : 0 <= packet < 65536 -> get address = Some (Some from, length address) -> Z.of_nat (length payload) <= MAX_DATAGRAM -> datagrams id packet address payload max = Ok ds ->
  Forall (fun d => (length d <= max)%nat) ds
  /\ exists parts, List.concat parts = payload /\ job_ok (mkJob packet address from parts) /\ ds = imap (frame id (mkJob packet address from parts)) parts.
Proof.
  intros Hp Hg Hl. unfold datagrams. destruct (Nat.leb_spec (HEADER + length address + length payload) max) as [Hle|Hgt].
  { intros Hd. assert (ds = [encode id packet 1 0 address payload]) as -> by congruence. split; [constructor; [by rewrite encode_length|constructor]|]. exists [payload]. split; [cbn; apply app_nil_r|]. split; [|done]. split; [done|]. split; [done|]. unfold MAX_FRAGMENTS. cbn. rewrite app_nil_r. split; [lia|done]. }
  set (first := (max - (HEADER + length address))%nat). set (rest := (max - (HEADER + 1))%nat). destruct (Nat.eqb_spec first 0) as [|Hf]; [done|]. destruct (Nat.eqb_spec rest 0) as [|Hr]; [done|]. cbn [orb]. destruct (Z.ltb_spec (Z.min MAX_DATAGRAM (Z.of_nat (first + (MAX_FRAGMENTS - 1) * rest))) (Z.of_nat (length payload))) as [|Hlong]; [done|].
  intros Hd. assert (Hpay : (length payload <= first + 254 * rest)%nat) by (unfold MAX_FRAGMENTS in Hlong; lia). clear Hlong. set (parts := take first payload :: chunks rest (drop first payload)) in *.
  assert (Hds : ds = imap (fragment_of id packet address (Z.of_nat (length parts) mod 256)) parts) by congruence. clear Hd.
  destruct (chunks_from_ok (length (drop first payload)) rest (drop first payload) ltac:(lia) ltac:(done)) as (Hc & Hfc & Hlt & _). fold (chunks rest (drop first payload)) in *. rewrite length_drop in Hlt.
  assert (Hn : (1 <= length parts <= 255)%nat) by (unfold parts; cbn [length]; nia). assert (Hcat : List.concat parts = payload) by (unfold parts; cbn [List.concat]; rewrite Hc; apply take_drop).
  assert (He : ds = imap (frame id (mkJob packet address from parts)) parts).
  { rewrite Hds. apply list_eq. intros k. rewrite !list_lookup_imap. destruct (parts !! k) as [p|] eqn:Hk; [|done]. apply lookup_lt_Some in Hk. cbn [fmap option_fmap option_map]. unfold fragment_of, frame. cbn [j_packet j_parts j_address]. by rewrite !Z.mod_small by lia. }
  split; [|exists parts; split; [done|]; split; [split; [done|]; split; [done|]; cbn [j_parts]; by rewrite Hcat|done]].
  rewrite He. apply Forall_lookup_2. intros k d. rewrite list_lookup_imap. destruct (parts !! k) as [p|] eqn:Hk; [|done]. cbn [fmap option_fmap option_map]. intros [= <-]. unfold frame. rewrite encode_length. cbn [j_address]. destruct k as [|k]; cbn [Nat.eqb].
  - unfold parts in Hk. cbn in Hk. assert (p = take first payload) as -> by congruence. rewrite length_take. unfold first in *. lia.
  - unfold parts in Hk. cbn [lookup list_lookup] in Hk. pose proof (Forall_lookup_1 _ _ _ _ Hfc Hk) as Hpl. cbn in Hpl. cbn [length]. unfold rest in *. lia.
Qed.

(** A packet that goes out under an id of its own. *)
Record Outgoing := mkOutgoing { o_packet : Z; o_address : list Z; o_from : Target; o_payload : list Z; o_max : nat; o_datagrams : list (list Z) }.

Definition goes_out (id : Z) (o : Outgoing) : Prop :=
  0 <= o_packet o < 65536 /\ get (o_address o) = Some (Some (o_from o), length (o_address o)) /\ Z.of_nat (length (o_payload o)) <= MAX_DATAGRAM /\ datagrams id (o_packet o) (o_address o) (o_payload o) (o_max o) = Ok (o_datagrams o).

Definition job_of (id : Z) (o : Outgoing) (j : Job) : Prop :=
  job_ok j /\ j_packet j = o_packet o /\ j_from j = o_from o /\ List.concat (j_parts j) = o_payload o /\ o_datagrams o = imap (frame id j) (j_parts j).

Lemma jobs_exist id sent : Forall (goes_out id) sent -> Forall (fun o => Forall (fun d => (length d <= o_max o)%nat) (o_datagrams o)) sent /\ exists jobs, Forall2 (job_of id) sent jobs.
Proof.
  induction 1 as [|o sent Ho Hs (IHl & jobs & IH)]; [split; [done|by exists []]|]. destruct Ho as (Hp & Hg & Hl & Hd). destruct (tuic_datagrams_are _ _ _ _ _ _ _ Hp Hg Hl Hd) as (Hlen & parts & Hc & Hok & He). split; [by constructor|]. exists (mkJob (o_packet o) (o_address o) (o_from o) parts :: jobs). by constructor.
Qed.

Lemma jobs_ids id sent jobs : Forall2 (job_of id) sent jobs -> j_packet <$> jobs = o_packet <$> sent /\ length jobs = length sent /\ Forall job_ok jobs.
Proof. induction 1 as [|o j sent jobs (Hok & Hp & _) _ (IH1 & IH2 & IH3)]; [done|]. rewrite !fmap_cons, Hp, IH1. split; [done|]. split; [cbn; by rewrite IH2|by constructor]. Qed.

Lemma job_whole id came o j : job_of id o j -> whole j (came_parts id came j) = if decide (Forall (fun d => d ∈ came) (o_datagrams o)) then Some (o_payload o, o_from o) else None.
Proof.
  intros (Hok & Hp & Hf & Hc & Hd). unfold whole. rewrite Hc, Hf. assert (Hz : nones (came_parts id came j) = 0%nat <-> Forall (fun d => d ∈ came) (o_datagrams o)).
  { rewrite nones_zero, Hd, !Forall_lookup. unfold came_parts. split; intros Hx k d Hk; rewrite list_lookup_imap in Hk; destruct (j_parts j !! k) as [p|] eqn:Hpk; try done; cbn in Hk; injection Hk as <-.
    - specialize (Hx k (if decide (frame id j k p ∈ came) then Some p else None)). rewrite list_lookup_imap, Hpk in Hx. specialize (Hx eq_refl). by case_decide.
    - rewrite decide_True; [done|]. apply (Hx k). by rewrite list_lookup_imap, Hpk. }
  destruct (Nat.eqb_spec (nones (came_parts id came j)) 0); [rewrite decide_True|rewrite decide_False]; tauto.
Qed.

Lemma jobs_wholes id came sent jobs : Forall2 (job_of id) sent jobs -> wholes id came jobs = (fun o => (o_payload o, o_from o)) <$> filter (fun o => Forall (fun d => d ∈ came) (o_datagrams o)) sent.
Proof.
  induction 1 as [|o j sent jobs Hj _ IH]; [done|]. unfold wholes. cbn [omap list_omap]. rewrite (job_whole _ _ _ _ Hj). change (omap (fun j => whole j (came_parts id came j)) jobs) with (wholes id came jobs). rewrite IH. destruct (decide _); [by rewrite filter_cons_True|by rewrite filter_cons_False].
Qed.

(** ** Ids *)

Lemma join_from_v5 {R} (random : R -> option Z * R) fuel by_id : forall n drawn (r : R), 0 <= n < 65536 -> (0 < fuel)%nat ->
  match join_from random fuel Tuic5 by_id n drawn r with
  | (Some id, n', r') => by_id !! id = None /\ 0 <= id < 65536 /\ 0 <= n' < 65536 /\ r' = r
  | (None, n', r') => (forall k, (k < fuel)%nat -> is_Some (by_id !! ((n + Z.of_nat k) mod 65536))) /\ 0 <= n' < 65536 /\ r' = r
  end.
Proof.
  induction fuel as [|fuel IH]; intros n drawn r Hn Hf; [lia|]. cbn [join_from]. pose proof (Z.mod_pos_bound (n + 1) 65536 ltac:(lia)) as Hb. destruct (by_id !! n) as [a|] eqn:Ha; [|done]. destruct fuel as [|fuel].
  - cbn [join_from]. split; [|done]. intros k Hk. assert (k = 0%nat) as -> by lia. rewrite Z.add_0_r, Z.mod_small by lia. by rewrite Ha.
  - specialize (IH ((n + 1) mod 65536) None r Hb ltac:(lia)). destruct (join_from random (S fuel) Tuic5 by_id _ None r) as [[[id|] n'] r']; [done|]. destruct IH as (Hall & Hn' & ->). split; [|done]. intros [|k] Hk.
    + rewrite Z.add_0_r, Z.mod_small by lia. by rewrite Ha.
    + specialize (Hall k ltac:(lia)). rewrite Z.add_mod_idemp_l in Hall by lia. by replace (n + Z.of_nat (S k)) with (n + 1 + Z.of_nat k) by lia.
Qed.

(** An association joins version 5 under an id that is free, and only when none
    of the 65536 is, none. *)
Theorem joined_under_a_free_id {R} (random : R -> option Z * R) u i r : version u = Tuic5 -> 0 <= next u < 65536 ->
  match join random u i r with
  | (Some id, u', r') => by_id u !! id = None /\ 0 <= id < 65536 /\ by_id u' = <[id := mkAssociation i []]> (by_id u) /\ 0 <= next u' < 65536
  | (None, u', r') => by_id u' = by_id u /\ (forall id, 0 <= id < 65536 -> is_Some (by_id u !! id))
  end.
Proof.
  intros Hv Hn. unfold join. rewrite Hv. pose proof (join_from_v5 random (Z.to_nat 65536) (by_id u) (next u) None r Hn ltac:(lia)) as Hj. destruct (join_from random (Z.to_nat 65536) Tuic5 (by_id u) (next u) None r) as [[[id|] n'] r'].
  - destruct Hj as (Hf & Hid & Hn' & _). done.
  - destruct Hj as (Hall & _). split; [done|]. intros id Hid. specialize (Hall (Z.to_nat ((id - next u) mod 65536))). pose proof (Z.mod_pos_bound (id - next u) 65536 ltac:(lia)). rewrite Z2Nat.id in Hall by lia. rewrite Z.add_mod_idemp_r in Hall by lia. replace (next u + (id - next u)) with id in Hall by lia. rewrite (Z.mod_small id) in Hall by lia. apply Hall. lia.
Qed.

Lemma v4_datagram id address payload max d from : 0 <= id < 2 ^ 32 -> get address = Some (Some from, length address) -> Z.of_nat (length payload) <= MAX_DATAGRAM -> payload <> [] -> datagram_v4 id address payload max = Ok d ->
  (length d <= max)%nat /\ parse Tuic4 d = Some (mkMessage id 0 1 0 (Some from) payload).
Proof.
  intros Hid Hg Hl Hne. unfold datagram_v4. destruct (Nat.ltb_spec (max - (HEADER_V4 + length address)) (length payload)) as [|Hle]; [done|]. intros Hd. assert (d = encode_v4 id address payload) as -> by congruence. split; [|by apply parse_v4].
  assert (length payload <> 0%nat) by (by destruct payload). unfold encode_v4, be32, be16, HEADER_V4 in *. rewrite !length_app. cbn [length]. lia.
Qed.

(** A packet of version 4 without a payload goes out whatever the room: its
    datagram is longer than was asked for when the header alone is. *)
Lemma empty_payload_is_not_refused id address max : exists d, datagram_v4 id address [] max = Ok d /\ length d = (HEADER_V4 + length address)%nat.
Proof.
  unfold datagram_v4. cbn [length]. rewrite (proj2 (Nat.ltb_ge _ _)) by lia. eexists. split; [done|]. unfold encode_v4, be32, be16, HEADER_V4. rewrite !length_app. cbn [length]. lia.
Qed.

(** C35: a connection's associations take whatever comes without a panic, with at
    most eight packets of each under way and none of them longer than UDP allows;
    a target's address is read back as it, and a packet of version 4 as it was sent;
    and up to eight packets of an association of version 5, each sent in datagrams no longer than
    was asked for under an id of its own, are in the carrier's inbox as they were
    once all of each came, however their datagrams are interleaved, lost, and mixed
    with what is not the association's. *)
Theorem packets_arrive :
  (forall u ds, associations_ok u -> exists u', deliver_all u ds = Some u' /\ associations_ok u')
  /\ (forall wire_host target address h, put wire_host target = Ok address -> host_ok wire_host (host target) -> 0 <= port target < 65536 -> reads_as wire_host (host target) = Some h ->
    get address = Some (Some (mkTarget h (port target)), length address))
  /\ (forall id address payload max d from, 0 <= id < 2 ^ 32 -> get address = Some (Some from, length address) -> Z.of_nat (length payload) <= MAX_DATAGRAM -> payload <> [] -> datagram_v4 id address payload max = Ok d ->
    (length d <= max)%nat /\ parse Tuic4 d = Some (mkMessage id 0 1 0 (Some from) payload))
  /\ (forall id sent u i (waiting : list Packet) arrivals,
    0 <= id < 65536 -> Forall (goes_out id) sent -> NoDup (o_packet <$> sent) -> (length sent <= UNDER_WAY)%nat -> (length waiting + length sent <= INBOX)%nat ->
    associations_ok u -> version u = Tuic5 -> by_id u !! id = Some (mkAssociation i []) -> only u id i -> inboxes u !! i = Some waiting ->
    Forall (fun d => Exists (fun o => d ∈ o_datagrams o) sent \/ elsewhere Tuic5 id d) arrivals -> NoDup (filter (fun d => ~ elsewhere Tuic5 id d) arrivals) ->
    Forall (fun o => Forall (fun d => (length d <= o_max o)%nat) (o_datagrams o)) sent
    /\ exists u' out, deliver_all u arrivals = Some u' /\ inboxes u' !! i = Some (waiting ++ out) /\ out ≡ₚ (fun o => (o_payload o, o_from o)) <$> filter (fun o => Forall (fun d => d ∈ arrivals) (o_datagrams o)) sent).
Proof.
  split; [intros; by apply tuic_all_total|]. split; [by apply get_put|]. split; [by apply v4_datagram|]. intros id sent u i waiting arrivals Hid Hsent Hids Hmany Hroom Hok Hv Ha Ho Hi Harr Hn. destruct (jobs_exist id sent Hsent) as (Hlen & jobs & Hj). split; [done|]. destruct (jobs_ids _ _ _ Hj) as (Hp & Hl & Hjok). rewrite <- Hp in Hids. rewrite <- Hl in Hmany, Hroom.
  destruct (reached_all id jobs Hid Hjok Hids Hmany i waiting Hroom arrivals u []) as (u' & Hall & _ & _ & _ & _ & out & Hi' & Hout).
  - split; [done|]. split; [done|]. split; [done|]. assert (Hnone : rows id [] jobs = [] /\ wholes id [] jobs = []).
    { clear - Hjok. unfold rows, wholes. induction Hjok as [|j jobs (_ & _ & Hn & _) _ [IH1 IH2]]; [done|]. cbn. unfold under_way, whole. destruct (none_came id j) as [-> _]. rewrite Nat.ltb_irrefl, andb_false_r. replace (length (j_parts j) =? 0)%nat with false by (symmetry; apply Nat.eqb_neq; lia). done. }
    destruct Hnone as [-> ->]. split; [by exists []|]. exists []. by rewrite app_nil_r.
  - eapply Forall_impl; [exact Harr|]. intros d [(o & Hos & Hd)%Exists_exists|]; [left|by right]. apply list_elem_of_lookup in Hos as (n & Hos). destruct (Forall2_lookup_l _ _ _ _ _ Hj Hos) as (j & Hjn & (_ & _ & _ & _ & He)). rewrite He in Hd. apply list_elem_of_lookup in Hd as (k & Hk). rewrite list_lookup_imap in Hk. destruct (j_parts j !! k) as [p|] eqn:Hpk; [|done]. cbn in Hk. injection Hk as <-. exists j, k, p. split; [by eapply list_elem_of_lookup_2|done].
  - done.
  - intros d _ _ Hx. by apply not_elem_of_nil in Hx.
  - exists u', out. split; [done|]. split; [done|]. rewrite Hout. by rewrite (jobs_wholes _ _ sent).
Qed.

(** Three packets of association 3 with a datagram of another between: two in
    fragments, of which the second loses one, and one whole. *)
Definition a_source : Target := mkTarget (IpLiteral (V4 16909060)) 53.
Definition its_address : list Z := [1; 1; 2; 3; 4; 0; 53].
Definition sending (packet : Z) (payload : list Z) : Outgoing := mkOutgoing packet its_address a_source payload 20 match datagrams 3 packet its_address payload 20 with Ok ds => ds | Err _ => [] end.
Definition all_sent : list Outgoing := [sending 0 [1; 2; 3; 4; 5]; sending 1 [6; 7; 8; 9]; sending 2 [10]].
Definition all_came : list (list Z) := match o_datagrams <$> all_sent with [[a; b]; [c; d]; [e]] => [b; d; encode 4 0 1 0 its_address [9]; e; a] | _ => [] end.
Definition a_connection : Udp := mkUdp Tuic5 {[ 3 := mkAssociation 0 [] ]} 4 false {[ 0%nat := [] ]}.

Lemma packets_arrive_witness : exists u' (out : list Packet), deliver_all a_connection all_came = Some u' /\ inboxes u' !! 0%nat = Some out /\ out ≡ₚ [([1; 2; 3; 4; 5], a_source); ([10], a_source)].
Proof.
  destruct (proj2 (proj2 (proj2 packets_arrive)) 3 all_sent a_connection 0%nat [] all_came) as [_ (u' & out & Hu & Hi & Ho)].
  - lia.
  - unfold all_sent. repeat constructor; try (by vm_compute).
  - apply (bool_decide_unpack _). by vm_compute.
  - cbn. unfold UNDER_WAY. lia.
  - cbn. unfold INBOX. lia.
  - intros id a. cbn [a_connection by_id]. intros [<- <-]%lookup_singleton_Some. split; [cbn; unfold UNDER_WAY; lia|]. split; constructor.
  - done.
  - by vm_compute.
  - intros id a Hne. cbn [a_connection by_id]. intros [<- _]%lookup_singleton_Some. done.
  - by vm_compute.
  - apply (bool_decide_unpack _). by vm_compute.
  - apply (bool_decide_unpack _). by vm_compute.
  - exists u', out. split; [exact Hu|]. split; [exact Hi|]. by vm_compute in Ho |- *.
Defined.
